(* ===== verification/_CoqProject ===== *)
-Q . S2P
Prelude.v
Codec.v
Types.v
RaftLog.v
Client.v
Msg.v
Kv.v
RaftState.v
Raft.v
RaftNode.v
Cluster.v
RaftCommit.v
Rng.v
Time.v
Wal.v
WalState.v
WalSegments.v
WalRecovery.v
Driver.v
DriverLog.v
RaftTypes.v
LogMatching.v
Ancestry.v
Commitment.v
NodeSafety.v
NodeStep.v
StateSafety.v
DriverSync.v
Durability.v
Invariants.v
InvSpec.v
InvCluster.v
Liveness.v
History.v
Lin.v
LinSearch.v
LinSpec.v
Trace.v
Fault.v
Kernel.v
Sim.v
KernelRun.v
KernelTime.v
KernelDisk.v
KernelNet.v
Partition.v
Chan.v
Session.v
Workload.v
Scenario.v
Numerals.v
Text.v
RealDisk.v
DiskContract.v
RealHost.v
Server.v
Chronoscope.v
