(* ===== verification/Prelude.v ===== *)
(** * Chronolog: a verification library

    Chronolog is a replicated key/value log, one Raft group, written to run
    unchanged on a real host and inside a deterministic simulator (Chronoscope).
    This library models the parts that decide its correctness as executable
    functions, and proves what each part promises to the others.

    ** The program and the files that model it

    - [Prelude]: machine words ([u64], [u32] arithmetic that wraps or
      saturates), results, sets in key order, filtering lemmas.
    - [Codec] ([chronolog/src/codec.rs]): [Writer_*] build byte strings,
      [Reader_*] are parsers over a cursor, a small state-and-error monad;
      [crc32c] is the table-driven checksum. The class [RoundTrip] is the contract
      every encoder and decoder pair of the later files instantiates; [Bounded]
      says a parser never leaves its buffer.
    - [Types] ([types.rs]): entries, hard state, snapshots, configurations with
      their quorum tests, and the encodings.
    - [RaftLog] ([log.rs]): the log in memory, operation by operation ([Log_*]),
      and the replay of membership changes.
    - [Client] and [Msg] ([client.rs], [msg.rs]): requests, replies, peer
      messages, frames, the envelope.
    - [Kv] ([kv.rs]): the state machine, with its session table.
    - [RaftState] and [Raft] ([raft.rs]): the [Raft] object as a record, and one
      function per method. A method on [&mut self] is a function from [Raft] to
      [Raft]; what it queues is in the field [r_pending], as in the code. Methods
      keep their names, except [Raft_new], [Raft_restore], [Raft_hard_state], and
      [report_persisted] for [Raft::set_persisted].
    - [RaftNode], [RaftCommit]: the theorems about one node. [apply_input] is one
      call of the driver ([node.rs]) on the object, [cycle] its ready/advance
      round, [node_reach] the states they lead to.
    - [Cluster]: several nodes, their disks and the messages in flight as a step
      relation: inputs, cycles that write the disk and then send, deliveries in
      any order and any number of times, restarts from what the disk holds.
      [LogMatching] adds the log on disk, which a crash may leave written in
      part.
    - [Ancestry], [Commitment], [NodeSafety], [NodeStep], [StateSafety]: what is
      committed stays. The positions of all logs as a tree; what a quorum's
      acknowledgements commit in a world of links and messages; what a node owes
      that world, kept by every handler of [raft.rs], alone and as the world
      grows; and the cluster whose crashes keep a discipline ([safe_step]).
    - [RaftTypes]: the ranges of the fields of [Raft] and of its outputs, and a
      cluster ([wired_step]) whose nodes exchange encoded frames.
    - [Wal], [WalState] ([wal.rs]): a segment's records and their recovery; the
      double-buffered hard state and snapshots. A file is the list of its bytes,
      a torn write a write of a prefix.
    - [WalSegments], [WalRecovery] ([wal.rs], and the files of [kernel.rs]): the
      [Wal] object over a simulated disk, each file with its durable bytes, its
      page cache and its pending operations. [wal_holds w i es] relates the object
      to the list of entries it stands for; [crash_file] is [power_loss].
    - [Driver] ([node.rs]): one turn of the driver's loop, from a batch of events to
      the frames and replies it sends; [DriverLog] and [DriverSync] prove what
      [persist] and [reconcile] do to the log on disk.
    - [Durability]: drivers over disks that lose power.
    - [Session] ([client.rs], second part): the client's retry loop over a world
      that chooses the order of replies and timers; a deadline comes only from a
      timer that was armed, and a wait with nothing to wait for has no result.
    - [Chan] ([chan.rs]): the channel, a queue with the wakers of its receivers.
    - [Rng], [Time] ([chrono-sim/src/rng.rs], [time.rs]): the generators, the
      draws over any generator (class [Rng]), latency distributions, and time.
    - [Trace], [Fault] ([trace.rs], [fault.rs]): the recorder with its hash; the
      fault policies and their presets.
    - [Kernel], [Sim] ([kernel.rs]): the simulator. [Kernel] is the state behind
      its lock and the handles of a node (clock, network, storage, spawner),
      [Sim] power loss, crashes, chaos, partitions and the scheduler's loop. What
      a task does when polled is a parameter. The theorems are in [KernelRun]
      (time and scheduling), [KernelTime] (clocks), [KernelDisk], [KernelNet]
      and [Partition].
    - [Invariants], [Liveness] ([chrono-oracle/src/invariants.rs],
      [liveness.rs]): the safety oracles and the watchdog; [InvSpec] says what a
      report means, [InvCluster] ties the oracles to [Cluster].
    - [History], [Lin], [LinSearch], [LinSpec] ([history.rs],
      [linearizability.rs]): recorded histories and the checker; what its search
      explores and what its verdicts mean.
    - [Workload], [Scenario] ([scenario.rs]): the clients and the membership
      controller of an experiment; its loops, recovery and report, over the
      class [Simulator], of which the kernel is proved to be an instance.
    - [Numerals], [Text] (what [core::fmt] and [str::parse] do here, and the
      [Display]s of time, events, configurations and determinism reports): texts
      as strings; the names of segment files, seeds, the library's determinism
      guard.
    - [RealDisk], [DiskContract] ([chrono-sim/src/real.rs], the storage half, and
      [traits.rs]): the system calls and the code over them; [spec_op] is what the
      traits [File] and [Storage] promise, and both disks refine it.
    - [RealHost] ([real.rs], the rest): the executor and its wakers as a step
      relation, the UDP transport, the clock, the tracer, the runtime.
    - [Server], [Chronoscope] ([chronolog-server/src/main.rs],
      [chronoscope/src/main.rs]): the two programs. The threads of [check] and
      [swarm] are a step relation over their shared counters, in which a thread
      inside a run that never ends makes no step.

    ** What the theorems show

    - Consensus. [Cluster.election_safety]: one leader per term, whatever the
      interleaving, loss, duplication, reordering and restarts. It rests on the
      node theorems [ballot_only_moves_forward], [granted_votes_are_recorded]
      and [persist_before_send], and on [quorum_intersection]. [commit_rule] is
      the condition under which a leader commits; [commit_stays_in_log] and
      [committed_in_order] are what the state machine relies on;
      [joint_transition_overlaps] covers a change of membership.
    - [LogMatching.logs_match]: two logs of the cluster that share an entry
      agree below it. [links] reads a log as entries with the term before each;
      [outcome_input] says a step makes at most one link, at the end of a leader's
      log, and [one_step_inv] that no two links share an index and term.
    - [StateSafety.committed_entries_never_change], State Machine Safety, and
      [leaders_hold_what_is_committed], Leader Completeness: for more than one
      voter, and crashes that leave on disk the old hard state with the old log,
      or the new one with the log in memory as far as it was written, less at most
      what the other of the two logs contradicts. [safe_inv] is the invariant.
      [Durability] has crashes of the driver that break the discipline.
    - The log. [merge_correct] and [merge_idempotent] say what an append does to a
      follower's log, delivered once or more; [compact_preserves] that compaction
      is invisible; [slice_is_filter] and [find_conflict_by_term_spec] give the
      two searches their meaning.
    - Storage. The log on disk implements a list of entries:
      [append_all_or_nothing], [truncate_from_keeps_the_prefix],
      [compact_through_drops_history], [read_gives_back]; [sync_makes_durable] and
      [recovery_keeps_what_was_synced] say what survives a crash.
      [torn_append_recovers], [rotted_record_recovers] and [scan_segment_sound]
      say what recovery makes of one damaged segment; [hard_state_save_is_atomic]
      and [snapshot_save_is_atomic] that a crash during a save loses at most that
      save.
    - The state machine. [apply_refines_map] relates the store to an abstract map
      with sessions; [retry_never_reapplies] and [retry_returns_same_answer] are
      exactly-once; [history_is_immutable], [apply_keeps_histories] and
      [snapshot_restore] cover versions and snapshots.
    - Types. [values_keep_their_types]: in a cluster that talks in frames every
      field of every node stays in the range of its Rust type, and every frame
      decodes to the message it was made from.
    - Bytes. [wire_round_trip], the [unframe_*] theorems, and the checksum's
      guarantee [crc32c_detects_byte_error].
    - Randomness. [below_unbiased], [below_returns], [weighted_index_spec],
      [shuffle_permutes] and the algebra of the generator.
    - The driver. [persist_mirrors_the_log]: after [persist] every way to lose
      power leaves the log the messages depend on; [turns_keep_the_log_honest]:
      refused writes included, but for a refused snapshot.
    - The client. [a_call_ends_and_claims_no_more], [a_call_takes_effect_once] and
      [late_events_change_nothing]; [channel_is_fifo_and_wakes] is what it and
      the driver rely on.
    - The simulator. [run_ends_as_reported] and [busy_loop_is_reported] (the
      scheduler), [sleep_is_measured_on_the_own_clock], [no_packet_is_forged],
      [send_is_an_unreliable_datagram] and [corruption_is_rejected] (the
      network), [partitions_heal_independently], [crash_is_a_power_loss]: a
      crash is the [crash_file] of the recovery theorems, [fsync_is_a_barrier],
      [quota_is_kept]; [hash_of_a_canonical_encoding] for the trace.
    - The oracles. [oracles_are_exact]: what is reported is broken, and what is
      broken is reported, but for two properties of which it says what exactly is
      detected; [consensus_oracles_stay_silent] and
      [election_oracle_stays_silent] on the modelled consensus; [leaderless_time_is_reported] and
      [recorded_stalls_are_sustained] for the watchdog.
    - The checker. [check_always_answers], [reported_violations_are_real],
      [linearizability_is_local], [unnested_pass_is_proof].
    - Experiments. [every_experiment_reports], [reports_are_exact],
      [clients_record_what_they_saw], [every_write_is_distinct],
      [the_controller_is_careful].
    - The real host. [both_disks_answer_alike]: a node that meets no refusal
      sees the same files and answers on either disk; [disk_loops_end];
      [a_wake_is_never_lost]; [udp_carries_frames].
    - Texts. [read_printed] inverts printing at any radix; with it
      [seeds_read_back], [metrics_are_read_back], and [listing_is_in_log_order]: sorted
      file names are sorted indices.
    - The programs. [the_workers_return] (unless a run never ends) and [the_exit_code_is_the_verdict],
      on any number of threads; [the_timeline_is_a_prefix_of_the_story];
      [server_starts_in_its_cluster], [health_tells_of_the_driver].
    - Flaws, theorems where the code does not do what its comments say:
      [a_crash_can_undo_a_committed_write], by way of
      [a_repeated_append_unsyncs_the_log]; [a_crash_leaves_a_stale_suffix];
      [refused_save_endangers_the_vote], [recovery_can_skip_a_hole],
      [conflict_hint_repeats_the_probe], [recovery_forgets_bootstrap_voters],
      [compaction_forgets_old_voters], [ready_is_not_regenerated],
      [full_disk_skips_a_snapshot], [silence_keeps_the_hint],
      [a_stale_read_can_pass], [late_unknown_write_is_flagged],
      [an_incomplete_leader_passes], [a_short_life_hides_lost_data],
      [an_advancing_follower_is_called_stuck], [zero_sleep_is_never_reported],
      [sequence_numbers_repeat], [overlapping_fsyncs_cover_later_writes],
      [a_crash_leaks_quota], [stale_heal_opens_a_new_partition],
      [answers_go_to_the_wrong_change], [silence_hangs_the_harness],
      [a_full_device_is_not_recognised], [clients_cannot_be_answered],
      [an_oversized_append_is_dropped_for_ever], [concurrent_writes_collide],
      [the_printed_command_drops_flags], [bare_hex_is_ambiguous],
      [deliveries_are_not_shown], [some_counters_are_not_exported],
      [a_failing_run_is_not_counted].

    ** Integers, bounds and fuel

    Integers are [Z] with the code's width written where an operation can leave
    it: [+64] and [+32] wrap, as in the release profile, [ssub] and its kin
    saturate. Theorems that need room name it: [term_room] and [log_room] keep a
    term or an index below [2^64 - 1]. [scan_loop] has one unit of fuel per byte
    and one more, and [scan_segment_sound] proves it is enough, every round
    consuming at least nine bytes. Byte counts and statistics of the
    write-ahead log are unbounded. [below] draws until it accepts, so its fuel is
    the number of draws; [below_returns] gives the fuel at which it returns.
    The simulator's draws take their fuel from one parameter. [run_until] takes
    the number of rounds it may make, a round being a poll or an event;
    [busy_loop_is_reported] bounds it for a busy loop, and [tick_loop] shows
    how many a slice takes. [check] takes its fuel from the budget of the search,
    and [check_always_answers] says it suffices. The loops of an experiment take
    the number of slices, at most the duration divided by the slice, rounded up.
    [HashMap]s and [BTreeMap]s are [gmap]s; where the code iterates one in key
    order the model sorts the keys ([sorted_elements], [sorted_keys]).
    [debug_assert!] is absent from a release build and from the model.

    ** Not modelled

    Threads, locks and the raw waker of the kernel: a poll is a function, and a
    waker the name of a task. The tasks of the driver other than its loop: the
    acceptor, the writers' queues, reconnection. Failures of storage calls of the
    write-ahead log other than a refused write, and a crash in the middle of one
    of its operations other than a write. What a crash does to a real file system,
    errors of sockets, the parsing of arguments and of socket addresses. The texts
    of the oracles' reports and of messages, and figures computed in [f64]. *)

From Stdlib Require Import ZArith Lia.
From stdpp Require Import base tactics list list_numbers gmap sets sorting.

Open Scope Z_scope.

(** ** Machine words *)

(** The moduli of the unsigned machine types, written as literals so that
    [lia] sees constants. *)
Abbreviation U8 := 256.
Abbreviation U32 := 4294967296.
Abbreviation U64 := 18446744073709551616.

Declare Scope word_scope.
Delimit Scope word_scope with word.

(** Release-profile addition of [u64] and [u32] wraps around. *)
Definition wadd64 (x y : Z) : Z := (x + y) mod U64.
Definition wadd32 (x y : Z) : Z := (x + y) mod U32.
Definition wmul64 (x y : Z) : Z := (x * y) mod U64.
(** [saturating_sub], [saturating_add] and [saturating_mul] of [u64]. *)
Definition ssub (x y : Z) : Z := Z.max 0 (x - y).
Definition sadd64 (x y : Z) : Z := Z.min (U64 - 1) (x + y).
Definition smul64 (x y : Z) : Z := Z.min (U64 - 1) (x * y).

Notation "x +64 y" := (wadd64 x y) (at level 50, left associativity) : word_scope.
Notation "x +32 y" := (wadd32 x y) (at level 50, left associativity) : word_scope.
Notation "x *64 y" := (wmul64 x y) (at level 40, left associativity) : word_scope.
Open Scope word_scope.

Definition is_u8 (x : Z) : Prop := 0 <= x < U8.
Definition is_u32 (x : Z) : Prop := 0 <= x < U32.
Definition is_u64 (x : Z) : Prop := 0 <= x < U64.

#[export] Instance is_u8_dec x : Decision (is_u8 x).
Proof. unfold is_u8. apply _. Defined.
#[export] Instance is_u32_dec x : Decision (is_u32 x).
Proof. unfold is_u32. apply _. Defined.
#[export] Instance is_u64_dec x : Decision (is_u64 x).
Proof. unfold is_u64. apply _. Defined.

Lemma wadd64_small x y : 0 <= x + y < U64 -> x +64 y = x + y.
Proof. intros H. unfold wadd64. apply Z.mod_small. exact H. Qed.

Lemma wadd64_range x y : is_u64 (x +64 y).
Proof. apply Z.mod_pos_bound. lia. Qed.

Lemma wadd32_small x y : 0 <= x + y < U32 -> x +32 y = x + y.
Proof. intros H. unfold wadd32. apply Z.mod_small. exact H. Qed.

(** ** Results and sets in key order *)

Inductive result (E A : Type) : Type :=
| Ok (a : A)
| Err (e : E).
Arguments Ok {E A} _.
Arguments Err {E A} _.

Definition is_ok {E A} (r : result E A) : bool :=
  match r with Ok _ => true | Err _ => false end.

(** A [BTreeSet<u32>] iterates in ascending order; a [gset] forgets it, so
    iteration goes through the sorted list of its elements. *)
Definition sorted_elements (s : gset Z) : list Z := merge_sort Z.le (elements s).

Lemma sorted_elements_perm (s : gset Z) : sorted_elements s ≡ₚ elements s.
Proof. apply merge_sort_Permutation. Qed.

Lemma elem_of_sorted_elements (s : gset Z) x : x ∈ sorted_elements s <-> x ∈ s.
Proof. rewrite sorted_elements_perm. apply elem_of_elements. Qed.

Lemma sorted_elements_NoDup (s : gset Z) : NoDup (sorted_elements s).
Proof. rewrite sorted_elements_perm. apply NoDup_elements. Qed.

Lemma sorted_elements_length (s : gset Z) : length (sorted_elements s) = size s.
Proof. rewrite sorted_elements_perm. reflexivity. Qed.

Lemma list_to_set_sorted_elements (s : gset Z) :
  list_to_set (sorted_elements s) = s.
Proof. apply set_eq. intros x. rewrite elem_of_list_to_set. apply elem_of_sorted_elements. Qed.

(** ** Filtering lists *)

Section Filters.
Context {A B : Type} (P : A -> Prop) `{!forall x, Decision (P x)}.

Lemma filter_none (l : list A) : Forall (fun x => ~ P x) l -> filter P l = [].
Proof. induction 1 as [|x l Hx _ IH]; [done|]. by rewrite filter_cons_False. Qed.

Lemma filter_all (l : list A) : Forall P l -> filter P l = l.
Proof. induction 1 as [|x l Hx _ IH]; [done|]. by rewrite filter_cons_True, IH. Qed.

Lemma filter_ext_Forall (Q : A -> Prop) `{!forall x, Decision (Q x)} (l : list A) :
  Forall (fun x => P x <-> Q x) l -> filter P l = filter Q l.
Proof.
  induction 1 as [|x l Hx _ IH]; [done|]. rewrite !filter_cons, IH.
  destruct (decide (P x)), (decide (Q x)); naive_solver.
Qed.

Lemma length_filter_map (f : B -> A) (l : list B) :
  length (filter P (map f l)) = length (filter (fun y => P (f y)) l).
Proof.
  induction l as [|y l IH]; simpl; [done|]. rewrite !filter_cons.
  case_decide; simpl; by rewrite IH.
Qed.

Lemma length_filter_Permutation (l k : list A) :
  l ≡ₚ k -> length (filter P l) = length (filter P k).
Proof. intros Hp. by rewrite Hp. Qed.
End Filters.

(** Decides a closed proposition by computation. *)
Ltac by_decide := apply (bool_decide_unpack _); vm_compute; exact I.
