(* ===== verification/Codec.v ===== *)
(** * The binary encoding: [crates/chronolog/src/codec.rs]

    [Writer] is the growing byte vector, [Reader] the bounds-checked cursor.
    A decoder is a function from a reader to a result and the reader it leaves
    behind, also when it fails, as the Rust methods take [&mut self].
    The class [RoundTrip] is the contract an encoder and its decoder promise to
    the code that composes them; the files of the wire types discharge it for
    their own formats. The last part is CRC32C: the byte-wise table routine, its
    bit-wise reference, and what the checksum detects. *)

From Stdlib Require Import ZArith Lia.
From stdpp Require Import base tactics list list_numbers gmap sets sorting.
From S2P Require Import Prelude.

Open Scope Z_scope.

(** ** Errors *)

Inductive DecodeError : Type :=
| Truncated
| BadTag (t : Z)
| BadLength (n : Z)
| BadChecksum (expected actual : Z)
| Invalid.

#[export] Instance DecodeError_eq_dec : EqDecision DecodeError.
Proof. solve_decision. Defined.

Definition MAX_FRAME : Z := 64 * 1024 * 1024.

(** ** Little-endian integers *)

Fixpoint le_bytes (n : nat) (v : Z) : list Z :=
  match n with
  | O => []
  | S n' => v mod U8 :: le_bytes n' (v / U8)
  end.

Fixpoint le_value (bs : list Z) : Z :=
  match bs with
  | [] => 0
  | b :: bs' => b + U8 * le_value bs'
  end.

(** ** Writing *)

Definition Writer : Type := list Z.

(** The builder chains of the source, [w.u8(1).u64(x)]. *)
Declare Scope codec_scope.
Notation "w |> f" := (f w) (at level 50, left associativity, only parsing) : codec_scope.
Open Scope codec_scope.

Definition Writer_new : Writer := [].
Definition Writer_u8 (v : Z) (w : Writer) : Writer := w ++ [v].
Definition Writer_u32 (v : Z) (w : Writer) : Writer := w ++ le_bytes 4 v.
Definition Writer_u64 (v : Z) (w : Writer) : Writer := w ++ le_bytes 8 v.
Definition Writer_bool (v : bool) (w : Writer) : Writer := Writer_u8 (Z.b2z v) w.

(** [v.len() as u32] keeps the low 32 bits of the length. *)
Definition len_u32 {A} (l : list A) : Z := Z.of_nat (length l) mod U32.

Definition Writer_bytes (v : list Z) (w : Writer) : Writer :=
  Writer_u32 (len_u32 v) w ++ v.

Definition Writer_seq {A} (f : A -> Writer -> Writer) (items : list A) (w : Writer) : Writer :=
  fold_left (fun w x => f x w) items (Writer_u32 (len_u32 items) w).

Definition Writer_opt {A} (f : A -> Writer -> Writer) (v : option A) (w : Writer) : Writer :=
  match v with
  | None => Writer_u8 0 w
  | Some x => f x (Writer_u8 1 w)
  end.

(** ** Reading *)

Record Reader : Type := mkReader { rd_buf : list Z; rd_pos : nat }.

Definition Parser (A : Type) : Type := Reader -> result DecodeError A * Reader.

#[export] Instance Parser_ret : MRet Parser := fun A a r => (Ok a, r).
#[export] Instance Parser_bind : MBind Parser := fun A B k p r =>
  match p r with
  | (Ok a, r') => k a r'
  | (Err e, r') => (Err e, r')
  end.
Definition Parser_fail {A} (e : DecodeError) : Parser A := fun r => (Err e, r).

Definition Reader_new (buf : list Z) : Reader := mkReader buf 0.

Definition Reader_remaining (r : Reader) : nat := (length (rd_buf r) - rd_pos r)%nat.

Definition Reader_is_done (r : Reader) : bool := bool_decide (length (rd_buf r) <= rd_pos r)%nat.

Definition Reader_take (n : nat) : Parser (list Z) := fun r =>
  if bool_decide (Reader_remaining r < n)%nat then (Err Truncated, r)
  else (Ok (take n (drop (rd_pos r) (rd_buf r))), mkReader (rd_buf r) (rd_pos r + n)).

Definition Reader_u8 : Parser Z :=
  b ← Reader_take 1; mret (le_value b).

Definition Reader_u32 : Parser Z :=
  b ← Reader_take 4; mret (le_value b).

Definition Reader_u64 : Parser Z :=
  b ← Reader_take 8; mret (le_value b).

Definition Reader_bool : Parser bool :=
  n ← Reader_u8;
  if n =? 0 then mret false
  else if n =? 1 then mret true
  else Parser_fail (BadTag n).

(** The guard [if n > self.remaining() { return Err(BadLength(n)) }]. *)
Definition Reader_check_len (n : Z) : Parser unit := fun r =>
  if Z.of_nat (Reader_remaining r) <? n then (Err (BadLength n), r) else (Ok tt, r).

Definition Reader_bytes : Parser (list Z) :=
  n ← Reader_u32;
  _ ← Reader_check_len n;
  Reader_take (Z.to_nat n).

(** The loop [for _ in 0..n { out.push(f(self)?) }]. *)
Fixpoint Reader_repeat {A} (f : Parser A) (n : nat) : Parser (list A) :=
  match n with
  | O => mret []
  | S n' => x ← f; xs ← Reader_repeat f n'; mret (x :: xs)
  end.

Definition Reader_seq {A} (f : Parser A) : Parser (list A) :=
  n ← Reader_u32;
  _ ← Reader_check_len n;
  Reader_repeat f (Z.to_nat n).

Definition Reader_opt {A} (f : Parser A) : Parser (option A) :=
  n ← Reader_u8;
  if n =? 0 then mret None
  else if n =? 1 then x ← f; mret (Some x)
  else Parser_fail (BadTag n).

Definition Reader_rest (r : Reader) : list Z * Reader :=
  (drop (rd_pos r) (rd_buf r), mkReader (rd_buf r) (length (rd_buf r))).

(** ** CRC32C *)

Definition not32 (x : Z) : Z := Z.lxor x (U32 - 1).

(** One round of the inner loop that fills the table. *)
Definition crc_round (c : Z) : Z :=
  if negb (Z.land c 1 =? 0) then Z.lxor 0x82F63B78 (Z.shiftr c 1) else Z.shiftr c 1.

Definition table : list Z := map (Nat.iter 8 crc_round) (seqZ 0 256).

Definition crc_step (crc b : Z) : Z :=
  Z.lxor (table !!! Z.to_nat (Z.land (Z.lxor crc b) 0xFF)) (Z.shiftr crc 8).

Definition crc32c_update (seed : Z) (data : list Z) : Z :=
  not32 (fold_left crc_step data (not32 seed)).

Definition crc32c (data : list Z) : Z := crc32c_update 0 data.

(** * Theorems *)

(** ** Little-endian lemmas *)

Lemma le_bytes_length n v : length (le_bytes n v) = n.
Proof. revert v. induction n as [|n IH]; intros v; simpl; [done|by rewrite IH]. Qed.

Lemma le_bytes_u8 n v : Forall is_u8 (le_bytes n v).
Proof.
  revert v. induction n as [|n IH]; intros v; simpl; constructor; [|apply IH].
  apply Z.mod_pos_bound. lia.
Qed.

Lemma le_value_le_bytes n v : le_value (le_bytes n v) = v mod U8 ^ Z.of_nat n.
Proof.
  revert v. induction n as [|n IH]; intros v; cbn [le_bytes le_value].
  { by rewrite Z.pow_0_r, Z.mod_1_r. }
  rewrite IH, Nat2Z.inj_succ, Z.pow_succ_r by lia.
  rewrite Z.rem_mul_r by lia. reflexivity.
Qed.

Lemma le_value_range bs : Forall is_u8 bs -> 0 <= le_value bs < U8 ^ Z.of_nat (length bs).
Proof.
  induction 1 as [|b bs Hb _ IH]; cbn [le_value length]; [lia|].
  rewrite Nat2Z.inj_succ, Z.pow_succ_r by lia. unfold is_u8 in Hb. nia.
Qed.

Lemma le_bytes_le_value bs : Forall is_u8 bs -> le_bytes (length bs) (le_value bs) = bs.
Proof.
  induction 1 as [|b bs Hb _ IH]; cbn [le_bytes le_value length]; [done|].
  unfold is_u8 in Hb.
  rewrite Z.mul_comm, Z.mod_add, Z.mod_small, Z.div_add, Z.div_small, Z.add_0_l by lia.
  by rewrite IH.
Qed.

(** ** The cursor *)

Definition rest_of (r : Reader) : list Z := drop (rd_pos r) (rd_buf r).
Definition adv (r : Reader) (n : nat) : Reader := mkReader (rd_buf r) (rd_pos r + n).

Definition reader_ok (r : Reader) : Prop := (rd_pos r <= length (rd_buf r))%nat.

Lemma rest_of_adv r bs tail : rest_of r = bs ++ tail -> rest_of (adv r (length bs)) = tail.
Proof.
  unfold rest_of, adv; simpl. intros H.
  rewrite <- drop_drop, H. apply drop_app_length.
Qed.

Lemma rest_of_remaining r : length (rest_of r) = Reader_remaining r.
Proof. apply length_drop. Qed.

Lemma adv_adv r n m : adv (adv r n) m = adv r (n + m).
Proof. unfold adv; simpl. f_equal. lia. Qed.

Lemma Reader_take_spec r bs tail n :
  rest_of r = bs ++ tail -> length bs = n ->
  Reader_take n r = (Ok bs, adv r n).
Proof.
  intros H <-. unfold Reader_take.
  rewrite bool_decide_eq_false_2.
  - fold (rest_of r). rewrite H, take_app_length. done.
  - rewrite <- rest_of_remaining, H, length_app. lia.
Qed.

(** A decoder is bounded when, from a valid cursor, it leaves the buffer alone
    and moves the cursor forward without passing the end, whether it succeeds
    or fails. *)
Class Bounded {A} (p : Parser A) : Prop :=
  bounded : forall r, reader_ok r ->
    rd_buf (p r).2 = rd_buf r /\ (rd_pos r <= rd_pos (p r).2 <= length (rd_buf r))%nat.

#[export] Instance Bounded_ret {A} (a : A) : Bounded (mret a).
Proof. intros r Hr. unfold reader_ok in Hr. simpl. split; [done|lia]. Qed.

#[export] Instance Bounded_fail {A} e : Bounded (@Parser_fail A e).
Proof. intros r Hr. unfold reader_ok in Hr. simpl. split; [done|lia]. Qed.

#[export] Instance Bounded_bind {A B} (p : Parser A) (k : A -> Parser B) :
  Bounded p -> (forall a, Bounded (k a)) -> Bounded (p ≫= k).
Proof.
  intros Hp Hk r Hr. unfold mbind, Parser_bind.
  destruct (Hp r Hr) as [Hb Hpos]. destruct (p r) as [[a|e] r'] eqn:E; simpl in *; [|by split].
  assert (Hr' : reader_ok r') by (unfold reader_ok; rewrite Hb; lia).
  destruct (Hk a r' Hr') as [Hb' Hpos']. rewrite Hb in *. split; [done|lia].
Qed.

#[export] Instance Bounded_if {A} (b : bool) (p q : Parser A) :
  Bounded p -> Bounded q -> Bounded (if b then p else q).
Proof. by destruct b. Qed.

#[export] Instance Bounded_take n : Bounded (Reader_take n).
Proof.
  intros r Hr. unfold Reader_take, reader_ok, Reader_remaining in *.
  case_bool_decide; simpl; split; try done; lia.
Qed.

#[export] Instance Bounded_check_len n : Bounded (Reader_check_len n).
Proof.
  intros r Hr. unfold Reader_check_len, reader_ok in *.
  destruct (Z.ltb _ _); simpl; split; try done; lia.
Qed.

#[export] Instance Bounded_u8 : Bounded Reader_u8.
Proof. apply _. Qed.
#[export] Instance Bounded_u32 : Bounded Reader_u32.
Proof. apply _. Qed.
#[export] Instance Bounded_u64 : Bounded Reader_u64.
Proof. apply _. Qed.
#[export] Instance Bounded_bool : Bounded Reader_bool.
Proof. apply _. Qed.
#[export] Instance Bounded_bytes : Bounded Reader_bytes.
Proof. apply _. Qed.

#[export] Instance Bounded_repeat {A} (f : Parser A) n : Bounded f -> Bounded (Reader_repeat f n).
Proof. intros Hf. induction n as [|n IH]; simpl; apply _. Qed.

#[export] Instance Bounded_seq {A} (f : Parser A) : Bounded f -> Bounded (Reader_seq f).
Proof. intros Hf. apply _. Qed.

#[export] Instance Bounded_opt {A} (f : Parser A) : Bounded f -> Bounded (Reader_opt f).
Proof. intros Hf. apply _. Qed.

(** ** What a decoder reads back *)

(** [parses p bs x]: on any cursor whose unread bytes start with [bs], [p]
    returns [x] and consumes exactly [bs]. *)
Definition parses {A} (p : Parser A) (bs : list Z) (x : A) : Prop :=
  forall r tail, rest_of r = bs ++ tail -> p r = (Ok x, adv r (length bs)).

(** The contract between an encoder and its decoder, on the values [ok]
    describes: the encoder appends, the decoder reads the value back, and the
    encoding is never empty (what the length guard of [Reader::seq] relies on). *)
Class RoundTrip {A} (ok : A -> Prop) (enc : A -> Writer -> Writer) (dec : Parser A) : Prop := {
  rt_enc x w : enc x w = w ++ enc x [];
  rt_parses x : ok x -> parses dec (enc x []) x;
  rt_nonempty x : (1 <= length (enc x []))%nat
}.

Create HintDb codec.

Lemma parses_ret {A} (x : A) : parses (mret x) [] x.
Proof. intros [buf pos] tail _. unfold adv. simpl. by rewrite Nat.add_0_r. Qed.

Lemma parses_bind {A B} (p : Parser A) (k : A -> Parser B) bs1 bs2 x y :
  parses p bs1 x -> parses (k x) bs2 y -> parses (p ≫= k) (bs1 ++ bs2) y.
Proof.
  intros Hp Hk r tail Hr. rewrite <- app_assoc in Hr. unfold mbind, Parser_bind.
  rewrite (Hp r _ Hr), (Hk (adv r (length bs1)) tail).
  - by rewrite adv_adv, length_app.
  - by eapply rest_of_adv.
Qed.

Lemma parses_bind_end {A B} (p : Parser A) (k : A -> Parser B) bs x y :
  parses p bs x -> parses (k x) [] y -> parses (p ≫= k) bs y.
Proof. intros Hp Hk. rewrite <- (app_nil_r bs). by eapply parses_bind. Qed.

Lemma parses_take n bs : length bs = n -> parses (Reader_take n) bs bs.
Proof. intros H r tail Hr. rewrite (Reader_take_spec r bs tail n) by done. by rewrite H. Qed.

Lemma parses_le n v : 0 <= v < U8 ^ Z.of_nat n ->
  parses (b ← Reader_take n; mret (le_value b)) (le_bytes n v) v.
Proof.
  intros Hv. eapply parses_bind_end; [apply parses_take, le_bytes_length|].
  rewrite le_value_le_bytes, Z.mod_small by done. apply parses_ret.
Qed.

Lemma parses_u8 v : is_u8 v -> parses Reader_u8 [v] v.
Proof.
  intros Hv. assert ([v] = le_bytes 1 v) as ->.
  { simpl. rewrite Z.mod_small by exact Hv. done. }
  by apply parses_le.
Qed.

Lemma parses_u32 v : is_u32 v -> parses Reader_u32 (le_bytes 4 v) v.
Proof. intros Hv. by apply parses_le. Qed.

Lemma parses_u64 v : is_u64 v -> parses Reader_u64 (le_bytes 8 v) v.
Proof. intros Hv. by apply parses_le. Qed.

Lemma parses_bool b : parses Reader_bool [Z.b2z b] b.
Proof.
  eapply parses_bind_end; [apply parses_u8; destruct b; by compute|].
  destruct b; apply parses_ret.
Qed.

(** The length guard passes whenever the bytes it counts are really there. *)
Lemma parses_check_len {A} n (k : Parser A) bs x :
  0 <= n <= Z.of_nat (length bs) -> parses k bs x -> parses (Reader_check_len n ≫= fun _ => k) bs x.
Proof.
  intros Hn Hk r tail Hr. unfold mbind, Parser_bind, Reader_check_len.
  destruct (Z.ltb_spec (Z.of_nat (Reader_remaining r)) n) as [H|H].
  - rewrite <- rest_of_remaining, Hr, length_app in H. lia.
  - by apply Hk with tail.
Qed.

Definition fits_u32 {A} (l : list A) : Prop := Z.of_nat (length l) < U32.

#[export] Instance fits_u32_dec {A} (l : list A) : Decision (fits_u32 l).
Proof. unfold fits_u32. apply _. Defined.

Lemma fits_len {A} (l : list A) : fits_u32 l -> len_u32 l = Z.of_nat (length l).
Proof. unfold fits_u32, len_u32. intros H. apply Z.mod_small. lia. Qed.

Lemma is_u32_len {A} (l : list A) : is_u32 (len_u32 l).
Proof. apply Z.mod_pos_bound. lia. Qed.

Lemma parses_bytes v : fits_u32 v -> parses Reader_bytes (le_bytes 4 (len_u32 v) ++ v) v.
Proof.
  intros Hv. eapply parses_bind; [apply parses_u32, is_u32_len|].
  rewrite fits_len by done. apply parses_check_len; [lia|].
  rewrite Nat2Z.id. by apply parses_take.
Qed.

Definition opt_ok {A} (ok : A -> Prop) (v : option A) : Prop :=
  match v with Some x => ok x | None => True end.

#[export] Instance opt_ok_dec {A} (ok : A -> Prop) `{!forall x, Decision (ok x)} v :
  Decision (opt_ok ok v).
Proof. destruct v; simpl; apply _. Defined.

Section Sequences.
Context {A : Type} {ok : A -> Prop} {enc : A -> Writer -> Writer} {dec : Parser A}.
Context `{HRT : !RoundTrip ok enc dec}.

Lemma fold_enc (items : list A) w :
  fold_left (fun w x => enc x w) items w = w ++ concat (map (fun x => enc x []) items).
Proof.
  revert w. induction items as [|x items IH]; intros w; simpl; [by rewrite app_nil_r|].
  by rewrite IH, (rt_enc x w), app_assoc.
Qed.

Lemma parses_repeat (items : list A) : Forall ok items ->
  parses (Reader_repeat dec (length items)) (concat (map (fun x => enc x []) items)) items.
Proof.
  induction 1 as [|x items Hx _ IH]; simpl; [apply parses_ret|].
  eapply parses_bind; [by apply rt_parses|].
  eapply parses_bind_end; [exact IH|apply parses_ret].
Qed.

Lemma concat_enc_length (items : list A) :
  (length items <= length (concat (map (fun x => enc x []) items)))%nat.
Proof.
  induction items as [|x items IH]; simpl; [done|].
  rewrite length_app. pose proof (rt_nonempty x). lia.
Qed.

Lemma Writer_seq_bytes items w :
  Writer_seq enc items w =
    w ++ le_bytes 4 (len_u32 items) ++ concat (map (fun x => enc x []) items).
Proof. unfold Writer_seq, Writer_u32. by rewrite fold_enc, app_assoc. Qed.

Lemma parses_seq (items : list A) : fits_u32 items -> Forall ok items ->
  parses (Reader_seq dec) (Writer_seq enc items []) items.
Proof.
  intros Hlen Hok. rewrite Writer_seq_bytes. simpl.
  eapply (parses_bind _ _ (le_bytes 4 _)); [apply parses_u32, is_u32_len|].
  rewrite fits_len by done.
  apply parses_check_len; [pose proof (concat_enc_length items); lia|].
  rewrite Nat2Z.id. by apply parses_repeat.
Qed.

Lemma Writer_opt_bytes v w :
  Writer_opt enc v w = w ++ match v with None => [0] | Some x => 1 :: enc x [] end.
Proof.
  destruct v as [x|]; [|done]. unfold Writer_opt, Writer_u8.
  by rewrite rt_enc, <- app_assoc.
Qed.

Lemma parses_opt (v : option A) : opt_ok ok v ->
  parses (Reader_opt dec) (Writer_opt enc v []) v.
Proof.
  intros Hok. rewrite Writer_opt_bytes. destruct v as [x|]; simpl.
  - eapply (parses_bind _ _ [1]); [by apply parses_u8|]. simpl.
    eapply parses_bind_end; [by apply rt_parses|apply parses_ret].
  - eapply parses_bind_end; [by apply parses_u8|]. simpl. apply parses_ret.
Qed.

(** Decoding inverts encoding, and two values with the same bytes are equal. *)
Lemma RoundTrip_decode x : ok x -> (dec (Reader_new (enc x []))).1 = Ok x.
Proof.
  intros Hx. rewrite (rt_parses x Hx (Reader_new (enc x [])) []); [done|].
  unfold rest_of; simpl. by rewrite app_nil_r.
Qed.

Lemma RoundTrip_injective x y : ok x -> ok y -> enc x [] = enc y [] -> x = y.
Proof.
  intros Hx Hy E. pose proof (RoundTrip_decode x Hx) as H.
  rewrite E, RoundTrip_decode in H by done. congruence.
Qed.
End Sequences.

#[export] Instance RoundTrip_u32 : RoundTrip is_u32 Writer_u32 Reader_u32.
Proof. split; [done|apply parses_u32|intros; simpl; lia]. Qed.

#[export] Instance RoundTrip_u64 : RoundTrip is_u64 Writer_u64 Reader_u64.
Proof. split; [done|apply parses_u64|intros; simpl; lia]. Qed.

#[export] Instance RoundTrip_bytes : RoundTrip fits_u32 Writer_bytes Reader_bytes.
Proof.
  split.
  - intros x w. unfold Writer_bytes, Writer_u32. by rewrite <- app_assoc.
  - apply parses_bytes.
  - intros x. unfold Writer_bytes, Writer_u32. simpl. lia.
Qed.

#[export] Hint Resolve parses_u8 parses_u32 parses_u64 parses_bool parses_bytes parses_ret
  is_u32_len : codec.

#[export] Hint Extern 2 (parses _ _ _) => apply rt_parses; solve [assumption | auto] : codec.

(** Reads one field after the other, then returns. *)
Ltac parse_fields :=
  repeat first
    [ apply parses_ret
    | eapply parses_bind; [solve [eauto with codec]|cbn beta iota]
    | eapply parses_bind_end; [solve [eauto with codec]|cbn beta iota] ].

(** Reads the tag byte of an enum and selects its branch. *)
Ltac parse_tag :=
  first
    [ eapply parses_bind; [apply parses_u8; by_decide|cbn [Z.eqb Pos.eqb]]
    | eapply parses_bind_end; [apply parses_u8; by_decide|cbn [Z.eqb Pos.eqb]] ].

(** Writes a chain of writer calls as the concatenation of its fields. *)
Lemma Writer_u8_app v w : Writer_u8 v w = w ++ [v].
Proof. done. Qed.
Lemma Writer_u32_app v w : Writer_u32 v w = w ++ le_bytes 4 v.
Proof. done. Qed.
Lemma Writer_u64_app v w : Writer_u64 v w = w ++ le_bytes 8 v.
Proof. done. Qed.
Lemma Writer_bool_app b w : Writer_bool b w = w ++ [Z.b2z b].
Proof. done. Qed.
Lemma Writer_bytes_app v w : Writer_bytes v w = w ++ Writer_bytes v [].
Proof. apply (rt_enc v w). Qed.
Lemma Writer_opt_app {A} {ok : A -> Prop} {enc dec} `{!RoundTrip ok enc dec} v w :
  Writer_opt enc v w = w ++ Writer_opt enc v [].
Proof. by rewrite (Writer_opt_bytes v w), (Writer_opt_bytes v []). Qed.

Ltac writer_fields :=
  repeat first
    [ rewrite Writer_u8_app | rewrite Writer_u32_app | rewrite Writer_u64_app
    | rewrite Writer_bool_app
    | match goal with |- context [Writer_bytes ?v ?w] =>
        lazymatch w with [] => fail | _ => rewrite (Writer_bytes_app v w) end end
    | match goal with |- context [Writer_opt ?e ?v ?w] =>
        lazymatch w with [] => fail | _ => rewrite (Writer_opt_app v w) end end ];
  rewrite <- ?app_assoc, ?app_nil_l.

#[export] Hint Extern 2 (parses (Reader_opt _) _ _) => apply parses_opt; assumption : codec.
#[export] Hint Extern 2 (parses (Reader_seq _) _ _) => apply parses_seq; assumption : codec.

(** ** CRC32C lemmas *)

Lemma crc_round_alt c :
  crc_round c = Z.lxor (if Z.testbit c 0 then 0x82F63B78 else 0) (Z.shiftr c 1).
Proof.
  unfold crc_round. replace (Z.land c 1) with (c mod 2) by (symmetry; apply (Z.land_ones c 1); lia).
  rewrite Zmod_odd, Z.bit0_odd. destruct (Z.odd c); simpl; by rewrite ?Z.lxor_0_l.
Qed.

Lemma crc_round_lxor a b : crc_round (Z.lxor a b) = Z.lxor (crc_round a) (crc_round b).
Proof.
  rewrite !crc_round_alt, Z.shiftr_lxor, Z.lxor_spec.
  set (x := Z.shiftr a 1). set (y := Z.shiftr b 1). set (p := 0x82F63B78).
  destruct (Z.testbit a 0), (Z.testbit b 0); cbn [xorb]; rewrite ?Z.lxor_0_l.
  - rewrite (Z.lxor_comm p x), <- Z.lxor_assoc, (Z.lxor_assoc x), Z.lxor_nilpotent.
    by rewrite Z.lxor_0_r.
  - by rewrite Z.lxor_assoc.
  - by rewrite <- !Z.lxor_assoc, (Z.lxor_comm p x).
  - done.
Qed.

Lemma crc_iter_lxor n a b :
  Nat.iter n crc_round (Z.lxor a b) = Z.lxor (Nat.iter n crc_round a) (Nat.iter n crc_round b).
Proof. induction n as [|n IH]; simpl; [done|]. by rewrite IH, crc_round_lxor. Qed.

Lemma crc_round_even y n : 0 <= n -> crc_round (Z.shiftl y (n + 1)) = Z.shiftl y n.
Proof.
  intros Hn. rewrite crc_round_alt, Z.shiftl_spec_low by lia.
  rewrite Z.lxor_0_l, Z.shiftr_shiftl_l by lia. f_equal. lia.
Qed.

Lemma crc_iter_shiftl y (n : nat) : Nat.iter n crc_round (Z.shiftl y (Z.of_nat n)) = y.
Proof.
  induction n as [|n IH]; [apply Z.shiftl_0_r|].
  rewrite Nat.iter_succ_r, Nat2Z.inj_succ. unfold Z.succ. by rewrite crc_round_even by lia.
Qed.

Lemma split_low_byte c : c = Z.lxor (Z.land c 255) (Z.shiftl (Z.shiftr c 8) 8).
Proof.
  apply Z.bits_inj'. intros n Hn. change 255 with (Z.ones 8).
  rewrite Z.lxor_spec, Z.land_spec, Z.shiftl_spec by lia.
  destruct (Z.lt_ge_cases n 8) as [H|H].
  - rewrite Z.ones_spec_low, (Z.testbit_neg_r _ (n - 8)) by lia.
    by rewrite andb_true_r, xorb_false_r.
  - rewrite Z.ones_spec_high, Z.shiftr_spec by lia.
    rewrite andb_false_r, xorb_false_l. f_equal. lia.
Qed.

Lemma table_lookup i : 0 <= i < 256 -> table !!! Z.to_nat i = Nat.iter 8 crc_round i.
Proof.
  intros Hi. apply list_lookup_total_correct.
  change table with (Nat.iter 8 crc_round <$> seqZ 0 256).
  rewrite list_lookup_fmap, lookup_seqZ_lt by lia. simpl. by rewrite Z2Nat.id by lia.
Qed.

Lemma land_255_range x : 0 <= Z.land x 255 < 256.
Proof. change 255 with (Z.ones 8). rewrite Z.land_ones by lia. apply Z.mod_pos_bound. lia. Qed.

Lemma shiftr_u8 b : is_u8 b -> Z.shiftr b 8 = 0.
Proof. intros Hb. rewrite Z.shiftr_div_pow2 by lia. by apply Z.div_small. Qed.

(** The table-driven step is eight rounds of the bit-wise register. *)
Lemma crc_step_bitwise c b : is_u8 b -> crc_step c b = Nat.iter 8 crc_round (Z.lxor c b).
Proof.
  intros Hb. unfold crc_step. rewrite table_lookup by apply land_255_range.
  rewrite (split_low_byte (Z.lxor c b)) at 2.
  rewrite crc_iter_lxor. f_equal. rewrite (crc_iter_shiftl _ 8).
  by rewrite Z.shiftr_lxor, (shiftr_u8 b Hb), Z.lxor_0_r.
Qed.

Lemma u32_bits_high c n : is_u32 c -> 32 <= n -> Z.testbit c n = false.
Proof.
  intros Hc Hn. unfold is_u32 in Hc. rewrite <- (Z.mod_small c (2 ^ 32)) by exact Hc.
  apply Z.mod_pow2_bits_high. lia.
Qed.

Lemma u32_of_bits c : 0 <= c -> (forall n, 32 <= n -> Z.testbit c n = false) -> is_u32 c.
Proof.
  intros Hc Hb. unfold is_u32. change U32 with (2 ^ 32).
  replace c with (c mod 2 ^ 32); [apply Z.mod_pos_bound; lia|].
  apply Z.bits_inj'. intros n Hn. destruct (Z.lt_ge_cases n 32).
  - by rewrite Z.mod_pow2_bits_low by lia.
  - rewrite Z.mod_pow2_bits_high by lia. symmetry. by apply Hb.
Qed.

Lemma lxor_u32 a b : is_u32 a -> is_u32 b -> is_u32 (Z.lxor a b).
Proof.
  intros Ha Hb. apply u32_of_bits.
  - apply Z.lxor_nonneg. unfold is_u32 in *. lia.
  - intros n Hn. by rewrite Z.lxor_spec, !u32_bits_high.
Qed.

Lemma crc_round_u32 c : is_u32 c -> is_u32 (crc_round c).
Proof.
  intros Hc. rewrite crc_round_alt. apply lxor_u32.
  - destruct (Z.testbit c 0); by compute.
  - unfold is_u32 in *. rewrite Z.shiftr_div_pow2 by lia. change (2 ^ 1) with 2.
    split; [apply Z.div_pos; lia|apply Z.div_lt_upper_bound; lia].
Qed.

Lemma crc_iter_u32 n c : is_u32 c -> is_u32 (Nat.iter n crc_round c).
Proof. intros Hc. induction n; simpl; [done|by apply crc_round_u32]. Qed.

(** The polynomial has its top bit set, so a round never loses the bit it
    shifts out: the register is a permutation of the 32-bit words. *)
Lemma crc_round_top c : is_u32 c -> Z.testbit (crc_round c) 31 = Z.testbit c 0.
Proof.
  intros Hc. rewrite crc_round_alt, Z.lxor_spec, Z.shiftr_spec by lia.
  rewrite (u32_bits_high c (31 + 1)) by (done || lia).
  destruct (Z.testbit c 0); reflexivity.
Qed.

Lemma crc_round_inj a b : is_u32 a -> is_u32 b -> crc_round a = crc_round b -> a = b.
Proof.
  intros Ha Hb E. pose proof (crc_round_top a Ha) as Ta. pose proof (crc_round_top b Hb) as Tb.
  rewrite E in Ta. rewrite Ta in Tb. rewrite !crc_round_alt, Tb in E.
  apply Z.bits_inj'. intros n Hn. destruct (decide (n = 0)) as [->|Hn0]; [done|].
  apply (f_equal (fun x => Z.testbit x (n - 1))) in E.
  rewrite !Z.lxor_spec, !Z.shiftr_spec in E by lia.
  replace (n - 1 + 1) with n in E by lia.
  by destruct (Z.testbit (if Z.testbit b 0 then _ else 0) (n - 1)), (Z.testbit a n), (Z.testbit b n).
Qed.

Lemma crc_iter_inj n a b : is_u32 a -> is_u32 b ->
  Nat.iter n crc_round a = Nat.iter n crc_round b -> a = b.
Proof.
  intros Ha Hb. induction n as [|n IH]; simpl; [done|]. intros E.
  apply IH, crc_round_inj; auto using crc_iter_u32.
Qed.

Lemma u8_u32 b : is_u8 b -> is_u32 b.
Proof. unfold is_u8, is_u32. lia. Qed.

#[export] Hint Resolve u8_u32 lxor_u32 crc_iter_u32 : codec.

Lemma lxor_cancel_r a b c : Z.lxor a c = Z.lxor b c -> a = b.
Proof.
  intros E. apply (f_equal (fun x => Z.lxor x c)) in E.
  by rewrite !Z.lxor_assoc, !Z.lxor_nilpotent, !Z.lxor_0_r in E.
Qed.

Lemma crc_step_u32 c b : is_u32 c -> is_u8 b -> is_u32 (crc_step c b).
Proof. intros. rewrite crc_step_bitwise by done. auto with codec. Qed.

Lemma crc_step_inj c c' b b' : is_u32 c -> is_u32 c' -> is_u8 b -> is_u8 b' ->
  crc_step c b = crc_step c' b' -> Z.lxor c b = Z.lxor c' b'.
Proof.
  intros Hc Hc' Hb Hb'. rewrite !crc_step_bitwise by done.
  apply crc_iter_inj; auto with codec.
Qed.

Lemma crc_fold_u32 data c : Forall is_u8 data -> is_u32 c -> is_u32 (fold_left crc_step data c).
Proof.
  intros Hd. revert c. induction Hd; intros c Hc; simpl; [done|]. auto using crc_step_u32.
Qed.

Lemma crc_fold_inj data c c' : Forall is_u8 data -> is_u32 c -> is_u32 c' ->
  fold_left crc_step data c = fold_left crc_step data c' -> c = c'.
Proof.
  intros Hd. revert c c'. induction Hd as [|b data Hb _ IH]; intros c c' Hc Hc' E; simpl in E; [done|].
  apply IH in E; [|by apply crc_step_u32..].
  apply crc_step_inj in E; [|done..]. by eapply lxor_cancel_r.
Qed.

Lemma not32_not32 x : not32 (not32 x) = x.
Proof. unfold not32. by rewrite Z.lxor_assoc, Z.lxor_nilpotent, Z.lxor_0_r. Qed.

Lemma not32_inj x y : not32 x = not32 y -> x = y.
Proof. apply lxor_cancel_r. Qed.

Lemma not32_u32 x : is_u32 x -> is_u32 (not32 x).
Proof. intros. apply lxor_u32; [done|by compute]. Qed.

Lemma crc32c_u32 data : Forall is_u8 data -> is_u32 (crc32c data).
Proof. intros Hd. apply not32_u32, crc_fold_u32; [done|]. by apply not32_u32. Qed.

(** ** Properties of the checksum *)

(** The table-driven [crc32c_update] computes the bit-wise CRC register:
    every input byte is folded in and clocked through eight rounds. *)
Theorem crc32c_table_is_bitwise (seed : Z) (data : list Z) :
  Forall is_u8 data ->
  crc32c_update seed data =
    not32 (fold_left (fun c b => Nat.iter 8 crc_round (Z.lxor c b)) data (not32 seed)).
Proof.
  intros Hd. unfold crc32c_update. f_equal. generalize (not32 seed).
  induction Hd as [|b data Hb _ IH]; intros c; simpl; [done|].
  by rewrite crc_step_bitwise, IH.
Qed.

Lemma crc32c_table_is_bitwise_witness :
  crc32c_update 0 [1; 2; 255] =
    not32 (fold_left (fun c b => Nat.iter 8 crc_round (Z.lxor c b)) [1; 2; 255] (not32 0)).
Proof. apply crc32c_table_is_bitwise. repeat constructor; discriminate. Defined.

(** Checksumming is incremental: feeding a record in two pieces gives the
    checksum of the whole, for every seed. *)
Theorem crc32c_incremental (seed : Z) (a b : list Z) :
  crc32c_update (crc32c_update seed a) b = crc32c_update seed (a ++ b).
Proof. unfold crc32c_update. by rewrite not32_not32, fold_left_app. Qed.

Lemma crc32c_byte_error (pre post : list Z) (b b' : Z) :
  Forall is_u8 pre -> Forall is_u8 post -> is_u8 b -> is_u8 b' -> b <> b' ->
  crc32c (pre ++ b :: post) <> crc32c (pre ++ b' :: post).
Proof.
  intros Hpre Hpost Hb Hb' Hne E. unfold crc32c, crc32c_update in E.
  apply not32_inj in E. rewrite !fold_left_app in E. simpl in E.
  set (s := fold_left crc_step pre (not32 0)) in E.
  assert (Hs : is_u32 s) by (apply crc_fold_u32; [done|by compute]).
  apply crc_fold_inj in E; [|done|by apply crc_step_u32..].
  apply crc_step_inj in E; [|done..].
  rewrite (Z.lxor_comm s b), (Z.lxor_comm s b') in E. by apply lxor_cancel_r in E.
Qed.

(** A change confined to one byte, in particular any single flipped bit, at
    any position of a message of any length, always changes its CRC32C. *)
Theorem crc32c_detects_byte_error (pre post : list Z) (b b' : Z) :
  Forall is_u8 pre -> Forall is_u8 post -> is_u8 b -> is_u8 b' -> b <> b' ->
  crc32c (pre ++ b :: post) <> crc32c (pre ++ b' :: post).
Proof. apply crc32c_byte_error. Qed.

Lemma crc32c_detects_byte_error_witness : crc32c ([1] ++ 7 :: [9]) <> crc32c ([1] ++ 6 :: [9]).
Proof. apply crc32c_detects_byte_error; repeat constructor; discriminate. Defined.

(** The implementation reproduces the CRC32C test vectors of RFC 3720
    (appendix B.4) that the unit tests pin. *)
Theorem crc32c_published_vectors :
  crc32c [] = 0 /\
  crc32c (replicate 32 0%Z) = 0x8A9136AA /\
  crc32c (replicate 32 0xFF%Z) = 0x62A8AB43 /\
  crc32c (seqZ 0 32) = 0x46DD794E /\
  crc32c (reverse (seqZ 0 32)) = 0x113FDB5C.
Proof. vm_compute. repeat split. Qed.
