(* ===== verification/Types.v ===== *)
(** * The replicated types: [crates/chronolog/src/types.rs]

    Log entries, cluster configurations with their quorum rules, the hard
    state and snapshots, each with its wire format. The theorems are the
    round trips of the formats and the two facts the consensus layer needs of
    a configuration: quorums overlap, and [quorum_index] is exactly the highest
    index a quorum holds. *)

From Stdlib Require Import ZArith Lia.
From stdpp Require Import base tactics list list_numbers gmap sets sorting.
From S2P Require Import Prelude Codec.

Open Scope Z_scope.

Abbreviation Term := Z.
Abbreviation Index := Z.
Abbreviation NodeId := Z.

(** ** Data *)

Inductive ConfigChange : Type :=
| EnterJoint (incoming learners : gset NodeId)
| LeaveJoint.

Inductive EntryKind : Type :=
| Normal (data : list Z)
| KConfig (change : ConfigChange)
| Noop.

Record Entry : Type := mkEntry { e_term : Term; e_index : Index; e_kind : EntryKind }.

Record Config : Type := mkConfig {
  voters : gset NodeId;
  outgoing : gset NodeId;
  learners : gset NodeId
}.

Record HardState : Type := mkHardState {
  hs_term : Term;
  hs_vote : option NodeId;
  hs_commit : Index
}.

Record Snapshot : Type := mkSnapshot {
  sn_last_index : Index;
  sn_last_term : Term;
  sn_config : Config;
  sn_data : list Z
}.

#[export] Instance ConfigChange_eq_dec : EqDecision ConfigChange.
Proof. solve_decision. Defined.
#[export] Instance EntryKind_eq_dec : EqDecision EntryKind.
Proof. solve_decision. Defined.
#[export] Instance Entry_eq_dec : EqDecision Entry.
Proof. solve_decision. Defined.
#[export] Instance Config_eq_dec : EqDecision Config.
Proof. solve_decision. Defined.
#[export] Instance HardState_eq_dec : EqDecision HardState.
Proof. solve_decision. Defined.
#[export] Instance Snapshot_eq_dec : EqDecision Snapshot.
Proof. solve_decision. Defined.

Definition Config_default : Config := mkConfig ∅ ∅ ∅.
Definition HardState_default : HardState := mkHardState 0 None 0.

(** ** Configurations *)

Definition Config_simple (ids : list NodeId) : Config := mkConfig (list_to_set ids) ∅ ∅.

Definition Config_is_joint (c : Config) : bool := negb (bool_decide (outgoing c = ∅)).

Definition Config_all_nodes (c : Config) : gset NodeId := voters c ∪ outgoing c ∪ learners c.

Definition Config_is_voter (c : Config) (id : NodeId) : bool :=
  bool_decide (id ∈ voters c) || bool_decide (id ∈ outgoing c).

Definition majority (group votes : gset NodeId) : bool :=
  if bool_decide (group = ∅) then true
  else
    let got := length (filter (fun id => id ∈ votes) (sorted_elements group)) in
    (size group <? got * 2)%nat.

Definition Config_has_quorum (c : Config) (votes : gset NodeId) : bool :=
  if bool_decide (voters c = ∅) && bool_decide (outgoing c = ∅) then false
  else majority (voters c) votes && (negb (Config_is_joint c) || majority (outgoing c) votes).

(** [sort_unstable_by(|a, b| b.cmp(a))]: descending. *)
Definition desc (a b : Z) : Prop := b <= a.
#[export] Instance desc_dec : RelDecision desc.
Proof. intros a b. unfold desc. apply _. Defined.

Definition quorum_of (group : gset NodeId) (matched : NodeId -> Index) : option Index :=
  if bool_decide (group = ∅) then None
  else
    let idx := merge_sort desc (map matched (sorted_elements group)) in
    Some (idx !!! Nat.div (size group) 2).

Definition Config_quorum_index (c : Config) (matched : NodeId -> Index) : Index :=
  match quorum_of (voters c) matched, quorum_of (outgoing c) matched with
  | Some a, Some b => Z.min a b
  | Some a, None => a
  | None, Some b => b
  | None, None => 0
  end.

(** ** Wire formats *)

Definition set_encode (s : gset NodeId) (w : Writer) : Writer :=
  Writer_seq Writer_u32 (sorted_elements s) w.

Definition set_decode : Parser (gset NodeId) :=
  ids ← Reader_seq Reader_u32; mret (list_to_set ids).

Definition Config_encode (c : Config) (w : Writer) : Writer :=
  set_encode (learners c) (set_encode (outgoing c) (set_encode (voters c) w)).

Definition Config_decode : Parser Config :=
  v ← set_decode; o ← set_decode; l ← set_decode; mret (mkConfig v o l).

Definition ConfigChange_encode (c : ConfigChange) (w : Writer) : Writer :=
  match c with
  | EnterJoint incoming learners => set_encode learners (set_encode incoming (Writer_u8 0 w))
  | LeaveJoint => Writer_u8 1 w
  end.

Definition ConfigChange_decode : Parser ConfigChange :=
  t ← Reader_u8;
  if t =? 0 then incoming ← set_decode; learners ← set_decode; mret (EnterJoint incoming learners)
  else if t =? 1 then mret LeaveJoint
  else Parser_fail (BadTag t).

Definition Entry_encode (e : Entry) (w : Writer) : Writer :=
  let w := Writer_u64 (e_index e) (Writer_u64 (e_term e) w) in
  match e_kind e with
  | Normal d => Writer_bytes d (Writer_u8 0 w)
  | KConfig c => ConfigChange_encode c (Writer_u8 1 w)
  | Noop => Writer_u8 2 w
  end.

Definition Entry_decode : Parser Entry :=
  term ← Reader_u64;
  index ← Reader_u64;
  t ← Reader_u8;
  kind ← (if t =? 0 then d ← Reader_bytes; mret (Normal d)
          else if t =? 1 then c ← ConfigChange_decode; mret (KConfig c)
          else if t =? 2 then mret Noop
          else Parser_fail (BadTag t));
  mret (mkEntry term index kind).

Definition Entry_to_bytes (e : Entry) : list Z := Entry_encode e Writer_new.

Definition Snapshot_encode (s : Snapshot) (w : Writer) : Writer :=
  Writer_bytes (sn_data s)
    (Config_encode (sn_config s) (Writer_u64 (sn_last_term s) (Writer_u64 (sn_last_index s) w))).

Definition Snapshot_decode : Parser Snapshot :=
  last_index ← Reader_u64;
  last_term ← Reader_u64;
  config ← Config_decode;
  data ← Reader_bytes;
  mret (mkSnapshot last_index last_term config data).

(** * Theorems *)

(** ** Counting votes *)

Lemma count_votes (group votes : gset NodeId) :
  length (filter (fun id => id ∈ votes) (sorted_elements group)) = size (group ∩ votes).
Proof.
  rewrite (sorted_elements_perm group).
  assert (H : elements (group ∩ votes) ≡ₚ filter (fun id => id ∈ votes) (elements group)).
  { apply NoDup_Permutation; [apply NoDup_elements|apply NoDup_filter, NoDup_elements|].
    intros x. rewrite list_elem_of_filter, !elem_of_elements. set_solver. }
  unfold size, set_size. simpl. by rewrite H.
Qed.

Lemma majority_true (group votes : gset NodeId) : group <> ∅ ->
  majority group votes = true <-> (size group < 2 * size (group ∩ votes))%nat.
Proof.
  intros Hne. unfold majority. rewrite bool_decide_eq_false_2 by done. simpl.
  rewrite Nat.ltb_lt, count_votes. lia.
Qed.

Lemma majority_empty votes : majority ∅ votes = true.
Proof. unfold majority. by rewrite bool_decide_eq_true_2. Qed.

(** Two majorities of one group share a member of it. *)
Lemma majority_intersect (group q1 q2 : gset NodeId) :
  group <> ∅ -> majority group q1 = true -> majority group q2 = true ->
  exists id, id ∈ group /\ id ∈ q1 /\ id ∈ q2.
Proof.
  intros Hne H1 H2. apply majority_true in H1, H2; [|done..].
  destruct (set_choose_or_empty ((group ∩ q1) ∩ (group ∩ q2))) as [[id Hid]|Hemp].
  { exists id. set_solver. }
  exfalso. assert (Hd : (group ∩ q1) ## (group ∩ q2)) by set_solver.
  pose proof (size_union _ _ Hd) as Hs.
  assert (size ((group ∩ q1) ∪ (group ∩ q2)) <= size group)%nat by (apply subseteq_size; set_solver).
  lia.
Qed.

Lemma Config_is_joint_true c : Config_is_joint c = true <-> outgoing c <> ∅.
Proof. unfold Config_is_joint. rewrite negb_true_iff, bool_decide_eq_false. done. Qed.

(** A quorum holds a majority of every non-empty half, and some half is
    non-empty. *)
Lemma has_quorum_true c q : Config_has_quorum c q = true <->
  voters c ∪ outgoing c <> ∅ /\ majority (voters c) q = true /\ majority (outgoing c) q = true.
Proof.
  unfold Config_has_quorum.
  destruct (decide (voters c = ∅)) as [Hv|Hv]; destruct (decide (outgoing c = ∅)) as [Ho|Ho];
    rewrite ?(bool_decide_eq_true_2 _ Hv), ?(bool_decide_eq_false_2 _ Hv),
      ?(bool_decide_eq_true_2 _ Ho), ?(bool_decide_eq_false_2 _ Ho); simpl.
  - split; [done|]. set_solver.
  - rewrite (proj2 (Config_is_joint_true c) Ho); simpl. rewrite andb_true_iff.
    split; [|naive_solver]. intros [? ?]. split; [set_solver|done].
  - rewrite Ho, majority_empty. replace (Config_is_joint c) with false.
    2:{ unfold Config_is_joint. by rewrite Ho. }
    rewrite andb_true_r. split; [|naive_solver]. intros ?. split; [set_solver|done].
  - rewrite (proj2 (Config_is_joint_true c) Ho); simpl. rewrite andb_true_iff.
    split; [|naive_solver]. intros [? ?]. split; [set_solver|done].
Qed.

Lemma quorums_meet (c : Config) (q1 q2 : gset NodeId) :
  Config_has_quorum c q1 = true -> Config_has_quorum c q2 = true ->
  exists id, Config_is_voter c id = true /\ id ∈ q1 /\ id ∈ q2.
Proof.
  intros [Hne [Hv1 Ho1]]%has_quorum_true [_ [Hv2 Ho2]]%has_quorum_true.
  destruct (decide (voters c = ∅)) as [Hv|Hv].
  - destruct (majority_intersect (outgoing c) q1 q2) as (id & ? & ? & ?); [set_solver|done..|].
    exists id. unfold Config_is_voter. rewrite orb_true_iff, !bool_decide_eq_true. auto.
  - destruct (majority_intersect (voters c) q1 q2) as (id & ? & ? & ?); [done..|].
    exists id. unfold Config_is_voter. rewrite orb_true_iff, !bool_decide_eq_true. auto.
Qed.

(** Any two quorums of one configuration, simple or joint, share a voter.
    This is the fact that leaves room for one leader per term. *)
Theorem quorum_intersection (c : Config) (q1 q2 : gset NodeId) :
  Config_has_quorum c q1 = true -> Config_has_quorum c q2 = true ->
  exists id, Config_is_voter c id = true /\ id ∈ q1 /\ id ∈ q2.
Proof. apply quorums_meet. Qed.

Lemma quorum_intersection_witness :
  exists id, Config_is_voter (Config_simple [0; 1; 2]) id = true
    /\ id ∈ ({[0; 1]} : gset Z) /\ id ∈ ({[1; 2]} : gset Z).
Proof. apply quorum_intersection; vm_compute; reflexivity. Defined.

(** ** The quorum index *)

Lemma desc_count (l : list Z) i k : Sorted desc l -> (k < length l)%nat ->
  i <= l !!! k <-> (k < length (filter (fun x : Z => (i <= x)%Z) l))%nat.
Proof.
  intros Hs. apply Sorted_StronglySorted in Hs; [|intros a b c; unfold desc; lia].
  revert k. induction Hs as [|x l Hs IH Hx]; intros k Hk; [simpl in Hk; lia|].
  rewrite filter_cons. destruct (decide (i <= x)) as [Hi|Hi].
  - destruct k as [|k]; simpl; [split; [lia|done]|].
    simpl in Hk. rewrite <- Nat.succ_lt_mono. apply IH. lia.
  - assert (Hall : forall y, y ∈ x :: l -> ~ i <= y).
    { intros y [->|Hy]%elem_of_cons; [done|].
      rewrite Forall_forall in Hx. specialize (Hx y Hy). unfold desc in Hx. lia. }
    assert (Hf : filter (fun x => i <= x) l = []).
    { apply filter_none. rewrite Forall_forall. intros y Hy. apply Hall. by right. }
    rewrite Hf. simpl. split; [|lia]. intros Hle. exfalso.
    destruct (lookup_lt_is_Some_2 (x :: l) k Hk) as [y Hy].
    rewrite (list_lookup_total_correct _ _ _ Hy) in Hle.
    eapply Hall; [by eapply list_elem_of_lookup_2|exact Hle].
Qed.

Lemma quorum_of_spec (group holders : gset NodeId) matched i q :
  (forall id, id ∈ group -> id ∈ holders <-> i <= matched id) ->
  quorum_of group matched = Some q ->
  i <= q <-> majority group holders = true.
Proof.
  intros Hh. unfold quorum_of, majority. case_bool_decide as Hemp; [done|].
  intros Hq. apply (inj Some) in Hq as <-.
  set (l := map matched (sorted_elements group)).
  assert (Hp : merge_sort desc l ≡ₚ l) by apply merge_sort_Permutation.
  assert (Hlen : length l = size group).
  { unfold l. rewrite length_map. apply sorted_elements_length. }
  assert (0 < size group)%nat.
  { destruct (decide (size group = 0%nat)) as [E|]; [|lia]. by apply size_empty_inv, leibniz_equiv in E. }
  rewrite desc_count.
  - rewrite (length_filter_Permutation _ _ _ Hp). unfold l. rewrite length_filter_map.
    rewrite (filter_ext_Forall _ (fun id => id ∈ holders)).
    + rewrite Nat.ltb_lt. pose proof (Nat.div_mod_eq (size group) 2).
      pose proof (Nat.mod_upper_bound (size group) 2 ltac:(lia)). lia.
    + apply Forall_forall. intros id Hid. symmetry.
      apply Hh. by apply elem_of_sorted_elements.
  - apply Sorted_merge_sort. intros a b. unfold desc. lia.
  - rewrite (Permutation_length Hp), Hlen. apply Nat.div_lt; lia.
Qed.

Lemma quorum_of_Some group matched : group <> ∅ -> exists q, quorum_of group matched = Some q.
Proof. intros Hne. unfold quorum_of. rewrite bool_decide_eq_false_2 by done. eauto. Qed.

Lemma quorum_of_None matched : quorum_of ∅ matched = None.
Proof. unfold quorum_of. by rewrite bool_decide_eq_true_2. Qed.

Lemma quorum_index_le (c : Config) (matched : NodeId -> Index) (i : Index) :
  voters c ∪ outgoing c <> ∅ ->
  i <= Config_quorum_index c matched <->
  Config_has_quorum c (filter (fun id => i <= matched id) (voters c ∪ outgoing c)) = true.
Proof.
  intros Hne. set (h := filter _ _). rewrite has_quorum_true.
  assert (Hh : forall g, g ⊆ voters c ∪ outgoing c ->
    forall id, id ∈ g -> id ∈ h <-> i <= matched id).
  { intros g Hg id Hid. unfold h. rewrite elem_of_filter. set_solver. }
  assert (Hg : forall g q, g ⊆ voters c ∪ outgoing c -> quorum_of g matched = Some q ->
    i <= q <-> majority g h = true) by (intros; eapply quorum_of_spec; eauto).
  unfold Config_quorum_index.
  destruct (decide (voters c = ∅)) as [Hv|Hv]; destruct (decide (outgoing c = ∅)) as [Ho|Ho].
  - set_solver.
  - destruct (quorum_of_Some (outgoing c) matched Ho) as [q Hq].
    rewrite Hv, quorum_of_None, Hq, majority_empty.
    rewrite (Hg (outgoing c) q) by (done || set_solver). set_solver.
  - destruct (quorum_of_Some (voters c) matched Hv) as [q Hq].
    rewrite Ho, quorum_of_None, Hq, majority_empty.
    rewrite (Hg (voters c) q) by (done || set_solver). set_solver.
  - destruct (quorum_of_Some (voters c) matched Hv) as [q Hq].
    destruct (quorum_of_Some (outgoing c) matched Ho) as [q' Hq'].
    rewrite Hq, Hq', Z.min_glb_iff.
    rewrite (Hg (voters c) q), (Hg (outgoing c) q') by (done || set_solver). naive_solver.
Qed.

(** [quorum_index] is exactly the highest index a quorum holds: an index is
    at most [quorum_index] if and only if the voters that have replicated it
    form a quorum (of both halves while a transition is in flight). *)
Theorem quorum_index_spec (c : Config) (matched : NodeId -> Index) (i : Index) :
  voters c ∪ outgoing c <> ∅ ->
  i <= Config_quorum_index c matched <->
  Config_has_quorum c (filter (fun id => i <= matched id) (voters c ∪ outgoing c)) = true.
Proof. apply quorum_index_le. Qed.

Lemma quorum_index_spec_witness :
  3 <= Config_quorum_index (Config_simple [0; 1; 2]) (fun id => 2 * id + 1) <->
  Config_has_quorum (Config_simple [0; 1; 2])
    (filter (fun id => 3 <= 2 * id + 1)
       (voters (Config_simple [0; 1; 2]) ∪ outgoing (Config_simple [0; 1; 2]))) = true.
Proof. apply (quorum_index_spec (Config_simple [0; 1; 2]) (fun id => 2 * id + 1)). vm_compute. discriminate. Defined.

(** ** Round trips of the wire formats *)

Definition set_ok (s : gset NodeId) : Prop := set_Forall is_u32 s /\ fits_u32 (sorted_elements s).
Definition Config_ok (c : Config) : Prop :=
  set_ok (voters c) /\ set_ok (outgoing c) /\ set_ok (learners c).
Definition ConfigChange_ok (c : ConfigChange) : Prop :=
  match c with EnterJoint i l => set_ok i /\ set_ok l | LeaveJoint => True end.
Definition EntryKind_ok (k : EntryKind) : Prop :=
  match k with Normal d => fits_u32 d | KConfig c => ConfigChange_ok c | Noop => True end.
Definition Entry_ok (e : Entry) : Prop :=
  is_u64 (e_term e) /\ is_u64 (e_index e) /\ EntryKind_ok (e_kind e).
Definition Snapshot_ok (s : Snapshot) : Prop :=
  is_u64 (sn_last_index s) /\ is_u64 (sn_last_term s) /\ Config_ok (sn_config s) /\ fits_u32 (sn_data s).

#[export] Instance set_ok_dec s : Decision (set_ok s).
Proof. unfold set_ok. apply _. Defined.
#[export] Instance Config_ok_dec c : Decision (Config_ok c).
Proof. unfold Config_ok. apply _. Defined.
#[export] Instance ConfigChange_ok_dec c : Decision (ConfigChange_ok c).
Proof. destruct c; simpl; apply _. Defined.
#[export] Instance EntryKind_ok_dec k : Decision (EntryKind_ok k).
Proof. destruct k; simpl; apply _. Defined.
#[export] Instance Entry_ok_dec e : Decision (Entry_ok e).
Proof. unfold Entry_ok. apply _. Defined.
#[export] Instance Snapshot_ok_dec s : Decision (Snapshot_ok s).
Proof. unfold Snapshot_ok. apply _. Defined.

#[export] Instance RoundTrip_set : RoundTrip set_ok set_encode set_decode.
Proof.
  split.
  - intros s w. unfold set_encode. rewrite !Writer_seq_bytes. done.
  - intros s [Hs Hlen]. unfold set_decode, set_encode.
    eapply parses_bind_end.
    + apply parses_seq; [done|]. apply Forall_forall. intros x Hx.
      apply Hs. by apply elem_of_sorted_elements.
    + simpl. rewrite list_to_set_sorted_elements. apply parses_ret.
  - intros s. unfold set_encode. rewrite Writer_seq_bytes. simpl. lia.
Qed.

Lemma set_encode_app s w : set_encode s w = w ++ set_encode s [].
Proof. apply (rt_enc s w). Qed.

#[export] Instance RoundTrip_Config : RoundTrip Config_ok Config_encode Config_decode.
Proof.
  assert (E : forall c w, Config_encode c w =
    w ++ set_encode (voters c) [] ++ set_encode (outgoing c) [] ++ set_encode (learners c) []).
  { intros c w. unfold Config_encode.
    by rewrite (set_encode_app (learners c)), (set_encode_app (outgoing c)),
      (set_encode_app (voters c) w), !app_assoc. }
  split.
  - intros c w. by rewrite !E.
  - intros [v o l] (Hv & Ho & Hl). rewrite E. simpl. unfold Config_decode. parse_fields.
  - intros c. rewrite E. simpl. pose proof (rt_nonempty (voters c)). rewrite length_app. lia.
Qed.

#[export] Instance RoundTrip_ConfigChange :
  RoundTrip ConfigChange_ok ConfigChange_encode ConfigChange_decode.
Proof.
  assert (E : forall i l w, ConfigChange_encode (EnterJoint i l) w =
    w ++ [0] ++ set_encode i [] ++ set_encode l []).
  { intros i l w. simpl. unfold Writer_u8. rewrite (set_encode_app l), (set_encode_app i).
    by rewrite <- !app_assoc. }
  split.
  - intros [i l|] w; [by rewrite !E|done].
  - intros [i l|] Hok; unfold ConfigChange_decode.
    + rewrite E. destruct Hok. simpl app at 1. eapply (parses_bind _ _ [0]); [by apply parses_u8|].
      simpl. parse_fields.
    + eapply parses_bind_end; [by apply parses_u8|]. simpl. apply parses_ret.
  - intros [i l|]; [rewrite E|]; simpl; lia.
Qed.

(** The bytes of an entry: the two counters, the tag, then the payload. *)
Definition kind_bytes (k : EntryKind) : list Z :=
  match k with
  | Normal d => [0] ++ Writer_bytes d []
  | KConfig c => [1] ++ ConfigChange_encode c []
  | Noop => [2]
  end.

Lemma Entry_encode_bytes e w : Entry_encode e w =
  w ++ le_bytes 8 (e_term e) ++ le_bytes 8 (e_index e) ++ kind_bytes (e_kind e).
Proof.
  unfold Entry_encode, Writer_u64. destruct (e_kind e) as [d|c|]; simpl kind_bytes.
  - rewrite (rt_enc (enc := Writer_bytes) d). unfold Writer_u8. by rewrite <- !app_assoc.
  - rewrite (rt_enc (enc := ConfigChange_encode) c). unfold Writer_u8. by rewrite <- !app_assoc.
  - unfold Writer_u8. by rewrite <- !app_assoc.
Qed.

Lemma parses_kind k : EntryKind_ok k ->
  parses (t ← Reader_u8;
    if t =? 0 then d ← Reader_bytes; mret (Normal d)
    else if t =? 1 then c ← ConfigChange_decode; mret (KConfig c)
    else if t =? 2 then mret Noop
    else Parser_fail (BadTag t)) (kind_bytes k) k.
Proof.
  destruct k as [d|c|]; intros Hk; simpl kind_bytes.
  - eapply (parses_bind _ _ [0]); [by apply parses_u8|]. simpl. parse_fields.
  - eapply (parses_bind _ _ [1]); [by apply parses_u8|]. simpl. parse_fields.
  - eapply parses_bind_end; [by apply parses_u8|]. simpl. apply parses_ret.
Qed.

Lemma Parser_bind_assoc {A B C} (p : Parser A) (f : A -> Parser B) (g : B -> Parser C) r :
  ((p ≫= f) ≫= g) r = (p ≫= (fun x => f x ≫= g)) r.
Proof. unfold mbind, Parser_bind. by destruct (p r) as [[a|e] r']. Qed.

#[export] Instance RoundTrip_Entry : RoundTrip Entry_ok Entry_encode Entry_decode.
Proof.
  split.
  - intros e w. by rewrite !Entry_encode_bytes.
  - intros [t i k] (Ht & Hi & Hk). rewrite Entry_encode_bytes. simpl app. simpl in Ht, Hi, Hk.
    unfold Entry_decode. simpl. 
    eapply (parses_bind _ _ (le_bytes 8 t)); [auto with codec|].
    eapply (parses_bind _ _ (le_bytes 8 i)); [auto with codec|].
    intros r tail Hr. rewrite <- Parser_bind_assoc. revert r tail Hr.
    eapply parses_bind_end; [by apply parses_kind|]. apply parses_ret.
  - intros e. rewrite Entry_encode_bytes. simpl. lia.
Qed.

#[export] Instance RoundTrip_Snapshot : RoundTrip Snapshot_ok Snapshot_encode Snapshot_decode.
Proof.
  assert (E : forall s w, Snapshot_encode s w =
    w ++ le_bytes 8 (sn_last_index s) ++ le_bytes 8 (sn_last_term s)
      ++ Config_encode (sn_config s) [] ++ Writer_bytes (sn_data s) []).
  { intros s w. unfold Snapshot_encode. rewrite (rt_enc (enc := Writer_bytes) (sn_data s)).
    rewrite (rt_enc (enc := Config_encode) (sn_config s)). unfold Writer_u64.
    by rewrite <- !app_assoc. }
  split.
  - intros s w. by rewrite !E.
  - intros [i t c d] (Hi & Ht & Hc & Hd). rewrite E. simpl in *. unfold Snapshot_decode.
    eapply (parses_bind _ _ (le_bytes 8 i)); [auto with codec|].
    eapply (parses_bind _ _ (le_bytes 8 t)); [auto with codec|]. parse_fields.
  - intros s. rewrite E. simpl. lia.
Qed.

#[export] Instance Bounded_set_decode : Bounded set_decode.
Proof. apply _. Qed.
#[export] Instance Bounded_Config_decode : Bounded Config_decode.
Proof. unfold Config_decode. apply _. Qed.
#[export] Instance Bounded_ConfigChange_decode : Bounded ConfigChange_decode.
Proof. unfold ConfigChange_decode. apply _. Qed.
#[export] Instance Bounded_Entry_decode : Bounded Entry_decode.
Proof. unfold Entry_decode. apply _. Qed.
#[export] Instance Bounded_Snapshot_decode : Bounded Snapshot_decode.
Proof. unfold Snapshot_decode. apply _. Qed.

(** A log entry of any kind, and a snapshot, decode to themselves from
    their encodings, as long as every counter and length fits its field. *)
Theorem entry_and_snapshot_round_trip (e : Entry) (s : Snapshot) :
  Entry_ok e -> Snapshot_ok s ->
  (Entry_decode (Reader_new (Entry_to_bytes e))).1 = Ok e /\
  (Snapshot_decode (Reader_new (Snapshot_encode s []))).1 = Ok s.
Proof. intros He Hs. split; by apply RoundTrip_decode. Qed.

Lemma entry_and_snapshot_round_trip_witness :
  (Entry_decode (Reader_new (Entry_to_bytes
     (mkEntry 4 9 (KConfig (EnterJoint {[1; 2; 3; 4]} {[9]})))))).1
    = Ok (mkEntry 4 9 (KConfig (EnterJoint {[1; 2; 3; 4]} {[9]}))) /\
  (Snapshot_decode (Reader_new (Snapshot_encode
     (mkSnapshot 99 7 (mkConfig {[1; 2; 3]} {[0; 1; 2]} {[42]}) [1; 2; 3; 4]) []))).1
    = Ok (mkSnapshot 99 7 (mkConfig {[1; 2; 3]} {[0; 1; 2]} {[42]}) [1; 2; 3; 4]).
Proof. apply entry_and_snapshot_round_trip; by_decide. Defined.
