(* ===== verification/RaftLog.v ===== *)
(** * The in-memory log: [crates/chronolog/src/log.rs]

    The entries after the snapshot point, with the operations the consensus
    state machine applies to them. The invariant [wf_log] is the comment on the
    [entries] field: entry [i] has index [snapshot_index + 1 + i]; it also keeps
    the last index below the top of [u64], so that the [+ 1]s of the source do
    not wrap. [debug_assert!]s are not part of the release code and are not
    modelled; the theorems state the precondition they check. *)

From Stdlib Require Import ZArith Lia.
From stdpp Require Import base tactics list list_numbers gmap sets sorting.
From S2P Require Import Prelude Codec Types.

Open Scope Z_scope.

Record Log : Type := mkLog {
  snapshot_index : Index;
  snapshot_term : Term;
  snapshot_config : Config;
  entries : list Entry
}.

#[export] Instance Log_eq_dec : EqDecision Log.
Proof. solve_decision. Defined.

(** ** Construction *)

Definition Log_new : Log := mkLog 0 0 Config_default [].

Definition Log_bootstrap (config : Config) : Log := mkLog 0 0 config [].

Definition Log_restore (snapshot : option Snapshot) (es : list Entry) : Log :=
  match snapshot with
  | Some s => mkLog (sn_last_index s) (sn_last_term s) (sn_config s) es
  | None => mkLog 0 0 Config_default es
  end.

(** ** Queries *)

Definition Log_first_index (l : Log) : Index := snapshot_index l +64 1.

Definition Log_last_index (l : Log) : Index :=
  match last (entries l) with Some e => e_index e | None => snapshot_index l end.

Definition Log_last_term (l : Log) : Term :=
  match last (entries l) with Some e => e_term e | None => snapshot_term l end.

Definition Log_slot (l : Log) (index : Index) : option nat :=
  if (index <=? snapshot_index l) || (Log_last_index l <? index) then None
  else Some (Z.to_nat (index - snapshot_index l - 1)).

Definition Log_get (l : Log) (index : Index) : option Entry :=
  match Log_slot l index with Some i => entries l !! i | None => None end.

Definition Log_term_at (l : Log) (index : Index) : option Term :=
  if index =? 0 then Some 0
  else if index =? snapshot_index l then Some (snapshot_term l)
  else match Log_get l index with Some e => Some (e_term e) | None => None end.

Definition Log_slice (l : Log) (from to : Index) : list Entry :=
  match Log_slot l (Z.max from (Log_first_index l)) with
  | None => []
  | Some lo =>
      match (if Log_last_index l <? to then Some (length (entries l)) else Log_slot l to) with
      | None => []
      | Some hi => if (hi <=? lo)%nat then [] else take (hi - lo) (drop lo (entries l))
      end
  end.

Definition Log_entries_from (l : Log) (from : Index) : list Entry :=
  Log_slice l from (Log_last_index l +64 1).

Definition Log_is_up_to_date (l : Log) (term : Term) (index : Index) : bool :=
  (Log_last_term l <? term) || ((term =? Log_last_term l) && (Log_last_index l <=? index)).

(** ** Updates *)

Definition Log_append (l : Log) (es : list Entry) : Log :=
  mkLog (snapshot_index l) (snapshot_term l) (snapshot_config l) (entries l ++ es).

Definition Log_truncate_from (l : Log) (from : Index) : Log :=
  match Log_slot l from with
  | Some i => mkLog (snapshot_index l) (snapshot_term l) (snapshot_config l) (take i (entries l))
  | None =>
      if from <=? snapshot_index l
      then mkLog (snapshot_index l) (snapshot_term l) (snapshot_config l) []
      else l
  end.

(** The loop of [merge] over the entries from position [i] on. *)
Fixpoint Log_merge_loop (l : Log) (es : list Entry) : Log :=
  match es with
  | [] => l
  | e :: rest =>
      match Log_term_at l (e_index e) with
      | Some t =>
          if t =? e_term e then Log_merge_loop l rest
          else Log_append (Log_truncate_from l (e_index e)) es
      | None => Log_append l es
      end
  end.

Definition Log_merge (l : Log) (prev_index : Index) (es : list Entry) : Log * Index :=
  match last es with
  | None => (l, prev_index)
  | Some e => (Log_merge_loop l es, e_index e)
  end.

Definition Log_compact_through (l : Log) (through : Index) (term : Term) (config : Config) : Log :=
  if through <=? snapshot_index l then l
  else
    let keep_from := Z.min through (Log_last_index l) in
    let drop_count := Z.to_nat (keep_from - snapshot_index l) in
    mkLog keep_from term config (drop (drop_count `min` length (entries l))%nat (entries l)).

Definition Log_install_snapshot (l : Log) (snap : Snapshot) : Log :=
  if bool_decide (Log_term_at l (sn_last_index snap) = Some (sn_last_term snap))
  then Log_compact_through l (sn_last_index snap) (sn_last_term snap) (sn_config snap)
  else mkLog (sn_last_index snap) (sn_last_term snap) (sn_config snap) [].

Definition apply_change (cfg : Config) (change : ConfigChange) : Config :=
  match change with
  | EnterJoint incoming ls => mkConfig incoming (voters cfg) ls
  | LeaveJoint => mkConfig (voters cfg) ∅ (learners cfg)
  end.

(** The body of the loop of [Log::config]. *)
Definition replay_entry (cfg : Config) (e : Entry) : Config :=
  match e_kind e with KConfig change => apply_change cfg change | _ => cfg end.

Definition Log_config (l : Log) : Config :=
  fold_left replay_entry (entries l) (snapshot_config l).

(** The [while i > self.snapshot_index] loop, with [k = i - snapshot_index]. *)
Fixpoint find_conflict_loop (l : Log) (term : Term) (k : nat) : Index :=
  let i := snapshot_index l + Z.of_nat k in
  match k with
  | O => i
  | S k' =>
      match Log_term_at l i with
      | Some t => if t <=? term then i else find_conflict_loop l term k'
      | None => i
      end
  end.

Definition Log_find_conflict_by_term (l : Log) (index : Index) (term : Term) : Index :=
  let i := Z.min index (Log_last_index l) in
  if i <=? snapshot_index l then i
  else find_conflict_loop l term (Z.to_nat (i - snapshot_index l)).

(** * Theorems *)

(** ** The invariant *)

Definition contiguous_from (i : Index) (es : list Entry) : Prop :=
  map e_index es = seqZ i (Z.of_nat (length es)).

Record wf_log (l : Log) : Prop := {
  wf_snapshot : 0 <= snapshot_index l;
  wf_contiguous : contiguous_from (snapshot_index l + 1) (entries l);
  wf_room : snapshot_index l + Z.of_nat (length (entries l)) < U64 - 1
}.

#[export] Instance contiguous_from_dec i es : Decision (contiguous_from i es).
Proof. unfold contiguous_from. apply _. Defined.

#[export] Instance wf_log_dec l : Decision (wf_log l).
Proof.
  refine (cast_if_and3 (decide (0 <= snapshot_index l))
    (decide (contiguous_from (snapshot_index l + 1) (entries l)))
    (decide (snapshot_index l + Z.of_nat (length (entries l)) < U64 - 1)));
  abstract (try (intros []); try split; naive_solver).
Defined.

Create HintDb raftlog.

Lemma contiguous_lookup i es k e :
  contiguous_from i es -> es !! k = Some e -> e_index e = i + Z.of_nat k.
Proof.
  intros Hc Hk. assert (H : map e_index es !! k = Some (e_index e)).
  { change (map e_index es) with (e_index <$> es). by rewrite list_lookup_fmap, Hk. }
  rewrite Hc in H. apply lookup_seqZ in H. lia.
Qed.

Lemma contiguous_intro i es :
  (forall k e, es !! k = Some e -> e_index e = i + Z.of_nat k) -> contiguous_from i es.
Proof.
  intros H. apply list_eq. intros k. change (map e_index es) with (e_index <$> es).
  rewrite list_lookup_fmap. destruct (es !! k) as [e|] eqn:E; simpl.
  - rewrite (H _ _ E). symmetry. apply lookup_seqZ. apply lookup_lt_Some in E. lia.
  - symmetry. apply lookup_seqZ_ge. apply lookup_ge_None in E. lia.
Qed.

Lemma contiguous_nil i : contiguous_from i [].
Proof. done. Qed.

Lemma contiguous_app i es es' :
  contiguous_from i (es ++ es') <->
  contiguous_from i es /\ contiguous_from (i + Z.of_nat (length es)) es'.
Proof.
  unfold contiguous_from. rewrite map_app, length_app, Nat2Z.inj_add, seqZ_app by lia.
  split; [|intros [-> ->]; done]. intros H.
  apply app_inj_1 in H; [done|]. rewrite length_map, length_seqZ. lia.
Qed.

Lemma contiguous_cons i e es :
  contiguous_from i (e :: es) <-> e_index e = i /\ contiguous_from (i + 1) es.
Proof.
  change (e :: es) with ([e] ++ es). rewrite contiguous_app. simpl.
  unfold contiguous_from at 1. simpl. split; intros [H ?]; split; try done.
  - by injection H.
  - by rewrite H.
Qed.

Lemma contiguous_take i es n : contiguous_from i es -> contiguous_from i (take n es).
Proof. intros H. rewrite <- (take_drop n es), contiguous_app in H. apply H. Qed.

Lemma contiguous_drop i es n : (n <= length es)%nat ->
  contiguous_from i es -> contiguous_from (i + Z.of_nat n) (drop n es).
Proof.
  intros Hn H. rewrite <- (take_drop n es), contiguous_app in H. destruct H as [_ H].
  by rewrite length_take_le in H.
Qed.

#[export] Hint Resolve contiguous_nil contiguous_take contiguous_drop : raftlog.

Lemma contiguous_last i es e : contiguous_from i es -> last es = Some e ->
  e_index e = i + Z.of_nat (length es) - 1.
Proof.
  intros Hc Hl. rewrite last_lookup in Hl. apply (contiguous_lookup i) in Hl as Hi; [|done].
  apply lookup_lt_Some in Hl. lia.
Qed.

Section WellFormed.
Context (l : Log) (Hwf : wf_log l).

Lemma last_index_wf : Log_last_index l = snapshot_index l + Z.of_nat (length (entries l)).
Proof using Hwf.
  unfold Log_last_index. destruct (last (entries l)) as [e|] eqn:E.
  - rewrite (contiguous_last _ _ _ (wf_contiguous l Hwf) E). lia.
  - apply last_None in E. rewrite E. simpl. lia.
Qed.

Lemma first_index_wf : Log_first_index l = snapshot_index l + 1.
Proof using Hwf. apply wadd64_small. destruct Hwf. lia. Qed.

Lemma last_index_succ_wf : Log_last_index l +64 1 = Log_last_index l + 1.
Proof using Hwf. apply wadd64_small. rewrite last_index_wf. destruct Hwf. lia. Qed.

Lemma slot_Some i k : Log_slot l i = Some k <->
  snapshot_index l < i <= Log_last_index l /\ k = Z.to_nat (i - snapshot_index l - 1).
Proof using.
  clear Hwf. unfold Log_slot.
  destruct (Z.leb_spec i (snapshot_index l)); [simpl; split; [done|lia]|].
  destruct (Z.ltb_spec (Log_last_index l) i); simpl; [split; [done|lia]|].
  split; [intros [= <-]; lia|]. intros [_ ->]. done.
Qed.

Lemma slot_in_range i : snapshot_index l < i <= Log_last_index l ->
  Log_slot l i = Some (Z.to_nat (i - snapshot_index l - 1)).
Proof using. clear Hwf. intros H. by apply slot_Some. Qed.

Lemma slot_None i : Log_slot l i = None <-> i <= snapshot_index l \/ Log_last_index l < i.
Proof using.
  clear Hwf. destruct (Log_slot l i) as [k|] eqn:E.
  - apply slot_Some in E. split; [done|lia].
  - split; [|done]. intros _. apply dec_stable. intros Hn.
    rewrite (slot_in_range i) in E by lia. done.
Qed.

Lemma get_lookup i : snapshot_index l < i ->
  Log_get l i = entries l !! Z.to_nat (i - snapshot_index l - 1).
Proof using Hwf.
  intros Hi. unfold Log_get. destruct (Log_slot l i) as [k|] eqn:E.
  - apply slot_Some in E as [_ ->]. done.
  - apply slot_None in E. rewrite last_index_wf in E. symmetry. apply lookup_ge_None. lia.
Qed.

Lemma get_below i : i <= snapshot_index l -> Log_get l i = None.
Proof using. clear Hwf. intros Hi. unfold Log_get. by rewrite (proj2 (slot_None i)) by lia. Qed.

Lemma get_above i : Log_last_index l < i -> Log_get l i = None.
Proof using. clear Hwf. intros Hi. unfold Log_get. by rewrite (proj2 (slot_None i)) by lia. Qed.

Lemma get_Some_index i e : Log_get l i = Some e ->
  e_index e = i /\ snapshot_index l < i <= Log_last_index l.
Proof using Hwf.
  intros H. destruct (decide (i <= snapshot_index l)); [by rewrite get_below in H|].
  destruct (decide (Log_last_index l < i)); [by rewrite get_above in H|].
  rewrite get_lookup in H by lia.
  rewrite (contiguous_lookup _ _ _ _ (wf_contiguous l Hwf) H). lia.
Qed.

(** The index a slot hands to [self.entries[i]] is always in range. *)
Lemma get_is_Some i : snapshot_index l < i <= Log_last_index l -> is_Some (Log_get l i).
Proof using Hwf.
  intros Hi. rewrite get_lookup by lia. apply lookup_lt_is_Some.
  rewrite last_index_wf in Hi. lia.
Qed.

Lemma term_at_get i e : Log_get l i = Some e -> Log_term_at l i = Some (e_term e).
Proof using Hwf.
  intros H. destruct (get_Some_index i e H) as [_ Hi]. pose proof (wf_snapshot l Hwf).
  unfold Log_term_at. rewrite (proj2 (Z.eqb_neq i 0)), (proj2 (Z.eqb_neq _ _)), H by lia. done.
Qed.

Lemma term_at_above i : 0 < i -> Log_last_index l < i -> Log_term_at l i = None.
Proof using Hwf.
  intros Hi0 Hi. unfold Log_term_at. rewrite last_index_wf in Hi.
  rewrite (proj2 (Z.eqb_neq i 0)), (proj2 (Z.eqb_neq _ _)), get_above; [done| |lia|lia].
  by rewrite last_index_wf.
Qed.

(** [term_at] answers for the sentinel, the snapshot point and the entries,
    and for nothing else. *)
Lemma term_at_Some i t : Log_term_at l i = Some t ->
  i = 0 \/ snapshot_index l <= i <= Log_last_index l.
Proof using Hwf.
  unfold Log_term_at. destruct (Z.eqb_spec i 0); [auto|].
  destruct (Z.eqb_spec i (snapshot_index l)).
  - right. rewrite last_index_wf. lia.
  - destruct (Log_get l i) as [e|] eqn:E; [|done]. apply get_Some_index in E. right. lia.
Qed.
End WellFormed.

(** ** Updates preserve the invariant *)

Lemma wf_bootstrap c : wf_log (Log_bootstrap c).
Proof. split; simpl; [lia|done|lia]. Qed.

Lemma append_wf l es : wf_log l -> contiguous_from (Log_last_index l + 1) es ->
  Log_last_index l + Z.of_nat (length es) < U64 - 1 -> wf_log (Log_append l es).
Proof.
  intros Hl Hc Hr. pose proof (last_index_wf l Hl) as E. destruct Hl as [Hs Hcl Hrl].
  split; simpl; [done| |rewrite length_app; lia].
  apply contiguous_app. split; [done|]. by replace (_ + _) with (Log_last_index l + 1) by lia.
Qed.

Lemma append_last_index l es : wf_log (Log_append l es) ->
  Log_last_index (Log_append l es) = snapshot_index l + Z.of_nat (length (entries l) + length es).
Proof. intros H. rewrite last_index_wf by done. simpl. by rewrite length_app. Qed.

Lemma truncate_entries l from : wf_log l ->
  snapshot_index l < from -> from <= Log_last_index l + 1 ->
  Log_truncate_from l from =
    mkLog (snapshot_index l) (snapshot_term l) (snapshot_config l)
      (take (Z.to_nat (from - snapshot_index l - 1)) (entries l)).
Proof.
  intros Hl H1 H2. unfold Log_truncate_from. destruct (Log_slot l from) as [k|] eqn:E.
  - by apply slot_Some in E as [_ ->].
  - apply slot_None in E. rewrite (proj2 (Z.leb_gt _ _)) by lia.
    pose proof (last_index_wf l Hl). rewrite take_ge by lia. by destruct l.
Qed.

Lemma truncate_wf l from : wf_log l -> wf_log (Log_truncate_from l from).
Proof.
  intros Hl. unfold Log_truncate_from. pose proof Hl as [Hs Hc Hr].
  destruct (Log_slot l from) as [k|].
  - split; simpl; [done|auto with raftlog|]. rewrite length_take. lia.
  - destruct (Z.leb _ _); [|done]. split; simpl; [done|done|lia].
Qed.

(** Truncation removes exactly the entries at or above the cut. *)
Lemma truncate_get l from i : wf_log l -> snapshot_index l < from ->
  Log_get (Log_truncate_from l from) i = if i <? from then Log_get l i else None.
Proof.
  intros Hl Hf. pose proof (last_index_wf l Hl) as E. pose proof (truncate_wf l from Hl) as Hl'.
  assert (Es : snapshot_index (Log_truncate_from l from) = snapshot_index l).
  { unfold Log_truncate_from. destruct (Log_slot l from); [done|]. by destruct (Z.leb _ _). }
  destruct (decide (i <= snapshot_index l)) as [Hi|Hi].
  { rewrite !get_below by lia. by destruct (Z.ltb _ _). }
  rewrite (get_lookup _ Hl') by lia. rewrite (get_lookup _ Hl) by lia. rewrite Es.
  destruct (decide (from <= Log_last_index l + 1)) as [Hf'|Hf'].
  - rewrite (truncate_entries l from Hl) by lia. simpl.
    destruct (Z.ltb_spec i from).
    + apply lookup_take_lt. lia.
    + apply lookup_take_ge. lia.
  - unfold Log_truncate_from. rewrite (proj2 (slot_None l from)) by lia.
    rewrite (proj2 (Z.leb_gt _ _)) by lia. destruct (Z.ltb_spec i from); [done|].
    apply lookup_ge_None. lia.
Qed.

Lemma compact_wf l through term c : wf_log l -> wf_log (Log_compact_through l through term c).
Proof.
  intros Hl. unfold Log_compact_through. destruct (Z.leb_spec through (snapshot_index l)); [done|].
  pose proof (last_index_wf l Hl) as E. destruct Hl as [Hs Hc Hr].
  set (n := (Z.to_nat (Z.min through (Log_last_index l) - snapshot_index l) `min` length (entries l))%nat).
  assert (Hn : Z.of_nat n = Z.min through (Log_last_index l) - snapshot_index l) by lia.
  split; simpl; [lia| |rewrite length_drop; lia].
  replace (_ + 1) with (snapshot_index l + 1 + Z.of_nat n) by lia.
  apply contiguous_drop; [lia|done].
Qed.

Lemma compact_last_index l through term c : wf_log l ->
  Log_last_index (Log_compact_through l through term c) = Log_last_index l.
Proof.
  intros Hl. rewrite (last_index_wf _ (compact_wf l through term c Hl)).
  unfold Log_compact_through. pose proof (last_index_wf l Hl) as E.
  destruct (Z.leb_spec through (snapshot_index l)); [done|]. simpl.
  rewrite length_drop. lia.
Qed.

Lemma compact_snapshot_index l through term c : wf_log l -> snapshot_index l < through ->
  snapshot_index (Log_compact_through l through term c) = Z.min through (Log_last_index l).
Proof.
  intros Hl H. unfold Log_compact_through. by rewrite (proj2 (Z.leb_gt _ _)) by lia.
Qed.

Lemma compact_get l through term c i : wf_log l -> through < i ->
  Log_get (Log_compact_through l through term c) i = Log_get l i.
Proof.
  intros Hl Hi. pose proof (compact_wf l through term c Hl) as Hl'.
  destruct (decide (through <= snapshot_index l)) as [H|H].
  { unfold Log_compact_through. by rewrite (proj2 (Z.leb_le _ _)) by lia. }
  pose proof (compact_snapshot_index l through term c Hl ltac:(lia)) as Es.
  pose proof (last_index_wf l Hl) as E.
  rewrite (get_lookup _ Hl'), (get_lookup _ Hl), Es by lia.
  unfold Log_compact_through. rewrite (proj2 (Z.leb_gt _ _)) by lia. simpl.
  rewrite lookup_drop. destruct (decide (i <= Log_last_index l)).
  - f_equal. lia.
  - rewrite !lookup_ge_None_2 by lia. done.
Qed.

Lemma install_wf l s : wf_log l -> 0 <= sn_last_index s < U64 - 1 -> wf_log (Log_install_snapshot l s).
Proof.
  intros Hl Hs. unfold Log_install_snapshot. case_bool_decide; [by apply compact_wf|].
  split; simpl; [lia|done|lia].
Qed.

#[export] Hint Resolve truncate_wf compact_wf install_wf wf_bootstrap : raftlog.

(** ** Merging *)

Lemma append_get l es i : wf_log l -> wf_log (Log_append l es) ->
  Log_get (Log_append l es) i =
    if i <=? Log_last_index l then Log_get l i
    else es !! Z.to_nat (i - Log_last_index l - 1).
Proof.
  intros Hl Hl'. pose proof (last_index_wf l Hl) as E.
  destruct (Z.leb_spec i (Log_last_index l)).
  - destruct (decide (i <= snapshot_index l)); [by rewrite !get_below|].
    rewrite (get_lookup _ Hl'), (get_lookup _ Hl) by (simpl; lia). simpl.
    apply lookup_app_l. lia.
  - rewrite (get_lookup _ Hl') by (simpl; lia). simpl. rewrite lookup_app_r by lia. f_equal. lia.
Qed.

(** What a merge leaves behind, relative to the log and the batch: [Kept] when
    the log already held the whole batch, [Replaced k] when the first [k]
    entries were held and the log continues with the rest of the batch. *)
Inductive merge_outcome (l : Log) (prev : Index) (es : list Entry) : Log -> Prop :=
| Kept :
    prev + Z.of_nat (length es) <= Log_last_index l ->
    (forall e, e ∈ es -> Log_term_at l (e_index e) = Some (e_term e)) ->
    merge_outcome l prev es l
| Replaced (k : nat) (l' : Log) :
    (k < length es)%nat ->
    prev + Z.of_nat k <= Log_last_index l ->
    (forall e, e ∈ take k es -> Log_term_at l (e_index e) = Some (e_term e)) ->
    (forall e, es !! k = Some e -> Log_term_at l (e_index e) <> Some (e_term e)) ->
    l' = mkLog (snapshot_index l) (snapshot_term l) (snapshot_config l)
           (take (Z.to_nat (prev + Z.of_nat k - snapshot_index l)) (entries l) ++ drop k es) ->
    merge_outcome l prev es l'.

Lemma merge_loop_outcome l prev es : wf_log l -> contiguous_from (prev + 1) es ->
  snapshot_index l <= prev <= Log_last_index l -> merge_outcome l prev es (Log_merge_loop l es).
Proof.
  intros Hl. revert prev. induction es as [|e es IH]; intros prev Hc Hp; simpl.
  { apply Kept; [simpl; lia|]. intros e He. by apply elem_of_nil in He. }
  apply contiguous_cons in Hc as [He Hc]. pose proof (wf_snapshot l Hl) as Hs0.
  assert (Hrep : Log_term_at l (e_index e) <> Some (e_term e) ->
    merge_outcome l prev (e :: es)
      (Log_append (Log_truncate_from l (e_index e)) (e :: es))).
  { intros Hne. apply (Replaced _ _ _ 0); simpl; [lia|lia| | |].
    - intros e' He'. by apply elem_of_nil in He'.
    - by intros e' [= <-].
    - rewrite (truncate_entries l _ Hl) by lia. unfold Log_append. simpl. do 3 f_equal. lia. }
  destruct (Log_term_at l (e_index e)) as [t|] eqn:Et.
  - destruct (Z.eqb_spec t (e_term e)) as [->|Hne]; [|apply Hrep; congruence].
    destruct (term_at_Some l Hl _ _ Et) as [H0|Hin]; [lia|].
    destruct (IH (prev + 1) Hc ltac:(lia)) as [Hlen Hall|k l' Hk Hlen Hall Hmis ->].
    + apply Kept; [simpl in *; lia|]. intros e' [->|He']%elem_of_cons; auto.
    + apply (Replaced _ _ _ (S k)); simpl; [lia|lia| |done|do 3 f_equal; lia].
      intros e' [->|He']%elem_of_cons; auto.
  - replace (Log_append l (e :: es)) with (Log_append (Log_truncate_from l (e_index e)) (e :: es)).
    { apply Hrep. done. }
    f_equal. assert (Hgt : Log_last_index l < e_index e).
    { apply Z.lt_nge. intros Hle. destruct (get_is_Some l Hl (e_index e)) as [x Hx]; [lia|].
      by rewrite (term_at_get l Hl _ _ Hx) in Et. }
    unfold Log_truncate_from. rewrite (proj2 (slot_None l _)) by lia.
    by rewrite (proj2 (Z.leb_gt _ _)) by lia.
Qed.

(** ** What a merge guarantees *)

Lemma merge_outcome_wf l prev es l' : wf_log l -> contiguous_from (prev + 1) es ->
  snapshot_index l <= prev -> prev + Z.of_nat (length es) < U64 - 1 ->
  merge_outcome l prev es l' -> wf_log l'.
Proof.
  intros Hl Hc Hp Hr [|k l2 Hk Hlast _ _ ->]; [done|].
  pose proof (last_index_wf l Hl) as E. destruct Hl as [Hs Hcl Hrl].
  assert (Hlen : length (take (Z.to_nat (prev + Z.of_nat k - snapshot_index l)) (entries l))
    = Z.to_nat (prev + Z.of_nat k - snapshot_index l)) by (rewrite length_take; lia).
  split; simpl; [done| |rewrite length_app, Hlen, length_drop; lia].
  apply contiguous_app. split; [auto with raftlog|]. rewrite Hlen.
  replace (_ + _) with (prev + 1 + Z.of_nat k) by lia. apply contiguous_drop; [lia|done].
Qed.

Lemma merge_outcome_get l prev es l' i : wf_log l -> wf_log l' ->
  snapshot_index l <= prev -> merge_outcome l prev es l' -> i <= prev ->
  Log_get l' i = Log_get l i.
Proof.
  intros Hl Hl' Hp Ho Hi. destruct Ho as [|k l2 Hk Hlast _ _ ->]; [done|].
  pose proof (last_index_wf l Hl) as E.
  destruct (decide (i <= snapshot_index l)); [by rewrite !get_below|].
  rewrite (get_lookup _ Hl'), (get_lookup _ Hl) by (simpl; lia). simpl.
  rewrite lookup_app_l by (rewrite length_take; lia). apply lookup_take_lt. lia.
Qed.

(** The entries of a log that was replaced from position [k] of the batch on. *)
Lemma replaced_get l prev es k l' j : wf_log l -> wf_log l' -> snapshot_index l <= prev ->
  (k < length es)%nat -> prev + Z.of_nat k <= Log_last_index l ->
  l' = mkLog (snapshot_index l) (snapshot_term l) (snapshot_config l)
         (take (Z.to_nat (prev + Z.of_nat k - snapshot_index l)) (entries l) ++ drop k es) ->
  Log_get l' (prev + 1 + Z.of_nat j) =
    if (j <? k)%nat then Log_get l (prev + 1 + Z.of_nat j) else es !! j.
Proof.
  intros Hl Hl' Hp Hk Hlast ->. pose proof (last_index_wf l Hl) as E.
  rewrite (get_lookup _ Hl') by (simpl; lia). simpl.
  destruct (Nat.ltb_spec j k).
  - rewrite (get_lookup _ Hl) by lia.
    rewrite lookup_app_l by (rewrite length_take; lia). apply lookup_take_lt. lia.
  - rewrite lookup_app_r by (rewrite length_take; lia).
    rewrite length_take, lookup_drop. f_equal. lia.
Qed.

Lemma term_at_same_get l l' i : snapshot_index l' = snapshot_index l ->
  snapshot_term l' = snapshot_term l -> Log_get l' i = Log_get l i ->
  Log_term_at l' i = Log_term_at l i.
Proof. intros Hs Ht Hg. unfold Log_term_at. by rewrite Hs, Ht, Hg. Qed.

Lemma merge_outcome_terms l prev es l' e : wf_log l -> wf_log l' ->
  contiguous_from (prev + 1) es -> snapshot_index l <= prev ->
  merge_outcome l prev es l' -> e ∈ es -> Log_term_at l' (e_index e) = Some (e_term e).
Proof.
  intros Hl Hl' Hc Hp Ho [j Hj]%list_elem_of_lookup.
  pose proof (contiguous_lookup _ _ _ _ Hc Hj) as Hi.
  inversion Ho as [Hlast Hall|k l2 Hk Hlast Hall _ El]; subst.
  { apply Hall. by eapply list_elem_of_lookup_2. }
  pose proof (replaced_get l prev es k _ j Hl Hl' Hp Hk Hlast eq_refl) as Hg.
  destruct (Nat.ltb_spec j k).
  - rewrite (term_at_same_get l); [|done|done|by rewrite Hi].
    apply Hall. apply list_elem_of_lookup. exists j. by rewrite lookup_take_lt.
  - apply term_at_get; [done|]. by rewrite Hi, Hg.
Qed.

Lemma merge_last_new l prev es : contiguous_from (prev + 1) es ->
  snd (Log_merge l prev es) = prev + Z.of_nat (length es).
Proof.
  intros Hc. unfold Log_merge. destruct (last es) as [e|] eqn:E; simpl.
  - rewrite (contiguous_last _ _ _ Hc E). lia.
  - apply last_None in E. rewrite E. simpl. lia.
Qed.

Lemma merge_fst l prev es : fst (Log_merge l prev es) = Log_merge_loop l es.
Proof. unfold Log_merge. destruct es as [|e es]; [done|]. by destruct (last (e :: es)) eqn:E; [|apply last_None in E]. Qed.

(** A log that already holds the whole batch is left as it is. *)
Lemma merge_loop_held l es :
  (forall e, e ∈ es -> Log_term_at l (e_index e) = Some (e_term e)) -> Log_merge_loop l es = l.
Proof.
  induction es as [|e es IH]; intros H; simpl; [done|].
  rewrite (H e) by apply list_elem_of_here. rewrite Z.eqb_refl.
  apply IH. intros e' He'. apply H. by apply list_elem_of_further.
Qed.

(** [merge] of a batch that continues the log at [prev_index] (a) keeps the
    log well formed, (b) answers the batch's last index, (c) leaves every entry
    up to [prev_index] alone, (d) leaves the log holding every entry of the
    batch, (e) changes nothing when the log held the batch already, in
    particular does not cut off entries after it, and (f) otherwise ends the
    log exactly where the batch ends. *)
Theorem merge_correct l prev es :
  wf_log l -> contiguous_from (prev + 1) es ->
  snapshot_index l <= prev <= Log_last_index l ->
  prev + Z.of_nat (length es) < U64 - 1 ->
  let l' := fst (Log_merge l prev es) in
  wf_log l' /\
  snd (Log_merge l prev es) = prev + Z.of_nat (length es) /\
  (forall i, i <= prev -> Log_get l' i = Log_get l i) /\
  (forall e, e ∈ es -> Log_term_at l' (e_index e) = Some (e_term e)) /\
  ((forall e, e ∈ es -> Log_term_at l (e_index e) = Some (e_term e)) -> l' = l) /\
  (~ (forall e, e ∈ es -> Log_term_at l (e_index e) = Some (e_term e)) ->
     Log_last_index l' = prev + Z.of_nat (length es)).
Proof.
  intros Hl Hc Hp Hr. cbv zeta. rewrite merge_fst.
  pose proof (merge_loop_outcome l prev es Hl Hc Hp) as Ho.
  pose proof (merge_outcome_wf _ _ _ _ Hl Hc (proj1 Hp) Hr Ho) as Hl'.
  split; [done|]. split; [by apply merge_last_new|].
  split; [|split; [|split; [apply merge_loop_held|]]].
  - intros i. by apply (merge_outcome_get l prev es _ i Hl Hl' (proj1 Hp)).
  - intros e. by apply (merge_outcome_terms l prev es _ e Hl Hl' Hc (proj1 Hp)).
  - intros Hnot. rewrite (last_index_wf _ Hl'). pose proof (last_index_wf l Hl) as E.
    destruct Ho as [Hx Hall|k l2 Hk Hlast _ _ ->]; [by destruct (Hnot Hall)|].
    simpl. rewrite length_app, length_take, length_drop. lia.
Qed.

Definition demo_entry (t i : Z) : Entry := mkEntry t i Noop.
Definition demo_log : Log :=
  mkLog 2 1 (Config_simple [1; 2; 3]) [demo_entry 1 3; demo_entry 2 4; demo_entry 2 5].

Lemma merge_correct_witness :
  let l' := fst (Log_merge demo_log 3 [demo_entry 3 4]) in
  l' = mkLog 2 1 (Config_simple [1; 2; 3]) [demo_entry 1 3; demo_entry 3 4] /\
  Log_term_at l' 4 = Some 3 /\ Log_get l' 3 = Log_get demo_log 3.
Proof.
  destruct (merge_correct demo_log 3 [demo_entry 3 4]) as (_ & _ & Hget & Hterm & _);
    [by_decide|by_decide|by_decide|by_decide|].
  split_and!; [by_decide|apply (Hterm (demo_entry 3 4)); apply list_elem_of_here|apply Hget; lia].
Defined.

(** Delivering the same batch twice is the same as delivering it once: a
    retried append changes nothing and answers the same index. *)
Theorem merge_idempotent l prev es :
  wf_log l -> contiguous_from (prev + 1) es ->
  snapshot_index l <= prev <= Log_last_index l ->
  prev + Z.of_nat (length es) < U64 - 1 ->
  Log_merge (fst (Log_merge l prev es)) prev es = Log_merge l prev es.
Proof.
  intros Hl Hc Hp Hr. pose proof (merge_loop_outcome l prev es Hl Hc Hp) as Ho.
  pose proof (merge_outcome_wf _ _ _ _ Hl Hc (proj1 Hp) Hr Ho) as Hl'.
  apply injective_projections; [|by rewrite !merge_last_new].
  rewrite !merge_fst. apply merge_loop_held. intros e.
  by apply (merge_outcome_terms l prev es _ e Hl Hl' Hc (proj1 Hp)).
Qed.

Lemma merge_idempotent_witness :
  Log_merge (fst (Log_merge demo_log 3 [demo_entry 3 4; demo_entry 3 5])) 3
    [demo_entry 3 4; demo_entry 3 5] = Log_merge demo_log 3 [demo_entry 3 4; demo_entry 3 5].
Proof. apply merge_idempotent; by_decide. Defined.

(** ** Slices *)

Lemma filter_range_contiguous i es (a b : Z) : contiguous_from i es ->
  filter (fun e => a <= e_index e < b) es =
    take (Z.to_nat (b - Z.max a i)) (drop (Z.to_nat (a - i)) es).
Proof.
  revert i. induction es as [|e es IH]; intros i Hc; [by rewrite drop_nil, take_nil|].
  apply contiguous_cons in Hc as [He Hc]. rewrite filter_cons, (IH (i + 1)) by done.
  destruct (decide (a <= e_index e < b)) as [H|H].
  - rewrite (Z2Nat.nonpos (a - i)), (Z2Nat.nonpos (a - (i + 1))) by lia. simpl. rewrite drop_0.
    replace (Z.to_nat (b - Z.max a i)) with (S (Z.to_nat (b - Z.max a (i + 1)))) by lia. done.
  - destruct (decide (a <= i)) as [Ha|Ha].
    + rewrite !(Z2Nat.nonpos (b - _)) by lia. done.
    + replace (Z.to_nat (a - i)) with (S (Z.to_nat (a - (i + 1)))) by lia. simpl.
      f_equal. lia.
Qed.

Lemma slice_filter l from to : wf_log l ->
  Log_slice l from to = filter (fun e => from <= e_index e < to) (entries l).
Proof.
  intros Hl. rewrite (filter_range_contiguous _ _ _ _ (wf_contiguous l Hl)).
  unfold Log_slice. rewrite (first_index_wf l Hl). pose proof (last_index_wf l Hl) as E.
  destruct (Log_slot l (Z.max from (snapshot_index l + 1))) as [lo|] eqn:Elo.
  2: { apply slot_None in Elo. rewrite drop_ge by lia. by rewrite take_nil. }
  apply slot_Some in Elo as [Hlo ->].
  replace (Z.to_nat (from - (snapshot_index l + 1))) with
    (Z.to_nat (Z.max from (snapshot_index l + 1) - snapshot_index l - 1)) by lia.
  destruct (Z.ltb_spec (Log_last_index l) to) as [Ht|Ht].
  - rewrite (proj2 (Nat.leb_gt _ _)) by lia. rewrite !take_ge by (rewrite length_drop; lia). done.
  - destruct (Log_slot l to) as [hi|] eqn:Ehi.
    + apply slot_Some in Ehi as [Hhi ->]. destruct (Nat.leb_spec (Z.to_nat (to - snapshot_index l - 1))
        (Z.to_nat (Z.max from (snapshot_index l + 1) - snapshot_index l - 1))).
      * by rewrite (Z2Nat.nonpos (to - _)) by lia.
      * f_equal. lia.
    + apply slot_None in Ehi. by rewrite (Z2Nat.nonpos (to - _)) by lia.
Qed.

(** [slice(from, to)] answers exactly the entries whose index lies in
    [from, to), in order, whatever the two bounds are: below the snapshot
    point, past the end, or crossed. *)
Theorem slice_is_filter l from to : wf_log l ->
  Log_slice l from to = filter (fun e => from <= e_index e < to) (entries l).
Proof. apply slice_filter. Qed.

Lemma slice_is_filter_witness :
  Log_slice demo_log 0 5 = [demo_entry 1 3; demo_entry 2 4].
Proof. rewrite (slice_is_filter demo_log 0 5) by by_decide. by_decide. Defined.

(** ** Compaction *)

Lemma replay_app c es es' : fold_left replay_entry (es ++ es') c =
  fold_left replay_entry es' (fold_left replay_entry es c).
Proof. apply fold_left_app. Qed.

(** The configuration in force at [index]: the snapshot's, with the changes of
    the entries up to [index] applied. *)
Definition config_at (l : Log) (index : Index) : Config :=
  fold_left replay_entry (filter (fun e => e_index e <= index) (entries l)) (snapshot_config l).

Lemma filter_le_contiguous i es (b : Z) : contiguous_from i es ->
  filter (fun e => e_index e <= b) es = take (Z.to_nat (b - i + 1)) es.
Proof.
  intros Hc. rewrite (filter_ext_Forall _ (fun e => i <= e_index e < b + 1)).
  - rewrite (filter_range_contiguous i es i (b + 1) Hc), Z.sub_diag. simpl. rewrite drop_0.
    f_equal. lia.
  - apply Forall_lookup. intros k e Hk. pose proof (contiguous_lookup _ _ _ _ Hc Hk). lia.
Qed.

(** Compacting through an index the log holds, with that index's term and
    the configuration in force there, is invisible above the cut: the last
    index, every later entry, the term at the cut itself and the configuration
    the log implies are the ones the full log has, and the log stays well
    formed. *)
Theorem compact_preserves l through t :
  wf_log l -> snapshot_index l <= through -> Log_term_at l through = Some t ->
  let l' := Log_compact_through l through t (config_at l through) in
  wf_log l' /\ Log_last_index l' = Log_last_index l /\
  (forall i, through < i -> Log_get l' i = Log_get l i) /\
  Log_term_at l' through = Some t /\
  Log_config l' = Log_config l.
Proof.
  intros Hl Hs Ht. cbv zeta. pose proof (last_index_wf l Hl) as E.
  pose proof (wf_snapshot l Hl) as Hs0.
  assert (Hth : through = 0 \/ snapshot_index l <= through <= Log_last_index l)
    by (eapply term_at_Some; eauto).
  split; [by apply compact_wf|]. split; [by apply compact_last_index|].
  split; [intros i Hi; by apply compact_get|].
  unfold Log_compact_through. destruct (Z.leb_spec through (snapshot_index l)); [done|].
  split.
  - unfold Log_term_at. simpl. rewrite (proj2 (Z.eqb_neq _ _)) by lia.
    by rewrite Z.min_l, Z.eqb_refl by lia.
  - unfold Log_config, config_at. simpl.
    rewrite (filter_le_contiguous _ _ _ (wf_contiguous l Hl)), <- replay_app. f_equal.
    replace (Z.to_nat (through - _ + 1)) with (Z.to_nat (Z.min through (Log_last_index l)
      - snapshot_index l) `min` length (entries l))%nat by lia.
    apply take_drop.
Qed.

Definition joint_log : Log :=
  mkLog 0 0 (Config_simple [1; 2; 3])
    [demo_entry 1 1; mkEntry 1 2 (KConfig (EnterJoint {[1; 4; 5]} ∅)); demo_entry 1 3].

Lemma compact_preserves_witness :
  Log_config (Log_compact_through joint_log 2 1 (config_at joint_log 2))
    = mkConfig {[1; 4; 5]} {[1; 2; 3]} ∅.
Proof.
  destruct (compact_preserves joint_log 2 1) as (_ & _ & _ & _ & H); [by_decide|by_decide|by_decide|].
  rewrite H. by_decide.
Defined.

(** ** Backing up to a conflict *)

Lemma find_conflict_loop_spec l term k : wf_log l ->
  snapshot_index l + Z.of_nat k <= Log_last_index l ->
  let i := find_conflict_loop l term k in
  snapshot_index l <= i <= snapshot_index l + Z.of_nat k /\
  (i = snapshot_index l \/ exists t, Log_term_at l i = Some t /\ t <= term) /\
  (forall j, i < j <= snapshot_index l + Z.of_nat k -> exists t, Log_term_at l j = Some t /\ term < t).
Proof.
  intros Hl. cbv zeta. induction k as [|k IH]; intros Hk; [split_and!; simpl; auto with lia|].
  cbn [find_conflict_loop].
  destruct (get_is_Some l Hl (snapshot_index l + Z.of_nat (S k))) as [e He]; [lia|].
  rewrite (term_at_get l Hl _ _ He). destruct (Z.leb_spec (e_term e) term) as [Ht|Ht].
  - split_and!; [lia|lia| |lia]. right. exists (e_term e). eauto using term_at_get.
  - destruct IH as (H1 & H2 & H3); [lia|]. split_and!; [lia|lia|done|].
    intros j Hj. destruct (decide (j = snapshot_index l + Z.of_nat (S k))) as [->|].
    + exists (e_term e). eauto using term_at_get.
    + apply H3. lia.
Qed.

(** [find_conflict_by_term(index, term)] terminates with the largest index
    not above [index] (nor past the end of the log) whose entry's term is at
    most [term], or the snapshot point when every entry in between is newer. *)
Theorem find_conflict_by_term_spec l index term :
  wf_log l -> snapshot_index l <= index ->
  let i := Log_find_conflict_by_term l index term in
  snapshot_index l <= i <= Z.min index (Log_last_index l) /\
  (i = snapshot_index l \/ exists t, Log_term_at l i = Some t /\ t <= term) /\
  (forall j, i < j <= Z.min index (Log_last_index l) ->
     exists t, Log_term_at l j = Some t /\ term < t).
Proof.
  intros Hl Hi. cbv zeta. unfold Log_find_conflict_by_term.
  pose proof (last_index_wf l Hl) as E.
  destruct (Z.leb_spec (Z.min index (Log_last_index l)) (snapshot_index l)).
  - split_and!; [lia|lia|left; lia|lia].
  - pose proof (find_conflict_loop_spec l term
      (Z.to_nat (Z.min index (Log_last_index l) - snapshot_index l)) Hl ltac:(lia)) as H3.
    cbv zeta in H3. rewrite Z2Nat.id, Zplus_minus in H3 by lia. exact H3.
Qed.

Lemma find_conflict_by_term_spec_witness :
  Log_find_conflict_by_term demo_log 9 1 = 3 /\
  exists t, Log_term_at demo_log 5 = Some t /\ 1 < t.
Proof.
  split; [by_decide|].
  destruct (find_conflict_by_term_spec demo_log 9 1) as (_ & _ & H); [by_decide|by_decide|].
  apply H. by_decide.
Defined.

(** ** Elections: comparing logs *)

(** The pair [is_up_to_date] compares, newest term first, then length. *)
Definition last_position (l : Log) : Z * Z := (Log_last_term l, Log_last_index l).

(** The up-to-date comparison of the election restriction is a total
    preorder on logs, so of two candidates at least one may have the other's
    vote; and two logs that are each up to date for the other end in the same
    term at the same index. *)
Theorem up_to_date_total_preorder :
  (forall l, Log_is_up_to_date l (Log_last_term l) (Log_last_index l) = true) /\
  (forall l1 l2 l3,
     Log_is_up_to_date l1 (Log_last_term l2) (Log_last_index l2) = true ->
     Log_is_up_to_date l2 (Log_last_term l3) (Log_last_index l3) = true ->
     Log_is_up_to_date l1 (Log_last_term l3) (Log_last_index l3) = true) /\
  (forall l1 l2,
     Log_is_up_to_date l1 (Log_last_term l2) (Log_last_index l2) = true \/
     Log_is_up_to_date l2 (Log_last_term l1) (Log_last_index l1) = true) /\
  (forall l1 l2,
     Log_is_up_to_date l1 (Log_last_term l2) (Log_last_index l2) = true ->
     Log_is_up_to_date l2 (Log_last_term l1) (Log_last_index l1) = true ->
     last_position l1 = last_position l2).
Proof.
  unfold Log_is_up_to_date, last_position. split_and!; intros *; try lia.
  intros H1 H2. f_equal; lia.
Qed.

(** ** Joint consensus: [apply_change] *)

(** A configuration change never lets two disjoint quorums decide. Entering
    a joint configuration from a simple one, any quorum of the joint
    configuration meets every quorum of the configuration it replaces, and
    leaving it, every quorum of the configuration that results meets every
    quorum of the joint one. *)
Theorem joint_transition_overlaps c incoming ls (q1 q2 : gset NodeId) :
  Config_is_joint c = false ->
  let joint := apply_change c (EnterJoint incoming ls) in
  let final := apply_change joint LeaveJoint in
  (Config_has_quorum c q1 = true -> Config_has_quorum joint q2 = true ->
   exists id, id ∈ voters c /\ id ∈ q1 /\ id ∈ q2) /\
  (Config_has_quorum joint q1 = true -> Config_has_quorum final q2 = true ->
   exists id, id ∈ incoming /\ id ∈ q1 /\ id ∈ q2) /\
  Config_is_joint final = false.
Proof.
  intros Hj. simpl. split_and!; [| |done].
  - intros [Hne [Hv1 _]]%has_quorum_true [_ [_ Ho2]]%has_quorum_true. simpl in *.
    assert (Ho : outgoing c = ∅).
    { destruct (decide (outgoing c = ∅)); [done|]. by rewrite (proj2 (Config_is_joint_true c)) in Hj. }
    destruct (majority_intersect (voters c) q1 q2) as (id & ? & ? & ?); [set_solver|done..|]. eauto.
  - intros [_ [Hv1 _]]%has_quorum_true [Hne [Hv2 _]]%has_quorum_true. simpl in *.
    destruct (majority_intersect incoming q1 q2) as (id & ? & ? & ?); [set_solver|done..|]. eauto.
Qed.

Lemma joint_transition_overlaps_witness :
  exists id, id ∈ voters (Config_simple [1; 2; 3]) /\ id ∈ ({[1; 2]} : gset Z)
    /\ id ∈ ({[2; 3; 4; 5]} : gset Z).
Proof.
  apply (joint_transition_overlaps (Config_simple [1; 2; 3]) {[3; 4; 5]} ∅ {[1; 2]} {[2; 3; 4; 5]});
    vm_compute; reflexivity.
Defined.
