(* ===== verification/Client.v ===== *)
(** * The client protocol: [crates/chronolog/src/client.rs]

    Requests, responses and their encodings. *)

From Stdlib Require Import ZArith Lia.
From stdpp Require Import base tactics list list_numbers gmap sets sorting.
From S2P Require Import Prelude Codec Types.

Open Scope Z_scope.

Abbreviation Bytes := (list Z).

Inductive ReadMode : Type := Linearizable | Lease | Stale.

Inductive Op : Type :=
| Get (key : Bytes) (mode : ReadMode)
| Put (key value : Bytes)
| Delete (key : Bytes)
| Cas (key : Bytes) (expect value : option Bytes)
| GetAt (key : Bytes) (version : Index).

Definition Op_is_read (o : Op) : bool :=
  match o with Get _ _ | GetAt _ _ => true | _ => false end.

Record Request : Type := mkRequest { rq_client_id : Z; rq_seq : Z; rq_op : Op }.

Inductive Outcome : Type :=
| Value (v : option Bytes)
| Applied (version : Index)
| CasFailed (actual : option Bytes)
| NotLeader (hint : option NodeId)
| Unavailable.

Record Response : Type := mkResponse { rp_client_id : Z; rp_seq : Z; rp_outcome : Outcome }.

#[export] Instance ReadMode_eq_dec : EqDecision ReadMode.
Proof. solve_decision. Defined.
#[export] Instance Op_eq_dec : EqDecision Op.
Proof. solve_decision. Defined.
#[export] Instance Request_eq_dec : EqDecision Request.
Proof. solve_decision. Defined.
#[export] Instance Outcome_eq_dec : EqDecision Outcome.
Proof. solve_decision. Defined.
#[export] Instance Response_eq_dec : EqDecision Response.
Proof. solve_decision. Defined.

(** ** Encoding *)

Definition mode_tag (m : ReadMode) : Z :=
  match m with Linearizable => 0 | Lease => 1 | Stale => 2 end.

Definition tag_mode (t : Z) : Parser ReadMode :=
  if t =? 0 then mret Linearizable
  else if t =? 1 then mret Lease
  else if t =? 2 then mret Stale
  else Parser_fail (BadTag t).

Definition Request_encode (q : Request) : Bytes :=
  let w := Writer_new |> Writer_u64 (rq_client_id q) |> Writer_u64 (rq_seq q) in
  match rq_op q with
  | Get key mode => w |> Writer_u8 0 |> Writer_bytes key |> Writer_u8 (mode_tag mode)
  | Put key value => w |> Writer_u8 1 |> Writer_bytes key |> Writer_bytes value
  | Delete key => w |> Writer_u8 2 |> Writer_bytes key
  | Cas key expect value =>
      w |> Writer_u8 3 |> Writer_bytes key
        |> Writer_opt Writer_bytes expect |> Writer_opt Writer_bytes value
  | GetAt key version => w |> Writer_u8 4 |> Writer_bytes key |> Writer_u64 version
  end.

Definition Op_decode : Parser Op :=
  t ← Reader_u8;
  if t =? 0 then key ← Reader_bytes; m ← Reader_u8; mode ← tag_mode m; mret (Get key mode)
  else if t =? 1 then key ← Reader_bytes; value ← Reader_bytes; mret (Put key value)
  else if t =? 2 then key ← Reader_bytes; mret (Delete key)
  else if t =? 3 then
    key ← Reader_bytes; expect ← Reader_opt Reader_bytes; value ← Reader_opt Reader_bytes;
    mret (Cas key expect value)
  else if t =? 4 then key ← Reader_bytes; version ← Reader_u64; mret (GetAt key version)
  else Parser_fail (BadTag t).

Definition Request_decoder : Parser Request :=
  client_id ← Reader_u64; seq ← Reader_u64; op ← Op_decode; mret (mkRequest client_id seq op).

Definition Request_decode (buf : Bytes) : result DecodeError Request :=
  (Request_decoder (Reader_new buf)).1.

Definition Response_encode (p : Response) : Bytes :=
  let w := Writer_new |> Writer_u64 (rp_client_id p) |> Writer_u64 (rp_seq p) in
  match rp_outcome p with
  | Value v => w |> Writer_u8 0 |> Writer_opt Writer_bytes v
  | Applied version => w |> Writer_u8 1 |> Writer_u64 version
  | CasFailed actual => w |> Writer_u8 2 |> Writer_opt Writer_bytes actual
  | NotLeader hint => w |> Writer_u8 3 |> Writer_opt Writer_u32 hint
  | Unavailable => w |> Writer_u8 4
  end.

Definition Outcome_decode : Parser Outcome :=
  t ← Reader_u8;
  if t =? 0 then v ← Reader_opt Reader_bytes; mret (Value v)
  else if t =? 1 then version ← Reader_u64; mret (Applied version)
  else if t =? 2 then actual ← Reader_opt Reader_bytes; mret (CasFailed actual)
  else if t =? 3 then hint ← Reader_opt Reader_u32; mret (NotLeader hint)
  else if t =? 4 then mret Unavailable
  else Parser_fail (BadTag t).

Definition Response_decoder : Parser Response :=
  client_id ← Reader_u64; seq ← Reader_u64; outcome ← Outcome_decode;
  mret (mkResponse client_id seq outcome).

Definition Response_decode (buf : Bytes) : result DecodeError Response :=
  (Response_decoder (Reader_new buf)).1.

(** * Theorems *)

Definition Op_ok (o : Op) : Prop :=
  match o with
  | Get k _ | Delete k => fits_u32 k
  | Put k v => fits_u32 k /\ fits_u32 v
  | Cas k e v => fits_u32 k /\ opt_ok fits_u32 e /\ opt_ok fits_u32 v
  | GetAt k v => fits_u32 k /\ is_u64 v
  end.
Definition Request_ok (q : Request) : Prop :=
  is_u64 (rq_client_id q) /\ is_u64 (rq_seq q) /\ Op_ok (rq_op q).
Definition Outcome_ok (o : Outcome) : Prop :=
  match o with
  | Value v | CasFailed v => opt_ok fits_u32 v
  | Applied v => is_u64 v
  | NotLeader h => opt_ok is_u32 h
  | Unavailable => True
  end.
Definition Response_ok (p : Response) : Prop :=
  is_u64 (rp_client_id p) /\ is_u64 (rp_seq p) /\ Outcome_ok (rp_outcome p).

#[export] Instance Op_ok_dec o : Decision (Op_ok o).
Proof. destruct o; simpl; apply _. Defined.
#[export] Instance Request_ok_dec q : Decision (Request_ok q).
Proof. unfold Request_ok. apply _. Defined.
#[export] Instance Outcome_ok_dec o : Decision (Outcome_ok o).
Proof. destruct o; simpl; apply _. Defined.
#[export] Instance Response_ok_dec p : Decision (Response_ok p).
Proof. unfold Response_ok. apply _. Defined.

Lemma parses_mode {B} m (k : ReadMode -> Parser B) y :
  parses (k m) [] y -> parses (t ← Reader_u8; mode ← tag_mode t; k mode) [mode_tag m] y.
Proof.
  intros Hk. destruct m;
    (eapply parses_bind_end; [apply parses_u8; by_decide|exact Hk]).
Qed.

Lemma parses_request q : Request_ok q -> parses Request_decoder (Request_encode q) q.
Proof.
  destruct q as [c s o]. intros (Hc & Hs & Ho). unfold Request_encode, Request_decoder. simpl in *.
  destruct o as [k m|k v|k|k e v|k v]; simpl in Ho; destruct_and?; writer_fields;
    (eapply parses_bind; [by auto with codec|]; eapply parses_bind; [by auto with codec|];
     eapply parses_bind_end; [unfold Op_decode; parse_tag; try solve [parse_fields]|apply parses_ret]).
  eapply parses_bind; [eauto with codec|]. apply parses_mode, parses_ret.
Qed.

Lemma parses_response p : Response_ok p -> parses Response_decoder (Response_encode p) p.
Proof.
  destruct p as [c s o]. intros (Hc & Hs & Ho). unfold Response_encode, Response_decoder.
  simpl in *. destruct o as [v|v|v|h|]; simpl in Ho; writer_fields;
    (eapply parses_bind; [by auto with codec|]; eapply parses_bind; [by auto with codec|];
     eapply parses_bind_end; [unfold Outcome_decode; parse_tag; parse_fields|apply parses_ret]).
Qed.

(** Decoding the whole of an encoded message. *)
Lemma parses_whole {A} (p : Parser A) bs x : parses p bs x -> (p (Reader_new bs)).1 = Ok x.
Proof. intros H. rewrite (H (Reader_new bs) []); [done|]. unfold rest_of. simpl. by rewrite app_nil_r. Qed.

Lemma rt_response p : Response_ok p -> (Response_decoder (Reader_new (Response_encode p))).1 = Ok p.
Proof. intros Hp. by apply parses_whole, parses_response. Qed.

#[export] Instance Bounded_tag_mode t : Bounded (tag_mode t).
Proof. unfold tag_mode. apply _. Qed.
#[export] Instance Bounded_Request_decoder : Bounded Request_decoder.
Proof. unfold Request_decoder, Op_decode. apply _. Qed.
#[export] Instance Bounded_Response_decoder : Bounded Response_decoder.
Proof. unfold Response_decoder, Outcome_decode. apply _. Qed.
