(* ===== verification/Msg.v ===== *)
(** * The wire protocol: [crates/chronolog/src/msg.rs]

    Raft messages, the checksummed frame, and the envelope that multiplexes
    Raft, client and membership traffic. [summary] (a one-line text for
    traces) and [Incoming] (a pair) are not modelled. *)

From Stdlib Require Import ZArith Lia.
From stdpp Require Import base tactics list list_numbers gmap sets sorting.
From S2P Require Import Prelude Codec Types Client.

Open Scope Z_scope.

Definition PROTOCOL_VERSION : Z := 1.

Inductive Body : Type :=
| PreVoteReq (last_index : Index) (last_term : Term)
| PreVoteResp (granted : bool)
| VoteReq (last_index : Index) (last_term : Term)
| VoteResp (granted : bool)
| AppendReq (prev_index : Index) (prev_term : Term) (es : list Entry) (commit : Index)
| AppendResp (success : bool) (match_index conflict_index : Index) (conflict_term : Term)
| SnapshotReq (snapshot : Snapshot)
| SnapshotResp (success : bool) (index : Index)
| HeartbeatReq (commit : Index) (ctx : Z)
| HeartbeatResp (ctx : Z)
| TimeoutNow.

Record Message : Type := mkMessage { m_term : Term; m_body : Body }.

#[export] Instance Body_eq_dec : EqDecision Body.
Proof. solve_decision. Defined.
#[export] Instance Message_eq_dec : EqDecision Message.
Proof. solve_decision. Defined.

Definition Message_is_pre_vote (m : Message) : bool :=
  match m_body m with PreVoteReq _ _ | PreVoteResp _ => true | _ => false end.

Definition Message_encode (m : Message) : Bytes :=
  let w := Writer_new |> Writer_u64 (m_term m) in
  match m_body m with
  | PreVoteReq i t => w |> Writer_u8 1 |> Writer_u64 i |> Writer_u64 t
  | PreVoteResp g => w |> Writer_u8 2 |> Writer_bool g
  | VoteReq i t => w |> Writer_u8 3 |> Writer_u64 i |> Writer_u64 t
  | VoteResp g => w |> Writer_u8 4 |> Writer_bool g
  | AppendReq pi pt es c =>
      w |> Writer_u8 5 |> Writer_u64 pi |> Writer_u64 pt |> Writer_u64 c
        |> Writer_seq Entry_encode es
  | AppendResp s m ci ct =>
      w |> Writer_u8 6 |> Writer_bool s |> Writer_u64 m |> Writer_u64 ci |> Writer_u64 ct
  | SnapshotReq s => w |> Writer_u8 7 |> Snapshot_encode s
  | SnapshotResp s i => w |> Writer_u8 8 |> Writer_bool s |> Writer_u64 i
  | HeartbeatReq c x => w |> Writer_u8 9 |> Writer_u64 c |> Writer_u64 x
  | HeartbeatResp x => w |> Writer_u8 10 |> Writer_u64 x
  | TimeoutNow => w |> Writer_u8 11
  end.

Definition Body_decode : Parser Body :=
  t ← Reader_u8;
  if t =? 1 then i ← Reader_u64; t ← Reader_u64; mret (PreVoteReq i t)
  else if t =? 2 then g ← Reader_bool; mret (PreVoteResp g)
  else if t =? 3 then i ← Reader_u64; t ← Reader_u64; mret (VoteReq i t)
  else if t =? 4 then g ← Reader_bool; mret (VoteResp g)
  else if t =? 5 then
    pi ← Reader_u64; pt ← Reader_u64; c ← Reader_u64; es ← Reader_seq Entry_decode;
    mret (AppendReq pi pt es c)
  else if t =? 6 then
    s ← Reader_bool; m ← Reader_u64; ci ← Reader_u64; ct ← Reader_u64;
    mret (AppendResp s m ci ct)
  else if t =? 7 then s ← Snapshot_decode; mret (SnapshotReq s)
  else if t =? 8 then s ← Reader_bool; i ← Reader_u64; mret (SnapshotResp s i)
  else if t =? 9 then c ← Reader_u64; x ← Reader_u64; mret (HeartbeatReq c x)
  else if t =? 10 then x ← Reader_u64; mret (HeartbeatResp x)
  else if t =? 11 then mret TimeoutNow
  else Parser_fail (BadTag t).

Definition Message_decoder : Parser Message :=
  term ← Reader_u64; body ← Body_decode; mret (mkMessage term body).

Definition Message_decode (buf : Bytes) : result DecodeError Message :=
  (Message_decoder (Reader_new buf)).1.

(** ** Framing *)

Definition frame (payload : Bytes) : Bytes :=
  [PROTOCOL_VERSION] ++ le_bytes 4 (len_u32 payload) ++ le_bytes 4 (crc32c payload) ++ payload.

(** [buf[a..a + n]]. *)
Definition sub (buf : Bytes) (a n : nat) : Bytes := take n (drop a buf).

Definition unframe (buf : Bytes) : result DecodeError Bytes :=
  if bool_decide (length buf < 9)%nat then Err Truncated
  else if negb (buf !!! 0%nat =? PROTOCOL_VERSION) then Err (BadTag (buf !!! 0%nat))
  else
    let len := le_value (sub buf 1 4) in
    let crc := le_value (sub buf 5 4) in
    if MAX_FRAME <? len then Err (BadLength len)
    else if Z.of_nat (length buf) <? 9 + len then Err Truncated
    else
      let payload := sub buf 9 (Z.to_nat len) in
      let actual := crc32c payload in
      if negb (actual =? crc) then Err (BadChecksum crc actual) else Ok payload.

(** ** The envelope *)

Inductive AdminResult : Type :=
| Accepted (index : Index)
| AdminNotLeader (hint : option NodeId)
| Rejected.

Inductive Wire : Type :=
| WRaft (m : Message)
| WClient (q : Request)
| WReply (p : Response)
| WAdmin (c : ConfigChange)
| WAdminReply (a : AdminResult).

#[export] Instance AdminResult_eq_dec : EqDecision AdminResult.
Proof. solve_decision. Defined.
#[export] Instance Wire_eq_dec : EqDecision Wire.
Proof. solve_decision. Defined.

Definition AdminResult_encode (a : AdminResult) : Bytes :=
  match a with
  | Accepted i => Writer_new |> Writer_u8 0 |> Writer_u64 i
  | AdminNotLeader h => Writer_new |> Writer_u8 1 |> Writer_opt Writer_u32 h
  | Rejected => Writer_new |> Writer_u8 2
  end.

Definition AdminResult_decode : Parser AdminResult :=
  t ← Reader_u8;
  if t =? 0 then i ← Reader_u64; mret (Accepted i)
  else if t =? 1 then h ← Reader_opt Reader_u32; mret (AdminNotLeader h)
  else if t =? 2 then mret Rejected
  else Parser_fail (BadTag t).

(** The payload [Wire::encode] builds before framing it. *)
Definition Wire_payload (x : Wire) : Bytes :=
  match x with
  | WRaft m => 0 :: Message_encode m
  | WClient q => 1 :: Request_encode q
  | WReply p => 2 :: Response_encode p
  | WAdmin c => 3 :: ConfigChange_encode c Writer_new
  | WAdminReply a => 4 :: AdminResult_encode a
  end.

Definition Wire_encode (x : Wire) : Bytes := frame (Wire_payload x).

Definition result_map {E A B} (f : A -> B) (r : result E A) : result E B :=
  match r with Ok a => Ok (f a) | Err e => Err e end.

Definition Wire_decode (buf : Bytes) : result DecodeError Wire :=
  match unframe buf with
  | Err e => Err e
  | Ok [] => Err Truncated
  | Ok (tag :: rest) =>
      if tag =? 0 then result_map WRaft (Message_decode rest)
      else if tag =? 1 then result_map WClient (Request_decode rest)
      else if tag =? 2 then result_map WReply (Response_decode rest)
      else if tag =? 3 then result_map WAdmin (ConfigChange_decode (Reader_new rest)).1
      else if tag =? 4 then result_map WAdminReply (AdminResult_decode (Reader_new rest)).1
      else Err (BadTag tag)
  end.

(** * Theorems *)

Definition Body_ok (b : Body) : Prop :=
  match b with
  | PreVoteReq i t | VoteReq i t => is_u64 i /\ is_u64 t
  | PreVoteResp _ | VoteResp _ | TimeoutNow => True
  | AppendReq pi pt es c =>
      is_u64 pi /\ is_u64 pt /\ is_u64 c /\ fits_u32 es /\ Forall Entry_ok es
  | AppendResp _ m ci ct => is_u64 m /\ is_u64 ci /\ is_u64 ct
  | SnapshotReq s => Snapshot_ok s
  | SnapshotResp _ i => is_u64 i
  | HeartbeatReq c x => is_u64 c /\ is_u64 x
  | HeartbeatResp x => is_u64 x
  end.
Definition Message_ok (m : Message) : Prop := is_u64 (m_term m) /\ Body_ok (m_body m).
Definition AdminResult_ok (a : AdminResult) : Prop :=
  match a with Accepted i => is_u64 i | AdminNotLeader h => opt_ok is_u32 h | Rejected => True end.
Definition Wire_ok (x : Wire) : Prop :=
  match x with
  | WRaft m => Message_ok m
  | WClient q => Request_ok q
  | WReply p => Response_ok p
  | WAdmin c => ConfigChange_ok c
  | WAdminReply a => AdminResult_ok a
  end.

#[export] Instance Body_ok_dec b : Decision (Body_ok b).
Proof. destruct b; simpl; apply _. Defined.
#[export] Instance Message_ok_dec m : Decision (Message_ok m).
Proof. unfold Message_ok. apply _. Defined.
#[export] Instance AdminResult_ok_dec a : Decision (AdminResult_ok a).
Proof. destruct a; simpl; apply _. Defined.
#[export] Instance Wire_ok_dec x : Decision (Wire_ok x).
Proof. destruct x; simpl; apply _. Defined.

Lemma Writer_seq_entries es w :
  Writer_seq Entry_encode es w = w ++ Writer_seq Entry_encode es [].
Proof. by rewrite (Writer_seq_bytes es w), (Writer_seq_bytes es []). Qed.

Lemma parses_message m : Message_ok m -> parses Message_decoder (Message_encode m) m.
Proof.
  destruct m as [t b]. intros (Ht & Hb). unfold Message_encode, Message_decoder. simpl in *.
  destruct b; simpl in Hb; destruct_and?;
    rewrite ?(Writer_seq_entries _ (_ ++ _)), ?(Writer_seq_entries _ (Writer_u64 _ _)),
      ?(rt_enc (enc := Snapshot_encode) _ (Writer_u8 _ _)); writer_fields;
    (eapply parses_bind; [by auto with codec|];
     eapply parses_bind_end; [unfold Body_decode; parse_tag; parse_fields|apply parses_ret]).
Qed.

Lemma parses_admin a : AdminResult_ok a -> parses AdminResult_decode (AdminResult_encode a) a.
Proof.
  intros Ha. unfold AdminResult_encode, AdminResult_decode. destruct a; simpl in Ha; writer_fields;
    parse_tag; parse_fields.
Qed.

(** ** Frames *)

(** A buffer with the layout of a frame, the two header words given by their
    bytes. *)
Lemma unframe_layout v lb cb rest :
  length lb = 4%nat -> length cb = 4%nat ->
  unframe (v :: lb ++ cb ++ rest) =
    if negb (v =? PROTOCOL_VERSION) then Err (BadTag v)
    else if MAX_FRAME <? le_value lb then Err (BadLength (le_value lb))
    else if Z.of_nat (length rest) <? le_value lb then Err Truncated
    else
      let payload := take (Z.to_nat (le_value lb)) rest in
      if negb (crc32c payload =? le_value cb)
      then Err (BadChecksum (le_value cb) (crc32c payload)) else Ok payload.
Proof.
  intros Hl Hc.
  assert (E1 : sub (v :: lb ++ cb ++ rest) 1 4 = lb).
  { unfold sub. simpl. rewrite drop_0, <- Hl. apply take_app_length. }
  assert (E5 : forall n, drop (5 + n) (v :: lb ++ cb ++ rest) = drop n (cb ++ rest)).
  { intros n. simpl. rewrite drop_app, (drop_ge lb) by lia. simpl. f_equal. lia. }
  assert (E2 : sub (v :: lb ++ cb ++ rest) 5 4 = cb).
  { unfold sub. change 5%nat with (5 + 0)%nat. rewrite E5, drop_0, <- Hc. apply take_app_length. }
  assert (E3 : forall n, sub (v :: lb ++ cb ++ rest) 9 n = take n rest).
  { intros n. unfold sub. change 9%nat with (5 + 4)%nat. rewrite E5. f_equal.
    rewrite <- Hc. apply drop_app_length. }
  assert (El : length (v :: lb ++ cb ++ rest) = (9 + length rest)%nat).
  { simpl. rewrite !length_app, Hl, Hc. lia. }
  unfold unframe. rewrite El, bool_decide_eq_false_2 by lia. rewrite E1, E2, E3. simpl.
  destruct (negb _); [done|]. destruct (Z.ltb_spec MAX_FRAME (le_value lb)); [done|].
  replace (Z.of_nat _ <? _) with (Z.of_nat (length rest) <? le_value lb); [done|].
  destruct (Z.ltb_spec (Z.of_nat (length rest)) (le_value lb)); symmetry;
    [apply Z.ltb_lt|apply Z.ltb_ge]; lia.
Qed.

Definition payload_ok (p : Bytes) : Prop :=
  Forall is_u8 p /\ Z.of_nat (length p) <= MAX_FRAME.

#[export] Instance payload_ok_dec p : Decision (payload_ok p).
Proof. unfold payload_ok. apply _. Defined.

Lemma payload_len (p : Bytes) : Z.of_nat (length p) <= MAX_FRAME ->
  le_value (le_bytes 4 (len_u32 p)) = Z.of_nat (length p).
Proof.
  intros Hp. rewrite le_value_le_bytes. change (U8 ^ Z.of_nat 4) with U32.
  assert (Hf : fits_u32 p) by (unfold fits_u32, MAX_FRAME in *; lia).
  rewrite (fits_len p Hf), Z.mod_small; [done|]. unfold fits_u32 in Hf. lia.
Qed.

Lemma payload_crc (p : Bytes) : Forall is_u8 p -> le_value (le_bytes 4 (crc32c p)) = crc32c p.
Proof.
  intros Hp. rewrite le_value_le_bytes. change (U8 ^ Z.of_nat 4) with U32.
  apply Z.mod_small, crc32c_u32, Hp.
Qed.

Lemma MAX_FRAME_ltb n : n <= MAX_FRAME -> (MAX_FRAME <? n) = false.
Proof. intros. by apply Z.ltb_ge. Qed.

Lemma unframe_frame p tail : payload_ok p -> unframe (frame p ++ tail) = Ok p.
Proof.
  intros [Hb Hlen]. unfold frame. rewrite <- !app_assoc.
  change ([?v] ++ ?x) with (v :: x). rewrite unframe_layout by apply le_bytes_length.
  rewrite payload_len, payload_crc by done. simpl negb. rewrite MAX_FRAME_ltb by done.
  rewrite (proj2 (Z.ltb_ge _ _)) by (rewrite length_app; lia).
  rewrite Nat2Z.id, take_app_length. cbv zeta. by rewrite Z.eqb_refl.
Qed.

Lemma list_split_at {A} (n : nat) (l : list A) : (n <= length l)%nat ->
  exists a b, l = a ++ b /\ length a = n.
Proof. intros H. exists (take n l), (drop n l). rewrite take_drop, length_take. split; [done|lia]. Qed.

(** Every buffer of at least nine bytes has the layout of a frame. *)
Lemma frame_layout_of (buf : Bytes) : (9 <= length buf)%nat ->
  exists v (lb cb rest : Bytes), buf = v :: lb ++ cb ++ rest /\ length lb = 4%nat /\ length cb = 4%nat.
Proof.
  intros H. destruct buf as [|v buf]; [simpl in H; lia|]. simpl in H.
  destruct (list_split_at 4 buf) as (lb & b2 & -> & Hl); [lia|].
  rewrite length_app in H. destruct (list_split_at 4 b2) as (cb & rest & -> & Hc); [lia|].
  exists v, lb, cb, rest. auto.
Qed.

(** [unframe] accepts exactly the frames: it returns a payload [p] of bytes
    if and only if the buffer starts with [frame p] and [p] is within the size
    limit. In particular [unframe (frame p) = Ok p]. *)
Theorem unframe_accepts_exactly_frames (buf p : Bytes) :
  Forall is_u8 buf ->
  unframe buf = Ok p <-> payload_ok p /\ exists tail, buf = frame p ++ tail.
Proof.
  intros Hbuf. split; [|by intros [Hp [tail ->]]; apply unframe_frame].
  intros H. destruct (decide (9 <= length buf)%nat) as [Hlen|Hlen].
  2: { unfold unframe in H. by rewrite bool_decide_eq_true_2 in H by lia. }
  destruct (frame_layout_of buf Hlen) as (v & lb & cb & rest & -> & Hl & Hc).
  rewrite unframe_layout in H by done.
  apply Forall_cons in Hbuf as [_ [Hlb [Hcb Hrest]%Forall_app]%Forall_app].
  destruct (Z.eqb_spec v PROTOCOL_VERSION) as [->|]; [simpl negb in H|done].
  destruct (Z.ltb_spec MAX_FRAME (le_value lb)) as [|Hmax]; [done|].
  destruct (Z.ltb_spec (Z.of_nat (length rest)) (le_value lb)) as [|Hr]; [done|]. cbv zeta in H.
  destruct (Z.eqb_spec (crc32c (take (Z.to_nat (le_value lb)) rest)) (le_value cb)) as [Ec|];
    [|done]. injection H as <-. pose proof (le_value_range lb Hlb) as Hpos.
  set (p := take _ rest) in *. assert (Hp : length p = Z.to_nat (le_value lb))
    by (unfold p; rewrite length_take; lia).
  assert (Hok : payload_ok p) by (split; [by apply Forall_take|lia]).
  split; [done|]. exists (drop (Z.to_nat (le_value lb)) rest).
  unfold frame. rewrite (fits_len p) by (unfold fits_u32, MAX_FRAME in *; lia).
  rewrite Hp, Z2Nat.id, Ec, <- Hl, le_bytes_le_value by (done || lia).
  rewrite Hl, <- Hc, le_bytes_le_value by done. rewrite <- !app_assoc. simpl.
  unfold p. by rewrite take_drop.
Qed.

Lemma unframe_accepts_exactly_frames_witness :
  unframe (frame [1; 2; 3] ++ [77]) = Ok [1; 2; 3] <->
  payload_ok [1; 2; 3] /\ exists tail, frame [1; 2; 3] ++ [77] = frame [1; 2; 3] ++ tail.
Proof. apply unframe_accepts_exactly_frames. by_decide. Defined.

(** A frame cut short anywhere is reported as [Truncated], never accepted
    and never mistaken for another error. *)
Theorem unframe_truncated (p : Bytes) (n : nat) :
  payload_ok p -> (n < length (frame p))%nat -> unframe (take n (frame p)) = Err Truncated.
Proof.
  intros [Hb Hlen] Hn. destruct (decide (n < 9)%nat) as [H9|H9].
  { unfold unframe. rewrite bool_decide_eq_true_2; [done|]. rewrite length_take. lia. }
  assert (E : take n (frame p) = PROTOCOL_VERSION :: le_bytes 4 (len_u32 p)
    ++ le_bytes 4 (crc32c p) ++ take (n - 9) p).
  { unfold frame. rewrite (app_assoc (le_bytes 4 _)), app_assoc, take_app_ge.
    - by rewrite <- !app_assoc.
    - rewrite !length_app, !le_bytes_length. simpl. lia. }
  unfold frame in Hn. rewrite !length_app, !le_bytes_length in Hn. simpl in Hn.
  rewrite E, unframe_layout by apply le_bytes_length. rewrite payload_len by done.
  simpl negb. rewrite MAX_FRAME_ltb by done.
  by rewrite (proj2 (Z.ltb_lt _ _)) by (rewrite length_take; lia).
Qed.

Lemma unframe_truncated_witness : unframe (take 11 (frame [1; 2; 3])) = Err Truncated.
Proof. apply unframe_truncated; by_decide. Defined.

(** The checksum of a payload changes with any one of its bytes. *)
Lemma crc32c_insert p j b : Forall is_u8 p -> is_u8 b -> (j < length p)%nat -> p !! j <> Some b ->
  crc32c (<[j := b]> p) <> crc32c p.
Proof.
  intros Hp Hb Hj Hne. destruct (lookup_lt_is_Some_2 p j Hj) as [b' Hb'].
  rewrite insert_take_drop by done. rewrite <- (take_drop_middle p j b' Hb') at 3.
  apply crc32c_byte_error; [by apply Forall_take|by apply Forall_drop|done| |congruence].
  by eapply Forall_lookup_1.
Qed.

Lemma le_value_inj xs ys : Forall is_u8 xs -> Forall is_u8 ys -> length xs = length ys ->
  le_value xs = le_value ys -> xs = ys.
Proof.
  intros Hx Hy Hl E. rewrite <- (le_bytes_le_value xs Hx), <- (le_bytes_le_value ys Hy).
  by rewrite E, Hl.
Qed.

(** [frame] puts bytes out. *)
Lemma frame_u8 p : Forall is_u8 p -> Forall is_u8 (frame p).
Proof.
  intros Hp. unfold frame. rewrite !Forall_app. split_and!; [|apply le_bytes_u8..|done].
  by repeat constructor.
Qed.

Lemma unframe_corrupted (p : Bytes) (i : nat) (b : Z) :
  payload_ok p -> is_u8 b -> (i < length (frame p))%nat -> ~ (1 <= i < 5)%nat ->
  frame p !! i <> Some b ->
  exists e, unframe (<[i := b]> (frame p)) = Err e /\
    (i = 0%nat -> e = BadTag b) /\
    (i <> 0%nat -> exists expected actual, e = BadChecksum expected actual).
Proof.
  intros [Hp Hlen] Hb Hi Hout Hne. unfold frame in *.
  set (lb := le_bytes 4 (len_u32 p)) in *. set (cb := le_bytes 4 (crc32c p)) in *.
  assert (Hl : length lb = 4%nat) by apply le_bytes_length.
  assert (Hc : length cb = 4%nat) by apply le_bytes_length.
  assert (Elen : le_value lb = Z.of_nat (length p)) by by apply payload_len.
  assert (Ecrc : le_value cb = crc32c p) by by apply payload_crc.
  rewrite !length_app, Hl, Hc in Hi. simpl in Hi.
  destruct (decide (i = 0%nat)) as [->|Hi0].
  { change (<[0%nat := b]> (?v ++ ?x)) with (b :: x). rewrite unframe_layout by done.
    rewrite (proj2 (Z.eqb_neq _ _)) by (simpl in Hne; congruence). eexists. naive_solver. }
  rewrite insert_app_r_alt by (simpl; lia). rewrite lookup_app_r in Hne by (simpl; lia).
  change (length [_]) with 1%nat in *. rewrite insert_app_r_alt by lia. rewrite lookup_app_r in Hne by lia.
  rewrite Hl in *.
  assert (Hbody : forall cb' p', length cb' = 4%nat -> length p' = length p ->
    crc32c p' <> le_value cb' ->
    exists e, unframe ([PROTOCOL_VERSION] ++ lb ++ cb' ++ p') = Err e /\
      (i = 0%nat -> e = BadTag b) /\
      (i <> 0%nat -> exists expected actual, e = BadChecksum expected actual)).
  { intros cb' p' Hc' Hp' Hx. change ([?v] ++ ?x) with (v :: x).
    rewrite unframe_layout, Elen by done. simpl negb. rewrite MAX_FRAME_ltb by done.
    rewrite (proj2 (Z.ltb_ge _ _)) by lia. cbv zeta. rewrite Nat2Z.id, take_ge by lia.
    rewrite (proj2 (Z.eqb_neq _ _)) by done. simpl. eexists. naive_solver. }
  destruct (decide (i < 9)%nat) as [Hi9|Hi9].
  - rewrite insert_app_l by lia. rewrite lookup_app_l in Hne by lia.
    apply Hbody; [by rewrite length_insert|done|]. rewrite <- Ecrc. intros E.
    apply le_value_inj in E; [|apply le_bytes_u8|apply Forall_insert; [apply le_bytes_u8|done]|by rewrite length_insert].
    apply Hne. rewrite E. apply list_lookup_insert_eq. lia.
  - rewrite insert_app_r_alt by lia. rewrite lookup_app_r in Hne by lia.
    apply Hbody; [done|by rewrite length_insert|]. rewrite Ecrc. apply crc32c_insert; [done|done|lia|done].
Qed.

(** Corrupting one byte of a frame, outside its length field, always makes
    [unframe] fail: a wrong version byte is a bad tag, and a wrong byte in the
    stored checksum or in the payload is a checksum mismatch. *)
Theorem unframe_detects_corruption (p : Bytes) (i : nat) (b : Z) :
  payload_ok p -> is_u8 b -> (i < length (frame p))%nat -> ~ (1 <= i < 5)%nat ->
  frame p !! i <> Some b ->
  exists e, unframe (<[i := b]> (frame p)) = Err e /\
    (i = 0%nat -> e = BadTag b) /\
    (i <> 0%nat -> exists expected actual, e = BadChecksum expected actual).
Proof. apply unframe_corrupted. Qed.

Lemma unframe_detects_corruption_witness :
  exists e, unframe (<[10%nat := 9]> (frame [1; 2; 3])) = Err e /\
    (10%nat = 0%nat -> e = BadTag 9) /\
    (10%nat <> 0%nat -> exists expected actual, e = BadChecksum expected actual).
Proof. apply unframe_detects_corruption; by_decide. Defined.

(** ** The envelope *)

Lemma wire_decodes (x : Wire) :
  Wire_ok x -> payload_ok (Wire_payload x) -> Wire_decode (Wire_encode x) = Ok x.
Proof.
  intros Hx Hp. unfold Wire_decode, Wire_encode.
  rewrite <- (app_nil_r (frame _)), unframe_frame by done.
  destruct x as [m|q|p|c|a]; simpl in *.
  - unfold Message_decode. by rewrite (parses_whole _ _ _ (parses_message m Hx)).
  - unfold Request_decode. by rewrite (parses_whole _ _ _ (parses_request q Hx)).
  - unfold Response_decode. by rewrite (parses_whole _ _ _ (parses_response p Hx)).
  - unfold Writer_new. by rewrite (RoundTrip_decode c Hx).
  - by rewrite (parses_whole _ _ _ (parses_admin a Hx)).
Qed.

(** C37: every message of the protocol, Raft, client, reply or membership,
    survives the wire: decoding its encoded frame yields the message itself,
    whenever its fields fit their widths and its payload fits in a frame. *)
Theorem wire_round_trip (x : Wire) :
  Wire_ok x -> payload_ok (Wire_payload x) -> Wire_decode (Wire_encode x) = Ok x.
Proof. apply wire_decodes. Qed.

Lemma wire_round_trip_witness :
  Wire_decode (Wire_encode (WRaft (mkMessage 7 (AppendReq 3 2 [mkEntry 7 4 (Normal [1; 2; 3])] 2))))
    = Ok (WRaft (mkMessage 7 (AppendReq 3 2 [mkEntry 7 4 (Normal [1; 2; 3])] 2))).
Proof. apply wire_round_trip; by_decide. Defined.

#[export] Instance Bounded_Message_decoder : Bounded Message_decoder.
Proof. unfold Message_decoder, Body_decode. apply _. Qed.
#[export] Instance Bounded_AdminResult_decode : Bounded AdminResult_decode.
Proof. unfold AdminResult_decode. apply _. Qed.

(** No input makes a decoder read past its buffer: on any byte string the
    five decoders of the protocol stop with the cursor inside it, whether they
    succeed or fail. *)
Theorem decoders_stay_in_bounds (buf : Bytes) :
  (rd_pos (Message_decoder (Reader_new buf)).2 <= length buf)%nat /\
  (rd_pos (Request_decoder (Reader_new buf)).2 <= length buf)%nat /\
  (rd_pos (Response_decoder (Reader_new buf)).2 <= length buf)%nat /\
  (rd_pos (ConfigChange_decode (Reader_new buf)).2 <= length buf)%nat /\
  (rd_pos (AdminResult_decode (Reader_new buf)).2 <= length buf)%nat.
Proof.
  assert (H : forall A (p : Parser A), Bounded p -> (rd_pos (p (Reader_new buf)).2 <= length buf)%nat).
  { intros A p Hp. destruct (Hp (Reader_new buf)) as [_ Hr]; [unfold reader_ok; simpl; lia|]. apply Hr. }
  split_and!; apply H; apply _.
Qed.
