(* ===== verification/Kv.v ===== *)
(** * The replicated state machine: [crates/chronolog/src/kv.rs]

    A key-value store with bounded per-key version histories and the session
    table that makes retries idempotent. [BTreeMap]s are [gmap]s; where the
    source iterates over one, the model iterates over its entries in key order.
    [apply] is the whole method: the [applied] watermark, deduplication, the
    operation, and the update of the session table. *)

From Stdlib Require Import ZArith Lia.
From stdpp Require Import base tactics list list_numbers gmap sets sorting.
From S2P Require Import Prelude Codec Types Client.

Open Scope Z_scope.

Record Version : Type := mkVersion { v_version : Index; v_value : option Bytes }.

Record Session : Type := mkSession { last_seq : Z; last_outcome : Outcome }.

Record KvStore : Type := mkKvStore {
  data : gmap Bytes (list Version);
  sessions : gmap Z Session;
  applied : Index;
  keep_versions : nat
}.

#[export] Instance Version_eq_dec : EqDecision Version.
Proof. solve_decision. Defined.
#[export] Instance Session_eq_dec : EqDecision Session.
Proof. solve_decision. Defined.
#[export] Instance KvStore_eq_dec : EqDecision KvStore.
Proof. solve_decision. Defined.

Definition KvStore_new : KvStore := mkKvStore ∅ ∅ 0 16.

(** ** Reads *)

Definition applied_index (kv : KvStore) : Index := applied kv.

(** [vs.last().map(|v| v.value.is_some()).unwrap_or(false)]. *)
Definition is_live (vs : list Version) : bool :=
  match last vs with Some v => bool_decide (is_Some (v_value v)) | None => false end.

(** A [BTreeMap<Vec<u8>, _>] iterates in the lexicographic order of its keys. *)
Fixpoint bytes_leb (a b : Bytes) : bool :=
  match a, b with
  | [], _ => true
  | _ :: _, [] => false
  | x :: a', y :: b' => (x <? y) || ((x =? y) && bytes_leb a' b')
  end.

Definition by_key {V} (p q : Bytes * V) : Prop := bytes_leb p.1 q.1 = true.
#[export] Instance by_key_dec {V} : RelDecision (@by_key V).
Proof. intros p q. unfold by_key. apply _. Defined.

Definition by_id {V} (p q : Z * V) : Prop := p.1 <= q.1.
#[export] Instance by_id_dec {V} : RelDecision (@by_id V).
Proof. intros p q. unfold by_id. apply _. Defined.

Definition data_in_order (kv : KvStore) : list (Bytes * list Version) :=
  merge_sort by_key (map_to_list (data kv)).
Definition sessions_in_order (kv : KvStore) : list (Z * Session) :=
  merge_sort by_id (map_to_list (sessions kv)).

Definition KvStore_len (kv : KvStore) : nat :=
  length (filter (fun p => is_live p.2 = true) (data_in_order kv)).

Definition KvStore_is_empty (kv : KvStore) : bool := (KvStore_len kv =? 0)%nat.

Definition KvStore_get (kv : KvStore) (key : Bytes) : option Bytes :=
  match data kv !! key with
  | None => None
  | Some vs => match last vs with Some v => v_value v | None => None end
  end.

(** [iter().rev().find(|v| v.version <= version)]. *)
Definition find_version (vs : list Version) (version : Index) : option Version :=
  match list_find (fun v => v_version v <= version) (reverse vs) with
  | Some (_, v) => Some v
  | None => None
  end.

Definition KvStore_get_at (kv : KvStore) (key : Bytes) (version : Index) : option Bytes :=
  match data kv !! key with
  | None => None
  | Some vs => match find_version vs version with Some v => v_value v | None => None end
  end.

Definition KvStore_keys (kv : KvStore) : list Bytes :=
  map fst (filter (fun p => is_live p.2 = true) (data_in_order kv)).

(** ** Writes *)

(** [push] the version, then [drain(..excess)]. *)
Definition push_version (keep : nat) (vs : list Version) (v : Version) : list Version :=
  let vs' := vs ++ [v] in
  if (keep <? length vs')%nat then drop (length vs' - keep) vs' else vs'.

Definition KvStore_write (kv : KvStore) (key : Bytes) (value : option Bytes) (version : Index) :
    KvStore :=
  let versions := default [] (data kv !! key) in
  mkKvStore (<[key := push_version (keep_versions kv) versions (mkVersion version value)]> (data kv))
    (sessions kv) (applied kv) (keep_versions kv).

(** The [match &req.op] of [apply]. *)
Definition apply_op (kv : KvStore) (index : Index) (op : Op) : KvStore * Outcome :=
  match op with
  | Get key _ => (kv, Value (KvStore_get kv key))
  | GetAt key version => (kv, Value (KvStore_get_at kv key version))
  | Put key value => (KvStore_write kv key (Some value) index, Applied index)
  | Delete key => (KvStore_write kv key None index, Applied index)
  | Cas key expect value =>
      let actual := KvStore_get kv key in
      if bool_decide (actual = expect) then (KvStore_write kv key value index, Applied index)
      else (kv, CasFailed actual)
  end.

Definition set_applied (kv : KvStore) (i : Index) : KvStore :=
  mkKvStore (data kv) (sessions kv) i (keep_versions kv).
Definition set_session (kv : KvStore) (id : Z) (s : Session) : KvStore :=
  mkKvStore (data kv) (<[id := s]> (sessions kv)) (applied kv) (keep_versions kv).

Definition KvStore_apply (kv0 : KvStore) (index : Index) (req : Request) : KvStore * Outcome :=
  let kv := set_applied kv0 (Z.max (applied kv0) index) in
  let serve :=
    let '(kv', outcome) := apply_op kv index (rq_op req) in
    (set_session kv' (rq_client_id req) (mkSession (rq_seq req) outcome), outcome) in
  match sessions kv !! rq_client_id req with
  | Some session =>
      if rq_seq req =? last_seq session then (kv, last_outcome session)
      else if rq_seq req <? last_seq session then (kv, Unavailable)
      else serve
  | None => serve
  end.

(** ** Snapshots *)

Definition Version_encode (v : Version) (w : Writer) : Writer :=
  w |> Writer_u64 (v_version v) |> Writer_opt Writer_bytes (v_value v).

Definition Version_decode : Parser Version :=
  version ← Reader_u64; value ← Reader_opt Reader_bytes; mret (mkVersion version value).

(** One round of the loop over the keys, and over the session ids; both loops
    write their count first, as [Writer::seq] does. *)
Definition key_encode (p : Bytes * list Version) (w : Writer) : Writer :=
  w |> Writer_bytes p.1 |> Writer_seq Version_encode p.2.

Definition session_encode (p : Z * Session) (w : Writer) : Writer :=
  w |> Writer_u64 p.1 |> Writer_u64 (last_seq p.2)
    |> Writer_bytes (Response_encode (mkResponse p.1 (last_seq p.2) (last_outcome p.2))).

Definition KvStore_snapshot (kv : KvStore) : Bytes :=
  Writer_new |> Writer_u64 (applied kv)
    |> Writer_seq key_encode (data_in_order kv)
    |> Writer_seq session_encode (sessions_in_order kv).

Definition key_decode : Parser (Bytes * list Version) :=
  key ← Reader_bytes; versions ← Reader_seq Version_decode; mret (key, versions).

(** [Response::decode(&bytes)?] on bytes already taken from the reader. *)
Definition nested_response (bytes : Bytes) : Parser Response := fun r => (Response_decode bytes, r).

Definition session_decode : Parser (Z * Session) :=
  id ← Reader_u64; seq ← Reader_u64; bytes ← Reader_bytes;
  resp ← nested_response bytes; mret (id, mkSession seq (rp_outcome resp)).

(** Inserting the pairs one after the other: a later one replaces an earlier. *)
Definition insert_all {K V M} `{Insert K V M} (m : M) (l : list (K * V)) : M :=
  fold_left (fun m p => <[p.1 := p.2]> m) l m.

Definition KvStore_restore_parser : Parser KvStore :=
  i ← Reader_u64;
  items ← Reader_seq key_decode;
  table ← Reader_seq session_decode;
  mret (mkKvStore (insert_all ∅ items) (insert_all ∅ table) i 16).

Definition KvStore_restore (buf : Bytes) : result DecodeError KvStore :=
  (KvStore_restore_parser (Reader_new buf)).1.

Definition decode_command (buf : Bytes) : result DecodeError Request := Request_decode buf.

(** * Theorems *)

(** ** Sessions: every request takes effect at most once *)

(** Applying a sequence of committed commands. *)
Definition run (kv : KvStore) (cmds : list (Index * Request)) : KvStore :=
  fold_left (fun kv c => (KvStore_apply kv c.1 c.2).1) cmds kv.

(** The sequence number the table holds for a client, if any. *)
Definition served (kv : KvStore) (id : Z) : option Z := last_seq <$> sessions kv !! id.

Lemma apply_op_sessions kv i op : sessions (apply_op kv i op).1 = sessions kv.
Proof. destruct op; simpl; try done. by case_bool_decide. Qed.

(** The three branches of [apply]. *)
Lemma apply_cases kv i req :
  let kv1 := set_applied kv (Z.max (applied kv) i) in
  (exists s, sessions kv !! rq_client_id req = Some s /\ last_seq s = rq_seq req /\
     KvStore_apply kv i req = (kv1, last_outcome s)) \/
  (exists s, sessions kv !! rq_client_id req = Some s /\ rq_seq req < last_seq s /\
     KvStore_apply kv i req = (kv1, Unavailable)) \/
  ((forall s, sessions kv !! rq_client_id req = Some s -> last_seq s < rq_seq req) /\
     KvStore_apply kv i req =
       (set_session (apply_op kv1 i (rq_op req)).1 (rq_client_id req)
          (mkSession (rq_seq req) (apply_op kv1 i (rq_op req)).2),
        (apply_op kv1 i (rq_op req)).2)).
Proof.
  cbv zeta. unfold KvStore_apply.
  change (sessions (set_applied kv (Z.max (applied kv) i))) with (sessions kv).
  set (kv1 := set_applied _ _).
  destruct (apply_op kv1 i (rq_op req)) as [kv2 out]. cbn [fst snd].
  destruct (sessions kv !! rq_client_id req) as [s|] eqn:E; [|right; right; by split].
  destruct (Z.eqb_spec (rq_seq req) (last_seq s)); [left; eauto|].
  destruct (Z.ltb_spec (rq_seq req) (last_seq s)); [right; left; eauto|].
  right; right. split; [|done]. intros s' [= <-]. lia.
Qed.

(** The table entry of a client after serving some request with number [n] and
    answer [out], and anything after that: either still that entry, or a newer
    number. *)
Definition remembers (kv : KvStore) (id n : Z) (out : Outcome) : Prop :=
  exists s, sessions kv !! id = Some s /\
    (n < last_seq s \/ (n = last_seq s /\ last_outcome s = out)).

Lemma apply_remembers_own kv i req :
  remembers (KvStore_apply kv i req).1 (rq_client_id req) (rq_seq req) (KvStore_apply kv i req).2.
Proof.
  destruct (apply_cases kv i req) as [(s & Hs & Hn & ->)|[(s & Hs & Hn & ->)|[Hn ->]]]; simpl.
  - exists s. simpl. auto.
  - exists s. simpl. auto.
  - eexists. simpl. rewrite lookup_insert_eq. simpl. auto.
Qed.

Lemma apply_remembers kv i req id n out : remembers kv id n out ->
  remembers (KvStore_apply kv i req).1 id n out.
Proof.
  intros (s & Hs & Hn).
  destruct (apply_cases kv i req) as [(s' & _ & _ & ->)|[(s' & _ & _ & ->)|[Hlt ->]]]; simpl;
    [by exists s; auto..|].
  destruct (decide (rq_client_id req = id)) as [<-|Hid].
  - apply Hlt in Hs. eexists. simpl. rewrite lookup_insert_eq. simpl. split; [done|]. left.
    simpl. lia.
  - exists s. simpl. rewrite lookup_insert_ne by done. by rewrite apply_op_sessions.
Qed.

Lemma run_remembers cmds kv id n out : remembers kv id n out -> remembers (run kv cmds) id n out.
Proof.
  revert kv. induction cmds as [|c cmds IH]; intros kv H; simpl; [done|].
  apply IH. by apply apply_remembers.
Qed.

Lemma retry_spec kv i req cmds j :
  let out := (KvStore_apply kv i req).2 in
  let later := run (KvStore_apply kv i req).1 cmds in
  (KvStore_apply later j req).1 = set_applied later (Z.max (applied later) j) /\
  ((KvStore_apply later j req).2 = out \/ (KvStore_apply later j req).2 = Unavailable).
Proof.
  cbv zeta. pose proof (run_remembers cmds _ _ _ _ (apply_remembers_own kv i req)) as (s & Hs & Hn).
  set (later := run _ cmds) in *. set (out := (KvStore_apply kv i req).2) in *.
  destruct (apply_cases later j req) as [(s' & Hs' & Hn' & ->)|[(s' & Hs' & Hn' & ->)|[Hlt _]]];
    simpl; [|by auto|].
  - assert (s' = s) as -> by congruence. split; [done|]. left.
    destruct Hn as [?|[_ ?]]; [lia|done].
  - apply Hlt in Hs. lia.
Qed.

(** Exactly once. Whatever is committed after a request (by the same client
    or others, at any indices), committing the same request again changes
    neither the data nor the session table, and answers either what it answered
    the first time or, when the client has moved on, [Unavailable]. *)
Theorem retry_never_reapplies kv i req cmds j :
  let out := (KvStore_apply kv i req).2 in
  let later := run (KvStore_apply kv i req).1 cmds in
  (KvStore_apply later j req).1 = set_applied later (Z.max (applied later) j) /\
  ((KvStore_apply later j req).2 = out \/ (KvStore_apply later j req).2 = Unavailable).
Proof. apply retry_spec. Qed.

(** The table entry of a client only other clients' commands can leave alone. *)
Lemma run_other_sessions cmds kv id : Forall (fun c => rq_client_id c.2 <> id) cmds ->
  sessions (run kv cmds) !! id = sessions kv !! id.
Proof.
  intros H. revert kv. induction H as [|c cmds Hc _ IH]; intros kv; simpl; [done|]. rewrite IH.
  destruct (apply_cases kv c.1 c.2) as [(s & _ & _ & ->)|[(s & _ & _ & ->)|[_ ->]]]; simpl; try done.
  rewrite lookup_insert_ne by done. by rewrite apply_op_sessions.
Qed.

(** While only other clients make progress, a retry of a client's latest
    request is answered with the remembered outcome, not re-evaluated: a CAS
    that succeeded keeps reporting success. *)
Theorem retry_returns_same_answer kv i req cmds j :
  Forall (fun c => rq_client_id c.2 <> rq_client_id req) cmds ->
  (KvStore_apply (run (KvStore_apply kv i req).1 cmds) j req).2 = (KvStore_apply kv i req).2.
Proof.
  intros Hc. pose proof (run_other_sessions cmds (KvStore_apply kv i req).1 _ Hc) as E.
  pose proof (apply_cases (run (KvStore_apply kv i req).1 cmds) j req) as Hj. rewrite E in Hj.
  destruct (apply_cases kv i req) as [(s & Hs & Hn & Ea)|[(s & Hs & Hn & Ea)|[Hlt Ea]]];
    rewrite Ea in Hj |- *; simpl in Hj |- *; rewrite ?Hs, ?lookup_insert_eq in Hj.
  - destruct Hj as [(? & [= <-] & _ & ->)|[(? & [= <-] & ? & _)|[H _]]];
      [done|lia|specialize (H s eq_refl); lia].
  - destruct Hj as [(? & [= <-] & ? & _)|[(? & _ & _ & ->)|[H _]]];
      [lia|done|specialize (H s eq_refl); lia].
  - destruct Hj as [(? & [= <-] & _ & ->)|[(? & [= <-] & H & _)|[H _]]]; simpl in *;
      [done|lia|specialize (H _ eq_refl); simpl in H; lia].
Qed.

Lemma retry_returns_same_answer_witness :
  (KvStore_apply (run (KvStore_apply KvStore_new 1 (mkRequest 7 1 (Cas [1] None (Some [2])))).1
     [(2, mkRequest 8 1 (Put [1] [9]))]) 3 (mkRequest 7 1 (Cas [1] None (Some [2])))).2 = Applied 1.
Proof.
  rewrite (retry_returns_same_answer KvStore_new 1 (mkRequest 7 1 (Cas [1] None (Some [2])))
    [(2, mkRequest 8 1 (Put [1] [9]))] 3); [reflexivity|by_decide].
Defined.

(** ** The abstract store *)

(** What the store promises: a map from keys to values, and per client the last
    request number with its answer. *)
Record AbstractKv : Type := mkAbstractKv {
  ab_map : gmap Bytes Bytes;
  ab_sessions : gmap Z (Z * Outcome)
}.

Definition ab_set (m : gmap Bytes Bytes) (k : Bytes) (v : option Bytes) : gmap Bytes Bytes :=
  match v with Some x => <[k := x]> m | None => delete k m end.

(** The specification of the operations a map supports; [GetAt], a read of the
    past, is not one of them. *)
Definition ab_op (m : gmap Bytes Bytes) (i : Index) (op : Op) : option (gmap Bytes Bytes * Outcome) :=
  match op with
  | Get k _ => Some (m, Value (m !! k))
  | Put k v => Some (<[k := v]> m, Applied i)
  | Delete k => Some (delete k m, Applied i)
  | Cas k e v => Some (if decide (m !! k = e) then (ab_set m k v, Applied i) else (m, CasFailed (m !! k)))
  | GetAt _ _ => None
  end.

Definition ab_serve (a : AbstractKv) (i : Index) (req : Request) : option (AbstractKv * Outcome) :=
  match ab_op (ab_map a) i (rq_op req) with
  | Some (m, o) => Some (mkAbstractKv m (<[rq_client_id req := (rq_seq req, o)]> (ab_sessions a)), o)
  | None => None
  end.

Definition ab_apply (a : AbstractKv) (i : Index) (req : Request) : option (AbstractKv * Outcome) :=
  match ab_sessions a !! rq_client_id req with
  | Some (n, out) =>
      if decide (rq_seq req = n) then Some (a, out)
      else if decide (rq_seq req < n) then Some (a, Unavailable)
      else ab_serve a i req
  | None => ab_serve a i req
  end.

(** The abstraction function: the newest version of each key, tombstones and
    histories forgotten. *)
Definition current (vs : list Version) : option Bytes := last vs ≫= v_value.
Definition abstract (kv : KvStore) : AbstractKv :=
  mkAbstractKv (omap current (data kv)) ((fun s => (last_seq s, last_outcome s)) <$> sessions kv).

Lemma get_abstract kv k : KvStore_get kv k = ab_map (abstract kv) !! k.
Proof.
  unfold KvStore_get. simpl. rewrite lookup_omap. destruct (data kv !! k) as [vs|]; simpl; [|done].
  unfold current. by destruct (last vs).
Qed.

Lemma push_version_last keep vs v : (0 < keep)%nat -> last (push_version keep vs v) = Some v.
Proof.
  intros Hk. unfold push_version. destruct (Nat.ltb_spec keep (length (vs ++ [v]))) as [H|H].
  - rewrite length_app in *. simpl in *. rewrite drop_app_le by lia. apply last_snoc.
  - apply last_snoc.
Qed.

Lemma write_abstract kv k v i : (0 < keep_versions kv)%nat ->
  abstract (KvStore_write kv k v i) = mkAbstractKv (ab_set (ab_map (abstract kv)) k v) (ab_sessions (abstract kv)).
Proof.
  intros Hk. unfold abstract. simpl. f_equal. apply map_eq. intros k'.
  rewrite lookup_omap. destruct (decide (k = k')) as [<-|Hne].
  - rewrite lookup_insert_eq. simpl. unfold current at 1. rewrite push_version_last by done. simpl.
    destruct v; simpl; [by rewrite lookup_insert_eq|by rewrite lookup_delete_eq].
  - rewrite lookup_insert_ne by done.
    destruct v; simpl; [rewrite lookup_insert_ne by done|rewrite lookup_delete_ne by done];
      by rewrite lookup_omap.
Qed.

Lemma apply_op_refines kv i op m o : (0 < keep_versions kv)%nat ->
  ab_op (ab_map (abstract kv)) i op = Some (m, o) ->
  (apply_op kv i op).2 = o /\
  abstract (apply_op kv i op).1 = mkAbstractKv m (ab_sessions (abstract kv)).
Proof.
  intros Hk H. destruct op as [k md|k v|k|k e v|k n]; simpl in H.
  - injection H as <- <-. simpl apply_op. by rewrite get_abstract.
  - injection H as <- <-. split; [done|]. apply write_abstract, Hk.
  - injection H as <- <-. split; [done|]. apply write_abstract, Hk.
  - simpl apply_op. rewrite get_abstract. simpl ab_map in *.
    destruct (decide (omap current (data kv) !! k = e)) as [E|E]; injection H as <- <-.
    + rewrite bool_decide_eq_true_2 by done. split; [done|]. apply write_abstract, Hk.
    + rewrite bool_decide_eq_false_2 by done. done.
  - done.
Qed.

Lemma abstract_set_session kv id s : abstract (set_session kv id s) =
  mkAbstractKv (ab_map (abstract kv)) (<[id := (last_seq s, last_outcome s)]> (ab_sessions (abstract kv))).
Proof. unfold abstract. simpl. by rewrite fmap_insert. Qed.

Lemma serve_refines kv i req a o : (0 < keep_versions kv)%nat ->
  ab_serve (abstract kv) i req = Some (a, o) ->
  (apply_op kv i (rq_op req)).2 = o /\
  abstract (set_session (apply_op kv i (rq_op req)).1 (rq_client_id req)
    (mkSession (rq_seq req) (apply_op kv i (rq_op req)).2)) = a.
Proof.
  unfold ab_serve. intros Hk H. destruct (ab_op _ _ _) as [[m o']|] eqn:Eop; [|done].
  injection H as <- <-. destruct (apply_op_refines kv i (rq_op req) m o' Hk Eop) as [Eo Ea].
  split; [done|]. by rewrite abstract_set_session, Ea, Eo.
Qed.

(** C34: [apply] refines the abstract store. Whenever the specification defines
    the command, the store answers what the specification answers and its
    abstraction moves as the specification does, whatever histories, tombstones
    and garbage collection it carries. *)
Theorem apply_refines_map kv i req a o :
  (0 < keep_versions kv)%nat -> ab_apply (abstract kv) i req = Some (a, o) ->
  (KvStore_apply kv i req).2 = o /\ abstract (KvStore_apply kv i req).1 = a.
Proof.
  intros Hk H. unfold ab_apply in H. simpl ab_sessions in H. rewrite lookup_fmap in H.
  destruct (apply_cases kv i req) as [(s & Hs & Hn & ->)|[(s & Hs & Hn & ->)|[Hlt ->]]].
  - rewrite Hs in H. simpl in H. rewrite decide_True in H by done. by injection H as <- <-.
  - rewrite Hs in H. simpl in H. rewrite decide_False, decide_True in H by lia.
    by injection H as <- <-.
  - change (abstract kv) with (abstract (set_applied kv (Z.max (applied kv) i))) in H.
    apply serve_refines; [done|]. destruct (sessions kv !! rq_client_id req) as [s|] eqn:E;
      simpl in H; [|exact H]. specialize (Hlt s eq_refl).
    by rewrite !decide_False in H by lia.
Qed.

Lemma apply_refines_map_witness :
  (KvStore_apply KvStore_new 1 (mkRequest 7 1 (Put [1] [2]))).2 = Applied 1 /\
  abstract (KvStore_apply KvStore_new 1 (mkRequest 7 1 (Put [1] [2]))).1
    = mkAbstractKv {[ [1] := [2] ]} {[ 7 := (1, Applied 1) ]}.
Proof. apply apply_refines_map; [simpl; lia|vm_compute; reflexivity]. Defined.

(** ** Version histories *)

Definition ascending (vs : list Version) : Prop :=
  StronglySorted (fun a b => v_version a < v_version b) vs.

(** Every history is non-empty, bounded by the retention limit, strictly
    ascending, and not newer than the last applied index. *)
Definition history_ok (keep : nat) (limit : Index) (vs : list Version) : Prop :=
  (1 <= length vs <= keep)%nat /\ ascending vs /\ Forall (fun v => v_version v <= limit) vs.

Definition wf_kv (kv : KvStore) : Prop :=
  (0 < keep_versions kv)%nat /\ map_Forall (fun _ => history_ok (keep_versions kv) (applied kv)) (data kv).

Lemma ascending_drop n vs : ascending vs -> ascending (drop n vs).
Proof.
  unfold ascending. revert vs. induction n as [|n IH]; intros [|v vs] H; simpl; try done.
  apply IH. by inversion H.
Qed.

Lemma ascending_snoc vs v : ascending vs -> Forall (fun u => v_version u < v_version v) vs ->
  ascending (vs ++ [v]).
Proof.
  unfold ascending. induction 1 as [|u vs Hs IH Hu]; intros Hv; simpl; [by repeat constructor|].
  apply Forall_cons in Hv as [Hv1 Hv2]. constructor; [by apply IH|].
  apply Forall_app. split; [done|]. by constructor.
Qed.

Lemma push_version_drop keep vs v :
  push_version keep vs v = drop (length vs + 1 - keep) (vs ++ [v]).
Proof.
  unfold push_version. rewrite length_app. simpl.
  destruct (Nat.ltb_spec keep (length vs + 1)); [done|].
  by replace (length vs + 1 - keep)%nat with 0%nat by lia.
Qed.

Lemma push_version_ok keep limit vs v i :
  (0 < keep)%nat -> (length vs <= keep)%nat -> ascending vs ->
  Forall (fun u => v_version u <= limit) vs -> limit < v_version v <= i ->
  history_ok keep i (push_version keep vs v).
Proof.
  intros Hk Hl Hs Hb Hv. rewrite push_version_drop. split_and!.
  - rewrite length_drop, length_app. simpl. lia.
  - rewrite length_drop, length_app. simpl. lia.
  - apply ascending_drop, ascending_snoc; [done|]. eapply Forall_impl; [exact Hb|]. simpl. lia.
  - apply Forall_drop, Forall_app. split; [|constructor; [lia|done]].
    eapply Forall_impl; [exact Hb|]. simpl. lia.
Qed.

Lemma history_mono keep l l' vs : l <= l' -> history_ok keep l vs -> history_ok keep l' vs.
Proof.
  intros Hl (H1 & H2 & H3). split; [done|]. split; [done|]. eapply Forall_impl; [exact H3|]. simpl. lia.
Qed.

Lemma write_wf kv k v i : wf_kv kv -> applied kv < i -> wf_kv (set_applied (KvStore_write kv k v i) i).
Proof.
  intros [Hk Hd] Hi. split; [done|]. simpl. apply map_Forall_insert_2.
  - destruct (data kv !! k) as [vs|] eqn:E; simpl.
    + destruct (Hd _ _ E) as ([_ Hl] & Hs & Hb). apply (push_version_ok _ (applied kv)); simpl; auto with lia.
    + apply (push_version_ok _ (applied kv)); simpl; auto with lia. constructor.
  - intros k' vs Hk'. apply (history_mono _ (applied kv)); [lia|]. by eapply Hd.
Qed.

Lemma apply_op_wf kv i op : wf_kv kv -> applied kv < i ->
  wf_kv (set_applied (apply_op kv i op).1 i).
Proof.
  intros Hwf Hi. assert (Hsame : wf_kv (set_applied kv i)).
  { destruct Hwf as [Hk Hd]. split; [done|]. intros k vs Hvs.
    apply (history_mono _ (applied kv)); [simpl; lia|]. by eapply Hd. }
  destruct op; simpl; auto using write_wf. case_bool_decide; simpl; auto using write_wf.
Qed.

Lemma apply_op_applied kv j i op :
  (apply_op (set_applied kv j) i op).1 = set_applied (apply_op kv i op).1 j.
Proof. destruct op; simpl; try done. unfold KvStore_get. simpl. by case_bool_decide. Qed.

(** Applying commands at increasing log indices keeps every version
    history non-empty, within the retention limit, strictly ascending and not
    newer than the applied watermark, which becomes the index applied. *)
Theorem apply_keeps_histories kv i req :
  wf_kv kv -> applied kv < i ->
  wf_kv (KvStore_apply kv i req).1 /\ applied (KvStore_apply kv i req).1 = i.
Proof.
  intros Hwf Hi. assert (E : Z.max (applied kv) i = i) by lia.
  assert (Hsame : wf_kv (set_applied kv i)).
  { destruct Hwf as [Hk Hd]. split; [done|]. intros k vs Hvs.
    apply (history_mono _ (applied kv)); [simpl; lia|]. by eapply Hd. }
  destruct (apply_cases kv i req) as [(s & _ & _ & ->)|[(s & _ & _ & ->)|[_ ->]]]; rewrite E; simpl.
  - done.
  - done.
  - rewrite apply_op_applied. simpl. split; [|done]. apply (apply_op_wf kv i (rq_op req) Hwf Hi).
Qed.

Lemma apply_keeps_histories_witness :
  wf_kv (KvStore_apply KvStore_new 1 (mkRequest 7 1 (Put [1] [2]))).1 /\
  applied (KvStore_apply KvStore_new 1 (mkRequest 7 1 (Put [1] [2]))).1 = 1.
Proof. apply apply_keeps_histories; [split; [simpl; lia|apply map_Forall_empty]|simpl; lia]. Defined.

Lemma find_version_snoc vs v n : find_version (vs ++ [v]) n =
  if decide (v_version v <= n) then Some v else find_version vs n.
Proof.
  unfold find_version. rewrite reverse_snoc. simpl. case_decide; [done|].
  by destruct (list_find _ (reverse vs)) as [[]|].
Qed.

(** The search of [get_at] from the newest end, as a search from the oldest. *)
Lemma find_version_drop n vs k v : ascending vs ->
  find_version (drop k vs) n = Some v -> find_version vs n = Some v.
Proof.
  revert k. induction vs as [|u vs IH] using rev_ind; intros k Hs.
  { by rewrite drop_nil. }
  destruct (decide (length vs < k)%nat) as [Hk|Hk].
  { rewrite drop_ge by (rewrite length_app; simpl; lia). done. }
  rewrite drop_app_le, !find_version_snoc by lia. case_decide; [done|]. apply IH.
  clear -Hs. unfold ascending in *. induction vs as [|w vs IH]; [constructor|].
  simpl in Hs. inversion Hs as [|? ? H1 H2]; subst. constructor; [by apply IH|].
  by apply Forall_app in H2 as [H2 _].
Qed.

(** What [get_at] finds for a key: the version record, if any is retained. *)
Definition version_at (kv : KvStore) (k : Bytes) (n : Index) : option Version :=
  data kv !! k ≫= (fun vs => find_version vs n).

Lemma get_at_version kv k n : KvStore_get_at kv k n = version_at kv k n ≫= v_value.
Proof.
  unfold KvStore_get_at, version_at. destruct (data kv !! k) as [vs|]; simpl; [|done].
  by destruct (find_version vs n).
Qed.

Lemma write_version_at kv k v i k' n u : wf_kv kv -> applied kv < i -> n < i ->
  version_at (KvStore_write kv k v i) k' n = Some u -> version_at kv k' n = Some u.
Proof.
  intros [Hk Hd] Hi Hn. unfold version_at. simpl. destruct (decide (k = k')) as [<-|Hne].
  2: by rewrite lookup_insert_ne by done.
  rewrite lookup_insert_eq. simpl. rewrite push_version_drop.
  destruct (data kv !! k) as [vs|] eqn:E; simpl.
  - destruct (Hd _ _ E) as (Hl & Hs & Hb). rewrite drop_app_le by lia.
    rewrite find_version_snoc. simpl. rewrite decide_False by lia. by apply find_version_drop.
  - replace (1 - keep_versions kv)%nat with 0%nat by lia. rewrite drop_0.
    change [mkVersion i v] with ([] ++ [mkVersion i v]). rewrite find_version_snoc. simpl.
    by rewrite decide_False by lia.
Qed.

(** History is immutable. A version a read of the past can still find
    after a command was applied at a later index is the version it found
    before: commits never rewrite a retained version, they only add newer ones
    and drop old ones. *)
Theorem history_is_immutable kv i req k n v :
  wf_kv kv -> applied kv < i -> n < i ->
  version_at (KvStore_apply kv i req).1 k n = Some v ->
  version_at kv k n = Some v /\ KvStore_get_at kv k n = v_value v.
Proof.
  intros Hwf Hi Hn H. assert (Hv : version_at kv k n = Some v).
  2: { split; [done|]. by rewrite get_at_version, Hv. }
  destruct (apply_cases kv i req) as [(s & _ & _ & E)|[(s & _ & _ & E)|[_ E]]]; rewrite E in H;
    [exact H..|]. simpl in H. rewrite apply_op_applied in H.
  change (version_at (apply_op kv i (rq_op req)).1 k n = Some v) in H.
  destruct (rq_op req) as [?|?|?|? ? ?|?]; simpl in H; eauto using write_version_at.
  case_bool_decide; simpl in H; eauto using write_version_at.
Qed.

Lemma wf_kv_new : wf_kv KvStore_new.
Proof. split; [simpl; lia|apply map_Forall_empty]. Qed.

Lemma history_is_immutable_witness :
  let kv := set_applied (KvStore_write KvStore_new [1] (Some [2]) 1) 1 in
  version_at kv [1] 1 = Some (mkVersion 1 (Some [2])) /\ KvStore_get_at kv [1] 1 = Some [2].
Proof.
  apply (history_is_immutable _ 2 (mkRequest 7 2 (Delete [1])) [1] 1 (mkVersion 1 (Some [2]))).
  - apply write_wf; [apply wf_kv_new|simpl; lia].
  - simpl. lia.
  - lia.
  - vm_compute. reflexivity.
Defined.

(** ** Snapshots *)

Definition Version_ok (v : Version) : Prop := is_u64 (v_version v) /\ opt_ok fits_u32 (v_value v).
Definition key_ok (p : Bytes * list Version) : Prop :=
  fits_u32 p.1 /\ fits_u32 p.2 /\ Forall Version_ok p.2.
Definition session_ok (p : Z * Session) : Prop :=
  is_u64 p.1 /\ is_u64 (last_seq p.2) /\ Outcome_ok (last_outcome p.2) /\
  fits_u32 (Response_encode (mkResponse p.1 (last_seq p.2) (last_outcome p.2))).

(** The store a snapshot can carry: every number and length fits its field, and
    the retention limit is the one [restore] sets. *)
Definition store_ok (kv : KvStore) : Prop :=
  is_u64 (applied kv) /\ keep_versions kv = 16%nat /\
  fits_u32 (map_to_list (data kv)) /\ Forall key_ok (map_to_list (data kv)) /\
  fits_u32 (map_to_list (sessions kv)) /\ Forall session_ok (map_to_list (sessions kv)).

#[export] Instance Version_ok_dec v : Decision (Version_ok v).
Proof. unfold Version_ok. apply _. Defined.
#[export] Instance key_ok_dec p : Decision (key_ok p).
Proof. unfold key_ok. apply _. Defined.
#[export] Instance session_ok_dec p : Decision (session_ok p).
Proof. unfold session_ok. apply _. Defined.
#[export] Instance store_ok_dec kv : Decision (store_ok kv).
Proof. unfold store_ok. apply _. Defined.

#[export] Instance RoundTrip_Version : RoundTrip Version_ok Version_encode Version_decode.
Proof.
  assert (E : forall v w, Version_encode v w =
    w ++ le_bytes 8 (v_version v) ++ Writer_opt Writer_bytes (v_value v) []).
  { intros v w. unfold Version_encode. writer_fields. done. }
  split.
  - intros v w. by rewrite !E.
  - intros [n v] [Hn Hv]. rewrite E, app_nil_l. cbn [v_version v_value] in *.
    unfold Version_decode.
    eapply (parses_bind _ _ (le_bytes 8 n)); [auto with codec|]. parse_fields.
  - intros v. rewrite E. simpl. lia.
Qed.

#[export] Instance RoundTrip_key : RoundTrip key_ok key_encode key_decode.
Proof.
  assert (E : forall p w, key_encode p w = w ++ Writer_bytes p.1 [] ++ Writer_seq Version_encode p.2 []).
  { intros p w. unfold key_encode. rewrite (Writer_bytes_app p.1 w).
    rewrite (Writer_seq_bytes p.2 (_ ++ _)), (Writer_seq_bytes p.2 []). by rewrite <- app_assoc. }
  split.
  - intros p w. by rewrite !E.
  - intros [k vs] (Hk & Hl & Hvs). rewrite E, app_nil_l. cbn [fst snd] in *. unfold key_decode. parse_fields.
  - intros p. rewrite E. unfold Writer_bytes, Writer_u32. simpl. lia.
Qed.

#[export] Instance RoundTrip_session : RoundTrip session_ok session_encode session_decode.
Proof.
  assert (E : forall p w, session_encode p w = w ++ le_bytes 8 p.1 ++ le_bytes 8 (last_seq p.2)
    ++ Writer_bytes (Response_encode (mkResponse p.1 (last_seq p.2) (last_outcome p.2))) []).
  { intros p w. unfold session_encode. writer_fields. done. }
  split.
  - intros p w. by rewrite !E.
  - intros [id [n o]] (Hid & Hn & Ho & Hf). cbn [fst snd last_seq last_outcome] in *.
    rewrite E, app_nil_l. cbn [fst snd last_seq last_outcome] in *. unfold session_decode.
    eapply parses_bind; [by auto with codec|]. eapply parses_bind; [by auto with codec|].
    eapply parses_bind_end; [by auto with codec|].
    intros r tail _. unfold mbind, Parser_bind, nested_response, Response_decode.
    rewrite (rt_response (mkResponse id n o)) by by split_and!. simpl.
    unfold adv. destruct r. simpl. by rewrite Nat.add_0_r.
  - intros p. rewrite E. simpl. lia.
Qed.

Lemma fold_insert_reverse {K V} `{Countable K} (l : list (K * V)) (m : gmap K V) :
  insert_all m l = foldr (fun p m => <[p.1 := p.2]> m) m (reverse l).
Proof.
  unfold insert_all. revert m. induction l as [|p l IH]; intros m; [done|].
  rewrite reverse_cons, foldr_app. simpl. apply IH.
Qed.

(** Inserting a map's entries, in any order, rebuilds the map. *)
Lemma insert_all_to_list {K V} `{Countable K} (m : gmap K V) l :
  l ≡ₚ map_to_list m -> insert_all ∅ l = m.
Proof.
  intros Hl. rewrite fold_insert_reverse. change (list_to_map (M := gmap K V) (reverse l) = m).
  assert (Hp : reverse l ≡ₚ map_to_list m) by by rewrite reverse_Permutation.
  rewrite <- (list_to_map_to_list m). apply list_to_map_proper; [|done].
  rewrite Hp. apply NoDup_fst_map_to_list.
Qed.

Lemma in_order_perm kv :
  data_in_order kv ≡ₚ map_to_list (data kv) /\ sessions_in_order kv ≡ₚ map_to_list (sessions kv).
Proof. split; apply merge_sort_Permutation. Qed.

Lemma fits_perm {A} (l k : list A) : l ≡ₚ k -> fits_u32 k -> fits_u32 l.
Proof. unfold fits_u32. intros H. by rewrite H. Qed.

(** C36: a snapshot carries the whole state machine: restoring the bytes of a
    snapshot gives back the very store, data, tombstones, version histories,
    session table and applied watermark included. *)
Theorem snapshot_restore kv : store_ok kv -> KvStore_restore (KvStore_snapshot kv) = Ok kv.
Proof.
  intros (Ha & Hk & Hd & Hdk & Hs & Hsk). destruct (in_order_perm kv) as [Pd Ps].
  unfold KvStore_restore. apply parses_whole. unfold KvStore_snapshot, KvStore_restore_parser.
  rewrite (Writer_seq_bytes (sessions_in_order kv)), <- (app_nil_l (le_bytes 4 (len_u32 (sessions_in_order kv)) ++ _)).
  rewrite <- (Writer_seq_bytes (sessions_in_order kv) []).
  rewrite (Writer_seq_bytes (data_in_order kv)), <- (app_nil_l (le_bytes 4 (len_u32 (data_in_order kv)) ++ _)).
  rewrite <- (Writer_seq_bytes (data_in_order kv) []). writer_fields.
  eapply parses_bind; [by auto with codec|].
  eapply parses_bind; [apply parses_seq; [by eapply fits_perm|by rewrite Pd]|].
  eapply parses_bind_end; [apply parses_seq; [by eapply fits_perm|by rewrite Ps]|].
  rewrite (insert_all_to_list _ _ Pd), (insert_all_to_list _ _ Ps). rewrite <- Hk. destruct kv. apply parses_ret.
Qed.

Definition demo_store : KvStore :=
  run KvStore_new [(1, mkRequest 7 1 (Put [1] [2])); (2, mkRequest 8 1 (Delete [1]));
                   (3, mkRequest 7 2 (Cas [4; 5] None (Some [6])))].

Lemma snapshot_restore_witness : KvStore_restore (KvStore_snapshot demo_store) = Ok demo_store.
Proof. apply snapshot_restore. by_decide. Defined.

#[export] Instance Bounded_nested_response bytes : Bounded (nested_response bytes).
Proof. intros r Hr. unfold reader_ok in Hr. simpl. split; [done|lia]. Qed.

(** ** Live keys *)

Lemma is_live_current vs : is_live vs = true <-> is_Some (current vs).
Proof.
  unfold is_live, current. destruct (last vs) as [v|]; simpl.
  - by rewrite bool_decide_eq_true.
  - split; [done|]. by intros [].
Qed.

(** [keys] lists exactly the keys that [get] finds a value for, each once,
    and [len] counts them: deleted keys are in neither. *)
Theorem keys_are_the_live_keys kv :
  (forall k, k ∈ KvStore_keys kv <-> is_Some (KvStore_get kv k)) /\
  NoDup (KvStore_keys kv) /\
  KvStore_len kv = length (KvStore_keys kv) /\
  KvStore_len kv = size (ab_map (abstract kv)).
Proof.
  destruct (in_order_perm kv) as [Pd _].
  assert (Hin : forall k, k ∈ KvStore_keys kv <-> is_Some (KvStore_get kv k)).
  { intros k. unfold KvStore_keys. rewrite get_abstract. simpl. rewrite lookup_omap.
    change (map fst ?l) with (fst <$> l). rewrite list_elem_of_fmap. split.
    - intros ([k' vs] & -> & Hf). apply list_elem_of_filter in Hf as [Hl Hf].
      rewrite Pd in Hf. apply elem_of_map_to_list in Hf. simpl. rewrite Hf. simpl.
      by apply is_live_current.
    - destruct (data kv !! k) as [vs|] eqn:E; simpl; [|by intros []]. intros Hc.
      exists (k, vs). split; [done|]. apply list_elem_of_filter. split; [by apply is_live_current|].
      rewrite Pd. by apply elem_of_map_to_list. }
  assert (Hnd : NoDup (KvStore_keys kv)).
  { unfold KvStore_keys. change (map fst ?l) with (fst <$> l).
    eapply sublist_NoDup; [|apply fmap_sublist, sublist_filter].
    rewrite Pd. apply NoDup_fst_map_to_list. }
  assert (Hlen : KvStore_len kv = length (KvStore_keys kv)).
  { unfold KvStore_len, KvStore_keys. by rewrite length_map. }
  split_and!; [done|done|done|]. rewrite Hlen.
  rewrite <- (size_dom (D := gset Bytes)), <- (size_list_to_set (C := gset Bytes)) by done.
  f_equal. apply set_eq. intros k. rewrite elem_of_list_to_set, Hin, elem_of_dom, get_abstract. done.
Qed.
