(* ===== verification/RaftState.v ===== *)
(** * The data of the consensus state machine: [crates/chronolog/src/raft.rs]

    Options, roles, per-follower progress, the [Ready] batch handed to the
    driver, and the [Raft] struct, field for field, with one update function per
    mutable field. [|>] chains updates in the order the source performs them. *)

From Stdlib Require Import ZArith Lia.
From stdpp Require Import base tactics list list_numbers gmap sets sorting.
From S2P Require Import Prelude Codec Types RaftLog Msg.

Open Scope Z_scope.

Record RaftOptions : Type := mkRaftOptions {
  o_election_ticks : Z;
  o_heartbeat_ticks : Z;
  o_max_entries_per_append : Z;
  o_max_bytes_per_append : Z;
  o_pre_vote : bool;
  o_lease_reads : bool;
  o_snapshot_interval : Z
}.

Definition RaftOptions_default : RaftOptions :=
  mkRaftOptions 10 3 64 (Z.shiftl 1 20) true false 2000.

Inductive Role : Type := Follower | PreCandidate | Candidate | Leader.

Inductive ProgressState : Type := Probe | Replicate | PSnapshot.

Record Progress : Type := mkProgress {
  p_next : Index;
  p_matched : Index;
  p_state : ProgressState;
  p_pending_snapshot : Index;
  p_pending_snapshot_age : Z;
  p_active : bool
}.

Definition Progress_new (next : Index) : Progress := mkProgress next 0 Probe 0 0 false.

Record ReadState : Type := mkReadState { rs_ctx : Z; rs_index : Index }.

Record Ready : Type := mkReady {
  rd_hard_state : option HardState;
  rd_entries : list Entry;
  rd_snapshot : option Snapshot;
  rd_messages : list (NodeId * Message);
  rd_committed : list Entry;
  rd_reads : list ReadState
}.

Definition Ready_default : Ready := mkReady None [] None [] [] [].

Definition Ready_is_empty (r : Ready) : bool :=
  match r with mkReady None [] None [] [] [] => true | _ => false end.

Definition Ready_needs_durability (r : Ready) : bool :=
  match rd_hard_state r, rd_entries r, rd_snapshot r with None, [], None => false | _, _, _ => true end.

Record PendingRead : Type := mkPendingRead { pr_ctx : Z; pr_index : Index; pr_acks : gset NodeId }.

Record Raft : Type := mkRaft {
  r_id : NodeId;
  r_opts : RaftOptions;
  r_term : Term;
  r_vote : option NodeId;
  r_log : Log;
  r_commit : Index;
  r_applied : Index;
  r_persisted : Index;
  r_role : Role;
  r_leader : option NodeId;
  r_votes : gmap NodeId bool;
  r_election_elapsed : Z;
  r_heartbeat_elapsed : Z;
  r_election_timeout : Z;
  r_progress : gmap NodeId Progress;
  r_pending_reads : list PendingRead;
  r_read_ctx : Z;
  r_quorum_contact_elapsed : Z;
  r_committed_own_term : bool;
  r_pending : Ready;
  r_hard_state_dirty : bool;
  r_persisted_hard_state : HardState;
  r_dirty_from : option Index;
  r_rand : Z
}.

#[export] Instance Role_eq_dec : EqDecision Role.
Proof. solve_decision. Defined.
#[export] Instance ProgressState_eq_dec : EqDecision ProgressState.
Proof. solve_decision. Defined.
#[export] Instance Progress_eq_dec : EqDecision Progress.
Proof. solve_decision. Defined.
#[export] Instance ReadState_eq_dec : EqDecision ReadState.
Proof. solve_decision. Defined.

(** ** Field updates *)

Definition set_term (v : Term) (r : Raft) : Raft := mkRaft (r_id r) (r_opts r) v (r_vote r) (r_log
    r) (r_commit r) (r_applied r) (r_persisted r) (r_role r) (r_leader r) (r_votes r)
    (r_election_elapsed r) (r_heartbeat_elapsed r) (r_election_timeout r) (r_progress r)
    (r_pending_reads r) (r_read_ctx r) (r_quorum_contact_elapsed r) (r_committed_own_term r)
    (r_pending r) (r_hard_state_dirty r) (r_persisted_hard_state r) (r_dirty_from r) (r_rand r).
Definition set_vote (v : option NodeId) (r : Raft) : Raft := mkRaft (r_id r) (r_opts r) (r_term r) v
    (r_log r) (r_commit r) (r_applied r) (r_persisted r) (r_role r) (r_leader r) (r_votes r)
    (r_election_elapsed r) (r_heartbeat_elapsed r) (r_election_timeout r) (r_progress r)
    (r_pending_reads r) (r_read_ctx r) (r_quorum_contact_elapsed r) (r_committed_own_term r)
    (r_pending r) (r_hard_state_dirty r) (r_persisted_hard_state r) (r_dirty_from r) (r_rand r).
Definition set_log (v : Log) (r : Raft) : Raft := mkRaft (r_id r) (r_opts r) (r_term r) (r_vote r) v
    (r_commit r) (r_applied r) (r_persisted r) (r_role r) (r_leader r) (r_votes r)
    (r_election_elapsed r) (r_heartbeat_elapsed r) (r_election_timeout r) (r_progress r)
    (r_pending_reads r) (r_read_ctx r) (r_quorum_contact_elapsed r) (r_committed_own_term r)
    (r_pending r) (r_hard_state_dirty r) (r_persisted_hard_state r) (r_dirty_from r) (r_rand r).
Definition set_commit (v : Index) (r : Raft) : Raft := mkRaft (r_id r) (r_opts r) (r_term r) (r_vote
    r) (r_log r) v (r_applied r) (r_persisted r) (r_role r) (r_leader r) (r_votes r)
    (r_election_elapsed r) (r_heartbeat_elapsed r) (r_election_timeout r) (r_progress r)
    (r_pending_reads r) (r_read_ctx r) (r_quorum_contact_elapsed r) (r_committed_own_term r)
    (r_pending r) (r_hard_state_dirty r) (r_persisted_hard_state r) (r_dirty_from r) (r_rand r).
Definition set_applied (v : Index) (r : Raft) : Raft := mkRaft (r_id r) (r_opts r) (r_term r)
    (r_vote r) (r_log r) (r_commit r) v (r_persisted r) (r_role r) (r_leader r) (r_votes r)
    (r_election_elapsed r) (r_heartbeat_elapsed r) (r_election_timeout r) (r_progress r)
    (r_pending_reads r) (r_read_ctx r) (r_quorum_contact_elapsed r) (r_committed_own_term r)
    (r_pending r) (r_hard_state_dirty r) (r_persisted_hard_state r) (r_dirty_from r) (r_rand r).
Definition set_persisted (v : Index) (r : Raft) : Raft := mkRaft (r_id r) (r_opts r) (r_term r)
    (r_vote r) (r_log r) (r_commit r) (r_applied r) v (r_role r) (r_leader r) (r_votes r)
    (r_election_elapsed r) (r_heartbeat_elapsed r) (r_election_timeout r) (r_progress r)
    (r_pending_reads r) (r_read_ctx r) (r_quorum_contact_elapsed r) (r_committed_own_term r)
    (r_pending r) (r_hard_state_dirty r) (r_persisted_hard_state r) (r_dirty_from r) (r_rand r).
Definition set_role (v : Role) (r : Raft) : Raft := mkRaft (r_id r) (r_opts r) (r_term r) (r_vote r)
    (r_log r) (r_commit r) (r_applied r) (r_persisted r) v (r_leader r) (r_votes r)
    (r_election_elapsed r) (r_heartbeat_elapsed r) (r_election_timeout r) (r_progress r)
    (r_pending_reads r) (r_read_ctx r) (r_quorum_contact_elapsed r) (r_committed_own_term r)
    (r_pending r) (r_hard_state_dirty r) (r_persisted_hard_state r) (r_dirty_from r) (r_rand r).
Definition set_leader (v : option NodeId) (r : Raft) : Raft := mkRaft (r_id r) (r_opts r) (r_term r)
    (r_vote r) (r_log r) (r_commit r) (r_applied r) (r_persisted r) (r_role r) v (r_votes r)
    (r_election_elapsed r) (r_heartbeat_elapsed r) (r_election_timeout r) (r_progress r)
    (r_pending_reads r) (r_read_ctx r) (r_quorum_contact_elapsed r) (r_committed_own_term r)
    (r_pending r) (r_hard_state_dirty r) (r_persisted_hard_state r) (r_dirty_from r) (r_rand r).
Definition set_votes (v : gmap NodeId bool) (r : Raft) : Raft := mkRaft (r_id r) (r_opts r) (r_term
    r) (r_vote r) (r_log r) (r_commit r) (r_applied r) (r_persisted r) (r_role r) (r_leader r) v
    (r_election_elapsed r) (r_heartbeat_elapsed r) (r_election_timeout r) (r_progress r)
    (r_pending_reads r) (r_read_ctx r) (r_quorum_contact_elapsed r) (r_committed_own_term r)
    (r_pending r) (r_hard_state_dirty r) (r_persisted_hard_state r) (r_dirty_from r) (r_rand r).
Definition set_election_elapsed (v : Z) (r : Raft) : Raft := mkRaft (r_id r) (r_opts r) (r_term r)
    (r_vote r) (r_log r) (r_commit r) (r_applied r) (r_persisted r) (r_role r) (r_leader r) (r_votes
    r) v (r_heartbeat_elapsed r) (r_election_timeout r) (r_progress r) (r_pending_reads r)
    (r_read_ctx r) (r_quorum_contact_elapsed r) (r_committed_own_term r) (r_pending r)
    (r_hard_state_dirty r) (r_persisted_hard_state r) (r_dirty_from r) (r_rand r).
Definition set_heartbeat_elapsed (v : Z) (r : Raft) : Raft := mkRaft (r_id r) (r_opts r) (r_term r)
    (r_vote r) (r_log r) (r_commit r) (r_applied r) (r_persisted r) (r_role r) (r_leader r) (r_votes
    r) (r_election_elapsed r) v (r_election_timeout r) (r_progress r) (r_pending_reads r)
    (r_read_ctx r) (r_quorum_contact_elapsed r) (r_committed_own_term r) (r_pending r)
    (r_hard_state_dirty r) (r_persisted_hard_state r) (r_dirty_from r) (r_rand r).
Definition set_election_timeout (v : Z) (r : Raft) : Raft := mkRaft (r_id r) (r_opts r) (r_term r)
    (r_vote r) (r_log r) (r_commit r) (r_applied r) (r_persisted r) (r_role r) (r_leader r) (r_votes
    r) (r_election_elapsed r) (r_heartbeat_elapsed r) v (r_progress r) (r_pending_reads r)
    (r_read_ctx r) (r_quorum_contact_elapsed r) (r_committed_own_term r) (r_pending r)
    (r_hard_state_dirty r) (r_persisted_hard_state r) (r_dirty_from r) (r_rand r).
Definition set_progress (v : gmap NodeId Progress) (r : Raft) : Raft := mkRaft (r_id r) (r_opts r)
    (r_term r) (r_vote r) (r_log r) (r_commit r) (r_applied r) (r_persisted r) (r_role r) (r_leader
    r) (r_votes r) (r_election_elapsed r) (r_heartbeat_elapsed r) (r_election_timeout r) v
    (r_pending_reads r) (r_read_ctx r) (r_quorum_contact_elapsed r) (r_committed_own_term r)
    (r_pending r) (r_hard_state_dirty r) (r_persisted_hard_state r) (r_dirty_from r) (r_rand r).
Definition set_pending_reads (v : list PendingRead) (r : Raft) : Raft := mkRaft (r_id r) (r_opts r)
    (r_term r) (r_vote r) (r_log r) (r_commit r) (r_applied r) (r_persisted r) (r_role r) (r_leader
    r) (r_votes r) (r_election_elapsed r) (r_heartbeat_elapsed r) (r_election_timeout r) (r_progress
    r) v (r_read_ctx r) (r_quorum_contact_elapsed r) (r_committed_own_term r) (r_pending r)
    (r_hard_state_dirty r) (r_persisted_hard_state r) (r_dirty_from r) (r_rand r).
Definition set_read_ctx (v : Z) (r : Raft) : Raft := mkRaft (r_id r) (r_opts r) (r_term r) (r_vote
    r) (r_log r) (r_commit r) (r_applied r) (r_persisted r) (r_role r) (r_leader r) (r_votes r)
    (r_election_elapsed r) (r_heartbeat_elapsed r) (r_election_timeout r) (r_progress r)
    (r_pending_reads r) v (r_quorum_contact_elapsed r) (r_committed_own_term r) (r_pending r)
    (r_hard_state_dirty r) (r_persisted_hard_state r) (r_dirty_from r) (r_rand r).
Definition set_quorum_contact_elapsed (v : Z) (r : Raft) : Raft := mkRaft (r_id r) (r_opts r)
    (r_term r) (r_vote r) (r_log r) (r_commit r) (r_applied r) (r_persisted r) (r_role r) (r_leader
    r) (r_votes r) (r_election_elapsed r) (r_heartbeat_elapsed r) (r_election_timeout r) (r_progress
    r) (r_pending_reads r) (r_read_ctx r) v (r_committed_own_term r) (r_pending r)
    (r_hard_state_dirty r) (r_persisted_hard_state r) (r_dirty_from r) (r_rand r).
Definition set_committed_own_term (v : bool) (r : Raft) : Raft := mkRaft (r_id r) (r_opts r) (r_term
    r) (r_vote r) (r_log r) (r_commit r) (r_applied r) (r_persisted r) (r_role r) (r_leader r)
    (r_votes r) (r_election_elapsed r) (r_heartbeat_elapsed r) (r_election_timeout r) (r_progress r)
    (r_pending_reads r) (r_read_ctx r) (r_quorum_contact_elapsed r) v (r_pending r)
    (r_hard_state_dirty r) (r_persisted_hard_state r) (r_dirty_from r) (r_rand r).
Definition set_pending (v : Ready) (r : Raft) : Raft := mkRaft (r_id r) (r_opts r) (r_term r)
    (r_vote r) (r_log r) (r_commit r) (r_applied r) (r_persisted r) (r_role r) (r_leader r) (r_votes
    r) (r_election_elapsed r) (r_heartbeat_elapsed r) (r_election_timeout r) (r_progress r)
    (r_pending_reads r) (r_read_ctx r) (r_quorum_contact_elapsed r) (r_committed_own_term r) v
    (r_hard_state_dirty r) (r_persisted_hard_state r) (r_dirty_from r) (r_rand r).
Definition set_hard_state_dirty (v : bool) (r : Raft) : Raft := mkRaft (r_id r) (r_opts r) (r_term
    r) (r_vote r) (r_log r) (r_commit r) (r_applied r) (r_persisted r) (r_role r) (r_leader r)
    (r_votes r) (r_election_elapsed r) (r_heartbeat_elapsed r) (r_election_timeout r) (r_progress r)
    (r_pending_reads r) (r_read_ctx r) (r_quorum_contact_elapsed r) (r_committed_own_term r)
    (r_pending r) v (r_persisted_hard_state r) (r_dirty_from r) (r_rand r).
Definition set_persisted_hard_state (v : HardState) (r : Raft) : Raft := mkRaft (r_id r) (r_opts r)
    (r_term r) (r_vote r) (r_log r) (r_commit r) (r_applied r) (r_persisted r) (r_role r) (r_leader
    r) (r_votes r) (r_election_elapsed r) (r_heartbeat_elapsed r) (r_election_timeout r) (r_progress
    r) (r_pending_reads r) (r_read_ctx r) (r_quorum_contact_elapsed r) (r_committed_own_term r)
    (r_pending r) (r_hard_state_dirty r) v (r_dirty_from r) (r_rand r).
Definition set_dirty_from (v : option Index) (r : Raft) : Raft := mkRaft (r_id r) (r_opts r) (r_term
    r) (r_vote r) (r_log r) (r_commit r) (r_applied r) (r_persisted r) (r_role r) (r_leader r)
    (r_votes r) (r_election_elapsed r) (r_heartbeat_elapsed r) (r_election_timeout r) (r_progress r)
    (r_pending_reads r) (r_read_ctx r) (r_quorum_contact_elapsed r) (r_committed_own_term r)
    (r_pending r) (r_hard_state_dirty r) (r_persisted_hard_state r) v (r_rand r).
Definition set_rand (v : Z) (r : Raft) : Raft := mkRaft (r_id r) (r_opts r) (r_term r) (r_vote r)
    (r_log r) (r_commit r) (r_applied r) (r_persisted r) (r_role r) (r_leader r) (r_votes r)
    (r_election_elapsed r) (r_heartbeat_elapsed r) (r_election_timeout r) (r_progress r)
    (r_pending_reads r) (r_read_ctx r) (r_quorum_contact_elapsed r) (r_committed_own_term r)
    (r_pending r) (r_hard_state_dirty r) (r_persisted_hard_state r) (r_dirty_from r) v.

(** Updates of the parts of [pending] and of one follower's progress. *)

Definition push_message (to : NodeId) (m : Message) (r : Raft) : Raft :=
  let p := r_pending r in
  set_pending (mkReady (rd_hard_state p) (rd_entries p) (rd_snapshot p)
    (rd_messages p ++ [(to, m)]) (rd_committed p) (rd_reads p)) r.

Definition push_reads (reads : list ReadState) (r : Raft) : Raft :=
  let p := r_pending r in
  set_pending (mkReady (rd_hard_state p) (rd_entries p) (rd_snapshot p)
    (rd_messages p) (rd_committed p) (rd_reads p ++ reads)) r.

(** [self.pending.entries.clear()] and [self.pending.snapshot = Some(s)]. *)
Definition supersede_pending (s : Snapshot) (r : Raft) : Raft :=
  let p := r_pending r in
  set_pending (mkReady (rd_hard_state p) [] (Some s)
    (rd_messages p) (rd_committed p) (rd_reads p)) r.

(** [if let Some(p) = self.progress.get_mut(&id) { *p = f(p) }]. *)
Definition update_progress (id : NodeId) (f : Progress -> Progress) (r : Raft) : Raft :=
  match r_progress r !! id with
  | Some p => set_progress (<[id := f p]> (r_progress r)) r
  | None => r
  end.

Definition sorted_keys {V} (m : gmap NodeId V) : list NodeId := sorted_elements (dom m).
