(* ===== verification/Raft.v ===== *)
(** * The consensus state machine: [crates/chronolog/src/raft.rs]

    Every method of [Raft] that reads or changes state, one definition each,
    composed as the methods call each other. A method that takes [&mut self]
    is a function from the state before to the state after, with its result in
    front when it has one. Arithmetic on [u64] and [u32] wraps as in a release
    build ([+64], [+32]); [debug_assert!] is absent from it. *)

From Stdlib Require Import ZArith Lia.
From stdpp Require Import base tactics list list_numbers gmap sets sorting.
From S2P Require Import Prelude Codec Types RaftLog Msg RaftState.

Open Scope Z_scope.

(** ** Construction *)

Definition Raft_new (id : NodeId) (config : Config) (opts : RaftOptions) : Raft :=
  mkRaft id opts 0 None (Log_bootstrap config) 0 0 0 Follower None ∅ 0 0 (o_election_ticks opts)
    ∅ [] 0 0 false Ready_default false HardState_default None
    (Z.lor (id *64 0x9E3779B97F4A7C15) 1).

Definition stir (r : Raft) : Z * Raft :=
  let rand := r_rand r +64 0x9E3779B97F4A7C15 in
  let z := Z.lxor rand (Z.shiftr rand 30) *64 0xBF58476D1CE4E5B9 in
  let z := Z.lxor z (Z.shiftr z 27) *64 0x94D049BB133111EB in
  (Z.lxor z (Z.shiftr z 31), set_rand rand r).

Definition Raft_restore (id : NodeId) (opts : RaftOptions) (hard : HardState)
    (snapshot : option Snapshot) (es : list Entry) (bootstrap : Config) : Raft :=
  let r := Raft_new id bootstrap opts in
  let restored := Log_restore snapshot es in
  let log :=
    if bool_decide (voters (Log_config restored) = ∅)
    then Log_append (Log_bootstrap bootstrap) (Log_entries_from restored 1)
    else restored in
  let commit := Z.max (Z.min (hs_commit hard) (Log_last_index log)) (snapshot_index log) in
  r |> set_log log |> set_term (hs_term hard) |> set_vote (hs_vote hard)
    |> set_commit commit
    |> set_applied (snapshot_index log)
    |> set_persisted (Log_last_index log)
    |> set_persisted_hard_state (mkHardState (hs_term hard) (hs_vote hard) commit).

Definition Raft_hard_state (r : Raft) : HardState :=
  mkHardState (r_term r) (r_vote r) (r_commit r).

Definition lease_valid (r : Raft) : bool :=
  bool_decide (r_role r = Leader) && o_lease_reads (r_opts r)
  && (r_quorum_contact_elapsed r <? o_election_ticks (r_opts r)).

Definition promotable (r : Raft) : bool := Config_is_voter (Log_config (r_log r)) (r_id r).

Definition send (to : NodeId) (body : Body) (r : Raft) : Raft :=
  push_message to (mkMessage (r_term r) body) r.

Definition mark_dirty (index : Index) (r : Raft) : Raft :=
  set_dirty_from (Some (match r_dirty_from r with
                        | Some existing => Z.min existing index
                        | None => index
                        end)) r.

(** ** Replication to one follower *)

(** The byte budget: how many of the entries from position [i] on to keep. *)
Fixpoint budget_cut (max_bytes bytes : Z) (i : nat) (es : list Entry) : nat :=
  match es with
  | [] => i
  | e :: rest =>
      let bytes := bytes + Z.of_nat (length (Entry_to_bytes e)) in
      if (max_bytes <? bytes) && (0 <? i)%nat then i else budget_cut max_bytes bytes (S i) rest
  end.

Definition set_state (s : ProgressState) (p : Progress) : Progress :=
  mkProgress (p_next p) (p_matched p) s (p_pending_snapshot p) (p_pending_snapshot_age p) (p_active p).
Definition set_active (b : bool) (p : Progress) : Progress :=
  mkProgress (p_next p) (p_matched p) (p_state p) (p_pending_snapshot p) (p_pending_snapshot_age p) b.

Definition send_append_to (peer : NodeId) (r : Raft) : Raft :=
  match r_progress r !! peer with
  | None => r
  | Some p =>
      if bool_decide (p_state p = PSnapshot) && (0 <? p_pending_snapshot p) then r
      else
        let needs_snapshot := p_next p <? Log_first_index (r_log r) in
        let prev_index := ssub (p_next p) 1 in
        match Log_term_at (r_log r) prev_index, needs_snapshot with
        | Some prev_term, false =>
            let from := p_next p in
            let to := Z.min (from +64 o_max_entries_per_append (r_opts r))
                        (Log_last_index (r_log r) +64 1) in
            let es := Log_slice (r_log r) from to in
            let cut := budget_cut (o_max_bytes_per_append (r_opts r)) 0 0 es in
            send peer (AppendReq prev_index prev_term (take cut es) (r_commit r)) r
        | _, _ => update_progress peer (set_state PSnapshot) r
        end
  end.

(** The loop [for peer in cfg.all_nodes() { if peer != self.id { .. } }]. *)
Definition send_to_peers (f : NodeId -> Raft -> Raft) (r : Raft) : Raft :=
  fold_left (fun r peer => if negb (peer =? r_id r) then f peer r else r)
    (sorted_elements (Config_all_nodes (Log_config (r_log r)))) r.

Definition broadcast_append (r : Raft) : Raft := send_to_peers send_append_to r.

Definition append_to_own_log (es : list Entry) (r : Raft) : Raft :=
  let r := match es with first :: _ => mark_dirty (e_index first) r | [] => r end in
  set_log (Log_append (r_log r) es) r.

Definition matched_of (r : Raft) (id : NodeId) : Index :=
  if id =? r_id r then r_persisted r
  else match r_progress r !! id with Some p => p_matched p | None => 0 end.

Definition maybe_advance_commit (r : Raft) : Raft :=
  let candidate := Config_quorum_index (Log_config (r_log r)) (matched_of r) in
  if candidate <=? r_commit r then r
  else if bool_decide (Log_term_at (r_log r) candidate <> Some (r_term r)) then r
  else r |> set_commit candidate |> set_committed_own_term true
         |> set_hard_state_dirty true |> set_quorum_contact_elapsed 0.

(** ** Role transitions *)

Definition become_follower (term : Term) (leader : option NodeId) (r : Raft) : Raft :=
  let r :=
    if r_term r <? term
    then r |> set_term term |> set_vote None |> set_hard_state_dirty true
    else r in
  r |> set_role Follower |> set_leader leader |> set_election_elapsed 0
    |> set_votes ∅ |> set_progress ∅ |> set_pending_reads [] |> set_committed_own_term false.

(** The slot [or_insert_with] fills for a member that has none. *)
Definition fresh_progress (r : Raft) (next : Index) (id : NodeId) : Progress :=
  if id =? r_id r then mkProgress next (r_persisted r) Replicate 0 0 false else Progress_new next.

Definition reset_progress_for_config (r : Raft) : Raft :=
  let next := Log_last_index (r_log r) +64 1 in
  let members := Config_all_nodes (Log_config (r_log r)) in
  let retained := filter (fun kv => kv.1 ∈ members) (r_progress r) in
  let filled :=
    fold_left (fun m id =>
      match m !! id with Some _ => m | None => <[id := fresh_progress r next id]> m end)
      (sorted_elements members) retained in
  set_progress filled r
    |> update_progress (r_id r) (fun p =>
         mkProgress (r_persisted r +64 1) (r_persisted r) Replicate
           (p_pending_snapshot p) (p_pending_snapshot_age p) true).

Definition become_leader (r : Raft) : Raft :=
  let r := r |> set_role Leader |> set_leader (Some (r_id r))
             |> set_heartbeat_elapsed 0 |> set_election_elapsed 0 |> set_quorum_contact_elapsed 0
             |> set_committed_own_term false |> set_pending_reads []
             |> reset_progress_for_config in
  let noop := mkEntry (r_term r) (Log_last_index (r_log r) +64 1) Noop in
  r |> append_to_own_log [noop] |> broadcast_append.

(** The ids whose recorded vote is [g]. *)
Definition voters_with (g : bool) (r : Raft) : gset NodeId :=
  dom (filter (fun kv => kv.2 = g) (r_votes r)).

Definition tally (r : Raft) (cfg : Config) : bool := Config_has_quorum cfg (voters_with true r).
Definition lost (r : Raft) (cfg : Config) : bool := Config_has_quorum cfg (voters_with false r).

(** The part of [campaign] before [if pre_vote]. *)
Definition campaign_draw (r : Raft) : Raft :=
  let span := Z.max (o_election_ticks (r_opts r)) 1 in
  let '(draw, r) := stir r in
  r |> set_election_timeout (o_election_ticks (r_opts r) +32 (draw mod span))
    |> set_election_elapsed 0 |> set_votes ∅.

(** [campaign(false)]: the real election. *)
Definition campaign_vote (r : Raft) : Raft :=
  let r := campaign_draw r in
  let last_index := Log_last_index (r_log r) in
  let last_term := Log_last_term (r_log r) in
  let r := r |> set_role Candidate |> set_term (r_term r +64 1) |> set_vote (Some (r_id r))
             |> set_leader None |> set_hard_state_dirty true
             |> set_votes (<[r_id r := true]> (r_votes r)) in
  if tally r (Log_config (r_log r)) then become_leader r
  else send_to_peers (fun peer => send peer (VoteReq last_index last_term)) r.

Definition campaign (pre_vote : bool) (r0 : Raft) : Raft :=
  if pre_vote then
    let r := campaign_draw r0 in
    let last_index := Log_last_index (r_log r) in
    let last_term := Log_last_term (r_log r) in
    let poll_term := r_term r +64 1 in
    let r := r |> set_role PreCandidate |> set_votes (<[r_id r := true]> (r_votes r)) in
    if tally r (Log_config (r_log r)) then campaign_vote r
    else send_to_peers (fun peer =>
           push_message peer (mkMessage poll_term (PreVoteReq last_index last_term))) r
  else campaign_vote r0.

Definition start_election (r : Raft) : Raft := campaign (o_pre_vote (r_opts r)) r.

(** One follower's round of [expire_pending_snapshots]: the slot and whether
    it is to be probed again. *)
Definition expire_one (timeout : Z) (p : Progress) : Progress * bool :=
  if p_pending_snapshot p =? 0 then (p, false)
  else
    let age := p_pending_snapshot_age p +32 1 in
    if timeout <? age
    then (mkProgress (p_next p) (p_matched p) Probe 0 0 (p_active p), true)
    else (mkProgress (p_next p) (p_matched p) (p_state p) (p_pending_snapshot p) age (p_active p), false).

Definition expire_pending_snapshots (r : Raft) : Raft :=
  let timeout := Z.max (o_election_ticks (r_opts r)) 1 in
  let retry := filter (fun id =>
      match r_progress r !! id with Some p => (expire_one timeout p).2 | None => false end = true)
      (sorted_keys (r_progress r)) in
  fold_left (fun r id => send_append_to id r) retry
    (set_progress ((fun p => (expire_one timeout p).1) <$> r_progress r) r).

Definition check_quorum (r : Raft) : Raft :=
  let active := dom (filter (fun kv => p_active kv.2 = true \/ kv.1 = r_id r) (r_progress r)) in
  let r' := set_progress (set_active false <$> r_progress r) r in
  if Config_has_quorum (Log_config (r_log r)) active then set_quorum_contact_elapsed 0 r'
  else become_follower (r_term r) None r'.

(** ** Inputs from the driver *)

Definition tick (rand : Z) (r : Raft) : Raft :=
  let r := r |> set_rand (Z.lxor (r_rand r) rand)
             |> set_election_elapsed (r_election_elapsed r +32 1) in
  match r_role r with
  | Leader =>
      let r := r |> set_heartbeat_elapsed (r_heartbeat_elapsed r +32 1)
                 |> set_quorum_contact_elapsed (r_quorum_contact_elapsed r +32 1) in
      let r := if o_heartbeat_ticks (r_opts r) <=? r_heartbeat_elapsed r
               then broadcast_append (set_heartbeat_elapsed 0 r) else r in
      let r := if o_election_ticks (r_opts r) <=? r_election_elapsed r
               then check_quorum (set_election_elapsed 0 r) else r in
      expire_pending_snapshots r
  | _ =>
      if promotable r && (r_election_timeout r <=? r_election_elapsed r)
      then start_election r else r
  end.

Definition propose (data : list Z) (r : Raft) : option Index * Raft :=
  if bool_decide (r_role r <> Leader) then (None, r)
  else
    let index := Log_last_index (r_log r) +64 1 in
    (Some index,
     r |> append_to_own_log [mkEntry (r_term r) index (Normal data)] |> broadcast_append).

Definition is_config_entry (e : Entry) : bool :=
  match e_kind e with KConfig _ => true | _ => false end.

Definition propose_config (change : ConfigChange) (r : Raft) : option Index * Raft :=
  if bool_decide (r_role r <> Leader) then (None, r)
  else
    let current := Log_config (r_log r) in
    let refused := match change with
                   | EnterJoint _ _ => Config_is_joint current
                   | LeaveJoint => negb (Config_is_joint current)
                   end in
    if refused then (None, r)
    else if existsb is_config_entry (Log_entries_from (r_log r) (r_commit r +64 1)) then (None, r)
    else
      let index := Log_last_index (r_log r) +64 1 in
      (Some index,
       r |> append_to_own_log [mkEntry (r_term r) index (KConfig change)]
         |> reset_progress_for_config |> broadcast_append).

(** [Raft::set_persisted], which also clamps to the log. *)
Definition report_persisted (index : Index) (r : Raft) : Raft :=
  set_persisted (Z.min index (Log_last_index (r_log r))) r.

Definition step_down (r : Raft) : Raft :=
  if bool_decide (r_role r = Leader) then become_follower (r_term r) None r else r.

Definition read_index (r : Raft) : option Z * Raft :=
  if bool_decide (r_role r <> Leader) then (None, r)
  else if negb (r_committed_own_term r) then (None, r)
  else
    let ctx := r_read_ctx r +64 1 in
    let r := set_read_ctx ctx r in
    let index := r_commit r in
    let cfg := Log_config (r_log r) in
    if Config_has_quorum cfg {[r_id r]} then (Some ctx, push_reads [mkReadState ctx index] r)
    else
      let r := set_pending_reads (r_pending_reads r ++ [mkPendingRead ctx index {[r_id r]}]) r in
      (Some ctx,
       send_to_peers (fun peer r =>
         let matched := match r_progress r !! peer with Some p => p_matched p | None => 0 end in
         send peer (HeartbeatReq (Z.min (r_commit r) matched) ctx) r) r).

Definition transfer_leadership (target : NodeId) (r : Raft) : bool * Raft :=
  if bool_decide (r_role r <> Leader) || (target =? r_id r) then (false, r)
  else if negb (Config_is_voter (Log_config (r_log r)) target) then (false, r)
  else (true, send target TimeoutNow r).

(** ** Message handlers *)

Definition handle_pre_vote_req (from : NodeId) (poll_term : Term) (last_index : Index)
    (last_term : Term) (r : Raft) : Raft :=
  let believes_in_leader := bool_decide (is_Some (r_leader r))
                            && (r_election_elapsed r <? o_election_ticks (r_opts r)) in
  let granted := (r_term r <? poll_term) && Log_is_up_to_date (r_log r) last_term last_index
                 && negb believes_in_leader in
  push_message from (mkMessage poll_term (PreVoteResp granted)) r.

Definition handle_pre_vote_resp (from : NodeId) (resp_term : Term) (granted : bool) (r : Raft) : Raft :=
  if bool_decide (r_role r <> PreCandidate) then r
  else if negb granted && (r_term r +64 1 <? resp_term) then become_follower resp_term None r
  else
    let r := set_votes (<[from := granted]> (r_votes r)) r in
    let cfg := Log_config (r_log r) in
    if tally r cfg then campaign false r
    else if lost r cfg then set_role Follower r
    else r.

Definition handle_vote_req (from : NodeId) (last_index : Index) (last_term : Term) (r : Raft) : Raft :=
  let can_vote := match r_vote r with None => true | Some v => v =? from end in
  let granted := can_vote && Log_is_up_to_date (r_log r) last_term last_index in
  let r := if granted
           then r |> set_vote (Some from) |> set_hard_state_dirty true |> set_election_elapsed 0
           else r in
  send from (VoteResp granted) r.

Definition handle_vote_resp (from : NodeId) (granted : bool) (r : Raft) : Raft :=
  if bool_decide (r_role r <> Candidate) then r
  else
    let r := set_votes (<[from := granted]> (r_votes r)) r in
    let cfg := Log_config (r_log r) in
    if tally r cfg then become_leader r
    else if lost r cfg then become_follower (r_term r) None r
    else r.

(** The opening lines of the handlers of a leader's messages. *)
Definition follow (from : NodeId) (r : Raft) : Raft :=
  let r := if bool_decide (r_role r <> Follower) then become_follower (r_term r) (Some from) r else r in
  r |> set_leader (Some from) |> set_election_elapsed 0.

Definition raise_commit (commit : Index) (r : Raft) : Raft :=
  if r_commit r <? commit then r |> set_commit commit |> set_hard_state_dirty true else r.

Definition handle_append (from : NodeId) (prev_index : Index) (prev_term : Term)
    (es : list Entry) (leader_commit : Index) (r : Raft) : Raft :=
  let r := follow from r in
  if prev_index <? snapshot_index (r_log r)
  then send from (AppendResp true (snapshot_index (r_log r)) 0 0) r
  else
    match Log_term_at (r_log r) prev_index with
    | Some t =>
        if t =? prev_term then
          let '(log, last_new) := Log_merge (r_log r) prev_index es in
          let r := set_log log r in
          let r := match es with first :: _ => mark_dirty (e_index first) r | [] => r end in
          let r := raise_commit (Z.min leader_commit last_new) r in
          let r := if Log_last_index (r_log r) <? r_commit r
                   then r |> set_commit (Log_last_index (r_log r)) |> set_hard_state_dirty true
                   else r in
          send from (AppendResp true last_new 0 0) r
        else
          let hint := Log_find_conflict_by_term (r_log r) prev_index t in
          send from (AppendResp false 0 hint t) r
    | None => send from (AppendResp false 0 (Log_last_index (r_log r) +64 1) 0) r
    end.

Definition handle_append_resp (from : NodeId) (success : bool) (match_index conflict_index : Index)
    (conflict_term : Term) (r : Raft) : Raft :=
  if bool_decide (r_role r <> Leader) then r
  else
    let last := Log_last_index (r_log r) in
    match r_progress r !! from with
    | None => r
    | Some p =>
        if success then
          let p := if p_matched p <=? match_index
                   then mkProgress (match_index +64 1) match_index Replicate 0 0 true
                   else set_active true p in
          let r := r |> set_progress (<[from := p]> (r_progress r)) |> maybe_advance_commit in
          let behind := match r_progress r !! from with Some p => p_matched p <? last | None => false end in
          if behind then send_append_to from r else r
        else
          let next := if 0 <? conflict_term
                      then Log_find_conflict_by_term (r_log r) conflict_index conflict_term +64 1
                      else Z.max conflict_index 1 in
          let p := mkProgress (Z.min (Z.max next (p_matched p +64 1)) (last +64 1)) (p_matched p)
                     Probe (p_pending_snapshot p) (p_pending_snapshot_age p) true in
          r |> set_progress (<[from := p]> (r_progress r)) |> send_append_to from
    end.

Definition handle_snapshot (from : NodeId) (snapshot : Snapshot) (r : Raft) : Raft :=
  let r := follow from r in
  if sn_last_index snapshot <=? r_commit r then send from (SnapshotResp true (r_commit r)) r
  else
    let index := sn_last_index snapshot in
    let r := r |> set_log (Log_install_snapshot (r_log r) snapshot)
               |> set_commit (Z.max (r_commit r) index)
               |> set_applied index |> set_hard_state_dirty true in
    r |> set_dirty_from (if index <? Log_last_index (r_log r) then Some (index +64 1) else None)
      |> supersede_pending snapshot
      |> send from (SnapshotResp true index).

Definition handle_snapshot_resp (from : NodeId) (success : bool) (index : Index) (r : Raft) : Raft :=
  if bool_decide (r_role r <> Leader) then r
  else
    match r_progress r !! from with
    | None => r
    | Some p =>
        if success then
          let m := Z.max (p_matched p) index in
          r |> set_progress (<[from := mkProgress (m +64 1) m Probe 0 0 true]> (r_progress r))
            |> maybe_advance_commit
        else
          set_progress (<[from := mkProgress (p_next p) (p_matched p) Probe 0 0 true]> (r_progress r)) r
    end.

Definition handle_heartbeat (from : NodeId) (commit : Index) (ctx : Z) (r : Raft) : Raft :=
  let r := follow from r in
  r |> raise_commit (Z.min commit (Log_last_index (r_log r)))
    |> send from (HeartbeatResp ctx).

(** One pending read's round of [handle_heartbeat_resp]. *)
Definition ack_read (from : NodeId) (ctx : Z) (pr : PendingRead) : PendingRead :=
  if (pr_ctx pr =? ctx) || (ctx =? 0)
  then mkPendingRead (pr_ctx pr) (pr_index pr) (pr_acks pr ∪ {[from]}) else pr.

Definition handle_heartbeat_resp (from : NodeId) (ctx : Z) (r : Raft) : Raft :=
  if bool_decide (r_role r <> Leader) then r
  else
    let r := update_progress from (set_active true) r in
    let cfg := Log_config (r_log r) in
    let acked := map (ack_read from ctx) (r_pending_reads r) in
    let confirmed := filter (fun pr => (pr_ctx pr = ctx \/ ctx = 0)
                                       /\ Config_has_quorum cfg (pr_acks pr) = true) acked in
    let ready := map (fun pr => mkReadState (pr_ctx pr) (pr_index pr)) confirmed in
    let r := set_pending_reads acked r in
    match ready with
    | [] => r
    | _ =>
        let done := map rs_ctx ready in
        r |> set_pending_reads (filter (fun pr => pr_ctx pr ∉ done) acked)
          |> push_reads ready
          |> set_quorum_contact_elapsed 0
    end.

(** The dispatch at the end of [step]. *)
Definition handle (from : NodeId) (msg : Message) (r : Raft) : Raft :=
  match m_body msg with
  | PreVoteReq last_index last_term => handle_pre_vote_req from (m_term msg) last_index last_term r
  | PreVoteResp granted => handle_pre_vote_resp from (m_term msg) granted r
  | VoteReq last_index last_term => handle_vote_req from last_index last_term r
  | VoteResp granted => handle_vote_resp from granted r
  | AppendReq prev_index prev_term es commit => handle_append from prev_index prev_term es commit r
  | AppendResp success match_index conflict_index conflict_term =>
      handle_append_resp from success match_index conflict_index conflict_term r
  | SnapshotReq snapshot => handle_snapshot from snapshot r
  | SnapshotResp success index => handle_snapshot_resp from success index r
  | HeartbeatReq commit ctx => handle_heartbeat from commit ctx r
  | HeartbeatResp ctx => handle_heartbeat_resp from ctx r
  | TimeoutNow => if promotable r then campaign false r else r
  end.

(** The term rule at the head of [step]. *)
Definition adopt_term (from : NodeId) (msg : Message) (r : Raft) : Raft :=
  if (r_term r <? m_term msg) && negb (Message_is_pre_vote msg) then
    let leader := match m_body msg with VoteReq _ _ | VoteResp _ => None | _ => Some from end in
    become_follower (m_term msg) leader r
  else r.

Definition step (from : NodeId) (msg : Message) (r : Raft) : Raft :=
  let r := adopt_term from msg r in
  if m_term msg <? r_term r then
    match m_body msg with
    | AppendReq _ _ _ _ | HeartbeatReq _ _ => send from (AppendResp false 0 0 0) r
    | PreVoteReq _ _ => send from (PreVoteResp false) r
    | _ => r
    end
  else handle from msg r.

(** ** The [Ready] cycle *)

Definition ready (r : Raft) : Ready * Raft :=
  let p := r_pending r in
  let r := set_pending Ready_default r in
  let '(es, r) :=
    match r_dirty_from r with
    | Some from =>
        let from := Z.max from (Log_first_index (r_log r)) in
        (Log_entries_from (r_log r) from, set_dirty_from (Some from) r)
    | None => (rd_entries p, r)
    end in
  let '(hs, r) :=
    if r_hard_state_dirty r then
      let hs := Raft_hard_state r in
      let must_persist := negb (hs_term hs =? hs_term (r_persisted_hard_state r))
                          || bool_decide (hs_vote hs <> hs_vote (r_persisted_hard_state r)) in
      ((if must_persist then Some hs else rd_hard_state p), set_hard_state_dirty false r)
    else (rd_hard_state p, r) in
  let r := r |> set_commit (Z.min (r_commit r) (Log_last_index (r_log r))) in
  let r := r |> set_persisted (Z.min (r_persisted r) (Log_last_index (r_log r))) in
  let committed := if r_applied r <? r_commit r
                   then Log_slice (r_log r) (r_applied r +64 1) (r_commit r +64 1)
                   else rd_committed p in
  (mkReady hs es (rd_snapshot p) (rd_messages p) committed (rd_reads p), r).

Definition advance (rd : Ready) (r : Raft) : Raft :=
  let r := match rd_hard_state rd with Some hs => set_persisted_hard_state hs r | None => r end in
  let r := update_progress (r_id r) (fun p =>
             mkProgress (r_persisted r +64 1) (r_persisted r) (p_state p)
               (p_pending_snapshot p) (p_pending_snapshot_age p) (p_active p)) r in
  let r := if bool_decide (r_role r = Leader) then maybe_advance_commit r else r in
  let r := match last (rd_committed rd) with Some e => set_applied (e_index e) r | None => r end in
  set_dirty_from None r.

Definition truncate_to (r : Raft) : option Index := r_dirty_from r.

(** ** Snapshots *)

Definition snapshot_at_applied (data : list Z) (r : Raft) : option Snapshot :=
  let index := r_applied r in
  match Log_term_at (r_log r) index with
  | Some term => Some (mkSnapshot index term (Log_config (r_log r)) data)
  | None => None
  end.

Definition compact (snap : Snapshot) (r : Raft) : Raft :=
  set_log (Log_compact_through (r_log r) (sn_last_index snap) (sn_last_term snap) (sn_config snap)) r.

Definition should_snapshot (r : Raft) : bool :=
  o_snapshot_interval (r_opts r) <=? ssub (r_applied r) (snapshot_index (r_log r)).

Definition followers_needing_snapshot (r : Raft) : list NodeId :=
  filter (fun id => match r_progress r !! id with
                    | Some p => negb (id =? r_id r) && bool_decide (p_state p = PSnapshot)
                                && (p_pending_snapshot p =? 0)
                    | None => false
                    end = true) (sorted_keys (r_progress r)).

Definition send_snapshot (peer : NodeId) (snapshot : Snapshot) (r : Raft) : Raft :=
  r |> update_progress peer (fun p =>
         mkProgress (p_next p) (p_matched p) PSnapshot (sn_last_index snapshot) 0 (p_active p))
    |> send peer (SnapshotReq snapshot).

Definition is_enter_joint (e : Entry) : bool :=
  match e_kind e with KConfig (EnterJoint _ _) => true | _ => false end.

Definition maybe_finish_config_change (r : Raft) : option Index * Raft :=
  if bool_decide (r_role r <> Leader) then (None, r)
  else
    let cfg := Log_config (r_log r) in
    if negb (Config_is_joint cfg) then (None, r)
    else
      let joint_committed := existsb is_enter_joint
        (Log_slice (r_log r) (snapshot_index (r_log r) +64 1) (r_commit r +64 1)) in
      if negb joint_committed then (None, r) else propose_config LeaveJoint r.
