(* ===== verification/RaftNode.v ===== *)
(** * What one node guarantees, whatever it is fed

    [Input] lists every call the driver can make on a [Raft]; [apply_input] is
    its effect. The theorems here hold for every input to every state that
    satisfies the invariants, so for every schedule: terms never go back, a vote
    once cast in a term is never changed, a granted vote answers exactly the
    recorded vote, the commit index stays inside the log and moves only over
    entries a quorum holds, and everything a vote depends on is handed to the
    disk before the messages that reveal it. *)

From Stdlib Require Import ZArith Lia.
From stdpp Require Import base tactics list list_numbers gmap sets sorting.
From S2P Require Import Prelude Codec Types RaftLog Msg RaftState Raft.

Open Scope Z_scope.

(** ** Inputs *)

Inductive Input : Type :=
| ITick (rand : Z)
| IStep (from : NodeId) (m : Message)
| IPropose (data : list Z)
| IProposeConfig (change : ConfigChange)
| IFinishConfig
| IReadIndex
| ITransfer (target : NodeId)
| IStepDown
| IPersisted (index : Index)
| ICompact (data : list Z)
| ISendSnapshot (peer : NodeId) (s : Snapshot).

Definition apply_input (i : Input) (r : Raft) : Raft :=
  match i with
  | ITick rand => tick rand r
  | IStep from m => step from m r
  | IPropose data => (propose data r).2
  | IProposeConfig change => (propose_config change r).2
  | IFinishConfig => (maybe_finish_config_change r).2
  | IReadIndex => (read_index r).2
  | ITransfer target => (transfer_leadership target r).2
  | IStepDown => step_down r
  | IPersisted index => report_persisted index r
  | ICompact data =>
      match snapshot_at_applied data r with Some s => compact s r | None => r end
  | ISendSnapshot peer s => send_snapshot peer s r
  end.

(** ** Bookkeeping that touches no safety-relevant state *)

Abbreviation msgs r := (rd_messages (r_pending r)).

(** A message that neither asks for nor grants a vote, nor carries anything but
    entries of the sender's log. *)
Definition plain (l : Log) (b : Body) : Prop :=
  match b with
  | AppendReq _ _ es _ => Forall (fun e => e ∈ entries l) es
  | VoteResp g => g = false
  | VoteReq _ _ | SnapshotReq _ => False
  | _ => True
  end.

(** [quiet r r']: only progress slots, pending reads, timers and the message
    queue changed, and what was queued is [plain]. *)
Record quiet (r r' : Raft) : Prop := {
  q_id : r_id r' = r_id r;
  q_opts : r_opts r' = r_opts r;
  q_term : r_term r' = r_term r;
  q_vote : r_vote r' = r_vote r;
  q_log : r_log r' = r_log r;
  q_commit : r_commit r' = r_commit r;
  q_applied : r_applied r' = r_applied r;
  q_persisted : r_persisted r' = r_persisted r;
  q_role : r_role r' = r_role r;
  q_leader : r_leader r' = r_leader r;
  q_votes : r_votes r' = r_votes r;
  q_dirty : r_hard_state_dirty r' = r_hard_state_dirty r;
  q_phs : r_persisted_hard_state r' = r_persisted_hard_state r;
  q_hs : rd_hard_state (r_pending r') = rd_hard_state (r_pending r);
  q_msgs : exists ms, msgs r' = msgs r ++ ms /\ Forall (fun tm => plain (r_log r) (m_body tm.2)) ms
}.

#[export] Instance quiet_refl : Reflexive quiet.
Proof. intros r. split; try done. exists []. by rewrite app_nil_r. Qed.

#[export] Instance quiet_trans : Transitive quiet.
Proof.
  intros r1 r2 r3 H12 H23. destruct (q_msgs _ _ H12) as (ms & E & Hms).
  destruct (q_msgs _ _ H23) as (ms' & E' & Hms'). rewrite (q_log _ _ H12) in Hms'.
  destruct H12, H23. split; try congruence. exists (ms ++ ms').
  split; [by rewrite E', E, app_assoc|]. by apply Forall_app.
Qed.

Create HintDb raft discriminated.
#[export] Hint Constants Opaque : raft.

Ltac quiet_set := split; try done; exists []; by rewrite app_nil_r.

Lemma quiet_set_progress v r : quiet r (set_progress v r).
Proof. quiet_set. Qed.
Lemma quiet_set_heartbeat_elapsed v r : quiet r (set_heartbeat_elapsed v r).
Proof. quiet_set. Qed.
Lemma quiet_set_election_elapsed v r : quiet r (set_election_elapsed v r).
Proof. quiet_set. Qed.
Lemma quiet_set_quorum_contact v r : quiet r (set_quorum_contact_elapsed v r).
Proof. quiet_set. Qed.
Lemma quiet_set_pending_reads v r : quiet r (set_pending_reads v r).
Proof. quiet_set. Qed.
Lemma quiet_set_read_ctx v r : quiet r (set_read_ctx v r).
Proof. quiet_set. Qed.
Lemma quiet_set_committed v r : quiet r (set_committed_own_term v r).
Proof. quiet_set. Qed.
Lemma quiet_set_rand v r : quiet r (set_rand v r).
Proof. quiet_set. Qed.
Lemma quiet_set_timeout v r : quiet r (set_election_timeout v r).
Proof. quiet_set. Qed.
Lemma quiet_set_dirty_from v r : quiet r (set_dirty_from v r).
Proof. quiet_set. Qed.
Lemma quiet_push_reads v r : quiet r (push_reads v r).
Proof. quiet_set. Qed.

#[export] Hint Resolve quiet_set_progress quiet_set_heartbeat_elapsed quiet_set_election_elapsed
  quiet_set_quorum_contact quiet_set_pending_reads quiet_set_read_ctx quiet_set_committed
  quiet_set_rand quiet_set_timeout quiet_set_dirty_from quiet_push_reads : raft.

Lemma quiet_push to m r : plain (r_log r) (m_body m) -> quiet r (push_message to m r).
Proof.
  intros Hm. split; try done. exists [(to, m)]. split; [done|]. by repeat constructor.
Qed.

Lemma quiet_send to b r : plain (r_log r) b -> quiet r (send to b r).
Proof. intros H. by apply quiet_push. Qed.

Lemma quiet_update_progress id f r : quiet r (update_progress id f r).
Proof. unfold update_progress. destruct (r_progress r !! id); [apply quiet_set_progress|reflexivity]. Qed.

Lemma quiet_mark_dirty i r : quiet r (mark_dirty i r).
Proof. apply quiet_set_dirty_from. Qed.

#[export] Hint Resolve quiet_push quiet_send quiet_update_progress quiet_mark_dirty : raft.

(** Chains quiet updates. *)
Ltac quiet_step := first [ reflexivity | solve [auto with raft] | etransitivity; [|solve [auto with raft]] ].

Lemma slice_sub l a b : Forall (fun e => e ∈ entries l) (Log_slice l a b).
Proof.
  apply Forall_forall. intros e. unfold Log_slice.
  destruct (Log_slot l _) as [lo|]; [|by intros ?%elem_of_nil].
  destruct (if _ <? _ then _ else _) as [hi|]; [|by intros ?%elem_of_nil].
  destruct (_ <=? _)%nat; [by intros ?%elem_of_nil|].
  intros H. by eapply subseteq_drop, subseteq_take.
Qed.

Lemma quiet_send_append_to peer r : quiet r (send_append_to peer r).
Proof.
  unfold send_append_to. destruct (r_progress r !! peer) as [p|]; [|reflexivity].
  destruct (bool_decide _ && _); [reflexivity|]. cbv zeta.
  destruct (Log_term_at _ _) as [t|], (p_next p <? Log_first_index (r_log r));
    try apply quiet_update_progress.
  apply quiet_send. simpl. apply Forall_take, slice_sub.
Qed.
#[export] Hint Resolve quiet_send_append_to : raft.

Lemma quiet_fold {A} (f : Raft -> A -> Raft) (xs : list A) r :
  (forall r x, quiet r (f r x)) -> quiet r (fold_left f xs r).
Proof.
  intros Hf. revert r. induction xs as [|x xs IH]; intros r; simpl; [reflexivity|].
  etransitivity; [apply Hf|apply IH].
Qed.

Lemma quiet_send_to_peers f r : (forall peer r, quiet r (f peer r)) -> quiet r (send_to_peers f r).
Proof.
  intros Hf. apply quiet_fold. intros r' peer. destruct (negb _); [apply Hf|reflexivity].
Qed.

(** A request for votes only queues messages. *)
Definition queue (ms : list (NodeId * Message)) (r : Raft) : Raft :=
  let p := r_pending r in
  set_pending (mkReady (rd_hard_state p) (rd_entries p) (rd_snapshot p)
    (rd_messages p ++ ms) (rd_committed p) (rd_reads p)) r.

Lemma ask_peers a b r :
  exists ms, send_to_peers (fun peer => send peer (VoteReq a b)) r = queue ms r /\
    Forall (fun tm => tm.2 = mkMessage (r_term r) (VoteReq a b)) ms.
Proof.
  unfold send_to_peers. generalize (sorted_elements (Config_all_nodes (Log_config (r_log r)))) as l.
  intros l. revert r. induction l as [|peer l IH]; intros r; simpl.
  - exists []. split; [|done]. unfold queue. rewrite app_nil_r.
    assert (E : forall p, mkReady (rd_hard_state p) (rd_entries p) (rd_snapshot p) (rd_messages p)
      (rd_committed p) (rd_reads p) = p) by (by intros []).
    rewrite E. by destruct r.
  - destruct (negb _); [|apply IH]. destruct (IH (send peer (VoteReq a b) r)) as (ms & -> & Hms).
    exists ((peer, mkMessage (r_term r) (VoteReq a b)) :: ms). split; [|by constructor].
    unfold queue. simpl. by rewrite <- app_assoc.
Qed.

Lemma quiet_broadcast r : quiet r (broadcast_append r).
Proof. apply quiet_send_to_peers. auto with raft. Qed.

Lemma quiet_reset_progress r : quiet r (reset_progress_for_config r).
Proof. unfold reset_progress_for_config. etransitivity; [apply quiet_set_progress|apply quiet_update_progress]. Qed.

Lemma quiet_expire r : quiet r (expire_pending_snapshots r).
Proof.
  unfold expire_pending_snapshots. etransitivity; [apply quiet_set_progress|].
  apply quiet_fold. auto with raft.
Qed.

Lemma quiet_stir r : quiet r (stir r).2.
Proof. apply quiet_set_rand. Qed.

#[export] Hint Resolve quiet_broadcast quiet_reset_progress quiet_expire quiet_stir : raft.

(** ** Terms and votes *)

(** A ballot is a term with the vote cast in it. A later ballot has a larger
    term, or the same term and the same vote unless none was cast. *)
Abbreviation Ballot := (Term * option NodeId)%type.
Definition ballot (r : Raft) : Ballot := (r_term r, r_vote r).
Definition hs_ballot (h : HardState) : Ballot := (hs_term h, hs_vote h).

Definition later (b b' : Ballot) : Prop :=
  b.1 <= b'.1 /\ (b'.1 = b.1 -> b.2 <> None -> b'.2 = b.2).

#[export] Instance later_refl : Reflexive later.
Proof. intros b. split; [lia|done]. Qed.

#[export] Instance later_trans : Transitive later.
Proof.
  intros b1 b2 b3 [H1 E1] [H2 E2]. split; [lia|]. intros E Hv.
  rewrite E2; [apply E1; [lia|done]|lia|]. rewrite E1; [done|lia|done].
Qed.

Lemma later_term t v t' v' : t < t' -> later (t, v) (t', v').
Proof. intros H. split; simpl; lia. Qed.

Definition grants (m : Message) : Prop := m_body m = VoteResp true.
Definition asks (m : Message) : Prop := match m_body m with VoteReq _ _ => True | _ => False end.

(** [calm r r']: the ballot moved only forward, no granted vote was queued, and
    votes were asked for only in a new term, covered by a vote for oneself. *)
Record calm (r r' : Raft) : Prop := {
  c_id : r_id r' = r_id r;
  c_opts : r_opts r' = r_opts r;
  c_phs : r_persisted_hard_state r' = r_persisted_hard_state r;
  c_hs : rd_hard_state (r_pending r') = rd_hard_state (r_pending r);
  c_ballot : later (ballot r) (ballot r');
  c_msgs : exists ms, msgs r' = msgs r ++ ms /\ Forall (fun tm => ~ grants tm.2) ms /\
    forall to m, (to, m) ∈ ms -> asks m ->
      r_term r < m_term m /\ later (m_term m, Some (r_id r)) (ballot r')
}.

#[export] Instance calm_refl : Reflexive calm.
Proof.
  intros r. split; try done. exists []. split_and!; [by rewrite app_nil_r|done|]. by intros ?? ?%elem_of_nil.
Qed.

#[export] Instance calm_trans : Transitive calm.
Proof.
  intros r1 r2 r3 [Ei ?? ? B (ms & E & Hms & Ha)] [???? B' (ms' & E' & Hms' & Ha')].
  split; try congruence; [by etransitivity|]. exists (ms ++ ms').
  split_and!; [by rewrite E', E, app_assoc|by apply Forall_app|].
  intros to m [Hin|Hin]%elem_of_app Hm.
  - destruct (Ha to m Hin Hm) as [Ht Hl]. split; [done|]. by etransitivity.
  - destruct (Ha' to m Hin Hm) as [Ht Hl]. rewrite <- Ei. split; [|done]. destruct B as [B _]. simpl in B. lia.
Qed.

Lemma plain_not_grant l m : plain l (m_body m) -> ~ grants m.
Proof. unfold grants. intros H E. by rewrite E in H. Qed.

Lemma plain_not_ask l m : plain l (m_body m) -> ~ asks m.
Proof. unfold asks. intros H Ha. by destruct (m_body m). Qed.

Lemma quiet_calm r r' : quiet r r' -> calm r r'.
Proof.
  intros H. destruct (q_msgs _ _ H) as (ms & E & Hms). destruct H. split; try done.
  - unfold ballot. rewrite q_term0, q_vote0. reflexivity.
  - exists ms. split_and!; [done|eapply Forall_impl; [exact Hms|]; intros tm; apply plain_not_grant|].
    intros to m Hin Ha. rewrite Forall_forall in Hms. apply Hms, plain_not_ask in Hin. done.
Qed.

Ltac queued_nothing := exists []; split_and!; [by rewrite app_nil_r|done|by intros ?? ?%elem_of_nil].
Ltac calm_set := split; try done; queued_nothing.

Lemma calm_set_role v r : calm r (set_role v r).
Proof. calm_set. Qed.
Lemma calm_set_leader v r : calm r (set_leader v r).
Proof. calm_set. Qed.
Lemma calm_set_votes v r : calm r (set_votes v r).
Proof. calm_set. Qed.
Lemma calm_set_log v r : calm r (set_log v r).
Proof. calm_set. Qed.
Lemma calm_set_commit v r : calm r (set_commit v r).
Proof. calm_set. Qed.
Lemma calm_set_applied v r : calm r (set_applied v r).
Proof. calm_set. Qed.
Lemma calm_set_persisted v r : calm r (set_persisted v r).
Proof. calm_set. Qed.
Lemma calm_set_hard_state_dirty v r : calm r (set_hard_state_dirty v r).
Proof. calm_set. Qed.
Lemma calm_supersede s r : calm r (supersede_pending s r).
Proof. calm_set. Qed.
Lemma calm_push to m r : ~ grants m -> ~ asks m -> calm r (push_message to m r).
Proof.
  intros Hm Ha. split; try done. exists [(to, m)]. split_and!; [done|by repeat constructor|].
  by intros ? ? [= -> ->]%list_elem_of_singleton.
Qed.

(** Asking for votes in a new term, with one's own vote cast. *)
Lemma calm_ask_peers a b r0 r : calm r0 r -> r_term r0 < r_term r -> r_vote r = Some (r_id r) ->
  calm r0 (send_to_peers (fun peer => send peer (VoteReq a b)) r).
Proof.
  intros [Ei ??? B (ms0 & E & Hms0 & Ha)] Ht Hv. destruct (ask_peers a b r) as (ms & -> & Hms).
  rewrite Forall_forall in Hms. split; try done. exists (ms0 ++ ms). split_and!.
  - simpl. by rewrite E, app_assoc.
  - apply Forall_app. split; [done|]. apply Forall_forall. intros tm ->%Hms. done.
  - intros to m [Hin|Hin]%elem_of_app Hm; [by eapply Ha|]. apply Hms in Hin. simpl in Hin. subst m.
    simpl. split; [done|]. unfold ballot. simpl. by rewrite Hv, Ei.
Qed.

#[export] Hint Resolve quiet_calm calm_set_role calm_set_leader calm_set_votes calm_set_log
  calm_set_commit calm_set_applied calm_set_persisted calm_set_hard_state_dirty calm_supersede : raft.
#[export] Hint Extern 1 (plain _ _) => exact I : raft.

(** Peels the last update off a chain. *)
Ltac calm_chain := repeat first [ reflexivity | solve [auto with raft] | etransitivity; [|solve [auto with raft]] ].

Lemma calm_append es r : calm r (append_to_own_log es r).
Proof. unfold append_to_own_log. destruct es; calm_chain. Qed.

Lemma calm_advance_commit r : calm r (maybe_advance_commit r).
Proof.
  unfold maybe_advance_commit. destruct (_ <=? _); [reflexivity|].
  case_bool_decide; [reflexivity|]. calm_chain.
Qed.

Lemma calm_become_follower t l r : calm r (become_follower t l r).
Proof.
  unfold become_follower. destruct (Z.ltb_spec (r_term r) t) as [H|H]; [|calm_chain].
  split; try done.
  - by apply later_term.
  - queued_nothing.
Qed.

#[export] Hint Resolve calm_append calm_advance_commit calm_become_follower : raft.

Lemma calm_become_leader r : calm r (become_leader r).
Proof. unfold become_leader. calm_chain. Qed.

Lemma calm_draw r : calm r (campaign_draw r).
Proof. unfold campaign_draw, stir. calm_chain. Qed.

#[export] Hint Resolve calm_become_leader calm_draw : raft.

Lemma calm_send_to_peers f r : (forall peer r, quiet r (f peer r)) -> calm r (send_to_peers f r).
Proof. intros H. by apply quiet_calm, quiet_send_to_peers. Qed.

(** The [+ 1] of a campaign does not wrap. *)
Definition term_room (r : Raft) : Prop := 0 <= r_term r < U64 - 1.

Lemma calm_campaign_vote r : term_room r -> calm r (campaign_vote r).
Proof.
  intros Hr. unfold campaign_vote. set (r1 := campaign_draw r).
  assert (E1 : r_term r1 = r_term r) by done. cbv zeta.
  set (r2 := set_votes _ _).
  assert (H2 : calm r r2).
  { transitivity r1; [apply calm_draw|]. split; try done.
    - apply later_term. change (r_term r1 < r_term r1 +64 1).
      rewrite E1, wadd64_small; unfold term_room in Hr; lia.
    - queued_nothing. }
  destruct (tally _ _); [etransitivity; [exact H2|apply calm_become_leader]|].
  apply calm_ask_peers; [done| |done]. change (r_term r < r_term r1 +64 1).
  rewrite E1, wadd64_small; unfold term_room in Hr; lia.
Qed.

Lemma calm_campaign b r : term_room r -> calm r (campaign b r).
Proof.
  intros Hr. unfold campaign. destruct b; [|by apply calm_campaign_vote]. cbv zeta.
  set (r1 := campaign_draw r). assert (H1 : calm r r1) by apply calm_draw.
  assert (E1 : r_term r1 = r_term r) by done. clearbody r1.
  set (r2 := set_votes _ _). assert (H2 : calm r1 r2) by (unfold r2; calm_chain).
  assert (E2 : r_term r2 = r_term r1) by done. clearbody r2.
  transitivity r2; [by transitivity r1|]. destruct (tally _ _).
  - apply calm_campaign_vote. unfold term_room in *. lia.
  - apply calm_send_to_peers. intros. by apply quiet_push.
Qed.
#[export] Hint Resolve calm_campaign : raft.

Lemma calm_check_quorum r : calm r (check_quorum r).
Proof. unfold check_quorum. cbv zeta. destruct (Config_has_quorum _ _); calm_chain. Qed.

Lemma calm_follow from r : calm r (follow from r).
Proof. unfold follow. case_bool_decide; calm_chain. Qed.

Lemma calm_raise_commit c r : calm r (raise_commit c r).
Proof. unfold raise_commit. destruct (_ <? _); calm_chain. Qed.

#[export] Hint Resolve calm_check_quorum calm_follow calm_raise_commit : raft.

Lemma calm_tick rand r : term_room r -> calm r (tick rand r).
Proof.
  intros Hr. unfold tick. cbv zeta. set (r1 := set_election_elapsed _ _).
  assert (H1 : calm r r1) by (unfold r1; calm_chain).
  assert (E1 : r_term r1 = r_term r) by done. clearbody r1. transitivity r1; [done|].
  assert (Hel : calm r1 (if promotable r1 && (r_election_timeout r1 <=? r_election_elapsed r1)
    then start_election r1 else r1)).
  { destruct (_ && _); [|reflexivity]. apply calm_campaign. unfold term_room in *. lia. }
  destruct (r_role r1); try exact Hel. clear Hel.
  set (r2 := set_quorum_contact_elapsed _ _). assert (H2 : calm r1 r2) by (unfold r2; calm_chain).
  clearbody r2. set (r3 := if _ : bool then broadcast_append _ else _).
  assert (H3 : calm r2 r3) by (unfold r3; destruct (_ <=? _); calm_chain).
  clearbody r3. set (r4 := if _ : bool then check_quorum _ else _).
  assert (H4 : calm r3 r4) by (unfold r4; destruct (_ <=? _); calm_chain).
  clearbody r4. transitivity r4; [by transitivity r3; [transitivity r2|]|]. calm_chain.
Qed.

Lemma calm_propose data r : calm r (propose data r).2.
Proof. unfold propose. case_bool_decide; simpl; calm_chain. Qed.

Lemma calm_propose_config change r : calm r (propose_config change r).2.
Proof.
  unfold propose_config. case_bool_decide; [reflexivity|]. cbv zeta.
  set (refused := match change with EnterJoint _ _ => _ | LeaveJoint => _ end). clearbody refused.
  destruct refused; [reflexivity|]. destruct (existsb _ _); [reflexivity|]. cbn [snd]. calm_chain.
Qed.

Lemma calm_finish r : calm r (maybe_finish_config_change r).2.
Proof.
  unfold maybe_finish_config_change. case_bool_decide; [reflexivity|]. cbv zeta.
  destruct (negb _); [reflexivity|]. destruct (negb _); [reflexivity|]. apply calm_propose_config.
Qed.

Lemma quiet_read_index r : quiet r (read_index r).2.
Proof.
  unfold read_index. case_bool_decide; [reflexivity|]. destruct (negb _); [reflexivity|]. cbv zeta.
  destruct (Config_has_quorum _ _); cbn [snd].
  - etransitivity; [|apply quiet_push_reads]. apply quiet_set_read_ctx.
  - etransitivity; [|apply quiet_send_to_peers; intros; by apply quiet_send].
    etransitivity; [|apply quiet_set_pending_reads]. apply quiet_set_read_ctx.
Qed.

Lemma quiet_transfer t r : quiet r (transfer_leadership t r).2.
Proof.
  unfold transfer_leadership. destruct (_ || _); [reflexivity|]. destruct (negb _); [reflexivity|].
  by apply quiet_send.
Qed.

Lemma calm_step_down r : calm r (step_down r).
Proof. unfold step_down. case_bool_decide; calm_chain. Qed.

Lemma calm_send_snapshot peer s r : calm r (send_snapshot peer s r).
Proof.
  unfold send_snapshot, send. etransitivity; [|apply calm_push; [done|by intros ?]]. auto with raft.
Qed.

(** ** Message handlers *)

Lemma quiet_pre_vote_req from t i lt r : quiet r (handle_pre_vote_req from t i lt r).
Proof. by apply quiet_push. Qed.

Lemma calm_pre_vote_resp from t g r : term_room r -> calm r (handle_pre_vote_resp from t g r).
Proof.
  intros Hr. unfold handle_pre_vote_resp. case_bool_decide; [reflexivity|].
  destruct (_ && _); [auto with raft|]. cbv zeta. set (r1 := set_votes _ _).
  assert (H1 : calm r r1) by apply calm_set_votes. assert (E1 : r_term r1 = r_term r) by done.
  clearbody r1. transitivity r1; [done|].
  destruct (tally _ _); [apply calm_campaign; unfold term_room in *; lia|].
  destruct (lost _ _); auto with raft. reflexivity.
Qed.

Lemma calm_vote_resp from g r : calm r (handle_vote_resp from g r).
Proof.
  unfold handle_vote_resp. case_bool_decide; [reflexivity|]. cbv zeta. set (r1 := set_votes _ _).
  transitivity r1; [apply calm_set_votes|]. destruct (tally _ _); [auto with raft|].
  destruct (lost _ _); auto with raft. reflexivity.
Qed.

Lemma calm_handle_append from pi pt es c r : calm r (handle_append from pi pt es c r).
Proof.
  unfold handle_append. cbv zeta. set (r1 := follow from r).
  transitivity r1; [apply calm_follow|]. clearbody r1.
  destruct (_ <? _); [by apply quiet_calm, quiet_send|].
  destruct (Log_term_at _ _) as [t|]; [|by apply quiet_calm, quiet_send].
  destruct (_ =? _); [|by apply quiet_calm, quiet_send].
  destruct (Log_merge (r_log r1) pi es) as [log last_new].
  set (r2 := set_log log r1). set (r3 := match es with [] => r2 | _ => _ end).
  assert (H3 : calm r1 r3) by (unfold r3, r2; destruct es; calm_chain). clearbody r3.
  set (r4 := raise_commit _ r3). assert (H4 : calm r3 r4) by apply calm_raise_commit. clearbody r4.
  set (r5 := if _ : bool then _ else r4).
  assert (H5 : calm r4 r5) by (unfold r5; destruct (_ <? _); calm_chain). clearbody r5.
  transitivity r5; [by transitivity r4; [transitivity r3|]|]. by apply quiet_calm, quiet_send.
Qed.

Lemma calm_append_resp from s mi ci ct r : calm r (handle_append_resp from s mi ci ct r).
Proof.
  unfold handle_append_resp. case_bool_decide; [reflexivity|]. cbv zeta.
  destruct (r_progress r !! from) as [p|]; [|reflexivity]. destruct s; [|calm_chain].
  set (r1 := maybe_advance_commit _). assert (H1 : calm r r1) by (unfold r1; calm_chain).
  clearbody r1. transitivity r1; [done|].
  destruct (r_progress r1 !! from) as [q|]; [destruct (_ <? _)|]; auto with raft; reflexivity.
Qed.

Lemma calm_handle_snapshot from s r : calm r (handle_snapshot from s r).
Proof.
  unfold handle_snapshot. cbv zeta. set (r1 := follow from r).
  transitivity r1; [apply calm_follow|]. clearbody r1.
  destruct (_ <=? _); [by apply quiet_calm, quiet_send|]. calm_chain.
Qed.

Lemma calm_snapshot_resp from s i r : calm r (handle_snapshot_resp from s i r).
Proof.
  unfold handle_snapshot_resp. case_bool_decide; [reflexivity|].
  destruct (r_progress r !! from) as [p|]; [|reflexivity]. destruct s; calm_chain.
Qed.

Lemma calm_heartbeat from c x r : calm r (handle_heartbeat from c x r).
Proof. unfold handle_heartbeat. calm_chain. Qed.

Lemma quiet_heartbeat_resp from x r : quiet r (handle_heartbeat_resp from x r).
Proof.
  unfold handle_heartbeat_resp. case_bool_decide; [reflexivity|]. cbv zeta.
  set (r1 := update_progress _ _ _). transitivity r1; [apply quiet_update_progress|]. clearbody r1.
  destruct (map _ (filter _ _)); [auto with raft|].
  etransitivity; [|apply quiet_set_quorum_contact]. etransitivity; [|apply quiet_push_reads].
  etransitivity; apply quiet_set_pending_reads.
Qed.

(** [evolves r r']: the ballot moved only forward, every granted vote that was
    queued is for the vote recorded in the term it names, the current one, and a
    vote asked for is covered as in [calm]. *)
Record evolves (r r' : Raft) : Prop := {
  ev_id : r_id r' = r_id r;
  ev_phs : r_persisted_hard_state r' = r_persisted_hard_state r;
  ev_hs : rd_hard_state (r_pending r') = rd_hard_state (r_pending r);
  ev_ballot : later (ballot r) (ballot r');
  ev_msgs : exists ms, msgs r' = msgs r ++ ms /\
    (forall to m, (to, m) ∈ ms -> grants m -> m_term m = r_term r' /\ r_vote r' = Some to) /\
    forall to m, (to, m) ∈ ms -> asks m ->
      r_term r < m_term m /\ later (m_term m, Some (r_id r)) (ballot r')
}.

Lemma calm_evolves r r' : calm r r' -> evolves r r'.
Proof.
  intros [??? ? B (ms & E & Hms & Ha)]. split; try done. exists ms. split_and!; [done| |done].
  intros to m Hin Hg. rewrite Forall_forall in Hms. by apply (Hms (to, m)) in Hin.
Qed.

Lemma calm_then r1 r2 r3 : calm r1 r2 -> evolves r2 r3 -> evolves r1 r3.
Proof.
  intros [Ei ?? ? B (ms & E & Hms & Ha)] [??? B' (ms' & E' & Hms' & Ha')].
  split; try congruence; [by etransitivity|]. exists (ms ++ ms').
  split_and!; [by rewrite E', E, app_assoc|..]; intros to m [Hin|Hin]%elem_of_app Hg.
  - rewrite Forall_forall in Hms. by apply (Hms (to, m)) in Hin.
  - by apply Hms'.
  - destruct (Ha to m Hin Hg) as [Ht Hl]. split; [done|]. by etransitivity.
  - destruct (Ha' to m Hin Hg) as [Ht Hl]. rewrite <- Ei. split; [|done]. destruct B as [B _]. simpl in B. lia.
Qed.

Lemma evolves_vote_req from i t r : evolves r (handle_vote_req from i t r).
Proof.
  unfold handle_vote_req. cbv zeta. set (can := match r_vote r with None => true | Some v => _ end).
  destruct (can && _) eqn:G.
  - apply andb_true_iff in G as [Hcan _]. split; try done.
    + split; [done|]. simpl. intros _ Hv. unfold can in Hcan.
      destruct (r_vote r) as [v|]; [|done]. apply Z.eqb_eq in Hcan. by subst.
    + eexists. split_and!; [done|..]; intros to m Hin ?; apply list_elem_of_singleton in Hin;
        by injection Hin as -> ->.
  - apply calm_evolves, quiet_calm. by apply quiet_send.
Qed.

Lemma calm_handle from m r : term_room r -> ~ asks m -> calm r (handle from m r).
Proof.
  intros Hr Ha. unfold handle. unfold asks in Ha. destruct (m_body m); try done;
    auto using quiet_calm, quiet_pre_vote_req, calm_pre_vote_resp, calm_vote_resp, calm_handle_append,
      calm_append_resp, calm_handle_snapshot, calm_snapshot_resp, calm_heartbeat,
      quiet_heartbeat_resp.
  destruct (promotable r); [by apply calm_campaign|reflexivity].
Qed.

#[export] Instance asks_dec m : Decision (asks m).
Proof. unfold asks. destruct (m_body m); apply _. Defined.

Lemma evolves_handle from m r : term_room r -> evolves r (handle from m r).
Proof.
  intros Hr. destruct (decide (asks m)) as [Ha|Ha]; [|by apply calm_evolves, calm_handle].
  unfold handle. unfold asks in Ha. destruct (m_body m); try done. apply evolves_vote_req.
Qed.

Lemma calm_adopt from m r : calm r (adopt_term from m r).
Proof. unfold adopt_term. destruct (_ && _); [apply calm_become_follower|reflexivity]. Qed.

Lemma adopt_term_term from m r :
  r_term (adopt_term from m r) = if Message_is_pre_vote m then r_term r else Z.max (r_term r) (m_term m).
Proof.
  unfold adopt_term, become_follower. destruct (Message_is_pre_vote m).
  - by rewrite andb_false_r.
  - rewrite andb_true_r. destruct (Z.ltb_spec (r_term r) (m_term m)); simpl; lia.
Qed.

(** No term involved reaches the top of [u64]. *)
Definition input_room (i : Input) (r : Raft) : Prop :=
  term_room r /\ match i with IStep _ m => m_term m < U64 - 1 | _ => True end.

#[export] Instance input_room_dec i r : Decision (input_room i r).
Proof. unfold input_room, term_room. destruct i; apply _. Defined.

Lemma adopt_room from m r : input_room (IStep from m) r -> term_room (adopt_term from m r).
Proof.
  intros [Hr Hm]. unfold term_room in *. rewrite adopt_term_term. destruct (Message_is_pre_vote m); lia.
Qed.

Lemma evolves_step from m r : input_room (IStep from m) r -> evolves r (step from m r).
Proof.
  intros Hr. unfold step. cbv zeta. apply (calm_then r (adopt_term from m r)); [apply calm_adopt|].
  pose proof (adopt_room from m r Hr) as Hr1. set (r1 := adopt_term from m r) in *. clearbody r1.
  destruct (_ <? _); [|by apply evolves_handle].
  apply calm_evolves, quiet_calm. destruct (m_body m); try reflexivity; by apply quiet_send.
Qed.

Lemma evolves_input i r : input_room i r -> evolves r (apply_input i r).
Proof.
  intros Hr. destruct i; simpl; try (by apply evolves_step); apply calm_evolves;
    auto using quiet_calm, calm_propose, calm_propose_config, calm_finish, quiet_read_index,
      quiet_transfer, calm_step_down, calm_send_snapshot with raft.
  - apply calm_tick, Hr.
  - unfold report_persisted. auto with raft.
  - destruct (snapshot_at_applied _ _); [|reflexivity]. unfold compact. auto with raft.
Qed.

(** A granted vote answers a request of the same term from the same candidate. *)
Lemma calm_no_grant r r' to m : calm r r' -> (to, m) ∈ msgs r' -> grants m -> (to, m) ∈ msgs r.
Proof.
  intros H. destruct (c_msgs _ _ H) as (ms & -> & Hms & _). rewrite Forall_forall in Hms.
  intros [Hin|Hin]%elem_of_app Hg; [done|]. by apply Hms in Hin.
Qed.

Lemma calm_input i r : input_room i r ->
  (forall from m, i = IStep from m -> ~ asks m) -> calm r (apply_input i r).
Proof.
  intros Hr Ha. destruct i as [rand|from m| | | | | | | | |]; simpl;
    auto using quiet_calm, calm_propose, calm_propose_config, calm_finish, quiet_read_index,
      quiet_transfer, calm_step_down, calm_send_snapshot with raft.
  - apply calm_tick, Hr.
  - unfold step. cbv zeta. transitivity (adopt_term from m r); [apply calm_adopt|].
    pose proof (adopt_room from m r Hr) as Hr1. set (r1 := adopt_term from m r) in *. clearbody r1.
    destruct (_ <? _); [|by apply calm_handle; [|eapply Ha]].
    apply quiet_calm. destruct (m_body m); try reflexivity; by apply quiet_send.
  - unfold report_persisted. auto with raft.
  - destruct (snapshot_at_applied _ _); [|reflexivity]. unfold compact. auto with raft.
Qed.

Lemma grant_answers i r to m : input_room i r -> (to, m) ∈ msgs (apply_input i r) -> grants m ->
  (to, m) ∈ msgs r \/ exists m0, i = IStep to m0 /\ asks m0 /\ m_term m0 = m_term m.
Proof.
  intros Hr Hin Hg. assert (Hcalm : (forall from m, i = IStep from m -> ~ asks m) -> (to, m) ∈ msgs r).
  { intros H. by eapply calm_no_grant; [apply (calm_input i r)|..]. }
  destruct i as [rand|from m0| | | | | | | | |]; try (left; by apply Hcalm). clear Hcalm.
  destruct (decide (asks m0)) as [Ha|Ha]; [|left; eapply calm_no_grant; [apply (calm_input (IStep from m0) r)|..];
    try done; by intros ? ? [= -> ->]].
  simpl in Hin. unfold step in Hin. cbv zeta in Hin. pose proof (adopt_term_term from m0 r) as Et.
  assert (Hback : forall r', quiet (adopt_term from m0 r) r' -> (to, m) ∈ msgs r' -> (to, m) ∈ msgs r).
  { intros r' Hq Hin'. eapply calm_no_grant; [|exact Hin'|done].
    etransitivity; [apply calm_adopt|by apply quiet_calm]. }
  set (r1 := adopt_term from m0 r) in *. pose proof Ha as Ha0. unfold asks in Ha.
  destruct (Z.ltb_spec (m_term m0) (r_term r1)) as [L|L].
  - left. eapply Hback; [|exact Hin]. destruct (m_body m0); try done; by apply quiet_send.
  - unfold handle in Hin. unfold Message_is_pre_vote in Et. destruct (m_body m0) as [| |i t| | | | | | | |]; try done.
    unfold handle_vote_req in Hin. cbv zeta in Hin. destruct (_ && _).
    + apply elem_of_app in Hin as [Hin|[= -> ->]%list_elem_of_singleton].
      * left. eapply (Hback r1); [reflexivity|exact Hin].
      * right. exists m0. split_and!; [done|done|simpl; lia].
    + left. eapply Hback; [|exact Hin]. by apply quiet_send.
Qed.

(** A node's term never decreases, and within a term a vote once cast is
    never withdrawn or changed, whatever the node is fed: ticks, messages of any
    kind in any order, proposals, reads, transfers, compaction. *)
Theorem ballot_only_moves_forward i r :
  input_room i r ->
  r_term r <= r_term (apply_input i r) /\
  (forall v, r_term (apply_input i r) = r_term r -> r_vote r = Some v ->
     r_vote (apply_input i r) = Some v).
Proof.
  intros Hr. destruct (ev_ballot _ _ (evolves_input i r Hr)) as [H1 H2]. simpl in *.
  split; [done|]. intros v E Hv. by rewrite H2, Hv by (done || congruence).
Qed.

Definition demo_opts : RaftOptions := RaftOptions_default.
Definition demo_config : Config := Config_simple [1; 2; 3].
Definition demo_node : Raft := Raft_new 1 demo_config demo_opts.

Lemma ballot_only_moves_forward_witness :
  r_term demo_node <= r_term (apply_input (IStep 2 (mkMessage 5 (VoteReq 0 0))) demo_node) /\
  (forall v, r_term (apply_input (IStep 2 (mkMessage 5 (VoteReq 0 0))) demo_node) = r_term demo_node ->
     r_vote demo_node = Some v ->
     r_vote (apply_input (IStep 2 (mkMessage 5 (VoteReq 0 0))) demo_node) = Some v).
Proof. apply (ballot_only_moves_forward (IStep 2 (mkMessage 5 (VoteReq 0 0)))). by_decide. Defined.

(** A node grants a vote only by recording it. Every granted [VoteResp] an
    input queues names the node's term after that input and is addressed to the
    candidate its vote is then recorded for. *)
Theorem granted_votes_are_recorded i r :
  input_room i r ->
  exists ms, msgs (apply_input i r) = msgs r ++ ms /\
    forall to m, (to, m) ∈ ms -> m_body m = VoteResp true ->
      m_term m = r_term (apply_input i r) /\ r_vote (apply_input i r) = Some to.
Proof.
  intros Hr. destruct (ev_msgs _ _ (evolves_input i r Hr)) as (ms & E & Hg & _). by exists ms.
Qed.

Lemma granted_votes_are_recorded_witness :
  msgs (step 2 (mkMessage 5 (VoteReq 0 0)) demo_node) = [(2, mkMessage 5 (VoteResp true))] /\
  exists ms, msgs (apply_input (IStep 2 (mkMessage 5 (VoteReq 0 0))) demo_node) = msgs demo_node ++ ms /\
    forall to m, (to, m) ∈ ms -> m_body m = VoteResp true ->
      m_term m = r_term (apply_input (IStep 2 (mkMessage 5 (VoteReq 0 0))) demo_node) /\
      r_vote (apply_input (IStep 2 (mkMessage 5 (VoteReq 0 0))) demo_node) = Some to.
Proof. split; [vm_compute; reflexivity|]. apply granted_votes_are_recorded. by_decide. Defined.

(** ** Roles *)

(** A candidate or leader has voted for itself, a leader knows itself as the
    leader, and a clean [hard_state_dirty] flag means the ballot is the one the
    driver last persisted. *)
Record role_inv (r : Raft) : Prop := {
  ri_vote : r_role r = Candidate \/ r_role r = Leader -> r_vote r = Some (r_id r);
  ri_leader : r_role r = Leader -> r_leader r = Some (r_id r);
  ri_dirty : r_hard_state_dirty r = false -> hs_ballot (r_persisted_hard_state r) = ballot r
}.

(** [keeps r r']: role, leader and ballot are as before, and the dirty flag
    was not cleared. *)
Record keeps (r r' : Raft) : Prop := {
  k_id : r_id r' = r_id r;
  k_role : r_role r' = r_role r;
  k_leader : r_leader r' = r_leader r;
  k_term : r_term r' = r_term r;
  k_vote : r_vote r' = r_vote r;
  k_phs : r_persisted_hard_state r' = r_persisted_hard_state r;
  k_dirty : r_hard_state_dirty r' = false -> r_hard_state_dirty r = false
}.

#[export] Instance keeps_refl : Reflexive keeps.
Proof. intros r. by split. Qed.
#[export] Instance keeps_trans : Transitive keeps.
Proof. intros r1 r2 r3 [] []. split; try congruence. auto. Qed.

Lemma quiet_keeps r r' : quiet r r' -> keeps r r'.
Proof. intros []. split; try done. congruence. Qed.

Lemma keeps_role_inv r r' : keeps r r' -> role_inv r -> role_inv r'.
Proof.
  intros K [Hv Hl Hd]. split.
  - rewrite (k_role _ _ K), (k_vote _ _ K), (k_id _ _ K). exact Hv.
  - rewrite (k_role _ _ K), (k_leader _ _ K), (k_id _ _ K). exact Hl.
  - intros D. unfold ballot. rewrite (k_term _ _ K), (k_vote _ _ K), (k_phs _ _ K).
    by apply Hd, (k_dirty _ _ K).
Qed.

Lemma keeps_set_log v r : keeps r (set_log v r).
Proof. done. Qed.
Lemma keeps_set_votes v r : keeps r (set_votes v r).
Proof. done. Qed.
Lemma keeps_set_commit v r : keeps r (set_commit v r).
Proof. done. Qed.
Lemma keeps_set_applied v r : keeps r (set_applied v r).
Proof. done. Qed.
Lemma keeps_set_persisted v r : keeps r (set_persisted v r).
Proof. done. Qed.
Lemma keeps_set_dirty r : keeps r (set_hard_state_dirty true r).
Proof. done. Qed.
Lemma keeps_supersede s r : keeps r (supersede_pending s r).
Proof. done. Qed.
Lemma keeps_push to m r : keeps r (push_message to m r).
Proof. done. Qed.
Lemma keeps_send to b r : keeps r (send to b r).
Proof. done. Qed.

#[export] Hint Resolve quiet_keeps keeps_set_log keeps_set_votes keeps_set_commit keeps_set_applied
  keeps_set_persisted keeps_set_dirty keeps_supersede keeps_push keeps_send : raft.

Lemma keeps_append es r : keeps r (append_to_own_log es r).
Proof. unfold append_to_own_log. destruct es; calm_chain. Qed.

Lemma keeps_advance_commit r : keeps r (maybe_advance_commit r).
Proof.
  unfold maybe_advance_commit. destruct (_ <=? _); [reflexivity|].
  case_bool_decide; [reflexivity|]. calm_chain.
Qed.

Lemma keeps_raise_commit c r : keeps r (raise_commit c r).
Proof. unfold raise_commit. destruct (_ <? _); calm_chain. Qed.

#[export] Hint Resolve keeps_append keeps_advance_commit keeps_raise_commit : raft.

Lemma role_become_follower t l r : role_inv r -> role_inv (become_follower t l r).
Proof.
  intros [_ _ Hd]. unfold become_follower. split; simpl; [by intros [?|?]|done|].
  destruct (Z.ltb_spec (r_term r) t); simpl; [done|exact Hd].
Qed.

Lemma role_become_leader r : role_inv r -> r_vote r = Some (r_id r) -> role_inv (become_leader r).
Proof.
  intros [_ _ Hd] Hv. unfold become_leader. cbv zeta.
  set (r1 := reset_progress_for_config _). assert (H1 : role_inv r1).
  { eapply keeps_role_inv; [apply quiet_keeps, quiet_reset_progress|]. by split. }
  clearbody r1. eapply keeps_role_inv; [|exact H1]. calm_chain.
Qed.

Lemma role_campaign_vote r : role_inv r -> role_inv (campaign_vote r).
Proof.
  intros H. unfold campaign_vote. cbv zeta. set (r1 := campaign_draw r). clearbody r1.
  set (r2 := set_votes _ _). assert (H2 : role_inv r2 /\ r_vote r2 = Some (r_id r2)).
  { split; [|done]. by split. }
  clearbody r2. destruct H2 as [H2 Hv]. destruct (tally _ _); [by apply role_become_leader|].
  eapply keeps_role_inv; [|exact H2]. destruct (ask_peers (Log_last_index (r_log r1)) (Log_last_term (r_log r1)) r2) as (ms & -> & _). by split.
Qed.

Lemma role_campaign b r : role_inv r -> role_inv (campaign b r).
Proof.
  intros H. unfold campaign. destruct b; [|by apply role_campaign_vote]. cbv zeta.
  set (r1 := campaign_draw r). assert (H1 : role_inv r1).
  { eapply keeps_role_inv; [|exact H]. unfold r1, campaign_draw, stir. calm_chain. }
  clearbody r1. set (r2 := set_votes _ _). assert (H2 : role_inv r2).
  { destruct H1 as [_ _ Hd]. split; [by intros [?|?]|done|exact Hd]. }
  clearbody r2. destruct (tally _ _); [by apply role_campaign_vote|].
  eapply keeps_role_inv; [|exact H2]. apply quiet_keeps, quiet_send_to_peers. auto with raft.
Qed.

Lemma role_check_quorum r : role_inv r -> role_inv (check_quorum r).
Proof.
  intros H. unfold check_quorum. cbv zeta. set (r1 := set_progress _ r).
  assert (H1 : role_inv r1) by (eapply keeps_role_inv; [|exact H]; unfold r1; auto with raft).
  clearbody r1. destruct (Config_has_quorum _ _); [|by apply role_become_follower].
  eapply keeps_role_inv; [|exact H1]. auto with raft.
Qed.

Lemma role_tick rand r : role_inv r -> role_inv (tick rand r).
Proof.
  intros H. unfold tick. cbv zeta. set (r1 := set_election_elapsed _ _).
  assert (H1 : role_inv r1) by (eapply keeps_role_inv; [|exact H]; unfold r1; calm_chain).
  clearbody r1.
  assert (Hel : role_inv (if promotable r1 && (r_election_timeout r1 <=? r_election_elapsed r1)
    then start_election r1 else r1)) by (destruct (_ && _); [by apply role_campaign|done]).
  destruct (r_role r1); try exact Hel. clear Hel.
  set (r2 := set_quorum_contact_elapsed _ _).
  assert (H2 : role_inv r2) by (eapply keeps_role_inv; [|exact H1]; unfold r2; calm_chain).
  clearbody r2. set (r3 := if _ : bool then broadcast_append _ else _).
  assert (H3 : role_inv r3)
    by (eapply keeps_role_inv; [|exact H2]; unfold r3; destruct (_ <=? _); calm_chain).
  clearbody r3. set (r4 := if _ : bool then check_quorum _ else _). assert (H4 : role_inv r4).
  { unfold r4. destruct (_ <=? _); [|done]. apply role_check_quorum.
    eapply keeps_role_inv; [|exact H3]. auto with raft. }
  clearbody r4. eapply keeps_role_inv; [|exact H4]. auto with raft.
Qed.

Lemma role_set_leader v r : role_inv r -> r_role r = Follower -> role_inv (set_leader v r).
Proof.
  intros [_ _ Hd] E. split; [| |exact Hd].
  - change (r_role (set_leader v r)) with (r_role r). rewrite E. by intros [?|?].
  - change (r_role (set_leader v r)) with (r_role r). by rewrite E.
Qed.

Lemma role_follow from r : role_inv r -> role_inv (follow from r) /\ r_role (follow from r) = Follower.
Proof.
  intros H. unfold follow. cbv zeta. set (r1 := if _ : bool then _ else r).
  assert (H1 : role_inv r1 /\ r_role r1 = Follower).
  { unfold r1. case_bool_decide as D; [by split; [apply role_become_follower|]|].
    by split. }
  clearbody r1. destruct H1 as [H1 E1]. split; [|exact E1].
  eapply keeps_role_inv; [apply quiet_keeps, quiet_set_election_elapsed|].
  by apply role_set_leader.
Qed.

Lemma role_pre_vote_resp from t g r : role_inv r -> role_inv (handle_pre_vote_resp from t g r).
Proof.
  intros H. unfold handle_pre_vote_resp. case_bool_decide; [done|].
  destruct (_ && _); [by apply role_become_follower|]. cbv zeta. set (r1 := set_votes _ _).
  assert (H1 : role_inv r1) by (eapply keeps_role_inv; [|exact H]; unfold r1; auto with raft).
  clearbody r1. destruct (tally _ _); [by apply role_campaign|]. destruct (lost _ _); [|done].
  destruct H1 as [_ _ Hd]. split; [by intros [?|?]|done|exact Hd].
Qed.

Lemma role_vote_req from i t r : role_inv r -> role_inv (handle_vote_req from i t r).
Proof.
  intros H. unfold handle_vote_req. cbv zeta.
  set (can := match r_vote r with None => true | Some v => _ end).
  eapply keeps_role_inv; [apply keeps_send|]. destruct (can && _) eqn:G; [|done].
  apply andb_true_iff in G as [Hcan _]. unfold can in Hcan. destruct H as [Hv Hl Hd].
  split; [|exact Hl|done]. intros Hr. apply Hv in Hr. rewrite Hr in Hcan.
  apply Z.eqb_eq in Hcan. by rewrite <- Hcan.
Qed.

Lemma role_vote_resp from g r : role_inv r -> role_inv (handle_vote_resp from g r).
Proof.
  intros H. unfold handle_vote_resp. case_bool_decide as D; [done|].
  cbv zeta. set (r1 := set_votes _ _).
  assert (H1 : role_inv r1) by (eapply keeps_role_inv; [|exact H]; unfold r1; auto with raft).
  assert (E1 : r_role r1 = Candidate) by exact D. clearbody r1.
  destruct (tally _ _); [apply role_become_leader; [done|]; apply H1; auto|].
  destruct (lost _ _); [by apply role_become_follower|done].
Qed.

Lemma role_handle_append from pi pt es c r : role_inv r -> role_inv (handle_append from pi pt es c r).
Proof.
  intros H. unfold handle_append. cbv zeta. destruct (role_follow from r H) as [H1 _].
  eapply keeps_role_inv; [|exact H1]. set (r1 := follow from r). clearbody r1.
  destruct (_ <? _); [auto with raft|].
  destruct (Log_term_at _ _) as [t|]; [|auto with raft]. destruct (_ =? _); [|auto with raft].
  destruct (Log_merge (r_log r1) pi es) as [log last_new].
  set (r2 := set_log log r1). set (r3 := match es with [] => r2 | _ => _ end).
  assert (H3 : keeps r1 r3) by (unfold r3, r2; destruct es; calm_chain). clearbody r3.
  set (r4 := raise_commit _ r3). assert (H4 : keeps r3 r4) by apply keeps_raise_commit. clearbody r4.
  set (r5 := if _ : bool then _ else r4).
  assert (H5 : keeps r4 r5) by (unfold r5; destruct (_ <? _); calm_chain). clearbody r5.
  transitivity r5; [by transitivity r4; [transitivity r3|]|]. auto with raft.
Qed.

Lemma keeps_append_resp from s mi ci ct r : keeps r (handle_append_resp from s mi ci ct r).
Proof.
  unfold handle_append_resp. case_bool_decide; [reflexivity|]. cbv zeta.
  destruct (r_progress r !! from) as [p|]; [|reflexivity]. destruct s; [|calm_chain].
  set (r1 := maybe_advance_commit _). assert (H1 : keeps r r1) by (unfold r1; calm_chain).
  clearbody r1. transitivity r1; [done|].
  destruct (r_progress r1 !! from) as [q|]; [destruct (_ <? _)|]; auto with raft; reflexivity.
Qed.

Lemma role_handle_snapshot from s r : role_inv r -> role_inv (handle_snapshot from s r).
Proof.
  intros H. unfold handle_snapshot. cbv zeta. destruct (role_follow from r H) as [H1 _].
  eapply keeps_role_inv; [|exact H1]. set (r1 := follow from r). clearbody r1.
  destruct (_ <=? _); [auto with raft|]. calm_chain.
Qed.

Lemma keeps_snapshot_resp from s i r : keeps r (handle_snapshot_resp from s i r).
Proof.
  unfold handle_snapshot_resp. case_bool_decide; [reflexivity|].
  destruct (r_progress r !! from) as [p|]; [|reflexivity]. destruct s; calm_chain.
Qed.

Lemma role_heartbeat from c x r : role_inv r -> role_inv (handle_heartbeat from c x r).
Proof.
  intros H. unfold handle_heartbeat. cbv zeta. destruct (role_follow from r H) as [H1 _].
  eapply keeps_role_inv; [|exact H1]. calm_chain.
Qed.

Lemma role_step from m r : role_inv r -> role_inv (step from m r).
Proof.
  intros H. unfold step. cbv zeta. assert (H1 : role_inv (adopt_term from m r)).
  { unfold adopt_term. destruct (_ && _); [by apply role_become_follower|done]. }
  set (r1 := adopt_term from m r) in *. clearbody r1. destruct (_ <? _).
  - destruct (m_body m); try done; (eapply keeps_role_inv; [apply keeps_send|exact H1]).
  - unfold handle. destruct (m_body m);
      auto using role_pre_vote_resp, role_vote_req, role_vote_resp, role_handle_append,
        role_handle_snapshot, role_heartbeat.
    + eapply keeps_role_inv; [|exact H1]. apply quiet_keeps, quiet_pre_vote_req.
    + eapply keeps_role_inv; [|exact H1]. apply keeps_append_resp.
    + eapply keeps_role_inv; [|exact H1]. apply keeps_snapshot_resp.
    + eapply keeps_role_inv; [|exact H1]. apply quiet_keeps, quiet_heartbeat_resp.
    + destruct (promotable r1); [by apply role_campaign|done].
Qed.

Lemma keeps_propose data r : keeps r (propose data r).2.
Proof. unfold propose. case_bool_decide; simpl; calm_chain. Qed.

Lemma keeps_propose_config change r : keeps r (propose_config change r).2.
Proof.
  unfold propose_config. case_bool_decide; [reflexivity|]. cbv zeta.
  set (refused := match change with EnterJoint _ _ => _ | LeaveJoint => _ end). clearbody refused.
  destruct refused; [reflexivity|]. destruct (existsb _ _); [reflexivity|]. cbn [snd]. calm_chain.
Qed.

Lemma keeps_finish r : keeps r (maybe_finish_config_change r).2.
Proof.
  unfold maybe_finish_config_change. case_bool_decide; [reflexivity|]. cbv zeta.
  destruct (negb _); [reflexivity|]. destruct (negb _); [reflexivity|]. apply keeps_propose_config.
Qed.

Lemma role_step_down r : role_inv r -> role_inv (step_down r).
Proof. intros H. unfold step_down. case_bool_decide; [by apply role_become_follower|done]. Qed.

Lemma role_input i r : role_inv r -> role_inv (apply_input i r).
Proof.
  intros H. destruct i; simpl; auto using role_tick, role_step, role_step_down;
    try (eapply keeps_role_inv; [|exact H]);
    auto using quiet_keeps, keeps_propose, keeps_propose_config, keeps_finish, quiet_read_index, quiet_transfer.
  - unfold report_persisted. auto with raft.
  - destruct (snapshot_at_applied _ _); [|reflexivity]. unfold compact. auto with raft.
  - unfold send_snapshot. calm_chain.
Qed.

(** ** Persist before send *)

(** The node's part of one driver cycle: take the [Ready], make its durable
    part durable, send its messages, acknowledge it. *)
Definition cycle (r : Raft) : Raft := advance (ready r).1 (ready r).2.

(** The hard state on disk once the durable part of a [Ready] is written. *)
Definition disk_after (rd : Ready) (r : Raft) : HardState :=
  default (r_persisted_hard_state r) (rd_hard_state rd).

Record node_inv (r : Raft) : Prop := {
  ni_role : role_inv r;
  ni_hs : rd_hard_state (r_pending r) = None;
  ni_phs : later (hs_ballot (r_persisted_hard_state r)) (ballot r);
  ni_grants : forall to m, (to, m) ∈ msgs r -> grants m -> later (m_term m, Some to) (ballot r);
  ni_asks : forall to m, (to, m) ∈ msgs r -> asks m -> later (m_term m, Some (r_id r)) (ballot r)
}.

Lemma node_inv_input i r : input_room i r -> node_inv r -> node_inv (apply_input i r).
Proof.
  intros Hr [H1 H2 H3 H4 H5]. pose proof (evolves_input i r Hr) as Ev. split.
  - by apply role_input.
  - by rewrite (ev_hs _ _ Ev).
  - rewrite (ev_phs _ _ Ev). etransitivity; [exact H3|apply (ev_ballot _ _ Ev)].
  - destruct (ev_msgs _ _ Ev) as (ms & E & Hms & _). intros to m. rewrite E.
    intros [Hin|Hin]%elem_of_app Hg.
    + etransitivity; [by apply H4|apply (ev_ballot _ _ Ev)].
    + destruct (Hms _ _ Hin Hg) as [-> Hv]. unfold ballot. rewrite Hv. reflexivity.
  - destruct (ev_msgs _ _ Ev) as (ms & E & _ & Hms). intros to m. rewrite E, (ev_id _ _ Ev).
    intros [Hin|Hin]%elem_of_app Hg; [|by eapply Hms].
    etransitivity; [by eapply H5|apply (ev_ballot _ _ Ev)].
Qed.

(** What [ready] leaves alone, and what it hands out. *)
Record ready_rel (r : Raft) (rd : Ready) (r' : Raft) : Prop := {
  rr_id : r_id r' = r_id r;
  rr_role : r_role r' = r_role r;
  rr_leader : r_leader r' = r_leader r;
  rr_votes : r_votes r' = r_votes r;
  rr_ballot : ballot r' = ballot r;
  rr_log : r_log r' = r_log r;
  rr_phs : r_persisted_hard_state r' = r_persisted_hard_state r;
  rr_clean : r_hard_state_dirty r' = false;
  rr_pending : r_pending r' = Ready_default;
  rr_msgs : rd_messages rd = msgs r;
  rr_hs : rd_hard_state rd =
    if r_hard_state_dirty r && bool_decide (hs_ballot (r_persisted_hard_state r) <> ballot r)
    then Some (Raft_hard_state r) else rd_hard_state (r_pending r)
}.

Lemma must_persist_ballot (b : Ballot) (p : Ballot) :
  negb (b.1 =? p.1) || bool_decide (b.2 <> p.2) = bool_decide (p <> b).
Proof.
  destruct b as [t v], p as [t' v']. simpl. destruct (Z.eqb_spec t t') as [->|Hne]; simpl.
  - apply bool_decide_ext. split; congruence.
  - symmetry. apply bool_decide_eq_true. congruence.
Qed.

Lemma ready_rel_ready r : ready_rel r (ready r).1 (ready r).2.
Proof.
  pose proof (must_persist_ballot (ballot r) (hs_ballot (r_persisted_hard_state r))) as E.
  unfold ready. cbv zeta. destruct (r_dirty_from _) as [from|]; simpl.
  all: destruct (r_hard_state_dirty r) eqn:D; simpl in *; split; simpl; try done; try (by rewrite D).
  all: rewrite D; simpl; unfold ballot, hs_ballot in *; simpl in *; rewrite E; done.
Qed.

(** The disk holds the current ballot when the messages leave. *)
Lemma disk_after_ballot r : node_inv r ->
  hs_ballot (disk_after (ready r).1 (ready r).2) = ballot r.
Proof.
  intros [[_ _ Hd] Hs _ _ _]. pose proof (ready_rel_ready r) as R. unfold disk_after.
  rewrite (rr_hs _ _ _ R), (rr_phs _ _ _ R), Hs.
  destruct (r_hard_state_dirty r); simpl; [|by apply Hd].
  case_bool_decide as E; [done|]. exact E.
Qed.

(** C6: persist before send. Take the [Ready] of any node that satisfies the
    invariant and write its durable part: the disk then holds the node's current
    term and vote, and every granted vote and every request for votes among the
    messages that are now sent is backed by it, so a crash right after sending
    cannot make the node vote differently in that term. *)
Theorem persist_before_send r :
  node_inv r ->
  let disk := disk_after (ready r).1 (ready r).2 in
  hs_ballot disk = (r_term r, r_vote r) /\
  forall to m, (to, m) ∈ rd_messages (ready r).1 ->
    (m_body m = VoteResp true ->
       m_term m <= hs_term disk /\ (m_term m = hs_term disk -> hs_vote disk = Some to)) /\
    (forall i t, m_body m = VoteReq i t ->
       m_term m <= hs_term disk /\ (m_term m = hs_term disk -> hs_vote disk = Some (r_id r))).
Proof.
  intros H. cbv zeta. pose proof (disk_after_ballot r H) as E. split; [exact E|].
  intros to m Hin. rewrite (rr_msgs _ _ _ (ready_rel_ready r)) in Hin. split.
  - intros Hg. destruct (ni_grants r H to m Hin Hg) as [H1 H2]. rewrite <- E in H1, H2. simpl in *.
    split; [done|]. intros Ht. by apply H2.
  - intros i t Ha. destruct (ni_asks r H to m Hin) as [H1 H2]; [unfold asks; by rewrite Ha|].
    rewrite <- E in H1, H2. simpl in *. split; [done|]. intros Ht. by apply H2.
Qed.

Lemma node_inv_new id cfg opts : node_inv (Raft_new id cfg opts).
Proof.
  split; [split; [by intros [?|?]|done|done]|done|reflexivity|..]; intros to m H; by apply elem_of_nil in H.
Qed.

Lemma node_inv_restore id opts hard snap es cfg : node_inv (Raft_restore id opts hard snap es cfg).
Proof.
  split; [split; [by intros [?|?]|done|done]|done|reflexivity|..]; intros to m H; by apply elem_of_nil in H.
Qed.

(** [advance] keeps the ballot and the role, and records the disk's hard state. *)
Lemma keeps_advance rd r : keeps (set_persisted_hard_state (disk_after rd r) r) (advance rd r).
Proof.
  unfold advance, disk_after. cbv zeta.
  set (r1 := match rd_hard_state rd with Some _ => _ | None => r end).
  assert (H1 : keeps (set_persisted_hard_state (default (r_persisted_hard_state r) (rd_hard_state rd)) r) r1).
  { unfold r1. by destruct (rd_hard_state rd). }
  clearbody r1. set (r2 := update_progress _ _ _).
  assert (H2 : keeps r1 r2) by (unfold r2; auto with raft). clearbody r2.
  set (r3 := if _ : bool then maybe_advance_commit r2 else r2).
  assert (H3 : keeps r2 r3) by (unfold r3; case_bool_decide; [auto with raft|reflexivity]). clearbody r3.
  set (r4 := match last _ with Some _ => _ | None => r3 end).
  assert (H4 : keeps r3 r4) by (unfold r4; destruct (last _); [auto with raft|reflexivity]). clearbody r4.
  transitivity r4; [|auto with raft]. transitivity r3; [|done]. transitivity r2; [|done]. by transitivity r1.
Qed.

Lemma advance_pending rd r : r_pending (advance rd r) = r_pending r.
Proof.
  unfold advance. cbv zeta. set (r1 := match rd_hard_state rd with Some _ => _ | None => r end).
  assert (E1 : r_pending r1 = r_pending r) by (unfold r1; by destruct (rd_hard_state rd)).
  clearbody r1. rewrite <- E1. set (r2 := update_progress _ _ _).
  assert (E2 : r_pending r2 = r_pending r1) by (unfold r2, update_progress; by destruct (_ !! _)).
  clearbody r2. rewrite <- E2. destruct (last _); simpl; case_bool_decide; try done.
  all: unfold maybe_advance_commit; cbv zeta; destruct (_ <=? _); [done|]; by case_bool_decide.
Qed.

Lemma keeps_cycle r :
  r_id (cycle r) = r_id r /\ r_role (cycle r) = r_role r /\ ballot (cycle r) = ballot r /\
  r_persisted_hard_state (cycle r) = disk_after (ready r).1 (ready r).2 /\
  r_pending (cycle r) = Ready_default.
Proof.
  pose proof (ready_rel_ready r) as R. pose proof (keeps_advance (ready r).1 (ready r).2) as K.
  unfold cycle. split_and!.
  - rewrite (k_id _ _ K). apply (rr_id _ _ _ R).
  - rewrite (k_role _ _ K). apply (rr_role _ _ _ R).
  - unfold ballot. rewrite (k_term _ _ K), (k_vote _ _ K). apply (rr_ballot _ _ _ R).
  - apply (k_phs _ _ K).
  - rewrite advance_pending. apply (rr_pending _ _ _ R).
Qed.

Lemma node_inv_cycle r : node_inv r -> node_inv (cycle r).
Proof.
  intros H. destruct (keeps_cycle r) as (Eid & Erole & Eb & Ep & Epend).
  pose proof (disk_after_ballot r H) as Ed. pose proof (ready_rel_ready r) as R.
  pose proof (keeps_advance (ready r).1 (ready r).2) as K. destruct H as [[Hv Hl _] _ _ _].
  split.
  - split.
    + rewrite Erole, Eid. intros Hr. assert (Ev : r_vote (cycle r) = r_vote r) by exact (f_equal snd Eb).
      rewrite Ev. by apply Hv.
    + rewrite Erole, Eid. intros Hr. unfold cycle. rewrite (k_leader _ _ K).
      change (r_leader (set_persisted_hard_state ?h ?x)) with (r_leader x).
      rewrite (rr_leader _ _ _ R). by apply Hl.
    + intros _. by rewrite Ep, Ed.
  - by rewrite Epend.
  - rewrite Ep, Ed, Eb. reflexivity.
  - rewrite Epend. intros to m Hin. by apply elem_of_nil in Hin.
  - rewrite Epend. intros to m Hin. by apply elem_of_nil in Hin.
Qed.

(** The states a node can be in: fresh or restored from any disk contents, then
    fed any inputs and driver cycles. *)
Inductive node_reach : Raft -> Prop :=
| reach_new id cfg opts : node_reach (Raft_new id cfg opts)
| reach_restore id opts hard snap es cfg : node_reach (Raft_restore id opts hard snap es cfg)
| reach_input r i : node_reach r -> input_room i r -> node_reach (apply_input i r)
| reach_cycle r : node_reach r -> node_reach (cycle r).

Lemma node_reach_inv r : node_reach r -> node_inv r.
Proof.
  induction 1; auto using node_inv_new, node_inv_restore, node_inv_input, node_inv_cycle.
Qed.

Lemma persist_before_send_witness :
  let r := apply_input (IStep 2 (mkMessage 5 (VoteReq 0 0))) demo_node in
  rd_messages (ready r).1 = [(2, mkMessage 5 (VoteResp true))] /\
  hs_ballot (disk_after (ready r).1 (ready r).2) = (r_term r, r_vote r).
Proof.
  cbv zeta. split; [vm_compute; reflexivity|].
  apply persist_before_send. apply node_inv_input; [by_decide|apply node_inv_new].
Defined.

(** In every reachable state a candidate or leader has voted for itself, a
    leader names itself as leader, and a node whose hard state is not flagged
    dirty has its current term and vote on disk. *)
Theorem roles_are_consistent r :
  node_reach r ->
  (r_role r = Candidate \/ r_role r = Leader -> r_vote r = Some (r_id r)) /\
  (r_role r = Leader -> r_leader r = Some (r_id r)) /\
  (r_hard_state_dirty r = false ->
     hs_term (r_persisted_hard_state r) = r_term r /\ hs_vote (r_persisted_hard_state r) = r_vote r).
Proof.
  intros H. destruct (ni_role r (node_reach_inv r H)) as [Hv Hl Hd]. split; [done|]. split; [done|].
  intros D. apply Hd in D. unfold hs_ballot, ballot in D. by injection D.
Qed.

Lemma roles_are_consistent_witness :
  let r := apply_input (ITick 7) (Raft_new 1 (Config_simple [1]) (mkRaftOptions 1 1 64 1000 true false 10)) in
  r_role r = Leader /\ r_vote r = Some (r_id r) /\ r_leader r = Some (r_id r).
Proof.
  cbv zeta. set (r := apply_input _ _).
  assert (Hr : r_role r = Leader) by (vm_compute; reflexivity).
  destruct (roles_are_consistent r) as (Hv & Hl & _).
  - apply reach_input; [apply reach_new|by_decide].
  - split; [exact Hr|]. split; [exact (Hv (or_intror Hr))|exact (Hl Hr)].
Defined.
