(* ===== verification/Cluster.v ===== *)
(** * A cluster of nodes, and Election Safety

    The nodes of [Raft.v] with their disks, connected by a network that may
    lose, delay, duplicate and reorder messages, under a driver that persists
    the hard state of a [Ready] before it sends the messages, and that may crash
    before, between and after the two. The membership is fixed, as the entries
    and snapshots that travel carry no other configuration; everything else,
    elections, replication, snapshots, compaction, reads, transfers, restarts
    with any surviving log, is unrestricted. The theorem is that no two nodes
    lead in the same term. *)

From Stdlib Require Import ZArith Lia.
From stdpp Require Import base tactics functions list list_numbers gmap sets sorting.
From S2P Require Import Prelude Codec Types RaftLog Msg RaftState Raft RaftNode.

Open Scope Z_scope.

(** ** A fixed configuration *)

Definition ordinary (e : Entry) : Prop := is_config_entry e = false.

(** The log implies the configuration [C] and holds no change of it. *)
Definition log_fixed (C : Config) (l : Log) : Prop :=
  snapshot_config l = C /\ Forall ordinary (entries l).

Definition msg_fixed (C : Config) (m : Message) : Prop :=
  match m_body m with
  | AppendReq _ _ es _ => Forall ordinary es
  | SnapshotReq s => sn_config s = C
  | _ => True
  end.

Lemma replay_ordinary es c : Forall ordinary es -> fold_left replay_entry es c = c.
Proof.
  induction 1 as [|e es He _ IH]; simpl; [done|]. rewrite <- IH at 2. f_equal.
  unfold ordinary, is_config_entry, replay_entry in *. by destruct (e_kind e).
Qed.

Lemma log_fixed_config C l : log_fixed C l -> Log_config l = C.
Proof. intros [E H]. unfold Log_config. by rewrite replay_ordinary. Qed.

Section Fixed.
Context (C : Config).

Lemma fixed_append l es : log_fixed C l -> Forall ordinary es -> log_fixed C (Log_append l es).
Proof using. intros [E H] He. split; [done|]. by apply Forall_app. Qed.

Lemma fixed_truncate l i : log_fixed C l -> log_fixed C (Log_truncate_from l i).
Proof using.
  intros [E H]. unfold Log_truncate_from. destruct (Log_slot l i); [split; [done|by apply Forall_take]|].
  destruct (_ <=? _); [|done]. by split.
Qed.

Lemma fixed_merge l es : log_fixed C l -> Forall ordinary es -> log_fixed C (Log_merge_loop l es).
Proof using.
  intros Hl He. induction He as [|e es He Hes IH]; simpl; [done|].
  destruct (Log_term_at l (e_index e)) as [t|].
  - destruct (_ =? _); [done|]. apply fixed_append; [by apply fixed_truncate|by constructor].
  - apply fixed_append; [done|by constructor].
Qed.

Lemma fixed_compact l i t : log_fixed C l -> log_fixed C (Log_compact_through l i t C).
Proof using.
  intros [E H]. unfold Log_compact_through. destruct (_ <=? _); [done|].
  split; [done|]. by apply Forall_drop.
Qed.

Lemma fixed_install l s : log_fixed C l -> sn_config s = C -> log_fixed C (Log_install_snapshot l s).
Proof using.
  intros H Hs. unfold Log_install_snapshot. case_bool_decide.
  - rewrite Hs. by apply fixed_compact.
  - split; [done|constructor].
Qed.

Lemma fixed_slice l a b : log_fixed C l -> Forall ordinary (Log_slice l a b).
Proof using.
  intros [_ H]. apply Forall_forall. intros e He.
  pose proof (slice_sub l a b) as Hs. rewrite Forall_forall in Hs, H. auto.
Qed.

(** Recovery from any surviving entries ends in the configuration [C], either
    the snapshot's or the bootstrap one. *)
Lemma fixed_restore id opts hard snap es :
  Forall ordinary es -> (forall s, snap = Some s -> sn_config s = C) ->
  log_fixed C (r_log (Raft_restore id opts hard snap es C)).
Proof using.
  intros He Hs. unfold Raft_restore. simpl. case_bool_decide as V.
  - split; [done|]. apply Forall_app. split; [constructor|].
    apply Forall_forall. intros e Hin. rewrite Forall_forall in He. apply He.
    pose proof (slice_sub (Log_restore snap es) 1 (Log_last_index (Log_restore snap es) +64 1)) as H.
    rewrite Forall_forall in H. apply H in Hin. by destruct snap.
  - destruct snap as [s|]; [by split; [apply Hs|]|]. exfalso. apply V.
    unfold Log_config. simpl. by rewrite replay_ordinary.
Qed.

(** ** Updates that keep the election state *)

(** [steady r r']: the role, term and collected votes are as before, and if
    the log was fixed, so are the log and the messages queued. *)
Record steady (r r' : Raft) : Prop := {
  s_id : r_id r' = r_id r;
  s_role : r_role r' = r_role r;
  s_term : r_term r' = r_term r;
  s_votes : r_votes r' = r_votes r;
  s_fixed : log_fixed C (r_log r) -> log_fixed C (r_log r');
  s_msgs : log_fixed C (r_log r) -> Forall (fun tm => msg_fixed C tm.2) (msgs r) ->
    Forall (fun tm => msg_fixed C tm.2) (msgs r')
}.

#[local] Instance steady_refl : Reflexive steady.
Proof using. intros r. by split. Qed.
#[local] Instance steady_trans : Transitive steady.
Proof using. intros r1 r2 r3 [] []. split; try congruence; auto. Qed.

Lemma plain_fixed l m : log_fixed C l -> plain l (m_body m) -> msg_fixed C m.
Proof using.
  intros [_ H] Hp. unfold msg_fixed. destruct (m_body m); try done. simpl in Hp.
  eapply Forall_impl; [exact Hp|]. rewrite Forall_forall in H. auto.
Qed.

Lemma quiet_steady r r' : quiet r r' -> steady r r'.
Proof using.
  intros Q. destruct (q_msgs _ _ Q) as (ms & E & Hms). split; try by destruct Q.
  - by rewrite (q_log _ _ Q).
  - intros Hl Hm. rewrite E. apply Forall_app. split; [done|].
    eapply Forall_impl; [exact Hms|]. intros tm. by apply plain_fixed.
Qed.

Lemma steady_set_commit v r : steady r (set_commit v r).
Proof using. done. Qed.
Lemma steady_set_applied v r : steady r (set_applied v r).
Proof using. done. Qed.
Lemma steady_set_persisted v r : steady r (set_persisted v r).
Proof using. done. Qed.
Lemma steady_set_leader v r : steady r (set_leader v r).
Proof using. done. Qed.
Lemma steady_set_dirty v r : steady r (set_hard_state_dirty v r).
Proof using. done. Qed.
Lemma steady_supersede s r : steady r (supersede_pending s r).
Proof using. done. Qed.
Lemma steady_set_log l r : (log_fixed C (r_log r) -> log_fixed C l) -> steady r (set_log l r).
Proof using. intros H. by split. Qed.

#[local] Hint Resolve quiet_steady steady_set_commit steady_set_applied steady_set_persisted
  steady_set_leader steady_set_dirty steady_supersede : raft.

Lemma steady_append es r : Forall ordinary es -> steady r (append_to_own_log es r).
Proof using.
  intros He. unfold append_to_own_log. cbv zeta.
  set (r1 := match es with [] => r | _ => _ end).
  assert (H1 : steady r r1) by (unfold r1; destruct es; calm_chain). clearbody r1.
  etransitivity; [exact H1|]. apply steady_set_log. intros. by apply fixed_append.
Qed.

Lemma steady_advance_commit r : steady r (maybe_advance_commit r).
Proof using.
  unfold maybe_advance_commit. destruct (_ <=? _); [reflexivity|].
  case_bool_decide; [reflexivity|]. calm_chain.
Qed.

Lemma steady_raise_commit c r : steady r (raise_commit c r).
Proof using. unfold raise_commit. destruct (_ <? _); calm_chain. Qed.

#[local] Hint Resolve steady_advance_commit steady_raise_commit : raft.

(** ** Evidence for the votes a candidate counts *)

Context (granted_to_me : NodeId -> Term -> Prop).

(** Every vote a candidate or leader counts is its own or was granted to it in
    its term; a leader has counted a quorum; only voters stand for election. *)
Record elected (r : Raft) : Prop := {
  el_fixed : log_fixed C (r_log r);
  el_msgs : Forall (fun tm => msg_fixed C tm.2) (msgs r);
  el_votes : r_role r = Candidate \/ r_role r = Leader ->
    forall j, r_votes r !! j = Some true -> j = r_id r \/ granted_to_me j (r_term r);
  el_quorum : r_role r = Leader -> Config_has_quorum C (voters_with true r) = true;
  el_member : r_role r <> Follower -> Config_is_voter C (r_id r) = true
}.

Lemma steady_elected r r' : steady r r' -> elected r -> elected r'.
Proof using.
  intros S [Hf Hm Hv Hq Hmem]. split.
  - by apply (s_fixed _ _ S).
  - by apply (s_msgs _ _ S).
  - rewrite (s_role _ _ S), (s_votes _ _ S), (s_id _ _ S), (s_term _ _ S). exact Hv.
  - unfold voters_with. rewrite (s_role _ _ S), (s_votes _ _ S). exact Hq.
  - by rewrite (s_role _ _ S), (s_id _ _ S).
Qed.

(** A state that is neither candidate nor leader has no votes to show. *)
Lemma elected_idle r : log_fixed C (r_log r) -> Forall (fun tm => msg_fixed C tm.2) (msgs r) ->
  r_role r = Follower \/ (r_role r = PreCandidate /\ Config_is_voter C (r_id r) = true) -> elected r.
Proof using.
  intros Hf Hm Hr. split; [done|done| | |]; destruct Hr as [E|[E Hmem]]; rewrite E; (by intros [?|?]) || done.
Qed.

Lemma promotable_member r : log_fixed C (r_log r) -> promotable r = true -> Config_is_voter C (r_id r) = true.
Proof using. intros Hf. unfold promotable. by rewrite (log_fixed_config C). Qed.

Lemma elected_become_follower t l r : elected r -> elected (become_follower t l r).
Proof using.
  intros [Hf Hm _ _ _]. unfold become_follower. cbv zeta. set (r1 := if _ : bool then _ else r).
  assert (H1 : r_log r1 = r_log r /\ r_pending r1 = r_pending r)
    by (unfold r1; by destruct (_ <? _)).
  clearbody r1. destruct H1 as [E1 E2]. apply elected_idle; simpl; rewrite ?E1, ?E2; auto.
Qed.

Lemma elected_become_leader r : elected r -> Config_is_voter C (r_id r) = true ->
  (forall j, r_votes r !! j = Some true -> j = r_id r \/ granted_to_me j (r_term r)) ->
  Config_has_quorum C (voters_with true r) = true -> elected (become_leader r).
Proof using.
  intros [Hf Hm _ _ _] Hmem Hv Hq. unfold become_leader. cbv zeta.
  set (r0 := set_pending_reads _ _). assert (H0 : elected r0) by by split.
  clearbody r0. set (r1 := reset_progress_for_config r0).
  assert (H1 : elected r1) by (eapply steady_elected; [|exact H0]; unfold r1; auto with raft).
  clearbody r1. eapply steady_elected; [|exact H1].
  etransitivity; [|apply quiet_steady, quiet_broadcast]. apply steady_append. by repeat constructor.
Qed.

Lemma draw_facts r : r_log (campaign_draw r) = r_log r /\ r_pending (campaign_draw r) = r_pending r
  /\ r_votes (campaign_draw r) = ∅ /\ r_id (campaign_draw r) = r_id r.
Proof using. done. Qed.

Lemma elected_campaign_vote r : elected r -> Config_is_voter C (r_id r) = true -> elected (campaign_vote r).
Proof using.
  intros [Hf Hm _ _ _] Hmem. unfold campaign_vote. cbv zeta. destruct (draw_facts r) as (E1 & E2 & E3 & E4).
  rewrite <- E4 in Hmem.
  set (r1 := campaign_draw r) in *. clearbody r1. set (r2 := set_votes _ _).
  assert (Hv : forall j, r_votes r2 !! j = Some true -> j = r_id r2 \/ granted_to_me j (r_term r2)).
  { intros j. unfold r2. simpl. rewrite E3. intros [[<- _]|[_ H]]%lookup_insert_Some; [by left|].
    by rewrite lookup_empty in H. }
  assert (H2 : elected r2).
  { split; [unfold r2; simpl; by rewrite E1|unfold r2; simpl; by rewrite E2|by intros _|done|done]. }
  assert (Hc : Log_config (r_log r2) = C) by (apply log_fixed_config, H2).
  assert (Hmem2 : Config_is_voter C (r_id r2) = true) by done.
  clearbody r2. rewrite Hc. destruct (tally r2 C) eqn:T; [by apply elected_become_leader|].
  eapply steady_elected; [|exact H2].
  destruct (ask_peers (Log_last_index (r_log r1)) (Log_last_term (r_log r1)) r2) as (ms & -> & Hms).
  split; try done. intros _ H. simpl. apply Forall_app. split; [done|]. eapply Forall_impl; [exact Hms|]. by intros tm ->.
Qed.

Lemma elected_campaign b r : elected r -> Config_is_voter C (r_id r) = true -> elected (campaign b r).
Proof using.
  intros H Hmem. unfold campaign. destruct b; [|by apply elected_campaign_vote]. cbv zeta.
  destruct (draw_facts r) as (E1 & E2 & _ & E4). rewrite <- E4 in Hmem. set (r1 := campaign_draw r) in *. clearbody r1.
  set (r2 := set_votes _ _). assert (H2 : elected r2).
  { destruct H as [Hf Hm _ _ _]. apply elected_idle; unfold r2; simpl; rewrite ?E1, ?E2; auto. }
  assert (Hmem2 : Config_is_voter C (r_id r2) = true) by done.
  clearbody r2. destruct (tally _ _); [by apply elected_campaign_vote|].
  eapply steady_elected; [|exact H2]. apply quiet_steady, quiet_send_to_peers. auto with raft.
Qed.

Lemma elected_check_quorum r : elected r -> elected (check_quorum r).
Proof using.
  intros H. unfold check_quorum. cbv zeta. set (r1 := set_progress _ r).
  assert (H1 : elected r1) by (eapply steady_elected; [|exact H]; unfold r1; auto with raft).
  clearbody r1. destruct (Config_has_quorum _ _); [|by apply elected_become_follower].
  eapply steady_elected; [|exact H1]. auto with raft.
Qed.

Lemma elected_tick rand r : elected r -> elected (tick rand r).
Proof using.
  intros H. unfold tick. cbv zeta. set (r1 := set_election_elapsed _ _).
  assert (H1 : elected r1) by (eapply steady_elected; [|exact H]; unfold r1; calm_chain).
  clearbody r1.
  assert (Hel : elected (if promotable r1 && (r_election_timeout r1 <=? r_election_elapsed r1)
    then start_election r1 else r1)) 
    by (destruct (promotable r1) eqn:Hp; simpl; [|done]; destruct (_ <=? _); [|done];
        apply elected_campaign; [done|by apply promotable_member; [apply H1|]]).
  destruct (r_role r1); try exact Hel. clear Hel.
  set (r2 := set_quorum_contact_elapsed _ _).
  assert (H2 : elected r2) by (eapply steady_elected; [|exact H1]; unfold r2; calm_chain).
  clearbody r2. set (r3 := if _ : bool then broadcast_append _ else _).
  assert (H3 : elected r3)
    by (eapply steady_elected; [|exact H2]; unfold r3; destruct (_ <=? _); calm_chain).
  clearbody r3. set (r4 := if _ : bool then check_quorum _ else _). assert (H4 : elected r4).
  { unfold r4. destruct (_ <=? _); [|done]. apply elected_check_quorum.
    eapply steady_elected; [|exact H3]. auto with raft. }
  clearbody r4. eapply steady_elected; [|exact H4]. auto with raft.
Qed.

Lemma elected_follow from r : elected r -> elected (follow from r).
Proof using.
  intros H. unfold follow. cbv zeta. set (r1 := if _ : bool then _ else r).
  assert (H1 : elected r1) by (unfold r1; case_bool_decide; [by apply elected_become_follower|done]).
  clearbody r1. eapply steady_elected; [|exact H1]. calm_chain.
Qed.

Lemma elected_pre_vote_resp from t g r : elected r -> elected (handle_pre_vote_resp from t g r).
Proof using.
  intros H. unfold handle_pre_vote_resp. case_bool_decide as D; [done|].
  destruct (_ && _); [by apply elected_become_follower|]. cbv zeta. set (r1 := set_votes _ _).
  assert (Hmem : Config_is_voter C (r_id r) = true) by (apply (el_member r H); congruence).
  assert (H1 : elected r1) by (destruct H; apply elected_idle; auto).
  assert (Hmem1 : Config_is_voter C (r_id r1) = true) by done.
  clearbody r1. destruct (tally _ _); [by apply elected_campaign|]. destruct (lost _ _); [|done].
  destruct H1; apply elected_idle; auto.
Qed.

Lemma elected_vote_req from i t r : elected r -> elected (handle_vote_req from i t r).
Proof using.
  intros H. unfold handle_vote_req. cbv zeta.
  set (can := match r_vote r with None => true | Some v => _ end). clearbody can.
  destruct (can && _).
  - destruct H as [Hf Hm Hv Hq Hmem]. split; [done| |done..]. simpl. apply Forall_app.
    split; [done|]. by repeat constructor.
  - eapply steady_elected; [|exact H]. apply quiet_steady. by apply quiet_send.
Qed.

Lemma elected_vote_resp from g r : elected r -> (g = true -> granted_to_me from (r_term r)) ->
  elected (handle_vote_resp from g r).
Proof using.
  intros H Hg. unfold handle_vote_resp. case_bool_decide as D; [done|]. cbv zeta.
  set (r1 := set_votes _ _).
  assert (Hv : forall j, r_votes r1 !! j = Some true -> j = r_id r1 \/ granted_to_me j (r_term r1)).
  { intros j. unfold r1. simpl. intros [[<- ->]|[_ Hj]]%lookup_insert_Some; [right; by apply Hg|].
    apply (el_votes r H); auto. }
  assert (Hmem : Config_is_voter C (r_id r1) = true) by (apply (el_member r H); congruence).
  assert (H1 : elected r1).
  { destruct H as [Hf Hm _ _ _]. split; [done|done|by intros _| |done]. unfold r1. simpl. by rewrite D. }
  assert (Hc : Log_config (r_log r1) = C) by (apply log_fixed_config, H1).
  clearbody r1. rewrite Hc. destruct (tally r1 C) eqn:T; [by apply elected_become_leader|].
  destruct (lost _ _); [by apply elected_become_follower|done].
Qed.

Lemma elected_handle_append from pi pt es c r : elected r -> Forall ordinary es ->
  elected (handle_append from pi pt es c r).
Proof using.
  intros H He. unfold handle_append. cbv zeta. pose proof (elected_follow from r H) as H1.
  eapply steady_elected; [|exact H1]. set (r1 := follow from r). clearbody r1.
  destruct (_ <? _); [auto with raft|].
  destruct (Log_term_at _ _) as [t|]; [|auto with raft]. destruct (_ =? _); [|auto with raft].
  destruct (Log_merge (r_log r1) pi es) as [log last_new] eqn:M.
  assert (Hlog : log_fixed C (r_log r1) -> log_fixed C log).
  { intros Hf. replace log with (fst (Log_merge (r_log r1) pi es)) by by rewrite M.
    rewrite merge_fst. by apply fixed_merge. }
  set (r2 := set_log log r1). assert (H2 : steady r1 r2) by by apply steady_set_log.
  clearbody r2. set (r3 := match es with [] => r2 | _ => _ end).
  assert (H3 : steady r2 r3) by (unfold r3; destruct es; calm_chain). clearbody r3.
  set (r4 := raise_commit _ r3). assert (H4 : steady r3 r4) by apply steady_raise_commit. clearbody r4.
  set (r5 := if _ : bool then _ else r4).
  assert (H5 : steady r4 r5) by (unfold r5; destruct (_ <? _); calm_chain). clearbody r5.
  transitivity r5; [|auto with raft]. transitivity r4; [|done]. transitivity r3; [|done].
  by transitivity r2.
Qed.

Lemma steady_append_resp from s mi ci ct r : steady r (handle_append_resp from s mi ci ct r).
Proof using.
  unfold handle_append_resp. case_bool_decide; [reflexivity|]. cbv zeta.
  destruct (r_progress r !! from) as [p|]; [|reflexivity]. destruct s; [|calm_chain].
  set (r1 := maybe_advance_commit _). assert (H1 : steady r r1) by (unfold r1; calm_chain).
  clearbody r1. transitivity r1; [done|].
  destruct (r_progress r1 !! from) as [q|]; [destruct (_ <? _)|]; auto with raft; reflexivity.
Qed.

Lemma elected_handle_snapshot from s r : elected r -> sn_config s = C ->
  elected (handle_snapshot from s r).
Proof using.
  intros H Hs. unfold handle_snapshot. cbv zeta. pose proof (elected_follow from r H) as H1.
  eapply steady_elected; [|exact H1]. set (r1 := follow from r). clearbody r1.
  destruct (_ <=? _); [auto with raft|].
  set (r2 := set_log _ r1).
  assert (H2 : steady r1 r2) by (apply steady_set_log; intros; by apply fixed_install).
  clearbody r2. transitivity r2; [done|]. calm_chain.
Qed.

Lemma steady_snapshot_resp from s i r : steady r (handle_snapshot_resp from s i r).
Proof using.
  unfold handle_snapshot_resp. case_bool_decide; [reflexivity|].
  destruct (r_progress r !! from) as [p|]; [|reflexivity]. destruct s; calm_chain.
Qed.

Lemma elected_heartbeat from c x r : elected r -> elected (handle_heartbeat from c x r).
Proof using.
  intros H. unfold handle_heartbeat. cbv zeta. pose proof (elected_follow from r H) as H1.
  eapply steady_elected; [|exact H1]. calm_chain.
Qed.

Lemma elected_step from m r : elected r -> msg_fixed C m ->
  (grants m -> granted_to_me from (m_term m)) -> elected (step from m r).
Proof using.
  intros H Hm Hg. unfold step. cbv zeta. assert (H1 : elected (adopt_term from m r)).
  { unfold adopt_term. destruct (_ && _); [by apply elected_become_follower|done]. }
  pose proof (adopt_term_term from m r) as Et.
  set (r1 := adopt_term from m r) in *. clearbody r1. destruct (Z.ltb_spec (m_term m) (r_term r1)) as [L|L].
  { destruct (m_body m); try done; (eapply steady_elected; [|exact H1]; auto with raft). }
  unfold handle. unfold msg_fixed in Hm. unfold grants in Hg. unfold Message_is_pre_vote in Et.
  destruct (m_body m);
    auto using elected_pre_vote_resp, elected_vote_req, elected_handle_append,
      elected_handle_snapshot, elected_heartbeat.
  - eapply steady_elected; [|exact H1]. apply quiet_steady, quiet_pre_vote_req.
  - apply elected_vote_resp; [done|]. intros ->. replace (r_term r1) with (m_term m) by lia. auto.
  - eapply steady_elected; [|exact H1]. apply steady_append_resp.
  - eapply steady_elected; [|exact H1]. apply steady_snapshot_resp.
  - eapply steady_elected; [|exact H1]. apply quiet_steady, quiet_heartbeat_resp.
  - destruct (promotable r1) eqn:Hp; [|done]. apply elected_campaign; [done|].
    apply promotable_member; [apply H1|done].
Qed.

(** The inputs of a cluster whose membership does not change. *)
Definition input_fixed (i : Input) : Prop :=
  match i with
  | IProposeConfig _ => False
  | IStep _ m => msg_fixed C m
  | ISendSnapshot _ s => sn_config s = C
  | _ => True
  end.

Definition input_evidence (i : Input) : Prop :=
  match i with IStep from m => grants m -> granted_to_me from (m_term m) | _ => True end.

Lemma elected_compact data r : elected r ->
  elected (match snapshot_at_applied data r with Some s => compact s r | None => r end).
Proof using.
  intros H. unfold snapshot_at_applied. destruct (Log_term_at _ _) as [t|]; [|done].
  eapply steady_elected; [|exact H]. unfold compact. simpl. apply steady_set_log. intros Hf.
  rewrite (log_fixed_config C) by done. by apply fixed_compact.
Qed.

Lemma elected_send_snapshot peer s r : elected r -> sn_config s = C -> elected (send_snapshot peer s r).
Proof using.
  intros H Hs. unfold send_snapshot. set (r1 := update_progress _ _ _).
  assert (H1 : elected r1) by (eapply steady_elected; [|exact H]; unfold r1; auto with raft).
  clearbody r1. destruct H1 as [Hf Hm Hv Hq Hmem]. split; [done| |done..].
  simpl. apply Forall_app. split; [done|]. by repeat constructor.
Qed.

Lemma elected_input i r : Config_is_joint C = false -> input_fixed i -> input_evidence i ->
  elected r -> elected (apply_input i r).
Proof using.
  intros Hj Hi He H. destruct i; simpl in *; try done;
    auto using elected_tick, elected_step, elected_compact, elected_send_snapshot.
  - eapply steady_elected; [|exact H]. unfold propose. case_bool_decide; [reflexivity|]. cbn [snd].
    etransitivity; [|apply quiet_steady, quiet_broadcast]. apply steady_append. by repeat constructor.
  - unfold maybe_finish_config_change. case_bool_decide; [done|]. cbv zeta.
    rewrite (log_fixed_config C), Hj by apply H. done.
  - eapply steady_elected; [|exact H]. apply quiet_steady, quiet_read_index.
  - eapply steady_elected; [|exact H]. apply quiet_steady, quiet_transfer.
  - unfold step_down. case_bool_decide; [by apply elected_become_follower|done].
  - eapply steady_elected; [|exact H]. unfold report_persisted. auto with raft.
Qed.

Lemma steady_advance rd r : steady r (advance rd r).
Proof using.
  unfold advance. cbv zeta. set (r1 := match rd_hard_state rd with Some _ => _ | None => r end).
  assert (H1 : steady r r1) by (unfold r1; by destruct (rd_hard_state rd)).
  clearbody r1. set (r2 := update_progress _ _ _).
  assert (H2 : steady r1 r2) by (unfold r2; auto with raft). clearbody r2.
  set (r3 := if _ : bool then maybe_advance_commit r2 else r2).
  assert (H3 : steady r2 r3) by (unfold r3; case_bool_decide; [auto with raft|reflexivity]). clearbody r3.
  set (r4 := match last _ with Some _ => _ | None => r3 end).
  assert (H4 : steady r3 r4) by (unfold r4; destruct (last _); [auto with raft|reflexivity]). clearbody r4.
  transitivity r4; [|auto with raft]. transitivity r3; [|done]. transitivity r2; [|done]. by transitivity r1.
Qed.

Lemma elected_cycle r : elected r -> elected (cycle r).
Proof using.
  intros [Hf Hm Hv Hq Hmem]. pose proof (ready_rel_ready r) as R.
  unfold cycle. eapply steady_elected; [apply steady_advance|]. split.
  - by rewrite (rr_log _ _ _ R).
  - rewrite (rr_pending _ _ _ R). constructor.
  - rewrite (rr_role _ _ _ R), (rr_votes _ _ _ R), (rr_id _ _ _ R).
    assert (E : r_term (ready r).2 = r_term r) by exact (f_equal fst (rr_ballot _ _ _ R)).
    rewrite E. exact Hv.
  - unfold voters_with. rewrite (rr_role _ _ _ R), (rr_votes _ _ _ R). exact Hq.
  - by rewrite (rr_role _ _ _ R), (rr_id _ _ _ R).
Qed.
End Fixed.

Lemma elected_mono C (E E' : NodeId -> Term -> Prop) r :
  (forall j t, E j t -> E' j t) -> elected C E r -> elected C E' r.
Proof. intros HE [Hf Hm Hv Hq Hmem]. split; [done|done| |done|done]. intros Hr j Hj. destruct (Hv Hr j Hj); auto. Qed.

(** ** The cluster *)

Record Cluster : Type := mkCluster {
  nodes : NodeId -> Raft;
  disk : NodeId -> HardState;
  (** every message ever sent: source, destination, contents *)
  net : list (NodeId * NodeId * Message)
}.

Definition cluster_init (C : Config) (opts : RaftOptions) : Cluster :=
  mkCluster (fun i => Raft_new i C opts) (fun _ => HardState_default) [].

(** The messages of a batch, as they appear on the network. *)
Definition addressed (i : NodeId) (ms : list (NodeId * Message)) : list (NodeId * NodeId * Message) :=
  map (fun tm => (i, tm.1, tm.2)) ms.

Inductive cluster_step (C : Config) (opts : RaftOptions) : Cluster -> Cluster -> Prop :=
(** A node handles one input; a message it handles is one that was sent to it. *)
| c_input st i inp :
    input_room inp (nodes st i) -> input_fixed C inp ->
    (forall from m, inp = IStep from m -> (from, i, m) ∈ net st) ->
    cluster_step C opts st (mkCluster (<[i := apply_input inp (nodes st i)]> (nodes st)) (disk st) (net st))
(** A driver cycle: persist, send, acknowledge. *)
| c_cycle st i :
    cluster_step C opts st
      (mkCluster (<[i := cycle (nodes st i)]> (nodes st))
         (<[i := disk_after (ready (nodes st i)).1 (ready (nodes st i)).2]> (disk st))
         (net st ++ addressed i (rd_messages (ready (nodes st i)).1)))
(** A crash at any moment: before the durable part of the [Ready] was written,
    with nothing sent, or after it, with any of the messages sent. What is left
    of the log is arbitrary. *)
| c_crash st i snap es :
    Forall ordinary es -> (forall s, snap = Some s -> sn_config s = C) ->
    cluster_step C opts st
      (mkCluster (<[i := Raft_restore i opts (disk st i) snap es C]> (nodes st)) (disk st) (net st))
| c_crash_sending st i snap es sent :
    Forall ordinary es -> (forall s, snap = Some s -> sn_config s = C) ->
    sent ⊆ rd_messages (ready (nodes st i)).1 ->
    let d := disk_after (ready (nodes st i)).1 (ready (nodes st i)).2 in
    cluster_step C opts st
      (mkCluster (<[i := Raft_restore i opts d snap es C]> (nodes st)) (<[i := d]> (disk st))
         (net st ++ addressed i sent)).

Inductive reachable (C : Config) (opts : RaftOptions) : Cluster -> Prop :=
| r_init : reachable C opts (cluster_init C opts)
| r_step st st' : reachable C opts st -> cluster_step C opts st st' -> reachable C opts st'.

(** A message of [i] to [dest] that shows its vote for [to]: a granted vote, or a
    request, which a candidate sends once it has voted for itself. *)
Definition shows (i to dest : NodeId) (m : Message) : Prop :=
  (grants m /\ dest = to) \/ (asks m /\ to = i).

(** A vote of [i] for [to] in term [t], sent or about to be. *)
Definition vote_sent (st : Cluster) (i to : NodeId) (t : Term) : Prop :=
  exists dest m, shows i to dest m /\ m_term m = t /\ (i, dest, m) ∈ net st.
Definition vote_given (st : Cluster) (i to : NodeId) (t : Term) : Prop :=
  vote_sent st i to t \/
  exists dest m, shows i to dest m /\ m_term m = t /\ (dest, m) ∈ msgs (nodes st i).

Record cluster_inv (C : Config) (st : Cluster) : Prop := {
  ci_id i : r_id (nodes st i) = i;
  ci_node i : node_inv (nodes st i);
  ci_disk i : hs_ballot (r_persisted_hard_state (nodes st i)) = hs_ballot (disk st i);
  ci_elected i : elected C (fun j t => vote_sent st j i t) (nodes st i);
  ci_net from to m : (from, to, m) ∈ net st -> msg_fixed C m;
  ci_sent i to t : vote_sent st i to t -> later (t, Some to) (hs_ballot (disk st i));
  ci_unique i to to' t : vote_given st i to t -> vote_given st i to' t -> to = to';
  (** a vote for another node answers that node's request *)
  ci_request i to t : vote_given st i to t -> to = i \/ vote_sent st to to t
}.

Section Safety.
Context (C : Config) (opts : RaftOptions) (Hjoint : Config_is_joint C = false).

Lemma inv_init : cluster_inv C (cluster_init C opts).
Proof using.
  split; simpl; try done.
  - intros i. apply node_inv_new.
  - intros from to m H. by apply elem_of_nil in H.
  - intros i to t (d & m & _ & _ & H). by apply elem_of_nil in H.
  - intros i to to' t [(d & m & _ & _ & H)|(d & m & _ & _ & H)]; by apply elem_of_nil in H.
  - intros i to t [(d & m & _ & _ & H)|(d & m & _ & _ & H)]; by apply elem_of_nil in H.
Qed.

(** Every vote given is covered by the giver's current ballot. *)
Lemma given_later st i to t : cluster_inv C st -> vote_given st i to t ->
  later (t, Some to) (ballot (nodes st i)).
Proof using.
  intros H [Hs|(dest & m & [[Hg ->]|[Ha ->]] & <- & Hin)].
  - etransitivity; [by apply (ci_sent C st H)|]. rewrite <- (ci_disk C st H i).
    apply (ni_phs _ (ci_node C st H i)).
  - by apply (ni_grants _ (ci_node C st H i)).
  - pose proof (ni_asks _ (ci_node C st H i) dest m Hin Ha) as Hl. by rewrite (ci_id C st H) in Hl.
Qed.

Lemma later_same t to v : later (t, Some to) (t, v) -> v = Some to.
Proof using. intros [_ H]. by apply H. Qed.

Lemma elem_of_addressed i ms from dest m : (from, dest, m) ∈ addressed i ms <-> from = i /\ (dest, m) ∈ ms.
Proof using.
  change (addressed i ms) with ((fun tm => (i, tm.1, tm.2)) <$> ms). rewrite list_elem_of_fmap. split.
  - intros ([to' m'] & [= -> -> ->] & Hin). done.
  - intros [-> Hin]. by exists (dest, m).
Qed.

Lemma sent_step st st' i ms j to t : net st' = net st ++ addressed i ms ->
  vote_sent st' j to t <->
  vote_sent st j to t \/ (j = i /\ exists dest m, shows i to dest m /\ m_term m = t /\ (dest, m) ∈ ms).
Proof using.
  intros E. unfold vote_sent. rewrite E. setoid_rewrite elem_of_app. setoid_rewrite elem_of_addressed. split.
  - intros (d & m & Hs & Ht & [Hin|[-> Hin]]); [left; by eauto 6|right; by eauto 8].
  - intros [(d & m & Hs & Ht & Hin)|(-> & d & m & Hs & Ht & Hin)]; exists d, m; auto.
Qed.

(** What a step at node [i] that sends [ms] has to establish at that node. *)
Lemma inv_update st st' i ms :
  cluster_inv C st ->
  (forall j, j <> i -> nodes st' j = nodes st j /\ disk st' j = disk st j) ->
  net st' = net st ++ addressed i ms ->
  r_id (nodes st' i) = i -> node_inv (nodes st' i) ->
  hs_ballot (r_persisted_hard_state (nodes st' i)) = hs_ballot (disk st' i) ->
  elected C (fun j t => vote_sent st' j i t) (nodes st' i) ->
  Forall (fun tm => msg_fixed C tm.2) ms ->
  (forall to t, vote_sent st' i to t -> later (t, Some to) (hs_ballot (disk st' i))) ->
  (forall to to' t, vote_given st' i to t -> vote_given st' i to' t -> to = to') ->
  (forall to t, vote_given st' i to t -> to = i \/ vote_sent st' to to t) ->
  cluster_inv C st'.
Proof using.
  intros H Ho En Hid Hn Hp He Hms Hs Hu Hrq.
  assert (Hsent : forall j to t, j <> i -> vote_sent st' j to t -> vote_sent st j to t).
  { intros j to t Hj. rewrite (sent_step st st' i ms) by done. by intros [?|[? _]]. }
  split; intros j; (destruct (decide (j = i)) as [->|Hj]; [try done|]);
    try (destruct (Ho j Hj) as [E1 E2]; rewrite ?E1, ?E2).
  - apply (ci_id C st H).
  - apply (ci_node C st H).
  - apply (ci_disk C st H).
  - eapply elected_mono; [|apply (ci_elected C st H)]. intros k t Hk.
    apply (sent_step st st' i ms); auto.
  - intros to m. rewrite En. intros [Hin|Hin]%elem_of_app; [by eapply (ci_net C st H)|].
    apply elem_of_addressed in Hin as [_ Hin]. rewrite Forall_forall in Hms. by apply (Hms (to, m)).
  - intros to m. rewrite En. intros [Hin|Hin]%elem_of_app; [by eapply (ci_net C st H)|].
    by apply elem_of_addressed in Hin as [-> _].
  - intros to t Hv. apply (ci_sent C st H). by apply Hsent.
  - intros to to' t. unfold vote_given. rewrite E1. intros G G'. apply (ci_unique C st H j to to' t).
    + destruct G as [G|G]; [left; by apply Hsent|by right].
    + destruct G' as [G'|G']; [left; by apply Hsent|by right].
  - intros to t. unfold vote_given. rewrite E1. intros G. destruct (ci_request C st H j to t) as [->|G'].
    + destruct G as [G|G]; [left; by apply Hsent|by right].
    + by left.
    + right. apply (sent_step st st' i ms); auto.
Qed.

Lemma inv_input st i inp : cluster_inv C st ->
  input_room inp (nodes st i) -> input_fixed C inp ->
  (forall from m, inp = IStep from m -> (from, i, m) ∈ net st) ->
  cluster_inv C (mkCluster (<[i := apply_input inp (nodes st i)]> (nodes st)) (disk st) (net st)).
Proof using Hjoint.
  intros H Hr Hf Hin. pose proof (evolves_input inp _ Hr) as Ev.
  set (r' := apply_input inp (nodes st i)) in *. set (st' := mkCluster _ _ _).
  assert (Er : nodes st' i = r') by apply fn_lookup_insert.
  assert (Es : forall j to t, vote_sent st' j to t <-> vote_sent st j to t) by done.
  assert (Hnew : forall to t, vote_given st' i to t ->
    vote_given st i to t \/ (t = r_term r' /\ r_vote r' = Some to) \/
    (to = i /\ r_term (nodes st i) < t /\ later (t, Some i) (ballot r'))).
  { intros to t [G|(d & m & Hsh & Ht & Hm)]; [by left; left|]. rewrite Er in Hm.
    destruct (ev_msgs _ _ Ev) as (ms & E & Hg & Ha). rewrite E in Hm.
    apply elem_of_app in Hm as [Hm|Hm]; [left; right; by eauto 6|]. right.
    destruct Hsh as [[G ->]|[G ->]].
    - left. destruct (Hg to m Hm G). split; [congruence|done].
    - right. destruct (Ha d m Hm G) as [H1 H2]. rewrite (ci_id C st H), Ht in H2. rewrite Ht in H1. done. }
  assert (Hold : forall to t, vote_given st i to t -> t <= r_term (nodes st i)).
  { intros to t G. by destruct (given_later st i to t H G). }
  assert (Hcover : forall to t, vote_given st i to t -> later (t, Some to) (ballot r')).
  { intros to t G. etransitivity; [by apply given_later|]. apply (ev_ballot _ _ Ev). }
  apply (inv_update st st' i []); rewrite ?Er; try done.
  - intros j Hj. split; [|done]. by apply fn_lookup_insert_ne.
  - simpl. by rewrite app_nil_r.
  - rewrite (ev_id _ _ Ev). apply (ci_id C st H).
  - by apply node_inv_input, (ci_node C st H).
  - rewrite (ev_phs _ _ Ev). apply (ci_disk C st H).
  - apply elected_input; [done|done| |apply (ci_elected C st H)].
    destruct inp; try done. intros Hg. exists i, m. split; [by left|]. split; [done|]. by apply Hin.
  - apply (ci_sent C st H).
  - intros to to' t G G'.
    apply Hnew in G as [G|[[-> G]|(-> & Ht & G)]]; apply Hnew in G' as [G'|[[Et G']|(-> & Ht' & G')]].
    + by apply (ci_unique C st H i to to' t).
    + subst t. apply Hcover, later_same in G. congruence.
    + apply Hold in G. lia.
    + apply Hcover, later_same in G'. congruence.
    + congruence.
    + apply later_same in G'. congruence.
    + apply Hold in G'. lia.
    + subst t. apply later_same in G. congruence.
    + done.
  - intros to t [G|(d & m & [[Hg ->]|[Ha ->]] & Ht & Hm)]; [| |by left].
    + destruct (ci_request C st H i to t (or_introl G)); [by left|by right].
    + rewrite Er in Hm. destruct (grant_answers inp _ to m Hr Hm Hg) as [Hm'|(m0 & -> & Ha & Ht0)].
      * destruct (ci_request C st H i to t) as [|G]; [|by left|by right]. right. exists to, m. by repeat split; [left|..].
      * right. exists i, m0. split; [by right|]. split; [congruence|]. by apply Hin.
Qed.

(** A restart forgets what was not sent and keeps the rest covered. *)
Lemma inv_restore st i snap es sent d :
  cluster_inv C st -> Forall ordinary es -> (forall s, snap = Some s -> sn_config s = C) ->
  sent ⊆ msgs (nodes st i) ->
  (forall to t, vote_sent st i to t -> later (t, Some to) (hs_ballot d)) ->
  (forall to dest m, (dest, m) ∈ sent -> shows i to dest m -> later (m_term m, Some to) (hs_ballot d)) ->
  forall dk, dk i = d -> (forall j, j <> i -> dk j = disk st j) ->
  cluster_inv C (mkCluster (<[i := Raft_restore i opts d snap es C]> (nodes st)) dk
    (net st ++ addressed i sent)).
Proof using.
  intros H Hes Hsn Hsub Hold Hnew dk Ed Eo. set (st' := mkCluster _ _ _).
  assert (Er : nodes st' i = Raft_restore i opts d snap es C) by apply fn_lookup_insert.
  assert (Hms : Forall (fun tm => msg_fixed C tm.2) sent).
  { apply Forall_forall. intros tm Htm. pose proof (el_msgs _ _ _ (ci_elected C st H i)) as Hm.
    rewrite Forall_forall in Hm. by apply Hm, Hsub. }
  assert (Hsubv : forall to t, vote_given st' i to t -> vote_given st i to t).
  { intros to t [G|(dest & m & _ & _ & Hm)].
    - apply (sent_step st st' i sent) in G as [G|(_ & dest & m & Hg & Ht & Hin)]; [by left| |done].
      right. exists dest, m. auto.
    - rewrite Er in Hm. by apply elem_of_nil in Hm. }
  apply (inv_update st st' i sent); try done; rewrite ?Er.
  - intros j Hj. split; [by apply fn_lookup_insert_ne|by apply Eo].
  - done.
  - apply node_inv_restore.
  - simpl. by rewrite Ed.
  - apply elected_idle; [by apply fixed_restore|constructor|by left].
  - simpl. rewrite Ed. intros to t. rewrite (sent_step st st' i sent) by done.
    intros [?|(_ & dest & m & Hsh & <- & Hin)]; [by auto|]. by eapply Hnew.
  - intros to to' t G G'. by apply (ci_unique C st H i to to' t); apply Hsubv.
  - intros to t G%Hsubv. apply (ci_request C st H i to t) in G as [|G]; [by left|right].
    apply (sent_step st st' i sent); auto.
Qed.

Lemma inv_cycle st i : cluster_inv C st ->
  cluster_inv C (mkCluster (<[i := cycle (nodes st i)]> (nodes st))
       (<[i := disk_after (ready (nodes st i)).1 (ready (nodes st i)).2]> (disk st))
       (net st ++ addressed i (rd_messages (ready (nodes st i)).1))).
Proof using.
  intros H. pose proof (ready_rel_ready (nodes st i)) as R.
  destruct (keeps_cycle (nodes st i)) as (Eid & _ & Eb & Ep & Epend).
  pose proof (disk_after_ballot _ (ci_node C st H i)) as Ed.
  rewrite (rr_msgs _ _ _ R). set (d := disk_after _ _) in *. set (r' := cycle (nodes st i)) in *.
  set (st' := mkCluster _ _ _).
  assert (Er : nodes st' i = r') by apply fn_lookup_insert.
  assert (Edk : disk st' i = d) by apply fn_lookup_insert.
  assert (Hsubv : forall to t, vote_given st' i to t -> vote_given st i to t).
  { intros to t [G|(dest & m & _ & _ & Hm)].
    - apply (sent_step st st' i (msgs (nodes st i))) in G as [G|(_ & dest & m & Hg & Ht & Hin)];
        [by left|right; by eauto 6|done].
    - rewrite Er, Epend in Hm. by apply elem_of_nil in Hm. }
  apply (inv_update st st' i (msgs (nodes st i))); rewrite ?Er, ?Edk; try done.
  - intros j Hj. split; by apply fn_lookup_insert_ne.
  - rewrite Eid. apply (ci_id C st H).
  - apply node_inv_cycle, (ci_node C st H).
  - by rewrite Ep.
  - eapply elected_mono; [|apply elected_cycle, (ci_elected C st H)]. intros j t Hj.
    apply (sent_step st st' i (msgs (nodes st i))); auto.
  - apply (ci_elected C st H).
  - intros to t Hv. rewrite Ed. apply (given_later st i to t H), Hsubv. by left.
  - intros to to' t G G'. by apply (ci_unique C st H i to to' t); apply Hsubv.
  - intros to t G%Hsubv. apply (ci_request C st H i to t) in G as [|G]; [by left|right].
    apply (sent_step st st' i (msgs (nodes st i))); auto.
Qed.

Lemma inv_step st st' : cluster_step C opts st st' -> cluster_inv C st -> cluster_inv C st'.
Proof using Hjoint.
  intros Hstep H. destruct Hstep as [st i inp Hr Hf Hin|st i|st i snap es He Hsn|st i snap es sent He Hsn Hsub d].
  - by apply inv_input.
  - by apply inv_cycle.
  - rewrite <- (app_nil_r (net st)). apply (inv_restore st i snap es []); try done.
    + apply list_subseteq_nil.
    + apply (ci_sent C st H).
    + intros to dest m Hin. by apply elem_of_nil in Hin.
  - rewrite (rr_msgs _ _ _ (ready_rel_ready (nodes st i))) in Hsub.
    pose proof (disk_after_ballot _ (ci_node C st H i)) as Ed. fold d in Ed.
    apply inv_restore; try done; rewrite ?Ed.
    + intros to t Hv. apply (given_later st i to t H). by left.
    + intros to dest m Hin Hg. apply (given_later st i to _ H). right. by eauto 6.
    + apply fn_lookup_insert.
    + intros j Hj. by apply fn_lookup_insert_ne.
Qed.

Lemma reachable_inv st : reachable C opts st -> cluster_inv C st.
Proof using Hjoint. induction 1; eauto using inv_init, inv_step. Qed.
End Safety.

(** ** Time *)

(** Later states of a run. *)
Definition leads_to C opts : Cluster -> Cluster -> Prop := rtc (cluster_step C opts).

Lemma reachable_later C opts st st' : reachable C opts st -> leads_to C opts st st' -> reachable C opts st'.
Proof. intros Hr Hs. induction Hs as [|x y z Hxy _ IH]; [done|]. apply IH. by eapply r_step. Qed.

Lemma net_grows C opts st st' from to m :
  leads_to C opts st st' -> (from, to, m) ∈ net st -> (from, to, m) ∈ net st'.
Proof.
  intros Hs. induction Hs as [|x y z Hxy _ IH]; [done|]. intros Hin. apply IH.
  destruct Hxy; simpl; try done; apply elem_of_app; by left.
Qed.

Lemma vote_sent_later C opts st st' i to t : leads_to C opts st st' -> vote_sent st i to t -> vote_sent st' i to t.
Proof. intros Hs (d & m & H1 & H2 & H3). exists d, m. eauto using net_grows. Qed.

(** A quorum of one is a cluster of one. *)
Lemma lone_quorum C q i : Config_is_joint C = false -> Config_has_quorum C q = true ->
  (exists k, k ∈ q /\ k <> i) \/ forall k, Config_is_voter C k = true -> k = i.
Proof.
  intros Hj [Hne [Hm _]]%has_quorum_true.
  assert (Ho : outgoing C = ∅).
  { unfold Config_is_joint in Hj. by destruct (decide (outgoing C = ∅)); [|rewrite bool_decide_eq_false_2 in Hj]. }
  destruct (decide (set_Exists (fun k => k <> i) q)) as [(k & Hk & Hki)|Hall]; [left; by exists k|right].
  assert (Hq : forall k, k ∈ q -> k = i).
  { intros k Hk. destruct (decide (k = i)); [done|]. destruct Hall. by exists k. }
  assert (Hv : voters C <> ∅) by set_solver. apply (majority_true _ _ Hv) in Hm.
  assert (Hle : (size (voters C ∩ q) <= 1)%nat).
  { rewrite <- (size_singleton (C := gset Z) i). apply subseteq_size. set_solver. }
  assert (Hi : i ∈ voters C).
  { destruct (decide (voters C ∩ q = ∅)) as [E|E]; [rewrite E, size_empty in Hm; lia|].
    apply set_choose_L in E as [k Hk]. assert (k = i) as <- by set_solver. set_solver. }
  intros k Hk. destruct (decide (k = i)) as [|Hne']; [done|]. exfalso.
  assert (Hk2 : k ∈ voters C).
  { unfold Config_is_voter in Hk. rewrite Ho, orb_true_iff, !bool_decide_eq_true in Hk. set_solver. }
  assert (H2 : (size ({[k; i]} : gset Z) <= size (voters C))%nat) by (apply subseteq_size; set_solver).
  rewrite size_union, !size_singleton in H2 by set_solver. lia.
Qed.

Lemma counted r k : k ∈ voters_with true r <-> r_votes r !! k = Some true.
Proof.
  unfold voters_with. rewrite elem_of_dom. split.
  - intros [g [? E]%map_lookup_filter_Some]. simpl in E. by subst.
  - intros E. exists true. by apply map_lookup_filter_Some.
Qed.

Lemma one_leader C opts st st' i j :
  Config_is_joint C = false -> reachable C opts st -> leads_to C opts st st' ->
  r_role (nodes st i) = Leader -> r_role (nodes st' j) = Leader ->
  r_term (nodes st i) = r_term (nodes st' j) -> i = j.
Proof.
  intros Hj Hr Hs Li Lj Et. set (t := r_term (nodes st i)) in *.
  pose proof (reachable_inv C opts Hj st Hr) as H.
  pose proof (reachable_inv C opts Hj st' (reachable_later _ _ _ _ Hr Hs)) as H'.
  pose proof (ci_elected C st H i) as Ei. pose proof (ci_elected C st' H' j) as Ej.
  pose proof (el_quorum _ _ _ Ei Li) as Qi. pose proof (el_quorum _ _ _ Ej Lj) as Qj.
  assert (Votes : forall k, k ∈ voters_with true (nodes st i) -> k = i \/ vote_sent st k i t).
  { intros k Hk%counted. pose proof (el_votes _ _ _ Ei (or_intror Li) k Hk) as Hv. by rewrite (ci_id C st H) in Hv. }
  destruct (lone_quorum C _ i Hj Qi) as [(k0 & Hk0 & Hne)|Hlone].
  2: { symmetry. apply Hlone. rewrite <- (ci_id C st' H' j). apply (el_member _ _ _ Ej). by rewrite Lj. }
  assert (Self : vote_sent st i i t).
  { destruct (Votes k0 Hk0) as [|Hv]; [done|]. by destruct (ci_request C st H k0 i t (or_introl Hv)) as [->|]. }
  destruct (quorums_meet C _ _ Qi Qj) as (k & _ & Hki & Hkj).
  assert (Vi : vote_sent st' k i t).
  { eapply vote_sent_later; [exact Hs|]. by destruct (Votes k Hki) as [->|]. }
  apply counted, (el_votes _ _ _ Ej (or_intror Lj)) in Hkj. rewrite (ci_id C st' H'), <- Et in Hkj.
  destruct Hkj as [->|Hkj]; [|by eapply (ci_unique C st' H' k i j t); left].
  pose proof (given_later C st' j i t H' (or_introl Vi)) as Hl. unfold ballot in Hl. rewrite <- Et in Hl.
  apply later_same in Hl. rewrite (ri_vote _ (ni_role _ (ci_node C st' H' j))) in Hl by auto.
  rewrite (ci_id C st' H') in Hl. congruence.
Qed.

(** C1: Election Safety. In a cluster with a fixed, non-joint membership, under
    any interleaving of ticks, deliveries (with loss, duplication and
    reordering), proposals, reads, snapshots, compactions, driver cycles and
    crashes that keep only what was persisted, a term has one leader for ever: a
    node that leads in a term, and a node that leads in it at that moment or any
    later one, whatever crashed in between, are the same node. *)
Theorem election_safety C opts st st' i j :
  Config_is_joint C = false -> reachable C opts st -> rtc (cluster_step C opts) st st' ->
  r_role (nodes st i) = Leader -> r_role (nodes st' j) = Leader ->
  r_term (nodes st i) = r_term (nodes st' j) -> i = j.
Proof. apply one_leader. Qed.

(** A three-node run in which node 1 is elected: it times out, polls, is
    granted the poll and the vote by node 2, and leads term 1. *)
Definition one_tick : RaftOptions := mkRaftOptions 1 1 64 1000 true false 10.

Definition c3 : Config := Config_simple [1; 2; 3].

Definition do_input (i : NodeId) (inp : Input) (st : Cluster) : Cluster :=
  mkCluster (<[i := apply_input inp (nodes st i)]> (nodes st)) (disk st) (net st).
Definition do_cycle (i : NodeId) (st : Cluster) : Cluster :=
  mkCluster (<[i := cycle (nodes st i)]> (nodes st))
    (<[i := disk_after (ready (nodes st i)).1 (ready (nodes st i)).2]> (disk st))
    (net st ++ addressed i (rd_messages (ready (nodes st i)).1)).

Lemma reach_tick C opts st i rand : reachable C opts st -> term_room (nodes st i) ->
  reachable C opts (do_input i (ITick rand) st).
Proof. intros H Hr. eapply r_step; [exact H|]. by apply c_input. Qed.

Lemma reach_deliver C opts st i from m : reachable C opts st ->
  input_room (IStep from m) (nodes st i) -> msg_fixed C m -> (from, i, m) ∈ net st ->
  reachable C opts (do_input i (IStep from m) st).
Proof. intros H Hr Hm Hin. eapply r_step; [exact H|]. apply c_input; [done|done|]. by intros ? ? [= -> ->]. Qed.

Lemma reach_do_cycle C opts st i : reachable C opts st -> reachable C opts (do_cycle i st).
Proof. intros H. eapply r_step; [exact H|]. apply c_cycle. Qed.

Definition w1 : Cluster := do_cycle 1 (do_input 1 (ITick 7) (cluster_init c3 one_tick)).
Definition w2 : Cluster := do_cycle 2 (do_input 2 (IStep 1 (mkMessage 1 (PreVoteReq 0 0))) w1).
Definition w3 : Cluster := do_cycle 1 (do_input 1 (IStep 2 (mkMessage 1 (PreVoteResp true))) w2).
Definition w4 : Cluster := do_cycle 2 (do_input 2 (IStep 1 (mkMessage 1 (VoteReq 0 0))) w3).
Definition w5 : Cluster := do_input 1 (IStep 2 (mkMessage 1 (VoteResp true))) w4.

Lemma w5_reachable : reachable c3 one_tick w5.
Proof.
  apply reach_deliver; [|by_decide|done|by_decide].
  apply reach_do_cycle, reach_deliver; [|by_decide|done|by_decide].
  apply reach_do_cycle, reach_deliver; [|by_decide|done|by_decide].
  apply reach_do_cycle, reach_deliver; [|by_decide|done|by_decide].
  apply reach_do_cycle, reach_tick; [apply r_init|].
  unfold term_room. simpl. lia.
Qed.

Lemma w5_follows_init : rtc (cluster_step c3 one_tick) (cluster_init c3 one_tick) w5.
Proof.
  assert (Hin : forall st i inp, input_room inp (nodes st i) -> input_fixed c3 inp ->
    (forall from m, inp = IStep from m -> (from, i, m) ∈ net st) -> rtc (cluster_step c3 one_tick) st (do_input i inp st)).
  { intros st i inp H1 H2 H3. apply rtc_once. by apply c_input. }
  assert (Hcy : forall st i, rtc (cluster_step c3 one_tick) st (do_cycle i st)) by (intros; apply rtc_once, c_cycle).
  etransitivity; [|apply Hin; [by_decide|done|intros ? ? [= <- <-]; by_decide]].
  do 3 (etransitivity; [|apply Hcy]; etransitivity; [|apply Hin; [by_decide|done|intros ? ? [= <- <-]; by_decide]]).
  etransitivity; [|apply Hcy]. apply Hin; [by_decide|done|done].
Qed.

Lemma election_safety_witness :
  r_role (nodes w5 1) = Leader /\ r_term (nodes w5 1) = 1 /\
  forall j, r_role (nodes w5 j) = Leader -> r_term (nodes w5 j) = 1 -> 1 = j.
Proof.
  assert (Lead : r_role (nodes w5 1) = Leader) by (vm_compute; reflexivity).
  assert (Et : r_term (nodes w5 1) = 1) by (vm_compute; reflexivity).
  split; [exact Lead|]. split; [exact Et|]. intros j Lj Ej.
  apply (election_safety c3 one_tick w5 w5 1 j); [by_decide|exact w5_reachable|apply rtc_refl|exact Lead|exact Lj|].
  rewrite Et, Ej. reflexivity.
Defined.
