(* ===== verification/RaftCommit.v ===== *)
(** * The log and the commit index of a node

    [log_ok] says that a node's log is well formed and its commit index lies
    inside it. Every input preserves it (as long as indices stay below the top
    of [u64]), recovery establishes it, and with it the entries handed to the
    state machine are exactly the next ones in order. The commit rule, and four
    places where the code departs from its comments, are stated at the end. *)

From Stdlib Require Import ZArith Lia.
From stdpp Require Import base tactics list list_numbers gmap sets sorting.
From S2P Require Import Prelude Codec Types RaftLog Msg RaftState Raft RaftNode.

Open Scope Z_scope.

Record log_ok (r : Raft) : Prop := {
  lo_wf : wf_log (r_log r);
  lo_commit : 0 <= r_commit r <= Log_last_index (r_log r)
}.

#[export] Instance log_ok_dec r : Decision (log_ok r).
Proof.
  refine (cast_if_and (decide (wf_log (r_log r))) (decide (0 <= r_commit r <= Log_last_index (r_log r))));
  abstract (try (intros []); try split; naive_solver).
Defined.

(** There is room for one more entry. *)
Definition log_room (r : Raft) : Prop := Log_last_index (r_log r) + 1 < U64 - 1.

(** What the wire format and a correct leader guarantee of a message. *)
Definition body_wf (b : Body) : Prop :=
  match b with
  | AppendReq pi _ es _ =>
      0 <= pi /\ contiguous_from (pi + 1) es /\ pi + Z.of_nat (length es) < U64 - 1
  | SnapshotReq s => 0 <= sn_last_index s < U64 - 1
  | _ => True
  end.

Definition input_wf (i : Input) : Prop :=
  match i with IStep _ m => body_wf (m_body m) | _ => True end.

(** ** Updates that leave the log and the commit index alone *)

Definition samelog (r r' : Raft) : Prop := r_log r' = r_log r /\ r_commit r' = r_commit r.

#[export] Instance samelog_refl : Reflexive samelog.
Proof. intros r. by split. Qed.
#[export] Instance samelog_trans : Transitive samelog.
Proof. intros r1 r2 r3 [] []. split; congruence. Qed.

Lemma samelog_ok r r' : samelog r r' -> log_ok r -> log_ok r'.
Proof. intros [El Ec] [Hw Hc]. split; by rewrite El, ?Ec. Qed.

Lemma samelog_room r r' : samelog r r' -> log_room r -> log_room r'.
Proof. intros [El _]. unfold log_room. by rewrite El. Qed.

Lemma quiet_samelog r r' : quiet r r' -> samelog r r'.
Proof. intros []. by split. Qed.

Lemma samelog_set_role v r : samelog r (set_role v r).
Proof. done. Qed.
Lemma samelog_set_leader v r : samelog r (set_leader v r).
Proof. done. Qed.
Lemma samelog_set_votes v r : samelog r (set_votes v r).
Proof. done. Qed.
Lemma samelog_set_vote v r : samelog r (set_vote v r).
Proof. done. Qed.
Lemma samelog_set_term v r : samelog r (set_term v r).
Proof. done. Qed.
Lemma samelog_set_dirty v r : samelog r (set_hard_state_dirty v r).
Proof. done. Qed.
Lemma samelog_set_applied v r : samelog r (set_applied v r).
Proof. done. Qed.
Lemma samelog_set_persisted v r : samelog r (set_persisted v r).
Proof. done. Qed.
Lemma samelog_supersede s r : samelog r (supersede_pending s r).
Proof. done. Qed.
Lemma samelog_send to b r : samelog r (send to b r).
Proof. done. Qed.

#[export] Hint Resolve quiet_samelog samelog_set_role samelog_set_leader samelog_set_votes
  samelog_set_vote samelog_set_term samelog_set_dirty samelog_set_applied samelog_set_persisted
  samelog_supersede samelog_send : raft.

Lemma samelog_become_follower t l r : samelog r (become_follower t l r).
Proof. unfold become_follower. destruct (_ <? _); calm_chain. Qed.

Lemma samelog_draw r : samelog r (campaign_draw r).
Proof. done. Qed.

Lemma samelog_follow from r : samelog r (follow from r).
Proof. unfold follow. case_bool_decide; [|calm_chain]. etransitivity; [apply samelog_become_follower|]. calm_chain. Qed.

#[export] Hint Resolve samelog_become_follower samelog_draw samelog_follow : raft.

(** ** The operations that move the log or the commit index *)

(** The one-entry appends of a leader. *)
Lemma ok_append_own r k t : log_ok r -> log_room r ->
  log_ok (append_to_own_log [mkEntry t (Log_last_index (r_log r) +64 1) k] r).
Proof.
  intros [Hw Hc] Hr. unfold append_to_own_log. unfold log_room in Hr.
  pose proof (last_index_wf _ Hw) as El. pose proof (wf_snapshot _ Hw) as Hs.
  rewrite wadd64_small by lia.
  assert (Hw' : wf_log (Log_append (r_log r) [mkEntry t (Log_last_index (r_log r) + 1) k])).
  { apply append_wf; [done|by apply contiguous_cons|simpl; lia]. }
  split; simpl; [done|]. rewrite append_last_index by done. simpl. lia.
Qed.

Lemma ok_advance_commit r : log_ok r -> log_ok (maybe_advance_commit r).
Proof.
  intros [Hw Hc]. unfold maybe_advance_commit.
  destruct (Z.leb_spec (Config_quorum_index (Log_config (r_log r)) (matched_of r)) (r_commit r)) as [|Hlt]; [done|].
  case_bool_decide as Et; [done|]. split; [done|]. simpl.
  destruct (term_at_Some _ Hw _ _ Et); lia.
Qed.

Lemma ok_raise_commit c r : log_ok r -> c <= Log_last_index (r_log r) -> log_ok (raise_commit c r).
Proof.
  intros [Hw Hc] Hle. unfold raise_commit. destruct (Z.ltb_spec (r_commit r) c); [|done].
  split; simpl; [done|lia].
Qed.

Lemma ok_become_leader r : log_ok r -> log_room r -> log_ok (become_leader r).
Proof.
  intros H Hr. unfold become_leader. cbv zeta. set (r0 := set_pending_reads _ _).
  assert (S0 : samelog r r0) by done. clearbody r0.
  set (r1 := reset_progress_for_config r0).
  assert (S1 : samelog r r1) by (transitivity r0; [done|unfold r1; auto with raft]). clearbody r1.
  eapply samelog_ok; [apply quiet_samelog, quiet_broadcast|].
  apply ok_append_own; [by eapply samelog_ok|by eapply samelog_room].
Qed.

Lemma ok_campaign_vote r : log_ok r -> log_room r -> log_ok (campaign_vote r).
Proof.
  intros H Hr. unfold campaign_vote. cbv zeta. set (r1 := campaign_draw r).
  assert (S1 : samelog r r1) by apply samelog_draw. clearbody r1.
  set (r2 := set_votes _ _). assert (S2 : samelog r r2) by (transitivity r1; [done|unfold r2; calm_chain]).
  clearbody r2. destruct (tally _ _).
  - apply ok_become_leader; [by eapply samelog_ok|by eapply samelog_room].
  - eapply samelog_ok; [|exact H]. transitivity r2; [done|].
    destruct (ask_peers (Log_last_index (r_log r1)) (Log_last_term (r_log r1)) r2) as (ms & -> & _). by split.
Qed.

Lemma ok_campaign b r : log_ok r -> log_room r -> log_ok (campaign b r).
Proof.
  intros H Hr. unfold campaign. destruct b; [|by apply ok_campaign_vote]. cbv zeta.
  set (r1 := campaign_draw r). assert (S1 : samelog r r1) by apply samelog_draw. clearbody r1.
  set (r2 := set_votes _ _). assert (S2 : samelog r r2) by (transitivity r1; [done|unfold r2; calm_chain]).
  clearbody r2. destruct (tally _ _).
  - apply ok_campaign_vote; [by eapply samelog_ok|by eapply samelog_room].
  - eapply samelog_ok; [|exact H]. transitivity r2; [done|].
    apply quiet_samelog, quiet_send_to_peers. auto with raft.
Qed.

Lemma samelog_check_quorum r : samelog r (check_quorum r).
Proof.
  unfold check_quorum. cbv zeta. destruct (Config_has_quorum _ _); [calm_chain|].
  etransitivity; [|apply samelog_become_follower]. auto with raft.
Qed.

Lemma ok_tick rand r : log_ok r -> log_room r -> log_ok (tick rand r).
Proof.
  intros H Hr. unfold tick. cbv zeta. set (r1 := set_election_elapsed _ _).
  assert (S1 : samelog r r1) by done. clearbody r1.
  assert (Hel : log_ok (if promotable r1 && (r_election_timeout r1 <=? r_election_elapsed r1)
    then start_election r1 else r1)).
  { destruct (_ && _); [apply ok_campaign; [by eapply samelog_ok|by eapply samelog_room]|by eapply samelog_ok]. }
  destruct (r_role r1); try exact Hel. clear Hel. eapply samelog_ok; [|exact H].
  set (r2 := set_quorum_contact_elapsed _ _). assert (S2 : samelog r1 r2) by done.
  clearbody r2. set (r3 := if _ : bool then broadcast_append _ else _).
  assert (S3 : samelog r2 r3) by (unfold r3; destruct (_ <=? _); calm_chain). clearbody r3.
  set (r4 := if _ : bool then check_quorum _ else _). assert (S4 : samelog r3 r4).
  { unfold r4. destruct (_ <=? _); [|done]. etransitivity; [|apply samelog_check_quorum]. auto with raft. }
  clearbody r4. transitivity r4; [|auto with raft]. transitivity r3; [|done]. transitivity r2; [|done].
  by transitivity r1.
Qed.

Lemma ok_handle_append from pi pt es c r : log_ok r -> body_wf (AppendReq pi pt es c) ->
  log_ok (handle_append from pi pt es c r).
Proof.
  intros H (Hpi & Hes & Hlen). unfold handle_append. cbv zeta.
  apply (samelog_ok _ _ (samelog_follow from r)) in H. set (r1 := follow from r) in *. clearbody r1.
  destruct (Z.ltb_spec pi (snapshot_index (r_log r1))) as [|Hsn]; [by eapply samelog_ok; [apply samelog_send|]|].
  destruct (Log_term_at (r_log r1) pi) as [t|] eqn:Et; [|by eapply samelog_ok; [apply samelog_send|]].
  destruct (_ =? _); [|by eapply samelog_ok; [apply samelog_send|]].
  assert (Hp : snapshot_index (r_log r1) <= pi <= Log_last_index (r_log r1)).
  { pose proof (last_index_wf _ (lo_wf _ H)). pose proof (wf_snapshot _ (lo_wf _ H)).
    destruct (term_at_Some _ (lo_wf _ H) _ _ Et); lia. }
  pose proof (merge_loop_outcome _ _ _ (lo_wf _ H) Hes Hp) as Ho.
  pose proof (merge_outcome_wf _ _ _ _ (lo_wf _ H) Hes (proj1 Hp) Hlen Ho) as Hw.
  destruct (Log_merge (r_log r1) pi es) as [log last_new] eqn:M.
  assert (El : log = Log_merge_loop (r_log r1) es) by (rewrite <- (merge_fst _ pi); by rewrite M).
  rewrite <- El in Hw. set (r2 := set_log log r1).
  set (r3 := match es with [] => r2 | _ => _ end).
  assert (E3 : r_log r3 = log /\ r_commit r3 = r_commit r1) by (unfold r3; by destruct es). clearbody r3.
  set (r4 := raise_commit _ r3).
  assert (E4 : r_log r4 = log /\ r_commit r1 <= r_commit r4).
  { destruct E3 as [E3 E3c]. unfold r4, raise_commit.
    destruct (Z.ltb_spec (r_commit r3) (Z.min c last_new)); simpl; split; try done; lia. }
  clearbody r4. destruct E4 as [E4 Hc4]. pose proof (lo_commit _ H) as Hc.
  eapply samelog_ok; [apply samelog_send|]. rewrite E4.
  pose proof (last_index_wf _ Hw). pose proof (wf_snapshot _ Hw).
  destruct (Z.ltb_spec (Log_last_index log) (r_commit r4)); split; simpl; rewrite ?E4; try done; lia.
Qed.

Lemma ok_append_resp from s mi ci ct r : log_ok r -> log_ok (handle_append_resp from s mi ci ct r).
Proof.
  intros H. unfold handle_append_resp. case_bool_decide as D; [done|]. cbv zeta.
  destruct (r_progress r !! from) as [p|]; [|done]. destruct s.
  - set (r0 := set_progress _ r). assert (H0 : log_ok r0) by (eapply samelog_ok; [|exact H]; unfold r0; auto with raft).
    clearbody r0.
    apply ok_advance_commit in H0. set (r1 := maybe_advance_commit r0) in *. clearbody r1.
    destruct (r_progress r1 !! from) as [q|]; [destruct (_ <? _)|]; try done.
    eapply samelog_ok; [|exact H0]. auto with raft.
  - eapply samelog_ok; [|exact H]. calm_chain.
Qed.

Lemma install_last_index l s : wf_log l -> 0 <= sn_last_index s ->
  sn_last_index s <= Log_last_index (Log_install_snapshot l s) /\
  (Log_last_index (Log_install_snapshot l s) = Log_last_index l \/
   Log_last_index (Log_install_snapshot l s) = sn_last_index s).
Proof.
  intros Hl Hs. unfold Log_install_snapshot. case_bool_decide as Et.
  2: { unfold Log_last_index. simpl. auto with lia. }
  rewrite compact_last_index by done. split; [|by left].
  pose proof (last_index_wf l Hl). pose proof (wf_snapshot l Hl).
  destruct (term_at_Some l Hl _ _ Et); lia.
Qed.

Lemma ok_handle_snapshot from s r : log_ok r -> body_wf (SnapshotReq s) -> log_ok (handle_snapshot from s r).
Proof.
  intros H Hs. unfold handle_snapshot. cbv zeta.
  apply (samelog_ok _ _ (samelog_follow from r)) in H. set (r1 := follow from r) in *. clearbody r1.
  destruct (Z.leb_spec (sn_last_index s) (r_commit r1)) as [|Hlt]; [by eapply samelog_ok; [apply samelog_send|]|].
  simpl in Hs. pose proof (install_wf _ s (lo_wf _ H) Hs) as Hw.
  destruct (install_last_index _ s (lo_wf _ H)) as [H1 H2]; [lia|].
  destruct H as [_ Hc]. split; simpl; [done|]. destruct H2 as [E|E]; rewrite E in *; lia.
Qed.

Lemma ok_heartbeat from c x r : log_ok r -> log_ok (handle_heartbeat from c x r).
Proof.
  intros H. unfold handle_heartbeat. cbv zeta.
  apply (samelog_ok _ _ (samelog_follow from r)) in H. set (r1 := follow from r) in *. clearbody r1.
  eapply samelog_ok; [apply samelog_send|]. apply ok_raise_commit; [done|lia].
Qed.

Lemma ok_snapshot_resp from s i r : log_ok r -> log_ok (handle_snapshot_resp from s i r).
Proof.
  intros H. unfold handle_snapshot_resp. case_bool_decide; [done|].
  destruct (r_progress r !! from) as [p|]; [|done]. destruct s; [apply ok_advance_commit|];
    (eapply samelog_ok; [|exact H]; auto with raft).
Qed.

Lemma ok_pre_vote_resp from t g r : log_ok r -> log_room r -> log_ok (handle_pre_vote_resp from t g r).
Proof.
  intros H Hr. unfold handle_pre_vote_resp. case_bool_decide; [done|].
  destruct (_ && _); [by eapply samelog_ok; [apply samelog_become_follower|]|].
  cbv zeta. set (r1 := set_votes _ _). assert (S1 : samelog r r1) by done. clearbody r1.
  destruct (tally _ _); [apply ok_campaign; [by eapply samelog_ok|by eapply samelog_room]|].
  destruct (lost _ _); by eapply samelog_ok.
Qed.

Lemma ok_vote_resp from g r : log_ok r -> log_room r -> log_ok (handle_vote_resp from g r).
Proof.
  intros H Hr. unfold handle_vote_resp. case_bool_decide; [done|].
  cbv zeta. set (r1 := set_votes _ _). assert (S1 : samelog r r1) by done. clearbody r1.
  destruct (tally _ _); [apply ok_become_leader; [by eapply samelog_ok|by eapply samelog_room]|].
  destruct (lost _ _); [|by eapply samelog_ok].
  eapply samelog_ok; [apply samelog_become_follower|]. by eapply samelog_ok.
Qed.

Lemma samelog_vote_req from i t r : samelog r (handle_vote_req from i t r).
Proof.
  unfold handle_vote_req. cbv zeta. set (can := match r_vote r with None => true | Some v => _ end).
  clearbody can. by destruct (can && _).
Qed.

Lemma ok_step from m r : log_ok r -> log_room r -> body_wf (m_body m) -> log_ok (step from m r).
Proof.
  intros H Hr Hm. unfold step. cbv zeta. assert (S1 : samelog r (adopt_term from m r)).
  { unfold adopt_term. destruct (_ && _); [apply samelog_become_follower|reflexivity]. }
  apply (samelog_ok _ _ S1) in H. apply (samelog_room _ _ S1) in Hr. clear S1.
  set (r1 := adopt_term from m r) in *. clearbody r1. destruct (_ <? _).
  - destruct (m_body m); try done; by eapply samelog_ok; [apply samelog_send|].
  - unfold handle. destruct (m_body m);
      auto using ok_pre_vote_resp, ok_vote_resp, ok_handle_append, ok_append_resp,
        ok_handle_snapshot, ok_snapshot_resp, ok_heartbeat.
    + eapply samelog_ok; [apply quiet_samelog, quiet_pre_vote_req|done].
    + eapply samelog_ok; [apply samelog_vote_req|done].
    + eapply samelog_ok; [apply quiet_samelog, quiet_heartbeat_resp|done].
    + destruct (promotable r1); [by apply ok_campaign|done].
Qed.

Lemma ok_propose_config change r : log_ok r -> log_room r -> log_ok (propose_config change r).2.
Proof.
  intros H Hr. unfold propose_config. case_bool_decide; [done|]. cbv zeta.
  set (refused := match change with EnterJoint _ _ => _ | LeaveJoint => _ end). clearbody refused.
  destruct refused; [done|]. destruct (existsb _ _); [done|]. cbn [snd].
  eapply samelog_ok; [apply quiet_samelog, quiet_broadcast|].
  eapply samelog_ok; [apply quiet_samelog, quiet_reset_progress|]. by apply ok_append_own.
Qed.

Lemma ok_input i r : log_ok r -> log_room r -> input_wf i -> log_ok (apply_input i r).
Proof.
  intros H Hr Hi. destruct i; simpl in *; auto using ok_tick, ok_step, ok_propose_config.
  - unfold propose. case_bool_decide; [done|]. cbn [snd].
    eapply samelog_ok; [apply quiet_samelog, quiet_broadcast|]. by apply ok_append_own.
  - unfold maybe_finish_config_change. case_bool_decide; [done|]. cbv zeta.
    destruct (negb _); [done|]. destruct (negb _); [done|]. by apply ok_propose_config.
  - eapply samelog_ok; [apply quiet_samelog, quiet_read_index|done].
  - eapply samelog_ok; [apply quiet_samelog, quiet_transfer|done].
  - unfold step_down. case_bool_decide; [|done]. by eapply samelog_ok; [apply samelog_become_follower|].
  - eapply samelog_ok; [|exact H]. unfold report_persisted. auto with raft.
  - destruct (snapshot_at_applied data r) as [s|]; [|done]. destruct H as [Hw Hc].
    split; simpl; [by apply compact_wf|]. by rewrite compact_last_index.
  - eapply samelog_ok; [|exact H]. unfold send_snapshot. calm_chain.
Qed.

(** ** Recovery and the driver cycle *)

(** What the WAL recovers: entries that continue the snapshot, or start at 1. *)
Definition recovered_ok (snap : option Snapshot) (es : list Entry) : Prop :=
  let base := match snap with Some s => sn_last_index s | None => 0 end in
  0 <= base /\ contiguous_from (base + 1) es /\ base + Z.of_nat (length es) < U64 - 1.

#[export] Instance recovered_ok_dec snap es : Decision (recovered_ok snap es).
Proof. unfold recovered_ok. apply _. Defined.

Lemma restore_log_wf snap es : recovered_ok snap es -> wf_log (Log_restore snap es).
Proof. intros (H1 & H2 & H3). destruct snap as [s|]; by split. Qed.

(** Falling back to the bootstrap configuration re-appends the entries, which
    continues index 0 only if there is no snapshot. *)
Lemma ok_restore id opts hard snap es cfg :
  recovered_ok snap es -> 0 <= hs_commit hard ->
  (forall s, snap = Some s -> voters (Log_config (Log_restore snap es)) <> ∅) ->
  log_ok (Raft_restore id opts hard snap es cfg).
Proof.
  intros Hrec Hc Hv. pose proof (restore_log_wf snap es Hrec) as Hw. unfold Raft_restore. cbv zeta.
  set (l := if _ : bool then _ else _). assert (Hl : wf_log l).
  { unfold l. case_bool_decide as E; [|done]. destruct snap as [s|]; [by destruct (Hv s eq_refl)|].
    destruct Hrec as (_ & Hes & Hlen). unfold Log_entries_from.
    rewrite slice_filter by done. rewrite filter_all.
    - split; simpl; [lia|exact Hes|exact Hlen].
    - rewrite last_index_succ_wf, last_index_wf by done. simpl. apply Forall_forall.
      intros e [k Hk]%list_elem_of_lookup. pose proof (contiguous_lookup _ _ _ _ Hes Hk).
      apply lookup_lt_Some in Hk. lia. }
  clearbody l. split; simpl; [done|]. pose proof (last_index_wf l Hl). pose proof (wf_snapshot l Hl). lia.
Qed.

Lemma ok_cycle r : log_ok r -> log_ok (cycle r).
Proof.
  intros [Hw Hc]. unfold cycle.
  assert (H : log_ok (ready r).2).
  { unfold ready. cbv zeta. destruct (r_dirty_from _); simpl; destruct (r_hard_state_dirty r); simpl;
      split; simpl; try done; lia. }
  unfold advance. cbv zeta. set (rd := (ready r).1). set (r0 := (ready r).2) in *. clearbody rd r0.
  set (r1 := match rd_hard_state rd with Some _ => _ | None => r0 end).
  assert (H1 : log_ok r1) by (unfold r1; destruct (rd_hard_state rd); [by destruct H|done]). clearbody r1.
  set (r2 := update_progress _ _ _).
  assert (H2 : log_ok r2) by (eapply samelog_ok; [|exact H1]; unfold r2; auto with raft). clearbody r2.
  set (r3 := if _ : bool then maybe_advance_commit r2 else r2).
  assert (H3 : log_ok r3) by (unfold r3; case_bool_decide; [by apply ok_advance_commit|done]). clearbody r3.
  eapply samelog_ok; [|exact H3]. destruct (last _); calm_chain.
Qed.

(** The commit index always lies inside the log. Recovery establishes it,
    clamping a stale one to what survived, and every input with well-formed
    messages and every driver cycle preserves it, together with the contiguity
    of the log; in particular a conflicting append that cuts the log back
    brings the commit index back with it. *)
Theorem commit_stays_in_log :
  (forall id opts hard snap es cfg,
     recovered_ok snap es -> 0 <= hs_commit hard ->
     (forall s, snap = Some s -> voters (Log_config (Log_restore snap es)) <> ∅) ->
     log_ok (Raft_restore id opts hard snap es cfg)) /\
  (forall id cfg opts, log_ok (Raft_new id cfg opts)) /\
  (forall i r, log_ok r -> log_room r -> input_wf i -> log_ok (apply_input i r)) /\
  (forall r, log_ok r -> log_ok (cycle r)).
Proof.
  split; [apply ok_restore|]. split; [|split; [apply ok_input|apply ok_cycle]].
  intros id cfg opts. split; [apply wf_bootstrap|done].
Qed.

Lemma commit_stays_in_log_witness :
  log_ok (apply_input (IStep 2 (mkMessage 5 (AppendReq 0 0 [demo_entry 5 1; demo_entry 5 2] 1))) demo_node).
Proof.
  destruct commit_stays_in_log as (_ & Hnew & Hin & _). apply Hin.
  - apply Hnew.
  - by_decide.
  - simpl. by_decide.
Defined.

(** ** The commit rule *)

(** Who has index [i] safe, as far as the leader knows: itself, if it has made its log
    durable that far, and a peer that acknowledged that far. *)
Definition has_safe (r : Raft) (i : Index) (id : NodeId) : Prop :=
  if decide (id = r_id r) then i <= r_persisted r
  else i <= default 0 (p_matched <$> r_progress r !! id).

#[export] Instance has_safe_dec r i id : Decision (has_safe r i id).
Proof. unfold has_safe. case_decide; apply _. Defined.

(** The voters that do, those of both halves of a joint configuration included. *)
Definition holders (r : Raft) (i : Index) : gset NodeId :=
  let c := Log_config (r_log r) in filter (has_safe r i) (voters c ∪ outgoing c).

Lemma holders_matched r i :
  holders r i = filter (fun id => i <= matched_of r id) (voters (Log_config (r_log r)) ∪ outgoing (Log_config (r_log r))).
Proof.
  unfold holders. apply set_eq. intros id. rewrite !elem_of_filter. unfold has_safe, matched_of.
  destruct (Z.eqb_spec id (r_id r)) as [->|Hne]; [by rewrite decide_True|]. rewrite decide_False by done.
  by destruct (r_progress r !! id).
Qed.

(** C21: a leader advances its commit index exactly by the rule of section 5.4.2.
    If it moves, it moves up to an index that a quorum of the configuration (of
    both halves of a joint one) holds: the leader counts itself for the index up to
    which it has made its log durable, and every other voter for the index that it
    acknowledged; the entry there is of the leader's own term; and no
    higher index is held by a quorum. If it does not move, then no index above
    it is both held by a quorum and the highest such, with an entry of the
    leader's term. *)
Theorem commit_rule r :
  voters (Log_config (r_log r)) ∪ outgoing (Log_config (r_log r)) <> ∅ ->
  let c := r_commit (maybe_advance_commit r) in
  let held i := Config_has_quorum (Log_config (r_log r)) (holders r i) = true in
  (c <> r_commit r ->
     r_commit r < c /\ held c /\ Log_term_at (r_log r) c = Some (r_term r) /\
     forall i, c < i -> ~ held i) /\
  (c = r_commit r ->
     forall i, r_commit r < i -> held i -> (forall j, i < j -> ~ held j) ->
       Log_term_at (r_log r) i <> Some (r_term r)).
Proof.
  intros Hne. cbv zeta. setoid_rewrite holders_matched.
  pose proof (fun i => quorum_index_le (Log_config (r_log r)) (matched_of r) i Hne) as Hq.
  set (q := Config_quorum_index _ _) in *. unfold maybe_advance_commit. fold q.
  destruct (Z.leb_spec q (r_commit r)) as [Hle|Hlt]; [|case_bool_decide as Et].
  - split; [done|]. intros _ i Hi Hh. apply Hq in Hh. lia.
  - split; [done|]. intros _ i Hi Hh Hmax. apply Hq in Hh.
    destruct (decide (i = q)) as [->|]; [done|]. exfalso.
    apply (Hmax q); [lia|]. by apply Hq.
  - simpl. split; [|lia]. intros _. split; [done|]. split; [by apply Hq|]. split; [done|].
    intros i Hi Hh. apply Hq in Hh. lia.
Qed.

(** A leader of term 2 over a three-node configuration that has made four
    entries durable, with one follower at 3 and one at 1. *)
Definition demo_leader : Raft :=
  Raft_new 1 demo_config demo_opts
  |> set_term 2 |> set_vote (Some 1) |> set_role Leader |> set_leader (Some 1)
  |> set_log (mkLog 0 0 demo_config [demo_entry 1 1; demo_entry 2 2; demo_entry 2 3; demo_entry 2 4])
  |> set_persisted 4 |> set_commit 1
  |> set_progress (<[2 := mkProgress 4 3 Replicate 0 0 true]>
       (<[3 := mkProgress 2 1 Probe 0 0 true]> ∅)).

Lemma commit_rule_witness :
  r_commit (maybe_advance_commit demo_leader) = 3 /\
  Config_has_quorum (Log_config (r_log demo_leader)) (holders demo_leader 3) = true /\
  Log_term_at (r_log demo_leader) 3 = Some 2.
Proof.
  assert (E : r_commit (maybe_advance_commit demo_leader) = 3) by (vm_compute; reflexivity).
  destruct (commit_rule demo_leader) as [H _]; [by_decide|].
  cbv zeta in H. rewrite E in H. destruct H as (_ & H1 & H2 & _); [by_decide|].
  split; [exact E|]. split; [exact H1|exact H2].
Defined.

(** ** Entries reach the state machine in order *)

Lemma filter_index_range l a b : wf_log l -> snapshot_index l < a -> a <= b -> b <= Log_last_index l + 1 ->
  map e_index (Log_slice l a b) = seqZ a (b - a).
Proof.
  intros Hl Ha Hab Hb. rewrite slice_filter by done.
  rewrite (filter_range_contiguous _ _ _ _ (wf_contiguous l Hl)).
  pose proof (last_index_wf l Hl) as E. pose proof (wf_contiguous l Hl) as Hc.
  apply (contiguous_drop _ _ (Z.to_nat (a - (snapshot_index l + 1)))) in Hc; [|lia].
  apply (contiguous_take _ _ (Z.to_nat (b - Z.max a (snapshot_index l + 1)))) in Hc.
  rewrite Hc, length_take, length_drop. f_equal; lia.
Qed.

Lemma cycle_applied r : r_applied (cycle r) =
  match last (rd_committed (ready r).1) with Some e => e_index e | None => r_applied (ready r).2 end.
Proof.
  unfold cycle, advance. cbv zeta. set (rd := (ready r).1). set (r0 := (ready r).2). clearbody rd r0.
  destruct (last _); simpl; [done|].
  set (r1 := match rd_hard_state rd with Some _ => _ | None => r0 end).
  assert (E1 : r_applied r1 = r_applied r0) by (unfold r1; by destruct (rd_hard_state rd)).
  clearbody r1. set (r2 := update_progress _ _ _).
  assert (E2 : r_applied r2 = r_applied r1) by (unfold r2, update_progress; by destruct (_ !! _)).
  clearbody r2. rewrite <- E1, <- E2. case_bool_decide; [|done].
  unfold maybe_advance_commit. destruct (_ <=? _); [done|]. by case_bool_decide.
Qed.

(** What a [Ready] hands to the state machine is exactly the committed
    entries after the last applied one, in order and without a gap, and
    acknowledging it moves the applied index to the commit index; so over
    successive cycles every committed entry is applied exactly once. *)
Theorem committed_in_order r :
  log_ok r -> snapshot_index (r_log r) <= r_applied r <= r_commit r ->
  rd_committed (r_pending r) = [] ->
  map e_index (rd_committed (ready r).1) = seqZ (r_applied r + 1) (r_commit r - r_applied r) /\
  Forall (fun e => e ∈ entries (r_log r)) (rd_committed (ready r).1) /\
  r_applied (cycle r) = r_commit r.
Proof.
  intros [Hw Hc] Ha Hp. pose proof (wf_snapshot _ Hw) as Hs. pose proof (last_index_wf _ Hw) as El.
  pose proof (wf_room _ Hw) as Hroom.
  assert (E : rd_committed (ready r).1 =
    if r_applied r <? r_commit r then Log_slice (r_log r) (r_applied r + 1) (r_commit r + 1) else []).
  { unfold ready. cbv zeta. destruct (r_dirty_from _); simpl; destruct (r_hard_state_dirty r); simpl;
      rewrite Z.min_l, !wadd64_small, Hp by lia; done. }
  assert (Er : r_applied (ready r).2 = r_applied r).
  { unfold ready. cbv zeta. destruct (r_dirty_from _); simpl; by destruct (r_hard_state_dirty r). }
  assert (Em : map e_index (rd_committed (ready r).1) = seqZ (r_applied r + 1) (r_commit r - r_applied r)).
  { rewrite E. destruct (Z.ltb_spec (r_applied r) (r_commit r)).
    - rewrite filter_index_range by (done || lia). f_equal. lia.
    - replace (r_commit r - r_applied r) with 0 by lia. done. }
  split; [done|]. split; [rewrite E; destruct (_ <? _); [apply slice_sub|constructor]|].
  rewrite cycle_applied, Er. destruct (last (rd_committed (ready r).1)) as [e|] eqn:L.
  - rewrite last_lookup in L. apply (f_equal length) in Em as Elen.
    rewrite length_map, length_seqZ in Elen. apply lookup_lt_Some in L as Hlt.
    assert (Hi : map e_index (rd_committed (ready r).1) !! pred (length (rd_committed (ready r).1)) = Some (e_index e)).
    { change (map e_index ?l) with (e_index <$> l). by rewrite list_lookup_fmap, L. }
    rewrite Em in Hi. apply lookup_seqZ in Hi. lia.
  - apply last_None in L. rewrite L in Em. apply (f_equal length) in Em.
    rewrite length_seqZ in Em. simpl in Em. lia.
Qed.

Lemma committed_in_order_witness :
  let r := set_commit 3 (set_applied 1 demo_leader) in
  map e_index (rd_committed (ready r).1) = [2; 3] /\ r_applied (cycle r) = 3.
Proof.
  cbv zeta. destruct (committed_in_order (set_commit 3 (set_applied 1 demo_leader))) as (H1 & _ & H2).
  - by_decide.
  - by_decide.
  - reflexivity.
  - split; [rewrite H1; reflexivity|exact H2].
Defined.

(** ** Departures from the comments *)

Lemma find_conflict_at l i t t' : wf_log l -> snapshot_index l < i <= Log_last_index l ->
  Log_term_at l i = Some t -> t <= t' -> Log_find_conflict_by_term l i t' = i.
Proof.
  intros Hl Hi Ht Hle. unfold Log_find_conflict_by_term. rewrite Z.min_l by lia.
  rewrite (proj2 (Z.leb_gt _ _)) by lia.
  destruct (Z.to_nat (i - snapshot_index l)) as [|k] eqn:E; [lia|]. cbn [find_conflict_loop].
  replace (snapshot_index l + Z.of_nat (S k)) with i by lia. rewrite Ht.
  by rewrite (proj2 (Z.leb_le _ _)).
Qed.

(** The hint a follower sends when it holds another term at [prev_index]. *)
Lemma conflict_reply from pi pt es c r t : wf_log (r_log r) ->
  snapshot_index (r_log r) < pi <= Log_last_index (r_log r) ->
  Log_term_at (r_log r) pi = Some t -> t <> pt ->
  last (msgs (handle_append from pi pt es c r)) =
    Some (from, mkMessage (r_term (follow from r)) (AppendResp false 0 pi t)).
Proof.
  intros Hw Hp Ht Hne. unfold handle_append. cbv zeta.
  destruct (samelog_follow from r) as [El _]. set (r1 := follow from r) in *. clearbody r1. rewrite El.
  rewrite (proj2 (Z.ltb_ge _ _)) by lia. rewrite Ht, (proj2 (Z.eqb_neq _ _)) by done.
  rewrite (find_conflict_at _ _ t t) by (done || lia). simpl. apply last_snoc.
Qed.

(** The probe a leader sends to a follower whose [next] is [pi + 1]. *)
Lemma probe_sent peer r p pi t : wf_log (r_log r) ->
  snapshot_index (r_log r) < pi <= Log_last_index (r_log r) ->
  Log_term_at (r_log r) pi = Some t ->
  r_progress r !! peer = Some p -> p_state p = Probe -> p_next p = pi + 1 ->
  r_progress (send_append_to peer r) = r_progress r /\
  exists es, last (msgs (send_append_to peer r)) =
    Some (peer, mkMessage (r_term r) (AppendReq pi t es (r_commit r))).
Proof.
  intros Hw Hp Ht Hpr Hst Hnext. unfold send_append_to. rewrite Hpr, Hst, Hnext.
  pose proof (wf_snapshot _ Hw). pose proof (last_index_wf _ Hw).
  rewrite bool_decide_eq_false_2 by done. simpl andb. cbv zeta.
  unfold ssub. replace (Z.max 0 (pi + 1 - 1)) with pi by lia. rewrite Ht, first_index_wf by done.
  rewrite (proj2 (Z.ltb_ge _ _)) by lia. split; [done|]. eexists. simpl. apply last_snoc.
Qed.

(** Replication can stall for good. When the leader probes a follower at
    [prev_index] and the follower holds an entry of a newer term there, the
    follower's hint is [prev_index] itself, and the leader's answer to that hint
    leaves [next] where it was: it sends the same probe again. The divergence is
    not skipped, a term at a time or otherwise. *)
Theorem conflict_hint_repeats_the_probe follower leader l f pi t t' es c p :
  wf_log (r_log follower) -> wf_log (r_log leader) ->
  snapshot_index (r_log follower) < pi <= Log_last_index (r_log follower) ->
  snapshot_index (r_log leader) < pi <= Log_last_index (r_log leader) ->
  Log_term_at (r_log leader) pi = Some t -> Log_term_at (r_log follower) pi = Some t' ->
  0 < t' -> t < t' ->
  r_role leader = Leader -> r_progress leader !! f = Some p -> 0 <= p_matched p < pi ->
  exists ci ct,
    last (msgs (handle_append l pi t es c follower)) =
      Some (l, mkMessage (r_term (follow l follower)) (AppendResp false 0 ci ct)) /\
    let leader' := handle_append_resp f false 0 ci ct leader in
    (exists p', r_progress leader' !! f = Some p' /\ p_next p' = pi + 1 /\ p_matched p' = p_matched p) /\
    exists es', last (msgs leader') =
      Some (f, mkMessage (r_term leader) (AppendReq pi t es' (r_commit leader))).
Proof.
  intros Hwf Hwl Hpf Hpl Htl Htf Ht0 Hlt Hrole Hp Hm.
  exists pi, t'. split; [apply conflict_reply; [done..|lia]|]. cbv zeta.
  unfold handle_append_resp. rewrite bool_decide_eq_false_2 by naive_solver. cbv zeta. rewrite Hp.
  rewrite (proj2 (Z.ltb_lt _ _)) by done. rewrite (find_conflict_at _ _ t t') by (done || lia).
  pose proof (last_index_wf _ Hwl). pose proof (wf_room _ Hwl). pose proof (wf_snapshot _ Hwl).
  set (p1 := mkProgress _ _ _ _ _ _). assert (E1 : p_next p1 = pi + 1).
  { unfold p1. simpl. rewrite !wadd64_small by lia. lia. }
  assert (Hp1 : p_state p1 = Probe /\ p_matched p1 = p_matched p) by done. clearbody p1.
  set (r1 := set_progress _ leader).
  assert (Hr1 : r_progress r1 !! f = Some p1) by apply lookup_insert_eq.
  destruct (probe_sent f r1 p1 pi t) as [Ep [es' Em]]; try done; [apply Hp1|].
  split; [|exists es'; exact Em]. exists p1. rewrite Ep. split; [done|]. split; [done|]. apply Hp1.
Qed.

(** Two logs that diverge at index 2, the follower's entry there being newer. *)
Definition stuck_leader : Raft :=
  demo_node |> set_term 3 |> set_role Leader
  |> set_log (mkLog 0 0 demo_config [demo_entry 1 1; demo_entry 1 2; demo_entry 3 3])
  |> set_progress (<[2 := mkProgress 3 0 Probe 0 0 true]> ∅).
Definition stuck_follower : Raft :=
  Raft_new 2 demo_config demo_opts |> set_term 3
  |> set_log (mkLog 0 0 demo_config [demo_entry 1 1; demo_entry 2 2]).

Lemma conflict_hint_repeats_the_probe_witness :
  exists ci ct,
    last (msgs (handle_append 1 2 1 [] 0 stuck_follower)) =
      Some (1, mkMessage (r_term (follow 1 stuck_follower)) (AppendResp false 0 ci ct)) /\
    let leader' := handle_append_resp 2 false 0 ci ct stuck_leader in
    (exists p', r_progress leader' !! 2 = Some p' /\ p_next p' = 2 + 1 /\ p_matched p' = 0) /\
    exists es', last (msgs leader') =
      Some (2, mkMessage (r_term stuck_leader) (AppendReq 2 1 es' (r_commit stuck_leader))).
Proof.
  apply (conflict_hint_repeats_the_probe stuck_follower stuck_leader 1 2 2 1 2 [] 0
    (mkProgress 3 0 Probe 0 0 true)); by_decide.
Defined.

(** A [Ready] is handed out once. Taking a second one without acknowledging
    the first, which is what the driver does after a failed write, yields no
    hard state, no snapshot, no messages and no reads: the batch is not
    regenerated, and a term or vote that never reached the disk is no longer
    asked to. *)
Theorem ready_is_not_regenerated r :
  let second := (ready (ready r).2).1 in
  rd_hard_state second = None /\ rd_snapshot second = None /\
  rd_messages second = [] /\ rd_reads second = [].
Proof.
  cbv zeta. pose proof (rr_clean _ _ _ (ready_rel_ready r)) as Hc.
  pose proof (rr_pending _ _ _ (ready_rel_ready r)) as Hp.
  pose proof (ready_rel_ready (ready r).2) as R2. set (r1 := (ready r).2) in *. clearbody r1.
  rewrite (rr_hs _ _ _ R2), (rr_msgs _ _ _ R2), Hc, Hp. split; [done|].
  unfold ready. cbv zeta. rewrite Hp. destruct (r_dirty_from _); simpl; by destruct (r_hard_state_dirty r1).
Qed.

(** A leader of the configuration {1, 2, 3} with an uncommitted change to
    {1, 4, 5} in its log, about to compact what it has applied. *)
Definition changing_leader : Raft :=
  demo_leader |> set_log (mkLog 0 0 demo_config
    [demo_entry 1 1; demo_entry 2 2; mkEntry 2 3 (KConfig (EnterJoint {[1; 4; 5]} ∅))])
  |> set_applied 1.

(** Compaction can lose the old half of a joint configuration.
    [snapshot_at_applied] stamps the snapshot with the configuration of the
    whole log instead of the one at the applied index; with a membership change
    above it, compacting replays the change twice and the new voters become both
    halves. *)
Theorem compaction_forgets_old_voters :
  Log_config (r_log changing_leader) = mkConfig {[1; 4; 5]} {[1; 2; 3]} ∅ /\
  Log_config (r_log (apply_input (ICompact []) changing_leader)) = mkConfig {[1; 4; 5]} {[1; 4; 5]} ∅.
Proof. split; by_decide. Qed.

(** Recovery can lose the old half of a joint configuration. With no
    snapshot and a membership change in the log, [restore] replays the change
    over the empty configuration, so the bootstrap voters are forgotten: the node
    comes back in a simple configuration of the new voters only. *)
Theorem recovery_forgets_bootstrap_voters :
  let es := [demo_entry 1 1; mkEntry 1 2 (KConfig (EnterJoint {[1; 4; 5]} ∅))] in
  Log_config (Log_append (Log_bootstrap demo_config) es) = mkConfig {[1; 4; 5]} {[1; 2; 3]} ∅ /\
  Log_config (r_log (Raft_restore 1 demo_opts HardState_default None es demo_config))
    = mkConfig {[1; 4; 5]} ∅ ∅.
Proof. split; by_decide. Qed.
