(* ===== verification/Rng.v ===== *)
(** * Randomness: [crates/chrono-sim/src/rng.rs]

    [SplitMix64] and [xoshiro256**] on 64-bit words, and the samplers built on
    any generator. The trait [Rng] is the class [Rng]; a sampler is a function of
    the generator's state. [below] draws until it accepts, so it takes fuel: the
    number of draws it may make ([None] when all of them were rejected). At least
    half of the 64-bit values are accepted whatever the bound, so the fuel is a
    number of coin flips. The [Mutex] of [SeededRng] is not modelled: a sampler
    runs on the state it locks. *)

From Stdlib Require Import ZArith Lia.
From stdpp Require Import base tactics list list_numbers gmap sets sorting.
From S2P Require Import Prelude Codec.

Open Scope Z_scope.

(** ** Generators *)

(** [x << n] and [x.rotate_left(n)] of a [u64]. *)
Definition shl64 (x n : Z) : Z := Z.shiftl x n mod U64.
Definition rotl64 (x n : Z) : Z := Z.lor (shl64 x n) (Z.shiftr x (64 - n)).

Definition SplitMix64_next (state : Z) : Z * Z :=
  let state := state +64 0x9E3779B97F4A7C15 in
  let z := state in
  let z := Z.lxor z (Z.shiftr z 30) *64 0xBF58476D1CE4E5B9 in
  let z := Z.lxor z (Z.shiftr z 27) *64 0x94D049BB133111EB in
  (Z.lxor z (Z.shiftr z 31), state).

Record Xoshiro256ss : Type := mkXoshiro { x0 : Z; x1 : Z; x2 : Z; x3 : Z }.

#[export] Instance Xoshiro256ss_eq_dec : EqDecision Xoshiro256ss.
Proof. solve_decision. Defined.

Definition Xoshiro_from_seed (seed : Z) : Xoshiro256ss :=
  let '(a, s) := SplitMix64_next seed in
  let '(b, s) := SplitMix64_next s in
  let '(c, s) := SplitMix64_next s in
  let '(d, s) := SplitMix64_next s in
  mkXoshiro a b c d.

(** The state update of [next_u64], in the order of its assignments. *)
Definition Xoshiro_step (g : Xoshiro256ss) : Xoshiro256ss :=
  let t := shl64 (x1 g) 17 in
  let s2 := Z.lxor (x2 g) (x0 g) in
  let s3 := Z.lxor (x3 g) (x1 g) in
  let s1 := Z.lxor (x1 g) s2 in
  let s0 := Z.lxor (x0 g) s3 in
  mkXoshiro s0 s1 (Z.lxor s2 t) (rotl64 s3 45).

Definition Xoshiro_next_u64 (g : Xoshiro256ss) : Z * Xoshiro256ss :=
  (rotl64 (x1 g *64 5) 7 *64 9, Xoshiro_step g).

Definition JUMP : list Z :=
  [0x180EC6D33CFD0ABA; 0xD5A61266F0C9392C; 0xA9582618E03FC9AA; 0x39ABDC4529B1661C].

Definition Xoshiro_xor (a b : Xoshiro256ss) : Xoshiro256ss :=
  mkXoshiro (Z.lxor (x0 a) (x0 b)) (Z.lxor (x1 a) (x1 b))
    (Z.lxor (x2 a) (x2 b)) (Z.lxor (x3 a) (x3 b)).

(** One round of the inner loop of [jump]: the accumulator and the generator. *)
Definition jump_bit (j : Z) (st : Xoshiro256ss * Xoshiro256ss) (b : Z) : Xoshiro256ss * Xoshiro256ss :=
  let '(acc, g) := st in
  ((if Z.land (Z.shiftr j b) 1 =? 1 then Xoshiro_xor acc g else acc), Xoshiro_step g).

Definition Xoshiro_jump (g : Xoshiro256ss) : Xoshiro256ss :=
  fst (fold_left (fun st j => fold_left (jump_bit j) (seqZ 0 64) st) JUMP (mkXoshiro 0 0 0 0, g)).

(** [SeededRng::fork]: the child and the parent's new state. *)
Definition fork (g : Xoshiro256ss) : Xoshiro256ss * Xoshiro256ss :=
  let child := Xoshiro_jump g in
  let next_parent := Xoshiro_jump child in
  (child, next_parent).

Class Rng (S : Type) : Type := next_u64 : S -> Z * S.

#[export] Instance Xoshiro_Rng : Rng Xoshiro256ss := Xoshiro_next_u64.

(** ** Latency distributions *)

Record Bucket : Type := mkBucket { b_weight : Z; b_lo : Z; b_hi : Z }.
Abbreviation LatencyDist := (list Bucket).

Definition LatencyDist_fixed (nanos : Z) : LatencyDist := [mkBucket 1 nanos (nanos +64 1)].
Definition LatencyDist_uniform (lo hi : Z) : LatencyDist := [mkBucket 1 lo (Z.max hi (lo +64 1))].
Definition LatencyDist_datacenter : LatencyDist :=
  [mkBucket 900 150000 900000; mkBucket 95 900000 8000000; mkBucket 5 8000000 120000000].
Definition LatencyDist_wan : LatencyDist :=
  [mkBucket 850 20000000 60000000; mkBucket 140 60000000 250000000;
   mkBucket 10 250000000 2000000000].

Definition LatencyDist_max (d : LatencyDist) : Z := foldr Z.max 0 (map b_hi d).
(** ** Samplers *)

Section Samplers.
Context {S : Type} `{!Rng S} (fuel : nat).

(** A computation that draws from the generator. *)
Definition Rand (A : Type) : Type := S -> option (A * S).

#[export] Instance Rand_ret : MRet Rand := fun A a s => Some (a, s).
#[export] Instance Rand_bind : MBind Rand := fun A B k p s =>
  match p s with Some (a, s') => k a s' | None => None end.

Definition zone (n : Z) : Z := (U64 - 1) - (U64 - 1) mod n - 1.

Fixpoint below_loop (k : nat) (n : Z) : Rand Z := fun s =>
  match k with
  | O => None
  | Datatypes.S k' =>
      let '(v, s) := next_u64 s in
      if v <=? zone n then Some (v mod n, s) else below_loop k' n s
  end.

Definition below (n : Z) : Rand Z :=
  if n <=? 1 then mret 0 else below_loop fuel n.

Definition range (lo hi : Z) : Rand Z :=
  if hi <=? lo then mret lo else v ← below (hi - lo); mret (lo +64 v).

Definition chance (num den : Z) : Rand bool :=
  if num =? 0 then mret false
  else if den <=? num then mret true
  else v ← below den; mret (v <? num).

Definition ppm (p : Z) : Rand bool := chance p 1000000.

Definition pick_index (len : Z) : Rand (option Z) :=
  if len =? 0 then mret None else v ← below len; mret (Some v).

(** [items.swap(i, j)] for indices in range. *)
Definition swap {A} (i j : nat) (items : list A) : list A :=
  match items !! i, items !! j with
  | Some a, Some b => <[j := a]> (<[i := b]> items)
  | _, _ => items
  end.

(** The loop [for i in (1..len).rev()], for the indices [i, i-1, .., 1]. *)
Fixpoint shuffle_loop {A} (i : nat) (items : list A) : Rand (list A) :=
  match i with
  | O => mret items
  | Datatypes.S i' =>
      j ← below (Z.of_nat i + 1); shuffle_loop i' (swap i (Z.to_nat j) items)
  end.

Definition shuffle {A} (items : list A) : Rand (list A) :=
  if (length items <? 2)%nat then mret items else shuffle_loop (length items - 1) items.

Definition total_weight (weights : list Z) : Z := foldr Z.add 0 weights.

(** The loop that walks the buckets with what is left of the draw. *)
Fixpoint walk (i : nat) (r : Z) (weights : list Z) : option nat :=
  match weights with
  | [] => None
  | w :: rest => if r <? w then Some i else walk (Datatypes.S i) (r - w) rest
  end.

Definition weighted_index (weights : list Z) : Rand nat :=
  let total := total_weight weights in
  if total =? 0 then mret 0%nat
  else r ← below total; mret (default (length weights - 1)%nat (walk 0 r weights)).

(** [sample]; [None] also stands for the panic on an empty distribution, which
    [LatencyDist::new] rules out. *)
Definition sample (d : LatencyDist) : Rand Z :=
  let total := total_weight (map b_weight d) in
  match d with
  | [] => fun _ => None
  | first :: _ =>
      if total =? 0 then mret (b_lo first)
      else
        r ← below total;
        let b := default (List.last d first)
                   (walk 0 r (map b_weight d) ≫= fun i => d !! i) in
        range (b_lo b) (b_hi b)
  end.

End Samplers.

(** * Theorems *)

(** ** [xoshiro256**]: the state update loses nothing *)

Definition is_state (g : Xoshiro256ss) : Prop :=
  is_u64 (x0 g) /\ is_u64 (x1 g) /\ is_u64 (x2 g) /\ is_u64 (x3 g).

#[export] Instance is_state_dec g : Decision (is_state g).
Proof. unfold is_state. apply _. Defined.

Lemma u64_bits_high x n : is_u64 x -> 64 <= n -> Z.testbit x n = false.
Proof.
  intros Hx Hn. unfold is_u64 in Hx. rewrite <- (Z.mod_small x (2 ^ 64)) by exact Hx.
  apply Z.mod_pow2_bits_high. lia.
Qed.

Lemma u64_of_bits x : 0 <= x -> (forall n, 64 <= n -> Z.testbit x n = false) -> is_u64 x.
Proof.
  intros Hx Hb. unfold is_u64. change U64 with (2 ^ 64).
  replace x with (x mod 2 ^ 64); [apply Z.mod_pos_bound; lia|].
  apply Z.bits_inj'. intros n Hn. destruct (Z.lt_ge_cases n 64).
  - by rewrite Z.mod_pow2_bits_low by lia.
  - rewrite Z.mod_pow2_bits_high by lia. symmetry. by apply Hb.
Qed.

Lemma lxor_u64 a b : is_u64 a -> is_u64 b -> is_u64 (Z.lxor a b).
Proof.
  intros Ha Hb. apply u64_of_bits.
  - apply Z.lxor_nonneg. unfold is_u64 in *. lia.
  - intros n Hn. by rewrite Z.lxor_spec, !u64_bits_high.
Qed.

Lemma shl64_bit x k n : 0 <= k -> 0 <= n -> Z.testbit (shl64 x k) n = (n <? 64) && Z.testbit x (n - k).
Proof.
  intros Hk Hn. unfold shl64. change U64 with (2 ^ 64). destruct (Z.ltb_spec n 64); simpl.
  - rewrite Z.mod_pow2_bits_low, Z.shiftl_spec by lia. done.
  - apply Z.mod_pow2_bits_high. lia.
Qed.

Lemma shl64_u64 x k : is_u64 (shl64 x k).
Proof. apply Z.mod_pos_bound. lia. Qed.

(** Bit [n] of a rotation is bit [n - k], around the word. *)
Lemma rotl64_bit x k n : is_u64 x -> 0 < k < 64 -> 0 <= n < 64 ->
  Z.testbit (rotl64 x k) n = Z.testbit x (if n <? k then n - k + 64 else n - k).
Proof.
  intros Hx Hk Hn. unfold rotl64. rewrite Z.lor_spec, shl64_bit, Z.shiftr_spec by lia.
  rewrite (proj2 (Z.ltb_lt n 64)) by lia. simpl. destruct (Z.ltb_spec n k).
  - rewrite (Z.testbit_neg_r x (n - k)) by lia. simpl. f_equal. lia.
  - rewrite (u64_bits_high x (n + (64 - k))) by (done || lia). by rewrite orb_false_r.
Qed.

Lemma rotl64_inj x y k : is_u64 x -> is_u64 y -> 0 < k < 64 -> rotl64 x k = rotl64 y k -> x = y.
Proof.
  intros Hx Hy Hk E. apply Z.bits_inj'. intros n Hn.
  destruct (Z.lt_ge_cases n 64) as [H|H]; [|by rewrite !u64_bits_high].
  assert (Hb : forall m, 0 <= m < 64 -> Z.testbit (rotl64 x k) m = Z.testbit (rotl64 y k) m)
    by (intros; by rewrite E).
  destruct (Z.lt_ge_cases (n + k) 64) as [Hw|Hw].
  - specialize (Hb (n + k) ltac:(lia)). rewrite !rotl64_bit in Hb by (done || lia).
    rewrite (proj2 (Z.ltb_ge _ _)) in Hb by lia. by replace (n + k - k) with n in Hb by lia.
  - specialize (Hb (n + k - 64) ltac:(lia)). rewrite !rotl64_bit in Hb by (done || lia).
    rewrite (proj2 (Z.ltb_lt _ _)) in Hb by lia. by replace (n + k - 64 - k + 64) with n in Hb by lia.
Qed.

(** [x ^ (x << k)] determines [x], from the low bits up. *)
Lemma xor_shl_inj x y k : is_u64 x -> is_u64 y -> 0 < k ->
  Z.lxor x (shl64 x k) = Z.lxor y (shl64 y k) -> x = y.
Proof.
  intros Hx Hy Hk E. apply Z.bits_inj'. intros n.
  induction n as [n IH] using (well_founded_induction (Z.lt_wf 0)). intros Hn.
  destruct (Z.lt_ge_cases n 64) as [H|H]; [|by rewrite !u64_bits_high].
  apply (f_equal (fun z => Z.testbit z n)) in E. rewrite !Z.lxor_spec, !shl64_bit in E by lia.
  rewrite (proj2 (Z.ltb_lt n 64)) in E by lia. simpl in E.
  destruct (Z.lt_ge_cases n k) as [Hs|Hs].
  - rewrite !(Z.testbit_neg_r _ (n - k)) in E by lia. by rewrite !xorb_false_r in E.
  - rewrite (IH (n - k)) in E by lia.
    by destruct (Z.testbit x n), (Z.testbit y n), (Z.testbit y (n - k)).
Qed.

Lemma lxor_cancel_l a b c : Z.lxor c a = Z.lxor c b -> a = b.
Proof. rewrite !(Z.lxor_comm c). apply lxor_cancel_r. Qed.

(** The state update of [xoshiro256**] is injective on 256-bit states: no
    two states ever merge, and the all-zero state, from which the stream is
    constant, is reached from no other. *)
Theorem xoshiro_step_injective (g h : Xoshiro256ss) :
  is_state g -> is_state h -> Xoshiro_step g = Xoshiro_step h -> g = h.
Proof.
  destruct g as [a b c d], h as [a' b' c' d']. unfold is_state. simpl.
  intros (Ha & Hb & Hc & Hd) (Ha' & Hb' & Hc' & Hd') [= E0 E1 E2 E3].
  apply rotl64_inj in E3; [|by apply lxor_u64..|lia].
  rewrite E3 in E0. apply lxor_cancel_r in E0. subst a'.
  assert (Eb : b = b').
  { apply (xor_shl_inj b b' 17); [done|done|lia|].
    apply (f_equal2 Z.lxor E1) in E2.
    assert (R : forall u v t, Z.lxor (Z.lxor u v) (Z.lxor v t) = Z.lxor u t).
    { intros u v t. by rewrite Z.lxor_assoc, <- (Z.lxor_assoc v v t), Z.lxor_nilpotent, Z.lxor_0_l. }
    by rewrite !R in E2. }
  subst b'. apply lxor_cancel_l, lxor_cancel_r in E1. apply lxor_cancel_r in E3. congruence.
Qed.

Lemma xoshiro_step_injective_witness :
  Xoshiro_step (mkXoshiro 1 2 3 4) <> Xoshiro_step (mkXoshiro 1 2 3 5).
Proof. intros E. apply xoshiro_step_injective in E; [discriminate|by_decide..]. Defined.

(** ** Bounded sampling *)

Lemma zone_multiple n : 2 <= n < U64 -> zone n + 1 = n * ((U64 - 1) / n).
Proof. intros Hn. unfold zone. pose proof (Z.div_mod (U64 - 1) n ltac:(lia)). lia. Qed.

(** [below] is unbiased. The 64-bit values it accepts split evenly: for each
    result [v] below [n], the accepted values that give [v] are [v + q * n] for
    exactly [(2^64 - 1) / n] values of [q]. And it accepts more than half of all
    64-bit values, so each extra draw is needed with probability below one
    half. *)
Theorem below_unbiased (n v x : Z) :
  2 <= n < U64 -> 0 <= v < n -> is_u64 x ->
  (x <= zone n /\ x mod n = v <-> exists q, x = v + q * n /\ 0 <= q < (U64 - 1) / n) /\
  U64 < 2 * (zone n + 1) + 2.
Proof.
  intros Hn Hv Hx. pose proof (zone_multiple n Hn) as Hz. pose proof (Z.div_mod x n ltac:(lia)) as Hd.
  pose proof (Z.div_mod (U64 - 1) n ltac:(lia)) as HM. pose proof (Z.mod_pos_bound (U64 - 1) n ltac:(lia)).
  set (k := (U64 - 1) / n) in *. unfold is_u64 in Hx.
  assert (Hk : 1 <= k) by (apply Z.div_le_lower_bound; lia). split.
  - split.
    + intros [Hle E]. exists (x / n). split; [lia|]. split; [apply Z.div_pos; lia|].
      apply Z.div_lt_upper_bound; lia.
    + intros (q & -> & Hq). split; [nia|]. rewrite Z.mod_add, Z.mod_small by lia. done.
  - nia.
Qed.

Lemma below_unbiased_witness :
  (17 <= zone 5 /\ 17 mod 5 = 2 <-> exists q, 17 = 2 + q * 5 /\ 0 <= q < (U64 - 1) / 5) /\
  U64 < 2 * (zone 5 + 1) + 2.
Proof. apply below_unbiased; by_decide. Defined.

Section Sampling.
Context {S : Type} `{!Rng S}.

(** The draws of a generator, one after the other. *)
Fixpoint state_after (k : nat) (s : S) : S :=
  match k with O => s | Datatypes.S k' => state_after k' (next_u64 s).2 end.
Definition draw (k : nat) (s : S) : Z := (next_u64 (state_after k s)).1.

Lemma below_loop_spec fuel n s v s' : below_loop fuel n s = Some (v, s') ->
  exists k, (k < fuel)%nat /\ draw k s <= zone n /\ v = draw k s mod n /\
    (forall j, (j < k)%nat -> zone n < draw j s) /\ s' = state_after (Datatypes.S k) s.
Proof.
  revert s. induction fuel as [|fuel IH]; intros s H; simpl in H; [done|].
  destruct (next_u64 s) as [x s1] eqn:E. destruct (Z.leb_spec x (zone n)) as [Hx|Hx].
  - injection H as <- <-. exists 0%nat. unfold draw. simpl. rewrite E. simpl. split_and!; try done; lia.
  - apply IH in H as (k & Hk & Hd & Hv & Hr & Hs). exists (Datatypes.S k).
    unfold draw in *. simpl. rewrite E. simpl. split_and!; [lia|done|done| |done].
    intros [|j] Hj; simpl; rewrite ?E; simpl; [done|]. apply Hr. lia.
Qed.

(** [below] returns as soon as one draw is accepted: with fuel [k + 1], if
    draw [k] is the first within the zone, the result is that draw modulo [n],
    the generator has advanced by exactly [k + 1] draws, and the result is below
    the bound. *)
Theorem below_returns fuel n s k :
  2 <= n < U64 -> (k < fuel)%nat -> draw k s <= zone n ->
  (forall j, (j < k)%nat -> zone n < draw j s) ->
  below fuel n s = Some (draw k s mod n, state_after (Datatypes.S k) s) /\ 0 <= draw k s mod n < n.
Proof using.
  intros Hn Hk Hd Hr. split; [|apply Z.mod_pos_bound; lia].
  unfold below. rewrite (proj2 (Z.leb_gt _ _)) by lia. clear Hn.
  revert fuel s Hk Hd Hr. induction k as [|k IH]; intros fuel s Hk Hd Hr;
    (destruct fuel as [|fuel]; [lia|]); simpl; unfold draw in *; simpl in *;
    destruct (next_u64 s) as [x s1] eqn:E; simpl in *.
  - by rewrite (proj2 (Z.leb_le _ _)).
  - pose proof (Hr 0%nat ltac:(lia)) as H0. simpl in H0. rewrite E in H0. simpl in H0.
    rewrite (proj2 (Z.leb_gt _ _)) by lia. apply IH; [lia|done|].
    intros j Hj. specialize (Hr (Datatypes.S j) ltac:(lia)). simpl in Hr. by rewrite E in Hr.
Qed.

Lemma below_range fuel n s v s' : below fuel n s = Some (v, s') -> 0 <= v /\ v < Z.max n 1.
Proof.
  unfold below. destruct (Z.leb_spec n 1).
  - intros [= <- _]. lia.
  - intros Hl. apply below_loop_spec in Hl as (k & _ & _ & -> & _).
    pose proof (Z.mod_pos_bound (draw k s) n). lia.
Qed.

Lemma bind_Some {A B} (p : Rand (S:=S) A) (f : A -> Rand (S:=S) B) s b s' :
  (p ≫= f) s = Some (b, s') -> exists a s1, p s = Some (a, s1) /\ f a s1 = Some (b, s').
Proof. unfold mbind, Rand_bind. destruct (p s) as [[a s1]|]; [|done]. eauto. Qed.

Lemma swap_perm {A} i j (l : list A) : swap i j l ≡ₚ l.
Proof.
  unfold swap. destruct (l !! i) as [a|] eqn:Ei; [|done]. destruct (l !! j) as [b|] eqn:Ej; [|done].
  destruct (decide (i = j)) as [->|Hne].
  - assert (a = b) as -> by congruence. rewrite list_insert_insert_eq, list_insert_id by done. done.
  - apply Permutation_inj. split; [by rewrite !length_insert|].
    exists (fun k => if decide (k = i) then j else if decide (k = j) then i else k). split.
    + intros x y. repeat case_decide; congruence.
    + intros k. apply lookup_lt_Some in Ei as Hi. apply lookup_lt_Some in Ej as Hj.
      case_decide as Hki; [subst k|case_decide as Hkj; [subst k|]].
      * rewrite list_lookup_insert_ne, list_lookup_insert_eq by done. by rewrite Ej.
      * rewrite list_lookup_insert_eq by (by rewrite length_insert). by rewrite Ei.
      * by rewrite !list_lookup_insert_ne by done.
Qed.

Lemma shuffle_loop_perm {A} fuel i (l l' : list A) s s' :
  shuffle_loop fuel i l s = Some (l', s') -> l' ≡ₚ l.
Proof.
  revert l s. induction i as [|i IH]; intros l s H; simpl in H.
  - by injection H as <- _.
  - apply bind_Some in H as (j & s1 & _ & H). apply IH in H. rewrite H. apply swap_perm.
Qed.

(** A shuffle only reorders: whatever the draws, the result is a permutation
    of the input. *)
Theorem shuffle_permutes {A} fuel (l l' : list A) s s' :
  shuffle fuel l s = Some (l', s') -> l' ≡ₚ l.
Proof using.
  unfold shuffle. destruct (_ <? _)%nat; [by intros [= <- _]|]. apply shuffle_loop_perm.
Qed.

Lemma total_weight_snoc ws w : total_weight (ws ++ [w]) = total_weight ws + w.
Proof. induction ws as [|x ws IH]; simpl; [lia|]. rewrite IH. lia. Qed.

(** The bucket a draw falls in: the one whose weights it lies between. *)
Lemma walk_spec i r ws j : 0 <= r -> Forall (fun w => 0 <= w) ws -> walk i r ws = Some j ->
  (i <= j)%nat /\ (j - i < length ws)%nat /\
  total_weight (take (j - i) ws) <= r < total_weight (take (Datatypes.S (j - i)) ws).
Proof.
  intros Hr Hw. revert i r Hr. induction Hw as [|w ws Hw0 Hw IH]; intros i r Hr H; simpl in H; [done|].
  destruct (Z.ltb_spec r w).
  - injection H as <-. rewrite Nat.sub_diag. simpl. lia.
  - apply IH in H as (H1 & H2 & H3); [|lia].
    replace (j - i)%nat with (Datatypes.S (j - Datatypes.S i)) by lia. simpl in *. lia.
Qed.

Lemma walk_total i r ws : 0 <= r < total_weight ws -> Forall (fun w => 0 <= w) ws ->
  is_Some (walk i r ws).
Proof.
  intros Hr Hw. revert i r Hr. induction Hw as [|w ws Hw0 Hw IH]; intros i r Hr; simpl in *; [lia|].
  destruct (Z.ltb_spec r w); [by eexists|]. apply IH. lia.
Qed.

(** A weighted choice falls on index [j] exactly when the uniform draw lies
    in [j]'s share of the total weight, an interval of length [weights[j]]; so
    each index has probability proportional to its weight, an index of weight
    zero is never chosen, and the last-index fallback is never used. *)
Theorem weighted_index_spec fuel ws s j s' :
  Forall (fun w => 0 <= w) ws -> 0 < total_weight ws ->
  weighted_index fuel ws s = Some (j, s') ->
  (j < length ws)%nat /\
  exists r, below fuel (total_weight ws) s = Some (r, s') /\
    total_weight (take j ws) <= r < total_weight (take j ws) + nth j ws 0.
Proof using.
  intros Hw Ht H. unfold weighted_index in H. rewrite (proj2 (Z.eqb_neq _ _)) in H by lia.
  apply bind_Some in H as (r & s1 & Hb & H). injection H as <- <-.
  pose proof (below_range _ _ _ _ _ Hb) as Hr.
  destruct (walk_total 0 r ws) as [k Hk]; [lia|done|]. rewrite Hk. simpl.
  destruct (walk_spec 0 r ws k) as (_ & Hlen & Hin); [lia|done|done|]. rewrite Nat.sub_0_r in *.
  split; [done|]. exists r. split; [done|].
  destruct (lookup_lt_is_Some_2 ws k Hlen) as [w Hwk].
  rewrite (take_S_r ws k w Hwk), total_weight_snoc in Hin. by rewrite (nth_lookup_Some _ _ _ _ Hwk).
Qed.
End Sampling.

Lemma below_returns_witness :
  below 8 5 (Xoshiro_from_seed 42) =
    Some (draw 0 (Xoshiro_from_seed 42) mod 5, state_after 1 (Xoshiro_from_seed 42)) /\
  0 <= draw 0 (Xoshiro_from_seed 42) mod 5 < 5.
Proof. apply (below_returns 8 5 (Xoshiro_from_seed 42) 0); [by_decide|lia|by_decide|lia]. Defined.

Lemma shuffle_permutes_witness :
  exists l' s', shuffle 8 [1; 2; 3; 4; 5] (Xoshiro_from_seed 42) = Some (l', s') /\ l' ≡ₚ [1; 2; 3; 4; 5].
Proof.
  destruct (shuffle 8 [1; 2; 3; 4; 5] (Xoshiro_from_seed 42)) as [[l' s']|] eqn:E.
  - exists l', s'. split; [reflexivity|]. exact (shuffle_permutes 8 _ _ _ _ E).
  - exfalso. revert E. vm_compute. discriminate.
Defined.

Lemma weighted_index_spec_witness :
  exists j s', weighted_index 8 [3; 0; 5] (Xoshiro_from_seed 42) = Some (j, s') /\ (j < 3)%nat.
Proof.
  destruct (weighted_index 8 [3; 0; 5] (Xoshiro_from_seed 42)) as [[j s']|] eqn:E.
  - exists j, s'. split; [reflexivity|].
    apply (weighted_index_spec 8 [3; 0; 5] (Xoshiro_from_seed 42) j s'); [by_decide|by_decide|exact E].
  - exfalso. revert E. vm_compute. discriminate.
Defined.

(** ** Jumping commutes with stepping *)

Lemma rotl64_u64 x k : is_u64 x -> 0 < k < 64 -> is_u64 (rotl64 x k).
Proof.
  intros Hx Hk. apply u64_of_bits.
  - apply Z.lor_nonneg. split; [apply shl64_u64|]. apply Z.shiftr_nonneg. apply Hx.
  - intros n Hn. unfold rotl64. rewrite Z.lor_spec, shl64_bit, Z.shiftr_spec by lia.
    rewrite (proj2 (Z.ltb_ge n 64)) by lia. simpl. apply u64_bits_high; [done|lia].
Qed.

Lemma rotl64_lxor x y k : is_u64 x -> is_u64 y -> 0 < k < 64 ->
  rotl64 (Z.lxor x y) k = Z.lxor (rotl64 x k) (rotl64 y k).
Proof.
  intros Hx Hy Hk. apply Z.bits_inj'. intros n Hn. rewrite Z.lxor_spec.
  destruct (Z.lt_ge_cases n 64).
  - rewrite !rotl64_bit by (lia || auto using lxor_u64). apply Z.lxor_spec.
  - by rewrite !u64_bits_high by (lia || auto using rotl64_u64, lxor_u64).
Qed.

Lemma shl64_lxor x y k : 0 <= k -> shl64 (Z.lxor x y) k = Z.lxor (shl64 x k) (shl64 y k).
Proof.
  intros Hk. apply Z.bits_inj'. intros n Hn. rewrite Z.lxor_spec, !shl64_bit, Z.lxor_spec by lia.
  by destruct (n <? 64).
Qed.

Lemma lxor_swap a b c d : Z.lxor (Z.lxor a b) (Z.lxor c d) = Z.lxor (Z.lxor a c) (Z.lxor b d).
Proof.
  rewrite !Z.lxor_assoc. f_equal. rewrite <- !Z.lxor_assoc. f_equal. apply Z.lxor_comm.
Qed.

Lemma is_state_step g : is_state g -> is_state (Xoshiro_step g).
Proof.
  intros (H0 & H1 & H2 & H3). unfold Xoshiro_step, is_state. simpl.
  split_and?; auto 6 using lxor_u64, shl64_u64. apply rotl64_u64; [auto using lxor_u64|lia].
Qed.

Lemma is_state_xor a b : is_state a -> is_state b -> is_state (Xoshiro_xor a b).
Proof. intros (?&?&?&?) (?&?&?&?). unfold is_state. simpl. auto 6 using lxor_u64. Qed.

Lemma step_xor a b : is_state a -> is_state b ->
  Xoshiro_step (Xoshiro_xor a b) = Xoshiro_xor (Xoshiro_step a) (Xoshiro_step b).
Proof.
  destruct a as [a0 a1 a2 a3], b as [b0 b1 b2 b3]. unfold is_state, Xoshiro_step, Xoshiro_xor. simpl.
  intros (A0 & A1 & A2 & A3) (B0 & B1 & B2 & B3).
  rewrite shl64_lxor by lia. rewrite (lxor_swap a2 b2), (lxor_swap a3 b3), (lxor_swap a1 b1), (lxor_swap a0 b0).
  rewrite rotl64_lxor by (lia || auto using lxor_u64). by rewrite (lxor_swap (Z.lxor a2 a0)).
Qed.

Lemma jump_bit_step j b acc g : is_state acc -> is_state g ->
  jump_bit j (Xoshiro_step acc, Xoshiro_step g) b =
    (Xoshiro_step (jump_bit j (acc, g) b).1, Xoshiro_step (jump_bit j (acc, g) b).2) /\
  is_state (jump_bit j (acc, g) b).1 /\ is_state (jump_bit j (acc, g) b).2.
Proof.
  intros Ha Hg. unfold jump_bit. destruct (_ =? _); simpl.
  - rewrite step_xor by done. auto using is_state_xor, is_state_step.
  - auto using is_state_step.
Qed.

(** A fold whose every step commutes with stepping both generators does too. *)
Lemma fold_step {A} (f : Xoshiro256ss * Xoshiro256ss -> A -> Xoshiro256ss * Xoshiro256ss) (xs : list A) :
  (forall acc g x, is_state acc -> is_state g ->
     f (Xoshiro_step acc, Xoshiro_step g) x =
       (Xoshiro_step (f (acc, g) x).1, Xoshiro_step (f (acc, g) x).2) /\
     is_state (f (acc, g) x).1 /\ is_state (f (acc, g) x).2) ->
  forall acc g, is_state acc -> is_state g ->
    fold_left f xs (Xoshiro_step acc, Xoshiro_step g) =
      (Xoshiro_step (fold_left f xs (acc, g)).1, Xoshiro_step (fold_left f xs (acc, g)).2) /\
    is_state (fold_left f xs (acc, g)).1 /\ is_state (fold_left f xs (acc, g)).2.
Proof.
  intros Hf. induction xs as [|x xs IH]; intros acc g Ha Hg; simpl; [auto|].
  destruct (Hf acc g x Ha Hg) as (E & H1 & H2). rewrite E.
  destruct (f (acc, g) x) as [acc' g']. by apply IH.
Qed.

(** Jumping commutes with stepping, so the substream a fork hands out does
    not depend on where in its own stream the parent was asked: the child of an
    advanced parent is the advanced child. *)
Theorem jump_commutes_with_step (g : Xoshiro256ss) :
  is_state g -> Xoshiro_jump (Xoshiro_step g) = Xoshiro_step (Xoshiro_jump g).
Proof.
  intros Hg. unfold Xoshiro_jump.
  assert (Hz : is_state (mkXoshiro 0 0 0 0)) by by_decide.
  change (mkXoshiro 0 0 0 0) with (Xoshiro_step (mkXoshiro 0 0 0 0)) at 1.
  destruct (fold_step (fun st j => fold_left (jump_bit j) (seqZ 0 64) st) JUMP) with
    (acc := mkXoshiro 0 0 0 0) (g := g) as (E & _); [|done|done|].
  - intros acc g' j Ha Hg'. apply fold_step; [|done|done]. intros. by apply jump_bit_step.
  - by rewrite E.
Qed.

Lemma jump_commutes_with_step_witness :
  Xoshiro_jump (Xoshiro_step (Xoshiro_from_seed 7)) = Xoshiro_step (Xoshiro_jump (Xoshiro_from_seed 7)).
Proof. apply jump_commutes_with_step. by_decide. Defined.

(** ** Latencies *)

Definition bucket_ok (b : Bucket) : Prop := 0 <= b_weight b /\ 0 <= b_lo b < b_hi b /\ b_hi b < U64.

#[export] Instance bucket_ok_dec b : Decision (bucket_ok b).
Proof. unfold bucket_ok. apply _. Defined.

Lemma max_bound d b : b ∈ d -> b_hi b <= LatencyDist_max d.
Proof.
  unfold LatencyDist_max. induction d as [|c d IH]; simpl; [by intros ?%elem_of_nil|].
  intros [->|H]%elem_of_cons; [lia|]. apply IH in H. lia.
Qed.

Lemma range_bounds {S} `{!Rng S} fuel lo hi (s : S) v s' : 0 <= lo < hi -> hi < U64 ->
  range fuel lo hi s = Some (v, s') -> lo <= v < hi.
Proof.
  intros Hlo Hhi H. unfold range in H. rewrite (proj2 (Z.leb_gt _ _)) in H by lia.
  apply bind_Some in H as (r & s1 & Hb & H). injection H as <- _.
  apply below_range in Hb. rewrite wadd64_small by lia. lia.
Qed.

(** A sampled latency lies inside one of the distribution's buckets, and
    strictly below the bound the liveness watchdog uses. *)
Theorem sample_within_distribution {S} `{!Rng S} fuel (d : list Bucket) (s : S) v s' :
  Forall bucket_ok d -> 0 < total_weight (map b_weight d) ->
  sample fuel d s = Some (v, s') ->
  (exists b, b ∈ d /\ b_lo b <= v < b_hi b) /\ v < LatencyDist_max d.
Proof.
  intros Hd Ht H. destruct d as [|first rest] eqn:Ed; [done|]. unfold sample in H. rewrite <- Ed in *.
  rewrite (proj2 (Z.eqb_neq _ _)) in H by lia. apply bind_Some in H as (r & s1 & Hb & H).
  apply below_range in Hb.
  assert (Hw : Forall (fun w => 0 <= w) (map b_weight d)).
  { apply Forall_map. eapply Forall_impl; [exact Hd|]. by intros b []. }
  destruct (walk_total 0 r (map b_weight d)) as [k Hk]; [lia|done|]. rewrite Hk in H. simpl in H.
  destruct (walk_spec 0 r (map b_weight d) k) as (_ & Hlen & _); [lia|done|done|].
  rewrite Nat.sub_0_r, length_map in Hlen. destruct (lookup_lt_is_Some_2 d k Hlen) as [b Hbk].
  rewrite Hbk in H. simpl in H. apply list_elem_of_lookup_2 in Hbk as Hin.
  rewrite Forall_forall in Hd. destruct (Hd b Hin) as (_ & Hlo & Hhi).
  apply range_bounds in H; [|done|done]. split; [by exists b|]. pose proof (max_bound d b Hin). lia.
Qed.

Lemma sample_within_distribution_witness :
  exists v s', sample 8 LatencyDist_datacenter (Xoshiro_from_seed 42) = Some (v, s') /\ v < 120000000.
Proof.
  destruct (sample 8 LatencyDist_datacenter (Xoshiro_from_seed 42)) as [[v s']|] eqn:E.
  - exists v, s'. split; [reflexivity|].
    apply (sample_within_distribution 8 LatencyDist_datacenter (Xoshiro_from_seed 42) v s');
      [by_decide|by_decide|exact E].
  - exfalso. revert E. vm_compute. discriminate.
Defined.
