(* ===== verification/Time.v ===== *)
(** * Virtual time: [crates/chrono-sim/src/time.rs]

    Nanoseconds on a [u64], with saturating arithmetic ([Display] is in
    [Text]); the conversions to and from [Duration] are the clamp to [u64]. *)

From Stdlib Require Import ZArith Lia.
From stdpp Require Import base tactics.
From S2P Require Import Prelude.

Open Scope Z_scope.

Abbreviation Nanos := Z.

Definition NANOS_PER_MICRO : Z := 1000.
Definition NANOS_PER_MILLI : Z := 1000000.
Definition NANOS_PER_SEC : Z := 1000000000.

Definition Nanos_MAX : Nanos := U64 - 1.

Definition Nanos_from_millis (ms : Z) : Nanos := smul64 ms NANOS_PER_MILLI.
Definition Nanos_from_micros (us : Z) : Nanos := smul64 us NANOS_PER_MICRO.
Definition Nanos_from_secs (s : Z) : Nanos := smul64 s NANOS_PER_SEC.
Definition Nanos_as_millis (n : Nanos) : Z := n / NANOS_PER_MILLI.
Definition Nanos_as_secs (n : Nanos) : Z := n / NANOS_PER_SEC.

Definition Nanos_add (a b : Nanos) : Nanos := sadd64 a b.
Definition Nanos_sub (a b : Nanos) : Nanos := ssub a b.

Definition Nanos_offset (n : Nanos) (delta : Z) : Nanos :=
  if 0 <=? delta then sadd64 n delta else ssub n (Z.abs delta).

Definition Nanos_from_duration (nanos : Z) : Nanos := Z.min nanos (U64 - 1).

(** * Theorems *)

(** The timeline never wraps. Adding time never moves into the past and
    never leaves [u64]; subtracting never moves into the future; and a clock
    skewed by any signed 64-bit offset stays on the timeline, ahead of the true
    time for a positive offset and behind it for a negative one, by exactly the
    offset whenever that fits. *)
Theorem time_never_wraps (n m delta : Z) :
  is_u64 n -> is_u64 m -> - 2 ^ 63 <= delta < 2 ^ 63 ->
  (is_u64 (Nanos_add n m) /\ n <= Nanos_add n m) /\
  (is_u64 (Nanos_sub n m) /\ Nanos_sub n m <= n) /\
  is_u64 (Nanos_offset n delta) /\
  (0 <= delta -> n <= Nanos_offset n delta) /\ (delta <= 0 -> Nanos_offset n delta <= n) /\
  (is_u64 (n + delta) -> Nanos_offset n delta = n + delta).
Proof.
  unfold is_u64, Nanos_add, Nanos_sub, Nanos_offset, sadd64, ssub. intros Hn Hm Hd.
  destruct (Z.leb_spec 0 delta); split_and!; lia.
Qed.

Lemma time_never_wraps_witness :
  (is_u64 (Nanos_add (U64 - 2) 9) /\ U64 - 2 <= Nanos_add (U64 - 2) 9) /\
  (is_u64 (Nanos_sub (U64 - 2) 9) /\ Nanos_sub (U64 - 2) 9 <= U64 - 2) /\
  is_u64 (Nanos_offset (U64 - 2) (-7)) /\
  (0 <= -7 -> U64 - 2 <= Nanos_offset (U64 - 2) (-7)) /\
  (-7 <= 0 -> Nanos_offset (U64 - 2) (-7) <= U64 - 2) /\
  (is_u64 (U64 - 2 + -7) -> Nanos_offset (U64 - 2) (-7) = U64 - 2 + -7).
Proof. apply time_never_wraps; by_decide. Defined.
