(* ===== verification/Wal.v ===== *)
(** * The write-ahead log's records: [crates/chronolog/src/wal.rs]

    The record format and recovery of a segment, as functions of file contents:
    a file is the list of its bytes, and a write that a crash tears is a write
    of a prefix. The theorems say what recovery makes of any file: it stops at
    the first record that does not verify, keeps what precedes it, and a torn
    write costs exactly the record that was being written. The bookkeeping of
    segments (rollover, offsets, deletion) is not modelled here. *)

From Stdlib Require Import ZArith Lia.
From stdpp Require Import base tactics list list_numbers gmap sets sorting.
From S2P Require Import Prelude Codec Types RaftLog Client Msg.

Open Scope Z_scope.

Definition HEADER : nat := 8.
Definition MAX_RECORD : Z := 32 * 1024 * 1024.

Inductive TailReason : Type :=
| Clean
| ShortHeader
| ShortBody
| TailBadChecksum
| Undecodable
| IndexGap (expected found : Index)
| TailBadLength.

#[export] Instance TailReason_eq_dec : EqDecision TailReason.
Proof. solve_decision. Defined.

Definition TailReason_is_clean (t : TailReason) : bool :=
  match t with Clean => true | _ => false end.

Definition wal_frame (body : Bytes) : Bytes :=
  le_bytes 4 (len_u32 body) ++ le_bytes 4 (crc32c body) ++ body.

(** ** Scanning a segment *)

(** The loop of [scan_segment]: [rest] is [buf[pos..]]. [None] when the fuel is
    spent; every round consumes at least nine bytes. *)
Fixpoint scan_loop (fuel : nat) (rest : Bytes) (pos : nat) (expected : Index) (acc : list Entry) :
    option (list Entry * TailReason * nat) :=
  match fuel with
  | O => None
  | S fuel' =>
      if (length rest =? 0)%nat then Some (acc, Clean, pos)
      else if (length rest <? HEADER)%nat then Some (acc, ShortHeader, pos)
      else
        let len := le_value (sub rest 0 4) in
        let crc := le_value (sub rest 4 4) in
        if (len =? 0) || (MAX_RECORD <? len) then Some (acc, TailBadLength, pos)
        else if (length rest <? HEADER + Z.to_nat len)%nat then Some (acc, ShortBody, pos)
        else
          let body := sub rest HEADER (Z.to_nat len) in
          if negb (crc32c body =? crc) then Some (acc, TailBadChecksum, pos)
          else
            match (Entry_decode (Reader_new body)).1 with
            | Err _ => Some (acc, Undecodable, pos)
            | Ok entry =>
                if negb (e_index entry =? expected)
                then Some (acc, IndexGap expected (e_index entry), pos)
                else scan_loop fuel' (drop (HEADER + Z.to_nat len) rest)
                       (pos + (HEADER + Z.to_nat len)) (e_index entry +64 1) (acc ++ [entry])
            end
  end.

Definition scan_segment (buf : Bytes) (first_index : Index) (prev_index : option Index) :
    option (list Entry * TailReason * nat) :=
  let expected := match prev_index with Some i => i +64 1 | None => first_index end in
  scan_loop (S (length buf)) buf 0 expected [].

(** * Theorems *)

(** ** Records *)

(** A body that a record can carry. *)
Definition body_ok (body : Bytes) : Prop :=
  Forall is_u8 body /\ 0 < Z.of_nat (length body) <= MAX_RECORD.

Definition record_ok (e : Entry) : Prop := Entry_ok e /\ body_ok (Entry_to_bytes e).

#[export] Instance body_ok_dec b : Decision (body_ok b).
Proof. unfold body_ok. apply _. Defined.
#[export] Instance record_ok_dec e : Decision (record_ok e).
Proof. unfold record_ok. apply _. Defined.

Definition record_of (e : Entry) : Bytes := wal_frame (Entry_to_bytes e).
Definition segment_of (es : list Entry) : Bytes := concat (map record_of es).

Lemma wal_frame_length body : length (wal_frame body) = (HEADER + length body)%nat.
Proof. unfold wal_frame. rewrite !length_app, !le_bytes_length. done. Qed.

Lemma sub_app_l (a b : Bytes) n : length a = n -> sub (a ++ b) 0 n = a.
Proof. intros <-. unfold sub. rewrite drop_0. apply take_app_length. Qed.

Lemma sub_app_r (a b : Bytes) k n : length a = k -> sub (a ++ b) k n = take n b.
Proof. intros <-. unfold sub. by rewrite drop_app_length. Qed.

(** The two header words of a buffer that starts with a header. *)
Lemma header_words (lb cb rest : Bytes) : length lb = 4%nat -> length cb = 4%nat ->
  sub (lb ++ cb ++ rest) 0 4 = lb /\ sub (lb ++ cb ++ rest) 4 4 = cb /\
  (forall n, sub (lb ++ cb ++ rest) HEADER n = take n rest).
Proof.
  intros Hl Hc. split; [by apply sub_app_l|]. split.
  - rewrite (sub_app_r lb) by done. rewrite <- Hc. apply take_app_length.
  - intros n. rewrite app_assoc. apply sub_app_r. by rewrite length_app, Hl, Hc.
Qed.

Lemma body_len body : body_ok body -> le_value (le_bytes 4 (len_u32 body)) = Z.of_nat (length body).
Proof. intros [_ H]. apply payload_len. unfold MAX_RECORD, MAX_FRAME in *. lia. Qed.

Lemma body_crc body : body_ok body -> le_value (le_bytes 4 (crc32c body)) = crc32c body.
Proof. intros [H _]. by apply payload_crc. Qed.

Lemma length_checks n : 0 < n <= MAX_RECORD -> (n =? 0) || (MAX_RECORD <? n) = false.
Proof. intros H. rewrite (proj2 (Z.eqb_neq _ _)), (proj2 (Z.ltb_ge _ _)) by lia. done. Qed.

(** Scanning one well-formed record. *)
Lemma scan_record fuel e tail pos acc : record_ok e ->
  scan_loop (S fuel) (record_of e ++ tail) pos (e_index e) acc =
    scan_loop fuel tail (pos + length (record_of e)) (e_index e +64 1) (acc ++ [e]).
Proof.
  intros [He Hb]. unfold record_of. set (body := Entry_to_bytes e) in *.
  assert (Hlen : length (wal_frame body ++ tail) = (HEADER + length body + length tail)%nat)
    by (rewrite length_app, wal_frame_length; lia).
  rewrite wal_frame_length. cbn [scan_loop]. rewrite Hlen.
  rewrite (proj2 (Nat.eqb_neq _ _)), (proj2 (Nat.ltb_ge _ _)) by (unfold HEADER; lia).
  unfold wal_frame. rewrite <- !app_assoc.
  destruct (header_words (le_bytes 4 (len_u32 body)) (le_bytes 4 (crc32c body)) (body ++ tail))
    as (E1 & E2 & E3); [apply le_bytes_length..|].
  rewrite E1, E2, E3. cbv zeta. rewrite body_len, body_crc, length_checks by (done || apply Hb).
  rewrite Nat2Z.id. rewrite (proj2 (Nat.ltb_ge _ _)) by lia. rewrite take_app_length, Z.eqb_refl. simpl negb.
  assert (Ed : (Entry_decode (Reader_new body)).1 = Ok e) by by apply RoundTrip_decode.
  rewrite Ed, Z.eqb_refl. cbn [negb]. f_equal.
  rewrite !app_assoc, drop_app_length'; [done|]. rewrite !length_app, !le_bytes_length. done.
Qed.

Lemma scan_records es fuel tail pos acc i : Forall record_ok es -> contiguous_from i es ->
  0 <= i -> i + Z.of_nat (length es) < U64 ->
  scan_loop (length es + fuel) (segment_of es ++ tail) pos i acc =
    scan_loop fuel tail (pos + length (segment_of es)) (i + Z.of_nat (length es)) (acc ++ es).
Proof.
  intros Hok. revert pos acc i. induction Hok as [|e es He Hes IH]; intros pos acc i Hc Hi Hr.
  { rewrite app_nil_r. cbn [length]. change (segment_of [] ++ tail) with tail.
    change (length (segment_of [])) with 0%nat. by rewrite Nat.add_0_r, Z.add_0_r. }
  apply contiguous_cons in Hc as [<- Hc].
  change (segment_of (e :: es)) with (record_of e ++ segment_of es).
  change (length (e :: es) + fuel)%nat with (S (length es + fuel)).
  rewrite <- app_assoc. cbn [length] in Hr |- *.
  rewrite (scan_record (length es + fuel) e (segment_of es ++ tail) pos acc He).
  rewrite wadd64_small by lia. rewrite IH by (done || lia).
  rewrite length_app, <- app_assoc. f_equal; lia.
Qed.

Lemma segment_length_ge es : (length es <= length (segment_of es))%nat.
Proof.
  induction es as [|e es IH]; [done|].
  change (segment_of (e :: es)) with (wal_frame (Entry_to_bytes e) ++ segment_of es).
  rewrite length_app, wal_frame_length. unfold HEADER. cbn [length]. lia.
Qed.

(** Enough fuel for the records and one more round. *)
Lemma scan_segment_records es tail first prev : Forall record_ok es -> contiguous_from first es ->
  0 <= first -> first + Z.of_nat (length es) < U64 ->
  match prev with Some i => i +64 1 | None => first end = first ->
  exists fuel, scan_segment (segment_of es ++ tail) first prev =
    scan_loop (S fuel) tail (length (segment_of es)) (first + Z.of_nat (length es)) es.
Proof.
  intros Hok Hc Hf Hr Hp. unfold scan_segment. rewrite Hp. pose proof (segment_length_ge es).
  exists (length (segment_of es ++ tail) - length es)%nat.
  rewrite <- (scan_records es _ tail 0 [] first Hok Hc Hf Hr). f_equal.
  rewrite length_app. lia.
Qed.

(** Why the scan stops at a record of which only [k] bytes are there. *)
Definition torn_tail (k : nat) : TailReason :=
  if decide (k = 0)%nat then Clean else if decide (k < HEADER)%nat then ShortHeader else ShortBody.

Lemma scan_torn fuel e k pos expected acc : record_ok e -> (k < length (record_of e))%nat ->
  scan_loop (S fuel) (take k (record_of e)) pos expected acc = Some (acc, torn_tail k, pos).
Proof.
  intros He Hk. assert (Hl : length (take k (record_of e)) = k) by (rewrite length_take; lia).
  unfold torn_tail. cbn [scan_loop]. rewrite Hl. destruct (decide (k = 0%nat)) as [->|Hk0]; [done|].
  rewrite (proj2 (Nat.eqb_neq _ _)) by lia. destruct (decide (k < HEADER)%nat) as [Hh|Hh].
  { by rewrite (proj2 (Nat.ltb_lt _ _)) by lia. }
  rewrite (proj2 (Nat.ltb_ge _ _)) by lia.
  destruct He as [_ Hb]. unfold record_of in *. set (body := Entry_to_bytes e) in *.
  rewrite wal_frame_length in Hk.
  assert (E : take k (wal_frame body) =
    le_bytes 4 (len_u32 body) ++ le_bytes 4 (crc32c body) ++ take (k - HEADER) body).
  { unfold wal_frame. rewrite app_assoc, take_app_ge.
    - by rewrite length_app, !le_bytes_length, <- app_assoc.
    - rewrite length_app, !le_bytes_length. unfold HEADER in Hh. lia. }
  destruct (header_words (le_bytes 4 (len_u32 body)) (le_bytes 4 (crc32c body)) (take (k - HEADER) body))
    as (E1 & E2 & _); [apply le_bytes_length..|].
  rewrite E, E1. cbv zeta. rewrite body_len, length_checks by (done || apply Hb).
  by rewrite Nat2Z.id, (proj2 (Nat.ltb_lt _ _)) by lia.
Qed.

(** A torn append costs exactly the record being written. If a segment
    holds some records and then any proper prefix of the next one, recovery
    returns exactly the complete records, the byte length they occupy, and says
    the tail was cut inside a header or inside a body. *)
Theorem torn_append_recovers es e first k :
  Forall record_ok es -> record_ok e -> contiguous_from first es ->
  0 <= first -> first + Z.of_nat (length es) < U64 -> (k < length (record_of e))%nat ->
  scan_segment (segment_of es ++ take k (record_of e)) first None =
    Some (es, torn_tail k,
          length (segment_of es)).
Proof.
  intros Hok He Hc Hf Hr Hk. destruct (scan_segment_records es (take k (record_of e)) first None) as [fuel ->]; try done.
  by apply scan_torn.
Qed.

Lemma torn_append_recovers_witness :
  scan_segment (segment_of [demo_entry 1 1; demo_entry 1 2] ++ take 9 (record_of (demo_entry 1 3))) 1 None
    = Some ([demo_entry 1 1; demo_entry 1 2], ShortBody, length (segment_of [demo_entry 1 1; demo_entry 1 2])).
Proof. apply (torn_append_recovers [demo_entry 1 1; demo_entry 1 2] (demo_entry 1 3) 1 9); by_decide. Defined.

(** A rotted byte costs the record it is in and what follows, nothing
    before. If one byte of a record's body changes, recovery returns exactly the
    records before it and reports a bad checksum, whatever follows. *)
Theorem rotted_record_recovers es e first j b junk :
  Forall record_ok es -> record_ok e -> contiguous_from first es ->
  0 <= first -> first + Z.of_nat (length es) < U64 ->
  (j < length (Entry_to_bytes e))%nat -> is_u8 b -> Entry_to_bytes e !! j <> Some b ->
  scan_segment (segment_of es ++ <[(HEADER + j)%nat := b]> (record_of e) ++ junk) first None =
    Some (es, TailBadChecksum, length (segment_of es)).
Proof.
  intros Hok [_ Hb] Hc Hf Hr Hj Hb8 Hne. unfold record_of. set (body := Entry_to_bytes e) in *.
  destruct (scan_segment_records es (<[(HEADER + j)%nat := b]> (wal_frame body) ++ junk) first None)
    as [fuel ->]; try done.
  assert (E : <[(HEADER + j)%nat := b]> (wal_frame body) =
    le_bytes 4 (len_u32 body) ++ le_bytes 4 (crc32c body) ++ <[j := b]> body).
  { unfold wal_frame. rewrite app_assoc.
    replace (HEADER + j)%nat with (length (le_bytes 4 (len_u32 body) ++ le_bytes 4 (crc32c body)) + j)%nat
      by (rewrite length_app, !le_bytes_length; done).
    by rewrite insert_app_r, <- app_assoc. }
  rewrite E, <- !app_assoc. cbn [scan_loop]. rewrite !length_app, !le_bytes_length, length_insert.
  rewrite (proj2 (Nat.eqb_neq _ _)), (proj2 (Nat.ltb_ge _ _)) by (unfold HEADER; lia).
  destruct (header_words (le_bytes 4 (len_u32 body)) (le_bytes 4 (crc32c body)) (<[j := b]> body ++ junk))
    as (E1 & E2 & E3); [apply le_bytes_length..|].
  rewrite E1, E2, E3. cbv zeta. rewrite body_len, body_crc, length_checks by (done || apply Hb).
  rewrite Nat2Z.id, (proj2 (Nat.ltb_ge _ _)) by (unfold HEADER; lia).
  rewrite take_app_length' by (by rewrite length_insert).
  rewrite (proj2 (Z.eqb_neq _ _)); [done|]. apply crc32c_insert; [apply Hb|done..].
Qed.

Lemma rotted_record_recovers_witness :
  scan_segment (segment_of [demo_entry 1 1] ++ <[(HEADER + 3)%nat := 9]> (record_of (demo_entry 1 2)) ++ [7]) 1 None
    = Some ([demo_entry 1 1], TailBadChecksum, length (segment_of [demo_entry 1 1])).
Proof. apply rotted_record_recovers; by_decide. Defined.

(** ** Recovery of any bytes *)

(** What one round of the scan does, when it accepts a record: [n] bytes are
    consumed, and the round depends on those bytes only. *)
Inductive accepts (rest : Bytes) (expected : Index) (n : nat) (e : Entry) : Prop :=
| accepts_intro :
    (HEADER < n <= length rest)%nat -> e_index e = expected ->
    (forall fuel tail pos acc,
       scan_loop (S fuel) (take n rest ++ tail) pos expected acc =
         scan_loop fuel tail (pos + n) (e_index e +64 1) (acc ++ [e])) ->
    accepts rest expected n e.

Lemma sub_take (l tail : Bytes) a n m : (a + n <= m)%nat -> (m <= length l)%nat ->
  sub (take m l ++ tail) a n = sub l a n.
Proof.
  intros H1 H2. unfold sub.
  rewrite drop_app_le by (rewrite length_take; lia).
  rewrite take_app_le by (rewrite length_drop, length_take; lia).
  rewrite skipn_firstn_comm, take_take. f_equal. lia.
Qed.

Lemma sub_u8 l a n : Forall is_u8 l -> Forall is_u8 (sub l a n).
Proof. intros H. by apply Forall_take, Forall_drop. Qed.

Lemma scan_round fuel rest pos expected acc : Forall is_u8 rest ->
  (exists reason, scan_loop (S fuel) rest pos expected acc = Some (acc, reason, pos)) \/
  (exists n e, accepts rest expected n e).
Proof.
  intros Hu. cbn [scan_loop]. destruct (Nat.eqb_spec (length rest) 0); [left; by eexists|].
  destruct (Nat.ltb_spec (length rest) HEADER) as [|Hh]; [left; by eexists|]. cbv zeta.
  set (len := le_value (sub rest 0 4)).
  destruct ((len =? 0) || (MAX_RECORD <? len)) eqn:El; [left; by eexists|].
  destruct (Nat.ltb_spec (length rest) (HEADER + Z.to_nat len)) as [|Hb]; [left; by eexists|].
  destruct (negb (crc32c _ =? _)) eqn:Ec; [left; by eexists|].
  destruct ((Entry_decode (Reader_new (sub rest HEADER (Z.to_nat len)))).1) as [e|] eqn:Ed;
    [|left; by eexists].
  destruct (negb (e_index e =? expected)) eqn:Ei; [left; by eexists|]. right.
  assert (Hpos : (0 < Z.to_nat len)%nat).
  { apply orb_false_iff in El as [E0 _]. apply Z.eqb_neq in E0.
    pose proof (le_value_range _ (sub_u8 rest 0 4 Hu)). fold len in H. lia. }
  exists (HEADER + Z.to_nat len)%nat, e. split; [lia| |].
  { apply negb_false_iff, Z.eqb_eq in Ei. done. }
  intros fuel' tail pos' acc'. cbn [scan_loop].
  assert (Hl : length (take (HEADER + Z.to_nat len) rest ++ tail) = (HEADER + Z.to_nat len + length tail)%nat)
    by (rewrite length_app, length_take; lia).
  rewrite Hl, (proj2 (Nat.eqb_neq _ _)), (proj2 (Nat.ltb_ge _ _)) by (unfold HEADER; lia).
  rewrite !sub_take by (unfold HEADER in *; lia). cbv zeta. fold len.
  rewrite El, (proj2 (Nat.ltb_ge _ _)) by lia. rewrite Ec, Ed, Ei. f_equal.
  apply drop_app_length'. rewrite length_take. lia.
Qed.

(** The scan of any bytes ends, and its result is that of its own prefix. *)
Lemma scan_loop_sound fuel rest pos expected acc :
  Forall is_u8 rest -> (length rest < fuel)%nat -> 0 <= expected ->
  expected + Z.of_nat (length rest) < U64 ->
  exists es reason n,
    scan_loop fuel rest pos expected acc = Some (acc ++ es, reason, (pos + n)%nat) /\
    contiguous_from expected es /\ (n <= length rest)%nat /\ (length es <= n)%nat /\
    forall k, (length es < k)%nat ->
      scan_loop k (take n rest) pos expected acc = Some (acc ++ es, Clean, (pos + n)%nat).
Proof.
  revert rest pos expected acc. induction fuel as [|fuel IH]; intros rest pos expected acc Hu Hf He Hr; [lia|].
  destruct (scan_round fuel rest pos expected acc Hu) as [[reason E]|(n & e & [Hn Hi Hacc])].
  - exists [], reason, 0%nat. rewrite app_nil_r, Nat.add_0_r. split_and!; try done; [lia|].
    intros [|k] Hk; [lia|done].
  - unfold HEADER in Hn. specialize (Hacc fuel (drop n rest) pos acc) as Hround.
    rewrite take_drop, Hi, wadd64_small in Hround by lia.
    destruct (IH (drop n rest) (pos + n)%nat (expected + 1) (acc ++ [e])) as (es & reason & m & E & Hc & Hm & Hle & Hk);
      [by apply Forall_drop|rewrite length_drop; lia|lia|rewrite length_drop; lia|].
    exists (e :: es), reason, (n + m)%nat. rewrite length_drop in Hm.
    rewrite Hround, E, <- app_assoc, Nat.add_assoc. split_and!; [done|by apply contiguous_cons|lia|simpl; lia|].
    intros [|k] Hlt; simpl in Hlt; [lia|].
    rewrite <- (take_drop n (take (n + m) rest)), take_take, Nat.min_l by lia.
    rewrite skipn_firstn_comm. replace (n + m - n)%nat with m by lia.
    rewrite Hacc, Hi, wadd64_small by lia. rewrite Hk by lia. by rewrite <- app_assoc.
Qed.

(** Recovery of a segment is total and never skips. Whatever bytes the file
    holds, the scan ends; the entries it returns are contiguous from the expected
    index; and cutting the file back to the bytes that verified, which is what
    [open] does, leaves a file that scans cleanly to the same entries. *)
Theorem scan_segment_sound buf first prev :
  Forall is_u8 buf ->
  let expected := match prev with Some i => i + 1 | None => first end in
  0 <= expected -> expected + Z.of_nat (length buf) < U64 ->
  exists es reason n,
    scan_segment buf first prev = Some (es, reason, n) /\
    contiguous_from expected es /\ (n <= length buf)%nat /\
    scan_segment (take n buf) first prev = Some (es, Clean, n).
Proof.
  intros Hu. cbv zeta. set (expected := match prev with Some i => i + 1 | None => first end).
  intros He Hr.
  assert (Ee : match prev with Some i => i +64 1 | None => first end = expected).
  { unfold expected in *. destruct prev; [|done]. apply wadd64_small. lia. }
  unfold scan_segment. rewrite Ee.
  destruct (scan_loop_sound (S (length buf)) buf 0 expected []) as (es & reason & n & E & Hc & Hn & Hle & Hk);
    [done|lia|done|done|].
  exists es, reason, n. split; [done|]. split; [done|]. split; [done|]. apply Hk.
  rewrite length_take. lia.
Qed.

Lemma scan_segment_sound_witness :
  exists es reason n,
    scan_segment (segment_of [demo_entry 1 1] ++ [1; 0; 0]) 1 None = Some (es, reason, n) /\
    contiguous_from 1 es /\ (n <= length (segment_of [demo_entry 1 1] ++ [1%Z; 0%Z; 0%Z]))%nat /\
    scan_segment (take n (segment_of [demo_entry 1 1] ++ [1; 0; 0])) 1 None = Some (es, Clean, n).
Proof. apply (scan_segment_sound (segment_of [demo_entry 1 1] ++ [1; 0; 0]) 1 None); by_decide. Defined.
