(* ===== verification/WalState.v ===== *)
(** * The hard state and the snapshot slots: [crates/chronolog/src/wal.rs]

    Both are double-buffered: [state] holds two slots of one file, written
    alternately, and a snapshot goes to the one of two files the last did not
    use. The theorems say that a save which a crash tears at any byte leaves the
    previous value readable, and that a completed save is read back; and that a
    save which the disk refuses turns the next one onto the live slot. *)

From Stdlib Require Import ZArith Lia.
From stdpp Require Import base tactics list list_numbers gmap sets sorting.
From S2P Require Import Prelude Codec Types RaftLog Client Msg Wal.

Open Scope Z_scope.

Definition STATE_SLOT : nat := 4096.

(** ** The hard state *)

(** [file.read_at(at, n)]: what the file holds of the range. *)
Definition read_at (file : Bytes) (at_ n : nat) : Bytes := sub file at_ n.

(** [file.write_at(at, bytes)]: a gap before [at] reads as zeros. *)
Definition write_at (file : Bytes) (at_ : nat) (bytes : Bytes) : Bytes :=
  take at_ (file ++ replicate (at_ - length file) 0) ++ bytes ++ drop (at_ + length bytes) file.

Definition hard_state_body (seq : Z) (hs : HardState) : Bytes :=
  Writer_new |> Writer_u64 seq |> Writer_u64 (hs_term hs) |> Writer_u64 (hs_commit hs)
             |> Writer_opt Writer_u32 (hs_vote hs).

Definition hard_state_parser : Parser (HardState * Z) :=
  seq ← Reader_u64; term ← Reader_u64; commit ← Reader_u64; vote ← Reader_opt Reader_u32;
  mret (mkHardState term vote commit, seq).

(** The body of the record in a slot, when its header and checksum verify;
    [None] is the [continue] of [read_hard_state]. *)
Definition slot_body (file : Bytes) (at_ : nat) : option Bytes :=
  let header := read_at file at_ HEADER in
  if (length header <? HEADER)%nat then None
  else
    let len := le_value (sub header 0 4) in
    let crc := le_value (sub header 4 4) in
    if (len =? 0) || (256 <? len) then None
    else
      let body := read_at file (at_ + HEADER) (Z.to_nat len) in
      if negb (length body =? Z.to_nat len)%nat || negb (crc32c body =? crc) then None
      else Some body.

(** One slot's round of [read_hard_state]. *)
Definition read_slot (file : Bytes) (at_ : nat) : option (HardState * Z) :=
  body ← slot_body file at_;
  match (hard_state_parser (Reader_new body)).1 with Ok r => Some r | Err _ => None end.

(** [if seq >= best.1 { best = .. }]. *)
Definition better (best : HardState * Z) (slot : option (HardState * Z)) : HardState * Z :=
  match slot with
  | Some (hs, seq) => if best.2 <=? seq then (hs, seq) else best
  | None => best
  end.

Definition read_hard_state (file : Bytes) : HardState * Z :=
  better (better (HardState_default, 0) (read_slot file 0)) (read_slot file STATE_SLOT).

(** [save_hard_state]: the sequence number it uses and the write it makes. *)
Definition hard_state_write (state_seq : Z) (hs : HardState) : Z * nat * Bytes :=
  let seq := state_seq +64 1 in
  (seq, (Z.to_nat (seq mod 2) * STATE_SLOT)%nat, wal_frame (hard_state_body seq hs)).

(** [wrote] is whether [write_at] and [fsync] succeed. The sequence number
    moves either way. *)
Definition save_hard_state (wrote : bool) (file : Bytes) (state_seq : Z) (hs : HardState) :
    Bytes * Z * bool :=
  let '(seq, slot, bytes) := hard_state_write state_seq hs in
  (if wrote then write_at file slot bytes else file, seq, wrote).

(** ** Snapshots *)

Definition snapshot_body (seq : Z) (s : Snapshot) : Bytes :=
  Writer_new |> Writer_u64 seq |> Snapshot_encode s.

Definition snapshot_parser : Parser (Z * Snapshot) :=
  seq ← Reader_u64; s ← Snapshot_decode; mret (seq, s).

Definition read_snapshot (buf : Bytes) : option (Z * Snapshot) :=
  if (length buf <? HEADER)%nat then None
  else
    let len := le_value (sub buf 0 4) in
    let crc := le_value (sub buf 4 4) in
    if (len =? 0) || (MAX_RECORD <? len) || (length buf <? HEADER + Z.to_nat len)%nat then None
    else
      let body := sub buf HEADER (Z.to_nat len) in
      if negb (crc32c body =? crc) then None
      else match (snapshot_parser (Reader_new body)).1 with Ok r => Some r | Err _ => None end.

(** One round of the loop over the two slots in [Wal::open]: the snapshot kept,
    its sequence number and the slot the next one goes to. *)
Definition consider_slot (st : option Snapshot * Z * Z) (slot : Z) (read : option (Z * Snapshot)) :
    option Snapshot * Z * Z :=
  match read with
  | Some (seq, s) => if st.1.2 <=? seq then (Some s, seq, 1 - slot) else st
  | None => st
  end.

Definition pick_snapshot (slot0 slot1 : Bytes) : option Snapshot * Z * Z :=
  consider_slot (consider_slot (None, 0, 0) 0 (read_snapshot slot0)) 1 (read_snapshot slot1).

(** [save_snapshot]: the sequence number it uses and the record it writes. *)
Definition snapshot_write (snapshot_seq : Z) (s : Snapshot) : Z * Bytes :=
  let seq := snapshot_seq +64 1 in (seq, wal_frame (snapshot_body seq s)).

(** The two slot files after the slot [next] is truncated and [written] bytes
    of the record reach it. *)
Definition save_snapshot (written : nat) (slot0 slot1 : Bytes) (snapshot_seq next : Z) (s : Snapshot) :
    Bytes * Bytes :=
  let bytes := take written (snapshot_write snapshot_seq s).2 in
  if next =? 0 then (bytes, slot1) else (slot0, bytes).

(** * Theorems *)

(** ** Reading back what was written *)

Lemma write_at_split file at_ bytes :
  exists pre, length pre = at_ /\ write_at file at_ bytes = pre ++ bytes ++ drop (at_ + length bytes) file.
Proof.
  exists (take at_ (file ++ replicate (at_ - length file) 0)). split; [|done].
  rewrite length_take, length_app, length_replicate. lia.
Qed.

Lemma read_written file at_ bytes a n : (at_ <= a)%nat -> (a + n <= at_ + length bytes)%nat ->
  read_at (write_at file at_ bytes) a n = sub bytes (a - at_) n.
Proof.
  intros Ha Hn. destruct (write_at_split file at_ bytes) as (pre & Hp & ->).
  unfold read_at, sub. rewrite drop_app_ge, Hp by lia.
  rewrite drop_app_le, take_app_le by (rewrite ?length_drop; lia). done.
Qed.

Lemma read_below file at_ bytes a n : (a + n <= at_)%nat -> (at_ <= length file)%nat ->
  read_at (write_at file at_ bytes) a n = read_at file a n.
Proof.
  intros Ha Hl. unfold read_at, write_at. rewrite take_app_le by lia. by apply sub_take.
Qed.

Lemma read_above file bytes a n : (length bytes <= a)%nat ->
  read_at (write_at file 0 bytes) a n = read_at file a n.
Proof.
  intros Ha. unfold read_at, write_at, sub. simpl. rewrite drop_app_ge by lia. rewrite drop_drop.
  do 2 f_equal. lia.
Qed.

Lemma write_at_length file at_ bytes : (at_ <= length (write_at file at_ bytes))%nat /\
  (length file <= length (write_at file at_ bytes))%nat.
Proof.
  destruct (write_at_split file at_ bytes) as (pre & Hp & ->).
  rewrite !length_app, length_drop. lia.
Qed.

Lemma STATE_SLOT_room : (264 <= STATE_SLOT)%nat.
Proof. by_decide. Qed.

(** A slot's verdict depends on its first 264 bytes. *)
Lemma slot_body_ext f g at_ :
  (forall a n, (at_ <= a)%nat -> (a + n <= at_ + 264)%nat -> read_at f a n = read_at g a n) ->
  slot_body f at_ = slot_body g at_.
Proof.
  intros H. unfold slot_body, HEADER. rewrite (H at_ 8%nat) by lia.
  destruct (length (read_at g at_ 8) <? 8)%nat; [done|]. cbv zeta.
  set (len := le_value _). destruct ((len =? 0) || (256 <? len)) eqn:El; [done|].
  apply orb_false_iff in El as [_ El]. apply Z.ltb_ge in El.
  by rewrite (H (at_ + 8)%nat (Z.to_nat len)) by lia.
Qed.

Lemma read_slot_ext f g at_ :
  (forall a n, (at_ <= a)%nat -> (a + n <= at_ + 264)%nat -> read_at f a n = read_at g a n) ->
  read_slot f at_ = read_slot g at_.
Proof. intros H. unfold read_slot. by rewrite (slot_body_ext f g). Qed.

Definition slot_body_ok (body : Bytes) : Prop := Forall is_u8 body /\ 0 < Z.of_nat (length body) <= 256.

Lemma slot_written file at_ body : slot_body_ok body ->
  slot_body (write_at file at_ (wal_frame body)) at_ = Some body.
Proof.
  intros [Hu Hl]. assert (Hb : body_ok body) by (split; [done|unfold MAX_RECORD; lia]).
  assert (Hh : read_at (write_at file at_ (wal_frame body)) at_ HEADER =
    le_bytes 4 (len_u32 body) ++ le_bytes 4 (crc32c body)).
  { rewrite read_written, Nat.sub_diag by (rewrite ?wal_frame_length; lia).
    unfold wal_frame. rewrite app_assoc. apply sub_app_l. by rewrite length_app, !le_bytes_length. }
  unfold slot_body. rewrite Hh.
  destruct (header_words (le_bytes 4 (len_u32 body)) (le_bytes 4 (crc32c body)) [])
    as (E1 & E2 & _); [apply le_bytes_length..|]. rewrite app_nil_r in E1, E2.
  rewrite E1, E2, length_app, !le_bytes_length. cbn [Nat.ltb Nat.leb Nat.add HEADER]. cbv zeta.
  rewrite body_len, body_crc by done.
  rewrite (proj2 (Z.eqb_neq _ _)), (proj2 (Z.ltb_ge _ _)) by lia. cbn [orb]. rewrite Nat2Z.id.
  rewrite read_written by (rewrite ?wal_frame_length; unfold HEADER; lia).
  replace (at_ + HEADER - at_)%nat with 8%nat by (unfold HEADER; lia).
  assert (E3 : sub (wal_frame body) 8 (length body) = body).
  { unfold wal_frame. rewrite app_assoc, sub_app_r by (by rewrite length_app, !le_bytes_length).
    apply firstn_all. }
  by rewrite E3, Nat.eqb_refl, Z.eqb_refl.
Qed.

(** ** The hard state *)

Definition HardState_ok (hs : HardState) : Prop :=
  is_u64 (hs_term hs) /\ opt_ok is_u32 (hs_vote hs) /\ is_u64 (hs_commit hs).

#[export] Instance HardState_ok_dec hs : Decision (HardState_ok hs).
Proof. unfold HardState_ok. apply _. Defined.

Lemma hard_state_bytes seq hs : hard_state_body seq hs =
  le_bytes 8 seq ++ le_bytes 8 (hs_term hs) ++ le_bytes 8 (hs_commit hs) ++ Writer_opt Writer_u32 (hs_vote hs) [].
Proof. unfold hard_state_body, Writer_new. writer_fields. done. Qed.

Lemma hard_state_parses seq hs : is_u64 seq -> HardState_ok hs ->
  parses hard_state_parser (hard_state_body seq hs) (hs, seq).
Proof.
  intros Hs (Ht & Hv & Hc). rewrite hard_state_bytes. destruct hs as [t v c].
  cbn [hs_term hs_vote hs_commit] in *. unfold hard_state_parser. parse_fields.
Qed.

Lemma hard_state_body_ok seq hs : is_u64 seq -> HardState_ok hs -> slot_body_ok (hard_state_body seq hs).
Proof.
  intros Hs (Ht & Hv & Hc). rewrite hard_state_bytes. destruct hs as [t v c].
  cbn [hs_term hs_vote hs_commit] in *. split.
  - rewrite !Forall_app. split_and!; try apply le_bytes_u8.
    rewrite Writer_opt_bytes. destruct v; (constructor; [by_decide|]); [apply le_bytes_u8|constructor].
  - rewrite Writer_opt_bytes, !length_app, !le_bytes_length. destruct v; simpl length; lia.
Qed.

Lemma parse_hard_state_body seq hs : is_u64 seq -> HardState_ok hs ->
  (hard_state_parser (Reader_new (hard_state_body seq hs))).1 = Ok (hs, seq).
Proof.
  intros Hs Hh. rewrite (hard_state_parses seq hs Hs Hh _ []); [done|].
  unfold rest_of. simpl. by rewrite app_nil_r.
Qed.

(** The slot a sequence number goes to. *)
Definition slot_of (seq : Z) : nat := (Z.to_nat (seq mod 2) * STATE_SLOT)%nat.

(** What a slot that is not the live one may hold. *)
Definition stale (slot : option (HardState * Z)) (seq : Z) : Prop :=
  match slot with Some (_, s) => 0 <= s < seq | None => True end.

(** The state file after [seq] saves, the last of which saved [hs]. A file that
    was never written is empty; a write to the second slot pads the first. *)
Record state_file (file : Bytes) (hs : HardState) (seq : Z) : Prop := {
  sf_seq : 0 <= seq;
  sf_pad : file = [] \/ (STATE_SLOT <= length file)%nat;
  sf_fresh : seq = 0 -> hs = HardState_default /\ read_slot file 0 = None /\ read_slot file STATE_SLOT = None;
  sf_live : 0 < seq -> file <> [] /\ read_slot file (slot_of seq) = Some (hs, seq)
                       /\ stale (read_slot file (slot_of (seq + 1))) seq
}.

Lemma slot_of_0 : slot_of 0 = 0%nat.
Proof. apply Nat.mul_0_l. Qed.

Lemma slot_of_1 : slot_of (0 + 1) = STATE_SLOT.
Proof. apply Nat.mul_1_l. Qed.

Lemma slot_of_cases seq : (slot_of seq = 0%nat /\ slot_of (seq + 1) = STATE_SLOT) \/
  (slot_of seq = STATE_SLOT /\ slot_of (seq + 1) = 0%nat).
Proof.
  unfold slot_of.
  assert (seq mod 2 = 0 /\ (seq + 1) mod 2 = 1 \/ seq mod 2 = 1 /\ (seq + 1) mod 2 = 0) as
    [[-> ->]|[-> ->]] by (Z.to_euclidean_division_equations; lia).
  - left. split; [apply Nat.mul_0_l|apply Nat.mul_1_l].
  - right. split; [apply Nat.mul_1_l|apply Nat.mul_0_l].
Qed.

Lemma slot_of_next seq : slot_of (seq + 1 + 1) = slot_of seq.
Proof. unfold slot_of. replace (seq + 1 + 1) with (seq + 1 * 2) by lia. by rewrite Z_mod_plus_full. Qed.

Lemma better_newer best hs seq : best.2 <= seq -> better best (Some (hs, seq)) = (hs, seq).
Proof. intros H. unfold better. by rewrite (proj2 (Z.leb_le _ _)). Qed.

Lemma better_stale hs seq slot : stale slot seq -> better (hs, seq) slot = (hs, seq).
Proof.
  destruct slot as [[h s]|]; [|done]. unfold stale, better. intros H. cbn [snd].
  by rewrite (proj2 (Z.leb_gt _ _)) by lia.
Qed.

Lemma better_first slot seq : 0 < seq -> stale slot seq -> (better (HardState_default, 0) slot).2 <= seq.
Proof.
  destruct slot as [[h s]|]; unfold stale, better; cbn [snd]; [|lia].
  intros _ H. destruct (0 <=? s); cbn [snd]; lia.
Qed.

Lemma state_file_reads file hs seq : state_file file hs seq -> read_hard_state file = (hs, seq).
Proof.
  intros [Hs _ Hf Hl]. unfold read_hard_state.
  destruct (Z.eq_dec seq 0) as [->|]; [by destruct Hf as (-> & -> & ->)|].
  destruct Hl as (_ & E & Ho); [lia|].
  destruct (slot_of_cases seq) as [[E1 E2]|[E1 E2]]; rewrite E1 in E; rewrite E2 in Ho; rewrite E.
  - rewrite better_newer by done. by apply better_stale.
  - apply better_newer, better_first; [lia|done].
Qed.

Lemma state_file_fresh : state_file [] HardState_default 0.
Proof. split; [done|by left|done|lia]. Qed.

(** Writing up to 264 bytes at one slot leaves the other as it was. *)
Lemma other_slot_kept file hs seq bytes : state_file file hs seq -> (length bytes <= 264)%nat ->
  0 < seq ->
  read_slot (write_at file (slot_of (seq + 1)) bytes) (slot_of seq) = read_slot file (slot_of seq).
Proof.
  intros [_ Hp _ Hl] Hb Hs. destruct (Hl Hs) as [Hne _]. destruct Hp as [->|Hp]; [done|].
  apply read_slot_ext. intros a n Ha Hn. pose proof STATE_SLOT_room.
  destruct (slot_of_cases seq) as [[E1 E2]|[E1 E2]]; rewrite E1 in Ha, Hn; rewrite E2.
  - apply read_below; lia.
  - apply read_above. lia.
Qed.

(** The first write to the second slot pads the first with zeros. *)
Lemma first_slot_padded bytes : slot_body (write_at [] STATE_SLOT bytes) 0 = None.
Proof. unfold write_at. rewrite drop_nil, app_nil_r. reflexivity. Qed.

Lemma first_slot_kept file hs bytes : state_file file hs 0 ->
  read_slot (write_at file STATE_SLOT bytes) 0 = None.
Proof.
  intros Hf. destruct (sf_fresh _ _ _ Hf eq_refl) as (_ & H0 & _).
  destruct (sf_pad _ _ _ Hf) as [->|Hp].
  - unfold read_slot. by rewrite first_slot_padded.
  - rewrite <- H0. apply read_slot_ext. intros a n Ha Hn.
    pose proof STATE_SLOT_room. apply read_below; lia.
Qed.

(** What a write to the inactive slot leaves of the rest of the file. *)
Lemma write_keeps file hs seq bytes : state_file file hs seq -> (length bytes <= 264)%nat ->
  let file' := write_at file (slot_of (seq + 1)) bytes in
  (STATE_SLOT <= length file')%nat /\
  (0 < seq -> read_slot file' (slot_of seq) = Some (hs, seq)) /\
  (seq = 0 -> read_slot file' 0 = None).
Proof.
  intros Hf Hb. cbv zeta. pose proof (sf_seq _ _ _ Hf) as Hs. split_and!.
  - destruct (write_at_length file (slot_of (seq + 1)) bytes) as [Hl1 Hl2].
    destruct (Z.eq_dec seq 0) as [E|].
    + rewrite E, slot_of_1 in Hl1. by rewrite E, slot_of_1.
    + destruct (sf_live _ _ _ Hf) as [Hne _]; [lia|]. destruct (sf_pad _ _ _ Hf); [done|lia].
  - intros Hp. rewrite (other_slot_kept _ hs) by done. by apply (sf_live _ _ _ Hf).
  - intros E. rewrite E, slot_of_1. rewrite E in Hf. by apply (first_slot_kept _ hs).
Qed.

Lemma stale_at_zero slot : stale slot 0 -> slot = None.
Proof. destruct slot as [[h s]|]; [unfold stale; lia|done]. Qed.

(** Whatever reaches the inactive slot, if it reads as the old value or nothing,
    the old state stays; if it reads as the new one, that is the state. *)
Lemma state_file_write file hs seq hs' bytes : state_file file hs seq -> (length bytes <= 264)%nat ->
  let file' := write_at file (slot_of (seq + 1)) bytes in
  (stale (read_slot file' (slot_of (seq + 1))) seq -> state_file file' hs seq) /\
  (read_slot file' (slot_of (seq + 1)) = Some (hs', seq + 1) -> state_file file' hs' (seq + 1)).
Proof.
  intros Hf Hb. cbv zeta. pose proof (sf_seq _ _ _ Hf) as Hs.
  assert (0 <= seq + 1 /\ seq + 1 <> 0 /\ (seq <> 0 -> 0 < seq)) as (Hs1 & Hs2 & Hs3) by lia.
  assert (Hlt : seq <> 0 -> 0 <= seq < seq + 1) by lia.
  destruct (write_keeps file hs seq bytes Hf Hb) as (Hpad & Hother & Hzero).
  pose proof STATE_SLOT_room as Hroom.
  generalize dependent (write_at file (slot_of (seq + 1)) bytes). intros file' Hpad Hother Hzero.
  assert (Hne : file' <> []) by (intros E; rewrite E in Hpad; cbn [length] in Hpad; lia).
  assert (Hp' : file' = [] \/ (STATE_SLOT <= length file')%nat) by by right. clear Hpad Hroom.
  split.
  - intros Hst. split; [done|done| |].
    + intros E. split; [by apply (sf_fresh _ _ _ Hf)|]. split; [by apply Hzero|].
      rewrite E, slot_of_1 in Hst. by apply stale_at_zero.
    + intros Hp. split_and!; [done|by apply Hother|done].
  - intros Hn. split; [done|done|done|]. intros _. split; [done|]. split; [done|].
    rewrite slot_of_next. destruct (Z.eq_dec seq 0) as [E|].
    + rewrite E, slot_of_0. by rewrite Hzero.
    + rewrite Hother by auto. by apply Hlt.
Qed.

(** A torn record that passes its checksum is one of the two that were written:
    the assumption under which a checksum detects a torn write. *)
Definition tear_detected (file : Bytes) (seq : Z) (hs' : HardState) (torn : Bytes) : Prop :=
  let slot := slot_of (seq + 1) in
  let body := slot_body (write_at file slot torn) slot in
  body = None \/ body = slot_body file slot \/ body = Some (hard_state_body (seq + 1) hs').

Lemma next_slot file hs seq : state_file file hs seq -> stale (read_slot file (slot_of (seq + 1))) seq.
Proof.
  intros Hf. destruct (Z.eq_dec seq 0) as [E|].
  - rewrite E in Hf |- *. rewrite slot_of_1. by destruct (sf_fresh _ _ _ Hf eq_refl) as (_ & _ & ->).
  - apply (sf_live _ _ _ Hf). pose proof (sf_seq _ _ _ Hf). lia.
Qed.

Lemma hard_state_write_spec seq hs' : 0 <= seq -> seq + 1 < U64 ->
  hard_state_write seq hs' = (seq + 1, slot_of (seq + 1), wal_frame (hard_state_body (seq + 1) hs')).
Proof. intros H1 H2. unfold hard_state_write. rewrite wadd64_small by lia. done. Qed.

(** A completed save installs the new state. *)
Lemma save_installs file hs seq hs' : state_file file hs seq -> HardState_ok hs' -> seq + 1 < U64 ->
  exists file', save_hard_state true file seq hs' = (file', seq + 1, true) /\ state_file file' hs' (seq + 1).
Proof.
  intros Hf Hh Hr. pose proof (sf_seq _ _ _ Hf) as Hs. assert (Hu : is_u64 (seq + 1)) by (unfold is_u64; lia).
  unfold save_hard_state. rewrite hard_state_write_spec by done. eexists. split; [done|].
  destruct (hard_state_body_ok (seq + 1) hs' Hu Hh) as [Hb1 Hb2].
  refine (proj2 (state_file_write file hs seq hs' _ Hf _) _).
  - rewrite wal_frame_length. unfold HEADER. lia.
  - unfold read_slot. rewrite slot_written by done. simpl. by rewrite parse_hard_state_body.
Qed.

(** C23: saving the hard state is atomic. From a state file whose live slot holds
    [hs], a completed save is read back as the new state; and a save torn at any
    byte [k], whose torn slot the checksum catches, leaves a state file that
    reads as the old state or as the new one, never as anything older, and from
    which the next save is again atomic. *)
Theorem hard_state_save_is_atomic file hs seq hs' k :
  state_file file hs seq -> HardState_ok hs' -> seq + 1 < U64 ->
  let '(_, slot, bytes) := hard_state_write seq hs' in
  tear_detected file seq hs' (take k bytes) ->
  (exists file', save_hard_state true file seq hs' = (file', seq + 1, true) /\
     state_file file' hs' (seq + 1) /\ read_hard_state file' = (hs', seq + 1)) /\
  (exists now, (now = (hs, seq) \/ now = (hs', seq + 1)) /\
     read_hard_state (write_at file slot (take k bytes)) = now /\
     state_file (write_at file slot (take k bytes)) now.1 now.2).
Proof.
  intros Hf Hh Hr. pose proof (sf_seq _ _ _ Hf) as Hs. assert (Hu : is_u64 (seq + 1)) by (unfold is_u64; lia).
  rewrite hard_state_write_spec by done. intros Ht.
  set (torn := take k (wal_frame (hard_state_body (seq + 1) hs'))) in *. split.
  { destruct (save_installs file hs seq hs' Hf Hh Hr) as (f' & E & Hf').
    exists f'. split_and!; [done|done|by apply state_file_reads]. }
  assert (Hlen : (length torn <= 264)%nat).
  { unfold torn. rewrite length_take, wal_frame_length. unfold HEADER.
    destruct (hard_state_body_ok (seq + 1) hs' Hu Hh). lia. }
  destruct (state_file_write file hs seq hs' torn Hf Hlen) as [Hold Hnew].
  set (file' := write_at file (slot_of (seq + 1)) torn) in *.
  assert (Hslot : stale (read_slot file' (slot_of (seq + 1))) seq \/
    read_slot file' (slot_of (seq + 1)) = Some (hs', seq + 1)).
  { unfold tear_detected in Ht. fold file' in Ht. unfold read_slot. destruct Ht as [->|[->| ->]].
    - by left.
    - left. apply (next_slot _ _ _ Hf).
    - right. simpl. by rewrite parse_hard_state_body. }
  destruct Hslot as [H|H].
  - exists (hs, seq). split; [by left|]. split; [by apply state_file_reads, Hold|by apply Hold].
  - exists (hs', seq + 1). split; [by right|]. split; [by apply state_file_reads, Hnew|by apply Hnew].
Qed.

Definition demo_hs (term : Term) (vote : option NodeId) : HardState := mkHardState term vote 0.

Lemma hard_state_save_is_atomic_witness :
  exists now, (now = (HardState_default, 0) \/ now = (demo_hs 4 (Some 2), 1)) /\
    read_hard_state (write_at [] STATE_SLOT (take 20 (wal_frame (hard_state_body 1 (demo_hs 4 (Some 2)))))) = now.
Proof.
  pose proof (hard_state_save_is_atomic [] HardState_default 0 (demo_hs 4 (Some 2)) 20 state_file_fresh
    ltac:(by_decide) ltac:(by_decide)) as H.
  destruct H as [_ (now & H1 & H2 & _)]; [left; vm_compute; reflexivity|].
  exists now. split; [exact H1|exact H2].
Defined.

(** The state file after a sequence of saves, [true] for one that completes. *)
Definition saves (file : Bytes) (seq : Z) (l : list (bool * HardState)) : Bytes * Z :=
  fold_left (fun st x => (save_hard_state x.1 st.1 st.2 x.2).1) l (file, seq).

(** A save the disk refuses aims the next one at the live slot. The sequence
    number moves before the write, so after a save that fails, as on a full disk,
    the retry goes to the slot that holds the only copy of the current state; if
    a crash tears it, the state read back is the one before: here term 4, after
    term 5 and its vote had been made durable. *)
Theorem refused_save_endangers_the_vote :
  let hs4 := demo_hs 4 (Some 2) in let hs5 := demo_hs 5 (Some 3) in
  let hs6 := demo_hs 6 (Some 1) in
  let '(before, s2) := saves [] 0 [(true, hs4); (true, hs5)] in
  let '(same, s3) := saves before s2 [(false, hs6)] in
  let '(_, slot, bytes) := hard_state_write s3 hs6 in
  read_hard_state before = (hs5, 2) /\ same = before /\
  read_hard_state (write_at same slot (take 20 bytes)) = (hs4, 1).
Proof. vm_compute. done. Qed.

(** ** The snapshot slots *)

Lemma snapshot_parses seq s : is_u64 seq -> Snapshot_ok s ->
  parses snapshot_parser (snapshot_body seq s) (seq, s).
Proof.
  intros Hs Hsn. unfold snapshot_body, Writer_new. rewrite rt_enc. change (Writer_u64 seq []) with (le_bytes 8 seq).
  unfold snapshot_parser. eapply parses_bind; [by auto with codec|].
  eapply parses_bind_end; [by apply rt_parses|apply parses_ret].
Qed.

Definition snapshot_fits (seq : Z) (s : Snapshot) : Prop :=
  is_u64 seq /\ Snapshot_ok s /\ body_ok (snapshot_body seq s).

#[export] Instance snapshot_fits_dec seq s : Decision (snapshot_fits seq s).
Proof. unfold snapshot_fits. apply _. Defined.

(** Any prefix of the record: complete, it reads back; torn, it reads as nothing. *)
Lemma read_snapshot_prefix k seq s : snapshot_fits seq s ->
  read_snapshot (take k (wal_frame (snapshot_body seq s))) =
    if decide (k < length (wal_frame (snapshot_body seq s)))%nat then None else Some (seq, s).
Proof.
  intros (Hs & Hsn & Hb). pose proof (wal_frame_length (snapshot_body seq s)) as Hl.
  pose proof (snapshot_parses seq s Hs Hsn) as Hp. set (body := snapshot_body seq s) in *.
  unfold read_snapshot. rewrite length_take, Hl.
  destruct (Nat.ltb_spec (k `min` (HEADER + length body)) HEADER) as [Hk|Hk];
    [by rewrite decide_True by lia|].
  assert (E : take k (wal_frame body) =
    le_bytes 4 (len_u32 body) ++ le_bytes 4 (crc32c body) ++ take (k - HEADER) body).
  { unfold wal_frame. rewrite app_assoc, take_app_ge.
    - by rewrite length_app, !le_bytes_length, <- app_assoc.
    - rewrite length_app, !le_bytes_length. unfold HEADER in Hk. lia. }
  destruct (header_words (le_bytes 4 (len_u32 body)) (le_bytes 4 (crc32c body)) (take (k - HEADER) body))
    as (E1 & E2 & E3); [apply le_bytes_length..|].
  rewrite E, E1, E2, E3. cbv zeta. rewrite body_len, body_crc by done.
  rewrite length_checks by apply Hb. cbn [orb]. rewrite Nat2Z.id.
  case_decide as Hd.
  { by rewrite (proj2 (Nat.ltb_lt _ _)) by lia. }
  rewrite (proj2 (Nat.ltb_ge _ _)) by lia. rewrite take_take, Nat.min_l, firstn_all by lia.
  rewrite Z.eqb_refl. cbn [negb]. rewrite (Hp _ []); [done|]. unfold rest_of. simpl. by rewrite app_nil_r.
Qed.

(** Decides a round of [consider_slot] for each way the two slots can read. *)
Ltac slot_cases :=
  repeat match goal with |- context [read_snapshot ?b] => destruct (read_snapshot b) as [[? ?]|] end;
  unfold consider_slot; cbn [fst snd];
  repeat match goal with |- context [?x <=? ?y] =>
    lazymatch x with context [if _ then _ else _] => fail | _ => destruct (Z.leb_spec x y); cbn [fst snd] end end;
  intros; simplify_eq; try done; try lia.

Lemma pick_seq_pos slot0 slot1 best seq next : pick_snapshot slot0 slot1 = (best, seq, next) -> 0 <= seq.
Proof. unfold pick_snapshot. slot_cases. Qed.

(** Saving a snapshot is atomic. The save goes to the slot the live snapshot
    is not in, so whatever prefix of the record reaches that slot, recovery picks
    the live snapshot if the record is torn, at any byte and with no assumption
    on checksums, and the new one, with the next slot flipped, once the record is
    complete. *)
Theorem snapshot_save_is_atomic slot0 slot1 best seq next s k :
  pick_snapshot slot0 slot1 = (best, seq, next) -> snapshot_fits (seq + 1) s -> seq + 1 < U64 ->
  let '(slot0', slot1') := save_snapshot k slot0 slot1 seq next s in
  pick_snapshot slot0' slot1' =
    if decide (k < length (snapshot_write seq s).2)%nat then (best, seq, next)
    else (Some s, seq + 1, 1 - next).
Proof.
  intros Hp Hfit Hr. pose proof (pick_seq_pos _ _ _ _ _ Hp) as Hseq.
  assert (Ew : (snapshot_write seq s).2 = wal_frame (snapshot_body (seq + 1) s)).
  { unfold snapshot_write. by rewrite wadd64_small by lia. }
  unfold save_snapshot. rewrite Ew. cbv zeta.
  pose proof (read_snapshot_prefix k (seq + 1) s Hfit) as Hread.
  set (buf := take k (wal_frame (snapshot_body (seq + 1) s))) in *. clearbody buf.
  revert Hp. unfold pick_snapshot. destruct (Z.eqb_spec next 0) as [->|Hn]; rewrite Hread; clear Hread.
  - case_decide; slot_cases.
  - case_decide; slot_cases.
Qed.

Lemma snapshot_save_is_atomic_witness :
  let s := mkSnapshot 3 1 Config_default [7; 7] in
  let '(slot0', slot1') := save_snapshot 11 [] [] 0 0 s in pick_snapshot slot0' slot1' = (None, 0, 0).
Proof. exact (snapshot_save_is_atomic [] [] None 0 0 (mkSnapshot 3 1 Config_default [7; 7]) 11
  ltac:(reflexivity) ltac:(by_decide) ltac:(by_decide)). Defined.
