(* ===== verification/WalSegments.v ===== *)
(** * The segments of the write-ahead log: [crates/chronolog/src/wal.rs]

    The [Wal] object: its segments, what it does to their files, and [open].
    A segment's file is named by the index of its first entry
    ([Segment::name_for] and [index_from_name] are inverse), so a directory is a
    map from that index to a file; a file has the bytes a process sees and the
    bytes that are durable. The disk may refuse any write ([d_fate] says which),
    as a full one does; the other storage calls are taken to succeed.

    The specification of a log on disk is the list of its entries. The relation
    [wal_ok w es] says that [w] holds [es]; the theorems say what each operation
    does to [es], and that recovery after a crash gives it back. *)

From Stdlib Require Import ZArith Lia.
From stdpp Require Import base tactics list list_numbers gmap sets sorting.
From S2P Require Import Prelude Codec Types RaftLog Client Msg Wal WalState.

Open Scope Z_scope.

(** ** Files *)

(** A file as the simulated disk keeps it: what is on the platter, what the page
    cache shows, and the operations in between. *)
Inductive PendingOp : Type :=
| PWrite (offset : nat) (data : Bytes)
| PTruncate (len : nat).

Record FileState : Type := mkFile { f_durable : Bytes; f_view : Bytes; f_pending : list PendingOp }.

Definition FileState_new : FileState := mkFile [] [] [].

(** [splice]: [write_at] of [WalState], which pads with zeros. *)
Definition apply_pending (bytes : Bytes) (op : PendingOp) : Bytes :=
  match op with
  | PWrite offset data => write_at bytes offset data
  | PTruncate len => take len bytes
  end.

Record Disk : Type := mkDisk {
  d_files : gmap Index FileState;
  (** whether each of the coming writes succeeds; they do when the list is over *)
  d_fate : list bool
}.

Definition on_files (f : gmap Index FileState -> gmap Index FileState) (d : Disk) : Disk :=
  mkDisk (f (d_files d)) (d_fate d).

(** [storage.open]: an absent file is created empty. *)
Definition file_open (name : Index) (d : Disk) : Disk :=
  match d_files d !! name with
  | Some _ => d
  | None => on_files <[name := FileState_new]> d
  end.

Definition file_remove (name : Index) (d : Disk) : Disk := on_files (delete name) d.

Definition file_op (op : PendingOp) (f : FileState) : FileState :=
  mkFile (f_durable f) (apply_pending (f_view f) op) (f_pending f ++ [op]).

Definition file_truncate (name : Index) (size : Z) (d : Disk) : Disk :=
  on_files (alter (file_op (PTruncate (Z.to_nat size))) name) d.

Definition file_fsync (name : Index) (d : Disk) : Disk :=
  on_files (alter (fun f => mkFile (fold_left apply_pending (f_pending f) (f_durable f)) (f_view f) []) name) d.

Definition file_write_at (name : Index) (offset : Z) (bytes : Bytes) (d : Disk) : bool * Disk :=
  let ok := match d_fate d with [] => true | b :: _ => b end in
  let d := mkDisk (d_files d) (tail (d_fate d)) in
  if ok then (true, on_files (alter (file_op (PWrite (Z.to_nat offset) bytes)) name) d)
  else (false, d).

Definition file_view (name : Index) (d : Disk) : Bytes :=
  match d_files d !! name with Some f => f_view f | None => [] end.

(** ** The [Wal] object *)

Record WalOptions : Type := mkWalOptions { segment_bytes : Z; compact_slack_bytes : Z }.

Definition WalOptions_default : WalOptions := mkWalOptions (2 ^ 20) (2 ^ 18).

Record Segment : Type := mkSegment {
  sg_first : Index;
  sg_last : Index;
  sg_size : Z;
  sg_offsets : list Z;
  sg_dirty : bool
}.

Definition Segment_is_empty (s : Segment) : bool := sg_last s <? sg_first s.

(** [WalStats]. Counters and byte counts are unbounded in the model. *)
Record WalStats : Type := mkWalStats {
  st_appends : Z; st_entries_written : Z; st_bytes_written : Z; st_fsyncs : Z;
  st_truncations : Z; st_rollovers : Z; st_segments_deleted : Z; st_snapshots_written : Z
}.

Definition WalStats_default : WalStats := mkWalStats 0 0 0 0 0 0 0 0.

Record Wal : Type := mkWal {
  w_opts : WalOptions;
  w_segments : list Segment;
  w_state_seq : Z;
  w_snapshot_slot : Z;
  w_snapshot_seq : Z;
  w_stats : WalStats;
  w_disk : Disk
}.

Definition with_segments (l : list Segment) (w : Wal) : Wal :=
  mkWal (w_opts w) l (w_state_seq w) (w_snapshot_slot w) (w_snapshot_seq w) (w_stats w) (w_disk w).
Definition with_disk (f : Disk -> Disk) (w : Wal) : Wal :=
  mkWal (w_opts w) (w_segments w) (w_state_seq w) (w_snapshot_slot w) (w_snapshot_seq w)
    (w_stats w) (f (w_disk w)).
Definition with_stats (f : WalStats -> WalStats) (w : Wal) : Wal :=
  mkWal (w_opts w) (w_segments w) (w_state_seq w) (w_snapshot_slot w) (w_snapshot_seq w)
    (f (w_stats w)) (w_disk w).

Definition count_append (s : WalStats) : WalStats :=
  mkWalStats (st_appends s + 1) (st_entries_written s) (st_bytes_written s) (st_fsyncs s)
    (st_truncations s) (st_rollovers s) (st_segments_deleted s) (st_snapshots_written s).
Definition count_entry (bytes : Z) (s : WalStats) : WalStats :=
  mkWalStats (st_appends s) (st_entries_written s + 1) (st_bytes_written s + bytes) (st_fsyncs s)
    (st_truncations s) (st_rollovers s) (st_segments_deleted s) (st_snapshots_written s).
Definition count_fsync (s : WalStats) : WalStats :=
  mkWalStats (st_appends s) (st_entries_written s) (st_bytes_written s) (st_fsyncs s + 1)
    (st_truncations s) (st_rollovers s) (st_segments_deleted s) (st_snapshots_written s).
Definition count_truncation (s : WalStats) : WalStats :=
  mkWalStats (st_appends s) (st_entries_written s) (st_bytes_written s) (st_fsyncs s)
    (st_truncations s + 1) (st_rollovers s) (st_segments_deleted s) (st_snapshots_written s).
Definition count_rollover (s : WalStats) : WalStats :=
  mkWalStats (st_appends s) (st_entries_written s) (st_bytes_written s) (st_fsyncs s)
    (st_truncations s) (st_rollovers s + 1) (st_segments_deleted s) (st_snapshots_written s).
Definition count_deleted (n : Z) (s : WalStats) : WalStats :=
  mkWalStats (st_appends s) (st_entries_written s) (st_bytes_written s) (st_fsyncs s)
    (st_truncations s) (st_rollovers s) (st_segments_deleted s + n)
    (st_snapshots_written s).

Definition Wal_first_index (w : Wal) : Index :=
  match w_segments w with s :: _ => sg_first s | [] => 1 end.

Definition Wal_last_index (w : Wal) : Index :=
  match last (w_segments w) with Some s => sg_last s | None => ssub (Wal_first_index w) 1 end.

Definition Wal_total_bytes (l : list Segment) : Z := foldr Z.add 0 (map sg_size l).

Definition open_segment (first_index : Index) (w : Wal) : Wal :=
  w |> with_disk (fun d => file_truncate first_index 0 (file_open first_index d))
    |> with_segments (w_segments w ++ [mkSegment first_index (ssub first_index 1) 0 [] false]).

(** What an operation on the log returns: [Ok(())], an error (a full disk, or the
    refusal of an append that leaves a gap), or the panic of
    [expect("always at least one segment")]. *)
Inductive IoError : Type := Enospc | NonContiguous.
Inductive IoResult : Type := IoOk | IoErr (e : IoError) | IoPanic.

(** [segments.last_mut()] and an assignment through it. *)
Fixpoint update_last (f : Segment -> Segment) (l : list Segment) : list Segment :=
  match l with
  | [] => []
  | [s] => [f s]
  | s :: rest => s :: update_last f rest
  end.

Definition mark_dirty_segment (s : Segment) : Segment :=
  mkSegment (sg_first s) (sg_last s) (sg_size s) (sg_offsets s) true.

Definition add_record (index : Index) (len : Z) (s : Segment) : Segment :=
  mkSegment (sg_first s) index (sg_size s + len) (sg_offsets s ++ [sg_size s]) (sg_dirty s).

(** One round of [append_inner]. *)
Definition append_one (entry : Entry) (w : Wal) : IoResult * Wal :=
  if negb (e_index entry =? Wal_last_index w +64 1) then (IoErr NonContiguous, w)
  else
    let size := match last (w_segments w) with Some s => sg_size s | None => 0 end in
    let w := if segment_bytes (w_opts w) <=? size
             then open_segment (e_index entry) (with_stats count_rollover w) else w in
    let record := wal_frame (Entry_to_bytes entry) in
    match last (w_segments w) with
    | None => (IoPanic, w)
    | Some seg =>
        let w := with_segments (update_last mark_dirty_segment (w_segments w)) w in
        let '(ok, d) := file_write_at (sg_first seg) (sg_size seg) record (w_disk w) in
        let w := with_disk (fun _ => d) w in
        if ok then
          let len := Z.of_nat (length record) in
          (IoOk, w |> with_segments (update_last (add_record (e_index entry) len) (w_segments w))
                   |> with_stats (count_entry len))
        else (IoErr Enospc, w)
    end.

Fixpoint append_loop (es : list Entry) (w : Wal) : IoResult * Wal :=
  match es with
  | [] => (IoOk, w)
  | e :: rest => match append_one e w with (IoOk, w) => append_loop rest w | stop => stop end
  end.

Definition append_inner (es : list Entry) (w : Wal) : IoResult * Wal :=
  append_loop es (with_stats count_append w).

(** [reset_to]. *)
Definition reset_to (index : Index) (w : Wal) : Wal :=
  w |> with_disk (fun d => fold_left (fun d s => file_remove (sg_first s) d) (w_segments w) d)
    |> with_stats (count_deleted (Z.of_nat (length (w_segments w))))
    |> with_segments []
    |> open_segment (index +64 1).

(** The [while] loop of [truncate_from], on the segments from the last one
    back: the segments kept and those removed. *)
Fixpoint pop_segments (from : Index) (rev_segments : list Segment) : list Segment * list Segment :=
  match rev_segments with
  | s :: (_ :: _) as rest =>
      if from <=? sg_first s
      then let '(kept, gone) := pop_segments from rest in (kept, s :: gone)
      else (rev_segments, [])
  | _ => (rev_segments, [])
  end.

Definition cut_segment (from : Index) (s : Segment) : Segment :=
  let keep := Z.to_nat (ssub from (sg_first s)) in
  let cut := default (sg_size s) (sg_offsets s !! keep) in
  mkSegment (sg_first s)
    (if (keep =? 0)%nat then ssub (sg_first s) 1 else sg_first s + Z.of_nat keep - 1)
    cut (take keep (sg_offsets s)) false.

Definition truncate_from (from : Index) (w : Wal) : Wal :=
  if Wal_last_index w <? from then w
  else if from <=? Wal_first_index w then reset_to (ssub from 1) w
  else
    let '(kept, gone) := pop_segments from (rev (w_segments w)) in
    let w := w |> with_stats count_truncation
               |> with_segments (rev kept)
               |> with_disk (fun d => fold_left (fun d s => file_remove (sg_first s) d) gone d)
               |> with_stats (count_deleted (Z.of_nat (length gone))) in
    match last (w_segments w) with
    | Some seg =>
        if from <=? sg_last seg then
          let seg' := cut_segment from seg in
          w |> with_disk (fun d => file_fsync (sg_first seg) (file_truncate (sg_first seg) (sg_size seg') d))
            |> with_segments (update_last (cut_segment from) (w_segments w))
            |> with_stats count_fsync
        else w
    | None => w
    end.

(** [append]: all or nothing. *)
Definition append (es : list Entry) (w : Wal) : IoResult * Wal :=
  match es with
  | [] => (IoOk, w)
  | _ =>
      let rollback_to := Wal_last_index w in
      match append_inner es w with
      | (IoErr e, w') => (IoErr e, truncate_from (rollback_to +64 1) w')
      | r => r
      end
  end.

Definition clean (s : Segment) : Segment :=
  mkSegment (sg_first s) (sg_last s) (sg_size s) (sg_offsets s) false.

Definition sync (w : Wal) : Wal :=
  let dirty := filter (fun s => sg_dirty s = true) (w_segments w) in
  let w' := w |> with_disk (fun d => fold_left (fun d s => file_fsync (sg_first s) d) dirty d)
              |> with_segments (map clean (w_segments w)) in
  match dirty with [] => w' | _ => with_stats count_fsync w' end.

(** The loop of [compact_through]: how many segments go. *)
Fixpoint compact_loop (through slack total freed : Z) (l : list Segment) : nat :=
  match l with
  | seg :: (_ :: _) as rest =>
      if sg_last seg <? through then
        if (total - freed - sg_size seg <? slack) then O
        else S (compact_loop through slack total (freed + sg_size seg) rest)
      else O
  | _ => O
  end.

Definition compact_through (through : Index) (w : Wal) : Wal :=
  let n := compact_loop through (compact_slack_bytes (w_opts w)) (Wal_total_bytes (w_segments w)) 0
             (w_segments w) in
  w |> with_disk (fun d => fold_left (fun d s => file_remove (sg_first s) d) (take n (w_segments w)) d)
    |> with_segments (drop n (w_segments w))
    |> with_stats (count_deleted (Z.of_nat n)).

(** [read]. *)
Definition holds_index (index : Index) (s : Segment) : bool :=
  negb (Segment_is_empty s) && (sg_first s <=? index) && (index <=? sg_last s).

Definition read (index : Index) (w : Wal) : option Entry :=
  seg ← head (filter (fun s => holds_index index s = true) (w_segments w));
  at_ ← sg_offsets seg !! Z.to_nat (index - sg_first seg);
  let file := file_view (sg_first seg) (w_disk w) in
  let header := read_at file (Z.to_nat at_) HEADER in
  if (length header <? HEADER)%nat then None
  else
    let len := le_value (sub header 0 4) in
    let crc := le_value (sub header 4 4) in
    if (len =? 0) || (MAX_RECORD <? len) then None
    else
      let body := read_at file (Z.to_nat at_ + HEADER) (Z.to_nat len) in
      if negb (length body =? Z.to_nat len)%nat || negb (crc32c body =? crc) then None
      else match (Entry_decode (Reader_new body)).1 with Ok e => Some e | Err _ => None end.

(** ** Recovery *)

(** Byte offsets of consecutive records. *)
Fixpoint offsets_of (start : Z) (es : list Entry) : list Z :=
  match es with
  | [] => []
  | e :: rest => start :: offsets_of (start + (Z.of_nat HEADER + Z.of_nat (length (Entry_to_bytes e)))) rest
  end.

(** What the loop over the segments of [open] carries. *)
Record Opening : Type := mkOpening {
  og_segments : list Segment;
  og_entries : list Entry;
  og_tail : TailReason;
  og_truncated : Z;
  og_disk : Disk
}.

Definition open_one (st : Opening) (first_index : Index) : Opening :=
  let '(mkOpening segments entries tail truncated d) := st in
  let d := file_open first_index d in
  if negb (TailReason_is_clean tail)
  then mkOpening segments entries tail truncated (file_remove first_index d)
  else
    let expected_first := match last entries with Some e => e_index e +64 1 | None => first_index end in
    if negb (first_index =? expected_first) && negb (length entries =? 0)%nat
    then mkOpening segments entries (IndexGap expected_first first_index) truncated (file_remove first_index d)
    else
      let '(seg_entries, seg_tail, valid_bytes) :=
        default ([], ShortHeader, O)
          (scan_segment (file_view first_index d) first_index (e_index <$> last entries)) in
      let valid_bytes := Z.of_nat valid_bytes in
      let seg := mkSegment first_index
        (match last seg_entries with Some e => e_index e | None => ssub first_index 1 end)
        valid_bytes (offsets_of 0 seg_entries) false in
      if negb (TailReason_is_clean seg_tail)
      then mkOpening (segments ++ [seg]) (entries ++ seg_entries) seg_tail (truncated + 1)
             (file_fsync first_index (file_truncate first_index valid_bytes d))
      else mkOpening (segments ++ [seg]) (entries ++ seg_entries) tail truncated d.

Record Recovered : Type := mkRecovered {
  rc_wal : Wal;
  rc_hard_state : HardState;
  rc_snapshot : option Snapshot;
  rc_entries : list Entry;
  rc_tail : TailReason;
  rc_truncated : Z
}.

(** The names in the directory, sorted. *)
Definition segment_names (d : Disk) : list Index := sorted_elements (dom (d_files d)).

Definition open (opts : WalOptions) (state slot0 slot1 : Bytes) (d : Disk) : Recovered :=
  let '(hard_state, state_seq) := read_hard_state state in
  let '(snapshot, snapshot_seq, snapshot_slot) := pick_snapshot slot0 slot1 in
  let snap_index := match snapshot with Some s => sn_last_index s | None => 0 end in
  let o := fold_left open_one (segment_names d) (mkOpening [] [] Clean 0 d) in
  let entries := if 0 <? snap_index then filter (fun e => snap_index < e_index e) (og_entries o)
                 else og_entries o in
  let w := mkWal opts (og_segments o) state_seq snapshot_slot snapshot_seq WalStats_default (og_disk o) in
  let w := match og_segments o with [] => open_segment (snap_index +64 1) w | _ => w end in
  let truncated := og_truncated o in
  let w := with_stats (fun s => mkWalStats (st_appends s) (st_entries_written s) (st_bytes_written s)
             (st_fsyncs s) truncated (st_rollovers s) (st_segments_deleted s)
             (st_snapshots_written s)) w in
  mkRecovered w hard_state snapshot entries (og_tail o) truncated.

(** ** Power loss *)

(** What becomes of an operation that was not yet synced: it is lost, a prefix
    of it lands, or all of it does. *)
Inductive Fate : Type := Lost | Torn (keep : nat) | Landed.

Definition crash_op (durable : Bytes) (x : PendingOp * Fate) : Bytes :=
  match x with
  | (_, Lost) => durable
  | (PTruncate len, _) => take len durable
  | (PWrite offset data, Torn keep) =>
      if (keep =? 0)%nat then durable else write_at durable offset (take keep data)
  | (PWrite offset data, Landed) => write_at durable offset data
  end.

(** [power_loss] on one file: operations beyond the list of fates are lost. *)
Definition crash_file (f : FileState) (fates : list Fate) : FileState :=
  let bytes := fold_left crash_op (zip (f_pending f) fates) (f_durable f) in
  mkFile bytes bytes [].

(** * Theorems *)

(** ** What a log on disk holds *)

(** The writes of records that start at [offset]. *)
Fixpoint record_writes (offset : nat) (es : list Entry) : list PendingOp :=
  match es with
  | [] => []
  | e :: rest => PWrite offset (record_of e) :: record_writes (offset + length (record_of e)) rest
  end.

(** Of the records of [es], the first [m] are durable and the others pending. A
    file that was just created also has its truncation pending. *)
Definition on_disk (f : FileState) (es : list Entry) (m : nat) : Prop :=
  (m <= length es)%nat /\ f_durable f = segment_of (take m es) /\
  exists new, (new = [] \/ new = [PTruncate 0] /\ m = 0%nat) /\
    f_pending f = new ++ record_writes (length (segment_of (take m es))) (drop m es).

(** Segment [s] and its file hold the entries [es]. *)
Record seg_ok (files : gmap Index FileState) (s : Segment) (es : list Entry) : Prop := {
  so_first : 1 <= sg_first s;
  so_contiguous : contiguous_from (sg_first s) es;
  so_records : Forall record_ok es;
  so_last : sg_last s = sg_first s + Z.of_nat (length es) - 1;
  so_size : sg_size s = Z.of_nat (length (segment_of es));
  so_offsets : sg_offsets s = offsets_of 0 es;
  so_file : exists f m, files !! sg_first s = Some f /\ f_view f = segment_of es /\
              on_disk f es m /\ (sg_dirty s = false -> m = length es)
}.

(** First indices of consecutive segments. *)
Fixpoint starts (i : Index) (chunks : list (list Entry)) : list Index :=
  match chunks with
  | [] => []
  | c :: rest => i :: starts (i + Z.of_nat (length c)) rest
  end.

(** [segs] hold [chunks], one after the other from index [i], and the directory
    holds their files and no other. *)
Record layout (files : gmap Index FileState) (i : Index) (segs : list Segment)
    (chunks : list (list Entry)) : Prop := {
  ly_segs : Forall2 (seg_ok files) segs chunks;
  ly_starts : map sg_first segs = starts i chunks;
  ly_first : 1 <= i;
  ly_dom : dom files = list_to_set (map sg_first segs)
}.

(** [w] holds the entries [es], the first of which has index [i]. Only the
    active segment may be empty. *)
Definition wal_holds (w : Wal) (i : Index) (es : list Entry) : Prop :=
  exists chunks c, layout (d_files (w_disk w)) i (w_segments w) (chunks ++ [c]) /\
    Forall (fun c => c <> []) chunks /\ es = concat chunks ++ c.

Lemma starts_app i a b : starts i (a ++ b) = starts i a ++ starts (i + Z.of_nat (length (concat a))) b.
Proof.
  revert i. induction a as [|c a IH]; intros i; simpl; [by rewrite Z.add_0_r|].
  rewrite IH. do 3 f_equal. rewrite length_app. lia.
Qed.

Lemma starts_length i chunks : length (starts i chunks) = length chunks.
Proof. revert i. induction chunks as [|c chunks IH]; intros i; simpl; [done|by rewrite IH]. Qed.

Lemma starts_range i chunks : Forall (fun c => c <> []) chunks ->
  Forall (fun x => i <= x < i + Z.of_nat (length (concat chunks))) (starts i chunks).
Proof.
  intros H. revert i. induction H as [|c cs Hc _ IH]; intros i; simpl; [constructor|].
  assert (0 < length c)%nat by (destruct c; [done|simpl; lia]). rewrite length_app.
  constructor; [lia|]. eapply Forall_impl; [apply IH|]. simpl. intros x Hx. lia.
Qed.

Lemma starts_NoDup i chunks c : Forall (fun c => c <> []) chunks -> NoDup (starts i (chunks ++ [c])).
Proof.
  intros H. revert i. induction H as [|d cs Hd Hcs IH]; intros i; simpl.
  { constructor; [set_solver|constructor]. }
  constructor; [|apply IH]. rewrite starts_app. intros Hin.
  assert (0 < length d)%nat by (destruct d; [done|simpl; lia]).
  apply elem_of_app in Hin as [Hin|Hin].
  - pose proof (starts_range (i + Z.of_nat (length d)) cs Hcs) as Hr.
    rewrite Forall_forall in Hr. apply Hr in Hin. lia.
  - simpl in Hin. apply list_elem_of_singleton in Hin. lia.
Qed.

Lemma segment_of_app a b : segment_of (a ++ b) = segment_of a ++ segment_of b.
Proof. unfold segment_of. by rewrite map_app, concat_app. Qed.

Lemma segment_of_one e : segment_of [e] = record_of e.
Proof. apply app_nil_r. Qed.

Lemma record_length e : Z.of_nat (length (record_of e)) =
  Z.of_nat HEADER + Z.of_nat (length (Entry_to_bytes e)).
Proof. unfold record_of. rewrite wal_frame_length. lia. Qed.

Lemma offsets_of_app s a b : offsets_of s (a ++ b) =
  offsets_of s a ++ offsets_of (s + Z.of_nat (length (segment_of a))) b.
Proof.
  revert s. induction a as [|e a IH]; intros s; cbn [offsets_of app].
  { change (length (segment_of [])) with O. by rewrite Z.add_0_r. }
  rewrite IH. do 3 f_equal. change (segment_of (e :: a)) with (record_of e ++ segment_of a).
  rewrite length_app, Nat2Z.inj_add, record_length. lia.
Qed.

Lemma offsets_of_length s es : length (offsets_of s es) = length es.
Proof. revert s. induction es as [|e es IH]; intros s; simpl; [done|]. by rewrite IH. Qed.

Lemma offsets_of_take s es n : take n (offsets_of s es) = offsets_of s (take n es).
Proof.
  revert s n. induction es as [|e es IH]; intros s [|n]; cbn [offsets_of take]; try done. by rewrite IH.
Qed.

Lemma offsets_of_lookup s es k : (k < length es)%nat ->
  offsets_of s es !! k = Some (s + Z.of_nat (length (segment_of (take k es)))).
Proof.
  intros Hk. rewrite <- (take_drop k es) at 1. rewrite offsets_of_app.
  rewrite lookup_app_r by (rewrite offsets_of_length, length_take; lia).
  rewrite offsets_of_length, length_take, Nat.min_l, Nat.sub_diag by lia.
  destruct (drop k es) eqn:E; [|done]. apply (f_equal length) in E. rewrite length_drop in E. simpl in E. lia.
Qed.

Lemma segment_of_take k es : take (length (segment_of (take k es))) (segment_of es) = segment_of (take k es).
Proof. rewrite <- (take_drop k es) at 2. by rewrite segment_of_app, take_app_length. Qed.

Lemma write_at_end v bytes : write_at v (length v) bytes = v ++ bytes.
Proof.
  unfold write_at. rewrite Nat.sub_diag, app_nil_r, firstn_all, drop_ge by lia. by rewrite app_nil_r.
Qed.

Lemma record_writes_app offset a b : record_writes offset (a ++ b) =
  record_writes offset a ++ record_writes (offset + length (segment_of a)) b.
Proof.
  revert offset. induction a as [|e a IH]; intros offset; cbn [record_writes app].
  { change (length (segment_of [])) with O. by rewrite Nat.add_0_r. }
  rewrite IH. do 3 f_equal. change (segment_of (e :: a)) with (record_of e ++ segment_of a).
  rewrite length_app. lia.
Qed.

Lemma apply_record_writes a b :
  fold_left apply_pending (record_writes (length (segment_of a)) b) (segment_of a) = segment_of (a ++ b).
Proof.
  revert a. induction b as [|e b IH]; intros a; cbn [record_writes fold_left]; [by rewrite app_nil_r|].
  cbn [apply_pending]. rewrite write_at_end, <- segment_of_one, <- segment_of_app.
  rewrite <- length_app, <- segment_of_app, IH. by rewrite <- app_assoc.
Qed.

(** Syncing a file makes what is seen durable. *)
Lemma on_disk_synced f es m : on_disk f es m ->
  fold_left apply_pending (f_pending f) (f_durable f) = segment_of es.
Proof.
  intros (Hm & Hd & new & Hnew & ->). rewrite Hd, fold_left_app.
  assert (E : fold_left apply_pending new (segment_of (take m es)) = segment_of (take m es)).
  { by destruct Hnew as [->|[-> ->]]. }
  by rewrite E, apply_record_writes, take_drop.
Qed.

Lemma on_disk_write f es m e : on_disk f es m -> f_view f = segment_of es ->
  on_disk (file_op (PWrite (length (segment_of es)) (record_of e)) f) (es ++ [e]) m.
Proof.
  intros (Hm & Hd & new & Hnew & Hp) Hv. unfold file_op. split; [rewrite length_app; simpl; lia|].
  cbn [f_durable f_pending]. rewrite take_app_le by lia. split; [done|]. exists new. split; [done|].
  rewrite drop_app_le, Hp, record_writes_app, <- app_assoc by lia. do 2 f_equal. cbn [record_writes]. do 2 f_equal.
  rewrite <- (take_drop m es) at 1. rewrite segment_of_app, length_app. done.
Qed.

Lemma on_disk_full f es : f_durable f = segment_of es -> f_pending f = [] -> on_disk f es (length es).
Proof.
  intros Hd Hp. split; [done|]. rewrite firstn_all, drop_all. split; [done|]. exists []. split; [by left|done].
Qed.

Lemma seg_ok_frame f f' s es : f' !! sg_first s = f !! sg_first s -> seg_ok f s es -> seg_ok f' s es.
Proof. intros E [H1 H2 H3 H4 H5 H6 H7]. split; try done. by rewrite E. Qed.

Lemma segs_ok_frame f f' segs chunks : Forall (fun s => f' !! sg_first s = f !! sg_first s) segs ->
  Forall2 (seg_ok f) segs chunks -> Forall2 (seg_ok f') segs chunks.
Proof.
  intros Hf H. induction H as [|s c segs chunks Hs _ IH]; [constructor|].
  apply Forall_cons in Hf as [Hf1 Hf2]. constructor; [by apply (seg_ok_frame f)|auto].
Qed.

Lemma update_last_snoc f l s : update_last f (l ++ [s]) = l ++ [f s].
Proof.
  induction l as [|x l IH]; [done|]. change ((x :: l) ++ [s]) with (x :: (l ++ [s])).
  simpl. rewrite IH. destruct l; done.
Qed.

(** The active segment and the ones before it. *)
Record split_layout (files : gmap Index FileState) (i : Index) (segs : list Segment)
    (chunks : list (list Entry)) (c : list Entry) (init : list Segment) (s : Segment) : Prop := {
  sl_segs : segs = init ++ [s];
  sl_init : Forall2 (seg_ok files) init chunks;
  sl_last : seg_ok files s c;
  sl_starts : map sg_first init = starts i chunks;
  sl_first : sg_first s = i + Z.of_nat (length (concat chunks));
  sl_fresh : sg_first s ∉ map sg_first init
}.

Lemma layout_split files i segs chunks c : layout files i segs (chunks ++ [c]) ->
  Forall (fun c => c <> []) chunks -> exists init s, split_layout files i segs chunks c init s.
Proof.
  intros [H1 H2 H3 H4] Hne. apply Forall2_app_inv_r in H1 as (init & last & Hi & Hl & ->).
  inversion Hl as [|s ? ? ? Hs Hn]; subst. inversion Hn; subst.
  exists init, s. rewrite map_app, starts_app in H2. apply app_inj_tail in H2 as [E1 E2].
  split; try done. rewrite E1, E2. pose proof (starts_NoDup i chunks c Hne) as Hd.
  rewrite starts_app in Hd. apply NoDup_app in Hd as (_ & Hd & _). intros Hin. by apply (Hd _ Hin), list_elem_of_singleton.
Qed.

Lemma layout_join files i segs chunks c init s : split_layout files i segs chunks c init s ->
  1 <= i -> dom files = list_to_set (map sg_first segs) -> layout files i segs (chunks ++ [c]).
Proof.
  intros [-> H1 H2 H3 H4 _] Hi Hd. split; [by apply Forall2_app; [|constructor]| |done|done].
  rewrite map_app, starts_app, H3. simpl. by rewrite H4.
Qed.

(** Replacing the active segment and its file. *)
Lemma layout_change_last files files' i segs chunks c c' init s s' :
  split_layout files i segs chunks c init s -> layout files i segs (chunks ++ [c]) ->
  sg_first s' = sg_first s -> seg_ok files' s' c' ->
  (forall j, j <> sg_first s -> files' !! j = files !! j) -> dom files' = dom files ->
  layout files' i (init ++ [s']) (chunks ++ [c']).
Proof.
  intros Hs Hl Ef Hs' Hother Hdom. pose proof (ly_dom _ _ _ _ Hl) as Hd. destruct Hs as [-> H1 H2 H3 H4 H5].
  apply (layout_join _ _ _ _ _ init s'); [|apply Hl|].
  - split; try done; try congruence. apply (segs_ok_frame files); [|done]. apply Forall_forall.
    intros t Ht. apply Hother. intros E. apply H5. rewrite <- E. by apply list_elem_of_fmap_2.
  - rewrite Hdom, Hd. rewrite !map_app. simpl. by rewrite Ef.
Qed.

Lemma wal_holds_bounds w i es : wal_holds w i es ->
  Wal_first_index w = i /\ Wal_last_index w = i + Z.of_nat (length es) - 1 /\ 1 <= i /\
  contiguous_from i es /\ Forall record_ok es.
Proof.
  intros (chunks & c & Hl & Hne & ->). destruct (layout_split _ _ _ _ _ Hl Hne) as (init & s & Hs).
  pose proof (ly_first _ _ _ _ Hl) as Hi. destruct Hs as [E H1 H2 H3 H4 _].
  assert (Hparts : contiguous_from i (concat chunks) /\ Forall record_ok (concat chunks) /\
    (chunks <> [] -> exists s rest, init = s :: rest /\ sg_first s = i)).
  { clear -H1 H3. revert i H3. induction H1 as [|t d init chunks Hd _ IH]; intros i H3; simpl.
    - split_and!; [apply contiguous_nil|constructor|done].
    - simpl in H3. injection H3 as E1 E2. destruct (IH _ E2) as (Hc & Hr & _). destruct Hd. split_and!.
      + apply contiguous_app. by rewrite <- E1 in *.
      + by apply Forall_app.
      + intros _. by exists t, init. }
  destruct Hparts as (Hc & Hr & Hh). split_and!.
  - unfold Wal_first_index. rewrite E. destruct chunks as [|d chunks].
    + inversion H1; subst. simpl in *. lia.
    + destruct Hh as (t & rest & -> & Et); [done|]. done.
  - unfold Wal_last_index. rewrite E, last_snoc, (so_last _ _ _ H2), H4, length_app. lia.
  - done.
  - apply contiguous_app. rewrite <- H4. split; [done|apply H2].
  - apply Forall_app. split; [done|apply H2].
Qed.

(** ** Opening a segment *)

Lemma open_segment_layout w i chunks n : 1 <= i ->
  (chunks = [] -> w_segments w = [] /\ d_files (w_disk w) = ∅) ->
  (chunks <> [] -> layout (d_files (w_disk w)) i (w_segments w) chunks) ->
  Forall (fun c => c <> []) chunks -> n = i + Z.of_nat (length (concat chunks)) ->
  layout (d_files (w_disk (open_segment n w))) i (w_segments (open_segment n w)) (chunks ++ [[]]).
Proof.
  intros Hi H0 Hl Hne En.
  assert (Hbase : Forall2 (seg_ok (d_files (w_disk w))) (w_segments w) chunks /\
    map sg_first (w_segments w) = starts i chunks /\
    dom (d_files (w_disk w)) = list_to_set (map sg_first (w_segments w))).
  { destruct chunks as [|c chunks]; [|by destruct Hl].
    destruct H0 as [E1 E2]; [done|]. rewrite E1, E2. split_and!; [constructor|done|done]. }
  clear H0 Hl. destruct Hbase as (H1 & H2 & H3).
  pose proof (starts_NoDup i chunks [] Hne) as Hd. rewrite starts_app in Hd. simpl in Hd. rewrite <- En, <- H2 in Hd.
  apply NoDup_app in Hd as (_ & Hd & _).
  assert (Hnew : n ∉ map sg_first (w_segments w)) by (intros Hin; by apply (Hd n Hin), list_elem_of_singleton).
  assert (Hnone : d_files (w_disk w) !! n = None).
  { apply not_elem_of_dom. rewrite H3. by rewrite elem_of_list_to_set. }
  unfold open_segment, file_open. simpl. rewrite Hnone. simpl.
  set (files := d_files (w_disk w)) in *. set (files' := alter _ n _).
  assert (En' : files' !! n = Some (mkFile [] [] [PTruncate 0])).
  { unfold files'. by rewrite lookup_alter_eq, lookup_insert_eq. }
  assert (Eo : forall j, j <> n -> files' !! j = files !! j).
  { intros j Hj. unfold files'. by rewrite lookup_alter_ne, lookup_insert_ne by done. }
  split; [| |done|].
  - apply Forall2_app.
    + apply (segs_ok_frame files); [|done]. apply Forall_forall. intros s Hs. apply Eo. intros <-.
      by apply Hnew, list_elem_of_fmap_2.
    + constructor; [|constructor]. split; simpl; try done; try lia.
      * unfold ssub. lia.
      * exists (mkFile [] [] [PTruncate 0]), O. split_and!; [done|done| |done].
        split; [done|]. split; [done|]. exists [PTruncate 0]. split; [by right|done].
  - rewrite map_app, H2, starts_app. simpl. by rewrite En.
  - unfold files'. rewrite dom_alter_L, dom_insert_L, H3. rewrite map_app, list_to_set_app_L. simpl. set_solver.
Qed.

(** ** Appending *)

(** The segment a record is about to be written to. *)
Lemma last_seg_size w i es : wal_holds w i es -> 0 < segment_bytes (w_opts w) ->
  forall s, last (w_segments w) = Some s -> segment_bytes (w_opts w) <= sg_size s ->
  exists chunks, layout (d_files (w_disk w)) i (w_segments w) chunks /\
    Forall (fun c => c <> []) chunks /\ es = concat chunks /\ chunks <> [].
Proof.
  intros (chunks & c & Hl & Hne & ->) Hp s Hs Hsz.
  destruct (layout_split _ _ _ _ _ Hl Hne) as (init & s' & Hsp).
  assert (s' = s) as -> by (rewrite (sl_segs _ _ _ _ _ _ _ Hsp), last_snoc in Hs; congruence).
  exists (chunks ++ [c]). split_and!; [done| | |by destruct chunks].
  - apply Forall_app. split; [done|]. constructor; [|constructor]. intros ->.
    rewrite (so_size _ _ _ (sl_last _ _ _ _ _ _ _ Hsp)) in Hsz. change (segment_of []) with (@nil Z) in Hsz.
    simpl in Hsz. lia.
  - rewrite concat_app. simpl. by rewrite app_nil_r.
Qed.

(** What the write of a record does to the active segment, done or refused. *)
Lemma write_record_ok files s c e d : files = d_files d -> seg_ok files s c -> record_ok e ->
  e_index e = sg_first s + Z.of_nat (length c) ->
  let '(ok, d') := file_write_at (sg_first s) (sg_size s) (wal_frame (Entry_to_bytes e)) d in
  (forall j, j <> sg_first s -> d_files d' !! j = files !! j) /\ dom (d_files d') = dom files /\
  (if ok then seg_ok (d_files d') (add_record (e_index e) (Z.of_nat (length (record_of e))) (mark_dirty_segment s)) (c ++ [e])
   else seg_ok (d_files d') (mark_dirty_segment s) c).
Proof.
  intros -> [H1 H2 H3 H4 H5 H6 (f & m & Hf & Hv & Hp & Hd)] He Hi. unfold file_write_at.
  destruct (match d_fate d with [] => true | b :: _ => b end); cbn beta iota; cbn [on_files d_files].
  - split_and!; [by intros j Hj; apply lookup_alter_ne|apply dom_alter_L|].
    change (wal_frame (Entry_to_bytes e)) with (record_of e).
    split; cbn [add_record mark_dirty_segment sg_first sg_last sg_size sg_offsets sg_dirty on_files d_files].
    + done.
    + apply contiguous_app. split; [done|]. apply contiguous_cons. split; [done|apply contiguous_nil].
    + apply Forall_app. split; [done|by constructor].
    + rewrite length_app. simpl. lia.
    + rewrite segment_of_app, segment_of_one, length_app. lia.
    + rewrite H5, H6, offsets_of_app. simpl. by rewrite Z.add_0_l.
    + rewrite lookup_alter_eq, Hf. exists (file_op (PWrite (length (segment_of c)) (record_of e)) f), m.
      rewrite H5, Nat2Z.id. split_and!; [done| |by apply on_disk_write|done].
      cbn [file_op f_view apply_pending]. by rewrite Hv, write_at_end, segment_of_app, segment_of_one.
  - split_and!; [done|done|]. split; cbn [mark_dirty_segment sg_first sg_last sg_size sg_offsets sg_dirty d_files]; try done.
    exists f, m. by split_and!.
Qed.

Lemma append_one_spec w i es e : wal_holds w i es -> 0 < segment_bytes (w_opts w) -> record_ok e ->
  i + Z.of_nat (length es) < U64 ->
  w_opts (append_one e w).2 = w_opts w /\
  (((append_one e w).1 = IoOk /\ e_index e = i + Z.of_nat (length es) /\ wal_holds (append_one e w).2 i (es ++ [e]))
   \/ (exists k, (append_one e w).1 = IoErr k /\ (e_index e = i + Z.of_nat (length es) -> k = Enospc) /\
         wal_holds (append_one e w).2 i es)).
Proof.
  intros Hw Hp He Hr. destruct (wal_holds_bounds _ _ _ Hw) as (_ & El & Hi & _ & _).
  unfold append_one. rewrite El, wadd64_small by lia.
  destruct (Z.eqb_spec (e_index e) (i + Z.of_nat (length es) - 1 + 1)) as [Ei|]; simpl;
    [|split; [done|right]; exists NonContiguous; split_and!; [done|lia|done]].
  set (w1 := if _ <=? _ then _ else w).
  assert (Hw1 : w_opts w1 = w_opts w /\ exists chunks c, layout (d_files (w_disk w1)) i (w_segments w1) (chunks ++ [c]) /\
    Forall (fun c => c <> []) chunks /\ es = concat chunks ++ c).
  { unfold w1. destruct (Z.leb_spec (segment_bytes (w_opts w)) (match last (w_segments w) with Some s => sg_size s | None => 0 end)) as [Hle|]; [|by split].
    destruct (last (w_segments w)) as [s|] eqn:Es; [|lia].
    destruct (last_seg_size w i es Hw Hp s Es Hle) as (chunks & Hl & Hne & -> & Hc).
    split; [done|]. exists chunks, []. split_and!; [|done|by rewrite app_nil_r].
    apply open_segment_layout; try done. lia. }
  clearbody w1. destruct Hw1 as (Eo & chunks & c & Hl & Hne & Ees).
  destruct (layout_split _ _ _ _ _ Hl Hne) as (init & s & Hs). pose proof (sl_segs _ _ _ _ _ _ _ Hs) as Esegs.
  rewrite Esegs, last_snoc. simpl.
  assert (Hidx : e_index e = sg_first s + Z.of_nat (length c)).
  { rewrite (sl_first _ _ _ _ _ _ _ Hs). rewrite Ees, length_app in Ei. lia. }
  pose proof (write_record_ok _ s c e (w_disk w1) eq_refl (sl_last _ _ _ _ _ _ _ Hs) He Hidx) as Hwr.
  destruct (file_write_at _ _ _ _) as [ok d']. destruct Hwr as (Hother & Hdom & Hok).
  split; [by destruct ok|]. rewrite update_last_snoc. destruct ok; [left|right]; simpl.
  - split_and!; [done|lia|]. exists chunks, (c ++ [e]). simpl. rewrite update_last_snoc. split_and!; [|done|].
    + by eapply layout_change_last.
    + by rewrite Ees, app_assoc.
  - exists Enospc. split_and!; [done|done|]. exists chunks, c. simpl. split_and!; [|done|done].
    by eapply layout_change_last.
Qed.

Lemma append_loop_spec batch w i es : wal_holds w i es -> 0 < segment_bytes (w_opts w) ->
  Forall record_ok batch -> i + Z.of_nat (length es + length batch) < U64 ->
  w_opts (append_loop batch w).2 = w_opts w /\
  (((append_loop batch w).1 = IoOk /\ wal_holds (append_loop batch w).2 i (es ++ batch))
   \/ (exists x, (append_loop batch w).1 = IoErr x /\
         (contiguous_from (i + Z.of_nat (length es)) batch -> x = Enospc) /\
         exists k, wal_holds (append_loop batch w).2 i (es ++ take k batch))).
Proof.
  intros Hw Hp Hb. revert w es Hw Hp. induction Hb as [|e batch He Hb IH]; intros w es Hw Hp Hr; simpl.
  { split; [done|left]. by rewrite app_nil_r. }
  simpl in Hr. destruct (append_one_spec w i es e Hw Hp He) as (Eo & Hcase); [lia|].
  destruct (append_one e w) as [res w1]. simpl in *.
  destruct Hcase as [(-> & Hi & Hw1)|(x & -> & Hx & Hw1)].
  - destruct (IH w1 (es ++ [e]) Hw1) as (Eo1 & Hcase); [by rewrite Eo|rewrite length_app; simpl; lia|].
    split; [congruence|]. destruct Hcase as [(E & Hok)|(x & E & Hx & k & Hok)]; [left|right].
    + split; [done|]. by rewrite <- app_assoc in Hok.
    + exists x. split_and!; [done| |].
      * intros [_ Hc]%contiguous_cons. apply Hx. rewrite length_app. simpl.
        by replace (i + Z.of_nat (length es + 1)) with (i + Z.of_nat (length es) + 1) by lia.
      * exists (S k). by rewrite <- app_assoc in Hok.
  - split; [done|right]. exists x. split_and!; [done|by intros [? _]%contiguous_cons; apply Hx|].
    exists O. simpl. by rewrite app_nil_r.
Qed.

(** ** Removing segments *)

Lemma remove_files gone d :
  let d' := fold_left (fun d s => file_remove (sg_first s) d) gone d in
  (forall j, j ∉ map sg_first gone -> d_files d' !! j = d_files d !! j) /\
  dom (d_files d') = dom (d_files d) ∖ list_to_set (map sg_first gone).
Proof.
  revert d. induction gone as [|s gone IH]; intros d; simpl; [split; [done|set_solver]|].
  destruct (IH (file_remove (sg_first s) d)) as [IH1 IH2]. split.
  - intros j Hj. apply not_elem_of_cons in Hj as [Hj1 Hj2]. rewrite IH1 by done. by apply lookup_delete_ne.
  - rewrite IH2. simpl. rewrite dom_delete_L. set_solver.
Qed.

Lemma layout_NoDup files i segs chunks c : layout files i segs (chunks ++ [c]) ->
  Forall (fun c => c <> []) chunks -> NoDup (map sg_first segs).
Proof. intros Hl Hne. rewrite (ly_starts _ _ _ _ Hl). by apply starts_NoDup. Qed.

(** Keeping the first segments of a layout, or the last ones. *)
Lemma layout_keep files files' i a b ca cb : layout files i (a ++ b) (ca ++ cb) -> length a = length ca ->
  NoDup (map sg_first (a ++ b)) ->
  (forall j, j ∉ map sg_first b -> files' !! j = files !! j) /\
  dom files' = dom files ∖ list_to_set (map sg_first b) -> layout files' i a ca.
Proof.
  intros [H1 H2 H3 H4] Hlen Hd [Hother Hdom].
  rewrite map_app in Hd. apply NoDup_app in Hd as (_ & Hd & _).
  apply Forall2_app_inv in H1 as [H1 _]; [|done]. rewrite map_app, starts_app in H2.
  assert (Hl : length (map sg_first a) = length (starts i ca)).
  { by rewrite length_map, starts_length. }
  apply app_inj_1 in H2 as [H2 _]; [|done]. split; [|done|done|].
  - apply (segs_ok_frame files); [|done]. apply Forall_forall. intros s Hs. apply Hother, Hd.
    by apply list_elem_of_fmap_2.
  - rewrite Hdom, H4, map_app, list_to_set_app_L. set_solver.
Qed.

Lemma layout_drop files files' i a b ca cb : layout files i (a ++ b) (ca ++ cb) -> length a = length ca ->
  NoDup (map sg_first (a ++ b)) ->
  (forall j, j ∉ map sg_first a -> files' !! j = files !! j) /\
  dom files' = dom files ∖ list_to_set (map sg_first a) ->
  layout files' (i + Z.of_nat (length (concat ca))) b cb.
Proof.
  intros [H1 H2 H3 H4] Hlen Hd [Hother Hdom].
  rewrite map_app in Hd. apply NoDup_app in Hd as (_ & Hd & _).
  apply Forall2_app_inv in H1 as [_ H1]; [|done]. rewrite map_app, starts_app in H2.
  assert (Hl : length (map sg_first a) = length (starts i ca)).
  { by rewrite length_map, starts_length. }
  apply app_inj_1 in H2 as [_ H2]; [|done]. split; [|done|lia|].
  - apply (segs_ok_frame files); [|done]. apply Forall_forall. intros s Hs. apply Hother. intros Hin.
    apply (Hd _ Hin). by apply list_elem_of_fmap_2.
  - rewrite Hdom, H4, map_app, list_to_set_app_L. set_solver.
Qed.

Lemma reset_to_holds index w i es : wal_holds w i es -> 0 <= index -> index + 1 < U64 ->
  wal_holds (reset_to index w) (index + 1) [].
Proof.
  intros (chunks & c & Hl & _ & _) Hi Hr. exists [], []. split_and!; [|constructor|done].
  unfold reset_to. rewrite wadd64_small by lia. apply open_segment_layout; try done; [lia| |simpl; lia].
  intros _. split; [done|]. simpl. destruct (remove_files (w_segments w) (w_disk w)) as [_ Hd].
  apply dom_empty_inv_L. cbv zeta in Hd. rewrite Hd, (ly_dom _ _ _ _ Hl). set_solver.
Qed.

(** ** Truncating *)

Lemma pop_segments_spec from l kept gone : pop_segments from l = (kept, gone) ->
  l = gone ++ kept /\ Forall (fun s => from <= sg_first s) gone /\ (l <> [] -> kept <> []) /\
  (forall s t rest, kept = s :: t :: rest -> sg_first s < from).
Proof.
  revert kept gone. induction l as [|s l IH]; intros kept gone; [by intros [= <- <-]|].
  destruct l as [|t l]; [by intros [= <- <-]|].
  change (pop_segments from (s :: t :: l)) with
    (if from <=? sg_first s then let '(kept, gone) := pop_segments from (t :: l) in (kept, s :: gone)
     else (s :: t :: l, [])).
  destruct (Z.leb_spec from (sg_first s)) as [Hs|Hs].
  - destruct (pop_segments from (t :: l)) as [k g] eqn:E. intros [= <- <-].
    destruct (IH k g eq_refl) as (El & Hg & Hk & Hlt).
    split_and!; [by rewrite El|by constructor|by intros _; apply Hk|done].
  - intros [= <- <-]. split_and!; [done|constructor|done|by intros ? ? ? [= <- _ _]].
Qed.

Lemma filter_below i es n : contiguous_from i es ->
  filter (fun e => e_index e < n) es = take (Z.to_nat (n - i)) es.
Proof.
  revert i. induction es as [|e es IH]; intros i Hc; [by rewrite take_nil|].
  apply contiguous_cons in Hc as [He Hc]. rewrite filter_cons, (IH (i + 1)) by done.
  case_decide as Hd.
  - replace (Z.to_nat (n - i)) with (S (Z.to_nat (n - (i + 1)))) by lia. done.
  - replace (Z.to_nat (n - i)) with O by lia. replace (Z.to_nat (n - (i + 1))) with O by lia. done.
Qed.

Lemma cut_segment_ok from s c d : seg_ok (d_files d) s c -> sg_first s < from <= sg_last s ->
  let s' := cut_segment from s in
  let d' := file_fsync (sg_first s) (file_truncate (sg_first s) (sg_size s') d) in
  (forall j, j <> sg_first s -> d_files d' !! j = d_files d !! j) /\ dom (d_files d') = dom (d_files d) /\
  seg_ok (d_files d') s' (take (Z.to_nat (from - sg_first s)) c).
Proof.
  intros [H1 H2 H3 H4 H5 H6 (f & m & Hf & Hv & Hp & Hd)] Hr. cbv zeta.
  set (k := Z.to_nat (from - sg_first s)). assert (Hk : (0 < k < length c)%nat) by (unfold k; lia).
  assert (Es : cut_segment from s = mkSegment (sg_first s) (sg_first s + Z.of_nat k - 1)
    (Z.of_nat (length (segment_of (take k c)))) (take k (sg_offsets s)) false).
  { unfold cut_segment, ssub. rewrite Z.max_r by lia. fold k. rewrite (proj2 (Nat.eqb_neq _ _)) by lia.
    by rewrite H6, offsets_of_lookup by lia. }
  rewrite Es. cbn [sg_size]. unfold file_fsync, file_truncate, on_files; cbn [d_files]. split_and!.
  - intros j Hj. by rewrite !lookup_alter_ne by done.
  - by rewrite !dom_alter_L.
  - split; cbn [sg_first sg_last sg_size sg_offsets sg_dirty].
    + done.
    + by apply contiguous_take.
    + by apply Forall_take.
    + rewrite length_take. lia.
    + done.
    + by rewrite H6, offsets_of_take.
    + rewrite !lookup_alter_eq, Hf. eexists _, (length (take k c)). split; [reflexivity|].
      cbn [file_op f_view f_durable f_pending apply_pending]. rewrite Hv, Nat2Z.id, segment_of_take.
      split_and!; [done| |done]. apply on_disk_full; [|done]. cbn [f_durable].
      rewrite fold_left_app, (on_disk_synced _ _ _ Hp). cbn [fold_left apply_pending]. apply segment_of_take.
Qed.

(** The segments a truncation keeps, with the entries they hold. *)
Lemma pop_layout from w i es kept gone : wal_holds w i es -> i < from ->
  pop_segments from (rev (w_segments w)) = (kept, gone) ->
  exists chunks c init s rest,
    rev kept = init ++ [s] /\ sg_first s < from /\ sg_first s = i + Z.of_nat (length (concat chunks)) /\
    Forall (fun c => c <> []) chunks /\ es = (concat chunks ++ c) ++ rest /\
    (gone = [] -> rest = []) /\ (gone <> [] -> from <= sg_last s + 1) /\
    layout (d_files (fold_left (fun d s => file_remove (sg_first s) d) gone (w_disk w))) i (rev kept) (chunks ++ [c]).
Proof.
  intros (chunks & c & Hl & Hne & ->) Hi Hpop.
  pose proof (layout_NoDup _ _ _ _ _ Hl Hne) as Hd.
  destruct (pop_segments_spec _ _ _ _ Hpop) as (Er & Hg & Hk & Hlt).
  assert (Esegs : w_segments w = rev kept ++ rev gone) by (by rewrite <- rev_app_distr, <- Er, rev_involutive).
  assert (Hkept : kept <> []).
  { apply Hk. intros E. apply (f_equal (@length _)) in E. rewrite length_rev in E.
    pose proof (Forall2_length _ _ _ (ly_segs _ _ _ _ Hl)) as Hlen. rewrite length_app in Hlen. simpl in *. lia. }
  destruct kept as [|s kept]; [done|]. simpl in Esegs. simpl rev.
  set (init := rev kept) in *. rewrite <- app_assoc in Esegs.
  (* the chunks of the segments kept *)
  pose proof (ly_segs _ _ _ _ Hl) as H2. rewrite Esegs in H2.
  apply Forall2_app_inv_l in H2 as (ks & rest' & Hks & H2 & Ec). simpl in H2.
  inversion H2 as [|? k ? gs Hs Hgs E1 E2]; subst rest'.
  assert (Hnek : Forall (fun c => c <> []) ks).
  { clear -Ec Hne. destruct gs as [|g gs' _] using rev_ind.
    - by apply app_inj_tail in Ec as [-> _].
    - change (k :: (gs' ++ [g])) with ((k :: gs') ++ [g]) in Ec. rewrite app_assoc in Ec.
      apply app_inj_tail in Ec as [-> _]. by apply Forall_app in Hne as [Hne _]. }
  rewrite Esegs in Hl, Hd. rewrite Ec in Hl.
  change (s :: rev gone) with ([s] ++ rev gone) in Hl, Hd. change (k :: gs) with ([k] ++ gs) in Hl.
  rewrite (app_assoc ks) in Hl. rewrite (app_assoc init) in Hl, Hd.
  assert (Hlen : length (init ++ [s]) = length (ks ++ [k])).
  { rewrite !length_app, (Forall2_length _ _ _ Hks). done. }
  assert (Hkeep : layout (d_files (fold_left (fun d s => file_remove (sg_first s) d) gone (w_disk w))) i
    (init ++ [s]) (ks ++ [k])).
  { apply (layout_keep _ _ _ _ _ _ _ Hl Hlen Hd). destruct (remove_files gone (w_disk w)) as [Ho Hdm].
    rewrite map_rev. split.
    - intros j Hj. apply Ho. intros Hin. apply Hj. apply list_elem_of_In, in_rev. rewrite rev_involutive. by apply list_elem_of_In.
    - rewrite Hdm. f_equal. apply set_eq. intros y. rewrite !elem_of_list_to_set, !list_elem_of_In. apply in_rev. }
  destruct (layout_split _ _ _ _ _ Hkeep Hnek) as (init' & s' & Hsp).
  pose proof (sl_segs _ _ _ _ _ _ _ Hsp) as Esp. apply app_inj_tail in Esp as [<- <-].
  pose proof (sl_first _ _ _ _ _ _ _ Hsp) as Hfirst.
  exists ks, k, init, s, (concat gs). split_and!; try done.
  - destruct kept as [|t kept]; [|by apply (Hlt s t kept)].
    apply Forall2_nil_inv_l in Hks. rewrite Hfirst, Hks. simpl. lia.
  - apply (f_equal (@concat _)) in Ec. rewrite !concat_app in Ec. simpl in Ec. rewrite app_nil_r in Ec.
    by rewrite Ec, app_assoc.
  - intros ->. by apply Forall2_nil_inv_l in Hgs as ->.
  - intros Hne'. pose proof (ly_starts _ _ _ _ Hl) as Hst. rewrite map_app, starts_app in Hst.
    apply app_inj_1 in Hst as [_ Hst]; [|by rewrite length_map, starts_length].
    rewrite (so_last _ _ _ Hs), Hfirst. rewrite concat_app, length_app in Hst. simpl in Hst. rewrite app_nil_r in Hst.
    destruct (rev gone) as [|g rg] eqn:Eg; [by apply (f_equal (@rev _)) in Eg; rewrite rev_involutive in Eg|].
    destruct gs as [|g' gs]; [by inversion Hgs|]. simpl in Hst. injection Hst as Hst _.
    assert (Hin : from <= sg_first g).
    { rewrite Forall_forall in Hg. apply Hg, list_elem_of_In, in_rev. rewrite Eg. by left. }
    lia.
Qed.

(** Truncation in general: the entries from [from] on are gone. *)
Lemma truncate_holds from w i es : wal_holds w i es -> i + Z.of_nat (length es) < U64 -> 0 <= from ->
  wal_holds (truncate_from from w) (if decide (from <= i) then Z.max 1 from else i)
    (filter (fun e => e_index e < from) es).
Proof.
  intros Hw Hr Hf. destruct (wal_holds_bounds _ _ _ Hw) as (Ef & El & Hi & Hc & _).
  unfold truncate_from. rewrite El, Ef, (filter_below i) by done.
  destruct (Z.ltb_spec (i + Z.of_nat (length es) - 1) from) as [Hlt|Hge].
  { rewrite firstn_all2 by lia. case_decide; [|done]. by replace (Z.max 1 from) with i by lia. } destruct (Z.leb_spec from i) as [Hle|Hgt].
  { rewrite decide_True by done. replace (Z.to_nat (from - i)) with O by lia.
    replace (Z.max 1 from) with (ssub from 1 + 1) by (unfold ssub; lia).
    apply (reset_to_holds _ _ _ _ Hw); unfold ssub; lia. }
  rewrite decide_False by lia. destruct (pop_segments from (rev (w_segments w))) as [kept gone] eqn:Ep.
  destruct (pop_layout from w i es kept gone Hw Hgt Ep) as (chunks & c & init & s & rest & Ek & Hs1 & Hs2 & Hne & Ees & Hg1 & Hg2 & Hl).
  cbv zeta. simpl w_segments. rewrite Ek, last_snoc. rewrite Ek in Hl.
  destruct (layout_split _ _ _ _ _ Hl Hne) as (init' & s' & Hsp).
  pose proof (sl_segs _ _ _ _ _ _ _ Hsp) as Esp. apply app_inj_tail in Esp as [<- <-].
  pose proof (so_last _ _ _ (sl_last _ _ _ _ _ _ _ Hsp)) as Hlast.
  set (d1 := fold_left _ gone _) in *.
  destruct (Z.leb_spec from (sg_last s)) as [Hcut|Hnocut].
  - destruct (cut_segment_ok from s c d1 (sl_last _ _ _ _ _ _ _ Hsp)) as (Ho & Hdm & Hok); [lia|].
    exists chunks, (take (Z.to_nat (from - sg_first s)) c). split_and!; [|done|].
    + simpl. rewrite update_last_snoc. by eapply layout_change_last.
    + rewrite Ees, take_app_le by (rewrite length_app; lia). rewrite take_app_ge by lia. do 2 f_equal. lia.
  - exists chunks, c. split_and!; [done|done|]. rewrite Ees.
    destruct gone as [|g gone].
    + rewrite Hg1, app_nil_r by done. rewrite firstn_all2; [done|]. rewrite length_app. lia.
    + rewrite take_app_length'; [done|]. specialize (Hg2 ltac:(done)). rewrite length_app. lia.
Qed.

(** ** Appending, all or nothing *)

Lemma append_one_accepted w i es e : wal_holds w i es -> i + Z.of_nat (length es) < U64 ->
  e_index e = i + Z.of_nat (length es) -> d_fate (w_disk w) = [] ->
  forall x, (append_one e w).1 <> IoErr x.
Proof.
  intros Hw Hr Hi Hf x. destruct (wal_holds_bounds _ _ _ Hw) as (_ & El & Hi1 & _ & _).
  unfold append_one. rewrite El, wadd64_small by lia. rewrite (proj2 (Z.eqb_eq _ _)) by lia. cbn [negb].
  set (w1 := if _ <=? _ then _ else w).
  assert (Hf1 : d_fate (w_disk w1) = []).
  { unfold w1. destruct (_ <=? _); [|done]. unfold open_segment, file_open, with_disk, with_segments. simpl.
    by case_match. }
  clearbody w1. destruct (last (w_segments w1)); [|done].
  unfold file_write_at. simpl. by rewrite Hf1.
Qed.

Lemma append_one_fate e w : d_fate (w_disk w) = [] -> d_fate (w_disk (append_one e w).2) = [].
Proof.
  intros Hf. unfold append_one. destruct (negb _); [done|].
  set (w1 := if _ <=? _ then _ else w).
  assert (Hf1 : d_fate (w_disk w1) = []).
  { unfold w1. destruct (_ <=? _); [|done]. unfold open_segment, file_open, with_disk, with_segments. simpl.
    by case_match. }
  clearbody w1. destruct (last (w_segments w1)); [|done].
  unfold file_write_at. simpl. rewrite Hf1. done.
Qed.

Lemma append_loop_accepted batch w i es : wal_holds w i es -> 0 < segment_bytes (w_opts w) ->
  Forall record_ok batch -> i + Z.of_nat (length es + length batch) < U64 ->
  contiguous_from (i + Z.of_nat (length es)) batch -> d_fate (w_disk w) = [] ->
  (append_loop batch w).1 = IoOk.
Proof.
  intros Hw Hp Hb. revert w es Hw Hp. induction Hb as [|e batch He Hb IH]; intros w es Hw Hp Hr Hc Hf; simpl; [done|].
  apply contiguous_cons in Hc as [Ei Hc]. simpl in Hr.
  pose proof (append_one_accepted w i es e Hw ltac:(lia) Ei Hf) as Hacc. pose proof (append_one_fate e w Hf) as Hf1.
  destruct (append_one_spec w i es e Hw Hp He) as (Eo & [(E & _ & Hw1)|(x & E & _)]); [lia| |by destruct (Hacc x)].
  destruct (append_one e w) as [r w1]. simpl in *. rewrite E. apply (IH w1 (es ++ [e]) Hw1).
  - by rewrite Eo.
  - rewrite length_app. simpl. lia.
  - rewrite length_app, Nat2Z.inj_add. simpl. by rewrite Z.add_assoc.
  - done.
Qed.

Lemma append_spec w i es batch :
  wal_holds w i es -> 0 < segment_bytes (w_opts w) -> Forall record_ok batch ->
  i + Z.of_nat (length es + length batch) < U64 ->
  let '(r, w') := append batch w in
  ((r = IoOk /\ wal_holds w' i (es ++ batch)) \/ (exists x, r = IoErr x /\ wal_holds w' i es)) /\
  (contiguous_from (i + Z.of_nat (length es)) batch ->
    r <> IoErr NonContiguous /\ (d_fate (w_disk w) = [] -> r = IoOk)).
Proof.
  intros Hw Hp Hb Hr. destruct (wal_holds_bounds _ _ _ Hw) as (_ & El & Hi & Hc & _).
  unfold append. destruct batch as [|e batch]; [split; [left; split; [done|by rewrite app_nil_r]|done]|].
  set (b := e :: batch) in *. unfold append_inner. set (w0 := with_stats count_append w).
  assert (Hw0 : wal_holds w0 i es) by exact Hw.
  pose proof (append_loop_accepted b w0 i es Hw0 Hp Hb Hr) as Hacc.
  destruct (append_loop_spec b w0 i es Hw0 Hp Hb Hr) as (Eo & Hcase).
  destruct (append_loop b w0) as [r w1]. simpl in Hcase, Hacc.
  destruct Hcase as [(E & Hw1)|(x & E & Hx & k & Hw1)]; rewrite E in *; [by split; [left|]|]. split; [right|].
  - exists x. split; [done|]. rewrite El, wadd64_small by lia.
    assert (Hle : (length (take k b) <= length b)%nat) by (rewrite length_take; lia).
    destruct (wal_holds_bounds _ _ _ Hw1) as (_ & _ & _ & Hc1 & _).
    pose proof (truncate_holds (i + Z.of_nat (length es) - 1 + 1) w1 i _ Hw1) as Ht.
    rewrite (filter_below i) in Ht by done.
    replace (Z.to_nat (i + Z.of_nat (length es) - 1 + 1 - i)) with (length es) in Ht by lia.
    rewrite take_app_length in Ht.
    replace (if decide _ then _ else i) with i in Ht by (case_decide; lia). apply Ht; [rewrite length_app; lia|lia].
  - intros Hcb. split; [by rewrite (Hx Hcb)|]. intros Hf. by specialize (Hacc Hcb Hf).
Qed.

(** C31: [append] is all or nothing. From a log that holds [es], whatever the disk
    refuses and wherever in the batch it does, either the call succeeds and the
    log holds [es] and the batch, or it returns an error and the log holds
    exactly [es] as before; it never panics. A batch that continues the log is
    refused by nothing but a full disk. *)
Theorem append_all_or_nothing w i es batch :
  wal_holds w i es -> 0 < segment_bytes (w_opts w) -> Forall record_ok batch ->
  i + Z.of_nat (length es + length batch) < U64 ->
  let '(r, w') := append batch w in
  ((r = IoOk /\ wal_holds w' i (es ++ batch)) \/ (exists x, r = IoErr x /\ wal_holds w' i es)) /\
  (contiguous_from (i + Z.of_nat (length es)) batch ->
    r <> IoErr NonContiguous /\ (d_fate (w_disk w) = [] -> r = IoOk)).
Proof. apply append_spec. Qed.

(** [truncate_from] removes exactly the entries from the cut on. What is left
    is the entries below [from], whichever segments they are in; when the cut is
    at or below the first entry the log restarts, empty, at the cut. *)
Theorem truncate_from_keeps_the_prefix w i es from :
  wal_holds w i es -> i + Z.of_nat (length es) < U64 -> 0 <= from ->
  wal_holds (truncate_from from w) (if decide (from <= i) then Z.max 1 from else i)
    (filter (fun e => e_index e < from) es).
Proof. intros Hw Hr Hf. by apply truncate_holds. Qed.

(** ** Compaction *)

Lemma compact_loop_spec through slack total freed l :
  let n := compact_loop through slack total freed l in
  total - freed = Wal_total_bytes l ->
  (l <> [] -> (n < length l)%nat) /\ Forall (fun s => sg_last s < through) (take n l) /\
  ((0 < n)%nat -> slack <= Wal_total_bytes (drop n l)).
Proof.
  cbv zeta. revert freed. induction l as [|s l IH]; intros freed Ht.
  { split_and!; [done|constructor|simpl; lia]. }
  destruct l as [|t l]; [split_and!; [simpl; lia|constructor|simpl; lia]|].
  change (compact_loop through slack total freed (s :: t :: l)) with
    (if sg_last s <? through then
       if (total - freed - sg_size s <? slack) then O
       else S (compact_loop through slack total (freed + sg_size s) (t :: l)) else O).
  destruct (Z.ltb_spec (sg_last s) through) as [Hs|]; [|split_and!; [simpl; lia|constructor|lia]].
  destruct (Z.ltb_spec (total - freed - sg_size s) slack) as [|Hk]; [split_and!; [simpl; lia|constructor|lia]|].
  destruct (IH (freed + sg_size s)) as (H1 & H2 & H3).
  { change (Wal_total_bytes (s :: t :: l)) with (sg_size s + Wal_total_bytes (t :: l)) in Ht. lia. }
  set (n := compact_loop _ _ _ _ _) in *. split_and!.
  - intros _. specialize (H1 ltac:(done)). simpl in *. lia.
  - cbn [take]. by constructor.
  - intros _. cbn [drop]. destruct n as [|n]; [|apply H3; lia].
    change (Wal_total_bytes (s :: t :: l)) with (sg_size s + Wal_total_bytes (t :: l)) in Ht. cbn [drop]. lia.
Qed.

Lemma filter_above i es n : contiguous_from i es -> i <= n ->
  filter (fun e => n <= e_index e) es = drop (Z.to_nat (n - i)) es.
Proof.
  revert i. induction es as [|e es IH]; intros i Hc Hn; [by rewrite drop_nil|].
  apply contiguous_cons in Hc as [He Hc]. rewrite filter_cons. destruct (Z.eq_dec n i) as [->|].
  - rewrite decide_True by lia. rewrite Z.sub_diag. simpl. f_equal. apply filter_all, Forall_forall.
    intros x Hx. apply list_elem_of_lookup in Hx as [k Hk]. rewrite (contiguous_lookup _ _ _ _ Hc Hk). lia.
  - rewrite decide_False by lia. rewrite (IH (i + 1)) by (done || lia).
    replace (Z.to_nat (n - i)) with (S (Z.to_nat (n - (i + 1)))) by lia. done.
Qed.

Lemma destruct_last {A} (l : list A) : l = [] \/ exists l' x, l = l' ++ [x].
Proof. destruct l as [|x l' _] using rev_ind; [by left|right; by eexists _, _]. Qed.

Lemma compact_through_spec w i es through :
  wal_holds w i es ->
  let w' := compact_through through w in
  exists i', i <= i' <= Z.max i through /\
    wal_holds w' i' (filter (fun e => i' <= e_index e) es) /\ Wal_last_index w' = Wal_last_index w /\
    (i < i' -> compact_slack_bytes (w_opts w) <= Wal_total_bytes (w_segments w')).
Proof.
  intros Hw. destruct (wal_holds_bounds _ _ _ Hw) as (_ & El & Hi & Hcon & _).
  destruct Hw as (chunks & c & Hl & Hne & Ees). pose proof (layout_NoDup _ _ _ _ _ Hl Hne) as Hd.
  cbv zeta. unfold compact_through. set (n := compact_loop _ _ _ _ _).
  destruct (compact_loop_spec through (compact_slack_bytes (w_opts w)) (Wal_total_bytes (w_segments w)) 0
    (w_segments w)) as (H1 & H2 & H3); [lia|]. fold n in H1, H2, H3.
  pose proof (Forall2_length _ _ _ (ly_segs _ _ _ _ Hl)) as Hlen. rewrite length_app in Hlen. simpl in Hlen.
  assert (Hn : (n <= length chunks)%nat).
  { assert (n < length (w_segments w))%nat; [|lia]. apply H1. intros E. rewrite E in Hlen. simpl in Hlen. lia. }
  exists (i + Z.of_nat (length (concat (take n chunks)))).
  set (i' := i + Z.of_nat (length (concat (take n chunks)))).
  assert (Hsplit : layout (d_files (w_disk w)) i (take n (w_segments w) ++ drop n (w_segments w))
    (take n chunks ++ (drop n chunks ++ [c]))) by by rewrite app_assoc, !take_drop.
  assert (Hlen' : length (take n (w_segments w)) = length (take n chunks)) by (rewrite !length_take; lia).
  rewrite <- (take_drop n (w_segments w)) in Hd.
  assert (Hcat : es = concat (take n chunks) ++ (concat (drop n chunks) ++ c)).
  { rewrite Ees, app_assoc, <- concat_app, take_drop. done. }
  assert (Hw' : wal_holds (compact_through through w) i' (filter (fun e => i' <= e_index e) es)).
  { rewrite (filter_above i) by (done || lia). unfold i'.
    replace (Z.to_nat _) with (length (concat (take n chunks))) by lia. rewrite Hcat, drop_app_length.
    exists (drop n chunks), c. split_and!; [|by apply Forall_drop|done]. unfold compact_through. fold n. simpl.
    apply (layout_drop _ _ _ _ _ _ _ Hsplit Hlen' Hd). apply remove_files. }
  split_and!.
  - lia.
  - destruct (destruct_last (take n chunks)) as [E|(cs & k & E)].
    { unfold i'. rewrite E. simpl. lia. }
    pose proof (layout_keep _ _ _ _ _ _ _ Hsplit Hlen' Hd (remove_files _ (w_disk w))) as Hk.
    rewrite E in Hk. destruct (layout_split _ _ _ _ _ Hk) as (init & s & Hs).
    { assert (Hall : Forall (fun c => c <> []) (cs ++ [k])) by (rewrite <- E; by apply Forall_take).
      by apply Forall_app in Hall as [? _]. }
    rewrite (sl_segs _ _ _ _ _ _ _ Hs) in H2. apply Forall_app in H2 as [_ H2]. inversion H2 as [|? ? Hlast _]; subst.
    rewrite (so_last _ _ _ (sl_last _ _ _ _ _ _ _ Hs)), (sl_first _ _ _ _ _ _ _ Hs) in Hlast.
    unfold i'. rewrite E, concat_app, length_app. simpl. rewrite app_nil_r. lia.
  - exact Hw'.
  - destruct (wal_holds_bounds _ _ _ Hw') as (_ & El' & _). unfold compact_through in El'. fold n in El'.
    rewrite El', El, (filter_above i), length_drop by (done || lia). unfold i'.
    rewrite Hcat, !length_app. lia.
  - intros Hlt. apply H3. destruct n; [|lia]. simpl in *. lia.
Qed.

(** [compact_through] only drops history. It removes whole segments from the
    front, all of them below [through]; every other entry, the last one included,
    stays; the active segment stays; and when it removes anything, at least the
    configured slack of bytes stays. *)
Theorem compact_through_drops_history w i es through :
  wal_holds w i es ->
  let w' := compact_through through w in
  exists i', i <= i' <= Z.max i through /\
    wal_holds w' i' (filter (fun e => i' <= e_index e) es) /\ Wal_last_index w' = Wal_last_index w /\
    (i < i' -> compact_slack_bytes (w_opts w) <= Wal_total_bytes (w_segments w')).
Proof. apply compact_through_spec. Qed.

(** ** Reading *)

Lemma file_view_ok d s c : seg_ok (d_files d) s c -> file_view (sg_first s) d = segment_of c.
Proof. intros [_ _ _ _ _ _ (f & m & Hf & Hv & _)]. unfold file_view. by rewrite Hf. Qed.

(** Reading the record at the offset of entry [k] of a segment. *)
Lemma read_record c k e : Forall record_ok c -> c !! k = Some e ->
  let file := segment_of c in
  let at_ := length (segment_of (take k c)) in
  let body := Entry_to_bytes e in
  read_at file at_ HEADER = le_bytes 4 (len_u32 body) ++ le_bytes 4 (crc32c body) /\
  read_at file (at_ + HEADER) (length body) = body /\ body_ok body.
Proof.
  intros Hc He. cbv zeta. pose proof (list_elem_of_lookup_2 _ _ _ He) as Hin.
  rewrite Forall_forall in Hc. destruct (Hc _ Hin) as [_ Hb].
  assert (E : segment_of c = segment_of (take k c) ++ record_of e ++ segment_of (drop (S k) c)).
  { rewrite <- segment_of_one, <- !segment_of_app. f_equal. symmetry. by apply take_drop_middle. }
  rewrite E. unfold read_at, sub. split_and!; [| |done].
  - rewrite drop_app_length. unfold record_of, wal_frame. rewrite !app_assoc, <- (app_assoc (_ ++ _)).
    apply take_app_length'. by rewrite length_app, !le_bytes_length.
  - rewrite <- drop_drop, drop_app_length. unfold record_of, wal_frame.
    rewrite (app_assoc (le_bytes 4 _)), <- app_assoc.
    rewrite (drop_app_length' _ _ HEADER) by (by rewrite length_app, !le_bytes_length). apply take_app_length.
Qed.

Lemma read_in_segment d s c index : seg_ok (d_files d) s c ->
  sg_first s <= index <= sg_last s ->
  (at_ ← sg_offsets s !! Z.to_nat (index - sg_first s);
   let file := file_view (sg_first s) d in
   let header := read_at file (Z.to_nat at_) HEADER in
   if (length header <? HEADER)%nat then None
   else
     let len := le_value (sub header 0 4) in
     let crc := le_value (sub header 4 4) in
     if (len =? 0) || (MAX_RECORD <? len) then None
     else
       let body := read_at file (Z.to_nat at_ + HEADER) (Z.to_nat len) in
       if negb (length body =? Z.to_nat len)%nat || negb (crc32c body =? crc) then None
       else match (Entry_decode (Reader_new body)).1 with Ok e => Some e | Err _ => None end)
  = c !! Z.to_nat (index - sg_first s).
Proof.
  intros Hs Hi. pose proof (so_last _ _ _ Hs) as Hlast. rewrite (file_view_ok _ _ _ Hs).
  set (k := Z.to_nat (index - sg_first s)). assert (Hk : (k < length c)%nat) by (unfold k; lia).
  destruct (lookup_lt_is_Some_2 c k Hk) as [e He]. rewrite He.
  rewrite (so_offsets _ _ _ Hs), offsets_of_lookup by done. cbn [option_bind mbind]. cbv zeta.
  rewrite Z.add_0_l, Nat2Z.id.
  pose proof (Forall_lookup_1 _ _ _ _ (so_records _ _ _ Hs) He) as [Hok _].
  destruct (read_record c k e (so_records _ _ _ Hs) He) as (E1 & E2 & Hb).
  destruct (header_words (le_bytes 4 (len_u32 (Entry_to_bytes e))) (le_bytes 4 (crc32c (Entry_to_bytes e))) [])
    as (E3 & E4 & _); [apply le_bytes_length..|]. rewrite app_nil_r in E3, E4.
  rewrite E1, E3, E4, length_app, !le_bytes_length. cbn [Nat.ltb Nat.leb Nat.add HEADER].
  rewrite body_len, body_crc, length_checks by (done || apply Hb). rewrite Nat2Z.id, E2, Nat.eqb_refl, Z.eqb_refl.
  cbn [negb orb]. assert (Ed : (Entry_decode (Reader_new (Entry_to_bytes e))).1 = Ok e) by by apply RoundTrip_decode.
  by rewrite Ed.
Qed.

Lemma holds_index_spec files s c index : seg_ok files s c ->
  holds_index index s = true <-> sg_first s <= index <= sg_last s.
Proof.
  intros Hs. unfold holds_index, Segment_is_empty. pose proof (so_last _ _ _ Hs).
  rewrite !andb_true_iff, negb_true_iff, Z.ltb_ge, !Z.leb_le. lia.
Qed.

(** [read] gives back what was appended. The entry read from the disk at an
    index is the entry of the log with that index, and nothing at an index the
    log does not hold. *)
Theorem read_gives_back w i es index :
  wal_holds w i es -> read index w = (if decide (i <= index) then es !! Z.to_nat (index - i) else None).
Proof.
  intros (chunks & c & Hl & _ & ->). pose proof (ly_segs _ _ _ _ Hl) as Hs. pose proof (ly_starts _ _ _ _ Hl) as Hst.
  clear Hl. assert (Ecat : concat chunks ++ c = concat (chunks ++ [c])) by (by rewrite concat_app; simpl; rewrite app_nil_r).
  rewrite Ecat. clear Ecat. unfold read.
  revert i Hst. induction Hs as [|s d segs cs Hs _ IH]; intros i Hst; [by case_decide|].
  cbn [map starts concat] in Hst |- *. injection Hst as Ei Hst. specialize (IH _ Hst).
  rewrite filter_cons. pose proof (so_last _ _ _ Hs) as Hlast.
  destruct (holds_index index s) eqn:Hh.
  - rewrite (decide_True (P := true = true)) by done. apply (holds_index_spec _ _ _ _ Hs) in Hh. cbn [head mbind option_bind].
    pose proof (read_in_segment (w_disk w) s d index Hs Hh) as Hr. cbv zeta in Hr |- *.
    rewrite decide_True by lia. rewrite lookup_app_l by lia. rewrite <- Ei. exact Hr.
  - rewrite (decide_False (P := false = true)) by done. rewrite IH.
    assert (~ sg_first s <= index <= sg_last s) by (rewrite <- (holds_index_spec _ _ _ _ Hs), Hh; done).
    case_decide; case_decide; try done; try lia.
    rewrite lookup_app_r by lia. f_equal. lia.
Qed.

(** ** The durability barrier *)

Definition fsynced (f : FileState) : FileState :=
  mkFile (fold_left apply_pending (f_pending f) (f_durable f)) (f_view f) [].

Lemma fsynced_twice f : fsynced (fsynced f) = fsynced f.
Proof. done. Qed.

Lemma fsync_files segs d :
  let d' := fold_left (fun d s => file_fsync (sg_first s) d) segs d in
  (forall j, d_files d' !! j = (fun f => if decide (j ∈ map sg_first segs) then fsynced f else f)
                                 <$> d_files d !! j) /\
  dom (d_files d') = dom (d_files d).
Proof.
  revert d. induction segs as [|s segs IH]; intros d; cbn [fold_left map].
  { split; [|done]. intros j. destruct (d_files d !! j); [|done]. cbn [fmap option_fmap option_map]. case_decide; [set_solver|done]. }
  destruct (IH (file_fsync (sg_first s) d)) as [IH1 IH2]. split.
  - intros j. rewrite IH1. unfold file_fsync, on_files. cbn [d_files].
    destruct (decide (j = sg_first s)) as [->|Hj].
    + rewrite lookup_alter_eq. destruct (d_files d !! sg_first s) as [f|]; [|done]. cbn [fmap option_fmap option_map].
      rewrite (decide_True (P := sg_first s ∈ sg_first s :: _)) by set_solver. by case_decide.
    + rewrite lookup_alter_ne by done. destruct (d_files d !! j) as [f|]; [|done]. cbn [fmap option_fmap option_map]. f_equal.
      destruct (decide (j ∈ map sg_first segs)).
      * by rewrite decide_True by set_solver.
      * by rewrite decide_False by set_solver.
  - rewrite IH2. unfold file_fsync, on_files. cbn [d_files]. apply dom_alter_L.
Qed.

(** The durable part of the files covers the first [n] of the entries. *)
Fixpoint durable (files : gmap Index FileState) (n : nat) (segs : list Segment) (chunks : list (list Entry)) : Prop :=
  match segs, chunks with
  | s :: segs, c :: chunks =>
      (exists f m, files !! sg_first s = Some f /\ on_disk f c m /\ (n `min` length c <= m)%nat) /\
      durable files (n - length c) segs chunks
  | _, _ => True
  end.

(** The log holds [es], and a crash keeps at least the first [n] of them. *)
Definition wal_synced (w : Wal) (i : Index) (es : list Entry) (n : nat) : Prop :=
  exists chunks c, layout (d_files (w_disk w)) i (w_segments w) (chunks ++ [c]) /\
    Forall (fun c => c <> []) chunks /\ es = concat chunks ++ c /\
    durable (d_files (w_disk w)) n (w_segments w) (chunks ++ [c]).

Lemma durable_all files segs chunks n :
  Forall2 (fun s c => exists f, files !! sg_first s = Some f /\ on_disk f c (length c)) segs chunks ->
  durable files n segs chunks.
Proof.
  intros H. revert n. induction H as [|s c segs chunks (f & Hf & Ho) _ IH]; intros n; [done|].
  split; [|by apply IH]. exists f, (length c). split_and!; [done|done|lia].
Qed.

Lemma sync_synced w i es :
  wal_holds w i es -> wal_synced (sync w) i es (length es).
Proof.
  intros (chunks & c & Hl & Hne & ->). exists chunks, c.
  set (d' := fold_left (fun d s => file_fsync (sg_first s) d)
    (filter (fun s => sg_dirty s = true) (w_segments w)) (w_disk w)).
  assert (Ew : w_disk (sync w) = d' /\ w_segments (sync w) = map clean (w_segments w)).
  { unfold sync. destruct (filter _ _); done. }
  destruct Ew as [-> ->]. destruct (fsync_files (filter (fun s => sg_dirty s = true) (w_segments w)) (w_disk w)) as [H1 H2].
  fold d' in H1, H2. clearbody d'.
  assert (Hall : Forall2 (seg_ok (d_files d')) (map clean (w_segments w)) (chunks ++ [c]) /\
    Forall2 (fun s c => exists f, d_files d' !! sg_first s = Some f /\ on_disk f c (length c))
      (map clean (w_segments w)) (chunks ++ [c])).
  { assert (Hsub : forall s, s ∈ w_segments w -> sg_dirty s = true ->
      sg_first s ∈ map sg_first (filter (fun s => sg_dirty s = true) (w_segments w))).
    { intros s Hin Hd. by apply list_elem_of_fmap_2, list_elem_of_filter. }
    clear H2. pose proof (ly_segs _ _ _ _ Hl) as Hs. clear Hl. revert Hsub. generalize (chunks ++ [c]) Hs.
    generalize (filter (fun s => sg_dirty s = true) (w_segments w)) H1. clear. intros ds H1 cs Hs Hsub.
    induction Hs as [|s c segs cs Hs _ IH]; [by split; constructor|].
    destruct IH as [IH1 IH2]; [by intros t Ht; apply Hsub; right|].
    destruct Hs as [A1 A2 A3 A4 A5 A6 (f & m & Hf & Hv & Hp & Hd)].
    assert (Hf' : exists f', d_files d' !! sg_first s = Some f' /\ f_view f' = segment_of c /\ on_disk f' c (length c)).
    { rewrite H1, Hf. cbn [fmap option_fmap option_map]. case_decide as Hin.
      - exists (fsynced f). split_and!; [done|done|]. apply on_disk_full; [|done]. apply (on_disk_synced _ _ _ Hp).
      - exists f. split_and!; [done|done|]. rewrite <- Hd; [done|]. destruct (sg_dirty s) eqn:Es; [|done].
        exfalso. apply Hin, Hsub; [by left|done]. }
    destruct Hf' as (f' & Hf' & Hv' & Ho). split.
    - constructor; [|done]. split; try done. exists f', (length c). by split_and!.
    - constructor; [|done]. by exists f'. }
  destruct Hall as [Ha1 Ha2]. split_and!; [|done|done|by apply durable_all].
  pose proof (ly_starts _ _ _ _ Hl) as Hst.
  assert (Em : map sg_first (map clean (w_segments w)) = map sg_first (w_segments w)) by (by rewrite map_map).
  split; [done|by rewrite Em|apply Hl|]. rewrite H2, Em. apply Hl.
Qed.

(** ** Appending keeps what is durable *)

Lemma durable_app files n a b ca cb : length a = length ca ->
  durable files n (a ++ b) (ca ++ cb) <->
  durable files n a ca /\ durable files (n - length (concat ca)) b cb.
Proof.
  revert n ca. induction a as [|s a IH]; intros n [|c ca] Hl; try done; cbn [app durable concat length].
  { rewrite Nat.sub_0_r. tauto. }
  rewrite (IH (n - length c)%nat ca) by (simpl in Hl; lia). rewrite length_app, Nat.sub_add_distr. tauto.
Qed.

Lemma durable_frame files files' n segs chunks :
  Forall (fun s => files' !! sg_first s = files !! sg_first s) segs ->
  durable files n segs chunks -> durable files' n segs chunks.
Proof.
  revert n chunks. induction segs as [|s segs IH]; intros n [|c chunks] Hf; try done.
  apply Forall_cons in Hf as [Hf1 Hf2]. cbn [durable]. rewrite Hf1. intros [H1 H2]. split; [done|by apply IH].
Qed.

(** A file that gets one more record keeps its durable ones. *)
Lemma write_keeps_on_disk s c e d f m : seg_ok (d_files d) s c ->
  d_files d !! sg_first s = Some f -> on_disk f c m ->
  let '(ok, d') := file_write_at (sg_first s) (sg_size s) (wal_frame (Entry_to_bytes e)) d in
  ok = true -> exists f', d_files d' !! sg_first s = Some f' /\ on_disk f' (c ++ [e]) m.
Proof.
  intros Hs Hf Ho. unfold file_write_at. rewrite (so_size _ _ _ Hs), Nat2Z.id.
  destruct (match d_fate d with [] => true | b :: _ => b end); cbn beta iota; [|done]. intros _.
  cbn [on_files d_files]. rewrite lookup_alter_eq, Hf. eexists. split; [reflexivity|].
  apply on_disk_write; [done|]. destruct (so_file _ _ _ Hs) as (f' & m' & Ef & Ev & _). congruence.
Qed.

(** Opening a segment behind full ones. *)
Lemma open_segment_durable w i chunks n k : 1 <= i ->
  layout (d_files (w_disk w)) i (w_segments w) chunks -> Forall (fun c => c <> []) chunks ->
  k = i + Z.of_nat (length (concat chunks)) -> durable (d_files (w_disk w)) n (w_segments w) chunks ->
  durable (d_files (w_disk (open_segment k w))) n (w_segments (open_segment k w)) (chunks ++ [[]]).
Proof.
  intros Hi Hl Hne Ek Hd.
  assert (Hnew : forall s, s ∈ w_segments w -> sg_first s <> k).
  { intros s Hs E. assert (Hin : k ∈ starts i chunks).
    { rewrite <- (ly_starts _ _ _ _ Hl), <- E. by apply list_elem_of_fmap_2. }
    pose proof (starts_range i chunks Hne) as Hr. rewrite Forall_forall in Hr. apply Hr in Hin. lia. }
  assert (Hother : forall j, j <> k -> d_files (w_disk (open_segment k w)) !! j = d_files (w_disk w) !! j).
  { intros j Hj. unfold open_segment. cbn [with_segments with_disk w_disk file_truncate on_files d_files].
    rewrite lookup_alter_ne by done. unfold file_open. case_match; [done|]. cbn [on_files d_files].
    by rewrite lookup_insert_ne. }
  assert (Hk : exists f, d_files (w_disk (open_segment k w)) !! k = Some f /\ on_disk f [] 0).
  { assert (Hnone : d_files (w_disk w) !! k = None).
    { apply not_elem_of_dom. rewrite (ly_dom _ _ _ _ Hl), elem_of_list_to_set. intros Hin.
      apply list_elem_of_fmap in Hin as (s & E & Hs). by apply (Hnew s). }
    unfold open_segment. cbn [with_segments with_disk w_disk file_truncate on_files d_files].
    unfold file_open. rewrite Hnone. cbn [on_files d_files]. rewrite lookup_alter_eq, lookup_insert_eq.
    eexists. split; [reflexivity|]. split; [done|]. split; [done|]. exists [PTruncate 0]. split; [by right|done]. }
  change (w_segments (open_segment k w)) with (w_segments w ++ [mkSegment k (ssub k 1) 0 [] false]).
  apply durable_app; [by apply (Forall2_length _ _ _ (ly_segs _ _ _ _ Hl))|]. split.
  - apply (durable_frame (d_files (w_disk w))); [|done]. apply Forall_forall. intros s Hs. by apply Hother, Hnew.
  - cbn [durable sg_first]. split; [|done]. destruct Hk as (f & Hf & Ho). exists f, O. split_and!; [done|done|simpl; lia].
Qed.

Lemma append_one_synced w i es n e w' : wal_synced w i es n -> (n <= length es)%nat ->
  0 < segment_bytes (w_opts w) -> record_ok e -> i + Z.of_nat (length es) < U64 ->
  append_one e w = (IoOk, w') -> wal_synced w' i (es ++ [e]) n.
Proof.
  intros Hsy Hn Hp He Hr.
  assert (Hw : wal_holds w i es) by (destruct Hsy as (chunks & c & H1 & H2 & H3 & _); by exists chunks, c).
  destruct (wal_holds_bounds _ _ _ Hw) as (_ & El & Hi & _ & _).
  unfold append_one. rewrite El, wadd64_small by lia.
  destruct (Z.eqb_spec (e_index e) (i + Z.of_nat (length es) - 1 + 1)) as [Ei|]; cbn [negb]; [|done].
  set (w1 := if _ <=? _ then _ else w).
  assert (Hw1 : wal_synced w1 i es n).
  { unfold w1. destruct (Z.leb_spec (segment_bytes (w_opts w)) (match last (w_segments w) with Some s => sg_size s | None => 0 end)) as [Hle|]; [|done].
    destruct (last (w_segments w)) as [s|] eqn:Es; [|lia].
    destruct Hsy as (chunks & c & Hl & Hne & Ees & Hd).
    destruct (layout_split _ _ _ _ _ Hl Hne) as (init & s' & Hsp).
    assert (s' = s) as -> by (rewrite (sl_segs _ _ _ _ _ _ _ Hsp), last_snoc in Es; congruence).
    assert (Hc : c <> []).
    { intros ->. rewrite (so_size _ _ _ (sl_last _ _ _ _ _ _ _ Hsp)) in Hle. change (segment_of []) with (@nil Z) in Hle.
      simpl in Hle. lia. }
    assert (Hall : Forall (fun c => c <> []) (chunks ++ [c])) by (apply Forall_app; split; [done|by constructor]).
    assert (Ecat : concat (chunks ++ [c]) = es) by (rewrite concat_app, Ees; simpl; by rewrite app_nil_r).
    exists (chunks ++ [c]), []. rewrite Ecat, app_nil_r. split_and!; [|done|done|].
    - apply open_segment_layout; try done; [by destruct chunks|rewrite Ecat; lia].
    - apply (open_segment_durable (with_stats count_rollover w) i); try done. rewrite Ecat. lia. }
  clearbody w1. clear Hsy Hw. destruct Hw1 as (chunks & c & Hl & Hne & Ees & Hd).
  destruct (layout_split _ _ _ _ _ Hl Hne) as (init & s & Hs). pose proof (sl_segs _ _ _ _ _ _ _ Hs) as Esegs.
  rewrite Esegs, last_snoc. cbn [with_segments w_disk].
  assert (Hidx : e_index e = sg_first s + Z.of_nat (length c)).
  { rewrite (sl_first _ _ _ _ _ _ _ Hs). rewrite Ees, length_app in Ei. lia. }
  rewrite Esegs in Hd. apply durable_app in Hd as [Hd1 Hd2]; [|by apply (Forall2_length _ _ _ (sl_init _ _ _ _ _ _ _ Hs))].
  cbn [durable] in Hd2. destruct Hd2 as [(f & m & Hf & Ho & Hm) _].
  pose proof (write_record_ok _ s c e (w_disk w1) eq_refl (sl_last _ _ _ _ _ _ _ Hs) He Hidx) as Hwr.
  pose proof (write_keeps_on_disk s c e (w_disk w1) f m (sl_last _ _ _ _ _ _ _ Hs) Hf Ho) as Hwk.
  destruct (file_write_at _ _ _ _) as [ok d']. destruct Hwr as (Hother & Hdom & Hok).
  destruct ok; [|done]. intros [= <-]. destruct (Hwk eq_refl) as (f' & Hf' & Ho').
  exists chunks, (c ++ [e]). cbn [with_segments with_disk with_stats w_segments w_disk d_files].
  rewrite !update_last_snoc. split_and!; [by eapply layout_change_last|done|by rewrite Ees, app_assoc|].
  apply durable_app; [by apply (Forall2_length _ _ _ (sl_init _ _ _ _ _ _ _ Hs))|]. split.
  - apply (durable_frame (d_files (w_disk w1))); [|done]. apply Forall_forall. intros t Ht. apply Hother.
    intros E. apply (sl_fresh _ _ _ _ _ _ _ Hs). rewrite <- E. by apply list_elem_of_fmap_2.
  - split; [|done]. exists f', m. split_and!; [done|done|]. rewrite Ees, length_app in Hn. rewrite length_app. simpl. lia.
Qed.

Lemma append_loop_synced batch w i es n w' : wal_synced w i es n -> (n <= length es)%nat ->
  0 < segment_bytes (w_opts w) -> Forall record_ok batch -> i + Z.of_nat (length es + length batch) < U64 ->
  append_loop batch w = (IoOk, w') -> wal_synced w' i (es ++ batch) n.
Proof.
  intros Hs Hn Hp Hb. revert w es Hs Hn Hp. induction Hb as [|e batch He Hb IH]; intros w es Hs Hn Hp Hr; cbn [append_loop].
  { intros [= <-]. by rewrite app_nil_r. }
  simpl in Hr. assert (Hw : wal_holds w i es) by (destruct Hs as (chunks & c & H1 & H2 & H3 & _); by exists chunks, c).
  destruct (append_one_spec w i es e Hw Hp He) as (Eo & _); [lia|].
  destruct (append_one e w) as [r w1] eqn:E1. destruct r; try done. intros Hl.
  pose proof (append_one_synced w i es n e w1 Hs Hn Hp He ltac:(lia) E1) as Hs1.
  replace (es ++ e :: batch) with ((es ++ [e]) ++ batch) by (by rewrite <- app_assoc).
  apply (IH w1 (es ++ [e]) Hs1); rewrite ?length_app; simpl in *; [lia|by rewrite Eo|lia|done].
Qed.

(** [sync] is a durability barrier for the whole log. Afterwards the log
    holds the same entries, in however many segments they were written, and all
    of them are durable; and they stay so while more is appended after them. *)
Theorem sync_makes_durable w i es :
  wal_holds w i es ->
  wal_synced (sync w) i es (length es) /\
  forall batch w', 0 < segment_bytes (w_opts w) -> Forall record_ok batch ->
    i + Z.of_nat (length es + length batch) < U64 -> append batch (sync w) = (IoOk, w') ->
    wal_synced w' i (es ++ batch) (length es).
Proof.
  intros Hw. pose proof (sync_synced w i es Hw) as Hs. split; [done|]. intros batch w' Hp Hb Hr Ha.
  assert (Hp' : 0 < segment_bytes (w_opts (sync w))).
  { unfold sync. by destruct (filter _ _). }
  unfold append in Ha. destruct batch as [|e batch]; [injection Ha as <-; by rewrite app_nil_r|].
  destruct (append_inner (e :: batch) (sync w)) as [r w1] eqn:E1. destruct r; [|done..]. injection Ha as <-.
  by apply (append_loop_synced (e :: batch) (with_stats count_append (sync w))).
Qed.

(** ** Concrete logs *)

Definition demo_wal (limit : Z) : Wal :=
  open_segment 1 (mkWal (mkWalOptions limit 0) [] 0 0 0 WalStats_default (mkDisk ∅ [])).

Lemma demo_wal_holds limit : wal_holds (demo_wal limit) 1 [].
Proof.
  exists [], []. split_and!; [|constructor|done]. unfold demo_wal.
  apply open_segment_layout; try done; lia.
Qed.

Definition demo_entries : list Entry := [demo_entry 1 1; demo_entry 1 2; demo_entry 2 3].

(** Three entries in three segments, none of them synced. *)
Definition demo_full : Wal := (append_loop demo_entries (demo_wal 1)).2.

Lemma demo_full_holds : wal_holds demo_full 1 demo_entries.
Proof.
  assert (Hok : Forall record_ok demo_entries) by by_decide.
  pose proof (append_loop_accepted demo_entries (demo_wal 1) 1 [] (demo_wal_holds 1) ltac:(done) Hok ltac:(by_decide)
    ltac:(by_decide) eq_refl) as Hacc.
  destruct (append_loop_spec demo_entries (demo_wal 1) 1 [] (demo_wal_holds 1) ltac:(done) Hok ltac:(by_decide))
    as (_ & [(_ & H)|(x & E & _)]); [exact H|]. rewrite Hacc in E. done.
Qed.

Lemma append_all_or_nothing_witness :
  let '(r, w') := append demo_entries (demo_wal 1) in
  ((r = IoOk /\ wal_holds w' 1 ([] ++ demo_entries)) \/ (exists x, r = IoErr x /\ wal_holds w' 1 [])) /\
  (contiguous_from (1 + Z.of_nat (length (@nil Entry))) demo_entries ->
    r <> IoErr NonContiguous /\ (d_fate (w_disk (demo_wal 1)) = [] -> r = IoOk)).
Proof.
  exact (append_all_or_nothing (demo_wal 1) 1 [] demo_entries (demo_wal_holds 1) ltac:(by_decide)
    ltac:(by_decide) ltac:(by_decide)).
Defined.

Lemma truncate_from_keeps_the_prefix_witness :
  wal_holds (truncate_from 3 demo_full) (if decide (3 <= 1) then Z.max 1 3 else 1)
    (filter (fun e => e_index e < 3) demo_entries).
Proof.
  exact (truncate_from_keeps_the_prefix demo_full 1 demo_entries 3 demo_full_holds ltac:(by_decide) ltac:(by_decide)).
Defined.

Lemma compact_through_drops_history_witness :
  let w' := compact_through 3 demo_full in
  exists i', 1 <= i' <= Z.max 1 3 /\
    wal_holds w' i' (filter (fun e => i' <= e_index e) demo_entries) /\ Wal_last_index w' = Wal_last_index demo_full /\
    (1 < i' -> compact_slack_bytes (w_opts demo_full) <= Wal_total_bytes (w_segments w')).
Proof. exact (compact_through_drops_history demo_full 1 demo_entries 3 demo_full_holds). Defined.

Lemma read_gives_back_witness :
  read 2 demo_full = (if decide (1 <= 2) then demo_entries !! Z.to_nat (2 - 1) else None).
Proof. exact (read_gives_back demo_full 1 demo_entries 2 demo_full_holds). Defined.

Lemma sync_makes_durable_witness :
  wal_synced (sync demo_full) 1 demo_entries (length demo_entries) /\
  forall batch w', 0 < segment_bytes (w_opts demo_full) -> Forall record_ok batch ->
    1 + Z.of_nat (length demo_entries + length batch) < U64 -> append batch (sync demo_full) = (IoOk, w') ->
    wal_synced w' 1 (demo_entries ++ batch) (length demo_entries).
Proof. exact (sync_makes_durable demo_full 1 demo_entries demo_full_holds). Defined.
