(* ===== verification/WalRecovery.v ===== *)
(** * Recovery of the write-ahead log after a crash: [crates/chronolog/src/wal.rs]

    The theorems about [open] on what [power_loss] leaves. Every write since the
    last sync of its file is lost, torn or kept, each on its own, and a write that
    lands after one that did not leaves zeros between. Recovery gives back a prefix
    of the log that has everything synced; one case in which it does not is shown
    at the end. *)

From Stdlib Require Import ZArith Lia.
From stdpp Require Import base tactics list list_numbers gmap sets sorting.
From S2P Require Import Prelude Codec Types RaftLog Client Msg Wal WalState WalSegments.

Open Scope Z_scope.

(** ** Recovery after a crash *)

Lemma segment_take_length n m c : (n <= m)%nat ->
  (length (segment_of (take n c)) <= length (segment_of (take m c)))%nat.
Proof.
  intros H. rewrite <- (take_drop n (take m c)), take_take, Nat.min_l by done.
  rewrite segment_of_app, length_app. lia.
Qed.

(** Bytes at which the scan stops, whatever it expects, and says why. *)
Definition stops (u : Bytes) : Prop :=
  forall fuel pos expected acc, exists reason,
    reason <> Clean /\ scan_loop (S fuel) u pos expected acc = Some (acc, reason, pos).

(** The bytes [p] read as the first [m] records of [c]: these records, and then
    nothing, or something the scan stops at. *)
Definition reads_as (c : list Entry) (m : nat) (p : Bytes) : Prop :=
  (m <= length c)%nat /\
  exists u, p = segment_of (take m c) ++ u /\ (u = [] \/ (m < length c)%nat /\ stops u).

(** What the scan of such bytes returns. *)
Lemma scan_prefix p c m first prev : reads_as c m p -> Forall record_ok c ->
  contiguous_from first c -> 0 <= first -> first + Z.of_nat (length c) < U64 ->
  match prev with Some i => i +64 1 | None => first end = first ->
  exists reason,
    scan_segment p first prev = Some (take m c, reason, length (segment_of (take m c))) /\
    segment_of (take m c) `prefix_of` p /\ (reason = Clean -> p = segment_of (take m c)) /\
    (m = length c -> reason = Clean).
Proof.
  intros (Hm & u & -> & Hu) Hr Hc Hf Hb He.
  destruct (scan_segment_records (take m c) u first prev) as [fuel Ef];
    [by apply Forall_take|by apply contiguous_take|done|rewrite length_take; lia|done|].
  destruct Hu as [->|[Hlt Hu]].
  - exists Clean. rewrite app_nil_r in *. by split_and!.
  - destruct (Hu fuel (length (segment_of (take m c))) (first + Z.of_nat (length (take m c))) (take m c))
      as (reason & Hne & Es).
    exists reason. rewrite Ef, Es. split_and!; [done|by eexists|done|lia].
Qed.

(** A segment as a crash left it: bytes that read as some of its records, the
    first [n] among them. *)
Fixpoint torn_segments (files : gmap Index FileState) (n : nat) (names : list Index) (chunks : list (list Entry)) : Prop :=
  match names, chunks with
  | name :: names, c :: chunks =>
      (exists p m, files !! name = Some (mkFile p p []) /\ reads_as c m p /\ (n `min` length c <= m)%nat) /\
      torn_segments files (n - length c) names chunks
  | [], [] => True
  | _, _ => False
  end.

Lemma torn_segments_frame files files' n names chunks :
  (forall j, j ∈ names -> files' !! j = files !! j) ->
  torn_segments files n names chunks -> torn_segments files' n names chunks.
Proof.
  revert n chunks. induction names as [|name names IH]; intros n [|c chunks] Hf; try done.
  cbn [torn_segments]. intros [(p & m & E & Hp) Ht]. split; [|apply IH; [set_solver|done]].
  exists p, m. split; [|done]. rewrite Hf; [done|by left].
Qed.

Lemma remove_opened_other name d j : j <> name ->
  d_files (file_remove name (file_open name d)) !! j = d_files d !! j.
Proof.
  intros Hj. unfold file_remove, file_open, on_files. cbn [d_files]. rewrite lookup_delete_ne by done.
  case_match; [done|]. cbn [d_files]. by rewrite lookup_insert_ne.
Qed.

Lemma remove_opened_dom name d : dom (d_files (file_remove name (file_open name d))) = dom (d_files d) ∖ {[name]}.
Proof.
  unfold file_remove, file_open, on_files. cbn [d_files]. rewrite dom_delete_L.
  destruct (d_files d !! name); [done|]. cbn [d_files]. rewrite dom_insert_L. set_solver.
Qed.

(** Once the tail is broken, every later segment is removed. *)
Lemma open_rest names st : og_tail st <> Clean ->
  let o := fold_left open_one names st in
  og_segments o = og_segments st /\ og_entries o = og_entries st /\
  (forall j, j ∉ names -> d_files (og_disk o) !! j = d_files (og_disk st) !! j) /\
  dom (d_files (og_disk o)) = dom (d_files (og_disk st)) ∖ list_to_set names.
Proof.
  revert st. induction names as [|name names IH]; intros [segs es tl tr d] Ht; cbn [fold_left].
  { split_and!; [done..|set_solver]. }
  assert (E : open_one (mkOpening segs es tl tr d) name =
    mkOpening segs es tl tr (file_remove name (file_open name d))).
  { unfold open_one. by destruct tl. }
  rewrite E. destruct (IH (mkOpening segs es tl tr (file_remove name (file_open name d))) Ht) as (E1 & E2 & E3 & E4).
  cbv zeta. rewrite E1, E2. split_and!; [done|done| |].
  - intros j Hj. apply not_elem_of_cons in Hj as [Hj1 Hj2]. rewrite E3 by done. by apply remove_opened_other.
  - rewrite E4. cbn [og_disk]. rewrite remove_opened_dom. set_solver.
Qed.

(** Opening one segment whose entries continue those read so far. *)
Lemma open_one_step segs es tr d i name c p m :
  contiguous_from i es -> name = i + Z.of_nat (length es) -> contiguous_from name c -> Forall record_ok c ->
  1 <= i -> i + Z.of_nat (length es) + Z.of_nat (length c) < U64 ->
  d_files d !! name = Some (mkFile p p []) -> reads_as c m p ->
  exists seg st, open_one (mkOpening segs es Clean tr d) name = st /\
    og_segments st = segs ++ [seg] /\ og_entries st = es ++ take m c /\ sg_first seg = name /\
    seg_ok (d_files (og_disk st)) seg (take m c) /\
    (forall j, j <> name -> d_files (og_disk st) !! j = d_files d !! j) /\
    dom (d_files (og_disk st)) = dom (d_files d) /\
    (m = length c -> og_tail st = Clean).
Proof.
  intros Hc En Hcc Hr Hi Hb Hf Hp.
  assert (Hexp : match e_index <$> last es with Some i => i +64 1 | None => name end = name).
  { destruct (last es) as [e|] eqn:El; [|done]. simpl. rewrite (contiguous_last _ _ _ Hc El), wadd64_small by lia. lia. }
  pose proof (proj1 Hp) as Hm.
  destruct (scan_prefix p c m name (e_index <$> last es) Hp Hr Hcc) as (reason & Hs & Hpre & Hcl & Hall);
    [lia|lia|done|].
  unfold open_one. cbn [TailReason_is_clean negb]. unfold file_open. rewrite Hf.
  assert (Hexp' : match last es with Some e => e_index e +64 1 | None => name end = name) by by destruct (last es).
  rewrite Hexp', Z.eqb_refl. cbn [negb andb]. unfold file_view. rewrite Hf. cbn [f_view]. rewrite Hs. cbn [from_option id]. cbv beta iota zeta.
  set (seg := mkSegment name (match last (take m c) with Some e => e_index e | None => ssub name 1 end)
    (Z.of_nat (length (segment_of (take m c)))) (offsets_of 0 (take m c)) false).
  assert (Hseg : forall files, files !! name = Some (mkFile (segment_of (take m c)) (segment_of (take m c)) []) ->
    seg_ok files seg (take m c)).
  { intros files Ef. unfold seg. split; cbn [sg_first sg_last sg_size sg_offsets sg_dirty].
    - lia.
    - by apply contiguous_take.
    - by apply Forall_take.
    - destruct (last (take m c)) as [e|] eqn:El.
      + by rewrite (contiguous_last name _ _ (contiguous_take _ _ _ Hcc) El).
      + apply last_None in El. rewrite El. unfold ssub. simpl. lia.
    - done.
    - done.
    - eexists _, (length (take m c)). split_and!; [done|done|by apply on_disk_full|done]. }
  exists seg. destruct (TailReason_is_clean reason) eqn:Ecl; cbn [negb]; eexists; (split; [reflexivity|]);
    cbn [og_segments og_entries og_disk og_tail]; (split; [done|]); (split; [done|]); (split; [done|]).
  - assert (reason = Clean) as -> by by destruct reason. split_and!; try done. apply Hseg. rewrite Hf. by rewrite (Hcl eq_refl).
  - unfold file_fsync, file_truncate, on_files. cbn [d_files]. split_and!; try done.
    + apply Hseg. rewrite !lookup_alter_eq, Hf.
      cbn [fmap option_fmap option_map file_op f_view f_durable f_pending app fold_left apply_pending].
      rewrite Nat2Z.id. destruct Hpre as [rest ->]. by rewrite take_app_length.
    + intros j Hj. by rewrite !lookup_alter_ne by done.
    + by rewrite !dom_alter_L.
Qed.

(** The segments and entries an interrupted scan has accepted so far. *)
Record opened (d : Disk) (i : Index) (segs : list Segment) (chunks : list (list Entry)) (names : list Index) : Prop := {
  op_segs : Forall2 (seg_ok (d_files d)) segs chunks;
  op_starts : map sg_first segs = starts i chunks;
  op_full : Forall (fun c => c <> []) chunks;
  op_dom : dom (d_files d) = list_to_set (map sg_first segs ++ names);
  op_fresh : forall j, j ∈ map sg_first segs -> j ∉ names;
  op_NoDup : NoDup names
}.

Lemma opened_entries d i segs chunks names : opened d i segs chunks names ->
  contiguous_from i (concat chunks) /\ Forall record_ok (concat chunks).
Proof.
  intros [H1 H2 _ _ _ _]. revert i H2. induction H1 as [|s c segs chunks Hs _ IH]; intros i H2; simpl.
  { split; [apply contiguous_nil|constructor]. }
  simpl in H2. injection H2 as E H2. destruct (IH _ H2) as [IH1 IH2]. destruct Hs. split.
  - apply contiguous_app. by rewrite <- E in *.
  - by apply Forall_app.
Qed.

(** A segment that does not continue the entries read so far is removed. *)
Lemma open_gap st i next : contiguous_from i (og_entries st) -> og_entries st <> [] -> og_tail st = Clean ->
  1 <= i -> i + Z.of_nat (length (og_entries st)) < U64 -> next <> i + Z.of_nat (length (og_entries st)) ->
  exists e f, open_one st next =
    mkOpening (og_segments st) (og_entries st) (IndexGap e f) (og_truncated st)
      (file_remove next (file_open next (og_disk st))).
Proof.
  destruct st as [ss es tl tr dd]; cbn [og_segments og_entries og_tail og_truncated og_disk].
  intros Hc Hne -> Hi Hb Hnext. unfold open_one. cbn [TailReason_is_clean negb].
  destruct es as [|e es _] using rev_ind; [done|]. rewrite last_snoc.
  rewrite (contiguous_last i _ e Hc) by apply last_snoc. rewrite wadd64_small by lia.
  rewrite (proj2 (Z.eqb_neq _ _)) by lia. rewrite length_app. cbn [length].
  rewrite (proj2 (Nat.eqb_neq _ _)) by lia. by eexists _, _.
Qed.

(** Where the loop stops accepting: no segment is left, the tail is broken, or
    the next segment leaves a hole. *)
Definition stops_at (i : Index) (names : list Index) (st : Opening) : Prop :=
  names = [] \/ og_tail st <> Clean \/
  exists next names', names = next :: names' /\ og_entries st <> [] /\
    next <> i + Z.of_nat (length (og_entries st)) /\ i + Z.of_nat (length (og_entries st)) < U64.

Lemma open_stop i names st : stops_at i names st -> contiguous_from i (og_entries st) -> 1 <= i ->
  let o := fold_left open_one names st in
  og_segments o = og_segments st /\ og_entries o = og_entries st /\
  (forall j, j ∉ names -> d_files (og_disk o) !! j = d_files (og_disk st) !! j) /\
  dom (d_files (og_disk o)) = dom (d_files (og_disk st)) ∖ list_to_set names.
Proof.
  intros Hstop Hc Hi. cbv zeta. destruct (TailReason_eq_dec (og_tail st) Clean) as [Ht|Ht]; [|by apply open_rest].
  destruct Hstop as [->|[|(next & names' & -> & Hne & Hnext & Hb)]]; [|done|].
  { cbn [fold_left]. split_and!; [done..|set_solver]. }
  cbn [fold_left]. destruct (open_gap st i next Hc Hne Ht Hi Hb Hnext) as (ge & gf & ->).
  destruct (open_rest names' (mkOpening (og_segments st) (og_entries st) (IndexGap ge gf) (og_truncated st)
    (file_remove next (file_open next (og_disk st)))) ltac:(done)) as (E1 & E2 & E3 & E4).
  rewrite E1, E2. split_and!; [done|done| |].
  - intros j Hj. apply not_elem_of_cons in Hj as [Hj1 Hj2]. rewrite E3 by done. by apply remove_opened_other.
  - rewrite E4. cbn [og_disk]. rewrite remove_opened_dom. set_solver.
Qed.

(** What opening leaves, when it accepts [segs] and a last segment and then
    stops: everything after is removed. *)
Lemma opened_last d i segs chunks name names st seg c :
  opened d i segs chunks (name :: names) -> 1 <= i ->
  og_segments st = segs ++ [seg] -> og_entries st = concat chunks ++ c -> sg_first seg = name ->
  name = i + Z.of_nat (length (concat chunks)) -> seg_ok (d_files (og_disk st)) seg c ->
  (forall j, j <> name -> d_files (og_disk st) !! j = d_files d !! j) ->
  dom (d_files (og_disk st)) = dom (d_files d) -> stops_at i names st ->
  let o := fold_left open_one names st in
  og_entries o = concat chunks ++ c /\ layout (d_files (og_disk o)) i (og_segments o) (chunks ++ [c]).
Proof.
  intros Hop Hi Es Ee En Ename Hok Hother Hdom Hstop. cbv zeta.
  assert (Hc : contiguous_from i (og_entries st)).
  { rewrite Ee. apply contiguous_app. split; [apply (opened_entries _ _ _ _ _ Hop)|]. rewrite <- Ename, <- En. apply Hok. }
  destruct (open_stop i names st Hstop Hc Hi) as (E1 & E2 & E3 & E4).
  destruct Hop as [H1 H2 H3 H4 H5 H6]. apply NoDup_cons in H6 as [Hnn H6].
  rewrite E1, E2, Es, Ee. split; [done|]. split; [| |done|].
  - apply Forall2_app.
    + apply (segs_ok_frame (d_files d)); [|done]. apply Forall_forall. intros s Hs.
      assert (Hin : sg_first s ∈ map sg_first segs) by by apply list_elem_of_fmap_2.
      specialize (H5 _ Hin). apply not_elem_of_cons in H5 as [Hj1 Hj2]. by rewrite E3, Hother by done.
    + constructor; [|constructor]. apply (seg_ok_frame (d_files (og_disk st))); [|done]. rewrite En. by apply E3.
  - rewrite map_app, starts_app, H2. simpl. by rewrite En, Ename.
  - rewrite E4, Hdom, H4, map_app. simpl. rewrite En, !list_to_set_app_L. simpl.
    assert (forall j, j ∈ map sg_first segs -> j ∉ names) by (intros j Hj; specialize (H5 j Hj); set_solver). set_solver.
Qed.

Lemma opened_layout d i segs chunks c : opened d i segs (chunks ++ [c]) [] -> 1 <= i ->
  layout (d_files d) i segs (chunks ++ [c]).
Proof. intros [H1 H2 _ H4 _ _] Hi. split; try done. by rewrite H4, app_nil_r. Qed.

(** A segment recovered whole joins the ones before it. *)
Lemma opened_next d i segs chunks name names c st seg :
  opened d i segs chunks (name :: names) -> og_segments st = segs ++ [seg] -> sg_first seg = name ->
  name = i + Z.of_nat (length (concat chunks)) -> seg_ok (d_files (og_disk st)) seg c -> c <> [] ->
  (forall j, j <> name -> d_files (og_disk st) !! j = d_files d !! j) ->
  dom (d_files (og_disk st)) = dom (d_files d) ->
  opened (og_disk st) i (segs ++ [seg]) (chunks ++ [c]) names.
Proof.
  intros [H1 H2 H3 H4 H5 H6] Es En Ename Hok Hc Hother Hdom. apply NoDup_cons in H6 as [Hnn H6]. split.
  - apply Forall2_app; [|by constructor]. apply (segs_ok_frame (d_files d)); [|done]. apply Forall_forall.
    intros s Hs. apply Hother. intros E. apply (H5 (sg_first s)); [by apply list_elem_of_fmap_2|]. rewrite E. by left.
  - rewrite map_app, starts_app, H2. simpl. by rewrite En, Ename.
  - apply Forall_app. by split; [|constructor].
  - rewrite Hdom, H4, map_app. simpl. rewrite En, <- app_assoc. done.
  - intros j Hj. rewrite map_app in Hj. apply elem_of_app in Hj as [Hj|Hj].
    + specialize (H5 j Hj). by apply not_elem_of_cons in H5 as [_ ?].
    + simpl in Hj. apply list_elem_of_singleton in Hj as ->. by rewrite En.
  - done.
Qed.

(** The loop of [open] over what a crash left. *)
Lemma open_loop names rchunks n d i segs chunks tr :
  opened d i segs chunks names -> 1 <= i -> torn_segments (d_files d) n names rchunks ->
  names = starts (i + Z.of_nat (length (concat chunks))) rchunks ->
  Forall (fun c => c <> []) (removelast rchunks) ->
  contiguous_from (i + Z.of_nat (length (concat chunks))) (concat rchunks) -> Forall record_ok (concat rchunks) ->
  i + Z.of_nat (length (concat chunks) + length (concat rchunks)) < U64 ->
  (names <> [] \/ segs <> []) -> (segs = [] -> (1 <= n)%nat \/ (length names <= 1)%nat) ->
  let o := fold_left open_one names (mkOpening segs (concat chunks) Clean tr d) in
  let all := concat chunks ++ concat rchunks in
  exists ochunks oc m, layout (d_files (og_disk o)) i (og_segments o) (ochunks ++ [oc]) /\
    Forall (fun c => c <> []) ochunks /\ og_entries o = concat ochunks ++ oc /\ og_entries o = take m all /\
    ((length (concat chunks) + n) `min` length all <= m)%nat.
Proof.
  cbv zeta. revert rchunks n d segs chunks tr.
  induction names as [|name names IH]; intros rchunks n d segs chunks tr Hop Hi Ht En Hne Hc Hr Hb Hsome Hfirst.
  { destruct rchunks as [|c rc]; [|done]. destruct (destruct_last chunks) as [->|(ochunks & oc & ->)].
    { destruct Hop as [H1 _ _ _ _ _]. apply Forall2_nil_inv_r in H1 as ->. by destruct Hsome. }
    exists ochunks, oc, (length (concat (ochunks ++ [oc]))). cbn [fold_left og_disk og_segments og_entries].
    rewrite app_nil_r, firstn_all. split_and!; [by apply opened_layout| | |done|lia].
    - pose proof (op_full _ _ _ _ _ Hop) as H. by apply Forall_app in H as [? _].
    - rewrite concat_app. simpl. by rewrite app_nil_r. }
  destruct rchunks as [|c rc]; [done|]. cbn [starts torn_segments] in Ht, En. injection En as En En'.
  destruct Ht as [(p & m & Hf & Hp & Hbd) Ht]. pose proof (proj1 Hp) as Hm. cbn [concat] in Hc, Hr, Hb.
  apply contiguous_app in Hc as [Hc1 Hc2]. apply Forall_app in Hr as [Hr1 Hr2]. rewrite length_app in Hb.
  destruct (opened_entries _ _ _ _ _ Hop) as [Hes _].
  destruct (open_one_step segs (concat chunks) tr d i name c p m Hes En) as
    (seg & st & Est & Es & Ee & Eseg & Hok & Hother & Hdom & Hwhole); try done; [by rewrite En|lia|].
  cbn [fold_left]. rewrite Est.
  (* the scan stops here *)
  assert (Hstop : stops_at i names st -> (m = length c -> rc = []) ->
    exists ochunks oc m', layout (d_files (og_disk (fold_left open_one names st))) i
        (og_segments (fold_left open_one names st)) (ochunks ++ [oc]) /\
      Forall (fun c => c <> []) ochunks /\ og_entries (fold_left open_one names st) = concat ochunks ++ oc /\
      og_entries (fold_left open_one names st) = take m' (concat chunks ++ c ++ concat rc) /\
      ((length (concat chunks) + n) `min` length (concat chunks ++ c ++ concat rc) <= m')%nat).
  { intros Hstop Hall. destruct (opened_last d i segs chunks name names st seg (take m c)) as [E1 E2]; try done.
    exists chunks, (take m c), (length (concat chunks) + m)%nat. split_and!; [done|apply Hop|done| |].
    - rewrite E1. rewrite take_app_ge by lia. f_equal. rewrite take_app_le by lia. f_equal. lia.
    - rewrite !length_app. destruct (Nat.eq_dec m (length c)) as [E|]; [|lia]. rewrite (Hall E). simpl. lia. }
  cbn [concat]. destruct rc as [|c2 rc].
  { destruct names; [|done]. apply Hstop; [by left|done]. }
  assert (Hcne : c <> [] /\ Forall (fun c => c <> []) (removelast (c2 :: rc))).
  { change (removelast (c :: c2 :: rc)) with (c :: removelast (c2 :: rc)) in Hne. by apply Forall_cons in Hne. }
  destruct Hcne as [Hcne Hne']. destruct names as [|next names]; [done|].
  destruct (Nat.eq_dec m (length c)) as [Em|Hlt].
  - (* recovered whole *)
    rewrite Em, firstn_all in Ee, Hok. specialize (Hwhole Em).
    pose proof (opened_next _ _ _ _ _ _ c st seg Hop Es Eseg En Hok Hcne Hother Hdom) as Hop'.
    assert (Ecat : concat (chunks ++ [c]) = concat chunks ++ c) by (rewrite concat_app; simpl; by rewrite app_nil_r).
    destruct st as [ss es tl tr' d']. cbn [og_segments og_entries og_disk og_tail] in *. subst ss es tl.
    rewrite <- Ecat. destruct (IH (c2 :: rc) (n - length c)%nat d' (segs ++ [seg]) (chunks ++ [c]) tr' Hop') as
      (ochunks & oc & m' & A1 & A2 & A3 & A4 & A5); try done; rewrite ?Ecat, ?length_app.
    + eapply torn_segments_frame; [|exact Ht]. intros j Hj. apply Hother. intros ->.
      pose proof (op_NoDup _ _ _ _ _ Hop) as Hnd. by apply NoDup_cons in Hnd as [? _].
    + rewrite En'. f_equal. lia.
    + by rewrite Nat2Z.inj_add, Z.add_assoc.
    + lia.
    + by left.
    + intros E. by destruct segs.
    + rewrite Ecat in A1, A3, A4, A5. rewrite <- app_assoc in A4, A5.
      exists ochunks, oc, m'. split_and!; [done..|]. etrans; [|exact A5]. rewrite !length_app. lia.
  - (* a hole follows *)
    apply Hstop; [|lia]. right. right. exists next, names. injection En' as -> _. rewrite Ee, length_app, length_take.
    split_and!; [done| |lia|lia]. intros E. apply app_nil in E as [E1 E2].
    destruct chunks as [|c0 chunks].
    + assert (segs = []) as -> by (by apply (Forall2_nil_inv_r _ _ (op_segs _ _ _ _ _ Hop))).
      apply (f_equal (@length _)) in E2. rewrite length_take in E2. simpl in E2.
      assert (0 < length c)%nat by (destruct c; [done|simpl; lia]). destruct (Hfirst eq_refl) as [|Hx]; [lia|]. simpl in Hx. lia.
    + pose proof (op_full _ _ _ _ _ Hop) as Hfull. inversion Hfull; subst. by destruct c0.
Qed.


(** ** What a crash makes of a record *)

(** A record torn after [k] bytes, with what follows it on the disk: zeros up to
    where the next write landed. *)
Definition zero_filled (e : Entry) (k : nat) : Bytes :=
  take k (record_of e) ++ replicate (length (record_of e) - k) 0.

(** The assumption under which a checksum tells a torn record: wherever it is
    torn, the zero-filled record is the record itself, or has no length, or does
    not match its checksum. *)
Definition torn_detected (e : Entry) : Prop :=
  Forall (fun k =>
    let b := zero_filled e k in
    b = record_of e \/ le_value (sub b 0 4) = 0 \/
    crc32c (sub b HEADER (Z.to_nat (le_value (sub b 0 4)))) <> le_value (sub b 4 4))
    (seq 1 (length (record_of e) - 1)).

#[export] Instance torn_detected_dec e : Decision (torn_detected e).
Proof. unfold torn_detected. apply _. Defined.

Lemma le_value_zeros n : le_value (replicate n 0) = 0.
Proof. induction n as [|n IH]; simpl; [done|]. by rewrite IH. Qed.

Lemma le_value_zero_fill k l n : Forall is_u8 l -> 0 <= le_value (take k l ++ replicate n 0) <= le_value l.
Proof.
  intros H. revert k. induction H as [|b l Hb Hl IH]; intros [|k]; cbn [take app].
  - rewrite le_value_zeros. simpl. lia.
  - rewrite le_value_zeros. simpl. lia.
  - rewrite le_value_zeros. pose proof (le_value_range (b :: l) (Forall_cons_2 _ _ _ Hb Hl)). lia.
  - specialize (IH k). unfold is_u8 in Hb. simpl. lia.
Qed.

Lemma sub_in_front (a b : Bytes) x n : (x + n <= length a)%nat -> sub (a ++ b) x n = sub a x n.
Proof. intros H. rewrite <- (firstn_all a) at 1. by apply sub_take. Qed.

Lemma zero_filled_length e k : (k <= length (record_of e))%nat -> length (zero_filled e k) = length (record_of e).
Proof. intros H. unfold zero_filled. rewrite length_app, length_take, length_replicate. lia. Qed.

(** The length field of a zero-filled record is at most the record's. *)
Lemma zero_filled_len e k : record_ok e -> (k <= length (record_of e))%nat ->
  0 <= le_value (sub (zero_filled e k) 0 4) <= Z.of_nat (length (Entry_to_bytes e)).
Proof.
  intros [_ Hb] Hk. pose proof (body_len _ Hb) as El. rewrite <- El.
  assert (E : sub (zero_filled e k) 0 4 =
    take k (le_bytes 4 (len_u32 (Entry_to_bytes e))) ++ replicate (4 - k) 0).
  { unfold sub, zero_filled, record_of, wal_frame. rewrite drop_0.
    set (lb := le_bytes 4 (len_u32 (Entry_to_bytes e))). assert (Hlb : length lb = 4%nat) by apply le_bytes_length.
    destruct (Nat.le_gt_cases 4 k) as [H4|H4].
    - replace (4 - k)%nat with O by lia. rewrite app_nil_r, (firstn_all2 lb) by lia.
      rewrite take_app_le by (rewrite length_take, !length_app, Hlb; lia). rewrite take_take, Nat.min_l by lia.
      by apply take_app_length'.
    - rewrite (take_app_le lb) by lia. rewrite take_app, length_take, take_take, Nat.min_r, (Nat.min_l k) by lia.
      f_equal. rewrite take_replicate, Nat.min_l; [done|]. rewrite !length_app, Hlb, le_bytes_length. lia. }
  rewrite E. apply le_value_zero_fill, le_bytes_u8.
Qed.

Lemma stops_torn e k : record_ok e -> (0 < k < length (record_of e))%nat -> stops (take k (record_of e)).
Proof.
  intros He Hk fuel pos expected acc. exists (torn_tail k). split.
  - unfold torn_tail. rewrite decide_False by lia. by case_decide.
  - apply scan_torn; [done|lia].
Qed.

Lemma stops_zero_filled e k rest : record_ok e -> torn_detected e -> (k < length (record_of e))%nat ->
  zero_filled e k <> record_of e -> stops (zero_filled e k ++ rest).
Proof.
  intros He Ht Hk Hne fuel pos expected acc. pose proof (zero_filled_length e k ltac:(lia)) as Hl.
  pose proof (zero_filled_len e k He ltac:(lia)) as Hlen.
  assert (Hrec : length (record_of e) = (HEADER + length (Entry_to_bytes e))%nat) by apply wal_frame_length.
  assert (Hbad : le_value (sub (zero_filled e k) 0 4) = 0 \/
    crc32c (sub (zero_filled e k) HEADER (Z.to_nat (le_value (sub (zero_filled e k) 0 4)))) <>
      le_value (sub (zero_filled e k) 4 4)).
  { destruct (decide (k = 0%nat)) as [->|Hk0].
    - left. unfold zero_filled, sub. simpl take at 2. rewrite drop_0. cbn [app].
      rewrite take_replicate. apply le_value_zeros.
    - unfold torn_detected in Ht. rewrite Forall_forall in Ht.
      destruct (Ht k) as [|Hor]; [apply elem_of_seq; lia|done|exact Hor]. }
  set (b := zero_filled e k) in *. clearbody b. unfold HEADER in Hrec.
  cbn [scan_loop]. rewrite length_app.
  rewrite (proj2 (Nat.eqb_neq _ _)), (proj2 (Nat.ltb_ge _ _)) by (unfold HEADER; lia). cbv zeta.
  rewrite (sub_in_front b rest 0 4), (sub_in_front b rest 4 4) by lia.
  set (len := le_value (sub b 0 4)) in *.
  destruct He as [_ [_ Hmax]]. destruct (Z.eqb_spec len 0) as [E0|Hn0]; [by exists TailBadLength|].
  rewrite (proj2 (Z.ltb_ge _ _)) by lia. cbn [orb]. rewrite (proj2 (Nat.ltb_ge _ _)) by (unfold HEADER; lia).
  rewrite (sub_in_front b rest HEADER) by (unfold HEADER; lia).
  destruct Hbad as [|Hcrc]; [done|]. rewrite (proj2 (Z.eqb_neq _ _)) by done. by exists TailBadChecksum.
Qed.

(** Offset of record [j] of a segment. *)
Definition offset (c : list Entry) (j : nat) : nat := length (segment_of (take j c)).

Lemma offset_S c j e : c !! j = Some e -> offset c (S j) = (offset c j + length (record_of e))%nat.
Proof. intros He. unfold offset. rewrite (take_S_r c j e He), segment_of_app, segment_of_one, length_app. done. Qed.

Lemma offset_mono c i j : (i <= j)%nat -> (offset c i <= offset c j)%nat.
Proof. apply segment_take_length. Qed.

Lemma record_nonempty e : (0 < length (record_of e))%nat.
Proof. unfold record_of. rewrite wal_frame_length. unfold HEADER. lia. Qed.

(** The shapes a crash can leave: the first [m] records; and then nothing, a
    prefix of the next one, or that record torn and zero-filled with more after. *)
Definition shape (c : list Entry) (m : nat) (b : Bytes) : Prop :=
  (m <= length c)%nat /\ exists u, b = segment_of (take m c) ++ u /\
  (u = [] \/
   (exists e k, c !! m = Some e /\ (0 < k < length (record_of e))%nat /\ u = take k (record_of e)) \/
   (exists e k rest, c !! m = Some e /\ (k < length (record_of e))%nat /\
      zero_filled e k <> record_of e /\ u = zero_filled e k ++ rest)).

Lemma shape_reads c m b : Forall record_ok c -> Forall torn_detected c -> shape c m b -> reads_as c m b.
Proof.
  intros Hr Ht (Hm & u & -> & Hu). split; [done|]. exists u. split; [done|].
  destruct Hu as [->|[(e & k & He & Hk & ->)|(e & k & rest & He & Hk & Hne & ->)]]; [by left|right..].
  - split; [by apply lookup_lt_Some in He|]. apply stops_torn; [by apply (Forall_lookup_1 _ _ _ _ Hr He)|done].
  - split; [by apply lookup_lt_Some in He|].
    apply stops_zero_filled; [by apply (Forall_lookup_1 _ _ _ _ Hr He)|by apply (Forall_lookup_1 _ _ _ _ Ht He)|done..].
Qed.

Lemma write_past b off d : (length b <= off)%nat -> write_at b off d = b ++ replicate (off - length b) 0 ++ d.
Proof.
  intros H. unfold write_at. rewrite (drop_ge b) by lia. rewrite app_nil_r, firstn_all2; [by rewrite <- app_assoc|].
  rewrite length_app, length_replicate. lia.
Qed.

(** Zeros between a torn record [m] and the write of record [j]. *)
Lemma fill_gap c j d : (j <= length c)%nat -> forall g m k e, g = (j - m)%nat -> (m < j)%nat ->
  c !! m = Some e -> (k < length (record_of e))%nat ->
  let b := segment_of (take m c) ++ take k (record_of e) ++ replicate (offset c j - offset c m - k) 0 ++ d in
  (exists m', (m <= m' < j)%nat /\ shape c m' b) \/ b = segment_of (take j c) ++ d.
Proof.
  intros Hj. induction g as [|g IH]; intros m k e Hg Hm He Hk; [lia|]. cbv zeta.
  pose proof (offset_S c m e He) as Ho. pose proof (offset_mono c (S m) j ltac:(lia)) as Hmono.
  replace (offset c j - offset c m - k)%nat with
    ((length (record_of e) - k) + (offset c j - offset c (S m)))%nat by lia.
  rewrite replicate_add, <- app_assoc, (app_assoc (take k (record_of e))). fold (zero_filled e k).
  destruct (decide (zero_filled e k = record_of e)) as [E|Hne].
  - rewrite E, app_assoc, <- segment_of_one, <- segment_of_app, <- (take_S_r c m e He).
    destruct (decide (S m = j)) as [<-|Hmj]; [right; by rewrite Nat.sub_diag|].
    destruct (lookup_lt_is_Some_2 c (S m) ltac:(lia)) as [e' He'].
    destruct (IH (S m) 0%nat e' ltac:(lia) ltac:(lia) He' (record_nonempty e')) as [(m' & Hm' & Hs)|Hs].
    + left. exists m'. split; [lia|]. rewrite Nat.sub_0_r in Hs. exact Hs.
    + right. rewrite Nat.sub_0_r in Hs. exact Hs.
  - left. exists m. split; [lia|]. split; [lia|]. eexists. split; [reflexivity|]. right. right.
    by exists e, k, (replicate (offset c j - offset c (S m)) 0 ++ d).
Qed.

(** One more record is written, whole or in part. *)
Lemma shape_write c m j e b k : shape c m b -> (m <= j)%nat -> c !! j = Some e ->
  (length b <= offset c j)%nat -> (0 < k <= length (record_of e))%nat ->
  let b' := write_at b (offset c j) (take k (record_of e)) in
  exists m', (m <= m' <= S j)%nat /\ shape c m' b' /\ (length b' <= offset c (S j))%nat.
Proof.
  intros (Hm & u & Eb & Hu) Hmj He Hl Hk. cbv zeta. rewrite write_past by done.
  pose proof (lookup_lt_Some _ _ _ He) as Hj. rewrite (offset_S c j e He).
  assert (Hlen : (length (b ++ replicate (offset c j - length b) 0%Z ++ take k (record_of e))
    <= offset c j + length (record_of e))%nat).
  { rewrite !length_app, length_replicate, length_take. lia. }
  assert (Hend : exists m', (m <= m' <= S j)%nat /\ shape c m' (segment_of (take j c) ++ take k (record_of e))).
  { destruct (decide (k = length (record_of e))) as [->|Hlt].
    - exists (S j). split; [lia|]. split; [lia|]. exists []. split; [|by left].
      by rewrite firstn_all, app_nil_r, (take_S_r c j e He), segment_of_app, segment_of_one.
    - exists j. split; [lia|]. split; [lia|]. eexists. split; [reflexivity|]. right. left. exists e, k. split_and!; (done || lia). }
  assert (Hgap : forall e' k', c !! m = Some e' -> (k' < length (record_of e'))%nat -> (m < j)%nat ->
    b = segment_of (take m c) ++ take k' (record_of e') ->
    exists m', (m <= m' <= S j)%nat /\ shape c m' (b ++ replicate (offset c j - length b) 0 ++ take k (record_of e))).
  { intros e' k' He' Hk' Hlt ->. rewrite length_app, length_take, Nat.min_l by lia. fold (offset c m).
    rewrite <- app_assoc, Nat.sub_add_distr.
    destruct (fill_gap c j (take k (record_of e)) ltac:(lia) _ m k' e' eq_refl Hlt He' Hk') as [(m' & Hm' & Hs)|Hs].
    - exists m'. split; [lia|exact Hs].
    - cbv zeta in Hs. rewrite Hs. exact Hend. }
  destruct Hu as [->|[(e' & k' & He' & Hk' & ->)|(e' & k' & rest & He' & Hk' & Hne & ->)]].
  - rewrite app_nil_r in Eb. destruct (decide (m = j)) as [->|Hne].
    + destruct Hend as (m' & Hm' & Hs). exists m'. split_and!; [lia|lia| |done].
      rewrite Eb. unfold offset. rewrite Nat.sub_diag. exact Hs.
    + destruct (lookup_lt_is_Some_2 c m ltac:(lia)) as [e' He'].
      destruct (Hgap e' 0%nat He' (record_nonempty e')) as (m' & Hm' & Hs); [lia|by rewrite Eb, app_nil_r|].
      by exists m'.
  - destruct (decide (m = j)) as [->|Hne].
    { rewrite Eb, length_app, length_take in Hl. unfold offset in Hl. lia. }
    destruct (Hgap e' k' He') as (m' & Hm' & Hs); [lia|lia|done|]. by exists m'.
  - exists m. split_and!; [lia|lia| |done]. split; [done|].
    exists (zero_filled e' k' ++ rest ++ replicate (offset c j - length b) 0 ++ take k (record_of e)). split.
    + rewrite Eb at 1. by rewrite <- !app_assoc.
    + right. right. by exists e', k', (rest ++ replicate (offset c j - length b) 0 ++ take k (record_of e)).
Qed.

Lemma shape_crash es fates c pre m b : c = pre ++ es -> shape c m b -> (m <= length pre)%nat ->
  (length b <= offset c (length pre))%nat ->
  exists m', (m <= m')%nat /\
    shape c m' (fold_left crash_op (zip (record_writes (offset c (length pre)) es) fates) b).
Proof.
  revert fates pre m b. induction es as [|e es IH]; intros fates pre m b Ec Hs Hm Hl; [by exists m|].
  destruct fates as [|fate fates]; [by exists m|]. cbn [record_writes zip zip_with fold_left].
  assert (He : c !! length pre = Some e) by (rewrite Ec; by apply list_lookup_middle).
  assert (Ec' : c = (pre ++ [e]) ++ es) by (by rewrite <- app_assoc).
  rewrite <- (offset_S c _ e He).
  assert (Hlen : length (pre ++ [e]) = S (length pre)) by (rewrite length_app; simpl; lia).
  pose proof (offset_mono c (length pre) (S (length pre)) ltac:(lia)) as Hmono.
  assert (Hkeep : exists m1, (m <= m1 <= S (length pre))%nat /\
    shape c m1 (crash_op b (PWrite (offset c (length pre)) (record_of e), fate)) /\
    (length (crash_op b (PWrite (offset c (length pre)) (record_of e), fate)) <= offset c (S (length pre)))%nat).
  { pose proof (record_nonempty e) as Hne. destruct fate as [|k|]; cbn [crash_op].
    - exists m. split_and!; [lia|lia|done|lia].
    - destruct (Nat.eqb_spec k 0) as [->|]; [exists m; split_and!; [lia|lia|done|lia]|].
      destruct (Nat.le_gt_cases k (length (record_of e))) as [Hk|Hk].
      + apply (shape_write c m (length pre) e b k); [done..|lia].
      + rewrite (firstn_all2 (record_of e)) by lia. rewrite <- (firstn_all (record_of e)).
        apply (shape_write c m (length pre) e b (length (record_of e))); [done..|lia].
    - rewrite <- (firstn_all (record_of e)). apply (shape_write c m (length pre) e b (length (record_of e))); [done..|lia]. }
  destruct Hkeep as (m1 & Hm1 & Hs1 & Hl1). rewrite <- Hlen in *.
  destruct (IH fates (pre ++ [e]) m1 _ Ec' Hs1) as (m' & Hm' & Hs'); [lia|done|].
  exists m'. split; [lia|exact Hs'].
Qed.

(** After a crash, a file reads as some of its records, and at least those that
    were durable. *)
Lemma crash_reads f es m fates : on_disk f es m -> Forall record_ok es -> Forall torn_detected es ->
  exists m', (m <= m')%nat /\ reads_as es m' (f_durable (crash_file f fates)).
Proof.
  intros (Hm & Hd & new & Hnew & Hp) Hr Ht. unfold crash_file. cbn [f_durable].
  assert (Hs0 : shape es m (f_durable f)).
  { split; [done|]. exists []. split; [by rewrite app_nil_r|by left]. }
  assert (Hlen : length (take m es) = m) by (rewrite length_take; lia).
  assert (Hgo : forall fates, exists m', (m <= m')%nat /\
    shape es m' (fold_left crash_op (zip (record_writes (length (segment_of (take m es))) (drop m es)) fates) (f_durable f))).
  { intros fs. pose proof (shape_crash (drop m es) fs es (take m es) m (f_durable f)) as H.
    rewrite Hlen in H. apply H; [by rewrite take_drop|done|done|by rewrite Hd]. }
  rewrite Hp. destruct Hnew as [->|[-> ->]].
  - destruct (Hgo fates) as (m' & Hm' & Hs). exists m'. split; [done|]. by apply shape_reads.
  - destruct fates as [|fate fates].
    { exists O. split; [done|]. by apply shape_reads. }
    assert (E : crash_op (f_durable f) (PTruncate 0, fate) = f_durable f).
    { rewrite Hd. by destruct fate. }
    cbn [app zip zip_with fold_left]. rewrite E. destruct (Hgo fates) as (m' & Hm' & Hs).
    exists m'. split; [done|]. by apply shape_reads.
Qed.
(** ** The theorem of recovery *)

(** [d'] is what a crash may leave of [d]: in each file, every write since its
    last sync lost, torn or landed, each on its own. *)
Definition crash_image (d d' : Disk) : Prop :=
  forall j, exists fates, d_files d' !! j = (fun f => crash_file f fates) <$> d_files d !! j.

Lemma starts_Sorted i chunks : Sorted Z.le (starts i chunks).
Proof.
  revert i. induction chunks as [|c chunks IH]; intros i; simpl; constructor; [apply IH|].
  destruct chunks; simpl; constructor. lia.
Qed.

Lemma segment_names_starts files i segs chunks c d : layout files i segs (chunks ++ [c]) ->
  Forall (fun c => c <> []) chunks -> dom (d_files d) = dom files ->
  segment_names d = starts i (chunks ++ [c]).
Proof.
  intros Hl Hne Hd. unfold segment_names, sorted_elements.
  apply (Sorted_unique Z.le); [apply Sorted_merge_sort; apply _|apply starts_Sorted|].
  rewrite merge_sort_Permutation, Hd, (ly_dom _ _ _ _ Hl), (ly_starts _ _ _ _ Hl).
  apply elements_list_to_set. by apply starts_NoDup.
Qed.

Lemma crash_image_dom d d' : crash_image d d' -> dom (d_files d') = dom (d_files d).
Proof.
  intros H. apply set_eq. intros j. rewrite !elem_of_dom. destruct (H j) as [k ->].
  destruct (d_files d !! j); simpl; split; intros [? ?]; eauto; done.
Qed.

Lemma crash_torn d d' n segs chunks : crash_image d d' -> Forall2 (seg_ok (d_files d)) segs chunks ->
  Forall torn_detected (concat chunks) ->
  durable (d_files d) n segs chunks -> torn_segments (d_files d') n (map sg_first segs) chunks.
Proof.
  intros Hcr H. revert n. induction H as [|s c segs chunks Hs _ IH]; intros n Htd Hd; [done|].
  cbn [durable map torn_segments concat] in *. apply Forall_app in Htd as [Htd1 Htd2].
  destruct Hd as [(f & m & Ef & Ho & Hm) Hd2]. split; [|by apply IH].
  destruct (Hcr (sg_first s)) as [fates Ek]. rewrite Ef in Ek. cbn [fmap option_fmap option_map] in Ek.
  destruct (crash_reads f c m fates Ho (so_records _ _ _ Hs) Htd1) as (m' & Hm' & Hr).
  exists (f_durable (crash_file f fates)), m'. split_and!; [exact Ek|done|lia].
Qed.

Lemma layout_nonempty_removelast chunks (c : list Entry) :
  Forall (fun c => c <> []) chunks -> Forall (fun c => c <> []) (removelast (chunks ++ [c])).
Proof. by rewrite removelast_last. Qed.

(** [open] on files that read as the first entries of a log, at least [n] of them. *)
Lemma open_torn w i es n chunks c opts state slot0 slot1 d' :
  layout (d_files (w_disk w)) i (w_segments w) (chunks ++ [c]) -> Forall (fun c => c <> []) chunks ->
  es = concat chunks ++ c -> i + Z.of_nat (length es) < U64 -> dom (d_files d') = dom (d_files (w_disk w)) ->
  torn_segments (d_files d') n (map sg_first (w_segments w)) (chunks ++ [c]) ->
  (1 <= n)%nat \/ length (w_segments w) = 1%nat ->
  let r := open opts state slot0 slot1 d' in
  let snap_index := match (pick_snapshot slot0 slot1).1.1 with Some s => sn_last_index s | None => 0 end in
  exists m, (n `min` length es <= m)%nat /\ wal_holds (rc_wal r) i (take m es) /\
    rc_entries r = filter (fun e => snap_index < e_index e) (take m es).
Proof.
  intros Hl Hne Ees Hb Hdom Ht Hn. pose proof (ly_first _ _ _ _ Hl) as Hi.
  assert (Ecat : concat (chunks ++ [c]) = es) by (rewrite concat_app, Ees; simpl; by rewrite app_nil_r).
  assert (Hw : wal_holds w i es) by by exists chunks, c.
  destruct (wal_holds_bounds _ _ _ Hw) as (_ & _ & _ & Hc & Hr).
  pose proof (segment_names_starts _ _ _ _ _ d' Hl Hne Hdom) as Hnames.
  pose proof (ly_starts _ _ _ _ Hl) as Hst.
  assert (Hop : opened d' i [] [] (segment_names d')).
  { split; [constructor|done|constructor| |set_solver|].
    - rewrite Hdom, (ly_dom _ _ _ _ Hl), Hst, Hnames. done.
    - rewrite Hnames. by apply starts_NoDup. }
  rewrite Hst, <- Hnames in Ht.
  destruct (open_loop (segment_names d') (chunks ++ [c]) n d' i [] [] 0 Hop Hi Ht) as
    (ochunks & oc & m & A1 & A2 & A3 & A4 & A5); cbn [concat length]; rewrite ?Ecat, ?Z.add_0_r; try done.
  - by apply layout_nonempty_removelast.
  - left. rewrite Hnames. by destruct chunks.
  - intros _. destruct Hn as [|Hn]; [by left|right]. rewrite Hnames, <- Hst, length_map. lia.
  - cbn [concat app length Nat.add] in A4, A5. rewrite Ecat in A4, A5.
    exists m. split; [done|]. unfold open. destruct (read_hard_state state) as [hs q].
    destruct (pick_snapshot slot0 slot1) as [[snap sq] sl]. cbn [fst snd rc_wal rc_entries].
    set (o := fold_left open_one _ _) in *. split.
    + exists ochunks, oc. rewrite <- A4. clearbody o.
      destruct (og_segments o) as [|s ss] eqn:Es; [|by split_and!].
      exfalso. pose proof (Forall2_length _ _ _ (ly_segs _ _ _ _ A1)) as E. rewrite length_app in E. simpl in E. lia.
    + rewrite A4. destruct (0 <? match snap with Some s => sn_last_index s | None => 0 end) eqn:E0; [done|].
      apply Z.ltb_ge in E0. symmetry. apply filter_all, Forall_forall. intros e He.
      apply list_elem_of_lookup in He as [k Hk]. rewrite (contiguous_lookup i _ _ _ (contiguous_take _ _ _ Hc) Hk). lia.
Qed.

(** C22: recovery keeps what was synced. Let the log hold [es] with its first [n]
    entries durable, and let a crash lose, tear or keep every later write, each on
    its own. Then, as long as checksums tell torn records, [open] gives a log that holds a prefix of
    [es], at least [n] long, with no hole and no foreign entry, ready to be
    appended to; and it reports those of its entries that the recovered snapshot
    does not cover. The first segment must have something durable when there are
    several. *)
Theorem recovery_keeps_what_was_synced w i es n opts state slot0 slot1 d' :
  wal_synced w i es n -> Forall torn_detected es -> i + Z.of_nat (length es) < U64 ->
  crash_image (w_disk w) d' ->
  (1 <= n)%nat \/ length (w_segments w) = 1%nat ->
  let r := open opts state slot0 slot1 d' in
  let snap_index := match (pick_snapshot slot0 slot1).1.1 with Some s => sn_last_index s | None => 0 end in
  exists m, (n `min` length es <= m)%nat /\ wal_holds (rc_wal r) i (take m es) /\
    rc_entries r = filter (fun e => snap_index < e_index e) (take m es).
Proof.
  intros (chunks & c & Hl & Hne & Ees & Hd) Htd Hb Hcr Hn.
  assert (Ecat : concat (chunks ++ [c]) = es) by (rewrite concat_app, Ees; simpl; by rewrite app_nil_r).
  apply (open_torn w i es n chunks c); try done; [by apply crash_image_dom|].
  eapply crash_torn; [exact Hcr|apply (ly_segs _ _ _ _ Hl)|by rewrite Ecat|done].
Qed.

(** A file with nothing pending is whole after a crash, and so is a log of such files. *)
Lemma crash_whole d d' n segs chunks : crash_image d d' -> durable (d_files d) n segs chunks ->
  (length (concat chunks) <= n)%nat -> length segs = length chunks ->
  torn_segments (d_files d') n (map sg_first segs) chunks.
Proof.
  intros Hcr. revert n segs. induction chunks as [|c chunks IH]; intros n [|s segs] Hd Hn Hlen; try done.
  cbn [durable map torn_segments concat] in *. rewrite length_app in Hn.
  destruct Hd as [(f & m & Ef & (Hm & Hdur & new & Hnew & Hp) & Hge) Hd2]. split; [|apply IH; [done|lia|by injection Hlen]].
  destruct (Hcr (sg_first s)) as [fates Ek]. rewrite Ef in Ek. cbn [fmap option_fmap option_map] in Ek.
  assert (m = length c) as -> by lia. exists (f_durable (crash_file f fates)), (length c). split_and!; [exact Ek| |lia].
  split; [lia|]. exists []. split; [|by left]. rewrite app_nil_r, take_ge in * by lia. rewrite drop_ge in Hp by lia.
  unfold crash_file. cbn [f_durable]. rewrite Hp, app_nil_r, Hdur. destruct Hnew as [->|[-> E0]]; [done|].
  destruct c; [|done]. destruct fates as [|[] fates]; reflexivity.
Qed.

(** What [open] recovers when all of a log is durable, whatever the crash does. *)
Lemma recovers_whole w i es opts state slot0 slot1 d' :
  wal_synced w i es (length es) -> i + Z.of_nat (length es) < U64 -> crash_image (w_disk w) d' ->
  let snap_index := match (pick_snapshot slot0 slot1).1.1 with Some s => sn_last_index s | None => 0 end in
  rc_entries (open opts state slot0 slot1 d') = filter (fun e => snap_index < e_index e) es.
Proof.
  intros (chunks & c & Hl & Hne & Ees & Hd) Hb Hcr. cbv zeta.
  assert (Ecat : concat (chunks ++ [c]) = es) by (rewrite concat_app, Ees; simpl; by rewrite app_nil_r).
  pose proof (Forall2_length _ _ _ (ly_segs _ _ _ _ Hl)) as Hlen.
  destruct (open_torn w i es (length es) chunks c opts state slot0 slot1 d') as (m & Hm & _ & ->); try done.
  - by apply crash_image_dom.
  - eapply crash_whole; [exact Hcr|exact Hd|by rewrite Ecat|done].
  - rewrite Hlen, length_app. destruct chunks as [|c0 chunks]; [by right|left].
    apply Forall_cons in Hne as [Hc0 _]. rewrite Ees. destruct c0; [done|]. simpl. lia.
  - by rewrite take_ge by lia.
Qed.

Definition demo_crashed : Disk :=
  mkDisk ((fun f => crash_file f [Lost]) <$> d_files (w_disk (sync demo_full))) [].

Lemma recovery_keeps_what_was_synced_witness :
  let r := open (mkWalOptions 1 0) [] [] [] demo_crashed in
  let snap_index := match (pick_snapshot [] []).1.1 with Some s => sn_last_index s | None => 0 end in
  exists m, (3 `min` length demo_entries <= m)%nat /\ wal_holds (rc_wal r) 1 (take m demo_entries) /\
    rc_entries r = filter (fun e => snap_index < e_index e) (take m demo_entries).
Proof.
  assert (Hn : (1 <= 3)%nat \/ length (w_segments (sync demo_full)) = 1%nat) by (left; lia).
  refine (recovery_keeps_what_was_synced (sync demo_full) 1 demo_entries 3 (mkWalOptions 1 0) [] [] [] demo_crashed
    (sync_synced demo_full 1 demo_entries demo_full_holds) ltac:(by_decide) ltac:(by_decide) _ Hn).
  intros j. exists [Lost]. apply lookup_fmap.
Defined.

(** Recovery can skip a hole. A batch fills the first segment and continues in
    a second; a crash before the [sync] loses the bytes of the first file and keeps
    those of the second. [open] finds the first segment empty and cleanly so, and
    as it has read no entry yet it does not compare the second segment's first
    index with anything: it returns entries 2 and on, without entry 1, and says
    the log ended cleanly. *)
Theorem recovery_can_skip_a_hole :
  let '(r, w) := append [demo_entry 1 1; demo_entry 1 2; demo_entry 1 3] (demo_wal 1) in
  let crashed := mkDisk (map_imap (fun j f => Some (crash_file f (if j =? 1 then [] else [Landed; Landed])))
                          (d_files (w_disk w))) [] in
  let rec := open (mkWalOptions 1 0) [] [] [] crashed in
  r = IoOk /\ rc_entries rec = [demo_entry 1 2; demo_entry 1 3] /\ rc_tail rec = Clean.
Proof. vm_compute. done. Qed.
