(* ===== verification/Driver.v ===== *)
(** * The node driver: [crates/chronolog/src/node.rs]

    Everything that turns the state machine into a server: one batch of events fed
    to [Raft], one [Ready] persisted, sent, applied and acknowledged. [turn] is
    one turn of the loop of [run] and [cycle_ready] its [Ready] cycle, with the
    whole of [persist], [reconcile], [apply_committed], [handle_client],
    [free_space] and the housekeeping. The disk may refuse any write (see [WalSegments]); what the host is asked to send
    accumulates in [n_sent]. Notes to the trace are left out. *)

From Stdlib Require Import ZArith Lia.
From stdpp Require Import base tactics list list_numbers gmap sets sorting strings.
From S2P Require Import Prelude Codec Types RaftLog Client Msg Kv RaftState Raft Wal WalState WalSegments.

Open Scope Z_scope.

(** ** Counters *)

Inductive Metric : Type :=
| proposals | commits | applies | batches | batched_entries | fsyncs
| elections_started | leadership_gained | leadership_lost
| snapshots_taken | snapshots_installed | client_requests | not_leader_redirects
| reads_linearizable | reads_lease | reads_stale
| config_changes_proposed | config_changes_applied | enospc.

#[export] Instance Metric_eq_dec : EqDecision Metric.
Proof. solve_decision. Defined.

Definition NodeMetrics : Type := Metric -> Z.

Definition NodeMetrics_default : NodeMetrics := fun _ => 0.

Definition NodeMetrics_add (m : NodeMetrics) (counter : Metric) (n : Z) : NodeMetrics :=
  fun c => if decide (c = counter) then m c +64 n else m c.

Definition NodeMetrics_inc (m : NodeMetrics) (counter : Metric) : NodeMetrics :=
  NodeMetrics_add m counter 1.

Definition metric_names : list (string * Metric) :=
  [("proposals", proposals); ("commits", commits); ("applies", applies); ("batches", batches);
   ("batched_entries", batched_entries); ("fsyncs", fsyncs); ("elections_started", elections_started);
   ("leadership_gained", leadership_gained); ("leadership_lost", leadership_lost);
   ("snapshots_taken", snapshots_taken); ("snapshots_installed", snapshots_installed);
   ("client_requests", client_requests); ("not_leader_redirects", not_leader_redirects);
   ("reads_linearizable", reads_linearizable); ("reads_lease", reads_lease); ("reads_stale", reads_stale);
   ("config_changes_proposed", config_changes_proposed);
   ("config_changes_applied", config_changes_applied); ("enospc", enospc)]%string.

Definition NodeMetrics_get (m : NodeMetrics) (name : string) : Z :=
  match list_find (fun p => p.1 = name) metric_names with Some (_, (_, c)) => m c | None => 0 end.

(** ** The digest of what was applied *)

Definition fnv_byte (h b : Z) : Z := Z.lxor h b *64 0x100000001b3.

(** [mix]: the eight bytes of a word, lowest first. *)
Definition fnv_word (h v : Z) : Z :=
  fold_left (fun h i => fnv_byte h (Z.land (Z.shiftr v (Z.of_nat i * 8)) 0xFF)) (seq 0 8) h.

Definition entry_digest (e : Entry) : Z :=
  let h := fnv_word (fnv_word 0xcbf29ce484222325 (e_index e)) (e_term e) in
  match e_kind e with
  | Noop => fnv_word h 1
  | KConfig _ => fnv_word h 2
  | Normal d => fold_left fnv_word d (fnv_word h 3)
  end.

Definition ApplyDigest : Type := list (Index * Z).

Definition ApplyDigest_new : ApplyDigest := [].

Definition ApplyDigest_feed (e : Entry) (d : ApplyDigest) : ApplyDigest :=
  let d := d ++ [(e_index e, entry_digest e)] in
  if (4096 <? length d)%nat then drop 2048 d else d.

(** ** State *)

(** The storage of a node: the log, the state file and the two snapshot slots,
    as the process sees them. *)
Record Storage : Type := mkStorage {
  so_wal : Wal;
  so_state : Bytes;
  so_slot0 : Bytes;
  so_slot1 : Bytes
}.

Abbreviation PendingWrites := (gmap Index (NodeId * Request)).
Abbreviation PendingReads := (gmap Z (list (NodeId * Request))).

Record Node : Type := mkNode {
  n_raft : Raft;
  n_kv : KvStore;
  n_storage : Storage;
  n_writes : PendingWrites;
  n_reads : PendingReads;
  n_was_leader : bool;
  n_digest : ApplyDigest;
  n_metrics : NodeMetrics;
  n_sent : list (NodeId * Wire)
}.

Definition with_raft (f : Raft -> Raft) (n : Node) : Node :=
  mkNode (f (n_raft n)) (n_kv n) (n_storage n) (n_writes n) (n_reads n) (n_was_leader n)
    (n_digest n) (n_metrics n) (n_sent n).
Definition with_kv (f : KvStore -> KvStore) (n : Node) : Node :=
  mkNode (n_raft n) (f (n_kv n)) (n_storage n) (n_writes n) (n_reads n) (n_was_leader n)
    (n_digest n) (n_metrics n) (n_sent n).
Definition with_storage (f : Storage -> Storage) (n : Node) : Node :=
  mkNode (n_raft n) (n_kv n) (f (n_storage n)) (n_writes n) (n_reads n) (n_was_leader n)
    (n_digest n) (n_metrics n) (n_sent n).
Definition with_writes (f : PendingWrites -> PendingWrites) (n : Node) : Node :=
  mkNode (n_raft n) (n_kv n) (n_storage n) (f (n_writes n)) (n_reads n) (n_was_leader n)
    (n_digest n) (n_metrics n) (n_sent n).
Definition with_reads (f : PendingReads -> PendingReads) (n : Node) : Node :=
  mkNode (n_raft n) (n_kv n) (n_storage n) (n_writes n) (f (n_reads n)) (n_was_leader n)
    (n_digest n) (n_metrics n) (n_sent n).
Definition with_was_leader (b : bool) (n : Node) : Node :=
  mkNode (n_raft n) (n_kv n) (n_storage n) (n_writes n) (n_reads n) b
    (n_digest n) (n_metrics n) (n_sent n).
Definition with_digest (f : ApplyDigest -> ApplyDigest) (n : Node) : Node :=
  mkNode (n_raft n) (n_kv n) (n_storage n) (n_writes n) (n_reads n) (n_was_leader n)
    (f (n_digest n)) (n_metrics n) (n_sent n).
Definition count (c : Metric) (k : Z) (n : Node) : Node :=
  mkNode (n_raft n) (n_kv n) (n_storage n) (n_writes n) (n_reads n) (n_was_leader n)
    (n_digest n) (NodeMetrics_add (n_metrics n) c k) (n_sent n).
Definition net_send (to : NodeId) (w : Wire) (n : Node) : Node :=
  mkNode (n_raft n) (n_kv n) (n_storage n) (n_writes n) (n_reads n) (n_was_leader n)
    (n_digest n) (n_metrics n) (n_sent n ++ [(to, w)]).

Definition with_wal (f : Wal -> Wal) (s : Storage) : Storage :=
  mkStorage (f (so_wal s)) (so_state s) (so_slot0 s) (so_slot1 s).

Definition reply (to : NodeId) (req : Request) (o : Outcome) (n : Node) : Node :=
  net_send to (WReply (mkResponse (rq_client_id req) (rq_seq req) o)) n.

(** ** Saving the hard state and snapshots *)

(** Whether the next write succeeds. *)
Definition next_write (w : Wal) : bool * Wal :=
  (match d_fate (w_disk w) with [] => true | b :: _ => b end,
   with_disk (fun d => mkDisk (d_files d) (tail (d_fate d))) w).

Definition set_state_seq (v : Z) (w : Wal) : Wal :=
  mkWal (w_opts w) (w_segments w) v (w_snapshot_slot w) (w_snapshot_seq w) (w_stats w) (w_disk w).
Definition set_snapshot_pos (slot seq : Z) (w : Wal) : Wal :=
  mkWal (w_opts w) (w_segments w) (w_state_seq w) slot seq (w_stats w) (w_disk w).
Definition count_snapshot (s : WalStats) : WalStats :=
  mkWalStats (st_appends s) (st_entries_written s) (st_bytes_written s) (st_fsyncs s + 1)
    (st_truncations s) (st_rollovers s) (st_segments_deleted s) (st_snapshots_written s + 1).

(** [Wal::save_hard_state]. *)
Definition storage_save_hard_state (hs : HardState) (s : Storage) : IoResult * Storage :=
  let '(ok, w) := next_write (so_wal s) in
  let '(file, seq, _) := save_hard_state ok (so_state s) (w_state_seq w) hs in
  let w := set_state_seq seq w in
  if ok then (IoOk, mkStorage (with_stats count_fsync w) file (so_slot0 s) (so_slot1 s))
  else (IoErr Enospc, mkStorage w file (so_slot0 s) (so_slot1 s)).

(** [Wal::save_snapshot]: a refused write leaves the slot truncated. *)
Definition storage_save_snapshot (snap : Snapshot) (s : Storage) : IoResult * Storage :=
  let '(ok, w) := next_write (so_wal s) in
  let '(seq, bytes) := snapshot_write (w_snapshot_seq w) snap in
  let '(slot0, slot1) := save_snapshot (if ok then length bytes else 0) (so_slot0 s) (so_slot1 s)
                           (w_snapshot_seq w) (w_snapshot_slot w) snap in
  if ok then (IoOk, mkStorage (with_stats count_snapshot (set_snapshot_pos (1 - w_snapshot_slot w) seq w))
                      (so_state s) slot0 slot1)
  else (IoErr Enospc, mkStorage (set_snapshot_pos (w_snapshot_slot w) seq w) (so_state s) slot0 slot1).

Definition storage_append (es : list Entry) (s : Storage) : IoResult * Storage :=
  let '(r, w) := append es (so_wal s) in (r, with_wal (fun _ => w) s).

(** A storage operation of a node, and the [?] after it. *)
Definition on_storage (op : Storage -> IoResult * Storage) (n : Node) : IoResult * Node :=
  let '(r, s) := op (n_storage n) in (r, with_storage (fun _ => s) n).

Definition and_then (x : IoResult * Node) (k : Node -> IoResult * Node) : IoResult * Node :=
  match x with (IoOk, n) => k n | stop => stop end.

Notation "x ?; k" := (and_then x k) (at level 60, right associativity) : word_scope.

(** ** Persisting *)

(** [persist]: truncation first, then the snapshot, the hard state and the
    entries, then one barrier. *)
Definition persist (rd : Ready) (truncate : option Index) (n : Node) : IoResult * Node :=
  let n := match truncate with Some from => with_storage (with_wal (truncate_from from)) n | None => n end in
  if negb (Ready_needs_durability rd) then (IoOk, n)
  else
    (match rd_snapshot rd with
     | Some snap =>
         on_storage (storage_save_snapshot snap) n ?; fun n =>
         let n := match KvStore_restore (sn_data snap) with
                  | Ok restored => with_kv (fun _ => restored) n
                  | Err _ => n
                  end in
         (IoOk, n |> with_storage (with_wal (reset_to (sn_last_index snap)))
                  |> count snapshots_installed 1)
     | None => (IoOk, n)
     end) ?; fun n =>
    (match rd_hard_state rd with
     | Some hs => on_storage (storage_save_hard_state hs) n
     | None => (IoOk, n)
     end) ?; fun n =>
    (match rd_entries rd with
     | [] => (IoOk, n)
     | es =>
         on_storage (storage_append es) n ?; fun n =>
         (IoOk, n |> count batched_entries (Z.of_nat (length es)) |> count batches 1)
     end) ?; fun n =>
    (IoOk, n |> with_storage (with_wal sync) |> count fsyncs 1).

(** [reconcile]: make the durable log end where the log in memory does. *)
Definition reconcile (n : Node) : IoResult * Node :=
  let log := r_log (n_raft n) in
  let want_first := Log_first_index log in
  let want_last := Log_last_index log in
  let wal := so_wal (n_storage n) in
  if (Wal_last_index wal =? want_last) && (want_first <=? Wal_last_index wal +64 1) then (IoOk, n)
  else
    let n := if (want_last <? Wal_last_index wal) || (Wal_last_index wal +64 1 <? want_first)
             then with_storage (with_wal (reset_to (ssub want_first 1))) n else n in
    let from := Wal_last_index (so_wal (n_storage n)) +64 1 in
    match Log_entries_from log from with
    | [] => (IoOk, n)
    | missing =>
        on_storage (storage_append missing) n ?; fun n =>
        (IoOk, n |> count batched_entries (Z.of_nat (length missing)) |> count batches 1
                 |> with_storage (with_wal sync) |> count fsyncs 1)
    end.

(** ** Applying *)

Definition serve_read (kv : KvStore) (req : Request) : Outcome :=
  match rq_op req with
  | Get key _ => Value (KvStore_get kv key)
  | GetAt key version => Value (KvStore_get_at kv key version)
  | _ => Unavailable
  end.

Definition apply_one (n : Node) (entry : Entry) : Node :=
  let n := n |> count commits 1 |> with_digest (ApplyDigest_feed entry) in
  match e_kind entry with
  | Noop => n
  | KConfig _ => count config_changes_applied 1 n
  | Normal data =>
      match Request_decode data with
      | Err _ => n
      | Ok req =>
          let '(kv, outcome) := KvStore_apply (n_kv n) (e_index entry) req in
          let n := n |> with_kv (fun _ => kv) |> count applies 1 in
          match n_writes n !! e_index entry with
          | None => n
          | Some (client, original) =>
              let n := with_writes (delete (e_index entry)) n in
              if (rq_client_id original =? rq_client_id req) && (rq_seq original =? rq_seq req)
              then reply client original outcome n
              else reply client original (NotLeader None) n
          end
      end
  end.

Definition apply_committed (rd : Ready) (n : Node) : Node := fold_left apply_one (rd_committed rd) n.

(** Answering the reads a [Ready] confirmed. *)
Definition answer_read (n : Node) (read : ReadState) : Node :=
  match n_reads n !! rs_ctx read with
  | None => n
  | Some waiting =>
      fold_left (fun n cr => reply cr.1 cr.2 (serve_read (n_kv n) cr.2) n) waiting
        (with_reads (delete (rs_ctx read)) n)
  end.

(** ** Clients *)

Definition redirect (from : NodeId) (req : Request) (n : Node) : Node :=
  reply from req (NotLeader (r_leader (n_raft n))) n.

Definition handle_client (from : NodeId) (req : Request) (n : Node) : Node :=
  match rq_op req with
  | Get _ Stale => n |> count reads_stale 1 |> reply from req (serve_read (n_kv n) req)
  | GetAt _ _ => reply from req (serve_read (n_kv n) req) n
  | op =>
      if negb (bool_decide (r_role (n_raft n) = Leader))
      then n |> count not_leader_redirects 1 |> redirect from req
      else
        match op with
        | Get _ mode =>
            if bool_decide (mode = Lease) && lease_valid (n_raft n)
            then n |> count reads_lease 1 |> reply from req (serve_read (n_kv n) req)
            else
              let n := count reads_linearizable 1 n in
              let '(ctx, raft) := read_index (n_raft n) in
              let n := with_raft (fun _ => raft) n in
              match ctx with
              | Some c => with_reads (fun m => <[c := default [] (m !! c) ++ [(from, req)]]> m) n
              | None => reply from req Unavailable n
              end
        | _ =>
            let '(index, raft) := propose (Request_encode req) (n_raft n) in
            let n := with_raft (fun _ => raft) n in
            match index with
            | Some i => n |> count proposals 1 |> with_writes <[i := (from, req)]>
            | None => redirect from req n
            end
        end
  end.

(** ** Events *)

(** [Event]; a tick comes with the random number drawn for it. *)
Inductive NodeEvent : Type :=
| EvTick (rand : Z)
| EvWire (from : NodeId) (msg : Message)
| EvClient (from : NodeId) (req : Request)
| EvAdmin (from : NodeId) (change : ConfigChange).

(** [decode], on an envelope's sender and payload. *)
Definition decode_envelope (from : NodeId) (payload : Bytes) : option NodeEvent :=
  match Wire_decode payload with
  | Ok (WRaft msg) => Some (EvWire from msg)
  | Ok (WClient req) => Some (EvClient from req)
  | Ok (WAdmin change) => Some (EvAdmin from change)
  | Ok (WReply _) | Ok (WAdminReply _) | Err _ => None
  end.

Definition handle_admin (from : NodeId) (change : ConfigChange) (n : Node) : Node :=
  let n := count config_changes_proposed 1 n in
  if negb (bool_decide (r_role (n_raft n) = Leader))
  then net_send from (WAdminReply (AdminNotLeader (r_leader (n_raft n)))) n
  else
    let '(index, raft) := propose_config change (n_raft n) in
    let n := with_raft (fun _ => raft) n in
    net_send from (WAdminReply (match index with Some i => Accepted i | None => Rejected end)) n.

Definition handle_event (n : Node) (ev : NodeEvent) : Node :=
  match ev with
  | EvTick rand =>
      let before := r_role (n_raft n) in
      let n := with_raft (tick rand) n in
      if bool_decide (before = Follower) && negb (bool_decide (r_role (n_raft n) = Follower))
      then count elections_started 1 n else n
  | EvWire from msg => with_raft (step from msg) n
  | EvAdmin from change => handle_admin from change n
  | EvClient from req => n |> count client_requests 1 |> handle_client from req
  end.

(** What is left to answer when leadership is lost, writes in index order, then
    reads in context order. *)
Definition keys_in_order {V} (m : gmap Z V) : list Z := sorted_elements (dom m).

Definition waiting_writes (n : Node) : list (NodeId * Request) :=
  omap (fun i => n_writes n !! i) (keys_in_order (n_writes n)).
Definition waiting_reads (n : Node) : list (NodeId * Request) :=
  concat (omap (fun c => n_reads n !! c) (keys_in_order (n_reads n))).

Definition leadership_transition (n : Node) : Node :=
  let is_leader := bool_decide (r_role (n_raft n) = Leader) in
  let n := if is_leader && negb (n_was_leader n) then count leadership_gained 1 n else n in
  let n :=
    if negb is_leader && n_was_leader n
    then
      let waiting := waiting_writes n ++ waiting_reads n in
      fold_left (fun n cr => redirect cr.1 cr.2 n) waiting
        (n |> count leadership_lost 1 |> with_writes (fun _ => ∅) |> with_reads (fun _ => ∅))
    else n in
  with_was_leader is_leader n.

(** ** Snapshots and compaction *)

Definition safe_to_compact (snap : Snapshot) (raft : Raft) (wal : Wal) : bool :=
  (snapshot_index (r_log raft) <? sn_last_index snap) && (sn_last_index snap <=? Wal_last_index wal).

(** Save the snapshot, then compact memory and the log on disk. The two callers
    guard it alike. *)
Definition take_snapshot (n : Node) : Node :=
  match snapshot_at_applied (KvStore_snapshot (n_kv n)) (n_raft n) with
  | None => n
  | Some snap =>
      if negb (safe_to_compact snap (n_raft n) (so_wal (n_storage n))) then n
      else
        match on_storage (storage_save_snapshot snap) n with
        | (IoOk, n) =>
            n |> with_raft (compact snap)
              |> with_storage (with_wal (compact_through (sn_last_index snap)))
              |> count snapshots_taken 1
        | (_, n) => n
        end
  end.

Definition free_space (n : Node) : Node := take_snapshot n.

(** A leader finishes a membership change and ships snapshots to the followers
    that need one. *)
Definition leader_housekeeping (n : Node) : Node :=
  if negb (bool_decide (r_role (n_raft n) = Leader)) then n
  else
    let n := with_raft (fun r => (maybe_finish_config_change r).2) n in
    match followers_needing_snapshot (n_raft n) with
    | [] => n
    | needy =>
        match snapshot_at_applied (KvStore_snapshot (n_kv n)) (n_raft n) with
        | None => n
        | Some snap => with_raft (fun r => fold_left (fun r peer => send_snapshot peer snap r) needy r) n
        end
    end.

Definition housekeeping (n : Node) : Node :=
  let n := leader_housekeeping n in
  if should_snapshot (n_raft n) then take_snapshot n else n.

(** ** One turn of the loop *)

(** The loop goes on, or [run] returns the error and the driver is dead. *)
Inductive Turn : Type :=
| Continue (n : Node)
| Stopped (e : IoError) (n : Node)
| Panicked.

(** A write failed: on a full disk stand down and make room, otherwise stop. *)
Definition failed (r : IoResult) (n : Node) : Turn :=
  match r with
  | IoOk => Continue n
  | IoErr Enospc => Continue (n |> count enospc 1 |> with_raft step_down |> free_space)
  | IoErr e => Stopped e n
  | IoPanic => Panicked
  end.

Definition send_messages (rd : Ready) (n : Node) : Node :=
  fold_left (fun n tm => net_send tm.1 (WRaft tm.2) n) (rd_messages rd) n.

(** What follows once everything is durable. *)
Definition after_persist (rd : Ready) (n : Node) : Node :=
  n |> with_raft (report_persisted (Wal_last_index (so_wal (n_storage n))))
    |> send_messages rd
    |> apply_committed rd
    |> (fun n => fold_left answer_read (rd_reads rd) n)
    |> with_raft (advance rd)
    |> housekeeping.

Definition cycle_ready (n : Node) : Turn :=
  let truncate := truncate_to (n_raft n) in
  let '(rd, raft) := ready (n_raft n) in
  let n := with_raft (fun _ => raft) n in
  match persist rd truncate n with
  | (IoOk, n) =>
      match reconcile n with
      | (IoOk, n) => Continue (after_persist rd n)
      | (r, n) => failed r n
      end
  | (r, n) => failed r n
  end.

Definition turn (batch : list NodeEvent) (n : Node) : Turn :=
  n |> (fun n => fold_left handle_event batch n) |> leadership_transition |> cycle_ready.

(** A run of the loop over successive batches. *)
Fixpoint turns (batches : list (list NodeEvent)) (n : Node) : Turn :=
  match batches with
  | [] => Continue n
  | b :: rest => match turn b n with Continue n => turns rest n | stop => stop end
  end.

(** ** Starting *)

(** The recovery at the start of [run]. *)
Definition boot (id : NodeId) (opts : RaftOptions) (wal_opts : WalOptions) (bootstrap : Config)
    (state slot0 slot1 : Bytes) (d : Disk) : Node :=
  let rc := open wal_opts state slot0 slot1 d in
  let kv := match rc_snapshot rc with
            | Some s => match KvStore_restore (sn_data s) with Ok kv => kv | Err _ => KvStore_new end
            | None => KvStore_new
            end in
  mkNode (Raft_restore id opts (rc_hard_state rc) (rc_snapshot rc) (rc_entries rc) bootstrap) kv
    (mkStorage (rc_wal rc) state slot0 slot1) ∅ ∅ false ApplyDigest_new NodeMetrics_default [].

Definition snapshot_of (raft : Raft) (kv : KvStore) : option Snapshot :=
  snapshot_at_applied (KvStore_snapshot kv) raft.

Definition encode_config_change (change : ConfigChange) : Entry := mkEntry 0 0 (KConfig change).

(** ** What the oracles see *)

(** The fields of [PublicState] that [publish] writes. The rendering of the
    configuration is left out; the observer's fields are in [Invariants]. *)
Record Published : Type := mkPublished {
  pb_node : NodeId;
  pb_role : Role;
  pb_term : Term;
  pb_leader : option NodeId;
  pb_commit_index : Index;
  pb_applied_index : Index;
  pb_last_index : Index;
  pb_persisted_index : Index;
  pb_snapshot_index : Index;
  pb_voters : list NodeId;
  pb_keys : Z;
  pb_wal_segments : Z;
  pb_wal_bytes : Z;
  pb_log_terms : list (Index * Term);
  pb_apply_checkpoints : list (Index * Z)
}.

Definition publish (inspect : bool) (n : Node) : Published :=
  let r := n_raft n in
  let cfg := Log_config (r_log r) in
  let wal := so_wal (n_storage n) in
  mkPublished (r_id r) (r_role r) (r_term r) (r_leader r) (r_commit r) (r_applied r)
    (Log_last_index (r_log r)) (r_persisted r) (snapshot_index (r_log r))
    (sorted_elements (voters cfg ∪ outgoing cfg)) (Z.of_nat (KvStore_len (n_kv n)))
    (Z.of_nat (length (w_segments wal))) (Wal_total_bytes (w_segments wal))
    (if inspect then map (fun e => (e_index e, e_term e)) (Log_entries_from (r_log r) (Log_first_index (r_log r)))
     else [])
    (if inspect then n_digest n else []).
