(* ===== verification/DriverLog.v ===== *)
(** * What the node's inputs do to the unpersisted part of the log

    [r_dirty_from] marks where the log in memory may differ from the log on disk.
    [log_step] says that a change of the node keeps the mark honest: whatever is
    below the new mark was in the log, below the old one, before. Every input of
    [Raft] is such a step; this is what makes the fast path of [persist] right. *)

From Stdlib Require Import ZArith Lia.
From stdpp Require Import base tactics list list_numbers gmap sets sorting.
From S2P Require Import Prelude Codec Types RaftLog Msg RaftState Raft RaftNode RaftCommit.

Open Scope Z_scope.

(** ** The mark *)

Definition before_mark (d : option Index) (e : Entry) : Prop :=
  match d with Some d => e_index e < d | None => True end.

Definition dirty_ok (r : Raft) : Prop :=
  forall d, r_dirty_from r = Some d -> snapshot_index (r_log r) + 1 <= d <= Log_last_index (r_log r) + 1.

Abbreviation pending_snapshot r := (rd_snapshot (r_pending r)).
Abbreviation pending_entries r := (rd_entries (r_pending r)).

(** A snapshot waiting to be persisted is the base of the log, and everything
    after it is unpersisted. *)
Definition installed (r : Raft) : Prop :=
  exists s, pending_snapshot r = Some s /\ snapshot_index (r_log r) = sn_last_index s /\
    forall e, e ∈ entries (r_log r) -> ~ before_mark (r_dirty_from r) e.

Record log_step (r r' : Raft) : Prop := {
  ls_clean : forall e, e ∈ entries (r_log r') -> before_mark (r_dirty_from r') e ->
    e ∈ entries (r_log r) /\ before_mark (r_dirty_from r) e;
  ls_base : (snapshot_index (r_log r') = snapshot_index (r_log r) /\ pending_snapshot r' = pending_snapshot r)
    \/ installed r';
  ls_dirty : dirty_ok r -> dirty_ok r';
  ls_entries : pending_entries r = [] -> pending_entries r' = [];
  ls_end : r_dirty_from r' = None ->
    (r_dirty_from r = None /\ Log_last_index (r_log r') = Log_last_index (r_log r)) \/ installed r'
}.

#[export] Instance log_step_refl : Reflexive log_step.
Proof. intros r. split; auto. Qed.

#[export] Instance log_step_trans : Transitive log_step.
Proof.
  intros r1 r2 r3 [C1 B1 D1 E1 L1] [C2 B2 D2 E2 L2].
  assert (Hkeep : snapshot_index (r_log r3) = snapshot_index (r_log r2) /\ pending_snapshot r3 = pending_snapshot r2 ->
    installed r2 -> installed r3).
  { intros [S2 P2] (s & Ps & Is & Hd). exists s. split_and!; [congruence|congruence|]. intros e He Hb.
    destruct (C2 e He Hb) as [He' Hb']. by apply (Hd e). }
  split; auto.
  - intros e He Hb. destruct (C2 e He Hb). auto.
  - destruct B2 as [B2|I2]; [|by right]. destruct B1 as [[S1 P1]|I1]; [|by right; apply Hkeep].
    left. destruct B2. split; congruence.
  - intros H3. destruct (L2 H3) as [[H2 E]|I3]; [|by right]. destruct (L1 H2) as [[H1 E']|I2].
    + left. split; congruence.
    + destruct B2 as [B2|I3]; right; auto.
Qed.

(** ** Changes that leave the log and the mark alone *)

Record untouched (r r' : Raft) : Prop := {
  ut_log : r_log r' = r_log r;
  ut_dirty : r_dirty_from r' = r_dirty_from r;
  ut_snapshot : pending_snapshot r' = pending_snapshot r;
  ut_entries : pending_entries r' = pending_entries r
}.

#[export] Instance untouched_refl : Reflexive untouched.
Proof. intros r. by split. Qed.
#[export] Instance untouched_trans : Transitive untouched.
Proof. intros r1 r2 r3 [] []. split; congruence. Qed.

Lemma untouched_step r r' : untouched r r' -> log_step r r'.
Proof.
  intros [L D S E]. split; unfold dirty_ok; rewrite ?L, ?D, ?S, ?E; auto.
Qed.

Lemma untouched_set_role v r : untouched r (set_role v r).
Proof. by split. Qed.
Lemma untouched_set_leader v r : untouched r (set_leader v r).
Proof. by split. Qed.
Lemma untouched_set_votes v r : untouched r (set_votes v r).
Proof. by split. Qed.
Lemma untouched_set_vote v r : untouched r (set_vote v r).
Proof. by split. Qed.
Lemma untouched_set_term v r : untouched r (set_term v r).
Proof. by split. Qed.
Lemma untouched_set_hard_state_dirty v r : untouched r (set_hard_state_dirty v r).
Proof. by split. Qed.
Lemma untouched_set_applied v r : untouched r (set_applied v r).
Proof. by split. Qed.
Lemma untouched_set_persisted v r : untouched r (set_persisted v r).
Proof. by split. Qed.
Lemma untouched_set_commit v r : untouched r (set_commit v r).
Proof. by split. Qed.
Lemma untouched_set_progress v r : untouched r (set_progress v r).
Proof. by split. Qed.
Lemma untouched_set_election_elapsed v r : untouched r (set_election_elapsed v r).
Proof. by split. Qed.
Lemma untouched_set_heartbeat_elapsed v r : untouched r (set_heartbeat_elapsed v r).
Proof. by split. Qed.
Lemma untouched_set_quorum_contact_elapsed v r : untouched r (set_quorum_contact_elapsed v r).
Proof. by split. Qed.
Lemma untouched_set_committed_own_term v r : untouched r (set_committed_own_term v r).
Proof. by split. Qed.
Lemma untouched_set_pending_reads v r : untouched r (set_pending_reads v r).
Proof. by split. Qed.
Lemma untouched_set_read_ctx v r : untouched r (set_read_ctx v r).
Proof. by split. Qed.
Lemma untouched_set_rand v r : untouched r (set_rand v r).
Proof. by split. Qed.
Lemma untouched_set_election_timeout v r : untouched r (set_election_timeout v r).
Proof. by split. Qed.
Lemma untouched_set_persisted_hard_state v r : untouched r (set_persisted_hard_state v r).
Proof. by split. Qed.
Lemma untouched_send to b r : untouched r (send to b r).
Proof. by split. Qed.
Lemma untouched_push_reads l r : untouched r (push_reads l r).
Proof. by split. Qed.

#[export] Hint Resolve untouched_set_role untouched_set_leader untouched_set_votes untouched_set_vote untouched_set_term untouched_set_hard_state_dirty untouched_set_applied untouched_set_persisted untouched_set_commit untouched_set_progress untouched_set_election_elapsed untouched_set_heartbeat_elapsed untouched_set_quorum_contact_elapsed untouched_set_committed_own_term untouched_set_pending_reads untouched_set_read_ctx untouched_set_rand untouched_set_election_timeout untouched_set_persisted_hard_state
  untouched_send untouched_push_reads : raft.

Lemma untouched_fold {A} (f : Raft -> A -> Raft) (xs : list A) r :
  (forall r x, untouched r (f r x)) -> untouched r (fold_left f xs r).
Proof.
  intros Hf. revert r. induction xs as [|x xs IH]; intros r; simpl; [reflexivity|].
  etransitivity; [apply Hf|apply IH].
Qed.

Lemma untouched_update_progress id f r : untouched r (update_progress id f r).
Proof. unfold update_progress. destruct (r_progress r !! id); [apply untouched_set_progress|reflexivity]. Qed.

Lemma untouched_send_append_to peer r : untouched r (send_append_to peer r).
Proof.
  unfold send_append_to. destruct (r_progress r !! peer) as [p|]; [|reflexivity].
  destruct (bool_decide _ && _); [reflexivity|]. cbv zeta.
  destruct (Log_term_at _ _) as [t|], (p_next p <? Log_first_index (r_log r));
    try apply untouched_update_progress. by split.
Qed.

Lemma untouched_send_to_peers f r : (forall peer r, untouched r (f peer r)) -> untouched r (send_to_peers f r).
Proof.
  intros Hf. apply untouched_fold. intros r' peer. destruct (negb _); [apply Hf|reflexivity].
Qed.

Lemma untouched_broadcast r : untouched r (broadcast_append r).
Proof. apply untouched_send_to_peers, untouched_send_append_to. Qed.

Lemma untouched_send_all b r : untouched r (send_to_peers (fun peer r => send peer b r) r).
Proof. apply untouched_send_to_peers. by split. Qed.

Lemma untouched_reset_progress r : untouched r (reset_progress_for_config r).
Proof. unfold reset_progress_for_config. etransitivity; [|apply untouched_update_progress]. auto with raft. Qed.

Lemma untouched_expire r : untouched r (expire_pending_snapshots r).
Proof.
  unfold expire_pending_snapshots. etransitivity; [|apply untouched_fold; intros; apply untouched_send_append_to]. auto with raft.
Qed.

Lemma untouched_become_follower t l r : untouched r (become_follower t l r).
Proof. unfold become_follower. destruct (_ <? _); calm_chain. Qed.

Lemma untouched_check_quorum r : untouched r (check_quorum r).
Proof.
  unfold check_quorum. cbv zeta. destruct (Config_has_quorum _ _); [calm_chain|].
  etransitivity; [|apply untouched_become_follower]. auto with raft.
Qed.

Lemma untouched_advance_commit r : untouched r (maybe_advance_commit r).
Proof.
  unfold maybe_advance_commit. cbv zeta. destruct (_ <=? _); [reflexivity|].
  destruct (bool_decide _); calm_chain.
Qed.

Lemma untouched_follow from r : untouched r (follow from r).
Proof.
  unfold follow. case_bool_decide; [|calm_chain].
  etransitivity; [apply untouched_become_follower|]. calm_chain.
Qed.

Lemma untouched_raise_commit c r : untouched r (raise_commit c r).
Proof. unfold raise_commit. destruct (_ <? _); calm_chain. Qed.

Lemma untouched_draw r : untouched r (campaign_draw r).
Proof. by split. Qed.

#[export] Hint Resolve untouched_step untouched_update_progress untouched_send_append_to
  untouched_broadcast untouched_send_all untouched_reset_progress untouched_expire
  untouched_become_follower untouched_check_quorum untouched_advance_commit untouched_follow
  untouched_raise_commit untouched_draw : raft.

(** ** Appending *)

Lemma log_step_append_own r k t : log_ok r -> log_room r ->
  log_step r (append_to_own_log [mkEntry t (Log_last_index (r_log r) +64 1) k] r).
Proof.
  intros [Hw Hc] Hr. unfold append_to_own_log, log_room in *.
  pose proof (last_index_wf _ Hw) as El. pose proof (wf_snapshot _ Hw) as Hs.
  rewrite wadd64_small by lia.
  assert (Hw' : wf_log (Log_append (r_log r) [mkEntry t (Log_last_index (r_log r) + 1) k])).
  { apply append_wf; [done|by apply contiguous_cons|simpl; lia]. }
  split; simpl.
  - intros e [He| ->%list_elem_of_singleton]%elem_of_app; simpl; [|destruct (r_dirty_from r); simpl; lia].
    intros Hb. split; [done|]. destruct (r_dirty_from r) as [d|]; simpl in *; [lia|done].
  - by left.
  - intros Hd d [= <-]. simpl. rewrite append_last_index by done. simpl.
    unfold dirty_ok in Hd. destruct (r_dirty_from r) as [d|]; [specialize (Hd d eq_refl)|]; lia.
  - done.
  - done.
Qed.

Lemma log_step_merge r pi es : log_ok r -> snapshot_index (r_log r) <= pi <= Log_last_index (r_log r) ->
  contiguous_from (pi + 1) es -> pi + Z.of_nat (length es) < U64 - 1 ->
  log_step r (let r' := set_log (Log_merge_loop (r_log r) es) r in
              match es with first :: _ => mark_dirty (e_index first) r' | [] => r' end).
Proof.
  intros [Hw _] Hp Hes Hlen. cbv zeta. destruct es as [|e es]; [apply untouched_step; by split|].
  pose proof (merge_loop_outcome _ _ _ Hw Hes Hp) as Ho.
  pose proof (merge_outcome_wf _ _ _ _ Hw Hes (proj1 Hp) Hlen Ho) as Hw'.
  pose proof (last_index_wf _ Hw) as El. pose proof (last_index_wf _ Hw') as El'.
  assert (Hi : e_index e = pi + 1) by (apply contiguous_cons in Hes; tauto).
  assert (Hlog : snapshot_index (Log_merge_loop (r_log r) (e :: es)) = snapshot_index (r_log r) /\
    pi <= Log_last_index (Log_merge_loop (r_log r) (e :: es)) /\
    forall x, x ∈ entries (Log_merge_loop (r_log r) (e :: es)) -> e_index x < pi + 1 -> x ∈ entries (r_log r)).
  { destruct Ho as [|k l' Hk Hlast _ _ ->]; [split_and!; [done|lia|done]|].
    split; [done|]. split.
    - rewrite El'. simpl. rewrite length_app, length_take, length_drop. simpl in *. lia.
    - simpl. intros x [Hx|Hx]%elem_of_app Hlt; [by eapply subseteq_take|].
      apply (contiguous_drop _ _ k) in Hes; [|simpl in *; lia].
      apply list_elem_of_lookup in Hx as [j Hj]. pose proof (contiguous_lookup _ _ _ _ Hes Hj). lia. }
  destruct Hlog as (Hsn & Hlast & Hin). clear Ho. set (l' := Log_merge_loop _ _) in *. clearbody l'.
  split; simpl.
  - intros x Hx Hb. rewrite Hi in Hb. destruct (r_dirty_from r) as [d|]; simpl in *; split; try lia; apply Hin; done || lia.
  - left. by split.
  - intros Hd d [= <-]. simpl. rewrite Hsn. unfold dirty_ok in Hd.
    destruct (r_dirty_from r) as [d|]; [specialize (Hd d eq_refl)|]; lia.
  - done.
  - done.
Qed.

Lemma log_step_handle_append from pi pt es c r : log_ok r -> body_wf (AppendReq pi pt es c) ->
  log_step r (handle_append from pi pt es c r).
Proof.
  intros H (Hpi & Hes & Hlen). unfold handle_append. cbv zeta.
  pose proof (samelog_ok _ _ (samelog_follow from r) H) as H1.
  transitivity (follow from r); [auto with raft|]. set (r1 := follow from r) in *. clearbody r1. clear H.
  destruct (Z.ltb_spec pi (snapshot_index (r_log r1))) as [|Hsn]; [auto with raft|].
  destruct (Log_term_at (r_log r1) pi) as [t|] eqn:Et; [|by apply untouched_step].
  destruct (_ =? _); [|by apply untouched_step].
  assert (Hp : snapshot_index (r_log r1) <= pi <= Log_last_index (r_log r1)).
  { pose proof (last_index_wf _ (lo_wf _ H1)). pose proof (wf_snapshot _ (lo_wf _ H1)).
    destruct (term_at_Some _ (lo_wf _ H1) _ _ Et); lia. }
  destruct (Log_merge (r_log r1) pi es) as [log last_new] eqn:M.
  assert (El : log = Log_merge_loop (r_log r1) es) by (rewrite <- (merge_fst _ pi); by rewrite M).
  etransitivity; [apply (log_step_merge r1 pi es); done|]. rewrite <- El. cbv zeta.
  set (r3 := match es with [] => _ | _ => _ end). clearbody r3. apply untouched_step.
  transitivity (raise_commit (Z.min c last_new) r3); [auto with raft|].
  set (r4 := raise_commit _ r3). clearbody r4. by destruct (_ <? _).
Qed.

(** ** Installing a snapshot *)

Lemma log_step_handle_snapshot from s r : log_ok r -> body_wf (SnapshotReq s) ->
  log_step r (handle_snapshot from s r).
Proof.
  intros H Hs. unfold handle_snapshot. cbv zeta.
  pose proof (samelog_ok _ _ (samelog_follow from r) H) as H1.
  transitivity (follow from r); [auto with raft|]. set (r1 := follow from r) in *. clearbody r1. clear H.
  destruct (Z.leb_spec (sn_last_index s) (r_commit r1)) as [|Hlt]; [auto with raft|].
  simpl in Hs. pose proof (install_wf _ s (lo_wf _ H1) Hs) as Hw.
  pose proof (last_index_wf _ Hw) as El. pose proof (lo_commit _ H1) as Hc. set (log := Log_install_snapshot (r_log r1) s) in *.
  assert (Hsn : snapshot_index log = sn_last_index s).
  { unfold log, Log_install_snapshot. case_bool_decide as Et; [|done].
    pose proof (wf_snapshot _ (lo_wf _ H1)). pose proof (last_index_wf _ (lo_wf _ H1)).
    destruct (decide (sn_last_index s <= snapshot_index (r_log r1))) as [Hle|Hgt].
    - unfold Log_compact_through. rewrite (proj2 (Z.leb_le _ _)) by done.
      destruct (term_at_Some _ (lo_wf _ H1) _ _ Et); lia.
    - rewrite compact_snapshot_index by (try apply H1; lia).
      destruct (term_at_Some _ (lo_wf _ H1) _ _ Et); lia. }
  assert (Hnew : forall e, e ∈ entries log ->
    ~ before_mark (if sn_last_index s <? Log_last_index log then Some (sn_last_index s +64 1) else None) e).
  { intros e [k Hk]%list_elem_of_lookup Hb. pose proof (contiguous_lookup _ _ _ _ (wf_contiguous _ Hw) Hk).
    apply lookup_lt_Some in Hk. rewrite (proj2 (Z.ltb_lt _ _)) in Hb by lia. simpl in Hb.
    rewrite wadd64_small in Hb by lia. lia. }
  split; simpl.
  - intros e He Hb. by destruct (Hnew e He).
  - right. exists s. by split_and!.
  - intros _ d. destruct (Z.ltb_spec (sn_last_index s) (Log_last_index log)); intros [= <-].
    simpl. fold log. rewrite wadd64_small by lia. lia.
  - done.
  - intros _. right. exists s. by split_and!.
Qed.

(** ** Every input is a step *)

Lemma log_step_become_leader r : log_ok r -> log_room r -> log_step r (become_leader r).
Proof.
  intros H Hr. unfold become_leader. cbv zeta. set (r0 := set_pending_reads _ _).
  assert (S0 : samelog r r0 /\ untouched r r0) by (split; [done|unfold r0; calm_chain]). clearbody r0.
  set (r1 := reset_progress_for_config r0).
  assert (S1 : samelog r r1 /\ untouched r r1).
  { destruct S0. split; (transitivity r0; [done|unfold r1; auto with raft]). } clearbody r1. clear S0.
  destruct S1 as [S1 U1]. transitivity r1; [auto with raft|].
  etransitivity; [|apply untouched_step, untouched_broadcast].
  apply log_step_append_own; [by eapply samelog_ok|by eapply samelog_room].
Qed.

Lemma log_step_campaign_vote r : log_ok r -> log_room r -> log_step r (campaign_vote r).
Proof.
  intros H Hr. unfold campaign_vote. cbv zeta. set (r1 := campaign_draw r).
  assert (S1 : samelog r r1 /\ untouched r r1) by (split; [apply samelog_draw|apply untouched_draw]). clearbody r1.
  set (r2 := set_votes _ _). assert (S2 : samelog r r2 /\ untouched r r2).
  { destruct S1. split; (transitivity r1; [done|unfold r2; calm_chain]). }
  clearbody r2. clear S1. destruct S2 as [S2 U2]. transitivity r2; [auto with raft|]. destruct (tally _ _).
  - apply log_step_become_leader; [by eapply samelog_ok|by eapply samelog_room].
  - apply untouched_step, untouched_send_to_peers. intros. apply untouched_send.
Qed.

Lemma log_step_campaign b r : log_ok r -> log_room r -> log_step r (campaign b r).
Proof.
  intros H Hr. unfold campaign. destruct b; [|by apply log_step_campaign_vote]. cbv zeta.
  set (r1 := campaign_draw r).
  assert (S1 : samelog r r1 /\ untouched r r1) by (split; [apply samelog_draw|apply untouched_draw]). clearbody r1.
  set (r2 := set_votes _ _). assert (S2 : samelog r r2 /\ untouched r r2).
  { destruct S1. split; (transitivity r1; [done|unfold r2; calm_chain]). }
  clearbody r2. clear S1. destruct S2 as [S2 U2]. transitivity r2; [auto with raft|]. destruct (tally _ _).
  - apply log_step_campaign_vote; [by eapply samelog_ok|by eapply samelog_room].
  - apply untouched_step, untouched_send_to_peers. intros. by split.
Qed.

Lemma log_step_tick rand r : log_ok r -> log_room r -> log_step r (tick rand r).
Proof.
  intros H Hr. unfold tick. cbv zeta. set (r1 := set_election_elapsed _ _).
  assert (S1 : samelog r r1 /\ untouched r r1) by (split; [done|unfold r1; calm_chain]). clearbody r1.
  destruct S1 as [S1 U1]. transitivity r1; [auto with raft|].
  assert (Hel : log_step r1 (if promotable r1 && (r_election_timeout r1 <=? r_election_elapsed r1)
    then start_election r1 else r1)).
  { destruct (_ && _); [|reflexivity]. apply log_step_campaign; [by eapply samelog_ok|by eapply samelog_room]. }
  destruct (r_role r1); try exact Hel. clear Hel. apply untouched_step.
  etransitivity; [|apply untouched_expire]. set (r2 := set_quorum_contact_elapsed _ _).
  transitivity r2; [unfold r2; calm_chain|]. clearbody r2. set (r3 := if _ : bool then broadcast_append _ else _).
  transitivity r3; [unfold r3; destruct (_ <=? _); calm_chain|]. clearbody r3.
  destruct (_ <=? _); [|reflexivity]. etransitivity; [|apply untouched_check_quorum]. auto with raft.
Qed.

Lemma untouched_append_resp from s mi ci ct r : untouched r (handle_append_resp from s mi ci ct r).
Proof.
  unfold handle_append_resp. case_bool_decide; [reflexivity|]. cbv zeta.
  destruct (r_progress r !! from) as [p|]; [|reflexivity]. destruct s; [|calm_chain].
  set (r0 := maybe_advance_commit _). transitivity r0; [unfold r0; calm_chain|]. clearbody r0.
  destruct (r_progress r0 !! from) as [q|]; [destruct (_ <? _)|]; auto with raft; reflexivity.
Qed.

Lemma untouched_snapshot_resp from s i r : untouched r (handle_snapshot_resp from s i r).
Proof.
  unfold handle_snapshot_resp. case_bool_decide; [reflexivity|].
  destruct (r_progress r !! from) as [p|]; [|reflexivity]. destruct s; calm_chain.
Qed.

Lemma untouched_heartbeat from c x r : untouched r (handle_heartbeat from c x r).
Proof. unfold handle_heartbeat. calm_chain. Qed.

Lemma untouched_heartbeat_resp from c r : untouched r (handle_heartbeat_resp from c r).
Proof.
  unfold handle_heartbeat_resp. case_bool_decide; [reflexivity|]. cbv zeta.
  destruct (map _ _); calm_chain.
Qed.

Lemma untouched_vote_req from i t r : untouched r (handle_vote_req from i t r).
Proof.
  unfold handle_vote_req. cbv zeta. set (can := match r_vote r with None => true | Some v => _ end).
  clearbody can. destruct (can && _); calm_chain.
Qed.

Lemma untouched_pre_vote_req from pt i t r : untouched r (handle_pre_vote_req from pt i t r).
Proof. unfold handle_pre_vote_req. cbv zeta. by split. Qed.

#[export] Hint Resolve untouched_append_resp untouched_snapshot_resp untouched_heartbeat
  untouched_heartbeat_resp untouched_vote_req untouched_pre_vote_req : raft.

Lemma log_step_pre_vote_resp from t g r : log_ok r -> log_room r -> log_step r (handle_pre_vote_resp from t g r).
Proof.
  intros H Hr. unfold handle_pre_vote_resp. case_bool_decide; [reflexivity|].
  destruct (_ && _); [auto with raft|]. cbv zeta. set (r1 := set_votes _ _).
  assert (S1 : samelog r r1 /\ untouched r r1) by (split; [done|apply untouched_set_votes]). clearbody r1.
  destruct S1 as [S1 U1]. transitivity r1; [auto with raft|].
  destruct (tally _ _); [apply log_step_campaign; [by eapply samelog_ok|by eapply samelog_room]|].
  destruct (lost _ _); auto with raft; reflexivity.
Qed.

Lemma log_step_vote_resp from g r : log_ok r -> log_room r -> log_step r (handle_vote_resp from g r).
Proof.
  intros H Hr. unfold handle_vote_resp. case_bool_decide; [reflexivity|]. cbv zeta. set (r1 := set_votes _ _).
  assert (S1 : samelog r r1 /\ untouched r r1) by (split; [done|apply untouched_set_votes]). clearbody r1.
  destruct S1 as [S1 U1]. transitivity r1; [auto with raft|].
  destruct (tally _ _); [apply log_step_become_leader; [by eapply samelog_ok|by eapply samelog_room]|].
  destruct (lost _ _); auto with raft; reflexivity.
Qed.

Lemma log_step_step from m r : log_ok r -> log_room r -> body_wf (m_body m) -> log_step r (step from m r).
Proof.
  intros H Hr Hm. unfold step. cbv zeta. assert (S1 : samelog r (adopt_term from m r) /\ untouched r (adopt_term from m r)).
  { unfold adopt_term. destruct (_ && _); [auto with raft|split; reflexivity]. }
  destruct S1 as [S1 U1]. apply (samelog_ok _ _ S1) in H. apply (samelog_room _ _ S1) in Hr.
  transitivity (adopt_term from m r); [auto with raft|]. clear S1 U1.
  set (r1 := adopt_term from m r) in *. clearbody r1. destruct (_ <? _).
  - destruct (m_body m); auto with raft; reflexivity.
  - unfold handle. destruct (m_body m);
      auto using log_step_pre_vote_resp, log_step_vote_resp, log_step_handle_append,
        log_step_handle_snapshot with raft.
    destruct (promotable r1); [by apply log_step_campaign|reflexivity].
Qed.

Lemma log_step_propose data r : log_ok r -> log_room r -> log_step r (propose data r).2.
Proof.
  intros H Hr. unfold propose. case_bool_decide; [reflexivity|]. cbn [snd].
  etransitivity; [|apply untouched_step, untouched_broadcast]. by apply log_step_append_own.
Qed.

Lemma log_step_propose_config change r : log_ok r -> log_room r -> log_step r (propose_config change r).2.
Proof.
  intros H Hr. unfold propose_config. case_bool_decide; [reflexivity|]. cbv zeta.
  set (refused := match change with EnterJoint _ _ => _ | LeaveJoint => _ end). clearbody refused.
  destruct refused; [reflexivity|]. destruct (existsb _ _); [reflexivity|]. cbn [snd].
  etransitivity; [|apply untouched_step, untouched_broadcast].
  etransitivity; [|apply untouched_step, untouched_reset_progress]. by apply log_step_append_own.
Qed.

Lemma log_step_finish_config r : log_ok r -> log_room r -> log_step r (maybe_finish_config_change r).2.
Proof.
  intros H Hr. unfold maybe_finish_config_change. case_bool_decide; [reflexivity|]. cbv zeta.
  destruct (negb _); [reflexivity|]. destruct (negb _); [reflexivity|]. by apply log_step_propose_config.
Qed.

Lemma untouched_read_index r : untouched r (read_index r).2.
Proof.
  unfold read_index. case_bool_decide; [reflexivity|]. destruct (negb _); [reflexivity|]. cbv zeta.
  destruct (Config_has_quorum _ _); cbn [snd]; [calm_chain|].
  etransitivity; [|apply untouched_send_to_peers; intros; apply untouched_send]. calm_chain.
Qed.

Lemma untouched_step_down r : untouched r (step_down r).
Proof. unfold step_down. case_bool_decide; auto with raft; reflexivity. Qed.
