(* ===== verification/RaftTypes.v ===== *)
(** * The types of the consensus state machine

    The model computes with unbounded integers; the program with [u32] and
    [u64]. [typed] says that every field of a [Raft] and everything queued in
    its [Ready] lies in the range of its Rust type and within what the codec can
    write: lists short enough for a 32-bit count, data made of bytes, member
    sets encodable. It also says what a receiver relies on, that the entries of an
    append continue its previous index. Every call keeps it, so in a cluster
    whose nodes talk through encoded frames the values never leave their types
    and every frame of an admissible size decodes to the message it was made
    from. *)

From Stdlib Require Import ZArith Lia.
From stdpp Require Import base tactics functions list list_numbers gmap sets sorting.
From S2P Require Import Prelude Codec Types RaftLog Client Msg RaftState Raft RaftNode RaftCommit Cluster WalState.

Open Scope Z_scope.

Create HintDb types discriminated.
#[export] Hint Constants Opaque : types.

(** ** Words and lists *)

Lemma filter_Forall {A} (P Q : A -> Prop) `{!forall x, Decision (Q x)} (l : list A) :
  Forall P l -> Forall P (filter Q l).
Proof. rewrite !Forall_forall. intros HP x [_ Hx]%list_elem_of_filter. auto. Qed.

Lemma u64_0 : is_u64 0.
Proof. by_decide. Qed.
Lemma u64_1 : is_u64 1.
Proof. by_decide. Qed.
Lemma u32_0 : is_u32 0.
Proof. by_decide. Qed.
Lemma wadd32_range x y : is_u32 (x +32 y).
Proof. apply Z.mod_pos_bound. lia. Qed.
Lemma u64_max a b : is_u64 a -> is_u64 b -> is_u64 (Z.max a b).
Proof. unfold is_u64. lia. Qed.
Lemma u64_min a b : is_u64 a -> is_u64 b -> is_u64 (Z.min a b).
Proof. unfold is_u64. lia. Qed.
Lemma ssub_u64 a b : is_u64 a -> 0 <= b -> is_u64 (ssub a b).
Proof. unfold is_u64, ssub. lia. Qed.

(** A number is a [u64] when no bit from 64 on is set, so [u64]s are closed
    under the bitwise operations. *)
Lemma u64_bits a : 0 <= a -> (forall i, 64 <= i -> Z.testbit a i = false) -> is_u64 a.
Proof.
  intros H0 Hb. split; [done|]. change U64 with (2 ^ 64). destruct (Z.eq_dec a 0) as [->|Hn]; [lia|].
  apply Z.log2_lt_pow2; [lia|]. destruct (Z.lt_ge_cases (Z.log2 a) 64) as [|Hl]; [done|].
  specialize (Hb _ Hl). rewrite Z.bit_log2 in Hb; [done|lia].
Qed.

Lemma u64_testbit a i : is_u64 a -> 64 <= i -> Z.testbit a i = false.
Proof.
  intros [H0 H1] Hi. destruct (Z.eq_dec a 0) as [->|Hn]; [apply Z.bits_0|].
  apply Z.bits_above_log2; [done|]. enough (Z.log2 a < 64) by lia. apply Z.log2_lt_pow2; [lia|exact H1].
Qed.

Lemma u64_lxor a b : is_u64 a -> is_u64 b -> is_u64 (Z.lxor a b).
Proof.
  intros Ha Hb. apply u64_bits; [apply Z.lxor_nonneg; destruct Ha, Hb; tauto|]. intros i Hi.
  by rewrite Z.lxor_spec, !u64_testbit.
Qed.

Lemma u64_lor a b : is_u64 a -> is_u64 b -> is_u64 (Z.lor a b).
Proof.
  intros Ha Hb. apply u64_bits; [apply Z.lor_nonneg; destruct Ha, Hb; tauto|]. intros i Hi.
  by rewrite Z.lor_spec, !u64_testbit.
Qed.

Lemma opt_None {A} (P : A -> Prop) : opt_ok P None.
Proof. done. Qed.
Lemma map_Forall_none {A} (P : NodeId -> A -> Prop) : map_Forall P (∅ : gmap NodeId A).
Proof. apply map_Forall_empty. Qed.

#[export] Hint Resolve opt_None map_Forall_none Forall_nil_2 : types.
#[export] Hint Resolve u64_0 u64_1 u32_0 wadd64_range wadd32_range u64_max u64_min u64_lxor u64_lor : types.

(** ** What is well typed *)

Definition entry_typed (e : Entry) : Prop :=
  Entry_ok e /\ match e_kind e with Normal d => Forall is_u8 d | _ => True end.

Definition snapshot_typed (s : Snapshot) : Prop :=
  Snapshot_ok s /\ sn_last_index s < U64 - 1 /\ Forall is_u8 (sn_data s).

Definition body_typed (b : Body) : Prop :=
  Body_ok b /\ body_wf b /\
  match b with
  | AppendReq _ _ es _ => Forall entry_typed es
  | SnapshotReq s => snapshot_typed s
  | _ => True
  end.

Definition message_typed (m : Message) : Prop := is_u64 (m_term m) /\ body_typed (m_body m).

Definition read_typed (rs : ReadState) : Prop := is_u64 (rs_ctx rs) /\ is_u64 (rs_index rs).

Record ready_typed (rd : Ready) : Prop := {
  rt_hard_state : opt_ok HardState_ok (rd_hard_state rd);
  rt_entries : Forall entry_typed (rd_entries rd);
  rt_snapshot : opt_ok snapshot_typed (rd_snapshot rd);
  rt_messages : Forall (fun tm => message_typed tm.2) (rd_messages rd);
  rt_committed : Forall entry_typed (rd_committed rd);
  rt_reads : Forall read_typed (rd_reads rd)
}.

Definition progress_typed (p : Progress) : Prop :=
  is_u64 (p_next p) /\ is_u64 (p_matched p) /\ is_u64 (p_pending_snapshot p) /\
  is_u32 (p_pending_snapshot_age p).

Definition pending_read_typed (pr : PendingRead) : Prop := is_u64 (pr_ctx pr) /\ is_u64 (pr_index pr).

(** A log with room for [k] more entries. *)
Record log_typed (k : Z) (l : Log) : Prop := {
  lt_wf : wf_log l;
  lt_room : Log_last_index l + k < U64 - 1;
  lt_entries : Forall entry_typed (entries l);
  lt_term : is_u64 (snapshot_term l);
  lt_config : Config_ok (snapshot_config l)
}.

Definition opts_typed (o : RaftOptions) : Prop :=
  is_u32 (o_max_entries_per_append o) /\ is_u32 (o_election_ticks o).

Record typed (k : Z) (r : Raft) : Prop := {
  ty_id : is_u32 (r_id r);
  ty_opts : opts_typed (r_opts r);
  ty_term : is_u64 (r_term r);
  ty_vote : opt_ok is_u32 (r_vote r);
  ty_log : log_typed k (r_log r);
  ty_commit : is_u64 (r_commit r);
  ty_applied : is_u64 (r_applied r);
  ty_persisted : is_u64 (r_persisted r);
  ty_leader : opt_ok is_u32 (r_leader r);
  ty_election_elapsed : is_u32 (r_election_elapsed r);
  ty_heartbeat_elapsed : is_u32 (r_heartbeat_elapsed r);
  ty_election_timeout : is_u32 (r_election_timeout r);
  ty_quorum_contact : is_u32 (r_quorum_contact_elapsed r);
  ty_progress : map_Forall (fun _ => progress_typed) (r_progress r);
  ty_pending_reads : Forall pending_read_typed (r_pending_reads r);
  ty_read_ctx : is_u64 (r_read_ctx r);
  ty_pending : ready_typed (r_pending r);
  ty_persisted_hard_state : HardState_ok (r_persisted_hard_state r);
  ty_dirty_from : opt_ok is_u64 (r_dirty_from r);
  ty_rand : is_u64 (r_rand r)
}.

(** The calls the driver makes: what its arguments are in the program. *)
Definition input_typed (i : Input) : Prop :=
  match i with
  | ITick rand => is_u64 rand
  | IStep from m => is_u32 from /\ message_typed m
  | IPropose data | ICompact data => fits_u32 data /\ Forall is_u8 data
  | IProposeConfig change => ConfigChange_ok change
  | IPersisted index => is_u64 index
  | ISendSnapshot _ s => snapshot_typed s
  | _ => True
  end.

#[export] Instance entry_typed_dec e : Decision (entry_typed e).
Proof. unfold entry_typed. destruct (e_kind e); apply _. Defined.
#[export] Instance snapshot_typed_dec s : Decision (snapshot_typed s).
Proof. unfold snapshot_typed. apply _. Defined.
#[export] Instance body_wf_dec b : Decision (body_wf b).
Proof. destruct b; simpl; apply _. Defined.
#[export] Instance body_typed_dec b : Decision (body_typed b).
Proof. unfold body_typed. destruct b; apply _. Defined.
#[export] Instance message_typed_dec m : Decision (message_typed m).
Proof. unfold message_typed. apply _. Defined.
#[export] Instance input_typed_dec i : Decision (input_typed i).
Proof. destruct i; simpl; apply _. Defined.

(** ** Logs *)

Section LogTypes.
Context (k : Z) (l : Log) (Hl : log_typed k l).

Lemma last_index_u64 : is_u64 (Log_last_index l).
Proof using Hl.
  pose proof (lt_wf _ _ Hl) as Hw. pose proof (last_index_wf _ Hw). destruct Hw. unfold is_u64. lia.
Qed.

Lemma snapshot_index_u64 : is_u64 (snapshot_index l).
Proof using Hl. destruct (lt_wf _ _ Hl). unfold is_u64. lia. Qed.

Lemma entry_of_log e : e ∈ entries l -> entry_typed e.
Proof using Hl. pose proof (lt_entries _ _ Hl) as H. rewrite Forall_forall in H. apply H. Qed.

Lemma slice_typed a b : Forall entry_typed (Log_slice l a b).
Proof using Hl. eapply Forall_impl; [apply slice_sub|apply entry_of_log]. Qed.

Lemma last_term_u64 : is_u64 (Log_last_term l).
Proof using Hl.
  unfold Log_last_term. destruct (last (entries l)) as [e|] eqn:E; [|by apply Hl].
  apply last_Some_elem_of, entry_of_log in E. apply E.
Qed.

Lemma term_at_u64 i t : Log_term_at l i = Some t -> is_u64 t.
Proof using Hl.
  unfold Log_term_at. destruct (i =? 0); [by intros [= <-]; apply u64_0|].
  destruct (i =? snapshot_index l); [by intros [= <-]; apply Hl|]. unfold Log_get.
  destruct (Log_slot l i) as [j|]; [|done]. destruct (entries l !! j) as [e|] eqn:E; [|done].
  intros [= <-]. by apply list_elem_of_lookup_2, entry_of_log in E as [(? & _) _].
Qed.

Lemma find_conflict_u64 i t : is_u64 i -> is_u64 (Log_find_conflict_by_term l i t).
Proof using Hl.
  intros Hi. pose proof last_index_u64 as Hlast. pose proof snapshot_index_u64 as Hs.
  unfold Log_find_conflict_by_term. cbv zeta. destruct (Z.leb_spec (Z.min i (Log_last_index l)) (snapshot_index l));
    [by apply u64_min|].
  assert (H' : forall n, snapshot_index l + Z.of_nat n <= Log_last_index l -> is_u64 (find_conflict_loop l t n)).
  { induction n as [|n IH]; intros Hn; cbn -[Z.of_nat]; [unfold is_u64 in *; lia|].
    destruct (Log_term_at l _) as [u|]; [destruct (u <=? t)|]; [unfold is_u64 in *; lia|apply IH; lia|unfold is_u64 in *; lia]. }
  apply H'. lia.
Qed.

Lemma log_config_ok : Config_ok (Log_config l).
Proof using Hl.
  unfold Log_config. pose proof (lt_entries _ _ Hl) as He. pose proof (lt_config _ _ Hl) as Hc.
  revert Hc. generalize (snapshot_config l). induction He as [|e es He _ IH]; intros c Hc; simpl; [done|].
  apply IH. destruct He as [(_ & _ & Hk) _]. unfold replay_entry. destruct (e_kind e) as [|[|]|]; try done.
  - destruct Hk, Hc as (? & ? & ?). by split_and!.
  - destruct Hc as (? & ? & ?). by split_and!.
Qed.

Lemma log_typed_mono k' : k' <= k -> log_typed k' l.
Proof using Hl. destruct Hl. intros. split; try done. lia. Qed.

Lemma append_typed k' es : contiguous_from (Log_last_index l + 1) es -> 0 <= k' ->
  Z.of_nat (length es) + k' <= k -> Forall entry_typed es -> log_typed k' (Log_append l es).
Proof using Hl.
  destruct Hl as [Hw Hr He Ht Hc]. intros Hes Hk Hlen Htyped.
  assert (Hw' : wf_log (Log_append l es)) by (apply append_wf; [done..|lia]).
  split; [done| |by apply Forall_app|done|done]. rewrite append_last_index by done. rewrite last_index_wf in Hr by done. lia.
Qed.

Lemma merge_typed pi es : snapshot_index l <= pi <= Log_last_index l -> contiguous_from (pi + 1) es ->
  pi + Z.of_nat (length es) < U64 - 1 -> Forall entry_typed es -> log_typed 0 (Log_merge_loop l es).
Proof using Hl.
  destruct Hl as [Hw Hr He Ht Hc]. intros Hp Hes Hlen Htyped.
  pose proof (merge_loop_outcome _ _ _ Hw Hes Hp) as Ho.
  pose proof (merge_outcome_wf _ _ _ _ Hw Hes (proj1 Hp) Hlen Ho) as Hw'.
  pose proof (last_index_wf _ Hw') as E. pose proof (wf_room _ Hw').
  destruct Ho as [|j l' Hj Hlast _ _ ->]; split; try done; try lia.
  simpl. apply Forall_app. split; [by apply Forall_take|by apply Forall_drop].
Qed.

Lemma compact_typed through term cfg : is_u64 term -> Config_ok cfg ->
  log_typed k (Log_compact_through l through term cfg).
Proof using Hl.
  pose proof Hl as [Hw Hr He Ht Hc]. intros Hterm Hcfg. split.
  - by apply compact_wf.
  - by rewrite compact_last_index.
  - unfold Log_compact_through. destruct (_ <=? _); [done|]. by apply Forall_drop.
  - unfold Log_compact_through. by destruct (_ <=? _).
  - unfold Log_compact_through. by destruct (_ <=? _).
Qed.

Lemma install_typed s : snapshot_typed s -> log_typed 0 (Log_install_snapshot l s).
Proof using Hl.
  intros ((Hi & Ht & Hc & _) & Hroom & _). destruct Hi as [Hi _].
  pose proof (wf_room _ (lt_wf _ _ Hl)) as Hr. pose proof (last_index_wf _ (lt_wf _ _ Hl)).
  unfold Log_install_snapshot. case_bool_decide.
  - destruct (compact_typed (sn_last_index s) _ _ Ht Hc) as [Hw _ He ? ?]. split; try done.
    rewrite compact_last_index by apply Hl. lia.
  - split; try done; [by split; simpl; try done; lia|]. unfold Log_last_index. simpl. lia.
Qed.
End LogTypes.

(** ** Updates *)

Section Updates.
Context {k : Z} {r : Raft} (H : typed k r).

Lemma typed_set_term v : is_u64 v -> typed k (set_term v r).
Proof using H. destruct H. by split. Qed.
Lemma typed_set_vote v : opt_ok is_u32 v -> typed k (set_vote v r).
Proof using H. destruct H. by split. Qed.
Lemma typed_set_commit v : is_u64 v -> typed k (set_commit v r).
Proof using H. destruct H. by split. Qed.
Lemma typed_set_applied v : is_u64 v -> typed k (set_applied v r).
Proof using H. destruct H. by split. Qed.
Lemma typed_set_persisted v : is_u64 v -> typed k (set_persisted v r).
Proof using H. destruct H. by split. Qed.
Lemma typed_set_role v : typed k (set_role v r).
Proof using H. destruct H. by split. Qed.
Lemma typed_set_leader v : opt_ok is_u32 v -> typed k (set_leader v r).
Proof using H. destruct H. by split. Qed.
Lemma typed_set_votes v : typed k (set_votes v r).
Proof using H. destruct H. by split. Qed.
Lemma typed_set_election_elapsed v : is_u32 v -> typed k (set_election_elapsed v r).
Proof using H. destruct H. by split. Qed.
Lemma typed_set_heartbeat_elapsed v : is_u32 v -> typed k (set_heartbeat_elapsed v r).
Proof using H. destruct H. by split. Qed.
Lemma typed_set_election_timeout v : is_u32 v -> typed k (set_election_timeout v r).
Proof using H. destruct H. by split. Qed.
Lemma typed_set_quorum_contact_elapsed v : is_u32 v -> typed k (set_quorum_contact_elapsed v r).
Proof using H. destruct H. by split. Qed.
Lemma typed_set_progress v : map_Forall (fun _ => progress_typed) v -> typed k (set_progress v r).
Proof using H. destruct H. by split. Qed.
Lemma typed_set_pending_reads v : Forall pending_read_typed v -> typed k (set_pending_reads v r).
Proof using H. destruct H. by split. Qed.
Lemma typed_set_read_ctx v : is_u64 v -> typed k (set_read_ctx v r).
Proof using H. destruct H. by split. Qed.
Lemma typed_set_committed_own_term v : typed k (set_committed_own_term v r).
Proof using H. destruct H. by split. Qed.
Lemma typed_set_pending v : ready_typed v -> typed k (set_pending v r).
Proof using H. destruct H. by split. Qed.
Lemma typed_set_hard_state_dirty v : typed k (set_hard_state_dirty v r).
Proof using H. destruct H. by split. Qed.
Lemma typed_set_persisted_hard_state v : HardState_ok v -> typed k (set_persisted_hard_state v r).
Proof using H. destruct H. by split. Qed.
Lemma typed_set_dirty_from v : opt_ok is_u64 v -> typed k (set_dirty_from v r).
Proof using H. destruct H. by split. Qed.
Lemma typed_set_rand v : is_u64 v -> typed k (set_rand v r).
Proof using H. destruct H. by split. Qed.
Lemma typed_set_log k' v : log_typed k' v -> typed k' (set_log v r).
Proof using H. destruct H. by split. Qed.
Lemma typed_mono k' : k' <= k -> typed k' r.
Proof using H. intros. pose proof (log_typed_mono _ _ (ty_log _ _ H) k'). destruct H. split; auto. Qed.

Lemma hard_state_typed : HardState_ok (Raft_hard_state r).
Proof using H. destruct H. by split_and!. Qed.
Lemma last_typed : is_u64 (Log_last_index (r_log r)).
Proof using H. eapply last_index_u64, ty_log, H. Qed.
Lemma own_id_typed : opt_ok is_u32 (Some (r_id r)).
Proof using H. apply H. Qed.

Lemma typed_push_message to m : message_typed m -> typed k (push_message to m r).
Proof using H.
  intros Hm. apply typed_set_pending. destruct (ty_pending _ _ H). split; try done. simpl.
  apply Forall_app. split; [done|]. by constructor.
Qed.
Lemma typed_send to b : body_typed b -> typed k (send to b r).
Proof using H. intros Hb. apply typed_push_message. split; [apply H|done]. Qed.
Lemma typed_push_reads l : Forall read_typed l -> typed k (push_reads l r).
Proof using H.
  intros Hl. apply typed_set_pending. destruct (ty_pending _ _ H). split; try done. simpl. by apply Forall_app.
Qed.
Lemma typed_supersede s : snapshot_typed s -> typed k (supersede_pending s r).
Proof using H. intros Hs. apply typed_set_pending. destruct (ty_pending _ _ H). by split. Qed.
Lemma typed_insert_progress id p : progress_typed p -> map_Forall (fun _ => progress_typed) (<[id := p]> (r_progress r)).
Proof using H. intros Hp. apply map_Forall_insert_2; [done|apply H]. Qed.
Lemma typed_update_progress id f : (forall p, progress_typed p -> progress_typed (f p)) ->
  typed k (update_progress id f r).
Proof using H.
  intros Hf. unfold update_progress. destruct (r_progress r !! id) as [p|] eqn:E; [|done].
  apply typed_set_progress, typed_insert_progress, Hf. by eapply (ty_progress _ _ H).
Qed.
End Updates.

#[export] Hint Resolve ty_id ty_term ty_vote ty_commit ty_applied ty_persisted ty_leader ty_read_ctx
  ty_rand ty_persisted_hard_state ty_pending_reads : types.
#[export] Hint Resolve typed_set_term typed_set_vote typed_set_commit typed_set_applied typed_set_persisted typed_set_role typed_set_leader typed_set_votes typed_set_election_elapsed typed_set_heartbeat_elapsed typed_set_election_timeout typed_set_quorum_contact_elapsed typed_set_progress typed_set_pending_reads typed_set_read_ctx typed_set_committed_own_term typed_set_pending typed_set_hard_state_dirty typed_set_persisted_hard_state typed_set_dirty_from typed_set_rand : types.
#[export] Hint Resolve hard_state_typed last_typed own_id_typed typed_push_message typed_send typed_push_reads
  typed_supersede typed_insert_progress typed_update_progress : types.

Lemma typed_fold {A} k (f : Raft -> A -> Raft) (xs : list A) r :
  (forall r x, typed k r -> typed k (f r x)) -> typed k r -> typed k (fold_left f xs r).
Proof. intros Hf. revert r. induction xs as [|x xs IH]; intros r H; simpl; auto. Qed.

Lemma typed_send_to_peers k f r : (forall peer r, typed k r -> typed k (f peer r)) -> typed k r ->
  typed k (send_to_peers f r).
Proof. intros Hf. apply typed_fold. intros r' peer H. destruct (negb _); auto. Qed.
(** ** Replication *)

(** A slice from above the snapshot point starts at its lower bound. *)
Lemma slice_contiguous l from to : wf_log l -> snapshot_index l < from ->
  contiguous_from from (Log_slice l from to) /\
  Z.of_nat (length (Log_slice l from to)) <= Z.max 0 (to - from) /\
  from - 1 + Z.of_nat (length (Log_slice l from to)) <= Z.max (from - 1) (Log_last_index l).
Proof.
  intros Hw Hf. rewrite slice_filter, (filter_range_contiguous _ _ _ _ (wf_contiguous _ Hw)), last_index_wf by done.
  set (n := Z.to_nat (from - (snapshot_index l + 1))). destruct (decide (n <= length (entries l))%nat) as [Hn|Hn].
  2: { rewrite drop_ge by lia. rewrite take_nil. split_and!; simpl; try done; lia. }
  rewrite length_take, length_drop. split_and!; [|lia|lia]. apply contiguous_take.
  replace from with (snapshot_index l + 1 + Z.of_nat n) at 1 by lia. by apply contiguous_drop, wf_contiguous.
Qed.

Lemma append_request_typed k r next pt (cut : nat) : typed k r -> Log_first_index (r_log r) <= next ->
  Log_term_at (r_log r) (next - 1) = Some pt ->
  let es := Log_slice (r_log r) next
    (Z.min (next +64 o_max_entries_per_append (r_opts r)) (Log_last_index (r_log r) +64 1)) in
  body_typed (AppendReq (next - 1) pt (take cut es) (r_commit r)).
Proof.
  intros H Hfirst Hpt es. pose proof (lt_wf _ _ (ty_log _ _ H)) as Hw.
  rewrite first_index_wf in Hfirst by done. pose proof (wf_snapshot _ Hw).
  pose proof (last_index_wf _ Hw) as El. pose proof (wf_room _ Hw).
  assert (Hnext : next - 1 <= Log_last_index (r_log r)) by (destruct (term_at_Some _ Hw _ _ Hpt); lia).
  pose proof (slice_contiguous (r_log r) next
    (Z.min (next +64 o_max_entries_per_append (r_opts r)) (Log_last_index (r_log r) +64 1)) Hw) as S.
  fold es in S. destruct S as (Hc & Hlen & Hend); [lia|].
  assert (Ht : Forall entry_typed (take cut es)) by (apply Forall_take; eapply slice_typed, ty_log, H).
  assert (Hmax : (next +64 o_max_entries_per_append (r_opts r)) <= next + o_max_entries_per_append (r_opts r)).
  { destruct (ty_opts _ _ H) as [[? _] _]. apply Z.mod_le; lia. }
  destruct (ty_opts _ _ H) as [[? ?] _]. assert (Hcut : (length (take cut es) <= length es)%nat) by (rewrite length_take; lia).
  split; [|split; [|done]].
  - split_and!.
    + unfold is_u64. lia.
    + eapply term_at_u64, Hpt. apply H.
    + apply H.
    + unfold fits_u32. lia.
    + eapply Forall_impl; [exact Ht|]. by intros ? [].
  - split_and!; [lia| |lia]. rewrite Z.sub_add. by apply contiguous_take.
Qed.

Lemma typed_send_append_to k peer r : typed k r -> typed k (send_append_to peer r).
Proof.
  intros H. unfold send_append_to. destruct (r_progress r !! peer) as [p|]; [|done].
  destruct (bool_decide _ && _); [done|]. cbv zeta.
  assert (Hp : typed k (update_progress peer (set_state PSnapshot) r)) by eauto with types.
  destruct (Log_term_at _ _) as [t|] eqn:Et; [|done].
  destruct (Z.ltb_spec (p_next p) (Log_first_index (r_log r))) as [|Hfirst]; [done|].
  pose proof (lt_wf _ _ (ty_log _ _ H)) as Hw. pose proof (first_index_wf _ Hw) as Ef. pose proof (wf_snapshot _ Hw).
  replace (ssub (p_next p) 1) with (p_next p - 1) in * by (unfold ssub; lia).
  apply typed_send; [done|]. by apply (append_request_typed k).
Qed.

#[export] Hint Resolve typed_send_append_to typed_send_to_peers : types.

Lemma typed_broadcast k r : typed k r -> typed k (broadcast_append r).
Proof. unfold broadcast_append. eauto with types. Qed.

Lemma typed_append_own r kind : typed 1 r -> EntryKind_ok kind ->
  (forall d, kind = Normal d -> Forall is_u8 d) ->
  typed 0 (append_to_own_log [mkEntry (r_term r) (Log_last_index (r_log r) +64 1) kind] r).
Proof.
  intros H Hkind Hd. unfold append_to_own_log, mark_dirty.
  pose proof (lt_wf _ _ (ty_log _ _ H)) as Hw. pose proof (last_index_succ_wf _ Hw) as E.
  apply (typed_set_log (k := 1)).
  - apply typed_set_dirty_from; [done|]. pose proof (ty_dirty_from _ _ H) as Hf.
    destruct (r_dirty_from r); simpl in *; eauto with types.
  - apply append_typed with (k := 1); [apply H| |done|simpl; lia|].
    + simpl. apply contiguous_cons. split; [simpl; lia|apply contiguous_nil].
    + apply Forall_singleton. split; [|destruct kind; simpl; auto].
      split_and!; [apply H|apply wadd64_range|done].
Qed.

Lemma typed_advance_commit k r : typed k r -> typed k (maybe_advance_commit r).
Proof.
  intros H. unfold maybe_advance_commit. cbv zeta. set (c := Config_quorum_index _ _). clearbody c.
  destruct (Z.leb_spec c (r_commit r)) as [|Hc]; [done|]. case_bool_decide as Et; [done|].
  assert (Hc' : is_u64 c).
  { pose proof (lt_wf _ _ (ty_log _ _ H)) as Hw.
    pose proof (last_typed H) as Hl. pose proof (ty_commit _ _ H) as Hm.
    unfold is_u64 in *. destruct (term_at_Some _ Hw _ _ Et); lia. }
  eauto 10 with types.
Qed.

Lemma typed_become_follower k t l r : is_u64 t -> opt_ok is_u32 l -> typed k r -> typed k (become_follower t l r).
Proof.
  intros Ht Hl H. unfold become_follower. cbv zeta.
  destruct (_ <? _); eauto 15 with types.
Qed.

#[export] Hint Resolve typed_broadcast typed_advance_commit typed_become_follower : types.

Lemma progress_keep (p : Progress) next matched s b : progress_typed p -> is_u64 next -> is_u64 matched ->
  progress_typed (mkProgress next matched s (p_pending_snapshot p) (p_pending_snapshot_age p) b).
Proof. by intros (_ & _ & ? & ?) ? ?. Qed.

Lemma progress_fresh next matched s b : is_u64 next -> is_u64 matched -> progress_typed (mkProgress next matched s 0 0 b).
Proof. by intros ? ?. Qed.

#[export] Hint Resolve progress_keep progress_fresh : types.

Lemma typed_reset_progress k r : typed k r -> typed k (reset_progress_for_config r).
Proof.
  intros H. unfold reset_progress_for_config. cbv zeta.
  set (filled := fold_left _ _ _). assert (Hf : map_Forall (fun _ => progress_typed) filled).
  { unfold filled. generalize (sorted_elements (Config_all_nodes (Log_config (r_log r)))). intros ids.
    assert (H0 : map_Forall (fun _ => progress_typed)
      (filter (fun kv => kv.1 ∈ Config_all_nodes (Log_config (r_log r))) (r_progress r))).
    { intros i p [Hp _]%map_lookup_filter_Some. apply (ty_progress _ _ H _ _ Hp). }
    revert H0. generalize (filter (fun kv : NodeId * Progress => kv.1 ∈ Config_all_nodes (Log_config (r_log r))) (r_progress r)).
    induction ids as [|id ids IH]; intros m Hm; simpl; [done|]. apply IH. destruct (m !! id); [done|].
    apply map_Forall_insert_2; [|done]. unfold fresh_progress, Progress_new.
    destruct (_ =? _); eauto with types. }
  clearbody filled. apply typed_update_progress; eauto with types.
Qed.

#[export] Hint Resolve typed_reset_progress : types.

Lemma typed_become_leader r : typed 1 r -> typed 0 (become_leader r).
Proof.
  intros H. unfold become_leader. cbv zeta. apply typed_broadcast, typed_append_own; [|done|done]. eauto 15 with types.
Qed.

Lemma typed_draw k r : typed k r -> typed k (campaign_draw r).
Proof. intros H. unfold campaign_draw, stir. cbv zeta. eauto 10 with types. Qed.

#[export] Hint Resolve typed_become_leader typed_draw : types.

Lemma vote_request_typed k r : typed k r -> body_typed (VoteReq (Log_last_index (r_log r)) (Log_last_term (r_log r))).
Proof.
  intros H. split; [|done]. split; [eapply last_index_u64|eapply last_term_u64]; apply H.
Qed.

Lemma typed_campaign_vote r : typed 1 r -> typed 0 (campaign_vote r).
Proof.
  intros H. unfold campaign_vote. cbv zeta. set (r1 := campaign_draw r).
  assert (H1 : typed 1 r1) by (unfold r1; eauto with types). clearbody r1. set (r2 := set_votes _ _).
  assert (H2 : typed 1 r2) by (unfold r2; eauto 15 with types). clearbody r2.
  destruct (tally _ _); [eauto with types|]. apply (typed_mono (k := 1)); [|lia].
  apply typed_send_to_peers; [|done]. intros. apply typed_send; [done|]. by apply (vote_request_typed 1).
Qed.

Lemma typed_campaign b r : typed 1 r -> typed 0 (campaign b r).
Proof.
  intros H. unfold campaign. destruct b; [|by apply typed_campaign_vote]. cbv zeta. set (r1 := campaign_draw r).
  assert (H1 : typed 1 r1) by (unfold r1; eauto with types). clearbody r1. set (r2 := set_votes _ _).
  assert (H2 : typed 1 r2) by (unfold r2; eauto with types). clearbody r2.
  destruct (tally _ _); [by apply typed_campaign_vote|]. apply (typed_mono (k := 1)); [|lia].
  apply typed_send_to_peers; [|done]. intros. apply typed_push_message; [done|].
  split; [apply wadd64_range|]. destruct (vote_request_typed _ _ H1). by split.
Qed.

Lemma typed_expire k r : typed k r -> typed k (expire_pending_snapshots r).
Proof.
  intros H. unfold expire_pending_snapshots. cbv zeta. apply typed_fold; [eauto with types|].
  apply typed_set_progress; [done|]. intros id p Hp. rewrite lookup_fmap in Hp.
  destruct (r_progress r !! id) as [q|] eqn:E; [|done]. injection Hp as <-.
  pose proof (ty_progress _ _ H _ _ E) as (? & ? & ? & ?). unfold expire_one.
  destruct (_ =? _); [done|]. destruct (_ <? _); split_and!; done || apply wadd32_range.
Qed.

Lemma typed_check_quorum k r : typed k r -> typed k (check_quorum r).
Proof.
  intros H. unfold check_quorum. cbv zeta. set (r1 := set_progress _ r). assert (H1 : typed k r1).
  { apply typed_set_progress; [done|]. intros id p Hp. rewrite lookup_fmap in Hp.
    destruct (r_progress r !! id) as [q|] eqn:E; [|done]. injection Hp as <-. apply (ty_progress _ _ H _ _ E). }
  clearbody r1. destruct (Config_has_quorum _ _); [eauto with types|]. apply typed_become_follower; try done. apply H.
Qed.

#[export] Hint Resolve typed_expire typed_check_quorum typed_campaign_vote typed_campaign : types.

Lemma typed_tick rand r : is_u64 rand -> typed 1 r -> typed 0 (tick rand r).
Proof.
  intros Hr H. unfold tick. cbv zeta. set (r1 := set_election_elapsed _ _).
  assert (H1 : typed 1 r1) by (unfold r1; eauto 8 with types). clearbody r1.
  assert (Hel : typed 0 (if promotable r1 && (r_election_timeout r1 <=? r_election_elapsed r1)
    then start_election r1 else r1)).
  { destruct (_ && _); [by apply typed_campaign|]. by apply (typed_mono (k := 1)). }
  destruct (r_role r1); try exact Hel. clear Hel. apply (typed_mono (k := 1)); [|lia]. apply typed_expire.
  set (r2 := if _ : bool then broadcast_append _ else _).
  assert (H2 : typed 1 r2) by (unfold r2; destruct (_ <=? _); eauto 8 with types). clearbody r2.
  destruct (_ <=? _); eauto with types.
Qed.

(** ** Message handlers *)

Lemma typed_follow k from r : is_u32 from -> typed k r -> typed k (follow from r).
Proof.
  intros Hf H. assert (Ho : opt_ok is_u32 (Some from)) by done. unfold follow. cbv zeta.
  case_bool_decide; eauto 8 with types.
Qed.

Lemma typed_raise_commit k c r : is_u64 c -> typed k r -> typed k (raise_commit c r).
Proof. intros Hc H. unfold raise_commit. destruct (_ <? _); eauto with types. Qed.

#[export] Hint Resolve typed_follow typed_raise_commit : types.

Lemma append_resp_typed s mi ci ct : is_u64 mi -> is_u64 ci -> is_u64 ct -> body_typed (AppendResp s mi ci ct).
Proof. unfold body_typed. simpl. tauto. Qed.
Lemma snapshot_resp_typed s i : is_u64 i -> body_typed (SnapshotResp s i).
Proof. unfold body_typed. simpl. tauto. Qed.
Lemma heartbeat_req_typed c x : is_u64 c -> is_u64 x -> body_typed (HeartbeatReq c x).
Proof. unfold body_typed. simpl. tauto. Qed.
Lemma heartbeat_resp_typed x : is_u64 x -> body_typed (HeartbeatResp x).
Proof. unfold body_typed. simpl. tauto. Qed.
Lemma vote_resp_typed g : body_typed (VoteResp g).
Proof. unfold body_typed. simpl. tauto. Qed.
Lemma pre_vote_resp_typed g : body_typed (PreVoteResp g).
Proof. unfold body_typed. simpl. tauto. Qed.
Lemma timeout_now_typed : body_typed TimeoutNow.
Proof. unfold body_typed. simpl. tauto. Qed.
Lemma snapshot_req_typed s : snapshot_typed s -> body_typed (SnapshotReq s).
Proof. intros Hs. split; [apply Hs|]. split; [|done]. destruct Hs as (([? _] & _) & ? & _). by split. Qed.

#[export] Hint Resolve append_resp_typed snapshot_resp_typed heartbeat_req_typed heartbeat_resp_typed
  vote_resp_typed pre_vote_resp_typed timeout_now_typed snapshot_req_typed : types.

Lemma typed_handle_append k from pi pt es c r : 0 <= k -> is_u32 from -> body_typed (AppendReq pi pt es c) ->
  typed k r -> typed 0 (handle_append from pi pt es c r).
Proof.
  intros Hk Hf ((Hpi & Hpt & Hc & _) & (Hp0 & Hes & Hlen) & Ht) H. apply (typed_follow k from) in H; [|done].
  unfold handle_append. cbv zeta. set (r1 := follow from r) in *. clearbody r1.
  assert (Hs : is_u64 (snapshot_index (r_log r1))) by (eapply snapshot_index_u64, ty_log, H).
  pose proof (typed_mono H 0 Hk) as H0.
  destruct (Z.ltb_spec pi (snapshot_index (r_log r1))) as [|Hsn]; [eauto with types|].
  destruct (Log_term_at (r_log r1) pi) as [t|] eqn:Et; [|eauto 6 with types].
  assert (Htt : is_u64 t) by (eapply term_at_u64, Et; apply H).
  destruct (_ =? _).
  2: { apply typed_send; [done|]. apply append_resp_typed; [eauto with types| |done].
       eapply find_conflict_u64; [apply H|done]. }
  assert (Hp : snapshot_index (r_log r1) <= pi <= Log_last_index (r_log r1)).
  { pose proof (lt_wf _ _ (ty_log _ _ H)) as Hw. pose proof (last_index_wf _ Hw). pose proof (wf_snapshot _ Hw).
    destruct (term_at_Some _ Hw _ _ Et); lia. }
  destruct (Log_merge (r_log r1) pi es) as [log last_new] eqn:M.
  assert (El : log = Log_merge_loop (r_log r1) es) by (rewrite <- (merge_fst _ pi); by rewrite M).
  assert (En : is_u64 last_new).
  { unfold Log_merge in M. destruct (last es) as [e|] eqn:E; injection M as _ <-; [|done].
    apply last_Some_elem_of in E. rewrite Forall_forall in Ht. apply (Ht e E). }
  assert (H2 : typed 0 (set_log log r1)).
  { apply (typed_set_log H0). rewrite El. eapply merge_typed; [apply H|done..]. }
  set (r3 := match es with [] => _ | _ => _ end). assert (H3 : typed 0 r3).
  { unfold r3, mark_dirty. destruct es as [|e es']; [done|]. apply Forall_cons in Ht as [Ht _].
    apply typed_set_dirty_from; [done|]. pose proof (ty_dirty_from _ _ H2) as Hd.
    assert (He : is_u64 (e_index e)) by apply Ht. destruct (r_dirty_from _); simpl in *; eauto with types. }
  clearbody r3. apply typed_send; [|eauto with types].
  assert (H4 : typed 0 (raise_commit (Z.min c last_new) r3)) by eauto with types.
  destruct (_ <? _); eauto with types.
Qed.

Lemma typed_append_resp k from s mi ci ct r : is_u64 mi -> is_u64 ci -> is_u64 ct -> typed k r ->
  typed k (handle_append_resp from s mi ci ct r).
Proof.
  intros Hmi Hci Hct H. unfold handle_append_resp. case_bool_decide; [done|]. cbv zeta.
  destruct (r_progress r !! from) as [p|] eqn:E; [|done]. pose proof (ty_progress _ _ H _ _ E) as Hp.
  destruct s.
  - set (q := if _ : bool then mkProgress _ _ _ _ _ _ else _).
    assert (Hq : progress_typed q) by (unfold q; destruct (_ <=? _); [eauto with types|done]). clearbody q.
    set (r1 := maybe_advance_commit _). assert (H1 : typed k r1) by (unfold r1; eauto with types). clearbody r1.
    destruct (match r_progress r1 !! from with Some _ => _ | None => _ end); eauto with types.
  - set (next := if 0 <? ct then _ else _).
    assert (Hn : is_u64 next) by (unfold next; destruct (_ <? _); eauto with types). clearbody next.
    apply typed_send_append_to, typed_set_progress; [done|]. eapply typed_insert_progress; [done|].
    apply progress_keep; [done| |apply Hp]. eauto with types.
Qed.

Lemma typed_handle_snapshot k from s r : 0 <= k -> is_u32 from -> snapshot_typed s -> typed k r ->
  typed 0 (handle_snapshot from s r).
Proof.
  intros Hk Hf Hs H. apply (typed_follow k from) in H; [|done]. pose proof (typed_mono H 0 Hk) as H0.
  unfold handle_snapshot. cbv zeta. set (r1 := follow from r) in *. clearbody r1.
  assert (Hi : is_u64 (sn_last_index s)) by apply Hs.
  destruct (_ <=? _); [eauto with types|].
  assert (H1 : typed 0 (set_log (Log_install_snapshot (r_log r1) s) r1)).
  { apply (typed_set_log H0). eapply install_typed; [apply H|done]. }
  assert (Hd : opt_ok is_u64 (if sn_last_index s <? Log_last_index (Log_install_snapshot (r_log r1) s)
    then Some (sn_last_index s +64 1) else None)) by (destruct (_ <? _); simpl; eauto with types).
  apply typed_send; [|eauto with types]. apply typed_supersede; [|done]. apply typed_set_dirty_from; [|done].
  eauto 8 with types.
Qed.

Lemma typed_snapshot_resp k from s i r : is_u64 i -> typed k r -> typed k (handle_snapshot_resp from s i r).
Proof.
  intros Hi H. unfold handle_snapshot_resp. case_bool_decide; [done|].
  destruct (r_progress r !! from) as [p|] eqn:E; [|done]. pose proof (ty_progress _ _ H _ _ E) as (? & ? & _).
  destruct s; cbv zeta; eauto 8 with types.
Qed.

Lemma typed_heartbeat k from c x r : is_u32 from -> is_u64 c -> is_u64 x -> typed k r ->
  typed k (handle_heartbeat from c x r).
Proof. intros Hf Hc Hx H. unfold handle_heartbeat. cbv zeta. eauto 8 with types. Qed.

Lemma typed_heartbeat_resp k from x r : is_u64 x -> typed k r -> typed k (handle_heartbeat_resp from x r).
Proof.
  intros Hx H. unfold handle_heartbeat_resp. case_bool_decide; [done|]. cbv zeta.
  set (r1 := update_progress _ _ r). assert (H1 : typed k r1).
  { unfold r1. apply typed_update_progress; [done|]. by intros p (? & ? & ? & ?). }
  clearbody r1. set (acked := map (ack_read from x) _). assert (Ha : Forall pending_read_typed acked).
  { apply Forall_map. eapply Forall_impl; [apply (ty_pending_reads _ _ H1)|]. intros pr Hpr. unfold ack_read.
    by destruct (_ || _). }
  clearbody acked. set (confirmed := filter _ acked).
  assert (Hc : Forall pending_read_typed confirmed) by by apply filter_Forall.
  clearbody confirmed. assert (Hr : Forall read_typed (map (fun pr => mkReadState (pr_ctx pr) (pr_index pr)) confirmed))
    by by apply Forall_map.
  destruct (map _ confirmed); [eauto with types|].
  apply typed_set_quorum_contact_elapsed; [|eauto with types]. apply typed_push_reads; [|done].
  apply typed_set_pending_reads; [eauto with types|]. by apply filter_Forall.
Qed.

Lemma typed_vote_req k from i t r : is_u32 from -> typed k r -> typed k (handle_vote_req from i t r).
Proof.
  intros Hf H. unfold handle_vote_req. cbv zeta. set (g := _ && _). clearbody g.
  assert (Ho : opt_ok is_u32 (Some from)) by done. destruct g; eauto 8 with types.
Qed.

Lemma typed_pre_vote_req k from pt i t r : is_u64 pt -> typed k r -> typed k (handle_pre_vote_req from pt i t r).
Proof.
  intros Hp H. unfold handle_pre_vote_req. cbv zeta. apply typed_push_message; [done|]. split; [done|].
  apply pre_vote_resp_typed.
Qed.

Lemma typed_pre_vote_resp from t g r : is_u64 t -> typed 1 r -> typed 0 (handle_pre_vote_resp from t g r).
Proof.
  intros Ht H. assert (H0 : typed 0 r) by by apply (typed_mono (k := 1)). unfold handle_pre_vote_resp.
  case_bool_decide; [done|]. destruct (_ && _); [eauto with types|]. cbv zeta.
  destruct (tally _ _); [eauto with types|]. destruct (lost _ _); eauto with types.
Qed.

Lemma typed_vote_resp from g r : typed 1 r -> typed 0 (handle_vote_resp from g r).
Proof.
  intros H. assert (H0 : typed 0 r) by by apply (typed_mono (k := 1)). unfold handle_vote_resp.
  case_bool_decide; [done|]. cbv zeta.
  destruct (tally _ _); [eauto with types|]. destruct (lost _ _); eauto with types.
Qed.

#[export] Hint Resolve typed_append_resp typed_snapshot_resp typed_heartbeat typed_heartbeat_resp typed_vote_req
  typed_pre_vote_req typed_pre_vote_resp typed_vote_resp : types.

(** ** Every call keeps the types *)

Lemma typed_step from m r : is_u32 from -> message_typed m -> typed 1 r -> typed 0 (step from m r).
Proof.
  intros Hf [Ht Hb] H. assert (Ho : opt_ok is_u32 (Some from)) by done.
  unfold step. cbv zeta. set (r1 := adopt_term from m r). assert (H1 : typed 1 r1).
  { unfold r1, adopt_term. destruct (_ && _); [|done]. cbv zeta. apply typed_become_follower; [done| |done].
    by destruct (m_body m). }
  clearbody r1. assert (H0 : typed 0 r1) by by apply (typed_mono (k := 1)).
  destruct (_ <? _).
  - destruct (m_body m); eauto with types.
  - unfold handle. destruct (m_body m); destruct Hb as (Hok & Hwf & Hes); simpl in Hok, Hes; destruct_and?;
      eauto with types.
    + by apply (typed_handle_append 1).
    + by apply (typed_handle_snapshot 1).
    + destruct (promotable r1); eauto with types.
Qed.

Lemma typed_propose_config change r : ConfigChange_ok change -> typed 1 r -> typed 0 (propose_config change r).2.
Proof.
  intros Hc H. assert (H0 : typed 0 r) by by apply (typed_mono (k := 1)). unfold propose_config.
  case_bool_decide; [done|]. cbv zeta.
  destruct (match change with EnterJoint _ _ => _ | LeaveJoint => _ end); [done|]. destruct (existsb _ _); [done|].
  cbn [snd]. apply typed_broadcast, typed_reset_progress. by apply typed_append_own.
Qed.

Lemma applied_snapshot_typed k data r s : typed k r -> fits_u32 data -> Forall is_u8 data ->
  snapshot_at_applied data r = Some s -> snapshot_typed s.
Proof.
  intros H Hfit Hd. unfold snapshot_at_applied. destruct (Log_term_at _ _) as [t|] eqn:Et; [|done].
  intros [= <-]. pose proof (lt_wf _ _ (ty_log _ _ H)) as Hw. pose proof (last_index_wf _ Hw) as El.
  pose proof (wf_room _ Hw). pose proof (wf_snapshot _ Hw). pose proof (ty_applied _ _ H) as Ha.
  assert (Hc : Config_ok (Log_config (r_log r))) by (eapply log_config_ok, H).
  assert (Ht : is_u64 t) by (eapply term_at_u64, Et; apply H).
  split; [by split; [|split; [|split]]|]. split; [|done]. simpl. destruct (term_at_Some _ Hw _ _ Et); lia.
Qed.

Lemma typed_input i r : input_typed i -> typed 1 r -> typed 0 (apply_input i r).
Proof.
  intros Hi H. assert (H0 : typed 0 r) by by apply (typed_mono (k := 1)). destruct i; simpl in *.
  - by apply typed_tick.
  - destruct Hi. by apply typed_step.
  - unfold propose. case_bool_decide; [done|]. cbn [snd]. destruct Hi.
    apply typed_broadcast, typed_append_own; [done..|]. by intros ? [= <-].
  - by apply typed_propose_config.
  - unfold maybe_finish_config_change. case_bool_decide; [done|]. cbv zeta.
    destruct (negb _); [done|]. destruct (negb _); [done|]. by apply typed_propose_config.
  - unfold read_index. case_bool_decide; [done|]. destruct (negb _); [done|]. cbv zeta.
    assert (Hc : is_u64 (r_read_ctx r +64 1)) by eauto with types. set (r1 := set_read_ctx _ r).
    assert (Hr1 : typed 0 r1) by (unfold r1; eauto with types). clearbody r1.
    assert (Hm : is_u64 (r_commit r1)) by apply Hr1.
    destruct (Config_has_quorum _ _); cbn [snd]; [by apply typed_push_reads, Forall_singleton|].
    apply typed_send_to_peers; [|apply typed_set_pending_reads; [done|]].
    + intros peer r2 H2. apply typed_send; [done|]. apply heartbeat_req_typed; [|done]. apply u64_min; [apply H2|].
      destruct (r_progress r2 !! peer) as [p|] eqn:E; [|apply u64_0]. apply (ty_progress _ _ H2 _ _ E).
    + apply Forall_app. split; [apply Hr1|]. by apply Forall_singleton.
  - unfold transfer_leadership. destruct (_ || _); [done|]. destruct (negb _); simpl; eauto with types.
  - unfold step_down. case_bool_decide; eauto with types.
  - unfold report_persisted. eauto with types.
  - destruct Hi as [Hfit Hu]. destruct (snapshot_at_applied data r) as [s|] eqn:E; [|done].
    pose proof (applied_snapshot_typed _ _ _ _ H0 Hfit Hu E) as ((_ & ? & ? & _) & _).
    unfold compact. apply (typed_set_log H0). apply compact_typed; [apply H0|done..].
  - unfold send_snapshot. apply typed_send; [|eauto with types]. apply typed_update_progress; [done|].
    intros p (? & ? & _). assert (is_u64 (sn_last_index s)) by apply Hi. by split_and!; [..|apply u32_0].
Qed.

(** ** The [Ready] cycle *)

Lemma typed_ready k r : typed k r -> ready_typed (ready r).1 /\ typed k (ready r).2.
Proof.
  intros H. pose proof (ty_pending _ _ H) as [Ph Pe Ps Pm Pc Pr].
  assert (Hdef : ready_typed Ready_default) by by split.
  unfold ready. cbv zeta. set (r0 := set_pending Ready_default r).
  assert (H0 : typed k r0) by (unfold r0; eauto with types). clearbody r0.
  set (p1 := match r_dirty_from r0 with Some _ => _ | None => _ end).
  assert (H1 : Forall entry_typed p1.1 /\ typed k p1.2).
  { unfold p1. pose proof (ty_dirty_from _ _ H0) as Hd. destruct (r_dirty_from r0) as [d|]; simpl; [|done].
    split; [eapply slice_typed, ty_log, H0|]. apply typed_set_dirty_from; [done|]. simpl in *.
    apply u64_max; [done|]. apply wadd64_range. }
  clearbody p1. destruct p1 as [es r1], H1 as [Hes H1]. simpl in Hes, H1.
  set (p2 := if r_hard_state_dirty r1 then _ else _).
  assert (H2 : opt_ok HardState_ok p2.1 /\ typed k p2.2).
  { unfold p2. destruct (r_hard_state_dirty r1); simpl; [|done]. split; [|eauto with types].
    destruct (_ || _); [|done]. simpl. eauto with types. }
  clearbody p2. destruct p2 as [hs r2], H2 as [Hhs H2]. simpl in Hhs, H2.
  set (r3 := set_persisted _ _). assert (H3 : typed k r3) by (apply typed_set_persisted; eauto 12 with types). clearbody r3.
  split; [|done]. split; simpl; try done. destruct (_ <? _); [|done]. eapply slice_typed, ty_log, H3.
Qed.

Lemma typed_advance k rd r : ready_typed rd -> typed k r -> typed k (advance rd r).
Proof.
  intros [Ph _ _ _ Pc _] H. unfold advance. cbv zeta.
  set (r1 := match rd_hard_state rd with Some _ => _ | None => r end).
  assert (H1 : typed k r1) by (unfold r1; destruct (rd_hard_state rd); eauto with types). clearbody r1.
  set (r2 := update_progress _ _ r1). assert (H2 : typed k r2) by (apply typed_update_progress; eauto with types). clearbody r2.
  set (r3 := if _ : bool then maybe_advance_commit r2 else r2).
  assert (H3 : typed k r3) by (unfold r3; case_bool_decide; eauto with types). clearbody r3.
  apply typed_set_dirty_from; [|done]. destruct (last _) as [e|] eqn:E; [|done].
  apply last_Some_elem_of in E. rewrite Forall_forall in Pc. destruct (Pc e E) as [(_ & ? & _) _].
  eauto with types.
Qed.

Lemma typed_cycle k r : typed k r -> typed k (cycle r).
Proof. intros H. unfold cycle. destruct (typed_ready k r H). by apply typed_advance. Qed.

(** ** Recovery *)

(** What the disk hands back: the codec and the write-ahead log admit no other. *)
Record recovered_typed (hard : HardState) (snap : option Snapshot) (es : list Entry) : Prop := {
  rc_hard : HardState_ok hard;
  rc_snapshot : opt_ok snapshot_typed snap;
  rc_entries : Forall entry_typed es;
  rc_contiguous : recovered_ok snap es;
  rc_voters : forall s, snap = Some s -> voters (Log_config (Log_restore snap es)) <> ∅
}.

Lemma typed_new id cfg opts : is_u32 id -> opts_typed opts -> Config_ok cfg -> typed 0 (Raft_new id cfg opts).
Proof.
  intros Hid Ho Hc. split; simpl; try done; try apply Ho; try apply u64_0.
  apply u64_lor; [apply Z.mod_pos_bound; lia|apply u64_1].
Qed.

Lemma restored_log_typed hard snap es cfg : recovered_typed hard snap es -> Config_ok cfg ->
  log_typed 0 (Log_restore snap es).
Proof.
  intros [Hh Hs He Hrec _] Hc. pose proof (restore_log_wf _ _ Hrec) as Hw. pose proof (last_index_wf _ Hw).
  pose proof (wf_room _ Hw). split; [done|lia|by destruct snap| |].
  - destruct snap as [s|]; [apply Hs|apply u64_0].
  - destruct snap as [s|]; [apply Hs|]. simpl. by_decide.
Qed.

Lemma typed_restore id opts hard snap es cfg : is_u32 id -> opts_typed opts -> Config_ok cfg ->
  recovered_typed hard snap es -> typed 0 (Raft_restore id opts hard snap es cfg).
Proof.
  intros Hid Ho Hc Hr. pose proof (typed_new id cfg opts Hid Ho Hc) as H.
  pose proof (restored_log_typed hard snap es cfg Hr Hc) as Hl. destruct Hr as [(Hterm & Hvote & Hcom) _ He Hrec Hv].
  pose proof (ok_restore id opts hard snap es cfg Hrec (proj1 Hcom) Hv) as [Hw _].
  unfold Raft_restore in *. cbv zeta in *. set (l := if _ : bool then _ else _) in *.
  assert (Hl' : log_typed 0 l).
  { change (wf_log l) in Hw. pose proof (last_index_wf _ Hw). pose proof (wf_room _ Hw).
    split; [exact Hw|lia| | |]; unfold l; case_bool_decide;
      first [exact (lt_entries _ _ Hl)|exact (lt_term _ _ Hl)|exact (lt_config _ _ Hl)|exact u64_0|exact Hc|
        simpl; eapply slice_typed, Hl]. }
  clearbody l. pose proof (typed_set_log H 0 l Hl') as H1.
  assert (Hlast : is_u64 (Log_last_index l)) by (eapply last_index_u64, Hl').
  assert (Hsn : is_u64 (snapshot_index l)) by (eapply snapshot_index_u64, Hl').
  assert (Hcommit : is_u64 (Z.max (Z.min (hs_commit hard) (Log_last_index l)) (snapshot_index l))) by eauto with types.
  apply typed_set_persisted_hard_state; [|by split_and!]. eauto 12 with types.
Qed.

(** ** Bytes on the wire *)

Abbreviation bytes w := (Forall is_u8 w).

Lemma bytes_le n v w : bytes w -> bytes (w ++ le_bytes n v).
Proof. intros. apply Forall_app. split; [done|apply le_bytes_u8]. Qed.
Lemma bytes_u8 v w : is_u8 v -> bytes w -> bytes (Writer_u8 v w).
Proof. intros. apply Forall_app. split; [done|]. by apply Forall_singleton. Qed.
Lemma bytes_u32 v w : bytes w -> bytes (Writer_u32 v w).
Proof. apply bytes_le. Qed.
Lemma bytes_u64 v w : bytes w -> bytes (Writer_u64 v w).
Proof. apply bytes_le. Qed.
Lemma bytes_bool b w : bytes w -> bytes (Writer_bool b w).
Proof. apply bytes_u8. destruct b; by_decide. Qed.
Lemma bytes_bytes d w : bytes d -> bytes w -> bytes (Writer_bytes d w).
Proof. intros. apply Forall_app. split; [by apply bytes_u32|done]. Qed.

Lemma bytes_seq {A} (P : A -> Prop) f (xs : list A) w : (forall x w, P x -> bytes w -> bytes (f x w)) ->
  Forall P xs -> bytes w -> bytes (Writer_seq f xs w).
Proof.
  intros Hf Hx Hw. unfold Writer_seq. assert (H : bytes (Writer_u32 (len_u32 xs) w)) by by apply bytes_u32.
  revert H. generalize (Writer_u32 (len_u32 xs) w). induction Hx as [|x xs Hx _ IH]; intros v Hv; simpl; auto.
Qed.

#[export] Hint Resolve bytes_u32 bytes_u64 bytes_bool bytes_bytes : types.
#[export] Hint Extern 4 (bytes (Writer_u8 _ _)) => apply bytes_u8; [by_decide|] : types.

Lemma bytes_set s w : bytes w -> bytes (set_encode s w).
Proof. apply bytes_seq with (P := fun _ => True); [intros; by apply bytes_u32|by apply Forall_true]. Qed.
#[export] Hint Resolve bytes_set : types.

Lemma bytes_config c w : bytes w -> bytes (Config_encode c w).
Proof. unfold Config_encode. eauto with types. Qed.
Lemma bytes_change c w : bytes w -> bytes (ConfigChange_encode c w).
Proof. unfold ConfigChange_encode. destruct c; eauto with types. Qed.
#[export] Hint Resolve bytes_config bytes_change : types.

Lemma bytes_entry e w : entry_typed e -> bytes w -> bytes (Entry_encode e w).
Proof. intros [_ Hd] Hw. unfold Entry_encode. cbv zeta. destruct (e_kind e); eauto 7 with types. Qed.
Lemma bytes_snapshot s w : snapshot_typed s -> bytes w -> bytes (Snapshot_encode s w).
Proof. intros (_ & _ & Hd) Hw. unfold Snapshot_encode. eauto 7 with types. Qed.
#[export] Hint Resolve bytes_entry bytes_snapshot : types.

Lemma bytes_message m : message_typed m -> bytes (Message_encode m).
Proof.
  intros (_ & _ & _ & Hb). assert (Hn : bytes Writer_new) by constructor. unfold Message_encode. cbv zeta.
  destruct (m_body m); eauto 10 with types.
  apply bytes_seq with (P := entry_typed); [apply bytes_entry|done|]. eauto 10 with types.
Qed.

Lemma message_typed_ok m : message_typed m -> Message_ok m.
Proof. intros (? & ? & _). by split. Qed.

Lemma typed_message_decodes m : message_typed m -> Z.of_nat (length (Wire_payload (WRaft m))) <= MAX_FRAME ->
  Wire_decode (Wire_encode (WRaft m)) = Ok (WRaft m).
Proof.
  intros Hm Hlen. apply wire_decodes; [by apply message_typed_ok|]. split; [|done]. simpl.
  constructor; [by_decide|]. by apply bytes_message.
Qed.

(** A frame over the size limit, short of the 4 GiB where its length field
    wraps, is refused. *)
Lemma oversized_refused m : MAX_FRAME < Z.of_nat (length (Wire_payload (WRaft m))) < U32 ->
  exists e, Wire_decode (Wire_encode (WRaft m)) = Err e.
Proof.
  intros [Hlo Hhi]. unfold Wire_decode, Wire_encode, frame. set (p := Wire_payload _) in *. clearbody p.
  change ([?v] ++ ?x) with (v :: x). rewrite unframe_layout by apply le_bytes_length. simpl negb.
  rewrite le_value_le_bytes. change (U8 ^ Z.of_nat 4) with U32. unfold len_u32.
  rewrite Z.mod_mod, Z.mod_small by lia. rewrite (proj2 (Z.ltb_lt _ _)) by done. by eexists.
Qed.

(** ** A cluster that talks in frames *)

Record Wired : Type := mkWired {
  w_node : NodeId -> Raft;
  (** every frame ever sent: source, destination, bytes *)
  w_frames : list (NodeId * NodeId * Bytes)
}.

Definition wired_init (C : Config) (opts : RaftOptions) : Wired :=
  mkWired (fun i => Raft_new i C opts) [].

Definition framed (i : NodeId) (ms : list (NodeId * Message)) : list (NodeId * NodeId * Bytes) :=
  map (fun tm => (i, tm.1, Wire_encode (WRaft tm.2))) ms.

Definition do_call (i : NodeId) (inp : Input) (st : Wired) : Wired :=
  mkWired (<[i := apply_input inp (w_node st i)]> (w_node st)) (w_frames st).

Definition do_ready (i : NodeId) (st : Wired) : Wired :=
  mkWired (<[i := cycle (w_node st i)]> (w_node st))
    (w_frames st ++ framed i (rd_messages (ready (w_node st i)).1)).

Definition is_call (i : Input) : Prop := match i with IStep _ _ => False | _ => True end.

(** Frames may be lost, repeated, delayed and reordered; nodes may crash at any
    moment and come back with any well-typed disk. The log has room for one more
    entry, and no frame reaches 4 GiB. *)
Inductive wired_step (C : Config) (opts : RaftOptions) : Wired -> Wired -> Prop :=
| wi_call st i inp : is_u32 i -> is_call inp -> input_typed inp -> log_room (w_node st i) ->
    wired_step C opts st (do_call i inp st)
| wi_deliver st i from frame m : is_u32 i -> (from, i, frame) ∈ w_frames st ->
    Z.of_nat (length frame) < U32 -> Wire_decode frame = Ok (WRaft m) -> log_room (w_node st i) ->
    wired_step C opts st (do_call i (IStep from m) st)
| wi_ready st i : is_u32 i -> wired_step C opts st (do_ready i st)
| wi_crash st i hard snap es : is_u32 i -> recovered_typed hard snap es ->
    wired_step C opts st
      (mkWired (<[i := Raft_restore i opts hard snap es C]> (w_node st)) (w_frames st)).

Inductive wired_reachable (C : Config) (opts : RaftOptions) : Wired -> Prop :=
| wr_init : wired_reachable C opts (wired_init C opts)
| wr_step st st' : wired_reachable C opts st -> wired_step C opts st st' -> wired_reachable C opts st'.

(** A frame was made from a well-typed message. *)
Definition frame_typed (f : NodeId * NodeId * Bytes) : Prop :=
  is_u32 f.1.1 /\ exists m, message_typed m /\ f.2 = Wire_encode (WRaft m).

Record wired_inv (st : Wired) : Prop := {
  wv_nodes : forall i, is_u32 i -> typed 0 (w_node st i);
  wv_frames : Forall frame_typed (w_frames st)
}.

Lemma typed_room r : typed 0 r -> log_room r -> typed 1 r.
Proof.
  unfold log_room. intros H Hr. pose proof (ty_log _ _ H) as [Hw ? ? ? ?].
  assert (Hl : log_typed 1 (r_log r)) by (split; done || lia). destruct H. by split.
Qed.

Lemma typed_insert (f : NodeId -> Raft) i r : (forall j, is_u32 j -> typed 0 (f j)) -> typed 0 r ->
  forall j, is_u32 j -> typed 0 (<[i := r]> f j).
Proof.
  intros Hf Hr j Hj. destruct (decide (i = j)) as [<-|Hn]; [by rewrite fn_lookup_insert|].
  rewrite fn_lookup_insert_ne by done. auto.
Qed.

Lemma wired_call st i inp : is_u32 i -> input_typed inp -> log_room (w_node st i) ->
  wired_inv st -> wired_inv (do_call i inp st).
Proof.
  intros Hi Hinp Hroom [Hn Hf]. split; [|done]. apply typed_insert; [done|].
  apply typed_input; [done|]. apply typed_room; auto.
Qed.

(** What a receiver decodes is what was sent. *)
Lemma frame_source from i frame m : frame_typed (from, i, frame) -> Z.of_nat (length frame) < U32 ->
  Wire_decode frame = Ok (WRaft m) -> is_u32 from /\ message_typed m.
Proof.
  intros (Hfrom & m0 & Hm & E) Hlen Hd. simpl in *. subst frame. split; [done|].
  destruct (Z.le_gt_cases (Z.of_nat (length (Wire_payload (WRaft m0)))) MAX_FRAME) as [Hs|Hl].
  - rewrite typed_message_decodes in Hd by done. by injection Hd as <-.
  - destruct (oversized_refused m0) as [e He]; [|by rewrite He in Hd].
    split; [done|]. unfold Wire_encode, frame in Hlen. rewrite !length_app, !le_bytes_length in Hlen. simpl in *. lia.
Qed.

Section WiredRun.
Context (C : Config) (opts : RaftOptions) (HC : Config_ok C) (Hopts : opts_typed opts).

Lemma wired_preserved st st' : wired_step C opts st st' -> wired_inv st -> wired_inv st'.
Proof using HC Hopts.
  intros Hstep Hinv. destruct Hstep as [st i inp Hi _ Hinp Hr|st i from frame m Hi Hin Hlen Hd Hr|st i Hi|st i hard snap es Hi Hrec].
  - by apply wired_call.
  - apply wired_call; [done| |done..]. pose proof (wv_frames _ Hinv) as Hf. rewrite Forall_forall in Hf.
    by destruct (frame_source _ _ _ _ (Hf _ Hin) Hlen Hd).
  - destruct Hinv as [Hn Hf]. destruct (typed_ready 0 (w_node st i) (Hn i Hi)) as [Hrd _].
    split; [apply typed_insert; [done|]; apply typed_cycle; auto|]. simpl. apply Forall_app. split; [done|].
    apply Forall_map. eapply Forall_impl; [apply Hrd|]. intros [to m] Hm. split; [done|]. by exists m.
  - destruct Hinv as [Hn Hf]. split; [|done]. apply typed_insert; [done|]. by apply typed_restore.
Qed.

Lemma wired_typed st : wired_reachable C opts st -> wired_inv st.
Proof using HC Hopts.
  induction 1 as [|st st' _ IH Hstep]; [|by eapply wired_preserved].
  split; [|constructor]. intros i Hi. by apply typed_new.
Qed.
End WiredRun.

(** C30: no value ever leaves its type. In every reachable state of a cluster
    whose nodes exchange encoded frames, with loss, repetition, reordering,
    crashes and recoveries, every field of every node lies in the range of its
    Rust type, everything in its [Ready], the hard state, entries and snapshot
    for the disk and the messages for the network, is within what the codec can
    write, and every frame on the network was made from a message that a peer
    decodes to exactly that message, unless its payload exceeds the frame limit,
    in which case the peer refuses it. *)
Theorem values_keep_their_types (C : Config) (opts : RaftOptions) (st : Wired) :
  Config_ok C -> opts_typed opts -> wired_reachable C opts st ->
  (forall i, is_u32 i -> typed 0 (w_node st i) /\ ready_typed (ready (w_node st i)).1) /\
  (forall from to frame, (from, to, frame) ∈ w_frames st ->
     exists m, message_typed m /\ frame = Wire_encode (WRaft m) /\
       (Z.of_nat (length (Wire_payload (WRaft m))) <= MAX_FRAME -> Wire_decode frame = Ok (WRaft m)) /\
       (MAX_FRAME < Z.of_nat (length (Wire_payload (WRaft m))) < U32 -> exists e, Wire_decode frame = Err e)).
Proof.
  intros HC Ho Hr. destruct (wired_typed C opts HC Ho st Hr) as [Hn Hf]. split.
  - intros i Hi. split; [by apply Hn|]. eapply typed_ready, Hn, Hi.
  - intros from to frame Hin. rewrite Forall_forall in Hf. destruct (Hf _ Hin) as (_ & m & Hm & E).
    simpl in E. subst frame. exists m. split; [done|]. split; [done|]. split; [by apply typed_message_decodes|apply oversized_refused].
Qed.

(** Node 1 times out and polls; node 2 receives the frame and answers. *)
Definition wire1 : Wired := do_ready 1 (do_call 1 (ITick 7) (wired_init c3 one_tick)).
Definition wire2 : Wired := do_ready 2 (do_call 2 (IStep 1 (mkMessage 1 (PreVoteReq 0 0))) wire1).

Lemma wire2_reachable : wired_reachable c3 one_tick wire2.
Proof.
  eapply wr_step; [|apply wi_ready; by_decide].
  eapply wr_step; [|apply (wi_deliver _ _ _ 2 1 (Wire_encode (WRaft (mkMessage 1 (PreVoteReq 0 0)))));
    [by_decide|by_decide|by_decide|vm_compute; reflexivity|by_decide]].
  eapply wr_step; [|apply wi_ready; by_decide].
  eapply wr_step; [apply wr_init|]. apply wi_call; [by_decide|done|by_decide|by_decide].
Qed.

Lemma values_keep_their_types_witness :
  (2, 1, Wire_encode (WRaft (mkMessage 1 (PreVoteResp true)))) ∈ w_frames wire2 /\
  exists m, message_typed m /\ Wire_encode (WRaft (mkMessage 1 (PreVoteResp true))) = Wire_encode (WRaft m).
Proof.
  assert (Hin : (2, 1, Wire_encode (WRaft (mkMessage 1 (PreVoteResp true)))) ∈ w_frames wire2) by by_decide.
  split; [exact Hin|].
  destruct (values_keep_their_types c3 one_tick wire2) as [_ H]; [by_decide|split; by_decide|exact wire2_reachable|].
  destruct (H _ _ _ Hin) as (m & Hm & E & _). exists m. split; [exact Hm|exact E].
Defined.
