(* ===== verification/LogMatching.v ===== *)
(** * Log Matching

    If two nodes hold an entry with the same index and term, their logs agree on
    everything up to it. The proof reads a log as a set of links, each an entry
    with the term of the entry before it: an append request carries links, a merge
    keeps the links it is given, a restart keeps links the disk has held, and only
    the leader of a term makes links of that term, one per index. So wherever two
    links of the cluster have the same index and term they are the same link, and
    two logs that share an entry share its predecessors. *)

From Stdlib Require Import ZArith Lia.
From stdpp Require Import base tactics functions relations list list_numbers gmap sets sorting.
From S2P Require Import Prelude Codec Types RaftLog Msg RaftState Raft RaftNode RaftCommit Cluster RaftTypes.

Open Scope Z_scope.

(** ** Links *)

(** The term of the entry before, and the entry. *)
Abbreviation Link := (Term * Entry)%type.

Fixpoint chain (p : Term) (es : list Entry) : list Link :=
  match es with
  | [] => []
  | e :: rest => (p, e) :: chain (e_term e) rest
  end.

Definition end_term (p : Term) (es : list Entry) : Term :=
  match last es with Some e => e_term e | None => p end.

Definition links (l : Log) : list Link := chain (snapshot_term l) (entries l).

Definition msg_links (m : Message) : list Link :=
  match m_body m with AppendReq _ pt es _ => chain pt es | _ => [] end.

(** Index 0 is the start of every log and has term 0. *)
Definition zero_ok (l : Log) : Prop := snapshot_index l = 0 -> snapshot_term l = 0.

Lemma end_term_cons p e es : end_term p (e :: es) = end_term (e_term e) es.
Proof.
  unfold end_term. destruct es as [|e' es]; [done|]. rewrite last_cons_cons.
  destruct (last (e' :: es)) eqn:E; [done|]. by apply last_None in E.
Qed.

Lemma end_term_app p es es' : end_term p (es ++ es') = end_term (end_term p es) es'.
Proof. revert p. induction es as [|e es IH]; intros p; [done|]. simpl. by rewrite !end_term_cons. Qed.

Lemma chain_app p es es' : chain p (es ++ es') = chain p es ++ chain (end_term p es) es'.
Proof.
  revert p. induction es as [|e es IH]; intros p; simpl; [done|]. by rewrite end_term_cons, IH.
Qed.

Lemma chain_split p es n : chain p es = chain p (take n es) ++ chain (end_term p (take n es)) (drop n es).
Proof. by rewrite <- chain_app, take_drop. Qed.

Lemma chain_take p es n : chain p (take n es) ⊆ chain p es.
Proof. intros x Hx. rewrite (chain_split p es n). apply elem_of_app. by left. Qed.

Lemma chain_drop p es n : chain (end_term p (take n es)) (drop n es) ⊆ chain p es.
Proof. intros x Hx. rewrite (chain_split p es n). apply elem_of_app. by right. Qed.

Lemma chain_snd p es x : x ∈ chain p es -> x.2 ∈ es.
Proof.
  revert p. induction es as [|e es IH]; intros p; simpl; [by intros ?%elem_of_nil|].
  intros [->|H]%elem_of_cons; [by left|]. right. by eapply IH.
Qed.

Lemma chain_lookup p es k e : es !! k = Some e -> (end_term p (take k es), e) ∈ chain p es.
Proof.
  revert p k. induction es as [|e0 es IH]; intros p [|k]; simpl; try done.
  - intros [= ->]. by left.
  - intros Hk. right. rewrite end_term_cons. by apply IH.
Qed.

Section LogLinks.
Context (l : Log) (Hw : wf_log l).

(** The term before index [i + 1], read off the list of entries. *)
Lemma term_at_end i : zero_ok l -> snapshot_index l <= i <= Log_last_index l ->
  Log_term_at l i = Some (end_term (snapshot_term l) (take (Z.to_nat (i - snapshot_index l)) (entries l))).
Proof using Hw.
  intros Hz Hi. pose proof (last_index_wf l Hw) as El. pose proof (wf_snapshot l Hw).
  destruct (decide (i = snapshot_index l)) as [->|Hne].
  - rewrite Z.sub_diag. change (take (Z.to_nat 0) _) with (@nil Entry). unfold Log_term_at, end_term. simpl.
    destruct (Z.eqb_spec (snapshot_index l) 0) as [E|]; [by rewrite Hz|]. by rewrite Z.eqb_refl.
  - destruct (get_is_Some l Hw i) as [e He]; [lia|]. rewrite (term_at_get l Hw _ _ He).
    rewrite get_lookup in He by (done || lia).
    replace (Z.to_nat (i - snapshot_index l)) with (S (Z.to_nat (i - snapshot_index l - 1))) by lia.
    rewrite (take_S_r _ _ _ He). unfold end_term. by rewrite last_snoc.
Qed.

Lemma last_term_end : Log_last_term l = end_term (snapshot_term l) (entries l).
Proof using. clear Hw. done. Qed.

(** What follows an index, led by the term at that index, is made of links of
    the log. *)
Lemma links_after i t : zero_ok l -> snapshot_index l <= i -> Log_term_at l i = Some t ->
  chain t (drop (Z.to_nat (i - snapshot_index l)) (entries l)) ⊆ links l.
Proof using Hw.
  intros Hz Hi Ht. assert (Hi' : snapshot_index l <= i <= Log_last_index l).
  { pose proof (last_index_wf l Hw). pose proof (wf_snapshot l Hw). destruct (term_at_Some l Hw _ _ Ht); lia. }
  rewrite term_at_end in Ht by done. injection Ht as <-. apply chain_drop.
Qed.

Lemma links_slice from to t : zero_ok l -> snapshot_index l < from ->
  Log_term_at l (from - 1) = Some t -> chain t (Log_slice l from to) ⊆ links l.
Proof using Hw.
  intros Hz Hf Ht. rewrite slice_filter, (filter_range_contiguous _ _ _ _ (wf_contiguous _ Hw)) by done.
  replace (Z.to_nat (from - (snapshot_index l + 1))) with (Z.to_nat (from - 1 - snapshot_index l)) by lia.
  etransitivity; [apply chain_take|]. by apply links_after; [|lia|].
Qed.

Lemma links_compact through t c : zero_ok l -> Log_term_at l through = Some t ->
  links (Log_compact_through l through t c) ⊆ links l /\ zero_ok (Log_compact_through l through t c).
Proof using Hw.
  intros Hz Ht. pose proof (last_index_wf l Hw). pose proof (wf_snapshot l Hw). unfold Log_compact_through.
  destruct (Z.leb_spec through (snapshot_index l)) as [|Hlt]; [done|].
  assert (Hi : through <= Log_last_index l) by (destruct (term_at_Some l Hw _ _ Ht); lia).
  rewrite Z.min_l by done. split; [|unfold zero_ok; simpl; lia].
  unfold links at 1. simpl. rewrite Nat.min_l by lia. by apply links_after; [|lia|].
Qed.

Lemma links_append es : links (Log_append l es) = links l ++ chain (Log_last_term l) es.
Proof using. clear Hw. unfold links. simpl. by rewrite chain_app. Qed.

Lemma links_install s : zero_ok l -> 0 < sn_last_index s ->
  links (Log_install_snapshot l s) ⊆ links l /\ zero_ok (Log_install_snapshot l s).
Proof using Hw.
  intros Hz Hs. unfold Log_install_snapshot. case_bool_decide as E; [by apply links_compact|].
  split; [apply list_subseteq_nil|]. unfold zero_ok. simpl. lia.
Qed.

(** A merge brings in links of the batch, and no other. *)
Lemma links_merge pi pt es : zero_ok l -> snapshot_index l <= pi <= Log_last_index l ->
  Log_term_at l pi = Some pt -> contiguous_from (pi + 1) es ->
  links (Log_merge_loop l es) ⊆ links l ++ chain pt es /\ zero_ok (Log_merge_loop l es).
Proof using Hw.
  intros Hz Hp Ht Hes. pose proof (last_index_wf l Hw) as El. pose proof (wf_snapshot l Hw).
  destruct (merge_loop_outcome _ _ _ Hw Hes Hp) as [|k l' Hk Hlast Hsame _ ->];
    [split; [apply list_subseteq_app_l|]; done|]. split; [|done].
  unfold links at 1. simpl. rewrite chain_app.
  assert (Hmid : end_term (snapshot_term l) (take (Z.to_nat (pi + Z.of_nat k - snapshot_index l)) (entries l))
    = end_term pt (take k es)).
  { enough (Log_term_at l (pi + Z.of_nat k) = Some (end_term pt (take k es))) as E.
    { rewrite term_at_end in E by (done || lia). by injection E. }
    destruct k as [|k]; [by rewrite Z.add_0_r|].
    destruct (es !! k) as [e|] eqn:Ek; [|apply lookup_ge_None in Ek; lia].
    rewrite (take_S_r _ _ _ Ek). unfold end_term. rewrite last_snoc.
    rewrite <- (Hsame e); [|rewrite (take_S_r _ _ _ Ek); apply elem_of_app; right; by left].
    f_equal. rewrite (contiguous_lookup _ _ _ _ Hes Ek). lia. }
  rewrite Hmid. intros x [Hx|Hx]%elem_of_app; apply elem_of_app.
  - left. by apply chain_take in Hx.
  - right. by apply chain_drop in Hx.
Qed.
End LogLinks.

(** ** Where the links of a node come from *)

Definition msg_linked (L : Link -> Prop) (m : Message) : Prop :=
  body_wf (m_body m) /\ forall x, x ∈ msg_links m -> L x.

(** A node whose log has room for [k] entries more and whose links, in the log
    and in the messages it has queued, are all in [L]. *)
Record linked (k : Z) (L : Link -> Prop) (r : Raft) : Prop := {
  lk_wf : wf_log (r_log r);
  lk_room : Log_last_index (r_log r) + k < U64 - 1;
  lk_zero : zero_ok (r_log r);
  lk_commit : 0 <= r_commit r;
  lk_links : forall x, x ∈ links (r_log r) -> L x;
  lk_msgs : Forall (fun tm => msg_linked L tm.2) (msgs r)
}.

Create HintDb links discriminated.
#[export] Hint Constants Opaque : links.

Section LinkUpdates.
Context {k : Z} {L : Link -> Prop} {r : Raft} (H : linked k L r).

Lemma linked_weaken k' (L' : Link -> Prop) : k' <= k -> (forall x, L x -> L' x) -> linked k' L' r.
Proof using H.
  intros Hk HL. destruct H as [? ? ? ? ? Hm]. split; auto; [lia|].
  eapply Forall_impl; [exact Hm|]. intros tm [? ?]. split; auto.
Qed.

Lemma linked_set_term v : linked k L (set_term v r).
Proof using H. by destruct H. Qed.
Lemma linked_set_vote v : linked k L (set_vote v r).
Proof using H. by destruct H. Qed.
Lemma linked_set_applied v : linked k L (set_applied v r).
Proof using H. by destruct H. Qed.
Lemma linked_set_persisted v : linked k L (set_persisted v r).
Proof using H. by destruct H. Qed.
Lemma linked_set_role v : linked k L (set_role v r).
Proof using H. by destruct H. Qed.
Lemma linked_set_leader v : linked k L (set_leader v r).
Proof using H. by destruct H. Qed.
Lemma linked_set_votes v : linked k L (set_votes v r).
Proof using H. by destruct H. Qed.
Lemma linked_set_election_elapsed v : linked k L (set_election_elapsed v r).
Proof using H. by destruct H. Qed.
Lemma linked_set_heartbeat_elapsed v : linked k L (set_heartbeat_elapsed v r).
Proof using H. by destruct H. Qed.
Lemma linked_set_election_timeout v : linked k L (set_election_timeout v r).
Proof using H. by destruct H. Qed.
Lemma linked_set_quorum_contact_elapsed v : linked k L (set_quorum_contact_elapsed v r).
Proof using H. by destruct H. Qed.
Lemma linked_set_progress v : linked k L (set_progress v r).
Proof using H. by destruct H. Qed.
Lemma linked_set_pending_reads v : linked k L (set_pending_reads v r).
Proof using H. by destruct H. Qed.
Lemma linked_set_read_ctx v : linked k L (set_read_ctx v r).
Proof using H. by destruct H. Qed.
Lemma linked_set_committed_own_term v : linked k L (set_committed_own_term v r).
Proof using H. by destruct H. Qed.
Lemma linked_set_hard_state_dirty v : linked k L (set_hard_state_dirty v r).
Proof using H. by destruct H. Qed.
Lemma linked_set_persisted_hard_state v : linked k L (set_persisted_hard_state v r).
Proof using H. by destruct H. Qed.
Lemma linked_set_dirty_from v : linked k L (set_dirty_from v r).
Proof using H. by destruct H. Qed.
Lemma linked_set_rand v : linked k L (set_rand v r).
Proof using H. by destruct H. Qed.
Lemma linked_set_commit v : 0 <= v -> linked k L (set_commit v r).
Proof using H. destruct H. by split. Qed.
Lemma linked_push_reads v : linked k L (push_reads v r).
Proof using H. by destruct H. Qed.
Lemma linked_supersede s : linked k L (supersede_pending s r).
Proof using H. by destruct H. Qed.
Lemma linked_update_progress id f : linked k L (update_progress id f r).
Proof using H. unfold update_progress. destruct (r_progress r !! id); [by destruct H|done]. Qed.

Lemma linked_push_message to m : msg_linked L m -> linked k L (push_message to m r).
Proof using H.
  intros Hm. destruct H as [? ? ? ? ? Hms]. split; try done. simpl. apply Forall_app.
  split; [done|by constructor].
Qed.

(** Most messages carry no entries. *)
Lemma linked_send to b : body_wf b -> msg_links (mkMessage (r_term r) b) = [] -> linked k L (send to b r).
Proof using H.
  intros Hb E. apply linked_push_message. split; [done|]. rewrite E. by intros x ?%elem_of_nil.
Qed.

Lemma linked_set_log k' v : wf_log v -> Log_last_index v + k' < U64 - 1 -> zero_ok v ->
  (forall x, x ∈ links v -> L x) -> linked k' L (set_log v r).
Proof using H. destruct H. by split. Qed.
End LinkUpdates.

#[export] Hint Resolve linked_set_term linked_set_vote linked_set_applied linked_set_persisted linked_set_role linked_set_leader linked_set_votes linked_set_election_elapsed linked_set_heartbeat_elapsed linked_set_election_timeout linked_set_quorum_contact_elapsed linked_set_progress linked_set_pending_reads linked_set_read_ctx linked_set_committed_own_term linked_set_hard_state_dirty linked_set_persisted_hard_state linked_set_dirty_from linked_set_rand
  linked_push_reads linked_supersede linked_update_progress : links.
#[export] Hint Extern 1 (linked _ _ (send _ _ _)) => apply linked_send; [|done|done] : links.

Lemma linked_fold {A} k L (f : Raft -> A -> Raft) (xs : list A) r :
  (forall r x, linked k L r -> linked k L (f r x)) -> linked k L r -> linked k L (fold_left f xs r).
Proof. intros Hf. revert r. induction xs as [|x xs IH]; intros r H; simpl; auto. Qed.

Lemma linked_send_to_peers k L f r : (forall peer r, linked k L r -> linked k L (f peer r)) -> linked k L r ->
  linked k L (send_to_peers f r).
Proof. intros Hf. apply linked_fold. intros r' peer H. destruct (negb _); auto. Qed.

Lemma linked_send_append_to k L peer r : linked k L r -> linked k L (send_append_to peer r).
Proof.
  intros H. unfold send_append_to. destruct (r_progress r !! peer) as [p|]; [|done].
  destruct (bool_decide _ && _); [done|]. cbv zeta.
  destruct (Log_term_at _ _) as [t|] eqn:Et; [|auto with links].
  destruct (Z.ltb_spec (p_next p) (Log_first_index (r_log r))) as [|Hfirst]; [auto with links|].
  pose proof (lk_wf _ _ _ H) as Hw. rewrite first_index_wf in Hfirst by done. pose proof (wf_snapshot _ Hw).
  replace (ssub (p_next p) 1) with (p_next p - 1) in * by (unfold ssub; lia).
  pose proof (last_index_wf _ Hw). pose proof (wf_room _ Hw).
  assert (Hnext : p_next p - 1 <= Log_last_index (r_log r)) by (destruct (term_at_Some _ Hw _ _ Et); lia).
  set (to := Z.min _ _). destruct (slice_contiguous (r_log r) (p_next p) to Hw) as (Hc & _ & Hend); [lia|].
  apply linked_push_message; [done|]. split.
  - split_and!; [lia| |].
    + rewrite Z.sub_add. by apply contiguous_take.
    + rewrite length_take. lia.
  - intros x Hx. apply (lk_links _ _ _ H). unfold msg_links in Hx. simpl in Hx. apply chain_take in Hx.
    eapply (links_slice _ Hw), Hx; [apply H|lia|done].
Qed.

#[export] Hint Resolve linked_send_to_peers linked_send_append_to : links.

Lemma linked_broadcast k L r : linked k L r -> linked k L (broadcast_append r).
Proof. unfold broadcast_append. auto with links. Qed.

(** The one link a leader makes in a step. *)
Definition fresh (t : Term) (l : Log) (kind : EntryKind) : Link :=
  (Log_last_term l, mkEntry t (Log_last_index l + 1) kind).

Definition or_fresh (L : Link -> Prop) (t : Term) (l : Log) (kind : EntryKind) (x : Link) : Prop :=
  L x \/ x = fresh t l kind.

Lemma linked_append_own L r kind : linked 1 L r ->
  linked 0 (or_fresh L (r_term r) (r_log r) kind) (append_to_own_log [mkEntry (r_term r) (Log_last_index (r_log r) +64 1) kind] r) /\
  Log_last_index (r_log (append_to_own_log [mkEntry (r_term r) (Log_last_index (r_log r) +64 1) kind] r))
    = Log_last_index (r_log r) + 1.
Proof.
  intros H. pose proof (lk_wf _ _ _ H) as Hw. pose proof (lk_room _ _ _ H) as Hr. pose proof (wf_snapshot _ Hw).
  pose proof (last_index_wf _ Hw) as El.
  rewrite last_index_succ_wf by done. set (es := [mkEntry _ _ kind]). unfold append_to_own_log. cbv zeta.
  assert (Hw' : wf_log (Log_append (r_log r) es)).
  { apply append_wf; [done|apply contiguous_cons; split; [done|apply contiguous_nil]|simpl; lia]. }
  assert (El' : Log_last_index (Log_append (r_log r) es) = Log_last_index (r_log r) + 1).
  { rewrite append_last_index by done. simpl. lia. }
  split; [|exact El'].
  assert (H' : linked 0 (or_fresh L (r_term r) (r_log r) kind) r) by (apply (linked_weaken H); [lia|by left]).
  apply (linked_set_log (k := 0)); simpl; try done; [unfold mark_dirty; auto with links|simpl in *; lia|apply H|].
  intros x. rewrite links_append. intros [Hx|Hx]%elem_of_app; [left; by apply (lk_links _ _ _ H)|].
  apply list_elem_of_singleton in Hx as ->. by right.
Qed.

(** A step from a log [l]: the links stay in [L], or the node, now a leader, has
    added one at the end. *)
Definition outcome (L : Link -> Prop) (l : Log) (r' : Raft) : Prop :=
  linked 0 L r' \/
  exists kind, linked 0 (or_fresh L (r_term r') l kind) r' /\ r_role r' = Leader /\
    Log_last_index (r_log r') = Log_last_index l + 1.

Lemma outcome_still L l r' : linked 0 L r' -> outcome L l r'.
Proof. by left. Qed.

Lemma outcome_stay L l r' : linked 1 L r' -> outcome L l r'.
Proof. intros H. left. apply (linked_weaken H); [lia|done]. Qed.

(** What only sends and moves progress leaves an outcome as it is. *)
Lemma outcome_quiet L l r r' : (forall k L', linked k L' r -> linked k L' r') -> quiet r r' ->
  outcome L l r -> outcome L l r'.
Proof.
  intros Hl Q [H|(kind & H & Hr & E)]; [left; auto|right]. exists kind.
  rewrite (q_term _ _ Q), (q_role _ _ Q), (q_log _ _ Q). auto.
Qed.

Lemma linked_reset_progress k L r : linked k L r -> linked k L (reset_progress_for_config r).
Proof. intros H. unfold reset_progress_for_config. cbv zeta. auto with links. Qed.

Lemma linked_become_follower k L t l r : linked k L r -> linked k L (become_follower t l r).
Proof. intros H. unfold become_follower. cbv zeta. destruct (_ <? _); auto 15 with links. Qed.

Lemma linked_advance_commit k L r : linked k L r -> linked k L (maybe_advance_commit r).
Proof.
  intros H. unfold maybe_advance_commit. cbv zeta. set (c := Config_quorum_index _ _). clearbody c.
  destruct (Z.leb_spec c (r_commit r)); [done|]. case_bool_decide; [done|].
  assert (Hc : linked k L (set_commit c r)) by (apply linked_set_commit; [done|destruct H; lia]). auto with links.
Qed.

Lemma linked_draw k L r : linked k L r -> linked k L (campaign_draw r).
Proof. intros H. unfold campaign_draw, stir. cbv zeta. auto 10 with links. Qed.

#[export] Hint Resolve outcome_still outcome_stay linked_broadcast linked_reset_progress linked_become_follower
  linked_advance_commit linked_draw : links.

Lemma outcome_append_own L r kind : r_role r = Leader -> linked 1 L r ->
  outcome L (r_log r) (append_to_own_log [mkEntry (r_term r) (Log_last_index (r_log r) +64 1) kind] r).
Proof. intros Hr H. right. exists kind. by destruct (linked_append_own L r kind H). Qed.

Lemma outcome_become_leader L r : linked 1 L r -> outcome L (r_log r) (become_leader r).
Proof.
  intros H. unfold become_leader. cbv zeta.
  eapply outcome_quiet; [intros; by apply linked_broadcast|apply quiet_broadcast|].
  set (r0 := set_pending_reads _ _). assert (H0 : linked 1 L r0) by (unfold r0; auto 10 with links).
  assert (E0 : r_role r0 = Leader /\ r_log r0 = r_log r) by done. clearbody r0. destruct E0 as [Er El].
  pose proof (quiet_reset_progress r0) as Q. rewrite <- El, <- (q_log _ _ Q).
  apply outcome_append_own; [by rewrite (q_role _ _ Q)|by apply linked_reset_progress].
Qed.

Lemma outcome_campaign_vote L r : linked 1 L r -> outcome L (r_log r) (campaign_vote r).
Proof.
  intros H. unfold campaign_vote. cbv zeta. set (r1 := campaign_draw r).
  assert (H1 : linked 1 L r1 /\ r_log r1 = r_log r) by (split; [unfold r1; auto with links|done]).
  clearbody r1. destruct H1 as [H1 E1]. set (r2 := set_votes _ _).
  assert (H2 : linked 1 L r2 /\ r_log r2 = r_log r) by (split; [unfold r2; auto 10 with links|done]).
  clearbody r2. destruct H2 as [H2 E2]. destruct (tally _ _).
  - rewrite <- E2. by apply outcome_become_leader.
  - apply outcome_stay. auto with links.
Qed.

Lemma outcome_campaign L b r : linked 1 L r -> outcome L (r_log r) (campaign b r).
Proof.
  intros H. unfold campaign. destruct b; [|by apply outcome_campaign_vote]. cbv zeta. set (r1 := campaign_draw r).
  assert (H1 : linked 1 L r1 /\ r_log r1 = r_log r) by (split; [unfold r1; auto with links|done]).
  clearbody r1. destruct H1 as [H1 E1]. set (r2 := set_votes _ _).
  assert (H2 : linked 1 L r2 /\ r_log r2 = r_log r) by (split; [unfold r2; auto 10 with links|done]).
  clearbody r2. destruct H2 as [H2 E2]. destruct (tally _ _).
  - rewrite <- E2. by apply outcome_campaign_vote.
  - apply outcome_stay, linked_send_to_peers; [|done]. intros. apply linked_push_message; [done|].
    split; [done|]. by intros x ?%elem_of_nil.
Qed.

Lemma linked_expire k L r : linked k L r -> linked k L (expire_pending_snapshots r).
Proof. intros H. unfold expire_pending_snapshots. cbv zeta. apply linked_fold; auto with links. Qed.

Lemma linked_check_quorum k L r : linked k L r -> linked k L (check_quorum r).
Proof. intros H. unfold check_quorum. cbv zeta. destruct (Config_has_quorum _ _); auto with links. Qed.

#[export] Hint Resolve outcome_become_leader outcome_campaign linked_expire linked_check_quorum : links.

Lemma outcome_tick L rand r : linked 1 L r -> outcome L (r_log r) (tick rand r).
Proof.
  intros H. unfold tick. cbv zeta. set (r1 := set_election_elapsed _ _).
  assert (H1 : linked 1 L r1 /\ r_log r1 = r_log r) by (split; [unfold r1; auto with links|done]).
  clearbody r1. destruct H1 as [H1 E1]. rewrite <- E1.
  assert (Hel : outcome L (r_log r1) (if promotable r1 && (r_election_timeout r1 <=? r_election_elapsed r1)
    then start_election r1 else r1)) by (destruct (_ && _); [by apply outcome_campaign|auto with links]).
  destruct (r_role r1); try exact Hel. clear Hel. apply outcome_stay, linked_expire.
  set (r2 := if _ : bool then broadcast_append _ else _).
  assert (H2 : linked 1 L r2) by (unfold r2; destruct (_ <=? _); auto with links). clearbody r2.
  destruct (_ <=? _); auto with links.
Qed.

Lemma linked_follow k L from r : linked k L r -> linked k L (follow from r).
Proof. intros H. unfold follow. cbv zeta. case_bool_decide; auto with links. Qed.

Lemma linked_raise_commit k L c r : linked k L r -> linked k L (raise_commit c r).
Proof.
  intros H. unfold raise_commit. destruct (Z.ltb_spec (r_commit r) c); [|done].
  apply linked_set_hard_state_dirty, linked_set_commit; [done|]. destruct H. lia.
Qed.

#[export] Hint Resolve linked_follow linked_raise_commit : links.

Lemma linked_handle_append L from pi pt es c r : linked 1 L r -> body_wf (AppendReq pi pt es c) ->
  (forall x, x ∈ chain pt es -> L x) -> linked 0 L (handle_append from pi pt es c r).
Proof.
  intros H (Hpi & Hes & Hlen) HL. apply (linked_follow 1 L from) in H. unfold handle_append. cbv zeta.
  set (r1 := follow from r) in *. clearbody r1.
  assert (H0 : linked 0 L r1) by (apply (linked_weaken H); [lia|done]).
  destruct (Z.ltb_spec pi (snapshot_index (r_log r1))) as [|Hsn]; [auto with links|].
  destruct (Log_term_at (r_log r1) pi) as [t|] eqn:Et; [|auto with links].
  destruct (Z.eqb_spec t pt) as [->|]; [|auto with links].
  pose proof (lk_wf _ _ _ H) as Hw. pose proof (last_index_wf _ Hw). pose proof (wf_snapshot _ Hw).
  assert (Hp : snapshot_index (r_log r1) <= pi <= Log_last_index (r_log r1)) by (destruct (term_at_Some _ Hw _ _ Et); lia).
  destruct (Log_merge (r_log r1) pi es) as [log last_new] eqn:M.
  assert (El : log = Log_merge_loop (r_log r1) es) by (rewrite <- (merge_fst _ pi); by rewrite M).
  assert (Hm : linked 0 L (set_log log r1)).
  { rewrite El. destruct (links_merge _ Hw pi pt es (lk_zero _ _ _ H) Hp Et Hes) as [Hsub Hz].
    pose proof (merge_outcome_wf _ _ _ _ Hw Hes (proj1 Hp) Hlen (merge_loop_outcome _ _ _ Hw Hes Hp)) as Hw'.
    apply (linked_set_log H0); [done| |done|].
    - pose proof (last_index_wf _ Hw'). pose proof (wf_room _ Hw'). lia.
    - intros x Hx. apply Hsub, elem_of_app in Hx as [Hx|Hx]; [by apply (lk_links _ _ _ H)|auto]. }
  set (r3 := match es with [] => _ | _ => _ end). assert (Hd : linked 0 L r3).
  { unfold r3, mark_dirty. destruct es; auto with links. }
  clearbody r3. assert (Hr : linked 0 L (raise_commit (Z.min c last_new) r3)) by auto with links.
  set (r4 := raise_commit _ r3) in *. clearbody r4. destruct (_ <? _); [|auto with links].
  apply linked_send; [|done|done]. apply linked_set_hard_state_dirty, linked_set_commit; [done|].
  pose proof (last_index_wf _ (lk_wf _ _ _ Hr)). pose proof (wf_snapshot _ (lk_wf _ _ _ Hr)). lia.
Qed.

Lemma linked_handle_snapshot L from s r : linked 1 L r -> body_wf (SnapshotReq s) ->
  linked 0 L (handle_snapshot from s r).
Proof.
  intros H Hs. apply (linked_follow 1 L from) in H. unfold handle_snapshot. cbv zeta.
  set (r1 := follow from r) in *. clearbody r1.
  assert (H0 : linked 0 L r1) by (apply (linked_weaken H); [lia|done]).
  destruct (Z.leb_spec (sn_last_index s) (r_commit r1)) as [|Hlt]; [auto with links|].
  pose proof (lk_wf _ _ _ H) as Hw. pose proof (lk_commit _ _ _ H) as Hc. simpl in Hs.
  destruct (links_install _ Hw s (lk_zero _ _ _ H)) as [Hsub Hz]; [lia|].
  assert (H1 : linked 0 L (set_log (Log_install_snapshot (r_log r1) s) r1)).
  { pose proof (install_wf _ s Hw Hs) as Hw'. apply (linked_set_log H0); [done| |done|].
    - pose proof (last_index_wf _ Hw'). pose proof (wf_room _ Hw'). lia.
    - intros x Hx%Hsub. by apply (lk_links _ _ _ H). }
  apply linked_send; [|done|done]. apply linked_supersede, linked_set_dirty_from, linked_set_hard_state_dirty, linked_set_applied,
    linked_set_commit; [done|]. simpl. lia.
Qed.

Lemma linked_append_resp k L from s mi ci ct r : linked k L r -> linked k L (handle_append_resp from s mi ci ct r).
Proof.
  intros H. unfold handle_append_resp. case_bool_decide; [done|]. cbv zeta.
  destruct (r_progress r !! from) as [p|]; [|done]. destruct s; [|auto with links].
  set (r1 := maybe_advance_commit _). assert (H1 : linked k L r1) by (unfold r1; auto with links). clearbody r1.
  destruct (match r_progress r1 !! from with Some _ => _ | None => _ end); auto with links.
Qed.

Lemma linked_snapshot_resp k L from s i r : linked k L r -> linked k L (handle_snapshot_resp from s i r).
Proof.
  intros H. unfold handle_snapshot_resp. case_bool_decide; [done|].
  destruct (r_progress r !! from); [|done]. destruct s; cbv zeta; auto with links.
Qed.

Lemma linked_heartbeat k L from c x r : linked k L r -> linked k L (handle_heartbeat from c x r).
Proof. intros H. unfold handle_heartbeat. cbv zeta. auto with links. Qed.

Lemma linked_heartbeat_resp k L from x r : linked k L r -> linked k L (handle_heartbeat_resp from x r).
Proof.
  intros H. unfold handle_heartbeat_resp. case_bool_decide; [done|]. cbv zeta.
  destruct (map _ _); auto 10 with links.
Qed.

Lemma linked_vote_req k L from i t r : linked k L r -> linked k L (handle_vote_req from i t r).
Proof. intros H. unfold handle_vote_req. cbv zeta. destruct (_ && _); auto 10 with links. Qed.

Lemma linked_pre_vote_req k L from pt i t r : linked k L r -> linked k L (handle_pre_vote_req from pt i t r).
Proof.
  intros H. unfold handle_pre_vote_req. cbv zeta. apply linked_push_message; [done|]. split; [done|].
  by intros x ?%elem_of_nil.
Qed.

#[export] Hint Resolve linked_append_resp linked_snapshot_resp linked_heartbeat linked_heartbeat_resp
  linked_vote_req linked_pre_vote_req : links.

Lemma outcome_pre_vote_resp L from t g r : linked 1 L r -> outcome L (r_log r) (handle_pre_vote_resp from t g r).
Proof.
  intros H. unfold handle_pre_vote_resp. case_bool_decide; [auto with links|].
  destruct (_ && _); [auto with links|]. cbv zeta. set (r1 := set_votes _ r).
  assert (H1 : linked 1 L r1 /\ r_log r1 = r_log r) by (split; [unfold r1; auto with links|done]).
  clearbody r1. destruct H1 as [H1 E1]. rewrite <- E1. destruct (tally _ _); [auto with links|].
  destruct (lost _ _); auto with links.
Qed.

Lemma outcome_vote_resp L from g r : linked 1 L r -> outcome L (r_log r) (handle_vote_resp from g r).
Proof.
  intros H. unfold handle_vote_resp. case_bool_decide; [auto with links|]. cbv zeta. set (r1 := set_votes _ r).
  assert (H1 : linked 1 L r1 /\ r_log r1 = r_log r) by (split; [unfold r1; auto with links|done]).
  clearbody r1. destruct H1 as [H1 E1]. rewrite <- E1. destruct (tally _ _); [auto with links|].
  destruct (lost _ _); auto with links.
Qed.

#[export] Hint Resolve outcome_pre_vote_resp outcome_vote_resp : links.

Lemma outcome_step L from m r : linked 1 L r -> msg_linked L m -> outcome L (r_log r) (step from m r).
Proof.
  intros H [Hb HL]. unfold step. cbv zeta. set (r1 := adopt_term from m r).
  assert (H1 : linked 1 L r1 /\ r_log r1 = r_log r).
  { unfold r1, adopt_term. cbv zeta. destruct (_ && _); [|done]. split; [auto with links|].
    apply samelog_become_follower. }
  clearbody r1. destruct H1 as [H1 E1]. rewrite <- E1. destruct (_ <? _).
  - destruct (m_body m); auto with links.
  - unfold handle, msg_links in *. destruct (m_body m); auto with links.
    + apply outcome_still. by apply linked_handle_append.
    + apply outcome_still. by apply linked_handle_snapshot.
    + destruct (promotable r1); auto with links.
Qed.

(** What the links of a step may come from: the node, and the message it handles. *)
Definition input_linked (L : Link -> Prop) (i : Input) : Prop :=
  match i with
  | IStep _ m => msg_linked L m
  | ISendSnapshot _ s => 0 <= sn_last_index s < U64 - 1
  | _ => True
  end.

Lemma outcome_propose_config L change r : linked 1 L r -> outcome L (r_log r) (propose_config change r).2.
Proof.
  intros H. unfold propose_config. case_bool_decide as Er; [auto with links|]. cbv zeta.
  destruct (match change with EnterJoint _ _ => _ | LeaveJoint => _ end); [auto with links|].
  destruct (existsb _ _); [auto with links|]. cbn [snd].
  eapply outcome_quiet; [intros; by apply linked_broadcast|apply quiet_broadcast|].
  eapply outcome_quiet; [intros; by apply linked_reset_progress|apply quiet_reset_progress|].
  by apply outcome_append_own.
Qed.

Lemma outcome_input L i r : linked 1 L r -> input_linked L i -> outcome L (r_log r) (apply_input i r).
Proof.
  intros H Hi. destruct i; simpl in *; auto using outcome_tick, outcome_step, outcome_propose_config.
  - unfold propose. case_bool_decide as Er; [auto with links|]. cbn [snd].
    eapply outcome_quiet; [intros; by apply linked_broadcast|apply quiet_broadcast|]. by apply outcome_append_own.
  - unfold maybe_finish_config_change. case_bool_decide; [auto with links|]. cbv zeta.
    destruct (negb _); [auto with links|]. destruct (negb _); [auto with links|]. by apply outcome_propose_config.
  - unfold read_index. case_bool_decide; [auto with links|]. destruct (negb _); [auto with links|]. cbv zeta.
    destruct (Config_has_quorum _ _); cbn [snd]; auto 10 with links.
  - unfold transfer_leadership. destruct (_ || _); [auto with links|]. destruct (negb _); simpl; auto with links.
  - unfold step_down. case_bool_decide; auto with links.
  - unfold report_persisted. auto with links.
  - unfold snapshot_at_applied. destruct (Log_term_at _ _) as [t|] eqn:Et; [|auto with links].
    unfold compact. simpl. pose proof (lk_wf _ _ _ H) as Hw.
    destruct (links_compact _ Hw _ _ (Log_config (r_log r)) (lk_zero _ _ _ H) Et) as [Hsub Hz].
    apply outcome_stay, (linked_set_log H); [by apply compact_wf| |done|].
    + rewrite compact_last_index by done. apply H.
    + intros x Hx%Hsub. by apply (lk_links _ _ _ H).
  - unfold send_snapshot. apply outcome_stay, linked_send; auto with links.
Qed.

(** ** Who becomes a leader *)

(** Along a step terms do not go back; a leader is the leader of before, with
    nothing taken off its log, or leads a new term, or was the candidate of the
    term; a candidate was one already or stands in a new term. *)
Record promoted (r r' : Raft) : Prop := {
  pm_term : r_term r <= r_term r';
  pm_leader : r_role r' = Leader ->
    (r_role r = Leader /\ r_term r' = r_term r /\ Log_last_index (r_log r) <= Log_last_index (r_log r')) \/
    r_term r < r_term r' \/ (r_role r = Candidate /\ r_term r' = r_term r);
  pm_candidate : r_role r' = Candidate -> r_term r < r_term r' \/ (r_role r = Candidate /\ r_term r' = r_term r)
}.

#[export] Instance promoted_refl : Reflexive promoted.
Proof. intros r. split; intros; [lia|left|right]; split_and?; done || lia. Qed.

#[export] Instance promoted_trans : Transitive promoted.
Proof.
  intros r1 r2 r3 [T12 L12 C12] [T23 L23 C23]. split; [lia| |].
  - intros Hr. destruct (L23 Hr) as [(H2 & E & ?)|[?|[H2 E]]]; [|right; left; lia|].
    + destruct (L12 H2) as [(? & ? & ?)|[?|[? ?]]]; [left|right; left|right; right]; split_and?; done || lia.
    + destruct (C12 H2) as [?|[? ?]]; [right; left; lia|right; right; split; done || lia].
  - intros Hr. destruct (C23 Hr) as [?|[H2 E]]; [left; lia|].
    destruct (C12 H2) as [?|[? ?]]; [left; lia|right; split; done || lia].
Qed.

Lemma promoted_level r r' : r_role r' = r_role r -> r_term r' = r_term r -> r_log r' = r_log r -> promoted r r'.
Proof. intros E1 E2 E3. split; rewrite ?E1, ?E2, ?E3; intros; [lia|left|right]; split_and?; done || lia. Qed.

Lemma promoted_quiet r r' : quiet r r' -> promoted r r'.
Proof. intros []. by apply promoted_level. Qed.

(** A node that ends as a follower or only polls. *)
Lemma promoted_idle r r' : r_term r <= r_term r' -> r_role r' <> Leader -> r_role r' <> Candidate -> promoted r r'.
Proof. intros. by split. Qed.

Create HintDb rank discriminated.
#[export] Hint Constants Opaque : rank.
Ltac rank_chain := repeat first [ reflexivity | solve [auto with rank] | etransitivity; [|solve [auto with rank]] ].

Lemma promoted_set_commit v r : promoted r (set_commit v r).
Proof. by apply promoted_level. Qed.
Lemma promoted_set_applied v r : promoted r (set_applied v r).
Proof. by apply promoted_level. Qed.
Lemma promoted_set_persisted v r : promoted r (set_persisted v r).
Proof. by apply promoted_level. Qed.
Lemma promoted_set_leader v r : promoted r (set_leader v r).
Proof. by apply promoted_level. Qed.
Lemma promoted_set_vote v r : promoted r (set_vote v r).
Proof. by apply promoted_level. Qed.
Lemma promoted_set_votes v r : promoted r (set_votes v r).
Proof. by apply promoted_level. Qed.
Lemma promoted_set_hard_state_dirty v r : promoted r (set_hard_state_dirty v r).
Proof. by apply promoted_level. Qed.
Lemma promoted_send to b r : promoted r (send to b r).
Proof. by apply promoted_level. Qed.
Lemma promoted_supersede s r : promoted r (supersede_pending s r).
Proof. by apply promoted_level. Qed.
Lemma promoted_set_election_elapsed v r : promoted r (set_election_elapsed v r).
Proof. by apply promoted_level. Qed.
Lemma promoted_set_quorum_contact v r : promoted r (set_quorum_contact_elapsed v r).
Proof. by apply promoted_level. Qed.
Lemma promoted_set_progress v r : promoted r (set_progress v r).
Proof. by apply promoted_level. Qed.
Lemma promoted_set_committed v r : promoted r (set_committed_own_term v r).
Proof. by apply promoted_level. Qed.

Lemma promoted_push to m r : promoted r (push_message to m r).
Proof. by apply promoted_level. Qed.

Lemma promoted_send_to_peers f r : (forall peer r, promoted r (f peer r)) -> promoted r (send_to_peers f r).
Proof.
  intros Hf. unfold send_to_peers. generalize (sorted_elements (Config_all_nodes (Log_config (r_log r)))). intros ids.
  revert r. induction ids as [|id ids IH]; intros r; simpl; [reflexivity|].
  etransitivity; [|apply IH]. destruct (negb _); [apply Hf|reflexivity].
Qed.

#[export] Hint Resolve promoted_push promoted_send_to_peers : rank.

Lemma promoted_broadcast r : promoted r (broadcast_append r).
Proof. apply promoted_quiet, quiet_broadcast. Qed.
Lemma promoted_send_append_to p r : promoted r (send_append_to p r).
Proof. apply promoted_quiet, quiet_send_append_to. Qed.
Lemma promoted_reset r : promoted r (reset_progress_for_config r).
Proof. apply promoted_quiet, quiet_reset_progress. Qed.

#[export] Hint Resolve promoted_set_commit promoted_set_applied promoted_set_persisted promoted_set_leader
  promoted_set_vote promoted_set_votes promoted_set_hard_state_dirty promoted_send promoted_supersede
  promoted_set_election_elapsed promoted_set_quorum_contact promoted_set_progress promoted_set_committed
  promoted_broadcast promoted_send_append_to promoted_reset : rank.

Lemma promoted_become_follower t l r : promoted r (become_follower t l r).
Proof.
  apply promoted_idle; unfold become_follower; cbv zeta; [|by destruct (_ <? _)..].
  destruct (Z.ltb_spec (r_term r) t); simpl; lia.
Qed.

Lemma promoted_append_own r kind : wf_log (r_log r) -> Log_last_index (r_log r) + 1 < U64 - 1 ->
  promoted r (append_to_own_log [mkEntry (r_term r) (Log_last_index (r_log r) +64 1) kind] r).
Proof.
  intros Hw Hroom. unfold append_to_own_log, mark_dirty. cbv zeta. rewrite last_index_succ_wf by done.
  set (e := mkEntry _ _ kind). assert (E : Log_last_index (Log_append (r_log r) [e]) = Log_last_index (r_log r) + 1).
  { unfold Log_last_index at 1. simpl. by rewrite last_snoc. }
  split; [done| |by right]. intros Hr. left. split_and!; [done|done|]. change (Log_last_index (r_log r) <= Log_last_index (Log_append (r_log r) [e])).
  lia.
Qed.

Lemma promoted_advance_commit r : promoted r (maybe_advance_commit r).
Proof.
  unfold maybe_advance_commit. cbv zeta. destruct (_ <=? _); [reflexivity|]. case_bool_decide; [reflexivity|]. rank_chain.
Qed.

#[export] Hint Resolve promoted_become_follower promoted_append_own promoted_advance_commit : rank.

(** [become_leader] is called on the candidate of the term only. *)
Lemma become_leader_facts r : r_term (become_leader r) = r_term r /\ r_role (become_leader r) = Leader.
Proof.
  unfold become_leader. cbv zeta. set (r0 := set_pending_reads _ _). pose proof (quiet_reset_progress r0) as Q.
  set (r1 := reset_progress_for_config r0) in *. clearbody r1.
  set (r2 := append_to_own_log _ r1). assert (E2 : r_term r2 = r_term r1 /\ r_role r2 = r_role r1) by done.
  clearbody r2. destruct E2 as [E2 E2']. pose proof (quiet_broadcast r2) as Q2.
  by rewrite (q_term _ _ Q2), (q_role _ _ Q2), E2, E2', (q_term _ _ Q), (q_role _ _ Q).
Qed.

Lemma promoted_become_leader r : r_role r = Candidate -> promoted r (become_leader r).
Proof.
  intros Hc. destruct (become_leader_facts r) as [Et Er]. split; [lia| |by rewrite Er]. intros _. right. right. split; done || lia.
Qed.

Lemma promoted_campaign_vote r : term_room r -> promoted r (campaign_vote r).
Proof.
  intros Hr. unfold campaign_vote. cbv zeta. set (r2 := set_votes _ _).
  assert (H2 : r_role r2 = Candidate /\ r_term r2 = r_term r + 1).
  { split; [done|]. change (r_term r +64 1 = r_term r + 1). rewrite wadd64_small; [done|]. unfold term_room in Hr. lia. }
  clearbody r2. destruct H2 as [Hc Ht]. transitivity r2; [split; intros; [lia|right; left; lia|left; lia]|].
  destruct (tally _ _); [by apply promoted_become_leader|]. auto with rank.
Qed.

Lemma promoted_campaign b r : term_room r -> promoted r (campaign b r).
Proof.
  intros Hr. unfold campaign. destruct b; [|by apply promoted_campaign_vote]. cbv zeta. set (r2 := set_votes _ _).
  assert (H2 : r_role r2 = PreCandidate /\ r_term r2 = r_term r) by done. clearbody r2. destruct H2 as [Hp Ht].
  transitivity r2; [apply promoted_idle; [lia|by rewrite Hp..]|].
  destruct (tally _ _); [apply promoted_campaign_vote; unfold term_room in *; lia|]. auto with rank.
Qed.

Lemma promoted_check_quorum r : promoted r (check_quorum r).
Proof. unfold check_quorum. cbv zeta. destruct (Config_has_quorum _ _); rank_chain. Qed.

Lemma promoted_tick rand r : term_room r -> promoted r (tick rand r).
Proof.
  intros Hr. unfold tick. cbv zeta. set (r1 := set_election_elapsed _ _).
  assert (H1 : promoted r r1 /\ term_room r1) by (split; [by apply promoted_level|exact Hr]).
  clearbody r1. destruct H1 as [H1 Hr1]. transitivity r1; [done|].
  assert (Hel : promoted r1 (if promotable r1 && (r_election_timeout r1 <=? r_election_elapsed r1)
    then start_election r1 else r1)) by (destruct (_ && _); [by apply promoted_campaign|reflexivity]).
  destruct (r_role r1); try exact Hel. clear Hel. etransitivity; [|apply promoted_quiet, quiet_expire].
  set (r2 := if _ : bool then broadcast_append _ else _).
  assert (H2 : promoted r1 r2).
  { unfold r2. destruct (_ <=? _); [etransitivity; [|apply promoted_broadcast]|]; by apply promoted_level. }
  clearbody r2. transitivity r2; [done|]. destruct (_ <=? _); [|reflexivity].
  etransitivity; [|apply promoted_check_quorum]. auto with rank.
Qed.

(** The handlers of a leader's messages leave a follower. *)
Lemma follow_facts from r : r_role (follow from r) = Follower /\ r_term (follow from r) = r_term r.
Proof.
  unfold follow, become_follower. cbv zeta. rewrite Z.ltb_irrefl. case_bool_decide as E; [done|]. split; [|done]. simpl.
  by destruct (r_role r).
Qed.

Lemma promoted_handle_append from pi pt es c r : promoted r (handle_append from pi pt es c r).
Proof.
  unfold handle_append. cbv zeta. destruct (follow_facts from r) as [Ef Et]. set (r1 := follow from r) in *. clearbody r1.
  transitivity r1; [apply promoted_idle; [lia|by rewrite Ef..]|].
  destruct (_ <? _); [auto with rank|]. destruct (Log_term_at _ _) as [t|]; [|auto with rank].
  destruct (_ =? _); [|auto with rank]. destruct (Log_merge _ _ _) as [log last_new].
  set (r3 := match es with [] => _ | _ => _ end).
  assert (H3 : r_role r3 = Follower /\ r_term r3 = r_term r1) by (unfold r3; by destruct es). clearbody r3.
  destruct H3 as [E3 T3]. transitivity r3; [apply promoted_idle; [lia|by rewrite E3..]|].
  etransitivity; [|apply promoted_send]. set (r4 := raise_commit _ r3).
  assert (H4 : promoted r3 r4) by (unfold r4, raise_commit; destruct (_ <? _); rank_chain). clearbody r4.
  transitivity r4; [done|]. destruct (_ <? _); rank_chain.
Qed.

Lemma promoted_handle_snapshot from s r : promoted r (handle_snapshot from s r).
Proof.
  unfold handle_snapshot. cbv zeta. destruct (follow_facts from r) as [Ef Et]. set (r1 := follow from r) in *. clearbody r1.
  transitivity r1; [apply promoted_idle; [lia|by rewrite Ef..]|].
  destruct (_ <=? _); [auto with rank|]. apply promoted_idle; [done|simpl; by rewrite Ef..].
Qed.

Lemma promoted_append_resp from s mi ci ct r : promoted r (handle_append_resp from s mi ci ct r).
Proof.
  unfold handle_append_resp. case_bool_decide; [reflexivity|]. cbv zeta.
  destruct (r_progress r !! from) as [p|]; [|reflexivity]. destruct s; [|rank_chain].
  set (r1 := maybe_advance_commit _). transitivity r1; [unfold r1; rank_chain|]. clearbody r1.
  destruct (match r_progress r1 !! from with Some _ => _ | None => _ end); rank_chain.
Qed.

Lemma promoted_vote_resp from g r : promoted r (handle_vote_resp from g r).
Proof.
  unfold handle_vote_resp. case_bool_decide as Er; [reflexivity|]. cbv zeta.
  set (r1 := set_votes _ r). assert (H1 : promoted r r1 /\ r_role r1 = Candidate) by (split; [by apply promoted_level|done]).
  clearbody r1. destruct H1 as [H1 E1]. transitivity r1; [done|]. destruct (tally _ _); [by apply promoted_become_leader|].
  destruct (lost _ _); rank_chain.
Qed.

Lemma promoted_pre_vote_resp from t g r : term_room r -> promoted r (handle_pre_vote_resp from t g r).
Proof.
  intros Hr. unfold handle_pre_vote_resp. case_bool_decide as Er; [reflexivity|].
  destruct (_ && _); [auto with rank|]. cbv zeta. set (r1 := set_votes _ r).
  assert (H1 : promoted r r1 /\ term_room r1) by (split; [by apply promoted_level|done]).
  clearbody r1. destruct H1 as [H1 Hr1]. transitivity r1; [done|]. destruct (tally _ _); [by apply promoted_campaign|].
  destruct (lost _ _); [|reflexivity]. by apply promoted_idle.
Qed.

Lemma promoted_step from m r : input_room (IStep from m) r -> promoted r (step from m r).
Proof.
  intros Hr. unfold step. cbv zeta. pose proof (adopt_room from m r Hr) as Hr1.
  assert (H1 : promoted r (adopt_term from m r)).
  { unfold adopt_term. cbv zeta. destruct (_ && _); [apply promoted_become_follower|reflexivity]. }
  set (r1 := adopt_term from m r) in *. clearbody r1. transitivity r1; [done|]. destruct (_ <? _).
  - destruct (m_body m); rank_chain.
  - unfold handle. destruct (m_body m);
      auto using promoted_vote_resp, promoted_pre_vote_resp, promoted_handle_append, promoted_handle_snapshot,
        promoted_append_resp, promoted_quiet, quiet_pre_vote_req, quiet_heartbeat_resp.
    + unfold handle_vote_req. cbv zeta. destruct (_ && _); rank_chain.
    + unfold handle_snapshot_resp. case_bool_decide; [reflexivity|].
      destruct (r_progress r1 !! from); [|reflexivity]. destruct success; cbv zeta; rank_chain.
    + unfold handle_heartbeat. cbv zeta. destruct (follow_facts from r1) as [Ef Et]. set (r2 := follow from r1) in *.
      clearbody r2. transitivity r2; [apply promoted_idle; [lia|by rewrite Ef..]|].
      unfold raise_commit. destruct (_ <? _); rank_chain.
    + destruct (promotable r1); [by apply promoted_campaign|reflexivity].
Qed.

Lemma promoted_propose_config change r : linked 1 (fun _ => True) r -> promoted r (propose_config change r).2.
Proof.
  intros H. unfold propose_config. case_bool_decide; [reflexivity|]. cbv zeta.
  destruct (match change with EnterJoint _ _ => _ | LeaveJoint => _ end); [reflexivity|].
  destruct (existsb _ _); [reflexivity|]. cbn [snd]. destruct H.
  etransitivity; [|apply promoted_broadcast]. etransitivity; [|apply promoted_reset]. by apply promoted_append_own.
Qed.

Lemma promoted_input i r : linked 1 (fun _ => True) r -> input_room i r -> promoted r (apply_input i r).
Proof.
  intros H Hr. destruct i; simpl; auto using promoted_step, promoted_propose_config.
  - apply promoted_tick, Hr.
  - unfold propose. case_bool_decide; [reflexivity|]. cbn [snd]. destruct H.
    etransitivity; [|apply promoted_broadcast]. by apply promoted_append_own.
  - unfold maybe_finish_config_change. case_bool_decide; [reflexivity|]. cbv zeta.
    destruct (negb _); [reflexivity|]. destruct (negb _); [reflexivity|]. by apply promoted_propose_config.
  - apply promoted_quiet, quiet_read_index.
  - apply promoted_quiet, quiet_transfer.
  - unfold step_down. case_bool_decide; [auto with rank|reflexivity].
  - unfold report_persisted. auto with rank.
  - destruct (snapshot_at_applied data r) as [s|]; [|reflexivity]. unfold compact.
    split; [done| |by right]. intros Hl. left. split_and!; [done|done|]. simpl.
    rewrite compact_last_index by apply H. done.
  - unfold send_snapshot. etransitivity; [|apply promoted_send]. apply promoted_quiet, quiet_update_progress.
Qed.

Lemma advance_commit_log r : r_log (maybe_advance_commit r) = r_log r.
Proof. unfold maybe_advance_commit. cbv zeta. destruct (_ <=? _); [done|]. by case_bool_decide. Qed.

Lemma update_progress_log id f r : r_log (update_progress id f r) = r_log r.
Proof. unfold update_progress. by destruct (r_progress r !! id). Qed.

Lemma advance_log rd r : r_log (advance rd r) = r_log r.
Proof.
  unfold advance. cbv zeta. set (r1 := match rd_hard_state rd with Some _ => _ | None => r end).
  assert (E1 : r_log r1 = r_log r) by (unfold r1; by destruct (rd_hard_state rd)). clearbody r1.
  set (r2 := update_progress _ _ r1). assert (E2 : r_log r2 = r_log r1) by apply update_progress_log. clearbody r2.
  transitivity (r_log (if bool_decide (r_role r2 = Leader) then maybe_advance_commit r2 else r2)); [by destruct (last _)|].
  case_bool_decide; [rewrite advance_commit_log|]; congruence.
Qed.

Lemma cycle_log r : r_log (cycle r) = r_log r.
Proof. unfold cycle. rewrite advance_log. apply (rr_log _ _ _ (ready_rel_ready r)). Qed.

Lemma cycle_commit k L r : linked k L r -> 0 <= r_commit (cycle r).
Proof.
  intros H. pose proof (last_index_wf _ (lk_wf _ _ _ H)). pose proof (wf_snapshot _ (lk_wf _ _ _ H)).
  assert (Hc0 : linked k L (ready r).2).
  { destruct H. unfold ready. cbv zeta. destruct (r_dirty_from _); simpl; destruct (r_hard_state_dirty r); simpl;
      split; simpl; try done; try lia; constructor. }
  unfold cycle, advance. cbv zeta. set (rd := (ready r).1). set (r0 := (ready r).2) in *. clearbody rd r0.
  set (r1 := match rd_hard_state rd with Some _ => _ | None => r0 end).
  assert (Hc1 : linked k L r1) by (unfold r1; destruct (rd_hard_state rd); auto with links). clearbody r1.
  set (r2 := update_progress _ _ _). assert (Hc2 : linked k L r2) by (unfold r2; auto with links). clearbody r2.
  set (r3 := if _ : bool then maybe_advance_commit r2 else r2).
  assert (Hc3 : linked k L r3) by (unfold r3; case_bool_decide; auto with links). clearbody r3.
  pose proof (lk_commit _ _ _ Hc3). by destruct (last _).
Qed.

(** ** A cluster whose disks hold logs *)

(** [written i] is every link the log on node [i]'s disk has ever held. *)
Record LogCluster : Type := mkLogCluster {
  lc : Cluster;
  written : NodeId -> list Link
}.

(** What recovery may bring back: a well-formed log made of links the disk has
    held. Entries may be missing at the end, or covered by a snapshot. *)
Definition sound_log (w : list Link) (l : Log) : Prop := wf_log l /\ zero_ok l /\ links l ⊆ w.

#[export] Instance sound_log_dec w l : Decision (sound_log w l).
Proof. unfold sound_log, zero_ok. apply _. Defined.

Definition lc_init (C : Config) (opts : RaftOptions) : LogCluster := mkLogCluster (cluster_init C opts) (fun _ => []).

(** The steps of [cluster_step], with the log on disk. The driver writes the
    log before it sends, and the hard state before the log. *)
Inductive lc_step (C : Config) (opts : RaftOptions) : LogCluster -> LogCluster -> Prop :=
| l_input st i inp :
    input_room inp (nodes (lc st) i) -> log_room (nodes (lc st) i) -> input_fixed C inp ->
    (forall from m, inp = IStep from m -> (from, i, m) ∈ net (lc st)) ->
    (forall peer s, inp = ISendSnapshot peer s -> 0 <= sn_last_index s < U64 - 1) ->
    lc_step C opts st (mkLogCluster (do_input i inp (lc st)) (written st))
| l_cycle st i :
    lc_step C opts st
      (mkLogCluster (do_cycle i (lc st)) (<[i := written st i ++ links (r_log (nodes (lc st) i))]> (written st)))
(** A crash before anything of the [Ready] was written. *)
| l_crash st i snap es :
    Forall ordinary es -> (forall s, snap = Some s -> sn_config s = C) ->
    let r := Raft_restore i opts (disk (lc st) i) snap es C in
    sound_log (written st i) (r_log r) ->
    lc_step C opts st
      (mkLogCluster (mkCluster (<[i := r]> (nodes (lc st))) (disk (lc st)) (net (lc st))) (written st))
(** A crash after the hard state was written, with the log written in part or in
    full and any of the messages sent. *)
| l_crash_writing st i snap es sent :
    Forall ordinary es -> (forall s, snap = Some s -> sn_config s = C) ->
    sent ⊆ rd_messages (ready (nodes (lc st) i)).1 ->
    let d := disk_after (ready (nodes (lc st) i)).1 (ready (nodes (lc st) i)).2 in
    let w := written st i ++ links (r_log (nodes (lc st) i)) in
    let r := Raft_restore i opts d snap es C in
    sound_log w (r_log r) ->
    lc_step C opts st
      (mkLogCluster (mkCluster (<[i := r]> (nodes (lc st))) (<[i := d]> (disk (lc st)))
         (net (lc st) ++ addressed i sent)) (<[i := w]> (written st))).

Inductive lc_reachable (C : Config) (opts : RaftOptions) : LogCluster -> Prop :=
| lr_init : lc_reachable C opts (lc_init C opts)
| lr_step st st' : lc_reachable C opts st -> lc_step C opts st st' -> lc_reachable C opts st'.

Lemma lc_cluster_step C opts st st' : lc_step C opts st st' -> cluster_step C opts (lc st) (lc st').
Proof. intros []; [by apply c_input|by apply c_cycle|by apply c_crash|by apply c_crash_sending]. Qed.

Lemma lc_cluster_reachable C opts st : lc_reachable C opts st -> reachable C opts (lc st).
Proof. induction 1 as [|st st' _ IH H]; [apply r_init|]. eapply r_step; [exact IH|by apply lc_cluster_step]. Qed.

(** ** Where links are, and who made them *)

Definition visible (st : LogCluster) (x : Link) : Prop :=
  (exists i, x ∈ written st i) \/ exists from to m, (from, to, m) ∈ net (lc st) /\ x ∈ msg_links m.

Definition node_has (r : Raft) (x : Link) : Prop :=
  x ∈ links (r_log r) \/ exists tm, tm ∈ msgs r /\ x ∈ msg_links tm.2.

Definition somewhere (st : LogCluster) (x : Link) : Prop := visible st x \/ exists i, node_has (nodes (lc st) i) x.

(** [n] led term [t] at some moment up to now. *)
Definition led C opts (st : Cluster) (n : NodeId) (t : Term) : Prop :=
  exists st0, reachable C opts st0 /\ leads_to C opts st0 st /\
    r_role (nodes st0 n) = Leader /\ r_term (nodes st0 n) = t.

(** A node that will not lead [t] any more, unless it does already. *)
Definition behind (t : Term) (r : Raft) : Prop := t <= r_term r /\ (r_term r = t -> r_role r <> Candidate).

Lemma promoted_behind t r r' : promoted r r' -> behind t r -> behind t r'.
Proof.
  intros [Ht _ Hc] [Hb Hn]. split; [lia|]. intros E Hr. destruct (Hc Hr) as [?|[? ?]]; [lia|]. apply Hn; [lia|done].
Qed.

Lemma linked_has k L r x : linked k L r -> node_has r x -> L x.
Proof.
  intros H [Hx|(tm & Hm & Hx)]; [by apply (lk_links _ _ _ H)|].
  pose proof (lk_msgs _ _ _ H) as Hms. rewrite Forall_forall in Hms. by apply (Hms tm Hm).
Qed.

Lemma linked_self k L r : linked k L r -> linked k (node_has r) r.
Proof.
  intros [? ? ? ? ? Hm]. split; try done; [by left|]. apply Forall_forall. intros tm Htm.
  rewrite Forall_forall in Hm. split; [by apply (Hm tm)|]. intros x Hx. right. by exists tm.
Qed.

Section Matching.
Context (C : Config) (opts : RaftOptions) (Hjoint : Config_is_joint C = false).

Lemma led_step st st' n t : cluster_step C opts st st' -> led C opts st n t -> led C opts st' n t.
Proof using.
  intros Hs (st0 & H0 & Hl & Hr & Ht). exists st0. split; [done|]. split; [|done]. eapply rtc_r; [exact Hl|exact Hs].
Qed.

Lemma led_now st n : reachable C opts st -> r_role (nodes st n) = Leader -> led C opts st n (r_term (nodes st n)).
Proof using. intros H Hr. exists st. split; [done|]. split; [apply rtc_refl|done]. Qed.

Lemma led_unique st n j : r_role (nodes st j) = Leader -> led C opts st n (r_term (nodes st j)) -> n = j.
Proof using Hjoint. intros Hj (st0 & H0 & Hl & Hr & Ht). by eapply one_leader. Qed.

(** A link in a node is one that is visible, or one it has made as a leader and
    not written yet. *)
Definition own (st : LogCluster) (i : NodeId) (x : Link) : Prop :=
  visible st x \/ (led C opts (lc st) i (e_term x.2) /\ behind (e_term x.2) (nodes (lc st) i)).

Record lc_inv (st : LogCluster) : Prop := {
  li_nodes i : linked 0 (own st i) (nodes (lc st) i);
  li_visible x : visible st x -> exists n, led C opts (lc st) n (e_term x.2) /\
    e_term x.2 <= hs_term (disk (lc st) n) /\ behind (e_term x.2) (nodes (lc st) n);
  li_net from to m : (from, to, m) ∈ net (lc st) -> body_wf (m_body m);
  li_unique x y : somewhere st x -> somewhere st y ->
    e_index x.2 = e_index y.2 -> e_term x.2 = e_term y.2 -> x = y;
  li_leader n x : r_role (nodes (lc st) n) = Leader -> somewhere st x ->
    e_term x.2 = r_term (nodes (lc st) n) -> e_index x.2 <= Log_last_index (r_log (nodes (lc st) n))
}.

Lemma maker st x : lc_inv st -> somewhere st x ->
  exists n, led C opts (lc st) n (e_term x.2) /\ behind (e_term x.2) (nodes (lc st) n).
Proof using.
  intros H Hx. assert (Hv : visible st x -> exists n, led C opts (lc st) n (e_term x.2) /\ behind (e_term x.2) (nodes (lc st) n)).
  { intros Hv. destruct (li_visible _ H x Hv) as (n & ? & _ & ?). by exists n. }
  destruct Hx as [Hx|[i Hi]]; [auto|]. destruct (linked_has _ _ _ _ (li_nodes _ H i) Hi) as [?|?]; [auto|by exists i].
Qed.

(** Before a node leads a term, there is no link of that term. *)
Lemma no_links_yet st st' i x : lc_inv st -> cluster_step C opts (lc st) st' ->
  r_role (nodes st' i) = Leader -> somewhere st x -> e_term x.2 = r_term (nodes st' i) ->
  r_term (nodes (lc st) i) < r_term (nodes st' i) \/
  (r_role (nodes (lc st) i) = Candidate /\ r_term (nodes st' i) = r_term (nodes (lc st) i)) -> False.
Proof using Hjoint.
  intros H Hs Hl Hx Ht Hnew. destruct (maker st x H Hx) as (n & Hn & Hb & Hc). rewrite Ht in *.
  pose proof (led_step _ _ _ _ Hs Hn) as Hn'. apply led_unique in Hn' as ->; [|done].
  destruct Hnew as [?|[Hcand E]]; [lia|]. by apply Hc.
Qed.

(** ** One step *)

(** A step at node [i]: what it writes and sends was in the node; what the node
    holds after it is visible, or was there, or is the [new] link of a leader. *)
Section OneStep.
Context (st st' : LogCluster) (i : NodeId) (keeps_all : Prop) (new : Link -> Prop).
Abbreviation r := (nodes (lc st) i).
Abbreviation r' := (nodes (lc st') i).

Record one_step : Prop := {
  os_step : cluster_step C opts (lc st) (lc st');
  os_nodes j : j <> i -> nodes (lc st') j = nodes (lc st) j;
  os_disks j : j <> i -> disk (lc st') j = disk (lc st) j;
  os_disk : hs_term (disk (lc st) i) <= hs_term (disk (lc st') i);
  os_net from to m : (from, to, m) ∈ net (lc st') -> body_wf (m_body m);
  os_visible x : visible st x -> visible st' x;
  os_written x : visible st' x ->
    visible st x \/ (node_has r x /\ r_term r <= hs_term (disk (lc st') i));
  os_holds : linked 0 (fun x => visible st' x \/ (node_has r x /\ keeps_all) \/ new x) r';
  os_behind t : t <= hs_term (disk (lc st') i) \/ keeps_all -> behind t r -> behind t r';
  os_new x : new x -> r_role r' = Leader /\ e_term x.2 = r_term r' /\
    e_index x.2 <= Log_last_index (r_log r') /\ (forall y, new y -> y = x) /\
    forall y, somewhere st y -> e_term y.2 = e_term x.2 -> e_index y.2 < e_index x.2;
  os_leader : r_role r' = Leader ->
    (r_role r = Leader /\ r_term r' = r_term r /\ Log_last_index (r_log r) <= Log_last_index (r_log r')) \/
    forall x, somewhere st x -> e_term x.2 <> r_term r'
}.

Context (Hr : reachable C opts (lc st)) (H : lc_inv st) (S : one_step).

Lemma reachable_after : reachable C opts (lc st').
Proof using Hr S. eapply r_step; [exact Hr|apply S]. Qed.

Lemma node_source x : node_has r x -> visible st' x \/ (led C opts (lc st') i (e_term x.2) /\ behind (e_term x.2) r).
Proof using H S.
  intros Hx. destruct (linked_has _ _ _ _ (li_nodes _ H i) Hx) as [Hv|[Hl Hb]]; [left; by apply S|right].
  split; [eapply led_step, Hl; apply S|done].
Qed.

Lemma somewhere_before x : somewhere st' x -> somewhere st x \/ new x.
Proof using S.
  intros [Hv|[j Hj]].
  - left. destruct (os_written S x Hv) as [?|[? _]]; [by left|right; by exists i].
  - destruct (decide (j = i)) as [->|Hne]; [|left; right; exists j; by rewrite <- (os_nodes S j Hne)].
    destruct (linked_has _ _ _ _ (os_holds S) Hj) as [Hv|[[Hx _]|Hn]]; [|left; right; by exists i|by right].
    left. destruct (os_written S x Hv) as [?|[? _]]; [by left|right; by exists i].
Qed.

Lemma one_step_nodes j : linked 0 (own st' j) (nodes (lc st') j).
Proof using Hr H S.
  destruct (decide (j = i)) as [->|Hne].
  - apply (linked_weaken (os_holds S)); [done|]. intros x [Hv|[[Hx Hk]|Hn]]; [by left| |].
    + destruct (node_source x Hx) as [?|[? Hb]]; [by left|right]. split; [done|]. apply (os_behind S); auto.
    + destruct (os_new S x Hn) as (Hl & Et & _). right. rewrite Et. split; [by apply led_now; [apply reachable_after|]|].
      split; [done|]. by rewrite Hl.
  - pose proof (li_nodes _ H j) as Hj. rewrite (os_nodes S j Hne). apply (linked_weaken Hj); [done|].
    intros x [Hv|[Hl Hb]]; [left; by apply S|right]. rewrite (os_nodes S j Hne).
    split; [eapply led_step, Hl; apply S|done].
Qed.

Lemma one_step_visible x : visible st' x -> exists n, led C opts (lc st') n (e_term x.2) /\
  e_term x.2 <= hs_term (disk (lc st') n) /\ behind (e_term x.2) (nodes (lc st') n).
Proof using H S.
  assert (Hold : visible st x -> exists n, led C opts (lc st') n (e_term x.2) /\
    e_term x.2 <= hs_term (disk (lc st') n) /\ behind (e_term x.2) (nodes (lc st') n)).
  { intros Hv. destruct (li_visible _ H x Hv) as (n & Hl & Hd & Hb). exists n.
    split; [eapply led_step, Hl; apply S|]. destruct (decide (n = i)) as [->|Hne].
    - pose proof (os_disk S). split; [lia|]. apply (os_behind S); [left; lia|done].
    - by rewrite (os_disks S n Hne), (os_nodes S n Hne). }
  intros Hv. destruct (os_written S x Hv) as [?|[Hx Hd]]; [auto|].
  destruct (linked_has _ _ _ _ (li_nodes _ H i) Hx) as [?|[Hl Hb]]; [auto|]. exists i.
  assert (e_term x.2 <= hs_term (disk (lc st') i)) by (destruct Hb; lia).
  split; [eapply led_step, Hl; apply S|]. split; [done|]. apply (os_behind S); [by left|done].
Qed.

Lemma one_step_unique x y : somewhere st' x -> somewhere st' y ->
  e_index x.2 = e_index y.2 -> e_term x.2 = e_term y.2 -> x = y.
Proof using H S.
  intros Hx Hy Ei Et. destruct (somewhere_before x Hx) as [Ox|Nx], (somewhere_before y Hy) as [Oy|Ny].
  - by apply (li_unique _ H).
  - destruct (os_new S y Ny) as (_ & _ & _ & _ & Hold). specialize (Hold x Ox Et). lia.
  - destruct (os_new S x Nx) as (_ & _ & _ & _ & Hold). specialize (Hold y Oy (eq_sym Et)). lia.
  - destruct (os_new S y Ny) as (_ & _ & _ & Hu & _). by apply Hu.
Qed.

Lemma one_step_leader n x : r_role (nodes (lc st') n) = Leader -> somewhere st' x ->
  e_term x.2 = r_term (nodes (lc st') n) -> e_index x.2 <= Log_last_index (r_log (nodes (lc st') n)).
Proof using Hjoint Hr H S.
  intros Hl Hx Et. destruct (somewhere_before x Hx) as [Ox|Nx].
  - destruct (decide (n = i)) as [->|Hne].
    + destruct (os_leader S Hl) as [(Hl0 & Et0 & Hlast)|Hno]; [|by destruct (Hno x Ox)].
      rewrite Et0 in Et. pose proof (li_leader _ H i x Hl0 Ox Et). lia.
    + rewrite (os_nodes S n Hne) in *. by apply (li_leader _ H).
  - destruct (os_new S x Nx) as (Hl' & Et' & Hi & _). enough (i = n) as <- by done.
    eapply (one_leader C opts (lc st') (lc st')); [done|apply reachable_after|apply rtc_refl|done|done|congruence].
Qed.

Lemma one_step_inv : lc_inv st'.
Proof using Hjoint Hr H S.
  split; [apply one_step_nodes|apply one_step_visible|apply S|apply one_step_unique|apply one_step_leader].
Qed.
End OneStep.

(** ** The four steps *)

Section InputStep.
Context (st : LogCluster) (i : NodeId) (inp : Input).
Abbreviation r := (nodes (lc st) i).
Abbreviation r' := (apply_input inp (nodes (lc st) i)).
Abbreviation st' := (mkLogCluster (do_input i inp (lc st)) (written st)).
Context (Hr : reachable C opts (lc st)) (H : lc_inv st) (Hstep : cluster_step C opts (lc st) (do_input i inp (lc st))).
Context (Hroom : input_room inp r) (Hlog : log_room r).
Context (Hin : forall from m, inp = IStep from m -> (from, i, m) ∈ net (lc st)).
Context (Hsnap : forall peer s, inp = ISendSnapshot peer s -> 0 <= sn_last_index s < U64 - 1).

Lemma input_self : linked 1 (node_has r) r.
Proof using H Hlog. destruct (linked_self _ _ _ (li_nodes _ H i)). by split. Qed.

Lemma input_promoted : promoted r r'.
Proof using H Hlog Hroom. apply promoted_input; [apply (linked_weaken input_self)|]; done. Qed.

Lemma input_outcome : outcome (fun x => visible st x \/ node_has r x) (r_log r) r'.
Proof using H Hlog Hin Hsnap.
  clear Hroom Hstep. apply outcome_input; [apply (linked_weaken input_self); [done|by right]|]. destruct inp; simpl; try done.
  - specialize (Hin _ _ eq_refl). split; [by eapply (li_net _ H)|]. intros x Hx. left. right. by eauto.
  - by eapply Hsnap.
Qed.

Lemma input_leader : r_role r' = Leader ->
  (r_role r = Leader /\ r_term r' = r_term r /\ Log_last_index (r_log r) <= Log_last_index (r_log r')) \/
  forall x, somewhere st x -> e_term x.2 <> r_term r'.
Proof using Hjoint H Hlog Hroom Hstep.
  intros Hl. destruct (pm_leader _ _ input_promoted Hl) as [?|Hn]; [by left|right]. intros x Hx Ht.
  apply (no_links_yet st (do_input i inp (lc st)) i x H Hstep); simpl; rewrite ?fn_lookup_insert; done.
Qed.

(** The link a leader makes follows all those of its term. *)
Lemma input_fresh kind y : r_role r' = Leader -> somewhere st y -> e_term y.2 = r_term r' ->
  e_index y.2 < e_index (fresh (r_term r') (r_log r) kind).2.
Proof using Hjoint H Hlog Hroom Hstep.
  intros Hl Hy Et. destruct (input_leader Hl) as [(Hl0 & Et0 & _)|Hno]; [|by destruct (Hno y Hy)].
  rewrite Et0 in Et. pose proof (li_leader _ H i y Hl0 Hy Et). simpl. lia.
Qed.

Lemma input_one_step : exists new, one_step st st' i True new.
Proof using Hjoint H Hlog Hroom Hstep Hin Hsnap.
  assert (Hnode : nodes (lc st') i = r') by apply fn_lookup_insert.
  assert (Hmk : forall new : Link -> Prop, linked 0 (fun x => (visible st x \/ node_has r x) \/ new x) r' ->
    (forall x, new x -> r_role r' = Leader /\ e_term x.2 = r_term r' /\
      e_index x.2 <= Log_last_index (r_log r') /\ (forall y, new y -> y = x) /\
      forall y, somewhere st y -> e_term y.2 = e_term x.2 -> e_index y.2 < e_index x.2) ->
    one_step st st' i True new).
  { intros new Hl Hn. split; rewrite ?Hnode; try done.
    - intros j Hj. by apply fn_lookup_insert_ne.
    - apply (li_net _ H).
    - by left.
    - apply (linked_weaken Hl); [done|]. intros x [[?|?]|?]; auto.
    - intros t _. apply promoted_behind, input_promoted.
    - apply input_leader. }
  destruct input_outcome as [Hl|(kind & Hl & Hlead & Elast)].
  - exists (fun _ => False). apply Hmk; [|done]. apply (linked_weaken Hl); [done|by left].
  - exists (fun x => x = fresh (r_term r') (r_log r) kind). apply Hmk; [done|]. intros x ->.
    split_and!; [done|done|simpl; lia|done|]. intros y Hy Et. by apply input_fresh.
Qed.
End InputStep.

(** What is in a node's memory is on its disk after a cycle, and the hard
    state on disk is that of the node. *)
Lemma disk_after_term st i : reachable C opts (lc st) ->
  hs_term (disk_after (ready (nodes (lc st) i)).1 (ready (nodes (lc st) i)).2) = r_term (nodes (lc st) i) /\
  hs_term (disk (lc st) i) <= r_term (nodes (lc st) i).
Proof using Hjoint.
  intros Hr. pose proof (reachable_inv C opts Hjoint _ Hr) as Hc.
  pose proof (disk_after_ballot _ (ci_node C _ Hc i)) as Ed. pose proof (ci_disk C _ Hc i) as Ep.
  destruct (ni_phs _ (ci_node C _ Hc i)) as [Hl _]. rewrite Ep in Hl. split; [by injection Ed|exact Hl].
Qed.

(** Writing the log of node [i] and sending messages it has queued. *)
Lemma written_after st i cl sent x :
  sent ⊆ msgs (nodes (lc st) i) -> net cl = net (lc st) ++ addressed i sent ->
  visible (mkLogCluster cl (<[i := written st i ++ links (r_log (nodes (lc st) i))]> (written st))) x ->
  visible st x \/ node_has (nodes (lc st) i) x.
Proof using.
  intros Hsub En [[j Hj]|(from & to & m & Hm & Hx)]; simpl in *.
  - destruct (decide (i = j)) as [<-|Hne]; [rewrite fn_lookup_insert in Hj|rewrite fn_lookup_insert_ne in Hj by done].
    + apply elem_of_app in Hj as [?|?]; [left; left; by exists i|right; by left].
    + left. left. by exists j.
  - rewrite En in Hm. apply elem_of_app in Hm as [Hm|Hm]; [left; right; by eauto|].
    apply elem_of_addressed in Hm as [-> Hm]. right. right. exists (to, m). auto.
Qed.

Lemma written_before st i cl w sent x :
  net cl = net (lc st) ++ sent -> written st i ⊆ w -> visible st x ->
  visible (mkLogCluster cl (<[i := w]> (written st))) x.
Proof using.
  intros En Hw [[j Hj]|(from & to & m & Hm & Hx)].
  - left. exists j. simpl. destruct (decide (i = j)) as [<-|Hne]; [rewrite fn_lookup_insert; by apply Hw|by rewrite fn_lookup_insert_ne].
  - right. exists from, to, m. simpl. rewrite En. split; [|done]. apply elem_of_app. by left.
Qed.

Lemma sent_wf st i sent from to m : lc_inv st -> sent ⊆ msgs (nodes (lc st) i) ->
  (from, to, m) ∈ net (lc st) ++ addressed i sent -> body_wf (m_body m).
Proof using.
  intros H Hsub [Hm|Hm]%elem_of_app; [by eapply (li_net _ H)|]. apply elem_of_addressed in Hm as [_ Hm].
  pose proof (lk_msgs _ _ _ (li_nodes _ H i)) as Hms. rewrite Forall_forall in Hms. by apply (Hms (to, m)), Hsub.
Qed.

Lemma cycle_one_step st i : reachable C opts (lc st) -> lc_inv st ->
  one_step st (mkLogCluster (do_cycle i (lc st)) (<[i := written st i ++ links (r_log (nodes (lc st) i))]> (written st)))
    i True (fun _ => False).
Proof using Hjoint.
  intros Hr H. set (st' := mkLogCluster _ _). destruct (disk_after_term st i Hr) as [Ed Ele].
  assert (En : nodes (lc st') i = cycle (nodes (lc st) i)) by apply fn_lookup_insert.
  assert (Edk : disk (lc st') i = disk_after (ready (nodes (lc st) i)).1 (ready (nodes (lc st) i)).2) by apply fn_lookup_insert.
  destruct (keeps_cycle (nodes (lc st) i)) as (_ & Erole & Eb & _ & Ep). assert (Eterm : r_term (cycle (nodes (lc st) i)) = r_term (nodes (lc st) i)) by exact (f_equal fst Eb).
  pose proof (cycle_log (nodes (lc st) i)) as Elog. pose proof (rr_msgs _ _ _ (ready_rel_ready (nodes (lc st) i))) as Em.
  assert (Hnet : net (lc st') = net (lc st) ++ addressed i (msgs (nodes (lc st) i))) by (simpl; by rewrite Em).
  split; rewrite ?En, ?Edk, ?Ed, ?Erole, ?Eterm, ?Elog; try done.
  - apply c_cycle.
  - intros j Hj. by apply fn_lookup_insert_ne.
  - intros j Hj. by apply fn_lookup_insert_ne.
  - intros from to m. rewrite Hnet. by apply sent_wf.
  - intros x. eapply written_before; [exact Hnet|]. by apply list_subseteq_app_l.
  - intros x Hx. destruct (written_after st i (lc st') _ x (reflexivity _) Hnet Hx); [by left|right]. split; done || lia.
  - pose proof (linked_self _ _ _ (li_nodes _ H i)) as Hself. destruct Hself as [? ? ? ? ? ?].
    split; rewrite ?Elog, ?Ep; try done; [|intros x Hx; right; left; split; [by left|done]].
    eapply cycle_commit, (li_nodes _ H i).
  - intros t _ [? ?]. by rewrite <- Eterm, <- Erole in *.
  - intros Hl. left. by split_and!.
Qed.

Lemma restored_linked st' i d snap es : let r := Raft_restore i opts d snap es C in
  sound_log (written st' i) (r_log r) -> linked 0 (fun x => visible st' x) r.
Proof using.
  intros r (Hw & Hz & Hsub). pose proof (last_index_wf _ Hw). pose proof (wf_room _ Hw). pose proof (wf_snapshot _ Hw).
  split; [done|lia|done| | |constructor].
  - change (0 <= Z.max (Z.min (hs_commit d) (Log_last_index (r_log r))) (snapshot_index (r_log r))). lia.
  - intros x Hx. left. exists i. by apply Hsub.
Qed.

(** A restart, with the hard state [d] and the links [w] on disk. *)
Lemma restart_one_step st i snap es sent d w (dk : NodeId -> HardState) (wr : NodeId -> list Link) :
  reachable C opts (lc st) -> lc_inv st ->
  let r := Raft_restore i opts d snap es C in
  let st' := mkLogCluster (mkCluster (<[i := r]> (nodes (lc st))) dk (net (lc st) ++ addressed i sent)) wr in
  cluster_step C opts (lc st) (lc st') -> sound_log w (r_log r) -> sent ⊆ msgs (nodes (lc st) i) ->
  dk i = d -> (forall j, j <> i -> dk j = disk (lc st) j) -> wr i = w ->
  hs_term (disk (lc st) i) <= hs_term d ->
  (forall x, visible st x -> visible st' x) ->
  (forall x, visible st' x -> visible st x \/ (node_has (nodes (lc st) i) x /\ r_term (nodes (lc st) i) <= hs_term d)) ->
  one_step st st' i False (fun _ => False).
Proof using.
  intros Hr H r st' Hs Hsound Hsub Ed Eo Ew Hd Hv Hw.
  assert (En : nodes (lc st') i = r) by apply fn_lookup_insert.
  split; rewrite ?En; try done.
  - intros j Hj. by apply fn_lookup_insert_ne.
  - simpl. by rewrite Ed.
  - intros from to m. by apply sent_wf.
  - simpl. by rewrite Ed.
  - rewrite <- Ew in Hsound. apply (linked_weaken (restored_linked st' i d snap es Hsound)); [done|by left].
  - simpl. rewrite Ed. intros t [Ht|[]] _. split; [exact Ht|done].
Qed.

Lemma lc_inv_step st st' : lc_reachable C opts st -> lc_inv st -> lc_step C opts st st' -> lc_inv st'.
Proof using Hjoint.
  intros Hreach H Hstep. pose proof (lc_cluster_reachable _ _ _ Hreach) as Hr.
  pose proof (lc_cluster_step _ _ _ _ Hstep) as Hs. destruct Hstep as [st i inp Hroom Hlog _ Hin Hsnap|st i|st i snap es _ _ r Hsound|st i snap es sent _ _ Hsub d w r Hsound].
  - destruct (input_one_step st i inp H Hs Hroom Hlog Hin Hsnap) as [new Hone]. by eapply one_step_inv.
  - by eapply one_step_inv, cycle_one_step.
  - eapply (one_step_inv st _ i); [done|done|]. rewrite <- (app_nil_r (net (lc st))) in *.
    apply (restart_one_step st i snap es [] (disk (lc st) i) (written st i)); try done; [apply list_subseteq_nil| |].
    + intros x [?|(from & to & m & Hm & Hx)]; [by left|right]. exists from, to, m. simpl. by rewrite app_nil_r.
    + intros x [?|(from & to & m & Hm & Hx)]; left; [by left|right]. exists from, to, m. simpl in Hm. by rewrite app_nil_r in Hm.
  - rewrite (rr_msgs _ _ _ (ready_rel_ready (nodes (lc st) i))) in Hsub. destruct (disk_after_term st i Hr) as [Ed Ele].
    eapply (one_step_inv st _ i); [done|done|]. apply (restart_one_step st i snap es sent d w); try done.
    + apply fn_lookup_insert.
    + intros j Hj. by apply fn_lookup_insert_ne.
    + apply fn_lookup_insert.
    + unfold d. lia.
    + intros x. eapply written_before; [done|]. by apply list_subseteq_app_l.
    + intros x Hx. eapply (written_after st i _ sent) in Hx as [?|?]; [by left| |done|done].
      right. split; [done|]. unfold d. lia.
Qed.

Lemma lc_inv_init : lc_inv (lc_init C opts).
Proof using.
  assert (Hv : forall x, ~ visible (lc_init C opts) x).
  { intros x [[i Hi]|(from & to & m & Hm & _)]; [by apply elem_of_nil in Hi|by apply elem_of_nil in Hm]. }
  assert (Hn : forall x, ~ somewhere (lc_init C opts) x).
  { intros x [Hx|(i & [Hx|(tm & Hm & _)])]; [by apply (Hv x)|by apply elem_of_nil in Hx|by apply elem_of_nil in Hm]. }
  split; try done.
  - intros i. split; simpl; try done. by intros x ?%elem_of_nil.
  - intros x Hx. by destruct (Hv x).
  - intros from to m Hm. by apply elem_of_nil in Hm.
  - intros x y Hx. by destruct (Hn x).
Qed.

Lemma lc_reachable_inv st : lc_reachable C opts st -> lc_inv st.
Proof using Hjoint.
  induction 1 as [|st st' Hr IH Hs]; [apply lc_inv_init|by eapply lc_inv_step].
Qed.
End Matching.

(** ** Two logs that share an entry *)

(** An entry of a log is a link of it, led by the term of the entry before. *)
Lemma get_link l m a : wf_log l -> Log_get l m = Some a ->
  exists p, (p, a) ∈ links l /\ forall b, Log_get l (m - 1) = Some b -> p = e_term b.
Proof.
  intros Hw Ha. destruct (get_Some_index l Hw _ _ Ha) as [_ Hm]. rewrite get_lookup in Ha by (done || lia).
  exists (end_term (snapshot_term l) (take (Z.to_nat (m - snapshot_index l - 1)) (entries l))).
  split; [by apply chain_lookup|]. intros b Hb. destruct (get_Some_index l Hw _ _ Hb) as [_ Hm'].
  rewrite get_lookup in Hb by (done || lia).
  replace (Z.to_nat (m - snapshot_index l - 1)) with (S (Z.to_nat (m - 1 - snapshot_index l - 1))) by lia.
  rewrite (take_S_r _ _ _ Hb). unfold end_term. by rewrite last_snoc.
Qed.

Section Agreement.
Context (l l' : Log) (Hw : wf_log l) (Hw' : wf_log l').
Context (Hu : forall x y, x ∈ links l -> y ∈ links l' -> e_index x.2 = e_index y.2 -> e_term x.2 = e_term y.2 -> x = y).

Lemma same_link m a b : Log_get l m = Some a -> Log_get l' m = Some b -> e_term a = e_term b ->
  a = b /\ forall c d, Log_get l (m - 1) = Some c -> Log_get l' (m - 1) = Some d -> e_term c = e_term d.
Proof using Hw Hw' Hu.
  intros Ha Hb Et. destruct (get_link l m a Hw Ha) as (p & Hp & Hc). destruct (get_link l' m b Hw' Hb) as (q & Hq & Hd).
  destruct (get_Some_index l Hw _ _ Ha) as [Ea _]. destruct (get_Some_index l' Hw' _ _ Hb) as [Eb _].
  assert (E : (p, a) = (q, b)) by (apply Hu; simpl; congruence). injection E as -> ->. split; [done|].
  intros c d Ec Ed. by rewrite <- (Hc c Ec), (Hd d Ed).
Qed.

(** Agreement goes down from a shared entry, index by index. *)
Lemma agree_below i e e' : Log_get l i = Some e -> Log_get l' i = Some e' -> e_term e = e_term e' ->
  forall (k : nat) a b, Log_get l (i - Z.of_nat k) = Some a -> Log_get l' (i - Z.of_nat k) = Some b -> a = b.
Proof using Hw Hw' Hu.
  intros He He' Et. destruct (get_Some_index l Hw _ _ He) as [_ Hi]. destruct (get_Some_index l' Hw' _ _ He') as [_ Hi'].
  enough (H : forall (k : nat) a b, Log_get l (i - Z.of_nat k) = Some a -> Log_get l' (i - Z.of_nat k) = Some b -> e_term a = e_term b).
  { intros k a b Ha Hb. by destruct (same_link _ a b Ha Hb (H k a b Ha Hb)). }
  induction k as [|k IH]; intros a b Ha Hb.
  - rewrite Z.sub_0_r in *. congruence.
  - destruct (get_Some_index l Hw _ _ Ha) as [_ Hk]. destruct (get_Some_index l' Hw' _ _ Hb) as [_ Hk'].
    destruct (get_is_Some l Hw (i - Z.of_nat k)) as [c Hc]; [lia|].
    destruct (get_is_Some l' Hw' (i - Z.of_nat k)) as [d Hd]; [lia|].
    replace (i - Z.of_nat (S k)) with (i - Z.of_nat k - 1) in * by lia.
    destruct (same_link _ c d Hc Hd (IH c d Hc Hd)) as [_ Hprev]. by apply Hprev.
Qed.
End Agreement.

(** C4: Log Matching. In a cluster with a fixed, non-joint membership, under any
    interleaving of inputs, deliveries (with loss, duplication and reordering),
    driver cycles, compactions, snapshots and crashes, at any point of a write,
    after which the log is whatever the disk still has: if two nodes hold an
    entry of the same index and term, they hold the same entry there, and at
    every index below that both logs still have. *)
Theorem logs_match C opts st i j k e e' :
  Config_is_joint C = false -> lc_reachable C opts st ->
  Log_get (r_log (nodes (lc st) i)) k = Some e -> Log_get (r_log (nodes (lc st) j)) k = Some e' ->
  e_term e = e_term e' ->
  forall m a b, m <= k -> Log_get (r_log (nodes (lc st) i)) m = Some a ->
    Log_get (r_log (nodes (lc st) j)) m = Some b -> a = b.
Proof.
  intros Hj Hr He He' Et m a b Hm Ha Hb. pose proof (lc_reachable_inv C opts Hj st Hr) as H.
  assert (Hw : forall n, wf_log (r_log (nodes (lc st) n))) by (intros n; eapply lk_wf, (li_nodes C opts st H)).
  refine (agree_below _ _ (Hw i) (Hw j) _ k e e' He He' Et (Z.to_nat (k - m)) a b _ _);
    [|by replace (k - Z.of_nat (Z.to_nat (k - m))) with m by lia..].
  intros x y Hx Hy. apply (li_unique C opts st H); right; [exists i|exists j]; by left.
Qed.

(** The run of [w5] continued: the new leader's append reaches node 2. *)
Definition lin_input (i : NodeId) (inp : Input) (st : LogCluster) : LogCluster :=
  mkLogCluster (do_input i inp (lc st)) (written st).
Definition lin_cycle (i : NodeId) (st : LogCluster) : LogCluster :=
  mkLogCluster (do_cycle i (lc st)) (<[i := written st i ++ links (r_log (nodes (lc st) i))]> (written st)).

Lemma reach_call C opts st i inp : lc_reachable C opts st -> input_room inp (nodes (lc st) i) ->
  log_room (nodes (lc st) i) -> input_fixed C inp ->
  match inp with IStep from m => (from, i, m) ∈ net (lc st) | ISendSnapshot _ _ => False | _ => True end ->
  lc_reachable C opts (lin_input i inp st).
Proof.
  intros H Hr Hl Hf Hin. eapply lr_step; [exact H|]. apply l_input; [done..| |].
  - by intros from m ->.
  - by intros peer s ->.
Qed.

Lemma reach_turn C opts st i : lc_reachable C opts st -> lc_reachable C opts (lin_cycle i st).
Proof. intros H. eapply lr_step; [exact H|]. apply l_cycle. Qed.

Definition v1 : LogCluster := lin_cycle 1 (lin_input 1 (ITick 7) (lc_init c3 one_tick)).
Definition v2 : LogCluster := lin_cycle 2 (lin_input 2 (IStep 1 (mkMessage 1 (PreVoteReq 0 0))) v1).
Definition v3 : LogCluster := lin_cycle 1 (lin_input 1 (IStep 2 (mkMessage 1 (PreVoteResp true))) v2).
Definition v4 : LogCluster := lin_cycle 2 (lin_input 2 (IStep 1 (mkMessage 1 (VoteReq 0 0))) v3).
Definition v5 : LogCluster := lin_cycle 1 (lin_input 1 (IStep 2 (mkMessage 1 (VoteResp true))) v4).
Definition the_append : Message := mkMessage 1 (AppendReq 0 0 [mkEntry 1 1 Noop] 0).
Definition v6 : LogCluster := lin_cycle 2 (lin_input 2 (IStep 1 the_append) v5).

Lemma v6_reachable : lc_reachable c3 one_tick v6.
Proof.
  do 6 (apply reach_turn, reach_call; [|by_decide|by_decide|by_decide || done|by_decide || done]). apply lr_init.
Qed.

Lemma logs_match_witness :
  Log_get (r_log (nodes (lc v6) 1)) 1 = Some (mkEntry 1 1 Noop) /\
  Log_get (r_log (nodes (lc v6) 2)) 1 = Some (mkEntry 1 1 Noop) /\
  forall m a b, m <= 1 -> Log_get (r_log (nodes (lc v6) 1)) m = Some a ->
    Log_get (r_log (nodes (lc v6) 2)) m = Some b -> a = b.
Proof.
  assert (E1 : Log_get (r_log (nodes (lc v6) 1)) 1 = Some (mkEntry 1 1 Noop)) by (vm_compute; reflexivity).
  assert (E2 : Log_get (r_log (nodes (lc v6) 2)) 1 = Some (mkEntry 1 1 Noop)) by (vm_compute; reflexivity).
  split; [exact E1|]. split; [exact E2|].
  apply (logs_match c3 one_tick v6 1 2 1 _ _ ltac:(by_decide) v6_reachable E1 E2 eq_refl).
Defined.
