(* ===== verification/Ancestry.v ===== *)
(** * The tree of log positions

    Every entry any node ever made hangs below the entry before it. A position is
    an index and a term; the links of [LogMatching.v] make positions a tree, with
    one branch per leader. A log is a path of this tree from its snapshot to its
    [tip], and stands for the whole path from the root. What the entries below a
    snapshot were no longer matters: two logs with the same tip agree on
    everything, compacted or not. [Commitment.v] and [StateSafety.v] argue in terms
    of this tree. *)

From Stdlib Require Import ZArith Lia.
From stdpp Require Import base tactics functions relations list list_numbers gmap sets sorting.
From S2P Require Import Prelude Codec Types RaftLog Msg RaftState Raft RaftNode RaftCommit Cluster RaftTypes LogMatching.

Open Scope Z_scope.

(** ** Positions *)

(** An index and a term. *)
Abbreviation Pos := (Index * Term)%type.

Definition root : Pos := (0, 0).
Definition pos_of (e : Entry) : Pos := (e_index e, e_term e).
Definition tip (l : Log) : Pos := (Log_last_index l, Log_last_term l).
Definition base (l : Log) : Pos := (snapshot_index l, snapshot_term l).

Section Tree.
Context (V : Link -> Prop).

(** [below p q]: [p] is [q] or comes before it on the branch of [q]. *)
Inductive below (p : Pos) : Pos -> Prop :=
| below_refl : below p p
| below_link t e q : V (t, e) -> q = pos_of e -> below p (e_index e - 1, t) -> below p q.

Definition known (p : Pos) : Prop := p = root \/ exists x, V x /\ p = pos_of x.2.

(** [p] is on the branch of the leader of term [T]. *)
Definition on_chain (T : Term) (p : Pos) : Prop := exists x, V x /\ e_term x.2 = T /\ below p (pos_of x.2).

(** The links form a tree: a position has one link, which hangs from the root or
    from another one, terms do not decrease along a branch, and the positions of
    one term are on one branch. *)
Record tree : Prop := {
  tr_unique x y : V x -> V y -> e_index x.2 = e_index y.2 -> e_term x.2 = e_term y.2 -> x = y;
  tr_parent x : V x -> known (e_index x.2 - 1, x.1);
  tr_bounds x : V x -> 1 <= e_index x.2 /\ 0 <= x.1 <= e_term x.2 /\ 1 <= e_term x.2;
  tr_same x y : V x -> V y -> e_term x.2 = e_term y.2 -> e_index x.2 <= e_index y.2 ->
    below (pos_of x.2) (pos_of y.2)
}.

Lemma below_trans p q s : below p q -> below q s -> below p s.
Proof using. intros Hp Hq. induction Hq as [|t e s Hv -> _ IH]; [done|]. by eapply below_link. Qed.

Lemma below_inv p q : below p q -> p = q \/ exists t e, V (t, e) /\ q = pos_of e /\ below p (e_index e - 1, t).
Proof using. intros [|t e ? Hv ? Hp]; [by left|right]. by exists t, e. Qed.

Lemma known_link x : V x -> known (pos_of x.2).
Proof using. intros H. right. by exists x. Qed.

Lemma below_on_chain T p q : below p q -> on_chain T q -> on_chain T p.
Proof using. intros Hp (x & Hx & Et & Hq). exists x. split; [done|]. split; [done|]. by eapply below_trans. Qed.

Lemma link_on_chain x : V x -> on_chain (e_term x.2) (pos_of x.2).
Proof using. intros H. exists x. split; [done|]. split; [done|]. apply below_refl. Qed.

Section Facts.
Context (H : tree).

Lemma known_bounds p : known p -> 0 <= p.1 /\ 0 <= p.2 /\ (p = root \/ (1 <= p.1 /\ 1 <= p.2)).
Proof using H. intros [->|(x & Hx & ->)]; [by split_and!; [..|left]|]. pose proof (tr_bounds H x Hx). simpl. split_and!; [lia..|right; lia].
Qed.

(** Index and term grow along a branch. *)
Lemma below_le p q : below p q -> p = q \/ (p.1 < q.1 /\ p.2 <= q.2).
Proof using H.
  intros Hp. induction Hp as [|t e q Hv -> _ IH]; [by left|]. right. pose proof (tr_bounds H _ Hv) as Hb. simpl in *.
  destruct IH as [->|IH]; simpl in *; lia.
Qed.

Lemma below_same_index p q : below p q -> q.1 <= p.1 -> p = q.
Proof using H. intros [?|?]%below_le ?; [done|lia]. Qed.

Lemma below_known p q : below p q -> known q -> known p.
Proof using H. intros Hp. induction Hp as [|t e q Hv -> _ IH]; [done|]. intros _. apply IH, (tr_parent H _ Hv). Qed.

(** Two positions of one branch are comparable. *)
Lemma below_linear p p' q : below p q -> below p' q -> p.1 <= p'.1 -> below p p'.
Proof using H.
  intros Hp Hp'. induction Hp' as [|t e q Hv -> Hp' IH]; [done|]. intros Hle.
  inversion Hp as [Eq|t' e' ? Hv' Eq Hp2]; subst.
  - apply below_le in Hp' as [->|?]; simpl in *; lia.
  - injection Eq as Ei Et. assert ((t', e') = (t, e)) as [= -> ->] by (by apply (tr_unique H)). by apply IH.
Qed.

(** A branch has a position at every index. *)
Lemma ancestor_at q k : known q -> 0 <= k <= q.1 -> exists p, p.1 = k /\ below p q.
Proof using H.
  intros Hq Hk. remember (Z.to_nat (q.1 - k)) as n eqn:En. revert q Hq Hk En.
  induction n as [|n IH]; intros q Hq Hk En; [exists q; split; [lia|apply below_refl]|].
  destruct Hq as [->|([t e] & Hx & ->)]; simpl in *; [lia|].
  destruct (IH (e_index e - 1, t)) as (p & Ep & Hp); [apply (tr_parent H _ Hx)|simpl; lia..|].
  exists p. split; [done|]. by eapply below_link.
Qed.

Lemma root_below q : known q -> below root q.
Proof using H.
  intros Hq. destruct (ancestor_at q 0 Hq) as (p & Ep & Hp); [pose proof (known_bounds q Hq); lia|].
  destruct (known_bounds p (below_known _ _ Hp Hq)) as (_ & _ & [->|?]); [done|lia].
Qed.

Lemma below_root p : below p root -> p = root.
Proof using H.
  intros Hp. assert (Hk : known p) by (apply (below_known _ _ Hp); by left).
  destruct (known_bounds p Hk) as (_ & _ & [?|?]); [done|]. apply below_le in Hp as [?|?]; [done|simpl in *; lia].
Qed.

Lemma chain_known T p : on_chain T p -> known p.
Proof using H. intros (x & Hx & _ & Hp). apply (below_known _ _ Hp). by apply known_link. Qed.

(** The branch of a term is linear. *)
Lemma chain_linear T p q : on_chain T p -> on_chain T q -> p.1 <= q.1 -> below p q.
Proof using H.
  intros (x & Hx & Ex & Hp) (y & Hy & Ey & Hq). destruct (Z.le_ge_cases (e_index x.2) (e_index y.2)).
  - apply (below_linear _ _ (pos_of y.2)); [|done]. apply (below_trans _ _ _ Hp). apply (tr_same H); congruence || lia.
  - apply (below_linear _ _ (pos_of x.2)); [done|]. apply (below_trans _ _ _ Hq). apply (tr_same H); congruence || lia.
Qed.

Lemma chain_term T p : on_chain T p -> p.2 <= T.
Proof using H. intros (x & Hx & <- & Hp). apply below_le in Hp as [->|Hp]; simpl in *; lia. Qed.

(** A run of entries is a path. *)
Lemma below_chain t i es : contiguous_from (i + 1) es -> (forall x, x ∈ chain t es -> V x) ->
  below (i, t) (i + Z.of_nat (length es), end_term t es).
Proof using.
  revert t i. induction es as [|e es IH]; intros t i Hc HV.
  - simpl. rewrite Z.add_0_r. apply below_refl.
  - apply contiguous_cons in Hc as [Ei Hc]. rewrite end_term_cons. eapply below_trans.
    + eapply (below_link _ t e); [apply HV; by left|reflexivity|]. rewrite Ei.
      replace (i + 1 - 1) with i by lia. apply below_refl.
    + unfold pos_of. rewrite Ei. replace (i + Z.of_nat (length (e :: es))) with (i + 1 + Z.of_nat (length es)) by (simpl; lia).
      apply IH; [done|]. intros x Hx. apply HV. by right.
Qed.
End Facts.
End Tree.

(** ** Growth *)

Section Growth.
Context (V V' : Link -> Prop) (Hsub : forall x, V x -> V' x).

Lemma below_grow p q : below V p q -> below V' p q.
Proof using Hsub. intros Hp. induction Hp as [|t e q Hv -> _ IH]; [apply below_refl|]. eapply below_link; eauto. Qed.

Lemma known_grow p : known V p -> known V' p.
Proof using Hsub. intros [?|(x & Hx & ?)]; [by left|right]. exists x. auto. Qed.

Lemma chain_grow T p : on_chain V T p -> on_chain V' T p.
Proof using Hsub. intros (x & Hx & Et & Hp). exists x. split; [auto|]. split; [done|]. by apply below_grow. Qed.

(** New links leave the branch of an old position as it was. *)
Lemma below_shrink p q : tree V -> tree V' -> known V q -> below V' p q -> below V p q.
Proof using Hsub.
  intros Ht Ht' Hq Hp. induction Hp as [|t e q Hv -> Hp IH]; [apply below_refl|].
  destruct Hq as [E|(x & Hx & E)].
  - pose proof (tr_bounds _ Ht' _ Hv). injection E as ? ?. simpl in *. lia.
  - injection E as Ei Et. assert (x = (t, e)) as -> by (apply (tr_unique _ Ht'); auto).
    eapply below_link; [exact Hx|done|]. apply IH, (tr_parent _ Ht _ Hx).
Qed.
End Growth.

Lemma tree_same (V V' : Link -> Prop) : (forall x, V x <-> V' x) -> tree V -> tree V'.
Proof.
  intros Hs [Hu Hp Hb Hl]. assert (H1 : forall x, V x -> V' x) by (intros; by apply Hs). split.
  - intros x y ?%Hs ?%Hs. by apply Hu.
  - intros x ?%Hs. apply (known_grow V _ H1). auto.
  - intros x ?%Hs. auto.
  - intros x y ?%Hs ?%Hs Et Ei. apply (below_grow V _ H1). auto.
Qed.

(** One link more, at the end of a branch: the first of its term or after the
    last of its term. *)
Section Extend.
Context (V V' : Link -> Prop) (x : Link) (Hsub : forall y, V y -> V' y) (Hx : V' x) (Honly : forall y, V' y -> V y \/ y = x).
Context (Ht : tree V) (Hp : known V (e_index x.2 - 1, x.1)) (Hb : x.1 <= e_term x.2) (H1 : 1 <= e_term x.2).
Context (Hfresh : forall y, V y -> e_term y.2 = e_term x.2 ->
  e_index y.2 < e_index x.2 /\ below V (pos_of y.2) (e_index x.2 - 1, x.1)).

Lemma tree_extend : tree V'.
Proof using Hsub Hx Honly Ht Hp Hb H1 Hfresh.
  destruct (known_bounds V Ht _ Hp) as (Hi & Htm & _). simpl in Hi, Htm.
  assert (Hlink : below V' (e_index x.2 - 1, x.1) (pos_of x.2)).
  { destruct x as [t e]. eapply below_link; [exact Hx|done|apply below_refl]. }
  split.
  - intros y z [Hy| ->]%Honly [Hz| ->]%Honly Ei Et; [by apply (tr_unique _ Ht)| | |done].
    + destruct (Hfresh y Hy Et). lia.
    + destruct (Hfresh z Hz (eq_sym Et)). lia.
  - intros y [Hy| ->]%Honly; apply (known_grow V _ Hsub); [by apply (tr_parent _ Ht)|done].
  - intros y [Hy| ->]%Honly; [by apply (tr_bounds _ Ht)|]. lia.
  - intros y z [Hy| ->]%Honly [Hz| ->]%Honly Et Ei; [by apply (below_grow V _ Hsub), (tr_same _ Ht)| | |apply below_refl].
    + destruct (Hfresh y Hy Et) as [_ Hy']. eapply below_trans; [|exact Hlink]. by apply (below_grow V).
    + destruct (Hfresh z Hz (eq_sym Et)). lia.
Qed.
End Extend.

(** ** A log is a path *)

(** A well-formed log of the tree. *)
Record path (V : Link -> Prop) (l : Log) : Prop := {
  pa_wf : wf_log l;
  pa_zero : zero_ok l;
  pa_links x : x ∈ links l -> V x;
  pa_base : known V (base l)
}.

Section Path.
Context (V : Link -> Prop) (Ht : tree V) (l : Log) (Hl : path V l).

Lemma tip_end : tip l = (snapshot_index l + Z.of_nat (length (entries l)), end_term (snapshot_term l) (entries l)).
Proof using Hl. unfold tip. by rewrite last_index_wf by apply Hl. Qed.

Lemma base_tip : below V (base l) (tip l).
Proof using Hl. rewrite tip_end. apply below_chain; [apply Hl|]. apply (pa_links _ _ Hl). Qed.

Lemma tip_known : known V (tip l).
Proof using Ht Hl.
  rewrite tip_end. destruct (last (entries l)) as [e|] eqn:E.
  - unfold end_term. rewrite E. rewrite (last_lookup (entries l)) in E.
    right. exists (end_term (snapshot_term l) (take (pred (length (entries l))) (entries l)), e).
    split; [apply (pa_links _ _ Hl); by apply chain_lookup|]. unfold pos_of. simpl. f_equal.
    rewrite (contiguous_lookup _ _ _ _ (wf_contiguous _ (pa_wf _ _ Hl)) E). apply lookup_lt_Some in E. lia.
  - apply last_None in E. unfold end_term. rewrite E. simpl. rewrite Z.add_0_r. apply Hl.
Qed.

(** What the log holds at an index is on its branch. *)
Lemma term_at_below k t : Log_term_at l k = Some t -> below V (k, t) (tip l).
Proof using Ht Hl.
  intros Hk. destruct (decide (snapshot_index l <= k)) as [Hs|Hs].
  - pose proof (pa_wf _ _ Hl) as Hw. assert (Hi : snapshot_index l <= k <= Log_last_index l).
    { destruct (term_at_Some _ Hw _ _ Hk); [|done]. pose proof (last_index_wf _ Hw). pose proof (wf_snapshot _ Hw). lia. }
    rewrite (term_at_end l Hw) in Hk by (done || apply Hl). injection Hk as <-. rewrite tip_end.
    pose proof (last_index_wf _ Hw). set (n := Z.to_nat (k - snapshot_index l)).
    assert (Hn : (n <= length (entries l))%nat) by lia.
    assert (Hd : contiguous_from (k + 1) (drop n (entries l))).
    { replace (k + 1) with (snapshot_index l + 1 + Z.of_nat n) by lia. apply contiguous_drop; [done|apply Hw]. }
    pose proof (below_chain V (end_term (snapshot_term l) (take n (entries l))) k (drop n (entries l)) Hd) as Hc.
    rewrite <- end_term_app, take_drop, length_drop in Hc.
    replace (k + Z.of_nat (length (entries l) - n)) with (snapshot_index l + Z.of_nat (length (entries l))) in Hc by lia.
    apply Hc. intros x Hx. apply (pa_links _ _ Hl). by apply chain_drop in Hx.
  - destruct (term_at_Some _ (pa_wf _ _ Hl) _ _ Hk) as [->|]; [|lia]. unfold Log_term_at in Hk. simpl in Hk. injection Hk as <-.
    apply root_below; [done|apply tip_known].
Qed.

(** And the other way, above the snapshot. *)
Lemma below_term_at p : below V p (tip l) -> snapshot_index l <= p.1 -> Log_term_at l p.1 = Some p.2.
Proof using Ht Hl.
  intros Hp Hs. assert (Hi : p.1 <= Log_last_index l) by (apply (below_le _ Ht) in Hp as [->|?]; simpl in *; lia).
  rewrite term_at_end by (done || apply Hl). set (t := end_term _ _).
  assert (Hk : below V (p.1, t) (tip l)) by (apply term_at_below; rewrite term_at_end by (done || apply Hl); done).
  f_equal. assert (E : (p.1, t) = p); [|by rewrite <- E].
  apply (below_same_index V Ht); [|done]. by apply (below_linear V Ht _ _ (tip l)).
Qed.

Lemma below_get p : below V p (tip l) -> snapshot_index l < p.1 ->
  exists e t, Log_get l p.1 = Some e /\ pos_of e = p /\ V (t, e).
Proof using Ht Hl.
  intros Hp Hs. pose proof (pa_wf _ _ Hl) as Hw.
  assert (Hi : p.1 <= Log_last_index l) by (apply (below_le _ Ht) in Hp as [->|?]; simpl in *; lia).
  destruct (get_is_Some l Hw p.1) as [e He]; [lia|]. destruct (get_link l _ _ Hw He) as (t & Hx & _).
  exists e, t. split; [done|]. split; [|by apply (pa_links _ _ Hl)].
  destruct (get_Some_index l Hw _ _ He) as [Ei _]. pose proof (term_at_get l Hw _ _ He) as Et.
  rewrite below_term_at in Et by (done || lia). injection Et as Et. destruct p as [i t']. unfold pos_of. simpl in *. congruence.
Qed.

Lemma get_below_tip k e : Log_get l k = Some e -> below V (pos_of e) (tip l).
Proof using Ht Hl.
  intros He. destruct (get_Some_index l (pa_wf _ _ Hl) _ _ He) as [Ei _]. unfold pos_of. rewrite Ei.
  apply term_at_below. by apply term_at_get; [apply Hl|].
Qed.
End Path.

(** Two paths whose tips hang on one branch hold the same entries. *)
Lemma paths_agree V l l' p k e e' : tree V -> path V l -> path V l' ->
  below V p (tip l) -> below V p (tip l') -> k <= p.1 -> Log_get l k = Some e -> Log_get l' k = Some e' -> e = e'.
Proof.
  intros Ht Hl Hl' Hp Hp' Hk He He'.
  destruct (get_Some_index l (pa_wf _ _ Hl) _ _ He) as [Ei _]. destruct (get_Some_index l' (pa_wf _ _ Hl') _ _ He') as [Ei' _].
  destruct (get_link l _ _ (pa_wf _ _ Hl) He) as (t & Hx & _). destruct (get_link l' _ _ (pa_wf _ _ Hl') He') as (t' & Hx' & _).
  assert (B : below V (pos_of e) p) by (apply (below_linear V Ht _ _ (tip l)); [by eapply get_below_tip|done|simpl; lia]).
  assert (B' : below V (pos_of e') p) by (apply (below_linear V Ht _ _ (tip l')); [by eapply get_below_tip|done|simpl; lia]).
  assert (E : pos_of e = pos_of e').
  { apply (below_same_index V Ht); [apply (below_linear V Ht _ _ p); [done..|simpl; lia]|simpl; lia]. }
  injection E as E1 E2. assert ((t, e) = (t', e')) as [= _ ->]; [|done].
  apply (tr_unique V Ht); [by apply Hl|by apply Hl'|done..].
Qed.

(** ** What the operations do to the tip *)

(** A log that takes over a leader's branch up to [q]: it held [q] already and
    keeps its tip, or it did not and now ends there. *)
Definition adopts (V : Link -> Prop) (l l' : Log) (q : Pos) : Prop :=
  (tip l' = tip l /\ below V q (tip l)) \/ (tip l' = q /\ ~ below V q (tip l)).

Section Updates.
Context (V : Link -> Prop) (Ht : tree V) (l : Log) (Hl : path V l).

Lemma path_append t e : t = Log_last_term l -> e_index e = Log_last_index l + 1 -> V (t, e) ->
  Log_last_index l + 1 < U64 - 1 -> path V (Log_append l [e]).
Proof using Hl.
  intros -> Ei Hx Hr. pose proof Hl as [Hw Hz Hk Hb]. split; [|done| |done].
  - apply append_wf; [done|by apply contiguous_cons|simpl; lia].
  - intros x. rewrite links_append. intros [Hy|Hy]%elem_of_app; [auto|]. by apply list_elem_of_singleton in Hy as ->.
Qed.

Lemma tip_append e : e_index e = Log_last_index l + 1 -> tip (Log_append l [e]) = pos_of e.
Proof using. intros Ei. unfold tip, Log_last_index, Log_last_term. simpl. by rewrite last_snoc. Qed.

Lemma tip_compact through t c : Log_term_at l through = Some t -> tip (Log_compact_through l through t c) = tip l.
Proof using Hl.
  intros Hk. pose proof Hl as [Hw Hz _ _]. unfold tip. rewrite compact_last_index by done. f_equal.
  unfold Log_compact_through. destruct (Z.leb_spec through (snapshot_index l)) as [|Hlt]; [done|].
  pose proof (last_index_wf l Hw) as El. assert (Hi : through <= Log_last_index l).
  { pose proof (wf_snapshot l Hw). destruct (term_at_Some l Hw _ _ Hk); lia. }
  rewrite !last_term_end. simpl. rewrite Z.min_l, Nat.min_l by lia.
  rewrite (term_at_end l Hw) in Hk by (done || lia). injection Hk as <-. by rewrite <- end_term_app, take_drop.
Qed.

Lemma base_compact through t c : snapshot_index l < through -> Log_term_at l through = Some t ->
  base (Log_compact_through l through t c) = (through, t).
Proof using Hl.
  intros Hlt Hk. pose proof (pa_wf _ _ Hl) as Hw. unfold base, Log_compact_through.
  destruct (Z.leb_spec through (snapshot_index l)); [lia|]. simpl. f_equal. apply Z.min_l.
  pose proof (last_index_wf l Hw). pose proof (wf_snapshot l Hw). destruct (term_at_Some l Hw _ _ Hk); lia.
Qed.

Lemma path_compact through t c : Log_term_at l through = Some t -> path V (Log_compact_through l through t c).
Proof using Ht Hl.
  intros Hk. pose proof Hl as [Hw Hz Hx Hb]. destruct (links_compact l Hw _ _ c Hz Hk) as [Hsub Hz'].
  split; [by apply compact_wf|done|intros x Hy; by apply Hx, Hsub|].
  destruct (decide (snapshot_index l < through)) as [Hlt|Hge].
  - rewrite (base_compact _ _ _ Hlt Hk). by eapply (below_known V Ht), (tip_known V Ht l Hl); apply term_at_below.
  - unfold Log_compact_through. destruct (Z.leb_spec through (snapshot_index l)); [done|lia].
Qed.

Lemma merge_path pi pt es : snapshot_index l <= pi -> Log_term_at l pi = Some pt -> contiguous_from (pi + 1) es ->
  pi + Z.of_nat (length es) < U64 - 1 -> (forall x, x ∈ chain pt es -> V x) ->
  path V (Log_merge_loop l es) /\ base (Log_merge_loop l es) = base l.
Proof using Hl.
  intros Hs Hk Hc Hr Hx. pose proof Hl as [Hw Hz Hlk Hb]. pose proof (last_index_wf l Hw) as El. pose proof (wf_snapshot l Hw).
  assert (Hp : snapshot_index l <= pi <= Log_last_index l) by (destruct (term_at_Some l Hw _ _ Hk); lia).
  pose proof (merge_loop_outcome l pi es Hw Hc Hp) as Ho.
  destruct (links_merge l Hw pi pt es Hz Hp Hk Hc) as [Hsub Hz'].
  assert (Eb : base (Log_merge_loop l es) = base l) by (by destruct Ho as [|k l' _ _ _ _ ->]).
  split; [|done]. split; [by eapply merge_outcome_wf|done| |by rewrite Eb].
  intros x Hy. apply Hsub, elem_of_app in Hy as [?|?]; auto.
Qed.

Lemma merge_adopts pi pt es : snapshot_index l <= pi -> Log_term_at l pi = Some pt -> contiguous_from (pi + 1) es ->
  pi + Z.of_nat (length es) < U64 - 1 -> (forall x, x ∈ chain pt es -> V x) ->
  adopts V l (Log_merge_loop l es) (pi + Z.of_nat (length es), end_term pt es).
Proof using Ht Hl.
  intros Hs Hk Hc Hr Hx. destruct (merge_path pi pt es Hs Hk Hc Hr Hx) as [Hl' Eb].
  pose proof (pa_wf _ _ Hl) as Hw. pose proof (last_index_wf l Hw) as El. pose proof (wf_snapshot l Hw).
  assert (Hp : snapshot_index l <= pi <= Log_last_index l) by (destruct (term_at_Some l Hw _ _ Hk); lia).
  pose proof (merge_loop_outcome l pi es Hw Hc Hp) as Ho. set (q := (_, _)).
  (* a log that holds the entries of the batch has its end on its branch *)
  assert (Hend : forall l2, path V l2 -> Log_term_at l2 pi = Some pt ->
    (forall e, last es = Some e -> Log_term_at l2 (e_index e) = Some (e_term e)) -> below V q (tip l2)).
  { intros l2 Hl2 Hk2 He. apply term_at_below; [done..|]. unfold q, end_term. destruct (last es) as [e|] eqn:E.
    - rewrite <- (He e eq_refl). f_equal. rewrite (contiguous_last _ _ _ Hc E). lia.
    - apply last_None in E as ->. simpl. by rewrite Z.add_0_r. }
  set (l2 := Log_merge_loop l es) in *. clearbody l2. destruct Ho as [Hlast Hall|k l' Hlen Hlast Hall Hdiff E2].
  - left. split; [done|]. apply Hend; [done..|]. intros e He. by apply Hall, last_Some_elem_of.
  - right. split.
    + destruct (last es) as [e|] eqn:E; [|apply last_None in E; subst; simpl in *; lia].
      assert (L : last (entries l') = Some e).
      { rewrite E2. simpl. rewrite last_app. enough (last (drop k es) = Some e) as -> by done.
        rewrite last_lookup, lookup_drop, length_drop, <- E, last_lookup. f_equal. lia. }
      unfold tip, q, end_term, Log_last_index, Log_last_term. rewrite L, E. f_equal.
      rewrite (contiguous_last _ _ _ Hc E). lia.
    + intros Hq. destruct (es !! k) as [e|] eqn:Ek; [|apply lookup_ge_None in Ek; lia].
      pose proof (contiguous_lookup _ _ _ _ Hc Ek) as Ei. apply (Hdiff e eq_refl).
      assert (B : below V (pos_of e) q).
      { unfold q. rewrite <- (take_drop (S k) es), length_app, length_take_le, end_term_app by lia.
        rewrite (take_S_r _ _ _ Ek) at 1. unfold end_term at 2. rewrite last_snoc.
        pose proof (below_chain V (e_term e) (e_index e) (drop (S k) es)) as Hb. unfold pos_of.
        replace (pi + Z.of_nat (S k + length (drop (S k) es))) with (e_index e + Z.of_nat (length (drop (S k) es))) by lia.
        apply Hb.
        - replace (e_index e + 1) with (pi + 1 + Z.of_nat (S k)) by lia. apply contiguous_drop; [lia|done].
        - intros x Hy. apply Hx. rewrite (chain_split pt es (S k)), (take_S_r _ _ _ Ek). apply elem_of_app. right.
          unfold end_term. by rewrite last_snoc. }
      apply (below_term_at V Ht l Hl (pos_of e)); [by eapply below_trans|simpl; lia].
Qed.

Lemma install_path s : known V (sn_last_index s, sn_last_term s) -> 0 < sn_last_index s < U64 - 1 ->
  path V (Log_install_snapshot l s).
Proof using Ht Hl.
  intros Hs Hi. unfold Log_install_snapshot. case_bool_decide; [by apply path_compact|].
  split; simpl; [|unfold zero_ok; simpl; lia|by intros x ?%elem_of_nil|done]. split; simpl; [lia|done|lia].
Qed.

Lemma install_adopts s : snapshot_index l < sn_last_index s ->
  adopts V l (Log_install_snapshot l s) (sn_last_index s, sn_last_term s) /\
  base (Log_install_snapshot l s) = (sn_last_index s, sn_last_term s).
Proof using Ht Hl.
  intros Hs. unfold Log_install_snapshot. case_bool_decide as E.
  - split; [left|by apply base_compact]. split; [by apply tip_compact|by apply term_at_below].
  - split; [right|done]. split; [done|]. intros Hq. apply E. apply (below_term_at V Ht l Hl _ Hq). simpl. lia.
Qed.
End Updates.
