(* ===== verification/Commitment.v ===== *)
(** * What is committed, and why a leader has it

    The static part of the safety argument. A [World] is what a run has left
    behind: every link ever made, every message ever sent, and how far every
    leader has ever held its own log durably. From it one reads who acknowledged
    what, and so which positions are [committed]: those below one of a leader's
    own term that a quorum has acknowledged to it. [quorum_position_kept] is Leader
    Completeness on a world in which every leader was [chosen] by a quorum that
    looked at its logs: the branch of every later term goes through every
    committed position. The argument is that of the Raft dissertation; its time is
    the order in which links were made. *)

From Stdlib Require Import ZArith Lia.
From stdpp Require Import base tactics functions relations list list_numbers gmap sets sorting.
From S2P Require Import Prelude Codec Types RaftLog Msg RaftState Raft RaftNode RaftCommit Cluster RaftTypes LogMatching Ancestry.

Open Scope Z_scope.

(** ** Worlds *)

Record World : Type := mkWorld {
  (** every link that was ever in a log *)
  w_made : list Link;
  (** every message ever sent: source, destination, contents *)
  w_sent : list (NodeId * NodeId * Message);
  (** how far a leader's log on disk reached in its term *)
  w_held : list (NodeId * Term * Index)
}.

Definition link_in (W : World) (x : Link) : Prop := x ∈ w_made W.

(** How far a message says the sender's log agrees with the leader's. *)
Definition ack_index (m : Message) : option Index :=
  match m_body m with
  | AppendResp true i _ _ => Some i
  | SnapshotResp true i => Some i
  | _ => None
  end.

(** In term [T], [i] acknowledged the leader's log up to index [k]; the leader
    does so itself once its disk has it. *)
Definition acked (W : World) (i : NodeId) (T : Term) (k : Index) : Prop :=
  (exists to m, (i, to, m) ∈ w_sent W /\ m_term m = T /\ ack_index m = Some k) \/ (i, T, k) ∈ w_held W.

Definition up_to_date (p b : Pos) : Prop := p.2 < b.2 \/ (p.2 = b.2 /\ p.1 <= b.1).

Lemma up_to_date_log l i t : Log_is_up_to_date l t i = true <-> up_to_date (tip l) (i, t).
Proof. unfold Log_is_up_to_date, up_to_date, tip. simpl. lia. Qed.

Lemma up_to_date_refl p : up_to_date p p.
Proof. right. split; [done|lia]. Qed.

(** Later worlds. *)
Record extends (W W' : World) : Prop := {
  ex_made x : link_in W x -> link_in W' x;
  ex_sent : w_sent W ⊆ w_sent W';
  ex_held : w_held W ⊆ w_held W'
}.

#[export] Instance extends_refl : Reflexive extends.
Proof. intros W. by split. Qed.
#[export] Instance extends_trans : Transitive extends.
Proof. intros W1 W2 W3 [] []. split; [auto|by etransitivity..]. Qed.

Lemma acked_extends W W' i T k : extends W W' -> acked W i T k -> acked W' i T k.
Proof.
  intros E [(to & m & Hm & ? & ?)|Hh]; [left|right; by apply (ex_held _ _ E)].
  exists to, m. split; [by apply (ex_sent _ _ E)|done].
Qed.

Section Positions.
Context (W : World).
Abbreviation V := (link_in W).

(** Everything up to index [k] of the branch of [T] satisfies [P], or was left out
    by the leader of a later term, as one of the links [S] shows. *)
Definition covers_by (S : list Link) (P : Pos -> Prop) (T : Term) (k : Index) : Prop :=
  exists p0, p0.1 = k /\ on_chain V T p0 /\ forall p, below V p p0 ->
    P p \/ exists y, y ∈ S /\ T < e_term y.2 /\ ~ below V p (pos_of y.2).

(** A node that votes for a log ending at [b] has [p] in a log that is not ahead
    of [b]. *)
Definition votes_for (b p : Pos) : Prop := exists q, below V p q /\ known V q /\ up_to_date q b.

Lemma covers_weaken S (P P' : Pos -> Prop) T k : (forall p, known V p -> P p -> P' p) -> tree V ->
  covers_by S P T k -> covers_by S P' T k.
Proof using.
  intros HP Ht (p0 & Ek & Hc & Hp). exists p0. split; [done|]. split; [done|]. intros p Hb.
  destruct (Hp p Hb) as [?|?]; [left|by right]. apply HP; [|done]. by eapply (below_known V Ht), (chain_known V Ht).
Qed.

Context (C : Config).

(** [p] is committed by term [T]: it is below a position of a term up to [T]
    that a quorum acknowledged in that term. *)
Definition committed (p : Pos) (T : Term) : Prop :=
  p = root \/
  exists q Q, below V p q /\ known V q /\ q.2 <= T /\ Config_has_quorum C Q = true /\
    forall i, i ∈ Q -> exists k, q.1 <= k /\ acked W i q.2 k.

(** The leader of the term of [x] was voted for by a quorum, when the first [n]
    links had been made, and the log [b] it then had took into account what its
    voters had acknowledged in earlier terms. *)
Definition chosen (x : Link) : Prop :=
  exists b Q n, (n <= length (w_made W))%nat /\ (x ∉ take n (w_made W)) /\
    Config_has_quorum C Q = true /\ (b = root \/ (exists z, z ∈ take n (w_made W) /\ b = pos_of z.2)) /\
    b.2 < e_term x.2 /\ below V b (pos_of x.2) /\
    forall i T k, i ∈ Q -> acked W i T k -> T < e_term x.2 -> covers_by (take n (w_made W)) (votes_for b) T k.

Lemma committed_root T : committed root T.
Proof. by left. Qed.

Lemma committed_later p T T' : T <= T' -> committed p T -> committed p T'.
Proof. intros Hle [?|(q & Q & ? & ? & ? & ?)]; [by left|right]. exists q, Q.
  split; [done|]. split; [done|]. split; [lia|done].
Qed.

Lemma committed_below p q T : tree V -> below V p q -> committed q T -> committed p T.
Proof.
  intros Ht Hp [->|(s & Q & Hq & ?)]; [left; by apply (below_root V Ht)|right]. exists s, Q.
  split; [by eapply below_trans|done].
Qed.

(** ** Leader Completeness *)

Section Complete.
Context (Ht : tree V) (Hchosen : forall x, V x -> chosen x).

Lemma quorum_position_kept q Q x : known V q -> Config_has_quorum C Q = true ->
  (forall i, i ∈ Q -> exists k, q.1 <= k /\ acked W i q.2 k) ->
  V x -> q.2 < e_term x.2 -> below V q (pos_of x.2).
Proof using Ht Hchosen.
  intros Hq HQ Hack Hx Hlt. destruct Hq as [->|(zq & Hzq & Eq)]; [by apply (root_below V Ht), known_link|].
  assert (Hx' : x ∈ take (length (w_made W)) (w_made W)) by (by rewrite firstn_all).
  revert x Hx Hlt Hx'. induction (length (w_made W)) as [n IH] using (well_founded_induction Nat.lt_wf_0).
  intros x Hx Hlt Hxn. destruct (Hchosen x Hx) as (b & Q' & m & Hm & Hxm & HQ' & Hb & Hbt & Hbx & Hcov).
  assert (Hmn : (m < n)%nat).
  { destruct (decide (m < n)%nat) as [|Hge]; [done|]. exfalso. apply Hxm.
    apply elem_of_take in Hxn as (j & Hj & ?). apply elem_of_take. exists j. split; [done|lia]. }
  assert (Hless : forall y, y ∈ take m (w_made W) -> q.2 < e_term y.2 -> below V q (pos_of y.2)).
  { intros y Hy Hty. apply (IH m Hmn); [by apply subseteq_take in Hy|done..]. }
  clear IH. destruct (quorums_meet C Q Q' HQ HQ') as (i & _ & Hi & Hi').
  destruct (Hack i Hi) as (k & Hk & Hki). destruct (Hcov i _ _ Hi' Hki Hlt) as (p0 & Ek & Hp0 & Hp).
  assert (Hq0 : below V q p0).
  { assert (Hqc : on_chain V q.2 q) by (rewrite Eq; by apply link_on_chain).
    apply (chain_linear V Ht _ _ _ Hqc Hp0). lia. }
  destruct (Hp q Hq0) as [(v & Hqv & Hv & Huv)|(y & Hy & Hty & Hn)]; [|exfalso; by apply Hn, Hless].
  eapply below_trans; [|exact Hbx]. pose proof (below_le V Ht _ _ Hqv) as Hle.
  assert (Hvz : 1 <= q.2) by (rewrite Eq; apply (tr_bounds V Ht zq Hzq)).
  assert (Hvt : q.2 <= v.2) by (destruct Hle as [->|?]; lia).
  destruct Hb as [->|(bx & Hbl & ->)]; [destruct Huv as [?|?]; simpl in *; lia|].
  destruct Huv as [Huv|[Et Ei]]; simpl in *; [apply Hless; [done|lia]|].
  destruct Hv as [->|(vx & Hvl & ->)]; [simpl in *; lia|]. simpl in *. eapply below_trans; [exact Hqv|].
  apply (tr_same V Ht); [done|by apply subseteq_take in Hbl|done..].
Qed.

(** A committed position is on the branch of every leader from its term on. *)
Lemma committed_on_chain p T x : committed p T -> V x -> e_term x.2 = T -> on_chain V T p.
Proof using Ht Hchosen.
  intros [->|(q & Q & Hpq & Hq & Hqt & HQ & Hack)] Hx <-.
  - exists x. split; [done|]. split; [done|]. by apply (root_below V Ht), known_link.
  - apply (below_on_chain V _ _ _ Hpq). destruct (decide (q.2 = e_term x.2)) as [E|Hne].
    + destruct Hq as [->|(z & Hz & ->)]; [|rewrite <- E; by apply link_on_chain].
      exists x. split; [done|]. split; [done|]. by apply (root_below V Ht), known_link.
    + exists x. split; [done|]. split; [done|]. eapply quorum_position_kept; [done..|lia].
Qed.

Lemma committed_after p T x : committed p T -> V x -> T < e_term x.2 -> below V p (pos_of x.2).
Proof using Ht Hchosen.
  intros [->|(q & Q & Hpq & Hq & Hqt & HQ & Hack)] Hx Hlt; [by apply (root_below V Ht), known_link|].
  eapply below_trans; [exact Hpq|]. eapply quorum_position_kept; [done..|lia].
Qed.

(** Committed positions are on one branch. *)
Lemma committed_linear p q T T' : committed p T -> committed q T' -> p.1 <= q.1 -> below V p q.
Proof using Ht Hchosen.
  intros Hp Hq Hle. assert (Hk : forall p T, committed p T -> known V p).
  { clear Hp Hq Hle p q T T'. intros p T [->|(s & Q & Hs & Hk & _)]; [by left|]. by eapply (below_known V Ht). }
  pose proof (Hk _ _ Hp) as Kp. pose proof (Hk _ _ Hq) as Kq. clear Hk.
  destruct Hp as [->|(p1 & P & Hp1 & Hkp & _ & HP & Hap)]; [by apply (root_below V Ht)|].
  destruct Hq as [->|(q1 & Q & Hq1 & Hkq & _ & HQ & Haq)].
  { destruct (known_bounds V Ht p Kp) as (? & ? & [->|?]); [apply below_refl|simpl in *; lia]. }
  destruct Hkp as [->|(x & Hx & ->)]; [apply (below_root V Ht) in Hp1 as ->; by apply (root_below V Ht)|].
  destruct Hkq as [->|(y & Hy & ->)].
  { apply (below_root V Ht) in Hq1 as ->. destruct (known_bounds V Ht p Kp) as (? & ? & [->|?]); [apply below_refl|simpl in *; lia]. }
  simpl in *. destruct (Z.lt_trichotomy (e_term x.2) (e_term y.2)) as [Hlt|[E|Hgt]].
  - apply (below_linear V Ht _ _ (pos_of y.2)); [|done..]. eapply below_trans; [exact Hp1|].
    eapply quorum_position_kept; [by apply known_link|exact HP|exact Hap|done..].
  - eapply (chain_linear V Ht (e_term x.2)); [exists x; by split_and!|exists y; by split_and!|done].
  - apply (below_linear V Ht _ _ (pos_of x.2)); [done| |done]. eapply below_trans; [exact Hq1|].
    eapply quorum_position_kept; [by apply known_link|exact HQ|exact Haq|done|simpl; lia].
Qed.
End Complete.
End Positions.

(** Left out by a link of the world. *)
Abbreviation covers W := (covers_by W (w_made W)).

(** ** Later worlds keep what was established *)

Section Later.
Context (W W' : World) (E : extends W W').
Context (Ht : tree (link_in W)) (Ht' : tree (link_in W')).

Lemma below_extends p q : below (link_in W) p q -> below (link_in W') p q.
Proof using E. apply below_grow, (ex_made _ _ E). Qed.

Lemma committed_extends C p T : committed W C p T -> committed W' C p T.
Proof using E.
  intros [?|(q & Q & Hp & Hk & Hq & HQ & Ha)]; [by left|right]. exists q, Q.
  split_and!; [by apply below_extends|by apply (known_grow _ _ (ex_made _ _ E))|done|done|].
  intros i Hi. destruct (Ha i Hi) as (k & ? & ?). exists k. split; [done|]. by apply (acked_extends W).
Qed.

Lemma covers_extends S S' (P P' : Pos -> Prop) T k : (forall p, known (link_in W) p -> P p -> P' p) ->
  S ⊆ S' -> S ⊆ w_made W -> covers_by W S P T k -> covers_by W' S' P' T k.
Proof using E Ht Ht'.
  intros HP HS HW (p0 & Ek & Hc & Hp). pose proof (chain_known _ Ht _ _ Hc) as Hk0.
  exists p0. split; [done|]. split; [by apply (chain_grow _ _ (ex_made _ _ E))|].
  intros p Hb. apply (below_shrink _ _ (ex_made _ _ E) _ _ Ht Ht' Hk0) in Hb.
  destruct (Hp p Hb) as [?|(y & Hy & Hty & Hn)]; [left|right].
  - apply HP; [|done]. by apply (below_known _ Ht _ _ Hb).
  - exists y. split; [by apply HS|]. split; [done|]. intros Hb'. apply Hn.
    apply (below_shrink _ _ (ex_made _ _ E) _ _ Ht Ht'); [|done]. apply known_link. by apply HW.
Qed.

Lemma votes_for_extends b p : votes_for W b p -> votes_for W' b p.
Proof using E.
  intros (q & Hb & Hk & Hu). exists q.
  split; [by apply below_extends|]. split; [by apply (known_grow _ _ (ex_made _ _ E))|done].
Qed.
End Later.
