(* ===== verification/NodeSafety.v ===== *)
(** * What a node owes the cluster

    The invariant of one node of [StateSafety.v], in a given [World]: its log is a
    path of the tree, ends no later than its term, holds what the node has
    acknowledged unless a later leader left it out, and is committed up to the
    commit index; every message it has queued tells the truth; it voted, and asks
    for votes, with those acknowledgements in its log; a leader's log ends in its
    own term and its [progress] counts what was acknowledged. Each handler of
    [Raft.v] preserves it. *)

From Stdlib Require Import ZArith Lia.
From stdpp Require Import base tactics functions relations list list_numbers gmap sets sorting.
From S2P Require Import Prelude Codec Types RaftLog Msg RaftState Raft RaftNode RaftCommit Cluster RaftTypes LogMatching Ancestry Commitment.

Open Scope Z_scope.

(** ** The invariant *)

(** A message sent or queued. *)
Definition says (W : World) (me : NodeId) (r : Raft) (to : NodeId) (m : Message) : Prop :=
  (me, to, m) ∈ w_sent W \/ (to, m) ∈ msgs r.

Definition acking (W : World) (me : NodeId) (r : Raft) (T : Term) (k : Index) : Prop :=
  (exists to m, says W me r to m /\ m_term m = T /\ ack_index m = Some k) \/ (me, T, k) ∈ w_held W.

(** The branch of [T] is committed up to index [c]. *)
Definition agreed (W : World) (C : Config) (T : Term) (c : Index) : Prop :=
  exists p, p.1 = c /\ on_chain (link_in W) T p /\ committed W C p T.

(** What a message lets its receiver conclude. [leads i T]: [i] has led [T]. *)
Definition truthful (W : World) (C : Config) (leads : NodeId -> Term -> Prop) (from to : NodeId) (m : Message) : Prop :=
  match m_body m with
  | AppendReq pi pt es c =>
      on_chain (link_in W) (m_term m) (pi + Z.of_nat (length es), end_term pt es) /\ agreed W C (m_term m) c
  | HeartbeatReq c _ =>
      agreed W C (m_term m) c /\ (c = 0 \/ exists k, c <= k /\ acked W to (m_term m) k)
  | SnapshotReq s =>
      on_chain (link_in W) (m_term m) (sn_last_index s, sn_last_term s) /\
      committed W C (sn_last_index s, sn_last_term s) (m_term m)
  | TimeoutNow => to <> from /\ leads from (m_term m)
  | _ => True
  end.

(** A log at term [tm] that holds what was acknowledged, [acks], is committed up
    to [c], and is on one branch with what is committed at each of [cs]. *)
Record holds_log (W : World) (C : Config) (acks : Term -> Index -> Prop) (l : Log) (tm : Term) (c : Index) (cs : list Index) : Prop := {
  hl_path : path (link_in W) l;
  hl_term : Log_last_term l <= tm;
  hl_acks T k : acks T k -> T <= tm /\ covers W (fun p => below (link_in W) p (tip l)) T k;
  hl_base : committed W C (base l) tm;
  hl_commit : exists p, p.1 = c /\ below (link_in W) p (tip l) /\ committed W C p tm;
  hl_disk d : d ∈ cs -> exists p, p.1 = d /\ committed W C p tm /\ (below (link_in W) p (tip l) \/ below (link_in W) (tip l) p)
}.

(** A vote for a log ending at [b] in term [U] took into account what the voter
    had acknowledged in earlier terms. *)
Definition informed (W : World) (me : NodeId) (r : Raft) (U : Term) (b : Pos) : Prop :=
  U <= r_term r /\ forall T k, acking W me r T k -> T < U -> covers W (votes_for W b) T k.

Record standing (W : World) (me : NodeId) (r : Raft) : Prop := {
  sg_term : 1 <= r_term r;
  sg_asked to m i t : says W me r to m -> m_body m = VoteReq i t -> m_term m = r_term r -> (i, t) = tip (r_log r);
  sg_persisted to m : (me, to, m) ∈ w_sent W -> asks m -> m_term m = r_term r -> r_persisted r <= Log_last_index (r_log r)
}.

Record leading (W : World) (me : NodeId) (r : Raft) : Prop := {
  ld_tip : exists x, link_in W x /\ pos_of x.2 = tip (r_log r) /\ e_term x.2 = r_term r;
  ld_last x : link_in W x -> e_term x.2 = r_term r -> e_index x.2 <= Log_last_index (r_log r);
  ld_clamp : r_persisted r <= Log_last_index (r_log r);
  ld_progress j p : j <> me -> r_progress r !! j = Some p ->
    0 <= p_matched p /\ (p_matched p = 0 \/ exists k, p_matched p <= k /\ acked W j (r_term r) k);
  ld_persisted x : link_in W x -> e_term x.2 = r_term r -> e_index x.2 <= r_persisted r ->
    exists k, e_index x.2 <= k /\ acked W me (r_term r) k
}.

(** What is remembered of a node: the commit indices it has written to disk, and
    a term below which its acknowledgements are among [fr_acks]. *)
Record Frame : Type := mkFrame {
  fr_commits : list Index;
  fr_since : Term;
  fr_acks : Term -> Index -> Prop
}.

Record fit (C : Config) (leads : NodeId -> Term -> Prop) (me : NodeId) (fr : Frame) (W : World) (k : Z) (r : Raft) : Prop := {
  ft_id : r_id r = me;
  ft_fixed : log_fixed C (r_log r);
  ft_linked : linked k (link_in W) r;
  ft_log : holds_log W C (acking W me r) (r_log r) (r_term r) (r_commit r) (fr_commits fr);
  ft_applied : snapshot_index (r_log r) <= r_commit r /\ r_applied r <= r_commit r;
  ft_msgs to m : (to, m) ∈ msgs r -> truthful W C leads me to m;
  ft_votes to m : says W me r to m -> grants m ->
    exists b m', (to, me, m') ∈ w_sent W /\ m_body m' = VoteReq b.1 b.2 /\ m_term m' = m_term m /\ informed W me r (m_term m) b;
  ft_asks to m i t : says W me r to m -> m_body m = VoteReq i t -> known (link_in W) (i, t) /\ informed W me r (m_term m) (i, t);
  ft_candidate : r_role r = Candidate -> standing W me r;
  ft_leader : r_role r = Leader -> leading W me r;
  ft_idle : r_role r <> Leader -> r_progress r = ∅;
  ft_pending : rd_committed (r_pending r) = [];
  ft_since : fr_since fr <= r_term r /\ forall T i, acking W me r T i -> T < fr_since fr -> fr_acks fr T i
}.

(** A message that neither acknowledges, nor votes, nor asks for votes. *)
Definition neutral (m : Message) : Prop := ack_index m = None /\ ~ grants m /\ ~ asks m.

Ltac is_neutral := split; [done|split; [discriminate|by intros []]].

Section Node.
Context (C : Config) (leads : NodeId -> Term -> Prop) (me : NodeId) (fr : Frame) (W : World).
Abbreviation V := (link_in W).
Abbreviation fit := (fit C leads me fr W).
Context (Ht : tree V).

Lemma fit_weaken k k' r : k' <= k -> fit k r -> fit k' r.
Proof using. intros Hk []. split; try done. by eapply linked_weaken; [eassumption|..]. Qed.

Lemma fit_path k r : fit k r -> path V (r_log r).
Proof using. intros H. apply (hl_path _ _ _ _ _ _ _ (ft_log _ _ _ _ _ _ _ H)). Qed.

Lemma fit_config k r : fit k r -> Log_config (r_log r) = C.
Proof using. intros H. apply log_fixed_config, H. Qed.

(** ** Updates that change nothing here *)

(** The matched indices of the others. *)
Definition same_progress (m m' : gmap NodeId Progress) : Prop :=
  forall j, match m !! j, m' !! j with
            | Some p, Some p' => j <> me -> p_matched p' = p_matched p
            | None, None => True
            | _, _ => False
            end.

#[local] Instance same_progress_refl : Reflexive same_progress.
Proof using. intros m j. by destruct (m !! j). Qed.

Lemma same_progress_empty m : same_progress ∅ m -> m = ∅.
Proof using. intros H. apply map_eq. intros j. specialize (H j). rewrite lookup_empty in *. by destruct (m !! j). Qed.

Lemma same_progress_lookup m m' j p : same_progress m m' -> m' !! j = Some p -> j <> me ->
  exists p0, m !! j = Some p0 /\ p_matched p = p_matched p0.
Proof using. intros H Hp Hj. specialize (H j). rewrite Hp in H. destruct (m !! j) as [p0|]; [|done]. exists p0. auto. Qed.

Record level (r r' : Raft) : Prop := {
  lv_id : r_id r' = r_id r;
  lv_term : r_term r' = r_term r;
  lv_log : r_log r' = r_log r;
  lv_commit : r_commit r' = r_commit r;
  lv_applied : r_applied r' = r_applied r;
  lv_persisted : r_persisted r' = r_persisted r;
  lv_role : r_role r' = r_role r;
  lv_msgs : msgs r' = msgs r;
  lv_pending : rd_committed (r_pending r') = rd_committed (r_pending r);
  lv_progress : same_progress (r_progress r) (r_progress r')
}.

Lemma fit_level k r r' : level r r' -> fit k r -> fit k r'.
Proof using.
  intros L [Hid Hf Hl Hh Ha Hm Hv Hq Hc Hle Hi Hpd [HT0 HA0]].
  pose proof (lv_id _ _ L). pose proof (lv_term _ _ L) as Et. pose proof (lv_log _ _ L) as El. pose proof (lv_commit _ _ L) as Ec.
  pose proof (lv_msgs _ _ L) as Em. pose proof (lv_role _ _ L) as Er.
  assert (Es : forall to m, says W me r' to m <-> says W me r to m) by (intros; unfold says; by rewrite Em).
  assert (Ek : forall T i, acking W me r' T i -> acking W me r T i).
  { intros T i [(to & m & Hs & ?)|?]; [left; exists to, m; by rewrite <- Es|by right]. }
  assert (Ei : forall U b, informed W me r U b -> informed W me r' U b).
  { intros U b [HU Hc']. split; [by rewrite Et|]. auto. }
  split.
  - congruence.
  - by rewrite El.
  - destruct Hl. split; rewrite ?El, ?Ec, ?Em; done.
  - destruct Hh. split; rewrite ?El, ?Et, ?Ec; try done. auto.
  - rewrite El, Ec, (lv_applied _ _ L). done.
  - rewrite Em. done.
  - intros to m Hs%Es Hg. destruct (Hv to m Hs Hg) as (b & m' & ? & ? & ? & ?). exists b, m'. auto.
  - intros to m i t Hs%Es Hb. destruct (Hq to m i t Hs Hb). auto.
  - rewrite Er. intros Hr. destruct (Hc Hr) as [H1 H2 H3]. split; rewrite ?El, ?Et, ?(lv_persisted _ _ L); try done.
    intros to m i t Hs%Es. by apply H2 with to.
  - rewrite Er. intros Hr. destruct (Hle Hr) as [H1 H2 H2' H3 H4]. split; rewrite ?El, ?Et, ?(lv_persisted _ _ L); try done.
    intros j p Hj Hp. destruct (same_progress_lookup _ _ _ _ (lv_progress _ _ L) Hp Hj) as (p0 & Hp0 & ->). by apply (H3 j).
  - rewrite Er. intros Hr. apply same_progress_empty. rewrite <- (Hi Hr). apply L.
  - by rewrite (lv_pending _ _ L).
  - rewrite Et. auto.
Qed.

Lemma level_plain k r r' : r_id r' = r_id r -> r_term r' = r_term r -> r_log r' = r_log r -> r_commit r' = r_commit r ->
  r_applied r' = r_applied r -> r_persisted r' = r_persisted r -> r_role r' = r_role r -> msgs r' = msgs r ->
  rd_committed (r_pending r') = rd_committed (r_pending r) ->
  r_progress r' = r_progress r -> fit k r -> fit k r'.
Proof using. intros ? ? ? ? ? ? ? ? ? E. apply fit_level. split; try done. rewrite E. reflexivity. Qed.

(** A node that moves on to [r'] with the messages it had. *)
Lemma fit_update k k' r r' : fit k r -> r_id r' = r_id r -> msgs r' = msgs r ->
  rd_committed (r_pending r') = rd_committed (r_pending r) -> r_term r <= r_term r' ->
  linked k' V r' -> log_fixed C (r_log r') ->
  holds_log W C (acking W me r') (r_log r') (r_term r') (r_commit r') (fr_commits fr) ->
  snapshot_index (r_log r') <= r_commit r' /\ r_applied r' <= r_commit r' ->
  (r_role r' = Candidate -> standing W me r') -> (r_role r' = Leader -> leading W me r') ->
  (r_role r' <> Leader -> r_progress r' = ∅) -> fit k' r'.
Proof using.
  intros [Hid Hf Hl Hh Ha Hm Hv Hq _ _ _ Hpd [HT0 HA0]] Eid Em Epd Et Hl' Hf' Hh' Ha' Hc' Hle' Hi'.
  assert (Es : forall to m, says W me r' to m <-> says W me r to m) by (intros; unfold says; by rewrite Em).
  assert (Ek : forall T i, acking W me r' T i -> acking W me r T i).
  { intros T i [(to & m & Hs & ?)|?]; [left; exists to, m; by rewrite <- Es|by right]. }
  assert (Ei : forall U b, informed W me r U b -> informed W me r' U b) by (intros U b [HU Hb]; split; [lia|auto]).
  split; try done.
  - congruence.
  - by rewrite Em.
  - intros to m Hs%Es Hg. destruct (Hv to m Hs Hg) as (b & m' & ? & ? & ? & ?). exists b, m'. auto.
  - intros to m i t Hs%Es Hb. destruct (Hq to m i t Hs Hb). auto.
  - congruence.
  - split; [lia|auto].
Qed.

(** ** Messages *)

Lemma says_push r to m to' m' : says W me (push_message to m r) to' m' <-> says W me r to' m' \/ (to' = to /\ m' = m).
Proof using.
  unfold says. simpl. rewrite elem_of_app, list_elem_of_singleton. split.
  - intros [?|[?|[= -> ->]]]; auto.
  - intros [[?|?]|[-> ->]]; auto.
Qed.

(** A message that acknowledges, in the current term, what the log holds; or
    nothing. *)
Lemma fit_push k r to m : fit k r -> msg_linked V m -> truthful W C leads me to m ->
  (forall i, ack_index m = Some i -> m_term m = r_term r /\
     covers W (fun p => below V p (tip (r_log r))) (r_term r) i) ->
  (grants m -> m_term m <= r_term r /\ exists b m', (to, me, m') ∈ w_sent W /\ m_body m' = VoteReq b.1 b.2 /\
     m_term m' = m_term m /\ informed W me r (m_term m) b) ->
  (forall i t, m_body m = VoteReq i t -> known V (i, t) /\ informed W me r (m_term m) (i, t) /\
     (r_role r = Candidate -> m_term m = r_term r -> (i, t) = tip (r_log r))) ->
  fit k (push_message to m r).
Proof using.
  intros [Hid Hf Hl Hh Ha Hm Hv Hq Hc Hle Hi Hpd [HT0 HA0]] Hml Hok Hack Hgr Hask.
  assert (Ek : forall T i, acking W me (push_message to m r) T i -> acking W me r T i \/
    (T = r_term r /\ covers W (fun p => below V p (tip (r_log r))) (r_term r) i)).
  { intros T i [(to' & m' & Hs & HT & Hk)|?]; [|by left; right]. apply says_push in Hs as [Hs|[-> ->]]; [left; left; eauto|right].
    destruct (Hack i Hk). split; congruence. }
  assert (Ei : forall U b, informed W me r U b -> informed W me (push_message to m r) U b).
  { intros U b [HU Hb]. split; [done|]. intros T i Hk HTU. destruct (Ek _ _ Hk) as [?|[-> _]]; [auto|lia]. }
  split; try done.
  - by apply linked_push_message.
  - destruct Hh as [? ? Hacks ? ? ?]. split; try done. intros T i Hk. destruct (Ek _ _ Hk) as [?|[-> ?]]; [auto|]. by split.
  - intros to' m' Hin. simpl in Hin. apply elem_of_app in Hin as [Hin|Hin]; [auto|].
    apply list_elem_of_singleton in Hin as [= -> ->]. done.
  - intros to' m' Hs Hg. apply says_push in Hs as [Hs|[-> ->]].
    + destruct (Hv to' m' Hs Hg) as (b & m0 & ? & ? & ? & ?). exists b, m0. auto.
    + destruct (Hgr Hg) as (_ & b & m0 & ? & ? & ? & ?). exists b, m0. auto.
  - intros to' m' i t Hs Hb. apply says_push in Hs as [Hs|[-> ->]].
    + destruct (Hq to' m' i t Hs Hb). auto.
    + destruct (Hask i t Hb) as (? & ? & _). auto.
  - intros Hr. destruct (Hc Hr) as [H1 H2 H3]. split; try done. intros to' m' i t Hs Hb Htm.
    apply says_push in Hs as [Hs|[-> ->]]; [by eapply H2|]. destruct (Hask i t Hb) as (_ & _ & H). by apply H.
  - intros Hr. by destruct (Hle Hr).
  - split; [done|]. intros T i Hk HT. destruct (Ek T i Hk) as [?|[-> _]]; [auto|lia].
Qed.

Lemma fit_neutral k r to m : fit k r -> neutral m -> msg_linked V m -> truthful W C leads me to m -> fit k (push_message to m r).
Proof using.
  intros H (Hn & Hg & Ha) Hl Hok. apply fit_push; [done..| | |].
  - intros i Hi. congruence.
  - done.
  - intros i t Hb. destruct Ha. unfold asks. by rewrite Hb.
Qed.

Lemma msg_linked_none t b : body_wf b -> msg_links (mkMessage t b) = [] -> msg_linked V (mkMessage t b).
Proof using. intros Hb E. split; [done|]. rewrite E. by intros x ?%elem_of_nil. Qed.

Lemma fit_send k r to b : fit k r -> neutral (mkMessage (r_term r) b) -> body_wf b -> msg_links (mkMessage (r_term r) b) = [] ->
  truthful W C leads me to (mkMessage (r_term r) b) -> fit k (send to b r).
Proof using. intros. apply fit_neutral; [done..|by apply msg_linked_none|done]. Qed.

(** An acknowledgement of what the log holds up to [p]. *)
Lemma fit_ack k r to b i : fit k r -> ack_index (mkMessage (r_term r) b) = Some i ->
  (exists p, p.1 = i /\ on_chain V (r_term r) p /\ below V p (tip (r_log r))) -> fit k (send to b r).
Proof using.
  intros H Hk (p & Ep & Hp & Hb). unfold ack_index in Hk. simpl in Hk. apply fit_push; [done| | | | |].
  - destruct b; try done; by apply msg_linked_none.
  - unfold truthful. simpl. by destruct b.
  - unfold ack_index. simpl. intros i' Hi'. split; [done|]. exists p. split; [congruence|]. split; [done|].
    intros p' Hp'. left. by eapply below_trans.
  - unfold grants. simpl. by intros ->.
  - simpl. by intros i' t ->.
Qed.

Lemma send_to_peers_ind (P : Raft -> Prop) f r : (forall peer r, peer <> r_id r -> P r -> P (f peer r)) -> P r -> P (send_to_peers f r).
Proof using.
  intros Hf. unfold send_to_peers. generalize (sorted_elements (Config_all_nodes (Log_config (r_log r)))). intros ids.
  revert r. induction ids as [|id ids IH]; intros r Hr; simpl; [done|]. apply IH.
  destruct (Z.eqb_spec id (r_id r)); simpl; auto.
Qed.

(** ** Terms and roles *)

Lemma holds_later acks l tm tm' c cs : tm <= tm' -> holds_log W C acks l tm c cs -> holds_log W C acks l tm' c cs.
Proof using.
  intros Hle [Hp Htm Ha Hb (p & Hp1 & Hp2 & Hp3) Hd]. split; [done|lia| |by eapply committed_later| |].
  - intros T k Hk. destruct (Ha T k Hk) as [? Hcov]. split; [lia|done].
  - exists p. split_and!; [done..|]. by eapply committed_later.
  - intros d Hin. destruct (Hd d Hin) as (q & ? & ? & ?). exists q. split_and!; [done|by eapply committed_later|done].
Qed.

Lemma fit_become_follower k t l r : fit k r -> r_term r <= t -> fit k (become_follower t l r).
Proof using Ht.
  intros H Hle. set (r' := become_follower t l r).
  assert (E : r_id r' = r_id r /\ r_pending r' = r_pending r /\ r_log r' = r_log r /\ r_commit r' = r_commit r /\
    r_applied r' = r_applied r /\ r_term r' = t).
  { unfold r', become_follower. cbv zeta. destruct (Z.ltb_spec (r_term r) t); simpl; split_and!; done || lia. }
  assert (Ep : r_role r' = Follower /\ r_progress r' = ∅) by (unfold r', become_follower; by destruct (r_term r <? t)).
  destruct E as (Eid & Em & El & Ec & Ea & Et), Ep as [Er Ep].
  apply (fit_update k k r r' H); rewrite ?El, ?Et, ?Ec, ?Ea, ?Er, ?Em; try done.
  - apply linked_become_follower, H.
  - apply H.
  - pose proof (ft_log _ _ _ _ _ _ _ H) as Hh. apply (holds_later _ _ (r_term r)); [done|]. destruct Hh as [? ? Hk ? ? ?].
    split; try done. intros T i [(to & m & Hs & ?)|?]; apply Hk; [left; exists to, m|by right].
    unfold says in *. by rewrite <- Em.
  - apply H.
Qed.

Lemma fit_idle_role k v r : fit k r -> r_role r <> Leader -> v = Follower \/ v = PreCandidate -> fit k (set_role v r).
Proof using Ht.
  intros H Hr Hv. assert (Hv' : v <> Leader /\ v <> Candidate) by (by destruct Hv as [-> | ->]). destruct Hv' as [Hv1 Hv2].
  apply (fit_update k k r); try done; [by apply linked_set_role, H|apply H..|]. intros _. by apply (ft_idle _ _ _ _ _ _ _ H).
Qed.

(** A committed position on the branch of the log. *)
Lemma fit_committed k r : fit k r -> exists p, p.1 = r_commit r /\ below V p (tip (r_log r)) /\ committed W C p (r_term r).
Proof using. intros H. apply (hl_commit _ _ _ _ _ _ _ (ft_log _ _ _ _ _ _ _ H)). Qed.

Lemma fit_commit_le k r : fit k r -> r_commit r <= Log_last_index (r_log r).
Proof using Ht.
  intros H. destruct (fit_committed k r H) as (p & <- & Hp & _).
  apply (below_le V Ht) in Hp as [->|?]; simpl in *; lia.
Qed.

(** An index up to the commit index. *)
Lemma fit_committed_at k r c : fit k r -> 0 <= c <= r_commit r ->
  exists p, p.1 = c /\ below V p (tip (r_log r)) /\ committed W C p (r_term r).
Proof using Ht.
  intros H Hc. destruct (fit_committed k r H) as (q & Eq & Hq & Hcq).
  destruct (ancestor_at V Ht q c) as (p & Ep & Hp); [by eapply (below_known V Ht), (tip_known V Ht _ (fit_path k r H))|lia|].
  exists p. split; [done|]. split; [by eapply below_trans|]. by eapply committed_below.
Qed.

Lemma holds_commit acks l tm c c' cs : (exists p, p.1 = c' /\ below V p (tip l) /\ committed W C p tm) ->
  holds_log W C acks l tm c cs -> holds_log W C acks l tm c' cs.
Proof using. intros Hc' []. by split. Qed.

(** Moving the commit index, to a committed position of the log. *)
Lemma fit_set_commit k c r : fit k r -> r_commit r <= c ->
  (exists p, p.1 = c /\ below V p (tip (r_log r)) /\ committed W C p (r_term r)) -> fit k (set_commit c r).
Proof using.
  intros H Hle Hc. pose proof (ft_linked _ _ _ _ _ _ _ H) as Hl. pose proof (lk_commit _ _ _ Hl). pose proof (ft_applied _ _ _ _ _ _ _ H).
  apply (fit_update k k r); try done.
  - apply linked_set_commit; [done|lia].
  - apply H.
  - eapply holds_commit; [exact Hc|]. apply H.
  - simpl. lia.
  - intros Hr. by destruct (ft_candidate _ _ _ _ _ _ _ H Hr).
  - intros Hr. by destruct (ft_leader _ _ _ _ _ _ _ H Hr).
  - apply (ft_idle _ _ _ _ _ _ _ H).
Qed.

Lemma fit_raise_commit k c r : fit k r ->
  (exists p, p.1 = c /\ below V p (tip (r_log r)) /\ committed W C p (r_term r)) -> fit k (raise_commit c r).
Proof using.
  intros H Hc. unfold raise_commit. destruct (Z.ltb_spec (r_commit r) c); [|done].
  apply (level_plain k (set_commit c r)); try done. apply fit_set_commit; [done|lia|done].
Qed.

(** ** The leader *)

Lemma leader_tip k r : fit k r -> r_role r = Leader -> on_chain V (r_term r) (tip (r_log r)).
Proof using.
  intros H Hr. destruct (ld_tip _ _ _ (ft_leader _ _ _ _ _ _ _ H Hr)) as (x & Hx & <- & <-). by apply link_on_chain.
Qed.

Lemma leader_agreed k r c : fit k r -> r_role r = Leader -> 0 <= c <= r_commit r -> agreed W C (r_term r) c.
Proof using Ht.
  intros H Hr Hc. destruct (fit_committed_at k r c H Hc) as (p & ? & ? & ?). exists p. split_and!; [done| |done].
  eapply below_on_chain; [done|]. by eapply leader_tip.
Qed.

(** The commit rule: own term, and a quorum that acknowledged. *)
Lemma fit_advance_commit k r : fit k r -> r_role r = Leader -> fit k (maybe_advance_commit r).
Proof using Ht.
  intros H Hr. unfold maybe_advance_commit. cbv zeta. rewrite (fit_config k r H).
  set (c := Config_quorum_index C (matched_of r)). destruct (Z.leb_spec c (r_commit r)) as [|Hlt]; [done|].
  case_bool_decide as Et; [done|]. apply (level_plain k (set_commit c r)); try done.
  apply fit_set_commit; [done|lia|]. exists (c, r_term r).
  pose proof (fit_path k r H) as Hp. pose proof (term_at_below V Ht _ Hp _ _ Et) as Hb.
  split; [done|]. split; [done|]. right. pose proof (lk_commit _ _ _ (ft_linked _ _ _ _ _ _ _ H)) as Hc0.
  exists (c, r_term r), (filter (fun id => c <= matched_of r id) (voters C ∪ outgoing C)).
  assert (Hk : known V (c, r_term r)) by (eapply (below_known V Ht), (tip_known V Ht _ Hp); done).
  split; [apply below_refl|]. split; [done|]. split; [done|].
  assert (Hne : voters C ∪ outgoing C <> ∅).
  { intros E. apply empty_union_L in E as [E1 E2]. unfold c, Config_quorum_index in Hlt.
    rewrite E1, E2, quorum_of_None in Hlt. lia. }
  split; [by apply quorum_index_le|]. intros i Hi. apply elem_of_filter in Hi as [Hi _].
  destruct Hk as [E|(x & Hx & E)]; injection E as Ei Etx; [lia|]. destruct (ft_leader _ _ _ _ _ _ _ H Hr) as [_ _ _ Hpr Hps].
  unfold matched_of in Hi. rewrite (ft_id _ _ _ _ _ _ _ H) in Hi. destruct (Z.eqb_spec i me) as [Eme|Hne'].
  - rewrite Eme. destruct (Hps x Hx (eq_sym Etx)) as (k' & ? & ?); [lia|]. exists k'. split; [simpl; lia|done].
  - destruct (r_progress r !! i) as [p|] eqn:Ep; [|lia]. pose proof (Hpr i p Hne' Ep) as [_ Hm]. destruct Hm as [Hm|(k' & Hk1 & Hk2)]; [lia|].
    exists k'. split; [simpl; lia|done].
Qed.

(** The end of a slice is on the branch of the log. *)
Lemma slice_end l from to n t : path V l -> snapshot_index l < from -> from <= Log_last_index l + 1 ->
  Log_term_at l (from - 1) = Some t ->
  below V (from - 1 + Z.of_nat (length (take n (Log_slice l from to))), end_term t (take n (Log_slice l from to))) (tip l).
Proof using Ht.
  intros Hp Hf Hfl Hk. pose proof (pa_wf _ _ Hp) as Hw. destruct (slice_contiguous l from to Hw Hf) as (Hc & _ & _).
  set (es := take n (Log_slice l from to)). assert (Hces : contiguous_from from es) by (by apply contiguous_take).
  unfold end_term. destruct (last es) as [e|] eqn:E.
  - assert (Hin : e ∈ entries l).
    { apply last_Some_elem_of in E. unfold es in E. rewrite <- (take_drop n (Log_slice l from to)) in Hc.
      pose proof (slice_sub l from to) as Hs. rewrite Forall_forall in Hs. apply Hs.
      rewrite <- (take_drop n (Log_slice l from to)). apply elem_of_app. by left. }
    apply list_elem_of_lookup in Hin as [j Hj]. pose proof (contiguous_lookup _ _ _ _ (wf_contiguous _ Hw) Hj) as Ei.
    assert (Hg : Log_get l (e_index e) = Some e).
    { rewrite get_lookup by (done || lia). rewrite <- Hj. f_equal. lia. }
    pose proof (get_below_tip V Ht l Hp _ _ Hg) as Hb. unfold pos_of in Hb.
    rewrite (contiguous_last _ _ _ Hces E) in Hb. by replace (from - 1 + Z.of_nat (length es)) with (from + Z.of_nat (length es) - 1) by lia.
  - apply last_None in E. rewrite E. simpl. rewrite Z.add_0_r. by apply term_at_below.
Qed.

(** What a leader does to its followers. *)
Definition heads (k : Z) (r : Raft) : Prop := fit k r /\ r_role r = Leader.

Lemma heads_send_append_to k peer r : heads k r -> heads k (send_append_to peer r).
Proof using Ht.
  intros [H Hr]. split; [|by rewrite (q_role _ _ (quiet_send_append_to peer r))].
  pose proof (linked_send_append_to k V peer r (ft_linked _ _ _ _ _ _ _ H)) as Hlk. revert Hlk.
  unfold send_append_to. destruct (r_progress r !! peer) as [p|] eqn:Ep; [|done].
  destruct (bool_decide _ && _); [done|]. cbv zeta. set (b := p_next p <? _).
  assert (Hsnap : fit k (update_progress peer (set_state PSnapshot) r)).
  { unfold update_progress. rewrite Ep. apply (fit_level k r); [|done]. split; try done. intros j. simpl.
    destruct (decide (peer = j)) as [<-|]; [by rewrite Ep, lookup_insert_eq|rewrite lookup_insert_ne by done; by destruct (r_progress r !! j)]. }
  destruct (Log_term_at _ _) as [t|] eqn:Et; [|done]. unfold b. destruct (Z.ltb_spec (p_next p) (Log_first_index (r_log r))) as [|Hfirst]; [done|].
  clear b Hsnap. pose proof (fit_path k r H) as Hp. pose proof (pa_wf _ _ Hp) as Hw. rewrite first_index_wf in Hfirst by done.
  pose proof (wf_snapshot _ Hw). pose proof (last_index_wf _ Hw). replace (ssub (p_next p) 1) with (p_next p - 1) in * by (unfold ssub; lia).
  set (n := budget_cut _ _ _ _). set (to := Z.min _ _) in *. intros Hlk.
  assert (Hnext : p_next p - 1 <= Log_last_index (r_log r)) by (destruct (term_at_Some _ Hw _ _ Et); lia).
  apply fit_neutral; [done|is_neutral| |].
  - pose proof (lk_msgs _ _ _ Hlk) as Hms. simpl in Hms. apply Forall_app in Hms as [_ Hms]. by apply Forall_cons in Hms as [Hms _].
  - split; simpl.
    + eapply below_on_chain; [|by eapply leader_tip]. apply slice_end; [done|lia|lia|done].
    + pose proof (lk_commit _ _ _ (ft_linked _ _ _ _ _ _ _ H)). eapply leader_agreed; [done..|lia].
Qed.

Lemma heads_fold {A} (f : Raft -> A -> Raft) (xs : list A) k r :
  (forall r x, heads k r -> heads k (f r x)) -> heads k r -> heads k (fold_left f xs r).
Proof using. intros Hf. revert r. induction xs as [|x xs IH]; intros r H; simpl; auto. Qed.

Lemma heads_broadcast k r : heads k r -> heads k (broadcast_append r).
Proof using Ht. apply (send_to_peers_ind (heads k)). intros peer r' _. apply heads_send_append_to. Qed.

Lemma heads_level k r r' : level r r' -> heads k r -> heads k r'.
Proof using. intros L [H Hr]. split; [by eapply fit_level|]. by rewrite (lv_role _ _ L). Qed.

(** ** Elections *)

(** Queueing requests for votes. *)
Lemma fit_ask_peers k r : fit k r -> r_role r = Candidate ->
  fit k (send_to_peers (fun peer => send peer (VoteReq (Log_last_index (r_log r)) (Log_last_term (r_log r)))) r).
Proof using Ht.
  intros H Hr. set (b := tip (r_log r)). change (Log_last_index (r_log r)) with b.1. change (Log_last_term (r_log r)) with b.2.
  assert (Hb : tip (r_log r) = b) by done. clearbody b.
  apply (send_to_peers_ind (fun r' => fit k r' /\ r_role r' = Candidate /\ tip (r_log r') = b)); [|done].
  clear r Hb H Hr. intros peer r' _ (H & Hr & Eb). split; [|done]. unfold send. apply fit_push; [done|by apply msg_linked_none|done|done|discriminate|].
  simpl. intros i t [= <- <-]. rewrite <- surjective_pairing. pose proof (tip_known V Ht _ (fit_path k r' H)) as Hk.
  rewrite Eb in Hk. split; [done|]. split; [|by intros _ _]. split; [done|]. intros T j Hj HT.
  destruct (hl_acks _ _ _ _ _ _ _ (ft_log _ _ _ _ _ _ _ H) _ _ Hj) as [_ Hc].
  apply (covers_weaken W _ (fun p => below V p (tip (r_log r')))); [|done..].
  intros p _ Hp. exists b. rewrite Eb in Hp. split; [done|]. split; [done|]. apply up_to_date_refl.
Qed.

Context (Hlone : Config_has_quorum C {[me]} = false).

Lemma fit_draw k r : fit k r -> fit k (campaign_draw r).
Proof using. intros H. apply (level_plain k r); done. Qed.

Lemma fit_campaign_vote k r : fit k r -> term_room r -> r_role r <> Leader -> fit k (campaign_vote r) /\ r_role (campaign_vote r) = Candidate.
Proof using Ht Hlone.
  intros H Hroom Hrl. unfold campaign_vote. cbv zeta. pose proof (fit_draw k r H) as H1.
  assert (E1 : r_term (campaign_draw r) = r_term r /\ r_role (campaign_draw r) = r_role r /\ r_votes (campaign_draw r) = ∅) by done.
  set (r1 := campaign_draw r) in *. clearbody r1. destruct E1 as (Et1 & Er1 & Ev1). rewrite <- Er1 in Hrl.
  assert (Etm : r_term r1 +64 1 = r_term r1 + 1) by (unfold term_room in Hroom; rewrite Et1; apply wadd64_small; lia).
  set (r2 := set_votes _ _). assert (H2 : fit k r2 /\ r_role r2 = Candidate /\ r_log r2 = r_log r1).
  { split; [|done]. assert (Et2 : r_term r2 = r_term r1 + 1) by exact Etm.
    apply (fit_update k k r1 r2 H1); try done; rewrite ?Et2.
    - lia.
    - pose proof (ft_linked _ _ _ _ _ _ _ H1). unfold r2. auto 10 with links.
    - apply H1.
    - apply (holds_later _ _ (r_term r1)); [lia|apply H1].
    - apply H1.
    - intros _. split; rewrite ?Et2.
      + unfold term_room in Hroom. lia.
      + intros to m i t Hs Hb Htm. destruct (ft_asks _ _ _ _ _ _ _ H1 to m i t Hs Hb) as [_ [HU _]]. lia.
      + intros to m Hs Ha Htm. unfold asks in Ha. destruct (m_body m) eqn:Hb; try done.
        destruct (ft_asks _ _ _ _ _ _ _ H1 to m _ _ (or_introl Hs) Hb) as [_ [HU _]]. lia.
    - intros _. by apply (ft_idle _ _ _ _ _ _ _ H1). }
  assert (Ev2 : r_votes r2 = <[r_id r1 := true]> (r_votes r1)) by done.
  clearbody r2. destruct H2 as (H2 & Er2 & El2). rewrite (fit_config k r2 H2).
  assert (T : tally r2 C = false).
  { unfold tally. rewrite <- Hlone. f_equal. apply set_eq. intros j. rewrite counted, Ev2, Ev1, (ft_id _ _ _ _ _ _ _ H1).
    rewrite lookup_insert_Some, lookup_empty, elem_of_singleton. split; [by intros [[<- _]|[_ ?]]|]. intros ->. by left. }
  rewrite T, <- El2. split; [by apply fit_ask_peers|].
  by destruct (ask_peers (Log_last_index (r_log r2)) (Log_last_term (r_log r2)) r2) as (ms & -> & _).
Qed.

Lemma fit_campaign k b r : fit k r -> term_room r -> r_role r <> Leader -> fit k (campaign b r) /\ r_role (campaign b r) <> Leader.
Proof using Ht Hlone.
  intros H Hroom Hrl. assert (Hvote : forall r, fit k r -> term_room r -> r_role r <> Leader ->
    fit k (campaign_vote r) /\ r_role (campaign_vote r) <> Leader).
  { clear r H Hroom Hrl. intros r H H' H''. destruct (fit_campaign_vote k r H H' H'') as [? E]. by rewrite E. }
  unfold campaign. destruct b; [|by apply Hvote]. cbv zeta. pose proof (fit_draw k r H) as H1.
  assert (E1 : r_term (campaign_draw r) = r_term r /\ r_role (campaign_draw r) = r_role r) by done.
  set (r1 := campaign_draw r) in *. clearbody r1. destruct E1 as (Et1 & Er1). rewrite <- Er1 in Hrl.
  set (r2 := set_votes _ _). assert (H2 : fit k r2 /\ r_role r2 = PreCandidate /\ r_term r2 = r_term r1).
  { split; [|done]. apply (level_plain k (set_role PreCandidate r1)); try done. apply fit_idle_role; auto. }
  clearbody r2. destruct H2 as (H2 & Er2 & Et2). destruct (tally _ _).
  - apply Hvote; [done|unfold term_room in *; lia|by rewrite Er2].
  - apply (send_to_peers_ind (fun r' => fit k r' /\ r_role r' <> Leader)); [|by rewrite Er2].
    intros peer r' _ [H' Hr']. split; [|done]. apply fit_neutral; [done|is_neutral|by apply msg_linked_none|done].
Qed.

Lemma fit_check_quorum k r : heads k r -> fit k (check_quorum r).
Proof using Ht.
  intros H. unfold check_quorum. cbv zeta. set (r1 := set_progress _ r).
  assert (H1 : heads k r1).
  { apply (heads_level k r); [|done]. split; try done. intros j. simpl. rewrite lookup_fmap. by destruct (r_progress r !! j). }
  assert (Et : r_term r1 = r_term r) by done. clearbody r1. set (b := Config_has_quorum _ (dom _)). destruct b.
  - apply (level_plain k r1); try done. apply H1.
  - apply fit_become_follower; [apply H1|lia].
Qed.

Lemma fit_expire k r : fit k r -> fit k (expire_pending_snapshots r).
Proof using Ht.
  intros H. unfold expire_pending_snapshots. cbv zeta. set (r1 := set_progress _ r).
  assert (L : level r r1).
  { split; try done. intros j. simpl. rewrite lookup_fmap. destruct (r_progress r !! j) as [p|]; [|done]. simpl. intros _.
    unfold expire_one. destruct (_ =? 0); [done|]. by destruct (_ <? _). }
  destruct (decide (r_role r = Leader)) as [Hr|Hr].
  - apply (heads_fold _ _ k r1); [intros; by apply heads_send_append_to|]. by apply (heads_level k r).
  - assert (E : filter (fun id => match r_progress r !! id with
        | Some p => (expire_one (Z.max (o_election_ticks (r_opts r)) 1) p).2 | None => false end = true)
      (sorted_keys (r_progress r)) = []).
    { generalize (sorted_keys (r_progress r)). intros ids. induction ids as [|id ids IH]; [done|].
      rewrite filter_cons_False, IH; [done|]. by rewrite (ft_idle _ _ _ _ _ _ _ H Hr), lookup_empty. }
    rewrite E. simpl. by apply (fit_level k r).
Qed.

Lemma fit_tick k rand r : fit k r -> term_room r -> fit k (tick rand r).
Proof using Ht Hlone.
  intros H Hroom. unfold tick. cbv zeta. set (r1 := set_election_elapsed _ _).
  assert (H1 : fit k r1 /\ term_room r1) by (split; [by apply (level_plain k r)|exact Hroom]).
  clearbody r1. destruct H1 as [H1 Hr1].
  assert (Hel : r_role r1 <> Leader -> fit k (if promotable r1 && (r_election_timeout r1 <=? r_election_elapsed r1)
    then start_election r1 else r1)) by (intros ?; destruct (_ && _); [by apply fit_campaign|done]).
  destruct (r_role r1) eqn:Er; try (by apply Hel). clear Hel. apply fit_expire.
  set (r2 := set_quorum_contact_elapsed _ _). assert (H2 : heads k r2).
  { apply (heads_level k r1); [|done]. split; done || reflexivity. }
  clearbody r2. set (r3 := if _ : bool then broadcast_append _ else _).
  assert (H3 : heads k r3).
  { unfold r3. destruct (_ <=? _); [|done]. apply heads_broadcast, (heads_level k r2); [|done]. split; done || reflexivity. }
  clearbody r3. destruct (_ <=? _); [|apply H3]. apply fit_check_quorum, (heads_level k r3); [|done]. split; done || reflexivity.
Qed.

(** ** Votes *)

Lemma fit_pre_vote_req k from pt i t r : fit k r -> fit k (handle_pre_vote_req from pt i t r).
Proof using. intros H. unfold handle_pre_vote_req. cbv zeta. apply fit_neutral; [done|is_neutral|by apply msg_linked_none|done]. Qed.

Lemma fit_pre_vote_resp k from t g r : fit k r -> term_room r -> fit k (handle_pre_vote_resp from t g r).
Proof using Ht Hlone.
  intros H Hroom. unfold handle_pre_vote_resp. case_bool_decide as D; [done|].
  destruct (negb g && (r_term r +64 1 <? t)) eqn:E.
  { apply fit_become_follower; [done|]. apply andb_true_iff in E as [_ E]. apply Z.ltb_lt in E.
    unfold term_room in Hroom. rewrite wadd64_small in E by lia. lia. }
  cbv zeta. set (r1 := set_votes _ r). assert (H1 : fit k r1) by (by apply (level_plain k r)).
  assert (E1 : r_role r1 = PreCandidate /\ term_room r1) by done. clearbody r1. destruct E1 as [Er1 Hr1].
  destruct (tally _ _); [apply fit_campaign; [done..|by rewrite Er1]|].
  destruct (lost _ _); [|done]. apply fit_idle_role; [done|by rewrite Er1|by left].
Qed.

(** A vote is granted to a log that is not behind. *)
Lemma fit_vote_req k from i t r : fit k r ->
  (exists m, (from, me, m) ∈ w_sent W /\ m_body m = VoteReq i t /\ m_term m = r_term r) -> fit k (handle_vote_req from i t r).
Proof using Ht.
  intros H (m0 & Hm0 & Hb0 & Ht0). unfold handle_vote_req. cbv zeta.
  set (can := match r_vote r with None => true | Some v => _ end). clearbody can.
  destruct (can && Log_is_up_to_date (r_log r) t i) eqn:G; [|by apply fit_send; [done|is_neutral|..]].
  apply andb_true_iff in G as [_ G]. apply up_to_date_log in G.
  set (r1 := set_election_elapsed _ _). assert (H1 : fit k r1) by (by apply (level_plain k r)).
  assert (E1 : r_term r1 = r_term r /\ r_log r1 = r_log r) by done. clearbody r1. destruct E1 as [Et El]. rewrite <- El in G. rewrite <- Et in Ht0.
  apply fit_push; [done|by apply msg_linked_none|done|done| |discriminate].
  intros _. split; [done|]. exists (i, t), m0. split_and!; [done..|]. split; [done|]. simpl. intros T j Hj HT.
  destruct (hl_acks _ _ _ _ _ _ _ (ft_log _ _ _ _ _ _ _ H1) _ _ Hj) as [_ Hc].
  apply (covers_weaken W _ (fun p => below V p (tip (r_log r1)))); [|done..].
  intros p _ Hp. exists (tip (r_log r1)). split; [done|]. split; [|done]. apply (tip_known V Ht), (fit_path k r1 H1).
Qed.

(** ** A leader's messages *)

Lemma fit_follow k from r : fit k r -> fit k (follow from r) /\ r_role (follow from r) = Follower /\ r_term (follow from r) = r_term r.
Proof using Ht.
  intros H. destruct (follow_facts from r) as [Er Et]. split; [|done]. unfold follow. cbv zeta.
  set (r1 := if _ : bool then _ else r).
  assert (H1 : fit k r1) by (unfold r1; case_bool_decide; [apply fit_become_follower; [done|lia]|done]).
  clearbody r1. by apply (level_plain k r1).
Qed.

Lemma below_decided p q : known V p -> known V q -> below V p q \/ ~ below V p q.
Proof using Ht.
  intros Hp Hq. destruct (decide (p.1 <= q.1)) as [Hle|Hgt].
  - destruct (ancestor_at V Ht q p.1 Hq) as (p' & E & Hp'); [pose proof (known_bounds V Ht p Hp); lia|].
    destruct (decide (p' = p)) as [->|Hne]; [by left|right]. intros Hb. apply Hne, (below_same_index V Ht); [|lia].
    apply (below_linear V Ht _ _ q); [done..|lia].
  - right. intros [->|?]%(below_le V Ht); lia.
Qed.

Context (Hchain : forall p T x, committed W C p T -> V x -> e_term x.2 = T -> on_chain V T p).

(** Taking over a leader's branch leaves out only what that leader left out. *)
Lemma holds_adopt acks l l' T c cs q : holds_log W C acks l T c cs -> adopts V l l' q -> on_chain V T q ->
  path V l' -> committed W C (base l') T -> holds_log W C acks l' T c cs.
Proof using Ht Hchain.
  intros [Hp Htm Ha Hb Hc Hd] Had Hqc Hp' Hb'. pose proof Hqc as (y & Hy & Ety & Hqy).
  assert (Hkq : known V q) by (by eapply (chain_known V Ht)).
  (* what is left out is not on the branch of [T] *)
  assert (Hgone : forall p, known V p -> below V p (tip l) -> below V p (tip l') \/
    (~ below V p q /\ ~ below V q p)).
  { intros p Hkp Hpl. destruct Had as [[-> _]|[-> Hn]]; [by left|].
    destruct (below_decided p q Hkp Hkq) as [?|Hnp]; [by left|right]. split; [done|]. intros Hqp. by apply Hn, (below_trans V _ p). }
  assert (Hkt : forall p, below V p (tip l) -> known V p) by (intros p Hb0; by apply (below_known V Ht _ _ Hb0), (tip_known V Ht l Hp)).
  assert (Hon : forall p, on_chain V T p -> below V p (tip l) -> below V p (tip l')).
  { intros p Hpc Hpl. destruct (Hgone p (Hkt p Hpl) Hpl) as [?|[H1 H2]]; [done|]. exfalso.
    destruct (Z.le_ge_cases p.1 q.1); [apply H1|apply H2]; by apply (chain_linear V Ht T). }
  split; try done.
  - destruct Had as [[E _]|[E _]]; change (Log_last_term l') with (tip l').2; rewrite E; [done|]. by apply (chain_term V Ht).
  - intros T0 k Hk. destruct (Ha T0 k Hk) as [HT0 (p0 & Ek & Hp0 & Hcov)]. split; [done|]. exists p0. split; [done|]. split; [done|].
    intros p Hpp0. destruct (Hcov p Hpp0) as [Hpl|?]; [|by right]. destruct (Hgone p (Hkt p Hpl) Hpl) as [?|[H1 H2]]; [by left|].
    destruct (decide (T0 = T)) as [->|Hne]; [left; apply Hon; [by apply (below_on_chain V _ p p0)|done]|right].
    exists y. split; [done|]. split; [lia|]. intros Hpy. destruct (Z.le_ge_cases p.1 q.1); [apply H1|apply H2]; by apply (below_linear V Ht _ _ (pos_of y.2)).
  - destruct Hc as (p & Ep & Hpl & Hcp). exists p. split; [done|]. split; [|done]. apply Hon; [by eapply Hchain|done].
  - intros d Hin. destruct (Hd d Hin) as (p & Ep & Hcp & Hpl). exists p. split; [done|]. split; [done|].
    destruct Had as [[-> _]|[-> _]]; [done|]. assert (Hpc : on_chain V T p) by (by eapply Hchain).
    destruct (Z.le_ge_cases p.1 q.1); [left|right]; by apply (chain_linear V Ht T).
Qed.

Lemma adopts_below l l' q : adopts V l l' q -> below V q (tip l').
Proof using. intros [[-> ?]|[-> _]]; [done|apply below_refl]. Qed.

(** A follower, with the log [l'] of its leader. *)
Lemma fit_set_log k r l' q : fit k r -> r_role r = Follower -> adopts V (r_log r) l' q -> on_chain V (r_term r) q ->
  path V l' -> base l' = base (r_log r) -> log_fixed C l' -> fit 0 (set_log l' r).
Proof using Ht Hchain.
  intros H Hr Had Hq Hp Eb Hf. pose proof (hl_base _ _ _ _ _ _ _ (ft_log _ _ _ _ _ _ _ H)) as Hb. rewrite <- Eb in Hb. pose proof (ft_linked _ _ _ _ _ _ _ H) as Hl. pose proof Hp as [Hw Hz Hx _].
  assert (Hl' : linked 0 V (set_log l' r)).
  { eapply (linked_set_log Hl); [done| |done|done]. pose proof (last_index_wf _ Hw). pose proof (wf_room _ Hw). lia. }
  apply (fit_update k 0 r); try done; simpl; rewrite ?Hr; try done.
  - eapply holds_adopt; [apply (ft_log _ _ _ _ _ _ _ H)|done..].
  - injection Eb as -> _. apply H.
  - intros _. apply (ft_idle _ _ _ _ _ _ _ H). by rewrite Hr.
Qed.

Lemma fit_handle_append k from pi pt es c r : fit k r -> body_wf (AppendReq pi pt es c) -> Forall ordinary es ->
  (forall x, x ∈ chain pt es -> V x) -> on_chain V (r_term r) (pi + Z.of_nat (length es), end_term pt es) ->
  agreed W C (r_term r) c -> 0 <= k -> fit 0 (handle_append from pi pt es c r).
Proof using Ht Hchain.
  intros H (Hpi & Hes & Hlen) Hord Hx Hq (pc & Epc & Hpc & Hcc) Hk. destruct (fit_follow k from r H) as (H1 & Er & Et).
  unfold handle_append. cbv zeta. set (r1 := follow from r) in *. clearbody r1. rewrite <- Et in Hq, Hpc, Hcc.
  pose proof (fit_path k r1 H1) as Hp. set (q := (_, _)) in Hq.
  assert (H0 : fit 0 r1) by (by apply (fit_weaken k)).
  destruct (Z.ltb_spec pi (snapshot_index (r_log r1))) as [|Hsn].
  { apply fit_ack with (snapshot_index (r_log r1)); [done..|]. exists (base (r_log r1)). split; [done|].
    split; [|by apply (base_tip V)]. destruct Hq as (y & Hy & Ety & _). apply (Hchain _ _ y); [|done..].
    apply (ft_log _ _ _ _ _ _ _ H1). }
  destruct (Log_term_at (r_log r1) pi) as [t|] eqn:Etm; [|by apply fit_send; [done|is_neutral|..]].
  destruct (Z.eqb_spec t pt) as [->|]; [|by apply fit_send; [done|is_neutral|..]].
  destruct (Log_merge (r_log r1) pi es) as [log last_new] eqn:M.
  assert (El : log = Log_merge_loop (r_log r1) es) by (rewrite <- (merge_fst _ pi); by rewrite M).
  assert (En : last_new = q.1) by (unfold q; simpl; rewrite <- (merge_last_new (r_log r1) pi es Hes); by rewrite M).
  destruct (merge_path V (r_log r1) Hp pi pt es Hsn Etm Hes Hlen Hx) as [Hp' Eb].
  pose proof (merge_adopts V Ht (r_log r1) Hp pi pt es Hsn Etm Hes Hlen Hx) as Had. fold q in Had. rewrite <- El in *.
  assert (H2 : fit 0 (set_log log r1)).
  { eapply fit_set_log; [done..|]. rewrite El. apply fixed_merge; [apply H1|done]. }
  pose proof (adopts_below _ _ _ Had) as Hql.
  set (r2 := set_log log r1) in *. assert (E2 : r_log r2 = log /\ r_term r2 = r_term r1) by done. clearbody r2.
  set (r3 := match es with [] => r2 | _ => _ end).
  assert (H3 : fit 0 r3) by (unfold r3; destruct es; [done|by apply (level_plain 0 r2)]).
  assert (E3 : r_log r3 = log /\ r_term r3 = r_term r1) by (unfold r3; by destruct es). clearbody r3. destruct E3 as [El3 Et3].
  set (r4 := raise_commit _ r3). assert (H4 : fit 0 r4).
  { apply fit_raise_commit; [done|]. rewrite El3, Et3, En. destruct (Z.le_ge_cases c q.1).
    - exists pc. split; [lia|]. split; [|done]. eapply below_trans; [|exact Hql]. apply (chain_linear V Ht (r_term r1)); done || lia.
    - exists q. split; [lia|]. split; [done|]. eapply committed_below; [done| |exact Hcc].
      apply (chain_linear V Ht (r_term r1)); done || lia. }
  assert (E4 : r_log r4 = log /\ r_term r4 = r_term r1) by (unfold r4, raise_commit; by destruct (_ <? _)). clearbody r4. destruct E4 as [El4 Et4].
  pose proof (fit_commit_le 0 r4 H4). destruct (Z.ltb_spec (Log_last_index (r_log r4)) (r_commit r4)); [lia|].
  apply fit_ack with last_new; [done..|]. exists q. split; [done|]. by rewrite El4, Et4.
Qed.

Lemma fit_handle_snapshot k from s r : fit k r -> body_wf (SnapshotReq s) -> sn_config s = C ->
  on_chain V (r_term r) (sn_last_index s, sn_last_term s) -> committed W C (sn_last_index s, sn_last_term s) (r_term r) ->
  0 <= k -> fit 0 (handle_snapshot from s r).
Proof using Ht Hchain.
  intros H Hs Hcfg Hq Hcq Hk. destruct (fit_follow k from r H) as (H1 & Er & Et). simpl in Hs.
  unfold handle_snapshot. cbv zeta. set (r1 := follow from r) in *. clearbody r1. rewrite <- Et in Hq, Hcq. set (q := (_, _)) in Hq, Hcq.
  pose proof (fit_path k r1 H1) as Hp. assert (H0 : fit 0 r1) by (by apply (fit_weaken k)).
  destruct (Z.leb_spec (sn_last_index s) (r_commit r1)) as [|Hlt].
  { apply fit_ack with (r_commit r1); [done..|]. destruct (fit_committed k r1 H1) as (p & Ep & Hpl & Hcp).
    exists p. split; [done|]. split; [|done]. destruct Hq as (y & Hy & Ety & _). by apply (Hchain _ _ y). }
  pose proof (lk_commit _ _ _ (ft_linked _ _ _ _ _ _ _ H1)) as Hc0.
  destruct (ft_applied _ _ _ _ _ _ _ H1) as [Hs1 Ha1]. set (l' := Log_install_snapshot (r_log r1) s).
  destruct (install_adopts V Ht (r_log r1) Hp s) as [Had Eb]; [lia|]. fold l' q in Had, Eb.
  assert (Hp' : path V l') by (apply install_path; [done..|by eapply (chain_known V Ht)|lia]).
  set (r2 := set_hard_state_dirty true _). assert (H2 : fit 0 r2).
  { assert (Ec : r_commit r2 = sn_last_index s) by (unfold r2; simpl; lia).
    pose proof (ft_linked _ _ _ _ _ _ _ H1) as Hl. pose proof Hp' as [Hw Hz Hx _].
    apply (fit_update k 0 r1); rewrite ?Ec; try done; simpl; rewrite ?Er; try done.
    - apply linked_set_hard_state_dirty, linked_set_applied, linked_set_commit; [|lia].
      eapply (linked_set_log Hl); [done| |done|done]. pose proof (last_index_wf _ Hw). pose proof (wf_room _ Hw). lia.
    - apply fixed_install; [apply H1|done].
    - apply (holds_commit _ _ _ (r_commit r1)).
      + exists q. split; [done|]. split; [by eapply adopts_below|done].
      + eapply holds_adopt; [apply (ft_log _ _ _ _ _ _ _ H1)|done..|by rewrite Eb].
    - injection Eb as -> _. lia.
    - intros _. apply (ft_idle _ _ _ _ _ _ _ H1). by rewrite Er. }
  assert (E2 : r_log r2 = l' /\ r_term r2 = r_term r1) by done. clearbody r2. destruct E2 as [El2 Et2].
  set (r3 := supersede_pending s _). assert (H3 : fit 0 r3) by (by apply (level_plain 0 r2)).
  assert (E3 : r_log r3 = l' /\ r_term r3 = r_term r1) by done. clearbody r3. destruct E3 as [El3 Et3].
  apply fit_ack with (sn_last_index s); [done..|]. exists q. split; [done|]. rewrite El3, Et3. split; [done|]. by eapply adopts_below.
Qed.

Context (Hafter : forall p T x, committed W C p T -> V x -> T < e_term x.2 -> below V p (pos_of x.2)).

Lemma fit_heartbeat k from c x r : fit k r -> agreed W C (r_term r) c ->
  (c = 0 \/ exists i, c <= i /\ acked W me (r_term r) i) -> fit k (handle_heartbeat from c x r).
Proof using Ht Hafter.
  intros H Hag Hc. destruct (fit_follow k from r H) as (H1 & Er & Et). unfold handle_heartbeat. cbv zeta.
  set (r1 := follow from r) in *. clearbody r1. rewrite <- Et in Hag, Hc. pose proof (fit_path k r1 H1) as Hp.
  assert (Hpos : exists p, p.1 = c /\ below V p (tip (r_log r1)) /\ committed W C p (r_term r1)).
  { destruct Hc as [->|(i & Hi & Hack)].
    - exists root. split; [done|]. split; [by apply (root_below V Ht), (tip_known V Ht)|apply committed_root].
    - destruct Hag as (pc & Epc & Hpc & Hcc). exists pc. split; [done|]. split; [|done].
      assert (Hak : acking W me r1 (r_term r1) i).
      { destruct Hack as [(to & m & ? & ?)|?]; [left; exists to, m; split; [by left|done]|by right]. }
      destruct (hl_acks _ _ _ _ _ _ _ (ft_log _ _ _ _ _ _ _ H1) _ _ Hak) as (_ & p0 & E0 & Hp0 & Hcov).
      destruct (Hcov pc) as [?|(y & Hy & Hty & Hn)]; [|done|by destruct Hn; eapply Hafter].
      apply (chain_linear V Ht (r_term r1)); done || lia. }
  assert (Hle : c <= Log_last_index (r_log r1)).
  { destruct Hpos as (p & <- & Hb & _). apply (below_le V Ht) in Hb as [->|?]; simpl in *; lia. }
  rewrite Z.min_l by done. pose proof (fit_raise_commit k c r1 H1 Hpos) as H2. set (r2 := raise_commit c r1) in *. clearbody r2.
  apply fit_send; [done|is_neutral|done..].
Qed.

(** ** What the leader hears *)

Lemma heads_set_progress k m r : heads k r -> (forall j p, j <> me -> m !! j = Some p ->
    0 <= p_matched p /\ (p_matched p = 0 \/ exists i, p_matched p <= i /\ acked W j (r_term r) i)) -> heads k (set_progress m r).
Proof using.
  intros [H Hr] Hm. split; [|done]. apply (fit_update k k r); try done; simpl; try (by rewrite Hr); try apply H.
  - apply linked_set_progress, H.
  - intros _. destruct (ft_leader _ _ _ _ _ _ _ H Hr). by split.
Qed.

(** One slot, at an index its owner has acknowledged. *)
Lemma heads_slot k from p r : heads k r ->
  (from <> me -> 0 <= p_matched p /\ (p_matched p = 0 \/ exists i, p_matched p <= i /\ acked W from (r_term r) i)) ->
  heads k (set_progress (<[from := p]> (r_progress r)) r).
Proof using.
  intros H Hp. apply heads_set_progress; [done|]. intros j q Hj [[<- <-]|[_ Hq]]%lookup_insert_Some; [auto|].
  destruct H as [H Hr]. by apply (ld_progress _ _ _ (ft_leader _ _ _ _ _ _ _ H Hr) j).
Qed.

Lemma heads_old k from p r : heads k r -> r_progress r !! from = Some p -> from <> me ->
  0 <= p_matched p /\ (p_matched p = 0 \/ exists i, p_matched p <= i /\ acked W from (r_term r) i).
Proof using. intros [H Hr] Hp Hf. by apply (ld_progress _ _ _ (ft_leader _ _ _ _ _ _ _ H Hr)). Qed.

Lemma heads_advance_commit k r : heads k r -> heads k (maybe_advance_commit r).
Proof using Ht.
  intros [H Hr]. split; [by apply fit_advance_commit|]. unfold maybe_advance_commit. cbv zeta.
  destruct (_ <=? _); [done|]. by case_bool_decide.
Qed.

Lemma fit_append_resp k from s mi ci ct r : fit k r -> (s = true -> acked W from (r_term r) mi) ->
  fit k (handle_append_resp from s mi ci ct r).
Proof using Ht.
  intros H Hack. unfold handle_append_resp. case_bool_decide as Hr; [done|]. cbv zeta.
  destruct (r_progress r !! from) as [p|] eqn:Ep; [|done]. assert (Hh : heads k r) by done. destruct s.
  - set (p' := if p_matched p <=? mi then _ else _). set (r1 := set_progress _ r).
    assert (H1 : heads k r1).
    { apply heads_slot; [done|]. intros Hf. pose proof (heads_old k from p r Hh Ep Hf) as Ho. unfold p'.
      destruct (Z.leb_spec (p_matched p) mi); [|done]. simpl. split; [lia|right]. exists mi. split; [lia|auto]. }
    clearbody r1. apply heads_advance_commit in H1. set (r2 := maybe_advance_commit r1) in *. clearbody r2.
    destruct (match r_progress r2 !! from with Some _ => _ | None => _ end); [|apply H1]. by apply heads_send_append_to.
  - apply heads_send_append_to, heads_slot; [done|]. intros Hf. by apply (heads_old k from p r).
Qed.

Lemma fit_snapshot_resp k from s i r : fit k r -> (s = true -> acked W from (r_term r) i) -> fit k (handle_snapshot_resp from s i r).
Proof using Ht.
  intros H Hack. unfold handle_snapshot_resp. case_bool_decide as Hr; [done|].
  destruct (r_progress r !! from) as [p|] eqn:Ep; [|done]. assert (Hh : heads k r) by done. destruct s; cbv zeta.
  - apply heads_advance_commit, heads_slot; [done|]. intros Hf. destruct (heads_old k from p r Hh Ep Hf) as [H0 Hm]. simpl.
    split; [lia|]. destruct (Z.max_spec (p_matched p) i) as [[_ ->]|[_ ->]]; [right; exists i; split; [lia|auto]|done].
  - apply heads_slot; [done|]. intros Hf. by apply (heads_old k from p r).
Qed.

Lemma level_update_progress id f r : (forall p, id <> me -> p_matched (f p) = p_matched p) -> level r (update_progress id f r).
Proof using.
  intros Hf. unfold update_progress. destruct (r_progress r !! id) as [p|] eqn:Ep; [|by split].
  split; try done. intros j. simpl. destruct (decide (id = j)) as [<-|].
  - rewrite Ep, lookup_insert_eq. intros Hj. by apply Hf.
  - rewrite lookup_insert_ne by done. by destruct (r_progress r !! j).
Qed.

Lemma fit_heartbeat_resp k from x r : fit k r -> fit k (handle_heartbeat_resp from x r).
Proof using Ht.
  intros H. unfold handle_heartbeat_resp. case_bool_decide; [done|]. cbv zeta.
  assert (H1 : fit k (update_progress from (set_active true) r)) by (eapply fit_level; [by apply level_update_progress|done]).
  set (r1 := update_progress _ _ r) in *. clearbody r1. by destruct (map _ _); apply (level_plain k r1).
Qed.

(** ** The other inputs *)

Lemma fit_read_index k r : fit k r -> fit k (read_index r).2.
Proof using Ht.
  intros H. unfold read_index. case_bool_decide as Hr; [done|]. destruct (negb _); [done|]. cbv zeta.
  assert (H1 : heads k (set_read_ctx (r_read_ctx r +64 1) r)) by (split; [by apply (level_plain k r)|done]).
  set (r1 := set_read_ctx _ r) in *. clearbody r1. set (b := Config_has_quorum _ {[ _ ]}). destruct b; cbn [snd].
  { apply (level_plain k r1); try done. apply H1. }
  set (r2 := set_pending_reads _ r1). assert (H2 : heads k r2) by (split; [apply (level_plain k r1); try done; apply H1|apply H1]).
  clearbody r2. apply (send_to_peers_ind (heads k)); [|done]. clear H1 r2 H2 Hr H. intros peer r' Hne [H Hr].
  pose proof (lk_commit _ _ _ (ft_linked _ _ _ _ _ _ _ H)). rewrite (ft_id _ _ _ _ _ _ _ H) in Hne.
  split; [|done]. apply fit_send; [done|is_neutral|done..|]. unfold truthful. simpl.
  destruct (r_progress r' !! peer) as [p|] eqn:Ep.
  - destruct (ld_progress _ _ _ (ft_leader _ _ _ _ _ _ _ H Hr) peer p Hne Ep) as [Hm0 Hm].
    split; [eapply leader_agreed; [done..|lia]|]. destruct Hm as [->|(i & ? & ?)]; [left; lia|right]. exists i. split; [lia|done].
  - split; [eapply leader_agreed; [done..|lia]|left; lia].
Qed.

Lemma fit_transfer k target r : fit k r -> (r_role r = Leader -> leads me (r_term r)) -> fit k (transfer_leadership target r).2.
Proof using.
  intros H Hl. unfold transfer_leadership. destruct (bool_decide (r_role r <> Leader)) eqn:Hr; [done|]. simpl.
  apply bool_decide_eq_false in Hr. destruct (Z.eqb_spec target (r_id r)) as [|Hne]; [done|]. destruct (negb _); [done|]. simpl.
  rewrite (ft_id _ _ _ _ _ _ _ H) in Hne. apply fit_send; [done|is_neutral|done..|]. unfold truthful. simpl. split; [done|].
  apply Hl. by apply dec_stable.
Qed.

Lemma fit_step_down k r : fit k r -> fit k (step_down r).
Proof using Ht. intros H. unfold step_down. case_bool_decide; [apply fit_become_follower; [done|lia]|done]. Qed.

Lemma fit_compact data k r : fit k r -> 0 <= k ->
  fit 0 (match snapshot_at_applied data r with Some s => compact s r | None => r end).
Proof using Ht.
  intros H Hk. assert (H0 : fit 0 r) by (by apply (fit_weaken k)). unfold snapshot_at_applied.
  destruct (Log_term_at _ _) as [t|] eqn:Et; [|done]. unfold compact. simpl. rewrite (fit_config k r H).
  pose proof (fit_path k r H) as Hp. pose proof (ft_applied _ _ _ _ _ _ _ H) as [Hs Ha].
  set (l' := Log_compact_through _ _ _ _). assert (Hp' : path V l') by (by apply path_compact).
  assert (Etip : tip l' = tip (r_log r)) by (by apply (tip_compact V)).
  assert (Hb : (base l' = base (r_log r)) \/ base l' = (r_applied r, t)).
  { destruct (Z.le_gt_cases (r_applied r) (snapshot_index (r_log r))); [left|right; by apply (base_compact V); [|lia|]].
    unfold l', Log_compact_through. by rewrite (proj2 (Z.leb_le _ _)). }
  assert (Hcb : committed W C (base l') (r_term r)).
  { destruct Hb as [->| ->]; [apply (ft_log _ _ _ _ _ _ _ H)|].
    pose proof (term_at_below V Ht _ Hp _ _ Et) as Hb. pose proof (lk_commit _ _ _ (ft_linked _ _ _ _ _ _ _ H)).
    destruct (fit_committed k r H) as (p & Ep & Hpl & Hcp).
    eapply committed_below; [done| |exact Hcp]. apply (below_linear V Ht _ _ (tip (r_log r))); [done..|simpl; lia]. }
  pose proof (ft_linked _ _ _ _ _ _ _ H) as Hl. pose proof Hp' as [Hw Hz Hx _].
  assert (Hlast : Log_last_index l' = Log_last_index (r_log r)) by exact (f_equal fst Etip).
  apply (fit_update k 0 r); try done; simpl.
  - eapply (linked_set_log Hl); [done| |done|done]. pose proof (last_index_wf _ Hw). pose proof (wf_room _ Hw). lia.
  - apply fixed_compact, H.
  - destruct (ft_log _ _ _ _ _ _ _ H) as [? Htm Hk' Hb' Hc' Hd']. split; try done; rewrite ?Etip; try done.
    change (Log_last_term l') with (tip l').2. by rewrite Etip.
  - destruct Hb as [[= -> _]|[= -> _]]; lia.
  - intros Hr. destruct (ft_candidate _ _ _ _ _ _ _ H Hr) as [H1 H2 H3]. split; simpl; rewrite ?Etip, ?Hlast; try done.
  - intros Hr. destruct (ft_leader _ _ _ _ _ _ _ H Hr) as [H1 H2 H2' H3 H4]. split; simpl; rewrite ?Etip, ?Hlast; try done.
  - apply (ft_idle _ _ _ _ _ _ _ H).
Qed.

(** A snapshot of the leader's log, up to its commit index. *)
Lemma fit_send_snapshot k peer s r : fit k r -> r_role r = Leader -> sn_last_index s <= r_commit r ->
  Log_term_at (r_log r) (sn_last_index s) = Some (sn_last_term s) -> body_wf (SnapshotReq s) -> fit k (send_snapshot peer s r).
Proof using Ht.
  intros H Hr Hc Et Hs. unfold send_snapshot.
  pose proof (level_update_progress peer (fun p => mkProgress (p_next p) (p_matched p) PSnapshot (sn_last_index s) 0 (p_active p)) r ltac:(done)) as L.
  set (r1 := update_progress _ _ r) in *. clearbody r1. assert (H1 : fit k r1) by (by eapply fit_level).
  rewrite <- (lv_log _ _ L) in Et. rewrite <- (lv_commit _ _ L) in Hc. rewrite <- (lv_role _ _ L) in Hr. clear L H r.
  pose proof (fit_path k r1 H1) as Hp. pose proof (term_at_below V Ht _ Hp _ _ Et) as Hb.
  apply fit_send; [done|is_neutral|done..|]. unfold truthful. simpl. split; [eapply below_on_chain, leader_tip; done|].
  destruct (fit_committed k r1 H1) as (p & Ep & Hpl & Hcp).
  eapply committed_below; [done| |exact Hcp]. apply (below_linear V Ht _ _ (tip (r_log r1))); [done..|simpl; lia].
Qed.
End Node.
