(* ===== verification/NodeStep.v ===== *)
(** * A node in a growing world

    The invariant of [NodeSafety.v] holds on in every larger world, as long as the
    node's own messages are not among the new ones; and every input preserves it,
    in the world as it was or, when the node leads after it, in the world with the
    one link it made ([fares]). *)

From Stdlib Require Import ZArith Lia.
From stdpp Require Import base tactics functions relations list list_numbers gmap sets sorting.
From S2P Require Import Prelude Codec Types RaftLog Msg RaftState Raft RaftNode RaftCommit Cluster RaftTypes LogMatching Ancestry Commitment NodeSafety.

Open Scope Z_scope.

(** ** Larger worlds *)

Section Grow.
Context (C : Config) (leads leads' : NodeId -> Term -> Prop) (me : NodeId) (fr : Frame) (W W' : World).
Context (E : extends W W') (Ht : tree (link_in W)) (Ht' : tree (link_in W')) (El : forall i T, leads i T -> leads' i T).

Lemma truthful_extends from to m : truthful W C leads from to m -> truthful W' C leads' from to m.
Proof using E El.
  pose proof (fun T p => chain_grow _ _ (ex_made _ _ E) T p) as Hch.
  assert (Hag : forall T c, agreed W C T c -> agreed W' C T c).
  { intros T c (p & ? & ? & ?). exists p. split_and!; [done|auto|]. by apply (committed_extends W). }
  unfold truthful. destruct (m_body m); try done.
  - intros [? ?]. auto.
  - intros [? ?]. split; [auto|by apply (committed_extends W)].
  - intros [? [?|(k & ? & ?)]]; (split; [auto|]); [by left|right]. exists k. split; [done|]. by apply (acked_extends W).
  - intros [? ?]. auto.
Qed.

Lemma path_extends l : path (link_in W) l -> path (link_in W') l.
Proof using E. intros []. split; try done; [intros; by apply E; auto|]. by apply (known_grow _ _ (ex_made _ _ E)). Qed.

Lemma made_extends : w_made W ⊆ w_made W'.
Proof using E. intros x. apply (ex_made _ _ E). Qed.

Lemma holds_extends (acks acks' : Term -> Index -> Prop) l tm c cs : (forall T k, acks' T k -> acks T k) ->
  holds_log W C acks l tm c cs -> holds_log W' C acks' l tm c cs.
Proof using E Ht Ht'.
  intros Hk [? ? Ha ? (p & Hp1 & Hp2 & Hp3) Hd]. split; [by apply path_extends|done| |by apply (committed_extends W)| |].
  - intros T k HT%Hk. destruct (Ha T k HT) as [? Hcov]. split; [done|]. revert Hcov.
    apply covers_extends; [done..| |apply made_extends|done]. intros q _. by apply below_extends.
  - exists p. split_and!; [done|by apply (below_extends W)|by apply (committed_extends W)].
  - intros d Hin. destruct (Hd d Hin) as (q & ? & ? & Hq). exists q. split_and!; [done|by apply (committed_extends W)|].
    destruct Hq; [left|right]; by apply (below_extends W).
Qed.

Context (Hsent : forall to m, (me, to, m) ∈ w_sent W' -> (me, to, m) ∈ w_sent W).
Context (Hheld : forall T k, (me, T, k) ∈ w_held W' -> (me, T, k) ∈ w_held W).

Lemma says_shrink r to m : says W' me r to m -> says W me r to m.
Proof using Hsent. intros [?|?]; [left; auto|by right]. Qed.

Lemma acking_shrink r T k : acking W' me r T k -> acking W me r T k.
Proof using Hsent Hheld. intros [(to & m & ?%says_shrink & ?)|?]; [left; by exists to, m|right; auto]. Qed.

Lemma informed_extends r U b : informed W me r U b -> informed W' me r U b.
Proof using E Ht Ht' Hsent Hheld.
  intros [HU Hb]. split; [done|]. intros T k Hk%acking_shrink HT. pose proof (Hb T k Hk HT) as Hc. revert Hc.
  apply covers_extends; [done..| |apply made_extends|done]. intros p _. by apply votes_for_extends.
Qed.

Lemma fit_extends k r : (r_role r = Leader -> forall x, link_in W' x -> e_term x.2 = r_term r -> link_in W x) ->
  fit C leads me fr W k r -> fit C leads' me fr W' k r.
Proof using E Ht Ht' El Hsent Hheld.
  intros Hnew [Hid Hf Hl Hh Ha Hm Hv Hq Hc Hle Hi Hpd [HT0 HA0]]. split; try done.
  - by apply (linked_weaken Hl); [|apply (ex_made _ _ E)].
  - revert Hh. apply holds_extends. intros T i. apply acking_shrink.
  - intros to m Hin. by apply truthful_extends, Hm.
  - intros to m Hs%says_shrink Hg. destruct (Hv to m Hs Hg) as (b & m' & ? & ? & ? & ?). exists b, m'.
    split; [by apply (ex_sent _ _ E)|]. split_and!; [done..|]. by apply informed_extends.
  - intros to m i t Hs%says_shrink Hb. destruct (Hq to m i t Hs Hb). split; [by apply (known_grow _ _ (ex_made _ _ E))|].
    by apply informed_extends.
  - intros Hr. destruct (Hc Hr) as [H1 H2 H3]. split; try done.
    + intros to m i t Hs%says_shrink. by apply H2 with to.
    + intros to m Hs%Hsent. by apply H3 with to.
  - intros Hr. specialize (Hnew Hr). destruct (Hle Hr) as [(x & H1 & ?) H2 H2' H3 H4]. split; try done.
    + exists x. split; [by apply E|done].
    + intros y Hy Ey. apply H2; auto.
    + intros j p Hj Hp. destruct (H3 j p Hj Hp) as [? [?|(i & ? & ?)]]; (split; [done|]); [by left|right].
      exists i. split; [done|]. by apply (acked_extends W).
    + intros y Hy Ey Hyp. destruct (H4 y) as (i & ? & ?); [auto..|]. exists i. split; [done|]. by apply (acked_extends W).
  - split; [done|]. intros T i ?%acking_shrink. auto.
Qed.
End Grow.

(** ** A leader's own entries *)

(** [W'] is [W] with the link [x]. *)
Record grows (W W' : World) (x : Link) : Prop := {
  gr_made y : link_in W' y <-> link_in W y \/ y = x;
  gr_sent : w_sent W' = w_sent W;
  gr_held : w_held W' = w_held W
}.

Lemma grows_extends W W' x : grows W W' x -> extends W W'.
Proof. intros []. split; [naive_solver|by rewrite gr_sent0|by rewrite gr_held0]. Qed.

(** What an input leads to, from the log [l]: a fitting node, or a leader that
    fits in the world with the link it made. *)
Definition fares (C : Config) (leads : NodeId -> Term -> Prop) (me : NodeId) (fr : Frame) (W : World) (l : Log) (r' : Raft) : Prop :=
  fit C leads me fr W 0 r' \/
  exists kind, r_role r' = Leader /\ fresh (r_term r') l kind ∈ links (r_log r') /\
    forall W', grows W W' (fresh (r_term r') l kind) -> tree (link_in W') /\ fit C leads me fr W' 0 r'.

Section Own.
Context (C : Config) (leads : NodeId -> Term -> Prop) (me : NodeId) (fr : Frame) (W : World) (Ht : tree (link_in W)).
Abbreviation V := (link_in W).
Abbreviation fit := (fit C leads me fr W).
Abbreviation fares := (fares C leads me fr W).

Lemma fares_fit l k r : 0 <= k -> fit k r -> fares l r.
Proof using. intros Hk H. left. by apply (fit_weaken C leads me fr W k). Qed.

(** The one entry a leader appends: [r2] is [r] with it, and leads. *)
Lemma fares_append r r2 kind : fit 1 r -> r_id r2 = r_id r -> r_pending r2 = r_pending r -> r_term r2 = r_term r ->
  r_log r2 = Log_append (r_log r) [mkEntry (r_term r) (Log_last_index (r_log r) + 1) kind] ->
  r_commit r2 = r_commit r -> r_applied r2 = r_applied r -> r_persisted r2 = r_persisted r -> r_role r2 = Leader ->
  is_config_entry (mkEntry 0 0 kind) = false -> 1 <= r_term r -> r_persisted r <= Log_last_index (r_log r) ->
  (forall y, V y -> e_term y.2 = r_term r -> e_index y.2 <= Log_last_index (r_log r) /\ below V (pos_of y.2) (tip (r_log r))) ->
  (forall p, committed W C p (r_term r) -> below V p (tip (r_log r))) ->
  (forall j p, j <> me -> r_progress r2 !! j = Some p ->
     0 <= p_matched p /\ (p_matched p = 0 \/ exists i, p_matched p <= i /\ acked W j (r_term r) i)) ->
  (forall y, V y -> e_term y.2 = r_term r -> e_index y.2 <= r_persisted r -> exists i, e_index y.2 <= i /\ acked W me (r_term r) i) ->
  forall W', grows W W' (fresh (r_term r) (r_log r) kind) ->
    tree (link_in W') /\ heads C leads me fr W' 0 r2.
Proof using Ht.
  intros H Eid Em Et El Ec Ea Eps Er Hkind Hterm Hclamp Hfr Hcm Hpr Hps W' G. pose proof (grows_extends _ _ _ G) as E.
  pose proof (fit_path C leads me fr W 1 r H) as Hp. set (x := fresh _ _ _) in *.
  set (e := mkEntry (r_term r) (Log_last_index (r_log r) + 1) kind) in *.
  assert (Ht' : tree (link_in W')).
  { apply (tree_extend V _ x); try done.
    - apply (ex_made _ _ E).
    - apply G. by right.
    - intros y Hy. by apply G.
    - unfold x. simpl. replace (_ + 1 - 1) with (Log_last_index (r_log r)) by lia. by apply (tip_known V Ht).
    - apply (hl_term _ _ _ _ _ _ _ (ft_log _ _ _ _ _ _ _ H)).
    - unfold x. simpl. intros y Hy Ey. replace (_ + 1 - 1) with (Log_last_index (r_log r)) by lia.
      destruct (Hfr y Hy Ey). split; [lia|done]. }
  split; [done|]. split; [|done].
  assert (Hx : link_in W' x) by (apply G; by right).
  set (r0 := set_role Follower (set_progress ∅ r)).
  assert (H0 : NodeSafety.fit C leads me fr W' 1 r0).
  { apply (fit_extends C leads leads me fr W W'); try done.
    - intros to m. by rewrite (gr_sent _ _ _ G).
    - intros T i. by rewrite (gr_held _ _ _ G).
    - apply (fit_update C leads me fr W 1 1 r); try done.
      + apply linked_set_role, linked_set_progress, H.
      + apply H.
      + apply (ft_log _ _ _ _ _ _ _ H).
      + apply H. }
  pose proof (fit_path C leads me fr W' 1 r0 H0) as Hp'. change (r_log r0) with (r_log r) in Hp'.
  pose proof (lk_room _ _ _ (ft_linked _ _ _ _ _ _ _ H)) as Hroom.
  assert (Hp2 : path (link_in W') (r_log r2)) by (rewrite El; by eapply path_append).
  assert (Etip : tip (r_log r2) = pos_of e) by (rewrite El; by apply tip_append).
  assert (Elast : Log_last_index (r_log r2) = Log_last_index (r_log r) + 1) by exact (f_equal fst Etip).
  assert (Hup : below (link_in W') (tip (r_log r)) (pos_of e)).
  { eapply (below_link _ _ (Log_last_term (r_log r)) e); [exact Hx|done|]. simpl.
    replace (_ + 1 - 1) with (Log_last_index (r_log r)) by lia. apply below_refl. }
  assert (Hsub : snapshot_index (r_log r2) = snapshot_index (r_log r) /\ base (r_log r2) = base (r_log r)) by (by rewrite El).
  destruct Hsub as [Esn Eb]. apply (fit_update C leads me fr W' 1 0 r0); try done.
  - by rewrite Em.
  - by rewrite Em.
  - simpl. lia.
  - destruct (ft_linked _ _ _ _ _ _ _ H0) as [_ _ _ Hc _ Hm]. destruct Hp2 as [Hw Hz Hl _]. split; try done.
    + pose proof (last_index_wf _ Hw). pose proof (wf_room _ Hw). lia.
    + by rewrite Ec.
    + by rewrite Em.
  - rewrite El. apply fixed_append; [apply H|]. apply Forall_cons. split; [by destruct kind|constructor].
  - destruct (ft_log _ _ _ _ _ _ _ H) as [_ _ _ _ _ Hd]. destruct (ft_log _ _ _ _ _ _ _ H0) as [_ _ Hk Hb Hc _].
    rewrite Et, Ec. split; try done.
    + change (Log_last_term (r_log r2)) with (tip (r_log r2)).2. by rewrite Etip.
    + intros T i Hak. destruct (Hk T i) as [HT Hcov].
      { destruct Hak as [(to & m & Hs & ?)|?]; [left; exists to, m; split; [|done]|by right]. unfold says in *. by rewrite Em in Hs. }
      split; [done|]. eapply covers_weaken; [|done|exact Hcov]. intros p _ Hpl. rewrite Etip. exact (below_trans _ _ _ _ Hpl Hup).
    + by rewrite Eb.
    + destruct Hc as (p & ? & Hpl & ?). exists p. split; [done|]. split; [|done]. rewrite Etip. exact (below_trans _ _ _ _ Hpl Hup).
    + intros d Hin. destruct (Hd d Hin) as (p & ? & Hcp & _). exists p. split; [done|]. split; [by apply (committed_extends W)|left].
      rewrite Etip. eapply below_trans; [|exact Hup]. by apply (below_extends W), Hcm.
  - rewrite Esn, Ec, Ea. apply H.
  - intros ?. congruence.
  - intros _. split; rewrite ?Et, ?Elast, ?Eps.
    + exists x. by rewrite Etip.
    + intros y [Hy| ->]%(gr_made _ _ _ G) Ey; [destruct (Hfr y Hy Ey); lia|simpl; lia].
    + lia.
    + intros j p Hj Hpj. destruct (Hpr j p Hj Hpj) as [? [?|(i & ? & ?)]]; (split; [done|]); [by left|right].
      exists i. split; [done|]. by apply (acked_extends W).
    + intros y [Hy| ->]%(gr_made _ _ _ G) Ey Hi.
      * destruct (Hps y Hy Ey Hi) as (i & ? & ?). exists i. split; [done|]. by apply (acked_extends W).
      * simpl in Hi. lia.
Qed.

(** Only members other than the leader itself get a slot, and it matches nothing yet. *)
Lemma reset_matched r j p : r_id r = me -> r_progress r = ∅ -> j <> me ->
  r_progress (reset_progress_for_config r) !! j = Some p -> p_matched p = 0.
Proof using.
  intros Hid Hp Hj. unfold reset_progress_for_config. cbv zeta.
  set (next := Log_last_index (r_log r) +64 1). set (members := Config_all_nodes _).
  assert (Hfold : forall ids (m : gmap NodeId Progress), (forall p, m !! j = Some p -> p_matched p = 0) ->
    forall p, fold_left (fun m id => match m !! id with Some _ => m | None => <[id := fresh_progress r next id]> m end) ids m !! j = Some p ->
      p_matched p = 0).
  { induction ids as [|id ids IH]; intros m Hm; [exact Hm|]. simpl. apply IH. destruct (m !! id); [exact Hm|].
    intros q [[<- <-]|[_ Hq]]%lookup_insert_Some; [|auto]. unfold fresh_progress. destruct (Z.eqb_spec id (r_id r)); [congruence|done]. }
  unfold update_progress. set (m := fold_left _ _ _). assert (Hm : forall p, m !! j = Some p -> p_matched p = 0).
  { apply Hfold. intros q Hq. apply map_lookup_filter_Some in Hq as [Hq _]. by rewrite Hp, lookup_empty in Hq. }
  clearbody m. change (r_progress (set_progress m r)) with m. destruct (m !! r_id r) as [q|] eqn:E; simpl; [|by apply Hm].
  rewrite lookup_insert_ne by congruence. apply Hm.
Qed.

Lemma last_succ k r : fit k r -> Log_last_index (r_log r) +64 1 = Log_last_index (r_log r) + 1.
Proof using. intros H. apply last_index_succ_wf, (ft_linked _ _ _ _ _ _ _ H). Qed.

(** A leader at the start of its term, before its first entry. *)
Record elect (r r1 : Raft) : Prop := {
  ec_id : r_id r1 = r_id r;
  ec_pending : r_pending r1 = r_pending r;
  ec_term : r_term r1 = r_term r;
  ec_log : r_log r1 = r_log r;
  ec_commit : r_commit r1 = r_commit r;
  ec_applied : r_applied r1 = r_applied r;
  ec_persisted : r_persisted r1 = r_persisted r;
  ec_role : r_role r1 = Leader;
  ec_progress j p : j <> me -> r_progress r1 !! j = Some p -> p_matched p = 0
}.

Lemma elect_reset r r0 : r_id r = me -> r_progress r = ∅ -> r_progress r0 = r_progress r -> elect r (set_progress ∅ r0) ->
  elect r (reset_progress_for_config r0).
Proof using.
  intros Hid Hp E0 [E1 E2 E3 E4 E5 E6 E7 E8 _]. pose proof (quiet_reset_progress r0) as Q.
  split; rewrite ?(q_id _ _ Q), ?(q_term _ _ Q), ?(q_log _ _ Q), ?(q_commit _ _ Q), ?(q_applied _ _ Q), ?(q_persisted _ _ Q), ?(q_role _ _ Q); try done.
  - rewrite <- E2. unfold reset_progress_for_config, update_progress. cbv zeta. by destruct (_ !! r_id _).
  - intros j p. apply reset_matched; [by rewrite <- Hid|by rewrite E0].
Qed.

Lemma become_leader_elect r : r_id r = me -> r_progress r = ∅ -> exists r1, elect r r1 /\
  become_leader r = broadcast_append (append_to_own_log [mkEntry (r_term r1) (Log_last_index (r_log r1) +64 1) Noop] r1).
Proof using.
  intros Hid Hp. eexists. split; [|unfold become_leader; cbv zeta; reflexivity]. apply elect_reset; [done..|]. by split.
Qed.

(** The winner of an election: nobody has led its term, and it has asked for votes. *)
Lemma fares_become_leader r : fit 1 r -> r_role r = Candidate -> (forall x, V x -> e_term x.2 <> r_term r) ->
  (forall p, committed W C p (r_term r) -> below V p (tip (r_log r))) ->
  (exists to m, (me, to, m) ∈ w_sent W /\ asks m /\ m_term m = r_term r) -> fares (r_log r) (become_leader r).
Proof using Ht.
  intros H Hc Hnone Hcm (to & m & Hs & Hask & Htm). right. exists Noop. destruct (become_leader_facts r) as [Et Er].
  rewrite Et. split; [done|]. destruct (ft_candidate _ _ _ _ _ _ _ H Hc) as [Hterm _ Hps]. specialize (Hps to m Hs Hask Htm).
  destruct (become_leader_elect r) as (r1 & [E1 E2 E3 E4 E5 E6 E7 E8 E9] & ->); [apply H|apply (ft_idle _ _ _ _ _ _ _ H); by rewrite Hc|].
  rewrite E3, E4, (last_succ 1 r H). set (r2 := append_to_own_log _ r1). pose proof (quiet_broadcast r2) as Qb. rewrite (q_log _ _ Qb).
  assert (El2 : r_log r2 = Log_append (r_log r) [mkEntry (r_term r) (Log_last_index (r_log r) + 1) Noop]) by exact (f_equal (fun l => Log_append l _) E4).
  split; [rewrite El2, links_append; apply elem_of_app; right; by left|].
  intros W' G. enough (tree (link_in W') /\ heads C leads me fr W' 0 r2) as [Ht' Hh] by (split; [done|by apply heads_broadcast]).
  apply (fares_append r r2 Noop); try done.
  - intros y Hy Ey. by destruct (Hnone y Hy).
  - intros j p Hj Hp. rewrite (E9 j p) by done. split; [lia|by left].
  - intros y Hy Ey. by destruct (Hnone y Hy).
Qed.

Context (Hlone : Config_has_quorum C {[me]} = false).
Context (Hchain : forall p T x, committed W C p T -> V x -> e_term x.2 = T -> on_chain V T p).

Context (Hafter : forall p T x, committed W C p T -> V x -> T < e_term x.2 -> below V p (pos_of x.2)).

Lemma leading_fresh k r : fit k r -> r_role r = Leader ->
  1 <= r_term r /\ forall y, V y -> e_term y.2 = r_term r -> e_index y.2 <= Log_last_index (r_log r) /\ below V (pos_of y.2) (tip (r_log r)).
Proof using Ht.
  intros H Hr. destruct (ft_leader _ _ _ _ _ _ _ H Hr) as [(x & Hx & Ex & Etx) Hl _ _ _]. split.
  - rewrite <- Etx. apply (tr_bounds V Ht x Hx).
  - intros y Hy Ey. pose proof (Hl y Hy Ey). split; [done|]. rewrite <- Ex. apply (tr_same V Ht); [done..|congruence|].
    injection Ex as -> _. done.
Qed.

Lemma leading_committed k r p : fit k r -> r_role r = Leader -> committed W C p (r_term r) -> below V p (tip (r_log r)).
Proof using Ht Hchain.
  intros H Hr Hc. destruct (ft_leader _ _ _ _ _ _ _ H Hr) as [(x & Hx & _ & Ex) _ _ _ _].
  destruct (Hchain p (r_term r) x Hc Hx Ex) as (y & Hy & Ey & Hp). eapply below_trans; [exact Hp|]. by apply (leading_fresh k).
Qed.

Lemma fares_propose data r : fit 1 r -> fares (r_log r) (propose data r).2.
Proof using Ht Hchain.
  intros H. unfold propose. case_bool_decide as Hr; [by apply (fares_fit _ 1)|]. cbn [snd]. rewrite (last_succ 1 r H).
  set (r2 := append_to_own_log _ r). pose proof (quiet_broadcast r2) as Qb. right. exists (Normal data).
  rewrite (q_role _ _ Qb), (q_term _ _ Qb), (q_log _ _ Qb). split; [done|].
  assert (El2 : r_log r2 = Log_append (r_log r) [mkEntry (r_term r) (Log_last_index (r_log r) + 1) (Normal data)]) by done.
  split; [rewrite El2, links_append; apply elem_of_app; right; by left|]. intros W' G.
  enough (tree (link_in W') /\ heads C leads me fr W' 0 r2) as [Ht' Hh] by (split; [done|by apply heads_broadcast]).
  destruct (ft_leader _ _ _ _ _ _ _ H Hr) as [_ _ Hcl Hp Hps]. destruct (leading_fresh 1 r H Hr) as [H1 Hfr].
  apply (fares_append r r2 (Normal data)); try done. intros p. by apply (leading_committed 1).
Qed.

(** What is known when [r] wins an election. *)
Record wins (r : Raft) : Prop := {
  wn_none x : V x -> e_term x.2 <> r_term r;
  wn_committed p : committed W C p (r_term r) -> below V p (tip (r_log r));
  wn_asked : exists to m, (me, to, m) ∈ w_sent W /\ asks m /\ m_term m = r_term r
}.

Lemma fares_vote_resp from g r : fit 1 r ->
  (r_role r = Candidate -> r_role (handle_vote_resp from g r) = Leader -> wins r) ->
  fares (r_log r) (handle_vote_resp from g r).
Proof using Ht.
  intros H Hwin. unfold handle_vote_resp in *. case_bool_decide as Hr; [by apply (fares_fit _ 1)|]. specialize (Hwin Hr).
  cbv zeta in *. set (r1 := set_votes _ r) in *.
  assert (H1 : fit 1 r1) by (by apply (level_plain C leads me fr W 1 r)).
  assert (E1 : r_role r1 = Candidate /\ r_term r1 = r_term r /\ r_log r1 = r_log r) by done. clearbody r1.
  destruct E1 as (Er & Et & El). rewrite <- El. destruct (tally _ _).
  - destruct (Hwin (proj2 (become_leader_facts r1))) as [Hn Hcm Hs]. rewrite <- Et in Hn, Hcm, Hs. rewrite <- El in Hcm. by apply fares_become_leader.
  - apply (fares_fit _ 1); [done|]. destruct (lost _ _); [|done]. apply fit_become_follower; [done..|lia].
Qed.

Lemma vote_resp_term from g r : r_role r = Candidate -> r_role (handle_vote_resp from g r) = Leader ->
  r_term (handle_vote_resp from g r) = r_term r.
Proof using.
  intros Hr. unfold handle_vote_resp. rewrite bool_decide_eq_false_2 by (by intros ?). cbv zeta.
  destruct (tally _ _); [intros _; exact (proj1 (become_leader_facts _))|].
  destruct (lost _ _); [|done]. unfold become_follower. by destruct (_ <? _).
Qed.

(** ** Every input *)

(** What a message from the network brings. *)
Record delivered (from : NodeId) (m : Message) : Prop := {
  de_sent : (from, me, m) ∈ w_sent W;
  de_wf : body_wf (m_body m);
  de_links x : x ∈ msg_links m -> V x;
  de_fixed : msg_fixed C m;
  de_true : truthful W C leads from me m
}.

Lemma delivered_ack from m k : delivered from m -> ack_index m = Some k -> acked W from (m_term m) k.
Proof using. intros D Hk. left. exists me, m. split; [apply D|done]. Qed.

Lemma fares_handle from m r : fit 1 r -> delivered from m -> m_term m = r_term r \/ Message_is_pre_vote m = true -> term_room r ->
  (forall g, m_body m = VoteResp g -> r_role r = Candidate -> r_role (handle_vote_resp from g r) = Leader -> wins r) ->
  (leads from (r_term r) -> from <> me -> r_role r <> Leader) ->
  fares (r_log r) (handle from m r).
Proof using Ht Hlone Hchain Hafter.
  intros H D Htm Hroom Hwin Htimeout. destruct D as [Hsent Hwf Hlinks Hfixed Htrue].
  assert (Hack : forall k, ack_index m = Some k -> acked W from (m_term m) k) by (intros k Hk; left; exists me, m; done).
  unfold handle, truthful, msg_links, msg_fixed, ack_index, Message_is_pre_vote in *. destruct (m_body m) eqn:Hb.
  all: try (apply fares_vote_resp; [done|by apply Hwin]).
  all: assert (Hf : forall r', fit 1 r' -> fares (r_log r) r') by (intros; by apply (fares_fit _ 1)).
  all: try (apply Hf; first [by apply fit_pre_vote_req|by apply fit_pre_vote_resp|by apply fit_heartbeat_resp]).
  all: destruct Htm as [Htm|?]; [|done]; try rewrite Htm in Htrue; rewrite Htm in Hack.
  - apply Hf, fit_vote_req; [done..|]. by exists m.
  - destruct Htrue. left. by apply (fit_handle_append C leads me fr W Ht Hchain 1).
  - apply Hf, fit_append_resp; [done..|]. intros ->. by apply Hack.
  - destruct Htrue. left. by apply (fit_handle_snapshot C leads me fr W Ht Hchain 1).
  - apply Hf, fit_snapshot_resp; [done..|]. intros ->. by apply Hack.
  - destruct Htrue. by apply Hf, fit_heartbeat.
  - destruct Htrue. apply Hf. destruct (promotable r); [|done]. apply fit_campaign; auto.
Qed.

Lemma fares_step from m r : fit 1 r -> delivered from m -> input_room (IStep from m) r ->
  (r_role r = Candidate -> r_role (step from m r) = Leader -> r_term (step from m r) = r_term r ->
     wins r) ->
  (leads from (r_term r) -> from <> me -> r_role r <> Leader) ->
  fares (r_log r) (step from m r).
Proof using Ht Hlone Hchain Hafter.
  intros H D Hroom Hwin Htimeout. unfold step in *. cbv zeta in *. pose proof (adopt_room from m r Hroom) as Hr1.
  assert (H1 : fit 1 (adopt_term from m r)).
  { unfold adopt_term. cbv zeta. destruct (r_term r <? m_term m) eqn:E; [|done]. simpl. destruct (negb _); [|done].
    apply fit_become_follower; [done..|]. lia. }
  assert (E1 : r_log (adopt_term from m r) = r_log r) by (unfold adopt_term; cbv zeta; destruct (_ && _); [apply samelog_become_follower|done]).
  assert (Ec : adopt_term from m r = r \/ r_role (adopt_term from m r) = Follower).
  { unfold adopt_term. cbv zeta. destruct (_ && _); [right|by left]. unfold become_follower. by destruct (_ <? _). }
  pose proof (adopt_term_term from m r) as Etm. set (r1 := adopt_term from m r) in *. clearbody r1. rewrite <- E1.
  destruct (Z.ltb_spec (m_term m) (r_term r1)) as [Hlt|Hge].
  - apply (fares_fit _ 1); [done|]. destruct (m_body m); try done; by apply fit_send; [done|is_neutral|..].
  - apply fares_handle; try done.
    + destruct (Message_is_pre_vote m); [by right|left]. simpl in Etm. lia.
    + intros g Hb Hcand Hlead. destruct Ec as [->|Ec]; [|congruence]. unfold handle in Hwin. rewrite Hb in Hwin.
      apply Hwin; [done..|]. by apply vote_resp_term.
    + intros Hl Hne. destruct Ec as [->|Ec]; [by apply Htimeout|by rewrite Ec].
Qed.

(** A call the driver makes, in a cluster whose membership does not change. A
    snapshot is sent by a leader, and is one of its log up to its commit index. *)
Lemma fares_input inp r : Config_is_joint C = false -> fit 1 r -> input_room inp r -> input_fixed C inp ->
  match inp with
  | IStep from m => delivered from m
  | ISendSnapshot _ s => r_role r = Leader /\ sn_last_index s <= r_commit r /\
      Log_term_at (r_log r) (sn_last_index s) = Some (sn_last_term s) /\ body_wf (SnapshotReq s)
  | IPersisted _ => False
  | _ => True
  end ->
  (r_role r = Candidate -> r_role (apply_input inp r) = Leader -> r_term (apply_input inp r) = r_term r ->
     wins r) ->
  (forall from, leads from (r_term r) -> from <> me -> r_role r <> Leader) ->
  (r_role r = Leader -> leads me (r_term r)) ->
  fares (r_log r) (apply_input inp r).
Proof using Ht Hlone Hchain Hafter.
  intros Hjoint H Hroom Hfixed Hin Hwin Htimeout Hlead.
  assert (Hf : forall r', fit 1 r' -> fares (r_log r) r') by (intros; by apply (fares_fit _ 1)).
  destruct inp; cbn [apply_input] in *; try done.
  - apply Hf, fit_tick; [done..|apply Hroom].
  - apply fares_step; [done..|]. intros Hl Hne. by apply (Htimeout from).
  - by apply fares_propose.
  - unfold maybe_finish_config_change. case_bool_decide; [auto|]. cbv zeta. rewrite (fit_config C leads me fr W 1 r H), Hjoint. simpl. auto.
  - by apply Hf, fit_read_index.
  - by apply Hf, fit_transfer.
  - by apply Hf, fit_step_down.
  - left. by apply (fit_compact C leads me fr W Ht data 1).
  - destruct Hin as (? & ? & ? & ?). by apply Hf, fit_send_snapshot.
Qed.
End Own.

(** ** A driver cycle *)

(** The world after node [me] has written its log and sent what it had queued. *)
Definition flushed (me : NodeId) (r : Raft) (W : World) : World :=
  mkWorld (w_made W) (w_sent W ++ addressed me (msgs r))
    (w_held W ++ (if bool_decide (r_role r = Leader) then [(me, r_term r, Log_last_index (r_log r))] else [])).

Lemma flushed_extends me r W : extends W (flushed me r W).
Proof. split; simpl; [done|by apply list_subseteq_app_l..]. Qed.

Section Turn.
Context (C : Config) (leads : NodeId -> Term -> Prop) (me : NodeId) (fr : Frame) (cs' : list Index) (W : World) (Ht : tree (link_in W)).
Context (r : Raft) (H : fit C leads me fr W 0 r).
Abbreviation W' := (flushed me r W).

Lemma says_flushed r' to m : msgs r' = [] -> says W' me r' to m -> says W me r to m.
Proof using.
  intros E [Hs|Hs]; [|rewrite E in Hs; by apply elem_of_nil in Hs]. simpl in Hs. apply elem_of_app in Hs as [Hs|Hs]; [by left|right].
  by apply elem_of_addressed in Hs as [_ Hs].
Qed.

Lemma acking_flushed r' T k : msgs r' = [] -> acking W' me r' T k ->
  acking W me r T k \/ (r_role r = Leader /\ T = r_term r /\ k = Log_last_index (r_log r)).
Proof using.
  intros E [(to & m & Hs & ?)|Hh]; [left; left; exists to, m; split; [by apply (says_flushed r')|done]|].
  simpl in Hh. apply elem_of_app in Hh as [Hh|Hh]; [by left; right|]. case_bool_decide; [|by apply elem_of_nil in Hh].
  apply list_elem_of_singleton in Hh as [= -> ->]. by right.
Qed.

(** What the node has after its messages left. *)
Lemma fit_flushed r' : r_id r' = r_id r -> r_pending r' = Ready_default -> r_term r' = r_term r -> r_log r' = r_log r ->
  r_commit r' = r_commit r -> r_applied r' = r_applied r -> r_persisted r' <= Log_last_index (r_log r) -> r_role r' = r_role r ->
  r_progress r' = r_progress r -> cs' ⊆ r_commit r :: fr_commits fr -> fit C leads me (mkFrame cs' (fr_since fr) (fr_acks fr)) W' 0 r'.
Proof using Ht H.
  intros Eid Ep Et El Ec Ea Hps Er Epr Hdc. pose proof (flushed_extends me r W) as E.
  assert (Em : msgs r' = []) by (by rewrite Ep).
  destruct H as [Hid Hf Hl Hh Ha Hm Hv Hq Hc Hle Hi Hpd [HT0 HA0]].
  assert (Hlead : r_role r = Leader -> covers W (fun p => below (link_in W) p (tip (r_log r))) (r_term r) (Log_last_index (r_log r))).
  { intros Hr. exists (tip (r_log r)). split; [done|]. split; [by apply (leader_tip C leads me fr W 0 r H)|]. by left. }
  assert (Hlow : forall U T k, U <= r_term r -> T < U -> acking W' me r' T k -> acking W me r T k).
  { intros U T k HU HT Hk. apply acking_flushed in Hk as [?|(_ & -> & _)]; [done|lia|done]. }
  assert (Hif : forall U b, informed W me r U b -> informed W' me r' U b).
  { intros U b [HU Hb]. split; [by rewrite Et|]. intros T k Hk HT. pose proof (Hb T k (Hlow U T k HU HT Hk) HT) as Hcov.
    revert Hcov. apply (covers_extends W W' E Ht Ht); [|done..]. intros p _. by apply votes_for_extends. }
  split.
  - congruence.
  - by rewrite El.
  - destruct Hl. split; rewrite ?El, ?Ec, ?Em; try done.
  - rewrite El, Et, Ec. destruct Hh as [Hp Htm Hk Hb Hcm Hd]. split; try done.
    + intros T k Hak. apply acking_flushed in Hak as [Hak|(Hr & -> & ->)]; [|split; [lia|]|done].
      * destruct (Hk T k Hak) as [? Hcov]. split; [done|]. by revert Hcov; apply (covers_extends W W' E Ht Ht).
      * specialize (Hlead Hr). by revert Hlead; apply (covers_extends W W' E Ht Ht).
    + by apply (committed_extends W).
    + destruct Hcm as (p & ? & ? & ?). exists p. split_and!; [done..|]. by apply (committed_extends W).
    + intros d Hin%Hdc. apply elem_of_cons in Hin as [->|Hin].
      * destruct Hcm as (p & ? & ? & ?). exists p. split_and!; [done|by apply (committed_extends W)|by left].
      * destruct (Hd d Hin) as (p & ? & ? & ?). exists p. split_and!; [done|by apply (committed_extends W)|done].
  - by rewrite El, Ec, Ea.
  - rewrite Em. intros to m Hin. by apply elem_of_nil in Hin.
  - intros to m Hs Hg. apply says_flushed in Hs; [|done]. destruct (Hv to m Hs Hg) as (b & m' & ? & ? & ? & ?).
    exists b, m'. split; [by apply (ex_sent _ _ E)|]. auto.
  - intros to m i t Hs Hb. apply says_flushed in Hs; [|done]. destruct (Hq to m i t Hs Hb). auto.
  - rewrite Er. intros Hr. destruct (Hc Hr) as [H1 H2 H3]. split; rewrite ?El, ?Et; try done.
    intros to m i t Hs. apply says_flushed in Hs; [|done]. by apply H2 with to.
  - rewrite Er. intros Hr. destruct (Hle Hr) as [H1 H2 H2' H3 H4]. split; rewrite ?El, ?Et, ?Epr; try done.
    + intros j p Hj Hp. destruct (H3 j p Hj Hp) as [? [?|(i & ? & ?)]]; (split; [done|]); [by left|right].
      exists i. split; [done|]. by apply (acked_extends W).
    + intros x Hx Ex _. exists (Log_last_index (r_log r)). split; [by apply H2|]. right. simpl.
      rewrite bool_decide_eq_true_2 by done. apply elem_of_app. right. by left.
  - by rewrite Er, Epr.
  - by rewrite Ep.
  - simpl. rewrite Et. split; [done|]. intros T k Hak HT. apply acking_flushed in Hak as [?|(_ & -> & _)]; [auto|lia|done].
Qed.
End Turn.

(** The part of [ready] that this invariant sees. *)
Lemma ready_level r : 0 <= r_commit r -> r_commit r <= Log_last_index (r_log r) -> r_persisted r <= Log_last_index (r_log r) ->
  let r' := (ready r).2 in
  r_commit r' = r_commit r /\ r_persisted r' = r_persisted r /\ r_applied r' = r_applied r /\ r_progress r' = r_progress r /\
  forall e, rd_committed (r_pending r) = [] -> e ∈ rd_committed (ready r).1 -> wf_log (r_log r) -> e_index e <= r_commit r.
Proof.
  intros Hc0 Hc Hp. unfold ready. cbv zeta.
  destruct (r_dirty_from _); simpl; destruct (r_hard_state_dirty r); simpl; rewrite !Z.min_l by lia; split_and!; try done.
  all: intros e Hpd Hin Hw; destruct (_ <? _); [|rewrite Hpd in Hin; by apply elem_of_nil in Hin].
  all: rewrite slice_filter in Hin by done; apply list_elem_of_filter in Hin as [Hi _].
  all: pose proof (last_index_wf _ Hw); pose proof (wf_room _ Hw).
  all: rewrite (wadd64_small (r_commit r)) in Hi by lia; lia.
Qed.

Section Cycle.
Context (C : Config) (leads : NodeId -> Term -> Prop) (me : NodeId) (fr : Frame) (W : World) (Ht : tree (link_in W)).

Lemma fit_set_applied k a r : fit C leads me fr W k r -> a <= r_commit r -> fit C leads me fr W k (set_applied a r).
Proof using.
  intros H Ha. pose proof H as [_ Hf Hl Hh Hap _ _ _ Hc Hle Hi _ _]. apply (fit_update C leads me fr W k k r); try done; simpl.
  - by apply linked_set_applied.
  - lia.
  - intros Hr. by destruct (Hc Hr).
  - intros Hr. by destruct (Hle Hr).
Qed.

Lemma fit_advance k rd r : fit C leads me fr W k r -> (forall e, e ∈ rd_committed rd -> e_index e <= r_commit r) ->
  fit C leads me fr W k (advance rd r).
Proof using Ht.
  intros H He. unfold advance. cbv zeta. set (r1 := match rd_hard_state rd with Some _ => _ | None => r end).
  assert (H1 : fit C leads me fr W k r1 /\ r_commit r1 = r_commit r).
  { unfold r1. destruct (rd_hard_state rd); [|done]. split; [by apply (level_plain C leads me fr W k r)|done]. }
  clearbody r1. destruct H1 as [H1 E1]. set (r2 := update_progress _ _ r1).
  assert (L : level me r1 r2) by (apply level_update_progress; intros p Hne; by rewrite (ft_id _ _ _ _ _ _ _ H1) in Hne).
  assert (H2 : fit C leads me fr W k r2) by (by eapply fit_level).
  pose proof (lv_commit _ _ _ L) as E2. clearbody r2. set (r3 := if _ : bool then maybe_advance_commit r2 else r2).
  assert (H3 : fit C leads me fr W k r3 /\ r_commit r2 <= r_commit r3).
  { unfold r3. case_bool_decide; [|done]. split; [by apply fit_advance_commit|]. unfold maybe_advance_commit. cbv zeta.
    set (c := Config_quorum_index _ _). destruct (Z.leb_spec c (r_commit r2)); [done|]. case_bool_decide; simpl; lia. }
  clearbody r3. destruct H3 as [H3 E3]. set (r4 := match last _ with Some _ => _ | None => r3 end).
  assert (H4 : fit C leads me fr W k r4).
  { unfold r4. destruct (last (rd_committed rd)) as [e|] eqn:El; [|done]. apply fit_set_applied; [done|].
    apply last_Some_elem_of, He in El. lia. }
  clearbody r4. by apply (level_plain C leads me fr W k r4).
Qed.
End Cycle.

(** The driver writes the log, sends the messages, reports the log written up to
    [n] and acknowledges the [Ready]. *)
Lemma fit_turn C leads me fr cs' W n r : tree (link_in W) -> fit C leads me fr W 0 r -> cs' ⊆ r_commit r :: fr_commits fr ->
  fit C leads me (mkFrame cs' (fr_since fr) (fr_acks fr)) (flushed me r W) 0 (cycle (report_persisted n r)).
Proof.
  intros Ht H Hdc. set (r1 := report_persisted n r). pose proof (fit_commit_le C leads me fr W Ht 0 r H) as Hcl.
  pose proof (ft_linked _ _ _ _ _ _ _ H) as Hl. pose proof (ready_rel_ready r1) as R.
  assert (Hp1 : r_persisted r1 <= Log_last_index (r_log r1)) by (unfold r1, report_persisted; simpl; lia).
  destruct (ready_level r1 (lk_commit _ _ _ Hl) Hcl Hp1) as (Ec & Ep & Ea & Epr & He).
  unfold cycle. set (rd := (ready r1).1) in *. set (r2 := (ready r1).2) in *. clearbody rd r2.
  apply fit_advance; [done| |].
  - apply (fit_flushed C leads me fr cs' W Ht r H); try done.
    + apply (rr_id _ _ _ R).
    + apply (rr_pending _ _ _ R).
    + exact (f_equal fst (rr_ballot _ _ _ R)).
    + apply (rr_log _ _ _ R).
    + by rewrite Ep.
    + apply (rr_role _ _ _ R).
  - intros e Hin. rewrite Ec. apply He; [apply (ft_pending _ _ _ _ _ _ _ H)|done|apply Hl].
Qed.

(** ** A restart *)

(** What recovery starts from: a log that holds what the node has sent
    acknowledgements for, with the term of the hard state, which no vote the node
    has sent exceeds. Of the messages the node had queued some may have left. *)
Lemma fit_restored C leads leads' me fr W W' opts hard snap es c old : extends W W' -> tree (link_in W) -> tree (link_in W') ->
  fit C leads me fr W 0 old ->
  (forall to m, (me, to, m) ∈ w_sent W' -> says W me old to m) -> (forall T k, (me, T, k) ∈ w_held W' -> (me, T, k) ∈ w_held W) ->
  let r := Raft_restore me opts hard snap es C in
  log_fixed C (r_log r) -> holds_log W' C (acking W' me r) (r_log r) (hs_term hard) c [hs_commit hard] ->
  (forall to m, (me, to, m) ∈ w_sent W' -> grants m \/ asks m -> m_term m <= hs_term hard) ->
  fit C leads' me (mkFrame [hs_commit (r_persisted_hard_state r); hs_commit hard] (hs_term hard) (fun _ _ => True)) W' 0 r.
Proof.
  intros E Ht Ht' H Hsent Hheld r Hf Hh Hv. pose proof (hl_path _ _ _ _ _ _ _ Hh) as Hp.
  pose proof (pa_wf _ _ Hp) as Hw. pose proof (last_index_wf _ Hw). pose proof (wf_room _ Hw). pose proof (wf_snapshot _ Hw).
  assert (Ec : r_commit r = Z.max (Z.min (hs_commit hard) (Log_last_index (r_log r))) (snapshot_index (r_log r))) by done.
  assert (Hpos : exists p, p.1 = r_commit r /\ below (link_in W') p (tip (r_log r)) /\ committed W' C p (hs_term hard)).
  { destruct (hl_disk _ _ _ _ _ _ _ Hh (hs_commit hard)) as (p & Epi & Hc & Hb); [by left|].
    assert (Hm : exists q, q.1 = Z.min (hs_commit hard) (Log_last_index (r_log r)) /\ below (link_in W') q (tip (r_log r)) /\
      committed W' C q (hs_term hard)).
    { destruct Hb as [Hb|Hb]; pose proof (below_le _ Ht' _ _ Hb) as Hle.
      - exists p. split; [|done]. destruct Hle as [->|?]; simpl in *; lia.
      - exists (tip (r_log r)). split; [|split; [apply below_refl|by eapply committed_below]]. destruct Hle as [<-|?]; simpl in *; lia. }
    rewrite Ec. destruct (Z.max_spec (Z.min (hs_commit hard) (Log_last_index (r_log r))) (snapshot_index (r_log r))) as [[_ ->]|[_ ->]]; [|done].
    exists (base (r_log r)). split; [done|]. split; [by apply base_tip|apply (hl_base _ _ _ _ _ _ _ Hh)]. }
  assert (Hs : forall to m, says W' me r to m -> (me, to, m) ∈ w_sent W') by (intros to m [?|Hin]; [done|by apply elem_of_nil in Hin]).
  assert (Hk : forall T k, acking W' me r T k -> acking W me old T k).
  { intros T k [(to & m & Hsay & ?)|?]; [left; exists to, m; split; [by apply Hsent, Hs|done]|by right; apply Hheld]. }
  assert (Hi : forall U b, informed W me old U b -> U <= hs_term hard -> informed W' me r U b).
  { intros U b [_ Hb] HU. split; [done|]. intros T k Hak HT. pose proof (Hb T k (Hk T k Hak) HT) as Hcov. revert Hcov.
    apply (covers_extends W W' E Ht Ht'); [|intros x; apply (ex_made _ _ E)|done]. intros p _. by apply votes_for_extends. }
  split; try done.
  - destruct Hp as [_ Hz Hx _]. split; try done; rewrite ?Ec; lia.
  - destruct Hh as [? ? ? ? _ Hd]. split; try done. intros d Hin. apply elem_of_cons in Hin as [->|Hin]; [|by apply Hd].
    destruct Hpos as (p & ? & ? & ?). exists p. split_and!; [done..|by left].
  - rewrite Ec. change (r_applied r) with (snapshot_index (r_log r)). lia.
  - intros to m Hin. by apply elem_of_nil in Hin.
  - intros to m Hsay%Hs Hg. destruct (ft_votes _ _ _ _ _ _ _ H to m) as (b & m' & ? & ? & ? & ?); [by apply Hsent|done|].
    exists b, m'. split_and!; [by apply (ex_sent _ _ E)|done..|]. apply Hi; [done|]. apply (Hv to); [done|by left].
  - intros to m i t Hsay%Hs Hb. destruct (ft_asks _ _ _ _ _ _ _ H to m i t) as [? ?]; [by apply Hsent|done|].
    split; [by apply (known_grow _ _ (ex_made _ _ E))|].
    apply Hi; [done|]. apply (Hv to); [done|right]. unfold asks. by rewrite Hb.
Qed.
