(* ===== verification/StateSafety.v ===== *)
(** * State Machine Safety and Leader Completeness

    The cluster of [LogMatching.v], with what its nodes have on disk, and a crash
    discipline: the hard state is durable before the log that goes with it, the log
    before any message that depends on it, and what a crash takes off the log on
    disk is only what the log in memory no longer holds. Under it no two nodes ever
    commit different entries at an index, and a leader has every entry committed
    before its term. [Durability.v] shows where the driver breaks the discipline,
    and that a committed write can then be lost. A snapshot of the leader counts
    as part of the log here; the driver saves it before the hard state. The
    membership is fixed, with more than one voter. *)

From Stdlib Require Import ZArith Lia.
From stdpp Require Import base tactics functions relations list list_numbers gmap sets sorting.
From S2P Require Import Prelude Codec Types RaftLog Msg RaftState Raft RaftNode RaftCommit Cluster RaftTypes LogMatching Ancestry Commitment NodeSafety NodeStep.

Open Scope Z_scope.

(** ** The steps *)

(** A cluster, the log on each disk, and what is remembered of the run: every
    link ever made, and how far leaders have held their own log durably. *)
Record Safe : Type := mkSafe {
  sc : Cluster;
  saved : NodeId -> Log;
  made : list Link;
  held : list (NodeId * Term * Index)
}.

Definition world (st : Safe) : World := mkWorld (made st) (net (sc st)) (held st).

Definition safe_init (C : Config) (opts : RaftOptions) : Safe :=
  mkSafe (cluster_init C opts) (fun i => r_log (Raft_new i C opts)) [] [].

(** [l'] is [l] without its entries from some index on, none of which [o] has. *)
Definition cut_of (l o l' : Log) : Prop :=
  base l' = base l /\ (exists n, entries l' = take n (entries l)) /\
  forall k t, Log_last_index l' < k -> Log_term_at l k = Some t -> snapshot_index o < k /\ Log_term_at o k <> Some t.

(** What a crash leaves of the log on disk, [sv], when the log in memory is
    [mem] and the hard state on disk is [d]: [sv] or what a truncation left of it
    or, with the hard state of the current term [t], [mem] as far as it was written. *)
Definition survives (sv mem : Log) (t : Term) (d : HardState) (l : Log) : Prop :=
  cut_of sv mem l \/ (hs_term d = t /\ cut_of mem sv l).

(** A snapshot is sent by a leader and is one of its log, up to its commit index. *)
Definition snapshot_allowed (r : Raft) (s : Snapshot) : Prop :=
  r_role r = Leader /\ 0 <= sn_last_index s < U64 - 1 /\ sn_last_index s <= r_commit r /\
  Log_term_at (r_log r) (sn_last_index s) = Some (sn_last_term s).

(** What may be fed to node [i]: a message that was sent to it, or a call of its driver. *)
Definition fed (C : Config) (st : Safe) (i : NodeId) (inp : Input) : Prop :=
  input_room inp (nodes (sc st) i) /\ log_room (nodes (sc st) i) /\ input_fixed C inp /\
  match inp with
  | IStep from m => (from, i, m) ∈ net (sc st)
  | ISendSnapshot _ s => snapshot_allowed (nodes (sc st) i) s
  | IPersisted _ => False
  | _ => True
  end.

Definition feed (i : NodeId) (inp : Input) (st : Safe) : Safe :=
  mkSafe (do_input i inp (sc st)) (saved st) (made st ++ links (r_log (apply_input inp (nodes (sc st) i)))) (held st).

(** The driver writes the [Ready] of node [i], reports the log written, sends and
    acknowledges. *)
Definition holding (i : NodeId) (r : Raft) : list (NodeId * Term * Index) :=
  if bool_decide (r_role r = Leader) then [(i, r_term r, Log_last_index (r_log r))] else [].

Definition take_turn (i : NodeId) (n : Index) (st : Safe) : Safe :=
  let r := nodes (sc st) i in
  mkSafe (do_cycle i (do_input i (IPersisted n) (sc st))) (<[i := r_log r]> (saved st)) (made st) (held st ++ holding i r).

(** The node comes back with the hard state [d] and the log of [r], its disk as [dk]. *)
Definition restart (i : NodeId) (r : Raft) (dk : NodeId -> HardState) (sent : list (NodeId * Message)) (st : Safe) : Safe :=
  mkSafe (mkCluster (<[i := r]> (nodes (sc st))) dk (net (sc st) ++ addressed i sent))
    (<[i := r_log r]> (saved st)) (made st) (held st).

Inductive safe_step (C : Config) (opts : RaftOptions) : Safe -> Safe -> Prop :=
| s_input st i inp : fed C st i inp -> safe_step C opts st (feed i inp st)
| s_turn st i n : term_room (nodes (sc st) i) -> safe_step C opts st (take_turn i n st)
(** A crash before the hard state of the [Ready] is written; nothing was sent. *)
| s_crash st i snap es :
    let mem := nodes (sc st) i in
    let r := Raft_restore i opts (disk (sc st) i) snap es C in
    Forall ordinary es -> (forall s, snap = Some s -> sn_config s = C) ->
    survives (saved st i) (r_log mem) (r_term mem) (disk (sc st) i) (r_log r) ->
    safe_step C opts st (restart i r (disk (sc st)) [] st)
(** A crash after it, with some of the messages sent, if the log is written. *)
| s_crash_writing st i snap es sent :
    let mem := nodes (sc st) i in
    let d := disk_after (ready mem).1 (ready mem).2 in
    let r := Raft_restore i opts d snap es C in
    Forall ordinary es -> (forall s, snap = Some s -> sn_config s = C) ->
    cut_of (r_log mem) (saved st i) (r_log r) ->
    sent ⊆ rd_messages (ready mem).1 -> sent = [] \/ r_log r = r_log mem ->
    safe_step C opts st (restart i r (<[i := d]> (disk (sc st))) sent st).

Inductive safe_reachable (C : Config) (opts : RaftOptions) : Safe -> Prop :=
| sr_init : safe_reachable C opts (safe_init C opts)
| sr_step st st' : safe_reachable C opts st -> safe_step C opts st st' -> safe_reachable C opts st'.

(** The driver reports the log written after it takes the [Ready]; it makes no difference. *)
Lemma report_order n r : cycle (report_persisted n r) = advance (ready r).1 (report_persisted n (ready r).2).
Proof.
  unfold cycle. assert (E : ready (report_persisted n r) = ((ready r).1, report_persisted n (ready r).2)); [|by rewrite E].
  unfold ready. cbv zeta. unfold report_persisted. simpl.
  assert (Em : (n `min` Log_last_index (r_log r)) `min` Log_last_index (r_log r) = n `min` Log_last_index (r_log r)) by lia.
  destruct (r_dirty_from r); simpl; destruct (r_hard_state_dirty r); simpl; rewrite Em; reflexivity.
Qed.

(** These are runs of the cluster of [Cluster.v]. *)
Lemma safe_cluster_step C opts st st' : safe_step C opts st st' -> leads_to C opts (sc st) (sc st').
Proof.
  intros [s i inp (Hr & _ & Hf & Hin)|s i n Hr|s i snap es mem r He Hs _|s i snap es sent mem d r He Hs _ Hsub _]; simpl.
  - apply rtc_once, c_input; [done..|]. by intros from m ->.
  - eapply rtc_l; [by apply (c_input C opts (sc s) i (IPersisted n))|]. apply rtc_once, c_cycle.
  - rewrite app_nil_r. by apply rtc_once, c_crash.
  - by apply rtc_once, c_crash_sending.
Qed.

Lemma safe_reachable_cluster C opts st : safe_reachable C opts st -> reachable C opts (sc st).
Proof.
  induction 1 as [|st st' _ IH H]; [apply r_init|]. eapply reachable_later; [exact IH|by apply safe_cluster_step].
Qed.

(** ** What a crash cuts off *)

Section Cut.
Context (V : Link -> Prop) (Ht : tree V) (l o l' : Log) (Hl : path V l) (Hcut : cut_of l o l').

Lemma cut_path : path V l'.
Proof using Hl Hcut.
  destruct Hcut as (Eb & (n & En) & _), Hl as [[Hs Hc Hr] Hz Hx Hb]. pose proof Eb as E. injection E as Ei Et. split.
  - split; rewrite ?Ei, ?En; [done|by apply contiguous_take|]. rewrite length_take. lia.
  - unfold zero_ok. by rewrite Ei, Et.
  - intros x. unfold links. rewrite Et, En. intros H. by apply Hx, (chain_take _ _ n).
  - by rewrite Eb.
Qed.

Lemma cut_tip : below V (tip l') (tip l).
Proof using Hl Hcut.
  pose proof cut_path as Hl'. destruct Hcut as (Eb & (n & En) & _). injection Eb as Ei Et.
  rewrite (tip_end V l' Hl'), (tip_end V l Hl), Ei, Et, En.
  pose proof (below_chain V (end_term (snapshot_term l) (take n (entries l)))
    (snapshot_index l + Z.of_nat (length (take n (entries l)))) (drop n (entries l))) as H.
  rewrite <- end_term_app, take_drop in H.
  replace (snapshot_index l + Z.of_nat (length (entries l)))
    with (snapshot_index l + Z.of_nat (length (take n (entries l))) + Z.of_nat (length (drop n (entries l))))
    by (rewrite <- (take_drop n (entries l)) at 3; rewrite length_app; lia).
  apply H.
  - pose proof (wf_contiguous _ (pa_wf _ _ Hl)) as Hc. rewrite length_take.
    destruct (Nat.le_ge_cases n (length (entries l))) as [Hle|Hge].
    + rewrite Nat.min_l by done. replace (snapshot_index l + Z.of_nat n + 1) with (snapshot_index l + 1 + Z.of_nat n) by lia.
      by apply contiguous_drop.
    + rewrite drop_ge by done. apply contiguous_nil.
  - intros x Hx. apply (pa_links _ _ Hl). by apply chain_drop in Hx.
Qed.

(** What both logs had is still there. *)
Lemma cut_keeps p : path V o -> below V p (tip l) -> below V p (tip o) -> below V p (tip l').
Proof using Ht Hl Hcut.
  intros Ho Hp Hpo. destruct (Z.le_gt_cases p.1 (Log_last_index l')) as [Hle|Hgt].
  { apply (below_linear V Ht _ _ (tip l)); [done|apply cut_tip|done]. }
  destruct Hcut as (Eb & _ & Hk). injection Eb as Ei _. pose proof (last_index_wf _ (pa_wf _ _ cut_path)).
  destruct (Hk p.1 p.2) as [Hs Hne]; [lia|apply (below_term_at V Ht l Hl); [done|lia]|].
  destruct Hne. apply (below_term_at V Ht o Ho); [done|lia].
Qed.

End Cut.

(** A log that was cut is as good as before for all that both logs held. *)
Lemma cut_holds W C l o l' (acks acks' acks_o : Term -> Index -> Prop) tm tm_o c c_o cs cs_o : tree (link_in W) -> cut_of l o l' ->
  holds_log W C acks l tm c cs -> holds_log W C acks_o o tm_o c_o cs_o ->
  (forall T k, acks' T k -> acks T k /\ acks_o T k) -> holds_log W C acks' l' tm 0 cs.
Proof.
  intros Ht Hcut [Hp Htm Ha Hb Hc Hd] Ho Hacks. pose proof (cut_path _ _ _ _ Hp Hcut) as Hl'.
  pose proof (cut_tip _ _ _ _ Hp Hcut) as Htip. split.
  - done.
  - change (Log_last_term l') with (tip l').2. pose proof (below_le _ Ht _ _ Htip) as [E|[_ Hle]]; [by rewrite E|].
    etransitivity; [exact Hle|done].
  - intros T k Hk. destruct (Hacks T k Hk) as [Hk1 Hk2]. destruct (Ha T k Hk1) as [HT (p0 & E0 & Hp0 & Hcov)].
    destruct (hl_acks _ _ _ _ _ _ _ Ho T k Hk2) as [_ (p1 & E1 & Hp1 & Hcov1)]. split; [done|]. exists p0. split; [done|]. split; [done|].
    assert (E : p1 = p0) by (apply (below_same_index _ Ht); [apply (chain_linear _ Ht T); done || lia|lia]). subst p1.
    intros p Hb0. destruct (Hcov p Hb0) as [Hpl|?]; [|by right]. destruct (Hcov1 p Hb0) as [Hpo|?]; [|by right]. left.
    apply (cut_keeps _ Ht l o); try done. apply Ho.
  - destruct Hcut as (-> & _). done.
  - exists root. split; [done|]. split; [by apply (root_below _ Ht), (tip_known _ Ht)|apply committed_root].
  - intros d Hin. destruct (Hd d Hin) as (p & Ep & Hcp & Hpb). exists p. split; [done|]. split; [done|].
    destruct Hpb as [Hpb|Hpb]; [|right; by eapply below_trans].
    destruct (Z.le_ge_cases p.1 (tip l').1); [left|right]; by apply (below_linear _ Ht _ _ (tip l)).
Qed.

(** ** Who elected the leader of a link *)

Section Elected.
Context (C : Config).

(** [chosen], with what every voter has acknowledged or is about to. *)
Definition elected_by (W : World) (acks : NodeId -> Term -> Index -> Prop) (terms : NodeId -> Term) (x : Link) : Prop :=
  exists b Q n, (n <= length (w_made W))%nat /\ (x ∉ take n (w_made W)) /\ Config_has_quorum C Q = true /\
    (b = root \/ (exists z, z ∈ take n (w_made W) /\ b = pos_of z.2)) /\
    b.2 < e_term x.2 /\ below (link_in W) b (pos_of x.2) /\
    forall i, i ∈ Q -> e_term x.2 <= terms i /\
      forall T k, acks i T k -> T < e_term x.2 -> covers_by W (take n (w_made W)) (votes_for W b) T k.

Lemma elected_chosen W acks terms x : (forall i T k, acked W i T k -> acks i T k) ->
  elected_by W acks terms x -> chosen W C x.
Proof using.
  intros Ha (b & Q & n & H1 & H2 & H3 & H4 & H5 & H6 & H7). exists b, Q, n. split_and!; try done.
  intros i T k Hi Hk HT. by apply (proj2 (H7 i Hi)), HT; apply Ha.
Qed.

(** Later, and for a later link of the same leader. *)
Lemma elected_later W W' s acks acks' (terms terms' : NodeId -> Term) x x' :
  extends W W' -> tree (link_in W) -> tree (link_in W') -> w_made W' = w_made W ++ s ->
  (forall i, terms i <= terms' i) -> (forall i T k, acks' i T k -> T < terms i -> acks i T k) ->
  e_term x'.2 = e_term x.2 -> x' = x \/ x' ∉ w_made W -> below (link_in W') (pos_of x.2) (pos_of x'.2) ->
  elected_by W acks terms x -> elected_by W' acks' terms' x'.
Proof using.
  intros E Ht Ht' Em Hterms Hacks Et Hx' Hxx (b & Q & n & H1 & H2 & H3 & H4 & H5 & H6 & H7).
  assert (En : take n (w_made W') = take n (w_made W)) by (by rewrite Em, take_app_le).
  exists b, Q, n. rewrite En, Et. split_and!; try done.
  - rewrite Em, length_app. lia.
  - destruct Hx' as [->|Hn]; [done|]. intros Hin%subseteq_take. by apply Hn.
  - eapply below_trans; [|exact Hxx]. by apply (below_extends W).
  - intros i Hi. destruct (H7 i Hi) as [Hti Hcov]. split; [by etransitivity|]. intros T k Hk HT.
    assert (Hk' : acks i T k) by (apply Hacks; [done|lia]). pose proof (Hcov T k Hk' HT) as Hc. revert Hc.
    apply covers_extends; try done.
    + intros p _. by apply votes_for_extends.
    + apply subseteq_take.
Qed.
End Elected.

(** ** The invariant *)

Section Cluster.
Context (C : Config) (opts : RaftOptions) (Hjoint : Config_is_joint C = false) (Hsize : (1 < size (voters C))%nat).

Abbreviation leads st := (led C opts (sc st)).
Abbreviation node st i := (nodes (sc st) i).
Abbreviation term_of st := (fun i => hs_term (disk (sc st) i)).

Definition acking_of (st : Safe) (i : NodeId) : Term -> Index -> Prop := acking (world st) i (node st i).

(** The commit indices node [i] has written or holds for written. *)
Definition frame_of (st : Safe) (i : NodeId) : Frame :=
  mkFrame [hs_commit (r_persisted_hard_state (node st i)); hs_commit (disk (sc st) i)] (r_term (node st i)) (fun _ _ => True).

Record told (st : Safe) (from to : NodeId) (m : Message) : Prop := {
  td_linked : msg_linked (link_in (world st)) m;
  td_true : truthful (world st) C (leads st) from to m
}.

Record safe_inv (st : Safe) : Prop := {
  sf_reach : reachable C opts (sc st);
  sf_tree : tree (link_in (world st));
  sf_fit i : fit C (leads st) i (frame_of st i) (world st) 0 (node st i);
  sf_net from to m : (from, to, m) ∈ net (sc st) -> told st from to m;
  sf_made x : x ∈ made st -> exists n, leads st n (e_term x.2) /\ e_term x.2 <= hs_term (disk (sc st) n) /\ behind (e_term x.2) (node st n);
  sf_elected x : x ∈ made st -> elected_by C (world st) (acking_of st) (term_of st) x;
  sf_saved i : holds_log (world st) C (acked (world st) i) (saved st i) (hs_term (disk (sc st) i)) 0 [hs_commit (disk (sc st) i)]
}.

Lemma quorum_has_other Q i : Config_has_quorum C Q = true -> exists j, j ∈ Q /\ j <> i.
Proof using Hsize.
  clear Hjoint. intros [_ [Hm _]]%has_quorum_true.
  destruct (decide (set_Exists (fun j => j <> i) Q)) as [(j & Hj & Hne)|Hall]; [by exists j|exfalso].
  assert (HQ : forall j, j ∈ Q -> j = i) by (intros j Hj; destruct (decide (j = i)); [done|]; destruct Hall; by exists j).
  assert (Hv : voters C <> ∅) by (intros E; rewrite E, size_empty in Hsize; lia). apply (majority_true _ _ Hv) in Hm.
  assert (Hle : (size (voters C ∩ Q) <= 1)%nat).
  { rewrite <- (size_singleton (C := gset Z) i). apply subseteq_size. set_solver. }
  lia.
Qed.

Lemma no_lone_quorum i : Config_has_quorum C {[i]} = false.
Proof using Hsize.
  clear Hjoint. apply not_true_iff_false. intros H. destruct (quorum_has_other _ i H) as (j & Hj & Hne). set_solver.
Qed.

Lemma safe_chosen st : safe_inv st -> forall x, link_in (world st) x -> chosen (world st) C x.
Proof using.
  intros H x Hx. eapply elected_chosen; [|by apply (sf_elected st H)]. intros i T k [(to & m & Hm & ?)|Hh]; [left|by right].
  exists to, m. split; [by left|done].
Qed.

(** The term of a vote that was sent is on disk, and so is that of a leader. *)
Lemma vote_term st i to t : safe_inv st -> vote_sent (sc st) i to t -> t <= hs_term (disk (sc st) i).
Proof using Hjoint.
  intros H Hv. pose proof (reachable_inv C opts Hjoint _ (sf_reach st H)) as Hc. by destruct (ci_sent C _ Hc i to t Hv).
Qed.

Lemma disk_term st i : safe_inv st -> hs_term (disk (sc st) i) <= r_term (node st i).
Proof using Hjoint.
  intros H. pose proof (reachable_inv C opts Hjoint _ (sf_reach st H)) as Hc.
  destruct (ni_phs _ (ci_node C _ Hc i)) as [Hl _]. pose proof (ci_disk C _ Hc i) as Ep. rewrite Ep in Hl. exact Hl.
Qed.

(** A leader's quorum, with its own vote among those sent. *)
Lemma leader_votes cl i : reachable C opts cl -> r_role (nodes cl i) = Leader ->
  vote_sent cl i i (r_term (nodes cl i)) /\
  exists Q, Config_has_quorum C Q = true /\ forall j, j ∈ Q -> j = i \/ vote_sent cl j i (r_term (nodes cl i)).
Proof using Hjoint Hsize.
  intros Hr Hl. pose proof (reachable_inv C opts Hjoint _ Hr) as Hc. pose proof (ci_elected C _ Hc i) as He.
  pose proof (el_quorum _ _ _ He Hl) as HQ. set (t := r_term (nodes cl i)).
  assert (Hv : forall j, j ∈ voters_with true (nodes cl i) -> j = i \/ vote_sent cl j i t).
  { intros j Hj%counted. pose proof (el_votes _ _ _ He (or_intror Hl) j Hj) as Hv. by rewrite (ci_id C _ Hc) in Hv. }
  split; [|by exists (voters_with true (nodes cl i))]. destruct (quorum_has_other _ i HQ) as (j & Hj & Hne).
  destruct (Hv j Hj) as [|Hs]; [done|]. by destruct (ci_request C _ Hc j i t (or_introl Hs)) as [->|].
Qed.

Lemma led_later cl cl' n t : leads_to C opts cl cl' -> led C opts cl n t -> led C opts cl' n t.
Proof using.
  intros Hs (st0 & H0 & Hl & Hr & Et). exists st0. split; [done|]. split; [|done]. by etransitivity.
Qed.

(** ** One step *)

(** What a step at node [i], which makes the links [s], has to establish. *)
Section OneStep.
Context (st st' : Safe) (i : NodeId) (s : list Link).

Record one_safe : Prop := {
  on_leads : leads_to C opts (sc st) (sc st');
  on_nodes j : j <> i -> node st' j = node st j;
  on_disks j : j <> i -> disk (sc st') j = disk (sc st) j;
  on_logs j : j <> i -> saved st' j = saved st j;
  on_made : made st' = made st ++ s;
  on_net : exists ms, net (sc st') = net (sc st) ++ addressed i ms /\ ms ⊆ msgs (node st i);
  on_held : exists hs, held st' = held st ++ hs /\ forall j T k, (j, T, k) ∈ hs -> j = i;
  on_tree : tree (link_in (world st'));
  on_disk : hs_term (disk (sc st) i) <= hs_term (disk (sc st') i);
  on_fit : fit C (leads st') i (frame_of st' i) (world st') 0 (node st' i);
  on_new x : x ∈ s -> x ∈ made st \/ (r_role (node st' i) = Leader /\ e_term x.2 = r_term (node st' i) /\
    elected_by C (world st') (acking_of st') (term_of st') x);
  on_behind t : t <= hs_term (disk (sc st) i) -> behind t (node st i) -> behind t (node st' i);
  on_acks T k : acking_of st' i T k -> T < hs_term (disk (sc st) i) -> acking_of st i T k;
  on_log : holds_log (world st') C (acked (world st') i) (saved st' i) (hs_term (disk (sc st') i)) 0 [hs_commit (disk (sc st') i)]
}.

Context (H : safe_inv st) (S : one_safe).

Lemma one_reach : reachable C opts (sc st').
Proof using H S. eapply reachable_later; [apply (sf_reach st H)|apply S]. Qed.

Lemma one_extends : extends (world st) (world st').
Proof using S.
  destruct (on_net S) as (ms & En & _), (on_held S) as (hs & Eh & _). split; unfold link_in; simpl.
  - rewrite (on_made S). intros x. by apply list_subseteq_app_l.
  - rewrite En. by apply list_subseteq_app_l.
  - rewrite Eh. by apply list_subseteq_app_l.
Qed.

Lemma one_leads n t : leads st n t -> leads st' n t.
Proof using S. apply led_later, S. Qed.

Lemma one_sent j to m : j <> i -> (j, to, m) ∈ w_sent (world st') -> (j, to, m) ∈ w_sent (world st).
Proof using S.
  destruct (on_net S) as (ms & En & _). simpl. rewrite En. intros Hj [?|Hin]%elem_of_app; [done|].
  by apply elem_of_addressed in Hin as [? _].
Qed.

Lemma one_held j T k : j <> i -> (j, T, k) ∈ w_held (world st') -> (j, T, k) ∈ w_held (world st).
Proof using S.
  destruct (on_held S) as (hs & Eh & Hh). simpl. rewrite Eh. intros Hj [?|Hin]%elem_of_app; [done|]. by apply Hh in Hin.
Qed.

Lemma one_acks j T k : acking_of st' j T k -> T < hs_term (disk (sc st) j) -> acking_of st j T k.
Proof using S.
  destruct (decide (j = i)) as [->|Hj]; [apply S|]. unfold acking_of. rewrite (on_nodes S j Hj). intros Hk _. revert Hk.
  apply acking_shrink; intros; [by apply one_sent|by apply one_held].
Qed.

Lemma one_disks j : hs_term (disk (sc st) j) <= hs_term (disk (sc st') j).
Proof using S. destruct (decide (j = i)) as [->|Hj]; [apply S|]. by rewrite (on_disks S j Hj). Qed.

Lemma one_fit j : fit C (leads st') j (frame_of st' j) (world st') 0 (node st' j).
Proof using H S Hjoint.
  destruct (decide (j = i)) as [->|Hj]; [apply S|]. unfold frame_of. rewrite (on_nodes S j Hj), (on_disks S j Hj).
  apply (fit_extends C (leads st) (leads st') j _ (world st)); [apply one_extends|apply H|apply S|apply one_leads| | | |apply H].
  - intros to m. by apply one_sent.
  - intros T k. by apply one_held.
  - intros Hl x Hx Et. unfold link_in in *. simpl in *. rewrite (on_made S) in Hx. apply elem_of_app in Hx as [?|Hx]; [done|].
    destruct (on_new S x Hx) as [?|(Hl' & Et' & _)]; [done|]. exfalso. apply Hj. rewrite <- (on_nodes S j Hj) in Hl, Et.
    eapply (one_leader C opts (sc st') (sc st')); [done|apply one_reach|apply rtc_refl|done|done|congruence].
Qed.

Lemma one_told from to m : (from, to, m) ∈ net (sc st') -> told st' from to m.
Proof using H S.
  destruct (on_net S) as (ms & En & Hms). rewrite En.
  assert (Hold : told st from to m -> told st' from to m).
  { intros [[Hb Hl] Hm]. split; [split; [done|]; intros x Hx; by apply one_extends, Hl|].
    revert Hm. apply truthful_extends; [apply one_extends|apply one_leads]. }
  intros [Hin|Hin]%elem_of_app; apply Hold; [by apply H|]. apply elem_of_addressed in Hin as [-> Hin].
  pose proof (sf_fit st H i) as Hf. split; [|by apply (ft_msgs _ _ _ _ _ _ _ Hf), Hms].
  pose proof (lk_msgs _ _ _ (ft_linked _ _ _ _ _ _ _ Hf)) as Hl. rewrite Forall_forall in Hl. by apply (Hl (to, m)), Hms.
Qed.

Lemma one_made x : x ∈ made st' -> exists n, leads st' n (e_term x.2) /\ e_term x.2 <= hs_term (disk (sc st') n) /\ behind (e_term x.2) (node st' n).
Proof using H S Hjoint Hsize.
  assert (Hold : x ∈ made st -> exists n, leads st' n (e_term x.2) /\ e_term x.2 <= hs_term (disk (sc st') n) /\ behind (e_term x.2) (node st' n)).
  { intros Hx. destruct (sf_made st H x Hx) as (n & Hl & Hd & Hb). exists n. split; [by apply one_leads|].
    pose proof (one_disks n). split; [lia|]. destruct (decide (n = i)) as [->|Hn]; [by apply (on_behind S)|by rewrite (on_nodes S n Hn)]. }
  rewrite (on_made S). intros [?|Hx]%elem_of_app; [auto|]. destruct (on_new S x Hx) as [?|(Hl & Et & _)]; [auto|]. exists i. rewrite Et.
  split; [apply led_now; [apply one_reach|done]|]. split; [|split; [done|by rewrite Hl]].
  destruct (leader_votes _ i one_reach Hl) as [Hv _].
  pose proof (reachable_inv C opts Hjoint _ one_reach) as Hc. by destruct (ci_sent C _ Hc i _ _ Hv).
Qed.

Lemma one_elected x : x ∈ made st' -> elected_by C (world st') (acking_of st') (term_of st') x.
Proof using H S.
  assert (Hold : x ∈ made st -> elected_by C (world st') (acking_of st') (term_of st') x).
  { intros Hx. apply (elected_later C (world st) _ s (acking_of st) _ (term_of st) _ x x); try done.
    - apply one_extends.
    - apply H.
    - apply S.
    - apply S.
    - apply one_disks.
    - intros. by apply one_acks.
    - by left.
    - apply below_refl.
    - by apply H. }
  rewrite (on_made S). intros [?|Hx]%elem_of_app; [auto|]. destruct (on_new S x Hx) as [?|(_ & _ & ?)]; auto.
Qed.

Lemma one_log j : holds_log (world st') C (acked (world st') j) (saved st' j) (hs_term (disk (sc st') j)) 0 [hs_commit (disk (sc st') j)].
Proof using H S.
  destruct (decide (j = i)) as [->|Hj]; [apply S|]. rewrite (on_logs S j Hj), (on_disks S j Hj).
  eapply holds_extends; [apply one_extends|apply H|apply S| |apply H].
  intros T k [(to & m & Hm & ?)|Hh]; [left|right; by apply one_held]. exists to, m. split; [by apply one_sent|done].
Qed.

Lemma one_safe_inv : safe_inv st'.
Proof using H S Hjoint Hsize.
  split; [apply one_reach|apply S|apply one_fit|apply one_told|apply one_made|apply one_elected|apply one_log].
Qed.
End OneStep.

(** ** Inputs *)

Lemma fit_reframe leads i cs T a T' (a' : Term -> Index -> Prop) W k r : fit C leads i (mkFrame cs T a) W k r -> T' <= r_term r ->
  (forall U n, acking W i r U n -> U < T' -> a' U n) -> fit C leads i (mkFrame cs T' a') W k r.
Proof using. intros [] HT Ha. by split. Qed.

Lemma fit_room leads i fr W r : fit C leads i fr W 0 r -> log_room r -> fit C leads i fr W 1 r.
Proof using. intros [? ? [] ? ? ? ? ? ? ? ? ? ?] Hr. split; try done. Qed.

Section InputStep.
Context (st : Safe) (i : NodeId) (inp : Input) (H : safe_inv st) (Hfed : fed C st i inp).
Abbreviation W := (world st).
Abbreviation r := (node st i).
Abbreviation r' := (apply_input inp (nodes (sc st) i)).
Abbreviation cl' := (do_input i inp (sc st)).

Lemma input_step : cluster_step C opts (sc st) cl'.
Proof using Hfed. destruct Hfed as (Hr & _ & Hf & Hin). apply c_input; [done..|]. by intros from m ->. Qed.

Lemma fed_reach : reachable C opts cl'.
Proof using H Hfed. eapply r_step; [apply H|apply input_step]. Qed.

Lemma input_node : nodes cl' i = r'.
Proof using. apply fn_lookup_insert. Qed.

(** A leader's votes were sent before, and its term is on disk. *)
Lemma input_votes : r_role r' = Leader -> vote_sent (sc st) i i (r_term r') /\
  exists Q, Config_has_quorum C Q = true /\ forall j, j ∈ Q -> j = i \/ vote_sent (sc st) j i (r_term r').
Proof using H Hfed Hjoint Hsize. intros Hl. rewrite <- input_node in *. by apply (leader_votes cl' i fed_reach). Qed.

(** The winner of an election: a candidate whose input makes it a leader. *)
Section Winner.
Context (Hcand : r_role r = Candidate) (Hlead : r_role r' = Leader) (Eterm : r_term r' = r_term r).
Abbreviation U := (r_term (nodes (sc st) i)).

Lemma winner_alone x : link_in W x -> e_term x.2 <> U.
Proof using H Hfed Hjoint Hcand Hlead Eterm.
  intros Hx Et. destruct (sf_made st H x Hx) as (n & Hn & _ & Hb & Hc). rewrite Et in *.
  pose proof (led_step _ _ _ _ _ _ input_step Hn) as Hn'. rewrite <- Eterm, <- input_node in Hn'.
  apply led_unique in Hn' as ->; [by apply Hc|done|by rewrite input_node].
Qed.

Lemma winner_standing : standing W i r.
Proof using H Hcand. by apply (ft_candidate _ _ _ _ _ _ _ (sf_fit st H i)). Qed.

(** Every vote it counts took its log into account. *)
Lemma winner_voter j : j = i \/ vote_sent (sc st) j i U -> U <= hs_term (disk (sc st) j) /\
  forall T k, acking_of st j T k -> T < U -> covers W (votes_for W (tip (r_log r))) T k.
Proof using H Hfed Hjoint Hsize Hcand Hlead Eterm.
  intros Hj. destruct (input_votes Hlead) as [Hself _]. rewrite Eterm in Hself. pose proof (sf_tree st H) as Ht.
  assert (Hv : vote_sent (sc st) j i U) by (by destruct Hj as [->|]). split; [by eapply vote_term|]. intros T k Hk HT.
  pose proof (sf_fit st H) as Hf. destruct (decide (j = i)) as [->|Hne].
  - destruct (hl_acks _ _ _ _ _ _ _ (ft_log _ _ _ _ _ _ _ (Hf i)) T k Hk) as [_ Hc].
    apply (covers_weaken W _ (fun p => below (link_in W) p (tip (r_log r)))); [|done..].
    intros p _ Hp. exists (tip (r_log r)). split; [done|]. split; [|apply up_to_date_refl].
    apply (tip_known _ Ht). apply (fit_path _ _ _ _ _ _ _ (Hf i)).
  - destruct Hv as (dest & m & [[Hg ->]|[_ E]] & Etm & Hin); [|by destruct Hne].
    destruct (ft_votes _ _ _ _ _ _ _ (Hf j) i m (or_introl Hin) Hg) as (b & m' & Hm' & Hb & Etm' & _ & Hcov).
    assert (Eb : (b.1, b.2) = tip (r_log r)).
    { apply (sg_asked _ _ _ winner_standing j m'); [by left|done|congruence]. }
    rewrite <- Eb, <- surjective_pairing. rewrite Etm in Hcov. by apply Hcov.
Qed.

Lemma winner_tree W' kind : grows W W' (fresh U (r_log r) kind) -> tree (link_in W').
Proof using H Hfed Hjoint Hsize Hcand Hlead Eterm.
  intros G. pose proof (sf_tree st H) as Ht. pose proof (sf_fit st H i) as Hf. pose proof (fit_path _ _ _ _ _ _ _ Hf) as Hp.
  apply (tree_extend (link_in W) _ (fresh U (r_log r) kind)); try done.
  - intros y. apply (ex_made _ _ (grows_extends _ _ _ G)).
  - apply G. by right.
  - intros y. apply G.
  - simpl. replace (_ + 1 - 1) with (Log_last_index (r_log r)) by lia. by apply (tip_known _ Ht).
  - apply (hl_term _ _ _ _ _ _ _ (ft_log _ _ _ _ _ _ _ Hf)).
  - apply winner_standing.
  - intros y Hy Ey. by destruct (winner_alone y).
Qed.

Lemma winner_elected W' s kind : grows W W' (fresh U (r_log r) kind) -> w_made W' = w_made W ++ s ->
  elected_by C W' (acking_of st) (term_of st) (fresh U (r_log r) kind).
Proof using H Hfed Hjoint Hsize Hcand Hlead Eterm.
  intros G Em. pose proof (sf_tree st H) as Ht. pose proof (sf_fit st H i) as Hf. pose proof (fit_path _ _ _ _ _ _ _ Hf) as Hp.
  pose proof (grows_extends _ _ _ G) as E. pose proof (winner_tree W' kind G) as Ht'. set (x := fresh _ _ _) in *.
  destruct (input_votes Hlead) as (_ & Q & HQ & Hvotes). rewrite Eterm in Hvotes.
  exists (tip (r_log r)), Q, (length (w_made W)).
  assert (En : take (length (w_made W)) (w_made W') = w_made W) by (by rewrite Em, take_app_length).
  rewrite En. pose proof (tip_known _ Ht _ Hp) as Hk. split_and!; [rewrite Em, length_app; lia| |done| | | |].
  - intros Hx. by apply (winner_alone x).
  - destruct Hk as [->|(z & Hz & ->)]; [by left|right]. by exists z.
  - pose proof (hl_term _ _ _ _ _ _ _ (ft_log _ _ _ _ _ _ _ Hf)) as Hle. pose proof (sg_term _ _ _ winner_standing) as H1.
    change (Log_last_term (r_log r)) with (tip (r_log r)).2 in Hle.
    destruct Hk as [->|(z & Hz & Ez)]; [simpl; lia|]. pose proof (winner_alone z Hz). rewrite Ez in *. simpl in *. lia.
  - eapply (below_link _ _ (Log_last_term (r_log r)) x.2); [apply G; by right|done|]. simpl.
    replace (_ + 1 - 1) with (Log_last_index (r_log r)) by lia. apply below_refl.
  - intros j Hj. destruct (winner_voter j (Hvotes j Hj)) as [Hd Hcov]. split; [done|]. intros T k Hk' HT.
    pose proof (Hcov T k Hk' HT) as Hc. revert Hc. apply (covers_extends W W' E Ht Ht'); [|done..].
    intros p _. by apply votes_for_extends.
Qed.
(** A committed position is in its log already. *)
Lemma winner_committed p : committed W C p U -> below (link_in W) p (tip (r_log r)).
Proof using H Hfed Hjoint Hsize Hcand Hlead Eterm.
  intros Hp. set (x := fresh U (r_log r) Noop). set (W1 := mkWorld (w_made W ++ [x]) (w_sent W) (w_held W)).
  assert (G : grows W W1 x).
  { split; [|done..]. intros y. unfold link_in. simpl. by rewrite elem_of_app, list_elem_of_singleton. }
  pose proof (sf_tree st H) as Ht. pose proof (winner_tree W1 Noop G) as Ht1. pose proof (grows_extends _ _ _ G) as E.
  assert (Hel : forall y, link_in W1 y -> elected_by C W1 (acking_of st) (term_of st) y).
  { intros y [Hy| ->]%(gr_made _ _ _ G); [|by apply (winner_elected W1 [x])].
    apply (elected_later C W W1 [x] (acking_of st) _ (term_of st) _ y y); try done; [by left|apply below_refl|by apply H]. }
  assert (Hch : forall y, link_in W1 y -> chosen W1 C y).
  { intros y Hy. eapply elected_chosen; [|by apply Hel]. intros j T k [(to & m & ? & ?)|?]; [left|by right].
    exists to, m. split; [by left|done]. }
  assert (Hkp : known (link_in W) p).
  { destruct Hp as [->|(q & Q & Hpq & Hq & _)]; [by left|]. by eapply (below_known _ Ht). }
  destruct (committed_on_chain W1 C Ht1 Hch p U x) as (y & Hy & Ey & Hb); [by apply (committed_extends W)|apply G; by right|done|].
  apply (gr_made _ _ _ G) in Hy as [Hy| ->]; [by destruct (winner_alone y)|].
  pose proof (fit_path _ _ _ _ _ _ _ (sf_fit st H i)) as Hpath.
  apply (below_shrink (link_in W) (link_in W1) (ex_made _ _ E) p (tip (r_log r)) Ht Ht1); [by apply (tip_known _ Ht)|].
  apply below_inv in Hb as [Eq|(t & e & Hv & Eq & Hb2)].
  - exfalso. destruct Hkp as [Er|(z & Hz & Ez)].
    + rewrite Er in Eq. injection Eq as _ Eq. simpl in Eq. pose proof (sg_term _ _ _ winner_standing). lia.
    + apply (winner_alone z Hz). rewrite Ez in Eq. by injection Eq.
  - assert (Ex : (t, e) = x).
    { apply (tr_unique _ Ht1); [done|apply G; by right| |]; by injection Eq. }
    rewrite <- Ex in Eq. injection Ex as -> ->. simpl in Hb2.
    by replace (Log_last_index (r_log r) + 1 - 1) with (Log_last_index (r_log r)) in Hb2 by lia.
Qed.

Lemma winner_wins : wins C i W r.
Proof using H Hfed Hjoint Hsize Hcand Hlead Eterm.
  split; [apply winner_alone|apply winner_committed|].
  destruct (input_votes Hlead) as [(dest & m & [[Hg ->]|[Ha _]] & Et & Hin) _]; rewrite Eterm in Et; [|by exists dest, m].
  destruct (ft_votes _ _ _ _ _ _ _ (sf_fit st H i) i m (or_introl Hin) Hg) as (b & m' & Hm' & Hb & Et' & _).
  exists i, m'. split; [done|]. split; [|congruence]. unfold asks. by rewrite Hb.
Qed.
End Winner.

(** The frame a step is seen in: the acknowledgements up to it. *)
Abbreviation fr := (mkFrame (fr_commits (frame_of st i)) (r_term (nodes (sc st) i)) (acking_of st i)).

Lemma input_fares : fares C (leads st) i fr W (r_log r) r'.
Proof using H Hfed Hjoint Hsize.
  destruct Hfed as (Hroom & Hlog & Hfix & Hin). pose proof (safe_chosen st H) as Hch. pose proof (sf_tree st H) as Ht.
  apply fares_input; try done.
  - apply no_lone_quorum.
  - intros p T x. by apply committed_on_chain.
  - intros p T x. by apply committed_after.
  - apply (fit_reframe _ _ _ (r_term r) (fun _ _ => True)); [|done|by intros].
    apply fit_room; [apply H|done].
  - destruct inp; try done.
    + destruct (sf_net st H _ _ _ Hin) as [[Hb Hl] Htr]. split; try done.
    + destruct Hin as (? & ? & ? & ?). by split_and!.
  - intros Hc Hl Et. by apply winner_wins.
  - intros from Hl Hne Hr. apply Hne. by eapply led_unique.
  - intros Hr. apply led_now; [apply H|done].
Qed.

Abbreviation st' := (feed i inp st).
Abbreviation W' := (world (feed i inp st)).

Lemma fed_promoted : promoted r r'.
Proof using H Hfed.
  destruct Hfed as (Hroom & Hlog & _). pose proof (fit_room _ _ _ _ _ (sf_fit st H i) Hlog) as Hf.
  apply promoted_input; [|done]. by apply (linked_weaken (ft_linked _ _ _ _ _ _ _ Hf)).
Qed.

Lemma input_term : r_role r' = Leader -> r_term r' = r_term r.
Proof using H Hfed Hjoint Hsize.
  intros Hl. destruct (input_votes Hl) as [Hv _]. apply vote_term in Hv; [|done].
  pose proof (disk_term st i H). pose proof (pm_term _ _ fed_promoted). lia.
Qed.

Lemma input_grows kind : fresh (r_term r') (r_log r) kind ∈ links (r_log r') ->
  (forall W1, grows W W1 (fresh (r_term r') (r_log r) kind) -> fit C (leads st) i fr W1 0 r') -> grows W W' (fresh (r_term r') (r_log r) kind).
Proof using.
  intros Hin Hfit. set (x := fresh _ _ _) in *. set (W1 := mkWorld (w_made W ++ [x]) (w_sent W) (w_held W)).
  assert (G : grows W W1 x).
  { split; [|done..]. intros y. unfold link_in. simpl. by rewrite elem_of_app, list_elem_of_singleton. }
  specialize (Hfit W1 G). split; [|done..]. intros y. unfold link_in. simpl. rewrite elem_of_app. split.
  - intros [?|Hy]; [by left|]. apply (gr_made _ _ _ G). by apply (lk_links _ _ _ (ft_linked _ _ _ _ _ _ _ Hfit)).
  - intros [?| ->]; [by left|by right].
Qed.

(** The leader that makes a link was elected. *)
Lemma input_elected kind : r_role r' = Leader -> grows W W' (fresh (r_term r') (r_log r) kind) -> tree (link_in W') ->
  elected_by C W' (acking_of st) (term_of st) (fresh (r_term r') (r_log r) kind).
Proof using H Hfed Hjoint Hsize.
  intros Hl G Ht'. pose proof (input_term Hl) as Et. rewrite Et in *.
  destruct (pm_leader _ _ fed_promoted Hl) as [(Hl0 & _ & _)|[?|[Hc _]]]; [|lia|by eapply winner_elected].
  destruct (ft_leader _ _ _ _ _ _ _ (sf_fit st H i) Hl0) as [(y & Hy & Ey & Ety) Hlast _ _ _].
  eapply (elected_later C W W' _ (acking_of st) _ (term_of st) _ y); try done.
  - by eapply grows_extends.
  - apply H.
  - right. intros Hin. pose proof (Hlast _ Hin eq_refl) as Hi. simpl in Hi. lia.
  - rewrite Ey. eapply (below_link _ _ (Log_last_term (r_log r))); [apply G; by right|done|]. simpl.
    replace (_ + 1 - 1) with (Log_last_index (r_log r)) by lia. apply below_refl.
  - by apply H.
Qed.

Lemma input_fits : tree (link_in W') /\ fit C (leads st) i fr W' 0 r' /\
  forall x, x ∈ links (r_log r') -> x ∈ made st \/
    (r_role r' = Leader /\ e_term x.2 = r_term r' /\ elected_by C W' (acking_of st) (term_of st) x).
Proof using H Hfed Hjoint Hsize.
  pose proof (sf_tree st H) as Ht. destruct input_fares as [Hf|(kind & Hl & Hin & Hf)].
  - assert (Hlk : forall x, x ∈ links (r_log r') -> x ∈ made st) by apply (lk_links _ _ _ (ft_linked _ _ _ _ _ _ _ Hf)).
    assert (Hs : forall x, link_in W x <-> link_in W' x).
    { intros x. unfold link_in. simpl. rewrite elem_of_app. split; [by left|]. intros [?|?]; auto. }
    pose proof (tree_same _ _ Hs Ht) as Ht'. split; [done|]. split; [|intros x Hx; left; auto].
    apply (fit_extends C (leads st) (leads st) i fr W W'); try done.
    + split; try done. intros x. apply Hs.
    + intros _ x Hx _. by apply Hs.
  - assert (G : grows W W' (fresh (r_term r') (r_log r) kind)) by (apply input_grows; [done|]; intros W1 G1; by apply Hf).
    destruct (Hf W' G) as [Ht' Hfit]. split; [done|]. split; [done|]. intros x Hx.
    assert (Hx' : link_in W' x) by (unfold link_in; simpl; apply elem_of_app; by right).
    apply (gr_made _ _ _ G) in Hx' as [?| ->]; [by left|right]. split; [done|]. split; [done|]. by apply input_elected.
Qed.

Lemma input_one : one_safe st st' i (links (r_log r')).
Proof using H Hfed Hjoint Hsize.
  destruct input_fits as (Ht' & Hf & Hnew). pose proof (disk_term st i H) as Hd. pose proof Hfed as (Hroom & _).
  assert (En : node st' i = r') by apply fn_lookup_insert.
  assert (Eother : forall j, j <> i -> node st' j = node st j) by (intros j Hj; by apply fn_lookup_insert_ne).
  assert (E : extends W W') by (split; [intros x; by apply list_subseteq_app_l|done..]).
  assert (Hacks : forall T k, acking_of st' i T k -> T < hs_term (disk (sc st) i) -> acking_of st i T k).
  { intros T k Hk HT. unfold acking_of in Hk. rewrite En in Hk. apply (proj2 (ft_since _ _ _ _ _ _ _ Hf)); [done|simpl; lia]. }
  assert (Hled : leads_to C opts (sc st) (sc st')) by apply rtc_once, input_step.
  split; try done.
  - exists []. simpl. rewrite app_nil_r. split; [done|]. apply list_subseteq_nil.
  - exists []. rewrite app_nil_r. split; [done|]. by intros j T k ?%elem_of_nil.
  - rewrite En. unfold frame_of. rewrite En, (ev_phs _ _ (evolves_input inp r Hroom)).
    apply (fit_reframe _ _ _ (r_term r) (acking_of st i)); [|done|done].
    apply (fit_extends C (leads st) _ i _ W' W'); try done. intros j T. by apply led_later.
  - rewrite En. intros x Hx. destruct (Hnew x Hx) as [?|(? & ? & He)]; [by left|right]. split; [done|]. split; [done|].
    apply (elected_later C W' W' [] (acking_of st) _ (term_of st) _ x x); try done; [by rewrite app_nil_r| |by left|apply below_refl].
    intros j T k Hk HT. destruct (decide (j = i)) as [->|Hj]; [auto|]. unfold acking_of in *. by rewrite Eother in Hk.
  - rewrite En. intros t _. apply promoted_behind, fed_promoted.
  - eapply holds_extends; [exact E|apply H|done| |apply H]. done.
Qed.

Lemma input_inv : safe_inv st'.
Proof using H Hfed Hjoint Hsize. eapply one_safe_inv; [done|apply input_one]. Qed.
End InputStep.

(** ** Driver turns *)

(** The commit index that reaches the disk. *)
Lemma disk_after_commit q : node_inv q -> let d := disk_after (ready q).1 (ready q).2 in
  hs_commit d = r_commit q \/ hs_commit d = hs_commit (r_persisted_hard_state q).
Proof using.
  intros Hn. pose proof (ready_rel_ready q) as R. unfold disk_after. rewrite (rr_hs _ _ _ R), (rr_phs _ _ _ R), (ni_hs _ Hn).
  destruct (_ && _); [by left|by right].
Qed.

Section TurnStep.
Context (st : Safe) (i : NodeId) (n : Index) (H : safe_inv st) (Hroom : term_room (node st i)).
Abbreviation W := (world st).
Abbreviation r := (node st i).
Abbreviation st' := (take_turn i n st).
Abbreviation W' := (world (take_turn i n st)).

Lemma turn_node : node st' i = cycle (report_persisted n r).
Proof using. unfold take_turn, do_cycle, do_input. cbn [sc nodes]. by rewrite !fn_lookup_insert. Qed.

Lemma turn_disk : disk (sc st') i = disk_after (ready (report_persisted n r)).1 (ready (report_persisted n r)).2.
Proof using. unfold take_turn, do_cycle, do_input. cbn [sc nodes disk]. by rewrite !fn_lookup_insert. Qed.

Lemma turn_other j : j <> i -> node st' j = node st j /\ disk (sc st') j = disk (sc st) j.
Proof using. intros Hj. unfold take_turn, do_cycle, do_input. cbn [sc nodes disk]. by rewrite !fn_lookup_insert_ne. Qed.

Lemma turn_world : W' = flushed i r W.
Proof using.
  unfold world, flushed, take_turn, do_cycle, do_input. cbn [sc net made held w_made w_sent w_held nodes]. rewrite fn_lookup_insert.
  by rewrite (rr_msgs _ _ _ (ready_rel_ready _)).
Qed.

Lemma turn_steps : leads_to C opts (sc st) (sc st').
Proof using Hroom. eapply safe_cluster_step. by apply s_turn. Qed.

Lemma turn_inv_node : node_inv (report_persisted n r).
Proof using H Hjoint Hroom.
  apply (node_inv_input (IPersisted n)); [by split|]. apply (reachable_inv C opts Hjoint _ (sf_reach st H)).
Qed.

Lemma turn_facts : r_term (node st' i) = r_term r /\ r_role (node st' i) = r_role r /\ r_log (node st' i) = r_log r /\
  msgs (node st' i) = [] /\ r_persisted_hard_state (node st' i) = disk (sc st') i /\ hs_term (disk (sc st') i) = r_term r.
Proof using H Hjoint Hroom.
  rewrite turn_node, turn_disk. destruct (keeps_cycle (report_persisted n r)) as (_ & Er & Eb & Ep & Em). rewrite cycle_log, Er, Em, Ep.
  split; [exact (f_equal fst Eb)|]. split_and!; try done.
  exact (f_equal fst (disk_after_ballot _ turn_inv_node)).
Qed.

Lemma turn_one : one_safe st st' i [].
Proof using H Hjoint Hsize Hroom.
  pose proof (sf_tree st H) as Ht. pose proof (disk_term st i H) as Hd. destruct turn_facts as (Et & Er & El & Em & Ep & Ed).
  pose proof (disk_after_commit _ turn_inv_node) as Hcm. cbv zeta in Hcm. rewrite <- turn_disk in Hcm.
  pose proof (sf_fit st H i) as Hf.
  assert (Hf' : fit C (leads st) i (mkFrame [hs_commit (disk (sc st') i); hs_commit (disk (sc st') i)] (r_term r) (fun _ _ => True)) W' 0 (node st' i)).
  { rewrite turn_node, turn_world. apply (fit_turn C (leads st) i (frame_of st i)); [done..|].
    intros c Hc. repeat (apply elem_of_cons in Hc as [->|Hc]; [destruct Hcm as [->| ->]; simpl; [by left|by right; left]|]). by apply elem_of_nil in Hc. }
  assert (Hacks : forall T k, acking_of st' i T k -> T < r_term r -> acking_of st i T k).
  { intros T k Hk HT. unfold acking_of in Hk. rewrite turn_world in Hk. apply acking_flushed in Hk as [?|(_ & -> & _)]; [done|lia|done]. }
  split; try done.
  - apply turn_steps.
  - intros j Hj. by apply turn_other.
  - intros j Hj. by apply turn_other.
  - intros j Hj. simpl. by apply fn_lookup_insert_ne.
  - simpl. by rewrite app_nil_r.
  - exists (msgs r). split; [|done]. exact (f_equal w_sent turn_world).
  - exists (holding i r). split; [done|]. unfold holding. intros j T k. case_bool_decide; [|by intros ?%elem_of_nil].
    by intros [= -> _ _]%list_elem_of_singleton.
  - rewrite Ed. lia.
  - unfold frame_of. rewrite Ep, Et.
    apply (fit_extends C (leads st) _ i _ W' W'); try done. intros j T. apply led_later, turn_steps.
  - by intros x ?%elem_of_nil.
  - intros t _. unfold behind. by rewrite Et, Er.
  - intros T k Hk HT. apply Hacks; [done|lia].
  - rewrite Ed. assert (Esv : saved st' i = r_log (node st' i)) by (rewrite El; apply fn_lookup_insert). rewrite Esv, <- Et.
    destruct (ft_log _ _ _ _ _ _ _ Hf') as [? ? Ha ? ? Hdk]. split; try done.
    + intros T k [(to & m & ? & ?)|?]; apply Ha; [left; exists to, m; split; [by left|done]|by right].
    + exists root. split; [done|]. split; [by apply (root_below _ Ht), (tip_known _ Ht)|apply committed_root].
    + intros c Hc. apply Hdk. apply list_elem_of_singleton in Hc as ->. by left.
Qed.

Lemma turn_inv : safe_inv st'.
Proof using H Hjoint Hsize Hroom. eapply one_safe_inv; [done|apply turn_one]. Qed.
End TurnStep.

(** ** Crashes *)

Lemma holds_fewer W acks l tm c cs cs' : (forall d, d ∈ cs' -> d = c \/ d ∈ cs) -> holds_log W C acks l tm c cs -> holds_log W C acks l tm c cs'.
Proof using.
  intros Hs [? ? ? ? Hc Hd]. split; try done. intros d Hin. destruct (Hs d Hin) as [->|?]; [|auto].
  destruct Hc as (p & ? & ? & ?). exists p. split_and!; [done..|by left].
Qed.

Section CrashStep.
Context (st : Safe) (i : NodeId) (snap : option Snapshot) (es : list Entry) (sent : list (NodeId * Message)) (d : HardState)
  (dk : NodeId -> HardState).
Context (H : safe_inv st).
Abbreviation W := (world st).
Abbreviation mem := (node st i).
Abbreviation r := (Raft_restore i opts d snap es C).
Abbreviation st' := (restart i r dk sent st).
Abbreviation W' := (world st').
Context (Hes : Forall ordinary es) (Hsnap : forall s, snap = Some s -> sn_config s = C).
Context (Edk : dk i = d) (Eo : forall j, j <> i -> dk j = disk (sc st) j).
Context (Hsent : sent ⊆ msgs mem) (Hsteps : leads_to C opts (sc st) (sc st')).
Context (Hle : hs_term (disk (sc st) i) <= hs_term d).

Lemma crash_extends : extends W W'.
Proof using. split; simpl; [done|by apply list_subseteq_app_l|done]. Qed.

Lemma crash_says to m : (i, to, m) ∈ w_sent W' -> says W i mem to m.
Proof using Hsent. simpl. intros [?|Hin]%elem_of_app; [by left|right]. apply elem_of_addressed in Hin as [_ Hin]. by apply Hsent. Qed.

Lemma crash_acks T k : acking W' i r T k -> acking W i mem T k.
Proof using Hsent.
  intros [(to & m & [Hs|Hs] & ?)|?]; [|by apply elem_of_nil in Hs|by right]. left. exists to, m. split; [by apply crash_says|done].
Qed.

Lemma crash_node : node st' i = r.
Proof using. apply fn_lookup_insert. Qed.

Lemma crash_one : holds_log W' C (acking W' i r) (r_log r) (hs_term d) 0 [hs_commit d] -> one_safe st st' i [].
Proof using H Hjoint Hes Hsnap Edk Eo Hsent Hsteps Hle.
  intros Hh. pose proof (sf_tree st H) as Ht. pose proof crash_extends as E. pose proof crash_node as En.
  assert (Hc' : cluster_inv C (sc st')) by (eapply reachable_inv; [done|eapply reachable_later; [apply H|done]]).
  split; try done.
  - intros j Hj. simpl. by apply fn_lookup_insert_ne.
  - intros j Hj. simpl. by apply fn_lookup_insert_ne.
  - simpl. by rewrite app_nil_r.
  - exists sent. by split.
  - exists []. simpl. rewrite app_nil_r. split; [done|]. by intros j T k ?%elem_of_nil.
  - simpl. by rewrite Edk.
  - unfold frame_of. rewrite En. change (disk (sc st') i) with (dk i). rewrite Edk.
    apply (fit_restored C (leads st) _ i (frame_of st i) W W' opts d snap es 0 mem); try done.
    + apply H.
    + apply crash_says.
    + by apply fixed_restore.
    + intros to m Hin Hv. destruct Hv as [Hg|Ha].
      * destruct (ci_sent C _ Hc' i to (m_term m)) as [Hl _]; [exists to, m; split; [by left|done]|]. simpl in Hl. by rewrite Edk in Hl.
      * destruct (ci_sent C _ Hc' i i (m_term m)) as [Hl _]; [exists to, m; split; [by right|done]|]. simpl in Hl. by rewrite Edk in Hl.
  - by intros x ?%elem_of_nil.
  - intros t Ht' _. rewrite En. split; [by etransitivity|done].
  - intros T k Hk _. unfold acking_of in *. rewrite En in Hk. by apply crash_acks.
  - change (disk (sc st') i) with (dk i). rewrite Edk.
    assert (Esv : saved st' i = r_log r) by apply fn_lookup_insert. rewrite Esv.
    destruct Hh as [? ? Ha ? ? ?]. split; try done. intros T k [(to & m & ? & ?)|?]; apply Ha; [left|by right].
    exists to, m. split; [by left|done].
Qed.

(** The three ways the log comes back. *)
Lemma crash_before : sent = [] -> d = disk (sc st) i -> cut_of (saved st i) (r_log mem) (r_log r) ->
  holds_log W' C (acking W' i r) (r_log r) (hs_term d) 0 [hs_commit d].
Proof using H.
  intros Es Ed Hcut. pose proof (sf_saved st H i) as Hs. rewrite <- Ed in Hs.
  apply (holds_extends C W W' crash_extends (sf_tree st H) (sf_tree st H) (acking W i r)).
  - intros T k [(to & m & [Hin|Hin] & ?)|?]; [|by apply elem_of_nil in Hin|by right]. left. exists to, m. split; [left|done].
    simpl in Hin. by rewrite Es, app_nil_r in Hin.
  - eapply (cut_holds W C _ _ _ (acked W i)); [apply H|exact Hcut|exact Hs|apply (sf_fit st H i)|].
    intros T k [(to & m & [Hin|Hin] & ?)|?]; [|by apply elem_of_nil in Hin|by split; right].
    split; left; exists to, m; [done|]. split; [by left|done].
Qed.

Lemma crash_after : sent = [] -> hs_term d = r_term mem -> hs_commit d = r_commit mem \/ hs_commit d ∈ fr_commits (frame_of st i) ->
  cut_of (r_log mem) (saved st i) (r_log r) -> holds_log W' C (acking W' i r) (r_log r) (hs_term d) 0 [hs_commit d].
Proof using H.
  intros Es Ed Hcm Hcut. pose proof (ft_log _ _ _ _ _ _ _ (sf_fit st H i)) as Hm. rewrite <- Ed in Hm.
  apply (holds_fewer W _ _ _ _ _ [hs_commit d]) in Hm; [|by intros c [= ->]%list_elem_of_singleton].
  apply (holds_extends C W W' crash_extends (sf_tree st H) (sf_tree st H) (acking W i r)).
  - intros T k [(to & m & [Hin|Hin] & ?)|?]; [|by apply elem_of_nil in Hin|by right]. left. exists to, m. split; [left|done].
    simpl in Hin. by rewrite Es, app_nil_r in Hin.
  - eapply (cut_holds W C _ _ _ (acking W i mem)); [apply H|exact Hcut|exact Hm|apply (sf_saved st H i)|].
    intros T k [(to & m & [Hin|Hin] & ?)|?]; [|by apply elem_of_nil in Hin|by split; right].
    split; left; exists to, m; [|done]. split; [by left|done].
Qed.

Lemma crash_written : hs_term d = r_term mem -> hs_commit d = r_commit mem \/ hs_commit d ∈ fr_commits (frame_of st i) ->
  r_log r = r_log mem -> holds_log W' C (acking W' i r) (r_log r) (hs_term d) 0 [hs_commit d].
Proof using H Hsent.
  intros Ed Hcm El. pose proof (ft_log _ _ _ _ _ _ _ (sf_fit st H i)) as Hm. rewrite <- Ed in Hm.
  apply (holds_fewer W _ _ _ _ _ [hs_commit d]) in Hm; [|by intros c [= ->]%list_elem_of_singleton]. rewrite El.
  apply (holds_extends C W W' crash_extends (sf_tree st H) (sf_tree st H) (acking W i mem)); [apply crash_acks|].
  destruct Hm as [Hp ? ? ? _ ?]. split; try done. exists root. split; [done|].
  split; [by apply (root_below _ (sf_tree st H)), (tip_known _ (sf_tree st H))|apply committed_root].
Qed.
End CrashStep.

Lemma safe_inv_step st st' : safe_inv st -> safe_step C opts st st' -> safe_inv st'.
Proof using Hjoint Hsize.
  intros H Hstep. pose proof (safe_cluster_step _ _ _ _ Hstep) as Hsteps. destruct Hstep as [st i inp Hf|st i n Hr|st i snap es mem r He Hs Hsv|st i snap es sent mem d r He Hs Hcut Hsub Hsent].
  - by apply input_inv.
  - by apply turn_inv.
  - apply (one_safe_inv st _ i []); [done|].
    apply crash_one; try done; [apply list_subseteq_nil|]. destruct Hsv as [?|[? ?]]; [by apply crash_before|].
    apply crash_after; try done. right. by right; left.
  - rewrite (rr_msgs _ _ _ (ready_rel_ready _)) in Hsub.
    pose proof (ci_node C _ (reachable_inv C opts Hjoint _ (sf_reach st H)) i) as Hn.
    assert (Ed : hs_term d = r_term mem) by exact (f_equal fst (disk_after_ballot _ Hn)).
    assert (Hcm : hs_commit d = r_commit mem \/ hs_commit d ∈ fr_commits (frame_of st i)).
    { destruct (disk_after_commit _ Hn) as [?|E]; [by left|right]. fold mem d in E. rewrite E. by left. }
    apply (one_safe_inv st _ i []); [done|]. apply crash_one; try done.
    + apply fn_lookup_insert.
    + intros j Hj. by apply fn_lookup_insert_ne.
    + rewrite Ed. by apply disk_term.
    + destruct Hsent as [->|El]; [by apply crash_after|by apply crash_written].
Qed.

Lemma safe_inv_init : safe_inv (safe_init C opts).
Proof using.
  set (st := safe_init C opts).
  assert (Hnone : forall x, ~ link_in (world st) x) by (by intros x ?%elem_of_nil).
  assert (Hp : forall i, path (link_in (world st)) (r_log (node st i))).
  { intros i. split; [split; [done|apply contiguous_nil|done]|done|by intros x ?%elem_of_nil|by left]. }
  assert (Hh : forall i (acks : Term -> Index -> Prop) cs, (forall T k, ~ acks T k) -> (forall c, c ∈ cs -> c = 0) ->
    holds_log (world st) C acks (r_log (node st i)) 0 0 cs).
  { intros i acks cs Ha Hc. assert (Hr : exists p, p.1 = 0 /\ below (link_in (world st)) p (tip (r_log (node st i))) /\ committed (world st) C p 0).
    { exists root. split; [done|]. split; [apply below_refl|apply committed_root]. }
    split; try done; [by intros T k ?%Ha|apply committed_root|]. intros c ->%Hc. destruct Hr as (p & ? & ? & ?). exists p. auto. }
  assert (Hs : forall i to m, ~ says (world st) i (node st i) to m) by (intros i to m [?%elem_of_nil|?%elem_of_nil]; done).
  assert (Hk : forall i T k, ~ acking (world st) i (node st i) T k).
  { intros i T k [(to & m & ?%Hs & _)|?%elem_of_nil]; done. }
  split.
  - apply r_init.
  - split; intros x; [intros y Hx|intros Hx|intros Hx|intros y Hx]; by destruct (Hnone x).
  - intros i. split; try done.
    + apply Hh; [apply Hk|]. intros c Hc. repeat (apply elem_of_cons in Hc as [->|Hc]; [done|]). by apply elem_of_nil in Hc.
    + intros to m ?%elem_of_nil. done.
    + by intros to m ?%Hs.
    + by intros to m ? ? ?%Hs.
  - by intros from to m ?%elem_of_nil.
  - by intros x ?%elem_of_nil.
  - by intros x ?%elem_of_nil.
  - intros i. apply Hh; [|by intros c ->%list_elem_of_singleton]. intros T k [(to & m & ?%elem_of_nil & _)|?%elem_of_nil]; done.
Qed.

Lemma safe_reachable_inv st : safe_reachable C opts st -> safe_inv st.
Proof using Hjoint Hsize. induction 1 as [|st st' _ IH Hs]; [apply safe_inv_init|by eapply safe_inv_step]. Qed.

End Cluster.

(** ** Across time *)

Lemma safe_step_extends C opts st st' : safe_step C opts st st' -> extends (world st) (world st').
Proof.
  intros [s i inp _|s i n _|s i snap es mem r _ _ _|s i snap es sent mem d r _ _ _ _ _]; split; unfold link_in; simpl; try done.
  - intros x. by apply list_subseteq_app_l.
  - by apply list_subseteq_app_l.
  - by apply list_subseteq_app_l.
  - by rewrite app_nil_r.
  - by apply list_subseteq_app_l.
Qed.

Lemma safe_later C opts st st' : safe_reachable C opts st -> rtc (safe_step C opts) st st' ->
  safe_reachable C opts st' /\ extends (world st) (world st').
Proof.
  intros Hr Hs. induction Hs as [|x y z Hxy _ IH]; [done|]. destruct IH as [? E]; [by eapply sr_step|].
  split; [done|]. etransitivity; [by eapply safe_step_extends|exact E].
Qed.

(** What a node of [st] holds up to its commit index, in a later state. *)
Section Later.
Context (C : Config) (opts : RaftOptions) (Hjoint : Config_is_joint C = false) (Hsize : (1 < size (voters C))%nat).
Context (st st' : Safe) (Hr : safe_reachable C opts st) (Hs : rtc (safe_step C opts) st st').
Abbreviation V' := (link_in (world st')).

Lemma later_tree : tree V'.
Proof using Hjoint Hsize Hr Hs. destruct (safe_later _ _ _ _ Hr Hs) as [Hr' _]. eapply sf_tree, safe_reachable_inv; eauto. Qed.

Lemma later_commit i : path V' (r_log (nodes (sc st) i)) /\
  exists p, p.1 = r_commit (nodes (sc st) i) /\ below V' p (tip (r_log (nodes (sc st) i))) /\ committed (world st') C p (r_term (nodes (sc st) i)).
Proof using Hjoint Hsize Hr Hs.
  destruct (safe_later _ _ _ _ Hr Hs) as [_ E]. pose proof (sf_fit _ _ _ (safe_reachable_inv C opts Hjoint Hsize st Hr) i) as Hf.
  split; [eapply path_extends; [exact E|by eapply fit_path]|].
  destruct (fit_committed _ _ _ _ _ _ _ Hf) as (p & Ep & Hp & Hc). exists p. split; [done|].
  split; [by eapply below_extends|by eapply committed_extends].
Qed.
End Later.

Lemma safe_wf C opts st i : Config_is_joint C = false -> (1 < size (voters C))%nat -> safe_reachable C opts st ->
  wf_log (r_log (nodes (sc st) i)).
Proof. intros Hj Hn Hr. eapply pa_wf, fit_path, (sf_fit C opts). by apply safe_reachable_inv. Qed.

Lemma safe_leads_to C opts st st' : rtc (safe_step C opts) st st' -> leads_to C opts (sc st) (sc st').
Proof.
  intros Hs. induction Hs as [|x y z Hxy _ IH]; [apply rtc_refl|]. etransitivity; [by apply safe_cluster_step|exact IH].
Qed.

(** What is committed stays. *)
Lemma committed_same C opts st st' i j k e e' :
  Config_is_joint C = false -> (1 < size (voters C))%nat ->
  safe_reachable C opts st -> rtc (safe_step C opts) st st' ->
  k <= r_commit (nodes (sc st) i) -> k <= r_commit (nodes (sc st') j) ->
  Log_get (r_log (nodes (sc st) i)) k = Some e -> Log_get (r_log (nodes (sc st') j)) k = Some e' -> e = e'.
Proof.
  intros Hj Hn Hr Hs Hi Hk He He'. destruct (safe_later _ _ _ _ Hr Hs) as [Hr' _].
  destruct (later_commit C opts Hj Hn st st' Hr Hs i) as (Hl & p & Ep & Hp & Hcp).
  destruct (later_commit C opts Hj Hn st' st' Hr' (rtc_refl _ _) j) as (Hl' & q & Eq & Hq & Hcq).
  pose proof (later_tree C opts Hj Hn st st' Hr Hs) as Ht.
  pose proof (safe_chosen C opts st' (safe_reachable_inv C opts Hj Hn st' Hr')) as Hch.
  destruct (Z.le_ge_cases p.1 q.1) as [Hle|Hle].
  - pose proof (committed_linear _ C Ht Hch p q _ _ Hcp Hcq Hle) as Hpq.
    eapply (paths_agree _ _ _ p k e e' Ht Hl Hl'); [done|by eapply below_trans|lia|done..].
  - pose proof (committed_linear _ C Ht Hch q p _ _ Hcq Hcp Hle) as Hqp.
    eapply (paths_agree _ _ _ q k e e' Ht Hl Hl'); [by eapply below_trans|done|lia|done..].
Qed.

(** Log Matching, across time. *)
Lemma logs_agree C opts st st' i j m t k a b :
  Config_is_joint C = false -> (1 < size (voters C))%nat ->
  safe_reachable C opts st -> rtc (safe_step C opts) st st' ->
  (exists e, Log_get (r_log (nodes (sc st) i)) m = Some e /\ e_term e = t) ->
  (exists e, Log_get (r_log (nodes (sc st') j)) m = Some e /\ e_term e = t) -> k <= m ->
  Log_get (r_log (nodes (sc st) i)) k = Some a -> Log_get (r_log (nodes (sc st') j)) k = Some b -> a = b.
Proof.
  intros Hj Hn Hr Hs (e & He & Et) (e' & He' & Et') Hk Ha Hb. destruct (safe_later _ _ _ _ Hr Hs) as [Hr' _].
  destruct (later_commit C opts Hj Hn st st' Hr Hs i) as [Hl _].
  destruct (later_commit C opts Hj Hn st' st' Hr' (rtc_refl _ _) j) as [Hl' _].
  pose proof (later_tree C opts Hj Hn st st' Hr Hs) as Ht.
  destruct (get_Some_index _ (pa_wf _ _ Hl) _ _ He) as [Ei _], (get_Some_index _ (pa_wf _ _ Hl') _ _ He') as [Ei' _].
  assert (E : pos_of e' = pos_of e) by (unfold pos_of; congruence).
  apply (paths_agree _ _ _ (pos_of e) k a b Ht Hl Hl'); [by eapply get_below_tip|rewrite <- E; by eapply get_below_tip|simpl; lia|done..].
Qed.

(** C2: State Machine Safety. In a cluster with a fixed, non-joint membership of more
    than one voter, under any interleaving of inputs, deliveries (with loss,
    duplication and reordering), driver turns, compactions, snapshots, transfers
    and crashes that keep the discipline of [safe_step], an entry below a node's
    commit index is never replaced: what any node has committed at an index at
    one moment, and what any node has committed there then or at any later
    moment, across crashes and changes of leader, is the same entry. *)
Theorem committed_entries_never_change C opts st st' i j k e e' :
  Config_is_joint C = false -> (1 < size (voters C))%nat ->
  safe_reachable C opts st -> rtc (safe_step C opts) st st' ->
  k <= r_commit (nodes (sc st) i) -> k <= r_commit (nodes (sc st') j) ->
  Log_get (r_log (nodes (sc st) i)) k = Some e -> Log_get (r_log (nodes (sc st') j)) k = Some e' -> e = e'.
Proof. apply committed_same. Qed.

(** C3: Leader Completeness. Under the same conditions, whoever leads a term has every
    entry that any node of an earlier moment had committed in that term or an
    earlier one: at that index it holds the same entry, unless it has compacted
    it away. *)
Theorem leaders_hold_what_is_committed C opts st st' i j k e :
  Config_is_joint C = false -> (1 < size (voters C))%nat ->
  safe_reachable C opts st -> rtc (safe_step C opts) st st' ->
  k <= r_commit (nodes (sc st) i) -> Log_get (r_log (nodes (sc st) i)) k = Some e ->
  r_role (nodes (sc st') j) = Leader -> r_term (nodes (sc st) i) <= r_term (nodes (sc st') j) ->
  k <= snapshot_index (r_log (nodes (sc st') j)) \/ Log_get (r_log (nodes (sc st') j)) k = Some e.
Proof.
  intros Hj Hn Hr Hs Hi He Hlead Hterm. destruct (safe_later _ _ _ _ Hr Hs) as [Hr' _].
  destruct (later_commit C opts Hj Hn st st' Hr Hs i) as (Hl & p & Ep & Hp & Hcp).
  pose proof (later_tree C opts Hj Hn st st' Hr Hs) as Ht. pose proof (safe_reachable_inv C opts Hj Hn st' Hr') as H'.
  pose proof (safe_chosen C opts st' H') as Hch. pose proof (sf_fit _ _ _ H' j) as Hf. pose proof (fit_path _ _ _ _ _ _ _ Hf) as Hl'.
  destruct (get_Some_index _ (pa_wf _ _ Hl) _ _ He) as [Ei _].
  assert (Hep : below (link_in (world st')) (pos_of e) p).
  { apply (below_linear _ Ht _ _ (tip (r_log (nodes (sc st) i)))); [by eapply get_below_tip|done|simpl; lia]. }
  assert (Hel : below (link_in (world st')) (pos_of e) (tip (r_log (nodes (sc st') j)))).
  { apply (leading_committed C (led C opts (sc st')) j (frame_of st' j) (world st') Ht) with (k := 0); try done.
    - intros p0 T x. by apply committed_on_chain.
    - eapply committed_later; [exact Hterm|]. by eapply committed_below. }
  destruct (Z.le_gt_cases k (snapshot_index (r_log (nodes (sc st') j)))) as [|Hgt]; [by left|right].
  destruct (below_get _ Ht _ Hl' (pos_of e) Hel) as (e' & t & He' & Epos & Hx); [simpl; lia|]. simpl in He'. rewrite Ei in He'.
  destruct (get_link _ _ _ (pa_wf _ _ Hl) He) as (t' & Hx' & _). injection Epos as E1 E2.
  assert (E : (t, e') = (t', e)) by (apply (tr_unique _ Ht); [done|by apply Hl|done..]). by injection E as _ <-.
Qed.

(** ** A run *)

#[export] Instance fed_dec C st i inp : Decision (fed C st i inp).
Proof.
  assert (D : forall m, Decision (msg_fixed C m)) by (intros m; unfold msg_fixed; destruct (m_body m); apply _).
  unfold fed, input_fixed, snapshot_allowed, log_room. destruct inp; apply _.
Defined.

(** Inputs, each followed by a turn of the driver. *)
Definition go (i : NodeId) (inp : Input) (n : Index) (st : Safe) : Safe := take_turn i n (feed i inp st).

Lemma go_steps C opts st i inp n : fed C st i inp -> term_room (nodes (sc (feed i inp st)) i) ->
  rtc (safe_step C opts) st (go i inp n st).
Proof. intros H1 H2. eapply rtc_l; [by apply s_input|]. apply rtc_once. by apply s_turn. Qed.

Fixpoint play (acts : list (NodeId * Input * Index)) (st : Safe) : Safe :=
  match acts with [] => st | (i, inp, n) :: rest => play rest (go i inp n st) end.

Fixpoint playable (C : Config) (acts : list (NodeId * Input * Index)) (st : Safe) : bool :=
  match acts with
  | [] => true
  | (i, inp, n) :: rest =>
      bool_decide (fed C st i inp) && bool_decide (term_room (nodes (sc (feed i inp st)) i)) && playable C rest (go i inp n st)
  end.

Lemma play_steps C opts acts st : playable C acts st = true -> rtc (safe_step C opts) st (play acts st).
Proof.
  revert st. induction acts as [|[[i inp] n] rest IH]; intros st; simpl; [done|].
  rewrite !andb_true_iff, !bool_decide_eq_true. intros [[H1 H2] H3]. etransitivity; [by apply go_steps|auto].
Qed.

(** Node 1 is elected by node 2, and commits its first entry with it; node 2
    learns of that. *)
Definition committing : list (NodeId * Input * Index) :=
  [(1, ITick 7, 0); (2, IStep 1 (mkMessage 1 (PreVoteReq 0 0)), 0); (1, IStep 2 (mkMessage 1 (PreVoteResp true)), 0);
   (2, IStep 1 (mkMessage 1 (VoteReq 0 0)), 0); (1, IStep 2 (mkMessage 1 (VoteResp true)), 1); (2, IStep 1 the_append, 1);
   (1, IStep 2 (mkMessage 1 (AppendResp true 1 0 0)), 1)].

Definition s1 : Safe := play committing (safe_init c3 one_tick).

(** Node 2 crashes and comes back with the log it had, is elected by node 3 in term 2,
    and commits an entry of its own with it. *)
Definition s2 : Safe := restart 2 (Raft_restore 2 one_tick (disk (sc s1) 2) None (entries (saved s1 2)) c3) (disk (sc s1)) [] s1.

Definition succeeding : list (NodeId * Input * Index) :=
  [(2, ITick 9, 1); (3, IStep 2 (mkMessage 2 (PreVoteReq 1 1)), 0); (2, IStep 3 (mkMessage 2 (PreVoteResp true)), 1);
   (3, IStep 2 (mkMessage 2 (VoteReq 1 1)), 0); (2, IStep 3 (mkMessage 2 (VoteResp true)), 2);
   (3, IStep 2 (mkMessage 2 (AppendReq 1 1 [mkEntry 2 2 Noop] 0)), 0);
   (2, IStep 3 (mkMessage 2 (AppendResp false 0 1 0)), 2);
   (3, IStep 2 (mkMessage 2 (AppendReq 0 0 [mkEntry 1 1 Noop; mkEntry 2 2 Noop] 0)), 2);
   (2, IStep 3 (mkMessage 2 (AppendResp true 2 0 0)), 2)].

Definition s3 : Safe := play succeeding s2.

Lemma cut_whole l o : wf_log l -> cut_of l o l.
Proof.
  intros Hw. split; [done|]. split; [exists (length (entries l)); by rewrite firstn_all|].
  intros k t Hk Ht. pose proof (last_index_wf l Hw). pose proof (wf_snapshot l Hw). destruct (term_at_Some l Hw k t Ht); lia.
Qed.

Lemma s1_reachable : safe_reachable c3 one_tick s1.
Proof.
  assert (H : rtc (safe_step c3 one_tick) (safe_init c3 one_tick) s1) by (apply play_steps; vm_compute; reflexivity).
  exact (proj1 (safe_later _ _ _ _ (sr_init _ _) H)).
Qed.

Lemma s1_to_s3 : rtc (safe_step c3 one_tick) s1 s3.
Proof.
  eapply rtc_l; [|apply (play_steps c3 one_tick succeeding s2); vm_compute; reflexivity].
  apply (s_crash c3 one_tick s1 2 None (entries (saved s1 2))); [by_decide|done|left].
  assert (E : r_log (Raft_restore 2 one_tick (disk (sc s1) 2) None (entries (saved s1 2)) c3) = saved s1 2) by (vm_compute; reflexivity).
  rewrite E. apply cut_whole. by_decide.
Qed.

Lemma committed_entries_never_change_witness :
  r_commit (nodes (sc s1) 1) = 1 /\ r_commit (nodes (sc s3) 2) = 2 /\
  Log_get (r_log (nodes (sc s1) 1)) 1 = Some (mkEntry 1 1 Noop) /\
  forall e', Log_get (r_log (nodes (sc s3) 2)) 1 = Some e' -> mkEntry 1 1 Noop = e'.
Proof.
  assert (E1 : r_commit (nodes (sc s1) 1) = 1) by (vm_compute; reflexivity).
  assert (E2 : r_commit (nodes (sc s3) 2) = 2) by (vm_compute; reflexivity).
  assert (E3 : Log_get (r_log (nodes (sc s1) 1)) 1 = Some (mkEntry 1 1 Noop)) by (vm_compute; reflexivity).
  split; [exact E1|]. split; [exact E2|]. split; [exact E3|]. intros e' He'.
  apply (committed_entries_never_change c3 one_tick s1 s3 1 2 1 _ _ ltac:(by_decide) ltac:(by_decide) s1_reachable s1_to_s3);
    [rewrite E1; lia|rewrite E2; lia|exact E3|exact He'].
Defined.

Lemma leaders_hold_what_is_committed_witness :
  r_role (nodes (sc s3) 2) = Leader /\ r_term (nodes (sc s3) 2) = 2 /\
  (1 <= snapshot_index (r_log (nodes (sc s3) 2)) \/ Log_get (r_log (nodes (sc s3) 2)) 1 = Some (mkEntry 1 1 Noop)).
Proof.
  assert (E1 : r_role (nodes (sc s3) 2) = Leader) by (vm_compute; reflexivity).
  assert (E2 : r_term (nodes (sc s3) 2) = 2) by (vm_compute; reflexivity).
  split; [exact E1|]. split; [exact E2|].
  apply (leaders_hold_what_is_committed c3 one_tick s1 s3 1 2 1 _ ltac:(by_decide) ltac:(by_decide) s1_reachable s1_to_s3);
    [by_decide|vm_compute; reflexivity|exact E1|by_decide].
Defined.
