(* ===== verification/DriverSync.v ===== *)
(** * The log on disk mirrors the log in memory

    The contract of the driver: [persist] and [reconcile] leave a log on disk that
    holds every entry of the log in memory and ends where it ends, and with an
    honest mark ([DriverLog]) [reconcile] finds nothing to do. The invariant
    [driver_inv] is kept by every turn of the loop, refused writes included,
    except for one: a snapshot the disk refuses is lost, and the last theorem
    shows what comes of that. *)

From Stdlib Require Import ZArith Lia.
From stdpp Require Import base tactics list list_numbers gmap sets sorting.
From S2P Require Import Prelude Codec Types RaftLog Client Msg Kv RaftState Raft RaftNode RaftCommit Wal WalState WalSegments Driver DriverLog.

Open Scope Z_scope.

Abbreviation n_wal n := (so_wal (n_storage n)).
Abbreviation n_log n := (r_log (n_raft n)).

(** ** What the operations leave alone *)

(** Two states of the log object that hold the same entries. *)
Record same_log (w w' : Wal) : Prop := {
  sl_opts : w_opts w' = w_opts w;
  sl_segs : w_segments w' = w_segments w;
  sl_files : d_files (w_disk w') = d_files (w_disk w)
}.

#[export] Instance same_log_refl : Reflexive same_log.
Proof. intros w. by split. Qed.
#[export] Instance same_log_trans : Transitive same_log.
Proof. intros w1 w2 w3 [] []. split; congruence. Qed.

Lemma same_log_holds w w' i es : same_log w w' -> wal_holds w i es -> wal_holds w' i es.
Proof. intros [_ S F] (chunks & c & Hl & Hne & E). exists chunks, c. by rewrite S, F. Qed.

Lemma same_log_last w w' : same_log w w' -> Wal_last_index w' = Wal_last_index w.
Proof. intros [_ S _]. unfold Wal_last_index, Wal_first_index. by rewrite S. Qed.

Lemma save_hard_state_same hs s : same_log (so_wal s) (so_wal (storage_save_hard_state hs s).2).
Proof. unfold storage_save_hard_state, next_write. simpl. destruct (d_fate _) as [|[]]; by split. Qed.

Lemma save_snapshot_same snap s : same_log (so_wal s) (so_wal (storage_save_snapshot snap s).2).
Proof.
  unfold storage_save_snapshot, next_write. cbv zeta. simpl.
  set (ok := match d_fate _ with [] => true | b :: _ => b end). clearbody ok.
  destruct (save_snapshot _ _ _ _ _ _) as [slot0 slot1]. destruct ok; by split.
Qed.

Lemma save_results hs snap s :
  ((storage_save_hard_state hs s).1 = IoOk \/ (storage_save_hard_state hs s).1 = IoErr Enospc) /\
  ((storage_save_snapshot snap s).1 = IoOk \/ (storage_save_snapshot snap s).1 = IoErr Enospc).
Proof.
  split.
  - unfold storage_save_hard_state, next_write. simpl. destruct (d_fate _) as [|[]]; auto.
  - unfold storage_save_snapshot, next_write. cbv zeta. simpl.
    set (ok := match d_fate _ with [] => true | b :: _ => b end). clearbody ok.
    destruct (save_snapshot _ _ _ _ _ _) as [slot0 slot1]. destruct ok; auto.
Qed.

Lemma save_snapshot_refused snap s e :
  (storage_save_snapshot snap s).1 = IoErr e -> (next_write (so_wal s)).1 = false.
Proof.
  unfold storage_save_snapshot, next_write. cbv zeta. cbn [fst].
  set (ok := match d_fate _ with [] => true | b :: _ => b end). clearbody ok.
  destruct ok; [|done]. by repeat case_match.
Qed.

Lemma truncate_from_opts from w : w_opts (truncate_from from w) = w_opts w.
Proof.
  unfold truncate_from. destruct (_ <? _); [done|]. destruct (_ <=? _); [done|].
  destruct (pop_segments _ _) as [kept gone]. simpl. destruct (last _) as [seg|]; [|done].
  by destruct (_ <=? _).
Qed.

(** Whether the next write is refused. *)
Abbreviation will_write w := (next_write w).1.

Lemma remove_fate segs d : d_fate (fold_left (fun d s => file_remove (sg_first s) d) segs d) = d_fate d.
Proof. revert d. induction segs as [|s segs IH]; intros d; simpl; [done|]. by rewrite IH. Qed.

Lemma open_segment_fate i w : d_fate (w_disk (open_segment i w)) = d_fate (w_disk w).
Proof. unfold open_segment, file_open. simpl. by destruct (d_files (w_disk w) !! i). Qed.

Lemma truncate_from_fate from w : d_fate (w_disk (truncate_from from w)) = d_fate (w_disk w).
Proof.
  unfold truncate_from. destruct (_ <? _); [done|]. destruct (_ <=? _).
  - unfold reset_to. rewrite open_segment_fate. simpl. by rewrite remove_fate.
  - destruct (pop_segments _ _) as [kept gone]. cbn [with_segments with_stats with_disk w_segments w_disk].
    destruct (last _) as [seg|]; [|simpl; by rewrite remove_fate].
    destruct (_ <=? _); simpl; by rewrite remove_fate.
Qed.

Lemma sync_opts w : w_opts (sync w) = w_opts w.
Proof. unfold sync. by destruct (filter _ _). Qed.

Lemma append_one_opts e w : w_opts (append_one e w).2 = w_opts w.
Proof.
  unfold append_one. destruct (negb _); [done|].
  set (w1 := if _ <=? _ then _ else w). assert (E : w_opts w1 = w_opts w) by (unfold w1; by destruct (_ <=? _)).
  clearbody w1. destruct (last _); [|done]. destruct (file_write_at _ _ _ _) as [[] d]; done.
Qed.

Lemma append_opts es w : w_opts (append es w).2 = w_opts w.
Proof.
  assert (H : forall es w, w_opts (append_loop es w).2 = w_opts w).
  { clear. induction es as [|e es IH]; intros w; [done|]. cbn [append_loop].
    pose proof (append_one_opts e w) as E. destruct (append_one e w) as [[] w1]; simpl in *; [by rewrite IH|done..]. }
  unfold append, append_inner. destruct es as [|e es]; [done|].
  specialize (H (e :: es) (with_stats count_append w)).
  destruct (append_loop _ _) as [[] w1]; simpl in *; [done| |done]. by rewrite truncate_from_opts.
Qed.

(** ** The invariant *)

(** The log on disk holds [es] from index [i] on, and what is below the mark in
    memory. It reaches the base of the log, or a snapshot is about to replace it. *)
Record tracked (r : Raft) (w : Wal) : Prop := {
  tk_log : log_ok r;
  tk_dirty : dirty_ok r;
  tk_pending : pending_entries r = [];
  tk_opts : 0 < segment_bytes (w_opts w);
  tk_wal : exists i es, wal_holds w i es /\ i + Z.of_nat (length es) < U64 /\
    (forall e, e ∈ entries (r_log r) -> before_mark (r_dirty_from r) e -> e ∈ es);
  tk_base : installed r \/ (pending_snapshot r = None /\ snapshot_index (r_log r) <= Wal_last_index w);
  tk_end : r_dirty_from r = None -> installed r \/ Wal_last_index w = Log_last_index (r_log r)
}.

Definition driver_inv (n : Node) : Prop := tracked (n_raft n) (n_wal n).

(** The mirror: same end, every entry. *)
Definition mirrors (w : Wal) (l : Log) : Prop :=
  exists i es, wal_holds w i es /\ i + Z.of_nat (length es) < U64 /\
    (forall e, e ∈ entries l -> e ∈ es) /\
    Wal_last_index w = Log_last_index l /\ snapshot_index l <= Wal_last_index w.

(** Every input keeps the invariant. *)
Lemma tracked_step r r' w : tracked r w -> log_step r r' -> log_ok r' -> tracked r' w.
Proof.
  intros [Hl Hd Hp Ho (i & es & Hw & Hr & Hin) Hb He] [C B D E L] Hl'.
  assert (Hkeep : snapshot_index (r_log r') = snapshot_index (r_log r) /\ pending_snapshot r' = pending_snapshot r ->
    installed r -> installed r').
  { intros [S P] (s & Ps & Is & Hnew). exists s. split_and!; [congruence|congruence|]. intros e Hin' Hbl.
    destruct (C e Hin' Hbl) as [He' Hbl']. by apply (Hnew e). }
  split; auto.
  - exists i, es. split_and!; [done|done|]. intros e Hin' Hbl. destruct (C e Hin' Hbl). auto.
  - destruct B as [SP|I]; [|by left]. destruct Hb as [I|[Pn Sn]]; [left; by apply Hkeep|].
    right. destruct SP as [S P]. split; congruence.
  - intros Hn. destruct (L Hn) as [[Hn0 El]|I]; [|by left]. destruct (He Hn0) as [I|Elast].
    + destruct B as [SP|I']; left; auto.
    + right. congruence.
Qed.

Lemma tracked_same r w w' : tracked r w -> same_log w w' -> tracked r w'.
Proof.
  intros [Hl Hd Hp Ho (i & es & Hw & Hr & Hin) Hb He] S. split; try done.
  - by rewrite (sl_opts _ _ S).
  - exists i, es. split_and!; [by eapply same_log_holds|done|done].
  - by rewrite (same_log_last _ _ S).
  - by rewrite (same_log_last _ _ S).
Qed.

(** ** Cutting back to the mark *)

(** The log on disk ends before the mark. *)
Definition cut (r : Raft) (w : Wal) : Prop :=
  tracked r w /\ forall d, r_dirty_from r = Some d -> Wal_last_index w < d.

Definition cut_back (r : Raft) (w : Wal) : Wal :=
  match truncate_to r with Some from => truncate_from from w | None => w end.

Lemma cut_back_cut r w : tracked r w -> cut r (cut_back r w).
Proof.
  intros H. pose proof H as [Hl Hd Hp Ho (i & es & Hw & Hr & Hin) Hb He]. unfold cut_back, truncate_to.
  destruct (r_dirty_from r) as [d|] eqn:Ed; [|split; [done|by rewrite Ed]].
  pose proof (Hd d Ed) as Hrange. pose proof (wf_snapshot _ (lo_wf _ Hl)) as Hs.
  pose proof (last_index_wf _ (lo_wf _ Hl)) as Elast. pose proof (wf_room _ (lo_wf _ Hl)) as Hlast.
  destruct (wal_holds_bounds _ _ _ Hw) as (_ & El & Hi & Hc & _).
  pose proof (truncate_holds d w i es Hw Hr ltac:(lia)) as Ht.
  destruct (wal_holds_bounds _ _ _ Ht) as (_ & El' & _). rewrite (filter_below i) in El' by done.
  assert (Hlen : Wal_last_index (truncate_from d w) = Z.min (Wal_last_index w) (d - 1) \/
    (d <= i /\ Wal_last_index (truncate_from d w) = d - 1)).
  { rewrite El'. case_decide; [right|left]; rewrite length_take; lia. }
  assert (Hbelow : forall e, e ∈ entries (r_log r) -> e_index e < d -> e ∈ filter (fun e => e_index e < d) es).
  { intros e Hin' Hlt. apply list_elem_of_filter. split; [done|]. apply Hin; [done|]. done. }
  split; [split; try done|].
  - by rewrite truncate_from_opts.
  - eexists _, _. split_and!; [exact Ht| |by rewrite Ed].
    rewrite (filter_below i), length_take by done. case_decide; lia.
  - destruct Hb as [?|[? ?]]; [by left|right]. split; [done|]. lia.
  - by rewrite Ed.
  - rewrite Ed. intros d' [= <-]. lia.
Qed.

(** Where the log on disk ends, given a mark and a base it reaches. *)
Lemma cut_last r w d : cut r w -> r_dirty_from r = Some d -> snapshot_index (r_log r) <= Wal_last_index w ->
  Wal_last_index w = d - 1.
Proof.
  intros [[Hl Hd Hp Ho (i & es & Hw & Hr & Hin) _ _] Hcut] Ed Hb.
  specialize (Hcut d Ed). pose proof (Hd d Ed) as Hrange.
  destruct (decide (d = snapshot_index (r_log r) + 1)) as [->|Hne]; [lia|].
  pose proof (last_index_wf _ (lo_wf _ Hl)) as Elast.
  destruct (get_is_Some _ (lo_wf _ Hl) (d - 1)) as [e He]; [lia|].
  pose proof (get_Some_index _ (lo_wf _ Hl) _ _ He) as Hidx.
  assert (Hin' : e ∈ entries (r_log r)).
  { rewrite (get_lookup _ (lo_wf _ Hl)) in He by lia. by eapply list_elem_of_lookup_2. }
  assert (e ∈ es) as [k Hk]%list_elem_of_lookup by (apply Hin; [done|rewrite Ed; simpl; lia]).
  destruct (wal_holds_bounds _ _ _ Hw) as (_ & El & _ & Hc & _).
  pose proof (contiguous_lookup _ _ _ _ Hc Hk). apply lookup_lt_Some in Hk. lia.
Qed.

(** ** Writing what is beyond the mark *)

Abbreviation beyond d l := (filter (fun e : Entry => d <= e_index e) (entries l)).

Lemma beyond_drop l d : wf_log l -> snapshot_index l + 1 <= d ->
  beyond d l = drop (Z.to_nat (d - snapshot_index l - 1)) (entries l).
Proof.
  intros Hl Hd. replace (Z.to_nat (d - snapshot_index l - 1)) with (Z.to_nat (d - (snapshot_index l + 1))) by lia.
  apply filter_above; [apply Hl|done].
Qed.

Lemma mirrors_intro r w i es : wal_holds w i es -> i + Z.of_nat (length es) < U64 ->
  (forall e, e ∈ entries (r_log r) -> e ∈ es) -> Wal_last_index w = Log_last_index (r_log r) ->
  snapshot_index (r_log r) <= Wal_last_index w -> mirrors w (r_log r).
Proof. intros. by exists i, es. Qed.

Lemma append_beyond r w d : cut r w -> r_dirty_from r = Some d -> snapshot_index (r_log r) <= Wal_last_index w ->
  Forall record_ok (entries (r_log r)) ->
  let '(res, w') := append (beyond d (r_log r)) w in
  (res = IoOk /\ mirrors w' (r_log r)) \/
  (res = IoErr Enospc /\ cut r w' /\ snapshot_index (r_log r) <= Wal_last_index w').
Proof.
  intros Hcut Ed Hb Hrec. pose proof (cut_last r w d Hcut Ed Hb) as Hlast.
  pose proof (append_opts (beyond d (r_log r)) w) as Eo.
  destruct Hcut as [[Hl Hd Hp Ho (i & es & Hw & Hr & Hin) Hbase Hend] Hc]. pose proof (Hd d Ed) as Hrange.
  pose proof (last_index_wf _ (lo_wf _ Hl)) as El. pose proof (wf_room _ (lo_wf _ Hl)) as Hroom.
  destruct (wal_holds_bounds _ _ _ Hw) as (_ & Ew & Hi & _).
  rewrite beyond_drop in * by (try apply Hl; lia).
  set (k := Z.to_nat (d - snapshot_index (r_log r) - 1)).
  assert (Hk : (k <= length (entries (r_log r)))%nat) by lia.
  pose proof (append_spec w i es (drop k (entries (r_log r))) Hw Ho) as Ha.
  destruct (append _ _) as [res w']. simpl in Eo.
  destruct Ha as [Hcase Hcont]; [by apply Forall_drop|rewrite length_drop; lia|].
  destruct Hcont as [Hne _].
  { replace (i + Z.of_nat (length es)) with (snapshot_index (r_log r) + 1 + Z.of_nat k) by lia.
    apply contiguous_drop; [done|apply Hl]. }
  destruct Hcase as [[-> Hw']|([] & -> & Hw')]; [left|right|done].
  - split; [done|]. destruct (wal_holds_bounds _ _ _ Hw') as (_ & Ew' & _).
    rewrite length_app, length_drop in Ew'.
    apply (mirrors_intro r w' i (es ++ drop k (entries (r_log r)))); [done|rewrite length_app, length_drop; lia| |lia|lia].
    intros e He. apply elem_of_app. rewrite <- (take_drop k (entries (r_log r))) in He.
    apply elem_of_app in He as [He|He]; [left|by right]. apply Hin; [by eapply subseteq_take|].
    rewrite Ed. simpl. apply list_elem_of_lookup in He as [j Hj].
    pose proof (contiguous_lookup _ _ _ _ (contiguous_take _ _ k (wf_contiguous _ (lo_wf _ Hl))) Hj).
    apply lookup_lt_Some in Hj. rewrite length_take in Hj. lia.
  - destruct (wal_holds_bounds _ _ _ Hw') as (_ & Ew' & _).
    assert (E : Wal_last_index w' = Wal_last_index w) by lia.
    split; [done|]. rewrite E. split; [|done]. split; [split; rewrite ?E, ?Eo; try done|rewrite E; done].
    by exists i, es.
Qed.

(** Without a mark, or with nothing beyond it, the mirror is already there. *)
Lemma cut_mirrors r w : cut r w -> snapshot_index (r_log r) <= Wal_last_index w ->
  match r_dirty_from r with Some d => beyond d (r_log r) = [] | None => ~ installed r end ->
  mirrors w (r_log r).
Proof.
  intros Hcut Hb Hd. pose proof Hcut as [[Hl Hdo Hp Ho (i & es & Hw & Hr & Hin) _ He] _].
  destruct (r_dirty_from r) as [d|] eqn:Ed.
  - pose proof (cut_last r w d Hcut Ed Hb) as Hlast. pose proof (Hdo d Ed) as Hrange.
    pose proof (last_index_wf _ (lo_wf _ Hl)) as El. rewrite beyond_drop in Hd by (try apply Hl; lia).
    apply (f_equal length) in Hd. rewrite length_drop in Hd. simpl in Hd.
    apply (mirrors_intro r w i es); [done|done| |lia|done].
    intros e Hin'. apply Hin; [done|]. simpl. apply list_elem_of_lookup in Hin' as [j Hj].
    pose proof (contiguous_lookup _ _ _ _ (wf_contiguous _ (lo_wf _ Hl)) Hj). apply lookup_lt_Some in Hj. lia.
  - destruct (He eq_refl) as [?|Hlast]; [done|].
    apply (mirrors_intro r w i es); try done. intros e Hin'. by apply Hin.
Qed.

(** ** The [Ready] of a node *)

Record ready_parts (r : Raft) (rd : Ready) (r1 : Raft) : Prop := {
  rp_log : r_log r1 = r_log r;
  rp_dirty : r_dirty_from r1 = r_dirty_from r;
  rp_pending : r_pending r1 = Ready_default;
  rp_snapshot : rd_snapshot rd = pending_snapshot r;
  rp_entries : rd_entries rd = match r_dirty_from r with Some d => beyond d (r_log r) | None => [] end;
  rp_ok : log_ok r1
}.

Lemma ready_has_parts r w : tracked r w -> ready_parts r (ready r).1 (ready r).2.
Proof.
  intros [Hl Hd Hp _ _ _ _]. pose proof (wf_snapshot _ (lo_wf _ Hl)) as Hs.
  pose proof (last_index_wf _ (lo_wf _ Hl)) as El. pose proof (wf_room _ (lo_wf _ Hl)) as Hroom.
  assert (Hfrom : forall d, r_dirty_from r = Some d ->
    Z.max d (Log_first_index (r_log r)) = d /\ Log_entries_from (r_log r) d = beyond d (r_log r)).
  { intros d Ed. pose proof (Hd d Ed). rewrite (first_index_wf _ (lo_wf _ Hl)). split; [lia|].
    unfold Log_entries_from. rewrite (slice_filter _ _ _ (lo_wf _ Hl)), (last_index_succ_wf _ (lo_wf _ Hl)).
    apply filter_ext_Forall, Forall_forall. intros e [j Hj]%list_elem_of_lookup.
    pose proof (contiguous_lookup _ _ _ _ (wf_contiguous _ (lo_wf _ Hl)) Hj). apply lookup_lt_Some in Hj. lia. }
  pose proof (lo_commit _ Hl) as Hc.
  unfold ready. cbv zeta. simpl. destruct (r_dirty_from r) as [d|] eqn:Ed.
  - destruct (Hfrom d eq_refl) as [-> ->]. simpl. destruct (r_hard_state_dirty r); split; simpl; rewrite ?Ed; try done;
      (split; simpl; [apply Hl|lia]).
  - simpl. destruct (r_hard_state_dirty r); split; simpl; rewrite ?Ed; try done; (split; simpl; [apply Hl|lia]).
Qed.

(** ** Persisting *)

(** The state between the steps of [persist]: the mark holds, and the log on disk
    reaches the base of the log in memory. *)
Definition connected (r1 : Raft) (w : Wal) : Prop :=
  cut r1 w /\ snapshot_index (r_log r1) <= Wal_last_index w.

Lemma connected_same r w w' : connected r w -> same_log w w' -> connected r w'.
Proof.
  intros [[Ht Hc] Hb] S. pose proof (same_log_last _ _ S) as E. split; [split|].
  - by eapply tracked_same.
  - intros d Hd. rewrite E. by apply Hc.
  - by rewrite E.
Qed.

Lemma not_installed r : pending_snapshot r = None -> ~ installed r.
Proof. intros H (s & Hs & _). congruence. Qed.

(** With no snapshot to install, cutting back connects. *)
Lemma connect_plain r rd r1 w : cut r w -> ready_parts r rd r1 -> pending_snapshot r = None -> connected r1 w.
Proof.
  intros [[Hl Hd Hp Ho (i & es & Hw & Hr & Hin) Hb He] Hc] [L D P _ _ Hok] Hn.
  assert (Hbase : snapshot_index (r_log r) <= Wal_last_index w).
  { destruct Hb as [Hi|[_ ?]]; [by destruct (not_installed r Hn)|done]. }
  split; [split; [split; try done|]|]; rewrite ?L, ?D, ?P; auto.
  - unfold dirty_ok. by rewrite L, D.
  - by exists i, es.
  - intros H0. destruct (He H0) as [Hi|?]; [by destruct (not_installed r Hn)|by right].
Qed.

(** A snapshot restarts the log on disk at the base of the log in memory. *)
Lemma connect_snapshot r rd r1 w s : cut r w -> ready_parts r rd r1 -> pending_snapshot r = Some s ->
  connected r1 (reset_to (sn_last_index s) w).
Proof.
  intros [[Hl Hd Hp Ho (i & es & Hw & Hr & Hin) Hb He] Hc] [L D P _ _ Hok] Hs.
  destruct Hb as [(s' & Hs' & Hbase & Hnew)|[? _]]; [|congruence]. assert (s' = s) as -> by congruence.
  pose proof (wf_snapshot _ (lo_wf _ Hl)) as Hs0. pose proof (wf_room _ (lo_wf _ Hl)) as Hroom.
  pose proof (reset_to_holds (sn_last_index s) w i es Hw ltac:(lia) ltac:(lia)) as Hw'.
  destruct (wal_holds_bounds _ _ _ Hw') as (_ & El & _). simpl in El.
  split; [split; [split; try done|]|]; rewrite ?L, ?D, ?P; auto.
  - unfold dirty_ok. by rewrite L, D.
  - exists (sn_last_index s + 1), []. split_and!; [done|simpl; lia|]. intros e Hin' Hbl. by destruct (Hnew e Hin').
  - right. split; [done|lia].
  - intros H0. right. rewrite (last_index_wf _ (lo_wf _ Hl)). rewrite H0 in Hnew. simpl in Hnew.
    destruct (entries (r_log r)) as [|e l]; [simpl; lia|]. by destruct (Hnew e ltac:(by left)).
  - intros d Hdd. pose proof (Hd d Hdd). lia.
  - lia.
Qed.

(** The node after a step of [persist], as far as the log is concerned. *)
Record same_node (n n' : Node) : Prop := {
  sn_raft : n_raft n' = n_raft n;
  sn_sent : n_sent n' = n_sent n
}.

#[export] Instance same_node_refl : Reflexive same_node.
Proof. intros n. by split. Qed.
#[export] Instance same_node_trans : Transitive same_node.
Proof. intros n1 n2 n3 [] []. split; congruence. Qed.

(** What a step of [persist] promises: it succeeds and [Q] holds, or the disk was
    full and [F] holds. *)
Definition step_ok (n : Node) (Q F : Node -> Prop) (x : IoResult * Node) : Prop :=
  same_node n x.2 /\ ((x.1 = IoOk /\ Q x.2) \/ (x.1 = IoErr Enospc /\ F x.2)).

Lemma and_then_ok n (Q Q' F : Node -> Prop) x k :
  step_ok n Q F x -> (forall n', same_node n n' -> Q n' -> step_ok n' Q' F (k n')) ->
  step_ok n Q' F (and_then x k).
Proof.
  destruct x as [res n1]. intros [Hs [[Hr HQ]|[Hr HF]]] Hk; simpl in *; subst; simpl.
  - destruct (Hk n1 Hs HQ) as [Hs' H]. split; [by transitivity n1|done].
  - split; [done|]. by right.
Qed.

Lemma persist_snapshot_ok r rd r1 n s :
  cut r (n_wal n) -> ready_parts r rd r1 -> pending_snapshot r = Some s ->
  step_ok n (fun n => connected r1 (n_wal n)) (fun _ => will_write (n_wal n) = false)
    (on_storage (storage_save_snapshot s) n ?; fun n =>
     let n := match KvStore_restore (sn_data s) with
              | Ok restored => with_kv (fun _ => restored) n
              | Err _ => n
              end in
     (IoOk, n |> with_storage (with_wal (reset_to (sn_last_index s)))
              |> count snapshots_installed 1)).
Proof.
  intros Hcut Hp Hs. apply (and_then_ok _ (fun n' => cut r (n_wal n'))).
  - unfold on_storage. pose proof (save_snapshot_same s (n_storage n)) as S.
    pose proof (save_snapshot_refused s (n_storage n)) as Hrefused.
    destruct (proj2 (save_results (mkHardState 0 None 0) s (n_storage n))) as [E|E];
      destruct (storage_save_snapshot s (n_storage n)) as [res st]; simpl in *; subst;
      (split; [by split|]); [left|right; split; [done|]; by eapply Hrefused].
    split; [done|]. simpl. destruct Hcut as [Ht Hc]. split; [by eapply tracked_same|].
    intros d Hd. rewrite (same_log_last _ _ S). by apply Hc.
  - intros n' _ Hc. cbv zeta. split; [by destruct (KvStore_restore _)|]. left. split; [done|].
    destruct (KvStore_restore _); simpl; by eapply connect_snapshot.
Qed.

Lemma persist_hard_state_ok r1 n hs (F : Node -> Prop) :
  connected r1 (n_wal n) -> (forall n', connected r1 (n_wal n') -> F n') ->
  step_ok n (fun n => connected r1 (n_wal n)) F (on_storage (storage_save_hard_state hs) n).
Proof.
  intros Hc HF. unfold on_storage. pose proof (save_hard_state_same hs (n_storage n)) as S.
  destruct (proj1 (save_results hs (mkSnapshot 0 0 Config_default []) (n_storage n))) as [E|E];
    destruct (storage_save_hard_state hs (n_storage n)) as [res st]; simpl in *; subst;
    (split; [by split|]); [left|right]; (split; [done|]); [|apply HF]; by eapply connected_same.
Qed.

Lemma persist_entries_ok r rd r1 n (F : Node -> Prop) :
  ready_parts r rd r1 -> connected r1 (n_wal n) -> Forall record_ok (entries (r_log r)) ->
  (forall n', connected r1 (n_wal n') -> F n') ->
  step_ok n (fun n => mirrors (n_wal n) (r_log r) /\ 0 < segment_bytes (w_opts (n_wal n))) F
    (match rd_entries rd with
     | [] => (IoOk, n)
     | es =>
         on_storage (storage_append es) n ?; fun n =>
         (IoOk, n |> count batched_entries (Z.of_nat (length es)) |> count batches 1)
     end).
Proof.
  intros [L D P _ E Hok] [Hcut Hb] Hrec HF. rewrite E. clear E.
  pose proof (tk_opts _ _ (proj1 Hcut)) as Ho.
  destruct (r_dirty_from r) as [d|] eqn:Ed.
  2:{ split; [done|]. left. split; [done|]. rewrite <- L. split; [|done]. apply cut_mirrors; [done..|].
      rewrite D. apply not_installed. by rewrite P. }
  destruct (beyond d (r_log r)) as [|e es] eqn:Eb.
  { split; [done|]. left. split; [done|]. rewrite <- L. split; [|done]. apply cut_mirrors; [done..|]. by rewrite D, L. }
  rewrite <- L in Hrec, Eb.
  pose proof (append_beyond r1 (n_wal n) d Hcut D Hb Hrec) as Ha. rewrite Eb in Ha.
  unfold on_storage, storage_append. pose proof (append_opts (e :: es) (n_wal n)) as Eo.
  destruct (append (e :: es) (n_wal n)) as [res w']. simpl in *.
  destruct Ha as [[-> Hm]|(-> & Hcut' & Hb')]; simpl; (split; [by split|]); [left|right]; (split; [done|]).
  - simpl. rewrite <- L. split; [done|]. by rewrite Eo.
  - apply HF. by split.
Qed.

Lemma mirrors_sync w l : mirrors w l -> mirrors (sync w) l.
Proof.
  intros (i & es & Hw & Hr & Hin & El & Hb).
  assert (Hs : wal_holds (sync w) i es).
  { destruct (sync_synced w i es Hw) as (chunks & c & H1 & H2 & H3 & _). by exists chunks, c. }
  exists i, es. destruct (wal_holds_bounds _ _ _ Hs) as (_ & E & _), (wal_holds_bounds _ _ _ Hw) as (_ & E' & _).
  split_and!; [done|done|done|lia|lia].
Qed.

(** [persist] on the [Ready] of a node whose mark is honest. *)
Lemma persist_ok n n0 r rd r1 :
  tracked r (n_wal n) -> ready_parts r rd r1 -> Forall record_ok (entries (r_log r)) ->
  n_raft n = r1 -> n0 = n ->
  step_ok n0 (fun n => mirrors (n_wal n) (r_log r) /\ 0 < segment_bytes (w_opts (n_wal n)))
    (fun n' => pending_snapshot r = None \/ will_write (n_wal n) = true -> connected r1 (n_wal n')) (persist rd (truncate_to r) n).
Proof.
  intros Ht Hp Hrec Hn ->. pose proof (cut_back_cut r (n_wal n) Ht) as Hcut. unfold persist.
  set (n1 := match truncate_to r with Some from => _ | None => n end).
  assert (S : same_node n n1 /\ n_wal n1 = cut_back r (n_wal n) /\ will_write (n_wal n1) = will_write (n_wal n)).
  { unfold n1, cut_back. destruct (truncate_to r); [|done]. split_and!; [by split|done|].
    unfold next_write. simpl. by rewrite truncate_from_fate. }
  clearbody n1. destruct S as (S & W & Fate). rewrite <- W in Hcut. rewrite <- Fate. clear W Ht Fate.
  assert (Hlift : forall Q F x, step_ok n1 Q F x -> step_ok n Q F x).
  { intros Q F x [Hs H]. split; [by transitivity n1|done]. }
  apply Hlift. clear Hlift. pose proof (rp_snapshot _ _ _ Hp) as Esnap. pose proof (rp_entries _ _ _ Hp) as Eent.
  destruct (Ready_needs_durability rd) eqn:Hneeds; cbn [negb].
  - apply (and_then_ok _ (fun n => connected r1 (n_wal n))).
    { rewrite Esnap. destruct (pending_snapshot r) as [s|] eqn:Es.
      - destruct (persist_snapshot_ok r rd r1 n1 s Hcut Hp Es) as [Hs [H|[H Hrefused]]]; (split; [done|]); [by left|].
        right. split; [done|]. rewrite Hrefused. by intros [?|?].
      - split; [done|]. left. split; [done|]. by eapply connect_plain. }
    intros n2 _ H2. apply (and_then_ok _ (fun n => connected r1 (n_wal n))).
    { destruct (rd_hard_state rd) as [hs|]; [apply persist_hard_state_ok; auto|]. split; [done|]. by left. }
    intros n3 _ H3. eapply and_then_ok; [apply (persist_entries_ok r rd r1 n3); auto|].
    intros n4 _ [Hm Ho]. split; [by split|]. left. split; [done|]. cbn. split; [by apply mirrors_sync|].
    by rewrite sync_opts.
  - unfold Ready_needs_durability in Hneeds.
    destruct (rd_hard_state rd), (rd_entries rd) eqn:Ee, (rd_snapshot rd) eqn:Es; try done.
    assert (Hpn : pending_snapshot r = None) by congruence.
    destruct (connect_plain r rd r1 (n_wal n1) Hcut Hp Hpn) as [Hc Hb].
    split; [done|]. left. split; [done|]. cbn [snd]. split; [|apply (proj1 Hc)].
    rewrite <- (rp_log _ _ _ Hp). apply cut_mirrors; [done..|]. rewrite (rp_dirty _ _ _ Hp), (rp_log _ _ _ Hp).
    destruct (r_dirty_from r); [congruence|]. apply not_installed. by rewrite (rp_pending _ _ _ Hp).
Qed.

(** With the mirror in place [reconcile] has nothing to do. *)
Lemma reconcile_idle n : wf_log (n_log n) -> mirrors (n_wal n) (n_log n) -> reconcile n = (IoOk, n).
Proof.
  intros Hl (i & es & Hw & Hr & Hin & El & Hb). unfold reconcile.
  pose proof (wf_snapshot _ Hl) as Hs. pose proof (wf_room _ Hl) as Hroom. pose proof (last_index_wf _ Hl) as E.
  rewrite (first_index_wf _ Hl), El, (last_index_succ_wf _ Hl), Z.eqb_refl.
  by rewrite (proj2 (Z.leb_le _ _)) by lia.
Qed.

(** ** Compaction keeps the invariant *)

Lemma cut_untouched r r' w : cut r w -> untouched r r' -> log_ok r' -> cut r' w.
Proof.
  intros [Ht Hc] U Hl. split; [eapply tracked_step; eauto with raft|].
  intros d. rewrite (ut_dirty _ _ U). apply Hc.
Qed.

Lemma snapshot_at_applied_index data r snap : wf_log (r_log r) -> snapshot_at_applied data r = Some snap ->
  snapshot_index (r_log r) < sn_last_index snap -> sn_last_index snap <= Log_last_index (r_log r).
Proof.
  intros Hl Hs Hlt. unfold snapshot_at_applied in Hs. destruct (Log_term_at _ _) as [t|] eqn:Et; [|done].
  injection Hs as <-. simpl in *. pose proof (wf_snapshot _ Hl). destruct (term_at_Some _ Hl _ _ Et); lia.
Qed.

Lemma compact_entries l through t c : wf_log l -> snapshot_index l < through <= Log_last_index l ->
  snapshot_index (Log_compact_through l through t c) = through /\
  forall e, e ∈ entries (Log_compact_through l through t c) -> e ∈ entries l /\ through < e_index e.
Proof.
  intros Hl Hr. pose proof (compact_wf l through t c Hl) as Hw.
  pose proof (compact_snapshot_index l through t c Hl ltac:(lia)) as Es. split; [lia|].
  intros e He. split.
  - unfold Log_compact_through in He. rewrite (proj2 (Z.leb_gt _ _)) in He by lia. simpl in He.
    by eapply subseteq_drop.
  - apply list_elem_of_lookup in He as [j Hj].
    pose proof (contiguous_lookup _ _ _ _ (wf_contiguous _ Hw) Hj). lia.
Qed.

Lemma compact_tracked snap r w : cut r w -> pending_snapshot r = None ->
  snapshot_index (r_log r) < sn_last_index snap <= Log_last_index (r_log r) ->
  sn_last_index snap <= Wal_last_index w ->
  tracked (compact snap r) (compact_through (sn_last_index snap) w).
Proof.
  intros [[Hl Hd Hp Ho (i & es & Hw & Hr & Hin) Hb He] Hc] Hn Hrange Hle. unfold compact.
  destruct (compact_entries (r_log r) (sn_last_index snap) (sn_last_term snap) (sn_config snap) (lo_wf _ Hl) Hrange)
    as [Es Hent].
  pose proof (compact_last_index (r_log r) (sn_last_index snap) (sn_last_term snap) (sn_config snap) (lo_wf _ Hl)) as El.
  destruct (compact_through_spec w i es (sn_last_index snap) Hw) as (i' & Hi' & Hw' & Elast & _).
  destruct (wal_holds_bounds _ _ _ Hw) as (_ & Ew & Hi & Hcon & _).
  split; try done.
  - destruct Hl as [Hwf Hcom]. split; simpl; [by apply compact_wf|]. by rewrite El.
  - intros d. simpl. rewrite Es, El. intros Hdd. specialize (Hc d Hdd). specialize (Hd d Hdd). lia.
  - exists i', (filter (fun e => i' <= e_index e) es). split_and!; [exact Hw'| |].
    + destruct (wal_holds_bounds _ _ _ Hw') as (_ & Ew' & _). lia.
    + simpl. intros e Hin' Hbl. destruct (Hent e Hin') as [Hold Hgt]. apply list_elem_of_filter.
      assert (e ∈ es) as Hes by by apply Hin. split; [|done].
      apply list_elem_of_lookup in Hes as [j Hj]. pose proof (contiguous_lookup _ _ _ _ Hcon Hj). lia.
  - right. simpl. rewrite Es, Elast. done.
  - simpl. intros H0. right. rewrite Elast, El. destruct (He H0) as [Hi0|?]; [by destruct (not_installed r Hn)|done].
Qed.

Lemma take_snapshot_tracked n : cut (n_raft n) (n_wal n) -> pending_snapshot (n_raft n) = None ->
  driver_inv (take_snapshot n).
Proof.
  intros Hc Hn. unfold take_snapshot, driver_inv.
  destruct (snapshot_at_applied _ _) as [snap|] eqn:Es; [|apply Hc].
  unfold safe_to_compact. destruct (Z.ltb_spec (snapshot_index (n_log n)) (sn_last_index snap)) as [Hlt|]; [|apply Hc].
  destruct (Z.leb_spec (sn_last_index snap) (Wal_last_index (n_wal n))) as [Hle|]; [|apply Hc].
  pose proof (snapshot_at_applied_index _ _ _ (lo_wf _ (tk_log _ _ (proj1 Hc))) Es Hlt) as Hlast.
  cbn [andb negb]. unfold on_storage. pose proof (save_snapshot_same snap (n_storage n)) as S.
  destruct (storage_save_snapshot snap (n_storage n)) as [res st]. simpl in S.
  assert (Hc' : cut (n_raft n) (so_wal st)).
  { destruct Hc as [Ht Hcut]. split; [by eapply tracked_same|]. intros d Hd. rewrite (same_log_last _ _ S). by apply Hcut. }
  destruct res; simpl; [|apply Hc'..].
  apply compact_tracked; [done|done|lia|]. by rewrite (same_log_last _ _ S).
Qed.

(** ** After the barrier *)

(** What does not touch the state machine's log or the storage. *)
Record same_core (n n' : Node) : Prop := {
  sc_raft : n_raft n' = n_raft n;
  sc_storage : n_storage n' = n_storage n
}.

#[export] Instance same_core_refl : Reflexive same_core.
Proof. intros n. by split. Qed.
#[export] Instance same_core_trans : Transitive same_core.
Proof. intros n1 n2 n3 [] []. split; congruence. Qed.

Lemma same_core_fold {A} (f : Node -> A -> Node) (xs : list A) n :
  (forall n x, same_core n (f n x)) -> same_core n (fold_left f xs n).
Proof.
  intros Hf. revert n. induction xs as [|x xs IH]; intros n; simpl; [reflexivity|].
  etransitivity; [apply Hf|apply IH].
Qed.

Lemma same_core_apply_one n e : same_core n (apply_one n e).
Proof.
  unfold apply_one. cbv zeta. destruct (e_kind e) as [data| |]; [|by split..].
  destruct (Request_decode data) as [req|]; [|by split].
  cbn [n_kv with_digest count]. destruct (KvStore_apply (n_kv n) (e_index e) req) as [kv out].
  cbn [n_writes with_kv with_digest count]. destruct (n_writes n !! e_index e) as [[client original]|]; [|by split].
  destruct (_ && _); by split.
Qed.

Lemma same_core_answer_read n rs : same_core n (answer_read n rs).
Proof.
  unfold answer_read. destruct (n_reads n !! rs_ctx rs) as [waiting|]; [|reflexivity].
  etransitivity; [|apply same_core_fold; intros; by split]. by split.
Qed.

Lemma same_core_leadership n : same_core n (leadership_transition n).
Proof.
  unfold leadership_transition. cbv zeta. set (leads := bool_decide _). clearbody leads.
  set (n1 := if _ : bool then count leadership_gained 1 n else n).
  assert (S1 : same_core n n1) by (unfold n1; destruct (_ && _); by split). clearbody n1.
  transitivity n1; [done|]. set (n2 := if _ : bool then _ else n1).
  transitivity n2; [|by split]. unfold n2. destruct (_ && _); [|reflexivity].
  etransitivity; [|apply same_core_fold; intros; by split]. by split.
Qed.

(** Acknowledging a [Ready] clears the mark. *)
Lemma advance_parts rd r : log_ok r -> log_ok (advance rd r) /\ r_log (advance rd r) = r_log r /\
  r_dirty_from (advance rd r) = None /\ pending_snapshot (advance rd r) = pending_snapshot r /\
  pending_entries (advance rd r) = pending_entries r.
Proof.
  intros H. unfold advance. cbv zeta.
  set (r1 := match rd_hard_state rd with Some _ => _ | None => r end).
  assert (H1 : samelog r r1 /\ untouched r r1) by (unfold r1; destruct (rd_hard_state rd); (split; [done|auto with raft; reflexivity])).
  clearbody r1. destruct H1 as [S1 U1]. set (r2 := update_progress _ _ _).
  assert (H2 : log_ok r2 /\ untouched r r2).
  { split; [eapply samelog_ok; [|exact H]; transitivity r1; [done|unfold r2; auto with raft]|].
    transitivity r1; [done|unfold r2; auto with raft]. }
  clearbody r2. clear S1 U1. destruct H2 as [H2 U2]. set (r3 := if _ : bool then maybe_advance_commit r2 else r2).
  assert (H3 : log_ok r3 /\ untouched r r3).
  { unfold r3. case_bool_decide; [|done]. split; [by apply ok_advance_commit|].
    transitivity r2; [done|auto with raft]. }
  clearbody r3. clear H2 U2. destruct H3 as [H3 U3]. set (r4 := match last _ with Some _ => _ | None => r3 end).
  assert (H4 : log_ok r4 /\ untouched r r4).
  { unfold r4. destruct (last _); [|done]. split; [by apply (samelog_ok r3); [apply samelog_set_applied|]|].
    transitivity r3; [done|auto with raft]. }
  clearbody r4. destruct H4 as [H4 U4]. split_and!; simpl.
  - by apply (samelog_ok r4); [apply quiet_samelog, quiet_set_dirty_from|].
  - apply (ut_log _ _ U4).
  - done.
  - apply (ut_snapshot _ _ U4).
  - apply (ut_entries _ _ U4).
Qed.

Lemma mirrors_tracked r w : log_ok r -> r_dirty_from r = None -> pending_snapshot r = None -> pending_entries r = [] ->
  0 < segment_bytes (w_opts w) -> mirrors w (r_log r) -> tracked r w.
Proof.
  intros Hl Hd Hp He Ho (i & es & Hw & Hr & Hin & El & Hb). split; try done.
  - intros d. by rewrite Hd.
  - exists i, es. split_and!; auto.
  - by right.
  - intros _. by right.
Qed.

Lemma finish_config_mark r : wf_log (r_log r) -> r_dirty_from r = None ->
  forall d, r_dirty_from (maybe_finish_config_change r).2 = Some d -> d = Log_last_index (r_log r) + 1.
Proof.
  intros Hl Hn d. unfold maybe_finish_config_change. case_bool_decide; [by cbn [snd]; rewrite Hn|]. cbv zeta.
  destruct (negb _); [by cbn [snd]; rewrite Hn|]. destruct (negb _); [by cbn [snd]; rewrite Hn|].
  unfold propose_config. case_bool_decide; [by cbn [snd]; rewrite Hn|]. cbv zeta.
  destruct (negb _); [by cbn [snd]; rewrite Hn|]. destruct (existsb _ _); [by cbn [snd]; rewrite Hn|]. cbn [snd].
  set (r1 := append_to_own_log _ r).
  assert (E1 : r_dirty_from r1 = Some (Log_last_index (r_log r) +64 1)).
  { unfold r1, append_to_own_log, mark_dirty. simpl. by rewrite Hn. }
  assert (U : untouched r1 (r1 |> reset_progress_for_config |> broadcast_append)) by calm_chain.
  rewrite (ut_dirty _ _ U), E1, (last_index_succ_wf _ Hl). by intros [= <-].
Qed.

Lemma untouched_send_snapshots peers s r :
  untouched r (fold_left (fun r peer => send_snapshot peer s r) peers r) /\
  samelog r (fold_left (fun r peer => send_snapshot peer s r) peers r).
Proof.
  revert r. induction peers as [|p peers IH]; intros r; simpl; [by split|].
  destruct (IH (send_snapshot p s r)) as [U S]. split.
  - etransitivity; [|exact U]. unfold send_snapshot. calm_chain.
  - etransitivity; [|exact S]. unfold send_snapshot. calm_chain.
Qed.

(** What the node is right after the barrier: no mark, and the mirror. *)
Lemma leader_housekeeping_cut n :
  driver_inv n -> r_dirty_from (n_raft n) = None -> pending_snapshot (n_raft n) = None -> log_room (n_raft n) ->
  cut (n_raft (leader_housekeeping n)) (n_wal (leader_housekeeping n)) /\
  pending_snapshot (n_raft (leader_housekeeping n)) = None.
Proof.
  intros Ht Hd Hp Hroom. unfold leader_housekeeping.
  destruct (negb _); [split; [split; [done|by rewrite Hd]|done]|].
  set (n1 := with_raft (fun r => (maybe_finish_config_change r).2) n).
  pose proof (tk_log _ _ Ht) as Hl. pose proof (log_step_finish_config _ Hl Hroom) as Hstep.
  pose proof (ok_input IFinishConfig _ Hl Hroom I) as Hl1. cbn [apply_input] in Hl1.
  assert (H1 : cut (n_raft n1) (n_wal n1) /\ pending_snapshot (n_raft n1) = None).
  { unfold n1. cbn [n_raft n_storage with_raft].
    assert (Hni : ~ installed (maybe_finish_config_change (n_raft n)).2 /\
      pending_snapshot (maybe_finish_config_change (n_raft n)).2 = None).
    { assert (U : pending_snapshot (maybe_finish_config_change (n_raft n)).2 = None); [|split; [by apply not_installed|done]].
      unfold maybe_finish_config_change. case_bool_decide; [done|]. cbv zeta. destruct (negb _); [done|].
      destruct (negb _); [done|]. unfold propose_config. case_bool_decide; [done|]. cbv zeta. destruct (negb _); [done|].
      destruct (existsb _ _); [done|]. cbn [snd]. set (r1 := append_to_own_log _ _).
      assert (E : pending_snapshot r1 = None) by done. clearbody r1.
      assert (U : untouched r1 (r1 |> reset_progress_for_config |> broadcast_append)) by calm_chain.
      by rewrite (ut_snapshot _ _ U). }
    destruct Hni as [Hni Hp1]. split; [|done]. split; [by eapply tracked_step|].
    intros d Hdd. rewrite (finish_config_mark _ (lo_wf _ Hl) Hd d Hdd).
    destruct (tk_end _ _ Ht Hd) as [Hi|Hlast]; [by destruct (not_installed _ Hp)|]. lia. }
  clearbody n1. destruct (followers_needing_snapshot (n_raft n1)) as [|peer needy]; [done|].
  destruct (snapshot_at_applied _ _) as [snap|]; [|done]. cbn [n_raft n_storage with_raft].
  destruct (untouched_send_snapshots (peer :: needy) snap (n_raft n1)) as [U S].
  destruct H1 as [Hc Hp1]. split; [|by rewrite (ut_snapshot _ _ U)].
  eapply cut_untouched; [exact Hc|exact U|]. eapply samelog_ok; [exact S|apply Hc].
Qed.

Lemma housekeeping_inv n :
  driver_inv n -> r_dirty_from (n_raft n) = None -> pending_snapshot (n_raft n) = None -> log_room (n_raft n) ->
  driver_inv (housekeeping n).
Proof.
  intros Ht Hd Hp Hroom. destruct (leader_housekeeping_cut n Ht Hd Hp Hroom) as [Hc Hp1].
  unfold housekeeping. cbv zeta. destruct (should_snapshot _); [by apply take_snapshot_tracked|apply Hc].
Qed.

Lemma after_persist_inv rd n :
  log_ok (n_raft n) -> pending_snapshot (n_raft n) = None -> pending_entries (n_raft n) = [] -> log_room (n_raft n) ->
  0 < segment_bytes (w_opts (n_wal n)) -> mirrors (n_wal n) (n_log n) ->
  driver_inv (after_persist rd n).
Proof.
  intros Hl Hp He Hroom Ho Hm. unfold after_persist.
  set (n1 := with_raft (report_persisted _) n).
  assert (H1 : r_log (n_raft n1) = n_log n /\ log_ok (n_raft n1) /\ pending_snapshot (n_raft n1) = None /\
    pending_entries (n_raft n1) = [] /\ n_storage n1 = n_storage n) by by destruct Hl.
  clearbody n1. set (n2 := fold_left answer_read _ _).
  assert (S : same_core n1 n2).
  { unfold n2. etransitivity; [|apply same_core_fold, same_core_answer_read].
    etransitivity; [|apply same_core_fold, same_core_apply_one]. apply same_core_fold. by split. }
  clearbody n2. destruct S as [Er Es]. destruct H1 as (El & Hl1 & Hp1 & He1 & Est).
  rewrite <- Er in El, Hl1, Hp1, He1. rewrite <- Es in Est.
  destruct (advance_parts rd (n_raft n2) Hl1) as (Hl2 & El2 & Hd2 & Hp2 & He2).
  apply housekeeping_inv; cbn [n_raft n_storage with_raft]; [|done|by rewrite Hp2|].
  - unfold driver_inv. cbn [n_raft n_storage with_raft]. rewrite Est.
    apply mirrors_tracked; [done|done|by rewrite Hp2|by rewrite He2|done|]. by rewrite El2, El.
  - unfold log_room. by rewrite El2, El.
Qed.

(** ** Events *)

Definition event_ok (ev : NodeEvent) (r : Raft) : Prop :=
  log_room r /\ match ev with EvWire _ msg => body_wf (m_body msg) | _ => True end.

(** Every event of the batch is well formed when its turn comes. *)
Fixpoint batch_ok (batch : list NodeEvent) (n : Node) : Prop :=
  match batch with
  | [] => True
  | ev :: rest => event_ok ev (n_raft n) /\ batch_ok rest (handle_event n ev)
  end.

Lemma inv_with_raft f n : driver_inv n -> log_step (n_raft n) (f (n_raft n)) -> log_ok (f (n_raft n)) ->
  driver_inv (with_raft f n).
Proof. intros Ht Hs Hl. by eapply tracked_step. Qed.

Lemma inv_same_core n n' : driver_inv n -> same_core n n' -> driver_inv n'.
Proof. intros Ht [Er Es]. unfold driver_inv. by rewrite Er, Es. Qed.

Lemma handle_client_inv from req n : driver_inv n -> log_room (n_raft n) -> driver_inv (handle_client from req n).
Proof.
  intros Ht Hroom. pose proof (tk_log _ _ Ht) as Hl. unfold handle_client.
  assert (Hwrite : driver_inv (let '(index, raft) := propose (Request_encode req) (n_raft n) in
    let n := with_raft (fun _ => raft) n in
    match index with
    | Some i => n |> count proposals 1 |> with_writes <[i := (from, req)]>
    | None => redirect from req n
    end)).
  { pose proof (log_step_propose (Request_encode req) _ Hl Hroom) as Hs.
    pose proof (ok_input (IPropose (Request_encode req)) _ Hl Hroom I) as Hl1. cbn [apply_input] in Hl1.
    destruct (propose _ _) as [index raft]. simpl in Hs, Hl1. cbv zeta.
    assert (Hi : driver_inv (with_raft (fun _ => raft) n)) by by apply inv_with_raft.
    destruct index; eapply inv_same_core; [exact Hi|by split|exact Hi|by split]. }
  destruct (rq_op req) as [key []| | | |];
    try (destruct (negb _); [by eapply inv_same_core; [exact Ht|split]|]); try exact Hwrite;
    try by eapply inv_same_core; [exact Ht|split].
  all: destruct (bool_decide _ && _); [by eapply inv_same_core; [exact Ht|split]|]; cbv zeta.
  all: cbn [n_raft count]; pose proof (untouched_read_index (n_raft n)) as U;
    pose proof (ok_input IReadIndex _ Hl Hroom I) as Hl1; cbn [apply_input] in Hl1;
    destruct (read_index (n_raft n)) as [ctx raft]; simpl in U, Hl1;
    (assert (Hi : driver_inv (with_raft (fun _ => raft) n)) by (apply inv_with_raft; auto with raft));
    destruct ctx; (eapply inv_same_core; [exact Hi|by split]).
Qed.

Lemma handle_event_inv n ev : driver_inv n -> event_ok ev (n_raft n) -> driver_inv (handle_event n ev).
Proof.
  intros Ht [Hroom Hev]. pose proof (tk_log _ _ Ht) as Hl. destruct ev as [rand|from msg|from req|from change]; simpl.
  - assert (Hi : driver_inv (with_raft (tick rand) n)).
    { apply inv_with_raft; [done|by apply log_step_tick|by apply (ok_input (ITick rand))]. }
    destruct (_ && _); [|done]. eapply inv_same_core; [exact Hi|by split].
  - apply inv_with_raft; [done|by apply log_step_step|by apply (ok_input (IStep from msg))].
  - apply handle_client_inv; [|done]. eapply inv_same_core; [exact Ht|by split].
  - unfold handle_admin. cbv zeta. destruct (negb _); [by eapply inv_same_core; [exact Ht|split]|].
    cbn [n_raft count]. pose proof (log_step_propose_config change _ Hl Hroom) as Hs.
    pose proof (ok_input (IProposeConfig change) _ Hl Hroom I) as Hl1. cbn [apply_input] in Hl1.
    destruct (propose_config change (n_raft n)) as [index raft]. simpl in Hs, Hl1.
    assert (Hi : driver_inv (with_raft (fun _ => raft) n)) by by apply inv_with_raft.
    eapply inv_same_core; [exact Hi|by split].
Qed.

Lemma batch_inv batch n : driver_inv n -> batch_ok batch n -> driver_inv (fold_left handle_event batch n).
Proof.
  revert n. induction batch as [|ev batch IH]; intros n Ht; simpl; [done|].
  intros [Hev Hrest]. apply IH; [by apply handle_event_inv|done].
Qed.

(** ** The contract *)

Lemma failed_enospc_inv n : connected (n_raft n) (n_wal n) -> pending_snapshot (n_raft n) = None ->
  exists n', failed (IoErr Enospc) n = Continue n' /\ driver_inv n'.
Proof.
  intros [Hc _] Hp. eexists. split; [done|]. unfold free_space.
  pose proof (untouched_step_down (n_raft n)) as U.
  apply take_snapshot_tracked; cbn [n_raft n_storage with_raft count]; [|by rewrite (ut_snapshot _ _ U)].
  eapply cut_untouched; [exact Hc|exact U|]. destruct Hc as [[[Hw Hcm] _ _ _ _ _ _] _].
  unfold step_down. case_bool_decide; [|done]. by apply (samelog_ok (n_raft n)); [apply samelog_become_follower|].
Qed.

Lemma cycle_ready_inv n :
  driver_inv n -> Forall record_ok (entries (n_log n)) -> log_room (n_raft n) ->
  exists n', cycle_ready n = Continue n' /\
    (pending_snapshot (n_raft n) = None \/ will_write (n_wal n) = true -> driver_inv n').
Proof.
  intros Ht Hrec Hroom. unfold cycle_ready. cbv zeta. pose proof (ready_has_parts _ _ Ht) as Hp.
  destruct (ready (n_raft n)) as [rd r1]. cbn [fst snd] in Hp.
  destruct (persist_ok (with_raft (fun _ => r1) n) _ (n_raft n) rd r1 Ht Hp Hrec eq_refl eq_refl) as [[Sr Ss] H].
  destruct (persist _ _ _) as [res n1]. cbn [fst snd n_raft n_storage with_raft] in *.
  destruct H as [[-> [Hm Ho]]|[-> Hc]].
  - rewrite <- (rp_log _ _ _ Hp), <- Sr in Hm. rewrite reconcile_idle; [|rewrite Sr; apply (rp_ok _ _ _ Hp)|done].
    eexists. split; [done|]. intros _.
    apply after_persist_inv; rewrite ?Sr, ?(rp_pending _ _ _ Hp); try done; [apply (rp_ok _ _ _ Hp)| |by rewrite Sr in Hm].
    unfold log_room. by rewrite (rp_log _ _ _ Hp).
  - destruct (decide (pending_snapshot (n_raft n) = None \/ will_write (n_wal n) = true)) as [Hd|Hd].
    + specialize (Hc Hd). rewrite <- Sr in Hc.
      destruct (failed_enospc_inv n1 Hc) as (n' & -> & Hi); [by rewrite Sr, (rp_pending _ _ _ Hp)|]. by exists n'.
    + eexists. split; [done|]. by intros.
Qed.

(** C18: The driver never dies of its own writes, and stays honest. A turn of the
    loop over any batch of well-formed events ends in the next turn, whichever of
    its writes the disk refuses: no append is ever out of sequence. The node it
    leaves satisfies the invariant again, unless the refused write was that of a
    snapshot received from the leader. *)
Theorem turns_keep_the_log_honest batch n :
  driver_inv n -> batch_ok batch n ->
  let n1 := fold_left handle_event batch n in
  Forall record_ok (entries (n_log n1)) -> log_room (n_raft n1) ->
  exists n', turn batch n = Continue n' /\
    (pending_snapshot (n_raft n1) = None \/ will_write (n_wal n1) = true -> driver_inv n').
Proof.
  cbv zeta. intros Ht Hb Hrec Hroom. unfold turn. pose proof (batch_inv batch n Ht Hb) as H1.
  set (n1 := fold_left handle_event batch n) in *. clearbody n1.
  pose proof (same_core_leadership n1) as S. destruct (S) as [Er Es].
  rewrite <- Er, <- Es. rewrite <- Er in Hrec, Hroom.
  apply cycle_ready_inv; [by eapply inv_same_core|done|done].
Qed.

(** ** A node that starts *)

Definition fresh_node (id : NodeId) (opts : RaftOptions) (cfg : Config) (fate : list bool) : Node :=
  boot id opts WalOptions_default cfg [] [] [] (mkDisk ∅ fate).

Lemma fresh_node_inv id opts cfg fate : driver_inv (fresh_node id opts cfg fate).
Proof.
  assert (Hw : wal_holds (n_wal (fresh_node id opts cfg fate)) 1 []).
  { pose proof (open_segment_layout (mkWal WalOptions_default [] 0 0 0 WalStats_default (mkDisk ∅ fate)) 1 [] 1
      ltac:(lia)) as H.
    exists [], []. split_and!; [|constructor|done]. apply H; [done|done|done|simpl; lia]. }
  assert (He : r_log (n_raft (fresh_node id opts cfg fate)) = mkLog 0 0 cfg []).
  { reflexivity. }
  split; try done.
  - exists 1, []. split_and!; [done|done|]. rewrite He. by intros e ?%elem_of_nil.
  - right. split; [done|]. rewrite He. destruct (wal_holds_bounds _ _ _ Hw) as (_ & -> & _). done.
  - right. rewrite He. by destruct (wal_holds_bounds _ _ _ Hw) as (_ & -> & _).
Qed.

Definition follower_node (fate : list bool) : Node := fresh_node 1 RaftOptions_default demo_config fate.

(** Two entries from the leader of term 1. *)
Definition append_event : NodeEvent :=
  EvWire 2 (mkMessage 1 (AppendReq 0 0 [demo_entry 1 1; demo_entry 1 2] 1)).

Lemma turns_keep_the_log_honest_witness :
  exists n', turn [append_event; EvTick 7] (follower_node [false; true]) = Continue n' /\ driver_inv n'.
Proof.
  destruct (turns_keep_the_log_honest [append_event; EvTick 7] (follower_node [false; true]))
    as (n' & Hn & Hi).
  - apply fresh_node_inv.
  - cbn [batch_ok]. split_and!; [split; [by_decide|]|split; [by_decide|exact I]|exact I].
    cbn. split_and!; [lia|by_decide|lia].
  - by_decide.
  - by_decide.
  - exists n'. split; [exact Hn|]. apply Hi. left. vm_compute. reflexivity.
Defined.

(** ** A snapshot lost on a full disk *)

(** What the leader ships: a store that holds one key, as of index 5. *)
Definition shipped_store : KvStore := (KvStore_apply KvStore_new 5 (mkRequest 7 1 (Put [107] [49]))).1.
Definition shipped : Snapshot := mkSnapshot 5 1 demo_config (KvStore_snapshot shipped_store).
Definition ship_event : NodeEvent := EvWire 2 (mkMessage 1 (SnapshotReq shipped)).

(** A full disk makes a follower skip a snapshot. The write that saves a
    snapshot from the leader is refused; the driver's answer to a full disk is to
    try the same [Ready] again, but the snapshot is in no later [Ready]. The next
    turn succeeds with memory, disk and acknowledgements at index 5 while neither
    the store nor the disk has the snapshot, and when the leader ships it again
    the follower acknowledges it unread. *)
Theorem full_disk_skips_a_snapshot :
  exists n, turns [[ship_event]; [ship_event]] (follower_node [false]) = Continue n /\
    r_applied (n_raft n) = 5 /\ r_persisted (n_raft n) = 5 /\ r_commit (n_raft n) = 5 /\
    n_kv n = KvStore_new /\ KvStore_get shipped_store [107] = Some [49] /\ KvStore_get (n_kv n) [107] = None /\
    pick_snapshot (so_slot0 (n_storage n)) (so_slot1 (n_storage n)) = (None, 0, 0) /\
    n_sent n = [(2, WRaft (mkMessage 1 (SnapshotResp true 5)))].
Proof. eexists. split; [vm_compute; reflexivity|]. split_and!; vm_compute; reflexivity. Qed.
