(* ===== verification/Durability.v ===== *)
(** * What a crash can undo

    The driver promises that what a node has acknowledged survives a crash: it
    syncs the log before it sends. The promise is broken by the way a later message
    is persisted. [handle_append] marks the log dirty from the first entry of an
    append even when the log already holds every entry of it, and [persist] begins by
    cutting the log on disk back to the mark, with an [fsync], and writes the
    entries again, to be synced at the end. Until then entries that were durable,
    acknowledged and counted towards a quorum are on no disk.

    [persist_mirrors_the_log] is what the promise comes to once [persist] has ended;
    [a_repeated_append_unsyncs_the_log] is the gap within it, for one node and any log;
    [a_crash_can_undo_a_committed_write] runs three drivers over their disks: a
    client is told that its write was applied, one node loses power, and the cluster
    goes on without the write. *)

From Stdlib Require Import ZArith Lia.
From stdpp Require Import base tactics list list_numbers gmap sets sorting.
From S2P Require Import Prelude Codec Types RaftLog Client Msg Kv RaftState Raft RaftNode Wal WalState WalSegments WalRecovery LogMatching Driver DriverLog DriverSync.

Open Scope Z_scope.

(** ** A log on disk that is synced *)

(** No segment has a write that waits for an [fsync]: what [sync] leaves. *)
Definition all_clean (w : Wal) : Prop := Forall (fun s => sg_dirty s = false) (w_segments w).

#[export] Instance all_clean_dec w : Decision (all_clean w).
Proof. unfold all_clean. apply _. Defined.

Lemma sync_clean w : all_clean (sync w).
Proof.
  assert (E : w_segments (sync w) = clean <$> w_segments w) by (unfold sync; by destruct (filter _ _)).
  unfold all_clean. rewrite E. apply Forall_fmap, Forall_true. done.
Qed.

Lemma clean_synced w i es : wal_holds w i es -> all_clean w -> wal_synced w i es (length es).
Proof.
  intros (chunks & c & Hl & Hne & ->) Hc. exists chunks, c. split_and!; [done|done|done|].
  apply durable_all. pose proof (ly_segs _ _ _ _ Hl) as Hs. unfold all_clean in Hc. clear Hl.
  revert Hc. induction Hs as [|s d segs cs Hs _ IH]; intros Hc; constructor; apply Forall_cons in Hc as [Hd Hc]; [|auto].
  destruct (so_file _ _ _ Hs) as (f & m & Hf & _ & Ho & Hm). exists f. rewrite (Hm Hd) in Ho. done.
Qed.

(** A cut leaves a synced log synced. *)
Lemma truncate_clean from w : all_clean w -> all_clean (truncate_from from w).
Proof.
  intros Hc. unfold truncate_from. destruct (_ <? _); [done|]. destruct (_ <=? _); [by repeat constructor|].
  destruct (pop_segments from (rev (w_segments w))) as [kept gone] eqn:Ep.
  destruct (pop_segments_spec _ _ _ _ Ep) as (Er & _).
  assert (Hk : Forall (fun s => sg_dirty s = false) (rev kept)).
  { apply Forall_rev. eapply Forall_app. rewrite <- Er. by apply Forall_rev. }
  cbv zeta. simpl w_segments. destruct (destruct_last (rev kept)) as [E|(init & s & E)]; rewrite E; [by rewrite E in Hk|].
  rewrite last_snoc, E in *. unfold all_clean. destruct (from <=? sg_last s); simpl; rewrite ?E; [|done].
  rewrite update_last_snoc. apply Forall_app in Hk as [Hk _]. apply Forall_app. split; [done|]. by repeat constructor.
Qed.

(** What [open] recovers from a synced log, whatever the crash does. *)
Lemma recovers_all w i es opts state slot0 slot1 d' :
  wal_holds w i es -> all_clean w -> i + Z.of_nat (length es) < U64 -> crash_image (w_disk w) d' ->
  let snap_index := match (pick_snapshot slot0 slot1).1.1 with Some s => sn_last_index s | None => 0 end in
  rc_entries (open opts state slot0 slot1 d') = filter (fun e => snap_index < e_index e) es.
Proof. intros Hw Hc Hb Hcr. apply (recovers_whole w i es); [by apply clean_synced|done|done]. Qed.

(** ** [persist] is a barrier *)

(** What [persist] writes it syncs; and when the [Ready] has nothing to write, it
    leaves a synced log synced. *)
Lemma persist_clean rd truncate n n' : persist rd truncate n = (IoOk, n') ->
  Ready_needs_durability rd = true \/ all_clean (n_wal n) -> all_clean (n_wal n').
Proof.
  unfold persist. set (n1 := match truncate with Some from => _ | None => n end).
  assert (Hcut : all_clean (n_wal n) -> all_clean (n_wal n1)).
  { unfold n1. destruct truncate; [apply truncate_clean|done]. }
  clearbody n1. destruct (Ready_needs_durability rd); cbn [negb].
  - destruct (match rd_snapshot rd with Some _ => _ | None => _ end) as [[] n2]; cbn [and_then]; try done.
    destruct (match rd_hard_state rd with Some _ => _ | None => _ end) as [[] n3]; cbn [and_then]; try done.
    destruct (match rd_entries rd with [] => _ | _ => _ end) as [[] n4]; cbn [and_then]; try done.
    intros [= <-] _. apply sync_clean.
  - intros [= <-] [?|H]; [done|by apply Hcut].
Qed.

(** C7: The log on disk is the log in memory before anything is sent, and it survives
    a power failure. From a node whose mark is honest, and whose log on disk is
    synced if the [Ready] has nothing to write, [persist] either succeeds or reports a
    full disk, and nothing was sent either way. After a success the log on disk holds
    every entry of the log in memory and nothing after its last one, [reconcile]
    has nothing to do, and no write waits for an [fsync]: whatever the power failure
    does to each file, what [open] recovers then has every entry of the log in memory
    beyond the snapshot that is recovered, and none beyond the last. *)
Theorem persist_mirrors_the_log n :
  driver_inv n -> Forall record_ok (entries (n_log n)) ->
  Ready_needs_durability (ready (n_raft n)).1 = true \/ all_clean (n_wal n) ->
  let '(rd, r1) := ready (n_raft n) in
  let '(res, n') := persist rd (truncate_to (n_raft n)) (with_raft (fun _ => r1) n) in
  n_sent n' = n_sent n /\
  (res = IoErr Enospc \/
   res = IoOk /\ n_log n' = n_log n /\ mirrors (n_wal n') (n_log n') /\ all_clean (n_wal n') /\
   reconcile n' = (IoOk, n') /\
   forall opts state slot0 slot1 d, crash_image (w_disk (n_wal n')) d ->
     let recovered := rc_entries (open opts state slot0 slot1 d) in
     let snap_index := match (pick_snapshot slot0 slot1).1.1 with Some s => sn_last_index s | None => 0 end in
     (forall e, e ∈ entries (n_log n') -> snap_index < e_index e -> e ∈ recovered) /\
     (forall e, e ∈ recovered -> e_index e <= Log_last_index (n_log n'))).
Proof.
  intros Ht Hrec Hneeds. pose proof (ready_has_parts _ _ Ht) as Hp. destruct (ready (n_raft n)) as [rd r1].
  cbn [fst snd] in Hp, Hneeds.
  destruct (persist_ok (with_raft (fun _ => r1) n) _ (n_raft n) rd r1 Ht Hp Hrec eq_refl eq_refl) as [[Sr Ss] H].
  destruct (persist _ _ _) as [res n'] eqn:E. cbn [fst snd] in *. split; [done|].
  destruct H as [[-> [Hm _]]|[-> _]]; [right|by left]. cbn [n_raft with_raft] in Sr.
  assert (El : n_log n' = n_log n) by (rewrite Sr; apply (rp_log _ _ _ Hp)). rewrite <- El in Hm.
  apply persist_clean in E; [|done]. split_and!; try done.
  - apply reconcile_idle; [rewrite El; apply Ht|done].
  - intros opts state slot0 slot1 d Hcr. destruct Hm as (i & es & Hw & Hb & Hin & Elast & _). cbv zeta.
    rewrite (recovers_all (n_wal n') i es) by done. split; intros e He.
    + intros Hs. apply list_elem_of_filter. auto.
    + apply list_elem_of_filter in He as [_ [k Hk]%list_elem_of_lookup].
      destruct (wal_holds_bounds _ _ _ Hw) as (_ & Ew & _ & Hc & _).
      pose proof (contiguous_lookup _ _ _ _ Hc Hk). apply lookup_lt_Some in Hk. lia.
Qed.

Lemma persist_mirrors_the_log_witness :
  let n := handle_event (follower_node []) append_event in
  let '(rd, r1) := ready (n_raft n) in
  let '(res, n') := persist rd (truncate_to (n_raft n)) (with_raft (fun _ => r1) n) in
  n_sent n' = n_sent n /\
  (res = IoErr Enospc \/
   res = IoOk /\ n_log n' = n_log n /\ mirrors (n_wal n') (n_log n') /\ all_clean (n_wal n') /\
   reconcile n' = (IoOk, n') /\
   forall opts state slot0 slot1 d, crash_image (w_disk (n_wal n')) d ->
     let recovered := rc_entries (open opts state slot0 slot1 d) in
     let snap_index := match (pick_snapshot slot0 slot1).1.1 with Some s => sn_last_index s | None => 0 end in
     (forall e, e ∈ entries (n_log n') -> snap_index < e_index e -> e ∈ recovered) /\
     (forall e, e ∈ recovered -> e_index e <= Log_last_index (n_log n'))).
Proof.
  apply persist_mirrors_the_log; [|by_decide|left; reflexivity].
  apply handle_event_inv; [apply fresh_node_inv|split; [by_decide|]].
  cbn. split_and!; [lia|by_decide|lia].
Defined.

(** The first thing [persist] does to the disk is to cut the log. *)
Lemma persist_cuts_first rd from n :
  persist rd (Some from) n = persist rd None (with_storage (with_wal (truncate_from from)) n).
Proof. done. Qed.

(** ** An append that the log already holds *)

Section Repeated.
Context (r : Raft) (from : NodeId) (pi : Index) (pt : Term) (e1 : Entry) (rest : list Entry) (c : Index).
Abbreviation m := (mkMessage (r_term r) (AppendReq pi pt (e1 :: rest) c)).
Context (Hpi : snapshot_index (r_log r) <= pi) (Hpt : Log_term_at (r_log r) pi = Some pt).
Context (Hc : contiguous_from (pi + 1) (e1 :: rest)).
Context (Hheld : forall e, e ∈ e1 :: rest -> Log_term_at (r_log r) (e_index e) = Some (e_term e)).

(** It changes nothing in the log, is acknowledged, and marks the log dirty. *)
Lemma repeated_append_marks : r_dirty_from r = None ->
  let r' := step from m r in
  r_log r' = r_log r /\ truncate_to r' = Some (e_index e1) /\
  last (msgs r') = Some (from, mkMessage (r_term r) (AppendResp true (pi + Z.of_nat (length (e1 :: rest))) 0 0)).
Proof using Hpi Hpt Hc Hheld.
  intros Hd. cbv zeta. unfold step, adopt_term. cbn [m_term m_body]. rewrite Z.ltb_irrefl. cbn [andb].
  rewrite Z.ltb_irrefl. unfold handle. cbn [m_body]. unfold handle_append.
  pose proof (untouched_follow from r) as U. destruct (follow_facts from r) as [_ Et].
  set (r0 := follow from r) in *. clearbody r0.
  destruct U as [El Ed _ _]. rewrite El, Hpt, Z.eqb_refl.
  destruct (Z.ltb_spec pi (snapshot_index (r_log r))); [lia|].
  assert (Em : Log_merge (r_log r) pi (e1 :: rest) = (r_log r, pi + Z.of_nat (length (e1 :: rest)))).
  { apply injective_projections; [rewrite merge_fst; by apply merge_loop_held|by apply merge_last_new]. }
  rewrite Em. cbv iota beta zeta. set (r1 := mark_dirty (e_index e1) (set_log (r_log r) r0)).
  assert (H1 : r_log r1 = r_log r /\ r_dirty_from r1 = Some (e_index e1) /\ r_term r1 = r_term r).
  { unfold r1, mark_dirty. simpl. by rewrite Ed, Hd. }
  clearbody r1. set (r2 := raise_commit _ r1).
  assert (H2 : r_log r2 = r_log r /\ r_dirty_from r2 = Some (e_index e1) /\ r_term r2 = r_term r).
  { unfold r2, raise_commit. by destruct (_ <? _). }
  clearbody r2. set (r3 := if _ : bool then _ else r2).
  assert (H3 : r_log r3 = r_log r /\ r_dirty_from r3 = Some (e_index e1) /\ r_term r3 = r_term r).
  { unfold r3. by destruct (_ <? _). }
  clearbody r3. destruct H3 as (L3 & D3 & T3). unfold send, truncate_to. simpl. by rewrite last_snoc, T3.
Qed.
End Repeated.

(** C5: A repeated append takes synced entries off the disk. Let a node's log on disk hold
    its entries, all of them synced, so that a crash would lose none. Let it receive
    an append of its leader whose entries it already has, [e1] and those after
    it: a retransmission. It acknowledges the entries once more, its log is what
    it was, and the first thing [persist] does is to cut the log on disk before
    [e1] and sync that: if the power fails right after the cut, before [persist] writes
    anything again, what [open] recovers are the entries below [e1] and no other. *)
Theorem a_repeated_append_unsyncs_the_log (n : Node) (from : NodeId) (pi : Index) (pt : Term) (e1 : Entry)
    (rest : list Entry) (c : Index) (i : Index) (es : list Entry) opts state slot0 slot1 :
  let r := n_raft n in
  let recovered d := rc_entries (open opts state slot0 slot1 d) in
  let snap_index := match (pick_snapshot slot0 slot1).1.1 with Some s => sn_last_index s | None => 0 end in
  wal_holds (n_wal n) i es -> all_clean (n_wal n) -> i + Z.of_nat (length es) < U64 ->
  snapshot_index (r_log r) <= pi -> Log_term_at (r_log r) pi = Some pt -> contiguous_from (pi + 1) (e1 :: rest) ->
  (forall e, e ∈ e1 :: rest -> e ∈ es /\ Log_term_at (r_log r) (e_index e) = Some (e_term e)) ->
  r_dirty_from r = None -> i < e_index e1 ->
  let n' := with_raft (step from (mkMessage (r_term r) (AppendReq pi pt (e1 :: rest) c))) n in
  (forall d, crash_image (w_disk (n_wal n)) d -> recovered d = filter (fun e => snap_index < e_index e) es) /\
  r_log (n_raft n') = r_log r /\
  last (msgs (n_raft n')) = Some (from, mkMessage (r_term r) (AppendResp true (pi + Z.of_nat (length (e1 :: rest))) 0 0)) /\
  exists n1, (forall rd, persist rd (truncate_to (n_raft n')) n' = persist rd None n1) /\
    forall d, crash_image (w_disk (n_wal n1)) d ->
      recovered d = filter (fun e => snap_index < e_index e) (filter (fun e => e_index e < e_index e1) es).
Proof.
  cbv zeta. intros Hw Hcl Hr Hpi Hpt Hc Hheld Hd Hi. destruct (wal_holds_bounds _ _ _ Hw) as (_ & _ & Hi1 & Hes & _).
  destruct (repeated_append_marks (n_raft n) from pi pt e1 rest c Hpi Hpt Hc (fun e He => proj2 (Hheld e He)) Hd)
    as (El & Et & Em).
  split_and!; [intros d; by apply (recovers_all (n_wal n) i es)|done|done|].
  eexists. split; [intros rd; unfold with_raft at 1; cbn [n_raft]; rewrite Et; apply persist_cuts_first|].
  intros d Hcr. assert (Hcut : wal_holds (truncate_from (e_index e1) (n_wal n)) i (filter (fun e => e_index e < e_index e1) es)).
  { pose proof (truncate_holds (e_index e1) _ _ _ Hw Hr ltac:(lia)) as H. by rewrite decide_False in H by lia. }
  eapply (recovers_all _ i); [exact Hcut|by apply truncate_clean| |exact Hcr].
  rewrite (filter_below i), length_take by done. lia.
Qed.

(** A follower in term 2 that holds three entries, each in a synced segment of its own. *)
Definition settled : Node :=
  mkNode (Raft_new 1 demo_config RaftOptions_default |> set_term 2 |> set_log (mkLog 0 0 demo_config demo_entries))
    KvStore_new (mkStorage (sync demo_full) [] [] []) ∅ ∅ false ApplyDigest_new NodeMetrics_default [].

Definition retransmission : Message := mkMessage 2 (AppendReq 1 1 [demo_entry 1 2; demo_entry 2 3] 0).

Lemma a_repeated_append_unsyncs_the_log_witness :
  let recovered d := rc_entries (open WalOptions_default [] [] [] d) in
  let n' := with_raft (step 3 retransmission) settled in
  (forall d, crash_image (w_disk (n_wal settled)) d -> recovered d = demo_entries) /\
  r_log (n_raft n') = r_log (n_raft settled) /\
  last (msgs (n_raft n')) = Some (3, mkMessage 2 (AppendResp true 3 0 0)) /\
  exists n1, (forall rd, persist rd (truncate_to (n_raft n')) n' = persist rd None n1) /\
    forall d, crash_image (w_disk (n_wal n1)) d -> recovered d = [demo_entry 1 1].
Proof.
  destruct (a_repeated_append_unsyncs_the_log settled 3 1 1 (demo_entry 1 2) [demo_entry 2 3] 0 1 demo_entries
    WalOptions_default [] [] []) as (H1 & H2 & H3 & n1 & H4 & H5).
  - destruct (sync_synced _ _ _ demo_full_holds) as (chunks & c & Hl & Hne & Es & _). by exists chunks, c.
  - apply sync_clean.
  - by_decide.
  - by_decide.
  - reflexivity.
  - by_decide.
  - intros e He. repeat (apply elem_of_cons in He as [->|He]); [by_decide|by_decide|by apply elem_of_nil in He].
  - reflexivity.
  - by_decide.
  - split_and!; [exact H1|exact H2|exact H3|]. exists n1. split; [exact H4|exact H5].
Defined.

(** ** A snapshot that is half installed *)

Definition replacing : Snapshot := mkSnapshot 2 3 demo_config (KvStore_snapshot KvStore_new).

(** A crash while a snapshot is installed leaves a stale suffix. [persist] saves the
    snapshot and then resets the log on disk; a crash in between leaves the snapshot with
    the entries of the old log that lie beyond it, and neither [open] nor [restore]
    looks whether they follow from it. The log that comes back has terms that go
    down, and the node finds a candidate up to date that it refused before. *)
Theorem a_crash_leaves_a_stale_suffix :
  let n := handle_event settled (EvWire 3 (mkMessage 3 (SnapshotReq replacing))) in
  let s := (storage_save_snapshot replacing (n_storage n)).2 in
  let back := boot 1 RaftOptions_default WalOptions_default demo_config (so_state s) (so_slot0 s) (so_slot1 s) (w_disk (so_wal s)) in
  rd_snapshot (ready (n_raft n)).1 = Some replacing /\ truncate_to (n_raft n) = None /\
  r_log (n_raft n) = mkLog 2 3 demo_config [] /\
  r_log (n_raft back) = mkLog 2 3 demo_config [demo_entry 2 3] /\
  Log_is_up_to_date (r_log (n_raft n)) 2 3 = false /\ Log_is_up_to_date (r_log (n_raft back)) 2 3 = true.
Proof. vm_compute. repeat split. Qed.

(** ** Three drivers and a power failure *)

(** The frames that [n], which is node [from], has sent to [to], as the events they are there. *)
Definition delivered (from to : NodeId) (n : Node) : list NodeEvent :=
  omap (fun tw => match tw.2 with WRaft m => if tw.1 =? to then Some (EvWire from m) else None | _ => None end) (n_sent n).

(** A turn of a driver that has handed over what it sent before. *)
Definition next_turn (batch : list NodeEvent) (n : Node) : Node :=
  match turn batch (mkNode (n_raft n) (n_kv n) (n_storage n) (n_writes n) (n_reads n) (n_was_leader n)
                      (n_digest n) (n_metrics n) []) with
  | Continue n => n
  | _ => n
  end.

(** The power fails in a turn, when the log has been cut and nothing else written; all
    that waits for an [fsync] is lost. *)
Definition power_cut (batch : list NodeEvent) (id : NodeId) (opts : RaftOptions) (cfg : Config) (n : Node) : Node :=
  let n := leadership_transition (fold_left handle_event batch n) in
  let n := match truncate_to (n_raft n) with Some from => with_storage (with_wal (truncate_from from)) n | None => n end in
  let s := n_storage n in
  boot id opts WalOptions_default cfg (so_state s) (so_slot0 s) (so_slot1 s)
    (mkDisk ((fun f => crash_file f []) <$> d_files (w_disk (so_wal s))) []).

Definition three : Config := Config_simple [1; 2; 3].
Definition quick : RaftOptions := mkRaftOptions 1 1 64 1000 true false 10.
Definition start (id : NodeId) : Node := fresh_node id quick three [].
Definition a_write : Request := mkRequest 7 1 (Put [107] [49]).
Definition a_read : Request := mkRequest 8 1 (Get [107] Linearizable).

(** Node 1 is elected by node 2 and commits a client's write with it; node 3 hears
    nothing. *)
Definition one_1 : Node := next_turn [EvTick 7] (start 1).
Definition two_1 : Node := next_turn (delivered 1 2 one_1) (start 2).
Definition one_2 : Node := next_turn (delivered 2 1 two_1) one_1.
Definition two_2 : Node := next_turn (delivered 1 2 one_2) two_1.
Definition one_3 : Node := next_turn (delivered 2 1 two_2) one_2.
Definition two_3 : Node := next_turn (delivered 1 2 one_3) two_2.
Definition one_4 : Node := next_turn (delivered 2 1 two_3) one_3.
Definition one_5 : Node := next_turn [EvClient 100 a_write] one_4.
Definition two_4 : Node := next_turn (delivered 1 2 one_5) two_3.
Definition one_6 : Node := next_turn (delivered 2 1 two_4) one_5.

(** The append of the write comes to node 2 a second time, and the power fails there. *)
Definition two_5 : Node := power_cut (delivered 1 2 one_5) 2 quick three two_4.

(** Nodes 2 and 3 go on without node 1. *)
Definition two_6 : Node := next_turn [EvTick 7] two_5.
Definition three_1 : Node := next_turn (delivered 2 3 two_6) (start 3).
Definition two_7 : Node := next_turn (delivered 3 2 three_1) two_6.
Definition three_2 : Node := next_turn (delivered 2 3 two_7) three_1.
Definition two_8 : Node := next_turn (delivered 3 2 three_2) two_7.
Definition three_3 : Node := next_turn (delivered 2 3 two_8) three_2.
Definition two_9 : Node := next_turn (delivered 3 2 three_3) two_8.
Definition three_4 : Node := next_turn (delivered 2 3 two_9) three_3.
Definition two_10 : Node := next_turn (delivered 3 2 three_4) two_9.
Definition two_11 : Node := next_turn [EvClient 101 a_read] two_10.
Definition three_5 : Node := next_turn (delivered 2 3 two_11) three_4.
Definition two_12 : Node := next_turn (delivered 3 2 three_5) two_11.

(** A crash can undo a committed write: one run, computed. Three drivers exchange the
    frames above, one of which arrives twice, and node 2 loses power once, in
    [power_cut]. Node 1 tells its client that the write was applied at index 2, after
    node 2 acknowledged that index. At the end node 2 leads term 2 and has applied
    another entry, of term 2, at index 2, which node 3 holds too; and its answer to a
    linearizable read of the key that was written is nothing. *)
Theorem a_crash_can_undo_a_committed_write :
  (n_sent one_6 = [(100, WReply (mkResponse 7 1 (Applied 2)))] /\
   r_applied (n_raft one_6) = 2 /\ KvStore_get (n_kv one_6) [107] = Some [49] /\
   n_sent two_4 = [(1, WRaft (mkMessage 1 (AppendResp true 2 0 0)))] /\
   Log_term_at (r_log (n_raft two_4)) 2 = Some 1 /\ r_persisted (n_raft two_4) = 2) /\
  (r_role (n_raft two_12) = Leader /\ r_term (n_raft two_12) = 2 /\
   r_applied (n_raft two_12) = 2 /\ Log_term_at (r_log (n_raft two_12)) 2 = Some 2 /\
   Log_term_at (r_log (n_raft three_4)) 2 = Some 2 /\
   n_sent two_12 = [(101, WReply (mkResponse 8 1 (Value None)))]).
Proof. vm_compute. repeat split. Qed.
