(* ===== verification/Invariants.v ===== *)
(** * The online safety oracles: [crates/chrono-oracle/src/invariants.rs]

    [Invariants] looks at the published state of every node at successive
    instants and reports, once each, the safety properties it sees broken. A
    method is a function of the same name on the record of its state; a loop
    over the nodes of a view is a fold in key order, a loop that returns early
    stops at its first finding. What a report says is kept as the values its text
    is made from. *)

From Stdlib Require Import ZArith Lia.
From stdpp Require Import base tactics list list_numbers gmap sets sorting strings.
From S2P Require Import Prelude Codec Types RaftLog RaftState Driver.

Open Scope Z_scope.

(** ** What the oracles see *)

(** [PublicState]: what the node published ([Driver.publish]) and what the
    observer adds. *)
Record PublicState : Type := mkPublicState {
  ps_published : Published;
  generation : Z;
  up : bool;
  recovered : bool;
  driver_error : option string
}.

Definition role (s : PublicState) : Role := pb_role (ps_published s).
Definition term (s : PublicState) : Term := pb_term (ps_published s).
Definition commit_index (s : PublicState) : Index := pb_commit_index (ps_published s).
Definition applied_index (s : PublicState) : Index := pb_applied_index (ps_published s).
Definition last_index (s : PublicState) : Index := pb_last_index (ps_published s).
Definition persisted_index (s : PublicState) : Index := pb_persisted_index (ps_published s).
Definition covered_index (s : PublicState) : Index := pb_snapshot_index (ps_published s).
Definition known_voters (s : PublicState) : list NodeId := pb_voters (ps_published s).
Definition log_terms (s : PublicState) : list (Index * Term) := pb_log_terms (ps_published s).
Definition apply_checkpoints (s : PublicState) : list (Index * Z) := pb_apply_checkpoints (ps_published s).

(** [ClusterView], a [BTreeMap] from node to state, and its iteration order. *)
Abbreviation ClusterView := (gmap NodeId PublicState).

Definition nodes_of (view : ClusterView) : list (NodeId * PublicState) :=
  omap (fun id => (fun s => (id, s)) <$> view !! id) (sorted_elements (dom view)).

Definition is_leader (s : PublicState) : bool := bool_decide (role s = Leader).

Definition ClusterView_members (view : ClusterView) : gset NodeId :=
  match List.find (fun p => up p.2 && is_leader p.2 && negb (length (known_voters p.2) =? 0)%nat) (nodes_of view) with
  | Some p => list_to_set (known_voters p.2)
  | None => list_to_set (concat (map (fun p => known_voters p.2) (nodes_of view)))
  end.

Definition ClusterView_leaders (view : ClusterView) : list (NodeId * Term) :=
  map (fun p => (p.1, term p.2)) (filter (fun p => is_leader p.2 = true) (nodes_of view)).

(** ** Reports *)

Inductive Property : Type :=
| DRIVER_STOPPED | DURABILITY | ELECTION_SAFETY | COMMIT_MONOTONICITY | APPLY_MONOTONICITY
| LOG_MATCHING | STATE_MACHINE_SAFETY | LEADER_COMPLETENESS | COMMIT_BEYOND_LOG | APPLIED_BEYOND_COMMIT.

#[export] Instance Property_eq_dec : EqDecision Property.
Proof. solve_decision. Defined.

(** A report: the property, the nodes and the numbers its text names. *)
Record Violated : Type := mkViolated {
  property : Property;
  v_nodes : list NodeId;
  v_numbers : list Z
}.

(** The accumulated state. *)
Record Invariants : Type := mkInvariants {
  leaders_by_term : gmap Term NodeId;
  high_commit : gmap (NodeId * Z) Index;
  high_applied : gmap (NodeId * Z) Index;
  committed_terms : gmap Index Term;
  persisted : gmap (NodeId * Z) Index;
  violations : list Violated;
  checks : Z
}.

Definition Invariants_new : Invariants := mkInvariants ∅ ∅ ∅ ∅ ∅ [] 0.

Definition ok (inv : Invariants) : bool := (length (violations inv) =? 0)%nat.

Definition set_leaders_by_term v inv :=
  mkInvariants v (high_commit inv) (high_applied inv) (committed_terms inv) (persisted inv) (violations inv) (checks inv).
Definition set_high_commit v inv :=
  mkInvariants (leaders_by_term inv) v (high_applied inv) (committed_terms inv) (persisted inv) (violations inv) (checks inv).
Definition set_high_applied v inv :=
  mkInvariants (leaders_by_term inv) (high_commit inv) v (committed_terms inv) (persisted inv) (violations inv) (checks inv).
Definition set_committed_terms v inv :=
  mkInvariants (leaders_by_term inv) (high_commit inv) (high_applied inv) v (persisted inv) (violations inv) (checks inv).
Definition set_persisted_map v inv :=
  mkInvariants (leaders_by_term inv) (high_commit inv) (high_applied inv) (committed_terms inv) v (violations inv) (checks inv).
Definition set_violations v inv :=
  mkInvariants (leaders_by_term inv) (high_commit inv) (high_applied inv) (committed_terms inv) (persisted inv) v (checks inv).
Definition set_checks v inv :=
  mkInvariants (leaders_by_term inv) (high_commit inv) (high_applied inv) (committed_terms inv) (persisted inv) (violations inv) v.

(** [fail]: each property is recorded once. *)
Definition fail (v : Violated) (inv : Invariants) : Invariants :=
  if existsb (fun w => bool_decide (property w = property v)) (violations inv) then inv
  else set_violations (violations inv ++ [v]) inv.

Definition fail_if (b : bool) (v : Violated) (inv : Invariants) : Invariants :=
  if b then fail v inv else inv.

(** ** One function per property *)

Definition driver_alive_node (inv : Invariants) (p : NodeId * PublicState) : Invariants :=
  match driver_error p.2 with
  | Some _ => fail (mkViolated DRIVER_STOPPED [p.1] []) inv
  | None => inv
  end.

Definition driver_alive (view : ClusterView) (inv : Invariants) : Invariants :=
  fold_left driver_alive_node (nodes_of view) inv.

(** [*map.get(&key).unwrap_or(&0)], and its update to the larger value. *)
Definition mark_of {K} `{Countable K} (k : K) (m : gmap K Index) : Index := default 0 (m !! k).
Definition raise_mark {K} `{Countable K} (k : K) (x : Index) (m : gmap K Index) : gmap K Index :=
  <[k := Z.max (mark_of k m) x]> m.

Definition durability_node (inv : Invariants) (p : NodeId * PublicState) : Invariants :=
  let '(id, s) := p in
  if negb (recovered s) then inv
  else
    let lost :=
      if 0 <? generation s
      then match persisted inv !! (id, generation s - 1) with
           | Some was => if (last_index s <? was) && (covered_index s <? was) then Some was else None
           | None => None
           end
      else None in
    let inv := match lost with
               | Some was => fail (mkViolated DURABILITY [id] [was; last_index s; covered_index s]) inv
               | None => inv
               end in
    set_persisted_map (raise_mark (id, generation s) (Z.min (persisted_index s) (commit_index s)) (persisted inv)) inv.

Definition durability (view : ClusterView) (inv : Invariants) : Invariants :=
  fold_left durability_node (nodes_of view) inv.

Definition election_safety_leader (inv : Invariants) (l : NodeId * Term) : Invariants :=
  let '(id, t) := l in
  match leaders_by_term inv !! t with
  | Some prev =>
      if negb (prev =? id) then fail (mkViolated ELECTION_SAFETY [prev; id] [t]) inv
      else set_leaders_by_term (<[t := id]> (leaders_by_term inv)) inv
  | None => set_leaders_by_term (<[t := id]> (leaders_by_term inv)) inv
  end.

Definition Invariants_election_safety (view : ClusterView) (inv : Invariants) : Invariants :=
  fold_left election_safety_leader (ClusterView_leaders view) inv.

Definition monotonicity_node (inv : Invariants) (p : NodeId * PublicState) : Invariants :=
  let '(id, s) := p in
  let key := (id, generation s) in
  let prev_c := mark_of key (high_commit inv) in
  let inv := fail_if (commit_index s <? prev_c)
               (mkViolated COMMIT_MONOTONICITY [id] [prev_c; commit_index s]) inv in
  let inv := set_high_commit (raise_mark key (commit_index s) (high_commit inv)) inv in
  let prev_a := mark_of key (high_applied inv) in
  let inv := fail_if (applied_index s <? prev_a)
               (mkViolated APPLY_MONOTONICITY [id] [prev_a; applied_index s]) inv in
  set_high_applied (raise_mark key (applied_index s) (high_applied inv)) inv.

Definition monotonicity (view : ClusterView) (inv : Invariants) : Invariants :=
  fold_left monotonicity_node (nodes_of view) inv.

(** The pairs [i < j] of a list, in the order of the two loops. *)
Fixpoint pairs {A} (l : list A) : list (A * A) :=
  match l with
  | [] => []
  | a :: l => map (fun b => (a, b)) l ++ pairs l
  end.

(** [a.iter().copied().collect::<BTreeMap<_, _>>()]: the last of equal keys wins. *)
Definition collect_map (l : list (Z * Z)) : gmap Z Z :=
  fold_left (fun m p => <[p.1 := p.2]> m) l ∅.

(** The first index, from the top, at which the two logs agree. *)
Definition agree_at (a_map : gmap Index Term) (b : list (Index * Term)) : option Index :=
  fst <$> List.find (fun p => bool_decide (a_map !! p.1 = Some p.2)) (rev b).

Definition log_conflict (a b : NodeId * PublicState) : option Violated :=
  let a_map := collect_map (log_terms a.2) in
  match agree_at a_map (log_terms b.2) with
  | None => None
  | Some m =>
      head (omap (fun p =>
        if m <? p.1 then None
        else match a_map !! p.1 with
             | Some a_term =>
                 if a_term =? p.2 then None
                 else Some (mkViolated LOG_MATCHING [a.1; b.1] [m; p.1; a_term; p.2])
             | None => None
             end) (log_terms b.2))
  end.

Definition apply_conflict (a b : NodeId * PublicState) : option Violated :=
  let a_map := collect_map (apply_checkpoints a.2) in
  head (omap (fun p =>
    match a_map !! p.1 with
    | Some a_hash =>
        if a_hash =? p.2 then None
        else Some (mkViolated STATE_MACHINE_SAFETY [a.1; b.1] [p.1; a_hash; p.2])
    | None => None
    end) (apply_checkpoints b.2)).

(** Compare every pair of nodes and report the first conflict. *)
Definition compare_pairs (conflict : NodeId * PublicState -> NodeId * PublicState -> option Violated)
    (nodes : list (NodeId * PublicState)) (inv : Invariants) : Invariants :=
  match head (omap (fun ab => conflict ab.1 ab.2) (pairs nodes)) with
  | Some v => fail v inv
  | None => inv
  end.

Definition log_matching (view : ClusterView) (inv : Invariants) : Invariants :=
  compare_pairs log_conflict (filter (fun p => log_terms p.2 <> []) (nodes_of view)) inv.

Definition state_machine_safety (view : ClusterView) (inv : Invariants) : Invariants :=
  compare_pairs apply_conflict (filter (fun p => apply_checkpoints p.2 <> []) (nodes_of view)) inv.

(** One node's committed entries against the terms recorded so far: the map
    grows until the commit index is passed or a conflict is found. *)
Fixpoint note_committed (commit : Index) (terms : list (Index * Term)) (known : gmap Index Term)
    : gmap Index Term * option (Index * Term * Term) :=
  match terms with
  | [] => (known, None)
  | (i, t) :: terms =>
      if commit <? i then (known, None)
      else
        match known !! i with
        | Some t' =>
            if negb (t' =? t) then (known, Some (i, t', t))
            else note_committed commit terms (<[i := t]> known)
        | None => note_committed commit terms (<[i := t]> known)
        end
  end.

(** The loop over the nodes; [return] ends it at the first conflict. *)
Fixpoint leader_completeness_nodes (nodes : list (NodeId * PublicState)) (inv : Invariants) : Invariants :=
  match nodes with
  | [] => inv
  | (id, s) :: nodes =>
      let '(known, conflict) := note_committed (commit_index s) (log_terms s) (committed_terms inv) in
      let inv := set_committed_terms known inv in
      match conflict with
      | Some (i, t', t) => fail (mkViolated LEADER_COMPLETENESS [pb_node (ps_published s)] [i; t'; t]) inv
      | None => leader_completeness_nodes nodes inv
      end
  end.

Definition leader_completeness (view : ClusterView) (inv : Invariants) : Invariants :=
  leader_completeness_nodes (nodes_of view) inv.

Definition commit_is_backed_node (inv : Invariants) (p : NodeId * PublicState) : Invariants :=
  let '(id, s) := p in
  let inv := fail_if (last_index s <? commit_index s)
               (mkViolated COMMIT_BEYOND_LOG [id] [commit_index s; last_index s]) inv in
  fail_if (commit_index s <? applied_index s)
    (mkViolated APPLIED_BEYOND_COMMIT [id] [applied_index s; commit_index s]) inv.

Definition commit_is_backed_by_a_log (view : ClusterView) (inv : Invariants) : Invariants :=
  fold_left commit_is_backed_node (nodes_of view) inv.

(** Every property, against one view. *)
Definition Invariants_check (inv : Invariants) (view : ClusterView) : Invariants :=
  set_checks (checks inv + 1) inv
  |> driver_alive view
  |> durability view
  |> Invariants_election_safety view
  |> monotonicity view
  |> log_matching view
  |> state_machine_safety view
  |> leader_completeness view
  |> commit_is_backed_by_a_log view.

(** A run of the oracles over successive views. *)
Definition observe_all (views : list ClusterView) : Invariants :=
  fold_left Invariants_check views Invariants_new.
