(* ===== verification/InvSpec.v ===== *)
(** * What the safety oracles report, exactly

    Each property has a definition over the whole sequence of observations of a
    run ([detected]); the oracles report a property exactly when it is detected, and
    it is then broken as documented ([broken]). The
    proofs follow one shape: what a phase of [Invariants_check] keeps in its own
    field summarises the observations so far, and the other phases leave that
    field and that property's report alone ([area_frame]). *)

From Stdlib Require Import ZArith Lia.
From stdpp Require Import base tactics list list_numbers gmap sets sorting strings.
From S2P Require Import Prelude Codec Types RaftLog RaftState Driver Invariants.

Open Scope Z_scope.

(** ** The properties, over the observations of a run *)

Definition observations (views : list ClusterView) : list (NodeId * PublicState) :=
  concat (map nodes_of views).

(** Two observations of one node in a run, the first earlier. *)
Definition earlier (obs : list (NodeId * PublicState)) (id : NodeId) (s1 s2 : PublicState) : Prop :=
  exists k l, (k < l)%nat /\ obs !! k = Some (id, s1) /\ obs !! l = Some (id, s2).

Definition leads (obs : list (NodeId * PublicState)) (id : NodeId) (t : Term) : Prop :=
  exists s, (id, s) ∈ obs /\ role s = Leader /\ term s = t.

(** Some node reported the entry [(i, t)] at or below its commit index. *)
Definition committed_at (obs : list (NodeId * PublicState)) (i : Index) (t : Term) : Prop :=
  exists id s, (id, s) ∈ obs /\ i <= commit_index s /\ (i, t) ∈ log_terms s.

Definition mismatched (a b : PublicState) : Prop :=
  exists m t i ta tb, (m, t) ∈ log_terms a /\ (m, t) ∈ log_terms b /\ i <= m /\
    (i, ta) ∈ log_terms a /\ (i, tb) ∈ log_terms b /\ ta <> tb.

Definition applied_apart (a b : PublicState) : Prop :=
  exists i ha hb, (i, ha) ∈ apply_checkpoints a /\ (i, hb) ∈ apply_checkpoints b /\ ha <> hb.

(** Two different nodes of one view. *)
Definition some_pair (R : PublicState -> PublicState -> Prop) (view : ClusterView) : Prop :=
  exists i j a b, i <> j /\ view !! i = Some a /\ view !! j = Some b /\ R a b.

Definition safe_index (s : PublicState) : Index := Z.min (persisted_index s) (commit_index s).

(** What the oracles look for, property by property. A loss of durable data is looked
    for against the life just before, and a decided index that changes in what nodes
    have themselves committed. *)
Definition detected (P : Property) (views : list ClusterView) : Prop :=
  let obs := observations views in
  match P with
  | DRIVER_STOPPED => exists id s, (id, s) ∈ obs /\ driver_error s <> None
  | DURABILITY => exists id s1 s2, earlier obs id s1 s2 /\ recovered s1 = true /\ recovered s2 = true /\
      0 < generation s2 /\ generation s1 = generation s2 - 1 /\
      last_index s2 < safe_index s1 /\ covered_index s2 < safe_index s1
  | ELECTION_SAFETY => exists i j t, i <> j /\ leads obs i t /\ leads obs j t
  | COMMIT_MONOTONICITY => exists id s1 s2, earlier obs id s1 s2 /\ generation s1 = generation s2 /\
      commit_index s2 < commit_index s1
  | APPLY_MONOTONICITY => exists id s1 s2, earlier obs id s1 s2 /\ generation s1 = generation s2 /\
      applied_index s2 < applied_index s1
  | LOG_MATCHING => exists view, view ∈ views /\ some_pair mismatched view
  | STATE_MACHINE_SAFETY => exists view, view ∈ views /\ some_pair applied_apart view
  | LEADER_COMPLETENESS => exists i t t', t <> t' /\ committed_at obs i t /\ committed_at obs i t'
  | COMMIT_BEYOND_LOG => exists id s, (id, s) ∈ obs /\ last_index s < commit_index s
  | APPLIED_BEYOND_COMMIT => exists id s, (id, s) ∈ obs /\ commit_index s < applied_index s
  end.

(** The properties as they are documented: [detected], except for two. A restart
    must bring back what any earlier life had made durable and committed; and a decided
    index has one term, so that no node ever holds another there. *)
Definition broken (P : Property) (views : list ClusterView) : Prop :=
  let obs := observations views in
  match P with
  | DURABILITY => exists id s1 s2, earlier obs id s1 s2 /\ recovered s1 = true /\ recovered s2 = true /\
      generation s1 < generation s2 /\ last_index s2 < safe_index s1 /\ covered_index s2 < safe_index s1
  | LEADER_COMPLETENESS => exists i t t', t <> t' /\ committed_at obs i t /\
      exists id s, (id, s) ∈ obs /\ (i, t') ∈ log_terms s
  | _ => detected P views
  end.

Lemma detected_broken P views : detected P views -> broken P views.
Proof.
  destruct P; try done; cbn [detected broken].
  - intros (id & s1 & s2 & He & H1 & H2 & _ & Hg & Hr). exists id, s1, s2. split_and!; try done; lia.
  - intros (i & t & t' & Hne & H & id & s & Hin & _ & Hl). exists i, t, t'. eauto 10.
Qed.

(** What a node publishes: unsigned indices, logs and digests in index order. *)
Definition ascending_keys (l : list (Z * Z)) : Prop := StronglySorted (fun p q => p.1 < q.1) l.

Record state_wf (s : PublicState) : Prop := {
  sw_commit : 0 <= commit_index s;
  sw_applied : 0 <= applied_index s;
  sw_last : 0 <= last_index s;
  sw_covered : 0 <= covered_index s;
  sw_log : ascending_keys (log_terms s);
  sw_digests : ascending_keys (apply_checkpoints s)
}.

Definition all_states (W : PublicState -> Prop) (views : list ClusterView) : Prop :=
  Forall (fun view => map_Forall (fun _ s => W s) view) views.

Definition views_wf : list ClusterView -> Prop := all_states state_wf.

(** ** Reports *)

Definition reported (P : Property) (inv : Invariants) : Prop := P ∈ map property (violations inv).

#[export] Instance reported_dec P inv : Decision (reported P inv).
Proof. unfold reported. apply _. Defined.

Lemma existsb_reported P inv :
  existsb (fun w => bool_decide (property w = P)) (violations inv) = bool_decide (reported P inv).
Proof.
  apply eq_true_iff_eq. rewrite existsb_exists, bool_decide_eq_true. unfold reported.
  rewrite list_elem_of_fmap. setoid_rewrite bool_decide_eq_true. setoid_rewrite <- list_elem_of_In. naive_solver.
Qed.

Lemma reported_fail P v inv : reported P (fail v inv) <-> property v = P \/ reported P inv.
Proof.
  unfold fail. rewrite existsb_reported. case_bool_decide as H; [naive_solver|].
  unfold reported, set_violations. simpl. rewrite map_app, elem_of_app. simpl. rewrite list_elem_of_singleton. naive_solver.
Qed.

(** The parts of the state that phases share. *)
Inductive Area : Type :=
| A_leaders | A_commit | A_applied | A_committed | A_persisted | A_report (P : Property).

Definition same (a : Area) (inv inv' : Invariants) : Prop :=
  match a with
  | A_leaders => leaders_by_term inv' = leaders_by_term inv
  | A_commit => high_commit inv' = high_commit inv
  | A_applied => high_applied inv' = high_applied inv
  | A_committed => committed_terms inv' = committed_terms inv
  | A_persisted => persisted inv' = persisted inv
  | A_report P => reported P inv' <-> reported P inv
  end.

#[export] Instance same_refl a : Reflexive (same a).
Proof. by destruct a. Qed.
#[export] Instance same_trans a : Transitive (same a).
Proof. intros x y z. destruct a; simpl; [congruence..|]. intros -> ->. done. Qed.

(** A phase leaves all but the areas [touched] as they are. *)
Definition area_frame (touched : list Area) (inv inv' : Invariants) : Prop :=
  forall a, a ∉ touched -> same a inv inv'.

Lemma frame_refl T inv : area_frame T inv inv.
Proof. by intros a _. Qed.

Lemma frame_trans T x y z : area_frame T x y -> area_frame T y z -> area_frame T x z.
Proof. intros H1 H2 a Ha. transitivity y; auto. Qed.

Lemma frame_fail T v inv : A_report (property v) ∈ T -> area_frame T inv (fail v inv).
Proof.
  intros Hv a Ha. destruct a; try (unfold fail; simpl; by case_match). simpl. rewrite reported_fail.
  split; [|by right]. intros [<-|]; [|done]. by destruct Ha.
Qed.

Lemma frame_fail_if T b v inv : A_report (property v) ∈ T -> area_frame T inv (fail_if b v inv).
Proof. intros H. destruct b; [by apply frame_fail|apply frame_refl]. Qed.

Lemma frame_fold {A} T (step : Invariants -> A -> Invariants) l inv :
  (forall inv x, area_frame T inv (step inv x)) -> area_frame T inv (fold_left step l inv).
Proof.
  intros H. revert inv. induction l as [|x l IH]; intros inv; [apply frame_refl|].
  simpl. eapply frame_trans; [apply H|apply IH].
Qed.

Ltac touches := solve [repeat (done || (left; done) || right)].

(** An update of one field of the state a area_frame leads to. *)
Lemma frame_set_leaders T x y v : area_frame T x y -> A_leaders ∈ T -> area_frame T x (set_leaders_by_term v y).
Proof. intros H Hin a Ha. specialize (H a Ha). by destruct a. Qed.
Lemma frame_set_commit T x y v : area_frame T x y -> A_commit ∈ T -> area_frame T x (set_high_commit v y).
Proof. intros H Hin a Ha. specialize (H a Ha). by destruct a. Qed.
Lemma frame_set_applied T x y v : area_frame T x y -> A_applied ∈ T -> area_frame T x (set_high_applied v y).
Proof. intros H Hin a Ha. specialize (H a Ha). by destruct a. Qed.
Lemma frame_set_committed T x y v : area_frame T x y -> A_committed ∈ T -> area_frame T x (set_committed_terms v y).
Proof. intros H Hin a Ha. specialize (H a Ha). by destruct a. Qed.
Lemma frame_set_persisted T x y v : area_frame T x y -> A_persisted ∈ T -> area_frame T x (set_persisted_map v y).
Proof. intros H Hin a Ha. specialize (H a Ha). by destruct a. Qed.
Lemma frame_set_checks T x v : area_frame T x (set_checks v x).
Proof. intros a Ha. by destruct a. Qed.

Lemma frame_driver_alive view inv : area_frame [A_report DRIVER_STOPPED] inv (driver_alive view inv).
Proof.
  apply frame_fold. intros inv' p. unfold driver_alive_node.
  destruct (driver_error p.2); [|apply frame_refl]. apply frame_fail. simpl. touches.
Qed.

Lemma frame_durability view inv : area_frame [A_report DURABILITY; A_persisted] inv (durability view inv).
Proof.
  apply frame_fold. intros inv' [id s]. unfold durability_node. destruct (recovered s); simpl; [|apply frame_refl].
  apply frame_set_persisted; [|touches]. case_match; [apply frame_fail; touches|apply frame_refl].
Qed.

Lemma frame_election view inv : area_frame [A_report ELECTION_SAFETY; A_leaders] inv (Invariants_election_safety view inv).
Proof.
  apply frame_fold. intros inv' [id t]. unfold election_safety_leader.
  repeat case_match; [apply frame_fail; touches|..]; (apply frame_set_leaders; [apply frame_refl|touches]).
Qed.

Lemma frame_monotonicity view inv :
  area_frame [A_report COMMIT_MONOTONICITY; A_commit; A_report APPLY_MONOTONICITY; A_applied] inv (monotonicity view inv).
Proof.
  apply frame_fold. intros inv' [id s]. unfold monotonicity_node. cbv zeta.
  apply frame_set_applied; [|touches]. eapply frame_trans; [|apply frame_fail_if; touches].
  apply frame_set_commit; [|touches]. apply frame_fail_if. touches.
Qed.

Lemma frame_pairs P conflict nodes inv :
  (forall a b v, conflict a b = Some v -> property v = P) ->
  area_frame [A_report P] inv (compare_pairs conflict nodes inv).
Proof.
  intros H. unfold compare_pairs. destruct (head _) as [v|] eqn:E; [|apply frame_refl].
  apply head_Some_elem_of, list_elem_of_omap in E as ([a b] & _ & E%H). apply frame_fail. rewrite E. touches.
Qed.

Lemma log_conflict_property a b v : log_conflict a b = Some v -> property v = LOG_MATCHING.
Proof.
  unfold log_conflict. destruct (agree_at _ _); [|done].
  intros (p & _ & Hp)%head_Some_elem_of%list_elem_of_omap. repeat case_match; naive_solver.
Qed.

Lemma apply_conflict_property a b v : apply_conflict a b = Some v -> property v = STATE_MACHINE_SAFETY.
Proof.
  unfold apply_conflict. intros (p & _ & Hp)%head_Some_elem_of%list_elem_of_omap. repeat case_match; naive_solver.
Qed.

Lemma frame_completeness view inv :
  area_frame [A_report LEADER_COMPLETENESS; A_committed] inv (leader_completeness view inv).
Proof.
  unfold leader_completeness. generalize (nodes_of view) as l. intros l. revert inv.
  induction l as [|[id s] l IH]; intros inv; [apply frame_refl|]. simpl.
  destruct (note_committed _ _ _) as [known [[[i t'] t]|]].
  - eapply frame_trans; [|apply frame_fail; touches]. apply frame_set_committed; [apply frame_refl|touches].
  - eapply frame_trans; [|apply IH]. apply frame_set_committed; [apply frame_refl|touches].
Qed.

Lemma frame_backed view inv :
  area_frame [A_report COMMIT_BEYOND_LOG; A_report APPLIED_BEYOND_COMMIT] inv (commit_is_backed_by_a_log view inv).
Proof.
  apply frame_fold. intros inv' [id s]. unfold commit_is_backed_node. cbv zeta.
  eapply frame_trans; apply frame_fail_if; touches.
Qed.

(** ** One check, from the point of view of one property *)

#[export] Instance Area_eq_dec : EqDecision Area.
Proof. solve_decision. Defined.

Definition phase (P : Property) : ClusterView -> Invariants -> Invariants :=
  match P with
  | DRIVER_STOPPED => driver_alive
  | DURABILITY => durability
  | ELECTION_SAFETY => Invariants_election_safety
  | COMMIT_MONOTONICITY | APPLY_MONOTONICITY => monotonicity
  | LOG_MATCHING => log_matching
  | STATE_MACHINE_SAFETY => state_machine_safety
  | LEADER_COMPLETENESS => leader_completeness
  | COMMIT_BEYOND_LOG | APPLIED_BEYOND_COMMIT => commit_is_backed_by_a_log
  end.

Definition own (P : Property) : list Area :=
  A_report P ::
  match P with
  | DURABILITY => [A_persisted]
  | ELECTION_SAFETY => [A_leaders]
  | COMMIT_MONOTONICITY => [A_commit]
  | APPLY_MONOTONICITY => [A_applied]
  | LEADER_COMPLETENESS => [A_committed]
  | _ => []
  end.

Definition agree (P : Property) (inv inv' : Invariants) : Prop := Forall (fun a => same a inv inv') (own P).

Lemma frame_log_matching view inv : area_frame [A_report LOG_MATCHING] inv (log_matching view inv).
Proof. apply frame_pairs, log_conflict_property. Qed.

Lemma frame_state_machine view inv : area_frame [A_report STATE_MACHINE_SAFETY] inv (state_machine_safety view inv).
Proof. apply frame_pairs, apply_conflict_property. Qed.

Lemma frame_agree P T inv inv' : area_frame T inv inv' -> Forall (fun a => a ∉ T) (own P) -> agree P inv inv'.
Proof. intros H HT. eapply Forall_impl; [exact HT|]. auto. Qed.

#[export] Instance agree_refl P : Reflexive (agree P).
Proof. intros x. apply Forall_forall. by intros a _. Qed.
#[export] Instance agree_trans P : Transitive (agree P).
Proof.
  intros x y z H1 H2. unfold agree in *. rewrite !Forall_forall in *. intros a Ha. transitivity y; auto.
Qed.

(** Peels from the end of the chain the phases that do not concern [P]. *)
Ltac peel :=
  first
    [ reflexivity
    | etransitivity;
      [| eapply frame_agree;
         [ first [ apply frame_backed | apply frame_completeness | apply frame_state_machine
                 | apply frame_log_matching | apply frame_monotonicity | apply frame_election
                 | apply frame_durability | apply frame_driver_alive | apply (frame_set_checks []) ]
         | by_decide ] ]; peel ].

Lemma check_split P inv view :
  exists inv1, agree P inv inv1 /\ agree P (phase P view inv1) (Invariants_check inv view).
Proof.
  unfold Invariants_check. set (i0 := set_checks _ inv).
  destruct P; simpl phase.
  - exists i0. split; peel.
  - exists (driver_alive view i0). split; peel.
  - exists (durability view (driver_alive view i0)). split; peel.
  - exists (Invariants_election_safety view (durability view (driver_alive view i0))). split; peel.
  - exists (Invariants_election_safety view (durability view (driver_alive view i0))). split; peel.
  - exists (monotonicity view (Invariants_election_safety view (durability view (driver_alive view i0)))). split; peel.
  - exists (log_matching view (monotonicity view (Invariants_election_safety view (durability view (driver_alive view i0))))).
    split; peel.
  - exists (state_machine_safety view (log_matching view (monotonicity view (Invariants_election_safety view
      (durability view (driver_alive view i0)))))). split; peel.
  - eexists (leader_completeness view (state_machine_safety view (log_matching view (monotonicity view
      (Invariants_election_safety view (durability view (driver_alive view i0))))))). split; peel.
  - eexists (leader_completeness view (state_machine_safety view (log_matching view (monotonicity view
      (Invariants_election_safety view (durability view (driver_alive view i0))))))). split; peel.
Qed.

(** A summary that depends on the areas of [P] alone, and that the phase of [P]
    extends, holds of a whole run. *)
Lemma run_summary P (W : PublicState -> Prop) (Sum : list ClusterView -> Invariants -> Prop) :
  Sum [] Invariants_new ->
  (forall views inv inv', agree P inv inv' -> Sum views inv -> Sum views inv') ->
  (forall views view inv, map_Forall (fun _ s => W s) view -> Sum views inv ->
     Sum (views ++ [view]) (phase P view inv)) ->
  forall views, all_states W views -> Sum views (observe_all views).
Proof.
  intros H0 Hagree Hstep views. induction views as [|view views IH] using rev_ind; [done|].
  intros [Hv Hw]%Forall_app. unfold observe_all. rewrite fold_left_app. simpl.
  destruct (check_split P (observe_all views) view) as (inv1 & H1 & H2).
  eapply Hagree; [exact H2|]. apply Hstep; [by inversion Hw|]. eapply Hagree; [exact H1|]. by apply IH.
Qed.

(** ** The nodes of a view *)

Lemma elem_of_nodes_of view id s : (id, s) ∈ nodes_of view <-> view !! id = Some s.
Proof.
  unfold nodes_of. rewrite list_elem_of_omap. split.
  - intros (i & _ & Hs). destruct (view !! i) eqn:E; simpl in Hs; naive_solver.
  - intros E. exists id. rewrite elem_of_sorted_elements, elem_of_dom, E. by eauto.
Qed.

Lemma observations_snoc views view : observations (views ++ [view]) = observations views ++ nodes_of view.
Proof. unfold observations. rewrite map_app, concat_app. simpl. by rewrite app_nil_r. Qed.

Lemma elem_of_observations views id s :
  (id, s) ∈ observations views <-> exists view, view ∈ views /\ view !! id = Some s.
Proof.
  unfold observations. rewrite list_elem_of_In, in_concat. setoid_rewrite <- list_elem_of_In. split.
  - intros (l & (view & -> & Hv)%list_elem_of_fmap & Hin). exists view. by rewrite <- elem_of_nodes_of.
  - intros (view & Hv & Hs). exists (nodes_of view). by rewrite elem_of_nodes_of, list_elem_of_fmap; eauto.
Qed.

Lemma nodes_wf (W : PublicState -> Prop) view :
  map_Forall (fun _ s => W s) view -> Forall (fun p => W p.2) (nodes_of view).
Proof. intros H. apply Forall_forall. intros [id s] Hin. apply elem_of_nodes_of in Hin. exact (H id s Hin). Qed.

Lemma nodes_of_NoDup view : NoDup (map fst (nodes_of view)).
Proof.
  unfold nodes_of. pose proof (sorted_elements_NoDup (dom view)) as H.
  induction (sorted_elements (dom view)) as [|i l IH]; [constructor|]. apply NoDup_cons in H as [Hi H].
  simpl. destruct (view !! i) as [s|]; simpl; [|auto]. apply NoDup_cons. split; [|auto].
  intros ((i' & s') & -> & (j & Hj & E)%list_elem_of_omap)%list_elem_of_fmap.
  destruct (view !! j); simplify_eq/=. done.
Qed.

(** A summary over observations, through a phase that folds over the nodes. *)
Lemma fold_summary (W : PublicState -> Prop) (step : Invariants -> NodeId * PublicState -> Invariants)
    (Sum : list (NodeId * PublicState) -> Invariants -> Prop) :
  (forall obs inv id s, W s -> Sum obs inv -> Sum (obs ++ [(id, s)]) (step inv (id, s))) ->
  forall l obs inv, Forall (fun p => W p.2) l -> Sum obs inv -> Sum (obs ++ l) (fold_left step l inv).
Proof.
  intros Hstep l. induction l as [|[id s] l IH]; intros obs inv Hw HS; [by rewrite app_nil_r|].
  inversion Hw; subst. simpl. rewrite (cons_middle (id, s) obs l), app_assoc. apply IH; [done|]. by apply Hstep.
Qed.

Lemma earlier_snoc obs id s id' s1 s2 :
  earlier (obs ++ [(id, s)]) id' s1 s2 <-> earlier obs id' s1 s2 \/ (id' = id /\ s2 = s /\ (id', s1) ∈ obs).
Proof.
  unfold earlier. split.
  - intros (k & l & Hkl & Hk & Hl). apply lookup_app_Some in Hl as [Hl|[Hle Hl]].
    + left. exists k, l. split_and!; [done| |done]. rewrite lookup_app_l in Hk; [done|].
      apply lookup_lt_Some in Hl. lia.
    + apply list_lookup_singleton_Some in Hl as [Hl [= <- <-]]. right. split_and!; [done..|].
      rewrite lookup_app_l in Hk by lia. by eapply list_elem_of_lookup_2.
  - intros [(k & l & Hkl & Hk & Hl)|(-> & -> & [k Hk]%list_elem_of_lookup)].
    + exists k, l. split_and!; [done|by apply lookup_app_l_Some..].
    + exists k, (length obs). split_and!; [by eapply lookup_lt_Some|by apply lookup_app_l_Some|].
      by rewrite lookup_app_r, Nat.sub_diag by lia.
Qed.

(** ** High-water marks *)

(** [m] holds the maximum, zero included, of the samples [S]. *)
Definition marks {K} `{Countable K} (m : gmap K Index) (S : K -> Index -> Prop) : Prop :=
  forall k x, 0 <= x -> (x < mark_of k m <-> exists y, S k y /\ x < y).

Lemma marks_empty {K} `{Countable K} (S : K -> Index -> Prop) : (forall k y, ~ S k y) -> marks ∅ S.
Proof. intros HS k x Hx. unfold mark_of. rewrite lookup_empty. simpl. split; [lia|]. naive_solver. Qed.

Lemma marks_raise {K} `{Countable K} (m : gmap K Index) S S' k0 y0 : marks m S ->
  (forall k y, S' k y <-> S k y \/ (k = k0 /\ y = y0)) -> marks (raise_mark k0 y0 m) S'.
Proof.
  intros Hm HS k x Hx. unfold raise_mark, mark_of at 1. destruct (decide (k = k0)) as [->|Hk].
  - rewrite lookup_insert_eq. simpl. specialize (Hm k0 x Hx). setoid_rewrite HS. split.
    + intros [H1|H1]%Z.max_lt_iff; [apply Hm in H1 as (y & ? & ?)|]; eauto 10.
    + intros (y & [Hy|[_ ->]] & Hxy); [|lia]. enough (x < mark_of k0 m) by lia. apply Hm. eauto.
  - rewrite lookup_insert_ne by done. fold (mark_of k m). rewrite (Hm k x Hx). setoid_rewrite HS. naive_solver.
Qed.

(** ** Exactness, property by property *)

Definition exact_for (W : PublicState -> Prop) (P : Property) : Prop :=
  forall views, all_states W views -> (reported P (observe_all views) <-> detected P views).
Definition exact : Property -> Prop := exact_for state_wf.

Definition any_state (s : PublicState) : Prop := True.

Lemma any_views views : all_states any_state views.
Proof. apply Forall_forall. by intros view _ i s _. Qed.

Lemma exact_any P : exact_for any_state P -> exact P.
Proof. intros H views _. apply H, any_views. Qed.

Lemma reported_fail_if P b v inv : reported P (fail_if b v inv) <-> (b = true /\ property v = P) \/ reported P inv.
Proof. destruct b; simpl; [rewrite reported_fail|]; naive_solver. Qed.

Lemma agree_report P inv inv' : agree P inv inv' -> (reported P inv' <-> reported P inv).
Proof. unfold agree, own. intros H. by inversion H. Qed.

Lemma agree_field P a inv inv' : own P = [A_report P; a] -> agree P inv inv' -> same a inv inv'.
Proof. unfold agree. intros -> H. inversion H as [|??? H']; subst. by inversion H'. Qed.

Lemma nothing_reported P : ~ reported P Invariants_new.
Proof. apply not_elem_of_nil. Qed.

(** A property of single observations. *)
Lemma exact_local (P : Property) (step : Invariants -> NodeId * PublicState -> Invariants) (bad : NodeId -> PublicState -> Prop) :
  (forall view inv, phase P view inv = fold_left step (nodes_of view) inv) ->
  (forall inv id s, reported P (step inv (id, s)) <-> bad id s \/ reported P inv) ->
  (forall views, detected P views <-> exists id s, (id, s) ∈ observations views /\ bad id s) ->
  exact_for any_state P.
Proof.
  intros Hphase Hstep Hbroken views Hw. rewrite Hbroken. revert views Hw.
  apply (run_summary P any_state (fun views inv => reported P inv <-> exists id s, (id, s) ∈ observations views /\ bad id s)).
  - split; [by intros ?%nothing_reported|]. intros (? & ? & []%not_elem_of_nil & _).
  - intros views inv inv' Ha <-. by apply agree_report.
  - intros views view inv Hw HS. rewrite Hphase, observations_snoc.
    refine (fold_summary any_state step (fun obs inv => reported P inv <-> exists id s, (id, s) ∈ obs /\ bad id s) _
      (nodes_of view) _ inv (nodes_wf _ _ Hw) HS).
    intros obs inv' id s _ HS'. rewrite Hstep, HS'. setoid_rewrite elem_of_app.
    setoid_rewrite list_elem_of_singleton. naive_solver.
Qed.

Lemma exact_driver_stopped : exact_for any_state DRIVER_STOPPED.
Proof.
  apply (exact_local _ driver_alive_node (fun _ s => driver_error s <> None)); [done| |done].
  intros inv id s. unfold driver_alive_node. simpl. destruct (driver_error s).
  - rewrite reported_fail. simpl. naive_solver.
  - naive_solver.
Qed.

Lemma exact_commit_beyond_log : exact_for any_state COMMIT_BEYOND_LOG.
Proof.
  apply (exact_local _ commit_is_backed_node (fun _ s => last_index s < commit_index s)); [done| |done].
  intros inv id s. unfold commit_is_backed_node. cbv zeta. rewrite !reported_fail_if. simpl. rewrite !Z.ltb_lt. naive_solver.
Qed.

Lemma exact_applied_beyond_commit : exact_for any_state APPLIED_BEYOND_COMMIT.
Proof.
  apply (exact_local _ commit_is_backed_node (fun _ s => commit_index s < applied_index s)); [done| |done].
  intros inv id s. unfold commit_is_backed_node. cbv zeta. rewrite !reported_fail_if. simpl. rewrite !Z.ltb_lt. naive_solver.
Qed.

(** A property of two observations of one node, through a map of high-water
    marks in the field [get]. *)
Lemma exact_marks (P : Property) (a : Area) (step : Invariants -> NodeId * PublicState -> Invariants) (get : Invariants -> gmap (NodeId * Z) Index)
    (sample : NodeId -> PublicState -> (NodeId * Z) -> Index -> Prop)
    (bad : PublicState -> PublicState -> Prop) :
  (forall view inv, phase P view inv = fold_left step (nodes_of view) inv) ->
  own P = [A_report P; a] -> (forall inv inv', same a inv inv' -> get inv' = get inv) ->
  get Invariants_new = ∅ ->
  (forall obs inv id s, state_wf s ->
     marks (get inv) (fun k y => exists id' s', (id', s') ∈ obs /\ sample id' s' k y) ->
     marks (get (step inv (id, s))) (fun k y => exists id' s', (id', s') ∈ obs ++ [(id, s)] /\ sample id' s' k y) /\
     (reported P (step inv (id, s)) <-> (exists s1, (id, s1) ∈ obs /\ bad s1 s) \/ reported P inv)) ->
  (forall views, detected P views <-> exists id s1 s2, earlier (observations views) id s1 s2 /\ bad s1 s2) ->
  exact P.
Proof.
  intros Hphase Hown Hget H0 Hstep Hbroken views Hw. rewrite Hbroken. revert views Hw.
  set (good obs inv := marks (get inv) (fun k y => exists id' s', (id', s') ∈ obs /\ sample id' s' k y) /\
    (reported P inv <-> exists id s1 s2, earlier obs id s1 s2 /\ bad s1 s2)).
  intros views Hw. enough (good (observations views) (observe_all views)) as [_ H] by done. revert views Hw.
  apply (run_summary P state_wf (fun views => good (observations views))).
  - split; [rewrite H0; apply marks_empty; intros k y (? & ? & []%not_elem_of_nil & _)|].
    split; [by intros ?%nothing_reported|]. intros (? & ? & ? & (? & ? & ? & Hl & _) & _). done.
  - intros views inv inv' Ha [H1 H2]. split.
    + by rewrite (Hget inv inv' (agree_field _ _ _ _ Hown Ha)).
    + rewrite (agree_report _ _ _ Ha). exact H2.
  - intros views view inv Hw HS. rewrite Hphase, observations_snoc.
    apply (fold_summary state_wf step good); [|by apply nodes_wf|done].
    intros obs inv' id s Hs [Hm Hr]. destruct (Hstep obs inv' id s Hs Hm) as [Hm' Hr']. split; [done|].
    rewrite Hr', Hr. setoid_rewrite earlier_snoc. naive_solver.
Qed.

(** The marks of [monotonicity], for either of its two indices. *)
Definition sample_of (f : PublicState -> Index) (id : NodeId) (s : PublicState) (k : NodeId * Z) (y : Index) : Prop :=
  k = (id, generation s) /\ y = f s.

Lemma marks_extend f m (obs : list (NodeId * PublicState)) id s :
  marks m (fun k y => exists id' s', (id', s') ∈ obs /\ sample_of f id' s' k y) ->
  marks (raise_mark (id, generation s) (f s) m)
    (fun k y => exists id' s', (id', s') ∈ obs ++ [(id, s)] /\ sample_of f id' s' k y).
Proof.
  intros Hm. eapply marks_raise; [exact Hm|]. intros k y. unfold sample_of. setoid_rewrite elem_of_app.
  setoid_rewrite list_elem_of_singleton. naive_solver.
Qed.

Lemma mark_exceeded f m (obs : list (NodeId * PublicState)) id s : 0 <= f s ->
  marks m (fun k y => exists id' s', (id', s') ∈ obs /\ sample_of f id' s' k y) ->
  f s < mark_of (id, generation s) m <->
  exists s1, (id, s1) ∈ obs /\ generation s1 = generation s /\ f s < f s1.
Proof.
  intros H0 Hm. rewrite (Hm _ _ H0). unfold sample_of. split.
  - intros (y & (id' & s' & Hin & [= -> Hg] & ->) & Hlt). exists s'. split_and!; [done|congruence|done].
  - intros (s1 & Hin & Hg & Hlt). exists (f s1). split; [|done]. exists id, s1. rewrite Hg. done.
Qed.

Lemma fail_if_same b v inv :
  high_commit (fail_if b v inv) = high_commit inv /\ high_applied (fail_if b v inv) = high_applied inv.
Proof. unfold fail_if, fail. by repeat case_match. Qed.

Lemma monotonicity_node_marks inv id s :
  high_commit (monotonicity_node inv (id, s)) = raise_mark (id, generation s) (commit_index s) (high_commit inv) /\
  high_applied (monotonicity_node inv (id, s)) = raise_mark (id, generation s) (applied_index s) (high_applied inv).
Proof.
  unfold monotonicity_node. cbv zeta. cbn [high_commit high_applied set_high_commit set_high_applied].
  set (inv1 := fail_if (commit_index s <? _) _ inv).
  assert (E : high_commit inv1 = high_commit inv /\ high_applied inv1 = high_applied inv) by apply fail_if_same.
  destruct E as [Ec Ea]. rewrite !(proj1 (fail_if_same _ _ _)), !(proj2 (fail_if_same _ _ _)).
  cbn [high_commit high_applied set_high_commit set_high_applied]. by rewrite Ec, Ea.
Qed.

Lemma monotonicity_node_reported P inv id s :
  reported P (monotonicity_node inv (id, s)) <->
  (commit_index s < mark_of (id, generation s) (high_commit inv) /\ P = COMMIT_MONOTONICITY) \/
  (applied_index s < mark_of (id, generation s) (high_applied inv) /\ P = APPLY_MONOTONICITY) \/ reported P inv.
Proof.
  unfold monotonicity_node. cbv zeta. set (inv1 := fail_if (commit_index s <? _) _ inv).
  assert (E : high_applied inv1 = high_applied inv) by apply fail_if_same.
  transitivity (reported P (fail_if (applied_index s <? mark_of (id, generation s) (high_applied inv1))
    (mkViolated APPLY_MONOTONICITY [id] [mark_of (id, generation s) (high_applied inv1); applied_index s])
    (set_high_commit (raise_mark (id, generation s) (commit_index s) (high_commit inv1)) inv1))); [done|].
  rewrite reported_fail_if, E, Z.ltb_lt. transitivity (applied_index s < mark_of (id, generation s) (high_applied inv) /\
    P = APPLY_MONOTONICITY \/ reported P inv1); [simpl; naive_solver|].
  unfold inv1. rewrite reported_fail_if, Z.ltb_lt. simpl. naive_solver.
Qed.

Lemma exact_commit_monotonicity : exact COMMIT_MONOTONICITY.
Proof.
  apply (exact_marks _ A_commit monotonicity_node high_commit (sample_of commit_index)
    (fun s1 s2 => generation s1 = generation s2 /\ commit_index s2 < commit_index s1)); [done..| |done].
  intros obs inv id s Hs Hm. rewrite (proj1 (monotonicity_node_marks _ _ _)). split; [by apply marks_extend|].
  rewrite monotonicity_node_reported, (mark_exceeded commit_index _ _ id s (sw_commit _ Hs) Hm). naive_solver.
Qed.

Lemma exact_apply_monotonicity : exact APPLY_MONOTONICITY.
Proof.
  apply (exact_marks _ A_applied monotonicity_node high_applied (sample_of applied_index)
    (fun s1 s2 => generation s1 = generation s2 /\ applied_index s2 < applied_index s1)); [done..| |done].
  intros obs inv id s Hs Hm. rewrite (proj2 (monotonicity_node_marks _ _ _)). split; [by apply marks_extend|].
  rewrite monotonicity_node_reported, (mark_exceeded applied_index _ _ id s (sw_applied _ Hs) Hm). naive_solver.
Qed.

(** [durability] samples the states of recovered nodes. *)
Definition safe_sample (id : NodeId) (s : PublicState) (k : NodeId * Z) (y : Index) : Prop :=
  recovered s = true /\ sample_of safe_index id s k y.

Lemma durability_node_reported inv id s : 0 <= last_index s -> 0 <= covered_index s ->
  reported DURABILITY (durability_node inv (id, s)) <->
  (recovered s = true /\ 0 < generation s /\
   Z.max (last_index s) (covered_index s) < mark_of (id, generation s - 1) (persisted inv)) \/ reported DURABILITY inv.
Proof.
  intros Hl Hc. unfold durability_node, mark_of. destruct (recovered s); simpl; [|naive_solver].
  destruct (Z.ltb_spec 0 (generation s)) as [Hg|Hg]; [|naive_solver lia].
  destruct (persisted inv !! (id, generation s - 1)) as [was|] eqn:E; simpl; [|naive_solver lia].
  destruct (Z.ltb_spec (last_index s) was), (Z.ltb_spec (covered_index s) was); simpl;
    [|naive_solver lia..].
  transitivity (reported DURABILITY (fail (mkViolated DURABILITY [id] [was; last_index s; covered_index s]) inv)); [done|].
  rewrite reported_fail. simpl. naive_solver lia.
Qed.

Lemma durability_node_marks inv id s :
  persisted (durability_node inv (id, s)) =
    if recovered s then raise_mark (id, generation s) (safe_index s) (persisted inv) else persisted inv.
Proof.
  unfold durability_node. destruct (recovered s); cbn [negb]; [|done].
  cbv zeta. set (lost := if 0 <? generation s then _ else _). destruct lost; [|done].
  unfold fail. by destruct (existsb _ _).
Qed.

Lemma exact_durability : exact DURABILITY.
Proof.
  apply (exact_marks _ A_persisted durability_node persisted safe_sample
    (fun s1 s2 => recovered s1 = true /\ recovered s2 = true /\ 0 < generation s2 /\ generation s1 = generation s2 - 1 /\
      last_index s2 < safe_index s1 /\ covered_index s2 < safe_index s1)); [done..| |done].
  intros obs inv id s Hs Hm. pose proof (sw_last _ Hs). pose proof (sw_covered _ Hs). split.
  - rewrite durability_node_marks. unfold safe_sample, sample_of in *. destruct (recovered s) eqn:Er.
    + eapply marks_raise; [exact Hm|]. intros k y. setoid_rewrite elem_of_app.
      setoid_rewrite list_elem_of_singleton. clear Hm. split.
      * intros (id' & s' & [Hin|[= -> ->]] & Hr & Hk & Hy); [left; by exists id', s'|by right].
      * intros [(id' & s' & Hin & Hr & Hk & Hy)|[-> ->]]; [exists id', s'|exists id, s]; by auto.
    + intros k x Hx. rewrite (Hm k x Hx). setoid_rewrite elem_of_app. setoid_rewrite list_elem_of_singleton. clear Hm. split.
      * intros (y & (id' & s' & Hin & Hr & Hk) & Hy). exists y. split; [|done]. exists id', s'. auto.
      * intros (y & (id' & s' & [Hin|[= -> ->]] & Hr & Hk) & Hy); [|congruence]. exists y. split; [|done]. by exists id', s'.
  - rewrite durability_node_reported by done. unfold safe_sample, sample_of in Hm. split; (intros [H1|H1]; [left|by right]).
    + destruct H1 as (Hr & Hg & Hlt). apply Hm in Hlt as (y & (id' & s' & Hin & Hr' & [= -> Hg'] & ->) & Hlt); [|lia].
      exists s'. split_and!; [done|done|done|done|lia|lia|lia].
    + destruct H1 as (s1 & Hin & Hr1 & Hr2 & Hg & Hg1 & H1 & H2). split_and!; [done|done|].
      apply Hm; [lia|]. exists (safe_index s1). split; [|lia]. exists id, s1. rewrite Hg1. done.
Qed.

(** ** Leaders *)

Definition election_node (inv : Invariants) (p : NodeId * PublicState) : Invariants :=
  if is_leader p.2 then election_safety_leader inv (p.1, term p.2) else inv.

Lemma election_by_node view inv : Invariants_election_safety view inv = fold_left election_node (nodes_of view) inv.
Proof.
  unfold Invariants_election_safety, ClusterView_leaders. generalize (nodes_of view) as l. intros l. revert inv.
  induction l as [|p l IH]; intros inv; [done|]. rewrite filter_cons. simpl. unfold election_node at 2.
  destruct (is_leader p.2); case_decide; simpl; by auto.
Qed.

(** The map of leaders: the first leader seen in each term. *)
Record leaders_noted (obs : list (NodeId * PublicState)) (inv : Invariants) : Prop := {
  ln_leads : forall t i, leaders_by_term inv !! t = Some i -> leads obs i t;
  ln_noted : forall t i, leads obs i t -> is_Some (leaders_by_term inv !! t);
  ln_report : reported ELECTION_SAFETY inv <->
    exists i j t, i <> j /\ leads obs i t /\ leaders_by_term inv !! t = Some j
}.

Lemma leads_snoc obs id s i t :
  leads (obs ++ [(id, s)]) i t <-> leads obs i t \/ (i = id /\ role s = Leader /\ term s = t).
Proof.
  unfold leads. setoid_rewrite elem_of_app. setoid_rewrite list_elem_of_singleton. naive_solver.
Qed.

Lemma leaders_noted_step obs inv id s :
  leaders_noted obs inv -> leaders_noted (obs ++ [(id, s)]) (election_node inv (id, s)).
Proof.
  intros [Ha Hb Hc]. unfold election_node, is_leader. simpl. case_bool_decide as Hl.
  2: { split; setoid_rewrite leads_snoc; [naive_solver..|]. rewrite Hc. naive_solver. }
  destruct (leaders_by_term inv !! term s) as [prev|] eqn:E; [destruct (Z.eqb_spec prev id) as [->|Hne]|]; simpl.
  - assert (Eq : leaders_by_term (set_leaders_by_term (<[term s := id]> (leaders_by_term inv)) inv) = leaders_by_term inv).
    { simpl. by apply insert_id. }
    split; rewrite Eq; setoid_rewrite leads_snoc; [naive_solver..|].
    change (reported ELECTION_SAFETY (set_leaders_by_term ?m inv)) with (reported ELECTION_SAFETY inv).
    rewrite Hc. split; [naive_solver|]. intros (i & j & t & Hij & [Hi|(-> & _ & <-)] & Hj); [by eauto 10|congruence].
  - assert (Eq : leaders_by_term (fail (mkViolated ELECTION_SAFETY [prev; id] [term s]) inv) = leaders_by_term inv).
    { unfold fail. by destruct (existsb _ _). }
    split; rewrite Eq; setoid_rewrite leads_snoc; [naive_solver..|]. rewrite reported_fail. simpl.
    split; [|by left]. intros _. exists id, prev, (term s). split_and!; auto.
  - split; cbn [leaders_by_term set_leaders_by_term]; setoid_rewrite leads_snoc.
    + intros t i [[<- <-]|[_ H]]%lookup_insert_Some; auto.
    + intros t i [H|(_ & _ & <-)]; [|by rewrite lookup_insert_eq].
      destruct (Hb t i H) as [j Hj]. rewrite lookup_insert_ne by congruence. by eauto.
    + change (reported ELECTION_SAFETY (set_leaders_by_term ?m inv)) with (reported ELECTION_SAFETY inv). rewrite Hc.
      assert (Hfree : forall i, ~ leads obs i (term s)) by (intros i [j Hj]%Hb; congruence).
      split.
      * intros (i & j & t & Hij & Hi & Hj). exists i, j, t. split_and!; [done|by left|].
        rewrite lookup_insert_ne by congruence. done.
      * intros (i & j & t & Hij & Hi & [[<- <-]|[Hne Hj]]%lookup_insert_Some); [naive_solver|].
        exists i, j, t. split_and!; [done| |done]. naive_solver.
Qed.

Lemma exact_election_safety : exact_for any_state ELECTION_SAFETY.
Proof.
  intros views Hw. enough (H : leaders_noted (observations views) (observe_all views)).
  { destruct H as [Ha Hb Hc]. rewrite Hc. simpl. split.
    - intros (i & j & t & Hij & Hi & Hj). exists i, j, t. auto.
    - intros (i & j & t & Hij & Hi & Hj). destruct (Hb t i Hi) as [k Hk].
      destruct (decide (k = i)) as [->|Hki]; [exists j, i, t|exists i, k, t]; auto. }
  revert views Hw. apply (run_summary ELECTION_SAFETY any_state (fun views => leaders_noted (observations views))).
  - split; [done|by intros t i (? & []%not_elem_of_nil & _)|].
    split; [by intros ?%nothing_reported|]. by intros (? & ? & ? & _ & (? & []%not_elem_of_nil & _) & _).
  - intros views inv inv' Hag [Ha Hb Hc]. pose proof (agree_field ELECTION_SAFETY A_leaders _ _ eq_refl Hag) as E. simpl in E.
    split; rewrite ?E; [done..|]. by rewrite (agree_report _ _ _ Hag).
  - intros views view inv Hw HS. simpl phase. rewrite election_by_node, observations_snoc.
    apply (fold_summary any_state election_node leaders_noted); [|by apply nodes_wf|done].
    intros obs inv' id s _. apply leaders_noted_step.
Qed.

(** ** Committed entries *)

Lemma ascending_above (l : list (Z * Z)) i t c :
  ascending_keys ((i, t) :: l) -> c < i -> forall j u, (j, u) ∈ (i, t) :: l -> c < j.
Proof.
  intros [_ Hf]%StronglySorted_inv Hc j u [[= -> ->]|Hin]%elem_of_cons; [done|].
  rewrite Forall_forall in Hf. apply Hf in Hin. simpl in Hin. lia.
Qed.

(** What one node adds: either everything it committed, or a conflict with what
    was known or what it added. *)
Lemma note_committed_spec c l known : ascending_keys l ->
  let added known i t := known !! i = Some t \/ ((i, t) ∈ l /\ i <= c) in
  match note_committed c l known with
  | (known', None) => forall i t, known' !! i = Some t <-> added known i t
  | (_, Some (i, t', t)) => t' <> t /\ added known i t' /\ added known i t
  end.
Proof.
  cbv zeta. revert known. induction l as [|[i0 t0] l IH]; intros known Hl; simpl.
  { setoid_rewrite elem_of_nil. naive_solver. }
  destruct (Z.ltb_spec c i0) as [Hc|Hc].
  { intros i t. split; [by left|]. intros [H|[Hin Hle]]; [done|].
    pose proof (ascending_above _ _ _ _ Hl Hc _ _ Hin). lia. }
  apply StronglySorted_inv in Hl as [Hl Hf]. specialize (IH (<[i0 := t0]> known) Hl).
  destruct (known !! i0) as [t'|] eqn:E; [destruct (Z.eqb_spec t' t0) as [->|Hne]|]; simpl.
  - rewrite (insert_id _ _ _ E) in *. destruct (note_committed c l known) as [known' [[[i t'] t]|]].
    + destruct IH as (Hne & [H1|H1] & H2). all: setoid_rewrite elem_of_cons; naive_solver.
    + intros i t. rewrite IH, elem_of_cons. naive_solver.
  - split_and!; [done|by left|]. right. split; [by left|done].
  - assert (Hadd : forall i t, (<[i0 := t0]> known !! i = Some t \/ ((i, t) ∈ l /\ i <= c)) <->
      (known !! i = Some t \/ ((i, t) ∈ (i0, t0) :: l /\ i <= c))).
    { intros i t. rewrite lookup_insert_Some, elem_of_cons. split.
      - intros [[[<- <-]|[_ H]]|[H ?]]; [right; auto|by left|right; auto].
      - intros [H|[[[= -> ->]|H] ?]]; [|by left; left|by right]. left. right. split; [congruence|done]. }
    destruct (note_committed c l _) as [known' [[[i t'] t]|]].
    + by rewrite !Hadd in IH.
    + intros i t. by rewrite IH, Hadd.
Qed.

Record committed_noted (obs : list (NodeId * PublicState)) (inv : Invariants) : Prop := {
  cn_report : reported LEADER_COMPLETENESS inv ->
    exists i t t', t <> t' /\ committed_at obs i t /\ committed_at obs i t';
  cn_known : ~ reported LEADER_COMPLETENESS inv ->
    forall i t, committed_terms inv !! i = Some t <-> committed_at obs i t
}.

Lemma committed_at_app obs obs' i t :
  committed_at (obs ++ obs') i t <-> committed_at obs i t \/ committed_at obs' i t.
Proof. unfold committed_at. setoid_rewrite elem_of_app. naive_solver. Qed.

Lemma committed_at_one id s i t : committed_at [(id, s)] i t <-> (i, t) ∈ log_terms s /\ i <= commit_index s.
Proof. unfold committed_at. setoid_rewrite list_elem_of_singleton. naive_solver. Qed.

Lemma committed_noted_reported obs inv : reported LEADER_COMPLETENESS inv ->
  (exists i t t', t <> t' /\ committed_at obs i t /\ committed_at obs i t') -> committed_noted obs inv.
Proof. intros Hr Hb. by split. Qed.

Lemma leader_completeness_spec l obs inv : Forall (fun p => state_wf p.2) l ->
  committed_noted obs inv -> committed_noted (obs ++ l) (leader_completeness_nodes l inv).
Proof.
  revert obs inv. induction l as [|[id s] l IH]; intros obs inv Hw Hc; [by rewrite app_nil_r|].
  inversion Hw as [|?? Hs Hl]; subst. simpl. rewrite (cons_middle (id, s) obs l), app_assoc.
  assert (Hmono : forall obs', (exists i t t', t <> t' /\ committed_at obs i t /\ committed_at obs i t') ->
    exists i t t', t <> t' /\ committed_at (obs ++ obs') i t /\ committed_at (obs ++ obs') i t').
  { intros obs' (i & t & t' & H & H1 & H2). exists i, t, t'. rewrite !committed_at_app. auto. }
  pose proof (note_committed_spec (commit_index s) _ (committed_terms inv) (sw_log _ Hs)) as Hn. cbv zeta in Hn.
  destruct Hc as [Hc1 Hc2]. destruct (note_committed _ _ _) as [known [[[i t'] t]|]].
  - apply committed_noted_reported; [apply reported_fail; by left|]. rewrite <- app_assoc.
    destruct (decide (reported LEADER_COMPLETENESS inv)) as [Hr|Hr]; [by apply Hmono, Hc1|].
    destruct Hn as (Hne & H1 & H2). exists i, t', t. split; [done|].
    rewrite !committed_at_app, !committed_at_one. rewrite !(Hc2 Hr) in H1, H2. naive_solver.
  - apply IH; [done|]. split.
    + intros Hr. by apply Hmono, Hc1.
    + intros Hr i t. simpl. rewrite Hn, (Hc2 Hr), committed_at_app, committed_at_one. done.
Qed.

Lemma exact_leader_completeness : exact LEADER_COMPLETENESS.
Proof.
  intros views Hw. enough (H : committed_noted (observations views) (observe_all views)).
  { destruct H as [Ha Hb]. split; [done|]. intros (i & t & t' & Hne & H1 & H2).
    destruct (decide (reported LEADER_COMPLETENESS (observe_all views))) as [|Hr]; [done|].
    apply (Hb Hr) in H1, H2. congruence. }
  revert views Hw. apply (run_summary LEADER_COMPLETENESS state_wf (fun views => committed_noted (observations views))).
  - split; [by intros ?%nothing_reported|]. intros _ i t. unfold committed_at. setoid_rewrite elem_of_nil. naive_solver.
  - intros views inv inv' Hag [Ha Hb]. pose proof (agree_field LEADER_COMPLETENESS A_committed _ _ eq_refl Hag) as E. simpl in E.
    split; rewrite (agree_report _ _ _ Hag), ?E; done.
  - intros views view inv Hw HS. rewrite observations_snoc. apply leader_completeness_spec; [by apply nodes_wf|done].
Qed.

(** ** Pairs of nodes *)

Lemma elem_of_pairs {A} (l : list A) a b :
  (a, b) ∈ pairs l -> a ∈ l /\ b ∈ l.
Proof.
  induction l as [|x l IH]; simpl; [by intros ?%elem_of_nil|]. rewrite elem_of_app, list_elem_of_fmap.
  intros [(y & [= -> ->] & Hy)|[Ha Hb]%IH]; split; by (left || right).
Qed.

Lemma pairs_distinct {A} (f : A -> NodeId) (l : list A) a b :
  NoDup (map f l) -> (a, b) ∈ pairs l -> f a <> f b.
Proof.
  induction l as [|x l IH]; simpl; [by intros _ ?%elem_of_nil|]. intros [Hx Hl]%NoDup_cons.
  rewrite elem_of_app, list_elem_of_fmap. intros [(y & [= -> ->] & Hy)|H]; [|auto].
  intros E. apply Hx. rewrite E. by apply list_elem_of_fmap_2.
Qed.

Lemma pairs_complete {A} (l : list A) a b :
  a ∈ l -> b ∈ l -> a <> b -> (a, b) ∈ pairs l \/ (b, a) ∈ pairs l.
Proof.
  induction l as [|x l IH]; simpl; [by intros ?%elem_of_nil|]. rewrite !elem_of_app, !list_elem_of_fmap.
  intros [->|Ha]%elem_of_cons [->|Hb]%elem_of_cons Hab; [done|left; left; eauto|right; left; eauto|].
  destruct (IH Ha Hb Hab); auto.
Qed.

Lemma reported_pairs (P : Property) conflict nodes inv :
  (forall a b v, conflict a b = Some v -> property v = P) ->
  reported P (compare_pairs conflict nodes inv) <->
  (exists a b, (a, b) ∈ pairs nodes /\ conflict a b <> None) \/ reported P inv.
Proof.
  intros H. unfold compare_pairs. destruct (head _) as [v|] eqn:E.
  - apply head_Some_elem_of, list_elem_of_omap in E as ([a b] & Hin & E). simpl in E.
    rewrite reported_fail. split; [intros _|].
    + left. exists a, b. by rewrite E.
    + intros _. left. by eapply H.
  - apply head_None in E. split; [by right|]. intros [(a & b & Hin & Hc)|]; [|done]. exfalso.
    destruct (conflict a b) as [v|] eqn:Ec; [|done].
    assert (Hv : v ∈ omap (fun ab => conflict ab.1 ab.2) (pairs nodes)) by (apply list_elem_of_omap; by exists (a, b)).
    rewrite E in Hv. by apply elem_of_nil in Hv.
Qed.

(** A property of two nodes of one view. *)
Lemma exact_pairs (P : Property) conflict (keep : PublicState -> list (Z * Z)) (R : PublicState -> PublicState -> Prop) :
  (forall view inv, phase P view inv = compare_pairs conflict (filter (fun p => keep p.2 <> []) (nodes_of view)) inv) ->
  own P = [A_report P] ->
  (forall a b v, conflict a b = Some v -> property v = P) ->
  (forall a b, state_wf a.2 -> state_wf b.2 -> conflict a b <> None <-> R a.2 b.2) ->
  (forall a b, R a b -> R b a) -> (forall a b, R a b -> keep a <> []) ->
  (forall views, detected P views <-> exists view, view ∈ views /\ some_pair R view) -> exact P.
Proof.
  intros Hphase Hown Hprop Hconf Hsym Hkeep Hbroken views Hw. rewrite Hbroken. revert views Hw.
  apply (run_summary P state_wf (fun views inv => reported P inv <-> exists view, view ∈ views /\ some_pair R view)).
  - split; [by intros ?%nothing_reported|]. by intros (? & []%not_elem_of_nil & _).
  - intros views inv inv' Ha <-. by apply agree_report.
  - intros views view inv Hw HS. rewrite Hphase, reported_pairs, HS by done. setoid_rewrite elem_of_app.
    setoid_rewrite list_elem_of_singleton. set (nodes := filter _ (nodes_of view)).
    assert (Hin : forall p, p ∈ nodes <-> keep p.2 <> [] /\ view !! p.1 = Some p.2).
    { intros [id s]. unfold nodes. rewrite list_elem_of_filter, elem_of_nodes_of. done. }
    enough (Hpair : (exists a b, (a, b) ∈ pairs nodes /\ conflict a b <> None) <-> some_pair R view) by naive_solver.
    split.
    + intros (a & b & Hab & Hc). pose proof (elem_of_pairs _ _ _ Hab) as [[_ Ha]%Hin [_ Hb]%Hin].
      exists a.1, b.1, a.2, b.2. split_and!; [|done..|].
      * eapply pairs_distinct; [|exact Hab]. eapply sublist_NoDup; [apply nodes_of_NoDup|].
        by apply (fmap_sublist fst), sublist_filter.
      * apply Hconf; [by apply (Hw a.1)|by apply (Hw b.1)|done].
    + intros (i & j & a & b & Hij & Hi & Hj & Hr). pose proof (Hw i a Hi) as Wa. pose proof (Hw j b Hj) as Wb.
      assert (Ha : (i, a) ∈ nodes) by (apply Hin; eauto). assert (Hb : (j, b) ∈ nodes) by (apply Hin; eauto).
      destruct (pairs_complete nodes (i, a) (j, b) Ha Hb) as [Hp|Hp]; [congruence|..].
      * exists (i, a), (j, b). split; [done|]. by apply Hconf.
      * exists (j, b), (i, a). split; [done|]. apply Hconf; [done..|]. by apply Hsym.
Qed.

Lemma collect_map_lookup l i t : ascending_keys l -> collect_map l !! i = Some t <-> (i, t) ∈ l.
Proof.
  intros Hl. unfold collect_map. assert (H : forall m : gmap Z Z, (forall j u v, (j, u) ∈ l -> m !! j = Some v -> False) ->
    fold_left (fun m p => <[p.1 := p.2]> m) l m !! i = Some t <-> (i, t) ∈ l \/ m !! i = Some t).
  2: { rewrite H; [|by intros]. rewrite lookup_empty. naive_solver. }
  induction l as [|[j u] l IH]; intros m Hm; simpl; [rewrite elem_of_nil; naive_solver|].
  apply StronglySorted_inv in Hl as [Hl Hf]. rewrite Forall_forall in Hf.
  rewrite IH; [|done|].
  - rewrite elem_of_cons, lookup_insert_Some. split.
    + intros [H|[[<- <-]|[_ H]]]; auto.
    + intros [[[= -> ->]|H]|H]; [auto..|]. right. right. split; [|done]. intros ->. eapply Hm; [left|exact H].
  - intros j' u' v Hin [[<- _]|[_ H]]%lookup_insert_Some; [|by eapply Hm; [right|]].
    apply Hf in Hin. simpl in Hin. lia.
Qed.

Lemma omap_head_Some {A B} (f : A -> option B) (l : list A) :
  head (omap f l) <> None <-> exists x, x ∈ l /\ f x <> None.
Proof.
  destruct (head (omap f l)) as [y|] eqn:E.
  - apply head_Some_elem_of, list_elem_of_omap in E as (x & Hx & Hf). split; [|done]. intros _. exists x. by rewrite Hf.
  - apply head_None in E. split; [done|]. intros (x & Hx & Hf). destruct (f x) as [y|] eqn:Ef; [|done].
    assert (Hy : y ∈ omap f l) by (apply list_elem_of_omap; eauto). rewrite E in Hy. by apply elem_of_nil in Hy.
Qed.

Lemma apply_conflict_spec a b : state_wf a.2 -> state_wf b.2 -> apply_conflict a b <> None <-> applied_apart a.2 b.2.
Proof.
  intros Ha Hb. unfold apply_conflict. cbv zeta. rewrite omap_head_Some. unfold applied_apart. split.
  - intros ([i hb] & Hin & H). simpl in H. destruct (collect_map _ !! i) as [ha|] eqn:E; [|done].
    apply collect_map_lookup in E; [|apply Ha]. destruct (Z.eqb_spec ha hb); [done|]. by exists i, ha, hb.
  - intros (i & ha & hb & Hia & Hib & Hne). exists (i, hb). split; [done|]. simpl.
    rewrite (proj2 (collect_map_lookup _ i ha (sw_digests _ Ha)) Hia). by rewrite (proj2 (Z.eqb_neq ha hb)).
Qed.

Lemma agree_at_spec a_map b : ascending_keys b ->
  match agree_at a_map b with
  | Some m => (exists t, (m, t) ∈ b /\ a_map !! m = Some t) /\ forall i t, (i, t) ∈ b -> a_map !! i = Some t -> i <= m
  | None => forall i t, (i, t) ∈ b -> a_map !! i <> Some t
  end.
Proof.
  intros Hb. unfold agree_at. induction b as [|[i t] b IH] using rev_ind; [by intros i t ?%elem_of_nil|].
  rewrite rev_app_distr. cbn [rev app List.find fst snd].
  assert (Hbi : ascending_keys b /\ forall j u, (j, u) ∈ b -> j < i).
  { clear IH. induction b as [|[j u] b IHb]; simpl in *; [split; [constructor|by intros j u ?%elem_of_nil]|].
    apply StronglySorted_inv in Hb as [Hb Hf]. destruct (IHb Hb) as [H1 H2]. apply Forall_app in Hf as [Hf Hi].
    split; [by constructor|]. intros j' u' [[= -> ->]|Hin]%elem_of_cons; [by inversion Hi|eauto]. }
  destruct Hbi as [Hb' Hlt]. specialize (IH Hb'). case_bool_decide as E; simpl.
  - split; [exists t; split; [apply elem_of_app; right; by left|done]|].
    intros j u [Hin|[= -> ->]%list_elem_of_singleton]%elem_of_app _; [|lia]. apply Hlt in Hin. lia.
  - destruct (List.find _ (rev b)) as [[m t']|]; simpl in *.
    + destruct IH as [(t0 & H1 & H2) H3]. split; [exists t0; split; [apply elem_of_app; by left|done]|].
      intros j u [Hin|[= -> ->]%list_elem_of_singleton]%elem_of_app Hj; [by eapply H3|done].
    + intros j u [Hin|[= -> ->]%list_elem_of_singleton]%elem_of_app; [by apply IH|done].
Qed.

Lemma log_conflict_spec a b : state_wf a.2 -> state_wf b.2 -> log_conflict a b <> None <-> mismatched a.2 b.2.
Proof.
  intros Ha Hb. unfold log_conflict, mismatched. pose proof (agree_at_spec (collect_map (log_terms a.2)) _ (sw_log _ Hb)) as Hm.
  pose proof (fun i t => collect_map_lookup (log_terms a.2) i t (sw_log _ Ha)) as Hmap.
  destruct (agree_at _ _) as [m|].
  - destruct Hm as [(t & Hmb & Hma) Hmax]. rewrite omap_head_Some. split.
    + intros ([i tb] & Hin & H). simpl in H. destruct (Z.ltb_spec m i); [done|].
      destruct (collect_map _ !! i) as [ta|] eqn:E; [|done]. destruct (Z.eqb_spec ta tb); [done|].
      exists m, t, i, ta, tb. rewrite <- !Hmap. done.
    + intros (m' & t' & i & ta & tb & H1 & H2 & Hle & H3 & H4 & Hne). exists (i, tb). split; [done|]. simpl.
      apply Hmap in H1, H3. pose proof (Hmax m' t' H2 H1). rewrite (proj2 (Z.ltb_ge m i)), H3 by lia.
      by rewrite (proj2 (Z.eqb_neq ta tb)).
  - split; [done|]. intros (m' & t' & i & ta & tb & H1 & H2 & _). by apply Hmap, (Hm m' t' H2) in H1.
Qed.

Lemma exact_log_matching : exact LOG_MATCHING.
Proof.
  apply (exact_pairs _ log_conflict log_terms mismatched); [done|done|apply log_conflict_property|apply log_conflict_spec| | |done].
  - intros a b (m & t & i & ta & tb & H). exists m, t, i, tb, ta. naive_solver.
  - intros a b (m & t & i & ta & tb & H1 & _) E. rewrite E in H1. by apply elem_of_nil in H1.
Qed.

Lemma exact_state_machine_safety : exact STATE_MACHINE_SAFETY.
Proof.
  apply (exact_pairs _ apply_conflict apply_checkpoints applied_apart);
    [done|done|apply apply_conflict_property|apply apply_conflict_spec| | |done].
  - intros a b (i & ha & hb & H). exists i, hb, ha. naive_solver.
  - intros a b (i & ha & hb & H1 & _) E. rewrite E in H1. by apply elem_of_nil in H1.
Qed.

Lemma every_property_exact P : exact P.
Proof.
  destruct P; [apply exact_any, exact_driver_stopped|apply exact_durability|apply exact_any, exact_election_safety
    |apply exact_commit_monotonicity|apply exact_apply_monotonicity|apply exact_log_matching
    |apply exact_state_machine_safety|apply exact_leader_completeness|apply exact_any, exact_commit_beyond_log
    |apply exact_any, exact_applied_beyond_commit].
Qed.

(** ** Theorems *)

Lemma fail_NoDup v inv :
  NoDup (map property (violations inv)) -> NoDup (map property (violations (fail v inv))).
Proof.
  intros H. unfold fail. rewrite existsb_reported. case_bool_decide as Hr; [done|].
  unfold set_violations. simpl. rewrite map_app. apply NoDup_app. split_and!; [done| |apply NoDup_singleton].
  intros P HP ->%list_elem_of_singleton. by apply Hr.
Qed.

(** What a run reports is built by [fail] alone. *)
Definition once (inv : Invariants) : Prop := NoDup (map property (violations inv)).

Lemma once_fold {A} (step : Invariants -> A -> Invariants) l inv :
  (forall inv x, once inv -> once (step inv x)) -> once inv -> once (fold_left step l inv).
Proof. intros H. revert inv. induction l as [|x l IH]; simpl; auto. Qed.

Lemma once_check inv view : once inv -> once (Invariants_check inv view).
Proof.
  intros H. unfold Invariants_check.
  assert (Hp : forall c ns inv, once inv -> once (compare_pairs c ns inv)).
  { intros c ns i Hi. unfold compare_pairs. destruct (head _); [by apply fail_NoDup|done]. }
  apply once_fold; [intros i [id s] Hi; unfold commit_is_backed_node, fail_if; cbv zeta;
    repeat case_match; by repeat apply fail_NoDup|].
  assert (Hc : forall l i, once i -> once (leader_completeness_nodes l i)).
  { induction l as [|[id s] l IH]; intros i Hi; [done|]. simpl.
    destruct (note_committed _ _ _) as [known [[[j t'] t]|]]; [by apply fail_NoDup|by apply IH]. }
  apply Hc, Hp, Hp.
  apply once_fold.
  { intros i [id s] Hi. unfold monotonicity_node, fail_if. cbv zeta. unfold once in *. simpl.
    repeat case_match; repeat apply (fail_NoDup _ (set_high_commit _ _)); repeat apply fail_NoDup; done. }
  apply once_fold; [intros i [id t] Hi; unfold election_safety_leader; repeat case_match; by try apply fail_NoDup|].
  apply once_fold.
  { intros i [id s] Hi. unfold durability_node. destruct (recovered s); [|done]. simpl. unfold once in *. simpl.
    destruct (if 0 <? generation s then _ else _); [by apply fail_NoDup|done]. }
  apply once_fold; [intros i p Hi; unfold driver_alive_node; destruct (driver_error p.2); by try apply fail_NoDup|done].
Qed.

(** C10: The safety oracles are sound, and exact but for two. Over any run of
    observations whose indices are not negative and whose published logs and digests
    are in the order of their indices, a property that is reported is broken as it is
    documented, and each is reported once. Conversely a property that the run breaks
    is reported: two leaders of one term at any two moments, a commit or applied index
    that went back within one life of a process, two logs of one view that agree at an
    index and differ at or below it, two nodes of one view that applied different
    things, an index beyond the log or the commit, a driver that stopped. Durability
    and Leader Completeness are the exceptions: the first is reported exactly when a
    restart lost what the life just before had, the second exactly when nodes
    committed two terms at one index. *)
Theorem oracles_are_exact (views : list ClusterView) :
  views_wf views ->
  (forall P, reported P (observe_all views) -> broken P views) /\
  (forall P, P <> DURABILITY -> P <> LEADER_COMPLETENESS -> broken P views -> reported P (observe_all views)) /\
  (reported DURABILITY (observe_all views) <->
   exists id s1 s2, earlier (observations views) id s1 s2 /\ recovered s1 = true /\ recovered s2 = true /\
     0 < generation s2 /\ generation s1 = generation s2 - 1 /\
     last_index s2 < safe_index s1 /\ covered_index s2 < safe_index s1) /\
  (reported LEADER_COMPLETENESS (observe_all views) <->
   exists i t t', t <> t' /\ committed_at (observations views) i t /\ committed_at (observations views) i t') /\
  NoDup (map property (violations (observe_all views))).
Proof.
  intros Hw. pose proof (fun P => every_property_exact P views Hw) as Hx. split_and!.
  - intros P HP. by apply detected_broken, Hx.
  - intros P H1 H2 HP. apply Hx. by destruct P.
  - apply (Hx DURABILITY).
  - apply (Hx LEADER_COMPLETENESS).
  - clear Hw Hx. change (once (observe_all views)). unfold observe_all.
    apply once_fold; [intros inv v; apply once_check|constructor].
Qed.

(** A published state with what the examples look at. *)
Definition seen (id : NodeId) (r : Role) (t commit last : Z) (log : list (Index * Term)) (gen : Z) (rec : bool) : PublicState :=
  mkPublicState (mkPublished id r t None commit commit last commit 0 [] 0 1 0 log []) gen true rec None.

Definition view_of (l : list PublicState) : ClusterView :=
  list_to_map (map (fun s => (pb_node (ps_published s), s)) l).

Definition two_leaders : list ClusterView :=
  [view_of [seen 1 Leader 5 0 0 [] 0 true; seen 2 Follower 5 0 0 [] 0 true];
   view_of [seen 1 Follower 6 0 0 [] 0 true; seen 2 Leader 5 0 0 [] 0 true]].

#[export] Instance ascending_keys_dec l : Decision (ascending_keys l).
Proof. unfold ascending_keys. apply _. Defined.

Lemma seen_wf id r t commit last log gen rec :
  0 <= commit -> 0 <= last -> ascending_keys log -> state_wf (seen id r t commit last log gen rec).
Proof. by split; [..|constructor]. Qed.

Lemma view_of_wf l : Forall state_wf l -> map_Forall (fun _ s => state_wf s) (view_of l).
Proof.
  intros H i s Hs. apply elem_of_list_to_map_2, list_elem_of_fmap in Hs as (s' & [= -> <-] & Hin).
  by apply (Forall_forall _ l).
Qed.

Lemma oracles_are_exact_witness :
  reported ELECTION_SAFETY (observe_all two_leaders) /\ broken ELECTION_SAFETY two_leaders.
Proof.
  assert (Hr : reported ELECTION_SAFETY (observe_all two_leaders)) by by_decide.
  split; [exact Hr|]. apply (oracles_are_exact two_leaders); [|exact Hr].
  unfold two_leaders. apply Forall_cons; split; [|apply Forall_cons; split; [|by apply Forall_nil]];
    apply view_of_wf; (apply Forall_cons; split; [|apply Forall_cons; split; [|by apply Forall_nil]]);
    apply seen_wf; by_decide.
Defined.

(** A node made everything up to 10 durable; its next process died before it had
    recovered; the one after that came back empty. *)
Definition short_life : list ClusterView :=
  [view_of [seen 1 Follower 3 10 10 [] 0 true];
   view_of [seen 1 Follower 0 0 0 [] 1 false];
   view_of [seen 1 Follower 3 0 0 [] 2 true]].

(** Lost data can go unreported. The durability oracle compares a process with
    the one just before it, and a process that never finished recovering leaves
    no mark: everything the node had made durable is gone, and every oracle is
    content. Without the short life in between, the loss is reported. *)
Theorem a_short_life_hides_lost_data :
  ok (observe_all short_life) = true /\
  reported DURABILITY (observe_all [view_of [seen 1 Follower 3 10 10 [] 0 true]; view_of [seen 1 Follower 3 0 0 [] 1 true]]).
Proof. split; [vm_compute; reflexivity|by_decide]. Qed.

(** Entry 3 is committed in term 2; the leader of term 5 has another entry there. *)
Definition incomplete_leader : list ClusterView :=
  [view_of [seen 1 Leader 2 3 3 [(1, 1); (2, 1); (3, 2)] 0 true];
   view_of [seen 1 Follower 5 3 3 [(1, 1); (2, 1); (3, 2)] 0 true; seen 2 Leader 5 2 3 [(1, 1); (2, 1); (3, 4)] 0 true]].

(** A leader without a committed entry passes. Leader Completeness is said to
    be checked by objecting if a node ever holds another term at a committed index;
    the check looks at what each node has itself committed, so a new leader whose
    log contradicts a committed entry is accepted until it commits past it. *)
Theorem an_incomplete_leader_passes :
  ok (observe_all incomplete_leader) = true /\
  committed_at (observations incomplete_leader) 3 2 /\
  (exists s, (2, s) ∈ observations incomplete_leader /\ role s = Leader /\ 2 < term s /\ (3, 4) ∈ log_terms s).
Proof.
  split; [vm_compute; reflexivity|]. split.
  - exists 1, (seen 1 Leader 2 3 3 [(1, 1); (2, 1); (3, 2)] 0 true). split; [|by_decide].
    apply elem_of_observations. eexists. split; [left|]. vm_compute. reflexivity.
  - exists (seen 2 Leader 5 2 3 [(1, 1); (2, 1); (3, 4)] 0 true). split; [|by_decide].
    apply elem_of_observations. eexists. split; [right; left|]. vm_compute. reflexivity.
Qed.
