(* ===== verification/InvCluster.v ===== *)
(** * The oracles watch the cluster

    What the nodes of [Cluster] and the driver of [Driver] publish, given to the
    oracles of [Invariants]: the consensus theorems say that some oracles never
    fire, so that a report of theirs in a simulation is a defect of the code that
    is not in the model, or of the oracle. *)

From Stdlib Require Import ZArith Lia.
From stdpp Require Import base tactics list list_numbers gmap sets sorting strings.
From S2P Require Import Prelude Codec Types RaftLog Client Msg Kv RaftState Raft RaftNode Cluster RaftCommit Wal WalState WalSegments Driver DriverLog DriverSync StateSafety Invariants InvSpec.

Open Scope Z_scope.

(** States of one run of a cluster, in the order of the run. *)
Record history_of_run (C : Config) (opts : RaftOptions) (run : list Cluster) : Prop := {
  hr_reach : Forall (reachable C opts) run;
  hr_order : StronglySorted (rtc (cluster_step C opts)) run
}.

(** A published state tells role and term of the node at some moment of the run,
    not necessarily the current one: publication lags, and the state of a node
    that is down lingers. *)
Definition seen_in_run (run : list Cluster) (id : NodeId) (s : PublicState) : Prop :=
  exists st, st ∈ run /\ role s = r_role (nodes st id) /\ term s = r_term (nodes st id).

Lemma run_order {A} (step : relation A) run st st' : StronglySorted (rtc step) run -> st ∈ run -> st' ∈ run ->
  rtc step st st' \/ rtc step st' st.
Proof.
  intros Hs. induction Hs as [|x run Hs IH Hx]; [by intros ?%elem_of_nil|]. rewrite Forall_forall in Hx.
  intros [->|H]%elem_of_cons [->|H']%elem_of_cons; [left; apply rtc_refl|left; auto|right; auto|auto].
Qed.

Lemma one_leader_in_run C opts run i j s s' : Config_is_joint C = false -> history_of_run C opts run ->
  seen_in_run run i s -> seen_in_run run j s' -> role s = Leader -> role s' = Leader -> term s = term s' -> i = j.
Proof.
  intros Hj Hr (st & Hin & R & T) (st' & Hin' & R' & T') L L' E. pose proof (hr_reach _ _ _ Hr) as Hre.
  rewrite Forall_forall in Hre. destruct (run_order _ _ st st' (hr_order _ _ _ Hr) Hin Hin') as [Hs|Hs].
  - apply (one_leader C opts st st'); auto; congruence.
  - symmetry. apply (one_leader C opts st' st); auto; congruence.
Qed.

(** The election oracle never fires on the modelled consensus. Whatever states
    the nodes of a cluster with a fixed membership publish along a run, with
    crashes, restarts, and messages lost, delayed and repeated, and whichever of
    them the oracle sees, late or in different views, it reports no two leaders. *)
Theorem election_oracle_stays_silent C opts run views :
  Config_is_joint C = false -> history_of_run C opts run ->
  (forall view id s, view ∈ views -> view !! id = Some s -> seen_in_run run id s) ->
  ~ reported ELECTION_SAFETY (observe_all views).
Proof.
  intros Hj Hr Hseen Hrep. apply exact_election_safety in Hrep; [|apply any_views].
  destruct Hrep as (i & j & t & Hij & (s & Hs & Ls & Ts) & (s' & Hs' & Ls' & Ts')). apply Hij.
  apply elem_of_observations in Hs as (view & Hv & Hs), Hs' as (view' & Hv' & Hs').
  apply (one_leader_in_run C opts run i j s s'); eauto; congruence.
Qed.

(** Node 1 has won the election of [Cluster.w5]; node 2 still looks as it did
    before the run when a later view is taken. *)
Definition watched : list ClusterView :=
  [view_of [seen 1 Leader 1 0 1 [] 0 true]; view_of [seen 1 Leader 1 0 1 [] 0 true; seen 2 Follower 0 0 0 [] 0 true]].

Lemma election_oracle_stays_silent_witness : ~ reported ELECTION_SAFETY (observe_all watched).
Proof.
  apply (election_oracle_stays_silent c3 one_tick [cluster_init c3 one_tick; w5]).
  - by_decide.
  - split.
    + apply Forall_cons; split; [apply r_init|]. apply Forall_cons; split; [exact w5_reachable|by apply Forall_nil].
    + apply SSorted_cons; [apply SSorted_cons; [apply SSorted_nil|by apply Forall_nil]|].
      apply Forall_cons; split; [|by apply Forall_nil]. exact w5_follows_init.
  - intros view id s Hv Hs.
    assert (H12 : (id, s) = (1, seen 1 Leader 1 0 1 [] 0 true) \/ (id, s) = (2, seen 2 Follower 0 0 0 [] 0 true)).
    { unfold watched in Hv. apply elem_of_cons in Hv as [->|Hv]; [|apply list_elem_of_singleton in Hv as ->];
        apply elem_of_list_to_map_2 in Hs; simpl in Hs; rewrite !elem_of_cons, elem_of_nil in Hs; naive_solver. }
    destruct H12 as [[= -> ->]|[= -> ->]].
    + exists w5. split; [right; left|]. split; vm_compute; reflexivity.
    + exists (cluster_init c3 one_tick). split; [left|]. split; vm_compute; reflexivity.
Defined.

(** The commit oracle never fires on the modelled driver. If every state in the
    views was published by a node whose driver invariant holds, which the turns of
    the loop keep, no node is reported to have committed beyond its log. *)
Theorem commit_oracle_stays_silent views :
  (forall view id s, view ∈ views -> view !! id = Some s ->
     exists inspect n, driver_inv n /\ ps_published s = publish inspect n) ->
  ~ reported COMMIT_BEYOND_LOG (observe_all views).
Proof.
  intros Hseen Hrep. apply exact_commit_beyond_log in Hrep; [|apply any_views].
  destruct Hrep as (id & s & Hs & Hlt). apply elem_of_observations in Hs as (view & Hv & Hs).
  destruct (Hseen view id s Hv Hs) as (inspect & n & Hn & E). pose proof (lo_commit _ (tk_log _ _ Hn)) as Hc.
  unfold last_index, commit_index in Hlt. rewrite E in Hlt. simpl in Hlt. lia.
Qed.

Lemma commit_oracle_stays_silent_witness :
  ~ reported COMMIT_BEYOND_LOG (observe_all [ {[1 := mkPublicState (publish true (follower_node [])) 0 true true None]} ]).
Proof.
  apply commit_oracle_stays_silent. intros view id s ->%list_elem_of_singleton [<- <-]%lookup_singleton_Some.
  exists true, (follower_node []). split; [apply fresh_node_inv|done].
Defined.

(** ** Runs that keep the crash discipline *)

Record safe_run (C : Config) (opts : RaftOptions) (run : list Safe) : Prop := {
  sn_reach : Forall (safe_reachable C opts) run;
  sn_order : StronglySorted (rtc (safe_step C opts)) run
}.

(** What the driver of a node published at some moment of the run. *)
Definition published_in (run : list Safe) (id : NodeId) (s : PublicState) : Prop :=
  exists st inspect n, st ∈ run /\ n_raft n = nodes (sc st) id /\ ps_published s = publish inspect n.

(** The published terms are those of the log. *)
Lemma published_terms inspect n i t : wf_log (r_log (n_raft n)) -> (i, t) ∈ pb_log_terms (publish inspect n) ->
  exists e, Log_get (r_log (n_raft n)) i = Some e /\ e_term e = t.
Proof.
  intros Hw. destruct inspect; [|by intros ?%elem_of_nil]. simpl. intros (e & [= -> ->] & He)%list_elem_of_fmap.
  exists e. split; [|done]. unfold Log_entries_from in He. rewrite slice_filter in He by done.
  apply list_elem_of_filter in He as [_ [k Hk]%list_elem_of_lookup].
  pose proof (contiguous_lookup _ _ _ _ (wf_contiguous _ Hw) Hk) as Ei. rewrite get_lookup by (done || lia). rewrite <- Hk. f_equal. lia.
Qed.

Section SafeRun.
Context (C : Config) (opts : RaftOptions) (Hj : Config_is_joint C = false) (Hn : (1 < size (voters C))%nat).
Context (run : list Safe) (Hrun : safe_run C opts run).

(** What holds of two published states in the order of the run holds of any two. *)
Lemma published_pair (R : NodeId -> PublicState -> NodeId -> PublicState -> Prop) i j x y :
  (forall i x j y, R i x j y -> R j y i x) ->
  (forall i j st st' x y b b' n n', safe_reachable C opts st -> rtc (safe_step C opts) st st' ->
     n_raft n = nodes (sc st) i -> ps_published x = publish b n ->
     n_raft n' = nodes (sc st') j -> ps_published y = publish b' n' -> R i x j y) ->
  published_in run i x -> published_in run j y -> R i x j y.
Proof using Hrun.
  intros Hsym HR (st & b & n & Hin & En & Es) (st' & b' & n' & Hin' & En' & Es').
  pose proof (sn_reach _ _ _ Hrun) as Hre. rewrite Forall_forall in Hre.
  destruct (run_order _ _ st st' (sn_order _ _ _ Hrun) Hin Hin') as [Hs|Hs].
  - eapply (HR i j st st'); eauto.
  - apply Hsym. eapply (HR j i st' st); eauto.
Qed.

Lemma published_leaders i j x y : published_in run i x -> published_in run j y ->
  role x = Leader -> role y = Leader -> term x = term y -> i = j.
Proof using Hj Hrun.
  apply (published_pair (fun i x j y => role x = Leader -> role y = Leader -> term x = term y -> i = j)).
  - intros ? ? ? ? H L1 L2 E. symmetry. by apply H.
  - clear x y. unfold role, term. intros a b st st' x y ? ? n n' Hr Hs En -> En' ->. simpl. rewrite En, En'.
    apply (one_leader C opts); [done|by eapply safe_reachable_cluster|by apply safe_leads_to].
Qed.

Lemma published_committed i j x y k t t' : published_in run i x -> published_in run j y ->
  k <= commit_index x -> (k, t) ∈ log_terms x -> k <= commit_index y -> (k, t') ∈ log_terms y -> t = t'.
Proof using Hj Hn Hrun.
  intros Hx Hy. revert t t'.
  apply (published_pair (fun i x j y => forall t t', k <= commit_index x -> (k, t) ∈ log_terms x -> k <= commit_index y ->
    (k, t') ∈ log_terms y -> t = t') i j x y); [| |done..].
  - intros ? ? ? ? H t t' ? ? ? ?. symmetry. by apply H.
  - clear x y Hx Hy. unfold commit_index, log_terms. intros a b st st' x y ? ? n n' Hr Hs En -> En' -> t t' Hk Ht Hk' Ht'.
    destruct (safe_later _ _ _ _ Hr Hs) as [Hr' _].
    apply published_terms in Ht as (e & He & <-), Ht' as (e' & He' & <-); [|rewrite ?En, ?En'; by eapply safe_wf..].
    rewrite En in He. rewrite En' in He'. simpl in Hk, Hk'. rewrite En in Hk. rewrite En' in Hk'. f_equal.
    by apply (committed_same C opts st st' a b k).
Qed.

Lemma published_matching i j x y : published_in run i x -> published_in run j y -> ~ mismatched x y.
Proof using Hj Hn Hrun.
  apply (published_pair (fun i x j y => ~ mismatched x y)).
  - intros ? u ? v H (m & t & k & ta & tb & H1 & H2 & H3 & H4 & H5 & H6). apply H. exists m, t, k, tb, ta. naive_solver.
  - clear x y. unfold mismatched, log_terms. intros a b st st' x y ? ? n n' Hr Hs En -> En' -> (m & t & k & ta & tb & H1 & H2 & H3 & H4 & H5 & H6).
    destruct (safe_later _ _ _ _ Hr Hs) as [Hr' _].
    apply published_terms in H1, H2, H4 as (e & He & <-), H5 as (e' & He' & <-); [|rewrite ?En, ?En'; by eapply safe_wf..].
    rewrite En in H1, He. rewrite En' in H2, He'. apply H6. f_equal. by apply (logs_agree C opts st st' a b m t k).
Qed.
End SafeRun.

(** C12: The consensus oracles never fire on the modelled consensus. In a cluster with a
    fixed, non-joint membership of more than one voter, along a run with messages
    lost, delayed and repeated and with crashes that keep the discipline of
    [safe_step], let the views hold what the nodes' drivers published, each at any
    moment of the run, late or in different views. Then no two leaders of a term,
    no mismatched logs and no two committed entries of one index are reported. *)
Theorem consensus_oracles_stay_silent C opts run views P :
  Config_is_joint C = false -> (1 < size (voters C))%nat -> safe_run C opts run -> views_wf views ->
  (forall view id s, view ∈ views -> view !! id = Some s -> published_in run id s) ->
  P ∈ [ELECTION_SAFETY; LOG_MATCHING; LEADER_COMPLETENESS] -> ~ reported P (observe_all views).
Proof.
  intros Hj Hn Hrun Hw Hseen HP Hrep. apply every_property_exact in Hrep; [|done].
  assert (Hob : forall id s, (id, s) ∈ observations views -> published_in run id s).
  { intros id s (view & Hv & Hs)%elem_of_observations. eauto. }
  repeat (apply elem_of_cons in HP as [->|HP]); [..|by apply elem_of_nil in HP].
  - destruct Hrep as (i & j & t & Hij & (s & Hs & Ls & Ts) & (s' & Hs' & Ls' & Ts')). apply Hij.
    eapply (published_leaders C opts Hj run Hrun); eauto; congruence.
  - destruct Hrep as (view & Hv & i & j & a & b & _ & Ha & Hb & Hm).
    eapply (published_matching C opts Hj Hn run Hrun i j); eauto.
  - destruct Hrep as (k & t & t' & Hne & (i & s & Hs & Hk & Ht) & (j & s' & Hs' & Hk' & Ht')). apply Hne.
    eapply (published_committed C opts Hj Hn run Hrun i j); eauto.
Qed.

(** What the drivers of nodes 1 and 2 show of the run of [StateSafety.s3]: node 1
    when it had committed its entry, and node 2 as the next leader. *)
Definition shown (i : NodeId) (st : Safe) : PublicState :=
  mkPublicState (publish true (with_raft (fun _ => nodes (sc st) i) (follower_node []))) 0 true true None.

Lemma shown_in run i st : st ∈ run -> published_in run i (shown i st).
Proof. intros H. by exists st, true, (with_raft (fun _ => nodes (sc st) i) (follower_node [])). Qed.

Lemma consensus_oracles_stay_silent_witness :
  commit_index (shown 1 s1) = 1 /\ log_terms (shown 1 s1) = [(1, 1)] /\
  commit_index (shown 2 s3) = 2 /\ log_terms (shown 2 s3) = [(1, 1); (2, 2)] /\
  ~ reported LEADER_COMPLETENESS (observe_all [ {[1 := shown 1 s1]}; {[2 := shown 2 s3]} ]).
Proof.
  split; [vm_compute; reflexivity|]. split; [vm_compute; reflexivity|]. split; [vm_compute; reflexivity|].
  split; [vm_compute; reflexivity|].
  apply (consensus_oracles_stay_silent c3 one_tick [s1; s3]); [by_decide|by_decide| | | |by_decide].
  - split.
    + apply Forall_cons; split; [exact s1_reachable|]. apply Forall_cons; split; [|by apply Forall_nil].
      exact (proj1 (safe_later _ _ _ _ s1_reachable s1_to_s3)).
    + apply SSorted_cons; [apply SSorted_cons; [apply SSorted_nil|by apply Forall_nil]|].
      apply Forall_cons; split; [exact s1_to_s3|by apply Forall_nil].
  - assert (Hsorted : forall s, log_terms s = [(1, 1)] \/ log_terms s = [(1, 1); (2, 2)] -> ascending_keys (log_terms s)).
    { intros s [->| ->]; repeat constructor. }
    apply Forall_cons; split; [|apply Forall_cons; split; [|by apply Forall_nil]]; apply map_Forall_singleton.
    + split; [by_decide..|apply Hsorted; left; vm_compute; reflexivity|constructor].
    + split; [by_decide..|apply Hsorted; right; vm_compute; reflexivity|constructor].
  - intros view id s Hv Hs. repeat (apply elem_of_cons in Hv as [->|Hv]; [apply lookup_singleton_Some in Hs as [<- <-]|]).
    + apply shown_in. left.
    + apply shown_in. right. left.
    + by apply elem_of_nil in Hv.
Defined.
