(* ===== verification/Liveness.v ===== *)
(** * The liveness watchdog: [crates/chrono-oracle/src/liveness.rs]

    [Watchdog] is fed one observation of the cluster at a time and records a
    [Stall] when the cluster has been healthy for long without a leader, without
    committing offered work, or with a follower that does not move. [observe] is
    the method of that name, its three parts as functions of their own. *)

From Stdlib Require Import ZArith Lia.
From stdpp Require Import base tactics list list_numbers gmap sets sorting strings.
From S2P Require Import Prelude Codec Types RaftLog RaftState Driver Time Invariants InvSpec.

Open Scope Z_scope.

Inductive Stall : Type :=
| NoLeader (healthy_for : Nanos) (alive quorum : Z)
| NoCommitProgress (leader : NodeId) (stuck_at : Index) (healthy_for : Nanos)
| NoConvergence (leader laggard : NodeId) (gap : Z) (healthy_for : Nanos).

(** [std::mem::discriminant]. *)
Inductive StallKind : Type := K_no_leader | K_no_commit | K_no_convergence.

#[export] Instance StallKind_eq_dec : EqDecision StallKind.
Proof. solve_decision. Defined.

Definition kind_of (s : Stall) : StallKind :=
  match s with
  | NoLeader _ _ _ => K_no_leader
  | NoCommitProgress _ _ _ => K_no_commit
  | NoConvergence _ _ _ _ => K_no_convergence
  end.

Record Budget : Type := mkBudget {
  elect_within : Nanos;
  commit_within : Nanos;
  converge_within : Nanos
}.

Definition Budget_default : Budget :=
  mkBudget (Nanos_from_secs 30) (Nanos_from_secs 30) (Nanos_from_secs 60).

Record Watchdog : Type := mkWatchdog {
  budget : Budget;
  healthy_since : option Nanos;
  best_commit : Index;
  commit_moved_at : Nanos;
  saw_leader_at : Nanos;
  node_progress : gmap NodeId (Index * Nanos);
  stalls : list Stall
}.

Definition Watchdog_new (b : Budget) : Watchdog := mkWatchdog b None 0 0 0 ∅ [].

Definition set_healthy_since v w :=
  mkWatchdog (budget w) v (best_commit w) (commit_moved_at w) (saw_leader_at w) (node_progress w) (stalls w).
Definition set_commit_seen best at_ w :=
  mkWatchdog (budget w) (healthy_since w) best at_ (saw_leader_at w) (node_progress w) (stalls w).
Definition set_saw_leader_at v w :=
  mkWatchdog (budget w) (healthy_since w) (best_commit w) (commit_moved_at w) v (node_progress w) (stalls w).
Definition set_node_progress v w :=
  mkWatchdog (budget w) (healthy_since w) (best_commit w) (commit_moved_at w) (saw_leader_at w) v (stalls w).
Definition set_stalls v w :=
  mkWatchdog (budget w) (healthy_since w) (best_commit w) (commit_moved_at w) (saw_leader_at w) (node_progress w) v.

Definition Watchdog_ok (w : Watchdog) : bool := (length (stalls w) =? 0)%nat.

(** [record]: one stall of each kind. *)
Definition record (s : Stall) (w : Watchdog) : Watchdog :=
  if existsb (fun t => bool_decide (kind_of t = kind_of s)) (stalls w) then w
  else set_stalls (stalls w ++ [s]) w.

(** ** What an observation shows *)

(** Running members, in key order. *)
Definition live_nodes (view : ClusterView) : list (NodeId * PublicState) :=
  let members := ClusterView_members view in
  filter (fun p => up p.2 = true /\ (members = ∅ \/ p.1 ∈ members)) (nodes_of view).

Definition live_leaders (live : list (NodeId * PublicState)) : list NodeId :=
  map fst (filter (fun p => is_leader p.2 = true) live).

Definition best_of (live : list (NodeId * PublicState)) : Index :=
  foldr Z.max 0 (map (fun p => commit_index p.2) live).

Definition quorum_size (view : ClusterView) (voters : Z) : Z :=
  let members := ClusterView_members view in
  let voter_count := if bool_decide (members = ∅) then voters else Z.of_nat (size members) in
  voter_count / 2 + 1.

(** ** The three checks *)

(** [if !healthy]: every clock restarts. *)
Definition disrupted (now : Nanos) (w : Watchdog) : Watchdog :=
  mkWatchdog (budget w) None (best_commit w) now now ((fun e => (e.1, now)) <$> node_progress w) (stalls w).

Definition watch_leader (now : Nanos) (live : list (NodeId * PublicState)) (quorum healthy_for : Z) (w : Watchdog) : Watchdog :=
  match live_leaders live with
  | [] =>
      if elect_within (budget w) <? Nanos_sub now (saw_leader_at w)
      then record (NoLeader healthy_for (Z.of_nat (length live)) quorum) w
      else w
  | _ => set_saw_leader_at now w
  end.

Definition watch_commit (now : Nanos) (live : list (NodeId * PublicState)) (work_pending : bool) (healthy_for : Nanos)
    (w : Watchdog) : Watchdog :=
  let best := best_of live in
  if negb (best =? best_commit w) then set_commit_seen best now w
  else
    match live_leaders live with
    | leader :: _ =>
        if work_pending && (commit_within (budget w) <? Nanos_sub now (commit_moved_at w))
        then record (NoCommitProgress leader best healthy_for) w
        else w
    | [] => w
    end.

(** [progress.entry(id).or_insert((last, now))], moved when [last] is larger. *)
Definition note_progress (now : Nanos) (m : gmap NodeId (Index * Nanos)) (p : NodeId * PublicState) : gmap NodeId (Index * Nanos) :=
  let '(id, s) := p in
  let entry := default (last_index s, now) (m !! id) in
  <[id := if entry.1 <? last_index s then (last_index s, now) else entry]> m.

(** One follower against the leader. *)
Definition watch_follower (now : Nanos) (leader : NodeId) (leader_last : Index) (healthy_for : Nanos)
    (w : Watchdog) (p : NodeId * PublicState) : Watchdog :=
  let '(id, s) := p in
  if id =? leader then w
  else
    let gap := ssub leader_last (last_index s) in
    if gap =? 0 then w
    else
      let frozen_since := match node_progress w !! id with Some e => e.2 | None => now end in
      if converge_within (budget w) <? Nanos_sub now frozen_since
      then record (NoConvergence leader id gap healthy_for) w
      else w.

Definition watch_replicas (now : Nanos) (live : list (NodeId * PublicState)) (healthy_for : Nanos) (w : Watchdog) : Watchdog :=
  let w := set_node_progress (fold_left (note_progress now) live (node_progress w)) w in
  match live_leaders live with
  | leader :: _ =>
      let leader_last :=
        match List.find (fun p => p.1 =? leader) live with Some p => last_index p.2 | None => 0 end in
      fold_left (watch_follower now leader leader_last healthy_for) live w
  | [] => w
  end.

(** One observation. *)
Record Observation : Type := mkObservation {
  o_now : Nanos;
  o_view : ClusterView;
  o_healthy : bool;
  o_pending : bool;
  o_voters : Z
}.

Definition observe (w : Watchdog) (o : Observation) : Watchdog :=
  let now := o_now o in
  if negb (o_healthy o) then disrupted now w
  else
    let since := default now (healthy_since w) in
    let healthy_for := Nanos_sub now since in
    let live := live_nodes (o_view o) in
    set_healthy_since (Some since) w
    |> watch_leader now live (quorum_size (o_view o) (o_voters o)) healthy_for
    |> watch_commit now live (o_pending o) healthy_for
    |> watch_replicas now live healthy_for.

Definition watch (b : Budget) (os : list Observation) : Watchdog := fold_left observe os (Watchdog_new b).

(** * Theorems *)

(** ** Which stalls are recorded *)

Definition recorded (k : StallKind) (w : Watchdog) : Prop := k ∈ map kind_of (stalls w).

#[export] Instance recorded_dec k w : Decision (recorded k w).
Proof. unfold recorded. apply _. Defined.

Lemma recorded_record k s w : recorded k (record s w) <-> kind_of s = k \/ recorded k w.
Proof.
  unfold record. destruct (existsb _ (stalls w)) eqn:E.
  - apply existsb_exists in E as (t & Ht & Hk%bool_decide_eq_true). split; [by right|]. intros [<-|]; [|done].
    unfold recorded. rewrite <- Hk. apply list_elem_of_fmap. exists t. split; [done|]. by apply list_elem_of_In.
  - unfold recorded. simpl. rewrite map_app, elem_of_app. simpl. rewrite list_elem_of_singleton. naive_solver.
Qed.

(** The parts leave each other's clocks and stalls alone. *)
Record keeps_leader (w w' : Watchdog) : Prop := {
  kl_budget : budget w' = budget w;
  kl_saw : saw_leader_at w' = saw_leader_at w;
  kl_stall : recorded K_no_leader w' <-> recorded K_no_leader w
}.
Record keeps_commit (w w' : Watchdog) : Prop := {
  kc_budget : budget w' = budget w;
  kc_best : best_commit w' = best_commit w;
  kc_moved : commit_moved_at w' = commit_moved_at w;
  kc_stall : recorded K_no_commit w' <-> recorded K_no_commit w
}.
Record keeps_progress (w w' : Watchdog) : Prop := {
  kp_budget : budget w' = budget w;
  kp_progress : node_progress w' = node_progress w;
  kp_stall : recorded K_no_convergence w' <-> recorded K_no_convergence w
}.

Lemma record_fields s w :
  budget (record s w) = budget w /\ saw_leader_at (record s w) = saw_leader_at w /\
  best_commit (record s w) = best_commit w /\ commit_moved_at (record s w) = commit_moved_at w /\
  node_progress (record s w) = node_progress w.
Proof. unfold record. by destruct (existsb _ _). Qed.

Ltac recorded_elsewhere :=
  split; try apply record_fields; try (rewrite recorded_record; simpl; split; [by intros [?|?]|by right]).

Lemma watch_leader_keeps now live q h w :
  keeps_commit w (watch_leader now live q h w) /\ keeps_progress w (watch_leader now live q h w).
Proof.
  unfold watch_leader. destruct (live_leaders live); [|by split].
  destruct (_ <? _); [|by split]. split; recorded_elsewhere.
Qed.

Lemma watch_commit_keeps now live p h w :
  keeps_leader w (watch_commit now live p h w) /\ keeps_progress w (watch_commit now live p h w).
Proof.
  unfold watch_commit. cbv zeta. destruct (negb _); [by split|].
  destruct (live_leaders live); [by split|]. destruct (_ && _); [|by split]. split; recorded_elsewhere.
Qed.

Lemma watch_followers_keep now l last h live w :
  let w' := fold_left (watch_follower now l last h) live w in
  keeps_leader w w' /\ keeps_commit w w' /\ node_progress w' = node_progress w.
Proof.
  cbv zeta. revert w. induction live as [|[id s] live IH]; intros w; [by split_and!|]. cbn [fold_left].
  destruct (IH (watch_follower now l last h w (id, s))) as ([a1 a2 a3] & [b1 b2 b3 b4] & c).
  set (w1 := watch_follower now l last h w (id, s)) in *.
  assert (H : keeps_leader w w1 /\ keeps_commit w w1 /\ node_progress w1 = node_progress w).
  { unfold w1, watch_follower. destruct (id =? l); [by split_and!|]. cbv zeta. destruct (_ =? 0); [by split_and!|].
    destruct (_ <? _); [|by split_and!]. split_and!; [recorded_elsewhere|recorded_elsewhere|apply record_fields]. }
  destruct H as ([a1' a2' a3'] & [b1' b2' b3' b4'] & c'). split_and!; [split|split|]; try congruence; naive_solver.
Qed.

Lemma watch_replicas_keeps now live h w :
  keeps_leader w (watch_replicas now live h w) /\ keeps_commit w (watch_replicas now live h w).
Proof.
  unfold watch_replicas. cbv zeta. set (w1 := set_node_progress _ w). destruct (live_leaders live) as [|l ls]; [by split|].
  destruct (watch_followers_keep now l match List.find (fun p => p.1 =? l) live with
    Some p => last_index p.2 | None => 0 end h live w1) as ([a1 a2 a3] & [b1 b2 b3 b4] & _).
  split; split; done.
Qed.

(** ** Time without a leader *)

Definition o_live (o : Observation) := live_nodes (o_view o).

Definition leaderless (o : Observation) : Prop := o_healthy o = true /\ live_leaders (o_live o) = [].

#[export] Instance leaderless_dec o : Decision (leaderless o).
Proof. unfold leaderless. destruct (o_healthy o), (live_leaders (o_live o)); (by left) || (by right; intros []). Defined.

(** Observations in the order of time. *)
Definition in_time (os : list Observation) : Prop :=
  StronglySorted (fun o o' => o_now o <= o_now o') os /\ Forall (fun o => 0 <= o_now o) os.

(** When the environment was last unhealthy or a leader was last seen. *)
Definition last_led (os : list Observation) : Nanos :=
  fold_left (fun t o => if decide (leaderless o) then t else o_now o) os 0.

Lemma last_led_snoc os o : last_led (os ++ [o]) = if decide (leaderless o) then last_led os else o_now o.
Proof. unfold last_led. by rewrite fold_left_app. Qed.

Lemma observe_leader w o :
  saw_leader_at (observe w o) = (if decide (leaderless o) then saw_leader_at w else o_now o) /\
  (recorded K_no_leader (observe w o) <->
    (leaderless o /\ elect_within (budget w) < Nanos_sub (o_now o) (saw_leader_at w)) \/ recorded K_no_leader w) /\
  budget (observe w o) = budget w.
Proof.
  unfold observe. destruct (decide (leaderless o)) as [[Eh El]|Hn].
  2: destruct (o_healthy o) eqn:Eh; simpl; [|split_and!; [done|unfold recorded; simpl; naive_solver|done]].
  1: rewrite Eh; simpl.
  all: set (now := o_now o); set (w0 := set_healthy_since _ w).
  all: set (h := Nanos_sub now (default now (healthy_since w))); change (live_nodes (o_view o)) with (o_live o).
  all: set (w1 := watch_leader now (o_live o) _ h w0); set (w2 := watch_commit now (o_live o) _ h w1).
  all: destruct (watch_replicas_keeps now (o_live o) h w2) as [[e1 e2 e3] _].
  all: destruct (watch_commit_keeps now (o_live o) (o_pending o) h w1) as [[d1 d2 d3] _]; fold w2 in d1, d2, d3.
  all: rewrite e1, e2, e3, d1, d2, d3; unfold w1, watch_leader; clear e1 e2 e3 d1 d2 d3 w1 w2.
  - rewrite El. change (budget w0) with (budget w). change (saw_leader_at w0) with (saw_leader_at w).
    destruct (Z.ltb_spec (elect_within (budget w)) (Nanos_sub now (saw_leader_at w))) as [Hlt|Hge].
    + split_and!; [by rewrite (proj1 (proj2 (record_fields _ _)))| |by rewrite (proj1 (record_fields _ _))].
      rewrite recorded_record. simpl. split; [|by left]. intros _. by left.
    + split_and!; [done| |done]. change (recorded K_no_leader w0) with (recorded K_no_leader w).
      split; [by right|]. intros [[_ ?]|]; [lia|done].
  - destruct (live_leaders (o_live o)) as [|l ls] eqn:El; [by destruct Hn|]. split_and!; [done| |done].
    change (recorded K_no_leader (set_saw_leader_at now w0)) with (recorded K_no_leader w). naive_solver.
Qed.

Lemma watch_snoc b os o : watch b (os ++ [o]) = observe (watch b os) o.
Proof. unfold watch. by rewrite fold_left_app. Qed.

Lemma watch_leader_summary b os :
  saw_leader_at (watch b os) = last_led os /\ budget (watch b os) = b /\
  (recorded K_no_leader (watch b os) <->
    exists os1 o os2, os = os1 ++ o :: os2 /\ leaderless o /\ elect_within b < Nanos_sub (o_now o) (last_led os1)).
Proof.
  induction os as [|o os (Hs & Hb & Hr)] using rev_ind.
  - split_and!; [done|done|]. split; [by intros ?%elem_of_nil|]. by intros ([] & ? & ? & [=] & _).
  - destruct (observe_leader (watch b os) o) as (Hs' & Hr' & Hb'). rewrite watch_snoc, last_led_snoc.
    split_and!; [by rewrite Hs', Hs|by rewrite Hb', Hb|]. rewrite Hr', Hr, Hb, Hs. split.
    + intros [[Hl Hlt]|(os1 & o1 & os2 & -> & Hl & Hlt)]; [by exists os, o, []|].
      exists os1, o1, (os2 ++ [o]). by rewrite <- app_assoc.
    + intros (os1 & o1 & os2 & E & Hl & Hlt). destruct os2 as [|o2 os2 _] using rev_ind.
      * apply app_inj_tail in E as [-> ->]. by left.
      * rewrite app_comm_cons, app_assoc in E. apply app_inj_tail in E as [-> ->]. right. by exists os1, o1, os2.
Qed.

Lemma in_time_app os os' : in_time (os ++ os') -> in_time os /\ Forall (fun o => 0 <= o_now o) os' /\
  forall o o', o ∈ os -> o' ∈ os' -> o_now o <= o_now o'.
Proof.
  intros [Hs Hf]. apply Forall_app in Hf as [Hf Hf']. split_and!; [|done|].
  - split; [|done]. clear -Hs. induction os as [|o os IH]; [constructor|]. simpl in Hs.
    apply StronglySorted_inv in Hs as [Hs H]. apply Forall_app in H as [H _]. constructor; auto.
  - intros o o' Ho Ho'. clear -Hs Ho Ho'. induction os as [|x os IH]; [by apply elem_of_nil in Ho|]. simpl in Hs.
    apply StronglySorted_inv in Hs as [Hs H]. apply elem_of_cons in Ho as [->|Ho]; [|auto].
    rewrite Forall_forall in H. apply H, elem_of_app. by right.
Qed.

Lemma last_led_spec os : in_time os ->
  0 <= last_led os /\ (forall o, o ∈ os -> ~ leaderless o -> o_now o <= last_led os) /\
  (last_led os = 0 \/ exists o, o ∈ os /\ ~ leaderless o /\ o_now o = last_led os).
Proof.
  induction os as [|o os IH] using rev_ind; intros Ht.
  - split_and!; [done|by intros o ?%elem_of_nil|by left].
  - apply in_time_app in Ht as (Ht & H0' & Hle). apply Forall_cons in H0' as [H0' _]. destruct (IH Ht) as (H0 & Hall & Hex).
    rewrite last_led_snoc. setoid_rewrite elem_of_app. setoid_rewrite list_elem_of_singleton.
    case_decide as Hl; [split_and!; [done|naive_solver|naive_solver]|].
    split_and!; [done| |right; by eauto]. intros o' [Ho'| ->] _; [by apply Hle; [|left]|done].
Qed.

(** The condition the code tests, and what it means. *)
Lemma led_within os o E : 0 <= E -> in_time (os ++ [o]) ->
  E < Nanos_sub (o_now o) (last_led os) <->
  E < o_now o /\ forall o', o' ∈ os -> o_now o - o_now o' <= E -> leaderless o'.
Proof.
  intros HE (Ht & H0 & Hle)%in_time_app. apply Forall_cons in H0 as [H0 _]. destruct (last_led_spec os Ht) as (H1 & Hall & Hex).
  unfold Nanos_sub, ssub. split.
  - intros Hlt. split; [lia|]. intros o' Ho' Hw. destruct (decide (leaderless o')) as [|Hn]; [done|].
    specialize (Hall o' Ho' Hn). lia.
  - intros [Hlt Hin]. destruct Hex as [->|(o' & Ho' & Hn & <-)]; [lia|].
    destruct (Z.le_gt_cases (o_now o - o_now o') E) as [Hw|Hw]; [|lia]. by destruct Hn; apply Hin.
Qed.

(** The budget's span before [o] was leaderless, wherever it was observed, and [o] came
    more than [span] after the first observation. *)
Definition leaderless_stretch (b : Budget) (first : Observation) (os : list Observation) (span : Z) : Prop :=
  exists os1 o os2, os = os1 ++ o :: os2 /\ leaderless o /\
    (forall o', o' ∈ os1 -> o_now o - o_now o' <= elect_within b -> leaderless o') /\
    span < o_now o - o_now first.

(** C17: The watchdog reports a cluster that stays leaderless in health. Let observations be
    made in the order of time. If one of them, more than the budget after the first,
    finds the environment healthy and no live member leading, and so does every
    observation of the budget's span before it, then a stall for want of a leader is
    recorded. Conversely, when one is recorded there was such a span, with one reserve: a
    watchdog that begins with a leaderless observation takes the time before it
    for leaderless too, and so may report early by as much. When the first observation is at
    time zero, or finds a leader or a disturbed environment, there is no reserve:
    the stall is recorded exactly when there was such a span. *)
Theorem leaderless_time_is_reported (b : Budget) (first : Observation) (rest : list Observation) :
  let os := first :: rest in
  0 <= elect_within b -> in_time os ->
  (leaderless_stretch b first os (elect_within b) -> recorded K_no_leader (watch b os)) /\
  (recorded K_no_leader (watch b os) -> leaderless_stretch b first os (elect_within b - o_now first)) /\
  (o_now first = 0 \/ ~ leaderless first ->
    recorded K_no_leader (watch b os) -> leaderless_stretch b first os (elect_within b)).
Proof.
  cbv zeta. intros Hb Ht. destruct (watch_leader_summary b (first :: rest)) as (_ & _ & Hr). rewrite Hr.
  assert (Hpre : forall os1 o os2, first :: rest = os1 ++ o :: os2 -> in_time (os1 ++ [o])).
  { intros os1 o os2 E. rewrite E, (cons_middle o os1 os2), app_assoc in Ht. by apply in_time_app in Ht as [? _]. }
  assert (H0 : 0 <= o_now first) by (apply (Forall_inv (proj2 Ht))).
  assert (Hfound : (exists os1 o os2, first :: rest = os1 ++ o :: os2 /\ leaderless o /\
      elect_within b < Nanos_sub (o_now o) (last_led os1)) ->
    exists os1 o os2, first :: rest = os1 ++ o :: os2 /\ elect_within b < o_now o /\ leaderless o /\
      forall o', o' ∈ os1 -> o_now o - o_now o' <= elect_within b -> leaderless o').
  { intros (os1 & o & os2 & E & Hl & Hlt). apply led_within in Hlt as [H1 H2]; [|done|by eapply Hpre]. by exists os1, o, os2. }
  split_and!.
  - intros (os1 & o & os2 & E & Hl & H2 & H1). exists os1, o, os2. split_and!; [done|done|].
    apply led_within; [done|by eapply Hpre|]. split; [lia|done].
  - intros (os1 & o & os2 & E & H1 & Hl & H2)%Hfound. exists os1, o, os2. split_and!; [done..|lia].
  - intros Hf (os1 & o & os2 & E & H1 & Hl & H2)%Hfound. exists os1, o, os2. split_and!; [done..|].
    destruct Hf as [->|Hf]; [lia|]. destruct os1 as [|o1 os1]; injection E as -> E; [done|].
    destruct (Z.le_gt_cases (o_now o - o_now o1) (elect_within b)); [|lia].
    destruct Hf. apply H2; [left|done].
Qed.

(** ** Commits that do not move *)

(** [watch_commit] is the only part that touches the commit clock. *)
Lemma observe_commit w o : o_healthy o = true ->
  let best := best_of (o_live o) in
  let w' := observe w o in
  best_commit w' = best /\
  commit_moved_at w' = (if best =? best_commit w then commit_moved_at w else o_now o) /\
  (recorded K_no_commit w' <->
    (best = best_commit w /\ o_pending o = true /\ live_leaders (o_live o) <> [] /\
      commit_within (budget w) < Nanos_sub (o_now o) (commit_moved_at w)) \/ recorded K_no_commit w).
Proof.
  intros Eh. cbv zeta. unfold observe. rewrite Eh. cbn [negb]. cbv zeta.
  set (now := o_now o). set (w0 := set_healthy_since _ w).
  set (h := Nanos_sub now (default now (healthy_since w))). change (live_nodes (o_view o)) with (o_live o).
  set (w1 := watch_leader now (o_live o) _ h w0). set (w2 := watch_commit now (o_live o) _ h w1).
  destruct (watch_replicas_keeps now (o_live o) h w2) as [_ [e1 e2 e3 e4]].
  destruct (watch_leader_keeps now (o_live o) (quorum_size (o_view o) (o_voters o)) h w0) as [[d1 d2 d3 d4] _].
  fold w1 in d1, d2, d3, d4. rewrite e2, e3, e4. unfold w2, watch_commit. cbv zeta. rewrite d2.
  change (best_commit w0) with (best_commit w). clear e1 e2 e3 e4 w2.
  change (budget w0) with (budget w) in d1. change (best_commit w0) with (best_commit w) in d2.
  change (commit_moved_at w0) with (commit_moved_at w) in d3.
  change (recorded K_no_commit w0) with (recorded K_no_commit w) in d4. clearbody w1. clear w0.
  destruct (Z.eqb_spec (best_of (o_live o)) (best_commit w)) as [E|E]; cbn [negb].
  2: { simpl. split_and!; [done|done|]. change (recorded K_no_commit (set_commit_seen _ _ w1)) with (recorded K_no_commit w1).
    rewrite d4. naive_solver. }
  destruct (live_leaders (o_live o)) as [|l ls].
  { rewrite d2, d3, d4. split_and!; [done|done|]. naive_solver. }
  rewrite d1, d3. destruct (o_pending o); simpl.
  2: { rewrite d2, d3, d4. split_and!; [done|done|]. naive_solver. }
  destruct (Z.ltb_spec (commit_within (budget w)) (Nanos_sub now (commit_moved_at w))) as [H|H].
  - destruct (record_fields (NoCommitProgress l (best_of (o_live o)) h) w1) as (_ & _ & -> & -> & _).
    rewrite d2, d3, recorded_record, d4. split_and!; [done|done|]. simpl. naive_solver.
  - rewrite d2, d3, d4. split_and!; [done|done|]. split; [by right|]. intros [(_ & _ & _ & ?)|]; [lia|done].
Qed.

(** ** Followers that do not move *)

Lemma note_progress_lookup now m id s k :
  note_progress now m (id, s) !! k =
    if decide (k = id) then
      Some (let e := default (last_index s, now) (m !! id) in if e.1 <? last_index s then (last_index s, now) else e)
    else m !! k.
Proof.
  unfold note_progress. case_decide as E; [subst; apply lookup_insert_eq|by apply lookup_insert_ne].
Qed.

(** What the entry of a node says: the index was reached by a running member, and
    since the entry's time nothing was disrupted and the index was not passed. *)
Definition entry_ok (os : list Observation) (id : NodeId) (e : Index * Nanos) : Prop :=
  (exists o s, o ∈ os /\ o_healthy o = true /\ (id, s) ∈ o_live o /\ last_index s = e.1 /\ o_now o <= e.2) /\
  (forall o, o ∈ os -> e.2 < o_now o -> o_healthy o = true) /\
  (forall o s, o ∈ os -> o_healthy o = true -> (id, s) ∈ o_live o -> last_index s <= e.1).

Record progress_inv (os : list Observation) (m : gmap NodeId (Index * Nanos)) : Prop := {
  pi_entry : forall id e, m !! id = Some e -> entry_ok os id e;
  pi_known : forall o id s, o ∈ os -> o_healthy o = true -> (id, s) ∈ o_live o -> is_Some (m !! id)
}.

Lemma live_NoDup o : NoDup (map fst (o_live o)).
Proof.
  unfold o_live, live_nodes. eapply sublist_NoDup; [apply nodes_of_NoDup|].
  apply (fmap_sublist fst), sublist_filter.
Qed.

Lemma fold_progress_lookup now live m id : NoDup (map fst live) ->
  fold_left (note_progress now) live m !! id =
    match List.find (fun p => p.1 =? id) live with
    | Some (_, s) => note_progress now m (id, s) !! id
    | None => m !! id
    end.
Proof.
  revert m. induction live as [|[k s] live IH]; intros m Hnd; [done|]. apply NoDup_cons in Hnd as [Hk Hnd].
  cbn [fold_left List.find fst]. rewrite (IH _ Hnd). destruct (Z.eqb_spec k id) as [->|Hne].
  - destruct (List.find (fun p => p.1 =? id) live) as [[k' s']|] eqn:E; [|done]. exfalso. apply Hk.
    apply find_some in E as [E1%list_elem_of_In E2%Z.eqb_eq]. simpl in E2. subst k'.
    apply list_elem_of_fmap. by exists (id, s').
  - assert (E : note_progress now m (k, s) !! id = m !! id).
    { rewrite note_progress_lookup. by rewrite decide_False by done. }
    destruct (List.find _ live) as [[k' s']|]; [|exact E].
    by rewrite !(note_progress_lookup _ _ id), !decide_True, E by done.
Qed.

Lemma find_live o id :
  match List.find (fun p => p.1 =? id) (o_live o) with
  | Some (k, s) => k = id /\ forall s', (id, s') ∈ o_live o <-> s' = s
  | None => forall s, (id, s) ∉ o_live o
  end.
Proof.
  destruct (List.find _ _) as [[k s]|] eqn:E.
  - apply find_some in E as [E1%list_elem_of_In E2%Z.eqb_eq]. simpl in E2. subst k. split; [done|].
    intros s'. split; [|by intros ->]. intros Hs'. unfold o_live, live_nodes in *.
    apply list_elem_of_filter in E1 as [_ E1], Hs' as [_ Hs']. apply elem_of_nodes_of in E1, Hs'. congruence.
  - intros s Hs. apply list_elem_of_In in Hs. apply (List.find_none _ _ E) in Hs. simpl in Hs. lia.
Qed.

Lemma entry_ok_snoc os o id e : entry_ok os id e ->
  (e.2 < o_now o -> o_healthy o = true) ->
  (forall s, o_healthy o = true -> (id, s) ∈ o_live o -> last_index s <= e.1) -> entry_ok (os ++ [o]) id e.
Proof.
  intros ((o1 & s1 & H1 & H2) & Hh & Hl) Ho Hs. split_and!.
  - exists o1, s1. split; [apply elem_of_app; by left|done].
  - intros o' [Hin|Hin]%elem_of_app; [by apply Hh|]. by apply list_elem_of_singleton in Hin as ->.
  - intros o' s [Hin|Hin]%elem_of_app; [by apply Hl|]. apply list_elem_of_singleton in Hin as ->. auto.
Qed.

Lemma progress_healthy os o m : progress_inv os m -> o_healthy o = true ->
  (forall o', o' ∈ os -> o_now o' <= o_now o) ->
  progress_inv (os ++ [o]) (fold_left (note_progress (o_now o)) (o_live o) m).
Proof.
  intros [He Hk] Hh Ht. split.
  - intros id e. rewrite fold_progress_lookup by apply live_NoDup. pose proof (find_live o id) as Hf.
    destruct (List.find _ _) as [[k s]|].
    2: { intros Hm. apply entry_ok_snoc; [by apply He|done|]. intros s _ Hs. by apply Hf in Hs. }
    destruct Hf as [-> Hf]. rewrite note_progress_lookup, decide_True by done. cbv zeta. intros [= <-].
    assert (Hnew : (forall o' s', o' ∈ os -> o_healthy o' = true -> (id, s') ∈ o_live o' -> last_index s' <= last_index s) ->
      entry_ok (os ++ [o]) id (last_index s, o_now o)).
    { intros Hall. split_and!; simpl.
      - exists o, s. split_and!; [apply elem_of_app; right; by left|done|by apply Hf|done|done].
      - intros o' [Hin|Hin]%elem_of_app Hlt; [apply Ht in Hin; lia|]. by apply list_elem_of_singleton in Hin as ->.
      - intros o' s' [Hin|Hin]%elem_of_app; [by apply Hall|]. apply list_elem_of_singleton in Hin as ->.
        intros _ ->%Hf. done. }
    destruct (m !! id) as [e|] eqn:Em; simpl.
    + pose proof (He id e Em) as Hok. destruct (Z.ltb_spec e.1 (last_index s)) as [Hlt|Hge].
      * apply Hnew. intros o' s' Ho' Hh' Hs'. destruct Hok as (_ & _ & Hl). specialize (Hl o' s' Ho' Hh' Hs'). lia.
      * apply entry_ok_snoc; [done|done|]. intros s' _ ->%Hf. done.
    + rewrite Z.ltb_irrefl. apply Hnew. intros o' s' Ho' Hh' Hs'. destruct (Hk o' id s' Ho' Hh' Hs'). congruence.
  - intros o' id s Hin Hh' Hs. rewrite fold_progress_lookup by apply live_NoDup. pose proof (find_live o id) as Hf.
    destruct (List.find _ _) as [[k s']|]; [rewrite note_progress_lookup, decide_True by done; by eexists|].
    apply elem_of_app in Hin as [Hin|Hin]; [by eapply Hk|]. apply list_elem_of_singleton in Hin as ->. by apply Hf in Hs.
Qed.

Lemma progress_disrupted os o m : progress_inv os m -> o_healthy o = false ->
  (forall o', o' ∈ os -> o_now o' <= o_now o) ->
  progress_inv (os ++ [o]) ((fun e => (e.1, o_now o)) <$> m).
Proof.
  intros [He Hk] Hh Ht. split.
  - intros id e. rewrite lookup_fmap. destruct (m !! id) as [e0|] eqn:Em; simpl; [|done]. intros [= <-].
    destruct (He id e0 Em) as ((o1 & s1 & H1 & H2 & H3 & H4 & H5) & _ & Hl). split_and!; simpl.
    + exists o1, s1. split_and!; [apply elem_of_app; by left|done..|by apply Ht].
    + intros o' [Hin|Hin]%elem_of_app Hlt; [apply Ht in Hin; lia|]. apply list_elem_of_singleton in Hin as ->. lia.
    + intros o' s [Hin|Hin]%elem_of_app; [by apply Hl|]. apply list_elem_of_singleton in Hin as ->. congruence.
  - intros o' id s [Hin|Hin]%elem_of_app Hh' Hs.
    + rewrite lookup_fmap. destruct (Hk o' id s Hin Hh' Hs) as [e ->]. by eexists.
    + apply list_elem_of_singleton in Hin as ->. congruence.
Qed.

Lemma followers_recorded now l last h live w :
  recorded K_no_convergence (fold_left (watch_follower now l last h) live w) <->
  (exists id s, (id, s) ∈ live /\ id <> l /\ ssub last (last_index s) <> 0 /\
     converge_within (budget w) < Nanos_sub now match node_progress w !! id with Some e => e.2 | None => now end) \/
  recorded K_no_convergence w.
Proof.
  revert w. induction live as [|[id s] live IH]; intros w; cbn [fold_left].
  { split; [by right|]. by intros [(? & ? & ?%elem_of_nil & _)|?]. }
  rewrite IH. setoid_rewrite elem_of_cons.
  assert (Hsame : budget (watch_follower now l last h w (id, s)) = budget w /\
    node_progress (watch_follower now l last h w (id, s)) = node_progress w).
  { unfold watch_follower. cbv zeta. repeat case_match; split; try apply record_fields; done. }
  destruct Hsame as [-> ->].
  assert (Hone : recorded K_no_convergence (watch_follower now l last h w (id, s)) <->
    (id <> l /\ ssub last (last_index s) <> 0 /\
     converge_within (budget w) < Nanos_sub now match node_progress w !! id with Some e => e.2 | None => now end) \/
    recorded K_no_convergence w).
  { unfold watch_follower. cbv zeta. destruct (Z.eqb_spec id l); [naive_solver|].
    destruct (Z.eqb_spec (ssub last (last_index s)) 0); [naive_solver|].
    destruct (Z.ltb_spec (converge_within (budget w)) (Nanos_sub now match node_progress w !! id with Some e => e.2 | None => now end)).
    - rewrite recorded_record. simpl. naive_solver.
    - naive_solver lia. }
  rewrite Hone. naive_solver.
Qed.

Lemma observe_progress w o : o_healthy o = true ->
  let m := fold_left (note_progress (o_now o)) (o_live o) (node_progress w) in
  node_progress (observe w o) = m /\
  (recorded K_no_convergence (observe w o) ->
    (exists leader id s lead, List.find (fun p => p.1 =? leader) (o_live o) = Some lead /\
       head (live_leaders (o_live o)) = Some leader /\ (id, s) ∈ o_live o /\ id <> leader /\
       last_index s < last_index lead.2 /\
       converge_within (budget w) < Nanos_sub (o_now o) match m !! id with Some e => e.2 | None => o_now o end) \/
    recorded K_no_convergence w).
Proof.
  intros Eh. cbv zeta. unfold observe. rewrite Eh. cbn [negb]. cbv zeta.
  set (now := o_now o). set (w0 := set_healthy_since _ w).
  set (h := Nanos_sub now (default now (healthy_since w))). change (live_nodes (o_view o)) with (o_live o).
  set (w1 := watch_leader now (o_live o) _ h w0). set (w2 := watch_commit now (o_live o) _ h w1).
  destruct (watch_leader_keeps now (o_live o) (quorum_size (o_view o) (o_voters o)) h w0) as [_ [d1 d2 d3]].
  destruct (watch_commit_keeps now (o_live o) (o_pending o) h w1) as [_ [e1 e2 e3]].
  fold w1 in d1, d2, d3. fold w2 in e1, e2, e3. unfold watch_replicas. cbv zeta.
  assert (E : budget w2 = budget w /\ node_progress w2 = node_progress w /\
    (recorded K_no_convergence w2 <-> recorded K_no_convergence w)).
  { rewrite e1, e2, e3, d1, d2, d3. done. }
  destruct E as (Eb & -> & Er). clearbody w2. clear d1 d2 d3 e1 e2 e3 w1 w0.
  set (m := fold_left (note_progress now) (o_live o) (node_progress w)).
  destruct (live_leaders (o_live o)) as [|leader ls] eqn:El.
  { split; [done|]. intros Hr. right. by apply Er. }
  assert (Hlead : exists lead, List.find (fun p => p.1 =? leader) (o_live o) = Some lead).
  { destruct (List.find _ (o_live o)) as [lead|] eqn:Ef; [by exists lead|]. exfalso.
    assert (Hin : leader ∈ live_leaders (o_live o)) by (rewrite El; left).
    apply list_elem_of_fmap in Hin as (p & -> & [_ Hp]%list_elem_of_filter).
    apply list_elem_of_In, (List.find_none _ _ Ef) in Hp. lia. }
  destruct Hlead as [lead Ef]. rewrite Ef.
  destruct (watch_followers_keep now leader (last_index lead.2) h (o_live o) (set_node_progress m w2)) as (_ & _ & Ep).
  split; [exact Ep|]. rewrite followers_recorded. simpl. rewrite Eb.
  intros [(id & s & Hin & Hne & Hgap & Hlt)|Hr]; [left|right; by apply Er].
  exists leader, id, s, lead. split_and!; try done. unfold ssub in Hgap. lia.
Qed.

(** ** Sustained stalls *)

(** The commit clock: since it was last set nothing was disrupted and the highest
    commit index of the running members was the same. *)
Definition commit_inv (os : list Observation) (w : Watchdog) : Prop :=
  forall o, o ∈ os -> commit_moved_at w < o_now o -> o_healthy o = true /\ best_of (o_live o) = best_commit w.

Lemma commit_inv_step os o w : commit_inv os w -> (forall o', o' ∈ os -> o_now o' <= o_now o) ->
  commit_inv (os ++ [o]) (observe w o).
Proof.
  intros Hc Ht o' Hin. destruct (o_healthy o) eqn:Eh.
  - destruct (observe_commit w o Eh) as (E1 & E2 & _). rewrite E1, E2.
    apply elem_of_app in Hin as [Hin| ->%list_elem_of_singleton]; [|done].
    destruct (Z.eqb_spec (best_of (o_live o)) (best_commit w)) as [E|_]; [rewrite E; by apply Hc|].
    intros Hlt. apply Ht in Hin. lia.
  - unfold observe. rewrite Eh. simpl. intros Hlt.
    apply elem_of_app in Hin as [Hin| ->%list_elem_of_singleton]; [apply Ht in Hin|]; lia.
Qed.

(** A stall of the commit index, and one of a follower, as the oracle's comments
    describe them. *)
Definition commit_stuck (b : Budget) (os1 : list Observation) (o : Observation) : Prop :=
  o_healthy o = true /\ o_pending o = true /\ live_leaders (o_live o) <> [] /\
  forall o', o' ∈ os1 -> o_now o - o_now o' <= commit_within b ->
    o_healthy o' = true /\ best_of (o_live o') = best_of (o_live o).

Definition follower_stuck (b : Budget) (os1 : list Observation) (o : Observation) : Prop :=
  exists leader id s lead top,
    head (live_leaders (o_live o)) = Some leader /\ (leader, lead) ∈ o_live o /\ (id, s) ∈ o_live o /\ id <> leader /\
    last_index s < last_index lead /\
    (exists o0 s0, o0 ∈ os1 /\ (id, s0) ∈ o_live o0 /\ last_index s0 = top /\ converge_within b < o_now o - o_now o0) /\
    forall o', o' ∈ os1 ++ [o] -> o_now o - o_now o' <= converge_within b ->
      o_healthy o' = true /\ forall s', (id, s') ∈ o_live o' -> last_index s' <= top.

Definition happened (stuck : list Observation -> Observation -> Prop) (os : list Observation) : Prop :=
  exists os1 o os2, os = os1 ++ o :: os2 /\ stuck os1 o.

Lemma happened_snoc stuck os o : happened stuck os \/ stuck os o -> happened stuck (os ++ [o]).
Proof.
  intros [(os1 & o1 & os2 & -> & H)|H]; [|by exists os, o, []].
  exists os1, o1, (os2 ++ [o]). by rewrite <- app_assoc.
Qed.

Record watch_inv (b : Budget) (os : list Observation) (w : Watchdog) : Prop := {
  wi_budget : budget w = b;
  wi_commit : commit_inv os w;
  wi_progress : progress_inv os (node_progress w);
  wi_commit_stall : recorded K_no_commit w -> happened (commit_stuck b) os;
  wi_convergence_stall : recorded K_no_convergence w -> happened (follower_stuck b) os
}.

Lemma watch_inv_step b os o w : 0 <= commit_within b -> 0 <= converge_within b ->
  (forall o', o' ∈ os -> o_now o' <= o_now o) -> watch_inv b os w -> watch_inv b (os ++ [o]) (observe w o).
Proof.
  intros Hcw Hgw Ht [Hb Hc Hp Hsc Hsp]. destruct (observe_leader w o) as (_ & _ & Eb).
  destruct (o_healthy o) eqn:Eh.
  - destruct (observe_progress w o Eh) as [Ep Er]. cbv zeta in Ep, Er.
    pose proof (progress_healthy os o _ Hp Eh Ht) as Hp'. split.
    + congruence.
    + by apply commit_inv_step.
    + by rewrite Ep.
    + destruct (observe_commit w o Eh) as (_ & _ & ->). intros [(E & Hpd & Hl & Hlt)|Hr]; apply happened_snoc; [right|auto].
      split_and!; [done|done|done|]. intros o' Hin Hw. rewrite E. apply Hc; [done|].
      rewrite Hb in Hlt. unfold Nanos_sub, ssub in Hlt. lia.
    + intros Hr. apply Er in Hr as [(leader & id & s & [k lead] & Ef & Hl & Hs & Hne & Hlt & Hw)|Hr];
        apply happened_snoc; [right|auto].
      apply find_some in Ef as [Ef%list_elem_of_In Ek%Z.eqb_eq]. simpl in Ek, Hlt. subst k.
      destruct (pi_known _ _ Hp' o id s) as [e He]; [apply elem_of_app; right; by left|done|done|].
      rewrite He in Hw. rewrite Hb in Hw. destruct (pi_entry _ _ Hp' id e He) as ((o0 & s0 & H0 & _ & Hs0 & Hl0 & Ht0) & Hh & Hle).
      unfold Nanos_sub, ssub in Hw. exists leader, id, s, lead, e.1. split_and!; try done.
      * exists o0, s0. apply elem_of_app in H0 as [H0| ->%list_elem_of_singleton]; [|lia].
        split_and!; [done|done|done|lia].
      * intros o' Hin Hwin. assert (Hh' : o_healthy o' = true) by (apply Hh; [done|lia]).
        split; [done|]. intros s' Hs'. by eapply Hle.
  - assert (Eo : observe w o = disrupted (o_now o) w) by (unfold observe; by rewrite Eh). split.
    + congruence.
    + by apply commit_inv_step.
    + rewrite Eo. by apply progress_disrupted.
    + rewrite Eo. intros Hr. apply happened_snoc. left. by apply Hsc.
    + rewrite Eo. intros Hr. apply happened_snoc. left. by apply Hsp.
Qed.

Lemma watch_inv_run b os : 0 <= commit_within b -> 0 <= converge_within b -> in_time os -> watch_inv b os (watch b os).
Proof.
  intros Hc Hg. induction os as [|o os IH] using rev_ind; intros Ht.
  - split; [done|by intros o ?%elem_of_nil| |by intros ?%elem_of_nil|by intros ?%elem_of_nil].
    split; [done|by intros o id s ?%elem_of_nil].
  - apply in_time_app in Ht as (Ht & _ & Hle). rewrite watch_snoc. apply watch_inv_step; [done|done| |by apply IH].
    intros o' Hin. apply Hle; [done|by left].
Qed.

(** The watchdog's other stalls are sustained ones. When a commit stall is
    recorded, work was pending under a leader in a healthy environment, and through
    the whole budget before, every observation was healthy with the same highest
    commit index. When a follower is recorded as not converging, it was behind the
    leader, and through the whole budget every observation was healthy and showed
    it no further than where it had been seen before. *)
Theorem recorded_stalls_are_sustained (b : Budget) (os : list Observation) :
  0 <= commit_within b -> 0 <= converge_within b -> in_time os ->
  (recorded K_no_commit (watch b os) -> happened (commit_stuck b) os) /\
  (recorded K_no_convergence (watch b os) -> happened (follower_stuck b) os).
Proof. intros Hc Hg Ht. destruct (watch_inv_run b os Hc Hg Ht) as [_ _ _ H1 H2]. done. Qed.

(** Two nodes seen at a second of the run. *)
Definition seen_at (sec : Z) (a b : PublicState) (healthy pending : bool) : Observation :=
  mkObservation (Nanos_from_secs sec) (view_of [a; b]) healthy pending 3.

Definition leaderless_run : list Observation :=
  [seen_at 0 (seen 1 Leader 1 5 5 [] 0 true) (seen 2 Follower 1 5 5 [] 0 true) true true;
   seen_at 1 (seen 1 Follower 1 5 5 [] 0 true) (seen 2 Candidate 2 5 5 [] 0 true) true true;
   seen_at 31 (seen 1 Follower 2 5 5 [] 0 true) (seen 2 Candidate 3 5 5 [] 0 true) true true].

Lemma in_time_intro os : Sorted Z.le (map o_now os) -> Forall (fun o => 0 <= o_now o) os -> in_time os.
Proof.
  intros H Hf. split; [|done]. apply Sorted_StronglySorted in H; [|intros x y z; lia].
  clear Hf. induction os as [|o os IH]; [constructor|]. apply StronglySorted_inv in H as [H H'].
  constructor; [by apply IH|]. change (Forall (Z.le (o_now o)) (o_now <$> os)) in H'. by rewrite Forall_fmap in H'.
Qed.

Lemma leaderless_time_is_reported_witness :
  recorded K_no_leader (watch Budget_default leaderless_run) /\
  leaderless_stretch Budget_default (seen_at 0 (seen 1 Leader 1 5 5 [] 0 true) (seen 2 Follower 1 5 5 [] 0 true) true true)
    leaderless_run (elect_within Budget_default).
Proof.
  destruct (leaderless_time_is_reported Budget_default
    (seen_at 0 (seen 1 Leader 1 5 5 [] 0 true) (seen 2 Follower 1 5 5 [] 0 true) true true) (tail leaderless_run))
    as (H1 & _ & H3).
  - by_decide.
  - apply in_time_intro; [repeat constructor; vm_compute; discriminate|by_decide].
  - assert (Hr : recorded K_no_leader (watch Budget_default leaderless_run)) by by_decide.
    split; [exact Hr|]. apply H3; [left; reflexivity|exact Hr].
Defined.

(** The leader holds its commit index at 7 for 31 seconds while work is pending, and
    node 2 stays at 3 for more than a minute. *)
Definition stuck_run : list Observation :=
  [seen_at 0 (seen 1 Leader 1 7 9 [] 0 true) (seen 2 Follower 1 3 3 [] 0 true) true true;
   seen_at 61 (seen 1 Leader 1 7 9 [] 0 true) (seen 2 Follower 1 3 3 [] 0 true) true true].

Lemma recorded_stalls_are_sustained_witness :
  recorded K_no_commit (watch Budget_default stuck_run) /\ recorded K_no_convergence (watch Budget_default stuck_run) /\
  happened (commit_stuck Budget_default) stuck_run /\ happened (follower_stuck Budget_default) stuck_run.
Proof.
  assert (H1 : recorded K_no_commit (watch Budget_default stuck_run)) by by_decide.
  assert (H2 : recorded K_no_convergence (watch Budget_default stuck_run)) by by_decide.
  destruct (recorded_stalls_are_sustained Budget_default stuck_run) as [H3 H4]; [by_decide|by_decide| |auto].
  apply in_time_intro; [repeat constructor; vm_compute; discriminate|by_decide].
Defined.

(** Node 2 held 100 entries, lost an uncommitted tail to a new leader, and has been
    catching up since, one entry a second. *)
Definition catching_up : list Observation :=
  map (fun sec => seen_at sec (seen 1 Leader 2 0 200 [] 0 true)
    (seen 2 Follower 2 0 (if sec =? 0 then 100 else sec) [] 0 true) true false) (seqZ 0 62).

(** A follower that advances can be called stuck. The comment says a follower
    converges while its own last index advances; the watchdog compares with the
    highest index the node ever showed, so a follower whose log was cut back and
    which then gains an entry at every observation is reported. *)
Theorem an_advancing_follower_is_called_stuck :
  recorded K_no_convergence (watch Budget_default catching_up) /\
  map (fun o => last_index <$> (o_view o !! 2)) (tail catching_up) = Some <$> seqZ 1 61.
Proof. split; [by_decide|vm_compute; reflexivity]. Qed.

(** A watchdog whose first observation comes late blames the time before it. *)
Lemma a_late_start_is_blamed :
  map kind_of (stalls (watch Budget_default
    [seen_at 31 (seen 1 Follower 2 5 5 [] 0 true) (seen 2 Candidate 3 5 5 [] 0 true) true true])) = [K_no_leader].
Proof. vm_compute. reflexivity. Qed.
