(* ===== verification/History.v ===== *)
(** * Client histories: [crates/chrono-oracle/src/history.rs]

    What an external observer has: each operation with its window and what came
    back. [History] is the recorded list of events; [History_sorted] is the
    stable sort the checker relies on, [History_by_key] the decomposition it
    iterates over, and [max_concurrency] the sweep over window end points. *)

From Stdlib Require Import ZArith Lia.
From stdpp Require Import base tactics list list_numbers gmap sets sorting.
From S2P Require Import Prelude Codec Types Client Kv.

Open Scope Z_scope.

Abbreviation Value := (option Bytes).

Inductive Op : Type :=
| Op_Read (key : Bytes)
| Op_Write (key value : Bytes)
| Op_Delete (key : Bytes)
| Op_Cas (key : Bytes) (expect value : Value).

Definition Op_key (o : Op) : Bytes :=
  match o with
  | Op_Read k | Op_Write k _ | Op_Delete k | Op_Cas k _ _ => k
  end.

Definition is_read (o : Op) : bool :=
  match o with Op_Read _ => true | _ => false end.

Inductive Ret : Type :=
| Ret_Value (v : Value)
| Ret_Ok
| Ret_CasFailed
| Ret_Unknown.

Record Event : Type := mkEvent {
  e_client : Z;
  e_op : Op;
  e_ret : Ret;
  invoked : Z;
  returned : Z
}.

#[export] Instance Op_eq_dec : EqDecision Op.
Proof. solve_decision. Defined.
#[export] Instance Ret_eq_dec : EqDecision Ret.
Proof. solve_decision. Defined.
#[export] Instance Event_eq_dec : EqDecision Event.
Proof. solve_decision. Defined.

Definition e_key (e : Event) : Bytes := Op_key (e_op e).

Definition is_unknown (e : Event) : bool := bool_decide (e_ret e = Ret_Unknown).

Definition concurrent_with (self other : Event) : bool :=
  (invoked self <? returned other) && (invoked other <? returned self).

(** ** The recorded execution *)

Abbreviation History := (list Event).

Definition History_new : History := [].

Definition History_push (e : Event) (h : History) : History := h ++ [e].

Definition unknown_count (h : History) : nat := length (filter (fun e => is_unknown e = true) h).

(** [a.invoked.cmp(..).then(a.returned.cmp(..)).then(a.client.cmp(..))] is not
    [Greater]. *)
Definition event_le (a b : Event) : Prop :=
  invoked a < invoked b \/
  (invoked a = invoked b /\
    (returned a < returned b \/ (returned a = returned b /\ e_client a <= e_client b))).

#[export] Instance event_le_dec : RelDecision event_le.
Proof. intros a b. unfold event_le. apply _. Defined.

(** [sort_by] is stable, and so is the merge sort: on a tie it keeps the element
    of the left run. *)
Definition History_sorted (h : History) : History := merge_sort event_le h.

(** [out.entry(key).or_default().push(e)] for each event, then each value sorted. *)
Definition by_key_push (out : gmap Bytes History) (e : Event) : gmap Bytes History :=
  <[e_key e := History_push e (default History_new (out !! e_key e))]> out.

Definition by_key_map (h : History) : gmap Bytes History :=
  History_sorted <$> foldl by_key_push ∅ h.

(** A [BTreeMap] iterates in key order. *)
Definition History_by_key (h : History) : list (Bytes * History) :=
  merge_sort Kv.by_key (map_to_list (by_key_map h)).

(** [sort_unstable] on [(u64, i32)] pairs: the order is total and antisymmetric,
    so stability does not show. *)
Definition point_le (p q : Z * Z) : Prop := p.1 < q.1 \/ (p.1 = q.1 /\ p.2 <= q.2).

#[export] Instance point_le_dec : RelDecision point_le.
Proof. intros p q. unfold point_le. apply _. Defined.

Definition points (h : History) : list (Z * Z) :=
  flat_map (fun e => [(invoked e, 1); (returned e, -1)]) h.

Fixpoint sweep (ps : list (Z * Z)) (cur best : Z) : Z :=
  match ps with
  | [] => best
  | (_, delta) :: ps => sweep ps (cur + delta) (Z.max best (cur + delta))
  end.

Definition max_concurrency (h : History) : Z := sweep (merge_sort point_le (points h)) 0 0.

(** ** Sorting *)

#[export] Instance event_le_total : Total event_le.
Proof. intros a b. unfold event_le. lia. Qed.
#[export] Instance event_le_trans : Transitive event_le.
Proof. intros a b c. unfold event_le. lia. Qed.

Lemma History_sorted_perm h : History_sorted h ≡ₚ h.
Proof. apply merge_sort_Permutation. Qed.

Lemma History_sorted_sorted h : StronglySorted event_le (History_sorted h).
Proof. apply (StronglySorted_merge_sort event_le). Qed.

(** Every later event is invoked no earlier. *)
Lemma StronglySorted_lookup_le {A} (R : A -> A -> Prop) (l : list A) i j x y :
  StronglySorted R l -> l !! i = Some x -> l !! j = Some y -> (i < j)%nat -> R x y.
Proof.
  intros Hs. revert i j. induction Hs as [|z l Hs IH Hz]; intros i j Hi Hj Hlt; [done|].
  destruct j as [|j]; [lia|]. destruct i as [|i]; simpl in *.
  - simplify_eq. rewrite Forall_forall in Hz. apply Hz. by eapply list_elem_of_lookup_2.
  - apply (IH i j); [done..|lia].
Qed.

Lemma History_sorted_invoked h i j a b :
  History_sorted h !! i = Some a -> History_sorted h !! j = Some b ->
  (i <= j)%nat -> invoked a <= invoked b.
Proof.
  intros Ha Hb Hle. destruct (decide (i = j)) as [->|]; [simplify_eq; lia|].
  pose proof (StronglySorted_lookup_le _ _ i j a b (History_sorted_sorted h) Ha Hb ltac:(lia)) as HR.
  unfold event_le in HR. lia.
Qed.

(** ** Splitting by key *)

Lemma foldl_by_key_push h out k :
  foldl by_key_push out h !! k =
  match filter (fun e => e_key e = k) h with
  | [] => out !! k
  | l => Some (default [] (out !! k) ++ l)
  end.
Proof.
  revert out. induction h as [|e h IH]; intros out; [done|].
  cbn [foldl]. rewrite IH, filter_cons. unfold by_key_push, History_push, History_new.
  destruct (decide (e_key e = k)) as [->|Hne].
  - rewrite lookup_insert_eq. cbn [default].
    destruct (filter _ h); cbn; [done|]. by rewrite <- (assoc_L (++)).
  - by rewrite lookup_insert_ne.
Qed.

Lemma by_key_map_lookup h k sub :
  by_key_map h !! k = Some sub <->
  filter (fun e => e_key e = k) h <> [] /\ sub = History_sorted (filter (fun e => e_key e = k) h).
Proof.
  unfold by_key_map. rewrite lookup_fmap, foldl_by_key_push, lookup_empty. cbn.
  destruct (filter _ h) as [|e l]; cbn; naive_solver.
Qed.

Lemma History_by_key_elem h k sub :
  (k, sub) ∈ History_by_key h <->
  filter (fun e => e_key e = k) h <> [] /\ sub = History_sorted (filter (fun e => e_key e = k) h).
Proof.
  unfold History_by_key. rewrite merge_sort_Permutation, elem_of_map_to_list. apply by_key_map_lookup.
Qed.

(** ** The sweep *)

Fixpoint deltas (ps : list (Z * Z)) : Z :=
  match ps with [] => 0 | p :: ps => p.2 + deltas ps end.

Lemma deltas_app ps qs : deltas (ps ++ qs) = deltas ps + deltas qs.
Proof. induction ps as [|p ps IH]; cbn in *; lia. Qed.

#[export] Instance deltas_proper : Proper ((≡ₚ) ==> eq) deltas.
Proof. induction 1; cbn in *; lia. Qed.

(** The sweep returns the largest running sum, and never less than where it
    started. *)
Lemma sweep_ge_start ps cur best : best <= sweep ps cur best.
Proof.
  revert cur best. induction ps as [|[t d] ps IH]; intros cur best; cbn; [lia|].
  specialize (IH (cur + d) (Z.max best (cur + d))). lia.
Qed.

Lemma sweep_ge ps cur best pre post :
  ps = pre ++ post -> pre <> [] -> cur + deltas pre <= sweep ps cur best.
Proof.
  revert cur best pre. induction ps as [|[t d] ps IH]; intros cur best [|p pre] Heq Hne; try done.
  injection Heq as <- ->. cbn. destruct pre as [|p pre].
  - pose proof (sweep_ge_start ([] ++ post) (cur + d) (Z.max best (cur + d))). cbn in *. lia.
  - specialize (IH (cur + d) (Z.max best (cur + d)) (p :: pre) eq_refl ltac:(done)). cbn in *. lia.
Qed.

Lemma sweep_attained ps cur best :
  sweep ps cur best = best \/
  exists pre post, ps = pre ++ post /\ pre <> [] /\ sweep ps cur best = cur + deltas pre.
Proof.
  revert cur best. induction ps as [|[t d] ps IH]; intros cur best; [by left|]. cbn.
  destruct (IH (cur + d) (Z.max best (cur + d))) as [->|(pre & post & -> & Hne & ->)].
  - destruct (Z.max_spec best (cur + d)) as [[_ ->]|[_ ->]]; [|by left].
    right. exists [(t, d)], ps. cbn. split_and!; [done..|lia].
  - right. exists ((t, d) :: pre), post. cbn. split_and!; [done..|lia].
Qed.

(** The operations whose window is open at an instant. *)
Definition open_at (t : Z) (h : History) : Z :=
  Z.of_nat (length (filter (fun e => invoked e <= t < returned e) h)).

Definition windows_ordered (h : History) : Prop := Forall (fun e => invoked e <= returned e) h.

Lemma deltas_points t h :
  windows_ordered h -> deltas (filter (fun p => p.1 <= t) (points h)) = open_at t h.
Proof.
  unfold open_at. induction 1 as [|e h He _ IH]; [done|].
  cbn [points flat_map app]. change (flat_map _ h) with (points h).
  rewrite !filter_cons. cbn [fst].
  repeat case_decide; cbn [deltas snd length] in *; lia.
Qed.

Lemma deltas_sorted_points t h :
  windows_ordered h ->
  deltas (filter (fun p => p.1 <= t) (merge_sort point_le (points h))) = open_at t h.
Proof. intros Hw. rewrite merge_sort_Permutation. by apply deltas_points. Qed.

Lemma points_delta t d h : (t, d) ∈ points h -> d = 1 \/ d = -1.
Proof.
  unfold points. rewrite list_elem_of_In, in_flat_map. intros (e & _ & [[= <- <-]|[[= <- <-]|[]]]); lia.
Qed.

#[export] Instance point_le_total : Total point_le.
Proof. intros p q. unfold point_le. lia. Qed.
#[export] Instance point_le_trans : Transitive point_le.
Proof. intros p q r. unfold point_le. lia. Qed.

(** In a sorted list of points, those up to an instant are a prefix. *)
Lemma sorted_points_split t ps :
  StronglySorted point_le ps ->
  ps = filter (fun p => p.1 <= t) ps ++ filter (fun p => ~ p.1 <= t) ps.
Proof.
  induction 1 as [|p ps Hs IH Hp]; [done|]. rewrite !filter_cons.
  destruct (decide (p.1 <= t)) as [Hle|Hgt].
  - rewrite decide_False by tauto. cbn. by f_equal.
  - rewrite decide_True by tauto. rewrite filter_none; [cbn; f_equal|].
    + symmetry. apply filter_all. eapply Forall_impl; [exact Hp|].
      intros q. unfold point_le. lia.
    + eapply Forall_impl; [exact Hp|]. intros q. unfold point_le. lia.
Qed.

(** A running sum is at most the number of windows open at some instant. *)
Lemma prefix_sum_bounded h pre post :
  windows_ordered h -> merge_sort point_le (points h) = pre ++ post ->
  deltas pre <= 0 \/ exists t, deltas pre <= open_at t h.
Proof.
  intros Hw. revert post. induction pre as [|[t d] pre IH] using rev_ind; intros post Heq; [by left|].
  rewrite <- (assoc_L (++)) in Heq. rewrite deltas_app. cbn.
  assert (Hd : (t, d) ∈ points h).
  { rewrite <- (merge_sort_Permutation point_le), Heq, !elem_of_app. right. left. by left. }
  destruct (points_delta _ _ _ Hd) as [-> | ->].
  - right. exists t. rewrite <- (deltas_sorted_points t h Hw), Heq.
    pose proof (StronglySorted_merge_sort point_le (points h)) as Hs. rewrite Heq in Hs.
    rewrite !filter_app, !deltas_app.
    apply StronglySorted_app in Hs as (Hc & Hpre & Hpost).
    rewrite (filter_all _ pre), filter_cons_True by
      (cbn; try lia; apply Forall_forall; intros q Hq; specialize (Hc q (t, 1) Hq); 
       assert (point_le q (t, 1)) as HR by (apply Hc; left); unfold point_le in HR; cbn in HR; lia).
    assert (0 <= deltas (filter (fun p : Z * Z => p.1 <= t) post)); [|cbn in *; lia].
    assert (Hall : Forall (fun q => q.1 <= t -> q.2 = 1) post); [|clear -Hall].
    + apply StronglySorted_app in Hpost as (Hc' & _ & _).
      apply Forall_forall. intros q Hq Hle. specialize (Hc' (t, 1) q).
      assert (point_le (t, 1) q) as HR by (apply Hc'; [left|done]).
      assert (q ∈ points h) as Hin by (rewrite <- (merge_sort_Permutation point_le), Heq, !elem_of_app; tauto).
      destruct q as [t' d']. apply points_delta in Hin. unfold point_le in HR. cbn in *. lia.
    + induction Hall as [|q post Hq _ IH]; [done|]. rewrite filter_cons.
      case_decide; cbn [deltas] in *; [rewrite Hq by done|]; lia.
  - destruct (IH ([(t, -1)] ++ post)) as [?|[t' ?]]; [done|left; lia|right; exists t'; lia].
Qed.

(** [max_concurrency] is the widest overlap: no instant has more operation
    windows open (from the invocation up to, not including, the return) than the
    number reported, and some instant has that many, unless the number is zero. *)
Theorem max_concurrency_is_widest_overlap (h : History) :
  windows_ordered h ->
  (forall t, open_at t h <= max_concurrency h) /\
  (max_concurrency h = 0 \/ exists t, open_at t h = max_concurrency h).
Proof.
  intros Hw.
  assert (Hub : forall t, open_at t h <= max_concurrency h).
  { intros t. unfold max_concurrency. rewrite <- (deltas_sorted_points t h Hw).
    pose proof (sorted_points_split t _ (StronglySorted_merge_sort point_le (points h))) as Hsp.
    destruct (filter (fun p => p.1 <= t) (merge_sort point_le (points h))) as [|p ps] eqn:Hf.
    - apply (sweep_ge_start _ 0 0).
    - apply (sweep_ge _ 0 0 _ _ Hsp). done. }
  split; [done|].
  destruct (sweep_attained (merge_sort point_le (points h)) 0 0)
    as [?|(pre & post & Heq & Hne & Hs)]; [by left|].
  fold (max_concurrency h) in Hs.
  pose proof (sweep_ge_start (merge_sort point_le (points h)) 0 0) as H0.
  fold (max_concurrency h) in H0.
  destruct (prefix_sum_bounded h pre post Hw Heq) as [?|[t Ht]]; [left; lia|].
  right. exists t. specialize (Hub t). lia.
Qed.

Definition sample_history : History :=
  [ mkEvent 1 (Op_Write [107] [49]) Ret_Ok 0 100;
    mkEvent 2 (Op_Write [107] [50]) Ret_Ok 10 110;
    mkEvent 3 (Op_Write [108] [51]) Ret_Unknown 20 120;
    mkEvent 4 (Op_Read [107]) (Ret_Value (Some [50])) 200 210 ].

Lemma max_concurrency_is_widest_overlap_witness :
  max_concurrency sample_history = 3 /\ forall t, open_at t sample_history <= 3.
Proof.
  split; [reflexivity|]. intros t.
  apply (max_concurrency_is_widest_overlap sample_history). by_decide.
Defined.
