(* ===== verification/Lin.v ===== *)
(** * The linearizability checker: [crates/chrono-oracle/src/linearizability.rs]

    [check_one_key] is the Wing and Gong search of the source with its explicit
    stack, its memo table and its budget, one [search_step] per turn of the outer
    loop and [cursor_loop] for the inner one. The specification is the textbook
    one: instants inside the windows, in an order the register accepts. The
    theorems say what each verdict is worth. *)

From Stdlib Require Import ZArith Lia.
From stdpp Require Import base tactics list list_numbers gmap sets sorting.
From S2P Require Import Prelude Codec Types Client Kv History.

Open Scope Z_scope.

(** ** The sequential specification *)

(** [Model] has one field, the register's value. *)
Record Model : Type := mkModel { m_value : Value }.

#[export] Instance Model_eq_dec : EqDecision Model.
Proof. solve_decision. Defined.

Definition Model_new : Model := mkModel None.

Definition Model_step (self : Model) (e : Event) : option Model :=
  match e_op e, e_ret e with
  | Op_Read _, Ret_Value observed => if decide (observed = m_value self) then Some self else None
  | Op_Write _ value, Ret_Ok => Some (mkModel (Some value))
  | Op_Delete _, Ret_Ok => Some (mkModel None)
  | Op_Cas _ expect value, Ret_Ok =>
      if decide (expect = m_value self) then Some (mkModel value) else None
  | Op_Cas _ expect _, Ret_CasFailed =>
      if decide (expect = m_value self) then None else Some self
  | Op_Read _, Ret_Unknown => Some self
  | Op_Write _ value, Ret_Unknown => Some (mkModel (Some value))
  | Op_Delete _, Ret_Unknown => Some (mkModel None)
  | Op_Cas _ expect value, Ret_Unknown =>
      if decide (expect = m_value self) then Some (mkModel value) else Some self
  | _, _ => None
  end.

Record Violation : Type := mkViolation {
  culprit : Event;
  linearized : list Event;
  model_value : Value;
  concurrent : list Event
}.

Inductive Verdict : Type :=
| Linearizable
| NotLinearizable (v : Violation)
| Inconclusive (explored max_concurrency : Z).

Definition is_linearizable (v : Verdict) : bool :=
  match v with Linearizable => true | _ => false end.

Definition is_violation (v : Verdict) : bool :=
  match v with NotLinearizable _ => true | _ => false end.

Record Limits : Type := mkLimits { max_states : Z }.

Definition Limits_default : Limits := mkLimits 2000000.

(** ** The search over one key *)

Definition AHEAD : nat := 63.

Record Frame : Type := mkFrame {
  f_model : Model;
  frontier : nat;
  ahead : Z;
  cursor : nat;
  chose : option nat
}.

(** [u64::trailing_ones]. *)
Fixpoint trailing_ones_loop (bits : nat) (m : Z) : nat :=
  match bits with
  | O => O
  | S bits => if Z.odd m then S (trailing_ones_loop bits (Z.shiftr m 1)) else O
  end.
Definition trailing_ones (m : Z) : nat := trailing_ones_loop 64 m.

(** Bit [k] of the mask: the operation at [frontier + 1 + k] is placed. *)
Definition mask_bit (m : Z) (k : nat) : bool := negb (Z.land m (Z.shiftl 1 (Z.of_nat k)) =? 0).

(** The bookkeeping of one placement at [offset] from the frontier. *)
Definition place_at (fr : nat) (ah : Z) (offset : nat) : nat * Z :=
  match offset with
  | O => let t := trailing_ones ah in
         ((fr + (1 + t))%nat, if (64 <=? t + 1)%nat then 0 else Z.shiftr ah (Z.of_nat (t + 1)))
  | S k => (fr, Z.lor ah (Z.shiftl 1 (Z.of_nat k)))
  end.

(** The memo key of a configuration. *)
Abbreviation Config := (Value * nat * Z)%type.

(** How the inner loop leaves a frame: with a successor pushed, or exhausted. *)
Inductive Scan : Type :=
| Advanced (cursor i : nat) (next_model : Model) (frontier : nat) (ahead : Z)
| Exhausted (bounded_out : bool).

(** [while frame.cursor < 2 * (AHEAD + 2)]: [fuel] is what is left of that bound.
    [None] is an index out of range. *)
Fixpoint cursor_loop (fuel : nat) (events : list Event) (horizon : Z) (visited : gset Config)
    (f : Frame) (cur : nat) : option Scan :=
  match fuel with
  | O => Some (Exhausted false)
  | S fuel =>
      let offset := (cur / 2)%nat in
      let skip_effect := Nat.odd cur in
      let continue := cursor_loop fuel events horizon visited f (S cur) in
      let i := (frontier f + offset)%nat in
      if (length events <=? i)%nat then Some (Exhausted false)
      else
        match events !! i with
        | None => None
        | Some e =>
            if (AHEAD <? offset)%nat then Some (Exhausted (invoked e <=? horizon))
            else if (0 <? offset)%nat && mask_bit (ahead f) (offset - 1) then continue
            else if horizon <? invoked e then Some (Exhausted false)
            else if skip_effect && negb (is_unknown e) then continue
            else
              match (if skip_effect then Some (f_model f) else Model_step (f_model f) e) with
              | None => continue
              | Some next_model =>
                  let '(fr, ah) := place_at (frontier f) (ahead f) offset in
                  if decide ((m_value next_model, fr, ah) ∈ visited) then continue
                  else Some (Advanced (S cur) i next_model fr ah)
              end
        end
  end.

Record Search : Type := mkSearch {
  s_visited : gset Config;
  s_explored : Z;
  s_bounded_out : bool;
  s_best_depth : nat;
  s_best_trace : list nat;
  s_best_model : Model;
  s_stack : list Frame      (** top first *)
}.

Definition Search_init : Search :=
  mkSearch ∅ 0 false 0 [] Model_new [mkFrame Model_new 0 0 0 None].

(** The choices along the stack, bottom first. *)
Definition stack_trace (stack : list Frame) : list nat := rev (omap chose stack).

(** One turn of the outer loop, on a non-empty stack. *)
Definition search_step (history events : list Event) (limits : Limits) (s : Search) (f : Frame)
    (below : list Frame) : option (Verdict + Search) :=
  let explored := s_explored s + 1 in
  if max_states limits <? explored then Some (inl (Inconclusive explored (max_concurrency history)))
  else if (frontier f =? length events)%nat then Some (inl Linearizable)
  else
    match events !! frontier f with
    | None => None
    | Some e =>
        match cursor_loop (2 * (AHEAD + 2) - cursor f) events (returned e) (s_visited s) f (cursor f) with
        | None => None
        | Some (Exhausted b) =>
            Some (inr (mkSearch (s_visited s) explored (s_bounded_out s || b)
                         (s_best_depth s) (s_best_trace s) (s_best_model s) below))
        | Some (Advanced cur i m fr ah) =>
            let stack := mkFrame (f_model f) (frontier f) (ahead f) cur (chose f) :: below in
            let better := (s_best_depth s <? fr)%nat in
            Some (inr (mkSearch ({[(m_value m, fr, ah)]} ∪ s_visited s) explored (s_bounded_out s)
                         (if better then fr else s_best_depth s)
                         (if better then stack_trace stack ++ [i] else s_best_trace s)
                         (if better then m else s_best_model s)
                         (mkFrame m fr ah 0 (Some i) :: stack)))
        end
    end.

(** What the search reports when the stack is empty. *)
Definition search_failed (history events : list Event) (s : Search) : option Verdict :=
  if s_bounded_out s then Some (Inconclusive (s_explored s) (max_concurrency history))
  else
    match mapM (fun i => events !! i) (s_best_trace s),
          events !! Nat.min (s_best_depth s) (length events - 1) with
    | Some lin, Some c =>
        Some (NotLinearizable (mkViolation c lin (m_value (s_best_model s))
                (filter (fun e => concurrent_with e c = true /\ e <> c) events)))
    | _, _ => None
    end.

(** [while !stack.is_empty()]: every turn adds one to [explored]. *)
Fixpoint search (fuel : nat) (history events : list Event) (limits : Limits) (s : Search) : option Verdict :=
  match s_stack s with
  | [] => search_failed history events s
  | f :: below =>
      match fuel with
      | O => None
      | S fuel =>
          match search_step history events limits s f below with
          | None => None
          | Some (inl v) => Some v
          | Some (inr s) => search fuel history events limits s
          end
      end
  end.

Definition check_one_key (history : History) (limits : Limits) : option Verdict :=
  let events := History_sorted history in
  if (length events =? 0)%nat then Some Linearizable
  else search (S (Z.to_nat (max_states limits))) history events limits Search_init.

(** Check a whole history, one key at a time. *)
Fixpoint check_keys (subs : list (Bytes * History)) (limits : Limits) : option Verdict :=
  match subs with
  | [] => Some Linearizable
  | (_, sub) :: subs =>
      match check_one_key sub limits with
      | Some Linearizable => check_keys subs limits
      | other => other
      end
  end.

Definition check (history : History) (limits : Limits) : option Verdict :=
  check_keys (History_by_key history) limits.
