(* ===== verification/LinSearch.v ===== *)
(** * What the search explores

    [move] is a single legal placement and [reachable] the configurations such
    placements lead to. The search is proved exact for it: a verdict of
    [Linearizable] exhibits a reachable configuration with every operation
    placed, a violation means there is none, and the search always answers. *)

From Stdlib Require Import ZArith Lia.
From stdpp Require Import base tactics list list_numbers gmap sets sorting.
From S2P Require Import Prelude Codec Types Client Kv History Lin.

Open Scope Z_scope.

(** ** The mask *)

Lemma mask_bit_testbit m k : mask_bit m k = Z.testbit m (Z.of_nat k).
Proof.
  unfold mask_bit. rewrite Z.shiftl_1_l.
  destruct (Z.testbit m (Z.of_nat k)) eqn:Hb.
  - apply negb_true_iff, Z.eqb_neq. intros H0.
    assert (Z.testbit (Z.land m (2 ^ Z.of_nat k)) (Z.of_nat k) = false) as H by by rewrite H0, Z.bits_0.
    rewrite Z.land_spec, Hb, Z.pow2_bits_true in H by lia. done.
  - apply negb_false_iff, Z.eqb_eq, Z.bits_inj'. intros j Hj.
    rewrite Z.land_spec, Z.bits_0, Z.pow2_bits_eqb by lia.
    destruct (Z.eqb_spec (Z.of_nat k) j) as [<-|]; [by rewrite Hb|apply andb_false_r].
Qed.

Lemma trailing_ones_loop_spec bits m :
  let t := trailing_ones_loop bits m in
  (t <= bits)%nat /\
  (forall k, (k < t)%nat -> Z.testbit m (Z.of_nat k) = true) /\
  ((t < bits)%nat -> Z.testbit m (Z.of_nat t) = false).
Proof.
  revert m. induction bits as [|bits IH]; intros m; cbn; [split_and!; intros; lia|].
  destruct (Z.odd m) eqn:Ho; [|split_and!; [lia|intros; lia|intros _; by rewrite Z.bit0_odd]].
  destruct (IH (Z.shiftr m 1)) as (Hle & Hones & Hzero).
  assert (Hsh : forall k, Z.testbit (Z.shiftr m 1) (Z.of_nat k) = Z.testbit m (Z.of_nat (S k))).
  { intros k. rewrite Z.shiftr_spec by lia. f_equal. lia. }
  split_and!; [lia| |].
  - intros [|k] Hk; [by rewrite Z.bit0_odd|]. rewrite <- Hsh. apply Hones. lia.
  - intros Hlt. rewrite <- Hsh. apply Hzero. lia.
Qed.

(** An operation is placed when it is below the frontier or in the mask. *)
Definition placed (fr : nat) (ah : Z) (i : nat) : Prop :=
  (i < fr)%nat \/ ((fr < i)%nat /\ Z.testbit ah (Z.of_nat (i - fr - 1)) = true).

(** The mask holds 63 operations at most. *)
Definition mask_wf (ah : Z) : Prop := forall k, 63 <= k -> Z.testbit ah k = false.

Lemma place_at_wf fr ah offset :
  mask_wf ah -> (offset <= AHEAD)%nat -> mask_wf (place_at fr ah offset).2.
Proof.
  unfold AHEAD. intros Hw Hle k Hk. destruct offset as [|o]; cbn [place_at snd].
  - destruct (64 <=? _)%nat; [apply Z.bits_0|]. rewrite Z.shiftr_spec by lia. apply Hw. lia.
  - rewrite Z.lor_spec, Hw, Z.shiftl_1_l, Z.pow2_bits_false by lia. done.
Qed.

(** Advancing adds exactly the operation placed: the frontier moves over the
    run of operations already placed and the mask shifts with it. *)
Lemma place_at_placed fr ah offset j :
  mask_wf ah -> (offset <= AHEAD)%nat ->
  placed (place_at fr ah offset).1 (place_at fr ah offset).2 j <->
  placed fr ah j \/ j = (fr + offset)%nat.
Proof.
  unfold AHEAD. intros Hw Hle. destruct offset as [|o]; cbn [place_at fst snd].
  - destruct (trailing_ones_loop_spec 64 ah) as (Ht & Hones & Hzero).
    fold (trailing_ones ah) in *. set (t := trailing_ones ah) in *.
    assert (Ht63 : (t <= 63)%nat).
    { destruct (decide (t = 64%nat)) as [He|]; [|lia].
      specialize (Hones 63%nat ltac:(lia)). rewrite Hw in Hones by lia. done. }
    specialize (Hzero ltac:(lia)).
    assert (Hsh : forall k, Z.testbit (if (64 <=? t + 1)%nat then 0 else Z.shiftr ah (Z.of_nat (t + 1))) (Z.of_nat k)
                  = Z.testbit ah (Z.of_nat (k + t + 1))).
    { intros k. destruct (Nat.leb_spec 64 (t + 1)).
      - rewrite Z.bits_0, Hw by lia. done.
      - rewrite Z.shiftr_spec by lia. f_equal. lia. }
    unfold placed. rewrite Hsh. split.
    + intros [Hlt|[Hlt Hb]].
      * destruct (decide (j <= fr)%nat); [lia|]. left. right. split; [lia|]. apply Hones. lia.
      * left. right. split; [lia|]. rewrite <- Hb. f_equal. lia.
    + intros [[Hlt|[Hlt Hb]]| ->]; [left; lia| |left; lia].
      destruct (decide (j < fr + (1 + t))%nat); [by left|]. right.
      destruct (decide (j = fr + (1 + t))%nat) as [->|].
      { exfalso. replace (fr + (1 + t) - fr - 1)%nat with t in Hb by lia. congruence. }
      split; [lia|]. rewrite <- Hb. f_equal. lia.
  - unfold placed. rewrite Z.lor_spec, Z.shiftl_1_l.
    destruct (decide (j = fr + S o)%nat) as [->|Hne].
    + split; [by right|intros _; right; split; [lia|]].
      replace (fr + S o - fr - 1)%nat with o by lia. rewrite Z.pow2_bits_true, orb_true_r by lia. done.
    + destruct (decide (fr < j)%nat).
      * rewrite Z.pow2_bits_false, orb_false_r by lia. naive_solver.
      * split; [intros [?|[??]]; [by left; left|lia]|intros [[?|[??]]|?]; [by left|lia|done]].
Qed.

(** ** Placements *)

Definition Cfg : Type := Model * nat * Z.
Definition cfg_of (f : Frame) : Cfg := (f_model f, frontier f, ahead f).
Definition cfg_key (c : Cfg) : Config := (m_value c.1.1, c.1.2, c.2).
Definition cfg_init : Cfg := (Model_new, O, 0).
Abbreviation cfg_model c := (c.1.1).
Abbreviation cfg_frontier c := (c.1.2).

Lemma cfg_key_inj c d : cfg_key c = cfg_key d -> c = d.
Proof. destruct c as [[[v] fr] ah], d as [[[v'] fr'] ah']. cbn. by intros [= -> -> ->]. Qed.

Section Moves.
Context (events : list Event).

(** Place operation [i], or discard it when its outcome is unknown: it is not
    placed yet and was invoked no later than the frontier operation returned. *)
Definition move (c : Cfg) (i : nat) (skip : bool) : option Cfg :=
  let '(m, fr, ah) := c in
  match events !! i, events !! fr with
  | Some e, Some e0 =>
      if (fr <=? i)%nat && negb ((0 <? i - fr)%nat && mask_bit ah (i - fr - 1))
         && (invoked e <=? returned e0) && (negb skip || is_unknown e)
      then
        match (if skip then Some m else Model_step m e) with
        | Some m' => let '(fr', ah') := place_at fr ah (i - fr) in Some (m', fr', ah')
        | None => None
        end
      else None
  | _, _ => None
  end.

Inductive reachable : Cfg -> Prop :=
| reach_init : reachable cfg_init
| reach_move c i skip c' :
    reachable c -> (i - cfg_frontier c <= AHEAD)%nat -> move c i skip = Some c' -> reachable c'.

(** Every operation is placed. *)
Definition complete (c : Cfg) : Prop := cfg_frontier c = length events.

Record cfg_wf (c : Cfg) : Prop := {
  wf_mask : mask_wf c.2;
  wf_bound : forall i, placed (cfg_frontier c) c.2 i -> (i < length events)%nat;
  wf_frontier : (cfg_frontier c <= length events)%nat
}.

Lemma move_inv c i skip c' :
  move c i skip = Some c' ->
  exists e e0, events !! i = Some e /\ events !! cfg_frontier c = Some e0 /\
    (cfg_frontier c <= i)%nat /\ ~ placed (cfg_frontier c) c.2 i /\
    invoked e <= returned e0 /\ (skip = true -> is_unknown e = true) /\
    (if skip then Some (cfg_model c) else Model_step (cfg_model c) e) = Some (cfg_model c') /\
    (cfg_frontier c', c'.2) = place_at (cfg_frontier c) c.2 (i - cfg_frontier c).
Proof.
  destruct c as [[m fr] ah]. cbn. destruct (events !! i) as [e|] eqn:Hi; [|done].
  destruct (events !! fr) as [e0|] eqn:Hf; [|done].
  destruct (_ && _) eqn:Hg; [|done].
  rewrite !andb_true_iff, negb_true_iff, mask_bit_testbit, Nat.leb_le, Z.leb_le in Hg.
  destruct Hg as [[[Hle Hm] Hinv] Hu].
  destruct (if skip then _ else _) as [m'|] eqn:Hs; [|done].
  destruct (place_at _ _ _) as [fr' ah'] eqn:Ha. intros [= <-]. exists e, e0. cbn.
  split_and!; [done..| |done| |done|done].
  - intros [Hp|[Hp Hb]]; [lia|]. rewrite Hb, andb_true_r in Hm. destruct (i - fr)%nat eqn:?; [lia|done].
  - intros ->. done.
Qed.

Lemma move_intro m fr ah i skip e e0 m' :
  events !! i = Some e -> events !! fr = Some e0 -> (fr <= i)%nat -> ~ placed fr ah i ->
  invoked e <= returned e0 -> (skip = true -> is_unknown e = true) ->
  (if skip then Some m else Model_step m e) = Some m' ->
  move (m, fr, ah) i skip = Some (m', (place_at fr ah (i - fr)).1, (place_at fr ah (i - fr)).2).
Proof.
  intros Hi Hf Hle Hp Hinv Hu Hs. cbn. rewrite Hi, Hf.
  replace (_ && _) with true; [rewrite Hs; by destruct (place_at _ _ _)|].
  symmetry. rewrite !andb_true_iff, negb_true_iff, mask_bit_testbit, Nat.leb_le, Z.leb_le.
  split_and!; [done| |done|destruct skip; [by apply Hu|done]].
  apply andb_false_iff. destruct (i - fr)%nat eqn:Ho; [by left|]. right. rewrite <- Ho.
  destruct (Z.testbit _ _) eqn:Hb; [|done]. exfalso. apply Hp. right. split; [lia|done].
Qed.

Lemma cfg_init_wf : cfg_wf cfg_init.
Proof.
  split; cbn; [|intros i [?|[_ Hb]]; [lia|rewrite Z.bits_0 in Hb; done]|lia].
  intros k _. apply Z.bits_0.
Qed.

Lemma move_wf c i skip c' :
  cfg_wf c -> (i - cfg_frontier c <= AHEAD)%nat -> move c i skip = Some c' -> cfg_wf c'.
Proof.
  intros [Hm Hb Hf] Ho (e & e0 & Hi & _ & Hle & _ & _ & _ & _ & Ha)%move_inv.
  destruct c as [[m fr] ah], c' as [[m' fr'] ah']. cbn in *.
  apply lookup_lt_Some in Hi.
  assert (Hpl : forall j, placed fr' ah' j -> (j < length events)%nat).
  { intros j. pose proof (place_at_placed fr ah (i - fr) j Hm Ho) as Hp. rewrite <- Ha in Hp. cbn in Hp.
    rewrite Hp. intros [?| ->]; [by apply Hb|lia]. }
  split; cbn; [|done|].
  - pose proof (place_at_wf fr ah (i - fr) Hm Ho) as Hw. by rewrite <- Ha in Hw.
  - destruct fr' as [|k]; [lia|]. apply Hpl. left. lia.
Qed.

Lemma reachable_wf c : reachable c -> cfg_wf c.
Proof. induction 1; [apply cfg_init_wf|by eapply move_wf]. Qed.

End Moves.

(** ** The inner loop *)

Section Search.
Context (events : list Event).
Hypothesis Hsorted : forall i j a b,
  events !! i = Some a -> events !! j = Some b -> (i <= j)%nat -> invoked a <= invoked b.

(** The successor by that placement, if there is one, has been seen. *)
Definition closed_at (V : gset Config) (c : Cfg) (i : nat) (skip : bool) : Prop :=
  forall c', move events c i skip = Some c' -> cfg_key c' ∈ V.

(** Every legal placement lies in the window and leads to a configuration that
    has been seen. *)
Definition exhausted (V : gset Config) (c : Cfg) : Prop :=
  forall i skip c', move events c i skip = Some c' ->
  cfg_key c' ∈ V /\ (i - cfg_frontier c <= AHEAD)%nat.

Definition closed_below (V : gset Config) (c : Cfg) (cur : nat) : Prop :=
  forall k, (k < cur)%nat -> closed_at V c (cfg_frontier c + k / 2) (Nat.odd k).

Lemma closed_at_mono V W c i skip : V ⊆ W -> closed_at V c i skip -> closed_at W c i skip.
Proof. intros HVW H c' Hc'. apply HVW, (H c' Hc'). Qed.

Lemma exhausted_mono V W c : V ⊆ W -> exhausted V c -> exhausted W c.
Proof. intros HVW H i skip c' Hc'. destruct (H i skip c' Hc'). auto. Qed.

Lemma closed_at_None V c i skip : move events c i skip = None -> closed_at V c i skip.
Proof. intros H c' Hc'. congruence. Qed.

Lemma closed_below_S V c cur :
  closed_below V c cur -> closed_at V c (cfg_frontier c + cur / 2) (Nat.odd cur) ->
  closed_below V c (S cur).
Proof. intros H Hc k Hk. destruct (decide (k = cur)) as [->|]; [done|]. apply H. lia. Qed.

(** Once no placement from here on is legal, the frame is exhausted. *)
Lemma closed_below_all V c cur :
  (cur <= 2 * (AHEAD + 1))%nat -> closed_below V c cur ->
  (forall i skip, (cfg_frontier c + cur / 2 <= i)%nat -> move events c i skip = None) ->
  exhausted V c.
Proof.
  intros Hcur Hb Hn i skip c' Hc'.
  destruct (move_inv _ _ _ _ _ Hc') as (_ & _ & _ & _ & Hle & _).
  set (k := (2 * (i - cfg_frontier c) + Nat.b2n skip)%nat).
  assert (Hk2 : (k / 2 = i - cfg_frontier c)%nat).
  { unfold k. rewrite (Nat.mul_comm 2), Nat.div_add_l by lia. destruct skip; cbn; lia. }
  assert (Hodd : Nat.odd k = skip).
  { unfold k. rewrite Nat.odd_add, Nat.odd_mul. by destruct skip. }
  destruct (decide (k < cur)%nat) as [Hlt|Hge].
  - specialize (Hb k Hlt). rewrite Hk2, Hodd in Hb.
    replace (cfg_frontier c + (i - cfg_frontier c))%nat with i in Hb by lia.
    split; [by apply Hb|unfold AHEAD in *; lia].
  - rewrite (Hn i skip) in Hc'; [done|].
    assert (cur / 2 <= k / 2)%nat by (apply Nat.Div0.div_le_mono; lia). lia.
Qed.

(** What the inner loop promises of its answer. *)
Definition scan_ok (V : gset Config) (f : Frame) (r : Scan) : Prop :=
  match r with
  | Exhausted b => b = true \/ exhausted V (cfg_of f)
  | Advanced cur i m fr ah =>
      (cur <= 2 * (AHEAD + 1))%nat /\ (i - frontier f <= AHEAD)%nat /\
      (exists skip, move events (cfg_of f) i skip = Some (m, fr, ah)) /\
      closed_below ({[cfg_key (m, fr, ah)]} ∪ V) (cfg_of f) cur
  end.

(** A placement, read off the guards of the loop. *)
Lemma move_eval m fr ah o sk e e0 :
  events !! (fr + o)%nat = Some e -> events !! fr = Some e0 ->
  move events (m, fr, ah) (fr + o) sk =
  if negb ((0 <? o)%nat && mask_bit ah (o - 1)) && (invoked e <=? returned e0) && (negb sk || is_unknown e)
  then
    match (if sk then Some m else Model_step m e) with
    | Some m' => let '(fr', ah') := place_at fr ah o in Some (m', fr', ah')
    | None => None
    end
  else None.
Proof.
  intros He He0. unfold move. rewrite He, He0.
  replace (fr + o - fr)%nat with o by lia. by rewrite (proj2 (Nat.leb_le fr (fr + o)) ltac:(lia)).
Qed.

(** When every operation from here on was invoked after the horizon, nothing is
    left to try. *)
Lemma closed_when_late V f cur e0 :
  events !! frontier f = Some e0 -> (cur <= 2 * (AHEAD + 1))%nat -> closed_below V (cfg_of f) cur ->
  (forall e j, (frontier f + cur / 2 <= j)%nat -> events !! j = Some e -> returned e0 < invoked e) ->
  exhausted V (cfg_of f).
Proof.
  intros He0 Hcur Hb Hlate. apply (closed_below_all V (cfg_of f) cur Hcur Hb). intros i skip Hi.
  destruct (move events (cfg_of f) i skip) as [c'|] eqn:Hm; [|done]. exfalso.
  apply move_inv in Hm as (e & e0' & Hi' & Hf' & _ & _ & Hinv & _). cbn in Hf'. simplify_eq.
  specialize (Hlate e i Hi Hi'). lia.
Qed.

Lemma cursor_loop_ok fuel V f cur e0 :
  events !! frontier f = Some e0 ->
  fuel = (2 * (AHEAD + 2) - cur)%nat -> (cur <= 2 * (AHEAD + 1))%nat ->
  closed_below V (cfg_of f) cur ->
  exists r, cursor_loop fuel events (returned e0) V f cur = Some r /\ scan_ok V f r.
Proof.
  intros He0. revert cur. induction fuel as [|fuel IH]; intros cur Hfuel Hcur Hb;
    [unfold AHEAD in *; lia|].
  pose proof (closed_when_late V f cur e0 He0 Hcur Hb) as Hstop. cbn [cursor_loop].
  assert (Ho : (cur <= 2 * (cur / 2) + 1)%nat).
  { pose proof (Nat.div_mod_eq cur 2). pose proof (Nat.mod_upper_bound cur 2 ltac:(lia)). lia. }
  assert (Hcont : (cur / 2 <= AHEAD)%nat -> closed_at V (cfg_of f) (frontier f + cur / 2) (Nat.odd cur) ->
    exists r, cursor_loop fuel events (returned e0) V f (S cur) = Some r /\ scan_ok V f r).
  { intros Hoa Hc. apply IH; [lia|unfold AHEAD in *; lia|]. by apply closed_below_S. }
  set (o := (cur / 2)%nat) in *. set (sk := Nat.odd cur) in *.
  destruct (Nat.leb_spec (length events) (frontier f + o)) as [Hn|Hn].
  { eexists. split; [done|]. right. apply Hstop. intros e j Hj Hlk. apply lookup_lt_Some in Hlk. lia. }
  destruct (lookup_lt_is_Some_2 events (frontier f + o) Hn) as [e He]. rewrite He.
  assert (Hafter : returned e0 < invoked e -> exhausted V (cfg_of f)).
  { intros Hlate. apply Hstop. intros e' j Hj Hlk. pose proof (Hsorted _ _ _ _ He Hlk Hj). lia. }
  pose proof (move_eval (f_model f) (frontier f) (ahead f) o sk e e0 He He0) as Hmv.
  change (f_model f, frontier f, ahead f) with (cfg_of f) in Hmv.
  destruct (Nat.ltb_spec AHEAD o) as [Hfar|Hnear].
  { eexists. split; [done|]. cbn. destruct (Z.leb_spec (invoked e) (returned e0)); [by left|right; auto]. }
  destruct ((0 <? o)%nat && mask_bit (ahead f) (o - 1)).
  { apply Hcont; [done|]. by apply closed_at_None. }
  destruct (Z.ltb_spec (returned e0) (invoked e)) as [Hlate|Hok].
  { eexists. split; [done|]. right. auto. }
  rewrite (proj2 (Z.leb_le _ _) Hok) in Hmv.
  destruct (sk && negb (is_unknown e)) eqn:Hskip.
  { apply Hcont; [done|]. apply closed_at_None. rewrite Hmv.
    apply andb_true_iff in Hskip as [-> Hu]. by destruct (is_unknown e). }
  replace (negb sk || is_unknown e) with true in Hmv by (destruct sk, (is_unknown e); done).
  destruct (if sk then Some (f_model f) else Model_step (f_model f) e) as [m|] eqn:Hstep.
  2:{ apply Hcont; [done|]. by apply closed_at_None. }
  destruct (place_at (frontier f) (ahead f) o) as [fr ah].
  case_decide as Hin.
  - apply Hcont; [done|]. intros c' Hc'. rewrite Hmv in Hc'. cbn in Hc'. by simplify_eq.
  - eexists. split; [done|]. cbn [scan_ok]. split_and!; [unfold AHEAD in *; lia|lia|by exists sk|].
    apply closed_below_S; [intros k Hk; eapply closed_at_mono; [|by apply Hb]; set_solver|].
    intros c' Hc'. change (cfg_frontier (cfg_of f)) with (frontier f) in Hc'. fold o sk in Hc'.
    rewrite Hmv in Hc'. cbn in Hc'. simplify_eq. set_solver.
Qed.

(** ** The outer loop *)

(** A frame on the stack: reached by legal placements, everything before its
    cursor tried. *)
Record frame_ok (V : gset Config) (f : Frame) : Prop := {
  fo_reachable : reachable events (cfg_of f);
  fo_cursor : (cursor f <= 2 * (AHEAD + 1))%nat;
  fo_closed : closed_below V (cfg_of f) (cursor f);
  fo_chose : forall i, chose f = Some i -> (i < length events)%nat
}.

(** A configuration that was seen is on the stack, or was left behind with
    operations unplaced and all its successors seen, unless the window cut the
    search short. *)
Definition settled (s : Search) (c : Cfg) : Prop :=
  (exists f, f ∈ s_stack s /\ cfg_of f = c) \/
  (~ complete events c /\ (s_bounded_out s = true \/ exhausted (s_visited s) c)).

Record search_inv (s : Search) : Prop := {
  si_stack : Forall (frame_ok (s_visited s)) (s_stack s);
  si_seen : forall c, c = cfg_init \/ cfg_key c ∈ s_visited s -> settled s c;
  si_trace : Forall (fun i => (i < length events)%nat) (s_best_trace s)
}.

Lemma frame_ok_mono V W f : V ⊆ W -> frame_ok V f -> frame_ok W f.
Proof.
  intros HVW [Hr Hc Hb Hch]. split; [done..| |done].
  intros k Hk. eapply closed_at_mono; [done|]. by apply Hb.
Qed.

Lemma search_inv_init : search_inv Search_init.
Proof.
  split; cbn; [|intros c [->|Hc]; [left; eexists; split; [left|done]|set_solver]|constructor].
  apply Forall_singleton. split; cbn; [constructor|lia|intros k Hk; lia|done].
Qed.

(** Leaving an exhausted frame. *)
Lemma search_inv_pop s f below b :
  search_inv s -> s_stack s = f :: below -> ~ complete events (cfg_of f) ->
  b = true \/ exhausted (s_visited s) (cfg_of f) ->
  search_inv (mkSearch (s_visited s) (s_explored s + 1) (s_bounded_out s || b)
                (s_best_depth s) (s_best_trace s) (s_best_model s) below).
Proof.
  intros [Hst Hseen Htr] Hs Hnc Hb. rewrite Hs in Hst. apply Forall_cons in Hst as [_ Hst].
  split; cbn; [done| |done]. intros c Hc. destruct (Hseen c Hc) as [(g & Hg & <-)|[Hn Hcl]]; unfold settled; cbn.
  - rewrite Hs in Hg. apply elem_of_cons in Hg as [->|Hg]; [|left; by exists g].
    right. split; [done|]. destruct Hb as [->|Hb]; [left; apply orb_true_r|by right].
  - right. split; [done|]. destruct Hcl as [->|Hcl]; [by left|by right].
Qed.

Definition chose_bound (f : Frame) : Prop := forall i, chose f = Some i -> (i < length events)%nat.

Lemma stack_trace_bound stack :
  Forall chose_bound stack -> Forall (fun i => (i < length events)%nat) (stack_trace stack).
Proof.
  unfold stack_trace. intros Hst. apply Forall_rev, Forall_forall. intros i Hi.
  apply list_elem_of_omap in Hi as (f & Hf & Hi). rewrite Forall_forall in Hst. by apply (Hst f).
Qed.

(** Going down into a successor. *)
Lemma search_inv_push s f below cur i m fr ah dep tr md :
  search_inv s -> s_stack s = f :: below ->
  scan_ok (s_visited s) f (Advanced cur i m fr ah) ->
  Forall (fun i => (i < length events)%nat) tr ->
  search_inv (mkSearch ({[(m_value m, fr, ah)]} ∪ s_visited s) (s_explored s + 1) (s_bounded_out s) dep tr md
                (mkFrame m fr ah 0 (Some i) ::
                 mkFrame (f_model f) (frontier f) (ahead f) cur (chose f) :: below)).
Proof.
  intros [Hst Hseen _] Hs (Hcur & Hoff & (skip & Hmv) & Hcl) Htr. rewrite Hs in Hst.
  apply Forall_cons in Hst as [[Hr Hc Hb Hch] Hst].
  assert (Hsub : s_visited s ⊆ {[(m_value m, fr, ah)]} ∪ s_visited s) by set_solver.
  split; cbn; [| |done].
  - repeat apply Forall_cons_2.
    + split; cbn; [by eapply reach_move|lia|intros k Hk; lia|]. intros j [= <-].
      apply move_inv in Hmv as (e & _ & Hi & _). by apply lookup_lt_Some in Hi.
    + by split.
    + eapply Forall_impl; [exact Hst|]. intros g. by apply frame_ok_mono.
  - intros c Hin. unfold settled. cbn.
    destruct (decide (cfg_key c = (m_value m, fr, ah))) as [Hk|Hk].
    { left. eexists. split; [left|]. apply cfg_key_inj. by rewrite Hk. }
    destruct (Hseen c) as [(g & Hg & <-)|[Hn Hb']]; [set_solver| |].
    + left. rewrite Hs in Hg. apply elem_of_cons in Hg as [->|Hg].
      * eexists. split; [right; left|done].
      * exists g. split; [by do 2 right|done].
    + right. split; [done|]. destruct Hb' as [?|Hb']; [by left|right].
      by eapply exhausted_mono.
Qed.

(** What one turn of the outer loop gives. *)
Definition verdict_ok (v : Verdict) : Prop :=
  match v with
  | Linearizable => exists c, reachable events c /\ complete events c
  | NotLinearizable _ => forall c, reachable events c ->
      ~ complete events c /\
      forall i skip c', move events c i skip = Some c' -> (i - cfg_frontier c <= AHEAD)%nat
  | Inconclusive _ _ => True
  end.

Lemma search_step_ok history limits s f below :
  search_inv s -> s_stack s = f :: below ->
  exists r, search_step history events limits s f below = Some r /\
  match r with
  | inl v => verdict_ok v
  | inr s' => search_inv s' /\ s_explored s' = s_explored s + 1 /\ s_explored s' <= max_states limits
  end.
Proof.
  intros Hinv Hs. unfold search_step.
  destruct (Z.ltb_spec (max_states limits) (s_explored s + 1)) as [|Hbudget]; [by eexists|].
  pose proof (si_stack s Hinv) as Hst. rewrite Hs in Hst. apply Forall_cons in Hst as [Hf Hst].
  destruct (Nat.eqb_spec (frontier f) (length events)) as [Hdone|Hnc].
  { eexists. split; [done|]. exists (cfg_of f). split; [apply Hf|done]. }
  pose proof (wf_frontier _ _ (reachable_wf _ _ (fo_reachable _ _ Hf))) as Hle. cbn in Hle.
  destruct (lookup_lt_is_Some_2 events (frontier f)) as [e He]; [lia|]. rewrite He.
  destruct (cursor_loop_ok _ (s_visited s) f (cursor f) e He eq_refl (fo_cursor _ _ Hf) (fo_closed _ _ Hf))
    as (r & -> & Hr). destruct r as [cur i m fr ah|b].
  - eexists. split; [done|]. cbn [s_explored]. split; [|done].
    apply search_inv_push; [done..|]. destruct (_ <? fr)%nat; [|apply Hinv].
    destruct Hr as (_ & _ & (skip & Hmv) & _). apply move_inv in Hmv as (e' & _ & Hi & _).
    apply Forall_app. split; [|apply Forall_singleton; by eapply lookup_lt_Some].
    apply stack_trace_bound, Forall_cons_2; [exact (fo_chose _ _ Hf)|].
    eapply Forall_impl; [exact Hst|]. by intros g [].
  - eexists. split; [done|]. cbn [s_explored]. split; [|done].
    by apply search_inv_pop with (f := f).
Qed.

(** With the stack empty, every reachable configuration was seen. *)
Lemma search_empty_covers s c :
  search_inv s -> s_stack s = [] -> s_bounded_out s = false -> reachable events c ->
  c = cfg_init \/ cfg_key c ∈ s_visited s.
Proof.
  intros Hinv Hs Hb. induction 1 as [|c i skip c' _ IH _ Hmv]; [by left|]. right.
  destruct (si_seen s Hinv c IH) as [(f & Hf & _)|[_ [?|Hcl]]]; [|congruence|by eapply Hcl].
  rewrite Hs in Hf. by apply elem_of_nil in Hf.
Qed.

Lemma search_failed_ok history s :
  events <> [] -> search_inv s -> s_stack s = [] ->
  exists v, search_failed history events s = Some v /\ verdict_ok v.
Proof.
  intros Hne Hinv Hs. unfold search_failed. destruct (s_bounded_out s) eqn:Hb; [by eexists|].
  destruct (mapM _ _) as [lin|] eqn:Hm.
  2:{ exfalso. apply mapM_None in Hm. pose proof (si_trace s Hinv) as Ht.
      apply Exists_exists in Hm as (i & Hi & Hn). rewrite Forall_forall in Ht. specialize (Ht i Hi).
      apply lookup_ge_None in Hn. lia. }
  destruct (lookup_lt_is_Some_2 events (Nat.min (s_best_depth s) (length events - 1))) as [e ->].
  { destruct events; [done|]. cbn. lia. }
  eexists. split; [done|]. intros c Hr.
  destruct (si_seen s Hinv c) as [(f & Hf & _)|[Hn [?|Hex]]]; [by apply search_empty_covers| |congruence|].
  - rewrite Hs in Hf. by apply elem_of_nil in Hf.
  - split; [done|]. intros i skip c' Hc'. by apply (Hex i skip c').
Qed.

Lemma search_ok fuel history limits s :
  events <> [] -> search_inv s -> s_explored s <= max_states limits ->
  Z.of_nat fuel = max_states limits + 1 - s_explored s ->
  exists v, search fuel history events limits s = Some v /\ verdict_ok v.
Proof.
  intros Hne. revert s. induction fuel as [|fuel IH]; intros s Hinv H0 Hfuel; cbn [search];
    destruct (s_stack s) as [|f below] eqn:Hs; try by apply search_failed_ok.
  { lia. }
  destruct (search_step_ok history limits s f below Hinv Hs) as ([v|s'] & -> & Hr); [by eexists|].
  destruct Hr as (Hinv' & He & Hle). apply IH; [done|lia|lia].
Qed.

End Search.

(** The checker of one key always answers, and its answer is exact for the
    placements it considers. *)
Lemma check_one_key_exact h limits :
  0 <= max_states limits ->
  exists v, check_one_key h limits = Some v /\
  match v with
  | Linearizable => exists c, reachable (History_sorted h) c /\ complete (History_sorted h) c
  | NotLinearizable _ => forall c, reachable (History_sorted h) c ->
      ~ complete (History_sorted h) c /\
      forall i skip c', move (History_sorted h) c i skip = Some c' -> (i - cfg_frontier c <= AHEAD)%nat
  | Inconclusive _ _ => True
  end.
Proof.
  intros H0. unfold check_one_key.
  destruct (Nat.eqb_spec (length (History_sorted h)) 0) as [Hn|Hn].
  - eexists. split; [done|]. exists cfg_init. split; [constructor|done].
  - apply (search_ok _ (History_sorted_invoked h));
      [by intros Hnil; rewrite Hnil in Hn|apply search_inv_init, History_sorted_invoked|done|].
    cbn [s_explored Search_init]. lia.
Qed.
