(* ===== verification/LinSpec.v ===== *)
(** * What the checker's verdicts mean

    Linearizability, stated the way the source's comments define it: an instant
    inside each operation's window, in an order the register accepts, an
    operation of unknown outcome taking effect or not. The theorems relate it to
    [check]: the checker always answers, a violation it reports is one, a history
    may be checked key by key, and a pass is a proof when no operation's window
    encloses another's. Two computed histories show where it errs. *)

From Stdlib Require Import ZArith Lia.
From stdpp Require Import base tactics list list_numbers gmap sets sorting.
From S2P Require Import Prelude Codec Types Client Kv History Lin LinSearch.

Open Scope Z_scope.

(** ** Linearizability *)

(** An operation with the instant chosen for it, and whether it took effect. *)
Record Placement : Type := mkPlacement { p_event : Event; p_effect : bool; p_at : Z }.

Abbreviation p_key p := (e_key (p_event p)).

Definition place (m : Model) (p : Placement) : option Model :=
  if p_effect p then Model_step m (p_event p)
  else if is_unknown (p_event p) then Some m else None.

Fixpoint run (m : Model) (ps : list Placement) : option Model :=
  match ps with
  | [] => Some m
  | p :: ps => match place m p with Some m => run m ps | None => None end
  end.

Definition at_le (p q : Placement) : Prop := p_at p <= p_at q.
#[export] Instance at_le_dec : RelDecision at_le.
Proof. intros p q. unfold at_le. apply _. Defined.

Definition in_window (p : Placement) : Prop :=
  invoked (p_event p) <= p_at p <= returned (p_event p).

(** The instants are in order, inside the windows, and cover the history. *)
Record schedule (h : History) (ps : list Placement) : Prop := {
  sc_events : map p_event ps ≡ₚ h;
  sc_ordered : StronglySorted at_le ps;
  sc_windows : Forall in_window ps
}.

(** One register. *)
Definition linearizable (h : History) : Prop :=
  exists ps, schedule h ps /\ is_Some (run Model_new ps).

(** The whole store, a register per key. *)
Definition Store : Type := gmap Bytes Bytes.

Definition store_place (st : Store) (p : Placement) : option Store :=
  match place (mkModel (st !! p_key p)) p with
  | Some m => Some (partial_alter (fun _ => m_value m) (p_key p) st)
  | None => None
  end.

Fixpoint run_store (st : Store) (ps : list Placement) : option Store :=
  match ps with
  | [] => Some st
  | p :: ps => match store_place st p with Some st => run_store st ps | None => None end
  end.

Definition store_linearizable (h : History) : Prop :=
  exists ps, schedule h ps /\ is_Some (run_store ∅ ps).

Abbreviation on_key k := (fun p : Placement => p_key p = k).
Abbreviation key_events k h := (filter (fun e : Event => e_key e = k) h).

#[export] Instance at_le_total : Total at_le.
Proof. intros p q. unfold at_le. lia. Qed.
#[export] Instance at_le_trans : Transitive at_le.
Proof. intros p q r. unfold at_le. lia. Qed.

Lemma linearizable_perm h h' : h ≡ₚ h' -> linearizable h -> linearizable h'.
Proof. intros Hp (ps & [He Ho Hw] & Hr). exists ps. split; [split; [by rewrite He|done..]|done]. Qed.

Lemma linearizable_nil : linearizable [].
Proof. exists []. split; [split; constructor|by eexists]. Qed.

(** ** A linearization is a path of the search *)

Section Follow.
Context (events : list Event).
Hypothesis Hwindow : forall c, reachable events c ->
  forall i skip c', move events c i skip = Some c' -> (i - cfg_frontier c <= AHEAD)%nat.

Lemma follow_placements c idx ps :
  reachable events c ->
  Forall2 (fun i p => events !! i = Some (p_event p)) idx ps ->
  NoDup idx -> (forall i, i ∈ idx -> ~ placed (cfg_frontier c) c.2 i) ->
  (forall i, (i < length events)%nat -> placed (cfg_frontier c) c.2 i \/ i ∈ idx) ->
  StronglySorted at_le ps -> Forall in_window ps -> is_Some (run (cfg_model c) ps) ->
  exists c', reachable events c' /\ complete events c'.
Proof.
  intros Hr H2. revert c Hr. induction H2 as [|i p idx ps Hi H2 IH];
    intros [[m fr] ah] Hr Hnd Hnew Hall Ho Hw Hrun; cbn [fst snd] in *;
    pose proof (reachable_wf _ _ Hr) as [Hmask Hbound Hfr]; cbn [fst snd] in *.
  { exists (m, fr, ah). split; [done|]. unfold complete. cbn.
    destruct (decide (fr < length events)%nat) as [Hlt|]; [|lia].
    destruct (Hall fr Hlt) as [[?|[??]]|?%elem_of_nil]; [lia|lia|done]. }
  apply NoDup_cons in Hnd as [Hni Hnd]. apply StronglySorted_inv in Ho as [Ho Hfirst].
  apply Forall_cons in Hw as [Hwp Hw].
  assert (Hile : (fr <= i)%nat).
  { destruct (decide (i < fr)%nat); [|lia]. exfalso. apply (Hnew i); [left|by left]. }
  pose proof (lookup_lt_Some _ _ _ Hi) as Hilt.
  destruct (lookup_lt_is_Some_2 events fr) as [e0 He0]; [lia|].
  assert (Hhor : invoked (p_event p) <= returned e0).
  { destruct (Hall fr ltac:(lia)) as [[?|[??]]|Hin]; [lia|lia|]. unfold in_window in Hwp.
    apply elem_of_cons in Hin as [->|Hin]; [simplify_eq; lia|].
    apply list_elem_of_lookup in Hin as [n Hn].
    destruct (Forall2_lookup_l _ _ _ _ _ H2 Hn) as (q & Hq & Hqe). simplify_eq.
    rewrite Forall_lookup in Hfirst, Hw. specialize (Hfirst n q Hq). specialize (Hw n q Hq).
    unfold at_le, in_window in *. lia. }
  cbn [run] in Hrun. destruct (place m p) as [m'|] eqn:Hplace; [|by destruct Hrun].
  unfold place in Hplace.
  assert (Hmv : exists c', move events (m, fr, ah) i (negb (p_effect p)) = Some c' /\
    c' = (m', (place_at fr ah (i - fr)).1, (place_at fr ah (i - fr)).2)).
  { eexists. split; [|done]. eapply move_intro; [done..|apply Hnew; left|done| |].
    - destruct (p_effect p); [done|]. by destruct (is_unknown (p_event p)).
    - destruct (p_effect p); [done|]. by destruct (is_unknown (p_event p)). }
  destruct Hmv as (c' & Hmv & ->).
  pose proof (Hwindow _ Hr _ _ _ Hmv) as Hwin. cbn in Hwin.
  assert (Hplaced : forall j, placed (place_at fr ah (i - fr)).1 (place_at fr ah (i - fr)).2 j <->
    placed fr ah j \/ j = i).
  { intros j. rewrite place_at_placed by done. by replace (fr + (i - fr))%nat with i by lia. }
  eapply IH; [by eapply reach_move|done| | |done..]; cbn [fst snd].
  - intros j Hj [Hp| ->]%Hplaced; [|done]. apply (Hnew j); [by right|done].
  - intros j Hj. rewrite Hplaced. destruct (Hall j Hj) as [?|Hin]; [tauto|]. apply elem_of_cons in Hin. tauto.
Qed.

End Follow.

Lemma map_lookup_seq {A} (l : list A) : map (fun i => l !! i) (seq 0 (length l)) = map Some l.
Proof.
  apply list_eq. intros i. change (@map ?A ?B) with (@fmap list _ A B).
  rewrite !list_lookup_fmap. destruct (l !! i) as [x|] eqn:Hi.
  - by rewrite lookup_seq_lt by (by eapply lookup_lt_Some); cbn; rewrite Hi.
  - by rewrite lookup_seq_ge by (by apply lookup_ge_None).
Qed.

(** Numbering the events of a permutation. *)
Lemma permutation_indices {A} (l k : list A) :
  k ≡ₚ l -> exists idx, idx ≡ₚ seq 0 (length l) /\ Forall2 (fun i x => l !! i = Some x) idx k.
Proof.
  intros Hp.
  destruct (Permutation_map_inv (l1 := map Some k) (fun i => l !! i) (seq 0 (length l))) as (idx & He & Hi).
  { rewrite map_lookup_seq. by apply Permutation_map. }
  exists idx. split; [done|]. clear -He. revert k He.
  induction idx as [|i idx IH]; intros [|x k] He; try done. injection He as Hx He. constructor; auto.
Qed.

Lemma Forall2_map_r {A B C} (R : A -> C -> Prop) (f : B -> C) l k :
  Forall2 R l (map f k) -> Forall2 (fun x y => R x (f y)) l k.
Proof. revert k. induction l; intros [|y k] H; inversion H; subst; constructor; auto. Qed.

Lemma linearizable_reaches events :
  (forall c, reachable events c ->
   forall i skip c', move events c i skip = Some c' -> (i - cfg_frontier c <= AHEAD)%nat) ->
  linearizable events -> exists c, reachable events c /\ complete events c.
Proof.
  intros Hwin (ps & [He Ho Hw] & Hrun).
  destruct (permutation_indices events (map p_event ps) He) as (idx & Hidx & H2%Forall2_map_r).
  eapply (follow_placements events Hwin cfg_init idx ps); [constructor|done| | | |done..].
  - rewrite Hidx. apply NoDup_seq.
  - intros i _ [?|[_ Hb]]; cbn in *; [lia|]. by rewrite Z.bits_0 in Hb.
  - intros i Hi. right. rewrite Hidx. apply elem_of_seq. lia.
Qed.

Lemma check_one_key_no_false_alarm h limits v :
  0 <= max_states limits -> linearizable h ->
  check_one_key h limits = Some v -> is_violation v = false.
Proof.
  intros H0 Hl Hc. destruct (check_one_key_exact h limits H0) as (v' & Hc' & Hv). simplify_eq.
  destruct v as [|viol|]; [done| |done]. exfalso.
  destruct (linearizable_reaches (History_sorted h)) as (c & Hr & Hcomp).
  - intros c Hr. by apply Hv.
  - eapply linearizable_perm; [|exact Hl]. symmetry. apply History_sorted_perm.
  - by apply (Hv c).
Qed.

(** ** Locality: a history may be checked key by key *)

Lemma partial_alter_lookup_key (st : Store) k (v : Value) k' :
  partial_alter (fun _ => v) k st !! k' = if decide (k = k') then v else st !! k'.
Proof. case_decide as Hk; [subst; apply lookup_partial_alter_eq|by apply lookup_partial_alter_ne]. Qed.

(** The store accepts an order exactly when each register accepts its part. *)
Lemma run_store_registers ps (st : Store) :
  is_Some (run_store st ps) <->
  forall k, is_Some (run (mkModel (st !! k)) (filter (on_key k) ps)).
Proof.
  revert st. induction ps as [|p ps IH]; intros st; [split; [by eexists|by eexists]|].
  cbn [run_store]. unfold store_place.
  destruct (place (mkModel (st !! p_key p)) p) as [[v]|] eqn:Hp.
  - rewrite IH. apply forall_proper. intros k. cbn [m_value]. rewrite partial_alter_lookup_key, filter_cons.
    destruct (decide (p_key p = k)) as [<-|]; [|done]. cbn [run]. by rewrite Hp.
  - split; [by intros [? ?]|]. intros H. specialize (H (p_key p)).
    rewrite filter_cons, decide_True in H by done. cbn [run] in H. by rewrite Hp in H.
Qed.

Lemma filter_map_event k ps : map p_event (filter (on_key k) ps) = key_events k (map p_event ps).
Proof. induction ps as [|p ps IH]; [done|]. rewrite filter_cons. cbn [map]. rewrite filter_cons.
  case_decide; cbn [map]; congruence.
Qed.

Lemma StronglySorted_filter {A} (R : A -> A -> Prop) (P : A -> Prop) `{!forall x, Decision (P x)} l :
  StronglySorted R l -> StronglySorted R (filter P l).
Proof.
  induction 1 as [|x l Hs IH Hx]; [constructor|]. rewrite filter_cons. case_decide; [|done].
  constructor; [done|]. apply Forall_forall. intros y [_ Hy]%list_elem_of_filter.
  rewrite Forall_forall in Hx. by apply Hx.
Qed.

Lemma schedule_key h ps k : schedule h ps -> schedule (key_events k h) (filter (on_key k) ps).
Proof.
  intros [He Ho Hw]. split.
  - by rewrite filter_map_event, He.
  - by apply StronglySorted_filter.
  - rewrite Forall_forall in Hw |- *. intros p [_ Hp]%list_elem_of_filter. by apply Hw.
Qed.

(** Merging two schedules keeps each part as it was. *)
Section Merge.
Context {A : Type} (R : A -> A -> Prop) `{!RelDecision R} (P : A -> Prop) `{!forall x, Decision (P x)}.

Lemma filter_list_merge_l l1 l2 :
  Forall (fun x => ~ P x) l2 -> filter P (list_merge R l1 l2) = filter P l1.
Proof.
  revert l2. induction l1 as [|x l1 IH1]; intros l2 H2.
  - destruct l2; cbn [list_merge]; by apply filter_none.
  - induction H2 as [|y l2 Hy H2 IH2]; [done|]. rewrite list_merge_cons.
    destruct (decide (R x y)); rewrite !filter_cons.
    + rewrite IH1; [done|by constructor].
    + rewrite (decide_False (P := P y)) by done. rewrite IH2. by rewrite filter_cons.
Qed.

Lemma filter_list_merge_r l1 l2 :
  Forall (fun x => ~ P x) l1 -> filter P (list_merge R l1 l2) = filter P l2.
Proof.
  intros H1. revert l2. induction H1 as [|x l1 Hx H1 IH1]; intros l2; [by destruct l2|].
  induction l2 as [|y l2 IH2]; [apply filter_none; by constructor|]. rewrite list_merge_cons.
  destruct (decide (R x y)); rewrite !filter_cons.
  - rewrite (decide_False (P := P x)) by done. rewrite IH1. by rewrite filter_cons.
  - by rewrite IH2.
Qed.
End Merge.

Lemma elem_of_map {A B} (f : A -> B) x l : x ∈ l -> f x ∈ map f l.
Proof. apply (list_elem_of_fmap_2 f). Qed.

(** The part of a history on some of its keys. *)
Abbreviation keys_events ks h := (filter (fun e : Event => e_key e ∈ ks) h).

Lemma keys_events_cons k ks h :
  k ∉ ks -> keys_events (k :: ks) h ≡ₚ key_events k h ++ keys_events ks h.
Proof.
  intros Hk. induction h as [|e h IH]; [done|]. rewrite !filter_cons.
  destruct (decide (e_key e = k)) as [->|Hne].
  - rewrite decide_True by left. rewrite (decide_False (P := k ∈ ks)) by done. cbn. by constructor.
  - destruct (decide (e_key e ∈ ks)).
    + rewrite decide_True by by right. rewrite IH. by rewrite Permutation_middle.
    + rewrite decide_False by (rewrite elem_of_cons; tauto). done.
Qed.

Lemma merge_keys h ks :
  NoDup ks -> (forall k, k ∈ ks -> linearizable (key_events k h)) ->
  exists ps, schedule (keys_events ks h) ps /\
    forall k, k ∈ ks -> is_Some (run Model_new (filter (on_key k) ps)).
Proof.
  induction 1 as [|k ks Hk Hnd IH]; intros Hlin.
  { exists []. split; [|by intros k ?%elem_of_nil]. rewrite filter_none; [split; constructor|].
    apply Forall_forall. intros e _ ?%elem_of_nil. done. }
  destruct IH as (ps2 & [He2 Ho2 Hw2] & Hr2); [intros; apply Hlin; by right|].
  destruct (Hlin k) as (ps1 & [He1 Ho1 Hw1] & Hr1); [left|].
  assert (H1 : Forall (fun p => p_key p = k) ps1).
  { apply Forall_forall. intros p Hp. apply (elem_of_map p_event) in Hp.
    rewrite He1 in Hp. by apply list_elem_of_filter in Hp as [? _]. }
  assert (H2 : Forall (fun p => p_key p ∈ ks) ps2).
  { apply Forall_forall. intros p Hp. apply (elem_of_map p_event) in Hp.
    rewrite He2 in Hp. by apply list_elem_of_filter in Hp as [? _]. }
  exists (list_merge at_le ps1 ps2). split; [split|].
  - rewrite keys_events_cons by done. rewrite merge_Permutation, map_app. by rewrite He1, He2.
  - apply (Sorted_StronglySorted at_le), (Sorted_list_merge at_le); by apply StronglySorted_Sorted.
  - rewrite merge_Permutation. by apply Forall_app.
  - intros k' Hk'. destruct (decide (k' = k)) as [->|Hne].
    + rewrite filter_list_merge_l, filter_all; [done..|].
      eapply Forall_impl; [exact H2|]. intros p Hp Hkp. cbn beta in *. by rewrite Hkp in Hp.
    + rewrite filter_list_merge_r; [apply Hr2; apply elem_of_cons in Hk'; tauto|].
      eapply Forall_impl; [exact H1|]. intros p Hp Hkp. cbn beta in *. congruence.
Qed.

Lemma store_linearizable_by_key h :
  store_linearizable h <-> forall k, linearizable (key_events k h).
Proof.
  split.
  - intros (ps & Hs & Hr) k. exists (filter (on_key k) ps). split; [by apply schedule_key|].
    rewrite run_store_registers in Hr. apply Hr.
  - intros Hlin. destruct (merge_keys h (remove_dups (map e_key h))) as (ps & Hs & Hr);
      [apply NoDup_remove_dups|done|].
    rewrite filter_all in Hs; [|apply Forall_forall; intros e He; apply elem_of_remove_dups;
      by apply elem_of_map].
    exists ps. split; [done|]. apply run_store_registers. intros k.
    replace (mkModel (∅ !! k)) with Model_new by (unfold Model_new; f_equal; symmetry; apply lookup_empty).
    destruct (decide (k ∈ remove_dups (map e_key h))) as [Hk|Hk]; [by apply Hr|].
    rewrite filter_none; [by eexists|]. apply Forall_forall. intros p Hp <-. apply Hk, elem_of_remove_dups.
    destruct Hs as [He _ _]. rewrite <- He, map_map. by apply (elem_of_map (fun q => p_key q)).
Qed.

(** Locality, as the comment on [by_key] states it: a history of the whole
    store is linearizable exactly when each of the sub-histories [by_key] splits
    it into is. *)
Theorem linearizability_is_local (h : History) :
  store_linearizable h <-> Forall (fun p => linearizable p.2) (History_by_key h).
Proof.
  rewrite store_linearizable_by_key, Forall_forall. split.
  - intros Hl [k sub] [_ ->]%History_by_key_elem. cbn [snd].
    eapply linearizable_perm; [symmetry; apply History_sorted_perm|apply Hl].
  - intros Hl k. destruct (decide (key_events k h = [])) as [Hnil|Hne]; [rewrite Hnil; apply linearizable_nil|].
    eapply linearizable_perm; [apply History_sorted_perm|].
    apply (Hl (k, History_sorted (key_events k h))). by apply History_by_key_elem.
Qed.

(** ** The verdict on a whole history *)

Lemma check_keys_total subs limits :
  0 <= max_states limits -> exists v, check_keys subs limits = Some v.
Proof.
  intros H0. induction subs as [|[k sub] subs IH]; cbn [check_keys]; [by eexists|].
  destruct (check_one_key_exact sub limits H0) as (v & -> & _). destruct v; [done|by eexists..].
Qed.

(** The checker always answers: for every history and budget the search ends,
    within its budget, without an index out of range, in one of the three
    verdicts. *)
Theorem check_always_answers (h : History) (limits : Limits) :
  0 <= max_states limits -> exists v, check h limits = Some v.
Proof. apply check_keys_total. Qed.

Lemma check_keys_violation subs limits v :
  check_keys subs limits = Some v -> is_violation v = true ->
  exists k sub, (k, sub) ∈ subs /\ check_one_key sub limits = Some v.
Proof.
  induction subs as [|[k sub] subs IH]; cbn [check_keys]; [by intros [= <-]|]. intros Hc Hv.
  destruct (check_one_key sub limits) as [[| |]|] eqn:Hk; try done.
  - destruct (IH Hc Hv) as (k' & sub' & Hin & ?). exists k', sub'. split; [by right|done].
  - exists k, sub. split; [left|congruence].
  - by injection Hc as <-.
Qed.

Lemma check_keys_linearizable subs limits :
  check_keys subs limits = Some Linearizable ->
  forall k sub, (k, sub) ∈ subs -> check_one_key sub limits = Some Linearizable.
Proof.
  induction subs as [|[k sub] subs IH]; cbn [check_keys]; intros Hc k' sub'.
  - by intros ?%elem_of_nil.
  - destruct (check_one_key sub limits) as [[| |]|] eqn:Hk; try done.
    intros [[= -> ->]|Hin]%elem_of_cons; [done|by eapply IH].
Qed.

(** C8: No false alarms: a history of the store that is linearizable, each
    operation of unknown outcome taking effect before its client gave up or never,
    is not reported as a violation, whatever the budget and however wide the
    concurrency. *)
Theorem reported_violations_are_real (h : History) (limits : Limits) (v : Verdict) :
  0 <= max_states limits -> store_linearizable h -> check h limits = Some v -> is_violation v = false.
Proof.
  intros H0 Hl Hc. destruct (is_violation v) eqn:Hv; [|done].
  destruct (check_keys_violation _ _ _ Hc Hv) as (k & sub & Hin & Hk).
  apply History_by_key_elem in Hin as [_ ->].
  rewrite <- Hv. eapply check_one_key_no_false_alarm; [exact H0| |exact Hk].
  eapply linearizable_perm; [symmetry; apply History_sorted_perm|]. by apply store_linearizable_by_key.
Qed.

(** ** When a pass is a proof *)

(** No operation's window lies strictly inside that of another on its key. *)
Definition unnested (h : History) : Prop :=
  Forall (fun a => Forall (fun b => e_key a = e_key b -> invoked a < invoked b -> returned a <= returned b) h) h.

Section Unnested.
Context (events : list Event).
Hypothesis Hret : forall i j a b,
  events !! i = Some a -> events !! j = Some b -> (i <= j)%nat -> returned a <= returned b.
Hypothesis Hwin : windows_ordered events.

(** The order in which a configuration was reached, with an instant for each
    placement: the latest invocation so far. *)
Record trail (c : Cfg) (idx : list nat) (ps : list Placement) (now : Z) : Prop := {
  tr_events : Forall2 (fun i p => events !! i = Some (p_event p)) idx ps;
  tr_NoDup : NoDup idx;
  tr_placed : forall i, placed (cfg_frontier c) c.2 i <-> i ∈ idx;
  tr_run : run Model_new ps = Some (cfg_model c);
  tr_ordered : StronglySorted at_le ps;
  tr_windows : Forall in_window ps;
  tr_past : Forall (fun p => p_at p <= now) ps;
  tr_open : forall i e, events !! i = Some e -> ~ placed (cfg_frontier c) c.2 i -> now <= returned e
}.

Lemma run_snoc m ps p :
  run m (ps ++ [p]) = match run m ps with Some m => place m p | None => None end.
Proof.
  revert m. induction ps as [|q ps IH]; intros m; cbn [run app].
  - by destruct (place m p).
  - destruct (place m q); [apply IH|done].
Qed.

Lemma StronglySorted_snoc {A} (R : A -> A -> Prop) l x :
  StronglySorted R l -> Forall (fun y => R y x) l -> StronglySorted R (l ++ [x]).
Proof.
  induction 1 as [|y l Hs IH Hy]; intros Hx; cbn; [by repeat constructor|].
  apply Forall_cons in Hx as [Hyx Hx]. constructor; [by apply IH|]. apply Forall_app. split; [done|by constructor].
Qed.

Lemma trail_move c i skip c' idx ps now :
  reachable events c -> (i - cfg_frontier c <= AHEAD)%nat -> move events c i skip = Some c' ->
  trail c idx ps now -> exists e, trail c' (idx ++ [i]) (ps ++ [mkPlacement e (negb skip) (Z.max now (invoked e))])
                                    (Z.max now (invoked e)).
Proof.
  intros Hr Hoff Hmv [He Hnd Hpl Hrun Ho Hw Hpast Hopen].
  pose proof (wf_mask _ _ (reachable_wf _ _ Hr)) as Hmask.
  destruct (move_inv _ _ _ _ _ Hmv) as (e & e0 & Hi & He0 & Hle & Hnew & Hhor & Hunk & Hstep & Hadv).
  assert (Hpl' : forall j, placed (cfg_frontier c') c'.2 j <-> placed (cfg_frontier c) c.2 j \/ j = i).
  { intros j. pose proof (place_at_placed (cfg_frontier c) c.2 _ j Hmask Hoff) as Ha.
    rewrite <- Hadv in Ha. cbn in Ha. rewrite Ha. by replace (cfg_frontier c + (i - cfg_frontier c))%nat with i by lia. }
  assert (Hei : invoked e <= returned e).
  { unfold windows_ordered in Hwin. rewrite Forall_lookup in Hwin. by eapply Hwin. }
  assert (Hnow : now <= returned e) by by eapply Hopen.
  exists e. split.
  - apply Forall2_app; [done|]. by repeat constructor.
  - apply NoDup_app. split_and!; [done| |apply NoDup_singleton].
    intros j Hj ->%list_elem_of_singleton. apply Hnew. by apply Hpl.
  - intros j. by rewrite Hpl', Hpl, elem_of_app, list_elem_of_singleton.
  - rewrite run_snoc, Hrun. unfold place. cbn [p_effect p_event]. destruct skip; cbn [negb]; [by rewrite Hunk|done].
  - apply StronglySorted_snoc; [done|]. eapply Forall_impl; [exact Hpast|].
    intros p. unfold at_le. cbn. lia.
  - apply Forall_app. split; [done|]. apply Forall_singleton. unfold in_window. cbn. lia.
  - apply Forall_app. split; [|apply Forall_singleton; cbn; lia].
    eapply Forall_impl; [exact Hpast|]. intros p. cbn. lia.
  - intros j ej Hj Hnp. rewrite Hpl' in Hnp.
    assert (now <= returned ej) by (eapply Hopen; [exact Hj|tauto]).
    assert (returned e0 <= returned ej); [|lia]. eapply (Hret (cfg_frontier c) j); [done..|].
    destruct (decide (j < cfg_frontier c)%nat) as [?|]; [|lia]. exfalso. apply Hnp. left. by left.
Qed.

Lemma trail_init now :
  (forall i e, events !! i = Some e -> now <= returned e) -> trail cfg_init [] [] now.
Proof.
  intros Hnow. split; cbn; [constructor|constructor| |done|constructor|constructor|constructor|].
  - intros i. split; [intros [?|[_ Hb]]; [lia|by rewrite Z.bits_0 in Hb]|by intros ?%elem_of_nil].
  - intros i e Hi _. by eapply Hnow.
Qed.

Lemma reachable_trail c : reachable events c -> exists idx ps now, trail c idx ps now.
Proof.
  induction 1 as [|c i skip c' Hr (idx & ps & now & Ht) Hoff Hmv].
  - destruct (events !! 0%nat) as [e0|] eqn:H0.
    + exists [], [], (returned e0). apply trail_init. intros i e Hi. eapply (Hret 0 i); [done|done|lia].
    + exists [], [], 0. apply trail_init. intros i e Hi. apply lookup_ge_None in H0.
      apply lookup_lt_Some in Hi. lia.
  - destruct (trail_move _ _ _ _ _ _ _ Hr Hoff Hmv Ht) as [e ?]. by do 3 eexists.
Qed.

Lemma complete_linearizable c : reachable events c -> complete events c -> linearizable events.
Proof.
  intros Hr Hc. destruct (reachable_trail c Hr) as (idx & ps & now & [He Hnd Hpl Hrun Ho Hw _ _]).
  exists ps. split; [split; [|done..]|by eexists].
  assert (Hidx : idx ≡ₚ seq 0 (length events)).
  { apply NoDup_Permutation; [done|apply NoDup_seq|]. intros i. rewrite <- Hpl, elem_of_seq. split.
    - intros Hp. apply (wf_bound _ _ (reachable_wf _ _ Hr)) in Hp. lia.
    - intros [_ Hlt]. left. unfold complete in Hc. lia. }
  assert (Hm : map Some (map p_event ps) = map (fun i => events !! i) idx).
  { clear -He. induction He as [|i p idx ps Hi _ IH]; [done|]. cbn. by rewrite Hi, IH. }
  assert (map Some (map p_event ps) ≡ₚ map Some events) as Hp.
  { by rewrite Hm, Hidx, map_lookup_seq. }
  apply (Permutation_map_inv (l1 := map Some (map p_event ps)) Some) in Hp as (l3 & He3 & ->).
  by apply (inj (map Some)) in He3 as ->.
Qed.
End Unnested.

Lemma unnested_sorted h k sub :
  unnested h -> sub ≡ₚ key_events k h -> forall i j a b,
  History_sorted sub !! i = Some a -> History_sorted sub !! j = Some b ->
  (i <= j)%nat -> returned a <= returned b.
Proof.
  intros Hu Hsub i j a b Ha Hb Hle. destruct (decide (i = j)) as [->|]; [simplify_eq; lia|].
  pose proof (StronglySorted_lookup_le _ _ i j a b (History_sorted_sorted _) Ha Hb ltac:(lia)) as HR.
  apply list_elem_of_lookup_2 in Ha, Hb.
  rewrite History_sorted_perm, Hsub in Ha, Hb. apply list_elem_of_filter in Ha as [Hka Ha], Hb as [Hkb Hb].
  unfold unnested in Hu. rewrite Forall_forall in Hu. specialize (Hu a Ha).
  rewrite Forall_forall in Hu. specialize (Hu b Hb). unfold event_le in HR.
  destruct HR as [HR|[_ [HR|[HR _]]]]; [|lia|lia]. apply Hu; [congruence|done].
Qed.

(** C28: A pass is a proof of linearizability when no operation's window lies
    strictly inside the window of another operation on the same key: the search
    compares only with the return of the first operation not yet placed, which is
    then the earliest return of all. *)
Theorem unnested_pass_is_proof (h : History) (limits : Limits) :
  0 <= max_states limits -> windows_ordered h -> unnested h ->
  check h limits = Some Linearizable -> store_linearizable h.
Proof.
  intros H0 Hw Hu Hc. apply store_linearizable_by_key. intros k.
  destruct (decide (key_events k h = [])) as [Hnil|Hne].
  { rewrite Hnil. apply linearizable_nil. }
  pose proof (check_keys_linearizable _ _ Hc k _ (proj2 (History_by_key_elem h k _) (conj Hne eq_refl))) as Hk.
  destruct (check_one_key_exact (History_sorted (key_events k h)) limits H0) as (v & Hv & Hexact). rewrite Hk in Hv. injection Hv as <-.
  destruct Hexact as (c & Hr & Hcomp).
  assert (Hss : History_sorted (History_sorted (key_events k h)) ≡ₚ key_events k h).
  { by rewrite !History_sorted_perm. }
  eapply linearizable_perm; [exact Hss|].
  eapply complete_linearizable; [| |exact Hr|exact Hcomp].
  - apply (unnested_sorted h k); [done|apply History_sorted_perm].
  - unfold windows_ordered in *. rewrite Hss. apply Forall_forall. intros e [_ He]%list_elem_of_filter.
    rewrite Forall_forall in Hw. by apply Hw.
Qed.

(** ** Where the verdicts err *)

Abbreviation k0 := [107].

(** A long write, a short one inside it, and a read of the initial value after
    the short write returned. *)
Definition nested_history : History :=
  [ mkEvent 1 (Op_Write k0 [1]) Ret_Ok 0 1000;
    mkEvent 2 (Op_Write k0 [2]) Ret_Ok 10 20;
    mkEvent 3 (Op_Read k0) (Ret_Value None) 30 40 ].

(** All the orders of a history's operations, with the choices of effect left
    out: enough to refute it by cases. *)
Lemma schedule_orders h ps : schedule h ps -> map p_event ps ∈ permutations h.
Proof. intros [He _ _]. apply permutations_Permutation. by symmetry. Qed.

(** Refutes a schedule of a concrete three-operation history: the order breaks a
    window, or the store rejects it. *)
Ltac refute_schedule Hs Hr :=
  let Hp := fresh "Hp" in let Ho := fresh "Ho" in let Hw := fresh "Hw" in
  pose proof (schedule_orders _ _ Hs) as Hp; destruct Hs as [_ Ho Hw];
  match type of Hp with _ ∈ ?l => let l' := eval vm_compute in l in change l with l' in Hp end;
  rewrite !elem_of_cons, elem_of_nil in Hp;
  destruct_or! Hp; try done;
  match type of Hp with map p_event ?ps = _ =>
    destruct ps as [|[? ? ?] [|[? ? ?] [|[? ? ?] [|]]]]; try done
  end;
  cbn [map p_event] in Hp; injection Hp as -> -> ->;
  repeat match goal with
  | H : StronglySorted _ (_ :: _) |- _ => apply StronglySorted_inv in H as [? ?]
  | H : Forall _ (_ :: _) |- _ => apply Forall_cons in H as [? ?]
  end; unfold at_le, in_window in *; cbn [p_at p_event invoked returned] in *;
  first [ lia
        | repeat match goal with b : bool |- _ => destruct b end; by vm_compute in Hr; destruct Hr ].

Lemma nested_history_not_linearizable : ~ store_linearizable nested_history.
Proof. intros (ps & Hs & Hr). refute_schedule Hs Hr. Qed.

(** The search misses a stale read. It compares an operation's invocation
    only with the return of the first operation not yet placed, so while a long
    write is open, a read may be placed before a write that returned before the
    read was invoked: this history, which no order of instants explains, passes. *)
Theorem a_stale_read_can_pass :
  check nested_history Limits_default = Some Linearizable /\ ~ store_linearizable nested_history.
Proof. split; [vm_compute; reflexivity|apply nested_history_not_linearizable]. Qed.

(** A write whose client gave up and which takes effect afterwards. *)
Definition late_history : History :=
  [ mkEvent 1 (Op_Write k0 [1]) Ret_Unknown 0 10;
    mkEvent 2 (Op_Read k0) (Ret_Value None) 20 30;
    mkEvent 3 (Op_Read k0) (Ret_Value (Some [1])) 40 50 ].

(** Linearizability with the window of an operation of unknown outcome left open:
    what the comment on [Ret::Unknown] asks of a checker. *)
Definition in_open_window (p : Placement) : Prop :=
  invoked (p_event p) <= p_at p /\
  (is_unknown (p_event p) = true \/ p_at p <= returned (p_event p)).

Definition open_linearizable (h : History) : Prop :=
  exists ps, (map p_event ps ≡ₚ h /\ StronglySorted at_le ps /\ Forall in_open_window ps) /\
    is_Some (run_store ∅ ps).

(** An operation of unknown outcome is not placed anywhere: the checker closes
    its window when the client gives up. A write that takes effect later makes a
    correct store fail the check. *)
Theorem late_unknown_write_is_flagged :
  open_linearizable late_history /\
  exists v, check late_history Limits_default = Some v /\ is_violation v = true.
Proof.
  split.
  - exists [ mkPlacement (mkEvent 2 (Op_Read k0) (Ret_Value None) 20 30) true 25;
             mkPlacement (mkEvent 1 (Op_Write k0 [1]) Ret_Unknown 0 10) true 35;
             mkPlacement (mkEvent 3 (Op_Read k0) (Ret_Value (Some [1])) 40 50) true 45 ].
    split; [split_and!|by eexists].
    + apply Permutation_swap.
    + repeat constructor; cbn; unfold at_le; cbn; lia.
    + repeat constructor; cbn; try lia; by left.
  - eexists. split; [vm_compute; reflexivity|done].
Qed.

(** Every client operation waits its turn: a history on which a pass is a proof. *)
Definition turns_history : History :=
  [ mkEvent 1 (Op_Write k0 [1]) Ret_Ok 0 20;
    mkEvent 2 (Op_Write k0 [2]) Ret_Unknown 10 30;
    mkEvent 3 (Op_Read k0) (Ret_Value (Some [2])) 25 40;
    mkEvent 1 (Op_Delete [108]) Ret_Ok 0 50 ].

Lemma check_always_answers_witness : exists v, check turns_history (mkLimits 0) = Some v.
Proof. apply (check_always_answers turns_history (mkLimits 0)). by_decide. Defined.

Lemma unnested_pass_is_proof_witness : store_linearizable turns_history.
Proof.
  apply (unnested_pass_is_proof turns_history (mkLimits 100)); [by_decide..|vm_compute; reflexivity].
Defined.

Lemma turns_history_linearizable : store_linearizable turns_history.
Proof.
  exists [ mkPlacement (mkEvent 1 (Op_Write k0 [1]) Ret_Ok 0 20) true 5;
           mkPlacement (mkEvent 1 (Op_Delete [108]) Ret_Ok 0 50) true 6;
           mkPlacement (mkEvent 2 (Op_Write k0 [2]) Ret_Unknown 10 30) true 15;
           mkPlacement (mkEvent 3 (Op_Read k0) (Ret_Value (Some [2])) 25 40) true 30 ].
  split; [split|by eexists].
  - cbn. constructor. transitivity ([mkEvent 2 (Op_Write k0 [2]) Ret_Unknown 10 30; mkEvent 1 (Op_Delete [108]) Ret_Ok 0 50;
       mkEvent 3 (Op_Read k0) (Ret_Value (Some [2])) 25 40]); repeat constructor.
  - repeat constructor; cbn; unfold at_le; cbn; lia.
  - repeat constructor; cbn; lia.
Qed.

Lemma reported_violations_are_real_witness :
  exists v, check turns_history (mkLimits 100) = Some v /\ is_violation v = false.
Proof.
  destruct (check turns_history (mkLimits 100)) as [v|] eqn:Hc; [|vm_compute in Hc; discriminate].
  exists v. split; [reflexivity|].
  apply (reported_violations_are_real turns_history (mkLimits 100) v); [cbn; lia| |exact Hc].
  apply turns_history_linearizable.
Defined.
