(* ===== verification/Trace.v ===== *)
(** * The event trace: [crates/chrono-sim/src/trace.rs]

    Every scheduling decision, packet and disk operation of a simulated run, as an
    [Event]; the canonical bytes of each, folded into an FNV-1a hash by [feed]; and
    the [Recorder], which keeps the hash, its checkpoints and as many entries as
    its mode asks for. The constructors of the source's [Event] have the prefix
    [Ev] here. The text of a note is its UTF-8 bytes. Printing is in [Text]. *)

From Stdlib Require Import ZArith Lia.
From stdpp Require Import base tactics list list_numbers.
From S2P Require Import Prelude Codec Rng Time.

Open Scope Z_scope.

(** ** Events *)

Inductive DropReason : Type := Partitioned | RandomLoss | NodeDown | NodeGone.

Definition DropReason_tag (r : DropReason) : Z :=
  match r with Partitioned => 0 | RandomLoss => 1 | NodeDown => 2 | NodeGone => 3 end.

Inductive Event : Type :=
| EvBoot (node : Z)
| EvSpawn (node task : Z)
| EvPoll (node task : Z)
| EvTaskDone (node task : Z)
| EvSleep (node task : Z) (until : Nanos)
| EvSend (from to msg len : Z)
| EvDeliver (from to msg len : Z)
| EvDropped (from to msg : Z) (why : DropReason)
| EvDuplicated (from to msg : Z)
| EvCorrupted (from to msg byte : Z)
| EvDiskWrite (node file offset len : Z)
| EvDiskRead (node file offset len : Z)
| EvFsync (node file pending : Z)
| EvTruncate (node file to : Z)
| EvTornWrite (node file offset kept total : Z)
| EvLostWrite (node file offset len : Z)
| EvEnospc (node file : Z)
| EvCrash (node : Z)
| EvRestart (node : Z)
| EvPartition (a b : Z) (one_way : bool)
| EvHeal (a b : Z)
| EvPause (node : Z) (until : Nanos)
| EvResume (node : Z)
| EvClockStep (node delta : Z)
| EvNote (node : Z) (text : list Z).

#[export] Instance DropReason_eq_dec : EqDecision DropReason.
Proof. solve_decision. Defined.
#[export] Instance Event_eq_dec : EqDecision Event.
Proof. solve_decision. Defined.

Definition Event_tag (e : Event) : Z :=
  match e with
  | EvBoot _ => 1
  | EvSpawn _ _ => 2
  | EvPoll _ _ => 3
  | EvTaskDone _ _ => 4
  | EvSleep _ _ _ => 5
  | EvSend _ _ _ _ => 6
  | EvDeliver _ _ _ _ => 7
  | EvDropped _ _ _ _ => 8
  | EvDuplicated _ _ _ => 9
  | EvCorrupted _ _ _ _ => 10
  | EvDiskWrite _ _ _ _ => 11
  | EvDiskRead _ _ _ _ => 12
  | EvFsync _ _ _ => 13
  | EvTruncate _ _ _ => 14
  | EvTornWrite _ _ _ _ _ => 15
  | EvLostWrite _ _ _ _ => 16
  | EvEnospc _ _ => 17
  | EvCrash _ => 18
  | EvRestart _ => 19
  | EvPartition _ _ _ => 20
  | EvHeal _ _ => 21
  | EvPause _ _ => 22
  | EvResume _ => 23
  | EvClockStep _ _ => 24
  | EvNote _ _ => 25
  end.

(** [Event::node]: the node an event is about; the source returns an [Option]
    that is always [Some]. *)
Definition Event_node (e : Event) : option Z :=
  match e with
  | EvBoot node | EvSpawn node _ | EvPoll node _ | EvTaskDone node _ | EvSleep node _ _
  | EvDiskWrite node _ _ _ | EvDiskRead node _ _ _ | EvFsync node _ _ | EvTruncate node _ _
  | EvTornWrite node _ _ _ _ | EvLostWrite node _ _ _ | EvEnospc node _ | EvCrash node
  | EvRestart node | EvPause node _ | EvResume node | EvClockStep node _ | EvNote node _ => Some node
  | EvSend from _ _ _ | EvDeliver from _ _ _ | EvDropped from _ _ _ | EvDuplicated from _ _
  | EvCorrupted from _ _ _ => Some from
  | EvPartition a _ _ | EvHeal a _ => Some a
  end.

(** ** FNV-1a *)

Abbreviation Fnv := Z.

Definition Fnv_new : Fnv := 0xcbf29ce484222325.

Definition Fnv_byte (b : Z) (h : Fnv) : Fnv := Z.lxor h b *64 0x100000001b3.

Definition Fnv_u64 (v : Z) (h : Fnv) : Fnv :=
  fold_left (fun h i => Fnv_byte (Z.shiftr v (i * 8) mod U8) h) (seqZ 0 8) h.

Definition Fnv_bytes (b : list Z) (h : Fnv) : Fnv :=
  fold_left (fun h x => Fnv_byte x h) b (Fnv_u64 (Z.of_nat (length b)) h).

(** [feed], in the order of the source: the tag, then each field as a [u64],
    except the two that are one byte. [delta as u64] is two's complement. *)
Definition feed (e : Event) (h : Fnv) : Fnv :=
  let h := Fnv_byte (Event_tag e) h in
  match e with
  | EvBoot node | EvCrash node | EvRestart node | EvResume node => h |> Fnv_u64 node
  | EvSpawn node task | EvPoll node task | EvTaskDone node task => h |> Fnv_u64 node |> Fnv_u64 task
  | EvSleep node task until => h |> Fnv_u64 node |> Fnv_u64 task |> Fnv_u64 until
  | EvSend from to msg len | EvDeliver from to msg len =>
      h |> Fnv_u64 from |> Fnv_u64 to |> Fnv_u64 msg |> Fnv_u64 len
  | EvDropped from to msg why =>
      h |> Fnv_u64 from |> Fnv_u64 to |> Fnv_u64 msg |> Fnv_byte (DropReason_tag why)
  | EvDuplicated from to msg => h |> Fnv_u64 from |> Fnv_u64 to |> Fnv_u64 msg
  | EvCorrupted from to msg byte => h |> Fnv_u64 from |> Fnv_u64 to |> Fnv_u64 msg |> Fnv_u64 byte
  | EvDiskWrite node file offset len | EvDiskRead node file offset len =>
      h |> Fnv_u64 node |> Fnv_u64 file |> Fnv_u64 offset |> Fnv_u64 len
  | EvFsync node file pending => h |> Fnv_u64 node |> Fnv_u64 file |> Fnv_u64 pending
  | EvTruncate node file to => h |> Fnv_u64 node |> Fnv_u64 file |> Fnv_u64 to
  | EvTornWrite node file offset kept total =>
      h |> Fnv_u64 node |> Fnv_u64 file |> Fnv_u64 offset |> Fnv_u64 kept |> Fnv_u64 total
  | EvLostWrite node file offset len =>
      h |> Fnv_u64 node |> Fnv_u64 file |> Fnv_u64 offset |> Fnv_u64 len
  | EvEnospc node file => h |> Fnv_u64 node |> Fnv_u64 file
  | EvPartition a b one_way => h |> Fnv_u64 a |> Fnv_u64 b |> Fnv_byte (Z.b2z one_way)
  | EvHeal a b => h |> Fnv_u64 a |> Fnv_u64 b
  | EvPause node until => h |> Fnv_u64 node |> Fnv_u64 until
  | EvClockStep node delta => h |> Fnv_u64 node |> Fnv_u64 (delta mod U64)
  | EvNote node text => h |> Fnv_u64 node |> Fnv_bytes text
  end.

(** ** The recorder *)

Record TraceEntry : Type := mkTraceEntry { te_at : Nanos; te_seq : Z; te_event : Event }.

#[export] Instance TraceEntry_eq_dec : EqDecision TraceEntry.
Proof. solve_decision. Defined.

Inductive TraceMode : Type := HashOnly | Full | Tail (n : nat).

Record Recorder : Type := mkRecorder {
  rc_mode : TraceMode;
  rc_hash : Fnv;
  rc_count : Z;
  rc_entries : list TraceEntry;
  rc_checkpoints : list (Z * Z);
  rc_checkpoint_every : Z
}.

Definition Recorder_new (mode : TraceMode) : Recorder := mkRecorder mode Fnv_new 0 [] [] 1024.

(** [while entries.len() >= n { entries.pop_front() }]. *)
Fixpoint pop_front_while (n : nat) (entries : list TraceEntry) : list TraceEntry :=
  match entries with
  | [] => []
  | _ :: rest => if (n <=? length entries)%nat then pop_front_while n rest else entries
  end.

Definition retain (mode : TraceMode) (entries : list TraceEntry) (x : TraceEntry) : list TraceEntry :=
  match mode with
  | HashOnly => entries
  | Full => entries ++ [x]
  | Tail n => if (0 <? n)%nat then pop_front_while n entries ++ [x] else entries
  end.

Definition record (at_ : Nanos) (seq : Z) (event : Event) (r : Recorder) : Recorder :=
  let hash := rc_hash r |> Fnv_u64 at_ |> Fnv_u64 seq |> feed event in
  let count := rc_count r +64 1 in
  let checkpoints :=
    if count mod rc_checkpoint_every r =? 0 then rc_checkpoints r ++ [(count, hash)]
    else rc_checkpoints r in
  mkRecorder (rc_mode r) hash count (retain (rc_mode r) (rc_entries r) (mkTraceEntry at_ seq event))
    checkpoints (rc_checkpoint_every r).

(** The loop over the zipped checkpoints. *)
Fixpoint first_mismatch (a b : list (Z * Z)) : option Z :=
  match a, b with
  | x :: a, y :: b => if bool_decide (x = y) then first_mismatch a b else Some x.1
  | _, _ => None
  end.

Definition first_divergence (a b : Recorder) : option Z :=
  match first_mismatch (rc_checkpoints a) (rc_checkpoints b) with
  | Some n => Some n
  | None =>
      if negb (rc_hash a =? rc_hash b)
      then Some (match last (rc_checkpoints a) with Some c => c.1 | None => 0 end)
      else None
  end.

(** A run recorded from the start. *)
Definition recorded (mode : TraceMode) (run : list TraceEntry) : Recorder :=
  fold_left (fun r x => record (te_at x) (te_seq x) (te_event x) r) run (Recorder_new mode).

(** * Theorems *)

(** ** The canonical bytes of a run *)

(** The bytes [feed] folds into the hash. *)
Definition event_bytes (e : Event) : list Z :=
  Event_tag e ::
  match e with
  | EvBoot node | EvCrash node | EvRestart node | EvResume node => le_bytes 8 node
  | EvSpawn node task | EvPoll node task | EvTaskDone node task => le_bytes 8 node ++ le_bytes 8 task
  | EvSleep node task until => le_bytes 8 node ++ le_bytes 8 task ++ le_bytes 8 until
  | EvSend a b c d | EvDeliver a b c d | EvCorrupted a b c d | EvDiskWrite a b c d
  | EvDiskRead a b c d | EvLostWrite a b c d =>
      le_bytes 8 a ++ le_bytes 8 b ++ le_bytes 8 c ++ le_bytes 8 d
  | EvDropped from to msg why =>
      le_bytes 8 from ++ le_bytes 8 to ++ le_bytes 8 msg ++ [DropReason_tag why]
  | EvDuplicated a b c | EvFsync a b c | EvTruncate a b c =>
      le_bytes 8 a ++ le_bytes 8 b ++ le_bytes 8 c
  | EvTornWrite node file offset kept total =>
      le_bytes 8 node ++ le_bytes 8 file ++ le_bytes 8 offset ++ le_bytes 8 kept ++ le_bytes 8 total
  | EvPartition a b one_way => le_bytes 8 a ++ le_bytes 8 b ++ [Z.b2z one_way]
  | EvEnospc a b | EvHeal a b | EvPause a b => le_bytes 8 a ++ le_bytes 8 b
  | EvClockStep node delta => le_bytes 8 node ++ le_bytes 8 (delta mod U64)
  | EvNote node text => le_bytes 8 node ++ le_bytes 8 (Z.of_nat (length text)) ++ text
  end.

Definition entry_bytes (x : TraceEntry) : list Z :=
  le_bytes 8 (te_at x) ++ le_bytes 8 (te_seq x) ++ event_bytes (te_event x).

Definition run_bytes (run : list TraceEntry) : list Z := concat (map entry_bytes run).

(** The fields of an event fit their types. *)
Definition Event_ok (e : Event) : Prop :=
  match e with
  | EvBoot node | EvCrash node | EvRestart node | EvResume node => is_u64 node
  | EvSpawn a b | EvPoll a b | EvTaskDone a b | EvEnospc a b | EvHeal a b | EvPause a b
  | EvPartition a b _ => is_u64 a /\ is_u64 b
  | EvSleep a b c | EvDuplicated a b c | EvFsync a b c | EvTruncate a b c
  | EvDropped a b c _ => is_u64 a /\ is_u64 b /\ is_u64 c
  | EvSend a b c d | EvDeliver a b c d | EvCorrupted a b c d | EvDiskWrite a b c d
  | EvDiskRead a b c d | EvLostWrite a b c d => is_u64 a /\ is_u64 b /\ is_u64 c /\ is_u64 d
  | EvTornWrite a b c d e => is_u64 a /\ is_u64 b /\ is_u64 c /\ is_u64 d /\ is_u64 e
  | EvClockStep node delta => is_u64 node /\ - 2 ^ 63 <= delta < 2 ^ 63
  | EvNote node text => is_u64 node /\ is_u64 (Z.of_nat (length text)) /\ Forall is_u8 text
  end.

Definition TraceEntry_ok (x : TraceEntry) : Prop :=
  is_u64 (te_at x) /\ is_u64 (te_seq x) /\ Event_ok (te_event x).

#[export] Instance Event_ok_dec e : Decision (Event_ok e).
Proof. destruct e; simpl; apply _. Defined.
#[export] Instance TraceEntry_ok_dec x : Decision (TraceEntry_ok x).
Proof. unfold TraceEntry_ok. apply _. Defined.

Definition Fnv_feed (bs : list Z) (h : Fnv) : Fnv := fold_left (fun h b => Fnv_byte b h) bs h.

Lemma Fnv_feed_app a b h : Fnv_feed (a ++ b) h = Fnv_feed b (Fnv_feed a h).
Proof. apply fold_left_app. Qed.

Lemma Fnv_u64_feed v h : Fnv_u64 v h = Fnv_feed (le_bytes 8 v) h.
Proof.
  unfold Fnv_u64, Fnv_feed. change (seqZ 0 8) with [0;1;2;3;4;5;6;7].
  cbn [fold_left le_bytes]. rewrite !Z.shiftr_div_pow2 by lia.
  rewrite !Z.div_div by lia. f_equal. by rewrite Z.div_1_r.
Qed.

Lemma Fnv_feed_cons b bs h : Fnv_feed (b :: bs) h = Fnv_feed bs (Fnv_byte b h).
Proof. done. Qed.

Lemma Fnv_feed_one b h : Fnv_feed [b] h = Fnv_byte b h.
Proof. done. Qed.

#[local] Opaque Fnv_feed le_bytes Fnv_u64 Fnv_bytes Fnv_byte.
Lemma feed_bytes e h : feed e h = Fnv_feed (event_bytes e) h.
Proof.
  unfold feed, event_bytes. destruct e; cbv beta iota zeta; rewrite Fnv_feed_cons, ?Fnv_feed_app, ?Fnv_feed_one,
    <- ?Fnv_u64_feed; reflexivity.
Qed.
#[local] Transparent Fnv_feed le_bytes Fnv_u64 Fnv_bytes Fnv_byte.

Lemma le8_prefix a b t t' : is_u64 a -> is_u64 b ->
  le_bytes 8 a ++ t = le_bytes 8 b ++ t' -> a = b /\ t = t'.
Proof.
  intros Ha Hb E. apply app_inj_1 in E as [E ->]; [|by rewrite !le_bytes_length]. split; [|done].
  apply (f_equal le_value) in E. rewrite !le_value_le_bytes in E.
  change (U8 ^ Z.of_nat 8) with U64 in E. unfold is_u64 in *. rewrite !Z.mod_small in E by done. done.
Qed.

Ltac split_u64 :=
  repeat match goal with
  | H : le_bytes 8 _ ++ _ = le_bytes 8 _ ++ _ |- _ =>
      apply le8_prefix in H as [? H]; [|by assumption..]
  end.

Lemma two_complement_inj a b : - 2 ^ 63 <= a < 2 ^ 63 -> - 2 ^ 63 <= b < 2 ^ 63 ->
  a mod U64 = b mod U64 -> a = b.
Proof.
  intros Ha Hb E. pose proof (Z.div_mod a U64 ltac:(lia)). pose proof (Z.div_mod b U64 ltac:(lia)).
  pose proof (Z.mod_pos_bound a U64). pose proof (Z.mod_pos_bound b U64).
  assert (a / U64 = b / U64) by lia. lia.
Qed.

Lemma DropReason_tag_inj r r' : DropReason_tag r = DropReason_tag r' -> r = r'.
Proof. by destruct r, r'. Qed.

Lemma cons_inj (a b : Z) l k : a :: l = b :: k -> a = b /\ l = k.
Proof. by intros [= -> ->]. Qed.

(** The code of events is a prefix code: what follows an event cannot change
    which event is read. *)
Lemma event_bytes_prefix e e' t t' : Event_ok e -> Event_ok e' ->
  event_bytes e ++ t = event_bytes e' ++ t' -> e = e' /\ t = t'.
Proof.
  intros H H' E. assert (Et : Event_tag e = Event_tag e') by (unfold event_bytes in E; by injection E).
  destruct e, e'; try discriminate Et; clear Et; unfold event_bytes in E; cbn [Event_tag] in E;
    rewrite <- !app_comm_cons in E; apply cons_inj in E as [_ E]; rewrite <- ?app_assoc in E;
    unfold Event_ok in *; destruct_and?; split_u64; subst; try (split; reflexivity).
  - apply cons_inj in E as [E ->]. apply DropReason_tag_inj in E as ->. done.
  - apply cons_inj in E as [E ->]. apply Z.b2z_inj in E as ->. done.
  - apply le8_prefix in E as [E ->]; [|by apply Z.mod_pos_bound..].
    by apply two_complement_inj in E as ->.
  - match goal with Hl : Z.of_nat (length _) = Z.of_nat (length _) |- _ => apply Nat2Z.inj in Hl end.
    by apply app_inj_1 in E as [-> ->].
Qed.

Lemma run_bytes_inj run run' : Forall TraceEntry_ok run -> Forall TraceEntry_ok run' ->
  run_bytes run = run_bytes run' -> run = run'.
Proof.
  intros H. revert run'. induction H as [|x run (Hx1 & Hx2 & Hx3) _ IH]; intros run' H' E;
    destruct H' as [|y run' (Hy1 & Hy2 & Hy3) Hr']; [done|discriminate E..|].
  unfold run_bytes in E. cbn [map concat] in E. unfold entry_bytes in E. rewrite <- !app_assoc in E.
  apply le8_prefix in E as [E1 E]; [|done..]. apply le8_prefix in E as [E2 E]; [|done..].
  apply event_bytes_prefix in E as [E3 E]; [|done..]. apply IH in E as ->; [|done].
  by destruct x, y; simplify_eq/=.
Qed.

Lemma record_hash at_ seq e r :
  rc_hash (record at_ seq e r) = Fnv_feed (entry_bytes (mkTraceEntry at_ seq e)) (rc_hash r).
Proof. unfold record, entry_bytes. cbn [rc_hash te_at te_seq te_event]. by rewrite feed_bytes, !Fnv_u64_feed, !Fnv_feed_app. Qed.

Lemma fold_record_hash run r :
  rc_hash (fold_left (fun r x => record (te_at x) (te_seq x) (te_event x) r) run r)
    = Fnv_feed (run_bytes run) (rc_hash r).
Proof.
  revert r. induction run as [|x run IH]; intros r; [done|]. cbn [fold_left]. rewrite IH, record_hash.
  unfold run_bytes. cbn [map concat]. rewrite Fnv_feed_app. by destruct x.
Qed.

(** The trace hash of a run is FNV-1a over a canonical encoding of it. The
    hash is that of the concatenated bytes of the entries, in order, whatever the
    mode of the recorder; and two runs with the same bytes are the same run: the
    encoding of events is a prefix code, so that no field, no order of events and
    no boundary between events is lost before the hash. *)
Theorem hash_of_a_canonical_encoding (mode : TraceMode) (run run' : list TraceEntry) :
  rc_hash (recorded mode run) = Fnv_feed (run_bytes run) Fnv_new /\
  (Forall TraceEntry_ok run -> Forall TraceEntry_ok run' -> run_bytes run = run_bytes run' -> run = run').
Proof. split; [apply fold_record_hash|apply run_bytes_inj]. Qed.

(** ** One changed byte *)

Lemma fnv_prime_inverse : (0x100000001b3 * 14886173955864302971) mod U64 = 1.
Proof. reflexivity. Qed.

Lemma Fnv_mul_inj x y : is_u64 x -> is_u64 y -> x *64 0x100000001b3 = y *64 0x100000001b3 -> x = y.
Proof.
  unfold is_u64, wmul64. intros Hx Hy E.
  apply (f_equal (fun z => (z * 14886173955864302971) mod U64)) in E.
  rewrite !Z.mul_mod_idemp_l, <- !Z.mul_assoc in E by lia.
  rewrite <- (Z.mul_mod_idemp_r x), <- (Z.mul_mod_idemp_r y), fnv_prime_inverse, !Z.mul_1_r in E by lia.
  by rewrite !Z.mod_small in E.
Qed.

Lemma u8_u64 b : is_u8 b -> is_u64 b.
Proof. unfold is_u8, is_u64. lia. Qed.

Lemma Fnv_byte_u64 b h : is_u64 (Fnv_byte b h).
Proof. apply Z.mod_pos_bound. lia. Qed.

Lemma Fnv_byte_inj b b' h h' : is_u8 b -> is_u8 b' -> is_u64 h -> is_u64 h' ->
  Fnv_byte b h = Fnv_byte b' h' -> Z.lxor h b = Z.lxor h' b'.
Proof. intros. apply Fnv_mul_inj; [by apply lxor_u64, u8_u64..|done]. Qed.

Lemma Fnv_feed_inj bs h h' : Forall is_u8 bs -> is_u64 h -> is_u64 h' ->
  Fnv_feed bs h = Fnv_feed bs h' -> h = h'.
Proof.
  intros Hb. revert h h'. induction Hb as [|b bs Hb _ IH]; intros h h' Hh Hh' E; [done|].
  rewrite !Fnv_feed_cons in E. apply IH, Fnv_byte_inj in E; [|by try apply Fnv_byte_u64..].
  by apply lxor_cancel_r in E.
Qed.

Lemma event_bytes_u8 e : Event_ok e -> Forall is_u8 (event_bytes e).
Proof.
  intros H. unfold event_bytes. constructor; [by destruct e|].
  destruct e; rewrite ?Forall_app; split_and?; try apply le_bytes_u8; try done.
  - constructor; [by destruct why|done].
  - constructor; [by destruct one_way|done].
  - apply H.
Qed.

Lemma run_bytes_u8 run : Forall TraceEntry_ok run -> Forall is_u8 (run_bytes run).
Proof.
  unfold run_bytes. induction 1 as [|x run (H1 & H2 & H3) _ IH]; [constructor|].
  cbn [map concat]. unfold entry_bytes. rewrite !Forall_app. split_and!; [apply le_bytes_u8..|by apply event_bytes_u8|done].
Qed.

Lemma Fnv_feed_u64 bs h : is_u64 h -> is_u64 (Fnv_feed bs h).
Proof. revert h. induction bs as [|b bs IH]; intros h Hh; [done|]. apply IH, Fnv_byte_u64. Qed.

(** A divergence of one byte is never hidden. If the encodings of two runs
    agree except in one byte, as when one poll picks another of the first 256
    tasks or one packet is dropped for another reason, the two trace hashes
    differ: each step of FNV-1a is injective, its multiplier being odd. *)
Theorem one_changed_byte_changes_the_hash (mode mode' : TraceMode) (run run' : list TraceEntry)
    (pre post : list Z) (b b' : Z) :
  Forall TraceEntry_ok run -> Forall TraceEntry_ok run' ->
  run_bytes run = pre ++ b :: post -> run_bytes run' = pre ++ b' :: post -> b <> b' ->
  rc_hash (recorded mode run) <> rc_hash (recorded mode' run').
Proof.
  intros H H' E E' Hne Eh. unfold recorded in Eh. rewrite !fold_record_hash, E, E' in Eh.
  pose proof (run_bytes_u8 run H) as Hu. pose proof (run_bytes_u8 run' H') as Hu'. rewrite E in Hu. rewrite E' in Hu'.
  apply Forall_app in Hu as [_ Hu]. apply Forall_app in Hu' as [_ Hu'].
  inversion Hu as [|? ? Hb Hp]; subst. inversion Hu' as [|? ? Hb' _]; subst.
  rewrite !Fnv_feed_app, !Fnv_feed_cons in Eh.
  assert (Hs : is_u64 (Fnv_feed pre Fnv_new)) by (by apply Fnv_feed_u64).
  apply Fnv_feed_inj in Eh; [|done|apply Fnv_byte_u64..]. apply Fnv_byte_inj in Eh; [|done..].
  by apply lxor_cancel_l in Eh.
Qed.

Lemma one_changed_byte_changes_the_hash_witness :
  rc_hash (recorded HashOnly [mkTraceEntry 1 0 (EvPoll 0 1)]) <>
  rc_hash (recorded HashOnly [mkTraceEntry 1 0 (EvPoll 0 2)]).
Proof.
  apply (one_changed_byte_changes_the_hash HashOnly HashOnly _ _
    (le_bytes 8 1 ++ le_bytes 8 0 ++ 3 :: le_bytes 8 0) (replicate 7 0) 1 2); by_decide || reflexivity.
Defined.

(** ** What a recorder keeps *)

Lemma pop_front_while_drop n l : (0 < n)%nat -> pop_front_while n l = drop (length l + 1 - n) l.
Proof.
  intros Hn. induction l as [|x l IH]; [by rewrite drop_nil|]. cbn [pop_front_while].
  destruct (Nat.leb_spec n (length (x :: l))); simpl in *.
  - rewrite IH. by replace (S (length l + 1) - n)%nat with (S (length l + 1 - n)) by lia.
  - by replace (S (length l + 1) - n)%nat with 0%nat by lia.
Qed.

Definition kept (mode : TraceMode) (run : list TraceEntry) : list TraceEntry :=
  match mode with HashOnly => [] | Full => run | Tail n => drop (length run - n) run end.

Lemma recorded_snoc mode run x :
  recorded mode (run ++ [x]) = record (te_at x) (te_seq x) (te_event x) (recorded mode run).
Proof. unfold recorded. by rewrite fold_left_app. Qed.

Lemma recorded_mode mode run : rc_mode (recorded mode run) = mode.
Proof. induction run as [|x run IH] using rev_ind; [done|]. by rewrite recorded_snoc. Qed.

Lemma recorded_entries mode run : rc_entries (recorded mode run) = kept mode run.
Proof.
  induction run as [|x run IH] using rev_ind; [by destruct mode; simpl; rewrite ?drop_nil|].
  rewrite recorded_snoc. unfold record. cbn [rc_entries]. rewrite IH, recorded_mode.
  replace (mkTraceEntry _ _ _) with x by by destruct x. unfold retain, kept.
  destruct mode as [| |n]; [done..|]. rewrite length_app. simpl. destruct n as [|n].
  - simpl. rewrite !drop_ge; [done|rewrite length_app; simpl; lia|lia].
  - cbn [Nat.ltb Nat.leb]. rewrite pop_front_while_drop by lia.
    rewrite drop_app_le by lia. f_equal. rewrite drop_drop, length_drop. f_equal. lia.
Qed.

(** The mode of a recorder only decides what it keeps. Runs recorded in any
    two modes have the same hash, the same count and the same checkpoints, so a
    swarm run and its replay can be compared; the entries kept are none, all of
    them, or exactly the last [n]. *)
Theorem mode_only_decides_what_is_kept (mode mode' : TraceMode) (run : list TraceEntry) :
  rc_hash (recorded mode run) = rc_hash (recorded mode' run) /\
  rc_count (recorded mode run) = rc_count (recorded mode' run) /\
  rc_checkpoints (recorded mode run) = rc_checkpoints (recorded mode' run) /\
  rc_entries (recorded mode run) = kept mode run.
Proof.
  rewrite recorded_entries.
  assert (H : let f m := recorded m run in
    rc_hash (f mode) = rc_hash (f mode') /\ rc_count (f mode) = rc_count (f mode') /\
    rc_checkpoints (f mode) = rc_checkpoints (f mode') /\
    rc_checkpoint_every (f mode) = rc_checkpoint_every (f mode')); [|naive_solver].
  cbv zeta. induction run as [|x run (E1 & E2 & E3 & E4)] using rev_ind; [done|].
  rewrite !recorded_snoc. unfold record. cbn [rc_hash rc_count rc_checkpoints rc_checkpoint_every].
  by rewrite E1, E2, E3, E4.
Qed.

(** ** Where two runs diverged *)

(** A run of [n] polls that differs from the others at event [d]. *)
Definition poll_run (n d : Z) : Recorder :=
  recorded HashOnly
    (map (fun i => mkTraceEntry i i (EvPoll 0 (if i =? d then i + 1 else i))) (seqZ 0 n)).

(** [first_divergence] is documented to be the first event at which two runs
    diverged. It names a checkpoint, and when the checkpoints agree the last one
    before the divergence: two runs that agree on nine events and differ in the
    tenth are said to diverge at event 0. *)
Lemma divergence_names_a_checkpoint :
  first_divergence (poll_run 10 (-1)) (poll_run 10 9) = Some 0.
Proof. vm_compute. reflexivity. Qed.
