(* ===== verification/Fault.v ===== *)
(** * Fault policies: [crates/chrono-sim/src/fault.rs]

    What the simulated universe may do: one record per policy, and the presets.
    Rates are parts per million, of a packet, of an operation, or of a simulated
    second. The kernel reads every field through its generator. *)

From Stdlib Require Import ZArith Lia String.
From stdpp Require Import base tactics list.
From S2P Require Import Prelude Rng Time.

Open Scope Z_scope.

Record LinkPolicy : Type := mkLinkPolicy {
  lk_latency : LatencyDist;
  loss_ppm : Z;
  duplicate_ppm : Z;
  lk_corrupt_ppm : Z
}.

Definition LinkPolicy_default : LinkPolicy := mkLinkPolicy LatencyDist_datacenter 2000 500 0.

Record DiskPolicy : Type := mkDiskPolicy {
  write_latency : LatencyDist;
  fsync_latency : LatencyDist;
  read_latency : LatencyDist;
  sector_size : Z;
  torn_write_ppm : Z;
  lost_write_ppm : Z;
  dk_corrupt_ppm : Z;
  enospc_after_bytes : option Z;
  slow_ppm : Z;
  slow_multiplier : Z
}.

Definition DiskPolicy_default : DiskPolicy :=
  mkDiskPolicy [mkBucket 980 8000 40000; mkBucket 20 40000 900000]
    [mkBucket 900 200000 800000; mkBucket 95 800000 5000000; mkBucket 5 5000000 90000000]
    [mkBucket 1 5000 30000] 4096 300000 400000 0 None 1000 40.

Record ClockPolicy : Type := mkClockPolicy {
  max_skew : Nanos;
  max_drift_ppm : Z;
  step_ppm_per_sec : Z;
  max_step : Nanos
}.

Definition ClockPolicy_default : ClockPolicy :=
  mkClockPolicy (Nanos_from_millis 50) 200 0 (Nanos_from_millis 500).

Record ChaosPolicy : Type := mkChaosPolicy {
  partition_ppm_per_sec : Z;
  partition_duration : LatencyDist;
  asymmetric_ppm : Z;
  crash_ppm_per_sec : Z;
  restart_delay : LatencyDist;
  pause_ppm_per_sec : Z;
  pause_duration : LatencyDist;
  min_alive : nat
}.

Definition is_active (c : ChaosPolicy) : bool :=
  (0 <? partition_ppm_per_sec c) || (0 <? crash_ppm_per_sec c) || (0 <? pause_ppm_per_sec c).

Definition ChaosPolicy_default : ChaosPolicy :=
  mkChaosPolicy 40000
    [mkBucket 700 (Nanos_from_millis 200) (Nanos_from_secs 3);
     mkBucket 300 (Nanos_from_secs 3) (Nanos_from_secs 30)]
    350000 25000
    [mkBucket 800 (Nanos_from_millis 50) (Nanos_from_secs 2);
     mkBucket 200 (Nanos_from_secs 2) (Nanos_from_secs 20)]
    20000
    [mkBucket 850 (Nanos_from_millis 20) (Nanos_from_millis 400);
     mkBucket 150 (Nanos_from_millis 400) (Nanos_from_secs 6)]
    0.

Record FaultPolicy : Type := mkFaultPolicy {
  fp_link : LinkPolicy;
  fp_disk : DiskPolicy;
  fp_clock : ClockPolicy;
  fp_chaos : ChaosPolicy;
  chaos_tick_every : Nanos
}.

Definition FaultPolicy_default : FaultPolicy :=
  mkFaultPolicy LinkPolicy_default DiskPolicy_default ClockPolicy_default ChaosPolicy_default
    (Nanos_from_millis 100).

(** ** The presets *)

Definition with_faults (torn lost corrupt slow mult : Z) (d : DiskPolicy) : DiskPolicy :=
  mkDiskPolicy (write_latency d) (fsync_latency d) (read_latency d) (sector_size d)
    torn lost corrupt (enospc_after_bytes d) slow mult.

Definition with_rates (partition asymmetric crash pause : Z) (c : ChaosPolicy) : ChaosPolicy :=
  mkChaosPolicy partition (partition_duration c) asymmetric crash (restart_delay c)
    pause (pause_duration c) (min_alive c).

Definition benign : FaultPolicy :=
  mkFaultPolicy
    (mkLinkPolicy (LatencyDist_uniform 100000 400000) 0 0 0)
    (with_faults 0 0 0 0 (slow_multiplier DiskPolicy_default) DiskPolicy_default)
    (mkClockPolicy 0 0 0 0)
    (with_rates 0 (asymmetric_ppm ChaosPolicy_default) 0 0 ChaosPolicy_default)
    (Nanos_from_millis 100).

Definition nemesis : FaultPolicy := FaultPolicy_default.

Definition torture : FaultPolicy :=
  mkFaultPolicy
    (mkLinkPolicy
       [mkBucket 600 150000 2000000; mkBucket 300 2000000 60000000; mkBucket 100 60000000 900000000]
       80000 40000 20000)
    (with_faults 600000 500000 (dk_corrupt_ppm DiskPolicy_default) 30000 200 DiskPolicy_default)
    (mkClockPolicy (Nanos_from_millis 400) 3000 20000 (Nanos_from_secs 2))
    (with_rates 200000 500000 120000 90000 ChaosPolicy_default)
    (Nanos_from_millis 50).

Definition diskfull : FaultPolicy :=
  let p := nemesis in
  let d := fp_disk p in
  mkFaultPolicy (fp_link p)
    (mkDiskPolicy (write_latency d) (fsync_latency d) (read_latency d) (sector_size d)
       (torn_write_ppm d) (lost_write_ppm d) (dk_corrupt_ppm d) (Some (96 * 1024))
       (slow_ppm d) (slow_multiplier d))
    (fp_clock p) (fp_chaos p) (chaos_tick_every p).

Definition corrupting : FaultPolicy :=
  let p := nemesis in
  let l := fp_link p in
  mkFaultPolicy (mkLinkPolicy (lk_latency l) (loss_ppm l) (duplicate_ppm l) 30000)
    (fp_disk p) (fp_clock p) (fp_chaos p) (chaos_tick_every p).

Definition network_only : FaultPolicy :=
  let p := nemesis in
  let c := fp_chaos p in
  mkFaultPolicy (fp_link p) (fp_disk benign) (fp_clock p)
    (with_rates (partition_ppm_per_sec c) (asymmetric_ppm c) 0 (pause_ppm_per_sec c) c)
    (chaos_tick_every p).

Definition storage_only : FaultPolicy :=
  let p := nemesis in
  let c := fp_chaos p in
  mkFaultPolicy (fp_link benign) (fp_disk p) (fp_clock p)
    (with_rates 0 (asymmetric_ppm c) (crash_ppm_per_sec c) 0 c)
    (chaos_tick_every p).

Definition PRESETS : list string :=
  ["benign"; "nemesis"; "torture"; "network"; "storage"; "diskfull"; "corrupting"]%string.

Definition preset (name : string) : option FaultPolicy :=
  (if String.eqb name "benign" then Some benign
   else if String.eqb name "nemesis" then Some nemesis
   else if String.eqb name "torture" then Some torture
   else if String.eqb name "network" then Some network_only
   else if String.eqb name "storage" then Some storage_only
   else if String.eqb name "diskfull" then Some diskfull
   else if String.eqb name "corrupting" then Some corrupting
   else None)%string.

(** Every name on the list is a preset. *)
Lemma presets_exist : Forall (fun name => is_Some (preset name)) PRESETS.
Proof. repeat constructor; eexists; reflexivity. Qed.
