(* ===== verification/Kernel.v ===== *)
(** * The simulation kernel: [crates/chrono-sim/src/kernel.rs]

    The state behind the kernel's lock, and what the handles it gives to a node do
    to it: clock, network, storage, spawner. The rest of the kernel, from the
    crash of a node to the scheduler's loop, is in [Sim].

    A future is a value of an arbitrary type [F]. Whoever polls it, its waker is
    the identifier of its task, and waking is [mark_ready]. The [Arc] of a timer
    is a name in the map [k_slots], so that the future and the scheduled event that
    share one see the same cell. An operation that waits for the disk is two
    functions: what it does before it waits, which returns the timer, and what it
    does after. Functions that draw from the generator are in the monad [K]; they
    take the [fuel] of [below] and return [None] only when it runs out. Counters
    and byte counts are unbounded; sequence numbers, task and message identifiers
    wrap. The heap is a list: where two events have the same time and the same
    sequence number, an order the standard library leaves open, the one pushed
    first comes out first. *)

From Stdlib Require Import ZArith Lia.
From stdpp Require Import base tactics list list_numbers gmap sets sorting strings.
From S2P Require Import Prelude Codec Types RaftLog Client Msg Rng Time Wal WalState WalSegments Trace Fault.

Open Scope Z_scope.

Abbreviation TaskId := Z.

Inductive Role : Type := Server | Client.

#[export] Instance Role_eq_dec : EqDecision Role.
Proof. solve_decision. Defined.

(** ** Timers *)

Record TimerSlot : Type := mkTimerSlot { sl_fired : bool; sl_waker : option TaskId }.

Definition TimerSlot_new : TimerSlot := mkTimerSlot false None.

Inductive Action : Type :=
| Fire (slot : Z)
| Deliver (from to msg : Z) (payload : Bytes)
| ChaosTick
| Restart (node : NodeId)
| Heal (links : list (NodeId * NodeId))
| Resume (node : NodeId).

Record Timer : Type := mkTimer { t_at : Nanos; t_seq : Z; t_action : Action }.

#[export] Instance Action_eq_dec : EqDecision Action.
Proof. solve_decision. Defined.
#[export] Instance Timer_eq_dec : EqDecision Timer.
Proof. solve_decision. Defined.

(** [Ord for Timer]: by time, then by sequence number. *)
Definition Timer_le (a b : Timer) : bool :=
  (t_at a <? t_at b) || ((t_at a =? t_at b) && (t_seq a <=? t_seq b)).

Abbreviation TimerHeap := (list Timer).

Definition heap_push (t : Timer) (h : TimerHeap) : TimerHeap := h ++ [t].

Fixpoint heap_pop (h : TimerHeap) : option (Timer * TimerHeap) :=
  match h with
  | [] => None
  | t :: rest =>
      match heap_pop rest with
      | None => Some (t, [])
      | Some (m, rest') => if Timer_le t m then Some (t, rest) else Some (m, t :: rest')
      end
  end.

Definition heap_peek (h : TimerHeap) : option Timer := fst <$> heap_pop h.

(** ** Nodes *)

Record Envelope : Type := mkEnvelope {
  en_from : NodeId; en_to : NodeId; en_payload : Bytes; en_msg_id : Z
}.

#[export] Instance Envelope_eq_dec : EqDecision Envelope.
Proof. solve_decision. Defined.

(** A node. Its files are those of [WalSegments]; the identifier of a file, the
    hash of its name, is computed when it is asked for ([file_id]). *)
Record NodeState : Type := mkNode {
  nd_role : Role;
  nd_up : bool;
  nd_paused : bool;
  nd_mailbox : list Envelope;
  nd_recv_waiters : list TaskId;
  nd_files : gmap string FileState;
  nd_skew : Z;
  nd_drift_ppm : Z;
  nd_used_bytes : Z;
  nd_boots : Z;
  nd_rng : Xoshiro256ss
}.

Definition set_up (x : bool) (n : NodeState) : NodeState :=
  mkNode (nd_role n) x (nd_paused n) (nd_mailbox n) (nd_recv_waiters n) (nd_files n) (nd_skew n)
    (nd_drift_ppm n) (nd_used_bytes n) (nd_boots n) (nd_rng n).
Definition set_paused (x : bool) (n : NodeState) : NodeState :=
  mkNode (nd_role n) (nd_up n) x (nd_mailbox n) (nd_recv_waiters n) (nd_files n) (nd_skew n)
    (nd_drift_ppm n) (nd_used_bytes n) (nd_boots n) (nd_rng n).
Definition set_mailbox (x : list Envelope) (n : NodeState) : NodeState :=
  mkNode (nd_role n) (nd_up n) (nd_paused n) x (nd_recv_waiters n) (nd_files n) (nd_skew n)
    (nd_drift_ppm n) (nd_used_bytes n) (nd_boots n) (nd_rng n).
Definition set_recv_waiters (x : list TaskId) (n : NodeState) : NodeState :=
  mkNode (nd_role n) (nd_up n) (nd_paused n) (nd_mailbox n) x (nd_files n) (nd_skew n)
    (nd_drift_ppm n) (nd_used_bytes n) (nd_boots n) (nd_rng n).
Definition set_files (x : gmap string FileState) (n : NodeState) : NodeState :=
  mkNode (nd_role n) (nd_up n) (nd_paused n) (nd_mailbox n) (nd_recv_waiters n) x (nd_skew n)
    (nd_drift_ppm n) (nd_used_bytes n) (nd_boots n) (nd_rng n).
Definition set_skew (x : Z) (n : NodeState) : NodeState :=
  mkNode (nd_role n) (nd_up n) (nd_paused n) (nd_mailbox n) (nd_recv_waiters n) (nd_files n) x
    (nd_drift_ppm n) (nd_used_bytes n) (nd_boots n) (nd_rng n).
Definition set_used_bytes (x : Z) (n : NodeState) : NodeState :=
  mkNode (nd_role n) (nd_up n) (nd_paused n) (nd_mailbox n) (nd_recv_waiters n) (nd_files n)
    (nd_skew n) (nd_drift_ppm n) x (nd_boots n) (nd_rng n).
Definition set_boots (x : Z) (n : NodeState) : NodeState :=
  mkNode (nd_role n) (nd_up n) (nd_paused n) (nd_mailbox n) (nd_recv_waiters n) (nd_files n)
    (nd_skew n) (nd_drift_ppm n) (nd_used_bytes n) x (nd_rng n).
Definition set_rng (x : Xoshiro256ss) (n : NodeState) : NodeState :=
  mkNode (nd_role n) (nd_up n) (nd_paused n) (nd_mailbox n) (nd_recv_waiters n) (nd_files n)
    (nd_skew n) (nd_drift_ppm n) (nd_used_bytes n) (nd_boots n) x.

Definition string_bytes (name : string) : Bytes :=
  map (fun c => Z.of_N (Ascii.N_of_ascii c)) (String.list_ascii_of_string name).

Definition file_id (name : string) : Z := Fnv_bytes (string_bytes name) Fnv_new.

(** ** Statistics *)

Inductive Stat : Type :=
| polls | tasks_spawned | msgs_sent | msgs_delivered | msgs_dropped | msgs_duplicated
| msgs_corrupted | disk_writes | disk_bytes | fsyncs | torn_writes | lost_writes | crashes
| restarts | partitions | pauses | enospc | events.

#[export] Instance Stat_eq_dec : EqDecision Stat.
Proof. solve_decision. Defined.

Abbreviation Stats := (Stat -> Z).

(** ** The kernel *)

Section Kernel.
Context {F : Type}.

Record TaskSlot : Type := mkTask { tk_node : NodeId; tk_fut : option F }.

Record Inner : Type := mkInner {
  k_now : Nanos;
  k_seq : Z;
  k_timers : list Timer;
  k_tasks : gmap TaskId TaskSlot;
  k_ready : gset TaskId;
  k_next_task : TaskId;
  k_current : option TaskId;
  k_rng : Xoshiro256ss;
  k_trace : Recorder;
  k_nodes : gmap Z NodeState;
  k_blocked : gmap (Z * Z) Z;
  k_policy : FaultPolicy;
  k_next_msg : Z;
  k_stats : Stats;
  k_stop : bool;
  k_chaos_on : bool;
  k_slots : gmap Z TimerSlot;
  k_next_slot : Z;
  k_panic : option (Z * list Z)
}.

Definition on_now (f : Nanos -> Nanos) (k : Inner) : Inner :=
  mkInner (f (k_now k)) (k_seq k) (k_timers k) (k_tasks k) (k_ready k) (k_next_task k)
    (k_current k) (k_rng k) (k_trace k) (k_nodes k) (k_blocked k) (k_policy k) (k_next_msg k)
    (k_stats k) (k_stop k) (k_chaos_on k) (k_slots k) (k_next_slot k) (k_panic k).
Definition on_seq (f : Z -> Z) (k : Inner) : Inner :=
  mkInner (k_now k) (f (k_seq k)) (k_timers k) (k_tasks k) (k_ready k) (k_next_task k)
    (k_current k) (k_rng k) (k_trace k) (k_nodes k) (k_blocked k) (k_policy k) (k_next_msg k)
    (k_stats k) (k_stop k) (k_chaos_on k) (k_slots k) (k_next_slot k) (k_panic k).
Definition on_timers (f : list Timer -> list Timer) (k : Inner) : Inner :=
  mkInner (k_now k) (k_seq k) (f (k_timers k)) (k_tasks k) (k_ready k) (k_next_task k)
    (k_current k) (k_rng k) (k_trace k) (k_nodes k) (k_blocked k) (k_policy k) (k_next_msg k)
    (k_stats k) (k_stop k) (k_chaos_on k) (k_slots k) (k_next_slot k) (k_panic k).
Definition on_tasks (f : gmap TaskId TaskSlot -> gmap TaskId TaskSlot) (k : Inner) : Inner :=
  mkInner (k_now k) (k_seq k) (k_timers k) (f (k_tasks k)) (k_ready k) (k_next_task k)
    (k_current k) (k_rng k) (k_trace k) (k_nodes k) (k_blocked k) (k_policy k) (k_next_msg k)
    (k_stats k) (k_stop k) (k_chaos_on k) (k_slots k) (k_next_slot k) (k_panic k).
Definition on_ready (f : gset TaskId -> gset TaskId) (k : Inner) : Inner :=
  mkInner (k_now k) (k_seq k) (k_timers k) (k_tasks k) (f (k_ready k)) (k_next_task k)
    (k_current k) (k_rng k) (k_trace k) (k_nodes k) (k_blocked k) (k_policy k) (k_next_msg k)
    (k_stats k) (k_stop k) (k_chaos_on k) (k_slots k) (k_next_slot k) (k_panic k).
Definition on_next_task (f : TaskId -> TaskId) (k : Inner) : Inner :=
  mkInner (k_now k) (k_seq k) (k_timers k) (k_tasks k) (k_ready k) (f (k_next_task k))
    (k_current k) (k_rng k) (k_trace k) (k_nodes k) (k_blocked k) (k_policy k) (k_next_msg k)
    (k_stats k) (k_stop k) (k_chaos_on k) (k_slots k) (k_next_slot k) (k_panic k).
Definition on_current (f : option TaskId -> option TaskId) (k : Inner) : Inner :=
  mkInner (k_now k) (k_seq k) (k_timers k) (k_tasks k) (k_ready k) (k_next_task k)
    (f (k_current k)) (k_rng k) (k_trace k) (k_nodes k) (k_blocked k) (k_policy k) (k_next_msg k)
    (k_stats k) (k_stop k) (k_chaos_on k) (k_slots k) (k_next_slot k) (k_panic k).
Definition on_rng (f : Xoshiro256ss -> Xoshiro256ss) (k : Inner) : Inner :=
  mkInner (k_now k) (k_seq k) (k_timers k) (k_tasks k) (k_ready k) (k_next_task k) (k_current k)
    (f (k_rng k)) (k_trace k) (k_nodes k) (k_blocked k) (k_policy k) (k_next_msg k) (k_stats k)
    (k_stop k) (k_chaos_on k) (k_slots k) (k_next_slot k) (k_panic k).
Definition on_trace (f : Recorder -> Recorder) (k : Inner) : Inner :=
  mkInner (k_now k) (k_seq k) (k_timers k) (k_tasks k) (k_ready k) (k_next_task k) (k_current k)
    (k_rng k) (f (k_trace k)) (k_nodes k) (k_blocked k) (k_policy k) (k_next_msg k) (k_stats k)
    (k_stop k) (k_chaos_on k) (k_slots k) (k_next_slot k) (k_panic k).
Definition on_nodes (f : gmap Z NodeState -> gmap Z NodeState) (k : Inner) : Inner :=
  mkInner (k_now k) (k_seq k) (k_timers k) (k_tasks k) (k_ready k) (k_next_task k) (k_current k)
    (k_rng k) (k_trace k) (f (k_nodes k)) (k_blocked k) (k_policy k) (k_next_msg k) (k_stats k)
    (k_stop k) (k_chaos_on k) (k_slots k) (k_next_slot k) (k_panic k).
Definition on_blocked (f : gmap (Z * Z) Z -> gmap (Z * Z) Z) (k : Inner) : Inner :=
  mkInner (k_now k) (k_seq k) (k_timers k) (k_tasks k) (k_ready k) (k_next_task k) (k_current k)
    (k_rng k) (k_trace k) (k_nodes k) (f (k_blocked k)) (k_policy k) (k_next_msg k) (k_stats k)
    (k_stop k) (k_chaos_on k) (k_slots k) (k_next_slot k) (k_panic k).
Definition on_next_msg (f : Z -> Z) (k : Inner) : Inner :=
  mkInner (k_now k) (k_seq k) (k_timers k) (k_tasks k) (k_ready k) (k_next_task k) (k_current k)
    (k_rng k) (k_trace k) (k_nodes k) (k_blocked k) (k_policy k) (f (k_next_msg k)) (k_stats k)
    (k_stop k) (k_chaos_on k) (k_slots k) (k_next_slot k) (k_panic k).
Definition on_stats (f : Stats -> Stats) (k : Inner) : Inner :=
  mkInner (k_now k) (k_seq k) (k_timers k) (k_tasks k) (k_ready k) (k_next_task k) (k_current k)
    (k_rng k) (k_trace k) (k_nodes k) (k_blocked k) (k_policy k) (k_next_msg k) (f (k_stats k))
    (k_stop k) (k_chaos_on k) (k_slots k) (k_next_slot k) (k_panic k).
Definition on_stop (f : bool -> bool) (k : Inner) : Inner :=
  mkInner (k_now k) (k_seq k) (k_timers k) (k_tasks k) (k_ready k) (k_next_task k) (k_current k)
    (k_rng k) (k_trace k) (k_nodes k) (k_blocked k) (k_policy k) (k_next_msg k) (k_stats k)
    (f (k_stop k)) (k_chaos_on k) (k_slots k) (k_next_slot k) (k_panic k).
Definition on_chaos_on (f : bool -> bool) (k : Inner) : Inner :=
  mkInner (k_now k) (k_seq k) (k_timers k) (k_tasks k) (k_ready k) (k_next_task k) (k_current k)
    (k_rng k) (k_trace k) (k_nodes k) (k_blocked k) (k_policy k) (k_next_msg k) (k_stats k)
    (k_stop k) (f (k_chaos_on k)) (k_slots k) (k_next_slot k) (k_panic k).
Definition on_slots (f : gmap Z TimerSlot -> gmap Z TimerSlot) (k : Inner) : Inner :=
  mkInner (k_now k) (k_seq k) (k_timers k) (k_tasks k) (k_ready k) (k_next_task k) (k_current k)
    (k_rng k) (k_trace k) (k_nodes k) (k_blocked k) (k_policy k) (k_next_msg k) (k_stats k)
    (k_stop k) (k_chaos_on k) (f (k_slots k)) (k_next_slot k) (k_panic k).
Definition on_next_slot (f : Z -> Z) (k : Inner) : Inner :=
  mkInner (k_now k) (k_seq k) (k_timers k) (k_tasks k) (k_ready k) (k_next_task k) (k_current k)
    (k_rng k) (k_trace k) (k_nodes k) (k_blocked k) (k_policy k) (k_next_msg k) (k_stats k)
    (k_stop k) (k_chaos_on k) (k_slots k) (f (k_next_slot k)) (k_panic k).
Definition on_panic (f : option (Z * list Z) -> option (Z * list Z)) (k : Inner) : Inner :=
  mkInner (k_now k) (k_seq k) (k_timers k) (k_tasks k) (k_ready k) (k_next_task k) (k_current k)
    (k_rng k) (k_trace k) (k_nodes k) (k_blocked k) (k_policy k) (k_next_msg k) (k_stats k)
    (k_stop k) (k_chaos_on k) (k_slots k) (k_next_slot k) (f (k_panic k)).

(** ** Computations that draw from the kernel's generator *)

Definition K (A : Type) : Type := Inner -> option (A * Inner).

#[export] Instance K_ret : MRet K := fun A a k => Some (a, k).
#[export] Instance K_bind : MBind K := fun A B f p k =>
  match p k with Some (a, k') => f a k' | None => None end.

Definition modify (f : Inner -> Inner) : K unit := fun k => Some (tt, f k).
Definition gets {A} (f : Inner -> A) : K A := fun k => Some (f k, k).
Definition lift {A} (f : Inner -> A * Inner) : K A := fun k => Some (f k).

(** A draw from [inner.rng]. *)
Definition draw {A} (r : Rand (S := Xoshiro256ss) A) : K A := fun k =>
  match r (k_rng k) with Some (a, g) => Some (a, on_rng (fun _ => g) k) | None => None end.

Fixpoint for_each {A} (f : A -> K unit) (l : list A) : K unit :=
  match l with
  | [] => mret tt
  | x :: rest => f x ≫= fun _ => for_each f rest
  end.

(** ** [impl Inner] *)

Definition count (s : Stat) (n : Z) (k : Inner) : Inner :=
  on_stats (fun st t => if decide (t = s) then st t + n else st t) k.

Definition record (event : Event) (k : Inner) : Inner :=
  k |> count events 1 |> on_trace (Trace.record (k_now k) (k_seq k) event).

Definition schedule (delay : Nanos) (action : Action) (k : Inner) : Inner :=
  let k := on_seq (fun s => s +64 1) k in
  on_timers (heap_push (mkTimer (sadd64 (k_now k) delay) (k_seq k) action)) k.

Definition is_blocked (from to : NodeId) (k : Inner) : bool :=
  0 <? default 0 (k_blocked k !! (from, to)).

Definition is_runnable (k : Inner) (id : TaskId) : bool :=
  match k_tasks k !! id with
  | Some slot =>
      match k_nodes k !! tk_node slot with
      | Some n => nd_up n && negb (nd_paused n)
      | None => false
      end
  | None => false
  end.

Definition runnable (k : Inner) : list TaskId :=
  filter (fun id => is_runnable k id = true) (sorted_elements (k_ready k)).

(** The nodes that satisfy a test, in key order. *)
Definition nodes_where (p : NodeState -> bool) (k : Inner) : list NodeId :=
  filter (fun id => match k_nodes k !! id with Some n => p n | None => false end = true)
    (sorted_elements (dom (k_nodes k))).

Definition servers (k : Inner) : list NodeId := nodes_where (fun n => bool_decide (nd_role n = Server)) k.

Definition Kernel_new (seed : Z) (policy : FaultPolicy) (mode : TraceMode) : Inner :=
  mkInner 0 0 [] ∅ ∅ 1 None (Xoshiro_from_seed seed) (Recorder_new mode) ∅ ∅ policy 1
    (fun _ => 0) false true ∅ 0 None.

Definition mark_ready (id : TaskId) (k : Inner) : Inner := on_ready (fun r => {[id]} ∪ r) k.

Definition wake_all (ids : list TaskId) (k : Inner) : Inner :=
  fold_left (fun k id => mark_ready id k) ids k.

Definition on_node (node : NodeId) (f : NodeState -> NodeState) (k : Inner) : Inner :=
  on_nodes (alter f node) k.

(** ** Futures *)

Definition TimerSlot_alloc (k : Inner) : Z * Inner :=
  (k_next_slot k, k |> on_slots <[k_next_slot k := TimerSlot_new]> |> on_next_slot (fun s => s + 1)).

Inductive Poll (A : Type) : Type := Ready (a : A) | Pending.
#[global] Arguments Ready {A} _.
#[global] Arguments Pending {A}.

(** [TimerFuture::poll] with the waker of task [id]. *)
Definition TimerFuture_poll (slot : Z) (id : TaskId) (k : Inner) : Poll unit * Inner :=
  match k_slots k !! slot with
  | Some s =>
      if sl_fired s then (Ready tt, k)
      else (Pending, on_slots <[slot := mkTimerSlot (sl_fired s) (Some id)]> k)
  | None => (Pending, k)
  end.

(** [YieldOnce::poll]: the result, the new flag, the kernel. *)
Definition YieldOnce_poll (done : bool) (id : TaskId) (k : Inner) : Poll unit * bool * Inner :=
  if done then (Ready tt, done, k) else (Pending, true, mark_ready id k).

Definition RecvFuture_poll (node : NodeId) (id : TaskId) (k : Inner) : Poll (option Envelope) * Inner :=
  match k_nodes k !! node with
  | None => (Ready None, k)
  | Some n =>
      if negb (nd_up n) then (Ready None, k)
      else match nd_mailbox n with
           | env :: rest => (Ready (Some env), on_node node (set_mailbox rest) k)
           | [] => (Pending, on_node node (set_recv_waiters (nd_recv_waiters n ++ [id])) k)
           end
  end.

(** ** The clock *)

(** Division of [i128] truncates. A crystal that stands still, at minus one
    million, would divide by zero in [sleep]; [Z.quot] gives zero there. *)
Definition apply_drift (t : Nanos) (ppm : Z) : Nanos :=
  if ppm =? 0 then t
  else Z.min (Z.max 0 (t + Z.quot (t * ppm) 1000000)) (U64 - 1).

Definition node_drift (node : NodeId) (k : Inner) : Z :=
  match k_nodes k !! node with Some n => nd_drift_ppm n | None => 0 end.

Definition clock_now (node : NodeId) (k : Inner) : Nanos :=
  let '(skew, ppm) := match k_nodes k !! node with Some n => (nd_skew n, nd_drift_ppm n) | None => (0, 0) end in
  Nanos_offset (apply_drift (k_now k) ppm) skew.

Definition monotonic (node : NodeId) (k : Inner) : Nanos := apply_drift (k_now k) (node_drift node k).

(** How long a sleep lasts in true time. *)
Definition true_duration (dur : Nanos) (ppm : Z) : Nanos :=
  if ppm =? 0 then dur else Z.max 0 (Z.quot (dur * 1000000) (1000000 + ppm)) mod U64.

Definition sleep (node : NodeId) (dur : Nanos) (k : Inner) : Z * Inner :=
  let '(slot, k) := TimerSlot_alloc k in
  let true_dur := true_duration dur (node_drift node k) in
  let task := default 0 (k_current k) in
  let until := sadd64 (k_now k) true_dur in
  (slot, k |> record (EvSleep node task until) |> schedule true_dur (Fire slot)).

(** ** The network *)

Definition drop_packet (from to msg : Z) (why : DropReason) (k : Inner) : Inner :=
  k |> count msgs_dropped 1 |> record (EvDropped from to msg why).

(** The closure [deliver] of [send]. *)
Definition deliver_later (fuel : nat) (from to msg : Z) (payload : Bytes) : K unit :=
  latency ← gets (fun k => lk_latency (fp_link (k_policy k)));
  d ← draw (sample fuel latency);
  modify (schedule d (Deliver from to msg payload)).

(** [payload[idx] ^= 1 << bit]. *)
Definition flip_bit (payload : Bytes) (idx : nat) (bit : Z) : Bytes :=
  alter (fun b => Z.lxor b (2 ^ bit)) idx payload.

Definition maybe_corrupt (fuel : nat) (from to msg : Z) (payload : Bytes) : K Bytes :=
  rate ← gets (fun k => lk_corrupt_ppm (fp_link (k_policy k)));
  hit ← draw (ppm fuel rate);
  if hit && negb (bool_decide (payload = [])) then
    idx ← draw (below fuel (Z.of_nat (length payload)));
    bit ← draw (below fuel 8);
    _ ← modify (fun k => k |> count msgs_corrupted 1 |> record (EvCorrupted from to msg idx));
    mret (flip_bit payload (Z.to_nat idx) bit)
  else mret payload.

Definition maybe_duplicate (fuel : nat) (from to msg : Z) (payload : Bytes) : K unit :=
  rate ← gets (fun k => duplicate_ppm (fp_link (k_policy k)));
  hit ← draw (ppm fuel rate);
  if (hit : bool) then
    _ ← modify (fun k => k |> count msgs_duplicated 1 |> record (EvDuplicated from to msg));
    deliver_later fuel from to msg payload
  else mret tt.

Definition send (fuel : nat) (from to : NodeId) (payload : Bytes) : K unit :=
  msg ← gets k_next_msg;
  _ ← modify (fun k => k |> on_next_msg (fun m => m +64 1) |> count msgs_sent 1
                         |> record (EvSend from to msg (Z.of_nat (length payload))));
  known ← gets (fun k => bool_decide (is_Some (k_nodes k !! to)));
  if negb known then modify (drop_packet from to msg NodeGone)
  else
    cut ← gets (is_blocked from to);
    if (cut : bool) then modify (drop_packet from to msg Partitioned)
    else
      loss ← gets (fun k => loss_ppm (fp_link (k_policy k)));
      lost ← draw (ppm fuel loss);
      if (lost : bool) then modify (drop_packet from to msg RandomLoss)
      else
        payload ← maybe_corrupt fuel from to msg payload;
        _ ← maybe_duplicate fuel from to msg payload;
        deliver_later fuel from to msg payload.

(** ** Storage *)

Inductive IoFailure : Type := Eio | Enospc.

Definition node_file (node : NodeId) (name : string) (k : Inner) : option FileState :=
  k_nodes k !! node ≫= fun n => nd_files n !! name.

Definition on_file (node : NodeId) (name : string) (f : FileState -> FileState) : Inner -> Inner :=
  on_node node (fun n => set_files (alter f name (nd_files n)) n).

Definition set_pending (p : list PendingOp) (f : FileState) : FileState :=
  mkFile (f_durable f) (f_view f) p.

Definition storage_open (node : NodeId) (name : string) (k : Inner) : result IoFailure unit * Inner :=
  match k_nodes k !! node with
  | None => (Err Eio, k)
  | Some n =>
      (Ok tt, on_node node (fun n => set_files
         (match nd_files n !! name with
          | Some _ => nd_files n
          | None => <[name := FileState_new]> (nd_files n)
          end) n) k)
  end.

(** Strings in the order of the keys of a [BTreeMap]. *)
Definition string_le (a b : string) : Prop := String.leb a b = true.
#[export] Instance string_le_dec a b : Decision (string_le a b).
Proof. unfold string_le. apply _. Defined.

Definition file_names (n : NodeState) : list string :=
  merge_sort string_le (elements (dom (nd_files n))).

Definition storage_list (node : NodeId) (k : Inner) : list string :=
  match k_nodes k !! node with Some n => file_names n | None => [] end.

Definition storage_remove (node : NodeId) (name : string) (k : Inner) : Inner :=
  on_node node (fun n =>
    match nd_files n !! name with
    | Some f => n |> set_files (delete name (nd_files n))
                  |> set_used_bytes (ssub (nd_used_bytes n) (Z.of_nat (length (f_view f))))
    | None => n
    end) k.

(** An operation that completes when a timer fires: the timer, scheduled after a
    delay already drawn. *)
Definition start_timer (delay : Nanos) (k : Inner) : Z * Inner :=
  let '(slot, k) := TimerSlot_alloc k in (slot, schedule delay (Fire slot) k).

Definition sync_dir (fuel : nat) : K Z :=
  dist ← gets (fun k => fsync_latency (fp_disk (k_policy k)));
  d ← draw (sample fuel dist);
  lift (start_timer d).

(** [SimFile::latency]; [which] names the operation. *)
Inductive DiskOp : Type := OpWrite | OpFsync | OpRead.

Definition latency (fuel : nat) (which : DiskOp) : K Nanos :=
  p ← gets (fun k => fp_disk (k_policy k));
  base ← draw (sample fuel match which with
                           | OpWrite => write_latency p
                           | OpFsync => fsync_latency p
                           | OpRead => read_latency p
                           end);
  slow ← draw (ppm fuel (slow_ppm p));
  mret (if (slow : bool) then smul64 base (slow_multiplier p) else base).

(** The end of every operation that waits: a latency, a timer, its slot. *)
Definition wait_for (fuel : nat) (which : DiskOp) : K (result IoFailure Z) :=
  d ← latency fuel which;
  slot ← lift (start_timer d);
  mret (Ok slot).

Definition file_len (node : NodeId) (name : string) (k : Inner) : Z :=
  match node_file node name k with Some f => Z.of_nat (length (f_view f)) | None => 0 end.

Definition file_id_or_zero (node : NodeId) (name : string) (k : Inner) : Z :=
  match node_file node name k with Some _ => file_id name | None => 0 end.

(** Whether the quota refuses a write that grows a file by [growth]. *)
Definition over_quota (n : NodeState) (growth : Z) (k : Inner) : bool :=
  match enospc_after_bytes (fp_disk (k_policy k)) with
  | Some limit => limit <? nd_used_bytes n + growth
  | None => false
  end.

Definition file_write_at (fuel : nat) (node : NodeId) (name : string) (offset : Z) (data : Bytes) :
    K (result IoFailure Z) := fun k =>
  match k_nodes k !! node with
  | None => Some (Err Eio, k)
  | Some n =>
      if negb (nd_up n) then Some (Err Eio, k)
      else
        let len := Z.of_nat (length data) in
        let growth := ssub (offset + len) (file_len node name k) in
        if over_quota n growth k then
          let fid := file_id_or_zero node name k in
          Some (Err Enospc, k |> count enospc 1 |> count enospc 1 |> record (EvEnospc node fid))
        else
          let k := on_node node (fun n => set_used_bytes (nd_used_bytes n + growth) n) k in
          match node_file node name k with
          | None => Some (Err Eio, k)
          | Some _ =>
              k |> on_file node name (file_op (PWrite (Z.to_nat offset) data))
                |> count disk_writes 1 |> count disk_bytes len
                |> record (EvDiskWrite node (file_id name) offset len)
                |> wait_for fuel OpWrite
          end
  end.

(** [read_at], before and after the wait. *)
Definition file_read_start (fuel : nat) (node : NodeId) (name : string) (offset len : Z) :
    K (result IoFailure Z) := fun k =>
  k |> record (EvDiskRead node (file_id_or_zero node name k) offset len) |> wait_for fuel OpRead.

Definition file_read_finish (node : NodeId) (name : string) (offset len : Z) (k : Inner) :
    result IoFailure Bytes :=
  match node_file node name k with
  | None => Err Eio
  | Some f => Ok (sub (f_view f) (Z.to_nat offset) (Z.to_nat len))
  end.

(** [fsync], before the wait: the operations it covers are those pending now. *)
Definition file_fsync_start (fuel : nat) (node : NodeId) (name : string) :
    K (result IoFailure (Z * nat)) := fun k =>
  match node_file node name k with
  | None => Some (Err Eio, k)
  | Some f =>
      let covered := length (f_pending f) in
      let k := k |> count fsyncs 1 |> record (EvFsync node (file_id name) (Z.of_nat covered)) in
      match wait_for fuel OpFsync k with
      | Some (Ok slot, k) => Some (Ok (slot, covered), k)
      | Some (Err e, k) => Some (Err e, k)
      | None => None
      end
  end.

Definition flush (covered : nat) (f : FileState) : FileState :=
  mkFile (fold_left apply_pending (take covered (f_pending f)) (f_durable f)) (f_view f)
    (drop covered (f_pending f)).

(** And after it. *)
Definition file_fsync_finish (node : NodeId) (name : string) (covered : nat) (k : Inner) :
    result IoFailure unit * Inner :=
  match k_nodes k !! node with
  | None => (Err Eio, k)
  | Some n =>
      if negb (nd_up n) then (Err Eio, k)
      else match nd_files n !! name with
           | None => (Err Eio, k)
           | Some _ => (Ok tt, on_file node name (flush covered) k)
           end
  end.

Definition file_truncate (fuel : nat) (node : NodeId) (name : string) (to : Z) :
    K (result IoFailure Z) := fun k =>
  match node_file node name k with
  | None => Some (Err Eio, k)
  | Some f =>
      let freed := ssub (Z.of_nat (length (f_view f))) to in
      k |> on_file node name (file_op (PTruncate (Z.to_nat to)))
        |> on_node node (fun n => set_used_bytes (ssub (nd_used_bytes n) freed) n)
        |> record (EvTruncate node (file_id name) to)
        |> wait_for fuel OpWrite
  end.

(** ** Tasks and notes *)

Definition spawn (node : NodeId) (fut : F) (k : Inner) : Inner :=
  let id := k_next_task k in
  k |> on_next_task (fun t => t +64 1) |> count tasks_spawned 1
    |> on_tasks <[id := mkTask node (Some fut)]> |> on_ready (fun r => {[id]} ∪ r)
    |> record (EvSpawn node id).

Definition note (node : NodeId) (text : Bytes) : Inner -> Inner := record (EvNote node text).

(** A draw from the node's own generator, which its host and its restarts share. *)
Definition node_next_u64 (node : NodeId) (k : Inner) : Z * Inner :=
  match k_nodes k !! node with
  | Some n => let '(v, g) := next_u64 (nd_rng n) in (v, on_node node (set_rng g) k)
  | None => (0, k)
  end.

End Kernel.
