(* ===== verification/Sim.v ===== *)
(** * The simulator: [crates/chrono-sim/src/kernel.rs], second part

    Power loss, crashes and restarts, the chaos sampled at every tick, partitions
    and their healing, and the loop of [run_until]. What a future does when it is
    polled, and what a node's entry point does when it boots, are the parameters
    [poll] and [boot]: computations on the kernel, as arbitrary as the program
    under test. A round of the loop is [run_round]; [run_until] takes the number of
    rounds it may make. A panic that leaves a task is the value [Panicked]. *)

From Stdlib Require Import ZArith Lia.
From stdpp Require Import base tactics list list_numbers gmap sets sorting strings.
From S2P Require Import Prelude Codec Types RaftLog Client Msg Rng Time Wal WalState WalSegments Trace Fault Kernel.

Open Scope Z_scope.

Inductive Polled (F : Type) : Type := Done | Parked (fut : F) | Panicked (message : Bytes).
Arguments Done {F}.
Arguments Parked {F} _.
Arguments Panicked {F} _.

(** How a run ended. *)
Inductive Outcome : Type :=
| Quiesced
| HorizonReached
| Stopped
| Livelock (polls : Z)
| TaskPanicked (node : NodeId) (message : Bytes).

Definition is_failure (o : Outcome) : bool :=
  match o with Livelock _ | TaskPanicked _ _ => true | _ => false end.

Section Sim.
Context {F : Type} (fuel : nat).
Abbreviation K := (K (F := F)).
Abbreviation Inner := (Inner (F := F)).

(** ** Power loss *)

(** What becomes of one pending operation: the bytes on the platter. *)
Definition lose_truncate (node : NodeId) (fid : Z) (size : nat) (durable : Bytes) : K Bytes :=
  rate ← gets (fun k => lost_write_ppm (fp_disk (k_policy k)));
  lost ← draw (ppm fuel rate);
  if (lost : bool) then
    _ ← modify (record (EvLostWrite node fid (Z.of_nat size) 0)); mret durable
  else mret (take size durable).

(** How much of a torn write is kept: a prefix that ends where a sector does. *)
Definition torn_bytes (sector offset total keep_sectors : Z) : Z :=
  if keep_sectors =? 0 then 0
  else Z.min (ssub ((offset / sector + keep_sectors) * sector) offset) total.

Definition lose_write (node : NodeId) (fid : Z) (offset : nat) (data durable : Bytes) : K Bytes :=
  p ← gets (fun k => fp_disk (k_policy k));
  let at_ := Z.of_nat offset in
  let total := Z.of_nat (length data) in
  let sector := Z.max (sector_size p) 1 in
  lost ← draw (ppm fuel (lost_write_ppm p));
  if (lost : bool) then
    _ ← modify (fun k => k |> count lost_writes 1 |> record (EvLostWrite node fid at_ total));
    mret durable
  else
    torn ← draw (ppm fuel (torn_write_ppm p));
    if torn && (0 <? total) then
      let sectors := (at_ + total - 1) / sector - at_ / sector + 1 in
      keep_sectors ← draw (below fuel sectors);
      let keep_bytes := torn_bytes sector at_ total keep_sectors in
      _ ← modify (fun k => k |> count torn_writes 1
                             |> record (EvTornWrite node fid at_ keep_bytes total));
      mret (if 0 <? keep_bytes then write_at durable offset (take (Z.to_nat keep_bytes) data)
            else durable)
    else mret (write_at durable offset data).

Definition lose_op (node : NodeId) (fid : Z) (op : PendingOp) (durable : Bytes) : K Bytes :=
  match op with
  | PTruncate size => lose_truncate node fid size durable
  | PWrite offset data => lose_write node fid offset data durable
  end.

Fixpoint lose_ops (node : NodeId) (fid : Z) (ops : list PendingOp) (durable : Bytes) : K Bytes :=
  match ops with
  | [] => mret durable
  | op :: rest => durable ← lose_op node fid op durable; lose_ops node fid rest durable
  end.

(** One file: every pending operation meets its fate, and the page cache goes. *)
Definition lose_file (node : NodeId) (name : string) : K unit :=
  f ← gets (node_file node name);
  match f with
  | None => mret tt
  | Some f =>
      durable ← lose_ops node (file_id name) (f_pending f) (f_durable f);
      modify (on_file node name (fun _ => mkFile durable durable []))
  end.

Definition power_loss (node : NodeId) : K unit :=
  names ← gets (storage_list node);
  for_each (lose_file node) names.

(** ** Crashes *)

(** The tasks of a node are reaped. *)
Definition reap (node : NodeId) (k : Inner) : Inner :=
  let doomed := filter (fun id => match k_tasks k !! id with
                                  | Some s => bool_decide (tk_node s = node)
                                  | None => false
                                  end = true) (sorted_elements (dom (k_tasks k))) in
  fold_left (fun k id => k |> on_tasks (delete id) |> on_ready (fun r => r ∖ {[id]})) doomed k.

Definition kill_node (n : NodeState) : NodeState :=
  n |> set_up false |> set_paused false |> set_mailbox [] |> set_recv_waiters [].

(** [crash_in_lock]: the receivers are not woken. *)
Definition crash_in_lock (node : NodeId) : K unit := fun k =>
  match k_nodes k !! node with
  | None => Some (tt, k)
  | Some n =>
      if negb (nd_up n) then Some (tt, k)
      else k |> on_node node kill_node |> count crashes 1 |> record (EvCrash node) |> reap node
             |> power_loss node
  end.

(** [do_crash], [Sim::crash]: they are, once the lock is released. *)
Definition do_crash (node : NodeId) : K unit := fun k =>
  match k_nodes k !! node with
  | None => Some (tt, k)
  | Some n =>
      if negb (nd_up n) then Some (tt, k)
      else match k |> on_node node kill_node |> count crashes 1 |> record (EvCrash node)
                   |> reap node |> power_loss node with
           | Some (_, k) => Some (tt, wake_all (nd_recv_waiters n) k)
           | None => None
           end
  end.

(** ** Partitions *)

Definition block (l : NodeId * NodeId) : Inner -> Inner :=
  on_blocked (fun m => <[l := default 0 (m !! l) + 1]> m).

(** The links a cut between [x] and [y] blocks, in the order they are pushed. *)
Definition links_of (one_way : bool) (xy : NodeId * NodeId) : list (NodeId * NodeId) :=
  if one_way then [xy] else [xy; (xy.2, xy.1)].

Definition cut_pair (one_way : bool) (k : Inner) (xy : NodeId * NodeId) : Inner :=
  record (EvPartition xy.1 xy.2 one_way) (fold_left (fun k l => block l k) (links_of one_way xy) k).

(** The nested loops over two groups. *)
Definition cut_groups (a b : list NodeId) (one_way : bool) (k : Inner) : Inner :=
  fold_left (cut_pair one_way) (list_prod a b) k.

Definition partition (a b : list NodeId) (one_way : bool) (k : Inner) : Inner :=
  k |> cut_groups a b one_way |> count partitions 1.

(** One round of the loop of [Action::Heal]. *)
Definition heal_link (k : Inner) (l : NodeId * NodeId) : Inner :=
  match k_blocked k !! l with
  | None => k
  | Some c =>
      let c := ssub c 1 in
      if c =? 0 then k |> on_blocked (delete l) |> record (EvHeal l.1 l.2)
      else on_blocked <[l := c]> k
  end.

Definition sorted_links (m : gmap (NodeId * NodeId) Z) : list (NodeId * NodeId) :=
  merge_sort (fun x y => x.1 < y.1 \/ x.1 = y.1 /\ x.2 <= y.2) (elements (dom m)).

Definition heal_all (k : Inner) : Inner :=
  let k := fold_left (fun k l => record (EvHeal l.1 l.2) k) (sorted_links (k_blocked k)) k in
  let k := on_blocked (fun _ => ∅) k in
  let resumed := nodes_where nd_paused k in
  let wake := concat (map (fun id => match k_nodes k !! id with
                                     | Some n => nd_recv_waiters n
                                     | None => []
                                     end) resumed) in
  let k := fold_left (fun k id => on_node id (fun n => n |> set_paused false |> set_recv_waiters []) k)
             resumed k in
  let k := fold_left (fun k id => record (EvResume id) k) resumed k in
  wake_all wake k.

(** ** Chaos *)

Definition scale (tick : Nanos) (ppm_per_sec : Z) : Z :=
  Z.min ((ppm_per_sec *64 tick) / NANOS_PER_SEC) 1000000.

Definition chaos_partition (policy : ChaosPolicy) (tick : Nanos) (servers : list NodeId) : K unit :=
  hit ← draw (ppm fuel (scale tick (partition_ppm_per_sec policy)));
  if (hit : bool) then
    shuffled ← draw (shuffle fuel servers);
    cut ← draw (range fuel 1 (Z.of_nat (length shuffled)));
    let a := take (Z.to_nat cut) shuffled in
    let b := drop (Z.to_nat cut) shuffled in
    one_way ← draw (ppm fuel (asymmetric_ppm policy));
    let links := concat (map (links_of one_way) (list_prod a b)) in
    _ ← modify (partition a b one_way);
    dur ← draw (sample fuel (partition_duration policy));
    modify (schedule dur (Heal links))
  else mret tt.

Definition chaos_pause (policy : ChaosPolicy) (tick : Nanos) (servers : list NodeId) : K unit :=
  hit ← draw (ppm fuel (scale tick (pause_ppm_per_sec policy)));
  if (hit : bool) then
    candidates ← gets (fun k => filter (fun id => match k_nodes k !! id with
                                                  | Some n => nd_up n && negb (nd_paused n)
                                                  | None => false
                                                  end = true) servers);
    i ← draw (pick_index fuel (Z.of_nat (length candidates)));
    match i ≫= fun i => candidates !! Z.to_nat i with
    | None => mret tt
    | Some node =>
        dur ← draw (sample fuel (pause_duration policy));
        modify (fun k =>
          let until := sadd64 (k_now k) dur in
          k |> on_node node (set_paused true) |> count pauses 1
            |> record (EvPause node until) |> schedule dur (Resume node))
    end
  else mret tt.

(** [i64::saturating_add]. *)
Definition sadd_i64 (x y : Z) : Z := Z.max (- 2 ^ 63) (Z.min (2 ^ 63 - 1) (x + y)).

Definition chaos_clock_step (tick : Nanos) (servers : list NodeId) : K unit :=
  clock ← gets (fun k => fp_clock (k_policy k));
  hit ← draw (ppm fuel (scale tick (step_ppm_per_sec clock)));
  if (hit : bool) then
    if 0 <? max_step clock then
      i ← draw (pick_index fuel (Z.of_nat (length servers)));
      match i ≫= fun i => servers !! Z.to_nat i with
      | None => mret tt
      | Some node =>
          v ← draw (range fuel 0 (2 * max_step clock + 1));
          let delta := v - max_step clock in
          modify (fun k => k |> on_node node (fun n => set_skew (sadd_i64 (nd_skew n) delta) n)
                             |> record (EvClockStep node delta))
      end
    else mret tt
  else mret tt.

Definition chaos_crash (policy : ChaosPolicy) (tick : Nanos) (servers : list NodeId) : K unit :=
  hit ← draw (ppm fuel (scale tick (crash_ppm_per_sec policy)));
  if (hit : bool) then
    alive ← gets (fun k => filter (fun id => match k_nodes k !! id with
                                             | Some n => nd_up n
                                             | None => false
                                             end = true) servers);
    if (min_alive policy <? length alive)%nat then
      i ← draw (pick_index fuel (Z.of_nat (length alive)));
      match i ≫= fun i => alive !! Z.to_nat i with
      | None => mret tt
      | Some node =>
          _ ← crash_in_lock node;
          delay ← draw (sample fuel (restart_delay policy));
          modify (schedule delay (Restart node))
      end
    else mret tt
  else mret tt.

(** [chaos_tick], with the rescheduling that follows it. *)
Definition chaos_tick : K Nanos :=
  tick ← gets (fun k => chaos_tick_every (k_policy k));
  on ← gets k_chaos_on;
  if negb on then mret tick
  else
    policy ← gets (fun k => fp_chaos (k_policy k));
    all ← gets servers;
    if (length all <? 2)%nat then mret tick
    else
      _ ← chaos_partition policy tick all;
      _ ← chaos_pause policy tick all;
      _ ← chaos_clock_step tick all;
      _ ← chaos_crash policy tick all;
      mret tick.

(** ** The public simulator *)

Definition add_node (id : NodeId) (role : Role) : K unit :=
  clock ← gets (fun k => fp_clock (k_policy k));
  let '(max_skew, max_drift) :=
    match role with Client => (0, 0) | Server => (max_skew clock, max_drift_ppm clock) end in
  skew ← (if max_skew =? 0 then mret 0
          else v ← draw (range fuel 0 (2 * max_skew + 1)); mret (v - max_skew));
  drift ← (if max_drift =? 0 then mret 0
           else v ← draw (range fuel 0 (2 * max_drift + 1)); mret (v - max_drift));
  node_rng ← draw (fun g => Some (fork g));
  modify (on_nodes <[id := mkNode role false false [] [] ∅ skew drift 0 0 node_rng]>).

Definition is_up (node : NodeId) (k : Inner) : bool :=
  match k_nodes k !! node with Some n => nd_up n && negb (nd_paused n) | None => false end.

Definition alive (k : Inner) : list NodeId := nodes_where (fun n => nd_up n && negb (nd_paused n)) k.

Definition has_partitions (k : Inner) : bool := bool_decide (k_blocked k <> ∅).

Definition alive_servers (k : Inner) : nat :=
  length (nodes_where (fun n => bool_decide (nd_role n = Server) && nd_up n && negb (nd_paused n)) k).

Definition stop : Inner -> Inner := on_stop (fun _ => true).
Definition set_chaos (on : bool) : Inner -> Inner := on_chaos_on (fun _ => on).

(** ** The loop *)

Section Loop.
Context (poll : F -> TaskId -> K (Polled F)) (boot : NodeId -> K unit).

Definition start_node (n : NodeState) : NodeState :=
  n |> set_up true |> set_paused false |> set_boots (nd_boots n + 1).

(** [boot_node], [Sim::restart]. *)
Definition boot_node (id : NodeId) : K unit := fun k =>
  match k_nodes k !! id with
  | None => Some (tt, k)
  | Some n =>
      if nd_up n then Some (tt, k)
      else
        let first := nd_boots n + 1 =? 1 in
        let k := k |> on_node id start_node |> record (if first then EvBoot id else EvRestart id) in
        let k := if first then k else count restarts 1 k in
        boot id k
  end.

Definition boot_all : K unit :=
  ids ← gets (fun k => sorted_elements (dom (k_nodes k)));
  _ ← for_each boot_node ids;
  modify (fun k =>
    if is_active (fp_chaos (k_policy k)) || (0 <? step_ppm_per_sec (fp_clock (k_policy k)))
    then schedule (chaos_tick_every (k_policy k)) ChaosTick k
    else k).

Definition pick_runnable : K (option TaskId) :=
  ids ← gets runnable;
  match ids with
  | [] =>
      _ ← modify (fun k => on_ready (filter (fun id => is_Some (k_tasks k !! id))) k);
      mret None
  | _ =>
      i ← draw (pick_index fuel (Z.of_nat (length ids)));
      match i ≫= fun i => ids !! Z.to_nat i with
      | None => mret None
      | Some id => _ ← modify (on_ready (fun r => r ∖ {[id]})); mret (Some id)
      end
  end.

Definition poll_task (id : TaskId) : K unit := fun k =>
  match k_tasks k !! id with
  | Some (mkTask node (Some fut)) =>
      let k := k |> on_tasks <[id := mkTask node None]> |> on_current (fun _ => Some id)
                 |> count polls 1 |> record (EvPoll node id) in
      match poll fut id k with
      | None => None
      | Some (r, k) =>
          let k := on_current (fun _ => None) k in
          Some (tt,
            match r with
            | Done => k |> on_tasks (delete id) |> record (EvTaskDone node id)
            | Parked fut => on_tasks (alter (fun s => mkTask (tk_node s) (Some fut)) id) k
            | Panicked message => k |> on_tasks (delete id) |> on_panic (fun _ => Some (node, message))
            end)
      end
  | _ => Some (tt, k)
  end.

(** The events of the heap that share the instant [at_], at most [n] of them, as
    they are popped, and what is left of the heap. *)
Fixpoint drain_tied (n : nat) (at_ : Nanos) (h : TimerHeap) : list Timer * TimerHeap :=
  match n with
  | O => ([], h)
  | S n =>
      match heap_pop h with
      | Some (t, h') =>
          if t_at t =? at_ then let '(tied, h'') := drain_tied n at_ h' in (t :: tied, h'')
          else ([], h)
      | None => ([], h)
      end
  end.

(** [Vec::swap_remove]. *)
Definition swap_remove {A} (i : nat) (l : list A) : option (A * list A) :=
  match l !! i, last l with
  | Some x, Some y => Some (x, take (length l - 1) (<[i := y]> l))
  | _, _ => None
  end.

Definition next_timer (horizon : Nanos) : K (option Timer) := fun k =>
  match heap_peek (k_timers k) with
  | None => Some (None, k)
  | Some t =>
      let at_ := t_at t in
      if horizon <? at_ then Some (None, on_now (fun _ => horizon) k)
      else
        let '(tied, rest) := drain_tied 64 at_ (k_timers k) in
        let k := on_timers (fun _ => rest) k in
        match (if (length tied =? 1)%nat then mret 0 else draw (below fuel (Z.of_nat (length tied)))) k with
        | None => None
        | Some (idx, k) =>
            match swap_remove (Z.to_nat idx) tied with
            | None => Some (None, k)
            | Some (chosen, tied) =>
                Some (Some chosen,
                  k |> on_timers (fun h => fold_left (fun h t => heap_push t h) tied h)
                    |> on_now (fun _ => at_))
            end
        end
  end.

Definition fire_slot (slot : Z) (k : Inner) : Inner :=
  match k_slots k !! slot with
  | None => k
  | Some s =>
      let k := on_slots <[slot := mkTimerSlot true None]> k in
      match sl_waker s with Some id => mark_ready id k | None => k end
  end.

Definition deliver_packet (from to msg : Z) (payload : Bytes) (k : Inner) : Inner :=
  match k_nodes k !! to with
  | Some n =>
      if nd_up n then
        k |> count msgs_delivered 1
          |> record (EvDeliver from to msg (Z.of_nat (length payload)))
          |> on_node to (fun n => n |> set_mailbox (nd_mailbox n ++ [mkEnvelope from to payload msg])
                                    |> set_recv_waiters [])
          |> wake_all (nd_recv_waiters n)
      else drop_packet from to msg NodeDown k
  | None => drop_packet from to msg NodeDown k
  end.

Definition resume (node : NodeId) (k : Inner) : Inner :=
  match k_nodes k !! node with
  | Some n =>
      if nd_paused n then k |> on_node node (set_paused false) |> record (EvResume node) else k
  | None => k
  end.

Definition fire (t : Timer) : K unit :=
  _ ← modify (on_seq (fun _ => t_seq t));
  match t_action t with
  | Fire slot => modify (fire_slot slot)
  | Deliver from to msg payload => modify (deliver_packet from to msg payload)
  | ChaosTick => tick ← chaos_tick; modify (schedule tick ChaosTick)
  | Restart node => boot_node node
  | Heal links => modify (fold_left heal_link links)
  | Resume node => modify (resume node)
  end.

Definition LIVELOCK_BUDGET : Z := 2000000.

(** One round of the loop of [run_until]: the outcome, or the polls since the
    last event. *)
Definition run_round (horizon : Nanos) (polls_since : Z) : K (Outcome + Z) := fun k =>
  if k_stop k then Some (inl Stopped, k)
  else match k_panic k with
  | Some (node, message) => Some (inl (TaskPanicked node message), on_panic (fun _ => None) k)
  | None =>
      match pick_runnable k with
      | None => None
      | Some (Some id, k) =>
          match poll_task id k with
          | None => None
          | Some (_, k) =>
              let n := polls_since + 1 in
              Some (if LIVELOCK_BUDGET <? n then inl (Livelock n) else inr n, k)
          end
      | Some (None, k) =>
          match next_timer horizon k with
          | None => None
          | Some (Some t, k) => match fire t k with None => None | Some (_, k) => Some (inr 0, k) end
          | Some (None, k) =>
              Some (inl (if horizon <=? k_now k then HorizonReached else Quiesced), k)
          end
      end
  end.

Fixpoint run_loop (rounds : nat) (horizon : Nanos) (polls_since : Z) : K Outcome := fun k =>
  match rounds with
  | O => None
  | S rounds =>
      match run_round horizon polls_since k with
      | None => None
      | Some (inl outcome, k) => Some (outcome, k)
      | Some (inr polls_since, k) => run_loop rounds horizon polls_since k
      end
  end.

Definition run_until (rounds : nat) (horizon : Nanos) : K Outcome := run_loop rounds horizon 0.

End Loop.

End Sim.
