(* ===== verification/KernelRun.v ===== *)
(** * Virtual time and the scheduler

    The theorems about the loop of the simulator: towards a horizon that is not in
    the past virtual time never moves back,
    events happen in time order, a run ends as its outcome says, and a task that
    never lets time pass is reported. [extends] is what everything but the clock
    does to the kernel, [Keeps] says that a computation does no more, and
    [kernel_call] lists what a task may ask the kernel for. *)

From Stdlib Require Import ZArith Lia.
From stdpp Require Import base tactics list list_numbers gmap sets sorting strings relations.
From S2P Require Import Prelude Codec Types RaftLog Client Msg Rng Time Wal WalState WalSegments Trace Fault Kernel Sim.

Open Scope Z_scope.

(** ** Policies with proper durations *)

Definition dist_ok (d : LatencyDist) : Prop := Forall (fun b => 0 <= b_lo b) d.

Definition policy_ok (p : FaultPolicy) : Prop :=
  dist_ok (lk_latency (fp_link p)) /\ dist_ok (write_latency (fp_disk p)) /\
  dist_ok (fsync_latency (fp_disk p)) /\ dist_ok (read_latency (fp_disk p)) /\
  dist_ok (partition_duration (fp_chaos p)) /\ dist_ok (restart_delay (fp_chaos p)) /\
  dist_ok (pause_duration (fp_chaos p)) /\ 0 <= slow_multiplier (fp_disk p) /\ 0 <= chaos_tick_every p.

#[export] Instance dist_ok_dec d : Decision (dist_ok d).
Proof. unfold dist_ok. apply _. Defined.
#[export] Instance policy_ok_dec p : Decision (policy_ok p).
Proof. unfold policy_ok. apply _. Defined.

Lemma presets_ok name p : preset name = Some p -> policy_ok p.
Proof.
  unfold preset. repeat case_match; intros [= <-]; by_decide.
Qed.

Lemma range_nonneg {S} `{!Rng S} fuel lo hi s v s' :
  0 <= lo -> range fuel lo hi s = Some (v, s') -> 0 <= v.
Proof.
  intros Hlo. unfold range. destruct (hi <=? lo); [by intros [= <- _]|]. intros H.
  apply bind_Some in H as (x & s1 & _ & [= <- _]). apply wadd64_range.
Qed.

Lemma Forall_last {A} (P : A -> Prop) x l d : Forall P (x :: l) -> P (List.last (x :: l) d).
Proof.
  revert x. induction l as [|y l IH]; intros x H; [by inversion H|]. apply (IH y). by inversion H.
Qed.

Lemma sample_nonneg {S} `{!Rng S} fuel d s v s' : dist_ok d -> sample fuel d s = Some (v, s') -> 0 <= v.
Proof.
  intros Hd. unfold sample. destruct d as [|first rest]; [done|].
  destruct (_ =? 0); [intros [= <- _]; by inversion Hd|].
  intros H. apply bind_Some in H as (r & s1 & _ & H). eapply range_nonneg; [|exact H].
  destruct (walk 0 r _ ≫= _) as [b|] eqn:E; cbn [default]; [|by apply (Forall_last (fun b => 0 <= b_lo b))].
  apply stdpp.option.bind_Some in E as (i & _ & E). apply (Forall_lookup_1 _ _ _ _ Hd E).
Qed.

Section Keeps.
Context {F : Type}.
Abbreviation K := (K (F := F)).
Abbreviation Inner := (Inner (F := F)).

(** ** Computations that respect a relation *)

Class Keeps {A} (R : relation Inner) (p : K A) : Prop :=
  keeps : forall k a k', p k = Some (a, k') -> R k k'.

#[export] Instance keeps_ret `{!Reflexive R} {A} (a : A) : Keeps R (mret a).
Proof. intros k x k' [= _ <-]. done. Qed.

(** What the first computation returns may be used to bound what follows. *)
Lemma keeps_bind_with `{!Transitive R} {A B} (p : K A) (f : A -> K B) :
  Keeps R p -> (forall a k k', p k = Some (a, k') -> forall b k'', f a k' = Some (b, k'') -> R k' k'') ->
  Keeps R (p ≫= f).
Proof.
  intros Hp Hf k b k'' H. unfold mbind, K_bind in H. destruct (p k) as [[a k']|] eqn:E; [|done].
  etrans; [by eapply Hp|by eapply Hf].
Qed.

#[export] Instance keeps_bind `{!Transitive R} {A B} (p : K A) (f : A -> K B) :
  Keeps R p -> (forall a, Keeps R (f a)) -> Keeps R (p ≫= f).
Proof. intros Hp Hf. apply keeps_bind_with; [done|]. intros a k k' _ b k'' H. by eapply Hf. Qed.

#[export] Instance keeps_gets `{!Reflexive R} {A} (f : Inner -> A) : Keeps R (gets f).
Proof. intros k x k' [= _ <-]. done. Qed.

#[export] Instance keeps_if {A} R (b : bool) (p q : K A) :
  Keeps R p -> Keeps R q -> Keeps R (if b then p else q).
Proof. by destruct b. Qed.

#[export] Instance keeps_for_each `{!PreOrder R} {A} (f : A -> K unit) l :
  (forall x, Keeps R (f x)) -> Keeps R (for_each f l).
Proof. intros Hf. induction l; simpl; apply _. Qed.

(** A change of the state that the relation allows. *)
Lemma keeps_modify R f : (forall k, R k (f k)) -> Keeps R (modify f).
Proof. intros Hf k x k' [= _ <-]. done. Qed.

Lemma keeps_fold {A} `{!PreOrder R} (f : Inner -> A -> Inner) l k :
  (forall k x, R k (f k x)) -> R k (fold_left f l k).
Proof. intros Hf. revert k. induction l as [|x l IH]; intros k; [done|]. simpl. etrans; [apply Hf|apply IH]. Qed.

(** ** Only the clock moves time *)

Definition good (k : Inner) : Prop := is_u64 (k_now k) /\ policy_ok (k_policy k).

(** From a good state: the clock and the policy stay, and events may be added,
    none of them in the past or beyond the end of time. *)
Definition extends (k k' : Inner) : Prop :=
  good k -> k_now k' = k_now k /\ k_policy k' = k_policy k /\
    exists ts, k_timers k' = k_timers k ++ ts /\ Forall (fun t => k_now k <= t_at t < U64) ts.

#[export] Instance extends_preorder : PreOrder extends.
Proof.
  split.
  - intros k _. split_and!; [done..|]. exists []. by rewrite app_nil_r.
  - intros k1 k2 k3 H1 H2 Hg. destruct (H1 Hg) as (E1 & P1 & ts1 & T1 & F1).
    destruct H2 as (E2 & P2 & ts2 & T2 & F2); [unfold good; by rewrite E1, P1|].
    split_and!; [congruence..|]. exists (ts1 ++ ts2). rewrite T2, T1, app_assoc. split; [done|].
    apply Forall_app. split; [done|]. by rewrite E1 in F2.
Qed.

Lemma extends_same k k' : k_now k' = k_now k -> k_policy k' = k_policy k -> k_timers k' = k_timers k ->
  extends k k'.
Proof. intros E1 E2 E3 _. split_and!; [done..|]. exists []. by rewrite app_nil_r, E3. Qed.

Lemma extends_schedule d a k : 0 <= d -> extends k (schedule d a k).
Proof.
  intros Hd [Hn _]. split_and!; [done..|]. eexists [_]. split; [reflexivity|].
  constructor; [|done]. simpl. unfold sadd64, is_u64 in *. lia.
Qed.

Lemma extends_mark_ready id k : extends k (mark_ready id k).
Proof. by apply extends_same. Qed.

Lemma extends_wake_all ids k : extends k (wake_all ids k).
Proof. apply keeps_fold. intros. apply extends_mark_ready. Qed.

#[export] Instance keeps_draw {A} (r : Rand A) : Keeps extends (draw r).
Proof. intros k a k' H. unfold draw in H. destruct (r _) as [[x g]|]; simplify_eq. by apply extends_same. Qed.

#[export] Instance keeps_record e : Keeps extends (modify (record e)).
Proof. apply keeps_modify. intros. by apply extends_same. Qed.

(** A change that touches none of the clock, the policy and the heap. *)
Lemma keeps_modify_same f :
  (forall k, k_now (f k) = k_now k) -> (forall k, k_policy (f k) = k_policy k) ->
  (forall k, k_timers (f k) = k_timers k) -> Keeps extends (modify f).
Proof. intros. apply keeps_modify. intros. by apply extends_same. Qed.
End Keeps.

(** Steps of the model that leave clock, policy and heap alone, decided by
    computation. *)
#[export] Hint Extern 2 (Keeps extends (modify _)) =>
  apply keeps_modify_same; intros; reflexivity : typeclass_instances.

Section Extends.
Context {F : Type} (fuel : nat).
Abbreviation K := (K (F := F)).
Abbreviation Inner := (Inner (F := F)).

Lemma draw_Some {A} (r : Rand A) (k : Inner) a k' : draw r k = Some (a, k') ->
  exists g, r (k_rng k) = Some (a, g) /\ k' = on_rng (fun _ => g) k.
Proof. unfold draw. destruct (r _) as [[x g]|]; [|done]. intros [= -> <-]. eauto. Qed.

(** Drawing a duration that the policy names, and scheduling after it. *)
Lemma keeps_sample_then {A} (dist : FaultPolicy -> LatencyDist) (f : LatencyDist -> Nanos -> K A) :
  (forall p, policy_ok p -> dist_ok (dist p)) -> (forall d dur, 0 <= dur -> Keeps extends (f d dur)) ->
  Keeps extends (d ← gets (fun k => dist (k_policy k)); dur ← draw (sample fuel d); f d dur).
Proof.
  intros Hd Hf k a k' H Hg. unfold mbind, K_bind, gets in H.
  destruct (draw _ k) as [[dur k1]|] eqn:E; [|done].
  pose proof (keeps_draw _ _ _ _ E Hg) as (E1 & E2 & ts & E3 & E4). apply draw_Some in E as (g & E & ->).
  apply sample_nonneg in E; [|apply Hd, Hg]. eapply Hf in H; [|done]. exact (H Hg).
Qed.

Lemma start_timer_now d k : 0 <= d -> extends (F := F) k (start_timer d k).2.
Proof.
  intros Hd. unfold start_timer, TimerSlot_alloc.
  etrans; [|apply extends_schedule, Hd]. by apply extends_same.
Qed.

Lemma keeps_lift {A} R (f : Inner -> A * Inner) : (forall k, R k (f k).2) -> Keeps R (lift f).
Proof. intros Hf k a k' [= E]. specialize (Hf k). by rewrite E in Hf. Qed.

#[export] Instance keeps_deliver_later from to msg payload :
  Keeps extends (deliver_later (F := F) fuel from to msg payload).
Proof.
  unfold deliver_later. apply (keeps_sample_then (fun p => lk_latency (fp_link p))); [by intros p (? & _)|].
  intros _ d Hd. apply keeps_modify. intros k. by apply extends_schedule.
Qed.

#[export] Instance keeps_send from to payload : Keeps extends (send (F := F) fuel from to payload).
Proof. unfold send, maybe_corrupt, maybe_duplicate. apply _. Qed.

Lemma keeps_latency_then {A} which (f : Nanos -> K A) :
  (forall d, 0 <= d -> Keeps extends (f d)) -> Keeps extends (d ← latency fuel which; f d).
Proof.
  intros Hf k a k' H Hg. unfold mbind, K_bind in H. destruct (latency fuel which k) as [[d k1]|] eqn:E; [|done].
  assert (Hl : Keeps extends (latency (F := F) fuel which)) by (unfold latency; apply _).
  assert (Hd : 0 <= d).
  { unfold latency, mbind, K_bind, gets in E. destruct (draw _ k) as [[base k2]|] eqn:E1; [|done].
    destruct (draw (ppm _ _) k2) as [[slow k3]|] eqn:E2; [|done]. injection E as <- _.
    apply draw_Some in E1 as (g & E1 & _). apply sample_nonneg in E1.
    - destruct slow; [|done]. unfold smul64. destruct Hg as [_ Hp]. unfold policy_ok in Hp. nia.
    - destruct Hg as (_ & _ & H1 & H2 & H3 & _). by destruct which. }
  exact (transitivity (Hl _ _ _ E) (Hf d Hd _ _ _ H) Hg).
Qed.

#[export] Instance keeps_wait_for which : Keeps extends (wait_for (F := F) fuel which).
Proof.
  unfold wait_for. apply keeps_latency_then. intros d Hd. apply keeps_bind; [|apply _].
  apply keeps_lift. intros k. by apply start_timer_now.
Qed.

#[export] Instance keeps_sync_dir : Keeps extends (sync_dir (F := F) fuel).
Proof.
  unfold sync_dir. apply (keeps_sample_then (fun p => fsync_latency (fp_disk p))).
  - by intros p (_ & _ & ? & _).
  - intros _ d Hd. apply keeps_lift. intros k. by apply start_timer_now.
Qed.

Lemma extends_wait which k k1 a k' : k_now k1 = k_now k -> k_policy k1 = k_policy k ->
  k_timers k1 = k_timers k -> wait_for (F := F) fuel which k1 = Some (a, k') -> extends k k'.
Proof. intros E1 E2 E3 H. transitivity k1; [by apply extends_same|by eapply keeps_wait_for]. Qed.

#[export] Instance keeps_write_at node name offset data :
  Keeps extends (file_write_at (F := F) fuel node name offset data).
Proof.
  intros k a k' H. unfold file_write_at in H. repeat case_match; simplify_eq;
    solve [by apply extends_same|by eapply extends_wait; [..|exact H]].
Qed.

#[export] Instance keeps_read_start node name offset len :
  Keeps extends (file_read_start (F := F) fuel node name offset len).
Proof. intros k a k' H. unfold file_read_start in H. by eapply extends_wait; [..|exact H]. Qed.

#[export] Instance keeps_fsync_start node name : Keeps extends (file_fsync_start (F := F) fuel node name).
Proof.
  intros k a k' H. unfold file_fsync_start in H. repeat case_match; simplify_eq;
    solve [by apply extends_same|by eapply extends_wait; [..|eassumption]].
Qed.

#[export] Instance keeps_truncate node name to : Keeps extends (file_truncate (F := F) fuel node name to).
Proof.
  intros k a k' H. unfold file_truncate in H. repeat case_match; simplify_eq;
    solve [by apply extends_same|by eapply extends_wait; [..|exact H]].
Qed.

(** ** What a task may do *)

(** The calls on the handles of a host, and the waking of another task, as the
    channel does. *)
Inductive kernel_call (k : Inner) : Inner -> Prop :=
| call_timer slot id : kernel_call k (TimerFuture_poll slot id k).2
| call_yield done id : kernel_call k (YieldOnce_poll done id k).2
| call_recv node id : kernel_call k (RecvFuture_poll node id k).2
| call_wake id : kernel_call k (mark_ready id k)
| call_sleep node dur : is_u64 dur -> kernel_call k (sleep node dur k).2
| call_send from to payload k' : send fuel from to payload k = Some (tt, k') -> kernel_call k k'
| call_open node name : kernel_call k (storage_open node name k).2
| call_remove node name : kernel_call k (storage_remove node name k)
| call_sync_dir slot k' : sync_dir fuel k = Some (slot, k') -> kernel_call k k'
| call_write node name offset data r k' : 0 <= offset ->
    file_write_at fuel node name offset data k = Some (r, k') -> kernel_call k k'
| call_read node name offset len r k' :
    file_read_start fuel node name offset len k = Some (r, k') -> kernel_call k k'
| call_fsync node name r k' : file_fsync_start fuel node name k = Some (r, k') -> kernel_call k k'
| call_fsync_done node name covered : kernel_call k (file_fsync_finish node name covered k).2
| call_truncate node name to r k' : 0 <= to ->
    file_truncate fuel node name to k = Some (r, k') -> kernel_call k k'
| call_spawn node fut : kernel_call k (spawn node fut k)
| call_note node text : kernel_call k (note node text k)
| call_random node : kernel_call k (node_next_u64 node k).2.

(** A computation made of such calls. *)
Definition calls {A} (p : K A) : Prop := forall k a k', p k = Some (a, k') -> rtc kernel_call k k'.

Lemma true_duration_nonneg dur ppm : is_u64 dur -> 0 <= true_duration dur ppm.
Proof. unfold true_duration, is_u64. destruct (_ =? 0); [lia|]. intros _. apply Z.mod_pos_bound. lia. Qed.

Lemma call_extends k k' : kernel_call k k' -> extends k k'.
Proof.
  destruct 1; try match goal with H : ?p k = Some _ |- _ => exact (keeps (R := extends) (p := p) _ _ _ H) end;
    try (unfold TimerFuture_poll, YieldOnce_poll, RecvFuture_poll, storage_open, storage_remove,
      file_fsync_finish, node_next_u64; repeat case_match; by apply extends_same).
  unfold sleep, TimerSlot_alloc. etrans; [|apply extends_schedule; by apply true_duration_nonneg].
  by apply extends_same.
Qed.

Lemma calls_keep {A} (p : K A) : calls p -> Keeps extends p.
Proof.
  intros Hp k a k' H. apply Hp in H. induction H as [k|k k1 k' H _ IH]; [done|].
  etrans; [by apply call_extends|done].
Qed.
End Extends.

Section Loop.
Context {F : Type} (fuel : nat).
Abbreviation K := (K (F := F)).
Abbreviation Inner := (Inner (F := F)).

#[export] Instance keeps_lose_op node fid op durable : Keeps extends (lose_op (F := F) fuel node fid op durable).
Proof. destruct op; simpl; unfold lose_truncate, lose_write; apply _. Qed.

#[export] Instance keeps_lose_ops node fid ops durable :
  Keeps extends (lose_ops (F := F) fuel node fid ops durable).
Proof. revert durable. induction ops; intros durable; simpl; apply _. Qed.

#[export] Instance keeps_lose_file node name : Keeps extends (lose_file (F := F) fuel node name).
Proof.
  unfold lose_file. apply keeps_bind; [apply _|]. intros [f|]; [|apply _]. apply _.
Qed.

#[export] Instance keeps_power_loss node : Keeps extends (power_loss (F := F) fuel node).
Proof. unfold power_loss. apply _. Qed.

Lemma extends_reap node k : extends (F := F) k (reap node k).
Proof. apply keeps_fold. intros. by apply extends_same. Qed.

Lemma extends_kill node k : extends (F := F) k
  (k |> on_node node kill_node |> count crashes 1 |> record (EvCrash node) |> reap node).
Proof. etrans; [|apply extends_reap]. by apply extends_same. Qed.

#[export] Instance keeps_crash_in_lock node : Keeps extends (crash_in_lock (F := F) fuel node).
Proof.
  intros k a k' H. unfold crash_in_lock in H. repeat case_match; simplify_eq; try done.
  etrans; [apply extends_kill|by eapply keeps_power_loss].
Qed.

#[export] Instance keeps_do_crash node : Keeps extends (do_crash (F := F) fuel node).
Proof.
  intros k a k' H. unfold do_crash in H. repeat case_match; simplify_eq; try done.
  etrans; [apply extends_kill|]. etrans; [by eapply keeps_power_loss|apply extends_wake_all].
Qed.

Lemma extends_cut a b one_way k : extends (F := F) k (partition a b one_way k).
Proof.
  unfold partition. transitivity (cut_groups a b one_way k); [|by apply extends_same].
  apply keeps_fold. intros k1 xy. unfold cut_pair.
  transitivity (fold_left (fun k l => block l k) (links_of one_way xy) k1); [|by apply extends_same].
  apply keeps_fold. intros. by apply extends_same.
Qed.

Lemma extends_heal links k : extends (F := F) k (fold_left heal_link links k).
Proof. apply keeps_fold. intros k1 l. unfold heal_link. repeat case_match; by apply extends_same. Qed.

Lemma keeps_sample {A} d (f : Nanos -> K A) : dist_ok d -> (forall dur, 0 <= dur -> Keeps extends (f dur)) ->
  Keeps extends (dur ← draw (sample fuel d); f dur).
Proof.
  intros Hd Hf. apply keeps_bind_with; [apply _|]. intros dur k k' E.
  apply draw_Some in E as (g & E & _). apply sample_nonneg in E; [|done].
  intros b k'' H. by eapply Hf.
Qed.

Lemma keeps_chaos_partition policy tick servers : dist_ok (partition_duration policy) ->
  Keeps extends (chaos_partition (F := F) fuel policy tick servers).
Proof.
  intros Hd. unfold chaos_partition. apply keeps_bind; [apply _|]. intros []; [|apply _].
  do 3 (apply keeps_bind; [apply _|intros ?]).
  apply keeps_bind; [apply keeps_modify; intros; apply extends_cut|intros _].
  apply keeps_sample; [done|]. intros dur Hdur. apply keeps_modify. intros. by apply extends_schedule.
Qed.

Lemma keeps_chaos_pause policy tick servers : dist_ok (pause_duration policy) ->
  Keeps extends (chaos_pause (F := F) fuel policy tick servers).
Proof.
  intros Hd. unfold chaos_pause. apply keeps_bind; [apply _|]. intros []; [|apply _].
  do 2 (apply keeps_bind; [apply _|intros ?]). case_match; [|apply _].
  apply keeps_sample; [done|]. intros dur Hdur. apply keeps_modify. intros.
  etrans; [|by apply extends_schedule]. by apply extends_same.
Qed.

#[export] Instance keeps_chaos_clock_step tick servers :
  Keeps extends (chaos_clock_step (F := F) fuel tick servers).
Proof.
  unfold chaos_clock_step. do 2 (apply keeps_bind; [apply _|intros ?]). apply keeps_if; [|apply _].
  apply keeps_if; [|apply _]. apply keeps_bind; [apply _|intros i]. case_match; [|apply _]. apply _.
Qed.

Lemma keeps_chaos_crash policy tick servers : dist_ok (restart_delay policy) ->
  Keeps extends (chaos_crash (F := F) fuel policy tick servers).
Proof.
  intros Hd. unfold chaos_crash. apply keeps_bind; [apply _|]. intros []; [|apply _].
  apply keeps_bind; [apply _|intros alive]. case_match; [|apply _].
  apply keeps_bind; [apply _|intros i]. case_match; [|apply _]. apply keeps_bind; [apply _|intros _].
  apply keeps_sample; [done|]. intros dur Hdur. apply keeps_modify. intros. by apply extends_schedule.
Qed.

(** A tick of chaos, with its own rescheduling. *)
#[export] Instance keeps_chaos_tick :
  Keeps extends (tick ← chaos_tick (F := F) fuel; modify (schedule tick ChaosTick)).
Proof.
  intros k a k' H Hg. pose proof Hg as (_ & _ & _ & _ & _ & H1 & H2 & H3 & _ & H4).
  assert (Ht : forall p : K unit, Keeps extends p -> forall k a k',
    (tick ← (_ ← p; mret (chaos_tick_every (k_policy k))); modify (schedule tick ChaosTick)) k = Some (a, k') ->
    good k -> 0 <= chaos_tick_every (k_policy k) -> extends k k').
  { intros p Hp k0 a0 k0' H0 Hg0 Ht0. unfold mbind, K_bind, mret, K_ret in H0.
    destruct (p k0) as [[[] k1]|] eqn:E; [|done]. injection H0 as _ <-.
    transitivity k1; [by eapply Hp|by apply extends_schedule]. }
  unfold chaos_tick in H. unfold mbind at 1, K_bind at 1 in H. unfold mbind at 1, K_bind at 1 in H.
  unfold gets at 1 in H. unfold mbind at 1, K_bind at 1, gets at 1 in H.
  destruct (negb (k_chaos_on k)).
  { exact (Ht (mret tt) _ k a k' H Hg H4 Hg). }
  unfold mbind at 1, K_bind at 1, gets at 1 in H. unfold mbind at 1, K_bind at 1, gets at 1 in H.
  destruct (_ <? 2)%nat.
  { exact (Ht (mret tt) _ k a k' H Hg H4 Hg). }
  set (policy := fp_chaos (k_policy k)) in *. set (tick := chaos_tick_every (k_policy k)) in *.
  set (all := servers k) in *.
  set (p := _ ← chaos_partition fuel policy tick all; _ ← chaos_pause fuel policy tick all;
            _ ← chaos_clock_step fuel tick all; chaos_crash (F := F) fuel policy tick all).
  assert (Hp : Keeps extends p).
  { apply keeps_bind; [by apply keeps_chaos_partition|intros _].
    apply keeps_bind; [by apply keeps_chaos_pause|intros _].
    apply keeps_bind; [apply _|intros _]. by apply keeps_chaos_crash. }
  refine (Ht p Hp k a k' _ Hg H4 Hg). rewrite <- H. unfold p, mbind, K_bind, mret, K_ret.
  repeat case_match; simplify_eq; reflexivity.
Qed.
End Loop.

(** ** The heap *)

Lemma heap_pop_spec h m r : heap_pop h = Some (m, r) ->
  h ≡ₚ m :: r /\ Forall (fun t => Timer_le m t = true) h.
Proof.
  revert m r. induction h as [|t h IH]; intros m r H; [done|]. simpl in H.
  assert (Hrefl : forall t, Timer_le t t = true).
  { intros t0. unfold Timer_le. rewrite Z.eqb_refl, Z.leb_refl. by rewrite orb_true_r. }
  destruct (heap_pop h) as [[m' r']|] eqn:E.
  - destruct (IH _ _ eq_refl) as [Hp Hm]. destruct (Timer_le t m') eqn:El; injection H as <- <-.
    + split; [done|]. constructor; [apply Hrefl|]. eapply Forall_impl; [exact Hm|]. intros x Hx.
      unfold Timer_le in *. lia.
    + split; [by rewrite Hp, perm_swap|]. constructor; [|done]. unfold Timer_le in *. lia.
  - destruct h as [|t' h]; [|simpl in E; by destruct (heap_pop h) as [[]|]; [destruct (Timer_le _ _)|]].
    injection H as <- <-. split; [done|]. by constructor.
Qed.

Lemma heap_pop_none h : heap_pop h = None -> h = [].
Proof.
  destruct h as [|t h]; [done|]. simpl. destruct (heap_pop h) as [[]|]; [|done]. by destruct (Timer_le _ _).
Qed.

Lemma drain_tied_spec n at_ h tied rest : drain_tied n at_ h = (tied, rest) ->
  h ≡ₚ tied ++ rest /\ Forall (fun t => t_at t = at_) tied.
Proof.
  revert h tied rest. induction n as [|n IH]; intros h tied rest H; simpl in H; [by simplify_eq|].
  destruct (heap_pop h) as [[t h']|] eqn:E; [|by simplify_eq].
  destruct (Z.eqb_spec (t_at t) at_) as [Ht|]; [|by simplify_eq].
  destruct (drain_tied n at_ h') as [tied' rest'] eqn:E'. injection H as <- <-.
  apply heap_pop_spec in E as [Hp _]. apply IH in E' as [Hp' Hf]. split; [|by constructor].
  by rewrite Hp, Hp'.
Qed.

Lemma drain_nonempty n h m r tied rest : heap_pop h = Some (m, r) ->
  drain_tied (S n) (t_at m) h = (tied, rest) -> (0 < length tied)%nat.
Proof.
  intros Ep H. cbn [drain_tied] in H. rewrite Ep, Z.eqb_refl in H.
  destruct (drain_tied n _ r). injection H as <- _. simpl. lia.
Qed.

Lemma swap_remove_perm {A} i (l : list A) x l' : swap_remove i l = Some (x, l') -> l ≡ₚ x :: l'.
Proof.
  unfold swap_remove. destruct (l !! i) as [a|] eqn:Ei; [|done]. destruct (last l) as [y|] eqn:El; [|done].
  intros [= <- <-]. apply last_Some in El as [l0 ->]. rewrite length_app. simpl.
  replace (length l0 + 1 - 1)%nat with (length l0) by lia.
  destruct (decide (i < length l0)%nat) as [Hi|Hi].
  - rewrite insert_app_l, take_app_length' by (by rewrite ?length_insert).
    rewrite lookup_app_l in Ei by done. apply list_elem_of_split_length in Ei as (l1 & l2 & -> & ->).
    rewrite insert_app_r_alt, Nat.sub_diag by lia. simpl. solve_Permutation.
  - rewrite lookup_app_r in Ei by lia. rewrite insert_app_r_alt, take_app_length' by lia.
    destruct (i - length l0)%nat as [|j]; [|done]. simpl in Ei. injection Ei as <-. solve_Permutation.
Qed.

Lemma swap_remove_some {A} i (l : list A) : (i < length l)%nat -> is_Some (swap_remove i l).
Proof.
  intros Hi. unfold swap_remove. destruct (lookup_lt_is_Some_2 l i Hi) as [x ->].
  destruct (last l) as [y|] eqn:E; [eauto|]. apply last_None in E as ->. simpl in Hi. lia.
Qed.

Lemma fold_push (l h : TimerHeap) : fold_left (fun h t => heap_push t h) l h = h ++ l.
Proof. revert h. induction l as [|t l IH]; intros h; simpl; [by rewrite app_nil_r|]. rewrite IH. unfold heap_push. by rewrite <- app_assoc. Qed.

Section Run.
Context {F : Type} (fuel : nat).
Abbreviation K := (K (F := F)).
Abbreviation Inner := (Inner (F := F)).

(** No event of the heap is in the past or beyond the end of time. *)
Definition timers_ahead (k : Inner) : Prop := Forall (fun t => k_now k <= t_at t < U64) (k_timers k).

Definition time_inv (k : Inner) : Prop := good k /\ timers_ahead k.

Lemma extends_inv k k' : time_inv k -> extends k k' -> time_inv k' /\ k_now k' = k_now k.
Proof.
  intros [Hg Ht] H. destruct (H Hg) as (E1 & E2 & ts & E3 & Hts). split; [|done]. split.
  - unfold good. by rewrite E1, E2.
  - unfold timers_ahead. rewrite E1, E3. by apply Forall_app.
Qed.

(** The event that fires next is of the earliest time in the heap, the clock
    moves to that time, and every other event stays. *)
Lemma next_timer_some horizon (k : Inner) t k' : next_timer fuel horizon k = Some (Some t, k') ->
  k_timers k ≡ₚ t :: k_timers k' /\ Forall (fun x => t_at t <= t_at x) (k_timers k) /\
  k_now k' = t_at t /\ t_at t <= horizon /\ k_policy k' = k_policy k.
Proof.
  unfold next_timer, heap_peek. destruct (heap_pop (k_timers k)) as [[m r]|] eqn:Ep; cbn [fmap option_fmap option_map fst]; [|done].
  destruct (Z.ltb_spec horizon (t_at m)); [done|].
  destruct (drain_tied 64 (t_at m) (k_timers k)) as [tied rest] eqn:Ed.
  destruct (drain_tied_spec _ _ _ _ _ Ed) as [Hp Hf]. destruct (heap_pop_spec _ _ _ Ep) as [_ Hm].
  cbv beta iota zeta. match goal with |- match ?x with _ => _ end = _ -> _ => destruct x as [[idx k1]|] eqn:Er; [|done] end.
  assert (Hk1 : k_timers k1 = rest /\ k_policy k1 = k_policy k).
  { destruct (_ =? 1)%nat; [by injection Er as <- <-|]. apply draw_Some in Er as (g & _ & ->). done. }
  destruct Hk1 as [Hk1 Hk2].
  destruct (swap_remove _ tied) as [[chosen tied']|] eqn:Es; [|done]. intros [= <- <-].
  apply swap_remove_perm in Es. rewrite Es in Hp. simpl. rewrite fold_push, Hk1.
  assert (Hc : t_at chosen = t_at m).
  { rewrite Forall_forall in Hf. apply Hf. rewrite Es. set_solver. }
  rewrite Hc. split_and!; [rewrite Hp; simpl; by rewrite (Permutation_app_comm rest)| |done|done|done].
  eapply Forall_impl; [exact Hm|]. intros x Hx. unfold Timer_le in Hx. lia.
Qed.

Lemma next_timer_none horizon (k : Inner) k' : next_timer fuel horizon k = Some (None, k') ->
  (k_timers k = [] /\ k' = k) \/
  (k' = on_now (fun _ => horizon) k /\ k_timers k <> [] /\ Forall (fun x => horizon < t_at x) (k_timers k)).
Proof.
  unfold next_timer, heap_peek. destruct (heap_pop (k_timers k)) as [[m r]|] eqn:Ep; cbn [fmap option_fmap option_map fst].
  2: { intros [= <-]. left. split; [by apply heap_pop_none|done]. }
  destruct (heap_pop_spec _ _ _ Ep) as [Hperm Hm]. destruct (Z.ltb_spec horizon (t_at m)).
  { intros [= <-]. right. split_and!; [done| |].
    - intros E. rewrite E in Hperm. by apply Permutation_nil_cons in Hperm.
    - eapply Forall_impl; [exact Hm|]. intros x Hx. unfold Timer_le in Hx. lia. }
  destruct (drain_tied 64 (t_at m) (k_timers k)) as [tied rest] eqn:Ed.
  assert (Hne : (0 < length tied)%nat).
  { exact (drain_nonempty 63 _ _ _ _ _ Ep Ed). }
  cbv beta iota zeta. match goal with |- match ?x with _ => _ end = _ -> _ => destruct x as [[idx k1]|] eqn:Er; [|done] end.
  assert (Hidx : (Z.to_nat idx < length tied)%nat).
  { destruct (_ =? 1)%nat; [injection Er as <- _; simpl; lia|].
    apply draw_Some in Er as (g & Er & _). apply below_range in Er. lia. }
  destruct (swap_remove_some _ tied Hidx) as [[c tied'] ->]. done.
Qed.

(** ** One round *)

Lemma pick_index_Some len i g g' : 0 < len -> pick_index (S := Xoshiro256ss) fuel len g = Some (i, g') ->
  exists v, i = Some v /\ 0 <= v < len.
Proof.
  intros Hl. unfold pick_index. destruct (Z.eqb_spec len 0); [lia|]. intros H.
  apply bind_Some in H as (v & s1 & H & [= <- _]). apply below_range in H. exists v. split; [done|lia].
Qed.

Lemma elem_of_runnable (k : Inner) id : id ∈ runnable k <-> is_runnable k id = true /\ id ∈ k_ready k.
Proof. unfold runnable. by rewrite list_elem_of_filter, elem_of_sorted_elements. Qed.

(** The choice is one of the runnable tasks, which leaves the ready set. *)
Lemma pick_runnable_some (k : Inner) id k' : pick_runnable fuel k = Some (Some id, k') ->
  id ∈ runnable k /\ exists g, k' = on_ready (fun r => r ∖ {[id]}) (on_rng (fun _ => g) k).
Proof.
  unfold pick_runnable, mbind, K_bind, gets. destruct (runnable k) as [|x l] eqn:E; [done|].
  destruct (draw _ k) as [[i k1]|] eqn:Ed; [|done]. apply draw_Some in Ed as (g & _ & ->).
  match goal with |- (match ?x with _ => _ end) _ = _ -> _ => destruct x as [id'|] eqn:Ei; [|done] end.
  intros [= <- <-].
  apply stdpp.option.bind_Some in Ei as (j & _ & Ej). apply list_elem_of_lookup_2 in Ej. eauto.
Qed.

(** None only when there is none. *)
Lemma pick_runnable_none (k k' : Inner) : pick_runnable fuel k = Some (None, k') ->
  runnable k = [] /\ k' = on_ready (filter (fun id => is_Some (k_tasks k !! id))) k.
Proof.
  unfold pick_runnable, mbind, K_bind, gets. destruct (runnable k) as [|x l] eqn:E.
  { by intros [= <-]. }
  destruct (draw _ k) as [[i k1]|] eqn:Ed; [|done]. apply draw_Some in Ed as (g & Ed & ->).
  apply pick_index_Some in Ed as (v & -> & Hv); [|simpl; lia]. simpl mbind.
  destruct (lookup_lt_is_Some_2 (x :: l) (Z.to_nat v)) as [id Hid]; [lia|]. cbn [option_bind]. by rewrite Hid.
Qed.

Lemma runnable_filter (k : Inner) : runnable k = [] ->
  runnable (on_ready (filter (fun id => is_Some (k_tasks k !! id))) k) = [].
Proof.
  intros H. destruct (runnable (on_ready _ k)) as [|x l] eqn:E; [done|].
  assert (Hx : x ∈ runnable k); [|rewrite H in Hx; by apply not_elem_of_nil in Hx].
  assert (Hx : x ∈ runnable (on_ready (filter (fun id => is_Some (k_tasks k !! id))) k)) by (rewrite E; left).
  apply elem_of_runnable in Hx as [Hr Hx]. apply elem_of_runnable. split; [exact Hr|].
  simpl in Hx. by apply elem_of_filter in Hx as [_ Hx].
Qed.

#[export] Instance keeps_pick_runnable : Keeps extends (pick_runnable (F := F) fuel).
Proof.
  unfold pick_runnable. apply keeps_bind; [apply _|]. intros [|x l]; [apply _|].
  apply keeps_bind; [apply _|]. intros i. case_match; apply _.
Qed.

Section Program.
Context (poll : F -> TaskId -> K (Polled F)) (boot : NodeId -> K unit).
Hypothesis poll_calls : forall fut id, calls fuel (poll fut id).
Hypothesis boot_calls : forall id, calls fuel (boot id).

#[local] Instance keeps_poll_task id : Keeps extends (poll_task poll id).
Proof.
  intros k a k' H. unfold poll_task in H. destruct (k_tasks k !! id) as [[node [fut|]]|]; simplify_eq; try done.
  match type of H with match poll fut id ?k1 with _ => _ end = _ => set (k1' := k1) in * end.
  destruct (poll fut id k1') as [[r k2]|] eqn:E; [|done]. injection H as _ <-.
  transitivity k1'; [by apply extends_same|].
  transitivity k2; [exact (calls_keep fuel _ (poll_calls fut id) _ _ _ E)|]. destruct r; by apply extends_same.
Qed.

#[local] Instance keeps_boot_node id : Keeps extends (boot_node boot id).
Proof.
  intros k a k' H. unfold boot_node in H. destruct (k_nodes k !! id) as [n|]; [|by simplify_eq].
  destruct (nd_up n); [by simplify_eq|].
  match type of H with boot id ?k1 = _ => transitivity k1 end; [|exact (calls_keep fuel _ (boot_calls id) _ _ _ H)].
  destruct (_ =? 1); by apply extends_same.
Qed.

Lemma extends_deliver from to msg payload (k : Inner) : extends k (deliver_packet from to msg payload k).
Proof.
  unfold deliver_packet. repeat case_match; try by apply extends_same.
  etrans; [|apply extends_wake_all]. by apply extends_same.
Qed.

#[local] Instance keeps_fire t : Keeps extends (fire fuel boot t).
Proof.
  unfold fire. apply keeps_bind; [apply _|intros _]. destruct (t_action t); try apply _.
  - apply keeps_modify. intros k. unfold fire_slot. repeat case_match; by apply extends_same.
  - apply keeps_modify. intros k. apply extends_deliver.
  - apply keeps_modify. intros k. apply extends_heal.
  - apply keeps_modify. intros k. unfold resume. repeat case_match; by apply extends_same.
Qed.

(** What an outcome says of the state it leaves. *)
Definition ending (horizon : Nanos) (o : Outcome) (k : Inner) : Prop :=
  match o with
  | HorizonReached =>
      k_now k = horizon /\ runnable k = [] /\ Forall (fun t => horizon < t_at t) (k_timers k)
  | Quiesced => k_now k < horizon /\ runnable k = [] /\ k_timers k = []
  | Stopped => k_stop k = true
  | Livelock n => n = LIVELOCK_BUDGET + 1
  | TaskPanicked _ _ => True
  end.

Lemma round_spec horizon n (k : Inner) r k' :
  time_inv k -> k_now k <= horizon -> is_u64 horizon -> n <= LIVELOCK_BUDGET ->
  run_round fuel poll boot horizon n k = Some (r, k') ->
  time_inv k' /\ k_now k <= k_now k' <= horizon /\
  match r with inl o => ending horizon o k' | inr m => m <= LIVELOCK_BUDGET end.
Proof.
  intros Hinv Hh Hu Hn H. unfold run_round in H.
  destruct (k_stop k) eqn:Es; [injection H as <- <-; by split_and!|].
  destruct (k_panic k) as [[node msg]|]; [injection H as <- <-; split_and!; (done || lia)|].
  destruct (pick_runnable fuel k) as [[[id|] k1]|] eqn:Ep; [| |done].
  - apply keeps_pick_runnable, (extends_inv _ _ Hinv) in Ep as [Hinv1 E1].
    destruct (poll_task poll id k1) as [[[] k2]|] eqn:E2; [|done]. injection H as <- <-.
    apply keeps_poll_task, (extends_inv _ _ Hinv1) in E2 as [Hinv2 E2].
    split_and!; [done|lia..|]. destruct (Z.ltb_spec LIVELOCK_BUDGET (n + 1)); simpl; lia.
  - destruct (pick_runnable_none _ _ Ep) as [Hr ->]. apply runnable_filter in Hr.
    apply keeps_pick_runnable, (extends_inv _ _ Hinv) in Ep as [Hinv1 E1].
    set (k1 := on_ready _ k) in *. destruct (next_timer fuel horizon k1) as [[[t|] k2]|] eqn:Et; [| |done].
    + apply next_timer_some in Et as (Hp & Hmin & Hnow & Hle & Hpol).
      assert (Hin : t ∈ k_timers k1) by (rewrite Hp; left).
      assert (Hinv2 : time_inv k2).
      { destruct Hinv1 as [[Hg1 Hg2] Ht]. split; [split|].
        - rewrite Hnow. unfold timers_ahead in Ht. rewrite Forall_forall in Ht. specialize (Ht t Hin).
          unfold is_u64 in *. lia.
        - by rewrite Hpol.
        - unfold timers_ahead in *. rewrite Hp in Ht, Hmin. inversion Ht; inversion Hmin; subst.
          rewrite Forall_forall in *. intros x Hx. rewrite Hnow. split; [by auto|].
          match goal with Hf : forall x, x ∈ k_timers k2 -> k_now _ <= _ < _ |- _ => by apply Hf end. }
      destruct (fire fuel boot t k2) as [[[] k3]|] eqn:Ef; [|done]. injection H as <- <-.
      apply keeps_fire, (extends_inv _ _ Hinv2) in Ef as [Hinv3 E3].
      destruct Hinv1 as [_ Ht]. unfold timers_ahead in Ht. rewrite Forall_forall in Ht. specialize (Ht t Hin).
      split_and!; [done|lia..|unfold LIVELOCK_BUDGET; lia].
    + injection H as <- <-. apply next_timer_none in Et as [[Ht ->]|(-> & Hne & Hf)].
      * split_and!; [done|lia|lia|]. destruct (Z.leb_spec horizon (k_now k1)); cbn [ending].
        { split_and!; [lia|done|]. by rewrite Ht. }
        { split_and!; [lia|done|done]. }
      * split_and!; [|simpl; lia|simpl; lia|].
        { destruct Hinv1 as [[Hg1 Hg2] Ht]. split; [by split|]. unfold timers_ahead in *. simpl.
          rewrite Forall_forall in *. intros x Hx. specialize (Ht x Hx). specialize (Hf x Hx). lia. }
        { simpl. rewrite Z.leb_refl. simpl. by split_and!. }
Qed.

Lemma run_loop_spec rounds horizon (k k' : Inner) n o :
  n <= LIVELOCK_BUDGET -> time_inv k -> k_now k <= horizon -> is_u64 horizon ->
  run_loop fuel poll boot rounds horizon n k = Some (o, k') ->
  k_now k <= k_now k' /\ k_now k' <= horizon /\ time_inv k' /\ ending horizon o k'.
Proof.
  revert k n. induction rounds as [|rounds IH]; intros k n Hn Hinv Hh Hu H; [done|]. cbn [run_loop] in H.
  destruct (run_round fuel poll boot horizon n k) as [[[o1|m] k1]|] eqn:E; [| |done].
  - injection H as -> ->. apply round_spec in E as (Hi & Hb & He); [|(done || lia)..]. split_and!; (done || lia).
  - apply round_spec in E as (Hi & Hb & Hm); [|(done || lia)..].
    apply IH in H as (H1 & H2 & H3 & H4); [|done|done|lia|done]. split_and!; (done || lia).
Qed.

End Program.
End Run.

(** ** The run as a whole *)

Section Whole.
Context {F : Type} (fuel : nat) (poll : F -> TaskId -> K (F := F) (Polled F)) (boot : NodeId -> K (F := F) unit).

(** The loop, round by round: where it stands after [n] rounds. *)
Fixpoint run_rounds (n : nat) (horizon : Nanos) (p : Z) (k : Inner (F := F)) :
    option ((Outcome + Z) * Inner (F := F)) :=
  match n with
  | O => Some (inr p, k)
  | S n =>
      match run_round fuel poll boot horizon p k with
      | Some (inr p, k) => run_rounds n horizon p k
      | r => r
      end
  end.
(** [n] rounds one after the other, each of which polled a task: no event fired. *)
Inductive only_polls : Z -> Inner (F := F) -> Inner (F := F) -> Prop :=
| polls_none k : only_polls 0 k k
| polls_more n k0 id k k1 k' : only_polls n k0 k -> pick_runnable fuel k = Some (Some id, k1) ->
    poll_task poll id k1 = Some (tt, k') -> only_polls (n + 1) k0 k'.

(** Where a run from [k] stands before one of its rounds, with the polls it has counted. *)
Definition on_the_way (horizon : Nanos) (k : Inner (F := F)) (p : Z) (k' : Inner (F := F)) : Prop :=
  exists n, run_rounds n horizon 0 k = Some (inr p, k').

(** What the outcome of a run from [k] says of how it came to its end. *)
Definition account (horizon : Nanos) (k : Inner (F := F)) (o : Outcome) (k' : Inner (F := F)) : Prop :=
  match o with
  | Livelock n => exists k0, on_the_way horizon k 0 k0 /\ only_polls n k0 k'
  | TaskPanicked node message => exists p k0, on_the_way horizon k p k0 /\
      k_panic k0 = Some (node, message) /\ k' = on_panic (fun _ => None) k0
  | _ => True
  end.

Lemma run_rounds_snoc n horizon p q k k1 r : run_rounds n horizon p k = Some (inr q, k1) ->
  run_round fuel poll boot horizon q k1 = Some r -> run_rounds (S n) horizon p k = Some r.
Proof.
  revert p k. induction n as [|n IH]; intros p k H Hr.
  - injection H as -> ->. simpl. rewrite Hr. by destruct r as [[]].
  - cbn [run_rounds] in H. change (run_rounds (S (S n)) horizon p k) with
      (match run_round fuel poll boot horizon p k with
       | Some (inr p, k) => run_rounds (S n) horizon p k | r => r end).
    destruct (run_round fuel poll boot horizon p k) as [[[o|q1] k2]|]; [done| |done]. by apply IH.
Qed.

Lemma run_loop_account rounds horizon (k kc k' : Inner (F := F)) p o :
  on_the_way horizon k p kc -> (exists k0, on_the_way horizon k 0 k0 /\ only_polls p k0 kc) ->
  run_loop fuel poll boot rounds horizon p kc = Some (o, k') -> account horizon k o k'.
Proof.
  revert p kc. induction rounds as [|rounds IH]; intros p kc [n Hn] (k0 & H0 & Hp) H; [done|]. cbn [run_loop] in H.
  destruct (run_round fuel poll boot horizon p kc) as [[r k1]|] eqn:E; [|done].
  pose proof (run_rounds_snoc _ _ _ _ _ _ _ Hn E) as Hs. unfold run_round in E.
  destruct (k_stop kc); [by injection E as <- <-; injection H as <- <-|].
  destruct (k_panic kc) as [[node msg]|] eqn:Epan.
  { injection E as <- <-. injection H as <- <-. exists p, kc. split_and!; [by exists n|done|done]. }
  destruct (pick_runnable fuel kc) as [[[id|] k2]|] eqn:Ep; [| |done].
  - destruct (poll_task poll id k2) as [[[] k3]|] eqn:Et; [|done]. injection E as <- <-.
    pose proof (polls_more _ _ _ _ _ _ Hp Ep Et) as Hp'.
    destruct (LIVELOCK_BUDGET <? p + 1); [injection H as <- <-; by exists k0|].
    apply IH in H; [done|by exists (S n)|by exists k0].
  - destruct (next_timer fuel horizon k2) as [[[t|] k3]|]; [| |done].
    + destruct (fire fuel boot t k3) as [[[] k4]|]; [|done]. injection E as <- <-.
      apply IH in H; [done|by exists (S n)|]. exists k4. split; [by exists (S n)|constructor].
    + injection E as <- <-. injection H as <- <-. by destruct (horizon <=? k_now k3).
Qed.


(** A busy loop is reported, not hung on. If at every moment some task is
    runnable and polling it leads to another such moment, the run does return:
    within two million and one rounds, as a [Livelock]. *)
Theorem busy_loop_is_reported (busy : Inner -> Prop) (horizon : Nanos) (k : Inner) :
  (forall k, busy k -> k_stop k = false /\ k_panic k = None /\ exists id k1 k2,
     pick_runnable fuel k = Some (Some id, k1) /\ poll_task poll id k1 = Some (tt, k2) /\ busy k2) ->
  busy k ->
  exists k', run_until fuel poll boot (Z.to_nat (LIVELOCK_BUDGET + 1)) horizon k
    = Some (Livelock (LIVELOCK_BUDGET + 1), k').
Proof.
  intros Hbusy Hk. unfold run_until.
  assert (H : forall m n k, busy k -> 0 <= n <= LIVELOCK_BUDGET -> n + Z.of_nat m = LIVELOCK_BUDGET + 1 ->
    exists k', run_loop fuel poll boot m horizon n k = Some (Livelock (LIVELOCK_BUDGET + 1), k')).
  2: { apply H; [done|unfold LIVELOCK_BUDGET; lia|unfold LIVELOCK_BUDGET; lia]. }
  clear k Hk. induction m as [|m IH]; intros n k Hk Hn Hm; [lia|]. cbn [run_loop].
  destruct (Hbusy k Hk) as (Es & Ep & id & k1 & k2 & E1 & E2 & Hk2).
  unfold run_round. rewrite Es, Ep, E1, E2. destruct (Z.ltb_spec LIVELOCK_BUDGET (n + 1)).
  - assert (n + 1 = LIVELOCK_BUDGET + 1) as -> by lia. eauto.
  - apply IH; [done|lia|lia].
Qed.

End Whole.

(** ** Two programs *)

(** [loop { yield_now().await }]. *)
Definition spin_poll (done : bool) (id : TaskId) : K (F := bool) (Polled bool) := fun k =>
  match YieldOnce_poll done id k with
  | (Pending, done, k) => Some (Parked done, k)
  | (Ready _, _, k) =>
      match YieldOnce_poll false id k with (_, done, k) => Some (Parked done, k) end
  end.

(** A task that sleeps for [dur], as often as [nap_left] says, or for ever. *)
Record Nap : Type := mkNap { nap_left : option nat; nap_slot : option Z }.

Definition nap_next (node : NodeId) (dur : Nanos) (left : option nat) (id : TaskId) (k : Inner (F := Nap)) :
    option (Polled Nap * Inner (F := Nap)) :=
  match left with
  | Some O => Some (Done, k)
  | _ =>
      let '(slot, k) := sleep node dur k in
      let '(_, k) := TimerFuture_poll slot id k in
      Some (Parked (mkNap (pred <$> left) (Some slot)), k)
  end.

Definition nap_poll (dur : Nanos) (fut : Nap) (id : TaskId) : K (F := Nap) (Polled Nap) := fun k =>
  match nap_slot fut with
  | None => nap_next 0 dur (nap_left fut) id k
  | Some slot =>
      match TimerFuture_poll slot id k with
      | (Ready _, k) => nap_next 0 dur (nap_left fut) id k
      | (Pending, k) => Some (Parked fut, k)
      end
  end.

Definition nap_boot (left : option nat) (node : NodeId) : K (F := Nap) unit := fun k =>
  Some (tt, spawn node (mkNap left None) k).

Definition booted {F} (fut : F) (policy : FaultPolicy) : Inner (F := F) :=
  default (Kernel_new 7 policy HashOnly)
    (snd <$> (_ ← add_node 8 0 Server; boot_all (fun node k => Some (tt, spawn node fut k)))
               (Kernel_new 7 policy HashOnly)).

Lemma nap_calls dur fut id : is_u64 dur -> calls 8 (nap_poll dur fut id).
Proof.
  intros Hd k r k' H. unfold nap_poll in H.
  assert (Hn : forall left k r k', nap_next 0 dur left id k = Some (r, k') -> rtc (kernel_call 8) k k').
  { clear -Hd. intros left k r k' H. unfold nap_next in H.
    destruct left as [[|n]|]; [by injection H as _ <-|..];
      destruct (sleep 0 dur k) as [slot k1] eqn:E1; destruct (TimerFuture_poll slot id k1) as [x k2] eqn:E2;
      injection H as _ <-; apply (rtc_l _ _ k1);
      [replace k1 with (sleep 0 dur k).2 by by rewrite E1| |replace k1 with (sleep 0 dur k).2 by by rewrite E1|];
      try (apply rtc_once; replace k2 with (TimerFuture_poll slot id k1).2 by (by rewrite E2); constructor).
    all: by apply call_sleep. }
  destruct (nap_slot fut) as [slot|]; [|by eapply Hn].
  destruct (TimerFuture_poll slot id k) as [x k1] eqn:E. apply (rtc_l _ _ k1).
  - replace k1 with (TimerFuture_poll slot id k).2 by (by rewrite E). constructor.
  - destruct x; [by eapply Hn|by injection H as _ <-].
Qed.


(** A task that always yields is always runnable. *)
Definition spinning (k : Inner (F := bool)) : Prop :=
  k_stop k = false /\ k_panic k = None /\ k_ready k = {[1]} /\
  (exists n, k_nodes k !! 0 = Some n /\ nd_up n = true /\ nd_paused n = false) /\
  exists done, k_tasks k !! 1 = Some (mkTask 0 (Some done)).

Lemma sorted_elements_singleton x : sorted_elements {[x]} = [x].
Proof. unfold sorted_elements. by rewrite elements_singleton. Qed.

Lemma spinning_spins k : spinning k ->
  k_stop k = false /\ k_panic k = None /\ exists id k1 k2,
    pick_runnable 8 k = Some (Some id, k1) /\ poll_task spin_poll id k1 = Some (tt, k2) /\ spinning k2.
Proof.
  intros (Hs & Hp & Hr & (n & Hn & Hup & Hpa) & f & Ht). split_and!; [done..|].
  assert (Hrun : runnable k = [1]).
  { unfold runnable. rewrite Hr, sorted_elements_singleton. unfold filter. simpl. unfold is_runnable.
    rewrite Ht. cbn [tk_node]. by rewrite Hn, Hup, Hpa. }
  exists 1. eexists. eexists. split.
  { unfold pick_runnable, mbind, K_bind, gets. rewrite Hrun. reflexivity. }
  split.
  { unfold poll_task. simpl. rewrite Ht. destruct f; reflexivity. }
  split_and!; simpl; [done|done| |by exists n|].
  - destruct f; simpl; rewrite Hr; set_solver.
  - exists true. destruct f; by rewrite lookup_alter_eq, lookup_insert_eq.
Qed.

Lemma busy_loop_is_reported_witness :
  exists k', run_until 8 spin_poll (fun _ => mret tt) (Z.to_nat (LIVELOCK_BUDGET + 1)) 1000 (booted false benign)
    = Some (Livelock (LIVELOCK_BUDGET + 1), k').
Proof.
  apply (busy_loop_is_reported 8 spin_poll (fun _ => mret tt) spinning); [apply spinning_spins|].
  split_and!; [reflexivity|reflexivity|vm_compute; reflexivity|eexists; split_and!; vm_compute; reflexivity|].
  exists false. vm_compute. reflexivity.
Defined.
