(* ===== verification/KernelTime.v ===== *)
(** * Clocks, and two surprises of the scheduler

    What a node's own clock shows: it never moves back, and a sleep lasts on it
    what was asked for, to two nanoseconds. And two things the kernel does that its
    comments do not say: a task that sleeps for no time is never reported, and
    sequence numbers are used again. *)

From Stdlib Require Import ZArith Lia.
From stdpp Require Import base tactics list list_numbers gmap sets sorting strings.
From S2P Require Import Prelude Codec Types RaftLog Client Msg Rng Time Wal WalState WalSegments Trace Fault Kernel Sim KernelRun.

Open Scope Z_scope.

(** ** The clock of a node *)

(** [t * ppm / 10^6], rounded toward zero, by the sign of the rate. *)
Lemma quot_drift t ppm : 0 <= t ->
  Z.quot (t * ppm) 1000000 = if 0 <=? ppm then (t * ppm) / 1000000 else - ((t * - ppm) / 1000000).
Proof.
  intros Ht. destruct (Z.leb_spec 0 ppm).
  - apply Z.quot_div_nonneg; nia.
  - replace (t * ppm) with (- (t * - ppm)) by lia. rewrite Z.quot_opp_l by lia.
    f_equal. apply Z.quot_div_nonneg; nia.
Qed.

Lemma drift_bounds t p : 0 <= t -> 0 <= p <= 1000000 ->
  0 <= t * p / 1000000 <= t /\ 1000000 * (t * p / 1000000) <= t * p < 1000000 * (t * p / 1000000) + 1000000.
Proof.
  intros Ht Hp. assert (0 <= t * p) by nia. assert (t * p <= 1000000 * t) by nia.
  pose proof (Z.div_mod (t * p) 1000000 ltac:(lia)). pose proof (Z.mod_pos_bound (t * p) 1000000 ltac:(lia)). lia.
Qed.

Lemma apply_drift_mono t t' ppm : 0 <= t <= t' -> - 1000000 <= ppm <= 1000000 ->
  apply_drift t ppm <= apply_drift t' ppm.
Proof.
  intros Ht Hp. unfold apply_drift. destruct (ppm =? 0); [lia|]. rewrite !quot_drift by lia.
  destruct (Z.leb_spec 0 ppm).
  - assert (t * ppm / 1000000 <= t' * ppm / 1000000) by (apply Z.div_le_mono; nia). lia.
  - assert (t' * - ppm / 1000000 - t * - ppm / 1000000 <= t' - t); [|lia].
    assert (t' * - ppm / 1000000 <= (t * - ppm + (t' - t) * 1000000) / 1000000)
      by (apply Z.div_le_mono; nia).
    rewrite Z.div_add in * by lia. lia.
Qed.

(** A node's monotonic clock never goes back, and a sleep is measured on it.
    At any rate error below the whole, a later instant is never shown as an
    earlier one; and between the start of a sleep and the instant its timer is
    scheduled for, the node's own clock moves by the duration asked for, less
    than it by at most two nanoseconds and never more, as long as the clock does not
    reach its end. *)
Theorem sleep_is_measured_on_the_own_clock (t t' dur ppm : Z) :
  - 1000000 < ppm < 1000000 -> 0 <= t -> 0 <= dur -> t <= t' ->
  apply_drift t ppm <= apply_drift t' ppm /\
  (dur * 1000000 < U64 -> 2 * (t + true_duration dur ppm) < U64 ->
   let elapsed := apply_drift (t + true_duration dur ppm) ppm - apply_drift t ppm in
   dur - 2 <= elapsed <= dur).
Proof.
  intros Hp Ht Hd Htt'. split; [apply apply_drift_mono; lia|]. cbv zeta. unfold true_duration, apply_drift.
  destruct (Z.eqb_spec ppm 0) as [->|Hne]; [lia|].
  rewrite (Z.quot_div_nonneg (dur * 1000000)) by lia.
  set (q := 1000000 + ppm). set (d := dur * 1000000 / q). intros Hdur Hroom.
  assert (Hd0 : 0 <= d) by (apply Z.div_pos; lia).
  assert (Hdq : d * q <= dur * 1000000 < d * q + q).
  { pose proof (Z.div_mod (dur * 1000000) q ltac:(lia)). pose proof (Z.mod_pos_bound (dur * 1000000) q ltac:(lia)).
    unfold d. lia. }
  assert (Hdu : d <= dur * 1000000) by nia.
  rewrite (Z.max_r 0 d) in * by lia. rewrite Z.mod_small in * by lia.
  rewrite !quot_drift by lia. replace (d * q) with (1000000 * d + d * ppm) in Hdq by (unfold q; lia).
  assert (Ht1 : 0 <= t + d) by lia. destruct (Z.leb_spec 0 ppm).
  - destruct (drift_bounds t ppm ltac:(lia) ltac:(lia)) as [B1 B2].
    destruct (drift_bounds (t + d) ppm ltac:(lia) ltac:(lia)) as [B3 B4].
    replace ((t + d) * ppm) with (t * ppm + d * ppm) in * by lia.
    generalize dependent (t * ppm / 1000000). generalize dependent ((t * ppm + d * ppm) / 1000000). intros.
    unfold q in *. clearbody d. generalize dependent (t * ppm). generalize dependent (d * ppm). intros. lia.
  - destruct (drift_bounds t (- ppm) ltac:(lia) ltac:(lia)) as [B1 B2].
    destruct (drift_bounds (t + d) (- ppm) ltac:(lia) ltac:(lia)) as [B3 B4].
    replace ((t + d) * - ppm) with (t * - ppm + - (d * ppm)) in * by lia.
    generalize dependent (t * - ppm / 1000000). generalize dependent ((t * - ppm + - (d * ppm)) / 1000000). intros.
    unfold q in *. clearbody d. generalize dependent (t * - ppm). generalize dependent (d * ppm). intros. lia.
Qed.

Lemma sleep_is_measured_on_the_own_clock_witness :
  apply_drift 500 3000 <= apply_drift 700 3000 /\
  (1000000007 * 1000000 < U64 -> 2 * (500 + true_duration 1000000007 3000) < U64 ->
   let elapsed := apply_drift (500 + true_duration 1000000007 3000) 3000 - apply_drift 500 3000 in
   1000000007 - 2 <= elapsed <= 1000000007).
Proof. apply sleep_is_measured_on_the_own_clock; lia. Defined.

(** ** A task that never sleeps for long *)

(** The two states a task that sleeps for nothing goes through: about to be
    polled, and waiting for a timer that is due now. *)
Definition napping (slot : option Z) (k : Inner (F := Nap)) : Prop :=
  k_stop k = false /\ k_panic k = None /\ is_u64 (k_now k) /\
  (exists n, k_nodes k !! 0 = Some n /\ nd_up n = true /\ nd_paused n = false /\ nd_drift_ppm n = 0) /\
  (exists s, k_tasks k !! 1 = Some (mkTask 0 (Some (mkNap None s))) /\
    match slot with
    | None => k_ready k = {[1]} /\ k_timers k = [] /\
        match s with None => True | Some s => exists w, k_slots k !! s = Some (mkTimerSlot true w) end
    | Some x => s = Some x /\ k_ready k = ∅ /\
        (exists q, k_timers k = [mkTimer (k_now k) q (Fire x)]) /\
        k_slots k !! x = Some (mkTimerSlot false (Some 1))
    end).

Definition nap_round (h p : Z) (k : Inner (F := Nap)) := run_round 8 (nap_poll 0) (nap_boot None) h p k.

Lemma nap_first_poll h p (k : Inner (F := Nap)) : p < LIVELOCK_BUDGET -> napping None k ->
  exists x k', nap_round h p k = Some (inr (p + 1), k') /\ napping (Some x) k' /\ k_now k' = k_now k.
Proof.
  intros Hb (Hs & Hp & Hu & (n & Hn & Hup & Hpa & Hd) & s & Ht & Hr & Hti & Hsl).
  assert (Hrun : runnable k = [1]).
  { unfold runnable. rewrite Hr, sorted_elements_singleton. unfold filter. simpl. unfold is_runnable.
    rewrite Ht. cbn [tk_node]. by rewrite Hn, Hup, Hpa. }
  set (k1 := on_ready (fun r => r ∖ {[1]}) k).
  assert (Epick : pick_runnable 8 k = Some (Some 1, k1)).
  { unfold pick_runnable, mbind, K_bind, gets. rewrite Hrun. reflexivity. }
  unfold nap_round, run_round. rewrite Hs, Hp, Epick. unfold poll_task. change (k_tasks k1) with (k_tasks k). rewrite Ht.
  match goal with |- context [nap_poll 0 _ 1 ?k0] => set (k2 := k0) end.
  assert (Hnext : exists k3, nap_poll 0 (mkNap None s) 1 k2 =
      Some (Parked (mkNap None (Some (k_next_slot k))), k3) /\
    k_stop k3 = k_stop k /\ k_panic k3 = k_panic k /\ k_now k3 = k_now k /\ k_nodes k3 = k_nodes k /\
    k_tasks k3 = <[1 := mkTask 0 None]> (k_tasks k) /\ k_ready k3 = k_ready k ∖ {[1]} /\
    (exists q, k_timers k3 = [mkTimer (sadd64 (k_now k) 0) q (Fire (k_next_slot k))]) /\
    k_slots k3 !! k_next_slot k = Some (mkTimerSlot false (Some 1))).
  { assert (Hgo : exists k3, nap_next 0 0 None 1 k2 =
      Some (Parked (mkNap None (Some (k_next_slot k))), k3) /\
      k_stop k3 = k_stop k /\ k_panic k3 = k_panic k /\ k_now k3 = k_now k /\ k_nodes k3 = k_nodes k /\
      k_tasks k3 = <[1 := mkTask 0 None]> (k_tasks k) /\ k_ready k3 = k_ready k ∖ {[1]} /\
      (exists q, k_timers k3 = [mkTimer (sadd64 (k_now k) 0) q (Fire (k_next_slot k))]) /\
      k_slots k3 !! k_next_slot k = Some (mkTimerSlot false (Some 1))).
    { unfold nap_next, sleep, TimerSlot_alloc, node_drift, true_duration. simpl. rewrite Hn, Hd. simpl.
      unfold TimerFuture_poll. simpl. rewrite lookup_insert_eq. simpl. eexists. split; [reflexivity|]. simpl.
      rewrite Hti. split_and!; [done..|eexists; reflexivity|by rewrite lookup_insert_eq]. }
    unfold nap_poll. destruct s as [s|]; cbn [nap_slot nap_left]; [|exact Hgo].
    destruct Hsl as [w Hw]. unfold TimerFuture_poll. change (k_slots k2) with (k_slots k). rewrite Hw.
    exact Hgo. }
  destruct Hnext as (k3 & -> & E1 & E2 & E3 & E4 & E5 & E6 & (q & E7) & E8).
  rewrite (proj2 (Z.ltb_ge _ _)) by lia. eexists (k_next_slot k), _. split; [reflexivity|]. split; [|done].
  split_and!; simpl; [congruence|congruence|by rewrite E3|exists n; by rewrite E4|].
  exists (Some (k_next_slot k)). rewrite E5, lookup_alter_eq, lookup_insert_eq. split; [done|].
  split_and!; [done|rewrite E6, Hr; set_solver| |done].
  exists q. rewrite E7, E3. unfold sadd64, is_u64 in *. do 2 f_equal. lia.
Qed.

Lemma nap_fires h p x (k : Inner (F := Nap)) : k_now k <= h -> napping (Some x) k ->
  exists k', nap_round h p k = Some (inr 0, k') /\ napping None k' /\ k_now k' = k_now k.
Proof.
  intros Hh (Hs & Hp & Hu & Hn & s & Ht & -> & Hr & (q & Hti) & Hsl).
  unfold nap_round, run_round. rewrite Hs, Hp.
  assert (Hrun : runnable k = []) by (unfold runnable; by rewrite Hr).
  set (k1 := on_ready (filter (fun id => is_Some (k_tasks k !! id))) k).
  assert (Epick : pick_runnable 8 k = Some (None, k1)).
  { unfold pick_runnable, mbind, K_bind, gets. rewrite Hrun. reflexivity. }
  rewrite Epick. unfold next_timer. change (k_timers k1) with (k_timers k). rewrite Hti.
  cbn [heap_peek heap_pop fmap option_fmap option_map fst t_at]. rewrite (proj2 (Z.ltb_ge _ _)) by done.
  cbn [drain_tied heap_pop t_at]. rewrite Z.eqb_refl. cbn [drain_tied heap_pop length Nat.eqb mret K_ret].
  change (swap_remove (Z.to_nat 0) [mkTimer (k_now k) q (Fire x)]) with (Some (mkTimer (k_now k) q (Fire x), @nil Timer)).
  cbv beta iota. match goal with |- context [fire 8 _ _ ?k0] => set (k2 := k0) end.
  change (fire 8 (nap_boot None) (mkTimer (k_now k) q (Fire x)) k2) with
    (Some (tt, fire_slot x (on_seq (fun _ => q) k2))).
  unfold fire_slot. change (k_slots (on_seq (fun _ => q) k2)) with (k_slots k). rewrite Hsl. cbn [sl_waker].
  eexists. split; [reflexivity|]. split; [|done].
  split_and!; simpl; [done..|]. exists (Some x). split; [done|].
  split_and!; [rewrite Hr; set_solver|done|]. exists None. by rewrite lookup_insert_eq.
Qed.

(** A task that sleeps for no time in a loop is never reported. The loop's
    counter of polls is reset whenever an event fires, and a sleep of zero is an
    event that fires at the present instant: after any number of rounds the run
    is still going, its clock where it was, and [run_until] has not returned. *)
Theorem zero_sleep_is_never_reported (n : nat) (horizon : Nanos) :
  is_u64 horizon ->
  exists p k', run_rounds 8 (nap_poll 0) (nap_boot None) n horizon 0 (booted (mkNap None None) benign)
      = Some (inr p, k') /\ k_now k' = 0 /\
    run_until 8 (nap_poll 0) (nap_boot None) n horizon (booted (mkNap None None) benign) = None.
Proof.
  intros Hh. set (k := booted (mkNap None None) benign).
  assert (Hk : napping None k).
  { split_and!; [reflexivity|reflexivity|by_decide|eexists; split_and!; vm_compute; reflexivity|].
    exists None. split; [vm_compute; reflexivity|]. split_and!; [|vm_compute; reflexivity|done].
    vm_compute. reflexivity. }
  assert (H : forall n k slot p, napping slot k -> k_now k <= horizon ->
    p <= match slot with None => 0 | Some _ => 1 end ->
    exists p' k', run_rounds 8 (nap_poll 0) (nap_boot None) n horizon p k = Some (inr p', k') /\
      k_now k' = k_now k /\ run_loop 8 (nap_poll 0) (nap_boot None) n horizon p k = None).
  2: { apply (H n k None 0 Hk); [|done]. change (k_now k) with 0. unfold is_u64 in Hh. lia. }
  clear k Hk. clear n. induction n as [|n IH]; intros k slot p Hk Hle Hp; [by exists p, k|].
  cbn [run_rounds run_loop]. destruct slot as [x|].
  - destruct (nap_fires horizon p x k Hle Hk) as (k' & E & Hk' & Hn). unfold nap_round in E. rewrite E, <- Hn.
    by apply (IH k' None); [|rewrite Hn|].
  - destruct (nap_first_poll horizon p k) as (x & k' & E & Hk' & Hn); [unfold LIVELOCK_BUDGET; lia|done|].
    unfold nap_round in E. rewrite E, <- Hn. apply (IH k' (Some x)); [done|by rewrite Hn|lia].
Qed.

Lemma zero_sleep_is_never_reported_witness :
  exists p k', run_rounds 8 (nap_poll 0) (nap_boot None) 9 1000 0 (booted (mkNap None None) benign)
      = Some (inr p, k') /\ k_now k' = 0 /\
    run_until 8 (nap_poll 0) (nap_boot None) 9 1000 (booted (mkNap None None) benign) = None.
Proof. apply zero_sleep_is_never_reported. by_decide. Defined.

(** ** Sequence numbers *)

(** Two events, and after the first has fired a third. *)
Definition three_events : Inner (F := Nap) :=
  let k := booted (mkNap (Some 0%nat) None) benign in
  let k := schedule 20 (Resume 1) (schedule 10 (Resume 0) k) in
  match (t ← next_timer 8 100; match t with Some t => fire 8 (nap_boot None) t | None => mret tt end) k with
  | Some (_, k) => schedule 10 (Resume 2) k
  | None => k
  end.

(** Sequence numbers are used again. Firing an event sets the kernel's counter
    back to the number of that event, so an event scheduled afterwards can have
    the time and the number of one that is already waiting: [Ord] on timers is
    not the total order its comment relies on. *)
Theorem sequence_numbers_repeat :
  exists a b, k_timers three_events = [a; b] /\ a <> b /\
    t_at a = t_at b /\ t_seq a = t_seq b.
Proof. eexists _, _. split; [vm_compute; reflexivity|]. split_and!; [discriminate|reflexivity..]. Qed.
