(* ===== verification/KernelDisk.v ===== *)
(** * The simulated disk

    The theorems about files and power loss. A crash of a node is, file by file,
    the [crash_file] on which the recovery theorems of [WalRecovery] rest, and
    leaves nothing of the node's memory; the page cache is always the platter with
    the pending operations applied, so that [fsync] makes durable what was written
    before it; and the quota counts live bytes, until a crash. *)

From Stdlib Require Import ZArith Lia.
From stdpp Require Import base tactics list list_numbers gmap sets sorting strings relations.
From S2P Require Import Prelude Codec Types RaftLog Client Msg Rng Time Wal WalState WalSegments Trace Fault Kernel Sim KernelRun.

Open Scope Z_scope.

Section Disk.
Context {F : Type} (fuel : nat).
Abbreviation K := (K (F := F)).
Abbreviation Inner := (Inner (F := F)).

(** ** Power loss *)

(** Nothing changes but the generator, the trace and the counters. *)
Definition quiet (k k' : Inner) : Prop :=
  k_nodes k' = k_nodes k /\ k_tasks k' = k_tasks k /\ k_timers k' = k_timers k /\
  k_blocked k' = k_blocked k /\ k_now k' = k_now k /\ k_ready k' = k_ready k.

#[export] Instance quiet_preorder : PreOrder quiet.
Proof.
  split; [by intros k; split_and!|]. intros k1 k2 k3 H1 H2. unfold quiet in *. naive_solver congruence.
Qed.

#[export] Instance quiet_draw {A} (r : Rand A) : Keeps quiet (draw r).
Proof. intros k a k' H. apply draw_Some in H as (g & _ & ->). by split_and!. Qed.

Lemma quiet_modify f : (forall k, quiet k (f k)) -> Keeps quiet (modify f).
Proof. apply keeps_modify. Qed.

(** Each pending operation meets one of the three fates. *)
Lemma lose_op_spec node fid op durable (k : Inner) b k' : lose_op fuel node fid op durable k = Some (b, k') ->
  quiet k k' /\ exists fate, b = crash_op durable (op, fate).
Proof.
  destruct op as [offset data|size]; simpl; unfold lose_write, lose_truncate, mbind, K_bind, gets; intros H.
  - destruct (draw (ppm fuel _) k) as [[[] k1]|] eqn:E1; [| |done]; apply quiet_draw in E1.
    { injection H as <- <-. split; [etrans; [exact E1|by split_and!]|by exists Lost]. }
    destruct (draw (ppm fuel _) k1) as [[torn k2]|] eqn:E2; [|done]. apply quiet_draw in E2.
    destruct (torn && _).
    + destruct (draw (below _ _) k2) as [[ks k3]|] eqn:E3; [|done]. apply quiet_draw in E3. injection H as <- <-.
      split; [etrans; [exact E1|etrans; [exact E2|etrans; [exact E3|by split_and!]]]|].
      set (kb := torn_bytes _ _ _ _). exists (Torn (Z.to_nat kb)). simpl.
      destruct (Z.ltb_spec 0 kb).
      * destruct (Nat.eqb_spec (Z.to_nat kb) 0); [lia|done].
      * by replace (Z.to_nat kb) with 0%nat by lia.
    + injection H as <- <-. split; [by etrans|by exists Landed].
  - destruct (draw (ppm fuel _) k) as [[[] k1]|] eqn:E1; [| |done]; apply quiet_draw in E1; injection H as <- <-.
    + split; [etrans; [exact E1|by split_and!]|by exists Lost].
    + split; [done|by exists Landed].
Qed.

Lemma lose_ops_spec node fid ops durable (k : Inner) b k' :
  lose_ops fuel node fid ops durable k = Some (b, k') ->
  quiet k k' /\ exists fates, b = fold_left crash_op (zip ops fates) durable.
Proof.
  revert durable k. induction ops as [|op ops IH]; intros durable k H; simpl in H.
  - injection H as <- <-. split; [done|by exists []].
  - unfold mbind, K_bind in H. destruct (lose_op fuel node fid op durable k) as [[b1 k1]|] eqn:E; [|done].
    apply lose_op_spec in E as (Hq & fate & ->). apply IH in H as (Hq' & fates & ->).
    split; [by etrans|]. by exists (fate :: fates).
Qed.

Lemma quiet_same_files node (k : Inner) n : k_nodes k !! node = Some n ->
  quiet (on_node node (set_files (nd_files n)) k) k.
Proof.
  intros Hn. split_and!; [|done..]. simpl. apply map_eq. intros i.
  destruct (decide (i = node)) as [->|Hi]; [|by rewrite lookup_alter_ne].
  rewrite lookup_alter_eq, Hn. simpl. by destruct n.
Qed.

(** One file of the node is replaced by a crash of it; the rest is untouched. *)
Lemma lose_file_spec node name (k k' : Inner) n : k_nodes k !! node = Some n ->
  lose_file fuel node name k = Some (tt, k') ->
  exists files, quiet (on_node node (set_files files) k) k' /\
    (exists fates, files !! name = (fun f => crash_file f fates) <$> nd_files n !! name) /\
    forall other, other <> name -> files !! other = nd_files n !! other.
Proof.
  intros Hn. unfold lose_file, mbind, K_bind, gets, node_file. rewrite Hn. cbn [mbind option_bind].
  destruct (nd_files n !! name) as [f|] eqn:Hf.
  - destruct (lose_ops _ _ _ _ _ k) as [[b k1]|] eqn:E; [|done]. intros [= <-].
    apply lose_ops_spec in E as ((Q1 & Q2 & Q3 & Q4 & Q5 & Q6) & fates & ->).
    exists (alter (fun _ => mkFile (fold_left crash_op (zip (f_pending f) fates) (f_durable f))
                              (fold_left crash_op (zip (f_pending f) fates) (f_durable f)) []) name (nd_files n)).
    split; [|split].
    + split_and!; simpl; try done. rewrite Q1. apply map_eq. intros i. destruct (decide (i = node)) as [->|Hi].
      * by rewrite !lookup_alter_eq, Hn.
      * by rewrite !lookup_alter_ne.
    + exists fates. by rewrite lookup_alter_eq, Hf.
    + intros other Ho. by rewrite lookup_alter_ne.
  - intros [= <-]. exists (nd_files n). split_and!; [by apply quiet_same_files|by exists []; rewrite Hf|done].
Qed.

Lemma lose_files_spec node names (k k' : Inner) n : NoDup names -> k_nodes k !! node = Some n ->
  for_each (lose_file fuel node) names k = Some (tt, k') ->
  exists files, quiet (on_node node (set_files files) k) k' /\
    forall name, (name ∈ names -> exists fates, files !! name = (fun f => crash_file f fates) <$> nd_files n !! name) /\
      (name ∉ names -> files !! name = nd_files n !! name).
Proof.
  intros Hnd. revert k n. induction Hnd as [|name names Hnot Hnd IH]; intros k n Hn H.
  - injection H as <-. exists (nd_files n). split; [|intros name; split; [set_solver|done]].
    by apply quiet_same_files.
  - cbn [for_each] in H. unfold mbind, K_bind in H.
    destruct (lose_file fuel node name k) as [[[] k1]|] eqn:E; [|done].
    destruct (lose_file_spec _ _ _ _ n Hn E) as (files1 & Hq & Hname & Hother).
    assert (Hn1 : k_nodes k1 !! node = Some (set_files files1 n)).
    { destruct Hq as (-> & _). simpl. by rewrite lookup_alter_eq, Hn. }
    destruct (IH k1 _ Hn1 H) as (files & Hq' & Hf). exists files. split.
    + etrans; [|exact Hq']. destruct Hq as (Q1 & Q2 & Q3 & Q4 & Q5 & Q6). split_and!; simpl in *; try done.
      rewrite Q1. apply map_eq. intros i. destruct (decide (i = node)) as [->|Hi]; [|by rewrite !lookup_alter_ne].
      rewrite !lookup_alter_eq, Hn. simpl. done.
    + intros x. destruct (Hf x) as [Hin Hout]. simpl in Hin, Hout. split.
      * intros [->|Hx]%elem_of_cons; [by rewrite Hout|].
        destruct (Hin Hx) as [fates ->]. exists fates. rewrite Hother; [done|]. by intros ->.
      * intros Hx. rewrite Hout by set_solver. apply Hother. set_solver.
Qed.

Lemma power_loss_spec node (k k' : Inner) n : k_nodes k !! node = Some n ->
  power_loss fuel node k = Some (tt, k') ->
  exists files, quiet (on_node node (set_files files) k) k' /\
    forall name, exists fates, files !! name = (fun f => crash_file f fates) <$> nd_files n !! name.
Proof.
  intros Hn. unfold power_loss, mbind, K_bind, gets, storage_list. rewrite Hn. intros H.
  assert (Hp : file_names n ≡ₚ elements (dom (nd_files n))) by apply merge_sort_Permutation.
  eapply lose_files_spec in H as (files & Hq & Hf); [|rewrite Hp; apply NoDup_elements|done].
  exists files. split; [done|]. intros name. destruct (Hf name) as [Hin Hout].
  destruct (decide (name ∈ dom (nd_files n))) as [Hd|Hd].
  - apply Hin. by rewrite Hp, elem_of_elements.
  - exists []. apply not_elem_of_dom in Hd as Hd'. rewrite Hd', Hout; [done|]. by rewrite Hp, elem_of_elements.
Qed.

(** ** Crashes *)

Lemma reap_fold doomed (k : Inner) :
  let k' := fold_left (fun k id => k |> on_tasks (delete id) |> on_ready (fun r => r ∖ {[id]})) doomed k in
  k_nodes k' = k_nodes k /\ k_timers k' = k_timers k /\ k_blocked k' = k_blocked k /\ k_now k' = k_now k /\
  forall id, k_tasks k' !! id = if decide (id ∈ doomed) then None else k_tasks k !! id.
Proof.
  revert k. induction doomed as [|x doomed IH]; intros k; [by split_and!|]. cbv zeta. cbn [fold_left].
  destruct (IH (k |> on_tasks (delete x) |> on_ready (fun r => r ∖ {[x]}))) as (E1 & E2 & E3 & E4 & E5).
  split_and!; [done..|]. intros id. rewrite E5. simpl.
  destruct (decide (id = x)) as [->|Hne].
  - rewrite lookup_delete_eq. destruct (decide (x ∈ doomed)); [|]; by rewrite decide_True by set_solver.
  - rewrite lookup_delete_ne by done. destruct (decide (id ∈ doomed)).
    + by rewrite decide_True by set_solver.
    + by rewrite decide_False by set_solver.
Qed.

Lemma reap_spec node (k : Inner) :
  k_nodes (reap node k) = k_nodes k /\ k_timers (reap node k) = k_timers k /\
  k_blocked (reap node k) = k_blocked k /\ k_now (reap node k) = k_now k /\
  forall id s, k_tasks (reap node k) !! id = Some s <-> k_tasks k !! id = Some s /\ tk_node s <> node.
Proof.
  unfold reap. match goal with |- context [fold_left _ ?l k] => set (doomed := l) end.
  destruct (reap_fold doomed k) as (E1 & E2 & E3 & E4 & E5). split_and!; [done..|].
  intros id s. rewrite E5. subst doomed.
  match goal with |- context [decide (?x ∈ ?l)] =>
    assert (Hin : x ∈ l <-> exists s, k_tasks k !! id = Some s /\ tk_node s = node) end.
  { rewrite list_elem_of_filter, elem_of_sorted_elements, elem_of_dom. split.
    - intros [H [s' Hs]]. rewrite Hs in H. apply bool_decide_eq_true in H. eauto.
    - intros (s' & Hs & Hn). rewrite Hs. split; [by apply bool_decide_eq_true|eauto]. }
  destruct (decide _) as [H|H].
  - apply Hin in H as (s' & Hs & Hn). split; [done|]. intros [Hs' Hne]. congruence.
  - split; [|tauto]. intros Hs. split; [done|]. intros Hn. apply H, Hin. eauto.
Qed.

Lemma wake_all_frame ids (k : Inner) :
  k_nodes (wake_all ids k) = k_nodes k /\ k_tasks (wake_all ids k) = k_tasks k /\
  k_timers (wake_all ids k) = k_timers k /\ k_blocked (wake_all ids k) = k_blocked k /\
  k_now (wake_all ids k) = k_now k.
Proof.
  unfold wake_all. revert k. induction ids as [|id ids IH]; intros k; [by split_and!|]. simpl.
  by destruct (IH (mark_ready id k)) as (-> & -> & -> & -> & ->).
Qed.

(** What is left of a node after a crash. *)
Definition crashed (n n' : NodeState) : Prop :=
  nd_up n' = false /\ nd_paused n' = false /\ nd_mailbox n' = [] /\ nd_recv_waiters n' = [] /\
  nd_role n' = nd_role n /\ nd_skew n' = nd_skew n /\ nd_drift_ppm n' = nd_drift_ppm n /\
  nd_boots n' = nd_boots n /\ nd_rng n' = nd_rng n /\
  forall name, exists fates, nd_files n' !! name = (fun f => crash_file f fates) <$> nd_files n !! name.
End Disk.

(** C11: a crash is a power loss and nothing else. It takes the node down, with its
    mailbox and every one of its tasks; each of its files becomes a [crash_file]
    of what it was, the image recovery is proved to survive; its clock and its
    generator go on; and no other node, no task of another node, no event in
    flight and no partition is touched. *)
Theorem crash_is_a_power_loss {F} (fuel : nat) (node : NodeId) (n : NodeState) (k k' : Inner (F := F)) :
  k_nodes k !! node = Some n -> nd_up n = true -> do_crash fuel node k = Some (tt, k') ->
  (exists n', k_nodes k' !! node = Some n' /\ crashed n n') /\
  (forall m, m <> node -> k_nodes k' !! m = k_nodes k !! m) /\
  (forall id s, k_tasks k' !! id = Some s <-> k_tasks k !! id = Some s /\ tk_node s <> node) /\
  k_timers k' = k_timers k /\ k_blocked k' = k_blocked k /\ k_now k' = k_now k.
Proof.
  intros Hn Hup H. unfold do_crash in H. rewrite Hn, Hup in H. cbn [negb] in H.
  match type of H with match power_loss _ _ ?k1 with _ => _ end = _ => set (k1' := k1) in * end.
  destruct (power_loss fuel node k1') as [[[] k2]|] eqn:E; [|done]. injection H as <-.
  destruct (reap_spec node (k |> on_node node kill_node |> count crashes 1 |> record (EvCrash node)))
    as (R1 & R2 & R3 & R4 & R5). fold k1' in R1, R2, R3, R4, R5. simpl in R1, R2, R3, R4, R5.
  assert (Hn1 : k_nodes k1' !! node = Some (kill_node n)) by (rewrite R1, lookup_alter_eq, Hn; done).
  destruct (power_loss_spec fuel node k1' k2 _ Hn1 E) as (files & (Q1 & Q2 & Q3 & Q4 & Q5 & Q6) & Hf).
  destruct (wake_all_frame (nd_recv_waiters n) k2) as (-> & -> & -> & -> & ->).
  simpl in Q1, Q2, Q3, Q4, Q5, Q6. rewrite Q1, Q2, Q3, Q4, Q5. split_and!.
  - exists (set_files files (kill_node n)). split; [by rewrite lookup_alter_eq, Hn1|]. by split_and!.
  - intros m Hm. by rewrite lookup_alter_ne, R1, lookup_alter_ne by done.
  - exact R5.
  - exact R2.
  - exact R3.
  - exact R4.
Qed.

(** A node with a file that is not synced. *)
Definition unsynced (policy : FaultPolicy) : Inner (F := Nap) :=
  let k := booted (mkNap None None) policy in
  match (_ ← (fun k => Some (storage_open 0 "wal" k)); file_write_at 8 0 "wal" 0 (repeat 7 100)) k with
  | Some (_, k) => k
  | None => k
  end.

Lemma crash_is_a_power_loss_witness :
  exists n k', do_crash 8 0 (unsynced torture) = Some (tt, k') /\
  ((exists n', k_nodes k' !! 0 = Some n' /\ crashed n n') /\
   (forall m, m <> 0 -> k_nodes k' !! m = k_nodes (unsynced torture) !! m) /\
   (forall id s, k_tasks k' !! id = Some s <-> k_tasks (unsynced torture) !! id = Some s /\ tk_node s <> 0) /\
   k_timers k' = k_timers (unsynced torture) /\ k_blocked k' = k_blocked (unsynced torture) /\
   k_now k' = k_now (unsynced torture)).
Proof.
  assert (Hn : nd_up <$> k_nodes (unsynced torture) !! 0 = Some true) by (vm_compute; reflexivity).
  assert (Hs : fst <$> do_crash 8 0 (unsynced torture) = Some tt) by (vm_compute; reflexivity).
  destruct (k_nodes (unsynced torture) !! 0) as [n|] eqn:En; [|discriminate Hn].
  destruct (do_crash 8 0 (unsynced torture)) as [[[] k']|] eqn:E; [|discriminate Hs].
  injection Hn as Hup. exists n, k'. split; [reflexivity|].
  exact (crash_is_a_power_loss 8 0 n _ k' En Hup E).
Defined.

(** ** What a call does to the files of a node *)

Definition view_len (f : FileState) : Z := Z.of_nat (length (f_view f)).

Inductive file_step (n n' : NodeState) : Prop :=
| step_same : nd_files n' = nd_files n -> nd_used_bytes n' = nd_used_bytes n -> file_step n n'
| step_open name : nd_files n !! name = None -> nd_files n' = <[name := FileState_new]> (nd_files n) ->
    nd_used_bytes n' = nd_used_bytes n -> file_step n n'
| step_remove name f : nd_files n !! name = Some f -> nd_files n' = delete name (nd_files n) ->
    nd_used_bytes n' = ssub (nd_used_bytes n) (view_len f) -> file_step n n'
| step_write name f offset data : 0 <= offset -> nd_files n !! name = Some f ->
    nd_files n' = <[name := file_op (PWrite (Z.to_nat offset) data) f]> (nd_files n) ->
    nd_used_bytes n' = nd_used_bytes n + ssub (offset + Z.of_nat (length data)) (view_len f) -> file_step n n'
| step_lost growth : 0 <= growth -> nd_files n' = nd_files n ->
    nd_used_bytes n' = nd_used_bytes n + growth -> file_step n n'
| step_truncate name f to : 0 <= to -> nd_files n !! name = Some f ->
    nd_files n' = <[name := file_op (PTruncate (Z.to_nat to)) f]> (nd_files n) ->
    nd_used_bytes n' = ssub (nd_used_bytes n) (ssub (view_len f) to) -> file_step n n'
| step_flush name f covered : nd_files n !! name = Some f ->
    nd_files n' = <[name := flush covered f]> (nd_files n) ->
    nd_used_bytes n' = nd_used_bytes n -> file_step n n'.

Section Calls.
Context {F : Type} (fuel : nat).
Abbreviation K := (K (F := F)).
Abbreviation Inner := (Inner (F := F)).

(** Every node makes one such step, and a write is within the quota. *)
Definition nodes_step (k k' : Inner) : Prop :=
  k_policy k' = k_policy k /\ dom (k_nodes k') = dom (k_nodes k) /\
  forall node n, k_nodes k !! node = Some n -> exists n', k_nodes k' !! node = Some n' /\ file_step n n' /\
    (nd_used_bytes n' <= Z.max 0 (nd_used_bytes n) \/
     forall limit, enospc_after_bytes (fp_disk (k_policy k)) = Some limit -> nd_used_bytes n' <= limit).

Lemma nodes_step_same k k' : k_policy k' = k_policy k -> k_nodes k' = k_nodes k -> nodes_step k k'.
Proof.
  intros Hp E. split_and!; [done|by rewrite E|]. intros node n Hn. exists n. rewrite E. split; [done|].
  split; [by apply step_same|left; lia].
Qed.

Lemma nodes_step_on_node node (f : NodeState -> NodeState) k k' : k_policy k' = k_policy k ->
  k_nodes k' = alter f node (k_nodes k) ->
  (forall n, k_nodes k !! node = Some n -> file_step n (f n) /\
    (nd_used_bytes (f n) <= Z.max 0 (nd_used_bytes n) \/
     forall limit, enospc_after_bytes (fp_disk (k_policy k)) = Some limit -> nd_used_bytes (f n) <= limit)) ->
  nodes_step k k'.
Proof.
  intros Hp E Hf. split_and!; [done|by rewrite E, dom_alter_L|]. intros i n Hn. rewrite E. destruct (decide (i = node)) as [->|Hi].
  - exists (f n). rewrite lookup_alter_eq, Hn. split; [done|by apply Hf].
  - exists n. rewrite lookup_alter_ne by done. split; [done|]. split; [by apply step_same|left; lia].
Qed.

Lemma wait_for_frame which (k k' : Inner) r : wait_for fuel which k = Some (r, k') ->
  k_policy k' = k_policy k /\ k_nodes k' = k_nodes k.
Proof.
  unfold wait_for, latency, mbind, K_bind, gets, lift. intros H.
  destruct (draw _ k) as [[b k1]|] eqn:E1; [|done].
  destruct (draw (ppm _ _) k1) as [[s k2]|] eqn:E2; [|done].
  apply draw_Some in E1 as (g1 & _ & ->). apply draw_Some in E2 as (g2 & _ & ->).
  unfold start_timer, TimerSlot_alloc in H. by injection H as _ <-.
Qed.

Definition same_nodes (k k' : Inner) : Prop := k_policy k' = k_policy k /\ k_nodes k' = k_nodes k.

#[export] Instance same_nodes_preorder : PreOrder same_nodes.
Proof. split; [by intros k|]. intros k1 k2 k3 [] []. split; congruence. Qed.

#[export] Instance same_nodes_draw {A} (r : Rand A) : Keeps same_nodes (draw r).
Proof. intros k a k' H. by apply draw_Some in H as (g & _ & ->). Qed.

Lemma same_nodes_modify f : (forall k, k_policy (f k) = k_policy k) -> (forall k, k_nodes (f k) = k_nodes k) ->
  Keeps same_nodes (modify f).
Proof. intros. apply keeps_modify. by split. Qed.
#[local] Hint Extern 2 (Keeps same_nodes (modify _)) =>
  apply same_nodes_modify; intros; reflexivity : typeclass_instances.

Lemma send_same from to payload : Keeps same_nodes (send (F := F) fuel from to payload).
Proof. unfold send, maybe_corrupt, maybe_duplicate, deliver_later. apply _. Qed.

Lemma sync_dir_same : Keeps same_nodes (sync_dir (F := F) fuel).
Proof.
  unfold sync_dir. apply keeps_bind; [apply _|intros d]. apply keeps_bind; [apply _|intros x].
  apply keeps_lift. intros k. by split.
Qed.

Lemma node_file_Some node name (k : Inner) f : node_file node name k = Some f ->
  exists n, k_nodes k !! node = Some n /\ nd_files n !! name = Some f.
Proof. unfold node_file. intros H. apply stdpp.option.bind_Some in H as (n & Hn & Hf). eauto. Qed.

Lemma alter_insert_eq (files : gmap string FileState) name f g : files !! name = Some f ->
  alter g name files = <[name := g f]> files.
Proof.
  intros Hf. apply map_eq. intros i. destruct (decide (i = name)) as [->|Hi].
  - by rewrite lookup_alter_eq, lookup_insert_eq, Hf.
  - by rewrite lookup_alter_ne, lookup_insert_ne by done.
Qed.

(** The write: refused, lost on a removed file, or done within the quota. *)
Lemma write_step node name offset data (k k' : Inner) r : 0 <= offset ->
  file_write_at fuel node name offset data k = Some (r, k') -> nodes_step k k'.
Proof.
  intros Hoff. unfold file_write_at, over_quota. destruct (k_nodes k !! node) as [n|] eqn:Hn; [|intros [= _ <-]; by apply nodes_step_same].
  destruct (nd_up n); cbn [negb]; [|intros [= _ <-]; by apply nodes_step_same].
  set (growth := ssub _ _).
  assert (Hg : 0 <= growth) by (unfold growth, ssub; lia).
  match goal with |- (if ?b then _ else _) = _ -> _ => destruct b eqn:Hq end; [intros [= _ <-]; by apply nodes_step_same|].
  assert (Hlim : forall limit, enospc_after_bytes (fp_disk (k_policy k)) = Some limit ->
    nd_used_bytes n + growth <= limit).
  { intros limit Hlimit. rewrite Hlimit in Hq. lia. }
  clear Hq. set (k1 := on_node node _ k).
  assert (Hn1 : k_nodes k1 = alter (fun n => set_used_bytes (nd_used_bytes n + growth) n) node (k_nodes k)) by done.
  assert (Hf1 : node_file node name k1 = nd_files n !! name).
  { unfold node_file. rewrite Hn1, lookup_alter_eq, Hn. done. }
  rewrite Hf1. destruct (nd_files n !! name) as [f|] eqn:Hf.
  - intros H. apply wait_for_frame in H as [Hp' Hn'].
    apply (nodes_step_on_node node (fun n => n |> set_used_bytes (nd_used_bytes n + growth)
      |> set_files (alter (file_op (PWrite (Z.to_nat offset) data)) name (nd_files n)))).
    + exact Hp'.
    + rewrite Hn'. simpl. apply map_eq. intros i. destruct (decide (i = node)) as [->|Hi].
      * by rewrite !lookup_alter_eq, Hn.
      * by rewrite !lookup_alter_ne.
    + intros n0 Hn0. assert (n0 = n) as -> by congruence. split; [|right; exact Hlim].
      apply (step_write _ _ name f offset data); [done|done|simpl; by rewrite (alter_insert_eq _ _ f)|].
      simpl. unfold growth, file_len, node_file. rewrite Hn. cbn [mbind option_bind]. by rewrite Hf.
  - intros [= _ <-]. apply (nodes_step_on_node node (fun n => set_used_bytes (nd_used_bytes n + growth) n)); [done..|].
    intros n0 Hn0. assert (n0 = n) as -> by congruence. split; [|right; exact Hlim]. by apply (step_lost _ _ growth).
Qed.

Lemma truncate_step node name to (k k' : Inner) r : 0 <= to ->
  file_truncate fuel node name to k = Some (r, k') -> nodes_step k k'.
Proof.
  intros Hto. unfold file_truncate. destruct (node_file node name k) as [f|] eqn:Hf; [|intros [= _ <-]; by apply nodes_step_same].
  intros H. apply wait_for_frame in H as [Hp' Hn']. apply node_file_Some in Hf as (n & Hn & Hf).
  apply (nodes_step_on_node node (fun n => n |> set_files (alter (file_op (PTruncate (Z.to_nat to))) name (nd_files n))
    |> set_used_bytes (ssub (nd_used_bytes n) (ssub (view_len f) to)))).
  - exact Hp'.
  - rewrite Hn'. simpl. apply map_eq. intros i. destruct (decide (i = node)) as [->|Hi].
    + by rewrite !lookup_alter_eq, Hn.
    + by rewrite !lookup_alter_ne.
  - intros n0 Hn0. assert (n0 = n) as -> by congruence.
    split; [apply (step_truncate _ _ name f to); [done|done|simpl; by rewrite (alter_insert_eq _ _ f)|done]|].
    left. simpl. unfold ssub. lia.
Qed.

(** Every call of a task makes at most one such step, on one node. *)
Lemma call_step (k k' : Inner) : kernel_call fuel k k' -> nodes_step k k'.
Proof.
  assert (Hsame : forall A (p : K A) a k', Keeps same_nodes p -> p k = Some (a, k') -> nodes_step k k').
  { intros A p a k0 Hp H. apply Hp in H as []. by apply nodes_step_same. }
  assert (Hon : forall node f, (forall n, file_step n (f n)) -> (forall n, nd_used_bytes (f n) = nd_used_bytes n) ->
    nodes_step k (on_node node f k)).
  { intros node f Hf Hu. apply (nodes_step_on_node node f); [done..|]. intros n _. split; [done|left].
    rewrite Hu. lia. }
  destruct 1 as [slot id|done id|node id|id|node dur|from to payload k' H|node name|node name|slot k' H
    |node name offset data r k' Hoff H|node name offset len r k' H|node name r k' H|node name covered
    |node name to r k' Hto H|node fut|node text|node].
  - unfold TimerFuture_poll. repeat case_match; by apply nodes_step_same.
  - unfold YieldOnce_poll. destruct done; by apply nodes_step_same.
  - unfold RecvFuture_poll. repeat case_match; try (by apply nodes_step_same);
      apply Hon; intros; try done; by apply step_same.
  - by apply nodes_step_same.
  - by apply nodes_step_same.
  - eapply Hsame; [apply send_same|exact H].
  - unfold storage_open. destruct (k_nodes k !! node) as [n|] eqn:Hn; [|by apply nodes_step_same].
    apply (nodes_step_on_node node (fun n => set_files match nd_files n !! name with
      | Some _ => nd_files n | None => <[name := FileState_new]> (nd_files n) end n)); [done..|].
    intros n0 _. split; [|left; simpl; lia]. destruct (nd_files n0 !! name) eqn:E; [by apply step_same|].
    by apply (step_open _ _ name).
  - unfold storage_remove. apply (nodes_step_on_node node (fun n => match nd_files n !! name with
      | Some f => n |> set_files (delete name (nd_files n))
                    |> set_used_bytes (ssub (nd_used_bytes n) (Z.of_nat (length (f_view f))))
      | None => n end)); [done..|].
    intros n _. destruct (nd_files n !! name) as [f|] eqn:E.
    + split; [by apply (step_remove _ _ name f)|]. left. simpl. unfold ssub. lia.
    + split; [by apply step_same|left; lia].
  - eapply Hsame; [apply sync_dir_same|exact H].
  - exact (write_step _ _ _ _ _ _ _ Hoff H).
  - unfold file_read_start in H. apply wait_for_frame in H as [Hp Hn]. by apply nodes_step_same.
  - unfold file_fsync_start in H. destruct (node_file node name k); [|injection H as _ <-; by apply nodes_step_same].
    destruct (wait_for fuel OpFsync _) as [[[s|e] k1]|] eqn:E; [| |done];
      apply wait_for_frame in E as [Hp Hn]; injection H as _ <-; by apply nodes_step_same.
  - unfold file_fsync_finish. destruct (k_nodes k !! node) as [n|] eqn:Hn; [|by apply nodes_step_same].
    destruct (nd_up n); cbn [negb]; [|by apply nodes_step_same].
    destruct (nd_files n !! name) as [f|] eqn:Hf; [|by apply nodes_step_same].
    apply (nodes_step_on_node node (fun n => set_files (alter (flush covered) name (nd_files n)) n)); [done..|].
    intros n0 Hn0. assert (n0 = n) as -> by congruence. split; [|left; simpl; lia].
    apply (step_flush _ _ name f covered); [done| |done]. simpl. by rewrite (alter_insert_eq _ _ f).
  - exact (truncate_step _ _ _ _ _ _ Hto H).
  - by apply nodes_step_same.
  - by apply nodes_step_same.
  - unfold node_next_u64. destruct (k_nodes k !! node) as [n|]; [|by apply nodes_step_same].
    destruct (next_u64 (nd_rng n)). apply Hon; intros; [by apply step_same|done].
Qed.
End Calls.

(** ** The quota *)

Definition live_bytes (files : gmap string FileState) : Z :=
  map_fold (fun _ f acc => view_len f + acc) 0 files.

Lemma live_insert files name f : files !! name = None ->
  live_bytes (<[name := f]> files) = view_len f + live_bytes files.
Proof. intros H. unfold live_bytes. apply (map_fold_insert_L (fun _ f acc => view_len f + acc)); [intros; lia|done]. Qed.

Lemma live_delete files name f : files !! name = Some f ->
  live_bytes files = view_len f + live_bytes (delete name files).
Proof. intros H. unfold live_bytes. apply (map_fold_delete_L (fun _ f acc => view_len f + acc)); [intros; lia|done]. Qed.

Lemma live_update files name f g : files !! name = Some f ->
  live_bytes (<[name := g]> files) = live_bytes files - view_len f + view_len g.
Proof.
  intros H. rewrite (live_delete files name f H), <- insert_delete_eq, live_insert by (by rewrite lookup_delete_eq). lia.
Qed.

Lemma live_nonneg files : 0 <= live_bytes files.
Proof.
  unfold live_bytes. apply (map_fold_weak_ind (fun r _ => 0 <= r)); [done|].
  intros i f m r _ Hr. unfold view_len. lia.
Qed.

Lemma view_len_write f offset data :
  view_len (file_op (PWrite offset data) f) <= view_len f + ssub (Z.of_nat offset + Z.of_nat (length data)) (view_len f).
Proof.
  unfold view_len, file_op, ssub. simpl. unfold write_at.
  rewrite !length_app, length_take, length_app, length_replicate, length_drop. lia.
Qed.

(** The live bytes of every node are within what it has been charged, and that
    within the quota. *)
Definition within_quota {F} (limit : Z) (k : Inner (F := F)) : Prop :=
  enospc_after_bytes (fp_disk (k_policy k)) = Some limit /\
  forall node n, k_nodes k !! node = Some n -> live_bytes (nd_files n) <= nd_used_bytes n <= limit.

Lemma file_step_live n n' : file_step n n' -> live_bytes (nd_files n) <= nd_used_bytes n ->
  live_bytes (nd_files n') <= nd_used_bytes n'.
Proof.
  intros H Hl. pose proof (live_nonneg (nd_files n)) as H0.
  destruct H as [-> ->|name Hf -> ->|name f Hf -> ->|name f offset data Hoff Hf -> ->|growth Hg -> ->
    |name f to Hto Hf -> ->|name f covered Hf -> ->]; [done| | | |lia| |].
  - rewrite live_insert by done. unfold view_len. simpl. lia.
  - rewrite (live_delete _ name f Hf) in Hl. unfold ssub. pose proof (live_nonneg (delete name (nd_files n))). lia.
  - rewrite (live_update _ name f) by done.
    pose proof (view_len_write f (Z.to_nat offset) data) as H. rewrite Z2Nat.id in H by done. lia.
  - rewrite (live_update _ name f) by done.
    assert (Ht : view_len (file_op (PTruncate (Z.to_nat to)) f) = view_len f - ssub (view_len f) to).
    { unfold view_len, file_op, ssub. simpl. rewrite length_take. lia. }
    rewrite Ht. unfold ssub in *. lia.
  - rewrite (live_update _ name f) by done. unfold view_len, flush. simpl. lia.
Qed.

Lemma nodes_step_quota {F} limit (k k' : Inner (F := F)) :
  nodes_step k k' -> within_quota limit k -> within_quota limit k'.
Proof.
  intros (Hp & Hdom & Hs) [Hlim Hq]. split; [by rewrite Hp|]. intros node n' Hn'.
  assert (Hd : node ∈ dom (k_nodes k)) by (rewrite <- Hdom; by eapply elem_of_dom_2).
  apply elem_of_dom in Hd as [n Hn]. destruct (Hs node n Hn) as (n1 & Hn1 & Hstep & Hu).
  assert (n1 = n') as -> by congruence. destruct (Hq node n Hn) as [H1 H2]. split; [by eapply file_step_live|].
  pose proof (live_nonneg (nd_files n)). destruct Hu as [Hu|Hu]; [lia|by apply Hu].
Qed.

(** While no node crashes, the disk quota is kept. Whatever calls the tasks
    make, in any order and however many, the bytes the files of a node occupy never
    exceed what the node has been charged for, nor that the limit; truncating or
    removing a file gives its bytes back, and no write that would pass the limit
    is accepted. *)
Theorem quota_is_kept {F} (fuel : nat) (limit : Z) (k k' : Inner (F := F)) :
  within_quota limit k -> rtc (kernel_call fuel) k k' -> within_quota limit k'.
Proof.
  intros Hq H. induction H as [k|k k1 k' H _ IH]; [done|]. apply IH.
  eapply nodes_step_quota; [by eapply call_step|done].
Qed.

Lemma quota_is_kept_witness :
  within_quota (96 * 1024) (storage_remove 0 "wal" (unsynced diskfull)).
Proof.
  refine (quota_is_kept 8 _ (unsynced diskfull) _ _ (rtc_once _ _ (call_remove 8 _ 0 "wal"))).
  split; [vm_compute; reflexivity|].
  assert (Hb : bool_decide (map_Forall (fun _ n => live_bytes (nd_files n) <= nd_used_bytes n <= 96 * 1024)
    (k_nodes (unsynced diskfull))) = true) by (vm_compute; reflexivity).
  apply bool_decide_eq_true in Hb. intros node n Hn. exact (Hb node n Hn).
Defined.

(** ** The page cache *)

(** What a process sees of a file is what is on the platter with the pending
    operations applied. *)
Definition file_ok (f : FileState) : Prop := f_view f = fold_left apply_pending (f_pending f) (f_durable f).

Definition cache_ok {F} (k : Inner (F := F)) : Prop :=
  forall node n, k_nodes k !! node = Some n -> map_Forall (fun _ f => file_ok f) (nd_files n).

Lemma file_ok_op op f : file_ok f -> file_ok (file_op op f).
Proof. unfold file_ok, file_op. simpl. intros ->. by rewrite fold_left_app. Qed.

Lemma file_ok_flush covered f : file_ok f -> file_ok (flush covered f).
Proof. unfold file_ok, flush. simpl. intros ->. by rewrite <- fold_left_app, take_drop. Qed.

Lemma file_step_ok n n' : file_step n n' -> map_Forall (fun _ f => file_ok f) (nd_files n) ->
  map_Forall (fun _ f => file_ok f) (nd_files n').
Proof.
  intros H Hok.
  destruct H as [-> _|name Hf -> _|name f Hf -> _|name f offset data Hoff Hf -> _|growth Hg -> _
    |name f to Hto Hf -> _|name f covered Hf -> _]; try done.
  - by apply map_Forall_insert_2.
  - by apply map_Forall_delete.
  - apply map_Forall_insert_2; [apply file_ok_op; by apply (Hok name)|done].
  - apply map_Forall_insert_2; [apply file_ok_op; by apply (Hok name)|done].
  - apply map_Forall_insert_2; [apply file_ok_flush; by apply (Hok name)|done].
Qed.

Lemma calls_cache {F} fuel (k k' : Inner (F := F)) : rtc (kernel_call fuel) k k' -> cache_ok k -> cache_ok k'.
Proof.
  induction 1 as [k|k k1 k' H _ IH]; intros Hk; [done|]. apply IH. intros node n1 Hn1.
  destruct (call_step fuel k k1 H) as (_ & Hdom & Hs).
  assert (Hd : node ∈ dom (k_nodes k)) by (rewrite <- Hdom; by eapply elem_of_dom_2).
  apply elem_of_dom in Hd as [n Hn]. destruct (Hs node n Hn) as (n1' & Hn1' & Hstep & _).
  assert (n1' = n1) as -> by congruence. eapply file_step_ok; [done|by apply (Hk node)].
Qed.

Section Barrier.
Context {F : Type} (fuel : nat) (node : NodeId) (name : string).
Abbreviation Inner := (Inner (F := F)).

(** What may happen while an [fsync] of the file waits: writes and truncations, of this
    file or of another, and every other call that leaves the file as it is. (A
    removal of the file does not, nor does the end of another [fsync] of it.) *)
Inductive meanwhile (k : Inner) : Inner -> Prop :=
| meanwhile_write node' name' offset data r k' : 0 <= offset ->
    file_write_at fuel node' name' offset data k = Some (r, k') -> meanwhile k k'
| meanwhile_truncate node' name' to r k' : 0 <= to ->
    file_truncate fuel node' name' to k = Some (r, k') -> meanwhile k k'
| meanwhile_other k' : kernel_call fuel k k' -> node_file node name k' = node_file node name k -> meanwhile k k'.

(** The file stays, or has one more operation pending. *)
Definition one_more (f f' : FileState) : Prop := f' = f \/ exists op, f' = file_op op f.

Lemma on_file_other node' name' g (k : Inner) : (node', name') <> (node, name) ->
  node_file node name (on_file node' name' g k) = node_file node name k.
Proof.
  intros Hne. unfold node_file, on_file. simpl. destruct (decide (node' = node)) as [->|Hn].
  - rewrite lookup_alter_eq. destruct (k_nodes k !! node) as [n|]; [|done]. simpl.
    rewrite lookup_alter_ne; [done|]. congruence.
  - by rewrite lookup_alter_ne.
Qed.

Lemma on_file_same g (k : Inner) f : node_file node name k = Some f ->
  node_file node name (on_file node name g k) = Some (g f).
Proof.
  intros (n & Hn & Hf)%node_file_Some. unfold node_file, on_file. simpl. rewrite lookup_alter_eq, Hn. simpl.
  by rewrite lookup_alter_eq, Hf.
Qed.

Lemma node_file_frame (k k' : Inner) : k_nodes k' = k_nodes k -> node_file node name k' = node_file node name k.
Proof. intros E. unfold node_file. by rewrite E. Qed.

Lemma files_frame node' g (k : Inner) : (forall n, nd_files (g n) = nd_files n) ->
  node_file node name (on_node node' g k) = node_file node name k.
Proof.
  intros Hg. unfold node_file. simpl. destruct (decide (node' = node)) as [->|Hn]; [|by rewrite lookup_alter_ne].
  rewrite lookup_alter_eq. destruct (k_nodes k !! node) as [n|]; [|done]. simpl. by rewrite Hg.
Qed.

Lemma on_file_one_more node' name' op (k : Inner) f : node_file node name k = Some f ->
  exists f', node_file node name (on_file node' name' (file_op op) k) = Some f' /\ one_more f f'.
Proof.
  intros Hf. destruct (decide ((node', name') = (node, name))) as [[= -> ->]|Hne].
  - exists (file_op op f). split; [by apply on_file_same|right; eauto].
  - exists f. split; [by rewrite on_file_other|by left].
Qed.

Lemma meanwhile_file (k k' : Inner) f : meanwhile k k' -> node_file node name k = Some f ->
  exists f', node_file node name k' = Some f' /\ one_more f f'.
Proof.
  intros H Hf. destruct H as [node' name' offset data r k' _ H|node' name' to r k' _ H|k' _ H].
  - unfold file_write_at in H. destruct (k_nodes k !! node') as [n|]; [|injection H as _ <-; exists f; split; [done|by left]].
    destruct (nd_up n); [|injection H as _ <-; exists f; split; [done|by left]]. cbn [negb] in H.
    match type of H with (if ?b then _ else _) = _ => destruct b; [injection H as _ <-; exists f; split; [done|by left]|] end.
    match type of H with match node_file _ _ ?k1 with _ => _ end = _ => set (k1' := k1) in *;
      assert (Hk1 : node_file node name k1' = Some f) by (unfold k1'; by rewrite files_frame) end.
    destruct (node_file node' name' k1'); [|injection H as _ <-; exists f; split; [done|by left]].
    apply wait_for_frame in H as [_ Hn]. rewrite (node_file_frame _ _ Hn). by apply on_file_one_more.
  - unfold file_truncate in H. destruct (node_file node' name' k); [|injection H as _ <-; exists f; split; [done|by left]].
    apply wait_for_frame in H as [_ Hn]. rewrite (node_file_frame _ _ Hn).
    match goal with |- context [record ?e (on_node node' ?g ?k1)] =>
      change (exists f', node_file node name (on_node node' g k1) = Some f' /\ one_more f f') end.
    rewrite files_frame by done. by apply on_file_one_more.
  - exists f. rewrite H. split; [done|by left].
Qed.

Lemma meanwhile_pending (k k' : Inner) f : rtc meanwhile k k' -> node_file node name k = Some f ->
  exists later f', node_file node name k' = Some f' /\ f_durable f' = f_durable f /\
    f_pending f' = f_pending f ++ later.
Proof.
  intros H. revert f. induction H as [k|k k1 k' H _ IH]; intros f Hf.
  - exists [], f. by rewrite app_nil_r.
  - destruct (meanwhile_file k k1 f H Hf) as (f1 & Hf1 & Hm). destruct (IH f1 Hf1) as (later & f' & Hf' & Hd & Hp).
    destruct Hm as [->|[op ->]]; [by exists later, f'|]. exists (op :: later), f'. rewrite Hd, Hp. simpl.
    by rewrite <- app_assoc.
Qed.

Lemma fsync_start_file (k k1 : Inner) slot covered : file_fsync_start fuel node name k = Some (Ok (slot, covered), k1) ->
  node_file node name k1 = node_file node name k /\
  exists f, node_file node name k = Some f /\ covered = length (f_pending f).
Proof.
  unfold file_fsync_start. destruct (node_file node name k) as [f|] eqn:Hf; [|done].
  destruct (wait_for fuel OpFsync _) as [[[s|e] k2]|] eqn:E; try done. intros [= <- <- <-].
  apply wait_for_frame in E as [_ Hn]. split; [|by exists f]. rewrite (node_file_frame _ _ Hn). exact Hf.
Qed.
End Barrier.

(** C29: [fsync] is a barrier. Take any state reached by calls from one whose page
    caches are consistent, and let an [fsync] of a file begin there; let calls follow
    while it waits, writes and truncations of the file among them, but no removal of it
    and no end of another [fsync] of it; and let it end, with what it recorded when it
    began, on a node that is up. It succeeds; the platter then holds exactly what
    the process saw of the file when the [fsync] began, the operations issued since are
    all still pending, in their order, and the page cache has not changed. *)
Theorem fsync_is_a_barrier {F} (fuel : nat) (node : NodeId) (name : string) (slot : Z) (covered : nat)
    (k0 k k1 k2 : Inner (F := F)) :
  cache_ok k0 -> rtc (kernel_call fuel) k0 k ->
  file_fsync_start fuel node name k = Some (Ok (slot, covered), k1) ->
  rtc (meanwhile fuel node name) k1 k2 ->
  (exists n, k_nodes k2 !! node = Some n /\ nd_up n = true) ->
  exists f f2 later k3, node_file node name k = Some f /\ node_file node name k2 = Some f2 /\
    f_pending f2 = f_pending f ++ later /\
    file_fsync_finish node name covered k2 = (Ok tt, k3) /\
    node_file node name k3 = Some (mkFile (f_view f) (f_view f2) later).
Proof.
  intros H0 Hr Hs Hm (n2 & Hn2 & Hup). apply (calls_cache fuel k0 k Hr) in H0.
  destruct (fsync_start_file fuel node name k k1 slot covered Hs) as (Hk1 & f & Hf & ->).
  destruct (meanwhile_pending fuel node name k1 k2 f Hm) as (later & f2 & Hf2 & Hd & Hp); [by rewrite Hk1|].
  pose proof (node_file_Some node name k f Hf) as (n & Hn & Hfn).
  assert (Hok : file_ok f) by (by apply (H0 node n Hn name)).
  pose proof (node_file_Some node name k2 f2 Hf2) as (n2' & Hn2' & Hfn2). assert (n2' = n2) as -> by congruence.
  exists f, f2, later. unfold file_fsync_finish. rewrite Hn2, Hup, Hfn2. cbn [negb].
  eexists. split_and!; [done|done|done|reflexivity|]. rewrite (on_file_same node name _ k2 f2 Hf2).
  unfold flush. rewrite Hp, take_app_length, drop_app_length, Hd. by rewrite <- Hok.
Qed.

Definition and_write (offset : Z) (data : Bytes) (k : Inner (F := Nap)) : Inner (F := Nap) :=
  match file_write_at 8 0 "wal" offset data k with Some (_, k) => k | None => k end.

Definition first_write : FileState := mkFile [] (repeat 7 100) [PWrite 0 (repeat 7 100)].

Definition started (k : Inner (F := Nap)) : option (nat * Inner (F := Nap)) :=
  match file_fsync_start 8 0 "wal" k with
  | Some (Ok (_, covered), k) => Some (covered, k)
  | _ => None
  end.

Lemma started_Some (k k1 : Inner (F := Nap)) covered : started k = Some (covered, k1) ->
  exists slot, file_fsync_start 8 0 "wal" k = Some (Ok (slot, covered), k1).
Proof.
  unfold started. destruct (file_fsync_start 8 0 "wal" k) as [[[[slot c]|e] k']|]; [|done..].
  intros [= <- <-]. by exists slot.
Qed.

Lemma and_write_meanwhile offset data (k : Inner (F := Nap)) : 0 <= offset ->
  rtc (meanwhile 8 0 "wal") k (and_write offset data k).
Proof.
  intros Ho. unfold and_write. destruct (file_write_at 8 0 "wal" offset data k) as [[r k']|] eqn:E; [|done].
  apply rtc_once. by apply (meanwhile_write 8 0 "wal" k 0 "wal" offset data r).
Qed.

(** A write of one byte while the fsync of the first write waits. *)
Lemma fsync_is_a_barrier_witness :
  exists covered k1 later k3, started (unsynced benign) = Some (covered, k1) /\
    file_fsync_finish 0 "wal" covered (and_write 2 [1] k1) = (Ok tt, k3) /\
    option_map f_durable (node_file 0 "wal" k3) = Some (repeat 7 100) /\
    option_map f_pending (node_file 0 "wal" k3) = Some later.
Proof.
  assert (Hc : bool_decide (map_Forall (fun _ n => map_Forall
      (fun _ f => f_view f = fold_left apply_pending (f_pending f) (f_durable f)) (nd_files n))
    (k_nodes (unsynced benign))) = true) by (vm_compute; reflexivity).
  apply bool_decide_eq_true in Hc.
  assert (Hf : node_file 0 "wal" (unsynced benign) = Some first_write) by (vm_compute; reflexivity).
  assert (Hn : started (unsynced benign) ≫= (fun x => nd_up <$> k_nodes (and_write 2 [1] x.2) !! 0) = Some true)
    by (vm_compute; reflexivity).
  revert Hc Hf Hn. generalize (unsynced benign). intros k Hc Hf Hn.
  destruct (started k) as [[covered k1]|] eqn:E; [|discriminate Hn]. cbn [mbind option_bind snd] in Hn.
  destruct (started_Some k k1 covered E) as [slot Es].
  destruct (fsync_is_a_barrier 8 0 "wal" slot covered k k k1 (and_write 2 [1] k1) Hc (rtc_refl _ _) Es
              (and_write_meanwhile 2 [1] k1 ltac:(lia)))
    as (f & f2 & later & k3 & Hf0 & _ & _ & H1 & H2).
  - destruct (k_nodes (and_write 2 [1] k1) !! 0) as [n|]; [|discriminate Hn]. exists n. split; [done|]. by injection Hn.
  - assert (f = first_write) as -> by congruence.
    exists covered, k1, later, k3. split; [done|]. rewrite H2. split; [exact H1|]. by split.
Defined.

(** ** Two surprises of the disk *)

Definition start_fsync (k : Inner (F := Nap)) : nat * Inner (F := Nap) :=
  match file_fsync_start 8 0 "wal" k with Some (Ok (_, covered), k) => (covered, k) | _ => (0%nat, k) end.

Definition finish_fsync (covered : nat) (k : Inner (F := Nap)) : Inner (F := Nap) :=
  (file_fsync_finish 0 "wal" covered k).2.

(** Two fsyncs of one file that overlap cover more than they should. What an
    fsync covers is a number of operations, counted when it starts and taken from
    the front of the queue when it ends. When another fsync has shortened the
    queue in between, the number reaches into operations issued after it started:
    here a byte written while both were waiting is durable when the second one
    ends. *)
Theorem overlapping_fsyncs_cover_later_writes :
  let '(first, k) := start_fsync (unsynced benign) in
  let '(second, k) := start_fsync (and_write 100 [8] k) in
  let k := finish_fsync first (and_write 101 [9] k) in
  f_durable <$> node_file 0 "wal" (finish_fsync second k) = Some (repeat 7 100 ++ [8; 9]).
Proof. vm_compute. reflexivity. Qed.

(** A disk that loses every write that is not synced, and allows 100 bytes. *)
Definition forgetful : FaultPolicy :=
  mkFaultPolicy (fp_link benign)
    (mkDiskPolicy [mkBucket 1 0 1] [mkBucket 1 0 1] [mkBucket 1 0 1] 4096 0 1000000 0 (Some 100) 0 1)
    (fp_clock benign) (fp_chaos benign) 100.

Definition lost_power : Inner (F := Nap) :=
  match do_crash 8 0 (unsynced forgetful) with
  | Some (_, k) =>
      match boot_node (fun _ => mret tt) 0 k with Some (_, k) => k | None => k end
  | None => unsynced forgetful
  end.

(** A crash leaks quota. Power loss shortens the files and leaves the charge
    alone: the node comes back with an empty disk for which it is charged 100
    bytes, its whole quota, and a write of one byte is refused. *)
Theorem a_crash_leaks_quota :
  (fun n => (live_bytes (nd_files n), nd_used_bytes n)) <$> k_nodes lost_power !! 0 = Some (0, 100) /\
  fst <$> file_write_at 8 0 "wal" 0 [1] lost_power = Some (Err Kernel.Enospc).
Proof. split; vm_compute; reflexivity. Qed.
