(* ===== verification/KernelNet.v ===== *)
(** * The simulated network

    What one [send] may do to a packet; that nothing reaches a mailbox which was
    not sent, whatever the run; that a corrupted frame of the protocol is rejected
    by its decoder; and how partitions block links and heal. *)

From Stdlib Require Import ZArith Lia.
From stdpp Require Import base tactics list list_numbers gmap sets sorting strings relations.
From S2P Require Import Prelude Codec Types RaftLog Client Msg Rng Time Wal WalState WalSegments Trace Fault Kernel Sim KernelRun KernelDisk.

Open Scope Z_scope.

(** What arrives for a payload: itself, or itself with one bit flipped. *)
Definition one_flip (payload payload' : Bytes) : Prop :=
  exists idx bit, (idx < length payload)%nat /\ 0 <= bit < 8 /\ payload' = flip_bit payload idx bit.

Definition copy_of (payload payload' : Bytes) : Prop := payload' = payload \/ one_flip payload payload'.

Section Send.
Context {F : Type} (fuel : nat).
Abbreviation K := (K (F := F)).
Abbreviation Inner := (Inner (F := F)).

(** Like [quiet], with the packets that are put on the heap. *)
Definition emits (ps : list (NodeId * NodeId * Z * Bytes)) (k k' : Inner) : Prop :=
  k_nodes k' = k_nodes k /\ k_tasks k' = k_tasks k /\ k_blocked k' = k_blocked k /\ k_now k' = k_now k /\
  k_policy k' = k_policy k /\ k_next_msg k' = k_next_msg k /\
  exists ts, k_timers k' = k_timers k ++ ts /\
    map t_action ts = map (fun p => Deliver p.1.1.1 p.1.1.2 p.1.2 p.2) ps.

Lemma emits_nil k k' : k_nodes k' = k_nodes k -> k_tasks k' = k_tasks k -> k_blocked k' = k_blocked k ->
  k_now k' = k_now k -> k_policy k' = k_policy k -> k_next_msg k' = k_next_msg k ->
  k_timers k' = k_timers k -> emits [] k k'.
Proof. intros. split_and!; try done. exists []. by rewrite app_nil_r. Qed.

Lemma emits_trans ps qs k1 k2 k3 : emits ps k1 k2 -> emits qs k2 k3 -> emits (ps ++ qs) k1 k3.
Proof.
  intros (A1 & A2 & A3 & A4 & A5 & A6 & ts & At & Am) (B1 & B2 & B3 & B4 & B5 & B6 & us & Bt & Bm).
  split_and!; try congruence. exists (ts ++ us). by rewrite Bt, At, app_assoc, !map_app, Am, Bm.
Qed.

Lemma kbind_Some {A B} (p : K A) (f : A -> K B) (k : Inner) b k'' : (p ≫= f) k = Some (b, k'') ->
  exists a k', p k = Some (a, k') /\ f a k' = Some (b, k'').
Proof. unfold mbind, K_bind. destruct (p k) as [[a k']|]; [|done]. eauto. Qed.

Lemma draw_emits {A} (r : Rand (S := Xoshiro256ss) A) (k : Inner) a k' : draw r k = Some (a, k') -> emits [] k k'.
Proof. intros H. apply draw_Some in H as (g & _ & ->). by apply emits_nil. Qed.

Lemma ppm_zero (k : Inner) b k' : draw (ppm fuel 0) k = Some (b, k') -> b = false.
Proof. intros H. apply draw_Some in H as (g & H & _). by injection H as <- _. Qed.

Lemma deliver_later_emits from to msg payload (k k' : Inner) :
  deliver_later fuel from to msg payload k = Some (tt, k') -> emits [(from, to, msg, payload)] k k'.
Proof.
  unfold deliver_later, mbind, K_bind, gets, modify. destruct (draw _ k) as [[d k1]|] eqn:E; [|done].
  intros [= <-]. apply draw_emits in E. apply (emits_trans [] [_] _ _ _ E). split_and!; try done.
  by eexists [_].
Qed.

Lemma maybe_corrupt_spec from to msg payload (k k' : Inner) payload' :
  maybe_corrupt fuel from to msg payload k = Some (payload', k') ->
  emits [] k k' /\ copy_of payload payload' /\
  (lk_corrupt_ppm (fp_link (k_policy k)) = 0 -> payload' = payload).
Proof.
  unfold maybe_corrupt, mbind, K_bind, gets, modify. intros H.
  destruct (draw (ppm fuel _) k) as [[hit k1]|] eqn:E1; [|done].
  assert (Hz : lk_corrupt_ppm (fp_link (k_policy k)) = 0 -> hit = false).
  { intros Hz. rewrite Hz in E1. by eapply ppm_zero. }
  apply draw_emits in E1. destruct hit; cbn [andb] in H.
  - destruct (bool_decide_reflect (payload = [])) as [->|Hne]; cbn [negb] in H.
    { injection H as <- <-. split_and!; [done|by left|done]. }
    destruct (draw (below fuel _) k1) as [[idx k2]|] eqn:E2; [|done].
    destruct (draw (below fuel 8) k2) as [[bit k3]|] eqn:E3; [|done]. injection H as <- <-.
    assert (Hidx : 0 <= idx < Z.of_nat (length payload)).
    { apply draw_Some in E2 as (g & E2 & _). apply below_range in E2. destruct payload; [done|]. simpl in *. lia. }
    assert (Hbit : 0 <= bit < 8) by (apply draw_Some in E3 as (g & E3 & _); apply below_range in E3; lia).
    apply draw_emits in E2. apply draw_emits in E3. split_and!.
    + apply (emits_trans [] [] _ _ _ E1), (emits_trans [] [] _ _ _ E2), (emits_trans [] [] _ _ _ E3).
      by apply emits_nil.
    + right. exists (Z.to_nat idx), bit. split_and!; (done || lia).
    + intros Hz'. by apply Hz in Hz'.
  - injection H as <- <-. split_and!; [done|by left|done].
Qed.

Lemma maybe_duplicate_spec from to msg payload (k k' : Inner) :
  maybe_duplicate fuel from to msg payload k = Some (tt, k') ->
  (emits [] k k' \/ emits [(from, to, msg, payload)] k k') /\
  (duplicate_ppm (fp_link (k_policy k)) = 0 -> emits [] k k').
Proof.
  unfold maybe_duplicate, mbind, K_bind, gets, modify. intros H.
  destruct (draw (ppm fuel _) k) as [[hit k1]|] eqn:E1; [|done].
  assert (Hz : duplicate_ppm (fp_link (k_policy k)) = 0 -> hit = false).
  { intros Hz. rewrite Hz in E1. by eapply ppm_zero. }
  apply draw_emits in E1. destruct hit.
  - apply deliver_later_emits in H. split; [right|intros Hz'; by apply Hz in Hz'].
    apply (emits_trans [] [_] _ _ _ E1). eapply (emits_trans [] [_]); [|exact H]. by apply emits_nil.
  - injection H as <-. split; [by left|done].
Qed.

(** The effect of a [send] started in [k]: the copies it put on the heap. *)
Definition posted (from to : NodeId) (copies : list Bytes) (k k' : Inner) : Prop :=
  k_nodes k' = k_nodes k /\ k_blocked k' = k_blocked k /\ k_next_msg k' = k_next_msg k +64 1 /\
  exists ts, k_timers k' = k_timers k ++ ts /\
    map t_action ts = map (Deliver from to (k_next_msg k)) copies.

(** The state after the packet got its number, and the draws so far. *)
Definition numbered (k k1 : Inner) : Prop :=
  k_nodes k1 = k_nodes k /\ k_blocked k1 = k_blocked k /\ k_timers k1 = k_timers k /\
  k_policy k1 = k_policy k /\ k_next_msg k1 = k_next_msg k +64 1.

Lemma numbered_emits (k k1 k2 : Inner) ps : numbered k k1 ->
  emits (map (fun q => (ps.1.1, ps.1.2, k_next_msg k, q)) ps.2) k1 k2 -> posted ps.1.1 ps.1.2 ps.2 k k2.
Proof.
  intros (N1 & B1 & T1 & P1 & M1) (N & _ & B & _ & _ & M & ts & T & Hts). split_and!; try congruence.
  exists ts. split; [congruence|]. by rewrite Hts, map_map.
Qed.

Lemma dropped (k k1 k2 : Inner) from to why : numbered k k1 -> emits [] k1 k2 ->
  posted from to [] k (drop_packet from to (k_next_msg k) why k2).
Proof. intros H1 H2. exact (numbered_emits k k1 k2 (from, to, []) H1 H2). Qed.

(** Past the draw of loss: one copy, or two. *)
Lemma sent_on (k k1 k' : Inner) from to payload : numbered k k1 ->
  (payload ← maybe_corrupt fuel from to (k_next_msg k) payload;
   _ ← maybe_duplicate fuel from to (k_next_msg k) payload;
   deliver_later fuel from to (k_next_msg k) payload) k1 = Some (tt, k') ->
  exists p, copy_of payload p /\ (lk_corrupt_ppm (fp_link (k_policy k)) = 0 -> p = payload) /\
    (posted from to [p] k k' \/
     posted from to [p; p] k k' /\ duplicate_ppm (fp_link (k_policy k)) <> 0).
Proof.
  intros Hn H. assert (P1 : k_policy k1 = k_policy k) by apply Hn.
  apply kbind_Some in H as (p & k3 & Ec & H). apply kbind_Some in H as ([] & k4 & Ed & H).
  apply maybe_corrupt_spec in Ec as (Q1 & Hcopy & Hc0). apply maybe_duplicate_spec in Ed as [Q2 Hd0].
  apply deliver_later_emits in H. rewrite P1 in Hc0.
  assert (P3 : k_policy k3 = k_policy k) by (destruct Q1 as (_ & _ & _ & _ & -> & _); done). rewrite P3 in Hd0.
  exists p. split; [done|]. split; [done|].
  destruct (decide (duplicate_ppm (fp_link (k_policy k)) = 0)) as [Hd|Hd]; [apply Hd0 in Hd as Q3|destruct Q2 as [Q3|Q3]].
  - left. exact (numbered_emits k k1 k' (from, to, [p]) Hn (emits_trans _ _ _ _ _ Q1 (emits_trans _ _ _ _ _ Q3 H))).
  - left. exact (numbered_emits k k1 k' (from, to, [p]) Hn (emits_trans _ _ _ _ _ Q1 (emits_trans _ _ _ _ _ Q3 H))).
  - right. split; [|done].
    exact (numbered_emits k k1 k' (from, to, [p; p]) Hn (emits_trans _ _ _ _ _ Q1 (emits_trans _ _ _ _ _ Q3 H))).
Qed.
End Send.

Lemma send_spec {F} (fuel : nat) (from to : NodeId) (payload : Bytes) (k k' : Inner (F := F)) :
  send fuel from to payload k = Some (tt, k') ->
  exists copies, posted from to copies k k' /\
    (copies = [] \/ exists p, copy_of payload p /\ (copies = [p] \/ copies = [p; p])) /\
    (k_nodes k !! to = None \/ is_blocked from to k = true -> copies = []) /\
    (is_Some (k_nodes k !! to) -> is_blocked from to k = false ->
     loss_ppm (fp_link (k_policy k)) = 0 -> duplicate_ppm (fp_link (k_policy k)) = 0 ->
     lk_corrupt_ppm (fp_link (k_policy k)) = 0 -> copies = [payload]).
Proof.
  unfold send. intros H.
  apply kbind_Some in H as (msg & k0 & [= <- <-] & H). apply kbind_Some in H as ([] & k1 & Hk1 & H).
  assert (Hn : numbered k k1) by (by injection Hk1 as <-). clear Hk1. pose proof Hn as (N1 & B1 & _ & P1 & _).
  apply kbind_Some in H as (known & k0 & [= <- <-] & H). rewrite N1 in H.
  destruct (bool_decide_reflect (is_Some (k_nodes k !! to))) as [Hto|Hto]; cbn [negb] in H.
  2: { injection H as <-. exists []. split_and!; [|by left|done|by intros]. by apply (dropped k k1 k1), emits_nil. }
  apply kbind_Some in H as (cut & k0 & [= <- <-] & H).
  assert (Hb : is_blocked from to k1 = is_blocked from to k) by (unfold is_blocked; by rewrite B1).
  rewrite Hb in H. destruct (is_blocked from to k) eqn:Hcut.
  { injection H as <-. exists []. split_and!; [|by left|done|by intros]. by apply (dropped k k1 k1), emits_nil. }
  apply kbind_Some in H as (loss & k0 & [= <- <-] & H). apply kbind_Some in H as (lost & k2 & El & H).
  assert (Hz : loss_ppm (fp_link (k_policy k)) = 0 -> lost = false).
  { intros Hz. rewrite P1, Hz in El. by eapply ppm_zero. }
  apply draw_emits in El. destruct lost.
  { injection H as <-. exists []. split_and!; [by apply (dropped k k1 k2)|by left|done|].
    intros _ _ Hz'. by apply Hz in Hz'. }
  assert (Hn2 : numbered k k2).
  { destruct Hn as (? & ? & ? & ? & ?), El as (? & _ & ? & _ & ? & ? & ts0 & T2 & Hts0).
    apply map_eq_nil in Hts0 as ->. rewrite app_nil_r in T2. split_and!; congruence. }
  destruct (sent_on fuel k k2 k' from to payload Hn2 H) as (p & Hp & Hc & Hpost).
  assert (Hclosed : k_nodes k !! to = None \/ false = true -> False).
  { intros [Ht|]; [|done]. rewrite Ht in Hto. by destruct Hto. }
  destruct Hpost as [Hpost|[Hpost Hd]]; [exists [p]|exists [p; p]]; split_and!; try done;
    try (right; by eauto); try (intros Ht; by apply Hclosed in Ht).
  intros _ _ _ _ Hc0. by rewrite Hc.
Qed.

Lemma copies_ok payload copies :
  (copies = [] \/ exists p, copy_of payload p /\ (copies = [p] \/ copies = [p; p])) -> Forall (copy_of payload) copies.
Proof. intros [->|(p & Hp & [->| ->])]; [done|by constructor|by do 2 (constructor; [done|])]. Qed.

Lemma send_posts {F} fuel from to payload (k k' : Inner (F := F)) : send fuel from to payload k = Some (tt, k') ->
  exists copies, posted from to copies k k' /\ Forall (copy_of payload) copies.
Proof.
  intros H. destruct (send_spec fuel from to payload k k' H) as (copies & Hp & Hc & _).
  exists copies. split; [done|by apply copies_ok].
Qed.

(** What one [send] does. It takes the next message number and puts on the
    heap no packet, one, or two copies of one, each addressed from the sender to the
    receiver under that number and carrying the payload or the payload with one
    bit flipped. To a node that does not exist or across a blocked link it puts
    none; on an open link that never loses, duplicates or corrupts, exactly one,
    intact. Nothing else of the network changes. *)
Theorem send_is_an_unreliable_datagram {F} (fuel : nat) (from to : NodeId) (payload : Bytes) (k k' : Inner (F := F)) :
  send fuel from to payload k = Some (tt, k') ->
  exists copies, posted from to copies k k' /\
    (copies = [] \/ exists p, copy_of payload p /\ (copies = [p] \/ copies = [p; p])) /\
    (k_nodes k !! to = None \/ is_blocked from to k = true -> copies = []) /\
    (is_Some (k_nodes k !! to) -> is_blocked from to k = false ->
     loss_ppm (fp_link (k_policy k)) = 0 -> duplicate_ppm (fp_link (k_policy k)) = 0 ->
     lk_corrupt_ppm (fp_link (k_policy k)) = 0 -> copies = [payload]).
Proof. apply send_spec. Qed.

Lemma send_is_an_unreliable_datagram_witness :
  exists k', send 8 0 0 [1; 2] (booted (mkNap None None) benign) = Some (tt, k') /\
  exists copies, posted 0 0 copies (booted (mkNap None None) benign) k' /\
    (copies = [] \/ exists p, copy_of [1; 2] p /\ (copies = [p] \/ copies = [p; p])) /\
    (k_nodes (booted (mkNap None None) benign) !! 0 = None \/
       is_blocked 0 0 (booted (mkNap None None) benign) = true -> copies = []) /\
    (is_Some (k_nodes (booted (mkNap None None) benign) !! 0) ->
     is_blocked 0 0 (booted (mkNap None None) benign) = false ->
     loss_ppm (fp_link (k_policy (booted (mkNap None None) benign))) = 0 ->
     duplicate_ppm (fp_link (k_policy (booted (mkNap None None) benign))) = 0 ->
     lk_corrupt_ppm (fp_link (k_policy (booted (mkNap None None) benign))) = 0 -> copies = [[1; 2]]).
Proof.
  assert (Hs : fst <$> send 8 0 0 [1; 2] (booted (mkNap None None) benign) = Some tt) by (vm_compute; reflexivity).
  destruct (send 8 0 0 [1; 2] (booted (mkNap None None) benign)) as [[[] k']|] eqn:E; [|discriminate Hs].
  exists k'. split; [reflexivity|]. exact (send_is_an_unreliable_datagram 8 0 0 [1; 2] _ k' E).
Defined.

(** ** Nothing is forged *)

Section Mail.
Context {F : Type} (fuel : nat).
Abbreviation K := (K (F := F)).
Abbreviation Inner := (Inner (F := F)).

Definition action_env (a : Action) : option Envelope :=
  match a with Deliver from to msg payload => Some (mkEnvelope from to payload msg) | _ => None end.

(** A packet on its way to node [m]: on the heap, or in the mailbox. *)
Definition in_flight (k : Inner) (m : NodeId) (env : Envelope) : Prop :=
  (m = en_to env /\ exists t, t ∈ k_timers k /\ action_env (t_action t) = Some env) \/
  (exists n, k_nodes k !! m = Some n /\ env ∈ nd_mailbox n).

(** No packet appears, except perhaps one. *)
Definition mail_plus (x : option Envelope) (k k' : Inner) : Prop :=
  forall m env, in_flight k' m env -> in_flight k m env \/ (x = Some env /\ m = en_to env).
Definition mail_le (k k' : Inner) : Prop := forall m env, in_flight k' m env -> in_flight k m env.

#[export] Instance mail_le_preorder : PreOrder mail_le.
Proof. split; [by intros k m env|]. intros k1 k2 k3 H1 H2 m env H. by apply H1, H2. Qed.

Lemma mail_le_on_node node f k k' : k_timers k' = k_timers k -> k_nodes k' = alter f node (k_nodes k) ->
  (forall n, nd_mailbox (f n) ⊆ nd_mailbox n) -> mail_le k k'.
Proof.
  intros Ht Hn Hf m env [[Hm (t & Hin & E)]|(n & Hk & Hin)].
  - left. split; [done|]. exists t. by rewrite <- Ht.
  - right. rewrite Hn in Hk. destruct (decide (m = node)) as [->|Hne].
    + rewrite lookup_alter_eq in Hk. destruct (k_nodes k !! node) as [n0|] eqn:E; [|done].
      injection Hk as <-. exists n0. split; [done|by apply Hf].
    + rewrite lookup_alter_ne in Hk by done. by exists n.
Qed.

(** Nodes keep their mail, and what is added to the heap is not a packet. *)
Lemma mail_le_timers k k' ts : k_nodes k' = k_nodes k -> k_timers k' = k_timers k ++ ts ->
  Forall (fun t => action_env (t_action t) = None) ts -> mail_le k k'.
Proof.
  intros Hn Ht Hts m env [[Hm (t & Hin & E)]|H]; [|right; by rewrite <- Hn].
  left. split; [done|]. exists t. split; [|done]. rewrite Ht in Hin. apply elem_of_app in Hin as [?|Hin]; [done|].
  rewrite Forall_forall in Hts. rewrite Hts in E; done.
Qed.

Lemma mail_le_same k k' : k_nodes k' = k_nodes k -> k_timers k' = k_timers k -> mail_le k k'.
Proof. intros Hn Ht. apply (mail_le_timers k k' []); [done|by rewrite app_nil_r|done]. Qed.

#[export] Instance mail_draw {A} (r : Rand A) : Keeps mail_le (draw r).
Proof. intros k a k' H. apply draw_Some in H as (g & _ & ->). by apply mail_le_same. Qed.

Lemma mail_modify_same f : (forall k, k_nodes (f k) = k_nodes k) -> (forall k, k_timers (f k) = k_timers k) ->
  Keeps mail_le (modify f).
Proof. intros. apply keeps_modify. intros. by apply mail_le_same. Qed.

Lemma mail_schedule d a (k : Inner) : action_env a = None -> mail_le k (schedule d a k).
Proof. intros Ha. by eapply (mail_le_timers _ _ [_]); [..|constructor]. Qed.
End Mail.

#[export] Hint Extern 2 (Keeps mail_le (modify _)) =>
  apply mail_modify_same; intros; reflexivity : typeclass_instances.
#[export] Hint Extern 3 (Keeps mail_le (modify (schedule _ _))) =>
  apply keeps_modify; intros; apply mail_schedule; reflexivity : typeclass_instances.

Section MailCalls.
Context {F : Type} (fuel : nat).
Abbreviation K := (K (F := F)).
Abbreviation Inner := (Inner (F := F)).

Lemma start_timer_mail d (k : Inner) : mail_le k (start_timer d k).2.
Proof.
  unfold start_timer, TimerSlot_alloc. etrans; [|by apply mail_schedule]. by apply mail_le_same.
Qed.

#[export] Instance mail_wait_for which : Keeps mail_le (wait_for (F := F) fuel which).
Proof.
  unfold wait_for, latency. apply keeps_bind; [apply _|intros d]. apply keeps_bind; [|apply _].
  apply keeps_lift. intros. apply start_timer_mail.
Qed.

#[export] Instance mail_sync_dir : Keeps mail_le (sync_dir (F := F) fuel).
Proof.
  unfold sync_dir. apply keeps_bind; [apply _|intros d]. apply keeps_bind; [apply _|intros x]. apply keeps_lift.
  intros. apply start_timer_mail.
Qed.

(** A call is a [send], or adds no packet. *)
Lemma call_mail (k k' : Inner) : kernel_call fuel k k' ->
  mail_le k k' \/ exists from to payload, send fuel from to payload k = Some (tt, k').
Proof.
  assert (Hw : forall which k k0 r k', wait_for (F := F) fuel which k0 = Some (r, k') -> mail_le k k0 -> mail_le k k').
  { intros which k0 k1 r k2 H H1. etrans; [exact H1|by eapply mail_wait_for]. }
  assert (Hf : forall node f (k : Inner), (forall n, nd_mailbox (f n) = nd_mailbox n) -> mail_le k (on_node node f k)).
  { intros node f k0 Hf. apply (mail_le_on_node node f); [done..|]. intros n. by rewrite Hf. }
  destruct 1 as [slot id|done id|node id|id|node dur|from to payload k' H|node name|node name|slot k' H
    |node name offset data r k' Hoff H|node name offset len r k' H|node name r k' H|node name covered
    |node name to r k' Hto H|node fut|node text|node]; try (by right; eauto); left.
  - unfold TimerFuture_poll. repeat case_match; by apply mail_le_same.
  - unfold YieldOnce_poll. destruct done; by apply mail_le_same.
  - unfold RecvFuture_poll. destruct (k_nodes k !! node) as [n|] eqn:Hn; [|done]. destruct (nd_up n); [|done].
    cbn [negb]. destruct (nd_mailbox n) as [|env rest] eqn:Em.
    + by apply Hf.
    + intros m e [[Hm Ht]|(n' & Hn' & Hin)]; [by left|right]. simpl in Hn'.
      destruct (decide (m = node)) as [->|Hne]; [|rewrite lookup_alter_ne in Hn' by done; by exists n'].
      rewrite lookup_alter_eq, Hn in Hn'. injection Hn' as <-. exists n. rewrite Em. split; [done|by right].
  - by apply mail_le_same.
  - unfold sleep, TimerSlot_alloc. etrans; [|by apply mail_schedule]. by apply mail_le_same.
  - unfold storage_open. destruct (k_nodes k !! node); [by apply Hf|done].
  - unfold storage_remove. apply Hf. intros n. by destruct (nd_files n !! name).
  - exact (keeps (R := mail_le) (p := sync_dir fuel) _ _ _ H).
  - unfold file_write_at in H. destruct (k_nodes k !! node) as [n|]; [|by injection H as _ <-].
    destruct (nd_up n); [|by injection H as _ <-]. cbn [negb] in H.
    match type of H with (if ?b then _ else _) = _ => destruct b; [injection H as _ <-; by apply mail_le_same|] end.
    match type of H with match node_file _ _ ?k1 with _ => _ end = _ => set (k1' := k1) in *;
      assert (Hk1 : mail_le k k1') by (by apply Hf) end.
    destruct (node_file node name k1'); [|by injection H as _ <-]. apply Hw with (1 := H).
    etrans; [exact Hk1|]. by apply (Hf node (fun n => set_files _ n)).
  - unfold file_read_start in H. apply Hw with (1 := H). by apply mail_le_same.
  - unfold file_fsync_start in H. destruct (node_file node name k); [|by injection H as _ <-].
    destruct (wait_for fuel OpFsync _) as [[[s|e] k1]|] eqn:E; [| |done]; injection H as _ <-;
      apply Hw with (1 := E); by apply mail_le_same.
  - unfold file_fsync_finish. destruct (k_nodes k !! node) as [n|]; [|done]. destruct (nd_up n); [|done].
    cbn [negb]. destruct (nd_files n !! name); [|done]. by apply Hf.
  - unfold file_truncate in H. destruct (node_file node name k); [|by injection H as _ <-].
    apply Hw with (1 := H). transitivity (on_file node name (file_op (PTruncate (Z.to_nat to))) k); [by apply Hf|].
    by apply (Hf node (fun n => set_used_bytes _ n)).
  - by apply mail_le_same.
  - by apply mail_le_same.
  - unfold node_next_u64. destruct (k_nodes k !! node) as [n|]; [|done]. destruct (next_u64 (nd_rng n)). by apply Hf.
Qed.

(** What a task sends while it is polled: a chain of its calls, each made in the state
    the one before left, with the packets of the calls of [send] among them, under
    the number each was given. (A call left out of the list would only leave fewer
    packets explained.) *)
Inductive chain : list Envelope -> Inner -> Inner -> Prop :=
| chain_end k : chain [] k k
| chain_call sent k k1 k' : kernel_call fuel k k1 -> chain sent k1 k' -> chain sent k k'
| chain_send from to payload sent k k1 k' :
    send fuel from to payload k = Some (tt, k1) -> chain sent k1 k' ->
    chain (mkEnvelope from to payload (k_next_msg k) :: sent) k k'.

(** A packet on its way in [k'] was so in [k], or is a copy of one that was sent. *)
Definition explained (sent : list Envelope) (k k' : Inner) : Prop :=
  forall m env, in_flight k' m env -> in_flight k m env \/
    m = en_to env /\ exists e, e ∈ sent /\ en_from env = en_from e /\ en_to env = en_to e /\
      en_msg_id env = en_msg_id e /\ copy_of (en_payload e) (en_payload env).

Lemma explained_mail (k k' : Inner) : mail_le k k' -> explained [] k k'.
Proof. intros H m env Hin. left. by apply H. Qed.

Lemma explained_app sent sent' (k k1 k' : Inner) :
  explained sent k k1 -> explained sent' k1 k' -> explained (sent ++ sent') k k'.
Proof.
  intros H1 H2 m env Hin. destruct (H2 m env Hin) as [Hin1|(Hm & e & He & Hr)].
  - destruct (H1 m env Hin1) as [Hin0|(Hm & e & He & Hr)]; [by left|right].
    split; [done|]. exists e. split; [apply elem_of_app; by left|done].
  - right. split; [done|]. exists e. split; [apply elem_of_app; by right|done].
Qed.

Lemma explained_send from to payload (k k1 : Inner) : send fuel from to payload k = Some (tt, k1) ->
  explained [mkEnvelope from to payload (k_next_msg k)] k k1.
Proof.
  intros Hs m env Hin.
  destruct (send_posts fuel from to payload k k1 Hs) as (copies & (Hn & _ & _ & ts & Ht & Hts) & Hc).
  destruct Hin as [(Hm & t & Ht2 & Ha)|(n & Hn' & Hmail)]; [|left; right; rewrite <- Hn; eauto].
  rewrite Ht in Ht2. apply elem_of_app in Ht2 as [Ht2|Ht2]; [left; left; eauto|right].
  split; [done|]. eexists. split; [by left|]. apply (list_elem_of_fmap_2 t_action) in Ht2.
  change (t_action <$> ts) with (map t_action ts) in Ht2. rewrite Hts in Ht2.
  apply list_elem_of_fmap in Ht2 as (p & E & Hp). rewrite E in Ha. injection Ha as <-. simpl. split_and!; try done.
  rewrite Forall_forall in Hc. by apply Hc.
Qed.

(** Every computation made of calls is such a chain, and a chain explains its packets,
    unless a call that is no [send] adds one. *)
Lemma calls_chain (k k' : Inner) : rtc (kernel_call fuel) k k' ->
  exists sent, chain sent k k' /\ explained sent k k'.
Proof.
  induction 1 as [k|k k1 k' H _ (sent & IH & He)]; [exists []; split; [constructor|by apply explained_mail]|].
  destruct (call_mail k k1 H) as [Hm|(from & to & payload & Hs)].
  - exists sent. split; [by eapply chain_call|]. eapply (explained_app []); [by apply explained_mail|done].
  - eexists. split; [exact (chain_send _ _ _ _ _ _ _ Hs IH)|].
    eapply (explained_app [_]); [by apply explained_send|done].
Qed.
End MailCalls.

(** ** The packets of a whole run *)

#[export] Hint Extern 4 (Keeps mail_le (modify (on_file _ _ _))) =>
  apply keeps_modify; intros; eapply mail_le_on_node; [reflexivity..|done] : typeclass_instances.

Section MailRun.
Context {F : Type} (fuel : nat).
Abbreviation K := (K (F := F)).
Abbreviation Inner := (Inner (F := F)).

#[export] Instance mail_lose_ops node fid ops durable : Keeps mail_le (lose_ops (F := F) fuel node fid ops durable).
Proof.
  revert durable. induction ops as [|[] ops IH]; intros durable; simpl; unfold lose_write, lose_truncate; apply _.
Qed.

#[export] Instance mail_power_loss node : Keeps mail_le (power_loss (F := F) fuel node).
Proof.
  unfold power_loss. apply keeps_bind; [apply _|intros names]. apply keeps_for_each. intros name.
  unfold lose_file. apply keeps_bind; [apply _|]. intros [f|]; apply _.
Qed.

#[export] Instance mail_crash_in_lock node : Keeps mail_le (crash_in_lock (F := F) fuel node).
Proof.
  intros k a k' H. unfold crash_in_lock in H. destruct (k_nodes k !! node) as [n|]; [|by injection H as _ <-].
  destruct (nd_up n); [|by injection H as _ <-]. cbn [negb] in H. etrans; [|by eapply mail_power_loss].
  destruct (reap_spec node (k |> on_node node kill_node |> count crashes 1 |> record (EvCrash node)))
    as (R1 & R2 & _).
  eapply (mail_le_on_node node kill_node); [exact R2|exact R1|]. intros n0. simpl. set_solver.
Qed.

Lemma mail_partition a b one_way (k : Inner) : mail_le k (partition a b one_way k).
Proof.
  unfold partition. transitivity (cut_groups a b one_way k); [|by apply mail_le_same].
  apply keeps_fold. intros k1 xy. unfold cut_pair.
  transitivity (fold_left (fun k l => block l k) (links_of one_way xy) k1); [|by apply mail_le_same].
  apply keeps_fold. intros. by apply mail_le_same.
Qed.

Lemma mail_on_node_modify node f (g : Inner -> Inner) :
  (forall k, k_timers (g k) = k_timers k) -> (forall k, k_nodes (g k) = alter f node (k_nodes k)) ->
  (forall n, nd_mailbox (f n) = nd_mailbox n) -> Keeps mail_le (modify g).
Proof. intros H1 H2 H3. apply keeps_modify. intros k. eapply mail_le_on_node; [done..|]. intros n. by rewrite H3. Qed.

#[export] Instance mail_chaos_partition policy tick servers :
  Keeps mail_le (chaos_partition (F := F) fuel policy tick servers).
Proof.
  unfold chaos_partition. apply keeps_bind; [apply _|]. intros []; [|apply _].
  do 3 (apply keeps_bind; [apply _|intros ?]).
  apply keeps_bind; [apply keeps_modify; intros; apply mail_partition|intros _]. apply _.
Qed.

#[export] Instance mail_chaos_pause policy tick servers :
  Keeps mail_le (chaos_pause (F := F) fuel policy tick servers).
Proof.
  unfold chaos_pause. apply keeps_bind; [apply _|]. intros []; [|apply _].
  do 2 (apply keeps_bind; [apply _|intros ?]). case_match; [|apply _].
  apply keeps_bind; [apply _|intros dur]. apply keeps_modify. intros k.
  etrans; [|by apply mail_schedule]. by eapply (mail_le_on_node _ (set_paused true)).
Qed.

#[export] Instance mail_chaos_clock_step tick servers : Keeps mail_le (chaos_clock_step (F := F) fuel tick servers).
Proof.
  unfold chaos_clock_step. do 2 (apply keeps_bind; [apply _|intros ?]). apply keeps_if; [|apply _].
  apply keeps_if; [|apply _]. apply keeps_bind; [apply _|intros i]. case_match; [|apply _].
  apply keeps_bind; [apply _|intros v]. by eapply mail_on_node_modify.
Qed.

#[export] Instance mail_chaos_crash policy tick servers :
  Keeps mail_le (chaos_crash (F := F) fuel policy tick servers).
Proof.
  unfold chaos_crash. apply keeps_bind; [apply _|]. intros []; [|apply _].
  apply keeps_bind; [apply _|intros alive]. case_match; [|apply _].
  apply keeps_bind; [apply _|intros i]. case_match; [|apply _]. apply _.
Qed.

#[export] Instance mail_chaos_tick : Keeps mail_le (chaos_tick (F := F) fuel).
Proof. unfold chaos_tick. apply _. Qed.

Lemma next_timer_mail horizon (k k' : Inner) t : next_timer fuel horizon k = Some (t, k') ->
  k_nodes k' = k_nodes k /\ (forall x, x ∈ k_timers k' -> x ∈ k_timers k) /\
  (forall x, t = Some x -> x ∈ k_timers k).
Proof.
  intros H. assert (Hn : k_nodes k' = k_nodes k).
  { unfold next_timer in H. repeat case_match; simplify_eq; try done; simpl;
      match goal with E : mret _ _ = _ |- _ => injection E as _ <- | E : draw _ _ = _ |- _ =>
        apply draw_Some in E as (g & _ & ->) end; done. }
  split; [done|]. destruct t as [t|].
  - apply next_timer_some in H as (Hp & _). split.
    + intros x Hx. rewrite Hp. by right.
    + intros x [= <-]. rewrite Hp. by left.
  - split; [|done]. apply next_timer_none in H as [[_ ->]|(-> & _)]; done.
Qed.

(** Delivering a packet moves it from the heap to a mailbox. *)
Lemma deliver_mail from to msg payload (k : Inner) :
  mail_plus (Some (mkEnvelope from to payload msg)) k (deliver_packet from to msg payload k).
Proof.
  intros m env H. unfold deliver_packet in H. destruct (k_nodes k !! to) as [n|] eqn:Hn; [|by left].
  destruct (nd_up n); [|by left].
  match type of H with in_flight (wake_all ?ids ?k1) _ _ => destruct (wake_all_frame ids k1) as (Hw & _ & Ht & _) end.
  destruct H as [(Hm & t & Hin & E)|(n' & Hn' & Hin)].
  - left. left. split; [done|]. exists t. by rewrite Ht in Hin.
  - rewrite Hw in Hn'. simpl in Hn'. destruct (decide (m = to)) as [->|Hne].
    + rewrite lookup_alter_eq, Hn in Hn'. injection Hn' as <-. simpl in Hin.
      apply elem_of_app in Hin as [Hin|Hin]; [left; right; eauto|right].
      apply list_elem_of_singleton in Hin as ->. done.
    + rewrite lookup_alter_ne in Hn' by done. left. right. eauto.
Qed.
End MailRun.

Section MailLoop.
Context {F : Type} (fuel : nat) (poll : F -> TaskId -> K (F := F) (Polled F)) (boot : NodeId -> K (F := F) unit).
Abbreviation Inner := (Inner (F := F)).
Hypothesis poll_calls : forall fut id, calls fuel (poll fut id).
Hypothesis boot_calls : forall id, calls fuel (boot id).

(** The state in which a task is polled, and that in which a node's entry point runs. *)
Definition polled (id : TaskId) (node : NodeId) (k : Inner) : Inner :=
  k |> on_tasks <[id := mkTask node None]> |> on_current (fun _ => Some id)
    |> count polls 1 |> record (EvPoll node id).

Definition started (id : NodeId) (n : NodeState) (k : Inner) : Inner :=
  let first := nd_boots n + 1 =? 1 in
  let k := k |> on_node id start_node |> record (if first then EvBoot id else EvRestart id) in
  if first then k else count restarts 1 k.

(** What one round of the run sends, made in the states of that round: the packets of
    the task it polls, or those of the node that an event boots; every other round
    sends none. *)
Definition poll_sent (id : TaskId) (sent : list Envelope) (k : Inner) : Prop :=
  match k_tasks k !! id with
  | Some (mkTask node (Some fut)) =>
      exists r k', poll fut id (polled id node k) = Some (r, k') /\ chain fuel sent (polled id node k) k'
  | _ => sent = []
  end.

Definition event_sent (t : Timer) (sent : list Envelope) (k : Inner) : Prop :=
  match t_action t with
  | Restart id =>
      match k_nodes k !! id with
      | Some n => if nd_up n then sent = []
                  else exists k', boot id (started id n k) = Some (tt, k') /\ chain fuel sent (started id n k) k'
      | None => sent = []
      end
  | _ => sent = []
  end.

Definition round_sent (horizon : Nanos) (sent : list Envelope) (k : Inner) : Prop :=
  if k_stop k then sent = []
  else match k_panic k with
  | Some _ => sent = []
  | None =>
      match pick_runnable fuel k with
      | Some (Some id, k1) => poll_sent id sent k1
      | Some (None, k1) =>
          match next_timer fuel horizon k1 with
          | Some (Some t, k2) => event_sent t sent (on_seq (fun _ => t_seq t) k2)
          | _ => sent = []
          end
      | None => False
      end
  end.

(** What a run sends: the packets of its rounds, one after the other. *)
Inductive run_sent (horizon : Nanos) : Z -> list Envelope -> Inner -> Outcome -> Inner -> Prop :=
| run_last n sent k o k' : run_round fuel poll boot horizon n k = Some (inl o, k') ->
    round_sent horizon sent k -> run_sent horizon n sent k o k'
| run_more n m sent sent' k k1 o k' : run_round fuel poll boot horizon n k = Some (inr m, k1) ->
    round_sent horizon sent k -> run_sent horizon m sent' k1 o k' ->
    run_sent horizon n (sent ++ sent') k o k'.

Lemma mail_explained sent (k k1 k' : Inner) : mail_le k k1 -> explained sent k1 k' -> explained sent k k'.
Proof. intros H He. eapply (explained_app []); [by apply explained_mail|done]. Qed.

Lemma explained_le sent (k k1 k' : Inner) : explained sent k k1 -> mail_le k1 k' -> explained sent k k'.
Proof. intros He H m env Hin. by apply He, H. Qed.

Lemma poll_task_sends id (k k' : Inner) : poll_task poll id k = Some (tt, k') ->
  exists sent, poll_sent id sent k /\ explained sent k k'.
Proof.
  intros H. unfold poll_task in H. unfold poll_sent.
  destruct (k_tasks k !! id) as [[node [fut|]]|];
    try (injection H as <-; exists []; split; [done|by apply explained_mail]).
  fold (polled id node k) in H.
  destruct (poll fut id (polled id node k)) as [[r k2]|] eqn:E; [|done]. injection H as <-.
  destruct (calls_chain fuel _ k2 (poll_calls fut id _ _ _ E)) as (sent & Hc & Hs). exists sent.
  split; [by exists r, k2|]. eapply mail_explained; [|eapply explained_le; [exact Hs|]].
  - by apply mail_le_same.
  - destruct r; by apply mail_le_same.
Qed.

(** An event that fires: its packet is delivered, its node boots, or no packet
    is involved. *)
Lemma fire_sends t (k k' : Inner) : fire fuel boot t k = Some (tt, k') ->
  exists sent k1, event_sent t sent (on_seq (fun _ => t_seq t) k) /\
    mail_plus (action_env (t_action t)) k k1 /\ explained sent k1 k'.
Proof.
  unfold fire, event_sent. intros H. apply kbind_Some in H as ([] & k1 & [= <-] & H).
  set (k1 := on_seq _ k) in *.
  assert (H1 : mail_plus None k k1) by (intros m env Hin; by left).
  assert (Hk : forall p, Keeps mail_le p -> p k1 = Some (tt, k') -> mail_plus None k k1 /\ explained [] k1 k').
  { intros p Hp E. split; [done|]. apply explained_mail. by eapply Hp. }
  destruct (t_action t) as [slot|from to msg payload| |node|links|node]; simpl.
  - exists [], k1. split; [done|]. revert H. apply Hk. apply keeps_modify.
    intros k2. unfold fire_slot. repeat case_match; by apply mail_le_same.
  - injection H as <-. exists [], (deliver_packet from to msg payload k1).
    split; [done|]. split; [|by apply explained_mail].
    intros m env Hin. apply deliver_mail in Hin as [Hin|Hin]; [by left|by right].
  - exists [], k1. split; [done|]. revert H. apply Hk, _.
  - change (k_nodes k) with (k_nodes k1). unfold boot_node in H.
    destruct (k_nodes k1 !! node) as [n|] eqn:En.
    2: { injection H as <-. exists [], k1. split; [done|]. split; [done|by apply explained_mail]. }
    destruct (nd_up n); [injection H as <-; exists [], k1; split; [done|]; split; [done|by apply explained_mail]|].
    change (boot node (started node n k1) = Some (tt, k')) in H. pose proof H as Hb.
    apply boot_calls, calls_chain in Hb as (sent & Hc & He). exists sent, k1. split; [by exists k'|]. split; [done|].
    eapply mail_explained; [|exact He]. unfold started.
    apply (mail_le_on_node node start_node); [..|done]; by destruct (_ =? 1).
  - exists [], k1. split; [done|]. revert H. apply Hk. apply keeps_modify.
    intros k2. apply keeps_fold. intros k3 l. unfold heal_link. repeat case_match; by apply mail_le_same.
  - exists [], k1. split; [done|]. revert H. apply Hk. apply keeps_modify.
    intros k2. unfold resume. repeat case_match; try done. by eapply (mail_le_on_node node (set_paused false)).
Qed.

Lemma pick_mail (k k' : Inner) r : pick_runnable fuel k = Some (r, k') -> mail_le k k'.
Proof.
  destruct r as [id|]; intros H.
  - apply pick_runnable_some in H as (_ & g & ->). by apply mail_le_same.
  - apply pick_runnable_none in H as (_ & ->). by apply mail_le_same.
Qed.

(** The event that fires was on the heap, and nothing else left it. *)
Lemma event_mail horizon (k k1 k2 : Inner) t : next_timer fuel horizon k = Some (Some t, k1) ->
  mail_plus (action_env (t_action t)) k1 k2 -> mail_le k k2.
Proof.
  intros Et H m env Hm. apply next_timer_mail in Et as (Hn & Hsub & Hin).
  destruct (H m env Hm) as [[(Em & x & Hx & Ex)|(n & Hn' & Hmail)]|[Ha ->]].
  - left. split; [done|]. exists x. auto.
  - right. rewrite Hn in Hn'. eauto.
  - left. split; [done|]. exists t. auto.
Qed.

Lemma round_sends horizon p (k k' : Inner) r : run_round fuel poll boot horizon p k = Some (r, k') ->
  exists sent, round_sent horizon sent k /\ explained sent k k'.
Proof.
  unfold run_round, round_sent. destruct (k_stop k); [intros [= _ <-]; exists []; split; [done|by apply explained_mail]|].
  destruct (k_panic k) as [[node msg]|]; [intros [= _ <-]; exists []; split; [done|by apply explained_mail, mail_le_same]|].
  destruct (pick_runnable fuel k) as [[[id|] k1]|] eqn:Ep; [| |done]; apply pick_mail in Ep.
  - destruct (poll_task poll id k1) as [[[] k2]|] eqn:Et; [|done]. intros [= _ <-].
    apply poll_task_sends in Et as (sent & Hs & He). exists sent. split; [done|by eapply mail_explained].
  - destruct (next_timer fuel horizon k1) as [[[t|] k2]|] eqn:Et; [| |done].
    + destruct (fire fuel boot t k2) as [[[] k3]|] eqn:Ef; [|done]. intros [= _ <-].
      apply fire_sends in Ef as (sent & k4 & Hs & H4 & He). exists sent. split; [done|].
      eapply mail_explained; [|exact He]. etrans; [exact Ep|by eapply event_mail].
    + apply next_timer_mail in Et as (Hn & Hsub & _). intros [= _ <-]. exists []. split; [done|].
      apply explained_mail. etrans; [exact Ep|]. intros m env [(Em & x & Hx & Ex)|(n & Hn' & Hmail)].
      * left. split; [done|]. exists x. auto.
      * right. rewrite Hn in Hn'. eauto.
Qed.

Lemma loop_sends rounds horizon n (k k' : Inner) o : run_loop fuel poll boot rounds horizon n k = Some (o, k') ->
  exists sent, run_sent horizon n sent k o k' /\ explained sent k k'.
Proof.
  revert n k. induction rounds as [|rounds IH]; intros n k H; [done|]. cbn [run_loop] in H.
  destruct (run_round fuel poll boot horizon n k) as [[[o1|m] k1]|] eqn:E; [| |done];
    pose proof E as E1; apply round_sends in E1 as (s1 & Hs1 & He1).
  - injection H as -> ->. exists s1. split; [by apply run_last|done].
  - apply IH in H as (s2 & Hs2 & He2). exists (s1 ++ s2). split; [by eapply run_more|by eapply explained_app].
Qed.
End MailLoop.


(** A task that sends one packet to its own node and is done. *)
Definition post_poll (fut : Bytes) (id : TaskId) : K (F := Bytes) (Polled Bytes) :=
  _ ← send 8 0 0 fut; mret Done.


(** ** Corruption and the wire *)

Lemma lxor_bit_u8 b bit : is_u8 b -> 0 <= bit < 8 -> is_u8 (Z.lxor b (2 ^ bit)).
Proof.
  unfold is_u8. intros Hb Hbit. assert (H8 : Z.lxor b (2 ^ bit) mod 2 ^ 8 = Z.lxor b (2 ^ bit)).
  { rewrite <- (Z.mod_small b (2 ^ 8)) at 2 by lia. apply Z.bits_inj'. intros n Hn.
    destruct (Z.lt_ge_cases n 8).
    - rewrite Z.mod_pow2_bits_low, !Z.lxor_spec, Z.mod_pow2_bits_low by lia. done.
    - rewrite Z.mod_pow2_bits_high, Z.lxor_spec, Z.mod_pow2_bits_high, Z.pow2_bits_false by lia. done. }
  rewrite <- H8. apply Z.mod_pos_bound. lia.
Qed.

Lemma lxor_bit_ne b bit : 0 <= bit -> b <> Z.lxor b (2 ^ bit).
Proof.
  intros Hbit E. apply (f_equal (fun z => Z.testbit z bit)) in E.
  rewrite Z.lxor_spec, Z.pow2_bits_true in E by done. by destruct (Z.testbit b bit).
Qed.

(** C35: a corrupted message of the protocol is lost, never misread. If the bit the
    network flips lies outside the length field of the frame, the decoder refuses
    the frame, whatever the message: the simulator's corruption can only turn a
    message into none. *)
Theorem corruption_is_rejected (x : Wire) (idx : nat) (bit : Z) :
  payload_ok (Wire_payload x) -> (idx < length (Wire_encode x))%nat -> ~ (1 <= idx < 5)%nat -> 0 <= bit < 8 ->
  exists e, Wire_decode (flip_bit (Wire_encode x) idx bit) = Err e.
Proof.
  intros Hp Hi Hout Hbit. unfold Wire_decode, Wire_encode in *.
  destruct (lookup_lt_is_Some_2 _ _ Hi) as [b Hb].
  assert (Hu : is_u8 b) by (apply (Forall_lookup_1 is_u8 _ _ _ (frame_u8 _ (proj1 Hp)) Hb)).
  assert (E : flip_bit (frame (Wire_payload x)) idx bit = <[idx := Z.lxor b (2 ^ bit)]> (frame (Wire_payload x))).
  { unfold flip_bit. apply list_eq. intros i. destruct (decide (i = idx)) as [->|Hne].
    - by rewrite list_lookup_alter_eq, Hb, list_lookup_insert_eq.
    - by rewrite list_lookup_alter_ne, list_lookup_insert_ne. }
  destruct (unframe_corrupted (Wire_payload x) idx (Z.lxor b (2 ^ bit))) as (e & He & _); try done.
  - by apply lxor_bit_u8.
  - rewrite Hb. intros [= Eb]. by apply (lxor_bit_ne b bit (proj1 Hbit)).
  - exists e. by rewrite E, He.
Qed.

Lemma corruption_is_rejected_witness :
  exists e, Wire_decode (flip_bit (Wire_encode (WRaft (mkMessage 7 (VoteReq 3 2)))) 12 4) = Err e.
Proof. apply corruption_is_rejected; by_decide. Defined.
