(* ===== verification/Partition.v ===== *)
(** * Partitions of the simulated network

    Blocked links are counted, "so overlapping partitions heal independently".
    The theorem says that they do, through whole runs of the loop: the counts are
    those of the partitions cut by hand and of the healings that wait on the heap.
    [heal_all] clears the counts but not those healings, and a later partition pays
    for it. *)

From Stdlib Require Import ZArith Lia.
From stdpp Require Import base tactics list list_numbers gmap sets sorting strings relations.
From S2P Require Import Prelude Codec Types RaftLog Client Msg Rng Time Wal WalState WalSegments Trace Fault Kernel Sim KernelRun KernelDisk KernelNet.

Open Scope Z_scope.

Abbreviation Link := (NodeId * NodeId)%type.

(** How often a link occurs in a list. *)
Definition occ (l : Link) (links : list Link) : Z := Z.of_nat (length (filter (fun x => x = l) links)).

Lemma occ_nil l : occ l [] = 0.
Proof. done. Qed.

Lemma occ_cons l x links : occ l (x :: links) = (if decide (x = l) then 1 else 0) + occ l links.
Proof. unfold occ. rewrite filter_cons. destruct (decide (x = l)); simpl; lia. Qed.

Lemma occ_app l links links' : occ l (links ++ links') = occ l links + occ l links'.
Proof. unfold occ. rewrite filter_app, length_app. lia. Qed.

Lemma occ_nonneg l links : 0 <= occ l links.
Proof. unfold occ. lia. Qed.

Lemma occ_pos l links : 0 < occ l links <-> l ∈ links.
Proof.
  induction links as [|x links IH]; [rewrite occ_nil; set_solver by lia|].
  rewrite occ_cons, elem_of_cons. pose proof (occ_nonneg l links). destruct (decide (x = l)) as [->|Hne].
  - split; [by left|lia].
  - rewrite <- IH. split; [intros; right; lia|intros [->|]; [done|lia]].
Qed.

(** The links cut between two groups, as [Heal] carries them. *)
Definition cut_links (a b : list NodeId) (one_way : bool) : list Link :=
  concat (map (links_of one_way) (list_prod a b)).

Section Links.
Context {F : Type}.
Abbreviation Inner := (Inner (F := F)).

(** The counts of the kernel are those of [links], and none is kept at zero. *)
Definition counts (links : list Link) (k : Inner) : Prop :=
  forall l, k_blocked k !! l = if decide (0 < occ l links) then Some (occ l links) else None.

Lemma counts_block l links (k : Inner) : counts links k -> counts (l :: links) (block l k).
Proof.
  intros Hc l'. simpl. rewrite occ_cons. pose proof (occ_nonneg l' links). destruct (decide (l = l')) as [->|Hne].
  - rewrite lookup_insert_eq, Hc. rewrite (decide_True (P := 0 < 1 + _)) by lia. f_equal.
    destruct (decide (0 < occ l' links)); simpl; lia.
  - rewrite lookup_insert_ne, Hc by done. by rewrite Z.add_0_l.
Qed.

Lemma counts_Permutation links links' (k : Inner) : links ≡ₚ links' -> counts links k -> counts links' k.
Proof.
  intros Hp Hc l. rewrite Hc. unfold occ. by rewrite (length_filter_Permutation _ links links' Hp).
Qed.

Lemma counts_cut a b one_way links (k : Inner) : counts links k ->
  counts (cut_links a b one_way ++ links) (partition a b one_way k).
Proof.
  unfold partition, cut_groups, cut_links. intros Hc.
  cut (counts (concat (map (links_of one_way) (list_prod a b)) ++ links)
         (fold_left (cut_pair one_way) (list_prod a b) k)); [intros H; exact H|].
  generalize dependent links. revert k. induction (list_prod a b) as [|xy pairs IH]; intros k links Hc; [done|].
  cbn [map concat fold_left]. eapply counts_Permutation; [|apply (IH _ (links_of one_way xy ++ links))].
  - rewrite <- app_assoc. solve_Permutation.
  - assert (H : counts (links_of one_way xy ++ links) (fold_left (fun k l => block l k) (links_of one_way xy) k)).
    { unfold links_of. destruct one_way; cbn [fold_left app]; [by apply counts_block|].
      eapply counts_Permutation; [apply perm_swap|]. by do 2 apply counts_block. }
    exact H.
Qed.

(** Healing takes each link's count down by its occurrences. *)
Lemma counts_heal healed links (k : Inner) : counts (healed ++ links) k -> counts links (fold_left heal_link healed k).
Proof.
  revert k. induction healed as [|l healed IH]; intros k Hc; [done|]. cbn [fold_left]. apply IH.
  assert (Hl : k_blocked k !! l = Some (1 + occ l (healed ++ links))).
  { rewrite Hc. simpl. rewrite occ_cons, decide_True by (rewrite decide_True by done; pose proof (occ_nonneg l (healed ++ links)); lia).
    by rewrite decide_True. }
  unfold heal_link. rewrite Hl. pose proof (occ_nonneg l (healed ++ links)). unfold ssub.
  rewrite Z.max_r by lia. intros l'. specialize (Hc l'). simpl in Hc. rewrite occ_cons in Hc.
  destruct (Z.eqb_spec (1 + occ l (healed ++ links) - 1) 0) as [E|E]; simpl.
  - destruct (decide (l = l')) as [->|Hne].
    + rewrite lookup_delete_eq, decide_False by lia. done.
    + by rewrite lookup_delete_ne, Hc, Z.add_0_l.
  - destruct (decide (l = l')) as [->|Hne].
    + rewrite lookup_insert_eq, decide_True by lia. f_equal. lia.
    + by rewrite lookup_insert_ne, Hc, Z.add_0_l.
Qed.

End Links.

(** ** Healings that wait *)

Definition heals (a : Action) : option (list Link) := match a with Heal links => Some links | _ => None end.

Section Waiting.
Context {F : Type}.
Abbreviation Inner := (Inner (F := F)).

(** The partitions of chaos that are not healed: each has its [Heal] on the heap. *)
Definition healings (k : Inner) : list (list Link) := omap (fun t => heals (t_action t)) (k_timers k).

(** The counts are those of the partitions [by_hand] and of the healings that wait. *)
Definition cut_state (by_hand : list (list Link)) (k : Inner) : Prop :=
  counts (concat by_hand ++ concat (healings k)) k.

(** What keeps that, whatever the partitions. *)
Definition keeps_cuts (k k' : Inner) : Prop := forall by_hand, cut_state by_hand k -> cut_state by_hand k'.

#[export] Instance keeps_cuts_preorder : PreOrder keeps_cuts.
Proof. split; [by intros k b|]. intros k1 k2 k3 H1 H2 b H. by apply H2, H1. Qed.

Lemma concat_healings_Permutation (l l' : list (list Link)) : l ≡ₚ l' -> concat l ≡ₚ concat l'.
Proof. induction 1; simpl; [done|by f_equiv|by rewrite Permutation_app_swap_app|by etrans]. Qed.

Lemma cuts_kept (k k' : Inner) : k_blocked k' = k_blocked k -> healings k' ≡ₚ healings k -> keeps_cuts k k'.
Proof.
  intros Hb Hp b Hc l. rewrite Hb. revert l. change (counts (concat b ++ concat (healings k')) k).
  eapply counts_Permutation; [|exact Hc]. f_equiv. symmetry. by apply concat_healings_Permutation.
Qed.

Lemma cuts_same (k k' : Inner) : k_blocked k' = k_blocked k -> k_timers k' = k_timers k -> keeps_cuts k k'.
Proof. intros Hb Ht. apply cuts_kept; [done|]. unfold healings. by rewrite Ht. Qed.

Lemma cuts_timers (k k' : Inner) ts : k_blocked k' = k_blocked k -> k_timers k' = k_timers k ++ ts ->
  Forall (fun t => heals (t_action t) = None) ts -> keeps_cuts k k'.
Proof.
  intros Hb Ht Hts. apply cuts_kept; [done|]. unfold healings. rewrite Ht, omap_app.
  enough (omap (fun t => heals (t_action t)) ts = []) as -> by by rewrite app_nil_r.
  clear Ht. induction Hts as [|t ts H _ IH]; [done|]. simpl. by rewrite H.
Qed.

Lemma cuts_schedule d a (k : Inner) : heals a = None -> keeps_cuts k (schedule d a k).
Proof. intros Ha. by eapply (cuts_timers _ _ [_]); [..|constructor]. Qed.

#[export] Instance cuts_draw {A} (r : Rand A) : Keeps keeps_cuts (draw r).
Proof. intros k a k' H. apply draw_Some in H as (g & _ & ->). by apply cuts_same. Qed.

Lemma cuts_modify_same f : (forall k, k_blocked (f k) = k_blocked k) -> (forall k, k_timers (f k) = k_timers k) ->
  Keeps keeps_cuts (modify f).
Proof. intros. apply keeps_modify. intros. by apply cuts_same. Qed.

Lemma cuts_wake_all ids (k : Inner) : keeps_cuts k (wake_all ids k).
Proof. apply keeps_fold. intros. by apply cuts_same. Qed.

Lemma partition_timers a b one_way (k : Inner) : k_timers (partition a b one_way k) = k_timers k.
Proof.
  unfold partition, cut_groups. cbn [count k_timers]. generalize (list_prod a b). intros l. revert k.
  induction l as [|xy l IH]; intros k; [done|]. cbn [fold_left]. rewrite IH. by destruct one_way.
Qed.

(** A partition of chaos: what it cuts is what its [Heal] will heal. *)
Lemma cuts_scheduled a b one_way d (k : Inner) :
  keeps_cuts k (schedule d (Heal (cut_links a b one_way)) (partition a b one_way k)).
Proof.
  intros by_hand H. apply (counts_cut a b one_way) in H. intros l. change (k_blocked (schedule d _ ?k1)) with (k_blocked k1).
  revert l. change (counts (concat by_hand ++ concat (healings (schedule d (Heal (cut_links a b one_way)) (partition a b one_way k))))
    (partition a b one_way k)).
  pose proof (partition_timers a b one_way k) as Ht.
  assert (E : healings (schedule d (Heal (cut_links a b one_way)) (partition a b one_way k)) =
    healings k ++ [cut_links a b one_way]).
  { unfold healings. change (k_timers (schedule d ?a0 ?k0)) with (k_timers k0 ++ [mkTimer (sadd64 (k_now k0) d) (k_seq k0 +64 1) a0]).
    by rewrite omap_app, Ht. }
  rewrite E, concat_app. cbn [concat]. eapply counts_Permutation; [|exact H]. rewrite app_nil_r. solve_Permutation.
Qed.
End Waiting.

#[export] Hint Extern 2 (Keeps keeps_cuts (modify _)) =>
  apply cuts_modify_same; intros; reflexivity : typeclass_instances.
#[export] Hint Extern 3 (Keeps keeps_cuts (modify (schedule _ _))) =>
  apply keeps_modify; intros; apply cuts_schedule; reflexivity : typeclass_instances.

Section Calls.
Context {F : Type} (fuel : nat).
Abbreviation K := (K (F := F)).
Abbreviation Inner := (Inner (F := F)).

Lemma start_timer_cuts d (k : Inner) : keeps_cuts k (start_timer d k).2.
Proof. unfold start_timer, TimerSlot_alloc. etrans; [|by apply cuts_schedule]. by apply cuts_same. Qed.

#[export] Instance cuts_wait_for which : Keeps keeps_cuts (wait_for (F := F) fuel which).
Proof.
  unfold wait_for, latency. apply keeps_bind; [apply _|intros d]. apply keeps_bind; [|apply _].
  apply keeps_lift. intros. apply start_timer_cuts.
Qed.

#[export] Instance cuts_sync_dir : Keeps keeps_cuts (sync_dir (F := F) fuel).
Proof.
  unfold sync_dir. apply keeps_bind; [apply _|intros d]. apply keeps_bind; [apply _|intros x]. apply keeps_lift.
  intros. apply start_timer_cuts.
Qed.

Lemma cuts_send from to payload (k k' : Inner) : send fuel from to payload k = Some (tt, k') -> keeps_cuts k k'.
Proof.
  intros H. destruct (send_posts fuel from to payload k k' H) as (copies & (_ & Hb & _ & ts & Ht & Hts) & _).
  apply (cuts_timers k k' ts); [done|done|]. apply Forall_forall. intros t Hin.
  assert (Hm : t_action t ∈ map (Deliver from to (k_next_msg k)) copies) by (rewrite <- Hts; by apply list_elem_of_fmap_2).
  by apply list_elem_of_fmap in Hm as (p & -> & _).
Qed.

Lemma cuts_wait which (k k1 : Inner) r k' : k_blocked k1 = k_blocked k -> k_timers k1 = k_timers k ->
  wait_for fuel which k1 = Some (r, k') -> keeps_cuts k k'.
Proof. intros Hb Ht H. transitivity k1; [by apply cuts_same|by eapply cuts_wait_for]. Qed.

(** No call of a task touches a partition. *)
Lemma call_cuts (k k' : Inner) : kernel_call fuel k k' -> keeps_cuts k k'.
Proof.
  destruct 1 as [slot id|done id|node id|id|node dur|from to payload k' H|node name|node name|slot k' H
    |node name offset data r k' Hoff H|node name offset len r k' H|node name r k' H|node name covered
    |node name to r k' Hto H|node fut|node text|node]; try (by apply cuts_same).
  - unfold TimerFuture_poll. repeat case_match; by apply cuts_same.
  - unfold YieldOnce_poll. destruct done; by apply cuts_same.
  - unfold RecvFuture_poll. repeat case_match; by apply cuts_same.
  - unfold sleep, TimerSlot_alloc. etrans; [|by apply cuts_schedule]. by apply cuts_same.
  - by eapply cuts_send.
  - unfold storage_open. repeat case_match; by apply cuts_same.
  - exact (keeps (R := keeps_cuts) (p := sync_dir fuel) _ _ _ H).
  - unfold file_write_at in H. repeat case_match; simplify_eq;
      solve [by apply cuts_same|by eapply cuts_wait; [..|exact H]].
  - unfold file_read_start in H. by eapply cuts_wait; [..|exact H].
  - unfold file_fsync_start in H. repeat case_match; simplify_eq;
      solve [by apply cuts_same|by eapply cuts_wait; [..|eassumption]].
  - unfold file_fsync_finish. repeat case_match; by apply cuts_same.
  - unfold file_truncate in H. repeat case_match; simplify_eq;
      solve [by apply cuts_same|by eapply cuts_wait; [..|exact H]].
  - unfold node_next_u64. repeat case_match; by apply cuts_same.
Qed.

Lemma calls_cuts {A} (p : K A) : calls fuel p -> Keeps keeps_cuts p.
Proof.
  intros Hp k a k' H. apply Hp in H. induction H as [k|k k1 k' H _ IH]; [done|].
  etrans; [by eapply call_cuts|done].
Qed.

(** ** Power loss and chaos *)

#[export] Instance cuts_lose_ops node fid ops durable : Keeps keeps_cuts (lose_ops (F := F) fuel node fid ops durable).
Proof.
  revert durable. induction ops as [|[] ops IH]; intros durable; simpl; unfold lose_write, lose_truncate; apply _.
Qed.

#[export] Instance cuts_power_loss node : Keeps keeps_cuts (power_loss (F := F) fuel node).
Proof.
  unfold power_loss. apply keeps_bind; [apply _|intros names]. apply keeps_for_each. intros name.
  unfold lose_file. apply keeps_bind; [apply _|]. intros [f|]; apply _.
Qed.

Lemma cuts_reap node (k : Inner) : keeps_cuts k (reap node k).
Proof. apply keeps_fold. intros. by apply cuts_same. Qed.

Lemma cuts_kill node (k : Inner) : keeps_cuts k
  (k |> on_node node kill_node |> count crashes 1 |> record (EvCrash node) |> reap node).
Proof. etrans; [|apply cuts_reap]. by apply cuts_same. Qed.

#[export] Instance cuts_crash_in_lock node : Keeps keeps_cuts (crash_in_lock (F := F) fuel node).
Proof.
  intros k a k' H. unfold crash_in_lock in H. repeat case_match; simplify_eq; try done.
  etrans; [apply cuts_kill|by eapply cuts_power_loss].
Qed.

#[export] Instance cuts_do_crash node : Keeps keeps_cuts (do_crash (F := F) fuel node).
Proof.
  intros k a k' H. unfold do_crash in H. repeat case_match; simplify_eq; try done.
  etrans; [apply cuts_kill|]. etrans; [by eapply cuts_power_loss|apply cuts_wake_all].
Qed.

#[export] Instance cuts_chaos_partition policy tick servers :
  Keeps keeps_cuts (chaos_partition (F := F) fuel policy tick servers).
Proof.
  unfold chaos_partition. apply keeps_bind; [apply _|]. intros []; [|apply _].
  do 3 (apply keeps_bind; [apply _|intros ?]). intros k [] k' H.
  apply kbind_Some in H as ([] & k1 & [= <-] & H). apply kbind_Some in H as (dur & k2 & Hd & H).
  apply draw_Some in Hd as (g & _ & ->). injection H as <-.
  match goal with |- keeps_cuts k (schedule dur (Heal (concat (map _ (list_prod ?x ?y)))) (on_rng _ (partition _ _ ?w _))) =>
    pose proof (cuts_scheduled x y w dur k) as Hc end.
  etrans; [exact Hc|]. by apply cuts_same.
Qed.

#[export] Instance cuts_chaos_pause policy tick servers :
  Keeps keeps_cuts (chaos_pause (F := F) fuel policy tick servers).
Proof.
  unfold chaos_pause. apply keeps_bind; [apply _|]. intros []; [|apply _].
  do 2 (apply keeps_bind; [apply _|intros ?]). case_match; [|apply _].
  apply keeps_bind; [apply _|intros dur]. apply keeps_modify. intros k.
  etrans; [|by apply cuts_schedule]. by apply cuts_same.
Qed.

#[export] Instance cuts_chaos_clock_step tick servers :
  Keeps keeps_cuts (chaos_clock_step (F := F) fuel tick servers).
Proof.
  unfold chaos_clock_step. do 2 (apply keeps_bind; [apply _|intros ?]). apply keeps_if; [|apply _].
  apply keeps_if; [|apply _]. apply keeps_bind; [apply _|intros i]. case_match; [|apply _]. apply _.
Qed.

#[export] Instance cuts_chaos_crash policy tick servers :
  Keeps keeps_cuts (chaos_crash (F := F) fuel policy tick servers).
Proof.
  unfold chaos_crash. apply keeps_bind; [apply _|]. intros []; [|apply _].
  apply keeps_bind; [apply _|intros alive]. case_match; [|apply _].
  apply keeps_bind; [apply _|intros i]. case_match; [|apply _]. apply _.
Qed.

#[export] Instance cuts_chaos_tick : Keeps keeps_cuts (chaos_tick (F := F) fuel).
Proof. unfold chaos_tick. apply _. Qed.
End Calls.

(** ** Whole runs *)

Section Runs.
Context {F : Type} (fuel : nat) (poll : F -> TaskId -> K (F := F) (Polled F)) (boot : NodeId -> K (F := F) unit).
Abbreviation Inner := (Inner (F := F)).
Hypothesis poll_calls : forall fut id, calls fuel (poll fut id).
Hypothesis boot_calls : forall id, calls fuel (boot id).

Lemma cuts_boot_node id (k k' : Inner) : boot_node boot id k = Some (tt, k') -> keeps_cuts k k'.
Proof.
  unfold boot_node. destruct (k_nodes k !! id) as [n|]; [|by intros [= <-]].
  destruct (nd_up n); [by intros [= <-]|]. intros H.
  etrans; [|by eapply (calls_cuts fuel _ (boot_calls id))]. destruct (_ =? 1); by apply cuts_same.
Qed.

Lemma cuts_poll_task id (k k' : Inner) : poll_task poll id k = Some (tt, k') -> keeps_cuts k k'.
Proof.
  intros H. unfold poll_task in H. destruct (k_tasks k !! id) as [[node [fut|]]|]; try (by injection H as <-).
  match type of H with match poll fut id ?k1 with _ => _ end = _ => set (k1' := k1) in * end.
  destruct (poll fut id k1') as [[r k2]|] eqn:E; [|done]. injection H as <-.
  transitivity k1'; [by apply cuts_same|]. transitivity k2; [by eapply (calls_cuts fuel _ (poll_calls fut id))|].
  destruct r; by apply cuts_same.
Qed.

(** A healing leaves the heap and the counts together; any other event keeps both. *)
Lemma cuts_event horizon t (k k1 k' : Inner) : next_timer fuel horizon k = Some (Some t, k1) ->
  fire fuel boot t k1 = Some (tt, k') -> keeps_cuts k k'.
Proof.
  intros Ht Hf by_hand H.
  assert (Hb : k_blocked k1 = k_blocked k).
  { unfold next_timer in Ht. repeat case_match; simplify_eq; try done; simpl;
      match goal with E : mret _ _ = _ |- _ => injection E as _ <- | E : draw _ _ = _ |- _ =>
        apply draw_Some in E as (g & _ & ->) end; done. }
  apply next_timer_some in Ht as (Hp & _).
  assert (H1 : counts (concat by_hand ++ concat (omap (fun t => heals (t_action t)) (t :: k_timers k1))) k1).
  { intros l. rewrite Hb. revert l. eapply counts_Permutation; [|exact H]. f_equiv.
    apply concat_healings_Permutation. unfold healings. by rewrite Hp. }
  unfold fire in Hf. apply kbind_Some in Hf as ([] & k2 & [= <-] & Hf). set (k2 := on_seq _ k1) in *.
  assert (H2 : heals (t_action t) = None -> cut_state by_hand k2).
  { intros E. cbn [omap list_omap] in H1. rewrite E in H1. exact H1. }
  destruct (t_action t) as [slot|from to msg payload| |node|links|node] eqn:Ea.
  - injection Hf as <-. eapply (cuts_same k2); [| |by apply H2]; unfold fire_slot; by repeat case_match.
  - injection Hf as <-. refine (_ (H2 eq_refl)). unfold deliver_packet. revert by_hand H H1 H2.
    enough (Hk : keeps_cuts k2 (deliver_packet from to msg payload k2)) by (intros ????; apply Hk).
    unfold deliver_packet. destruct (k_nodes k2 !! to) as [n|]; [|by apply cuts_same].
    destruct (nd_up n); [|by apply cuts_same]. etrans; [|apply cuts_wake_all]. by apply cuts_same.
  - assert (Hk : Keeps keeps_cuts (tick ← chaos_tick (F := F) fuel; modify (schedule tick ChaosTick))) by apply _.
    eapply Hk; [exact Hf|by apply H2].
  - by eapply cuts_boot_node; [|apply H2].
  - injection Hf as <-. cbn [omap list_omap heals concat] in H1. rewrite Ea in H1. cbn [heals concat] in H1.
    assert (E : healings (fold_left heal_link links k2) = healings k1).
    { unfold healings. f_equal. generalize k2, (eq_refl : k_timers k2 = k_timers k1). clear. revert k1.
      induction links as [|l links IH]; intros k1 k2 E; [done|]. cbn [fold_left]. apply IH. rewrite <- E.
      unfold heal_link. by repeat case_match. }
    unfold cut_state. rewrite E. apply counts_heal. eapply counts_Permutation; [|exact H1].
    by rewrite Permutation_app_swap_app.
  - injection Hf as <-. eapply (cuts_same k2); [| |by apply H2]; unfold resume; by repeat case_match.
Qed.

Lemma cuts_round horizon p r (k k' : Inner) : run_round fuel poll boot horizon p k = Some (r, k') -> keeps_cuts k k'.
Proof.
  unfold run_round. destruct (k_stop k); [by intros [= _ <-]|].
  destruct (k_panic k) as [[node msg]|]; [intros [= _ <-]; by apply cuts_same|].
  destruct (pick_runnable fuel k) as [[[id|] k1]|] eqn:Ep; [| |done].
  - apply pick_runnable_some in Ep as (_ & g & Ek).
    destruct (poll_task poll id k1) as [[[] k2]|] eqn:Et; [|done]. intros [= _ <-].
    transitivity k1; [subst; by apply cuts_same|by eapply cuts_poll_task].
  - apply pick_runnable_none in Ep as (_ & Ek). transitivity k1; [subst; by apply cuts_same|].
    destruct (next_timer fuel horizon k1) as [[[t|] k2]|] eqn:Et; [| |done].
    + destruct (fire fuel boot t k2) as [[[] k3]|] eqn:Ef; [|done]. injection H as _ <-. by eapply cuts_event.
    + injection H as _ <-. apply next_timer_none in Et as [[_ ->]|(-> & _)]; by apply cuts_same.
Qed.

Lemma cuts_run rounds horizon o (k k' : Inner) : run_until fuel poll boot rounds horizon k = Some (o, k') -> keeps_cuts k k'.
Proof.
  unfold run_until. generalize 0. revert k. induction rounds as [|rounds IH]; intros k n H; [done|]. cbn [run_loop] in H.
  destruct (run_round fuel poll boot horizon n k) as [[[o1|m] k1]|] eqn:E; [| |done]; apply cuts_round in E.
  - by injection H as _ <-.
  - etrans; [exact E|by eapply IH].
Qed.

(** What a simulator goes through, and the partitions cut by [Sim::partition] since the
    links were last all open. [heal_all] may be called when no healing waits. *)
Inductive link_run : list (list Link) -> Inner -> Prop :=
| links_open k : k_blocked k = ∅ -> healings k = [] -> link_run [] k
| links_cut a b one_way by_hand k : link_run by_hand k ->
    link_run (cut_links a b one_way :: by_hand) (partition a b one_way k)
| links_heal_all by_hand k : link_run by_hand k -> healings k = [] -> link_run [] (heal_all k)
| links_run rounds horizon o by_hand k k' : link_run by_hand k ->
    run_until fuel poll boot rounds horizon k = Some (o, k') -> link_run by_hand k'
| links_crash node by_hand k k' : link_run by_hand k -> do_crash fuel node k = Some (tt, k') -> link_run by_hand k'
| links_restart node by_hand k k' : link_run by_hand k -> boot_node boot node k = Some (tt, k') -> link_run by_hand k'
| links_chaos on by_hand k : link_run by_hand k -> link_run by_hand (set_chaos on k).

Definition same_cuts (k k' : Inner) : Prop := k_blocked k' = k_blocked k /\ k_timers k' = k_timers k.

#[local] Instance same_cuts_preorder : PreOrder same_cuts.
Proof. split; [by intros k|]. intros k1 k2 k3 [B1 T1] [B2 T2]. split; congruence. Qed.

Lemma heal_all_opens (k : Inner) : k_blocked (heal_all k) = ∅ /\ k_timers (heal_all k) = k_timers k.
Proof.
  unfold heal_all. set (k1 := fold_left (fun k l => record _ k) (sorted_links _) k).
  assert (H1 : same_cuts k k1) by (apply keeps_fold; by intros).
  cbv zeta. set (k2 := on_blocked (fun _ => ∅) k1).
  match goal with |- context [wake_all ?ids ?k3] =>
    assert (H3 : same_cuts k2 (wake_all ids k3)); [|destruct H3 as [-> ->]; split; [done|apply H1]] end.
  match goal with |- same_cuts _ (wake_all _ ?k3) => transitivity k3; [|split; apply wake_all_frame] end.
  match goal with |- same_cuts _ (fold_left _ _ ?k3) => transitivity k3; apply keeps_fold; by intros end.
Qed.

Lemma link_run_cuts by_hand (k : Inner) : link_run by_hand k -> cut_state by_hand k.
Proof.
  induction 1 as [k Hk Hh|a b one_way by_hand k _ IH|by_hand k _ IH Hh|rounds horizon o by_hand k k' _ IH H
    |node by_hand k k' _ IH H|node by_hand k k' _ IH H|on by_hand k _ IH].
  - intros l. unfold cut_state. by rewrite Hk, Hh.
  - unfold cut_state. cbn [concat]. rewrite <- app_assoc.
    assert (E : healings (partition a b one_way k) = healings k) by (unfold healings; by rewrite partition_timers).
    rewrite E. by apply counts_cut.
  - destruct (heal_all_opens k) as [Hb Ht]. intros l. unfold healings. rewrite Hb, Ht. fold (healings k). by rewrite Hh.
  - by eapply cuts_run.
  - by eapply cuts_do_crash.
  - by eapply cuts_boot_node.
  - exact IH.
Qed.
End Runs.

(** C14: Overlapping partitions heal independently. Start with every link open, cut
    partitions with [partition], let the simulator run with its tasks, its chaos and its
    healings, crash and restart nodes, and call [heal_all] when no healing waits on the
    heap. At any time a link is blocked exactly while some partition that cut it, in its
    direction, is open: one cut by hand and not yet cleared by [heal_all], or one of chaos
    whose [Heal] still waits on the heap; and [has_partitions] says whether any link
    is. The tasks and the nodes' entry points are arbitrary computations made of the
    calls a host offers. *)
Theorem partitions_heal_independently {F} (fuel : nat) (poll : F -> TaskId -> K (F := F) (Polled F))
    (boot : NodeId -> K (F := F) unit) (by_hand : list (list Link)) (k : Inner (F := F)) :
  (forall fut id, calls fuel (poll fut id)) -> (forall id, calls fuel (boot id)) ->
  link_run fuel poll boot by_hand k ->
  (forall from to, is_blocked from to k = true <->
     exists links, (links ∈ by_hand \/ links ∈ healings k) /\ (from, to) ∈ links) /\
  (has_partitions k = true <-> exists from to, is_blocked from to k = true).
Proof.
  intros Hpoll Hboot H. apply (link_run_cuts fuel poll boot Hpoll Hboot) in H. unfold cut_state in H.
  rewrite <- concat_app in H. set (open := by_hand ++ healings k) in *.
  assert (Hb : forall from to, is_blocked from to k = true <-> (from, to) ∈ concat open).
  { intros from to. unfold is_blocked. rewrite H, <- occ_pos, Z.ltb_lt. by destruct (decide _). }
  split.
  - intros from to. rewrite Hb, list_elem_of_In, in_concat. unfold open. setoid_rewrite <- elem_of_app.
    split; intros (links & H1 & H2); exists links; by rewrite ?list_elem_of_In in *.
  - unfold has_partitions. rewrite bool_decide_eq_true. split.
    + intros Hne. apply map_choose in Hne as ([from to] & c & Hc). exists from, to. unfold is_blocked. rewrite Hc.
      rewrite H in Hc. destruct (decide _) as [Hp|]; [|done]. injection Hc as <-. by apply Z.ltb_lt.
    + intros (from & to & Hblk) E. unfold is_blocked in Hblk. by rewrite E in Hblk.
Qed.

(** A universe under torture, cut by hand and run for two seconds of chaos. *)
Definition no_task (fut : Bytes) (id : TaskId) : K (F := Bytes) (Polled Bytes) := mret Done.

Lemma partitions_heal_independently_witness :
  let cut := partition [0] [1] true (booted [1; 2; 3] torture) in
  exists o k', run_until 8 no_task (fun _ => mret tt) 200 2000000000 cut = Some (o, k') /\
  (forall from to, is_blocked from to k' = true <->
     exists links, (links ∈ [cut_links [0] [1] true] \/ links ∈ healings k') /\ (from, to) ∈ links) /\
  (has_partitions k' = true <-> exists from to, is_blocked from to k' = true).
Proof.
  cbv zeta. assert (Ho : is_Some (fst <$> run_until 8 no_task (fun _ => mret tt) 200 2000000000
    (partition [0] [1] true (booted [1; 2; 3] torture)))) by (vm_compute; eauto).
  destruct (run_until 8 no_task (fun _ => mret tt) 200 2000000000 (partition [0] [1] true (booted [1; 2; 3] torture)))
    as [[o k']|] eqn:E; [|by destruct Ho]. exists o, k'. split; [reflexivity|].
  refine (partitions_heal_independently 8 no_task (fun _ => mret tt) [cut_links [0] [1] true] k' _ _ _).
  - intros fut id k r k1 [= _ <-]. apply rtc_refl.
  - intros id k r k1 [= _ <-]. apply rtc_refl.
  - eapply links_run; [|exact E]. apply links_cut, links_open; vm_compute; reflexivity.
Defined.

(** [heal_all] leaves healings behind. It clears the counts, but the healing
    that chaos scheduled for a partition stays on the heap; when it fires, it opens
    the links of a partition made since, whose own healing is not due. *)
Theorem stale_heal_opens_a_new_partition :
  let chaos := partition [0] [1] false (Kernel_new (F := unit) 7 benign HashOnly) in
  let again := partition [0] [1] false (heal_all chaos) in
  is_blocked 0 1 again = true /\
  is_blocked 0 1 (fold_left heal_link (cut_links [0] [1] false) again) = false.
Proof. split; vm_compute; reflexivity. Qed.
