(* ===== verification/Chan.v ===== *)
(** * The channel: [crates/chronolog/src/chan.rs]

    The queue through which everything reaches the driver and the client. The
    operations are functions on what the lock protects; a waker is a value of any
    type, and an operation that wakes returns the wakers it took, to be woken once
    the lock is released. The theorem is the contract its users rely on: the
    messages come out in the order they went in, none lost and none twice, and no
    receiver sleeps over one. *)

From Stdlib Require Import ZArith Lia.
From stdpp Require Import base tactics list.
From S2P Require Import Prelude.

Section Chan.
Context {T W : Type}.

Record ChanInner : Type := mkChan { queue : list T; wakers : list W; closed : bool }.

Definition Chan_new : ChanInner := mkChan [] [] false.

(** [send]: the wakers to wake, and the channel. *)
Definition Chan_send (value : T) (c : ChanInner) : list W * ChanInner :=
  if closed c then ([], c) else (wakers c, mkChan (queue c ++ [value]) [] (closed c)).

Definition Chan_try_recv (c : ChanInner) : option T * ChanInner :=
  match queue c with
  | v :: rest => (Some v, mkChan rest (wakers c) (closed c))
  | [] => (None, c)
  end.

Definition Chan_len (c : ChanInner) : nat := length (queue c).
Definition Chan_is_empty (c : ChanInner) : bool := (Chan_len c =? 0)%nat.

Definition Chan_close (c : ChanInner) : list W * ChanInner := (wakers c, mkChan (queue c) [] true).

(** [Recv::poll]. *)
Inductive RecvPoll : Type := RecvReady (v : option T) | RecvPending.

Definition Recv_poll (waker : W) (c : ChanInner) : RecvPoll * ChanInner :=
  match queue c with
  | v :: rest => (RecvReady (Some v), mkChan rest (wakers c) (closed c))
  | [] =>
      if closed c then (RecvReady None, c)
      else (RecvPending, mkChan (queue c) (wakers c ++ [waker]) (closed c))
  end.

(** [while let Some(v) = c.try_recv() { .. }]: a burst, in one go. *)
Fixpoint Chan_drain (n : nat) (c : ChanInner) : list T * ChanInner :=
  match n with
  | O => ([], c)
  | S n =>
      match Chan_try_recv c with
      | (Some v, c) => let '(vs, c) := Chan_drain n c in (v :: vs, c)
      | (None, c) => ([], c)
      end
  end.

(** ** The history of a channel *)

(** What has been accepted, what has been received, who has gone to sleep and who
    has been woken, in any interleaving of the operations. *)
Record History : Type := mkHistory { sent : list T; got : list T; parked : list W; woken : list W }.

Inductive chan_run : History -> ChanInner -> Prop :=
| run_new : chan_run (mkHistory [] [] [] []) Chan_new
| run_send h c v : chan_run h c -> closed c = false ->
    chan_run (mkHistory (sent h ++ [v]) (got h) (parked h) (woken h ++ (Chan_send v c).1)) (Chan_send v c).2
| run_send_closed h c v : chan_run h c -> closed c = true -> chan_run h (Chan_send v c).2
| run_recv h c w v : chan_run h c -> (Recv_poll w c).1 = RecvReady (Some v) ->
    chan_run (mkHistory (sent h) (got h ++ [v]) (parked h) (woken h)) (Recv_poll w c).2
| run_end h c w : chan_run h c -> (Recv_poll w c).1 = RecvReady None -> chan_run h (Recv_poll w c).2
| run_park h c w : chan_run h c -> (Recv_poll w c).1 = RecvPending ->
    chan_run (mkHistory (sent h) (got h) (parked h ++ [w]) (woken h)) (Recv_poll w c).2
| run_drain h c n : chan_run h c ->
    chan_run (mkHistory (sent h) (got h ++ (Chan_drain n c).1) (parked h) (woken h)) (Chan_drain n c).2
| run_close h c : chan_run h c ->
    chan_run (mkHistory (sent h) (got h) (parked h) (woken h ++ (Chan_close c).1)) (Chan_close c).2.

Definition chan_inv (h : History) (c : ChanInner) : Prop :=
  sent h = got h ++ queue c /\ parked h ≡ₚ woken h ++ wakers c /\
  (wakers c <> [] -> queue c = [] /\ closed c = false).

Lemma drain_spec n c : (Chan_drain n c).1 ++ queue (Chan_drain n c).2 = queue c /\
  wakers (Chan_drain n c).2 = wakers c /\ closed (Chan_drain n c).2 = closed c /\
  ((length (queue c) <= n)%nat -> queue (Chan_drain n c).2 = []).
Proof.
  revert c. induction n as [|n IH]; intros c; simpl.
  - split_and!; [done..|]. destruct (queue c); simpl; [done|lia].
  - unfold Chan_try_recv. destruct (queue c) as [|v rest] eqn:E; [by split_and!|].
    destruct (IH (mkChan rest (wakers c) (closed c))) as (H1 & H2 & H3 & H4).
    destruct (Chan_drain n _) as [vs c']. simpl in *. rewrite H1. split_and!; [done..|].
    intros Hl. apply H4. lia.
Qed.

Lemma chan_run_inv h c : chan_run h c -> chan_inv h c.
Proof.
  unfold chan_inv.
  induction 1 as [|h c v _ IH Ec|h c v _ IH Ec|h c w v _ IH E|h c w _ IH E|h c w _ IH E|h c n _ IH|h c _ IH];
    [by split_and!|destruct IH as (Es & Ep & Hw)..]; simpl.
  - unfold Chan_send. rewrite Ec. simpl. rewrite Es, app_assoc, app_nil_r. by split_and!.
  - unfold Chan_send. rewrite Ec. simpl. by split_and!.
  - unfold Recv_poll in *. destruct (queue c) as [|x rest] eqn:Eq; [by destruct (closed c)|]. simpl in *.
    injection E as ->. rewrite Es, <- app_assoc. split_and!; [done..|]. intros H. by destruct (Hw H).
  - unfold Recv_poll in *. destruct (queue c) as [|x rest] eqn:Eq; [|done]. destruct (closed c) eqn:Ec; [|done].
    simpl. rewrite Eq. split_and!; [done..|]. intros H. by destruct (Hw H).
  - unfold Recv_poll in *. destruct (queue c) as [|x rest] eqn:Eq; [|done]. destruct (closed c) eqn:Ec; [done|].
    simpl. rewrite Es, Ep, app_assoc. by split_and!.
  - destruct (drain_spec n c) as (H1 & H2 & H3 & _). rewrite Es, <- H1, H2, H3, app_assoc. split_and!; [done..|].
    intros H. destruct (Hw H) as [Eq Ec]. rewrite Eq in H1. by apply app_nil in H1 as [_ ->].
  - rewrite app_nil_r. by split_and!.
Qed.
End Chan.

Arguments ChanInner : clear implicits.
Arguments History : clear implicits.

(** C32: the channel is a queue that wakes its receivers. In any history of
    operations, what has been received is a prefix of what was accepted, in order,
    with no message lost or duplicated: the rest is in the queue. And no receiver
    sleeps while there is something for it: when the queue holds a message or is
    closed, everyone who has gone to sleep has been woken, once for each time. *)
Theorem channel_is_fifo_and_wakes {T W} (h : History T W) (c : ChanInner T W) :
  chan_run h c ->
  sent h = got h ++ queue c /\
  (queue c <> [] \/ closed c = true -> parked h ≡ₚ woken h) /\
  parked h ≡ₚ woken h ++ wakers c.
Proof.
  intros H. apply chan_run_inv in H as (Hs & Hp & Hw). split_and!; [done| |done].
  intros Hq. destruct (wakers c) as [|w ws] eqn:E; [by rewrite app_nil_r in Hp|].
  destruct Hw as [H1 H2]; [done|]. destruct Hq; congruence.
Qed.

Lemma channel_is_fifo_and_wakes_witness :
  let c := (Chan_send 7 (Recv_poll 1 (Chan_new (T := Z) (W := Z))).2).2 in
  let h := mkHistory [7] [] [1] [1] in
  sent h = got h ++ queue c /\ (queue c <> [] \/ closed c = true -> parked h ≡ₚ woken h) /\
  parked h ≡ₚ woken h ++ wakers c.
Proof.
  apply channel_is_fifo_and_wakes.
  refine (run_send (mkHistory [] [] [1] []) (Recv_poll 1 Chan_new).2 7 _ eq_refl).
  exact (run_park (mkHistory [] [] [] []) Chan_new 1 run_new eq_refl).
Defined.
