(* ===== verification/Session.v ===== *)
(** * The client's session: [crates/chronolog/src/client.rs], second part

    [Client]: leader discovery, retries, idempotent request numbers. A [call] talks
    to the world in a fixed order, and the record [World] keeps what it does there:
    the packets it sends, the deadlines it spawns, the waits it makes, the draws it
    takes from its host's generator. Time has no measure here, only an order: the
    world chooses in which order things reach the client. [w_inbox] is that choice,
    replies, the closing of the channel and the firing of timers mixed at will;
    [w_timers] are the tasks still asleep that will put a deadline into the channel.
    A timer fires when the world says so and, when nothing else comes any more, on
    its own: every sleep ends. A timer that is not armed cannot fire; when nothing
    comes and no timer is armed, [inbox.recv] waits for ever, and so does the call.
    The task that turns packets into replies is [rx_events]. [None] is the end of a
    call that has no result: it waits for ever, or it panics on an index into an
    empty list of servers. *)

From Stdlib Require Import ZArith Lia.
From stdpp Require Import base tactics list list_numbers gmap sets.
From S2P Require Import Prelude Codec Types RaftLog Client Msg Kv Rng Time.

Open Scope Z_scope.

Inductive SessionEvent : Type :=
| EvReply (resp : Response)
| EvDeadline (token : Z).

Inductive CallResult : Type := CallOk (o : Outcome) | CallUnknown.

#[export] Instance CallResult_eq_dec : EqDecision CallResult.
Proof. solve_decision. Defined.

(** The fields of [Client] but for its host and its channel, which are the
    world's. *)
Record Session : Type := mkSession {
  cl_id : Z;
  cl_seq : Z;
  cl_token : Z;
  cl_servers : list NodeId;
  cl_leader_hint : option NodeId;
  cl_timeout : Nanos;
  cl_max_attempts : nat
}.

Definition Client_new (id : Z) (servers : list NodeId) : Session :=
  mkSession id 0 0 servers None (Nanos_from_millis 500) 12.

Definition with_timeout (t : Nanos) (c : Session) : Session :=
  mkSession (cl_id c) (cl_seq c) (cl_token c) (cl_servers c) (cl_leader_hint c) t (cl_max_attempts c).
Definition with_max_attempts (n : nat) (c : Session) : Session :=
  mkSession (cl_id c) (cl_seq c) (cl_token c) (cl_servers c) (cl_leader_hint c) (cl_timeout c) n.
Definition set_seq (s : Z) (c : Session) : Session :=
  mkSession (cl_id c) s (cl_token c) (cl_servers c) (cl_leader_hint c) (cl_timeout c) (cl_max_attempts c).
Definition set_token (t : Z) (c : Session) : Session :=
  mkSession (cl_id c) (cl_seq c) t (cl_servers c) (cl_leader_hint c) (cl_timeout c) (cl_max_attempts c).
Definition set_hint (h : option NodeId) (c : Session) : Session :=
  mkSession (cl_id c) (cl_seq c) (cl_token c) (cl_servers c) h (cl_timeout c) (cl_max_attempts c).

(** [learn]. *)
Definition learn (hint : option NodeId) (c : Session) : Session :=
  let servers :=
    match hint with
    | Some h => if decide (h ∈ cl_servers c) then cl_servers c else cl_servers c ++ [h]
    | None => cl_servers c
    end in
  mkSession (cl_id c) (cl_seq c) (cl_token c) servers hint (cl_timeout c) (cl_max_attempts c).

(** The receive task: a packet that is not a reply is dropped. *)
Definition rx_events (packets : list Bytes) : list SessionEvent :=
  omap (fun p => match Wire_decode p with Ok (WReply resp) => Some (EvReply resp) | _ => None end) packets.

(** What happens around the client, in the order in which it happens: a reply is
    put into the channel, a sleeping timer task wakes up and puts its deadline there,
    the receive task ends and closes it. *)
Inductive Coming : Type :=
| Packet (resp : Response)
| Timer (token : Z)
| Closing.

(** The timer wakes up, if it is armed. *)
Fixpoint take_timer (t : Z) (timers : list Z) : option (list Z) :=
  match timers with
  | [] => None
  | x :: timers => if t =? x then Some timers else cons x <$> take_timer t timers
  end.

(** [inbox.recv().await]: the next event, or [None] when the channel is closed; with
    what is still to come and the timers still armed. Nothing at all when there is
    nothing left to wait for. *)
Fixpoint recv (coming : list Coming) (timers : list Z) : option (option SessionEvent * list Coming * list Z) :=
  match coming with
  | Packet resp :: rest => Some (Some (EvReply resp), rest, timers)
  | Closing :: _ => Some (None, coming, timers)
  | Timer t :: rest =>
      match take_timer t timers with
      | Some timers => Some (Some (EvDeadline t), rest, timers)
      | None => recv rest timers
      end
  | [] =>
      match timers with
      | t :: timers => Some (Some (EvDeadline t), [], timers)
      | [] => None
      end
  end.

(** How the inner loop of [call] ends. *)
Inductive Attempt : Type :=
| AtClosed
| AtTimeout
| AtRedirect (hint : option NodeId)
| AtUnavailable
| AtAnswer (o : Outcome).

(** The inner loop, for the request [seq] of client [id] and the deadline [token].
    Each round takes an event from those still possible, of which there are
    [length coming + length timers]. *)
Fixpoint await_loop (fuel : nat) (id seq token : Z) (coming : list Coming) (timers : list Z) :
    option (Attempt * list Coming * list Z) :=
  match fuel with
  | O => None
  | S fuel =>
      match recv coming timers with
      | None => None
      | Some (None, rest, timers) => Some (AtClosed, rest, timers)
      | Some (Some (EvDeadline t), rest, timers) =>
          if t =? token then Some (AtTimeout, rest, timers) else await_loop fuel id seq token rest timers
      | Some (Some (EvReply resp), rest, timers) =>
          if negb (rp_client_id resp =? id) || negb (rp_seq resp =? seq)
          then await_loop fuel id seq token rest timers
          else match rp_outcome resp with
               | NotLeader hint => Some (AtRedirect hint, rest, timers)
               | Unavailable => Some (AtUnavailable, rest, timers)
               | other => Some (AtAnswer other, rest, timers)
               end
      end
  end.

Definition await_reply (id seq token : Z) (coming : list Coming) (timers : list Z) :
    option (Attempt * list Coming * list Z) :=
  await_loop (S (length coming + length timers)) id seq token coming timers.

Section Call.
Context {S : Type} `{!Rng S}.

Record World : Type := mkWorld {
  w_rng : S;
  w_sent : list (NodeId * Bytes);
  w_deadlines : list (Z * Nanos);
  w_slept : list Nanos;
  w_inbox : list Coming;
  w_timers : list Z
}.

Definition draw_u64 (w : World) : Z * World :=
  let '(v, g) := next_u64 (w_rng w) in
  (v, mkWorld g (w_sent w) (w_deadlines w) (w_slept w) (w_inbox w) (w_timers w)).

Definition send_to (to : NodeId) (payload : Bytes) (w : World) : World :=
  mkWorld (w_rng w) (w_sent w ++ [(to, payload)]) (w_deadlines w) (w_slept w) (w_inbox w) (w_timers w).
(** Spawns the timer task. *)
Definition arm (token : Z) (timeout : Nanos) (w : World) : World :=
  mkWorld (w_rng w) (w_sent w) (w_deadlines w ++ [(token, timeout)]) (w_slept w) (w_inbox w) (w_timers w ++ [token]).
Definition sleep_for (wait : Nanos) (w : World) : World :=
  mkWorld (w_rng w) (w_sent w) (w_deadlines w) (w_slept w ++ [wait]) (w_inbox w) (w_timers w).
Definition set_inbox (inbox : list Coming) (w : World) : World :=
  mkWorld (w_rng w) (w_sent w) (w_deadlines w) (w_slept w) inbox (w_timers w).
Definition set_timers (timers : list Z) (w : World) : World :=
  mkWorld (w_rng w) (w_sent w) (w_deadlines w) (w_slept w) (w_inbox w) timers.

(** [target]. *)
Definition target (c : Session) (w : World) : option (NodeId * World) :=
  match cl_leader_hint c with
  | Some h => Some (h, w)
  | None =>
      let '(v, w) := draw_u64 w in
      let i := v mod Z.max (Z.of_nat (length (cl_servers c))) 1 in
      match cl_servers c !! Z.to_nat i with Some s => Some (s, w) | None => None end
  end.

(** The ceiling of [redirect_backoff]. *)
Definition backoff_ceiling (timeout : Nanos) (attempt : Z) : Nanos :=
  let base := Nanos_from_millis 5 in
  let cap := Z.max timeout base in
  Z.max (Z.min (smul64 base (2 ^ Z.min attempt 8)) cap) 1.

Definition redirect_backoff (attempt : Z) (c : Session) (w : World) : Nanos * World :=
  let '(v, w) := draw_u64 w in (v mod backoff_ceiling (cl_timeout c) attempt, w).

(** The loop over the attempts. *)
Fixpoint attempts (n : nat) (payload : Bytes) (redirects : Z) (c : Session) (w : World) :
    option (CallResult * Session * World) :=
  match n with
  | O => Some (CallUnknown, c, w)
  | Datatypes.S n =>
      match target c w with
      | None => None
      | Some (to, w) =>
          let w := send_to to payload w in
          let c := set_token (cl_token c +64 1) c in
          let w := arm (cl_token c) (cl_timeout c) w in
          match await_reply (cl_id c) (cl_seq c) (cl_token c) (w_inbox w) (w_timers w) with
          | None => None
          | Some (ended, rest, timers) =>
              let w := set_timers timers (set_inbox rest w) in
              match ended with
              | AtClosed => Some (CallUnknown, c, w)
              | AtAnswer o => Some (CallOk o, c, w)
              | AtTimeout => attempts n payload 0 c w
              | AtRedirect hint =>
                  let c := learn hint c in
                  let '(wait, w) := redirect_backoff redirects c w in
                  attempts n payload (redirects + 1) c (sleep_for wait w)
              | AtUnavailable =>
                  let c := set_hint None c in
                  let '(wait, w) := redirect_backoff redirects c w in
                  attempts n payload (redirects + 1) c (sleep_for wait w)
              end
          end
      end
  end.

Definition call_request (op : Op) (c : Session) : Request := mkRequest (cl_id c) (cl_seq c +64 1) op.

Definition call (op : Op) (c : Session) (w : World) : option (CallResult * Session * World) :=
  let req := call_request op c in
  let c := set_seq (cl_seq c +64 1) c in
  attempts (cl_max_attempts c) (Wire_encode (WClient req)) 0 c w.

Definition put (key value : Bytes) := call (Put key value).
Definition get (key : Bytes) (mode : ReadMode) := call (Get key mode).
Definition delete (key : Bytes) := call (Delete key).
Definition cas (key : Bytes) (expect value : option Bytes) := call (Cas key expect value).
End Call.

(** * Theorems *)

(** ** One attempt *)

Definition is_answer (o : Outcome) : bool :=
  match o with NotLeader _ | Unavailable => false | _ => true end.

Lemma take_timer_Some t timers timers' : take_timer t timers = Some timers' -> timers ≡ₚ t :: timers'.
Proof.
  revert timers'. induction timers as [|x timers IH]; intros timers'; simpl; [done|].
  destruct (Z.eqb_spec t x) as [<-|Hne]; [by intros [= <-]|].
  destruct (take_timer t timers) as [l|]; [|done]. intros [= <-]. rewrite (IH l eq_refl). apply Permutation_swap.
Qed.

Lemma take_timer_length t timers timers' :
  take_timer t timers = Some timers' -> length timers = S (length timers').
Proof. by intros ->%take_timer_Some. Qed.

(** While a timer is armed, [recv] ends; it uses up something, or the channel is
    closed. *)
Lemma recv_spec coming timers : timers <> [] -> exists e rest timers' used,
  recv coming timers = Some (e, rest, timers') /\ coming = used ++ rest /\
  match e with
  | Some (EvReply resp) => Packet resp ∈ used /\ timers' = timers
  | Some (EvDeadline t) => timers ≡ₚ t :: timers'
  | None => True
  end /\
  (is_Some e -> (length rest + length timers' < length coming + length timers)%nat).
Proof.
  intros Ht. induction coming as [|[resp|t|] coming IH]; simpl.
  - destruct timers as [|t timers]; [done|]. exists (Some (EvDeadline t)), [], timers, []. split_and!; auto.
  - exists (Some (EvReply resp)), coming, timers, [Packet resp]. split_and!; auto. by left.
  - destruct (take_timer t timers) as [timers'|] eqn:E.
    + pose proof (take_timer_length _ _ _ E). apply take_timer_Some in E.
      exists (Some (EvDeadline t)), coming, timers', [Timer t]. split_and!; auto. lia.
    + destruct IH as (e & rest & timers' & used & -> & -> & He & Hl). exists e, rest, timers', (Timer t :: used).
      split_and!; [done..| |].
      * destruct e as [[resp|t']|]; [|done..]. destruct He. split; [by right|done].
      * intros Hi. specialize (Hl Hi). lia.
  - exists None, (Closing :: coming), timers, []. split_and!; auto. by intros [? ?].
Qed.

(** The inner loop ends, because its own deadline is armed and it takes it when it
    comes. *)
Lemma await_loop_spec fuel id seq token coming timers :
  token ∈ timers -> (length coming + length timers < fuel)%nat -> exists ended rest timers' used,
  await_loop fuel id seq token coming timers = Some (ended, rest, timers') /\ coming = used ++ rest /\
  forall o, ended = AtAnswer o -> exists resp, Packet resp ∈ used /\
    rp_client_id resp = id /\ rp_seq resp = seq /\ rp_outcome resp = o /\ is_answer o = true.
Proof.
  revert coming timers. induction fuel as [|fuel IH]; intros coming timers Hin Hf; [lia|]. simpl.
  destruct (recv_spec coming timers) as (e & rest & timers1 & used & -> & -> & He & Hl); [by destruct timers; set_solver|].
  assert (Hnext : token ∈ timers1 -> is_Some e -> exists ended rest' timers' used',
    await_loop fuel id seq token rest timers1 = Some (ended, rest', timers') /\ used ++ rest = used' ++ rest' /\
    forall o, ended = AtAnswer o -> exists resp, Packet resp ∈ used' /\
      rp_client_id resp = id /\ rp_seq resp = seq /\ rp_outcome resp = o /\ is_answer o = true).
  { intros Hin' Hs. destruct (IH rest timers1 Hin') as (ended & rest' & timers' & used' & -> & -> & Ho);
      [specialize (Hl Hs); lia|].
    exists ended, rest', timers', (used ++ used'). rewrite app_assoc. split_and!; [done..|]. intros o Eo.
    destruct (Ho o Eo) as (r & Hr & Hrest). exists r. split; [apply elem_of_app; by right|done]. }
  destruct e as [[resp|t]|].
  - destruct He as [Hu ->].
    destruct (Z.eqb_spec (rp_client_id resp) id); [|by apply Hnext; eauto].
    destruct (Z.eqb_spec (rp_seq resp) seq); [|by apply Hnext; eauto]. simpl.
    destruct (rp_outcome resp) eqn:Eo; do 3 eexists; exists used; (split; [done|]); (split; [done|]);
      intros o [= <-]; exists resp; by rewrite Eo.
  - destruct (Z.eqb_spec t token) as [->|Hne].
    + exists AtTimeout, rest, timers1, used. by split_and!.
    + apply Hnext; [|eauto]. rewrite He in Hin. set_solver.
  - exists AtClosed, rest, timers1, used. by split_and!.
Qed.

Lemma await_reply_spec id seq token coming timers : token ∈ timers -> exists ended rest timers' used,
  await_reply id seq token coming timers = Some (ended, rest, timers') /\ coming = used ++ rest /\
  forall o, ended = AtAnswer o -> exists resp, Packet resp ∈ used /\
    rp_client_id resp = id /\ rp_seq resp = seq /\ rp_outcome resp = o /\ is_answer o = true.
Proof. intros Hin. apply await_loop_spec; [done|lia]. Qed.

(** What an attempt may still care about: replies to this request, deadlines of
    attempts to come, the end of the channel. *)
Definition fresh (id seq token : Z) (e : Coming) : bool :=
  match e with
  | Timer t => token <? t
  | Packet resp => (rp_client_id resp =? id) && (rp_seq resp =? seq)
  | Closing => true
  end.

Definition fresh_coming (id seq t0 : Z) : list Coming -> list Coming := filter (fun e => fresh id seq t0 e = true).
Definition fresh_timers (t0 : Z) : list Z -> list Z := filter (fun t => t0 < t).

Lemma take_timer_fresh (t0 t : Z) timers : t0 < t ->
  take_timer t (fresh_timers t0 timers) = fresh_timers t0 <$> take_timer t timers.
Proof.
  intros Ht. unfold fresh_timers. induction timers as [|x timers IH]; [done|]. rewrite filter_cons. simpl.
  destruct (Z.eqb_spec t x) as [<-|Hne].
  - rewrite decide_True by done. simpl. by rewrite Z.eqb_refl.
  - destruct (decide (t0 < x)) as [Hx|Hx]; simpl; [destruct (Z.eqb_spec t x); [done|]|]; rewrite IH;
      destruct (take_timer t timers) as [l|]; simpl; rewrite ?filter_cons; [by rewrite decide_True|done|by rewrite decide_False|done].
Qed.

Lemma take_timer_old (t0 t : Z) timers timers' : t <= t0 -> take_timer t timers = Some timers' ->
  fresh_timers t0 timers = fresh_timers t0 timers'.
Proof.
  intros Ht. unfold fresh_timers. revert timers'. induction timers as [|x timers IH]; intros timers'; simpl; [done|].
  destruct (Z.eqb_spec t x) as [<-|Hne].
  - intros [= <-]. rewrite filter_cons, decide_False by lia. done.
  - destruct (take_timer t timers) as [l|]; [|done]. intros [= <-]. rewrite !filter_cons.
    by rewrite (IH l eq_refl).
Qed.

(** One event: a stale one leaves what is fresh as it was, a fresh one is the next
    of the fresh ones. *)
Lemma recv_fresh id seq t0 coming timers e rest timers' :
  recv coming timers = Some (e, rest, timers') ->
  match e with
  | Some (EvReply resp) => (rp_client_id resp =? id) && (rp_seq resp =? seq)
  | Some (EvDeadline t) => t0 <? t
  | None => true
  end = true ->
  recv (fresh_coming id seq t0 coming) (fresh_timers t0 timers) =
    Some (e, fresh_coming id seq t0 rest, fresh_timers t0 timers').
Proof.
  unfold fresh_coming. induction coming as [|c coming IH]; intros E He; simpl in E.
  - destruct timers as [|t timers]; [done|]. injection E as <- <- <-. apply Z.ltb_lt in He.
    unfold fresh_timers. by rewrite filter_cons, decide_True.
  - rewrite filter_cons. destruct c as [resp|t|]; simpl.
    + injection E as <- <- <-. by rewrite He.
    + destruct (take_timer t timers) as [l|] eqn:El.
      * injection E as <- <- <-. rewrite He. simpl. apply Z.ltb_lt in He. by rewrite take_timer_fresh, El.
      * destruct (Z.ltb_spec t0 t); simpl; [rewrite take_timer_fresh, El by done; simpl|]; by apply IH.
    + injection E as <- <- <-. simpl. by rewrite filter_cons.
Qed.

Lemma recv_stale id seq t0 coming timers e rest timers' :
  recv coming timers = Some (e, rest, timers') ->
  match e with
  | Some (EvReply resp) => (rp_client_id resp =? id) && (rp_seq resp =? seq)
  | Some (EvDeadline t) => t0 <? t
  | None => true
  end = false ->
  recv (fresh_coming id seq t0 coming) (fresh_timers t0 timers) =
  recv (fresh_coming id seq t0 rest) (fresh_timers t0 timers').
Proof.
  unfold fresh_coming. induction coming as [|c coming IH]; intros E He; simpl in E.
  - destruct timers as [|t timers]; [done|]. injection E as <- <- <-. apply Z.ltb_ge in He.
    unfold fresh_timers at 1. by rewrite filter_cons, decide_False by lia.
  - rewrite filter_cons. destruct c as [resp|t|]; simpl.
    + injection E as <- <- <-. by rewrite He.
    + destruct (take_timer t timers) as [l|] eqn:El.
      * injection E as <- <- <-. rewrite He. simpl. apply Z.ltb_ge in He. by rewrite (take_timer_old t0 t timers l).
      * destruct (Z.ltb_spec t0 t); simpl; [rewrite take_timer_fresh, El by done; simpl|]; by apply IH.
    + by injection E as <- <- <-.
Qed.

(** How much fuel there is does not matter when there is enough. *)
Lemma await_loop_fuel fuel fuel' id seq token coming timers : token ∈ timers ->
  (length coming + length timers < fuel)%nat -> (length coming + length timers < fuel')%nat ->
  await_loop fuel' id seq token coming timers = await_loop fuel id seq token coming timers.
Proof.
  revert fuel' coming timers. induction fuel as [|fuel IH]; intros [|fuel'] coming timers Hin H1 H2; [lia..|]. simpl.
  destruct (recv_spec coming timers) as (e & rest & timers1 & used & -> & _ & He & Hl); [by destruct timers; set_solver|].
  destruct e as [[resp|t]|]; [..|done]; specialize (Hl ltac:(eauto)).
  - destruct He as [_ ->]. destruct (negb _ || negb _); [|done]. apply IH; [done|lia..].
  - destruct (Z.eqb_spec t token) as [|Hne]; [done|]. apply IH; [|lia..]. rewrite He in Hin. set_solver.
Qed.

Lemma fresh_size id seq t0 coming timers :
  (length (fresh_coming id seq t0 coming) + length (fresh_timers t0 timers) <= length coming + length timers)%nat.
Proof.
  pose proof (length_filter (fun e => fresh id seq t0 e = true) coming).
  pose proof (length_filter (fun t => t0 < t) timers). unfold fresh_coming, fresh_timers. lia.
Qed.

Lemma await_loop_fresh fuel id seq token t0 coming timers : t0 < token -> token ∈ timers ->
  (length coming + length timers < fuel)%nat ->
  await_loop fuel id seq token (fresh_coming id seq t0 coming) (fresh_timers t0 timers) =
    (fun '(a, rest, timers) => (a, fresh_coming id seq t0 rest, fresh_timers t0 timers)) <$>
      await_loop fuel id seq token coming timers.
Proof.
  intros Ht. revert coming timers. induction fuel as [|fuel IH]; intros coming timers Hin Hf; [lia|].
  destruct (recv_spec coming timers) as (e & rest & timers1 & used & E & _ & He & Hl); [by destruct timers; set_solver|].
  pose proof (recv_fresh id seq t0 _ _ _ _ _ E) as Hfresh. pose proof (recv_stale id seq t0 _ _ _ _ _ E) as Hstale.
  assert (Hskip : is_Some e -> token ∈ timers1 ->
    recv (fresh_coming id seq t0 coming) (fresh_timers t0 timers) =
      recv (fresh_coming id seq t0 rest) (fresh_timers t0 timers1) ->
    await_loop (S fuel) id seq token (fresh_coming id seq t0 coming) (fresh_timers t0 timers) =
      (fun '(a, rest, timers) => (a, fresh_coming id seq t0 rest, fresh_timers t0 timers)) <$>
        await_loop fuel id seq token rest timers1).
  { intros Hs Hin1 Er. specialize (Hl Hs). rewrite <- IH by (done || lia).
    pose proof (fresh_size id seq t0 rest timers1).
    transitivity (await_loop (S fuel) id seq token (fresh_coming id seq t0 rest) (fresh_timers t0 timers1)).
    - simpl. by rewrite Er.
    - apply await_loop_fuel; [|lia..]. by apply list_elem_of_filter. }
  destruct e as [[resp|t]|].
  - destruct He as [_ ->]. cbn [await_loop]. rewrite E. specialize (Hskip ltac:(eauto) Hin). specialize (Hl ltac:(eauto)).
    destruct (rp_client_id resp =? id) eqn:E1; simpl; [|by apply Hskip, Hstale].
    destruct (rp_seq resp =? seq) eqn:E2; simpl; [|by apply Hskip, Hstale].
    rewrite (Hfresh eq_refl). simpl. rewrite E1, E2. simpl. by destruct (rp_outcome resp).
  - assert (Hin1 : t <> token -> token ∈ timers1) by (intros Hne; rewrite He in Hin; set_solver).
    cbn [await_loop]. rewrite E. destruct (Z.eqb_spec t token) as [->|Hne].
    + rewrite Hfresh by (by apply Z.ltb_lt). simpl. by rewrite Z.eqb_refl.
    + destruct (Z.ltb_spec t0 t) as [Hlt|Hge].
      * rewrite Hfresh by done. apply Z.eqb_neq in Hne as Hb. rewrite Hb. apply IH; [by apply Hin1|].
        specialize (Hl ltac:(eauto)). lia.
      * apply Hskip; [eauto|by apply Hin1|by apply Hstale].
  - cbn [await_loop]. by rewrite E, (Hfresh eq_refl).
Qed.

Lemma await_reply_fresh id seq token t0 coming timers : t0 < token -> token ∈ timers ->
  await_reply id seq token (fresh_coming id seq t0 coming) (fresh_timers t0 timers) =
    (fun '(a, rest, timers) => (a, fresh_coming id seq t0 rest, fresh_timers t0 timers)) <$>
      await_reply id seq token coming timers.
Proof.
  intros Ht Hin. unfold await_reply. rewrite <- await_loop_fresh by (done || lia).
  apply await_loop_fuel; [by apply list_elem_of_filter|pose proof (fresh_size id seq t0 coming timers); lia|lia].
Qed.

Lemma backoff_ceiling_bounds timeout attempt : 0 <= attempt ->
  1 <= backoff_ceiling timeout attempt <= Z.max timeout 5000000 /\
  backoff_ceiling timeout attempt <= 5000000 * 2 ^ Z.min attempt 8.
Proof.
  intros Ha. unfold backoff_ceiling. change (Nanos_from_millis 5) with 5000000. unfold smul64.
  assert (1 <= 2 ^ Z.min attempt 8) by (apply Z.pow_le_mono_r with (b := 0); lia).
  assert (2 ^ Z.min attempt 8 <= 2 ^ 8) by (apply Z.pow_le_mono_r; lia). simpl (2 ^ 8) in *. lia.
Qed.


(** ** A call *)

(** A hint is always a server the client knows. *)
Definition session_ok (c : Session) : Prop :=
  cl_servers c <> [] /\ from_option (.∈ cl_servers c) True (cl_leader_hint c).

#[export] Instance session_ok_dec c : Decision (session_ok c).
Proof. unfold session_ok. destruct (cl_leader_hint c); simpl; apply _. Defined.

Lemma learn_ok hint c : session_ok c -> session_ok (learn hint c) /\ cl_servers c `prefix_of` cl_servers (learn hint c).
Proof.
  intros [Hs Hh]. unfold session_ok, learn. destruct hint as [h|]; simpl; [|done].
  destruct (decide _); [done|]. split; [|by apply prefix_app_r]. split; [by destruct (cl_servers c)|set_solver].
Qed.

Section CallSpec.
Context {S : Type} `{!Rng S}.
Implicit Types (w : World (S := S)) (payload : Bytes).

(** What a stretch of a call did: where it sent [payload], the events it used up,
    the waits it made; one deadline for each packet. *)
Record progress (payload : Bytes) (n : nat) (c : Session) w (c' : Session) w'
    (tos : list NodeId) (used : list Coming) (waits : list Nanos) : Prop := {
  pr_sent : w_sent w' = w_sent w ++ map (fun to => (to, payload)) tos;
  pr_number : (length tos <= n)%nat;
  pr_used : w_inbox w = used ++ w_inbox w';
  pr_id : cl_id c' = cl_id c;
  pr_seq : cl_seq c' = cl_seq c;
  pr_timeout : cl_timeout c' = cl_timeout c;
  pr_budget : cl_max_attempts c' = cl_max_attempts c;
  pr_deadlines : exists armed, w_deadlines w' = w_deadlines w ++ armed /\ length armed = length tos /\
    Forall (fun a => a.2 = cl_timeout c) armed;
  pr_slept : w_slept w' = w_slept w ++ waits;
  pr_waits : (length waits <= length tos)%nat /\ Forall (fun d => 0 <= d < Z.max (cl_timeout c) 5000000) waits
}.

Lemma progress_refl payload c w : progress payload 0 c w c w [] [] [].
Proof. split; simpl; rewrite ?app_nil_r; auto. exists []. by rewrite app_nil_r. Qed.

Lemma progress_trans payload n1 n2 c1 c2 c3 w1 w2 w3 tos1 tos2 used1 used2 waits1 waits2 :
  progress payload n1 c1 w1 c2 w2 tos1 used1 waits1 -> progress payload n2 c2 w2 c3 w3 tos2 used2 waits2 ->
  progress payload (n1 + n2) c1 w1 c3 w3 (tos1 ++ tos2) (used1 ++ used2) (waits1 ++ waits2).
Proof.
  intros [] []. split; rewrite ?map_app, ?length_app; try congruence; try lia.
  - by rewrite pr_sent1, pr_sent0, app_assoc.
  - by rewrite pr_used0, pr_used1, app_assoc.
  - destruct pr_deadlines0 as (a1 & Ea1 & El1 & Hf1), pr_deadlines1 as (a2 & Ea2 & El2 & Hf2).
    exists (a1 ++ a2). rewrite Ea2, Ea1, app_assoc, !length_app, Forall_app. rewrite pr_timeout0 in Hf2. auto with lia.
  - by rewrite pr_slept1, pr_slept0, app_assoc.
  - destruct pr_waits0, pr_waits1. rewrite Forall_app. rewrite pr_timeout0 in *. auto with lia.
Qed.

(** [target] draws at most once and changes nothing else. *)
Lemma target_spec c w : session_ok c -> exists to g,
  target c w = Some (to, mkWorld g (w_sent w) (w_deadlines w) (w_slept w) (w_inbox w) (w_timers w)) /\ to ∈ cl_servers c.
Proof.
  intros [Hs Hh]. unfold target. destruct (cl_leader_hint c) as [h|]; [exists h, (w_rng w); by destruct w|].
  unfold draw_u64. destruct (next_u64 (w_rng w)) as [v g]. simpl.
  destruct (lookup_lt_is_Some_2 (cl_servers c) (Z.to_nat (v mod Z.max (Z.of_nat (length (cl_servers c))) 1))) as [to Eto].
  { destruct (cl_servers c); [done|]. simpl length.
    pose proof (Z.mod_pos_bound v (Z.max (Z.of_nat (Datatypes.S (length l))) 1) ltac:(lia)). lia. }
  rewrite Eto. exists to, g. split; [done|]. by eapply list_elem_of_lookup_2.
Qed.

Lemma progress_attempt payload c w c' to g used rest timers waits :
  w_inbox w = used ++ rest -> cl_id c' = cl_id c -> cl_seq c' = cl_seq c -> cl_timeout c' = cl_timeout c ->
  cl_max_attempts c' = cl_max_attempts c -> (length waits <= 1)%nat ->
  Forall (fun d => 0 <= d < Z.max (cl_timeout c) 5000000) waits ->
  progress payload 1 c w c' (mkWorld g (w_sent w ++ [(to, payload)])
    (w_deadlines w ++ [(cl_token c +64 1, cl_timeout c)]) (w_slept w ++ waits) rest timers) [to] used waits.
Proof. intros. split; simpl; auto. by exists [(cl_token c +64 1, cl_timeout c)]; repeat constructor. Qed.

Lemma redirect_backoff_spec redirects c w : 0 <= redirects -> exists wait g,
  redirect_backoff redirects c w = (wait, mkWorld g (w_sent w) (w_deadlines w) (w_slept w) (w_inbox w) (w_timers w)) /\
  0 <= wait < Z.max (cl_timeout c) 5000000.
Proof.
  intros Hr. unfold redirect_backoff, draw_u64. destruct (next_u64 (w_rng w)) as [v g]. do 2 eexists.
  split; [reflexivity|]. destruct (backoff_ceiling_bounds (cl_timeout c) redirects Hr).
  pose proof (Z.mod_pos_bound v (backoff_ceiling (cl_timeout c) redirects)). lia.
Qed.

(** The session a redirect leaves. *)
Definition redirected (a : Attempt) (c : Session) : option Session :=
  match a with
  | AtRedirect hint => Some (learn hint c)
  | AtUnavailable => Some (set_hint None c)
  | _ => None
  end.

Lemma redirected_ok a c c' : redirected a c = Some c' ->
  cl_id c' = cl_id c /\ cl_seq c' = cl_seq c /\ cl_timeout c' = cl_timeout c /\
  cl_max_attempts c' = cl_max_attempts c /\
  (session_ok c -> session_ok c' /\ cl_servers c `prefix_of` cl_servers c').
Proof.
  destruct a; simpl; intros [= <-]; split_and!; try done; [apply learn_ok|].
  intros [H _]. by repeat split.
Qed.

(** What is promised of a call with [n] attempts left: it ends, within [n]
    packets to servers the session knows, and reports only what a reply said. *)
Definition finishes payload (n : nat) (c : Session) w (res : option (CallResult * Session * World)) : Prop :=
  exists r c' w' tos used waits, res = Some (r, c', w') /\
    progress payload n c w c' w' tos used waits /\ session_ok c' /\ cl_servers c `prefix_of` cl_servers c' /\
    Forall (.∈ cl_servers c') tos /\
    forall o, r = CallOk o -> exists resp, Packet resp ∈ used /\
      rp_client_id resp = cl_id c /\ rp_seq resp = cl_seq c /\ rp_outcome resp = o /\ is_answer o = true.

Lemma finishes_after payload n c w c1 w1 to used waits res :
  progress payload 1 c w c1 w1 [to] used waits -> to ∈ cl_servers c -> cl_servers c `prefix_of` cl_servers c1 ->
  finishes payload n c1 w1 res -> finishes payload (Datatypes.S n) c w res.
Proof.
  intros H1 Hto Hp (r & c' & w' & tos & used' & waits' & E & H2 & Hok & Hp' & Hf & Ho).
  do 6 eexists. split; [exact E|]. split; [exact (progress_trans _ _ _ _ _ _ _ _ _ _ _ _ _ _ _ H1 H2)|].
  assert (cl_servers c `prefix_of` cl_servers c') as Hpp by (etransitivity; eassumption).
  split_and!; [done..| |].
  - simpl. constructor; [|exact Hf]. destruct Hpp as [k ->]. apply elem_of_app. by left.
  - intros o Hr. destruct (Ho o Hr) as (resp & Hin & Hid & Hseq & Hout & Hans). exists resp.
    rewrite (pr_id _ _ _ _ _ _ _ _ _ H1) in Hid. rewrite (pr_seq _ _ _ _ _ _ _ _ _ H1) in Hseq.
    split_and!; [|done..]. apply elem_of_app. by right.
Qed.

(** The attempt that ends the call. *)
Lemma finishes_now payload n c w c1 w1 to used waits r :
  progress payload 1 c w c1 w1 [to] used waits -> session_ok c1 -> to ∈ cl_servers c ->
  cl_servers c1 = cl_servers c ->
  (forall o, r = CallOk o -> exists resp, Packet resp ∈ used /\
    rp_client_id resp = cl_id c /\ rp_seq resp = cl_seq c /\ rp_outcome resp = o /\ is_answer o = true) ->
  finishes payload (Datatypes.S n) c w (Some (r, c1, w1)).
Proof.
  intros H Hok Hto Hs Ho. exists r, c1, w1, [to], used, waits. rewrite Hs. split_and!; try done.
  - destruct H. split; auto. simpl in *. lia.
  - by repeat constructor.
Qed.

Lemma attempts_spec n payload redirects c w : session_ok c -> 0 <= redirects ->
  finishes payload n c w (attempts n payload redirects c w).
Proof.
  revert redirects c w. induction n as [|n IH]; intros redirects c w Hok Hr.
  { exists CallUnknown, c, w, [], [], []. split; [done|]. split; [apply progress_refl|]. by split_and!. }
  simpl. destruct (target_spec c w Hok) as (to & g & -> & Hto). simpl.
  destruct (await_reply_spec (cl_id c) (cl_seq c) (cl_token c +64 1) (w_inbox w) (w_timers w ++ [cl_token c +64 1]))
    as (ended & rest & timers & used & -> & Hu & Hans); [apply elem_of_app; right; by left|]. cbv beta zeta.
  pose proof (fun c' g waits => progress_attempt payload c w c' to g used rest timers waits Hu) as Hstep.
  assert (Hlast : forall r, (forall o, r = CallOk o -> ended = AtAnswer o) -> finishes payload (Datatypes.S n) c w
    (Some (r, set_token (cl_token c +64 1) c, mkWorld g (w_sent w ++ [(to, payload)])
      (w_deadlines w ++ [(cl_token c +64 1, cl_timeout c)]) (w_slept w) rest timers))).
  { intros r Hro. eapply finishes_now; [|done..|auto]. rewrite <- (app_nil_r (w_slept w)).
    apply Hstep; auto. }
  assert (Hagain : forall c', redirected ended (set_token (cl_token c +64 1) c) = Some c' ->
    finishes payload (Datatypes.S n) c w (let '(wait, w0) := redirect_backoff redirects c'
      (mkWorld g (w_sent w ++ [(to, payload)]) (w_deadlines w ++ [(cl_token c +64 1, cl_timeout c)]) (w_slept w) rest
        timers) in
      attempts n payload (redirects + 1) c' (sleep_for wait w0))).
  { intros c' E. destruct (redirected_ok _ _ _ E) as (Hid & Hseq & Ht & Hm & Hc'). simpl in *.
    destruct (Hc' Hok) as [Hok' Hp].
    destruct (redirect_backoff_spec redirects c' (mkWorld g (w_sent w ++ [(to, payload)])
      (w_deadlines w ++ [(cl_token c +64 1, cl_timeout c)]) (w_slept w) rest timers) Hr) as (wait & g' & -> & Hw).
    rewrite Ht in Hw. eapply finishes_after; [by apply (Hstep c' g' [wait]); auto; repeat constructor|done..|].
    apply IH; [done|lia]. }
  destruct ended as [| |hint| |o]; [by apply Hlast| |by apply Hagain..|apply Hlast; congruence].
  eapply finishes_after; [apply (Hstep (set_token (cl_token c +64 1) c) g []); auto|done..|].
  rewrite app_nil_r. by apply IH.
Qed.

(** What is fresh of a world. *)
Definition fresh_world (id seq t0 : Z) w : World :=
  set_timers (fresh_timers t0 (w_timers w)) (set_inbox (fresh_coming id seq t0 (w_inbox w)) w).

(** Events that are not fresh change nothing. *)
Lemma attempts_fresh n payload t0 redirects c w : 0 <= t0 <= cl_token c -> cl_token c + Z.of_nat n < U64 ->
  attempts n payload redirects c (fresh_world (cl_id c) (cl_seq c) t0 w) =
  (fun '(r, c', w') => (r, c', fresh_world (cl_id c) (cl_seq c) t0 w')) <$> attempts n payload redirects c w.
Proof.
  revert redirects c w. induction n as [|n IH]; intros redirects c w Ht Hn; [done|]. simpl.
  assert (Htok : cl_token c +64 1 = cl_token c + 1) by (apply wadd64_small; lia).
  assert (E : target c (fresh_world (cl_id c) (cl_seq c) t0 w) =
    (fun '(to, w') => (to, fresh_world (cl_id c) (cl_seq c) t0 w')) <$> target c w).
  { unfold target, draw_u64. destruct (cl_leader_hint c); [done|]. simpl. destruct (next_u64 _).
    by destruct (cl_servers c !! _). }
  rewrite E. destruct (target c w) as [[to w1]|]; [|done]. simpl.
  assert (Ef : fresh_timers t0 (w_timers w1) ++ [cl_token c +64 1] = fresh_timers t0 (w_timers w1 ++ [cl_token c +64 1])).
  { unfold fresh_timers. rewrite filter_app, (filter_cons_True _ (cl_token c +64 1)) by lia. done. }
  rewrite Ef, await_reply_fresh by (lia || (apply elem_of_app; right; by left)).
  destruct (await_reply _ _ _ _ _) as [[[ended rest] timers]|]; [|done]. simpl.
  destruct ended as [| |hint| |o]; [done| | | |done].
  - apply (IH 0 (set_token (cl_token c +64 1) c) (mkWorld _ _ _ _ rest timers)); simpl; lia.
  - unfold redirect_backoff, draw_u64. simpl. destruct (next_u64 _) as [v g].
    refine (IH _ (learn hint (set_token (cl_token c +64 1) c)) (mkWorld _ _ _ _ rest timers) _ _); simpl; lia.
  - unfold redirect_backoff, draw_u64. simpl. destruct (next_u64 _) as [v g].
    refine (IH _ (set_hint None (set_token (cl_token c +64 1) c)) (mkWorld _ _ _ _ rest timers) _ _); simpl; lia.
Qed.

Definition is_timer (e : Coming) : bool := match e with Timer _ => true | _ => false end.

(** While nothing is heard, the attempt ends with its own deadline. *)
Lemma await_loop_silence fuel id seq token coming timers : Forall (fun e => is_timer e = true) coming ->
  token ∈ timers -> (length coming + length timers < fuel)%nat -> exists rest timers',
  await_loop fuel id seq token coming timers = Some (AtTimeout, rest, timers') /\
  Forall (fun e => is_timer e = true) rest.
Proof.
  revert coming timers. induction fuel as [|fuel IH]; intros coming timers Hf Hin Hs; [lia|]. simpl.
  destruct (recv_spec coming timers) as (e & rest & timers1 & used & E & Hu & He & Hl); [by destruct timers; set_solver|].
  rewrite E. assert (Hf' := Hf). rewrite Hu in Hf'. apply Forall_app in Hf' as [Hf1 Hf2].
  destruct e as [[resp|t]|].
  - destruct He as [Hp _]. rewrite Forall_forall in Hf1. by specialize (Hf1 _ Hp).
  - destruct (Z.eqb_spec t token) as [|Hne]; [by eauto|]. apply IH; [done| |specialize (Hl ltac:(eauto)); lia].
    rewrite He in Hin. set_solver.
  - exfalso. clear - E Hf. induction Hf as [|c coming Hc Hf IHf]; simpl in E; [by destruct timers|].
    destruct c as [r|t|]; try done. destruct (take_timer t timers); [done|by apply IHf].
Qed.

Lemma attempts_silence n payload redirects c w h : cl_leader_hint c = Some h ->
  Forall (fun e => is_timer e = true) (w_inbox w) ->
  exists c' w', attempts n payload redirects c w = Some (CallUnknown, c', w') /\ cl_leader_hint c' = Some h /\
    w_sent w' = w_sent w ++ replicate n (h, payload) /\ Forall (fun e => is_timer e = true) (w_inbox w').
Proof.
  revert redirects c w. induction n as [|n IH]; intros redirects c w Hh Hf.
  { exists c, w. simpl. by rewrite app_nil_r. }
  simpl. unfold target. rewrite Hh. simpl. unfold await_reply.
  destruct (await_loop_silence (Datatypes.S (length (w_inbox w) + length (w_timers w ++ [cl_token c +64 1]))) (cl_id c) (cl_seq c)
    (cl_token c +64 1) (w_inbox w) (w_timers w ++ [cl_token c +64 1]) Hf) as (rest & timers & -> & Hr);
    [apply elem_of_app; right; by left|lia|].
  destruct (IH 0 (set_token (cl_token c +64 1) c) (set_timers timers (set_inbox rest (arm (cl_token c +64 1) (cl_timeout c)
      (send_to h payload w)))) Hh Hr) as (c' & w' & E & Hh' & Hs & Hf').
  exists c', w'. split; [exact E|]. split_and!; [done| |done]. rewrite Hs. simpl. by rewrite <- app_assoc.
Qed.
End CallSpec.

(** ** The theorems *)

(** C27: a call always ends, within its budget, and claims only what the cluster
    said. Whatever comes to the client, in whatever order (any finite number of
    replies, of whatever request, or none at all; timers of this call and of earlier
    ones, early or late; the closing of the channel), and as long as a sleep ends when
    there is nothing else to wait for, a session that knows a server gets a result:
    no wait for a reply lasts for ever, since each is ended by the deadline that was
    armed for it. The call has sent at most [max_attempts] packets, each to a server
    the session knows, all the same bytes, each with one deadline of the session's
    timeout; it took the next request number; each of its waits is below the timeout
    (or 5 ms), and there is at most one wait per packet. If it reports an outcome, a
    reply with this client, this number and that outcome was received, and the
    outcome is a final one. *)
Theorem a_call_ends_and_claims_no_more {S : Type} `{!Rng S} op (c : Session) (w : World (S := S)) :
  session_ok c ->
  exists r c' w' tos used waits, call op c w = Some (r, c', w') /\
    progress (Wire_encode (WClient (call_request op c))) (cl_max_attempts c) (set_seq (cl_seq c +64 1) c) w c' w'
      tos used waits /\
    session_ok c' /\ cl_servers c `prefix_of` cl_servers c' /\ Forall (.∈ cl_servers c') tos /\
    forall o, r = CallOk o -> exists resp, Packet resp ∈ used /\
      rp_client_id resp = cl_id c /\ rp_seq resp = cl_seq c +64 1 /\ rp_outcome resp = o /\ is_answer o = true.
Proof.
  intros Hok. exact (attempts_spec (cl_max_attempts c) (Wire_encode (WClient (call_request op c))) 0
    (set_seq (cl_seq c +64 1) c) w Hok (Z.le_refl 0)).
Qed.

(** Three servers, a redirect to a fourth, a late reply to an earlier call, the
    answer. *)
Definition demo_world : World :=
  mkWorld (Xoshiro_from_seed 7) [] [] []
    [Packet (mkResponse 9 1 (NotLeader (Some 4))); Packet (mkResponse 9 0 (Applied 3));
     Timer 1; Packet (mkResponse 9 1 (Applied 5))] [].

Lemma a_call_ends_and_claims_no_more_witness :
  let c := Client_new 9 [1; 2; 3] in
  exists r c' w' tos used waits, call (Delete [7]) c demo_world = Some (r, c', w') /\
    progress (Wire_encode (WClient (call_request (Delete [7]) c))) (cl_max_attempts c) (set_seq (cl_seq c +64 1) c)
      demo_world c' w' tos used waits /\
    session_ok c' /\ cl_servers c `prefix_of` cl_servers c' /\ Forall (.∈ cl_servers c') tos /\
    forall o, r = CallOk o -> exists resp, Packet resp ∈ used /\
      rp_client_id resp = cl_id c /\ rp_seq resp = cl_seq c +64 1 /\ rp_outcome resp = o /\ is_answer o = true.
Proof. intros c. apply (a_call_ends_and_claims_no_more (Delete [7]) c demo_world). by_decide. Defined.

Example demo_call :
  (fun '(r, c, w) => (r, cl_leader_hint c, cl_servers c, snd <$> w_deadlines w, (fst <$> w_sent w) !! 1%nat)) <$>
    call (Delete [7]) (Client_new 9 [1; 2; 3]) demo_world =
  Some (CallOk (Applied 5), Some 4, [1; 2; 3; 4], [500000000; 500000000], Some 4).
Proof. vm_compute. reflexivity. Qed.

(** Nobody answers: twelve packets, each given up when its own timer fires. *)
Example demo_silent_call :
  (fun '(r, c, w) => (r, cl_token c, length (w_sent w), w_timers w)) <$>
    call (Delete [7]) (Client_new 9 [1; 2; 3]) (set_inbox [] demo_world) =
  Some (CallUnknown, 12, 12%nat, []).
Proof. vm_compute. reflexivity. Qed.

(** C13: a call takes effect once. However often a call sends its request, every
    packet it sends decodes to the same request with the same number; so when one
    copy has been committed, committing any other, whatever was committed in
    between, changes neither data nor sessions, and answers what the first was
    answered or [Unavailable]. *)
Theorem a_call_takes_effect_once {S : Type} `{!Rng S} op (c : Session) (w : World (S := S)) r c' w' :
  let req := call_request op c in
  session_ok c -> Request_ok req -> payload_ok (Wire_payload (WClient req)) ->
  call op c w = Some (r, c', w') ->
  forall to p, (to, p) ∈ drop (length (w_sent w)) (w_sent w') ->
  exists copy, Wire_decode p = Ok (WClient copy) /\ copy = req /\
    forall kv i cmds j,
      let first := KvStore_apply kv i req in
      let later := run first.1 cmds in
      (KvStore_apply later j copy).1 = set_applied later (Z.max (applied later) j) /\
      ((KvStore_apply later j copy).2 = first.2 \/ (KvStore_apply later j copy).2 = Unavailable).
Proof.
  intros req Hok Hq Hp E to p Hin.
  destruct (attempts_spec (cl_max_attempts c) (Wire_encode (WClient req)) 0 (set_seq (cl_seq c +64 1) c) w Hok
    (Z.le_refl 0)) as (? & ? & ? & tos & used & waits & E' & Hpr & _).
  change (attempts _ _ 0 _ w) with (call op c w) in E'. rewrite E in E'. injection E' as <- <- <-.
  rewrite (pr_sent _ _ _ _ _ _ _ _ _ Hpr), drop_app_length in Hin.
  apply list_elem_of_fmap in Hin as (to' & [= -> ->] & _). exists req.
  split_and!; [by apply wire_decodes|done|]. intros kv i cmds j. apply retry_spec.
Qed.

Lemma a_call_takes_effect_once_witness :
  let c := Client_new 9 [1; 2; 3] in
  let req := call_request (Delete [7]) c in
  exists copy, Wire_decode (Wire_encode (WClient req)) = Ok (WClient copy) /\ copy = req /\
    forall kv i cmds j,
      let first := KvStore_apply kv i req in
      let later := run first.1 cmds in
      (KvStore_apply later j copy).1 = set_applied later (Z.max (applied later) j) /\
      ((KvStore_apply later j copy).2 = first.2 \/ (KvStore_apply later j copy).2 = Unavailable).
Proof.
  intros c req.
  destruct (call (Delete [7]) c demo_world) as [[[r c'] w']|] eqn:E; [|vm_compute in E; discriminate].
  assert (Hin : drop (length (w_sent demo_world)) (w_sent w') !! 1%nat = Some (4, Wire_encode (WClient req))).
  { vm_compute in E. injection E as <- <- <-. vm_compute. reflexivity. }
  apply (a_call_takes_effect_once (Delete [7]) c demo_world r c' w'
    ltac:(by_decide) ltac:(by_decide) ltac:(by_decide) E 4).
  exact (list_elem_of_lookup_2 _ _ _ Hin).
Defined.

(** Late events change nothing. What a call does depends only on the replies to
    its own request, the timers of its own attempts and the end of the channel: in two
    worlds that agree on those, however they are mixed with late replies of earlier
    calls and with timers of earlier attempts, armed or firing, it gives the same
    result, the same packets, the same deadlines and the same waits (until the 64-bit
    token wraps). *)
Theorem late_events_change_nothing {S : Type} `{!Rng S} op (c : Session) (w : World (S := S)) inbox1 inbox2 timers1 timers2 :
  0 <= cl_token c -> cl_token c + Z.of_nat (cl_max_attempts c) < U64 ->
  let mine := fresh_coming (cl_id c) (cl_seq c +64 1) (cl_token c) in
  mine inbox1 = mine inbox2 -> fresh_timers (cl_token c) timers1 = fresh_timers (cl_token c) timers2 ->
  let conduct := fmap (fun '(r, c', w') => (r, c', w_sent w', w_deadlines w', w_slept w', w_rng w')) in
  conduct (call op c (set_timers timers1 (set_inbox inbox1 w))) =
  conduct (call op c (set_timers timers2 (set_inbox inbox2 w))).
Proof.
  intros Ht Hn mine Hf Hft conduct.
  assert (H : forall inbox timers,
    conduct (call op c (set_timers (fresh_timers (cl_token c) timers) (set_inbox (mine inbox) w))) =
    conduct (call op c (set_timers timers (set_inbox inbox w)))).
  { intros inbox timers.
    pose proof (attempts_fresh (cl_max_attempts c) (Wire_encode (WClient (call_request op c))) (cl_token c) 0
      (set_seq (cl_seq c +64 1) c) (set_timers timers (set_inbox inbox w)) ltac:(simpl; lia) Hn) as E.
    etransitivity; [exact (f_equal conduct E)|].
    change (call op c (set_timers timers (set_inbox inbox w))) with
      (attempts (cl_max_attempts c) (Wire_encode (WClient (call_request op c))) 0 (set_seq (cl_seq c +64 1) c)
        (set_timers timers (set_inbox inbox w))).
    clear E. by destruct (attempts _ _ _ _ _) as [[[r' c'] w']|]. }
  by rewrite <- (H inbox1), <- (H inbox2), Hf, Hft.
Qed.

Lemma late_events_change_nothing_witness :
  let c := Client_new 9 [1; 2; 3] in
  let conduct := fmap (fun '(r, c', w') => (r, c', w_sent w', w_deadlines w', w_slept w', w_rng w')) in
  conduct (call (Delete [7]) c (set_timers [0] (set_inbox [Packet (mkResponse 9 0 (Applied 3)); Timer 0;
    Packet (mkResponse 9 1 (Applied 5))] demo_world))) =
  conduct (call (Delete [7]) c (set_timers [] (set_inbox [Packet (mkResponse 9 1 (Applied 5))] demo_world))).
Proof. apply late_events_change_nothing; [by_decide|by_decide|vm_compute; reflexivity..]. Defined.

(** A crashed leader is asked for ever. While the session has a hint and hears
    nothing, every packet of a call goes to the hinted server, and the whole budget is
    spent on it: a timeout does not clear the hint, so the other servers are never
    tried, in this call or the next. *)
Theorem silence_keeps_the_hint {S : Type} `{!Rng S} op (c : Session) (w : World (S := S)) h :
  cl_leader_hint c = Some h -> Forall (fun e => is_timer e = true) (w_inbox w) ->
  exists c' w', call op c w = Some (CallUnknown, c', w') /\ cl_leader_hint c' = Some h /\
    w_sent w' = w_sent w ++ replicate (cl_max_attempts c) (h, Wire_encode (WClient (call_request op c))).
Proof.
  intros Hh Hf.
  destruct (attempts_silence (cl_max_attempts c) (Wire_encode (WClient (call_request op c))) 0
    (set_seq (cl_seq c +64 1) c) w h Hh Hf) as (c' & w' & E & Hh' & Hs & _).
  by exists c', w'.
Qed.

(** Twelve timeouts, twelve packets to the crashed server 2. *)
Lemma silence_keeps_the_hint_witness :
  let c := set_hint (Some 2) (Client_new 9 [1; 2; 3]) in
  let w := set_inbox (Timer <$> seqZ 1 5) demo_world in
  exists c' w', call (Delete [7]) c w = Some (CallUnknown, c', w') /\ cl_leader_hint c' = Some 2 /\
    w_sent w' = w_sent w ++ replicate 12 (2, Wire_encode (WClient (call_request (Delete [7]) c))).
Proof.
  intros c w. apply (silence_keeps_the_hint (Delete [7]) c w 2); [reflexivity|by_decide].
Defined.
