(* ===== verification/Workload.v ===== *)
(** * The workload of an experiment: [crates/chrono-oracle/src/scenario.rs]

    What the tasks of [run_with_probe] that are not servers do: the clients, which
    issue random reads and writes and record a history, and the membership
    controller, which asks for one change of the voters at a time. A turn of a
    client's loop gets from its environment what it cannot compute: whether the
    run has stopped, what its clock shows, and what comes to it during
    the call. *)

From Stdlib Require Import Ascii ZArith Lia.
From stdpp Require Import base tactics list list_numbers gmap sets sorting strings pretty.
From S2P Require Import Prelude Codec Types RaftLog Kernel Client Msg Kv Rng Time Session Fault Trace History Lin.

Open Scope Z_scope.

(** ** The configuration *)

Record ScenarioConfig : Type := mkScenarioConfig {
  sc_seed : Z;
  sc_servers : Z;
  sc_clients : Z;
  sc_keys : Z;
  sc_max_ops_per_client : nat;
  sc_think_time : Nanos;
  sc_duration : Nanos;
  sc_spares : Z;
  sc_reconfigure_every : option Nanos;
  sc_min_voters : nat;
  sc_recovery : Nanos;
  sc_policy : FaultPolicy;
  sc_read_percent : Z;
  sc_read_mode : ReadMode;
  sc_trace : TraceMode;
  sc_lease_reads : bool;
  sc_limits : Limits
}.

(** The default number of operations is a parameter, so that nothing computes with
    twenty thousand in unary. *)
Definition ScenarioConfig_default (max_ops : nat) : ScenarioConfig :=
  mkScenarioConfig 0 3 4 6 max_ops (Nanos_from_millis 25) (Nanos_from_secs (4 * 3600)) 0 None 3
    (Nanos_from_secs 120) nemesis 40 Client.Linearizable HashOnly false Limits_default.

Definition CLIENT_BASE : NodeId := 1000.

(** ** The clients *)

Definition workload_key (n : Z) : Bytes := string_bytes ("k" +:+ pretty (Z.to_N n)).

Definition workload_value (client i : Z) : Bytes :=
  string_bytes ("c" +:+ pretty (Z.to_N client) +:+ "-" +:+ pretty (Z.to_N i)).

(** What a call's result tells the history. *)
Definition ret_of (r : CallResult) : Ret :=
  match r with
  | CallOk (Client.Value v) => Ret_Value v
  | CallOk (Applied _) => Ret_Ok
  | CallOk (CasFailed _) => Ret_CasFailed
  | CallOk _ | CallUnknown => Ret_Unknown
  end.

Section Client.
Context {S : Type} `{!Rng S}.
Abbreviation World := (World (S := S)).

(** The jittered pause before an operation. *)
Definition think (cfg : ScenarioConfig) (w : World) : World :=
  if 0 <? sc_think_time cfg then
    let '(v, w) := draw_u64 w in
    sleep_for (sc_think_time cfg / 2 + v mod Z.max (sc_think_time cfg) 1) w
  else w.

(** Operation [i] of client [client]. *)
Definition choose (cfg : ScenarioConfig) (client i : Z) (w : World) : Client.Op * History.Op * World :=
  let '(v, w) := draw_u64 w in
  let key := workload_key (v mod Z.max (sc_keys cfg) 1) in
  let '(p, w) := draw_u64 w in
  if p mod 100 <? sc_read_percent cfg then (Get key (sc_read_mode cfg), Op_Read key, w)
  else
    let value := workload_value client i in
    (Put key value, Op_Write key value, w).

(** What a turn gets: the stop flag, the clock before and after the call, the
    things that come to the client while it waits, in their order. *)
Record Turn : Type := mkTurn {
  tn_stopped : bool;
  tn_invoked : Nanos;
  tn_returned : Nanos;
  tn_arrivals : list Coming
}.

(** One operation, recorded. *)
Definition operate (cfg : ScenarioConfig) (client i : Z) (t : Turn) (c : Session) (w : World) :
    option (Event * Session * World) :=
  let w := think cfg w in
  let '(op, hop, w) := choose cfg client i w in
  match call op c (set_inbox (w_inbox w ++ tn_arrivals t) w) with
  | None => None
  | Some (result, c, w) =>
      Some (mkEvent client hop (ret_of result) (tn_invoked t) (tn_returned t), c, w)
  end.

(** The loop; the list of turns ends where the run does. *)
Fixpoint workload (n : nat) (cfg : ScenarioConfig) (client i : Z) (turns : list Turn) (c : Session) (w : World)
    (history : list Event) : option (list Event) :=
  match n, turns with
  | Datatypes.S n, t :: turns =>
      if tn_stopped t then Some history
      else match operate cfg client i t c w with
           | None => None
           | Some (e, c, w) => workload n cfg client (i + 1) turns c w (History_push e history)
           end
  | _, _ => Some history
  end.

(** Client number [client] of the run. *)
Definition workload_client (cfg : ScenarioConfig) (client : Z) : Session :=
  Client_new client (seqZ 0 (sc_servers cfg))
  |> with_timeout (Nanos_from_millis 600) |> with_max_attempts 20.

Definition run_client (cfg : ScenarioConfig) (client : Z) (turns : list Turn) (w : World) : option (list Event) :=
  workload (sc_max_ops_per_client cfg) cfg client 0 turns (workload_client cfg client) w [].
End Client.

(** ** The membership controller *)

Record Controller : Type := mkController {
  ct_voters : gset NodeId;
  ct_learners : gset NodeId;
  ct_hint : option NodeId;
  ct_accepted : Z
}.

Definition Controller_new (cfg : ScenarioConfig) : Controller :=
  mkController (list_to_set (seqZ 0 (sc_servers cfg))) ∅ None 0.

(** The id that marks the controller's own timer in its inbox. *)
Definition NODE_MAX : NodeId := 4294967295.

Section Controller.
Context {S : Type} `{!Rng S}.

(** What the controller does to the world: packets sent, timers started, and the
    messages its inbox still holds or will get, oldest first. *)
Record AdminWorld : Type := mkAdminWorld {
  aw_rng : S;
  aw_sent : list (NodeId * Bytes);
  aw_timers : nat;
  aw_inbox : list (NodeId * AdminResult)
}.

Definition admin_u64 (w : AdminWorld) : Z * AdminWorld :=
  let '(v, g) := next_u64 (aw_rng w) in (v, mkAdminWorld g (aw_sent w) (aw_timers w) (aw_inbox w)).

(** A uniform element of a list, by [next_u64() % len]; [None] is the panic of an
    index out of range. *)
Definition pick {A} (l : list A) (w : AdminWorld) : option (A * AdminWorld) :=
  let '(v, w) := admin_u64 w in
  match l !! Z.to_nat (v mod Z.max (Z.of_nat (length l)) 1) with Some x => Some (x, w) | None => None end.

Definition send_change (hint : option NodeId) (voters : gset NodeId) (change : ConfigChange) (w : AdminWorld) :
    option (bool * option NodeId * AdminWorld) :=
  match (match hint with Some h => Some (h, w) | None => pick (sorted_elements voters) w end) with
  | None => None
  | Some (target, w) =>
      let rest := mkAdminWorld (aw_rng w) (aw_sent w ++ [(target, Wire_encode (WAdmin change))])
                    (aw_timers w + 1) (tail (aw_inbox w)) in
      Some (match head (aw_inbox w) with
            | Some (_, Accepted _) => (true, hint, rest)
            | Some (_, AdminNotLeader h) => (false, h, rest)
            | _ => (false, None, rest)
            end)
  end.

(** A change, and what the controller believes once it is accepted. *)
Definition propose_change (voters learners : gset NodeId) (change : ConfigChange) (c : Controller) (w : AdminWorld) :
    option (Controller * AdminWorld) :=
  match send_change (ct_hint c) (ct_voters c) change w with
  | None => None
  | Some (true, hint, w) => Some (mkController voters learners hint (ct_accepted c + 1), w)
  | Some (false, hint, w) => Some (mkController (ct_voters c) (ct_learners c) hint (ct_accepted c), w)
  end.

(** A round of the loop, after its sleep. *)
Definition controller_round (cfg : ScenarioConfig) (c : Controller) (w : AdminWorld) :
    option (Controller * AdminWorld) :=
  let voters := ct_voters c in
  let learners := ct_learners c in
  let outsiders := filter (fun id => (id ∉ voters) /\ (id ∉ learners)) (seqZ 0 (sc_servers cfg + sc_spares cfg)) in
  match head (sorted_elements learners) with
  | Some pending =>
      let target := voters ∪ {[pending]} in
      propose_change target (learners ∖ {[pending]}) (EnterJoint target ∅) c w
  | None =>
      let can_grow := negb (length outsiders =? 0)%nat in
      let can_shrink := (sc_min_voters cfg <? size voters)%nat in
      let '(grow, w) :=
        if can_grow then
          if negb can_shrink then (true, w)
          else let '(v, w) := admin_u64 w in (v mod 2 =? 0, w)
        else (false, w) in
      if (grow : bool) then
        match pick outsiders w with
        | None => None
        | Some (joining, w) => propose_change voters (learners ∪ {[joining]}) (EnterJoint voters {[joining]}) c w
        end
      else if can_shrink then
        match pick (sorted_elements voters) w with
        | None => None
        | Some (leaving, w) =>
            let target := voters ∖ {[leaving]} in
            if bool_decide (target = voters) || bool_decide (target = ∅) then Some (c, w)
            else propose_change target learners (EnterJoint target ∅) c w
        end
      else Some (c, w)
  end.

Fixpoint controller (rounds : nat) (cfg : ScenarioConfig) (c : Controller) (w : AdminWorld) :
    option (Controller * AdminWorld) :=
  match rounds with
  | O => Some (c, w)
  | Datatypes.S rounds =>
      match controller_round cfg c w with Some (c, w) => controller rounds cfg c w | None => None end
  end.
End Controller.

(** * Theorems *)

(** ** The values written *)

Fixpoint dashless (s : string) : Prop :=
  match s with EmptyString => True | String a s => a <> "-"%char /\ dashless s end.

Lemma dashless_go (x : N) s : dashless s -> dashless (pretty_N_go x s).
Proof.
  revert s. induction (N.lt_wf_0 x) as [x _ IH]; intros s Hs.
  destruct (decide (0 < x)%N) as [Hx|Hx]; [|by replace x with 0%N by lia].
  rewrite pretty_N_go_step by done. apply IH; [by apply N.div_lt|]. split; [|done].
  unfold pretty_N_char. by repeat case_match.
Qed.

Lemma dashless_pretty (x : N) : dashless (pretty x).
Proof. unfold pretty, pretty_N. case_decide; [done|by apply dashless_go]. Qed.

Lemma split_at_dash s1 s2 t1 t2 : dashless s1 -> dashless s2 ->
  s1 +:+ "-" +:+ t1 = s2 +:+ "-" +:+ t2 -> s1 = s2 /\ t1 = t2.
Proof.
  revert s2. induction s1 as [|a s1 IH]; intros [|b s2] H1 H2; simpl in *.
  - intros H. injection H as H. by split.
  - intros H. injection H as H _. by destruct H2.
  - intros H. injection H as H _. by destruct H1.
  - intros H. injection H as -> H. destruct H1 as [_ H1], H2 as [_ H2]. by destruct (IH _ H1 H2 H) as [-> ->].
Qed.

Lemma string_bytes_inj s1 s2 : string_bytes s1 = string_bytes s2 -> s1 = s2.
Proof.
  revert s2. induction s1 as [|a s1 IH]; intros [|b s2]; try done. intros [= Hab H].
  apply N2Z.inj in Hab. f_equal; [|by apply IH].
  by rewrite <- (Ascii.ascii_N_embedding a), <- (Ascii.ascii_N_embedding b), Hab.
Qed.

Lemma workload_value_inj c i c' i' : 0 <= c -> 0 <= i -> 0 <= c' -> 0 <= i' ->
  workload_value c i = workload_value c' i' -> c = c' /\ i = i'.
Proof.
  intros Hc Hi Hc' Hi' H. apply string_bytes_inj in H. injection H as H.
  apply split_at_dash in H as [E1 E2]; [|apply dashless_pretty..].
  apply (inj pretty) in E1, E2. lia.
Qed.

(** ** One client *)

(** The value an event writes. *)
Definition written (e : Event) : option Bytes :=
  match e_op e with Op_Write _ v => Some v | _ => None end.

(** What operation [i] of a client, in turn [t], may have left in the history;
    [heard] is what had come to the client by then. *)
Record op_ok (client i : Z) (t : Turn) (heard : list Coming) (e : Event) : Prop := {
  ok_client : e_client e = client;
  ok_invoked : invoked e = tn_invoked t;
  ok_returned : returned e = tn_returned t;
  ok_op : (exists k, e_op e = Op_Read k) \/ (exists k, e_op e = Op_Write k (workload_value client i));
  ok_ret : e_ret e = Ret_Unknown \/ exists resp, Packet resp ∈ heard /\
    rp_client_id resp = client /\ rp_seq resp = i + 1 /\ is_answer (rp_outcome resp) = true /\
    e_ret e = ret_of (CallOk (rp_outcome resp))
}.

Section ClientSpec.
Context {S : Type} `{!Rng S}.
Implicit Types w : World (S := S).

Lemma think_inbox cfg w : w_inbox (think cfg w) = w_inbox w.
Proof.
  unfold think. destruct (0 <? sc_think_time cfg); [|done]. unfold draw_u64. by destruct (next_u64 (w_rng w)).
Qed.

Lemma choose_spec cfg client i w : let '(op, hop, w') := choose cfg client i w in
  w_inbox w' = w_inbox w /\
  ((exists k, hop = Op_Read k) \/ (exists k, hop = Op_Write k (workload_value client i))).
Proof.
  unfold choose, draw_u64. destruct (next_u64 (w_rng w)) as [v g]. simpl. destruct (next_u64 g) as [p g'].
  destruct (p mod 100 <? sc_read_percent cfg); eauto.
Qed.

Lemma operate_spec cfg client i t c w (heard : list Coming) :
  session_ok c -> cl_id c = client -> cl_seq c = i -> 0 <= i < U64 - 1 -> w_inbox w ⊆ heard ->
  exists e c' w', operate cfg client i t c w = Some (e, c', w') /\
    session_ok c' /\ cl_id c' = client /\ cl_seq c' = i + 1 /\ w_inbox w' ⊆ heard ++ tn_arrivals t /\
    op_ok client i t (heard ++ tn_arrivals t) e.
Proof.
  intros Hok Hid Hseq Hi Hheard. unfold operate.
  pose proof (choose_spec cfg client i (think cfg w)) as Hc.
  destruct (choose cfg client i (think cfg w)) as [[op hop] w1]. destruct Hc as [Hw1 Hop].
  rewrite think_inbox in Hw1.
  destruct (attempts_spec (cl_max_attempts c) (Wire_encode (WClient (call_request op c))) 0
    (set_seq (cl_seq c +64 1) c) (set_inbox (w_inbox w1 ++ tn_arrivals t) w1) Hok (Z.le_refl 0))
    as (r & c' & w' & tos & used & waits & E & Hpr & Hok' & _ & _ & Ho).
  change (attempts _ _ 0 _ _) with (call op c (set_inbox (w_inbox w1 ++ tn_arrivals t) w1)) in E. rewrite E.
  pose proof (pr_used _ _ _ _ _ _ _ _ _ Hpr) as Hu. simpl in Hu. rewrite Hw1 in Hu.
  assert (Hsub : used ++ w_inbox w' ⊆ heard ++ tn_arrivals t) by (rewrite <- Hu; set_solver).
  exists (mkEvent client hop (ret_of r) (tn_invoked t) (tn_returned t)), c', w'.
  split; [done|]. split; [done|]. rewrite (pr_id _ _ _ _ _ _ _ _ _ Hpr), (pr_seq _ _ _ _ _ _ _ _ _ Hpr). simpl.
  assert (Es : cl_seq c +64 1 = i + 1) by (rewrite Hseq; apply wadd64_small; lia).
  split_and!; [done|done|set_solver|]. split; simpl; try done.
  destruct r as [o|]; [|by left]. right. destruct (Ho o eq_refl) as (resp & Hin & Hrid & Hrseq & <- & Ha).
  exists resp. simpl in Hrid, Hrseq. split_and!; [set_solver|congruence|congruence|done|done].
Qed.

(** What has come to a client by its [k]th turn. *)
Definition heard_by (k : nat) (turns : list Turn) (heard : list Coming) : list Coming :=
  heard ++ concat (map tn_arrivals (take (k + 1) turns)).

Lemma workload_spec n cfg client i turns c w heard history :
  session_ok c -> cl_id c = client -> cl_seq c = i -> 0 <= i -> i + Z.of_nat n < U64 -> w_inbox w ⊆ heard ->
  exists new, workload n cfg client i turns c w history = Some (history ++ new) /\ (length new <= n)%nat /\
    forall k e, new !! k = Some e -> exists t, turns !! k = Some t /\ tn_stopped t = false /\
      op_ok client (i + Z.of_nat k) t (heard_by k turns heard) e.
Proof.
  revert i turns c w heard history.
  induction n as [|n IH]; intros i turns c w heard history Hok Hid Hseq Hi Hn Hh.
  { exists []. simpl. rewrite app_nil_r. by split_and!. }
  destruct turns as [|t turns]; simpl; [exists []; rewrite app_nil_r; split_and!; simpl; (done || lia)|].
  destruct (tn_stopped t) eqn:Et; [exists []; rewrite app_nil_r; split_and!; simpl; (done || lia)|].
  destruct (operate_spec cfg client i t c w heard) as (e & c' & w' & -> & Hok' & Hid' & Hseq' & Hh' & He);
    [done..|lia|done|].
  destruct (IH (i + 1) turns c' w' (heard ++ tn_arrivals t) (History_push e history)) as (new & -> & Hl & Hnew);
    [done..|lia|lia|done|].
  exists (e :: new). unfold History_push. rewrite <- app_assoc. split; [done|]. split; [simpl; lia|].
  intros [|k] e' Hk; simpl in Hk.
  - injection Hk as <-. exists t. rewrite Z.add_0_r. unfold heard_by. simpl. rewrite app_nil_r. by split_and!.
  - destruct (Hnew k e' Hk) as (t' & Ht' & Hs' & Hop). exists t'. split_and!; [done..|].
    unfold heard_by in *. simpl. rewrite <- app_assoc in Hop.
    by replace (i + Z.of_nat (Datatypes.S k)) with (i + 1 + Z.of_nat k) by lia.
Qed.

Lemma workload_client_ok cfg client : 0 < sc_servers cfg -> session_ok (workload_client cfg client).
Proof.
  intros H. split; [|done]. simpl. intros E. apply (f_equal length) in E. rewrite length_seqZ in E. simpl in E. lia.
Qed.

Lemma run_client_spec cfg client turns w :
  0 < sc_servers cfg -> Z.of_nat (sc_max_ops_per_client cfg) < U64 ->
  exists history, run_client cfg client turns w = Some history /\
    (length history <= sc_max_ops_per_client cfg)%nat /\
    forall k e, history !! k = Some e -> exists t, turns !! k = Some t /\ tn_stopped t = false /\
      op_ok client (Z.of_nat k) t (heard_by k turns (w_inbox w)) e.
Proof.
  intros Hs Hn.
  exact (workload_spec _ cfg client 0 turns _ w (w_inbox w) [] (workload_client_ok cfg client Hs) eq_refl eq_refl
    (Z.le_refl 0) Hn (reflexivity _)).
Qed.

Lemma written_is_own client i t heard e v : op_ok client i t heard e -> written e = Some v -> v = workload_value client i.
Proof. intros H. unfold written. destruct (ok_op _ _ _ _ _ H) as [[k ->]|[k ->]]; congruence. Qed.

Lemma client_values_unique cfg client turns w history :
  0 < sc_servers cfg -> Z.of_nat (sc_max_ops_per_client cfg) < U64 -> 0 <= client ->
  run_client cfg client turns w = Some history ->
  NoDup (omap written history) /\
  forall v, v ∈ omap written history -> exists i, 0 <= i /\ v = workload_value client i.
Proof.
  intros Hs Hn Hc E. destruct (run_client_spec cfg client turns w Hs Hn) as (h & E' & _ & Hh).
  rewrite E in E'. injection E' as <-.
  assert (Hgen : forall l i, (forall k e, l !! k = Some e -> forall v, written e = Some v ->
      v = workload_value client (Z.of_nat (i + k))) ->
    NoDup (omap written l) /\ forall v, v ∈ omap written l -> exists j, (i <= j)%nat /\ v = workload_value client (Z.of_nat j)).
  { clear - Hc. induction l as [|e l IH]; intros i H; simpl; [split; [constructor|set_solver]|].
    destruct (IH (Datatypes.S i)) as [Hnd Hin].
    { intros k x Hx v Hv. replace (Datatypes.S i + k)%nat with (i + Datatypes.S k)%nat by lia. exact (H (Datatypes.S k) x Hx v Hv). }
    destruct (written e) as [v|] eqn:Ev.
    - specialize (H 0%nat e eq_refl v Ev). rewrite Nat.add_0_r in H. split.
      + constructor; [|done]. intros Hv. destruct (Hin v Hv) as (j & Hj & ->).
        apply workload_value_inj in H as [_ H]; lia.
      + intros v'. rewrite elem_of_cons. intros [-> |Hv']; [exists i; auto|].
        destruct (Hin v' Hv') as (j & Hj & ->). exists j. split; [lia|done].
    - split; [done|]. intros v Hv. destruct (Hin v Hv) as (j & Hj & ->). exists j. split; [lia|done]. }
  destruct (Hgen history 0%nat) as [H1 H2].
  { intros k e Hk v Hv. destruct (Hh k e Hk) as (t & _ & _ & Hop). exact (written_is_own _ _ _ _ _ _ Hop Hv). }
  split; [done|]. intros v Hv. destruct (H2 v Hv) as (j & _ & ->). exists (Z.of_nat j). split; [lia|done].
Qed.
End ClientSpec.

(** What the oracle reads is what the clients saw. A client never panics, none of its
    calls waits for ever, and
    its history is one event for each turn before the run stopped: the window its
    clock showed, a read or the write of its own next value, and as an answer
    either "unknown" or what a reply to this very request said, one that was
    received and was neither a redirect nor a refusal. *)
Theorem clients_record_what_they_saw {S : Type} `{!Rng S} cfg client turns (w : World (S := S)) :
  0 < sc_servers cfg -> Z.of_nat (sc_max_ops_per_client cfg) < U64 ->
  exists history, run_client cfg client turns w = Some history /\
    (length history <= sc_max_ops_per_client cfg)%nat /\
    forall k e, history !! k = Some e -> exists t, turns !! k = Some t /\ tn_stopped t = false /\
      op_ok client (Z.of_nat k) t (heard_by k turns (w_inbox w)) e.
Proof. apply run_client_spec. Qed.

(** Two turns: the first answered, the second not. *)
Definition demo_turns : list Turn :=
  [mkTurn false 10 20 [Packet (mkResponse 1 1 (Applied 4))]; mkTurn false 30 40 []; mkTurn true 50 50 []].

Lemma clients_record_what_they_saw_witness :
  let cfg := ScenarioConfig_default 5 in
  exists history, run_client cfg 1 demo_turns (set_inbox [] demo_world) = Some history /\
    (length history <= 5)%nat /\
    forall k e, history !! k = Some e -> exists t, demo_turns !! k = Some t /\ tn_stopped t = false /\
      op_ok 1 (Z.of_nat k) t (heard_by k demo_turns []) e.
Proof. apply (clients_record_what_they_saw (ScenarioConfig_default 5) 1 demo_turns (set_inbox [] demo_world)); by_decide. Defined.

(** Every write of a run writes a value of its own, whoever issued it and
    however the run went: a read in the history names the one write it saw, which
    is what lets the checker tell a stale read from a fresh one. *)
Theorem every_write_is_distinct {S : Type} `{!Rng S} cfg (runs : list (Z * list Event)) :
  0 < sc_servers cfg -> Z.of_nat (sc_max_ops_per_client cfg) < U64 ->
  NoDup (map fst runs) -> Forall (fun r => 0 <= r.1) runs ->
  Forall (fun r => exists turns (w : World (S := S)), run_client cfg r.1 turns w = Some r.2) runs ->
  NoDup (omap written (concat (map snd runs))).
Proof.
  intros Hs Hn. induction runs as [|[c h] runs IH]; simpl; [constructor|].
  intros [Hc Hnd]%NoDup_cons [Hc0 Hpos]%Forall_cons [(turns & w & E) Hrun]%Forall_cons. simpl in *.
  destruct (client_values_unique cfg c turns w h Hs Hn Hc0 E) as [Hh Hv].
  rewrite omap_app. apply NoDup_app. split_and!; [done| |by apply IH].
  intros v Hin Hin'. destruct (Hv v Hin) as (i & Hi & ->).
  clear IH Hnd. induction runs as [|[c' h'] runs IH]; simpl in Hin'; [set_solver|].
  apply Forall_cons in Hpos as [Hc0' Hpos]. apply Forall_cons in Hrun as [(turns' & w' & E') Hrun]. simpl in *.
  rewrite omap_app in Hin'. apply elem_of_app in Hin' as [Hin'|Hin']; [|apply IH; set_solver].
  destruct (client_values_unique cfg c' turns' w' h' Hs Hn Hc0' E') as [_ Hv'].
  destruct (Hv' _ Hin') as (i' & Hi' & Heq). apply workload_value_inj in Heq as [-> _]; [|done..]. set_solver.
Qed.

Definition quiet_world : World := mkWorld (Xoshiro_from_seed 0) [] [] [] [] [].

Definition demo_history (client : Z) : list Event :=
  from_option id [] (run_client (ScenarioConfig_default 5) client demo_turns quiet_world).

Lemma every_write_is_distinct_witness :
  let runs := [(1, demo_history 1); (2, demo_history 2)] in
  (length (omap written (concat (map snd runs))) = 4)%nat /\ NoDup (omap written (concat (map snd runs))).
Proof.
  split; [vm_compute; reflexivity|].
  apply (every_write_is_distinct (ScenarioConfig_default 5)); [by_decide..|].
  repeat constructor; exists demo_turns, quiet_world; vm_compute; reflexivity.
Defined.

(** ** The controller *)

Definition all_servers (cfg : ScenarioConfig) : gset NodeId :=
  list_to_set (seqZ 0 (sc_servers cfg + sc_spares cfg)).

Record controller_ok (cfg : ScenarioConfig) (c : Controller) : Prop := {
  ctl_voters : ct_voters c ⊆ all_servers cfg;
  ctl_learners : ct_learners c ⊆ all_servers cfg;
  ctl_apart : ct_voters c ## ct_learners c;
  ctl_enough : (Nat.min (sc_min_voters cfg) (Z.to_nat (sc_servers cfg)) <= size (ct_voters c))%nat;
  ctl_some : ct_voters c <> ∅
}.

(** A change of one voter, or of none. *)
Definition one_step (voters : gset NodeId) (change : ConfigChange) : Prop :=
  match change with
  | EnterJoint incoming learners =>
      (incoming = voters /\ exists x, ~ x ∈ voters /\ learners = {[x]}) \/
      (exists x, ~ x ∈ voters /\ incoming = voters ∪ {[x]} /\ learners = ∅) \/
      (exists x, x ∈ voters /\ incoming = voters ∖ {[x]} /\ incoming <> ∅ /\ learners = ∅)
  | LeaveJoint => False
  end.

Lemma size_without (s : gset NodeId) x : x ∈ s -> (size s = size (s ∖ {[x]}) + 1)%nat.
Proof.
  intros Hx. rewrite <- (size_singleton (C := gset NodeId) x), <- size_union by set_solver. f_equal.
  apply set_eq. intros y. destruct (decide (y = x)); set_solver.
Qed.

(** A majority of the voters before and one of those after share a member. *)
Lemma one_step_overlaps voters incoming learners (A B : gset NodeId) :
  one_step voters (EnterJoint incoming learners) ->
  A ⊆ voters -> (size voters < 2 * size A)%nat -> B ⊆ incoming -> (size incoming < 2 * size B)%nat ->
  A ∩ B <> ∅.
Proof.
  intros H HA Ha HB Hb E.
  assert (Hd : A ## B) by set_solver.
  pose proof (size_union A B Hd) as Hs.
  assert (Hle : forall U : gset NodeId, A ⊆ U -> B ⊆ U -> (size A + size B <= size U)%nat).
  { intros U HU1 HU2. rewrite <- Hs. apply subseteq_size. set_solver. }
  destruct H as [[-> _]|[(x & Hx & -> & _)|(x & Hx & -> & _ & _)]].
  - specialize (Hle voters HA HB). lia.
  - rewrite size_union, size_singleton in Hb by set_solver.
    specialize (Hle (voters ∪ {[x]}) ltac:(set_solver) HB).
    rewrite size_union, size_singleton in Hle by set_solver. lia.
  - specialize (Hle voters HA ltac:(set_solver)).
    pose proof (size_without _ _ Hx). lia.
Qed.

#[global] Typeclasses Opaque all_servers.

(** The three ways the controller's beliefs move. *)
Lemma promoted_ok cfg c x hint n : controller_ok cfg c -> x ∈ ct_learners c ->
  controller_ok cfg (mkController (ct_voters c ∪ {[x]}) (ct_learners c ∖ {[x]}) hint n).
Proof.
  intros [Hv Hl Ha He Hs] Hx. assert (~ x ∈ ct_voters c) by (intros ?; by apply (Ha x)).
  split; simpl; [set_solver|set_solver|set_solver| |set_solver].
  rewrite size_union, size_singleton by set_solver. lia.
Qed.

Lemma joined_ok cfg c x hint n : controller_ok cfg c -> ct_learners c = ∅ -> ~ x ∈ ct_voters c ->
  x ∈ seqZ 0 (sc_servers cfg + sc_spares cfg) ->
  controller_ok cfg (mkController (ct_voters c) (ct_learners c ∪ {[x]}) hint n).
Proof.
  intros [Hv Hl Ha He Hs] -> Hx Hin. split; simpl; try done; [|set_solver].
  intros y Hy. assert (y = x) as -> by set_solver. by apply elem_of_list_to_set.
Qed.

Lemma shrunk_ok cfg c x hint n : controller_ok cfg c -> x ∈ ct_voters c ->
  (sc_min_voters cfg < size (ct_voters c))%nat -> ct_voters c ∖ {[x]} <> ∅ ->
  controller_ok cfg (mkController (ct_voters c ∖ {[x]}) (ct_learners c) hint n).
Proof.
  intros [Hv Hl Ha He Hs] Hx Hmin Hne. pose proof (size_without _ _ Hx).
  split; simpl; [set_solver|done|set_solver|lia|done].
Qed.

Section ControllerSpec.
Context {S : Type} `{!Rng S}.
Implicit Types w : AdminWorld (S := S).

Lemma pick_spec {A} (l : list A) w : l <> [] ->
  exists x g, pick l w = Some (x, mkAdminWorld g (aw_sent w) (aw_timers w) (aw_inbox w)) /\ x ∈ l.
Proof.
  intros Hl. unfold pick, admin_u64. destruct (next_u64 (aw_rng w)) as [v g].
  destruct (lookup_lt_is_Some_2 l (Z.to_nat (v mod Z.max (Z.of_nat (length l)) 1))) as [x Ex].
  { destruct l; [done|]. simpl length.
    pose proof (Z.mod_pos_bound v (Z.max (Z.of_nat (Datatypes.S (length l))) 1) ltac:(lia)). lia. }
  rewrite Ex. exists x, g. split; [done|]. by eapply list_elem_of_lookup_2.
Qed.

Definition accepted (m : NodeId * AdminResult) : bool := match m.2 with Accepted _ => true | _ => false end.

(** One packet, one timer, and the oldest message of the inbox for an answer. *)
Lemma send_change_spec hint voters change w : voters <> ∅ ->
  exists to hint' g, send_change hint voters change w =
    Some (from_option accepted false (head (aw_inbox w)), hint',
      mkAdminWorld g (aw_sent w ++ [(to, Wire_encode (WAdmin change))]) (aw_timers w + 1) (tail (aw_inbox w))) /\
    (hint = Some to \/ to ∈ voters).
Proof.
  intros Hv. unfold send_change.
  assert (H : exists to g, match hint with Some h => Some (h, w) | None => pick (sorted_elements voters) w end =
    Some (to, mkAdminWorld g (aw_sent w) (aw_timers w) (aw_inbox w)) /\ (hint = Some to \/ to ∈ voters)).
  { destruct hint as [h|]; [exists h, (aw_rng w); destruct w; auto|].
    destruct (pick_spec (sorted_elements voters) w) as (to & g & -> & Hin).
    - intros E. apply Hv. rewrite <- (list_to_set_sorted_elements voters). by rewrite E.
    - exists to, g. rewrite elem_of_sorted_elements in Hin. auto. }
  destruct H as (to & g & -> & Hto). exists to. simpl.
  destruct (head (aw_inbox w)) as [[from [i|h|]]|]; simpl; eauto.
Qed.

(** What a proposal does. *)
Lemma propose_change_spec voters learners change c w : ct_voters c <> ∅ ->
  exists c' to g, propose_change voters learners change c w = Some (c',
      mkAdminWorld g (aw_sent w ++ [(to, Wire_encode (WAdmin change))]) (aw_timers w + 1) (tail (aw_inbox w))) /\
    (ct_hint c = Some to \/ to ∈ ct_voters c) /\
    ((from_option accepted false (head (aw_inbox w)) = true /\ ct_voters c' = voters /\ ct_learners c' = learners) \/
     (from_option accepted false (head (aw_inbox w)) = false /\
       ct_voters c' = ct_voters c /\ ct_learners c' = ct_learners c)).
Proof.
  intros Hv. unfold propose_change.
  destruct (send_change_spec (ct_hint c) (ct_voters c) change w Hv) as (to & hint' & g & -> & Hto).
  destruct (from_option accepted false (head (aw_inbox w))).
  - exists (mkController voters learners hint' (ct_accepted c + 1)), to, g. split_and!; [done..|by left].
  - exists (mkController (ct_voters c) (ct_learners c) hint' (ct_accepted c)), to, g. split_and!; [done..|by right].
Qed.

(** A round from belief [c]: it sends nothing and changes nothing; or it sends one packet,
    to the server hinted at or to a voter it believes in, which asks for a change of at
    most one voter of those it believes in. It then believes in what it asked for if the
    oldest message of its inbox is an acceptance, and in what it did before if not. *)
Definition round_moves (c : Controller) w (c' : Controller) w' : Prop :=
  (aw_sent w' = aw_sent w /\ c' = c) \/
  exists to incoming learners,
    aw_sent w' = aw_sent w ++ [(to, Wire_encode (WAdmin (EnterJoint incoming learners)))] /\
    (ct_hint c = Some to \/ to ∈ ct_voters c) /\ one_step (ct_voters c) (EnterJoint incoming learners) /\
    if from_option accepted false (head (aw_inbox w)) then ct_voters c' = incoming
    else ct_voters c' = ct_voters c /\ ct_learners c' = ct_learners c.

Lemma proposal_ok cfg c w g0 learners incoming joining :
  controller_ok cfg c -> one_step (ct_voters c) (EnterJoint incoming joining) ->
  (forall hint n, controller_ok cfg (mkController incoming learners hint n)) ->
  let w0 := mkAdminWorld g0 (aw_sent w) (aw_timers w) (aw_inbox w) in
  exists c' w', propose_change incoming learners (EnterJoint incoming joining) c w0 = Some (c', w') /\
    controller_ok cfg c' /\ round_moves c w c' w'.
Proof.
  intros Hok H1 Hnew w0. destruct (propose_change_spec incoming learners (EnterJoint incoming joining) c w0
    (ctl_some _ _ Hok)) as (c' & to & g & E & Hto & Hc). do 2 eexists. split; [exact E|]. split.
  - destruct c' as [v' l' h' n']. simpl in Hc. destruct Hc as [(_ & -> & ->)|(_ & -> & ->)]; [apply Hnew|].
    by destruct Hok; split.
  - right. exists to, incoming, joining. split_and!; [done..|]. change (aw_inbox w0) with (aw_inbox w) in Hc. by destruct Hc as [(-> & -> & _)|(-> & -> & ->)].
Qed.

Lemma controller_round_spec cfg c w : controller_ok cfg c ->
  exists c' w', controller_round cfg c w = Some (c', w') /\ controller_ok cfg c' /\ round_moves c w c' w'.
Proof.
  intros Hok. unfold controller_round. destruct (head (sorted_elements (ct_learners c))) as [x|] eqn:Eh.
  - assert (Hx : x ∈ ct_learners c).
    { apply elem_of_sorted_elements. destruct (sorted_elements _); [done|]. injection Eh as ->. left. }
    assert (Hxv : x ∉ ct_voters c) by (intros ?; by apply (ctl_apart _ _ Hok x)).
    pose proof (proposal_ok cfg c w (aw_rng w) (ct_learners c ∖ {[x]}) (ct_voters c ∪ {[x]}) ∅ Hok)
      as Hgo. cbv zeta in Hgo.
    replace (mkAdminWorld _ _ _ _) with w in Hgo by (by destruct w). apply Hgo; [by right; left; exists x|].
    intros hint n. by apply promoted_ok.
  - assert (Hno : ct_learners c = ∅).
    { rewrite <- (list_to_set_sorted_elements (ct_learners c)). by destruct (sorted_elements _). }
    set (outsiders := filter _ (seqZ 0 _)). set (can_shrink := (sc_min_voters cfg <? size (ct_voters c))%nat).
    destruct (if negb (length outsiders =? 0)%nat then _ else (false, w)) as [grow w1] eqn:Eg.
    assert (Hw1 : exists g, w1 = mkAdminWorld g (aw_sent w) (aw_timers w) (aw_inbox w)).
    { unfold admin_u64 in Eg. destruct (next_u64 (aw_rng w)) as [v g]. destruct w.
      repeat case_match; injection Eg as <- <-; eauto. }
    assert (Hgrow : grow = true -> outsiders <> []).
    { intros -> ->. simpl in Eg. discriminate. }
    destruct Hw1 as [g1 ->]. destruct grow.
    + destruct (pick_spec outsiders (mkAdminWorld g1 (aw_sent w) (aw_timers w) (aw_inbox w)) (Hgrow eq_refl))
        as (x & g2 & -> & Hx). apply list_elem_of_filter in Hx as [[Hxv Hxl] Hx].
      apply (proposal_ok cfg c w g2); [done|by left; split; [|exists x]|]. intros hint n. by apply joined_ok.
    + destruct can_shrink eqn:Es; [|by exists c, (mkAdminWorld g1 (aw_sent w) (aw_timers w) (aw_inbox w)); split_and!; [..|by left]].
      destruct (pick_spec (sorted_elements (ct_voters c)) (mkAdminWorld g1 (aw_sent w) (aw_timers w) (aw_inbox w)))
        as (x & g2 & -> & Hx).
      { intros E. apply (ctl_some _ _ Hok). rewrite <- (list_to_set_sorted_elements (ct_voters c)). by rewrite E. }
      apply elem_of_sorted_elements in Hx.
      case_bool_decide as Hsame; simpl; [set_solver|]. case_bool_decide as Hempty; simpl.
      { by exists c, (mkAdminWorld g2 (aw_sent w) (aw_timers w) (aw_inbox w)); split_and!; [..|by left]. }
      apply (proposal_ok cfg c w g2); [done|by right; right; exists x|]. intros hint n. apply shrunk_ok; [done..| |done].
      by apply Nat.ltb_lt.
Qed.

Lemma Controller_new_ok cfg : 0 < sc_servers cfg -> 0 <= sc_spares cfg -> controller_ok cfg (Controller_new cfg).
Proof.
  intros Hs Hp. split; simpl.
  - intros x. unfold all_servers. rewrite !elem_of_list_to_set, !elem_of_seqZ. lia.
  - set_solver.
  - set_solver.
  - rewrite size_list_to_set by apply NoDup_seqZ. rewrite length_seqZ. lia.
  - intros E. assert (H : 0 ∈ (list_to_set (seqZ 0 (sc_servers cfg)) : gset NodeId)); [|set_solver].
    rewrite elem_of_list_to_set, elem_of_seqZ. lia.
Qed.

Lemma controller_snoc n cfg c w : controller (Datatypes.S n) cfg c w =
  match controller n cfg c w with Some (c, w) => controller_round cfg c w | None => None end.
Proof.
  revert c w. induction n as [|n IH]; intros c w; [simpl; by destruct (controller_round cfg c w) as [[]|]|].
  change (controller (Datatypes.S (Datatypes.S n)) cfg c w) with
    (match controller_round cfg c w with Some (c, w) => controller (Datatypes.S n) cfg c w | None => None end).
  cbn [controller]. destruct (controller_round cfg c w) as [[c1 w1]|]; [apply IH|done].
Qed.

Lemma controller_spec n cfg c w : controller_ok cfg c ->
  exists c' w', controller n cfg c w = Some (c', w') /\ controller_ok cfg c'.
Proof.
  intros Hok. induction n as [|n (c1 & w1 & E & Hok1)]; [by exists c, w|]. rewrite controller_snoc, E.
  destruct (controller_round_spec cfg c1 w1 Hok1) as (c' & w' & E' & Hok' & _). by exists c', w'.
Qed.

(** Changes sent one after the other, and how each seemed to be answered. *)
Fixpoint send_changes (hint : option NodeId) (voters : gset NodeId) (changes : list ConfigChange) w :
    option (list bool) :=
  match changes with
  | [] => Some []
  | change :: changes =>
      match send_change hint voters change w with
      | None => None
      | Some (answer, hint, w) => cons answer <$> send_changes hint voters changes w
      end
  end.

Lemma send_changes_reads_in_order hint voters changes w : voters <> ∅ -> (length changes <= length (aw_inbox w))%nat ->
  send_changes hint voters changes w = Some (map accepted (take (length changes) (aw_inbox w))).
Proof.
  intros Hv. revert hint w. induction changes as [|change changes IH]; intros hint w Hl; simpl; [done|].
  destruct (send_change_spec hint voters change w Hv) as (to & hint' & g & -> & _).
  destruct w as [g0 sent timers [|m inbox]]; simpl in *; [lia|].
  rewrite IH by (simpl; lia). done.
Qed.
End ControllerSpec.


Definition growing : ScenarioConfig :=
  mkScenarioConfig 0 3 0 6 0 0 0 2 (Some (Nanos_from_secs 10)) 3 0 nemesis 40 Client.Linearizable HashOnly false
    Limits_default.

Definition admin_world (inbox : list (NodeId * AdminResult)) : AdminWorld :=
  mkAdminWorld (Xoshiro_from_seed 1) [] 0 inbox.


(** With two acceptances it has grown the cluster by one voter. *)
Example growing_grows :
  (fun '(c, w) => (sorted_elements (ct_voters c), length (aw_sent w))) <$>
    controller 2 growing (Controller_new growing) (admin_world [(0, Accepted 5); (1, Accepted 6)]) =
  Some ([0; 1; 2; 4], 2%nat).
Proof. vm_compute. reflexivity. Qed.

(** The controller is always one answer behind. Its timer for a change is not
    cancelled when the change is answered, and what the timer puts into the inbox
    carries nothing that tells it from the answer to the next change. If every
    change is answered before its timer fires, the second, fourth, and every
    other change is taken for rejected, and the answer a change gets is read as
    the answer to a later one. *)
Theorem answers_go_to_the_wrong_change {S : Type} `{!Rng S} hint voters changes
    (replies : list (NodeId * AdminResult)) (w : AdminWorld (S := S)) :
  voters <> ∅ -> (length changes <= length replies)%nat ->
  aw_inbox w = concat (map (fun r => [r; (NODE_MAX, Rejected)]) replies) ->
  exists answers, send_changes hint voters changes w = Some answers /\ length answers = length changes /\
    forall k, (2 * k < length changes -> answers !! (2 * k) = accepted <$> replies !! k)%nat /\
      (2 * k + 1 < length changes -> answers !! (2 * k + 1) = Some false)%nat.
Proof.
  intros Hv Hl Hi.
  assert (Hlen : length (concat (map (fun r => [r; (NODE_MAX, Rejected)]) replies)) = (2 * length replies)%nat).
  { clear. induction replies as [|r replies IH]; [done|]. simpl in *. lia. }
  assert (Hat : forall k, concat (map (fun r => [r; (NODE_MAX, Rejected)]) replies) !! (2 * k)%nat = replies !! k /\
    ((k < length replies)%nat -> concat (map (fun r => [r; (NODE_MAX, Rejected)]) replies) !! (2 * k + 1)%nat = Some (NODE_MAX, Rejected))).
  { clear. induction replies as [|r replies IH]; [by split; [|simpl; lia]|]. intros [|k]; [by split|].
    replace (2 * Datatypes.S k)%nat with (Datatypes.S (Datatypes.S (2 * k))) by lia.
    destruct (IH k) as [H1 H2]. simpl. split; [exact H1|]. intros H. apply H2. lia. }
  eexists. rewrite send_changes_reads_in_order, Hi by (done || (rewrite Hi, Hlen; lia)). split; [done|].
  rewrite length_map, length_take, Hlen. split; [lia|]. intros k. destruct (Hat k) as [H1 H2].
  split; intros Hk; rewrite list_lookup_fmap, lookup_take_lt by done; [by rewrite H1|by rewrite H2 by lia].
Qed.

Lemma answers_go_to_the_wrong_change_witness :
  let replies := [(0, Accepted 5); (0, Accepted 9); (0, Accepted 12)] in
  exists answers, send_changes None {[0; 1; 2]} (replicate 3 (EnterJoint {[0; 1; 2; 3]} ∅))
      (admin_world (concat (map (fun r => [r; (NODE_MAX, Rejected)]) replies))) = Some answers /\
    length answers = 3%nat /\
    forall k, (2 * k < 3 -> answers !! (2 * k) = accepted <$> replies !! k)%nat /\
      (2 * k + 1 < 3 -> answers !! (2 * k + 1) = Some false)%nat.
Proof. apply answers_go_to_the_wrong_change; [set_solver|simpl; lia|reflexivity]. Defined.
