(* ===== verification/Scenario.v ===== *)
(** * One experiment: [crates/chrono-oracle/src/scenario.rs]

    [run_with_probe]: the simulator is run in slices of virtual time, every oracle
    looks at the cluster between two slices, then the faults stop, everything
    is healed and restarted, and the cluster is watched while it recovers; the
    history goes to the linearizability checker and a report is made. The harness
    is written against the class [Simulator], what it uses of [Sim] and of the
    cells it shares with the tasks; [SimulatorLaws] is what it relies on, and the
    kernel of [Sim] is proved to be an instance. *)

From Stdlib Require Import ZArith Lia.
From stdpp Require Import base tactics list list_numbers gmap sets sorting strings.
From S2P Require Import Prelude Codec Types RaftLog Trace Fault Kernel Sim KernelRun Time Driver Invariants InvSpec Liveness History Lin LinSearch LinSpec Workload.

Open Scope Z_scope.

(** ** What the harness uses *)

(** The handles of the nodes: the generation the observer counted, and the state
    the node shares. *)
Abbreviation Handles := (gmap NodeId (Z * PublicState)).

Class Simulator (W : Type) : Type := {
  sim_now : W -> Nanos;
  sim_run_until : Nanos -> W -> option (Sim.Outcome * W);
  sim_set_chaos : bool -> W -> W;
  sim_heal_all : W -> W;
  sim_restart : NodeId -> W -> option W;
  sim_is_up : NodeId -> W -> bool;
  sim_alive_servers : W -> nat;
  sim_has_partitions : W -> bool;
  sim_trace_hash : W -> Z;
  sim_events : W -> Z;
  sim_handles : W -> Handles;
  sim_inflight : W -> Z;
  sim_finished : W -> Z;
  sim_stop_clients : W -> W;
  sim_history : W -> list Event;
  sim_reconfigurations : W -> Z
}.

(** ** The report *)

Record RunReport : Type := mkRunReport {
  rp_seed : Z;
  rp_outcome : Sim.Outcome;
  rp_trace_hash : Z;
  rp_events : Z;
  rp_virtual_time : Nanos;
  rp_history : list Event;
  rp_linearizability : Verdict;
  rp_invariants : Invariants;
  rp_watchdog : Watchdog;
  rp_ops_ok : Z;
  rp_ops_unknown : Z;
  rp_reconfigurations : Z;
  rp_ok : bool
}.

(** Why a run failed; the text is left out. *)
Inductive Failure : Type :=
| FOutcome (o : Sim.Outcome)
| FHistory (v : Verdict)
| FInvariants (inv : Invariants)
| FLiveness (w : Watchdog).

Definition failure (r : RunReport) : option Failure :=
  if is_failure (rp_outcome r) then Some (FOutcome (rp_outcome r))
  else if is_violation (rp_linearizability r) then Some (FHistory (rp_linearizability r))
  else if negb (ok (rp_invariants r)) then Some (FInvariants (rp_invariants r))
  else if negb (Watchdog_ok (rp_watchdog r)) then Some (FLiveness (rp_watchdog r))
  else None.

(** ** The run *)

Section Harness.
Context {W : Type} `{!Simulator W}.

Definition with_generation (g : Z) (s : PublicState) : PublicState :=
  mkPublicState (ps_published s) g (up s) (recovered s) (driver_error s).
Definition with_up (u : bool) (s : PublicState) : PublicState :=
  mkPublicState (ps_published s) (generation s) u (recovered s) (driver_error s).

Definition collect (w : W) : ClusterView := (fun h => with_generation h.1 h.2) <$> sim_handles w.

Definition collect_live (w : W) : ClusterView :=
  map_imap (fun id s => Some (with_up (sim_is_up id w) s)) (collect w).

(** Whether a majority of the current voters is running. *)
Definition quorum_alive (view : ClusterView) (w : W) (fallback : Z) : bool :=
  let members := ClusterView_members view in
  if bool_decide (members = ∅) then fallback <? Z.of_nat (sim_alive_servers w) * 2
  else
    let alive := length (filter (fun id => sim_is_up id w = true) (elements members)) in
    (size members <? alive * 2)%nat.

(** What the loops carry. *)
Record Run : Type := mkRun {
  rn_world : W;
  rn_invariants : Invariants;
  rn_watchdog : Watchdog;
  rn_outcome : Sim.Outcome
}.

Definition run_failed (st : Run) : bool := is_failure (rn_outcome st) || negb (ok (rn_invariants st)).

(** One slice, up to [until], and what the oracles make of it; [healthy] and
    [pending] are the watchdog's arguments. *)
Definition sample (cfg : ScenarioConfig) (slice until : Nanos) (healthy : ClusterView -> W -> bool)
    (pending : W -> bool) (st : Run) : option Run :=
  let target := Z.min (Nanos_add (sim_now (rn_world st)) slice) until in
  match sim_run_until target (rn_world st) with
  | None => None
  | Some (outcome, w) =>
      let view := collect_live w in
      Some (mkRun w (Invariants_check (rn_invariants st) view)
        (observe (rn_watchdog st)
          (mkObservation (sim_now w) view (healthy view w) (pending w) (sc_servers cfg)))
        outcome)
  end.

Definition sample_run (cfg : ScenarioConfig) (slice : Nanos) : Run -> option Run :=
  sample cfg slice (sc_duration cfg)
    (fun view w => negb (sim_has_partitions w) && quorum_alive view w (sc_servers cfg))
    (fun w => 0 <? sim_inflight w).

Definition sample_recovery (cfg : ScenarioConfig) (slice deadline : Nanos) : Run -> option Run :=
  sample cfg slice deadline (fun _ _ => true) (fun _ => false).

(** [while sim.now() < until], with the number of slices it may take. *)
Fixpoint watch (slices : nat) (until : Nanos) (step : Run -> option Run) (enough : Run -> bool) (st : Run) :
    option Run :=
  if sim_now (rn_world st) <? until then
    match slices with
    | O => None
    | S slices =>
        match step st with
        | None => None
        | Some st => if run_failed st || enough st then Some st else watch slices until step enough st
        end
    end
  else Some st.

Definition restart_servers (cfg : ScenarioConfig) (w : W) : option W :=
  fold_left (fun w id => match w with
                         | Some w => if sim_is_up id w then Some w else sim_restart id w
                         | None => None
                         end) (seqZ 0 (sc_servers cfg)) (Some w).

(** Stop the chaos, heal, restart, and watch. *)
Definition recover (slices : nat) (cfg : ScenarioConfig) (slice : Nanos) (st : Run) : option Run :=
  match restart_servers cfg (sim_heal_all (sim_set_chaos false (rn_world st))) with
  | None => None
  | Some w =>
      let deadline := Nanos_add (sim_now w) (sc_recovery cfg) in
      watch slices deadline (sample_recovery cfg slice deadline) (fun _ => false)
        (mkRun w (rn_invariants st) (rn_watchdog st) (rn_outcome st))
  end.

(** The observation loop and the recovery, from the booted simulator. *)
Definition experiment (slices : nat) (cfg : ScenarioConfig) (slice : Nanos) (w : W) : option Run :=
  match watch slices (sc_duration cfg) (sample_run cfg slice)
          (fun st => sim_finished (rn_world st) =? sc_clients cfg)
          (mkRun w Invariants_new (Watchdog_new Budget_default) HorizonReached) with
  | None => None
  | Some st =>
      let st := mkRun (sim_stop_clients (rn_world st)) (rn_invariants st) (rn_watchdog st) (rn_outcome st) in
      if run_failed st then Some st else recover slices cfg slice st
  end.

Definition run_with_probe (slices : nat) (cfg : ScenarioConfig) (slice : Nanos) (w : W) : option RunReport :=
  match experiment slices cfg slice w with
  | None => None
  | Some st =>
      let w := rn_world st in
      let history := sim_history w in
      let ops_unknown := Z.of_nat (unknown_count history) in
      match check history (sc_limits cfg) with
      | None => None
      | Some verdict =>
          Some (mkRunReport (sc_seed cfg) (rn_outcome st) (sim_trace_hash w) (sim_events w) (sim_now w) history
            verdict (rn_invariants st) (rn_watchdog st) (Z.of_nat (length history) - ops_unknown) ops_unknown
            (sim_reconfigurations w)
            (negb (is_failure (rn_outcome st)) && ok (rn_invariants st) && Watchdog_ok (rn_watchdog st)
              && negb (is_violation verdict)))
      end
  end.
End Harness.

(** ** The determinism guard *)

Record DeterminismReport : Type := mkDeterminismReport {
  dr_seed : Z;
  hash_a : Z; hash_b : Z;
  events_a : Z; events_b : Z;
  time_a : Nanos; time_b : Nanos;
  ops_a : nat; ops_b : nat
}.

Definition compare_runs (seed : Z) (a b : RunReport) : DeterminismReport :=
  mkDeterminismReport seed (rp_trace_hash a) (rp_trace_hash b) (rp_events a) (rp_events b)
    (rp_virtual_time a) (rp_virtual_time b) (length (rp_history a)) (length (rp_history b)).

Definition is_deterministic (r : DeterminismReport) : bool :=
  (hash_a r =? hash_b r) && (events_a r =? events_b r) && (time_a r =? time_b r) && (ops_a r =? ops_b r)%nat.

(** The boot of the two runs is a parameter: a computation outside the simulation
    may give two worlds. *)
Definition check_determinism {W} `{!Simulator W} (slices : nat) (cfg : ScenarioConfig) (slice : Nanos) (w1 w2 : W) :
    option DeterminismReport :=
  match run_with_probe slices cfg slice w1, run_with_probe slices cfg slice w2 with
  | Some a, Some b => Some (compare_runs (sc_seed cfg) a b)
  | _, _ => None
  end.

(** * Theorems *)

(** ** What the harness relies on *)

Class SimulatorLaws (W : Type) `{!Simulator W} (valid : W -> Prop) : Prop := {
  law_time w : valid w -> is_u64 (sim_now w);
  law_run w h o w' : valid w -> sim_now w <= h -> is_u64 h -> sim_run_until h w = Some (o, w') ->
    valid w' /\ sim_now w <= sim_now w' <= h /\ (o = HorizonReached -> sim_now w' = h);
  law_chaos on w : valid w -> valid (sim_set_chaos on w) /\ sim_now (sim_set_chaos on w) = sim_now w;
  law_heal w : valid w -> valid (sim_heal_all w) /\ sim_now (sim_heal_all w) = sim_now w;
  law_restart id w w' : valid w -> sim_restart id w = Some w' -> valid w' /\ sim_now w' = sim_now w;
  law_stop w : valid w -> valid (sim_stop_clients w) /\ sim_now (sim_stop_clients w) = sim_now w;
  law_published w : valid w -> map_Forall (fun _ h => state_wf h.2) (sim_handles w)
}.

(** A cluster that is never idle for good: up to the instant [limit], every slice
    ends, at its horizon or in a failure. *)
Class Steady (W : Type) `{!Simulator W} (slice limit : Z) (valid : W -> Prop) : Prop := {
  steady_run w h : valid w -> sim_now w <= h <= sim_now w + slice -> h <= limit ->
    exists o w', sim_run_until h w = Some (o, w') /\ (o = HorizonReached \/ is_failure o = true);
  steady_restart id w : valid w -> exists w', sim_restart id w = Some w'
}.

(** ** What an experiment is

    The worlds an experiment goes through, and what is sampled in them, stated apart
    from the code's loops. *)

(** What one slice showed: how it ended, and what the oracles are given of it. *)
Abbreviation Sample := (Sim.Outcome * Observation)%type.
Abbreviation views_of := (map (fun x : Sample => o_view x.2)).

Section Experiment.
Context {W : Type} `{!Simulator W} (cfg : ScenarioConfig) (slice : Nanos).

(** A stretch of watching that is to last until [until]: slice after slice of the
    simulation, each from the world that the one before left, and the sample taken of the world
    at its end. It is over at that instant, or with the first slice that fails or
    after which a safety property is reported or [enough] holds. *)
Inductive watching (until : Nanos) (healthy : ClusterView -> W -> bool) (pending enough : W -> bool) :
    Invariants -> W -> list Sample -> W -> Prop :=
| watching_end inv w : until <= sim_now w -> watching until healthy pending enough inv w [] w
| watching_last inv w o w' (view := collect_live w') :
    sim_now w < until -> sim_run_until (Z.min (Nanos_add (sim_now w) slice) until) w = Some (o, w') ->
    is_failure o = true \/ ok (Invariants_check inv view) = false \/ enough w' = true ->
    watching until healthy pending enough inv w
      [(o, mkObservation (sim_now w') view (healthy view w') (pending w') (sc_servers cfg))] w'
| watching_on inv w o w' rest w'' (view := collect_live w') :
    sim_now w < until -> sim_run_until (Z.min (Nanos_add (sim_now w) slice) until) w = Some (o, w') ->
    is_failure o = false -> ok (Invariants_check inv view) = true -> enough w' = false ->
    watching until healthy pending enough (Invariants_check inv view) w' rest w'' ->
    watching until healthy pending enough inv w
      ((o, mkObservation (sim_now w') view (healthy view w') (pending w') (sc_servers cfg)) :: rest) w''.

(** The run proper: a leader is owed while no link is cut and a majority of the voters
    runs, progress while a request is open; it is over when every client has finished. *)
Definition main_run : W -> list Sample -> W -> Prop :=
  watching (sc_duration cfg) (fun view w => negb (sim_has_partitions w) && quorum_alive view w (sc_servers cfg))
    (fun w => 0 <? sim_inflight w) (fun w => sim_finished w =? sc_clients cfg) Invariants_new.

(** Every server that is not up is restarted, in turn. *)
Inductive restarted : list NodeId -> W -> W -> Prop :=
| restarted_none w : restarted [] w w
| restarted_up id ids w w' : sim_is_up id w = true -> restarted ids w w' -> restarted (id :: ids) w w'
| restarted_down id ids w w1 w' : sim_is_up id w = false -> sim_restart id w = Some w1 ->
    restarted ids w1 w' -> restarted (id :: ids) w w'.

(** The recovery that follows a run that showed [before] and left [w]: the chaos is
    switched off, everything is healed, the servers are restarted, and the cluster, said to
    be healthy, is watched for the recovery time. *)
Definition recovery_run (before : list Sample) (w : W) (samples : list Sample) (w' : W) : Prop :=
  exists w1, restarted (seqZ 0 (sc_servers cfg)) (sim_heal_all (sim_set_chaos false w)) w1 /\
    watching (Nanos_add (sim_now w1) (sc_recovery cfg)) (fun _ _ => true) (fun _ => false) (fun _ => false)
      (observe_all (views_of before)) w1 samples w'.

(** How a stretch that showed [samples] ended. *)
Definition ended (samples : list Sample) : Sim.Outcome := default HorizonReached (fst <$> last samples).

Definition failed_run (samples : list Sample) : Prop :=
  is_failure (ended samples) = true \/ ok (observe_all (views_of samples)) = false.

(** An experiment from [w]: all that was sampled, and the last world. *)
Inductive conducted (w : W) : list Sample -> W -> Prop :=
| conducted_failed samples w1 : main_run w samples w1 -> failed_run samples ->
    conducted w samples (sim_stop_clients w1)
| conducted_recovered samples w1 samples' w2 : main_run w samples w1 -> ~ failed_run samples ->
    recovery_run samples (sim_stop_clients w1) samples' w2 -> conducted w (samples ++ samples') w2.
End Experiment.

(** Instants from [t0] on, the last of them [t1], no two consecutive ones further
    apart than [slice]. *)
Fixpoint within (slice t0 : Z) (ts : list Z) (t1 : Z) : Prop :=
  match ts with
  | [] => t1 = t0
  | t :: ts => t0 <= t <= t0 + slice /\ within slice t ts t1
  end.

Section Laws.
Context {W : Type} `{!Simulator W} (slice limit : Z) (valid : W -> Prop).
Context `{!SimulatorLaws W valid} `{!Steady W slice limit valid}.
Hypothesis slice_pos : 0 < slice.
Hypothesis limit_range : limit < U64.
Implicit Types st : Run (W := W).

(** What a stretch of watching did: the samples taken. *)
Record watched cfg until healthy pending enough st st' (samples : list Sample) : Prop := {
  wt_valid : valid (rn_world st');
  wt_run : watching cfg slice until healthy pending enough (rn_invariants st) (rn_world st) samples (rn_world st');
  wt_gaps : within slice (sim_now (rn_world st)) (map (fun x => o_now x.2) samples) (sim_now (rn_world st'));
  wt_invariants : rn_invariants st' = fold_left Invariants_check (views_of samples) (rn_invariants st);
  wt_watchdog : rn_watchdog st' = fold_left observe (map snd samples) (rn_watchdog st);
  wt_outcome : rn_outcome st' = default (rn_outcome st) (fst <$> last samples);
  wt_views : views_wf (views_of samples)
}.

Lemma live_wf w : valid w -> map_Forall (fun _ s => state_wf s) (collect_live w).
Proof.
  intros Hv id s. unfold collect_live, collect. rewrite map_lookup_imap, lookup_fmap.
  destruct (sim_handles w !! id) as [h|] eqn:E; [|done]. intros [= <-].
  destruct (law_published _ Hv id h E). by split.
Qed.

Lemma watch_spec n cfg until healthy pending enough st :
  until <= limit -> valid (rn_world st) -> until - sim_now (rn_world st) <= Z.of_nat n * slice ->
  exists st' samples,
    watch n until (sample cfg slice until healthy pending) (fun st => enough (rn_world st)) st = Some st' /\
    watched cfg until healthy pending enough st st' samples /\ (length samples <= n)%nat /\
    sim_now (rn_world st') <= Z.max until (sim_now (rn_world st)) /\
    (run_failed st' = true \/ enough (rn_world st') = true \/
     sim_now (rn_world st') = Z.max until (sim_now (rn_world st))).
Proof.
  intros Hu. revert st. induction n as [|n IH]; intros st Hv Hn; cbn [watch];
    (destruct (Z.ltb_spec (sim_now (rn_world st)) until) as [Hlt|Hge];
      [|exists st, []; split; [done|]; split; [split; [done|by apply watching_end|done..|by constructor]|];
        split; [simpl; lia|]; split; [lia|]; right; right; lia]).
  { lia. }
  pose proof (law_time _ Hv) as Ht. unfold sample at 1.
  assert (Hadd : sim_now (rn_world st) <= Nanos_add (sim_now (rn_world st)) slice /\
    Z.min (Nanos_add (sim_now (rn_world st)) slice) until = Z.min (sim_now (rn_world st) + slice) until).
  { unfold Nanos_add, sadd64, is_u64 in *. lia. }
  destruct Hadd as [Hadd Etarget]. set (target := Z.min (Nanos_add (sim_now (rn_world st)) slice) until) in *.
  assert (Htarget : sim_now (rn_world st) <= target /\ is_u64 target) by (unfold is_u64 in *; lia).
  destruct Htarget as [Ht1 Ht2].
  destruct (steady_run (rn_world st) target Hv ltac:(rewrite Etarget; lia) ltac:(rewrite Etarget; lia)) as (o & w & E & Ho). rewrite E.
  destruct (law_run _ _ _ _ Hv Ht1 Ht2 E) as (Hv' & Hb & Hend). pose proof (live_wf w Hv') as Hwf.
  set (view := collect_live w) in *.
  set (o1 := mkObservation (sim_now w) view (healthy view w) (pending w) (sc_servers cfg)).
  set (st1 := mkRun w _ _ o).
  destruct (run_failed st1 || enough (rn_world st1)) eqn:Ef.
  { exists st1, [(o, o1)]. split; [done|]. split; [|split; [simpl; lia|]; split; [simpl; lia|]].
    2: { apply orb_true_iff in Ef as [?|?]; auto. }
    split; simpl; try done; [|lia|by apply Forall_singleton]. apply watching_last; [done|done|].
    unfold run_failed in Ef. simpl in Ef. apply orb_true_iff in Ef as [[?|?%negb_true_iff]%orb_true_iff|?]; auto. }
  pose proof Ef as Ef1. unfold run_failed in Ef1. simpl in Ef1.
  apply orb_false_iff in Ef1 as [[Ef1 Ef2%negb_false_iff]%orb_false_iff Ef3].
  assert (o = HorizonReached) as -> by (destruct Ho as [?|Ho]; [done|congruence]).
  specialize (Hend eq_refl).
  destruct (IH st1) as (st' & samples & -> & [] & Hl & Hmax & Hdone); [done|simpl; lia|].
  exists st', ((HorizonReached, o1) :: samples). split; [done|]. split; [|split; [simpl; lia|split; [simpl in *; lia|]]].
  2: { destruct Hdone as [?|[?| ->]]; [by left|by right; left|]. right; right. simpl. lia. }
  split; [done|by apply watching_on| |done|done| |by apply Forall_cons]; [split; [simpl; lia|done]|].
  rewrite wt_outcome0. simpl. rewrite last_cons. by destruct (last samples).
Qed.

Lemma restart_servers_spec cfg w : valid w -> exists w', restart_servers cfg w = Some w' /\
  restarted (seqZ 0 (sc_servers cfg)) w w' /\ valid w' /\ sim_now w' = sim_now w.
Proof.
  unfold restart_servers. generalize (seqZ 0 (sc_servers cfg)). intros ids.
  revert w. induction ids as [|id ids IH]; intros w Hv; [exists w; split_and!; [done|constructor|done..]|]. simpl.
  destruct (sim_is_up id w) eqn:Eu.
  - destruct (IH w Hv) as (w' & E & Hr & H). exists w'. split_and!; [done|by apply restarted_up|apply H..].
  - destruct (steady_restart id w Hv) as [w1 E]. rewrite E. destruct (law_restart _ _ _ Hv E) as [Hv1 <-].
    destruct (IH w1 Hv1) as (w' & E' & Hr & H). exists w'. split_and!; [done|by eapply restarted_down|apply H..].
Qed.

Lemma within_app t0 ts1 t1 ts2 t2 : within slice t0 ts1 t1 -> within slice t1 ts2 t2 ->
  within slice t0 (ts1 ++ ts2) t2.
Proof. revert t0. induction ts1 as [|t ts1 IH]; intros t0; simpl; [by intros ->|]. intros [H1 H2] H3. auto. Qed.

Lemma failed_spec st samples : rn_outcome st = ended samples -> rn_invariants st = observe_all (views_of samples) ->
  run_failed st = true <-> failed_run samples.
Proof. intros E1 E2. unfold run_failed, failed_run. by rewrite E1, E2, orb_true_iff, negb_true_iff. Qed.

(** The whole experiment: what was sampled, and when it ends. *)
Lemma experiment_spec n cfg w :
  sim_now w <= sc_duration cfg -> 0 <= sc_recovery cfg -> sc_duration cfg + sc_recovery cfg <= limit ->
  sc_duration cfg <= Z.of_nat n * slice -> sc_recovery cfg <= Z.of_nat n * slice -> valid w ->
  exists st samples, experiment n cfg slice w = Some st /\
    conducted cfg slice w samples (rn_world st) /\ views_wf (views_of samples) /\
    within slice (sim_now w) (map (fun x => o_now x.2) samples) (sim_now (rn_world st)) /\ (length samples <= 2 * n)%nat /\
    rn_outcome st = ended samples /\ rn_invariants st = observe_all (views_of samples) /\
    rn_watchdog st = fold_left observe (map snd samples) (Watchdog_new Budget_default) /\
    (failed_run samples \/ exists before after w1, samples = before ++ after /\ main_run cfg slice w before w1 /\
      recovery_run cfg slice before (sim_stop_clients w1) after (rn_world st) /\
      sim_now (rn_world st) = Nanos_add (sim_now w1) (sc_recovery cfg)).
Proof.
  intros Hd Hr Hlim Hnd Hnr Hv. unfold experiment, sample_run. pose proof (law_time _ Hv) as Ht.
  destruct (watch_spec n cfg (sc_duration cfg)
    (fun view w => negb (sim_has_partitions w) && quorum_alive view w (sc_servers cfg))
    (fun w => 0 <? sim_inflight w) (fun w => sim_finished w =? sc_clients cfg)
    (mkRun w Invariants_new (Watchdog_new Budget_default) HorizonReached) ltac:(lia) Hv)
    as (st1 & s1 & -> & [Hv1 Hrun1 Hg1 Hi1 Hw1 Ho1 Hwf1] & Hl1 & Hb1 & _); [unfold is_u64 in *; simpl; lia|].
  simpl in Hrun1, Hg1, Hi1, Hw1, Hb1, Ho1. destruct (law_stop _ Hv1) as [Hv2 Hn2].
  set (st2 := mkRun _ _ _ _). pose proof (failed_spec st2 s1 Ho1 Hi1) as Hf.
  destruct (run_failed st2) eqn:Ef.
  - exists st2, s1. split; [done|]. unfold st2. simpl. rewrite Hn2. apply proj1 in Hf.
    split_and!; [by apply conducted_failed; auto|done|done|lia|done|done|done|left; auto].
  - unfold recover, sample_recovery. cbn [st2 rn_world rn_invariants rn_watchdog rn_outcome].
    destruct (law_chaos false _ Hv2) as [Hv3 Hn3]. destruct (law_heal _ Hv3) as [Hv4 Hn4].
    destruct (restart_servers_spec cfg _ Hv4) as (w5 & -> & Hre & Hv5 & Hn5).
    pose proof (law_time _ Hv5) as Ht5.
    assert (Hadd : Nanos_add (sim_now w5) (sc_recovery cfg) <= limit /\
      sim_now w5 <= Nanos_add (sim_now w5) (sc_recovery cfg) <= sim_now w5 + sc_recovery cfg).
    { rewrite Hn5, Hn4, Hn3, Hn2 in *. unfold Nanos_add, sadd64, is_u64 in *. lia. }
    destruct (watch_spec n cfg (Nanos_add (sim_now w5) (sc_recovery cfg)) (fun _ _ => true) (fun _ => false)
      (fun _ => false) (mkRun w5 (rn_invariants st1) (rn_watchdog st1) (rn_outcome st1)) (proj1 Hadd))
      as (st & s2 & -> & [Hv6 Hrun6 Hg6 Hi6 Hw6 Ho6 Hwf6] & Hl6 & _ & Hend); [done|simpl; lia|].
    simpl in Hrun6, Hg6, Hi6, Hw6, Ho6, Hend. rewrite Hi1 in Hrun6.
    assert (Hrec : recovery_run cfg slice s1 (sim_stop_clients (rn_world st1)) s2 (rn_world st)) by (exists w5; by split).
    assert (Ho : rn_outcome st = ended (s1 ++ s2)).
    { rewrite Ho6, Ho1. unfold ended. rewrite last_app. by destruct (last s2). }
    assert (Hi : rn_invariants st = observe_all (views_of (s1 ++ s2))).
    { rewrite Hi6, Hi1. unfold observe_all. by rewrite map_app, fold_left_app. }
    exists st, (s1 ++ s2). split; [done|]. split_and!; [|rewrite map_app; by apply Forall_app| |rewrite length_app; lia|done|done| |].
    + eapply conducted_recovered; [done| |done]. intros Hx. apply Hf in Hx. done.
    + rewrite map_app. eapply within_app; [exact Hg1|]. by rewrite Hn5, Hn4, Hn3, Hn2 in Hg6.
    + by rewrite Hw6, Hw1, map_app, fold_left_app.
    + destruct Hend as [Hend|[Hend|Hend]]; [left; by apply (failed_spec st)|done|]. right.
      exists s1, s2, (rn_world st1). split_and!; [done..|]. rewrite Hn5, Hn4, Hn3, Hn2 in *. lia.
Qed.
End Laws.

(** C25: Every experiment ends with a report, and the oracles are never away for
    longer than a slice. On a simulator that keeps its promises and whose cluster
    never falls silent for good, with enough slices for the run and the recovery,
    [run_with_probe] returns; its invariants and its watchdog have been given
    one and the same sequence of samples of the experiment, the first within a slice of the
    start, each within a slice of the one before, the last at the end. If the run
    does not fail, then after its last slice the clients are told to stop, the
    chaos is switched off, everything is healed, every server that is down is restarted, and
    the cluster is watched from there on for the whole recovery time, unless
    that fails. *)
Theorem every_experiment_reports {W} `{!Simulator W} (valid : W -> Prop) `{!SimulatorLaws W valid}
    (slice : Nanos) (limit : Z) `{!Steady W slice limit valid} (slices : nat) (cfg : ScenarioConfig) (w : W) :
  0 < slice -> limit < U64 ->
  sim_now w <= sc_duration cfg -> 0 <= sc_recovery cfg -> sc_duration cfg + sc_recovery cfg <= limit ->
  sc_duration cfg <= Z.of_nat slices * slice -> sc_recovery cfg <= Z.of_nat slices * slice ->
  0 <= max_states (sc_limits cfg) -> valid w ->
  exists r samples w', run_with_probe slices cfg slice w = Some r /\
    conducted cfg slice w samples w' /\ rp_virtual_time r = sim_now w' /\
    rp_invariants r = observe_all (views_of samples) /\
    rp_watchdog r = fold_left observe (map snd samples) (Watchdog_new Budget_default) /\
    within slice (sim_now w) (map (fun x => o_now x.2) samples) (rp_virtual_time r) /\
    (length samples <= 2 * slices)%nat /\
    (is_failure (rp_outcome r) = true \/ ok (rp_invariants r) = false \/
     exists before after w1, samples = before ++ after /\ main_run cfg slice w before w1 /\
       recovery_run cfg slice before (sim_stop_clients w1) after w' /\
       rp_virtual_time r = Nanos_add (sim_now w1) (sc_recovery cfg)).
Proof.
  intros Hs Hlim Hd Hr Hsum Hnd Hnr Hm Hv. unfold run_with_probe.
  destruct (experiment_spec slice limit valid Hs Hlim slices cfg w Hd Hr Hsum Hnd Hnr Hv)
    as (st & samples & -> & Hc & _ & Hg & Hl & Ho & Hi & Hw & Hend).
  destruct (check_keys_total (History_by_key (sim_history (rn_world st))) (sc_limits cfg) Hm) as [v Ev].
  unfold check. rewrite Ev. eexists _, samples, (rn_world st). split; [done|]. simpl. split_and!; [done..|].
  unfold failed_run in Hend. rewrite Ho, Hi. tauto.
Qed.

Lemma ok_none_reported inv : ok inv = true <-> forall P, ~ reported P inv.
Proof.
  unfold ok, reported. rewrite Nat.eqb_eq. split.
  - intros H%nil_length_inv P. rewrite H. set_solver.
  - intros H. destruct (violations inv) as [|v vs] eqn:E; [done|]. destruct (H (property v)).
    simpl. left.
Qed.

(** C19: A report says the run was clean exactly when it was. Over the samples of the
    experiment that [run_with_probe] conducts, each the live view of the world that a
    slice of the simulation left, [ok] holds, and [failure] has nothing to tell, if
    and only if the last slice did not end in a panic or a livelock, no safety property
    is broken as far as the oracles look in the views sampled, the watchdog given
    the samples recorded no stall, and the checker, run on the history recorded by
    the end, found no violation. *)
Theorem reports_are_exact {W} `{!Simulator W} (valid : W -> Prop) `{!SimulatorLaws W valid}
    (slice : Nanos) (limit : Z) `{!Steady W slice limit valid} (slices : nat) (cfg : ScenarioConfig) (w : W) :
  0 < slice -> limit < U64 ->
  sim_now w <= sc_duration cfg -> 0 <= sc_recovery cfg -> sc_duration cfg + sc_recovery cfg <= limit ->
  sc_duration cfg <= Z.of_nat slices * slice -> sc_recovery cfg <= Z.of_nat slices * slice ->
  0 <= max_states (sc_limits cfg) -> valid w ->
  exists r samples w', run_with_probe slices cfg slice w = Some r /\
    conducted cfg slice w samples w' /\
    (failure r = None <-> rp_ok r = true) /\
    (rp_ok r = true <->
      is_failure (ended samples) = false /\ (forall P, ~ detected P (views_of samples)) /\
      stalls (fold_left observe (map snd samples) (Watchdog_new Budget_default)) = [] /\
      exists v, check (sim_history w') (sc_limits cfg) = Some v /\ is_violation v = false).
Proof.
  intros Hs Hlim Hd Hr Hsum Hnd Hnr Hm Hv. unfold run_with_probe.
  destruct (experiment_spec slice limit valid Hs Hlim slices cfg w Hd Hr Hsum Hnd Hnr Hv)
    as (st & samples & -> & Hc & Hwf & _ & _ & Ho & Hi & Hw & _).
  destruct (check_keys_total (History_by_key (sim_history (rn_world st))) (sc_limits cfg) Hm) as [v Ev].
  change (check_keys _ _) with (check (sim_history (rn_world st)) (sc_limits cfg)) in Ev.
  rewrite Ev. eexists _, samples, (rn_world st). split; [done|]. split; [done|]. unfold failure. simpl. split.
  - destruct (is_failure (rn_outcome st)), (is_violation v), (ok (rn_invariants st)), (Watchdog_ok (rn_watchdog st)); done.
  - rewrite Ev, !andb_true_iff, !negb_true_iff, Ho, Hi, Hw, ok_none_reported.
    unfold Watchdog_ok. rewrite Nat.eqb_eq, length_zero_iff_nil.
    setoid_rewrite (fun P => every_property_exact P (views_of samples) Hwf). split.
    + intros [[[? ?] ?] ?]. split_and!; [done..|]. by exists v.
    + intros (? & ? & ? & v' & [= <-] & ?). by split_and!.
Qed.

(** ** The kernel is a simulator *)

Section KernelSimulator.
Context {F : Type} (fuel rounds : nat) (poll : F -> TaskId -> K (F := F) (Polled F)) (boot : NodeId -> K (F := F) unit).

(** The cells the tasks share with the harness, as it reads them, and the flag that
    tells the clients to stop. *)
Record Cells : Type := mkCells {
  cl_handles : Inner (F := F) -> Handles;
  cl_inflight : Inner (F := F) -> Z;
  cl_finished : Inner (F := F) -> Z;
  cl_history : Inner (F := F) -> list Event;
  cl_reconfigurations : Inner (F := F) -> Z;
  cl_stop_clients : Inner (F := F) -> Inner (F := F)
}.
Context (cells : Cells).

Definition kernel_simulator : Simulator (Inner (F := F)) := {|
  sim_now := k_now;
  sim_run_until := run_until fuel poll boot rounds;
  sim_set_chaos := set_chaos;
  sim_heal_all := heal_all;
  sim_restart id k := snd <$> boot_node boot id k;
  sim_is_up := is_up;
  sim_alive_servers := alive_servers;
  sim_has_partitions := has_partitions;
  sim_trace_hash k := rc_hash (k_trace k);
  sim_events k := k_stats k events;
  sim_handles := cl_handles cells;
  sim_inflight := cl_inflight cells;
  sim_finished := cl_finished cells;
  sim_stop_clients := cl_stop_clients cells;
  sim_history := cl_history cells;
  sim_reconfigurations := cl_reconfigurations cells
|}.

Lemma extends_heal_all (k : Inner (F := F)) : extends k (heal_all k).
Proof.
  unfold heal_all. etrans; [|apply extends_wake_all]. etrans; [|apply keeps_fold; intros; by apply extends_same].
  etrans; [|apply keeps_fold; intros; by apply extends_same].
  match goal with |- extends k (on_blocked _ ?k1) => transitivity k1; [|by apply extends_same] end.
  apply keeps_fold. intros. by apply extends_same.
Qed.

(** Tasks that only use their handles, a flag that is none of the kernel's
    business, and nodes that publish indices in order. *)
Hypothesis poll_calls : forall fut id, calls fuel (poll fut id).
Hypothesis boot_calls : forall id, calls fuel (boot id).
Hypothesis stop_extends : forall k, extends k (cl_stop_clients cells k).
Hypothesis published_wf : forall k, map_Forall (fun _ h => state_wf h.2) (cl_handles cells k).

Lemma kernel_laws : @SimulatorLaws (Inner (F := F)) kernel_simulator time_inv.
Proof.
  split; simpl.
  - by intros k [[H _] _].
  - intros k h o k' Hk Hh Hu H. unfold run_until in H.
    apply run_loop_spec in H as (H1 & H2 & H3 & H4); [|done|done|unfold LIVELOCK_BUDGET; lia|done..].
    split_and!; [done..|]. intros ->. apply H4.
  - intros on k Hk. apply (extends_inv k (set_chaos on k)); [done|]. by apply extends_same.
  - intros k Hk. apply (extends_inv k (heal_all k)); [done|]. apply extends_heal_all.
  - intros id k k' Hk H. destruct (boot_node boot id k) as [[[] k1]|] eqn:E; [|done]. injection H as <-.
    apply (extends_inv k k1); [done|]. by eapply keeps_boot_node.
  - intros k Hk. by apply (extends_inv k (cl_stop_clients cells k)).
  - intros k _. apply published_wf.
Qed.
End KernelSimulator.

(** ** A universe with nothing in it but chaos *)

Abbreviation Empty := (Inner (F := unit)).

Definition no_poll (fut : unit) (id : TaskId) : K (F := unit) (Polled unit) := mret Done.
Definition no_boot (id : NodeId) : K (F := unit) unit := mret tt.
Definition no_cells : Cells (F := unit) :=
  mkCells (fun _ => ∅) (fun _ => 0) (fun _ => 0) (fun _ => []) (fun _ => 0) (fun k => k).

#[local] Instance empty_simulator : Simulator Empty := kernel_simulator 8 7 no_poll no_boot no_cells.

Lemma no_poll_calls fut id : calls 8 (no_poll fut id).
Proof. intros k a k' [= _ <-]. constructor. Qed.
Lemma no_boot_calls id : calls 8 (no_boot id).
Proof. intros k a k' [= _ <-]. constructor. Qed.

(** No node, no task, and one event: the next tick of chaos. *)
Definition TICK : Z := 50000000.

Record ticking (k : Empty) : Prop := {
  tk_now : is_u64 (k_now k);
  tk_policy : chaos_tick_every (k_policy k) = TICK;
  tk_nodes : k_nodes k = ∅;
  tk_tasks : k_tasks k = ∅;
  tk_ready : k_ready k = ∅;
  tk_stop : k_stop k = false;
  tk_panic : k_panic k = None;
  tk_blocked : k_blocked k = ∅;
  tk_timer : exists at_ q, k_timers k = [mkTimer at_ q ChaosTick] /\ k_now k <= at_ <= k_now k + TICK /\ at_ < U64
}.

(** A tick of chaos on an empty universe changes nothing. *)
Lemma empty_chaos (k : Empty) : chaos_tick_every (k_policy k) = TICK -> k_nodes k = ∅ ->
  chaos_tick 8 k = Some (TICK, k).
Proof.
  intros Hp Hn. assert (Es : servers k = []) by (unfold servers, nodes_where; by rewrite Hn).
  unfold chaos_tick, mbind, K_bind, gets. rewrite Hp. destruct (k_chaos_on k); simpl; [|done]. by rewrite Es.
Qed.

Definition empty_round (h p : Z) (k : Empty) := run_round 8 no_poll no_boot h p k.

Lemma empty_pick (k : Empty) : k_ready k = ∅ -> pick_runnable 8 k = Some (None, on_ready (filter (fun id => is_Some (k_tasks k !! id))) k).
Proof.
  intros Hr. unfold pick_runnable, mbind, K_bind, gets. assert (runnable k = []) as -> by (unfold runnable; by rewrite Hr).
  reflexivity.
Qed.

Lemma tick_round h p (k : Empty) at_ q : ticking k -> k_timers k = [mkTimer at_ q ChaosTick] -> k_now k <= h -> is_u64 h ->
  exists k', ticking k' /\
    if at_ <=? h then empty_round h p k = Some (inr 0, k') /\ k_now k' = at_ /\
                      exists q', k_timers k' = [mkTimer (sadd64 at_ TICK) q' ChaosTick]
    else empty_round h p k = Some (inl HorizonReached, k') /\ k_now k' = h.
Proof.
  intros [Hu Hp Hn Ht Hr Hs Hpan Hbl (at0 & q0 & Hti & Hb & Hlt)] E Hh Huh.
  rewrite Hti in E. injection E as -> ->.
  unfold empty_round, run_round. rewrite Hs, Hpan, empty_pick by done.
  set (k1 := on_ready _ k). unfold next_timer. change (k_timers k1) with (k_timers k). rewrite Hti.
  cbn [heap_peek heap_pop fmap option_fmap option_map fst t_at].
  destruct (Z.leb_spec at_ h) as [Hle|Hgt].
  - rewrite (proj2 (Z.ltb_ge _ _)) by done. cbn [drain_tied heap_pop t_at]. rewrite Z.eqb_refl.
    cbn [drain_tied heap_pop length Nat.eqb mret K_ret].
    change (swap_remove (Z.to_nat 0) [mkTimer at_ q ChaosTick]) with (Some (mkTimer at_ q ChaosTick, @nil Timer)).
    cbv beta iota. match goal with |- context [fire 8 _ _ ?k0] => set (k2 := k0) end.
    assert (Ef : fire 8 no_boot (mkTimer at_ q ChaosTick) k2 =
      Some (tt, Kernel.schedule TICK ChaosTick (on_seq (fun _ => q) k2))).
    { unfold fire, mbind, K_bind, modify. cbn [t_action t_seq]. by rewrite empty_chaos. }
    rewrite Ef. eexists. split; [|split; [reflexivity|split; [done|by eexists]]].
    split; simpl; try done; [unfold is_u64 in *; lia|by rewrite Hr|].
    do 2 eexists. split; [reflexivity|]. unfold sadd64, is_u64, TICK in *. lia.
  - rewrite (proj2 (Z.ltb_lt _ _)) by done. eexists. split; [|split; [simpl; by rewrite Z.leb_refl|done]].
    split; simpl; try done; [by rewrite Hr|]. exists at_, q. split; [done|]. lia.
Qed.

(** A slice, with as many rounds as there are ticks in it and one more. *)
Lemma tick_loop n h p (k : Empty) : ticking k -> k_now k <= h -> is_u64 h ->
  match run_loop 8 no_poll no_boot n h p k with
  | Some (o, k') => o = HorizonReached /\ ticking k' /\ k_now k' = h
  | None => forall at_ q, k_timers k = [mkTimer at_ q ChaosTick] -> h < U64 - TICK ->
      at_ + Z.of_nat n * TICK <= h + TICK
  end.
Proof.
  revert p k. induction n as [|n IH]; intros p k Hk Hh Hu; cbn [run_loop].
  { destruct (tk_timer _ Hk) as (a & q & E & Hb & _). intros at_ q' E'. rewrite E in E'. injection E' as <- <-. lia. }
  destruct (tk_timer _ Hk) as (at_ & q & E & Hb & _).
  destruct (tick_round h p k at_ q Hk E Hh Hu) as (k' & Hk' & Hr). unfold empty_round in Hr.
  destruct (Z.leb_spec at_ h).
  - destruct Hr as (-> & Hn & q' & E'). specialize (IH 0 k' Hk' ltac:(lia) Hu).
    destruct (run_loop _ _ _ n h 0 k') as [[o k2]|]; [done|]. intros a q2 E2 Hlim. rewrite E in E2. injection E2 as <- <-.
    specialize (IH _ _ E' Hlim). unfold sadd64, TICK in *. lia.
  - by destruct Hr as [-> Hn].
Qed.

#[local] Instance empty_laws : SimulatorLaws Empty ticking.
Proof.
  split; simpl.
  - apply tk_now.
  - intros k h o k' Hk Hh Hu H. pose proof (tick_loop 7 h 0 k Hk Hh Hu) as Hl. unfold run_until in H. rewrite H in Hl.
    destruct Hl as (-> & Hk' & ->). split_and!; (done || lia).
  - intros on k []. split; [by split|done].
  - intros k Hk. assert (E : heal_all k = on_blocked (fun _ => ∅) k).
    { unfold heal_all. rewrite (tk_blocked _ Hk).
      change (nodes_where nd_paused _) with (nodes_where nd_paused k). unfold nodes_where.
      by rewrite (tk_nodes _ Hk). }
    rewrite E. destruct Hk. split; [by split|done].
  - intros id k k' Hk. unfold boot_node. rewrite (tk_nodes _ Hk). by intros [= <-].
  - done.
  - by intros k _ id h ?%lookup_empty_Some.
Qed.

#[local] Instance empty_steady : Steady Empty 250000000 (2 ^ 62) ticking.
Proof.
  split; simpl.
  - intros k h Hk [Hh Hs] Hl. destruct (tk_timer _ Hk) as (at_ & q & E & Hb & _). pose proof (tk_now _ Hk) as Hu.
    assert (Huh : is_u64 h) by (unfold is_u64 in *; lia).
    pose proof (tick_loop 7 h 0 k Hk Hh Huh) as Hloop. unfold run_until.
    destruct (run_loop 8 no_poll no_boot 7 h 0 k) as [[o k']|].
    + destruct Hloop as [-> _]. eauto.
    + specialize (Hloop at_ q E). unfold TICK in *. lia.
  - intros id k Hk. unfold boot_node. rewrite (tk_nodes _ Hk). by eexists.
Qed.

Definition empty_universe : Empty := Kernel.schedule TICK ChaosTick (Kernel_new 7 torture HashOnly).

Lemma empty_ticking : ticking empty_universe.
Proof.
  split; [by_decide|vm_compute; reflexivity..|]. do 2 eexists. split; [reflexivity|]. vm_compute. intuition congruence.
Qed.

(** A second of chaos and half a second of recovery. *)
Definition short : ScenarioConfig :=
  mkScenarioConfig 7 0 1 6 0 0 1000000000 0 None 3 500000000 torture 40 Client.Linearizable HashOnly false
    (mkLimits 1000).

Lemma every_experiment_reports_witness :
  exists r samples w', run_with_probe 4 short 250000000 empty_universe = Some r /\
    conducted short 250000000 empty_universe samples w' /\ rp_virtual_time r = sim_now w' /\
    rp_invariants r = observe_all (views_of samples) /\
    rp_watchdog r = fold_left observe (map snd samples) (Watchdog_new Budget_default) /\
    within 250000000 (sim_now empty_universe) (map (fun x => o_now x.2) samples) (rp_virtual_time r) /\
    (length samples <= 2 * 4)%nat /\
    (is_failure (rp_outcome r) = true \/ ok (rp_invariants r) = false \/
     exists before after w1, samples = before ++ after /\ main_run short 250000000 empty_universe before w1 /\
       recovery_run short 250000000 before (sim_stop_clients w1) after w' /\
       rp_virtual_time r = Nanos_add (sim_now w1) 500000000).
Proof.
  apply (every_experiment_reports ticking 250000000 (2 ^ 62) 4 short empty_universe); [by_decide..|exact empty_ticking].
Defined.

Lemma reports_are_exact_witness :
  exists r samples w', run_with_probe 4 short 250000000 empty_universe = Some r /\
    conducted short 250000000 empty_universe samples w' /\
    (failure r = None <-> rp_ok r = true) /\
    (rp_ok r = true <->
      is_failure (ended samples) = false /\ (forall P, ~ detected P (views_of samples)) /\
      stalls (fold_left observe (map snd samples) (Watchdog_new Budget_default)) = [] /\
      exists v, check (sim_history w') (mkLimits 1000) = Some v /\ is_violation v = false).
Proof.
  apply (reports_are_exact ticking 250000000 (2 ^ 62) 4 short empty_universe); [by_decide..|exact empty_ticking].
Defined.

(** The report of that run. *)
Example short_is_clean :
  (fun r => (rp_ok r, rp_virtual_time r, checks (rp_invariants r))) <$>
    run_with_probe 4 short 250000000 empty_universe = Some (true, 1500000000, 6).
Proof. vm_compute. reflexivity. Qed.

(** ** A cluster that has gone silent *)

Section Silence.
Context {W : Type} `{!Simulator W}.

Lemma silent_watch n cfg slice until healthy pending enough (st : Run (W := W)) :
  (forall h, sim_now (rn_world st) < h -> sim_run_until h (rn_world st) = Some (Quiesced, rn_world st)) ->
  (forall inv, ok inv = true -> ok (Invariants_check inv (collect_live (rn_world st))) = true) ->
  (forall st', rn_world st' = rn_world st -> enough st' = false) ->
  0 < slice -> 0 <= sim_now (rn_world st) -> sim_now (rn_world st) < until < U64 -> ok (rn_invariants st) = true ->
  watch n until (sample cfg slice until healthy pending) enough st = None.
Proof.
  intros Hq Hinv Hen Hs H0 Hu. revert st Hq Hinv Hen H0 Hu.
  induction n as [|n IH]; intros st Hq Hinv Hen H0 Hu Hok; cbn [watch]; rewrite (proj2 (Z.ltb_lt _ _)) by lia; [done|].
  unfold sample at 1. rewrite Hq by (unfold Nanos_add, sadd64; lia).
  set (st1 := mkRun _ _ _ _). unfold run_failed. cbn [rn_outcome rn_invariants st1 is_failure]. rewrite Hinv by done.
  rewrite Hen by done. simpl. apply IH; try done. simpl. by apply Hinv.
Qed.
End Silence.

(** The oracles have nothing to say about no nodes. *)
Lemma check_nothing inv : ok (Invariants_check inv ∅) = ok inv.
Proof. by destruct inv. Qed.

Definition silent : ScenarioConfig :=
  mkScenarioConfig 7 0 0 6 0 0 1000000000 0 None 3 500000000 benign 40 Client.Linearizable HashOnly false
    (mkLimits 1000).

(** A silent cluster hangs the harness. When the simulator has nothing left to do
    it returns [Quiesced] with its clock where it was; the loops of
    [run_with_probe] ask only whether the clock has reached the end and whether
    the outcome is a failure, which [Quiesced] is not. With no servers and no
    clients the recovery phase never ends, however many slices it is given. *)
Theorem silence_hangs_the_harness (slices : nat) :
  run_with_probe slices silent 250000000 (Kernel_new 7 benign HashOnly : Empty) = None.
Proof.
  unfold run_with_probe, experiment. set (k := Kernel_new 7 benign HashOnly : Empty).
  set (k2 := heal_all (set_chaos false k)).
  assert (Hq : forall k', k' = k \/ k' = k2 -> forall h, 0 < h -> sim_run_until h k' = Some (Quiesced, k')).
  { intros k' Hk h Hh. change (run_until 8 no_poll no_boot 7 h k' = Some (Quiesced, k')). unfold run_until.
    cbn [run_loop]. unfold run_round.
    assert (E : k_stop k' = false /\ k_panic k' = None /\ pick_runnable 8 k' = Some (None, k') /\
      next_timer 8 h k' = Some (None, k') /\ k_now k' = 0) by (by destruct Hk as [-> | ->]).
    destruct E as (-> & -> & -> & -> & ->). by rewrite (proj2 (Z.leb_gt _ _)). }
  assert (Hv : forall k', collect_live k' = ∅) by done.
  destruct slices as [|slices]; [done|]. cbn [watch]. change (sim_now _ <? sc_duration silent) with true. cbv beta iota.
  unfold sample_run, sample at 1. rewrite (Hq k) by (by left || done). rewrite Hv.
  set (st := mkRun k _ _ _). change (run_failed st || _) with true. cbv beta iota.
  change (run_failed _) with false. cbv beta iota. unfold recover.
  change (restart_servers silent _) with (Some k2). cbv beta iota.
  unfold sample_recovery. rewrite silent_watch; [done|..].
  - apply Hq. by right.
  - intros inv Hi. rewrite Hv. by rewrite check_nothing.
  - done.
  - done.
  - by apply Z.leb_le.
  - by split; apply Z.ltb_lt.
  - done.
Qed.
