(* ===== verification/Numerals.v ===== *)
(** * Numbers as text: what the source uses of [core::fmt] and [core::num]

    Unsigned numbers printed in a radix ([{}], [{:x}], padded to a width), and
    [from_str_radix], which reads them back: the digits, the optional plus sign
    and the three errors. Texts are byte strings; everything here is ASCII.

    The theorems are about [numeral], the digits of a number in a fixed width:
    every printed number is one, reading a numeral gives the number, and numerals
    of one width are ordered as strings the way the numbers are. *)

From Stdlib Require Import ZArith Lia String Ascii.
From stdpp Require Import base tactics list strings sorting.
From S2P Require Import Prelude Kernel.

Open Scope string_scope.
Open Scope Z_scope.

(** ** Printing *)

(** A digit in lower case. *)
Definition digit (d : Z) : ascii := ascii_of_N (Z.to_N (if d <? 10 then 48 + d else 87 + d)).

Fixpoint digits (fuel : nat) (radix n : Z) (acc : string) : string :=
  match fuel with
  | O => acc
  | S f =>
      let acc := String (digit (n mod radix)) acc in
      if n <? radix then acc else digits f radix (n / radix) acc
  end.

(** [{}] and [{:x}] of a [u64], which has at most 20 digits in base 10 and 16 in
    base 16. *)
Definition dec (n : Z) : string := digits 20 10 n "".
Definition hex (n : Z) : string := digits 16 16 n "".

(** [{}] of an [i64]. *)
Definition sdec (n : Z) : string := if n <? 0 then "-" ++ dec (- n) else dec n.

Fixpoint fill (c : ascii) (n : nat) : string :=
  match n with O => "" | S n => String c (fill c n) end.

(** [{:>width}] with [c] for the fill. *)
Definition pad (c : ascii) (width : nat) (s : string) : string := fill c (width - String.length s) ++ s.

Definition dec_padded (width : nat) (n : Z) : string := pad "0" width (dec n).
(** [{:016x}] and [{:#018x}]. *)
Definition hex16 (n : Z) : string := pad "0" 16 (hex n).
Definition hex18 (n : Z) : string := "0x" ++ hex16 n.

(** ** Reading *)

Inductive IntErrorKind : Type := EmptyInput | InvalidDigit | PosOverflow.

Definition IntErrorKind_text (e : IntErrorKind) : string :=
  match e with
  | EmptyInput => "cannot parse integer from empty string"
  | InvalidDigit => "invalid digit found in string"
  | PosOverflow => "number too large to fit in target type"
  end.

(** [char::to_digit]: letters of either case. *)
Definition to_digit (radix : Z) (c : ascii) : option Z :=
  let c := Z.of_N (N_of_ascii c) in
  let d := if (48 <=? c) && (c <=? 57) then c - 48
           else if (97 <=? c) && (c <=? 122) then c - 87
           else if (65 <=? c) && (c <=? 90) then c - 55 else radix in
  if d <? radix then Some d else None.

Fixpoint read_digits (limit radix acc : Z) (s : string) : result IntErrorKind Z :=
  match s with
  | EmptyString => Ok acc
  | String c s =>
      match to_digit radix c with
      | None => Err InvalidDigit
      | Some d =>
          if limit <=? acc * radix + d then Err PosOverflow else read_digits limit radix (acc * radix + d) s
      end
  end.

(** [from_str_radix] of an unsigned type with values below [limit]. *)
Definition from_str_radix (limit radix : Z) (s : string) : result IntErrorKind Z :=
  match s with
  | EmptyString => Err EmptyInput
  | String "+" EmptyString => Err InvalidDigit
  | String "+" s => read_digits limit radix 0 s
  | s => read_digits limit radix 0 s
  end.

(** * Theorems *)

Lemma append_assoc (s t u : string) : (s ++ t) ++ u = s ++ (t ++ u).
Proof. induction s as [|c s IH]; [done|]. exact (f_equal (String c) IH). Qed.

Lemma append_cons c (s t : string) : String c s ++ t = String c (s ++ t).
Proof. reflexivity. Qed.

Lemma append_length (s t : string) : String.length (s ++ t) = (String.length s + String.length t)%nat.
Proof. induction s as [|c s IH]; [done|]. exact (f_equal S IH). Qed.

Lemma append_nil_l (s : string) : "" ++ s = s.
Proof. reflexivity. Qed.

Lemma append_nil_r (s : string) : s ++ "" = s.
Proof. induction s as [|c s IH]; [done|]. exact (f_equal (String c) IH). Qed.

(** The digits of [n] in [width] places, most significant first. *)
Fixpoint numeral (radix : Z) (width : nat) (n : Z) : string :=
  match width with
  | O => ""
  | S w => String (digit (n / radix ^ Z.of_nat w)) (numeral radix w (n mod radix ^ Z.of_nat w))
  end.

Section Radix.
Context (radix : Z) (Hradix : 2 <= radix <= 16).

Definition pow (w : nat) : Z := radix ^ Z.of_nat w.

Lemma pow_S w : pow (S w) = radix * pow w.
Proof. unfold pow. rewrite Nat2Z.inj_succ, Z.pow_succ_r; lia. Qed.

Lemma pow_pos w : 0 < pow w.
Proof. unfold pow. apply Z.pow_pos_nonneg; lia. Qed.

Lemma pow_add a b : pow (a + b) = pow a * pow b.
Proof. unfold pow. rewrite Nat2Z.inj_add, Z.pow_add_r; lia. Qed.

Lemma pow_mono a b : (a <= b)%nat -> pow a <= pow b.
Proof. intros H. apply Z.pow_le_mono_r; lia. Qed.

Lemma lead_digit w n : 0 <= n < pow (S w) -> 0 <= n / pow w < radix.
Proof.
  rewrite pow_S. intros H. pose proof (pow_pos w).
  split; [apply Z.div_pos; lia | apply Z.div_lt_upper_bound; lia].
Qed.

Lemma rest_digits w n : 0 <= n mod pow w < pow w.
Proof. apply Z.mod_pos_bound, pow_pos. Qed.

Lemma div_mod_swap n x y : 0 < x -> 0 < y -> n mod (x * y) / y = n / y mod x.
Proof.
  intros Hx Hy. rewrite (Z.mul_comm x), Z.rem_mul_r by lia.
  rewrite (Z.mul_comm y), Z.div_add by lia. rewrite Z.div_small by (apply Z.mod_pos_bound; lia). lia.
Qed.

Lemma mod_mod_factor n x y : 0 < x -> 0 < y -> n mod (x * y) mod y = n mod y.
Proof.
  intros Hx Hy. rewrite (Z.mul_comm x), Z.rem_mul_r by lia.
  rewrite (Z.mul_comm y), Z.mod_add, Z.mod_mod; lia.
Qed.

(** A numeral is its high digits, then its low ones. *)
Lemma numeral_split a b n :
  0 <= n < pow (a + b) -> numeral radix (a + b) n = numeral radix a (n / pow b) ++ numeral radix b (n mod pow b).
Proof.
  revert n. induction a as [|a IH]; intros n Hn; simpl.
  - f_equal. rewrite Z.mod_small; [done|]. exact Hn.
  - fold (pow (a + b)) (pow a). pose proof (pow_pos a) as Ha. pose proof (pow_pos b) as Hb.
    rewrite IH, pow_add by apply rest_digits. rewrite div_mod_swap, mod_mod_factor by lia.
    rewrite (Z.mul_comm (pow a)), <- Z.div_div by lia. done.
Qed.

Lemma digit_code d : 0 <= d < radix -> Z.of_N (N_of_ascii (digit d)) = if d <? 10 then 48 + d else 87 + d.
Proof. intros H. unfold digit. rewrite N_ascii_embedding; destruct (Z.ltb_spec d 10); lia. Qed.

Lemma to_digit_digit d : 0 <= d < radix -> to_digit radix (digit d) = Some d.
Proof.
  intros H. unfold to_digit. rewrite digit_code by done.
  destruct (Z.ltb_spec d 10) as [Hd|Hd]; repeat case_match; rewrite ?andb_true_iff, ?andb_false_iff in *;
    first [f_equal; lia | lia].
Qed.

(** Every printed number is a numeral, with no zero in front. *)
Lemma digits_numeral fuel n acc :
  0 <= n < pow fuel -> (0 < fuel)%nat ->
  exists k, (0 < k <= fuel)%nat /\ n < pow k /\ (k = 1%nat \/ pow (k - 1) <= n) /\
            digits fuel radix n acc = numeral radix k n ++ acc.
Proof.
  revert n acc. induction fuel as [|f IH]; intros n acc Hn Hf; [lia|]. simpl.
  destruct (Z.ltb_spec n radix) as [Hlt|Hge].
  - exists 1%nat. rewrite pow_S. change (pow 0) with 1. split_and!; [lia|lia|lia|by left|].
    simpl. rewrite Z.mod_small, Z.div_1_r by lia. done.
  - assert (Hq : 0 <= n / radix < pow f).
    { rewrite pow_S in Hn. split; [apply Z.div_pos; lia | apply Z.div_lt_upper_bound; lia]. }
    destruct f as [|f].
    { rewrite pow_S in Hn. change (pow 0) with 1 in Hn. lia. }
    destruct (IH (n / radix) (String (digit (n mod radix)) acc) Hq) as (k & Hk & Hnk & Hlow & ->); [lia|].
    exists (k + 1)%nat. assert (Hmod := Z.mod_pos_bound n radix). assert (Hdiv := Z.div_mod n radix).
    rewrite pow_add. change (pow 1) with (radix ^ 1). rewrite Z.pow_1_r.
    split_and!; [lia|lia|nia| |].
    + right. replace (k + 1 - 1)%nat with (S (k - 1)) by lia. rewrite pow_S.
      destruct Hlow as [-> | Hlow]; [change (pow (1 - 1)) with 1; lia | nia].
    + rewrite numeral_split.
      2:{ rewrite pow_add. change (pow 1) with (radix ^ 1). rewrite Z.pow_1_r. nia. }
      change (pow 1) with (radix ^ 1). rewrite Z.pow_1_r. simpl. rewrite Z.div_1_r.
      by rewrite append_assoc.
Qed.

Lemma numeral_length w n : String.length (numeral radix w n) = w.
Proof. revert n. induction w as [|w IH]; intros n; simpl; [done|]. by rewrite IH. Qed.

Lemma numeral_zeros z w n : 0 <= n < pow w -> numeral radix (z + w) n = fill "0" z ++ numeral radix w n.
Proof.
  intros Hn. induction z as [|z IH]; simpl; [done|]. fold (pow (z + w)).
  assert (n < pow (z + w)) by (pose proof (pow_mono w (z + w)); lia).
  rewrite Z.div_small, Z.mod_small, IH by lia. done.
Qed.

(** Padding with zeros gives the numeral of that width. *)
Lemma pad_digits fuel width n :
  (0 < fuel <= width)%nat -> 0 <= n < pow fuel ->
  pad "0" width (digits fuel radix n "") = numeral radix width n.
Proof.
  intros Hw Hn. destruct (digits_numeral fuel n "") as (k & Hk & Hnk & _ & ->); [lia|lia|].
  unfold pad. rewrite append_nil_r, numeral_length, <- numeral_zeros by lia. f_equal. lia.
Qed.

(** Reading a numeral gives the number, or reports that it is too large. *)
Lemma read_numeral limit acc w n :
  0 <= acc < limit -> 0 <= n < pow w ->
  read_digits limit radix acc (numeral radix w n) =
    if limit <=? acc * pow w + n then Err PosOverflow else Ok (acc * pow w + n).
Proof.
  revert acc n. induction w as [|w IH]; intros acc n Hacc Hn; simpl.
  - change (pow 0) with 1 in *. assert (n = 0) as -> by lia.
    rewrite Z.mul_1_r, Z.add_0_r. destruct (Z.leb_spec limit acc); [lia|done].
  - fold (pow w). pose proof (lead_digit w n Hn) as Hd. pose proof (rest_digits w n) as Hr.
    rewrite to_digit_digit by done. pose proof (pow_pos w) as Hp.
    assert (Hn' := Z.div_mod n (pow w)).
    assert (Heq : acc * pow (S w) + n = (acc * radix + n / pow w) * pow w + n mod pow w) by (rewrite pow_S; nia).
    destruct (Z.leb_spec limit (acc * radix + n / pow w)) as [Hl|Hl].
    + destruct (Z.leb_spec limit (acc * pow (S w) + n)); [done|nia].
    + rewrite IH, Heq by (try done; nia). done.
Qed.

Lemma digit_compare a b : 0 <= a < radix -> 0 <= b < radix -> Ascii.compare (digit a) (digit b) = (a ?= b).
Proof.
  intros Ha Hb. unfold Ascii.compare. rewrite <- N2Z.inj_compare, !digit_code by done.
  destruct (Z.compare_spec a b) as [->|H|H];
    [apply Z.compare_refl | apply Z.compare_lt_iff | apply Z.compare_gt_iff];
    (destruct (Z.ltb_spec a 10), (Z.ltb_spec b 10)); lia.
Qed.

(** Numerals of one width are in the order of the numbers. *)
Lemma numeral_compare w n m :
  0 <= n < pow w -> 0 <= m < pow w -> String.compare (numeral radix w n) (numeral radix w m) = (n ?= m).
Proof.
  revert n m. induction w as [|w IH]; intros n m Hn Hm; simpl.
  - change (pow 0) with 1 in *. symmetry. apply Z.compare_eq_iff. lia.
  - fold (pow w). rewrite digit_compare by (apply lead_digit; done).
    rewrite IH by apply rest_digits. pose proof (pow_pos w) as Hp.
    assert (Hn' := Z.div_mod n (pow w)). assert (Hm' := Z.div_mod m (pow w)).
    pose proof (rest_digits w n). pose proof (rest_digits w m). symmetry.
    destruct (Z.compare_spec (n / pow w) (m / pow w)) as [He|Hl|Hl].
    + destruct (Z.compare_spec (n mod pow w) (m mod pow w)); [apply Z.compare_eq_iff|apply Z.compare_lt_iff|apply Z.compare_gt_iff]; nia.
    + apply Z.compare_lt_iff. nia.
    + apply Z.compare_gt_iff. nia.
Qed.
End Radix.

(** Reading what was printed. *)
Theorem read_printed limit radix w n :
  2 <= radix <= 16 -> (0 < w)%nat -> 0 <= n < pow radix w -> 0 < limit ->
  from_str_radix limit radix (numeral radix w n) = if limit <=? n then Err PosOverflow else Ok n.
Proof.
  intros Hr Hw Hn Hl. transitivity (read_digits limit radix 0 (numeral radix w n)).
  - destruct w as [|w]; [lia|]. simpl. fold (pow radix w).
    pose proof (digit_code radix Hr (n / pow radix w) (lead_digit radix Hr w n Hn)) as Hc.
    destruct (digit (n / pow radix w)) as [[] [] [] [] [] [] [] []]; try reflexivity.
    exfalso. revert Hc. pose proof (lead_digit radix Hr w n Hn).
    change (Z.of_N (N_of_ascii "+")) with 43. case_match; lia.
  - rewrite read_numeral by (try done; lia). by rewrite Z.mul_0_l, Z.add_0_l.
Qed.


Lemma u64_pow16 n : is_u64 n -> 0 <= n < pow 16 16.
Proof. done. Qed.

Lemma u64_pow20 n : is_u64 n -> 0 <= n < pow 10 20.
Proof. unfold is_u64. change (pow 10 20) with 100000000000000000000. lia. Qed.

Lemma dec_numeral n : is_u64 n -> exists k, (0 < k <= 20)%nat /\ n < pow 10 k /\ dec n = numeral 10 k n.
Proof.
  intros Hn. destruct (digits_numeral 10 ltac:(lia) 20 n "") as (k & Hk & Hp & _ & E); [|lia|].
  { by apply u64_pow20. }
  exists k. unfold dec. rewrite E, append_nil_r. done.
Qed.

Lemma hex16_numeral n : is_u64 n -> hex16 n = numeral 16 16 n.
Proof. intros Hn. apply pad_digits; [lia|lia|by apply u64_pow16]. Qed.

Lemma dec20_numeral n : is_u64 n -> dec_padded 20 n = numeral 10 20 n.
Proof. intros Hn. apply pad_digits; [lia|lia|by apply u64_pow20]. Qed.

(** ** Characters of a text *)

Fixpoint every (p : ascii -> bool) (s : string) : bool :=
  match s with EmptyString => true | String c s => p c && every p s end.

Lemma every_app p s t : every p (s ++ t) = every p s && every p t.
Proof. induction s as [|c s IH]; [done|]. rewrite append_cons. simpl. by rewrite IH, andb_assoc. Qed.

Lemma numeral_every p radix w n :
  2 <= radix <= 16 -> 0 <= n < pow radix w -> (forall d, 0 <= d < radix -> p (digit d) = true) ->
  every p (numeral radix w n) = true.
Proof.
  intros Hr. revert n. induction w as [|w IH]; intros n Hn Hp; simpl; [done|]. fold (pow radix w).
  rewrite (Hp _ (lead_digit radix Hr w n Hn)). apply IH; [by apply rest_digits|done].
Qed.

Lemma dec_every p n : is_u64 n -> (forall d, 0 <= d < 10 -> p (digit d) = true) -> every p (dec n) = true.
Proof.
  intros Hn Hp. destruct (dec_numeral n Hn) as (k & _ & Hk & ->). unfold is_u64 in Hn. apply numeral_every; [lia|lia|done].
Qed.

Lemma dec_reads_back n : is_u64 n -> from_str_radix U64 10 (dec n) = Ok n.
Proof.
  intros Hn. destruct (dec_numeral n Hn) as (k & Hk & Hp & ->). unfold is_u64 in Hn.
  rewrite read_printed by lia. destruct (Z.leb_spec U64 n); [lia|done].
Qed.

(** ** The order of strings *)

(** [string_le], the order of a [BTreeMap]'s keys and of [sort], is total. *)
Lemma string_compare_lt_trans s t u :
  String.compare s t <> Gt -> String.compare t u <> Gt -> String.compare s u <> Gt.
Proof.
  revert t u. induction s as [|a s IH]; intros [|b t] [|c u]; simpl; try done.
  unfold Ascii.compare.
  destruct (N.compare_spec (N_of_ascii a) (N_of_ascii b)), (N.compare_spec (N_of_ascii b) (N_of_ascii c)),
    (N.compare_spec (N_of_ascii a) (N_of_ascii c)); try done; try lia; eauto.
Qed.

#[export] Instance string_le_trans : Transitive string_le.
Proof.
  intros s t u. unfold string_le, String.leb. intros H1 H2.
  pose proof (string_compare_lt_trans s t u) as H. destruct (String.compare s t), (String.compare t u), (String.compare s u);
    try done; exfalso; by apply H.
Qed.

#[export] Instance string_le_antisym : AntiSymm (=) string_le.
Proof. intros s t. unfold string_le. apply String.leb_antisym. Qed.

#[export] Instance string_le_total : Total string_le.
Proof. intros s t. unfold string_le. destruct (String.leb_total s t); auto. Qed.

(** So sorting forgets the order in which the strings came. *)
Lemma sort_strings (l l' : list string) : l ≡ₚ l' -> merge_sort string_le l = merge_sort string_le l'.
Proof.
  intros H. apply (StronglySorted_unique string_le); [apply (StronglySorted_merge_sort _)..|].
  by rewrite !merge_sort_Permutation.
Qed.
