(* ===== verification/Text.v ===== *)
(** * What is printed and read: [Display] of times, events and reports, names, seeds

    The texts of the simulator and the harness ([crates/chrono-sim/src/time.rs],
    [trace.rs], [lib.rs], [crates/chrono-oracle/src/scenario.rs]), the names of the
    files of the write-ahead log ([crates/chronolog/src/wal.rs]) and the seeds of the
    command line ([parse_seed] of [crates/chronoscope/src/main.rs]).

    A text is a byte string ([string]); a note of the trace is a list of bytes and is
    shown as it is. [trim] knows the white space of ASCII. *)

From Stdlib Require Import ZArith Lia String Ascii.
From stdpp Require Import base tactics list gmap sets strings sorting.
From S2P Require Import Prelude Codec Types Client Rng Time Trace Fault Kernel Sim Scenario Numerals.

Open Scope string_scope.
Open Scope Z_scope.

Definition newline : string := String "010" "".

Definition bytes_text (bs : Bytes) : string :=
  fold_right (fun b s => String (ascii_of_N (Z.to_N b)) s) "" bs.

(** ** Times *)

Definition Nanos_text (n : Nanos) : string :=
  if n <? NANOS_PER_MICRO then dec n ++ "ns"
  else if n <? NANOS_PER_MILLI then dec (n / 1000) ++ "." ++ dec_padded 3 (n mod 1000) ++ "us"
  else if n <? NANOS_PER_SEC then
    dec (n / NANOS_PER_MILLI) ++ "." ++ dec_padded 3 (n mod NANOS_PER_MILLI / 1000) ++ "ms"
  else
    let secs := n / NANOS_PER_SEC in
    let frac := n mod NANOS_PER_SEC / NANOS_PER_MILLI in
    let h := secs / 3600 in
    let m := secs mod 3600 / 60 in
    let s := secs mod 60 in
    if 0 <? h then
      dec h ++ "h" ++ dec_padded 2 m ++ "m" ++ dec_padded 2 s ++ "." ++ dec_padded 3 frac ++ "s"
    else if 0 <? m then dec m ++ "m" ++ dec_padded 2 s ++ "." ++ dec_padded 3 frac ++ "s"
    else dec s ++ "." ++ dec_padded 3 frac ++ "s".

(** ** Events *)

Definition DropReason_as_str (r : DropReason) : string :=
  match r with
  | Partitioned => "partitioned"
  | RandomLoss => "loss"
  | NodeDown => "node-down"
  | NodeGone => "no-such-node"
  end.

Definition node_text (n : NodeId) : string := "n" ++ dec n.

Definition Event_text (e : Event) : string :=
  match e with
  | EvBoot node => node_text node ++ " boot"
  | EvSpawn node task => node_text node ++ " spawn t" ++ dec task
  | EvPoll node task => node_text node ++ " poll t" ++ dec task
  | EvTaskDone node task => node_text node ++ " done t" ++ dec task
  | EvSleep node task until => node_text node ++ " t" ++ dec task ++ " sleep -> " ++ Nanos_text until
  | EvSend from to msg len =>
      node_text from ++ " -> " ++ node_text to ++ " send #" ++ dec msg ++ " " ++ dec len ++ "B"
  | EvDeliver from to msg len =>
      node_text from ++ " -> " ++ node_text to ++ " recv #" ++ dec msg ++ " " ++ dec len ++ "B"
  | EvDropped from to msg why =>
      node_text from ++ " -> " ++ node_text to ++ " DROP #" ++ dec msg ++ " (" ++ DropReason_as_str why ++ ")"
  | EvDuplicated from to msg => node_text from ++ " -> " ++ node_text to ++ " DUP #" ++ dec msg
  | EvCorrupted from to msg byte =>
      node_text from ++ " -> " ++ node_text to ++ " CORRUPT #" ++ dec msg ++ " @byte " ++ dec byte
  | EvDiskWrite node file offset len =>
      node_text node ++ " write f" ++ hex file ++ " @" ++ dec offset ++ " " ++ dec len ++ "B"
  | EvDiskRead node file offset len =>
      node_text node ++ " read f" ++ hex file ++ " @" ++ dec offset ++ " " ++ dec len ++ "B"
  | EvFsync node file pending => node_text node ++ " fsync f" ++ hex file ++ " (" ++ dec pending ++ " pending)"
  | EvTruncate node file to => node_text node ++ " truncate f" ++ hex file ++ " -> " ++ dec to
  | EvTornWrite node file offset kept total =>
      node_text node ++ " TORN f" ++ hex file ++ " @" ++ dec offset ++ " kept " ++ dec kept ++ "/" ++ dec total ++ "B"
  | EvLostWrite node file offset len =>
      node_text node ++ " LOST WRITE f" ++ hex file ++ " @" ++ dec offset ++ " " ++ dec len ++ "B"
  | EvEnospc node file => node_text node ++ " ENOSPC f" ++ hex file
  | EvCrash node => node_text node ++ " *** CRASH ***"
  | EvRestart node => node_text node ++ " *** RESTART ***"
  | EvPartition a b one_way =>
      "PARTITION " ++ node_text a ++ " " ++ (if one_way then "-/->" else "<-/->") ++ " " ++ node_text b
  | EvHeal a b => "HEAL " ++ node_text a ++ " <--> " ++ node_text b
  | EvPause node until => node_text node ++ " PAUSE until " ++ Nanos_text until
  | EvResume node => node_text node ++ " RESUME"
  | EvClockStep node delta => node_text node ++ " clock step " ++ sdec delta ++ "ns"
  | EvNote node text => node_text node ++ " | " ++ bytes_text text
  end.

Definition Entry_text (x : TraceEntry) : string :=
  "[" ++ pad " " 14 (Nanos_text (te_at x)) ++ "] " ++ Event_text (te_event x).

(** ** Lines *)

(** [lines], of a text without carriage returns. *)
Fixpoint text_lines (s : string) : list string :=
  match s with
  | EmptyString => []
  | String c t =>
      if Ascii.eqb c "010" then "" :: text_lines t
      else match text_lines t with
           | [] => [String c ""]
           | l :: ls => String c l :: ls
           end
  end.

(** ** Configurations *)

(** [join(",")]. *)
Fixpoint join (sep : string) (l : list string) : string :=
  match l with
  | [] => ""
  | [s] => s
  | s :: l => s ++ sep ++ join sep l
  end.

Definition ids_text (s : gset NodeId) : string := join "," (map dec (sorted_elements s)).

Definition Config_text (c : Config) : string :=
  (if Config_is_joint c then "joint[" ++ ids_text (voters c) ++ "|" ++ ids_text (outgoing c) ++ "]"
   else "[" ++ ids_text (voters c) ++ "]")
  ++ (if bool_decide (learners c = ∅) then "" else "+learners[" ++ ids_text (learners c) ++ "]").

(** ** The report of the determinism guard *)

Definition DeterminismReport_text (r : DeterminismReport) : string :=
  if is_deterministic r then
    "seed " ++ hex18 (dr_seed r) ++ "  deterministic  (" ++ dec (events_a r) ++ " events, "
      ++ dec (Z.of_nat (ops_a r)) ++ " ops, " ++ Nanos_text (time_a r) ++ " simulated, hash " ++ hex16 (hash_a r) ++ ")"
  else
    "seed " ++ hex18 (dr_seed r) ++ "  DIVERGED" ++ newline
      ++ "  run A: hash " ++ hex16 (hash_a r) ++ "  events " ++ dec (events_a r)
      ++ "  ops " ++ dec (Z.of_nat (ops_a r)) ++ "  time " ++ Nanos_text (time_a r) ++ newline
      ++ "  run B: hash " ++ hex16 (hash_b r) ++ "  events " ++ dec (events_b r)
      ++ "  ops " ++ dec (Z.of_nat (ops_b r)) ++ "  time " ++ Nanos_text (time_b r) ++ newline ++ newline
      ++ "  Something read entropy the kernel did not provide. Usual suspects:" ++ newline
      ++ "    - hash-map or hash-set iteration order (use the BTree equivalents)" ++ newline
      ++ "    - a real system clock read outside the `real` runtime" ++ newline
      ++ "    - ordering derived from a pointer or address" ++ newline
      ++ "    - a thread, or a f64 whose libm differs across targets".

(** ** The guard of the simulator alone *)

Fixpoint debug_text (s : Bytes) : string :=
  match s with
  | [] => ""
  | b :: s =>
      (if b =? 34 then "\" ++ bytes_text [34]
       else if b =? 92 then "\\" else if b =? 9 then "\t" else if b =? 10 then "\n" else if b =? 13 then "\r"
       else if b =? 0 then "\0" else if (b <? 32) || (b =? 127) then "\u{" ++ hex b ++ "}"
       else bytes_text [b]) ++ debug_text s
  end.

(** [{:?}] of a string. *)
Definition quoted (s : Bytes) : string := bytes_text [34] ++ debug_text s ++ bytes_text [34].

(** [{:?}] of an outcome; a message is taken to be printable beyond ASCII. *)
Definition Outcome_text (o : Outcome) : string :=
  match o with
  | Quiesced => "Quiesced"
  | HorizonReached => "HorizonReached"
  | Stopped => "Stopped"
  | Livelock n => "Livelock { polls: " ++ dec n ++ " }"
  | TaskPanicked node message =>
      "Panicked { node: " ++ dec node ++ ", message: " ++ quoted message ++ " }"
  end.

Record DivergenceReport : Type := mkDivergenceReport {
  dv_seed : Z;
  dv_hash_a : Z; dv_hash_b : Z;
  dv_outcome_a : Outcome; dv_outcome_b : Outcome;
  dv_events_a : Z; dv_events_b : Z;
  dv_time_a : Nanos; dv_time_b : Nanos
}.

#[export] Instance Outcome_eq_dec : EqDecision Outcome.
Proof. solve_decision. Defined.

Definition DivergenceReport_is_deterministic (r : DivergenceReport) : bool :=
  (dv_hash_a r =? dv_hash_b r) && bool_decide (dv_outcome_a r = dv_outcome_b r)
    && (dv_events_a r =? dv_events_b r) && (dv_time_a r =? dv_time_b r).

Definition DivergenceReport_text (r : DivergenceReport) : string :=
  if DivergenceReport_is_deterministic r then
    "seed " ++ hex18 (dv_seed r) ++ " deterministic: " ++ dec (dv_events_a r) ++ " events, "
      ++ Nanos_text (dv_time_a r) ++ " virtual, hash " ++ hex16 (dv_hash_a r)
  else
    "seed " ++ hex18 (dv_seed r) ++ " DIVERGED" ++ newline
      ++ "  run A: hash " ++ hex16 (dv_hash_a r) ++ " events " ++ dec (dv_events_a r) ++ " time "
      ++ Nanos_text (dv_time_a r) ++ " outcome " ++ Outcome_text (dv_outcome_a r) ++ newline
      ++ "  run B: hash " ++ hex16 (dv_hash_b r) ++ " events " ++ dec (dv_events_b r) ++ " time "
      ++ Nanos_text (dv_time_b r) ++ " outcome " ++ Outcome_text (dv_outcome_b r) ++ newline
      ++ "  Something read entropy the kernel did not provide. Usual suspects: hash-map "
      ++ "iteration order, a real system clock, pointer-derived ordering, a thread.".

(** [build] may change what it has captured, of type [B]; the second run starts
    from what the first left there. *)
Section Guard.
Context {F B : Type} (fuel rounds : nat).
Context (poll : F -> TaskId -> K (F := F) (Polled F)) (boot : NodeId -> K (F := F) unit).
Context (build : B -> Inner (F := F) -> B * Inner (F := F)).

Definition guard_run (seed : Z) (horizon : Nanos) (b : B) : option (B * (Z * Outcome * Z * Nanos)) :=
  let '(b, k) := build b (Kernel_new seed nemesis HashOnly) in
  match boot_all boot k with
  | None => None
  | Some (_, k) =>
      match run_until fuel poll boot rounds horizon k with
      | None => None
      | Some (o, k) => Some (b, (rc_hash (k_trace k), o, k_stats k events, k_now k))
      end
  end.

Definition Sim_check_determinism (seed : Z) (horizon : Nanos) (b : B) : option DivergenceReport :=
  match guard_run seed horizon b with
  | None => None
  | Some (b, (h1, o1, s1, t1)) =>
      match guard_run seed horizon b with
      | None => None
      | Some (_, (h2, o2, s2, t2)) => Some (mkDivergenceReport seed h1 h2 o1 o2 s1 s2 t1 t2)
      end
  end.
End Guard.

(** ** Names and seeds *)

Fixpoint strip_prefix (p s : string) : option string :=
  match p, s with
  | EmptyString, _ => Some s
  | String a p, String b s => if Ascii.eqb a b then strip_prefix p s else None
  | String _ _, EmptyString => None
  end.

Fixpoint strip_suffix (p s : string) : option string :=
  if String.eqb p s then Some ""
  else match s with
       | EmptyString => None
       | String c s => String c <$> strip_suffix p s
       end.

Definition to_option {E A} (r : result E A) : option A :=
  match r with Ok a => Some a | Err _ => None end.

(** [Segment::name_for] and [index_from_name]. *)
Definition name_for (first : Index) : string := "wal-" ++ dec_padded 20 first ++ ".seg".

Definition index_from_name (name : string) : option Index :=
  s ← strip_prefix "wal-" name;
  s ← strip_suffix ".seg" s;
  to_option (from_str_radix U64 10 s).

(** What [Wal::open] makes of a directory listing. *)
Definition segment_names (listing : list string) : list (Index * string) :=
  omap (fun n => (fun i => (i, n)) <$> index_from_name n) listing.

Definition is_space (c : ascii) : bool :=
  let c := N_of_ascii c in ((9 <=? c) && (c <=? 13) || (c =? 32))%N.

Fixpoint trim_start (s : string) : string :=
  match s with
  | EmptyString => ""
  | String c t => if is_space c then trim_start t else s
  end.

Fixpoint trim_end (s : string) : string :=
  match s with
  | EmptyString => ""
  | String c t =>
      match trim_end t with
      | EmptyString => if is_space c then "" else String c ""
      | u => String c u
      end
  end.

Definition trim (s : string) : string := trim_end (trim_start s).

Definition parse_seed (s : string) : result IntErrorKind Z :=
  let t := trim s in
  match (match strip_prefix "0x" t with Some h => Some h | None => strip_prefix "0X" t end) with
  | Some h => from_str_radix U64 16 h
  | None =>
      match from_str_radix U64 10 t with
      | Ok n => Ok n
      | Err _ => from_str_radix U64 16 t
      end
  end.

(** * Theorems *)

(** The source's own examples. *)
Example display_scales :
  map Nanos_text [500; 1500; 2500000; 90500000000; 15123000000000] =
    ["500ns"; "1.500us"; "2.500ms"; "1m30.500s"; "4h12m03.000s"].
Proof. reflexivity. Qed.

(** The guard of the simulator blames only what its caller shares between the two
    runs: a [build] whose effect does not depend on what it captured passes. *)
Lemma guard_acquits {F B} fuel rounds poll boot (build : B -> Inner (F := F) -> B * Inner (F := F)) seed horizon b r :
  (forall b b' k, (build b k).2 = (build b' k).2) ->
  Sim_check_determinism fuel rounds poll boot build seed horizon b = Some r -> DivergenceReport_is_deterministic r = true.
Proof.
  intros Hb. unfold Sim_check_determinism.
  destruct (guard_run _ _ _ _ _ seed horizon b) as [[b1 p1]|] eqn:E1; [|done].
  destruct p1 as [[[h1 o1] s1] t1].
  destruct (guard_run _ _ _ _ _ seed horizon b1) as [[b2 p2]|] eqn:E2; [|done].
  destruct p2 as [[[h2 o2] s2] t2]. intros [= <-].
  assert (H : (h1, o1, s1, t1) = (h2, o2, s2, t2)).
  { unfold guard_run in E1, E2. specialize (Hb b b1 (Kernel_new seed nemesis HashOnly)).
    destruct (build b _) as [c k], (build b1 _) as [c1 k1]. simpl in Hb. subst k1.
    destruct (boot_all boot k) as [[? k2]|]; [|done].
    destruct (run_until fuel poll boot rounds horizon k2) as [[o k3]|]; [|done]. congruence. }
  injection H as <- <- <- <-. unfold DivergenceReport_is_deterministic. simpl.
  by rewrite !Z.eqb_refl, bool_decide_true.
Qed.

Lemma text_lines_app s t :
  every (fun c => negb (Ascii.eqb c "010")) s = true -> text_lines (s ++ newline ++ t) = s :: text_lines t.
Proof.
  induction s as [|c s IH]; [done|]. rewrite append_cons. simpl. intros [Hc%negb_true_iff Hs]%andb_true_iff.
  by rewrite Hc, IH.
Qed.

(** ** Names of segments *)

Lemma strip_prefix_app p s : strip_prefix p (p ++ s) = Some s.
Proof. induction p as [|c p IH]; [by destruct s|]. rewrite append_cons. simpl. by rewrite Ascii.eqb_refl. Qed.

Lemma strip_suffix_app p s : strip_suffix p (s ++ p) = Some s.
Proof.
  induction s as [|c s IH].
  - change ("" ++ p)%string with p. by destruct p as [|a p]; simpl; rewrite ?Ascii.eqb_refl, ?String.eqb_refl.
  - rewrite append_cons. cbn [strip_suffix]. rewrite IH.
    destruct (String.eqb_spec p (String c (s ++ p))) as [E|_]; [|done]. exfalso.
    apply (f_equal String.length) in E. cbn in E. rewrite append_length in E. lia.
Qed.

Lemma name_for_parses i : is_u64 i -> index_from_name (name_for i) = Some i.
Proof.
  intros Hi. unfold index_from_name, name_for. rewrite strip_prefix_app. simpl. rewrite strip_suffix_app. simpl.
  rewrite dec20_numeral, read_printed by (try done; first [lia | by apply u64_pow20]).
  unfold is_u64 in Hi. destruct (Z.leb_spec U64 i); [lia|done].
Qed.

Lemma compare_append p s t : String.compare (p ++ s) (p ++ t) = String.compare s t.
Proof.
  induction p as [|c p IH]; [done|]. rewrite !append_cons. simpl. rewrite IH.
  unfold Ascii.compare. by rewrite N.compare_refl.
Qed.

Lemma compare_refl s : String.compare s s = Eq.
Proof. rewrite <- (append_nil_r s) at 1 2. by rewrite compare_append. Qed.

(** Two texts of one length decide before what follows them. *)
Lemma compare_prefix s t u :
  String.length s = String.length t -> String.compare (s ++ u) (t ++ u) = String.compare s t.
Proof.
  revert t. induction s as [|c s IH]; intros [|d t] H; try done; [apply compare_refl|].
  rewrite !append_cons. simpl. simpl in H. rewrite IH by lia. done.
Qed.

Lemma name_for_order i j : is_u64 i -> is_u64 j -> string_le (name_for i) (name_for j) <-> i <= j.
Proof.
  intros Hi Hj. unfold string_le, String.leb, name_for.
  rewrite compare_append, !dec20_numeral, compare_prefix by (rewrite ?numeral_length; done).
  rewrite numeral_compare by (first [lia | by apply u64_pow20]).
  destruct (Z.compare_spec i j); split; intros; done || lia.
Qed.

(** Sorting commutes with a map that keeps the order. *)
Lemma sort_names (firsts : list Index) :
  Forall is_u64 firsts -> merge_sort string_le (name_for <$> firsts) = name_for <$> merge_sort Z.le firsts.
Proof.
  intros Hf. apply (StronglySorted_unique string_le).
  - apply (StronglySorted_merge_sort _).
  - assert (Hs : StronglySorted Z.le (merge_sort Z.le firsts)) by apply (StronglySorted_merge_sort _).
    assert (Hm : Forall is_u64 (merge_sort Z.le firsts)) by by rewrite merge_sort_Permutation.
    induction Hs as [|i l Hs IH Hi]; simpl; [constructor|].
    apply Forall_cons in Hm as [Hu Hm]. constructor; [by apply IH|].
    rewrite Forall_fmap. rewrite Forall_forall in Hi, Hm |- *. intros j Hj. apply name_for_order; auto.
  - by rewrite !merge_sort_Permutation.
Qed.

(** The WAL reads a directory in the order of the log: whatever order the names
    come in, sorting them as strings is sorting the indices they name. *)
Theorem listing_is_in_log_order (firsts : list Index) :
  Forall is_u64 firsts ->
  segment_names (merge_sort string_le (name_for <$> firsts)) =
    (fun i => (i, name_for i)) <$> merge_sort Z.le firsts.
Proof.
  intros Hf. rewrite sort_names by done.
  assert (Hm : Forall is_u64 (merge_sort Z.le firsts)) by by rewrite merge_sort_Permutation.
  induction Hm as [|i l Hi Hl IH]; [done|].
  unfold segment_names in *. simpl. rewrite name_for_parses by done. simpl. f_equal. exact IH.
Qed.

Lemma listing_is_in_log_order_witness :
  segment_names (merge_sort string_le (name_for <$> [10; 2; 700])) =
    (fun i => (i, name_for i)) <$> merge_sort Z.le [10; 2; 700].
Proof. apply listing_is_in_log_order. by_decide. Defined.

(** ** Seeds *)

Definition no_space (s : string) : Prop := every (fun c => negb (is_space c)) s = true.
Definition spaces (s : string) : Prop := every is_space s = true.

Lemma trim_start_spaces l s : spaces l -> trim_start (l ++ s) = trim_start s.
Proof. induction l as [|c l IH]; [done|]. rewrite append_cons. unfold spaces. simpl. intros [-> H]%andb_true_iff. auto. Qed.

Lemma trim_end_spaces r : spaces r -> trim_end r = "".
Proof. induction r as [|c r IH]; [done|]. unfold spaces. simpl. intros [Hc H]%andb_true_iff. by rewrite IH, Hc. Qed.

Lemma trim_end_app s r : no_space s -> spaces r -> trim_end (s ++ r) = s.
Proof.
  intros Hs Hr. induction s as [|c s IH]; [by apply trim_end_spaces|].
  rewrite append_cons. unfold no_space in Hs. simpl in *. apply andb_true_iff in Hs as [Hc%negb_true_iff Hs].
  rewrite IH by done. destruct s; [by rewrite Hc|done].
Qed.

(** Only the space around a word is removed. *)
Lemma trim_word l s r : spaces l -> no_space s -> s <> "" -> spaces r -> trim (l ++ s ++ r) = s.
Proof.
  intros Hl Hs Hne Hr. unfold trim. rewrite trim_start_spaces by done.
  replace (trim_start (s ++ r)) with (s ++ r)%string; [by apply trim_end_app|].
  destruct s as [|c s]; [done|]. rewrite append_cons. unfold no_space in Hs. simpl in *.
  by apply andb_true_iff in Hs as [->%negb_true_iff _].
Qed.

Lemma is_space_digit radix d : 2 <= radix <= 16 -> 0 <= d < radix -> is_space (digit d) = false.
Proof.
  intros Hr Hd. pose proof (digit_code radix Hr d Hd) as H. unfold is_space.
  rewrite orb_false_iff, andb_false_iff, !N.leb_gt, N.eqb_neq. destruct (Z.ltb_spec d 10); lia.
Qed.

Lemma numeral_no_space radix w n : 2 <= radix <= 16 -> 0 <= n < pow radix w -> no_space (numeral radix w n).
Proof.
  intros Hr Hn. apply numeral_every; [done..|]. intros d Hd. by rewrite (is_space_digit radix).
Qed.

Lemma numeral_not_hex_mark radix w n p :
  2 <= radix <= 16 -> 0 <= n < pow radix w -> p = "0x" \/ p = "0X" -> strip_prefix p (numeral radix w n) = None.
Proof.
  intros Hr Hn Hp. destruct w as [|[|w]]; [by destruct Hp as [->| ->]|..].
  - cbn [numeral]. destruct Hp as [-> | ->]; cbn [strip_prefix]; by destruct (Ascii.eqb _ _).
  - assert (Hd : 0 <= n mod pow radix (S w) / pow radix w < radix) by (apply lead_digit, rest_digits; done).
    assert (Hc := digit_code radix Hr _ Hd). cbn [numeral]. fold (pow radix (S w)) (pow radix w).
    destruct Hp as [-> | ->]; cbn [strip_prefix]; (destruct (Ascii.eqb _ _); [|done]);
      match goal with |- context [Ascii.eqb ?c ?d] => destruct (Ascii.eqb_spec c d) as [E|_]; [|done] end;
      rewrite <- E in Hc; cbn in Hc; case_match; lia.
Qed.

Lemma limit_u64 n : is_u64 n -> (U64 <=? n) = false.
Proof. unfold is_u64. intros. apply Z.leb_gt. lia. Qed.

Lemma parse_seed_spaced_hex seed before after :
  is_u64 seed -> spaces before -> spaces after -> parse_seed (before ++ hex18 seed ++ after) = Ok seed.
Proof.
  intros Hs Hb Ha. unfold parse_seed. rewrite trim_word; try done.
  - unfold hex18. rewrite strip_prefix_app, hex16_numeral, read_printed, limit_u64 by (try done; lia). done.
  - unfold hex18. rewrite hex16_numeral by done. unfold no_space. rewrite every_app. apply andb_true_iff. split; [done|].
    apply numeral_no_space; [lia | by apply u64_pow16].
Qed.

Lemma parse_seed_hex seed : is_u64 seed -> parse_seed (hex18 seed) = Ok seed.
Proof.
  intros Hs. pose proof (parse_seed_spaced_hex seed "" "" Hs eq_refl eq_refl) as H.
  by rewrite append_nil_l, append_nil_r in H.
Qed.

(** The seed that a report prints, and its decimal form, are read back as that
    seed, with any space around them. *)
Theorem seeds_read_back (seed : Z) (before after : string) :
  is_u64 seed -> spaces before -> spaces after ->
  parse_seed (before ++ hex18 seed ++ after) = Ok seed /\
  parse_seed (before ++ dec seed ++ after) = Ok seed.
Proof.
  intros Hs Hb Ha. split; [by apply parse_seed_spaced_hex|].
  destruct (dec_numeral seed Hs) as (k & Hk & Hp & Hdec). assert (Hseed := Hs). unfold is_u64 in Hs.
  assert (Hword : no_space (dec seed)) by (rewrite Hdec; apply numeral_no_space; lia).
  unfold parse_seed. rewrite trim_word, Hdec by (try done; rewrite Hdec; by destruct k; [lia|]).
  rewrite !(numeral_not_hex_mark 10 k seed) by (auto; lia).
  by rewrite read_printed, limit_u64 by (try done; lia).
Qed.

Lemma seeds_read_back_witness :
  parse_seed (" " ++ hex18 0x8f3a2b1c ++ newline) = Ok 0x8f3a2b1c /\
  parse_seed (" " ++ dec 0x8f3a2b1c ++ newline) = Ok 0x8f3a2b1c.
Proof. apply seeds_read_back; by_decide. Defined.

(** Bare hexadecimal, the form a failing seed has in the name of its artifact, is
    read as decimal unless it has a letter. *)
Example bare_hex_is_ambiguous :
  parse_seed (hex16 0x8f3a2b1c) = Ok 0x8f3a2b1c /\ parse_seed (hex16 0x10) = Ok 10.
Proof. split; reflexivity. Qed.
