(* ===== verification/RealDisk.v ===== *)
(** * The real disk: [DirStorage] and [DiskFile] of [crates/chrono-sim/src/real.rs]

    The storage of a production node, over a small model of the file system it
    calls: names bound to inodes, inodes holding bytes, and open file descriptions
    with a cursor. [try_clone] makes a second handle on the same description, so
    a clone's [seek] moves the cursor of all of them. Every system call takes its
    outcome from a script: the number of bytes a read or write moves, one or more,
    or an [errno]. A script that has run out gives [None].

    The directory is the map [fs_dir]; a name is one component. What a crash does
    to the files is the subject of [KernelDisk]: [fsync] and [sync_dir] here only
    report. An error of [Mutex::lock] (poisoning) cannot arise, since nothing that
    holds the lock panics. *)

From Stdlib Require Import ZArith Lia String Ascii.
From stdpp Require Import base tactics list list_numbers gmap sets sorting strings.
From S2P Require Import Prelude Codec Types Client Msg Wal WalState WalSegments Kernel Numerals.

Open Scope list_scope.
Open Scope Z_scope.

(** ** The file system *)

Record OpenFile : Type := mkOpenFile { of_inode : Z; of_cursor : nat }.

Record Fs : Type := mkFs {
  fs_dir : gmap string Z;
  fs_inodes : gmap Z Bytes;
  fs_open : gmap Z OpenFile;
  fs_next : Z
}.

Definition Fs_empty : Fs := mkFs ∅ ∅ ∅ 0.

Inductive Outcome : Type := Did (count : nat) | Failed (errno : Z).

Definition ENOENT : Z := 2.
Definition EINTR : Z := 4.
Definition ENOSPC : Z := 28.

(** [std::io::Error]: of the operating system, or made with [Error::other]. *)
Inductive IoErr : Type := Os (errno : Z) | Custom (text : string).

Definition Sys (A : Type) : Type := list Outcome -> Fs -> option (A * list Outcome * Fs).

(** One call that fails with the [errno] of its outcome or has its effect. *)
Definition call {A} (f : Fs -> result IoErr A * Fs) : Sys (result IoErr A) := fun script fs =>
  match script with
  | [] => None
  | Failed e :: script => Some (Err (Os e), script, fs)
  | Did _ :: script => let '(r, fs) := f fs in Some (r, script, fs)
  end.

Definition finished {A} (a : A) : Sys A := fun script fs => Some (a, script, fs).

(** [?] *)
Definition and_then {A B} (m : Sys (result IoErr A)) (f : A -> Sys (result IoErr B)) : Sys (result IoErr B) :=
  fun script fs =>
    match m script fs with
    | None => None
    | Some (Err e, script, fs) => Some (Err e, script, fs)
    | Some (Ok a, script, fs) => f a script fs
    end.

Definition on_inodes (f : gmap Z Bytes -> gmap Z Bytes) (fs : Fs) : Fs :=
  mkFs (fs_dir fs) (f (fs_inodes fs)) (fs_open fs) (fs_next fs).

Definition contents (h : Z) (fs : Fs) : Bytes :=
  match fs_open fs !! h ≫= fun o => fs_inodes fs !! of_inode o with Some data => data | None => [] end.

Definition cursor (h : Z) (fs : Fs) : nat :=
  match fs_open fs !! h with Some o => of_cursor o | None => O end.

Definition move_cursor (h : Z) (off : nat) (fs : Fs) : Fs :=
  mkFs (fs_dir fs) (fs_inodes fs) (alter (fun o => mkOpenFile (of_inode o) off) h (fs_open fs)) (fs_next fs).

Definition on_contents (h : Z) (f : Bytes -> Bytes) (fs : Fs) : Fs :=
  match fs_open fs !! h with
  | Some o => on_inodes (alter f (of_inode o)) fs
  | None => fs
  end.

(** [open] with [create] and without [truncate]. *)
Definition sys_open (name : string) (fs : Fs) : result IoErr Z * Fs :=
  let fs := match fs_dir fs !! name with
            | Some _ => fs
            | None => mkFs (<[name := fs_next fs]> (fs_dir fs)) (<[fs_next fs := []]> (fs_inodes fs))
                        (fs_open fs) (fs_next fs + 1)
            end in
  match fs_dir fs !! name with
  | Some ino => (Ok (fs_next fs), mkFs (fs_dir fs) (fs_inodes fs)
                   (<[fs_next fs := mkOpenFile ino 0]> (fs_open fs)) (fs_next fs + 1))
  | None => (Err (Os ENOENT), fs)
  end.

Definition sys_seek (h : Z) (off : nat) (fs : Fs) : result IoErr unit * Fs := (Ok tt, move_cursor h off fs).

(** A read of at most [n] bytes at the cursor that moves [S count] of them, or as many as
    there are. *)
Definition sys_read (h : Z) (n count : nat) (fs : Fs) : Bytes * Fs :=
  let bytes := sub (contents h fs) (cursor h fs) (Nat.min (S count) n) in
  (bytes, move_cursor h (cursor h fs + length bytes) fs).

(** And a write of [data], which is not empty. *)
Definition sys_write (h : Z) (data : Bytes) (count : nat) (fs : Fs) : nat * Fs :=
  let bytes := take (S count) data in
  (length bytes,
   on_contents h (fun file => write_at file (cursor h fs) bytes) (move_cursor h (cursor h fs + length bytes) fs)).

Definition sys_set_len (h : Z) (len : nat) (fs : Fs) : result IoErr unit * Fs :=
  (Ok tt, on_contents h (fun file => take len (file ++ replicate (len - length file) 0)) fs).

(** [unlink]: the inode stays for whoever has it open. *)
Definition sys_unlink (name : string) (fs : Fs) : result IoErr unit * Fs :=
  match fs_dir fs !! name with
  | Some _ => (Ok tt, mkFs (delete name (fs_dir fs)) (fs_inodes fs) (fs_open fs) (fs_next fs))
  | None => (Err (Os ENOENT), fs)
  end.

(** [try_clone], [sync_all], [sync_data]: nothing that the model sees. *)
Definition sys_nothing (fs : Fs) : result IoErr unit * Fs := (Ok tt, fs).

(** ** [DiskFile] *)

Definition try_clone : Sys (result IoErr unit) := call sys_nothing.

(** The loop of [read_at]. *)
Fixpoint read_loop (h : Z) (len : nat) (buf : Bytes) (script : list Outcome) (fs : Fs) {struct script} :
    option (result IoErr Bytes * list Outcome * Fs) :=
  if (len <=? length buf)%nat then Some (Ok buf, script, fs)
  else match script with
       | [] => None
       | Failed e :: script =>
           if e =? EINTR then read_loop h len buf script fs else Some (Err (Os e), script, fs)
       | Did k :: script =>
           match sys_read h (len - length buf) k fs with
           | ([], fs) => Some (Ok buf, script, fs)
           | (bytes, fs) => read_loop h len (buf ++ bytes) script fs
           end
       end.

(** [write_all]. *)
Fixpoint write_loop (h : Z) (data : Bytes) (script : list Outcome) (fs : Fs) {struct script} :
    option (result IoErr unit * list Outcome * Fs) :=
  match data with
  | [] => Some (Ok tt, script, fs)
  | _ =>
      match script with
      | [] => None
      | Failed e :: script =>
          if e =? EINTR then write_loop h data script fs else Some (Err (Os e), script, fs)
      | Did k :: script =>
          let '(n, fs) := sys_write h data k fs in write_loop h (drop n data) script fs
      end
  end.

Definition DiskFile_write_at (h : Z) (offset : nat) (data : Bytes) : Sys (result IoErr unit) :=
  and_then try_clone (fun _ => and_then (call (sys_seek h offset)) (fun _ => write_loop h data)).

Definition DiskFile_read_at (h : Z) (offset len : nat) : Sys (result IoErr Bytes) :=
  and_then try_clone (fun _ => and_then (call (sys_seek h offset)) (fun _ => read_loop h len [])).

Definition DiskFile_fsync : Sys (result IoErr unit) := and_then try_clone (fun _ => call sys_nothing).

Definition DiskFile_truncate (h : Z) (len : nat) : Sys (result IoErr unit) :=
  and_then try_clone (fun _ => call (sys_set_len h len)).

(** Zero when the call fails. *)
Definition DiskFile_len (h : Z) : Sys nat := fun script fs =>
  match script with
  | [] => None
  | Failed _ :: script => Some (O, script, fs)
  | Did _ :: script => Some (length (contents h fs), script, fs)
  end.

(** ** [DirStorage] *)

Definition DirStorage_open (name : string) : Sys (result IoErr Z) := call (sys_open name).

(** The order in which the file system lists a directory is its own. *)
Definition DirStorage_list (read_dir : gset string -> list string) : Sys (result IoErr (list string)) :=
  call (fun fs => (Ok (merge_sort string_le (read_dir (dom (fs_dir fs)))), fs)).

Definition DirStorage_remove (name : string) : Sys (result IoErr unit) := fun script fs =>
  match call (sys_unlink name) script fs with
  | Some (Err (Os e), script, fs) => Some (if e =? ENOENT then Ok tt else Err (Os e), script, fs)
  | other => other
  end.

(** [File::open] of the directory, then [sync_all]. *)
Definition DirStorage_sync_dir : Sys (result IoErr unit) :=
  and_then (call sys_nothing) (fun _ => call sys_nothing).

(** * Theorems *)

(** ** One file *)

(** Handle [h] is on inode [ino], which holds [d], with its cursor at [c]. *)
Definition at_file (h ino : Z) (c : nat) (d : Bytes) (fs : Fs) : Prop :=
  fs_open fs !! h = Some (mkOpenFile ino c) /\ fs_inodes fs !! ino = Some d.

Definition set_file (h ino : Z) (c : nat) (d : Bytes) (fs : Fs) : Fs :=
  mkFs (fs_dir fs) (<[ino := d]> (fs_inodes fs)) (<[h := mkOpenFile ino c]> (fs_open fs)) (fs_next fs).

Lemma set_file_same h ino c d fs : at_file h ino c d fs -> set_file h ino c d fs = fs.
Proof. intros [Ho Hi]. unfold set_file. rewrite !insert_id by done. by destruct fs. Qed.

Lemma set_file_at h ino c d fs : at_file h ino c d (set_file h ino c d fs).
Proof. split; apply lookup_insert_eq. Qed.

Lemma set_file_twice h ino c d c' d' fs : set_file h ino c' d' (set_file h ino c d fs) = set_file h ino c' d' fs.
Proof. unfold set_file. simpl. by rewrite !insert_insert_eq. Qed.

Lemma at_contents h ino c d fs : at_file h ino c d fs -> contents h fs = d /\ cursor h fs = c.
Proof. intros [Ho Hi]. unfold contents, cursor. rewrite Ho. simpl. by rewrite Hi. Qed.

Lemma move_cursor_at h ino c d c' fs : at_file h ino c d fs -> move_cursor h c' fs = set_file h ino c' d fs.
Proof.
  intros [Ho Hi]. unfold move_cursor, set_file. rewrite (insert_id (fs_inodes fs)) by done. f_equal.
  apply map_eq. intros g. destruct (decide (g = h)) as [->|Hg].
  - by rewrite lookup_alter_eq, lookup_insert_eq, Ho.
  - by rewrite lookup_alter_ne, lookup_insert_ne.
Qed.

Lemma on_contents_at h ino c d f fs : at_file h ino c d fs -> on_contents h f fs = set_file h ino c (f d) fs.
Proof.
  intros [Ho Hi]. unfold on_contents, on_inodes, set_file. rewrite Ho, (insert_id (fs_open fs)) by done. f_equal. simpl.
  apply map_eq. intros i. destruct (decide (i = ino)) as [->|Hn].
  - by rewrite lookup_alter_eq, lookup_insert_eq, Hi.
  - by rewrite lookup_alter_ne, lookup_insert_ne.
Qed.

Lemma sys_read_at h ino c d n k fs :
  at_file h ino c d fs ->
  let bytes := sub d c (Nat.min (S k) n) in
  sys_read h n k fs = (bytes, set_file h ino (c + length bytes) d fs).
Proof.
  intros H. unfold sys_read. destruct (at_contents h ino c d fs H) as [-> ->].
  by rewrite (move_cursor_at h ino c d).
Qed.

Lemma sys_write_at h ino c d data k fs :
  at_file h ino c d fs ->
  let bytes := take (S k) data in
  sys_write h data k fs = (length bytes, set_file h ino (c + length bytes) (write_at d c bytes) fs).
Proof.
  intros H. unfold sys_write. destruct (at_contents h ino c d fs H) as [_ ->].
  rewrite (move_cursor_at h ino c d) by done.
  rewrite (on_contents_at h ino (c + length (take (S k) data)) d) by apply set_file_at.
  by rewrite set_file_twice.
Qed.

Lemma sub_step (d : Bytes) off a n :
  length (sub d off a) = a -> sub d off a ++ sub d (off + a) n = sub d off (a + n).
Proof.
  unfold sub. intros H. rewrite length_take, length_drop in H.
  rewrite <- drop_drop, take_take_drop. done.
Qed.

Lemma sub_length_le (d : Bytes) off n : (length (sub d off n) <= n)%nat.
Proof. unfold sub. rewrite length_take. lia. Qed.

Lemma sub_own_length (d : Bytes) off n : sub d off (length (sub d off n)) = sub d off n.
Proof. unfold sub. by rewrite length_take, <- take_take, (take_ge (drop off d)). Qed.

Lemma sub_short (d : Bytes) off n m : (length (sub d off n) < n)%nat -> (n <= m)%nat -> sub d off m = sub d off n.
Proof.
  unfold sub. rewrite length_take. intros Hl Hm. rewrite !take_ge by lia. done.
Qed.

(** The loop of a read, wherever the operating system splits or interrupts it: the
    bytes that are there, and nothing moves but the cursor. *)
Lemma read_loop_spec h ino d off len script : forall a fs r script' fs',
  (a <= len)%nat -> length (sub d off a) = a ->
  at_file h ino (off + a) d fs ->
  read_loop h len (sub d off a) script fs = Some (r, script', fs') ->
  (exists c, fs' = set_file h ino c d fs) /\ (forall b, r = Ok b -> b = sub d off len).
Proof.
  induction script as [|[k|e] script IH]; intros a fs r script' fs' Ha Hl Hat; cbn [read_loop]; rewrite Hl;
    destruct (Nat.leb_spec len a) as [Hd|Hd]; try done.
  1,2,4: intros [= <- <- <-]; split; [exists (off + a)%nat; by rewrite set_file_same|];
    intros b [= <-]; f_equal; lia.
  - rewrite (sys_read_at h ino (off + a) d) by done. cbv zeta.
    set (n := Nat.min (S k) (len - a)). destruct (sub d (off + a) n) as [|x bytes] eqn:Eb.
    + intros [= <- <- <-]. split; [eauto|]. intros b [= <-]. symmetry.
      assert (E : sub d off (a + n) = sub d off a) by (rewrite <- sub_step, Eb, app_nil_r; done).
      rewrite (sub_short d off (a + n) len); [done| rewrite E, Hl; lia | lia].
    + rewrite <- Eb, sub_step by done. set (m := length (sub d (off + a) n)).
      assert (Hm : sub d off (a + n) = sub d off (a + m)).
      { rewrite <- (sub_step d off a m), <- (sub_step d off a n) by done. unfold m. by rewrite sub_own_length. }
      assert (Hm' : (m <= n)%nat) by apply sub_length_le.
      rewrite Hm. intros H. apply IH in H.
      * destruct H as [[c ->] H]. split; [|done]. exists c. by rewrite set_file_twice.
      * lia.
      * rewrite <- Hm, <- sub_step, length_app, Hl by done. done.
      * rewrite Nat.add_assoc. apply set_file_at.
  - destruct (Z.eqb_spec e EINTR).
    + intros H. by apply IH in H.
    + intros [= <- <- <-]. split; [exists (off + a)%nat; by rewrite set_file_same|]. by intros b [=].
Qed.

Lemma write_at_grow d off p q : write_at (write_at d off p) (off + length p) q = write_at d off (p ++ q).
Proof.
  unfold write_at. set (pre := take off (d ++ replicate (off - length d) 0)).
  assert (Hp : length pre = off).
  { unfold pre. rewrite length_take, length_app, length_replicate. lia. }
  rewrite (app_assoc pre), length_app. set (front := pre ++ p).
  assert (Hf : length front = (off + length p)%nat) by (unfold front; rewrite length_app; lia).
  rewrite <- (app_assoc front), take_app_le, take_ge by lia.
  rewrite drop_app_ge, drop_drop, Hf by lia. unfold front. rewrite (length_app p). rewrite <- !app_assoc. do 4 f_equal. lia.
Qed.

(** What a file holds after the bytes [p] of a write went out; a write of nothing
    does not even extend it. *)
Definition written (d : Bytes) (off : nat) (p : Bytes) : Bytes :=
  match p with [] => d | _ => write_at d off p end.

Lemma written_grow d off p q : q <> [] -> write_at (written d off p) (off + length p) q = written d off (p ++ q).
Proof.
  intros Hq. destruct p as [|x p]; simpl; [by destruct q; rewrite ?Nat.add_0_r|].
  apply (write_at_grow d off (x :: p)).
Qed.

(** [write_all], wherever it is split: when it returns everything is written, and
    when it fails a prefix is. *)
Lemma write_loop_spec h ino d off script : forall p data fs r script' fs',
  at_file h ino (off + length p) (written d off p) fs ->
  write_loop h data script fs = Some (r, script', fs') ->
  exists q rest, data = q ++ rest /\ fs' = set_file h ino (off + length (p ++ q)) (written d off (p ++ q)) fs /\
    (r = Ok tt -> rest = []).
Proof.
  induction script as [|[k|e] script IH]; intros p data fs r script' fs' Hat; destruct data as [|x data]; cbn [write_loop];
    try done.
  1,2,4: intros [= <- <- <-]; exists [], []; rewrite (app_nil_r p); by rewrite set_file_same.
  - rewrite (sys_write_at h ino (off + length p) (written d off p)) by done. cbv zeta.
    assert (Hsplit := take_drop (S k) (x :: data)). set (q := take (S k) (x :: data)) in *.
    assert (Hq : q <> []) by done. intros H.
    rewrite written_grow, <- Nat.add_assoc, <- length_app in H by done.
    apply (IH (p ++ q)) in H as (q' & rest & Hd & -> & Hok); [|apply set_file_at].
    exists (q ++ q'), rest. rewrite !app_assoc. split_and!; [|by rewrite set_file_twice|done].
    rewrite <- app_assoc, <- Hd. rewrite <- Hsplit at 1. f_equal. unfold q. rewrite length_take.
    destruct (Nat.min_spec (S k) (length (x :: data))) as [[_ ->] | [Hl ->]]; [done|].
    by rewrite !drop_ge by (simpl in *; lia).
  - destruct (Z.eqb_spec e EINTR).
    + intros H. by apply (IH p) in H.
    + intros [= <- <- <-]. exists [], (x :: data). rewrite (app_nil_r p). by rewrite set_file_same.
Qed.
