(* ===== verification/DiskContract.v ===== *)
(** * One storage contract, two disks

    What [trait Storage] and [trait File] ([crates/chrono-sim/src/traits.rs]) promise
    while a node runs: a directory is a map from names to bytes ([spec_op]).
    The disk of [real.rs] ([RealDisk]) and that of the kernel ([Kernel]) are proved
    to implement it, so that a node sees the same answers from both
    ([both_disks_answer_alike]), as long as it asks for nothing on which the
    two differ ([permitted]): to use a file after it was removed, to cut a file to
    more than its length, to write nothing beyond its end. A caller keeps one
    handle for each name, as [Wal] does for a segment. Crashes are not in the
    contract; they are the subject of [KernelDisk]. *)

From Stdlib Require Import ZArith Lia String.
From stdpp Require Import base tactics list list_numbers gmap sets sorting strings.
From S2P Require Import Prelude Codec Types Client Rng Msg Wal WalState WalSegments Trace Fault Kernel Sim KernelRun KernelDisk Numerals RealDisk.

Open Scope list_scope.
Open Scope Z_scope.

(** ** The contract *)

Inductive StorageOp : Type :=
| SOpen (name : string)
| SWrite (name : string) (offset : nat) (data : Bytes)
| SRead (name : string) (offset len : nat)
| SFsync (name : string)
| STruncate (name : string) (len : nat)
| SLen (name : string)
| SList
| SRemove (name : string)
| SSyncDir.

Inductive Answer : Type := AUnit | ABytes (b : Bytes) | ALen (n : nat) | ANames (l : list string).

Abbreviation View := (gmap string Bytes).

Definition file_of (name : string) (v : View) : Bytes := default [] (v !! name).

Definition spec_op (op : StorageOp) (v : View) : Answer * View :=
  match op with
  | SOpen name => (AUnit, <[name := file_of name v]> v)
  | SWrite name offset data => (AUnit, <[name := write_at (file_of name v) offset data]> v)
  | SRead name offset len => (ABytes (sub (file_of name v) offset len), v)
  | STruncate name len => (AUnit, <[name := take len (file_of name v)]> v)
  | SLen name => (ALen (length (file_of name v)), v)
  | SList => (ANames (merge_sort string_le (elements (dom v))), v)
  | SRemove name => (AUnit, delete name v)
  | SFsync _ | SSyncDir => (AUnit, v)
  end.

(** The file that an operation works on, when it needs a handle. *)
Definition needs (op : StorageOp) : option string :=
  match op with
  | SWrite name _ _ | SRead name _ _ | SFsync name | STruncate name _ | SLen name => Some name
  | SOpen _ | SList | SRemove _ | SSyncDir => None
  end.

Definition permitted (op : StorageOp) (v : View) : Prop :=
  match needs op with Some name => is_Some (v !! name) | None => True end /\
  match op with
  | SWrite name offset data => data <> [] \/ (offset <= length (file_of name v))%nat
  | STruncate name len => (len <= length (file_of name v))%nat
  | _ => True
  end.

(** ** The real disk, with the handles of its caller *)

Section Real.
Context (read_dir : gset string -> list string).

Definition RealState : Type := Fs * gmap string Z.

Definition with_answer {A} (f : A -> Answer) (m : Sys (result IoErr A)) : Sys (result IoErr Answer) := fun script fs =>
  match m script fs with
  | None => None
  | Some (Ok a, script, fs) => Some (Ok (f a), script, fs)
  | Some (Err e, script, fs) => Some (Err e, script, fs)
  end.

Definition unit_answer : Sys (result IoErr unit) -> Sys (result IoErr Answer) := with_answer (fun _ => AUnit).

(** An operation on a file its caller has open as [h]. *)
Definition file_call (op : StorageOp) (h : Z) : Sys (result IoErr Answer) :=
  match op with
  | SWrite _ offset data => unit_answer (DiskFile_write_at h offset data)
  | SRead _ offset len => with_answer ABytes (DiskFile_read_at h offset len)
  | SFsync _ => unit_answer DiskFile_fsync
  | STruncate _ len => unit_answer (DiskFile_truncate h len)
  | SLen _ => fun script fs =>
      match DiskFile_len h script fs with Some (n, script, fs) => Some (Ok (ALen n), script, fs) | None => None end
  | _ => fun _ _ => None
  end.

Definition real_op (op : StorageOp) (script : list Outcome) (st : RealState) :
    option (result IoErr Answer * list Outcome * RealState) :=
  let '(fs, tbl) := st in
  let keep (m : Sys (result IoErr Answer)) tbl' :=
    match m script fs with
    | None => None
    | Some (Ok a, script, fs) => Some (Ok a, script, (fs, tbl'))
    | Some (Err e, script, fs) => Some (Err e, script, (fs, tbl))
    end in
  match op with
  | SOpen name =>
      match DirStorage_open name script fs with
      | None => None
      | Some (Ok h, script, fs) => Some (Ok AUnit, script, (fs, <[name := h]> tbl))
      | Some (Err e, script, fs) => Some (Err e, script, (fs, tbl))
      end
  | SList => keep (with_answer ANames (DirStorage_list read_dir)) tbl
  | SRemove name => keep (unit_answer (DirStorage_remove name)) (delete name tbl)
  | SSyncDir => keep (unit_answer DirStorage_sync_dir) tbl
  | _ =>
      match needs op ≫= fun name => tbl !! name with
      | Some h => keep (file_call op h) tbl
      | None => None
      end
  end.

(** A run in which no call fails, and what it answered. *)
Fixpoint real_run (ops : list StorageOp) (script : list Outcome) (st : RealState) :
    option (list Answer * list Outcome * RealState) :=
  match ops with
  | [] => Some ([], script, st)
  | op :: ops =>
      match real_op op script st with
      | Some (Ok a, script, st) =>
          match real_run ops script st with
          | Some (l, script, st) => Some (a :: l, script, st)
          | None => None
          end
      | _ => None
      end
  end.
End Real.

Fixpoint spec_run (ops : list StorageOp) (v : View) : list Answer * View :=
  match ops with
  | [] => ([], v)
  | op :: ops => let '(a, v) := spec_op op v in let '(l, v) := spec_run ops v in (a :: l, v)
  end.

Fixpoint permitted_run (ops : list StorageOp) (v : View) : Prop :=
  match ops with
  | [] => True
  | op :: ops => permitted op v /\ permitted_run ops (spec_op op v).2
  end.

(** ** The simulated disk *)

Section Simulated.
Context {F : Type} (fuel : nat) (node : NodeId).

(** Each operation to its end, with nothing in between; waiting changes no file. *)
Definition sim_op (op : StorageOp) (k : Inner (F := F)) : option (result IoFailure Answer * Inner (F := F)) :=
  let unit_of {A} (r : result IoFailure A) : result IoFailure Answer :=
    match r with Ok _ => Ok AUnit | Err e => Err e end in
  match op with
  | SOpen name => let '(r, k) := storage_open node name k in Some (unit_of r, k)
  | SWrite name offset data =>
      match file_write_at fuel node name (Z.of_nat offset) data k with
      | Some (r, k) => Some (unit_of r, k)
      | None => None
      end
  | SRead name offset len =>
      match file_read_start fuel node name (Z.of_nat offset) (Z.of_nat len) k with
      | Some (_, k) =>
          Some (match file_read_finish node name (Z.of_nat offset) (Z.of_nat len) k with
                | Ok b => Ok (ABytes b)
                | Err e => Err e
                end, k)
      | None => None
      end
  | SFsync name =>
      match file_fsync_start fuel node name k with
      | Some (Ok (_, covered), k) => let '(r, k) := file_fsync_finish node name covered k in Some (unit_of r, k)
      | Some (Err e, k) => Some (Err e, k)
      | None => None
      end
  | STruncate name len =>
      match Kernel.file_truncate fuel node name (Z.of_nat len) k with
      | Some (r, k) => Some (unit_of r, k)
      | None => None
      end
  | SLen name => Some (Ok (ALen (Z.to_nat (file_len node name k))), k)
  | SList => Some (Ok (ANames (storage_list node k)), k)
  | SRemove name => Some (Ok AUnit, storage_remove node name k)
  | SSyncDir => match sync_dir fuel k with Some (_, k) => Some (Ok AUnit, k) | None => None end
  end.

Fixpoint sim_run (ops : list StorageOp) (k : Inner (F := F)) : option (list Answer * Inner (F := F)) :=
  match ops with
  | [] => Some ([], k)
  | op :: ops =>
      match sim_op op k with
      | Some (Ok a, k) => match sim_run ops k with Some (l, k) => Some (a :: l, k) | None => None end
      | _ => None
      end
  end.

(** The files of the node as its processes see them. *)
Definition sim_view (k : Inner (F := F)) : View :=
  match k_nodes k !! node with Some n => f_view <$> nd_files n | None => ∅ end.
End Simulated.

(** * Theorems *)

(** ** The real disk implements the map *)

Definition view (fs : Fs) : View := omap (fun ino => fs_inodes fs !! ino) (fs_dir fs).

(** Names have their own inodes; the handles of the caller are on the file of their
    name. *)
Record host_inv (st : RealState) : Prop := {
  hi_inode : forall name ino, fs_dir st.1 !! name = Some ino -> is_Some (fs_inodes st.1 !! ino) /\ ino < fs_next st.1;
  hi_inj : forall n1 n2 ino, fs_dir st.1 !! n1 = Some ino -> fs_dir st.1 !! n2 = Some ino -> n1 = n2;
  hi_handle : forall name h, st.2 !! name = Some h ->
    h < fs_next st.1 /\ exists ino c d, fs_dir st.1 !! name = Some ino /\ at_file h ino c d st.1
}.

Lemma view_lookup name fs : view fs !! name = fs_dir fs !! name ≫= fun ino => fs_inodes fs !! ino.
Proof. apply lookup_omap. Qed.

Lemma view_file fs name ino d : fs_dir fs !! name = Some ino -> fs_inodes fs !! ino = Some d -> view fs !! name = Some d.
Proof. intros Hd Hi. by rewrite view_lookup, Hd. Qed.

Lemma host_inv_empty : host_inv (Fs_empty, ∅).
Proof. split; intros *; simpl; by rewrite lookup_empty. Qed.

(** A call on one open file changes that file. *)
Lemma set_file_step fs tbl name h ino c d c' d' :
  host_inv (fs, tbl) -> fs_dir fs !! name = Some ino -> at_file h ino c d fs ->
  host_inv (set_file h ino c' d' fs, tbl) /\ view (set_file h ino c' d' fs) = <[name := d']> (view fs).
Proof.
  intros [Hi Hj Hh] Hd [Ho Hn]. simpl in *. split.
  - split; simpl; [|done|].
    + intros n i H. destruct (Hi n i H) as [Hs Hl]. split; [|done]. rewrite lookup_insert_is_Some. destruct (decide (ino = i)); auto.
    + intros n g H. destruct (Hh n g H) as (Hl & i & cg & dg & Hdir & Hog & Hig). split; [done|].
      destruct (decide (h = g)) as [->|Hne].
      * assert (i = ino) as -> by congruence. exists ino, c', d'. split; [done|]. apply set_file_at.
      * destruct (decide (i = ino)) as [->|Hni].
        -- exists ino, cg, d'. split; [done|]. split; simpl; [by rewrite lookup_insert_ne|by rewrite lookup_insert_eq].
        -- exists i, cg, dg. split; [done|]. split; simpl; by rewrite lookup_insert_ne.
  - apply map_eq. intros n. rewrite view_lookup. simpl. destruct (decide (n = name)) as [->|Hne].
    + rewrite lookup_insert_eq, Hd. simpl. by rewrite lookup_insert_eq.
    + rewrite lookup_insert_ne, view_lookup by done. destruct (fs_dir fs !! n) as [i|] eqn:E; [|done]. simpl.
      rewrite lookup_insert_ne; [done|]. intros ->. apply Hne. by eapply Hj.
Qed.

(** ** The calls on a file *)

Section Handle.
Context (h ino : Z) (c : nat) (d : Bytes) (fs : Fs) (Hat : at_file h ino c d fs).

Lemma seek_then {A} (offset : nat) (loop : Sys (result IoErr A)) script r script' fs' :
  and_then try_clone (fun _ => and_then (call (sys_seek h offset)) (fun _ => loop)) script fs = Some (r, script', fs') ->
  (fs' = fs /\ exists e, r = Err e) \/
  exists script0, loop script0 (set_file h ino offset d fs) = Some (r, script', fs').
Proof.
  unfold and_then, try_clone, call, sys_nothing, sys_seek. destruct script as [|[k|e] script]; [done| |].
  - destruct script as [|[k'|e] script]; [done| |].
    + rewrite (move_cursor_at h ino c d offset fs Hat). eauto.
    + intros [= <- <- <-]. eauto.
  - intros [= <- <- <-]. eauto.
Qed.

Lemma read_at_spec offset len script r script' fs' :
  DiskFile_read_at h offset len script fs = Some (r, script', fs') ->
  (exists c', fs' = set_file h ino c' d fs) /\ (forall b, r = Ok b -> b = sub d offset len).
Proof.
  intros H. apply seek_then in H as [[-> [e ->]] | [script0 H]].
  - split; [exists c; by rewrite set_file_same|]. by intros b [=].
  - change [] with (sub d offset 0) in H. apply (read_loop_spec h ino d) in H; [|lia|done|].
    + destruct H as [[c' ->] H]. split; [|done]. exists c'. by rewrite set_file_twice.
    + rewrite Nat.add_0_r. apply set_file_at.
Qed.

Lemma write_at_spec offset data script r script' fs' :
  DiskFile_write_at h offset data script fs = Some (r, script', fs') ->
  exists q rest c', data = q ++ rest /\ fs' = set_file h ino c' (written d offset q) fs /\ (r = Ok tt -> rest = []).
Proof.
  intros H. apply seek_then in H as [[-> [e ->]] | [script0 H]].
  - exists [], data, c. split; [done|]. split; [by rewrite set_file_same|]. by intros [=].
  - apply (write_loop_spec h ino d offset _ []) in H as (q & rest & -> & -> & Hok).
    + exists q, rest, (offset + length q)%nat. split_and!; [done| |done]. by rewrite set_file_twice.
    + rewrite Nat.add_0_r. apply set_file_at.
Qed.

Lemma truncate_spec len script r script' fs' :
  DiskFile_truncate h len script fs = Some (r, script', fs') ->
  (fs' = fs /\ exists e, r = Err e) \/
  (r = Ok tt /\ fs' = set_file h ino c (take len (d ++ replicate (len - length d) 0)) fs).
Proof.
  unfold DiskFile_truncate, and_then, try_clone, call, sys_nothing, sys_set_len.
  destruct script as [|[k|e] script]; [done| |].
  - destruct script as [|[k'|e] script]; [done| |].
    + rewrite (on_contents_at h ino c d) by done. intros [= <- <- <-]. auto.
    + intros [= <- <- <-]. eauto.
  - intros [= <- <- <-]. eauto.
Qed.
End Handle.

(** What a failed operation leaves: the files as they were, but for a write, of which
    a prefix may be in the file. *)
Definition refused (op : StorageOp) (v v' : View) : Prop :=
  v' = v \/
  match op with
  | SWrite name offset data =>
      exists q rest, data = q ++ rest /\ q <> [] /\ v' = <[name := write_at (file_of name v) offset q]> v
  | _ => False
  end.

(** [len] answers zero when [fstat] fails; and [unlink] reports an absent name only
    when it is absent. *)
Definition honest (op : StorageOp) (script : list Outcome) : Prop :=
  match op, script with
  | SLen _, Failed _ :: _ => False
  | SRemove _, Failed e :: _ => e <> ENOENT
  | _, _ => True
  end.

Definition obeys (op : StorageOp) (script : list Outcome) (r : result IoErr Answer) (v v' : View) : Prop :=
  match r with
  | Ok a => permitted op v -> honest op script -> spec_op op v = (a, v')
  | Err _ => refused op v v'
  end.

Lemma file_of_lookup name d (v : View) : v !! name = Some d -> file_of name v = d.
Proof. unfold file_of. by intros ->. Qed.

Lemma insert_same name (v : View) : is_Some (v !! name) -> <[name := file_of name v]> v = v.
Proof. intros [d H]. by rewrite insert_id; [|rewrite (file_of_lookup _ d)]. Qed.

Lemma file_call_step op name tbl h script fs r script' fs' :
  host_inv (fs, tbl) -> needs op = Some name -> tbl !! name = Some h ->
  file_call op h script fs = Some (r, script', fs') ->
  host_inv (fs', tbl) /\ obeys op script r (view fs) (view fs').
Proof.
  intros Hinv Hneed Htbl Hcall. destruct (hi_handle _ Hinv name h Htbl) as (_ & ino & c & d & Hdir & Hat). simpl in Hdir, Hat.
  assert (Hv : view fs !! name = Some d) by (destruct Hat; by eapply view_file).
  assert (Hstep := set_file_step fs tbl name h ino c d).
  destruct op; try done; injection Hneed as ->; simpl in Hcall; unfold unit_answer, with_answer in Hcall.
  - destruct (DiskFile_write_at h offset data script fs) as [[[[[]|e] s1] fs1]|] eqn:E; [| |done];
      injection Hcall as <- <- <-;
      destruct (write_at_spec h ino c d fs Hat _ _ _ _ _ _ E) as (q & rest & c' & -> & -> & Hok);
      destruct (Hstep c' (written d offset q) Hinv Hdir Hat) as [Hi ->]; (split; [done|]); simpl.
    + rewrite (Hok eq_refl), app_nil_r. intros [_ Hp] _. simpl in Hp. rewrite (file_of_lookup name d) in * by done.
      destruct q as [|x q]; [|done]. simpl. do 2 f_equal. destruct Hp as [|Hp]; [done|].
      unfold write_at. rewrite Nat.add_0_r. simpl. by rewrite take_app_le, take_drop.
    + destruct q as [|x q]; [left; by apply insert_id|]. right. exists (x :: q), rest. by rewrite (file_of_lookup name d).
  - destruct (DiskFile_read_at h offset len script fs) as [[[[b|e] s1] fs1]|] eqn:E; [| |done];
      injection Hcall as <- <- <-;
      destruct (read_at_spec h ino c d fs Hat _ _ _ _ _ _ E) as [[c' ->] Hok];
      destruct (Hstep c' d Hinv Hdir Hat) as [Hi ->]; (split; [done|]); simpl; rewrite insert_id by done; [|by left].
    intros _ _. by rewrite (file_of_lookup name d), (Hok b).
  - unfold DiskFile_fsync, and_then, try_clone, call, sys_nothing in Hcall.
    repeat (case_match; simplify_eq; try done); (split; [done|]); simpl; first [by left | done].
  - destruct (DiskFile_truncate h len script fs) as [[[[[]|e] s1] fs1]|] eqn:E; [| |done];
      injection Hcall as <- <- <-; destruct (truncate_spec h ino c d fs Hat _ _ _ _ _ E) as [[-> [e' He]] | [He ->]]; try done.
    + destruct (Hstep c (take len (d ++ replicate (len - length d) 0)) Hinv Hdir Hat) as [Hi ->]. split; [done|].
      simpl. intros [_ Hp] _. simpl in Hp. rewrite (file_of_lookup name d) in * by done.
      by rewrite take_app_le.
    + split; [done|]. by left.
  - unfold DiskFile_len in Hcall. destruct script as [|[k|e] script]; [done| |]; injection Hcall as <- <- <-; (split; [done|]); simpl; [|done].
    intros _ _. rewrite (file_of_lookup name d) by done. destruct (at_contents h ino c d fs Hat) as [-> _]. done.
Qed.

(** ** The calls on the directory *)

Lemma host_inv_open fs tbl name ino :
  host_inv (fs, tbl) -> fs_dir fs !! name = Some ino ->
  host_inv (mkFs (fs_dir fs) (fs_inodes fs) (<[fs_next fs := mkOpenFile ino 0]> (fs_open fs)) (fs_next fs + 1),
            <[name := fs_next fs]> tbl).
Proof.
  intros [Hi Hj Hh] Hd. simpl in *. split; simpl; [|done|].
  - intros n i H. destruct (Hi n i H). split; [done|lia].
  - intros n h H. destruct (decide (n = name)) as [->|Hne].
    + rewrite lookup_insert_eq in H. injection H as <-. split; [lia|]. destruct (Hi name ino Hd) as [[d Hino] _].
      exists ino, 0%nat, d. split; [done|]. split; [apply lookup_insert_eq|done].
    + rewrite lookup_insert_ne in H by done. destruct (Hh n h H) as (Hl & i & c & d & Hdir & Ho & Hin). split; [lia|].
      exists i, c, d. split; [done|]. split; simpl; [rewrite lookup_insert_ne by lia|]; done.
Qed.

Lemma host_inv_create fs tbl name :
  host_inv (fs, tbl) -> fs_dir fs !! name = None ->
  host_inv (mkFs (<[name := fs_next fs]> (fs_dir fs)) (<[fs_next fs := []]> (fs_inodes fs)) (fs_open fs) (fs_next fs + 1), tbl).
Proof.
  intros [Hi Hj Hh] Hd. simpl in *. split; simpl.
  - intros n i H. destruct (decide (n = name)) as [->|Hne].
    + rewrite lookup_insert_eq in H. injection H as <-. rewrite lookup_insert_eq. split; [done|lia].
    + rewrite lookup_insert_ne in H by done. destruct (Hi n i H) as [Hs Hl]. rewrite lookup_insert_ne by lia. split; [done|lia].
  - intros n1 n2 i. rewrite !lookup_insert. repeat case_decide; try congruence.
    + intros [= <-] H2. destruct (Hi n2 _ H2). lia.
    + intros H1 [= <-]. destruct (Hi n1 _ H1). lia.
    + apply Hj.
  - intros n h H. destruct (Hh n h H) as (Hl & i & c & d & Hdir & Ho & Hin). split; [lia|].
    destruct (Hi n i Hdir) as [_ Hlt]. exists i, c, d. rewrite lookup_insert_ne by congruence.
    split; [done|]. split; simpl; [done|]. by rewrite lookup_insert_ne by lia.
Qed.

Lemma view_create fs name :
  fs_dir fs !! name = None -> (forall n ino, fs_dir fs !! n = Some ino -> ino < fs_next fs) ->
  view (mkFs (<[name := fs_next fs]> (fs_dir fs)) (<[fs_next fs := []]> (fs_inodes fs)) (fs_open fs) (fs_next fs + 1)) =
    <[name := []]> (view fs).
Proof.
  intros Hd Hlt. apply map_eq. intros n. rewrite view_lookup. simpl. destruct (decide (n = name)) as [->|Hne].
  - rewrite !lookup_insert_eq. simpl. by rewrite lookup_insert_eq.
  - rewrite !lookup_insert_ne, view_lookup by done. destruct (fs_dir fs !! n) as [i|] eqn:E; [|done]. simpl.
    apply Hlt in E. by rewrite lookup_insert_ne by lia.
Qed.

Lemma open_step name tbl script fs h script' fs' :
  host_inv (fs, tbl) -> DirStorage_open name script fs = Some (Ok h, script', fs') ->
  host_inv (fs', <[name := h]> tbl) /\ view fs' = <[name := file_of name (view fs)]> (view fs).
Proof.
  unfold DirStorage_open, call, sys_open. intros Hinv H. destruct script as [|[k|e] script]; try done.
  destruct (fs_dir fs !! name) as [ino|] eqn:Hd.
  - rewrite Hd in H. injection H as <- <- <-. split; [by apply host_inv_open|].
    destruct (hi_inode _ Hinv name ino Hd) as [[d Hino] _]. change (view fs = <[name := file_of name (view fs)]> (view fs)).
    rewrite insert_same; [done|]. rewrite (view_file fs name ino d); done.
  - cbn [fs_dir] in H. rewrite lookup_insert_eq in H. injection H as <- <- <-.
    match goal with |- host_inv (mkFs ?a ?b _ _, _) /\ _ => set (fs1 := mkFs a b (fs_open fs) (fs_next fs + 1)) end.
    assert (H1 : host_inv (fs1, tbl)) by by apply host_inv_create.
    split; [apply (host_inv_open fs1 tbl); [done|apply lookup_insert_eq]|].
    change (view fs1 = <[name := file_of name (view fs)]> (view fs)).
    unfold fs1. rewrite view_create; [|done|by intros n i Hn; destruct (hi_inode _ Hinv n i Hn)].
    unfold file_of. by rewrite view_lookup, Hd.
Qed.

Lemma host_inv_remove fs tbl name :
  host_inv (fs, tbl) ->
  host_inv (mkFs (delete name (fs_dir fs)) (fs_inodes fs) (fs_open fs) (fs_next fs), delete name tbl).
Proof.
  intros [Hi Hj Hh]. simpl in *. split; simpl.
  - intros n i [_ H]%lookup_delete_Some. by apply (Hi n).
  - intros n1 n2 i [_ H1]%lookup_delete_Some [_ H2]%lookup_delete_Some. by eapply Hj.
  - intros n h [Hne H]%lookup_delete_Some. destruct (Hh n h H) as (Hl & i & c & d & Hdir & Hat). split; [done|].
    exists i, c, d. by rewrite lookup_delete_ne.
Qed.

Lemma view_remove fs name : view (mkFs (delete name (fs_dir fs)) (fs_inodes fs) (fs_open fs) (fs_next fs)) = delete name (view fs).
Proof. unfold view. simpl. by rewrite omap_delete. Qed.

Lemma host_inv_forget fs tbl name : host_inv (fs, tbl) -> host_inv (fs, delete name tbl).
Proof. intros [Hi Hj Hh]. split; [done..|]. simpl. intros n h [_ H]%lookup_delete_Some. by apply (Hh n). Qed.

Lemma remove_step name tbl script fs script' fs' :
  host_inv (fs, tbl) -> honest (SRemove name) script ->
  DirStorage_remove name script fs = Some (Ok tt, script', fs') ->
  host_inv (fs', delete name tbl) /\ view fs' = delete name (view fs).
Proof.
  unfold DirStorage_remove, call, sys_unlink. intros Hinv Hh H. destruct script as [|[k|e] script]; [done| |].
  - destruct (fs_dir fs !! name) as [ino|] eqn:Hd; simpl in H; injection H as <- <-.
    + split; [by apply host_inv_remove|apply view_remove].
    + split; [by apply host_inv_forget|]. rewrite delete_id; [done|]. by rewrite view_lookup, Hd.
  - simpl in Hh. destruct (Z.eqb_spec e ENOENT); [done|]. done.
Qed.

(** ** One operation, then many *)

Section Refinement.
Context (read_dir : gset string -> list string).
Hypothesis read_dir_lists : forall d, read_dir d ≡ₚ elements d.

Lemma dom_view fs tbl : host_inv (fs, tbl) -> dom (view fs) = dom (fs_dir fs).
Proof.
  intros Hinv. apply set_eq. intros n. rewrite !elem_of_dom, view_lookup. destruct (fs_dir fs !! n) as [i|] eqn:E; simpl.
  - destruct (hi_inode _ Hinv n i E) as [Hs _]. split; [done|]. intros _. exact Hs.
  - split; intros [? [=]].
Qed.

(** Every operation of the real disk, on every outcome of its system calls. *)
Lemma real_op_refines op script st r script' st' :
  host_inv st -> honest op script -> real_op read_dir op script st = Some (r, script', st') ->
  host_inv st' /\ obeys op script r (view st.1) (view st'.1).
Proof.
  destruct st as [fs tbl]. intros Hinv Hhon H.
  destruct (needs op) as [name|] eqn:Hneed.
  - assert (Hop : exists h, tbl !! name = Some h /\ exists r0 fs0,
      file_call op h script fs = Some (r0, script', fs0) /\ st' = (fs0, tbl) /\ r = r0).
    { destruct op; try done; simpl in H, Hneed; injection Hneed as ->; simpl in H;
        (destruct (tbl !! name) as [h|] eqn:Ht; [|done]); exists h; (split; [done|]);
        revert H; simpl; match goal with |- (match ?m with _ => _ end) = _ -> _ => destruct m as [[[[a|e] s1] fs1]|] end;
        try done; intros [= <- <- <-]; eauto. }
    destruct Hop as (h & Ht & r0 & fs0 & Hc & -> & ->). by eapply file_call_step.
  - destruct op; try done; simpl in H.
    + destruct (DirStorage_open name script fs) as [[[[h|e] s1] fs1]|] eqn:E; [| |done]; injection H as <- <- <-.
      * destruct (open_step name tbl _ _ _ _ _ Hinv E) as [Hi Hv]. split; [done|]. simpl. by rewrite Hv.
      * unfold DirStorage_open, call in E. destruct script as [|[k|e'] script]; [done| |].
        -- unfold sys_open in E. destruct (fs_dir fs !! name) as [i|] eqn:Hd; simpl in E;
             rewrite ?Hd, ?lookup_insert_eq in E; done.
        -- injection E as <- <- <-. split; [done|by left].
    + unfold with_answer, DirStorage_list, call in H. destruct script as [|[k|e] script]; [done| |]; injection H as <- <- <-.
      * split; [done|]. intros _ _. simpl. rewrite (dom_view fs tbl) by done. do 2 f_equal.
        by rewrite (sort_strings _ _ (read_dir_lists (dom (fs_dir fs)))).
      * split; [done|by left].
    + unfold unit_answer, with_answer in H.
      destruct (DirStorage_remove name script fs) as [[[[[]|e] s1] fs1]|] eqn:E; [| |done]; injection H as <- <- <-.
      * destruct (remove_step name tbl _ _ _ _ Hinv Hhon E) as [Hi Hv]. split; [done|]. simpl. by rewrite Hv.
      * assert (fs1 = fs) as ->; [|split; [done|by left]].
        unfold DirStorage_remove, call, sys_unlink in E. repeat (case_match; simplify_eq; try done).
    + unfold unit_answer, with_answer, DirStorage_sync_dir, and_then, call, sys_nothing in H.
      repeat (case_match; simplify_eq; try done); (split; [done|]); simpl; first [by left | done].
Qed.
End Refinement.

(** ** The simulated disk implements the map *)

Section SimulatedSteps.
Context {F : Type} (fuel : nat) (node : NodeId).
Abbreviation Inner := (Inner (F := F)).

Lemma sim_view_node (k : Inner) n : k_nodes k !! node = Some n -> sim_view node k = f_view <$> nd_files n.
Proof. unfold sim_view. by intros ->. Qed.

Lemma sim_view_same (k k' : Inner) : k_nodes k' = k_nodes k -> sim_view node k' = sim_view node k.
Proof. unfold sim_view. by intros ->. Qed.

(** A change to one file of the node. *)
Lemma sim_view_file (k k' : Inner) n (g : NodeState -> NodeState) name f f' :
  k_nodes k !! node = Some n -> nd_files n !! name = Some f ->
  k_nodes k' = alter g node (k_nodes k) -> nd_files (g n) = <[name := f']> (nd_files n) ->
  sim_view node k' = <[name := f_view f']> (sim_view node k) /\ file_of name (sim_view node k) = f_view f.
Proof.
  intros Hn Hf Hk' Hg. rewrite (sim_view_node k n) by done.
  rewrite (sim_view_node k' (g n)) by (by rewrite Hk', lookup_alter_eq, Hn).
  rewrite Hg, fmap_insert. split; [done|]. unfold file_of. by rewrite lookup_fmap, Hf.
Qed.

Lemma sim_write name offset data (k k' : Inner) slot :
  file_write_at fuel node name (Z.of_nat offset) data k = Some (Ok slot, k') ->
  sim_view node k' = <[name := write_at (file_of name (sim_view node k)) offset data]> (sim_view node k).
Proof.
  unfold file_write_at. destruct (k_nodes k !! node) as [n|] eqn:Hn; [|done].
  destruct (nd_up n); cbn [negb]; [|done]. destruct (over_quota _ _ _); [done|].
  set (growth := ssub _ _). set (k1 := on_node node _ k).
  assert (Hf1 : node_file node name k1 = nd_files n !! name).
  { unfold node_file, k1. simpl. by rewrite lookup_alter_eq, Hn. }
  rewrite Hf1. destruct (nd_files n !! name) as [f|] eqn:Hf; [|done].
  intros H. apply wait_for_frame in H as [_ H].
  destruct (sim_view_file k k' n (fun n => n |> set_used_bytes (nd_used_bytes n + growth)
      |> set_files (alter (file_op (PWrite (Z.to_nat (Z.of_nat offset)) data)) name (nd_files n))) name f
      (file_op (PWrite (Z.to_nat (Z.of_nat offset)) data) f)) as [-> ->]; try done.
  - rewrite H. simpl. apply map_eq. intros i. destruct (decide (i = node)) as [->|Hi];
      [by rewrite !lookup_alter_eq, Hn | by rewrite !lookup_alter_ne].
  - simpl. by apply alter_insert_eq.
  - simpl. by rewrite Nat2Z.id.
Qed.

Lemma sim_truncate name len (k k' : Inner) slot :
  Kernel.file_truncate fuel node name (Z.of_nat len) k = Some (Ok slot, k') ->
  sim_view node k' = <[name := take len (file_of name (sim_view node k))]> (sim_view node k).
Proof.
  unfold Kernel.file_truncate. destruct (node_file node name k) as [f|] eqn:Hf; [|done].
  intros H. apply wait_for_frame in H as [_ H]. apply node_file_Some in Hf as (n & Hn & Hf).
  destruct (sim_view_file k k' n (fun n => n |> set_files (alter (file_op (PTruncate (Z.to_nat (Z.of_nat len)))) name (nd_files n))
    |> set_used_bytes (ssub (nd_used_bytes n) (ssub (Z.of_nat (length (f_view f))) (Z.of_nat len)))) name f
    (file_op (PTruncate (Z.to_nat (Z.of_nat len))) f)) as [-> ->]; try done.
  - rewrite H. simpl. apply map_eq. intros i. destruct (decide (i = node)) as [->|Hi];
      [by rewrite !lookup_alter_eq, Hn | by rewrite !lookup_alter_ne].
  - simpl. by apply alter_insert_eq.
  - simpl. by rewrite Nat2Z.id.
Qed.
Lemma sim_flush name covered (k k' : Inner) :
  file_fsync_finish node name covered k = (Ok tt, k') -> sim_view node k' = sim_view node k.
Proof.
  unfold file_fsync_finish. destruct (k_nodes k !! node) as [n|] eqn:Hn; [|done].
  destruct (nd_up n); cbn [negb]; [|done]. destruct (nd_files n !! name) as [f|] eqn:Hf; [|done]. intros [= <-].
  rewrite (sim_view_node k n), (sim_view_node _ (set_files (alter (flush covered) name (nd_files n)) n)); [| |done].
  - simpl. rewrite (alter_insert_eq _ _ f), fmap_insert by done. simpl. apply insert_id. by rewrite lookup_fmap, Hf.
  - unfold on_file, on_node. simpl. by rewrite lookup_alter_eq, Hn.
Qed.

Lemma sim_open name (k k' : Inner) :
  storage_open node name k = (Ok tt, k') ->
  sim_view node k' = <[name := file_of name (sim_view node k)]> (sim_view node k).
Proof.
  unfold storage_open. destruct (k_nodes k !! node) as [n|] eqn:Hn; [|done]. intros [= <-].
  rewrite (sim_view_node k n) by done. unfold sim_view, on_node. simpl. rewrite lookup_alter_eq, Hn. simpl.
  unfold file_of. rewrite lookup_fmap. destruct (nd_files n !! name) as [f|] eqn:Hf; simpl.
  - rewrite insert_id; [done|]. by rewrite lookup_fmap, Hf.
  - by rewrite fmap_insert.
Qed.

Lemma sim_remove name (k : Inner) : sim_view node (storage_remove node name k) = delete name (sim_view node k).
Proof.
  unfold sim_view, storage_remove, on_node. simpl. destruct (k_nodes k !! node) as [n|] eqn:Hn.
  - rewrite lookup_alter_eq, Hn. simpl. destruct (nd_files n !! name) as [f|] eqn:Hf; simpl.
    + by rewrite fmap_delete.
    + rewrite delete_id; [done|]. by rewrite lookup_fmap, Hf.
  - rewrite lookup_alter_eq, Hn. simpl. by rewrite delete_empty.
Qed.

Lemma sim_list (k : Inner) : storage_list node k = merge_sort string_le (elements (dom (sim_view node k))).
Proof.
  unfold storage_list, file_names, sim_view. destruct (k_nodes k !! node) as [n|]; [by rewrite dom_fmap_L|].
  by rewrite dom_empty_L, elements_empty.
Qed.

(** Every operation that the simulated disk answers, it answers as the map does. *)
Lemma sim_op_refines op (k k' : Inner) a :
  sim_op fuel node op k = Some (Ok a, k') -> spec_op op (sim_view node k) = (a, sim_view node k').
Proof.
  destruct op; simpl.
  - destruct (storage_open node name k) as [[[]|e] k1] eqn:E; [|done]. intros [= <- <-]. by rewrite (sim_open _ _ _ E).
  - destruct (file_write_at _ _ _ _ _ k) as [[[s|e] k1]|] eqn:E; try done. intros [= <- <-]. by rewrite (sim_write _ _ _ _ _ _ E).
  - destruct (file_read_start _ _ _ _ _ k) as [[r k1]|] eqn:E; [|done]. unfold file_read_start in E.
    apply wait_for_frame in E as [_ E]. apply (sim_view_same k) in E. rewrite <- E.
    unfold file_read_finish. destruct (node_file node name k1) as [f|] eqn:Hf; [|done]. intros [= <- <-].
    apply node_file_Some in Hf as (n & Hn & Hf). unfold file_of.
    by rewrite (sim_view_node k1 n), lookup_fmap, Hf, !Nat2Z.id by done.
  - destruct (file_fsync_start _ _ _ k) as [[[[s c]|e] k1]|] eqn:E; try done.
    assert (H1 : sim_view node k1 = sim_view node k).
    { unfold file_fsync_start in E. destruct (node_file node name k) as [f|]; [|done].
      match type of E with (match ?m with _ => _ end) = _ => destruct m as [[[x|x] k2]|] eqn:E2 end; try done.
      injection E as <- <- <-. apply wait_for_frame in E2 as [_ E2]. by apply (sim_view_same k) in E2. }
    destruct (file_fsync_finish node name c k1) as [[[]|e] k2] eqn:E2; [|done]. intros [= <- <-].
    by rewrite (sim_flush _ _ _ _ E2), H1.
  - destruct (Kernel.file_truncate _ _ _ _ k) as [[[s|e] k1]|] eqn:E; try done. intros [= <- <-]. by rewrite (sim_truncate _ _ _ _ _ E).
  - intros [= <- <-]. do 2 f_equal. unfold file_len, file_of, sim_view, node_file.
    destruct (k_nodes k !! node) as [n|]; simpl; [|by rewrite lookup_empty].
    rewrite lookup_fmap. by destruct (nd_files n !! name) as [f|]; simpl; rewrite ?Nat2Z.id.
  - intros [= <- <-]. by rewrite sim_list.
  - intros [= <- <-]. by rewrite sim_remove.
  - destruct (sync_dir fuel k) as [[s k1]|] eqn:E; [|done]. intros [= <- <-]. apply sync_dir_same in E as [_ E]. by rewrite (sim_view_same k k1 E).
Qed.
End SimulatedSteps.

(** ** The two disks *)

Lemma spec_run_cons op ops v a v' : spec_op op v = (a, v') ->
  spec_run (op :: ops) v = (a :: (spec_run ops v').1, (spec_run ops v').2).
Proof. intros H. simpl. rewrite H. by destruct (spec_run ops v'). Qed.

Section Agreement.
Context (read_dir : gset string -> list string).
Hypothesis read_dir_lists : forall d, read_dir d ≡ₚ elements d.

(** [honest] all along a run. *)
Fixpoint honest_run (ops : list StorageOp) (script : list Outcome) (st : RealState) : Prop :=
  match ops with
  | [] => True
  | op :: ops =>
      honest op script /\
      match real_op read_dir op script st with
      | Some (_, script, st) => honest_run ops script st
      | None => True
      end
  end.

Lemma real_run_refines ops : forall script st answers script' st',
  host_inv st -> permitted_run ops (view st.1) -> honest_run ops script st ->
  real_run read_dir ops script st = Some (answers, script', st') ->
  host_inv st' /\ spec_run ops (view st.1) = (answers, view st'.1).
Proof.
  induction ops as [|op ops IH]; intros script st answers script' st' Hinv Hp Hh H; simpl in H.
  - by injection H as <- <- <-.
  - destruct Hp as [Hp Hps], Hh as [Hh Hhs].
    destruct (real_op read_dir op script st) as [[[[a|e] s1] st1]|] eqn:E; try done.
    destruct (real_run read_dir ops s1 st1) as [[[l s2] st2]|] eqn:E2; [|done]. injection H as <- <- <-.
    destruct (real_op_refines read_dir read_dir_lists _ _ _ _ _ _ Hinv Hh E) as [Hinv1 Ho]. specialize (Ho Hp Hh).
    rewrite Ho in Hps. destruct (IH _ _ _ _ _ Hinv1 Hps Hhs E2) as [Hinv2 Hs]. split; [done|].
    by rewrite (spec_run_cons _ _ _ _ _ Ho), Hs.
Qed.

Lemma sim_run_refines {F} fuel node ops : forall (k k' : Inner (F := F)) answers,
  sim_run fuel node ops k = Some (answers, k') -> spec_run ops (sim_view node k) = (answers, sim_view node k').
Proof.
  induction ops as [|op ops IH]; intros k k' answers H; simpl in H; [by injection H as <- <-|].
  destruct (sim_op fuel node op k) as [[[a|e] k1]|] eqn:E; try done.
  destruct (sim_run fuel node ops k1) as [[l k2]|] eqn:E2; [|done]. injection H as <- <-.
  rewrite (spec_run_cons _ _ _ _ _ (sim_op_refines fuel node _ _ _ _ E)). by rewrite (IH _ _ _ E2).
Qed.
End Agreement.

(** C15: What a node sees of its disk is the same in production and in simulation, for
    the operations both agree on. From states that show the same files, take a sequence of
    operations such that ([permitted_run]) each write, read, fsync, truncation or length is
    of a file that exists, through the handle that its last opening gave and that no
    removal took away, no truncation extends the file, and no empty write lies beyond the
    end; and such that ([honest_run]) the operating system
    does not fail [fstat], whose failure reads as length zero, and does not call a name
    absent that it lists. If none of the operations is refused, they are answered
    alike by [real.rs], however the operating system splits and interrupts its reads
    and writes and lists its directories, and by the simulated disk, whatever
    latencies it draws; and they end showing the same files. *)
Theorem both_disks_answer_alike {F} (read_dir : gset string -> list string) fuel node ops
    script script' st st' (k k' : Inner (F := F)) answers answers' :
  (forall d, read_dir d ≡ₚ elements d) ->
  host_inv st -> view st.1 = sim_view node k ->
  permitted_run ops (view st.1) -> honest_run read_dir ops script st ->
  real_run read_dir ops script st = Some (answers, script', st') ->
  sim_run fuel node ops k = Some (answers', k') ->
  answers = answers' /\ view st'.1 = sim_view node k'.
Proof.
  intros Hr Hinv Hv Hp Hh Hreal Hsim.
  destruct (real_run_refines read_dir Hr _ _ _ _ _ _ Hinv Hp Hh Hreal) as [_ H1].
  apply sim_run_refines in Hsim. rewrite Hv, Hsim in H1. by injection H1 as -> ->.
Qed.

Definition demo_ops : list StorageOp :=
  [SOpen "wal"; SWrite "wal" 0 [1; 2; 3]; SOpen "state"; SWrite "wal" 3 [4; 5]; SRead "wal" 1 9; SFsync "wal";
   STruncate "wal" 4; SLen "wal"; SList; SRemove "state"; SSyncDir; SList]%string.

(** Short transfers and interruptions. *)
Definition demo_script : list Outcome :=
  [Did 0; Did 0; Did 0; Did 1; Failed EINTR; Did 0; Did 0; Did 0; Did 0; Did 9; Did 0; Did 0; Did 0; Did 1; Failed EINTR;
   Did 0; Did 5; Did 0; Did 0; Did 0; Did 0; Did 0; Did 0; Did 0; Did 0; Did 0; Did 0; Did 0].

Definition backwards (d : gset string) : list string := reverse (elements d).

Definition demo_kernel : Inner (F := unit) := booted tt benign.

Lemma both_disks_answer_alike_witness :
  match real_run backwards demo_ops demo_script (Fs_empty, ∅), sim_run 8 0 demo_ops demo_kernel with
  | Some (answers, _, st'), Some (answers', k') =>
      answers = answers' /\ view st'.1 = sim_view 0 k'
  | _, _ => False
  end.
Proof.
  destruct (real_run backwards demo_ops demo_script (Fs_empty, ∅)) as [[[answers script'] st']|] eqn:E;
    [|vm_compute in E; discriminate].
  assert (Hs : match sim_run 8 0 demo_ops demo_kernel with Some _ => true | None => false end = true) by (vm_compute; reflexivity).
  destruct (sim_run 8 0 demo_ops demo_kernel) as [[answers' k']|] eqn:E'; [clear Hs|discriminate].
  apply (both_disks_answer_alike backwards 8 0 demo_ops demo_script script' (Fs_empty, ∅) st' demo_kernel k');
    [intros d; apply reverse_Permutation | apply host_inv_empty | vm_compute; reflexivity | | | exact E | exact E'].
  - vm_compute. repeat split; try (eexists; reflexivity); try lia; by left.
  - vm_compute. repeat split. all: intros [=].
Defined.

(** ** Every call returns *)

(** The system may interrupt a loop, but not for ever: it needs one transfer for each
    byte asked for, and one more for a read to see the end of the file. *)
Definition transfers (script : list Outcome) : nat :=
  length (filter (fun o => match o with Did _ => true | Failed _ => false end = true) script).

Definition only_interrupted (script : list Outcome) : Prop :=
  Forall (fun o => match o with Did _ => True | Failed e => e = EINTR end) script.

Lemma read_loop_returns h len script : forall buf fs,
  only_interrupted script -> (len - length buf < transfers script)%nat ->
  exists b script' fs', read_loop h len buf script fs = Some (Ok b, script', fs').
Proof.
  induction script as [|[k|e] script IH]; intros buf fs Hs Ht; cbn [read_loop];
    (destruct (Nat.leb_spec len (length buf)) as [Hl|Hl]; [eauto|]).
  - unfold transfers in Ht. simpl in Ht. lia.
  - apply Forall_cons in Hs as [_ Hs]. destruct (sys_read h (len - length buf) k fs) as [[|x bytes] fs1]; [eauto|].
    apply IH; [done|]. unfold transfers in Ht |- *. simpl in Ht. rewrite length_app. simpl. lia.
  - apply Forall_cons in Hs as [-> Hs]. rewrite Z.eqb_refl. by apply IH.
Qed.

Lemma write_loop_returns h script : forall data fs,
  only_interrupted script -> (length data <= transfers script)%nat ->
  exists script' fs', write_loop h data script fs = Some (Ok tt, script', fs').
Proof.
  induction script as [|[k|e] script IH]; intros [|x data] fs Hs Ht; cbn [write_loop]; eauto.
  - unfold transfers in Ht. simpl in Ht. lia.
  - apply Forall_cons in Hs as [_ Hs]. unfold sys_write. apply IH; [done|].
    unfold transfers in Ht |- *. simpl in Ht. rewrite length_drop, length_take. simpl in *. lia.
  - apply Forall_cons in Hs as [-> Hs]. rewrite Z.eqb_refl. by apply IH.
Qed.

(** The loops of the real disk end. Once a handle is cloned and its cursor set, a
    read of [len] bytes returns after at most [len + 1] transfers and a write after
    as many as it has bytes, however short each is and however many interruptions
    come between them. *)
Theorem disk_loops_end (h : Z) (offset len : nat) (data : Bytes) (k1 k2 : nat) script fs :
  only_interrupted script ->
  ((len < transfers script)%nat ->
     exists b script' fs', DiskFile_read_at h offset len (Did k1 :: Did k2 :: script) fs = Some (Ok b, script', fs')) /\
  ((length data <= transfers script)%nat ->
     exists script' fs', DiskFile_write_at h offset data (Did k1 :: Did k2 :: script) fs = Some (Ok tt, script', fs')).
Proof.
  intros Hs. split; intros Ht.
  - unfold DiskFile_read_at, and_then, try_clone, call, sys_nothing, sys_seek. apply read_loop_returns; [done|simpl; lia].
  - unfold DiskFile_write_at, and_then, try_clone, call, sys_nothing, sys_seek. by apply write_loop_returns.
Qed.

Definition choppy : list Outcome := [Did 0; Failed EINTR; Did 0; Did 0; Failed EINTR; Did 7; Did 0].

Lemma disk_loops_end_witness :
  ((4 < transfers choppy)%nat ->
     exists b script' fs', DiskFile_read_at 1 2 4 (Did 0 :: Did 0 :: choppy) Fs_empty = Some (Ok b, script', fs')) /\
  ((length [7; 8; 9] <= transfers choppy)%nat ->
     exists script' fs', DiskFile_write_at 1 2 [7; 8; 9] (Did 0 :: Did 0 :: choppy) Fs_empty = Some (Ok tt, script', fs')).
Proof. apply (disk_loops_end 1 2 4 [7; 8; 9] 0 0 choppy). repeat constructor. Defined.

(** ** Where the two disks differ *)

(** A file opened, and two clones of its handle: the system calls of two writes,
    interleaved. The cursor is shared, so the first writes where the second put it. *)
Definition opened (name : string) (fs : Fs) : Fs := (sys_open name fs).2.

Definition two_writers (a b : Bytes) (at_a at_b : nat) (fs : Fs) : Fs :=
  let fs := (sys_seek 1 at_a fs).2 in
  let fs := (sys_seek 1 at_b fs).2 in
  let fs := (sys_write 1 a (length a) fs).2 in
  (sys_write 1 b (length b) fs).2.

Example concurrent_writes_collide :
  contents 1 (two_writers [1; 1] [2; 2] 0 2 (opened "wal" Fs_empty)) = [0; 0; 1; 1; 2; 2] /\
  write_at (write_at [] 0 [1; 1]) 2 [2; 2] = [1; 1; 2; 2] /\ write_at (write_at [] 2 [2; 2]) 0 [1; 1] = [1; 1; 2; 2].
Proof. vm_compute. done. Qed.

(** A removed file stays readable through its handle, where the simulated disk
    reports an error; and [truncate] extends a file that is too short. *)
Example removed_file_is_readable :
  let fs := (sys_write 1 [7] 0 (opened "wal" Fs_empty)).2 in
  let fs := (sys_unlink "wal" fs).2 in
  fst <$> (fst <$> DiskFile_read_at 1 0 1 [Did 0; Did 0; Did 0; Did 0] (sys_seek 1 0 fs).2) = Some (Ok [7]) /\
  contents 1 (sys_set_len 1 3 fs).2 = [7; 0; 0].
Proof. vm_compute. done. Qed.
