(* ===== verification/RealHost.v ===== *)
(** * The real host: [crates/chrono-sim/src/real.rs] and [Host] of [traits.rs]

    What a production node runs on, but for the disk, which is [RealDisk]:
    - [block_on] as a step relation between the thread that polls a future and
      whoever wakes it ([Park], with the two halves of [wake_by_ref]);
    - [UdpNetwork], its receive thread and its peer table; an address is a value of
      any type with decidable equality, and a socket is what it sends and receives;
    - the clocks, the generator, the tracer and the spawner, as functions of what the
      operating system says;
    - the errors of [traits.rs], [is_enospc] among them, on the texts of errors. *)

From Stdlib Require Import ZArith Lia String Ascii.
From stdpp Require Import base tactics list list_numbers gmap sets relations strings.
From S2P Require Import Prelude Codec Types RaftLog Client Msg Kv RaftState Raft Rng Time Wal WalState WalSegments Driver Kernel Numerals RealDisk.

Open Scope list_scope.
Open Scope Z_scope.

(** ** [block_on] *)

Section BlockOn.
Context {F A : Type} (poll : F -> F + A).

(** Where the polling thread is: about to poll; about to take the lock and look at
    [ready]; waiting on the condition variable; returned. *)
Inductive Phase : Type := ToPoll | ToLook | Waiting | Returned (a : A).

(** [wk_notifies]: wakers that have set [ready] and not yet called [notify_one].
    [polls] and [sets] count polls and wakes for the theorems. *)
Record Executor : Type := mkExecutor {
  ex_phase : Phase;
  ex_fut : F;
  ex_ready : bool;
  ex_notifies : nat;
  ex_polls : nat;
  ex_sets : nat
}.

Definition block_on_start (f : F) : Executor := mkExecutor ToPoll f false 0 0 0.

(** A step of the thread. *)
Inductive own_step : Executor -> Executor -> Prop :=
| own_done f r n p s a :
    poll f = inr a -> own_step (mkExecutor ToPoll f r n p s) (mkExecutor (Returned a) f r n (S p) s)
| own_pending f f' r n p s :
    poll f = inl f' -> own_step (mkExecutor ToPoll f r n p s) (mkExecutor ToLook f' r n (S p) s)
| own_take f n p s :
    own_step (mkExecutor ToLook f true n p s) (mkExecutor ToPoll f false n p s)
| own_wait f n p s :
    own_step (mkExecutor ToLook f false n p s) (mkExecutor Waiting f false n p s).

(** And of everyone else: a wake in its two halves, a spurious wake-up of the
    condition variable, and whatever other threads do to what the future looks at. *)
Inductive other_step : Executor -> Executor -> Prop :=
| wake_set ph f r n p s : other_step (mkExecutor ph f r n p s) (mkExecutor ph f true (S n) p (S s))
| wake_notify_waiting f r n p s :
    other_step (mkExecutor Waiting f r (S n) p s) (mkExecutor ToLook f r n p s)
| wake_notify_other ph f r n p s :
    ph <> Waiting -> other_step (mkExecutor ph f r (S n) p s) (mkExecutor ph f r n p s)
| spurious f r n p s : other_step (mkExecutor Waiting f r n p s) (mkExecutor ToLook f r n p s)
| world ph f f' r n p s : other_step (mkExecutor ph f r n p s) (mkExecutor ph f' r n p s).

Definition block_on_step (x y : Executor) : Prop := own_step x y \/ other_step x y.
End BlockOn.

Arguments Phase A : clear implicits.
Arguments Executor F A : clear implicits.

(** ** Clocks *)

(** [SystemClock::now]: time since the epoch in nanoseconds, [None] for a clock set
    before it. *)
Definition SystemClock_now (since_epoch : option Z) : Nanos :=
  match since_epoch with Some d => Z.min d (U64 - 1) | None => 0 end.

(** [monotonic]: what has elapsed since the clock was made. *)
Definition SystemClock_monotonic (elapsed : Z) : Nanos := Z.min elapsed (U64 - 1).

(** [sleep]: the time the thread is asked to sleep. *)
Definition SystemClock_sleep (dur : Nanos) : Z := dur.

(** ** Network *)

Definition MAX_DATAGRAM : Z := 60 * 1024.

(** [NodeId::MAX]. *)
Definition NodeId_MAX : NodeId := U32 - 1.

Section Udp.
Context {Addr : Type} `{!EqDecision Addr}.

Record UdpNetwork : Type := mkUdp {
  un_node : NodeId;
  un_peers : list (NodeId * Addr);
  un_msg_id : Z;
  un_inbox : list Envelope
}.

Definition Udp_bind (node : NodeId) (peers : list (NodeId * Addr)) : UdpNetwork := mkUdp node peers 1 [].

Definition peer_addr (to : NodeId) (peers : list (NodeId * Addr)) : option Addr :=
  (fun x => x.2.2) <$> list_find (fun p => p.1 = to) peers.

Definition peer_of (a : Addr) (peers : list (NodeId * Addr)) : NodeId :=
  match list_find (fun p => p.2 = a) peers with Some (_, (id, _)) => id | None => NodeId_MAX end.

(** [send]: the datagram handed to the socket, if one is. *)
Definition Udp_send (to : NodeId) (payload : Bytes) (net : UdpNetwork) : option (Addr * Bytes) * UdpNetwork :=
  if MAX_DATAGRAM <? Z.of_nat (length payload) then (None, net)
  else match peer_addr to (un_peers net) with
       | None => (None, net)
       | Some addr =>
           (Some (addr, payload),
            mkUdp (un_node net) (un_peers net) (un_msg_id net +64 1) (un_inbox net))
       end.

(** One turn of the receive thread. The buffer keeps the first [MAX_DATAGRAM + 1024]
    bytes of a datagram; an error of [recv_from] is skipped. *)
Definition Udp_receive (got : option (Addr * Bytes)) (net : UdpNetwork) : UdpNetwork :=
  match got with
  | None => net
  | Some (from_addr, datagram) =>
      let env := mkEnvelope (peer_of from_addr (un_peers net)) (un_node net)
                   (take (Z.to_nat (MAX_DATAGRAM + 1024)) datagram) 0 in
      mkUdp (un_node net) (un_peers net) (un_msg_id net) (un_inbox net ++ [env])
  end.

(** [recv]: the thread waits while the inbox is empty. *)
Definition Udp_recv (net : UdpNetwork) : option (Envelope * UdpNetwork) :=
  match un_inbox net with
  | [] => None
  | env :: rest => Some (env, mkUdp (un_node net) (un_peers net) (un_msg_id net) rest)
  end.
End Udp.

Arguments UdpNetwork Addr : clear implicits.

(** ** Entropy, notes, tasks *)

(** [OsRng::new]: the clock's low 64 bits and the process identifier, mixed. *)
Definition OsRng_seed (since_epoch : option Z) (pid : Z) : Z :=
  Z.lxor (match since_epoch with Some d => d mod U64 | None => 0 end) (wmul64 pid 0x9E3779B97F4A7C15).

Definition OsRng_new (since_epoch : option Z) (pid : Z) : Xoshiro256ss := Xoshiro_from_seed (OsRng_seed since_epoch pid).

(** [NullTracer] and [StderrTracer]: the line printed, if any, for a note at a time. *)
Record StderrTracer : Type := mkStderrTracer { tr_node : NodeId; tr_enabled : bool }.

Definition NullTracer_note (text : string) : option string := None.
Definition NullTracer_enabled : bool := false.

Definition StderrTracer_note (tr : StderrTracer) (since_epoch : option Z) (text : string) : option string :=
  let t := match since_epoch with Some d => d | None => 0 end in
  if tr_enabled tr then
    Some ("[" ++ pad " " 10 (dec (t / NANOS_PER_SEC)) ++ "." ++ dec_padded 9 (t mod NANOS_PER_SEC) ++ "] n"
            ++ dec (tr_node tr) ++ " | " ++ text)%string
  else None.

(** [Host::note]: the text is made only if someone listens. *)
Definition Host_note {L} (enabled : bool) (note : string -> option L) (text : unit -> string) : option L :=
  if enabled then note (text tt) else None.

(** [ThreadSpawner::spawn]: the name of the thread, and whether it runs the future. *)
Definition thread_label (node : NodeId) (name : string) : string :=
  ("chronolog-n" ++ dec node ++ "-" ++ name)%string.

Definition thread_main {F} (shutdown : bool) (fut : F) : option F := if shutdown then None else Some fut.

(** ** Errors *)

(** [strerror], the operating system's text for an error number. *)
Section Errors.
Context (strerror : Z -> string).

(** [std::io::Error]'s [Display]. *)
Definition IoErr_text (e : IoErr) : string :=
  match e with
  | Os n => strerror n ++ " (os error " ++ sdec n ++ ")"
  | Custom text => text
  end%string.

Fixpoint contains (needle s : string) : bool :=
  String.prefix needle s || match s with EmptyString => false | String _ s => contains needle s end.

Definition enospc : IoErr := Custom "ENOSPC: simulated disk full".
Definition eio (what : string) : IoErr := Custom ("EIO: " ++ what).
Definition is_enospc (e : IoErr) : bool := contains "ENOSPC" (IoErr_text e).
End Errors.

(** ** Assembly *)

(** [RealRuntime::new]: bind, then create the directory; either may fail. *)
Record RealRuntime (Addr : Type) : Type := mkRealRuntime {
  rt_net : UdpNetwork Addr;
  rt_rng : Xoshiro256ss;
  rt_tracer : StderrTracer;
  rt_shutdown : bool
}.
Arguments mkRealRuntime {Addr} _ _ _ _.

Definition RealRuntime_new {Addr E} (node : NodeId) (peers : list (NodeId * Addr)) (verbose : bool)
    (bound created : result E unit) (since_epoch : option Z) (pid : Z) : result E (RealRuntime Addr) :=
  match bound with
  | Err e => Err e
  | Ok _ =>
      match created with
      | Err e => Err e
      | Ok _ => Ok (mkRealRuntime (Udp_bind node peers) (OsRng_new since_epoch pid) (mkStderrTracer node verbose) false)
      end
  end.

Definition RealRuntime_shutdown {Addr} (rt : RealRuntime Addr) : RealRuntime Addr :=
  mkRealRuntime (rt_net _ rt) (rt_rng _ rt) (rt_tracer _ rt) true.

(** * Theorems *)

(** ** Waking *)

Section Waking.
Context {F A : Type} (poll : F -> F + A).
Abbreviation Executor := (Executor F A).

Definition is_to_poll (x : Executor) : bool := match ex_phase x with ToPoll => true | _ => false end.

Record exec_inv (x : Executor) : Prop := {
  (** whoever set [ready] while the thread waits has yet to notify it *)
  xi_notified : ex_phase x = Waiting -> ex_ready x = true -> (0 < ex_notifies x)%nat;
  xi_polls : (ex_polls x + Nat.b2n (is_to_poll x) + Nat.b2n (ex_ready x) <= 1 + ex_sets x)%nat;
  xi_returned : forall a, ex_phase x = Returned a -> exists f, poll f = inr a
}.

Lemma exec_inv_step x y : exec_inv x -> block_on_step poll x y -> exec_inv y.
Proof.
  intros [Hn Hp Hr] [H | H]; destruct H; unfold is_to_poll in *; simpl in *; split; unfold is_to_poll; simpl;
    try done; try lia; try (by intros b [= <-]; eauto); try (by destruct ph, r; simpl in *; lia); try (by destruct r; simpl in *; lia).
Qed.

Lemma exec_inv_reachable f x : rtc (block_on_step poll) (block_on_start f) x -> exec_inv x.
Proof.
  intros H. assert (H0 : exec_inv (block_on_start f)) by by split.
  revert H0. induction H as [|x y z Hxy _ IH]; [done|]. intros H0. apply IH. by eapply exec_inv_step.
Qed.

(** C16: The executor loses no wake-up, and polls only when woken. At any point of any
    interleaving of the polling thread with wakers and spurious wake-ups of the
    condition variable, the future has been polled at most once more than it was
    woken; what [block_on] returns is what a poll returned; and once a wake is over
    ([ready] set and the condition notified) while the future can finish, the thread
    returns its value by its own steps alone. *)
Theorem a_wake_is_never_lost (f0 : F) (x : Executor) :
  rtc (block_on_step poll) (block_on_start f0) x ->
  (ex_polls x <= 1 + ex_sets x)%nat /\
  (forall a, ex_phase x = Returned a -> exists f, poll f = inr a) /\
  (forall a, ex_ready x = true -> ex_notifies x = 0%nat -> poll (ex_fut x) = inr a ->
     (exists b, ex_phase x = Returned b) \/
     exists y, rtc (own_step poll) x y /\ ex_phase y = Returned a).
Proof.
  intros H. destruct (exec_inv_reachable f0 x H) as [Hn Hp Hr]. split_and!; [lia|done|].
  intros a Hready H0 Ha. destruct x as [ph f r n p s]; simpl in *. subst r n. destruct ph as [| | |b]; [| | |eauto]; right.
  - eexists. split; [apply rtc_once; by eapply own_done|done].
  - eexists. split; [eapply rtc_l; [apply own_take|]; apply rtc_once; by eapply own_done|done].
  - exfalso. specialize (Hn eq_refl eq_refl). lia.
Qed.
End Waking.

(** A future that reads a cell: pending while it is empty. *)
Definition read_cell (cell : option Z) : option Z + Z := match cell with Some v => inr v | None => inl None end.

Lemma a_wake_is_never_lost_witness :
  let x := mkExecutor ToLook (Some 7) true 0 1 1 : Executor (option Z) Z in
  (ex_polls x <= 1 + ex_sets x)%nat /\
  (forall a, ex_phase x = Returned a -> exists f, read_cell f = inr a) /\
  (forall a, ex_ready x = true -> ex_notifies x = 0%nat -> read_cell (ex_fut x) = inr a ->
     (exists b, ex_phase x = Returned b) \/
     exists y, rtc (own_step read_cell) x y /\ ex_phase y = Returned a).
Proof.
  apply (a_wake_is_never_lost read_cell None).
  (* poll, wait, the cell is filled, a wake in two halves *)
  eapply rtc_l; [left; by apply own_pending|]. eapply rtc_l; [left; apply own_wait|].
  eapply rtc_l; [right; apply (world _ _ (Some 7))|]. eapply rtc_l; [right; apply wake_set|].
  apply rtc_once. right. apply wake_notify_waiting.
Defined.

(** ** Datagrams *)

Section Datagrams.
Context {Addr : Type} `{!EqDecision Addr}.
Implicit Types net : UdpNetwork Addr.

Lemma peer_addr_Some to (peers : list (NodeId * Addr)) addr : peer_addr to peers = Some addr -> (to, addr) ∈ peers.
Proof.
  unfold peer_addr. destruct (list_find _ peers) as [[i [id a]]|] eqn:E; [|done]. intros [= <-].
  apply list_find_Some in E as (Hi & Hid & _). simpl in *. subst id. by eapply list_elem_of_lookup_2.
Qed.

Lemma peer_of_known (peers : list (NodeId * Addr)) id addr : (id, addr) ∈ peers -> NoDup peers.*2 -> peer_of addr peers = id.
Proof.
  intros Hin Hnd. unfold peer_of.
  destruct (list_find_elem_of (fun p : NodeId * Addr => p.2 = addr) peers (id, addr) Hin eq_refl) as [[i [id' a]] E].
  rewrite E. apply list_find_Some in E as (Hi & Ha & _). simpl in Ha. subst a.
  apply list_elem_of_lookup in Hin as [j Hj].
  assert (Hi2 : peers.*2 !! i = Some addr) by by rewrite list_lookup_fmap, Hi.
  assert (Hj2 : peers.*2 !! j = Some addr) by by rewrite list_lookup_fmap, Hj.
  assert (i = j) as -> by by eapply NoDup_lookup. congruence.
Qed.

Lemma peer_of_unknown (peers : list (NodeId * Addr)) addr : addr ∉ peers.*2 -> peer_of addr peers = NodeId_MAX.
Proof.
  intros Hn. unfold peer_of. destruct (list_find _ peers) as [[i [id a]]|] eqn:E; [|done].
  apply list_find_Some in E as (Hi & Ha & _). simpl in Ha. subst a. exfalso. apply Hn.
  apply list_elem_of_fmap. exists (id, addr). split; [done|]. by eapply list_elem_of_lookup_2.
Qed.

Lemma peer_addr_unknown to (peers : list (NodeId * Addr)) : to ∉ peers.*1 -> peer_addr to peers = None.
Proof.
  intros Hn. destruct (peer_addr to peers) as [a|] eqn:E; [|done]. exfalso. apply Hn.
  apply list_elem_of_fmap. exists (to, a). split; [done|]. by apply peer_addr_Some.
Qed.

Lemma datagram_fits (p : Bytes) : Z.of_nat (length p) <= MAX_DATAGRAM -> (length p <= Z.to_nat (MAX_DATAGRAM + 1024))%nat.
Proof. assert (H : 0 < MAX_DATAGRAM) by done. revert H. generalize MAX_DATAGRAM. lia. Qed.

(** The event that the driver makes of a frame. *)
Definition wire_event (from : NodeId) (w : Wire) : option NodeEvent :=
  match w with
  | WRaft m => Some (EvWire from m)
  | WClient q => Some (EvClient from q)
  | WAdmin c => Some (EvAdmin from c)
  | WReply _ | WAdminReply _ => None
  end.

(** C38: A frame that one node sends another over UDP is the event that the other's
    driver sees, from the sender: what the socket is given is the frame, whole, to
    the address the peer table has; the receiving thread keeps every byte of it and
    names the sender by its address. *)
Theorem udp_carries_frames (a b : UdpNetwork Addr) (addr_a addr_b : Addr) (d : Bytes) (w : Wire) a' :
  Wire_ok w -> payload_ok (Wire_payload w) ->
  (un_node a, addr_a) ∈ un_peers b -> NoDup (un_peers b).*2 -> un_inbox b = [] ->
  Udp_send (un_node b) (Wire_encode w) a = (Some (addr_b, d), a') ->
  (un_node b, addr_b) ∈ un_peers a /\
  exists env b', Udp_recv (Udp_receive (Some (addr_a, d)) b) = Some (env, b') /\ un_inbox b' = [] /\
    en_to env = un_node b /\ decode_envelope (en_from env) (en_payload env) = wire_event (un_node a) w.
Proof.
  intros Hw Hp Hin Hnd Hbox. unfold Udp_send. destruct (Z.ltb_spec MAX_DATAGRAM (Z.of_nat (length (Wire_encode w)))) as [|Hlen]; [done|].
  destruct (peer_addr (un_node b) (un_peers a)) as [addr|] eqn:Ha; [|done]. intros [= <- <- <-].
  split; [by apply peer_addr_Some|].
  unfold Udp_recv, Udp_receive. cbn [un_inbox un_node un_peers]. rewrite Hbox. cbn [app].
  do 2 eexists. split; [done|]. cbn [un_inbox en_to en_from en_payload]. split_and!; [done..|].
  rewrite (peer_of_known _ (un_node a)) by done. rewrite take_ge by by apply datagram_fits.
  unfold decode_envelope. rewrite wire_decodes by done. by destruct w.
Qed.

(** ** What never leaves the host *)

Lemma Udp_send_large to payload net : MAX_DATAGRAM < Z.of_nat (length payload) -> Udp_send to payload net = (None, net).
Proof. intros H. unfold Udp_send. by rewrite (proj2 (Z.ltb_lt _ _) H). Qed.

(** A datagram from an address that is not in the peer table, a client's, is given
    the sender [NodeId::MAX]; no answer to it is ever sent. *)
Theorem clients_cannot_be_answered (net : UdpNetwork Addr) (addr : Addr) (datagram payload : Bytes) env net' :
  addr ∉ (un_peers net).*2 -> NodeId_MAX ∉ (un_peers net).*1 -> un_inbox net = [] ->
  Udp_recv (Udp_receive (Some (addr, datagram)) net) = Some (env, net') ->
  en_from env = NodeId_MAX /\ Udp_send (en_from env) payload net' = (None, net').
Proof.
  intros Ha Hm Hbox. unfold Udp_recv, Udp_receive. cbn [un_inbox un_node un_peers]. rewrite Hbox. cbn [app].
  intros [= <- <-]. cbn [en_from]. rewrite peer_of_unknown by done. split; [done|].
  unfold Udp_send. cbn [un_peers]. rewrite peer_addr_unknown by done. by destruct (MAX_DATAGRAM <? _).
Qed.

Definition data_len (e : Entry) : nat := match e_kind e with Normal d => length d | _ => 0 end.
Definition data_size (es : list Entry) : Z := Z.of_nat (sum_list_with data_len es).

Lemma entry_holds_data e : (data_len e <= length (Entry_encode e []))%nat.
Proof.
  rewrite Entry_encode_bytes, !length_app. unfold data_len. destruct (e_kind e) as [d| |]; [|lia..].
  cbn [kind_bytes app]. rewrite length_cons. unfold Writer_bytes. rewrite length_app. lia.
Qed.

Lemma frame_holds_data t pi pt es c :
  data_size es <= Z.of_nat (length (Wire_encode (WRaft (mkMessage t (AppendReq pi pt es c))))).
Proof.
  unfold data_size, Wire_encode, frame, Wire_payload, Message_encode. simpl m_term. simpl m_body. cbv iota beta.
  rewrite Writer_seq_entries, Writer_seq_bytes. 
  repeat (rewrite length_app || rewrite length_cons).
  assert (H : (sum_list_with data_len es <= length (concat (map (fun x => Entry_encode x []) es)))%nat).
  { induction es as [|e es IH]; simpl; [lia|]. rewrite length_app. pose proof (entry_holds_data e). lia. }
  lia.
Qed.

(** The entries that [send_append_to] takes for a follower. *)
Definition append_batch (r : Raft) (p : Progress) : list Entry :=
  let es := Log_slice (r_log r) (p_next p)
              (Z.min (p_next p +64 o_max_entries_per_append (r_opts r)) (Log_last_index (r_log r) +64 1)) in
  take (budget_cut (o_max_bytes_per_append (r_opts r)) 0 0 es) es.

(** C24: Replication can outgrow the transport. When the entries a leader takes for a
    follower hold more than [MAX_DATAGRAM] bytes, which the default budget of a
    megabyte and 64 entries allows, the message is built, the transport drops it, and
    neither the follower's progress nor the log has changed: the next attempt takes
    the same entries from the same place. *)
Theorem an_oversized_append_is_dropped_for_ever (r : Raft) (peer : NodeId) (p : Progress) (t : Term) :
  r_progress r !! peer = Some p -> p_state p <> PSnapshot ->
  Log_first_index (r_log r) <= p_next p -> Log_term_at (r_log r) (ssub (p_next p) 1) = Some t ->
  MAX_DATAGRAM < data_size (append_batch r p) ->
  let m := mkMessage (r_term r) (AppendReq (ssub (p_next p) 1) t (append_batch r p) (r_commit r)) in
  let r' := send_append_to peer r in
  rd_messages (r_pending r') = rd_messages (r_pending r) ++ [(peer, m)] /\
  (r_progress r' = r_progress r /\ r_log r' = r_log r /\ r_term r' = r_term r /\ r_commit r' = r_commit r) /\
  forall net, Udp_send peer (Wire_encode (WRaft m)) net = (None, net).
Proof.
  intros Hp Hs Hf Ht Hbig. cbv zeta. unfold send_append_to. rewrite Hp.
  rewrite (bool_decide_false _ Hs), Ht. destruct (Z.ltb_spec (p_next p) (Log_first_index (r_log r))); [lia|].
  cbv iota beta zeta. cbn [andb]. split_and!; [done..|]. intros net. apply Udp_send_large.
  eapply Z.lt_le_trans; [exact Hbig|apply frame_holds_data].
Qed.
End Datagrams.

(** Two values of 40,000 bytes, each of which fits. *)
Definition big_leader : Raft :=
  let es := [mkEntry 1 1 (Normal (replicate (Z.to_nat 40000) 7)); mkEntry 1 2 (Normal (replicate (Z.to_nat 40000) 8))] in
  Raft_new 1 (Config_simple [1; 2; 3]) RaftOptions_default
    |> set_term 1 |> set_log (mkLog 0 0 (Config_simple [1; 2; 3]) es) |> set_progress {[2 := Progress_new 1]}.

Lemma an_oversized_append_is_dropped_for_ever_witness :
  let p := Progress_new 1 in
  let m := mkMessage 1 (AppendReq 0 0 (append_batch big_leader p) 0) in
  let r' := send_append_to 2 big_leader in
  rd_messages (r_pending r') = [] ++ [(2, m)] /\
  (r_progress r' = r_progress big_leader /\ r_log r' = r_log big_leader /\ r_term r' = 1 /\ r_commit r' = 0) /\
  forall net : UdpNetwork Z, Udp_send 2 (Wire_encode (WRaft m)) net = (None, net).
Proof.
  apply (an_oversized_append_is_dropped_for_ever big_leader 2 (Progress_new 1) 0);
    [reflexivity | discriminate | by_decide | reflexivity | vm_compute; reflexivity].
Defined.

Lemma udp_carries_frames_witness :
  (2, 20) ∈ un_peers (Udp_bind 1 [(1, 10); (2, 20)]) /\
  exists env b', Udp_recv (Udp_receive (Some (10, Wire_encode (WAdmin LeaveJoint))) (Udp_bind 2 [(1, 10); (2, 20)]))
      = Some (env, b') /\ un_inbox b' = [] /\ en_to env = 2 /\
    decode_envelope (en_from env) (en_payload env) = wire_event 1 (WAdmin LeaveJoint).
Proof.
  apply (udp_carries_frames (Udp_bind 1 [(1, 10); (2, 20)]) (Udp_bind 2 [(1, 10); (2, 20)]) 10 20
           (Wire_encode (WAdmin LeaveJoint)) (WAdmin LeaveJoint) (mkUdp 1 [(1, 10); (2, 20)] 2 []));
    [by_decide | by_decide | left | by_decide | reflexivity | vm_compute; reflexivity].
Defined.

Lemma clients_cannot_be_answered_witness :
  exists env net', Udp_recv (Udp_receive (Some (99, [1])) (Udp_bind 2 [(1, 10); (2, 20)])) = Some (env, net') /\
    en_from env = NodeId_MAX /\ Udp_send (en_from env) [5] net' = (None, net').
Proof.
  do 2 eexists. split; [vm_compute; reflexivity|].
  apply (clients_cannot_be_answered (Udp_bind 2 [(1, 10); (2, 20)]) 99 [1] [5]);
    [by_decide | by_decide | reflexivity | vm_compute; reflexivity].
Defined.

(** ** A full disk *)

Section FullDisk.
Context (strerror : Z -> string).
Hypothesis strerror_enospc : strerror ENOSPC = "No space left on device"%string.

Lemma only_enospc_fails h offset data script fs e script' fs' :
  Forall (fun o => match o with Did _ => True | Failed n => n = ENOSPC end) script ->
  DiskFile_write_at h offset data script fs = Some (Err e, script', fs') -> e = Os ENOSPC.
Proof.
  intros Hs. unfold DiskFile_write_at, and_then, try_clone, call, sys_nothing, sys_seek.
  destruct script as [|[k|n] script]; [done| |apply Forall_cons in Hs as [-> Hs]; by intros [= <-]].
  apply Forall_cons in Hs as [_ Hs].
  destruct script as [|[k'|n] script]; [done| |apply Forall_cons in Hs as [-> Hs]; by intros [= <-]].
  apply Forall_cons in Hs as [_ Hs]. generalize (move_cursor h offset fs) as fs0. revert data.
  induction script as [|[j|n] script IH]; intros [|x data] fs0; cbn [write_loop]; try done.
  - apply Forall_cons in Hs as [_ Hs]. destruct (sys_write h (x :: data) j fs0) as [m fs1]. by apply IH.
  - apply Forall_cons in Hs as [-> Hs]. simpl. by intros [= <-].
Qed.

(** The driver does not recognise a full disk in production. [is_enospc] holds of
    the error that the simulated disk makes, which stands the node down to make room;
    of the error with which a write on a full device fails it does not, so the
    driver takes it for a broken disk and stops. *)
Theorem a_full_device_is_not_recognised h offset data script fs e script' fs' :
  Forall (fun o => match o with Did _ => True | Failed n => n = ENOSPC end) script ->
  DiskFile_write_at h offset data script fs = Some (Err e, script', fs') ->
  is_enospc strerror enospc = true /\ is_enospc strerror e = false.
Proof.
  intros Hs H. apply only_enospc_fails in H as ->; [|done]. split; [done|].
  unfold is_enospc, IoErr_text. by rewrite strerror_enospc.
Qed.
End FullDisk.

Lemma a_full_device_is_not_recognised_witness :
  exists e s fs', DiskFile_write_at 1 0 [1; 2; 3] [Did 0; Did 0; Did 1; Failed ENOSPC] (sys_open "wal" Fs_empty).2 = Some (Err e, s, fs') /\
    is_enospc (fun _ => "No space left on device"%string) RealHost.enospc = true /\
    is_enospc (fun _ => "No space left on device"%string) e = false.
Proof.
  do 3 eexists. split; [vm_compute; reflexivity|].
  eapply (a_full_device_is_not_recognised (fun _ => "No space left on device"%string) eq_refl 1 0 [1; 2; 3]
            [Did 0; Did 0; Did 1; Failed ENOSPC] (sys_open "wal" Fs_empty).2);
    [repeat constructor | vm_compute; reflexivity].
Defined.
