(* ===== verification/Server.v ===== *)
(** * The production server: [crates/chronolog-server/src/main.rs]

    A node's command line, as [main] checks it and turns it into the options of
    [node::start] ([NodeOptions] of [crates/chronolog/src/node.rs]), and the admin
    endpoint: the routing of a request, and the pages [/health], [/metrics] and
    [/debug/raft], made from the published state and the counters. Reading the flags is
    [clap]'s; the reading of a socket address and the printing of a quotient
    with two decimals are parameters. A response is the text written to the stream. *)

From Stdlib Require Import ZArith Lia String Ascii.
From stdpp Require Import base tactics list gmap sets strings sorting.
From S2P Require Import Prelude Codec Types RaftLog Client RaftState Raft Time Wal WalState WalSegments Driver Invariants Kernel Numerals Text.

Open Scope string_scope.
Open Scope Z_scope.

(** ** Options *)

Record NodeOptions : Type := mkNodeOptions {
  no_raft : RaftOptions;
  no_wal : WalOptions;
  no_tick_interval : Nanos;
  no_bootstrap : Config;
  no_inspect : bool
}.

Definition NodeOptions_default : NodeOptions :=
  mkNodeOptions RaftOptions_default WalOptions_default (Nanos_from_millis 20) Config_default false.

Section Server.
Context {Addr : Type} (parse_addr : string -> result string Addr).

Record Args : Type := mkArgs {
  a_id : NodeId;
  a_listen : Addr;
  a_peers : list (NodeId * Addr);
  a_data_dir : string;
  a_admin : Addr;
  a_tick_ms : Z;
  a_lease_reads : bool;
  a_verbose : bool
}.

Fixpoint split_once (sep : ascii) (s : string) : option (string * string) :=
  match s with
  | EmptyString => None
  | String c t =>
      if Ascii.eqb c sep then Some ("", t)
      else match split_once sep t with Some (a, b) => Some (String c a, b) | None => None end
  end.

Definition parse_peer (s : string) : result string (NodeId * Addr) :=
  match split_once "=" s with
  | None => Err "expected id=host:port"
  | Some (id, addr) =>
      match from_str_radix U32 10 id with
      | Err _ => Err ("bad node id " ++ quoted (string_bytes id))
      | Ok n =>
          match parse_addr addr with
          | Err e => Err ("bad address " ++ quoted (string_bytes addr) ++ ": " ++ e)
          | Ok a => Ok (n, a)
          end
      end
  end.

(** [main]: refuse, or start a node. *)
Inductive Startup : Type :=
| Exit (code : Z) (message : string)
| Start (opts : NodeOptions).

Definition server_main (args : Args) : Startup :=
  if (length (a_peers args) =? 0)%nat then Exit 2 "at least one --peer is required (include this node)"
  else if negb (existsb (fun p => p.1 =? a_id args) (a_peers args)) then
    Exit 2 ("--peer list must include this node's own id (" ++ dec (a_id args) ++ ")")
  else
    let voters := map fst (a_peers args) in
    Start (mkNodeOptions
      (mkRaftOptions (o_election_ticks RaftOptions_default) (o_heartbeat_ticks RaftOptions_default)
         (o_max_entries_per_append RaftOptions_default) (o_max_bytes_per_append RaftOptions_default)
         (o_pre_vote RaftOptions_default) (a_lease_reads args) 10000)
      WalOptions_default (Nanos_from_millis (a_tick_ms args)) (Config_simple voters) false).
End Server.

(** ** The node's handle *)

Definition Published_default : Published := mkPublished 0 Follower 0 None 0 0 0 0 0 [] 0 0 0 [] [].

(** [NodeHandle]; [config] is the rendering of the configuration in the published
    state. *)
Record NodeHandle : Type := mkHandle { h_metrics : NodeMetrics; h_state : PublicState; h_config : string }.

(** [node::start] before its task runs, and what the task leaves when the driver
    loop ends with an error. *)
Definition start_handle (node : NodeId) : NodeHandle :=
  mkHandle NodeMetrics_default
    (mkPublicState (mkPublished node Follower 0 None 0 0 0 0 0 [] 0 0 0 [] []) 0 false false None) "".

Definition driver_stopped (error : string) (h : NodeHandle) : NodeHandle :=
  mkHandle (h_metrics h)
    (mkPublicState (ps_published (h_state h)) (generation (h_state h)) (up (h_state h)) (recovered (h_state h)) (Some error))
    (h_config h).

Definition Role_text (r : RaftState.Role) : string :=
  match r with
  | Follower => "follower"
  | PreCandidate => "pre-candidate"
  | Candidate => "candidate"
  | Leader => "leader"
  end.

(** ** [/metrics] *)

Record Sample : Type := mkSample { sm_name : string; sm_help : string; sm_kind : string; sm_value : Z }.

Definition line (s : string) : string := s ++ newline.

(** The closures [counter] and [gauge]. *)
Definition sample_text (node : NodeId) (s : Sample) : string :=
  line ("# HELP chronolog_" ++ sm_name s ++ " " ++ sm_help s)
  ++ line ("# TYPE chronolog_" ++ sm_name s ++ " " ++ sm_kind s)
  ++ line ("chronolog_" ++ sm_name s ++ "{node=" ++ bytes_text [34] ++ dec node ++ bytes_text [34] ++ "} " ++ dec (sm_value s)).

(** Name, help and the name [NodeMetrics::get] knows. *)
Definition counter_table : list (string * string * string) :=
  [("proposals_total", "Client writes accepted by this leader.", "proposals");
   ("commits_total", "Entries committed.", "commits");
   ("applies_total", "Entries applied to the state machine.", "applies");
   ("fsyncs_total", "Durability barriers issued.", "fsyncs");
   ("batches_total", "Append batches; commits/batches is the group-commit ratio.", "batches");
   ("batched_entries_total", "Entries written across all batches.", "batched_entries");
   ("elections_started_total", "Elections this node began.", "elections_started");
   ("leadership_gained_total", "Times this node became leader.", "leadership_gained");
   ("leadership_lost_total", "Times this node stopped being leader.", "leadership_lost");
   ("snapshots_taken_total", "Snapshots written locally.", "snapshots_taken");
   ("snapshots_installed_total", "Snapshots accepted from a leader.", "snapshots_installed");
   ("client_requests_total", "Client requests received.", "client_requests");
   ("not_leader_redirects_total", "Requests redirected to the leader.", "not_leader_redirects");
   ("reads_linearizable_total", "ReadIndex reads served.", "reads_linearizable");
   ("reads_lease_total", "Lease reads served (not linearizable under clock skew).", "reads_lease");
   ("reads_stale_total", "Stale local reads served.", "reads_stale")].

Definition counters (m : NodeMetrics) : list Sample :=
  map (fun '(name, help, key) => mkSample name help "counter" (NodeMetrics_get m key)) counter_table.

Definition gauges (s : PublicState) : list Sample :=
  let p := ps_published s in
  [mkSample "term" "Current Raft term." "gauge" (pb_term p);
   mkSample "commit_index" "Highest committed log index." "gauge" (pb_commit_index p);
   mkSample "applied_index" "Highest applied log index." "gauge" (pb_applied_index p);
   mkSample "last_index" "Last index in the log." "gauge" (pb_last_index p);
   mkSample "snapshot_index" "Index the log is compacted through." "gauge" (pb_snapshot_index p);
   mkSample "is_leader" "1 if this node is the leader." "gauge" (Z.b2z (bool_decide (pb_role p = Leader)));
   mkSample "keys" "Live keys in the state machine." "gauge" (pb_keys p);
   mkSample "wal_segments" "Segment files on disk." "gauge" (pb_wal_segments p);
   mkSample "wal_bytes" "Bytes of write-ahead log on disk." "gauge" (pb_wal_bytes p);
   mkSample "apply_lag" "commit_index - applied_index." "gauge" (ssub (pb_commit_index p) (pb_applied_index p));
   mkSample "driver_up" "0 if the driver loop has stopped." "gauge" (Z.b2z (bool_decide (driver_error s = None)))].

Definition concat_text (l : list string) : string := fold_right String.append "" l.

Definition samples (h : NodeHandle) : list Sample := counters (h_metrics h) ++ gauges (h_state h).

Definition prometheus (h : NodeHandle) : string :=
  concat_text (map (sample_text (pb_node (ps_published (h_state h)))) (samples h)).

(** ** [/debug/raft] *)

Definition option_text (o : option NodeId) : string :=
  match o with Some n => "Some(" ++ dec n ++ ")" | None => "None" end.

(** [two_decimals]: [{:.2}] of the quotient, [0.0] of no batches. *)
Definition debug_raft (two_decimals : Z -> Z -> string) (h : NodeHandle) : string :=
  let p := ps_published (h_state h) in
  line ("node            n" ++ dec (pb_node p))
  ++ line ("role            " ++ Role_text (pb_role p))
  ++ line ("term            " ++ dec (pb_term p))
  ++ line ("leader          " ++ option_text (pb_leader p))
  ++ line ("config          " ++ h_config h)
  ++ line ("commit / applied " ++ dec (pb_commit_index p) ++ " / " ++ dec (pb_applied_index p))
  ++ line ("log             [" ++ dec (pb_snapshot_index p +64 1) ++ ".." ++ dec (pb_last_index p) ++ "]")
  ++ line ("wal             " ++ dec (pb_wal_segments p) ++ " segments, " ++ dec (pb_wal_bytes p) ++ " bytes")
  ++ line ("keys            " ++ dec (pb_keys p))
  ++ line ("group commit    " ++ (if h_metrics h batches =? 0 then "0.00"
                                 else two_decimals (h_metrics h batched_entries) (h_metrics h batches))
           ++ " entries/fsync")
  ++ (match driver_error (h_state h) with
      | Some e => newline ++ line ("*** DRIVER STOPPED: " ++ e)
      | None => ""
      end)
  ++ newline ++ line "This node's exact behaviour is reproducible under the simulator:"
  ++ line "    chronoscope run --seed <seed>".

(** ** Requests *)

(** [split_whitespace], the words of a line. *)
Fixpoint words_from (s : string) (word : string) : list string :=
  match s with
  | EmptyString => if String.eqb word "" then [] else [word]
  | String c t =>
      if is_space c then (if String.eqb word "" then words_from t "" else word :: words_from t "")
      else words_from t (word ++ String c "")
  end.

Definition split_whitespace (s : string) : list string := words_from s "".

Definition request_path (request_line : string) : string :=
  match split_whitespace request_line !! 1%nat with Some p => p | None => "/" end.

Record Reply : Type := mkReply { rp_status : string; rp_content_type : string; rp_body : string }.

Definition route (two_decimals : Z -> Z -> string) (request_line : string) (h : NodeHandle) : Reply :=
  let path := request_path request_line in
  if String.eqb path "/metrics" then mkReply "200 OK" "text/plain; version=0.0.4" (prometheus h)
  else if String.eqb path "/debug/raft" then mkReply "200 OK" "text/plain" (debug_raft two_decimals h)
  else if String.eqb path "/health" then
    match driver_error (h_state h) with
    | Some _ => mkReply "503 Service Unavailable" "text/plain" (line "driver stopped")
    | None => mkReply "200 OK" "text/plain" (line "ok")
    end
  else mkReply "404 Not Found" "text/plain" "".

Definition crlf : string := bytes_text [13; 10].

Definition response_text (r : Reply) : string :=
  "HTTP/1.1 " ++ rp_status r ++ crlf ++ "Content-Type: " ++ rp_content_type r ++ crlf
  ++ "Content-Length: " ++ dec (Z.of_nat (String.length (rp_body r))) ++ crlf
  ++ "Connection: close" ++ crlf ++ crlf ++ rp_body r.

Definition serve (two_decimals : Z -> Z -> string) (request_line : string) (h : NodeHandle) : string :=
  response_text (route two_decimals request_line h).

(** * Theorems *)

Definition not_char (c : ascii) (d : ascii) : bool := negb (Ascii.eqb d c).

Lemma split_once_app c a b : every (not_char c) a = true -> split_once c (a ++ String c b) = Some (a, b).
Proof.
  induction a as [|x a IH]; [simpl; by rewrite Ascii.eqb_refl|]. rewrite append_cons. simpl. unfold not_char at 1.
  intros [Hx%negb_true_iff Ha]%andb_true_iff. by rewrite Hx, IH.
Qed.

(** ** Peers *)

(** The command line's form of a peer is read back, whatever the address reader does
    with the rest. *)
Lemma parse_peer_reads {Addr} (parse_addr : string -> result string Addr) (id : NodeId) (addr : string) a :
  is_u32 id -> parse_addr addr = Ok a -> parse_peer parse_addr (dec id ++ "=" ++ addr) = Ok (id, a).
Proof.
  intros Hid Ha. assert (Hu : is_u64 id) by (unfold is_u32, is_u64 in *; lia). unfold parse_peer.
  change ("=" ++ addr)%string with (String "=" addr). rewrite split_once_app.
  - destruct (dec_numeral id Hu) as (k & Hk & Hp & E). unfold is_u32 in Hid. rewrite E, read_printed by lia.
    destruct (Z.leb_spec U32 id); [lia|]. by rewrite Ha.
  - apply dec_every; [done|]. intros d Hd. unfold not_char. destruct (Ascii.eqb_spec (digit d) "=") as [E|]; [|done].
    pose proof (digit_code 10 ltac:(lia) d Hd) as Hc. rewrite E in Hc. cbn in Hc. case_match; lia.
Qed.

(** What [main] starts: a cluster that its node belongs to, of the peers given. *)
Theorem server_starts_in_its_cluster {Addr} (args : Args (Addr := Addr)) opts :
  server_main args = Start opts ->
  a_id args ∈ voters (no_bootstrap opts) /\
  (forall id, id ∈ voters (no_bootstrap opts) <-> id ∈ (a_peers args).*1) /\
  o_lease_reads (no_raft opts) = a_lease_reads args /\ no_tick_interval opts = Nanos_from_millis (a_tick_ms args).
Proof.
  unfold server_main. destruct (length (a_peers args) =? 0)%nat; [done|].
  destruct (existsb _ (a_peers args)) eqn:E; [|done]. intros [= <-]. simpl.
  assert (Hv : forall id, id ∈ (list_to_set (map fst (a_peers args)) : gset NodeId) <-> id ∈ (a_peers args).*1).
  { intros id. by rewrite elem_of_list_to_set. }
  split_and!; [|exact Hv|done..]. apply Hv. apply existsb_exists in E as ([id a] & Hin & Hid).
  apply list_elem_of_fmap. exists (id, a). simpl in *. split; [lia|]. by apply list_elem_of_In.
Qed.

Lemma server_starts_in_its_cluster_witness :
  let args := mkArgs 2 0 [(1, 10); (2, 20)] "/var/lib/chronolog" 0 50 false true in
  exists opts, server_main args = Start opts /\ a_id args ∈ voters (no_bootstrap opts).
Proof.
  eexists. split; [reflexivity|].
  refine (proj1 (server_starts_in_its_cluster (mkArgs 2 0 [(1, 10); (2, 20)] "/var/lib/chronolog" 0 50 false true) _ eq_refl)).
Defined.

(** ** Health *)

(** The page [/health] answers 503 exactly when the driver has stopped. *)
Theorem health_tells_of_the_driver (two_decimals : Z -> Z -> string) (request_line : string) (h : NodeHandle) :
  request_path request_line = "/health" ->
  (rp_status (route two_decimals request_line h) = "503 Service Unavailable" <-> driver_error (h_state h) <> None) /\
  (rp_status (route two_decimals request_line h) = "200 OK" <-> driver_error (h_state h) = None).
Proof. unfold route. intros ->. simpl. destruct (driver_error (h_state h)); simpl; split; split; congruence. Qed.

Lemma health_tells_of_the_driver_witness :
  let h := driver_stopped "EIO" (start_handle 1) in
  (rp_status (route (fun _ _ => "") "GET /health HTTP/1.1" h) = "503 Service Unavailable" <-> driver_error (h_state h) <> None) /\
  (rp_status (route (fun _ _ => "") "GET /health HTTP/1.1" h) = "200 OK" <-> driver_error (h_state h) = None).
Proof. apply health_tells_of_the_driver. reflexivity. Defined.

(** ** Metrics *)

(** What a collector reads: the number after the space of the first line of the page
    that begins with the name and its labels. *)
Definition read_sample (name l : string) : option Z :=
  match strip_prefix ("chronolog_" ++ name ++ "{") l with
  | None => None
  | Some rest => match split_once " " rest with Some (_, v) => to_option (from_str_radix U64 10 v) | None => None end
  end.

Definition scrape (name page : string) : option Z := head (omap (read_sample name) (text_lines page)).

Definition in_name (c : ascii) : bool := not_char "{" c && not_char "010" c.

(** A sample whose page entry is three lines. *)
Definition Sample_ok (s : Sample) : Prop :=
  every in_name (sm_name s) = true /\ every (not_char "010") (sm_help s) = true /\
  every (not_char "010") (sm_kind s) = true /\ is_u64 (sm_value s).

Lemma every_weaken (p q : ascii -> bool) s : (forall c, p c = true -> q c = true) -> every p s = true -> every q s = true.
Proof. intros H. induction s as [|c s IH]; [done|]. simpl. intros [Hc Hs]%andb_true_iff. by rewrite (H c Hc), IH. Qed.

Lemma strip_prefix_name a b rest u :
  every (not_char "{") a = true -> every (not_char "{") b = true ->
  strip_prefix (a ++ "{") (b ++ String "{" rest) = Some u -> a = b /\ u = rest.
Proof.
  revert b. induction a as [|x a IH]; intros [|y b] Ha Hb; rewrite ?append_nil_l.
  - cbn [strip_prefix]. rewrite Ascii.eqb_refl. by intros [= <-].
  - rewrite append_cons. cbn [strip_prefix every] in *. apply andb_true_iff in Hb as [Hy _]. unfold not_char in Hy.
    rewrite Ascii.eqb_sym. by destruct (Ascii.eqb y "{").
  - rewrite append_cons. cbn [strip_prefix every] in *. apply andb_true_iff in Ha as [Hx _]. unfold not_char in Hx.
    by destruct (Ascii.eqb x "{").
  - rewrite !append_cons. cbn [strip_prefix every] in *. apply andb_true_iff in Ha as [_ Ha], Hb as [_ Hb].
    destruct (Ascii.eqb_spec x y) as [->|]; [|done]. intros H. apply IH in H as [-> ->]; done.
Qed.

Lemma strip_common p a b : strip_prefix (p ++ a) (p ++ b) = strip_prefix a b.
Proof. induction p as [|c p IH]; [done|]. rewrite !append_cons. simpl. by rewrite Ascii.eqb_refl. Qed.

Lemma digit_not c d : 0 <= d < 10 -> (Z.of_N (N_of_ascii c) < 48 \/ 57 < Z.of_N (N_of_ascii c)) -> not_char c (digit d) = true.
Proof.
  intros Hd Hc. unfold not_char. destruct (Ascii.eqb_spec (digit d) c) as [<-|]; [|done].
  rewrite (digit_code 10) in Hc by lia. case_match; lia.
Qed.

Lemma dec_not c n : is_u64 n -> Z.of_N (N_of_ascii c) < 48 \/ 57 < Z.of_N (N_of_ascii c) -> every (not_char c) (dec n) = true.
Proof. intros Hn Hc. apply dec_every; [done|]. intros d Hd. by apply digit_not. Qed.

Section Page.
Context (node : NodeId) (Hnode : is_u64 node).

Definition sample_lines (s : Sample) : list string :=
  ["# HELP chronolog_" ++ sm_name s ++ " " ++ sm_help s; "# TYPE chronolog_" ++ sm_name s ++ " " ++ sm_kind s;
   "chronolog_" ++ sm_name s ++ "{node=" ++ bytes_text [34] ++ dec node ++ bytes_text [34] ++ "} " ++ dec (sm_value s)].

Lemma text_lines_line l t : every (not_char "010") l = true -> text_lines (line l ++ t) = l :: text_lines t.
Proof. unfold line. rewrite append_assoc. apply text_lines_app. Qed.

Lemma sample_lines_clean s : Sample_ok s -> Forall (fun l => every (not_char "010") l = true) (sample_lines s).
Proof.
  intros (Hn & Hh & Hk & Hv).
  assert (Hn' : every (not_char "010") (sm_name s) = true).
  { eapply every_weaken; [|exact Hn]. by intros c [_ ?]%andb_true_iff. }
  assert (Hd : forall n, is_u64 n -> every (not_char "010") (dec n) = true) by (intros n H; apply dec_not; [done|cbn; lia]).
  unfold sample_lines. repeat constructor; rewrite !every_app, ?Hn', ?Hh, ?Hk, ?Hd by done; reflexivity.
Qed.

Lemma page_lines ss : Forall Sample_ok ss ->
  text_lines (concat_text (map (sample_text node) ss)) = concat (map sample_lines ss).
Proof.
  induction 1 as [|s ss Hs _ IH]; [done|]. apply sample_lines_clean in Hs. unfold sample_lines in Hs.
  apply Forall_cons in Hs as [H1 Hs]. apply Forall_cons in Hs as [H2 Hs]. apply Forall_cons in Hs as [H3 _].
  cbn [map concat concat_text fold_right]. unfold sample_text at 1. rewrite !append_assoc.
  rewrite !text_lines_line by done. fold (concat_text (map (sample_text node) ss)). by rewrite IH.
Qed.

Lemma read_comment name l : read_sample name (String "#" l) = None.
Proof. reflexivity. Qed.

Lemma in_name_brace n : every in_name n = true -> every (not_char "{") n = true.
Proof. apply every_weaken. by intros c [? _]%andb_true_iff. Qed.

(** A line of a value is read by its own name only. *)
Lemma read_value name s :
  Sample_ok s -> every in_name name = true ->
  omap (read_sample name) (sample_lines s) = if String.eqb name (sm_name s) then [sm_value s] else [].
Proof.
  intros (Hn & Hh & Hk & Hv) Hname. unfold sample_lines. rewrite !append_cons. cbn [omap list_omap]. rewrite !read_comment.
  rewrite <- !append_cons. change (String "c" ("hronolog_" ++ ?x)) with ("chronolog_" ++ x)%string.
  set (rest := ("node=" ++ bytes_text [34] ++ dec node ++ bytes_text [34] ++ "}")%string).
  assert (E : ("{node=" ++ bytes_text [34] ++ dec node ++ bytes_text [34] ++ "} " ++ dec (sm_value s))%string
    = String "{" (rest ++ String " " (dec (sm_value s)))) by (unfold rest; rewrite !append_assoc; reflexivity).
  rewrite E. unfold read_sample. rewrite strip_common.
  destruct (String.eqb_spec name (sm_name s)) as [->|Hne].
  - rewrite strip_common. cbn [strip_prefix]. rewrite Ascii.eqb_refl.
    rewrite split_once_app, dec_reads_back by (try done; unfold rest; rewrite !every_app, dec_not by (try done; cbn; lia); reflexivity).
    done.
  - destruct (strip_prefix _ _) as [u|] eqn:Es; [|done].
    apply strip_prefix_name in Es as [-> _]; [done| |]; by apply in_name_brace.
Qed.

Lemma scrape_page ss s : Forall Sample_ok ss -> NoDup (map sm_name ss) -> s ∈ ss ->
  scrape (sm_name s) (concat_text (map (sample_text node) ss)) = Some (sm_value s).
Proof.
  intros Hss Hnd Hin. unfold scrape. rewrite page_lines by done.
  induction ss as [|s' ss IH]; [by apply elem_of_nil in Hin|].
  assert (Hs : Sample_ok s) by (rewrite Forall_forall in Hss; by apply Hss).
  apply Forall_cons in Hss as [Hs' Hss]. apply NoDup_cons in Hnd as [Hfresh Hnd].
  cbn [map concat]. rewrite omap_app, read_value by (try done; apply Hs).
  destruct (String.eqb_spec (sm_name s) (sm_name s')) as [E|Hne].
  - apply elem_of_cons in Hin as [->|Hin]; [done|]. exfalso. apply Hfresh. rewrite <- E. by apply list_elem_of_fmap_2.
  - apply elem_of_cons in Hin as [->|Hin]; [done|]. by apply IH.
Qed.

Lemma scrape_nothing ss name : Forall Sample_ok ss -> every in_name name = true -> name ∉ map sm_name ss ->
  scrape name (concat_text (map (sample_text node) ss)) = None.
Proof.
  intros Hss Hname Hn. unfold scrape. rewrite page_lines by done.
  induction ss as [|s ss IH]; [done|]. apply Forall_cons in Hss as [Hs Hss]. apply not_elem_of_cons in Hn as [Hne Hn].
  cbn [map concat]. rewrite omap_app, read_value by done.
  destruct (String.eqb_spec name (sm_name s)) as [E|_]; [done|]. by apply IH.
Qed.
End Page.

(** What is published under each name: for a counter the field of [NodeMetrics], for a
    gauge the field of the published state, or what it says of the node. *)
Definition published_as (h : NodeHandle) : list (string * Z) :=
  let m := h_metrics h in
  let p := ps_published (h_state h) in
  [("proposals_total", m proposals); ("commits_total", m commits); ("applies_total", m applies);
   ("fsyncs_total", m Driver.fsyncs); ("batches_total", m batches); ("batched_entries_total", m batched_entries);
   ("elections_started_total", m elections_started); ("leadership_gained_total", m leadership_gained);
   ("leadership_lost_total", m leadership_lost); ("snapshots_taken_total", m snapshots_taken);
   ("snapshots_installed_total", m snapshots_installed); ("client_requests_total", m client_requests);
   ("not_leader_redirects_total", m not_leader_redirects); ("reads_linearizable_total", m reads_linearizable);
   ("reads_lease_total", m reads_lease); ("reads_stale_total", m reads_stale);
   ("term", pb_term p); ("commit_index", pb_commit_index p); ("applied_index", pb_applied_index p);
   ("last_index", pb_last_index p); ("snapshot_index", pb_snapshot_index p);
   ("is_leader", match pb_role p with Leader => 1 | _ => 0 end);
   ("keys", pb_keys p); ("wal_segments", pb_wal_segments p); ("wal_bytes", pb_wal_bytes p);
   ("apply_lag", Z.max 0 (pb_commit_index p - pb_applied_index p));
   ("driver_up", match driver_error (h_state h) with None => 1 | Some _ => 0 end)].

(** The numbers of the handle are of their types. *)
Definition Handle_ok (h : NodeHandle) : Prop :=
  let p := ps_published (h_state h) in
  (forall c, is_u64 (h_metrics h c)) /\
  Forall is_u64 [pb_node p; pb_term p; pb_commit_index p; pb_applied_index p; pb_last_index p; pb_snapshot_index p;
                 pb_keys p; pb_wal_segments p; pb_wal_bytes p].

(** The page has these samples, and no other. *)
Lemma samples_published h : map (fun s => (sm_name s, sm_value s)) (samples h) = published_as h.
Proof.
  unfold samples, counters, gauges, published_as, NodeMetrics_get, ssub. cbn -[Z.max Z.sub].
  by destruct (pb_role _), (driver_error _).
Qed.

Lemma published_u64 h : Handle_ok h -> Forall (fun x => is_u64 x.2) (published_as h).
Proof.
  intros [Hm Hp]. unfold published_as. rewrite !Forall_cons in Hp. destruct_and! Hp.
  repeat (apply Forall_cons_2; [cbn [snd]; try done; try apply Hm|]); [..|by apply Forall_nil_2].
  all: unfold is_u64 in *; try (destruct (pb_role _)); try (destruct (driver_error _)); lia.
Qed.

Lemma samples_ok h : Handle_ok h -> Forall Sample_ok (samples h) /\ NoDup (map sm_name (samples h)).
Proof.
  intros Hh. split.
  - assert (Ht : forallb (fun s => every in_name (sm_name s) && every (not_char "010") (sm_help s) && every (not_char "010") (sm_kind s))
      (samples h) = true) by reflexivity.
    pose proof (published_u64 h Hh) as Hv. rewrite <- samples_published, Forall_fmap, Forall_forall in Hv.
    rewrite Forall_forall. intros s Hs. rewrite forallb_forall in Ht.
    specialize (Ht s (proj1 (list_elem_of_In _ _) Hs)). apply andb_true_iff in Ht as [[H1 H2]%andb_true_iff H3].
    split_and!; [done..|]. by apply (Hv s).
  - assert (E : map sm_name (samples h) = map sm_name (samples (start_handle 0))) by reflexivity. rewrite E. by_decide.
Qed.

(** C39: the metrics page says what the node knows. Take any handle whose numbers fit
    their types. A collector that reads the page served at [/metrics] finds, under the
    name of each of the sixteen counters, the value of that counter of the node, and
    under the name of each of the eleven gauges the published value: the term, the
    indices, whether the node leads, the number of keys, the size of the log on disk, by
    how much the applied index is behind the commit index, and whether the driver
    runs. Under any other name it finds nothing. *)
Theorem metrics_are_read_back (two_decimals : Z -> Z -> string) (h : NodeHandle) :
  Handle_ok h ->
  let page := rp_body (route two_decimals "GET /metrics HTTP/1.1" h) in
  (forall name v, (name, v) ∈ published_as h -> scrape name page = Some v) /\
  (forall name, every in_name name = true -> name ∉ map fst (published_as h) -> scrape name page = None).
Proof.
  intros Hh. cbv zeta. change (rp_body _) with (prometheus h). destruct (samples_ok h Hh) as [Hok Hnd].
  assert (Hnode : is_u64 (pb_node (ps_published (h_state h)))) by (destruct Hh as [_ Hp]; by apply Forall_cons in Hp as [? _]).
  rewrite <- samples_published. split.
  - intros name v Hin. apply list_elem_of_fmap in Hin as (s & [= -> ->] & Hs). by apply (scrape_page _ Hnode).
  - intros name Hname Hn. apply (scrape_nothing _ Hnode); [done..|]. by rewrite map_map in Hn.
Qed.

Lemma metrics_are_read_back_witness :
  let h := driver_stopped "EIO" (mkHandle (NodeMetrics_inc NodeMetrics_default Driver.fsyncs) (h_state (start_handle 3)) "[1,2,3]") in
  let page := rp_body (route (fun _ _ => "") "GET /metrics HTTP/1.1" h) in
  scrape "fsyncs_total" page = Some 1 /\ scrape "driver_up" page = Some 0 /\ scrape "enospc_total" page = None.
Proof.
  intros h page. assert (Hh : Handle_ok h) by (split; [by intros []|by_decide]).
  destruct (metrics_are_read_back (fun _ _ => "") h Hh) as [H1 H2].
  split_and!; [apply H1; by_decide|apply H1; by_decide|apply H2; by_decide].
Defined.

(** The counters of full disks and membership changes are on no page. *)
Example some_counters_are_not_exported :
  filter (fun p => p.1 ∉ map (fun x => x.2) counter_table) metric_names =
    [("config_changes_proposed", config_changes_proposed); ("config_changes_applied", config_changes_applied); ("enospc", Driver.enospc)].
Proof. vm_compute. reflexivity. Qed.
