(* ===== verification/Chronoscope.v ===== *)
(** * The command line of the simulator: [crates/chronoscope/src/main.rs]

    - [World] and its configuration, the commands with their exit codes and what
      they print, the timeline of [replay], the artifact of a failing seed;
    - the command that is printed to reproduce a failure, with what the flags in it
      mean ([clap]'s part: a long flag sets its field, the others keep their
      defaults);
    - the workers of [check] and [swarm], threads that share counters, as a step
      relation in which each atomic operation is a step.

    A run of a scenario is a partial function of its configuration here, [run], with
    no value when the run never ends (it can: [Scenario.silence_hangs_the_harness]);
    what it is, and that it is a function, is the subject of [Scenario]. The texts of reports and
    verdicts, what is computed in floating point and the wall clock are parameters or
    left out. *)

From Stdlib Require Import ZArith Lia String Ascii.
From stdpp Require Import base tactics list list_numbers gmap sets strings sorting relations.
From S2P Require Import Prelude Codec Types Client Rng Time Trace Fault History Lin Kernel Sim Invariants Liveness Scenario Workload Numerals Text.

Open Scope string_scope.
Open Scope list_scope.
Open Scope Z_scope.

(** ** The shape of the universe *)

Record World : Type := mkWorld {
  w_policy : string;
  w_servers : Z;
  w_clients : Z;
  w_keys : Z;
  w_secs : Z;
  w_reads : Z;
  w_lease_reads : bool;
  w_spares : Z;
  w_reconfigure_secs : Z
}.

Definition World_default : World := mkWorld "nemesis" 3 4 5 600 40 false 0 0.

Section Cli.
(** The bound on the operations of a client, twenty thousand and a million, which
    nothing here computes with. *)
Context (max_ops bench_ops : nat).

(** [World::config]; [None] is the exit with code 2 for an unknown policy. *)
Definition World_config (w : World) (seed : Z) (trace : TraceMode) : option ScenarioConfig :=
  match preset (w_policy w) with
  | None => None
  | Some policy =>
      Some (mkScenarioConfig seed (w_servers w) (w_clients w) (w_keys w) max_ops (Nanos_from_millis 25)
        (Nanos_from_secs (w_secs w)) (w_spares w)
        (if w_reconfigure_secs w =? 0 then None else Some (Nanos_from_secs (w_reconfigure_secs w))) 3
        (Nanos_from_secs 120) policy (w_reads w) Client.Linearizable trace (w_lease_reads w) Limits_default)
  end.

(** [threads]; [available] is the parallelism of the machine, when it is known. *)
Definition threads (available : option nat) (requested : nat) : nat :=
  if (0 <? requested)%nat then requested else default 4%nat available.

Context (run : ScenarioConfig -> option RunReport) (report_text : RunReport -> string) (failure_text : Failure -> string).
(** The line of [run] with the node-hours and the wall clock, and the text of an event
    of the history. *)
Context (compressed : RunReport -> Z -> string) (history_text : History.Event -> string).

Definition println (s : string) : string := (s ++ newline)%string.
Definition print_lines (ls : list string) : string := fold_right (fun l s => println l ++ s)%string "" ls.

(** ** [run] *)

Definition flag (name value : string) : string := (" --" ++ name ++ " " ++ value)%string.

(** The line that [run] prints for a failing seed, and the one of an artifact. *)
Definition reproduce_run (seed : Z) (w : World) : string :=
  ("chronoscope replay --seed " ++ hex18 seed ++ flag "policy" (w_policy w) ++ flag "servers" (dec (w_servers w))
    ++ flag "clients" (dec (w_clients w)) ++ flag "keys" (dec (w_keys w)) ++ flag "secs" (dec (w_secs w)))%string.

Definition reproduce_artifact (seed : Z) (w : World) : string :=
  (reproduce_run seed w ++ (if w_lease_reads w then " --lease-reads" else ""))%string.

(** What a command leaves, when it ends: its exit code and what it printed on the
    standard output. *)
Definition cmd_run (seed : Z) (w : World) (show_history : bool) : option (Z * string) :=
  match World_config w seed (Tail (64 * 64)) with
  | None => Some (2, "")
  | Some cfg =>
      report ← run cfg;
      let out := (println ("chronoscope run  seed " ++ hex18 seed ++ "  policy " ++ w_policy w) ++ newline
        ++ report_text report ++ newline ++ println (compressed report (w_servers w))
        ++ (if show_history
            then newline ++ println "--- client history ---" ++ print_lines (map history_text (take 200 (rp_history report)))
            else ""))%string in
      Some match failure report with
      | None => (0, out ++ newline ++ println "PASS")%string
      | Some why =>
          (1, out ++ newline ++ println "FAIL" ++ println (failure_text why)
              ++ println ("reproduce:  " ++ reproduce_run seed w))%string
      end
  end.

(** ** [replay] *)

Definition is_interesting (e : Trace.Event) : bool :=
  match e with
  | EvBoot _ | EvCrash _ | EvRestart _ | EvPartition _ _ _ | EvHeal _ _ | EvPause _ _ | EvResume _
  | EvClockStep _ _ | EvTornWrite _ _ _ _ _ | EvLostWrite _ _ _ _ | EvEnospc _ _ | EvNote _ _ => true
  | _ => false
  end.

(** The loop over the trace: the entries printed, and how many were not. *)
Definition replay_step (full : bool) (node : option NodeId) (limit : nat) (acc : list TraceEntry * nat) (x : TraceEntry) :
    list TraceEntry * nat :=
  let '(shown, skipped) := acc in
  if match node with Some n => negb (bool_decide (Event_node (te_event x) = Some n)) | None => false end then acc
  else if negb full && negb (is_interesting (te_event x)) then (shown, S skipped)
  else if (limit <=? length shown)%nat then (shown, S skipped)
  else (shown ++ [x], skipped).

Definition timeline (full : bool) (node : option NodeId) (limit : nat) (trace : list TraceEntry) : list TraceEntry * nat :=
  fold_left (replay_step full node limit) trace ([], O).

Definition replay_mode (full : bool) (limit : nat) : TraceMode := if full then Full else Tail (Nat.max limit 64 * 8).

(** [trace_of]: the entries the report carries. *)
Definition cmd_replay (trace_of : RunReport -> list TraceEntry) (seed : Z) (w : World) (full : bool)
    (node : option NodeId) (limit : nat) : option (Z * string) :=
  match World_config w seed (replay_mode full limit) with
  | None => Some (2, "")
  | Some cfg =>
      report ← run cfg;
      let '(shown, skipped) := timeline full node limit (trace_of report) in
      let out := (println ("chronoscope replay  seed " ++ hex18 seed ++ "  policy " ++ w_policy w) ++ newline
        ++ println "--- timeline ---" ++ print_lines (map Entry_text shown)
        ++ (if (0 <? skipped)%nat
            then println ("... " ++ dec (Z.of_nat skipped) ++ " events not shown (raise --limit, or pass --full)") else "")
        ++ newline ++ report_text report)%string in
      Some match failure report with
      | None => (0, out ++ newline ++ println "PASS — this seed is clean")%string
      | Some why => (1, out ++ newline ++ println "FAIL" ++ println (failure_text why))%string
      end
  end.

(** ** Artifacts *)

Definition first_line (s : string) : string := match text_lines s with l :: _ => l | [] => s end.

Definition artifact_name (seed : Z) : string := ("seed-" ++ hex16 seed ++ ".txt")%string.

(** [iter().rev().take(300).rev()]. *)
Definition trace_tail (trace : list TraceEntry) : list TraceEntry := rev (take 300 (rev trace)).

Definition artifact_text (seed : Z) (w : World) (why report : string) (trace : list TraceEntry) : string :=
  ("# chronoscope failure: seed " ++ hex18 seed ++ newline ++ newline ++ "## reproduce" ++ newline ++ newline
    ++ reproduce_artifact seed w ++ newline ++ newline ++ "## what failed" ++ newline ++ newline ++ why
    ++ newline ++ newline ++ "## run summary" ++ newline ++ newline ++ report
    ++ newline ++ "## trace tail" ++ newline ++ newline
    ++ fold_right (fun x s => Entry_text x ++ newline ++ s) "" (trace_tail trace))%string.

(** ** [bench] *)

Definition bench_config (seed servers clients secs : Z) : ScenarioConfig :=
  mkScenarioConfig seed servers clients 64 bench_ops 0 (Nanos_from_secs secs) 0 None 3 (Nanos_from_secs 1) benign 0
    Client.Linearizable HashOnly false Limits_default.

Definition latencies (h : list History.Event) : list Z :=
  merge_sort Z.le (map (fun e => ssub (returned e) (invoked e)) h).

(** [pct]: the latency at the index that a fraction of the highest one gives. *)
Definition percentile (index : nat -> nat) (ls : list Z) : Z :=
  match ls with [] => 0 | _ => ls !!! index (length ls - 1)%nat end.
End Cli.

(** ** The workers of [check] and [swarm] *)

Inductive Mode : Type := CheckSeeds | SwarmSeeds (fail_fast : bool).

(** Where a worker is: at [stop.load], at [next.fetch_add], running seed number [i],
    at [done.fetch_add] after it, or returned. *)
Inductive WorkerPhase : Type :=
| AtStop
| AtFetch
| AtRun (i : Z)
| AtDone (i : Z)
| Left_.

(** The shared counters, what was pushed or filed ([failures], by number), and for
    the theorems the numbers of the seeds that were run. *)
Record Pool : Type := mkPool {
  pl_next : Z;
  pl_done : Z;
  pl_stop : bool;
  pl_failures : list Z;
  pl_ran : list Z;
  pl_workers : list WorkerPhase
}.

Definition top_phase (m : Mode) : WorkerPhase := match m with CheckSeeds => AtFetch | SwarmSeeds _ => AtStop end.

Definition stops_at_failure (m : Mode) : bool := match m with CheckSeeds => false | SwarmSeeds b => b end.

Definition Pool_start (m : Mode) (jobs : nat) : Pool := mkPool 0 0 false [] [] (replicate jobs (top_phase m)).

(** [from.wrapping_add(i)]. *)
Definition seed_of (from i : Z) : Z := from +64 i.

Section Workers.
Context (m : Mode) (seeds : Z).
(** What a worker finds when it runs seed number [i]: whether it fails, and nothing
    when the run never ends. *)
Context (judge : Z -> option bool).

(** One atomic operation of a worker in phase [ph]: its next phase and the effect on
    what is shared. None for a worker that has returned, and none for one inside a run
    that never ends. A run that fails is counted and filed; with [fail_fast] the worker
    then stops the others and returns without counting the run as done. *)
Definition worker_step (ph : WorkerPhase) (p : Pool) : option (WorkerPhase * Pool) :=
  match ph with
  | AtStop => Some (if pl_stop p then Left_ else AtFetch, p)
  | AtFetch =>
      let i := pl_next p in
      Some (if seeds <=? i then Left_ else AtRun i,
        mkPool (pl_next p +64 1) (pl_done p) (pl_stop p) (pl_failures p) (pl_ran p) (pl_workers p))
  | AtRun i =>
      fails ← judge i;
      Some (if fails : bool then
        if stops_at_failure m
        then (Left_, mkPool (pl_next p) (pl_done p) true (pl_failures p ++ [i]) (pl_ran p ++ [i]) (pl_workers p))
        else (AtDone i, mkPool (pl_next p) (pl_done p) (pl_stop p) (pl_failures p ++ [i]) (pl_ran p ++ [i]) (pl_workers p))
      else (AtDone i, mkPool (pl_next p) (pl_done p) (pl_stop p) (pl_failures p) (pl_ran p ++ [i]) (pl_workers p)))
  | AtDone _ =>
      Some (top_phase m, mkPool (pl_next p) (pl_done p +64 1) (pl_stop p) (pl_failures p) (pl_ran p) (pl_workers p))
  | Left_ => None
  end.

Definition set_worker (w : nat) (ph : WorkerPhase) (p : Pool) : Pool :=
  mkPool (pl_next p) (pl_done p) (pl_stop p) (pl_failures p) (pl_ran p) (<[w := ph]> (pl_workers p)).

Inductive pool_step : Pool -> Pool -> Prop :=
| step_worker w ph p ph' p' :
    pl_workers p !! w = Some ph -> worker_step ph p = Some (ph', p') ->
    pool_step p (set_worker w ph' p').

(** [thread::scope] ends when every worker has returned. *)
Definition scope_over (p : Pool) : Prop := Forall (eq Left_) (pl_workers p).
End Workers.

Definition exit_code (p : Pool) : Z := match pl_failures p with [] => 0 | _ => 1 end.

(** ** [main] *)

Inductive Command : Type :=
| Run (seed : Z) (world : World) (history : bool)
| Replay (seed : Z) (world : World) (full : bool) (node : option NodeId) (limit : nat)
| Check_ (seeds from : Z) (world : World) (parallel : nat)
| Swarm (seeds from : Z) (parallel : nat) (world : World) (fail_fast : bool)
| Bench (seed servers clients secs : Z).

Section Main.
Context (max_ops bench_ops : nat) (available : option nat).
Context (run : ScenarioConfig -> option RunReport) (guard : ScenarioConfig -> option DeterminismReport).
Context (report_text : RunReport -> string) (failure_text : Failure -> string) (trace_of : RunReport -> list TraceEntry).
Context (compressed : RunReport -> Z -> string) (history_text : History.Event -> string).

(** What a worker finds wrong with a seed. *)
Definition diverges (w : World) (from i : Z) : option bool :=
  cfg ← World_config max_ops w (seed_of from i) HashOnly;
  report ← guard cfg; Some (negb (is_deterministic report)).

Definition run_fails (w : World) (from i : Z) : option bool :=
  cfg ← World_config max_ops w (seed_of from i) (Tail (64 * 32));
  report ← run cfg; Some (match failure report with Some _ => true | None => false end).

(** How a command can end. A worker that meets an unknown policy ends the process;
    [made] is whether the directory of the artifacts could be made. *)
Inductive main_exits (made : bool) : Command -> Z -> Prop :=
| exits_run seed w history code out :
    cmd_run max_ops run report_text failure_text compressed history_text seed w history = Some (code, out) ->
    main_exits made (Run seed w history) code
| exits_replay seed w full node limit code out :
    cmd_replay max_ops run report_text failure_text trace_of seed w full node limit = Some (code, out) ->
    main_exits made (Replay seed w full node limit) code
| exits_check seeds from w parallel p :
    is_Some (preset (w_policy w)) \/ seeds = 0 ->
    rtc (pool_step CheckSeeds seeds (diverges w from)) (Pool_start CheckSeeds (threads available parallel)) p ->
    scope_over p -> main_exits made (Check_ seeds from w parallel) (exit_code p)
| exits_swarm seeds from parallel w fail_fast p :
    made = true -> is_Some (preset (w_policy w)) \/ seeds = 0 ->
    rtc (pool_step (SwarmSeeds fail_fast) seeds (run_fails w from))
      (Pool_start (SwarmSeeds fail_fast) (threads available parallel)) p ->
    scope_over p -> main_exits made (Swarm seeds from parallel w fail_fast) (exit_code p)
| exits_swarm_directory seeds from parallel w fail_fast :
    made = false -> main_exits made (Swarm seeds from parallel w fail_fast) 2
| exits_policy command w seeds :
    match command with
    | Check_ n _ w' _ | Swarm n _ _ w' _ => w = w' /\ seeds = n
    | _ => False
    end ->
    preset (w_policy w) = None -> 0 < seeds -> main_exits made command 2
| exits_bench seed servers clients secs report :
    run (bench_config bench_ops seed servers clients secs) = Some report -> main_exits made (Bench seed servers clients secs) 0.
End Main.

(** * Theorems *)

(** ** The workers *)

Lemma omap_cons_app {A B} (f : A -> option B) x l : omap f (x :: l) = option_list (f x) ++ omap f l.
Proof. simpl. by destruct (f x). Qed.

Lemma omap_few {A B} (f : A -> option B) l : (length (omap f l) <= length l)%nat.
Proof. induction l as [|x l IH]; [done|]. rewrite omap_cons_app, length_app. destruct (f x); simpl length; lia. Qed.

Lemma omap_insert_perm {A B} (f : A -> option B) l i x y : l !! i = Some x ->
  exists rest, omap f l ≡ₚ option_list (f x) ++ rest /\ omap f (<[i := y]> l) ≡ₚ option_list (f y) ++ rest.
Proof.
  intros H. destruct (list_elem_of_split_length l i x H) as (l1 & l2 & -> & ->).
  exists (omap f (l1 ++ l2)). rewrite insert_app_r_alt, Nat.sub_diag by done. simpl. rewrite !omap_app. simpl.
  split; [destruct (f x) | destruct (f y)]; simpl; rewrite <- ?Permutation_middle; done.
Qed.

Definition running_on (ph : WorkerPhase) : option Z := match ph with AtRun i => Some i | _ => None end.
Definition counting_on (ph : WorkerPhase) : option Z := match ph with AtDone i => Some i | _ => None end.
Definition left_on (ph : WorkerPhase) : option unit := match ph with Left_ => Some tt | _ => None end.

Section Coverage.
Context (m : Mode) (seeds : Z) (judge : Z -> option bool) (jobs : nat).
Hypothesis seeds_nonneg : 0 <= seeds.
Hypothesis seeds_fit : seeds + Z.of_nat jobs + 1 < U64.

Record pool_inv (p : Pool) : Prop := {
  pi_jobs : length (pl_workers p) = jobs;
  (** every number below [next] is being run or has been, once *)
  pi_ran : omap running_on (pl_workers p) ++ pl_ran p ≡ₚ seqZ 0 (Z.min (pl_next p) seeds);
  pi_next : 0 <= pl_next p <= seeds + Z.of_nat (length (omap left_on (pl_workers p)));
  pi_failures : pl_failures p = filter (fun i => judge i = Some true) (pl_ran p);
  pi_ended : Forall (fun i => is_Some (judge i)) (pl_ran p);
  pi_done : pl_stop p = false -> pl_done p + Z.of_nat (length (omap counting_on (pl_workers p))) = Z.of_nat (length (pl_ran p));
  pi_done_range : 0 <= pl_done p;
  pi_left : Left_ ∈ pl_workers p -> seeds <= pl_next p \/ pl_stop p = true;
  pi_stop : pl_stop p = true -> stops_at_failure m = true /\ pl_failures p <> []
}.

Lemma pool_inv_start : pool_inv (Pool_start m jobs).
Proof.
  assert (Hno : forall B (f : WorkerPhase -> option B), f AtFetch = None -> f AtStop = None ->
    omap f (replicate jobs (top_phase m)) = []).
  { intros B f H1 H2. clear -H1 H2. induction jobs as [|j IH]; [done|].
    cbn [replicate]. rewrite omap_cons_app, IH, app_nil_r. by destruct m; simpl; rewrite ?H1, ?H2. }
  split; simpl; rewrite ?Hno by done; try done.
  - apply length_replicate.
  - by rewrite Z.min_l.
  - simpl. lia.
  - intros Hl. apply elem_of_replicate in Hl as [Hl _]. by destruct m.
Qed.

Lemma ran_in_range p i : pool_inv p -> i ∈ pl_ran p -> 0 <= i < seeds.
Proof.
  intros Hinv Hi. assert (Hin : i ∈ seqZ 0 (Z.min (pl_next p) seeds)) by (rewrite <- (pi_ran p Hinv); apply elem_of_app; by right).
  apply elem_of_seqZ in Hin. lia.
Qed.

Lemma ran_few p : pool_inv p -> Z.of_nat (length (pl_ran p)) <= seeds.
Proof.
  intros Hinv. pose proof (Permutation_length (pi_ran p Hinv)) as H. rewrite length_app, length_seqZ in H. lia.
Qed.

Lemma left_few p : pool_inv p -> (length (omap left_on (pl_workers p)) <= jobs)%nat.
Proof. intros Hinv. rewrite <- (pi_jobs p Hinv). apply omap_few. Qed.

Lemma seqZ_snoc n : 0 <= n -> seqZ 0 (n + 1) = seqZ 0 n ++ [n].
Proof. intros Hn. rewrite seqZ_app by lia. by rewrite Z.add_0_l. Qed.

Lemma left_member (ws : list WorkerPhase) w ph ph' :
  ws !! w = Some ph -> ph <> Left_ -> Left_ ∈ <[w := ph']> ws -> Left_ ∈ ws \/ ph' = Left_.
Proof.
  intros Hw Hph [i Hi]%list_elem_of_lookup. destruct (decide (i = w)) as [->|Hne].
  - rewrite list_lookup_insert_eq in Hi by (by eapply lookup_lt_Some). right. congruence.
  - rewrite list_lookup_insert_ne in Hi by done. left. by eapply list_elem_of_lookup_2.
Qed.

(** The counters of a step: what remains is to say how the phases of the worker count. *)
Lemma pool_inv_step p q : pool_inv p -> pool_step m seeds judge p q -> pool_inv q.
Proof.
  intros Hinv Hstep. destruct Hstep as [w ph p ph' p' Hw E]. assert (Hph : ph <> Left_) by (by intros ->).
  destruct (omap_insert_perm running_on _ _ _ ph' Hw) as (R & HR & HR').
  destruct (omap_insert_perm counting_on _ _ _ ph' Hw) as (C & HC%Permutation_length & HC'%Permutation_length).
  destruct (omap_insert_perm left_on _ _ _ ph' Hw) as (L & HL%Permutation_length & HL'%Permutation_length).
  pose proof (left_member _ _ _ ph' Hw Hph) as Hleft.
  pose proof (left_few p Hinv) as Hfew. pose proof (ran_few p Hinv) as Hfew'.
  destruct Hinv as [H1 H2 H3 H4 He H5 H6 H7 H8]. rewrite HR in H2. rewrite length_app in *.
  destruct ph as [| |i|i|]; [| | | |done]; simpl in E.
  - (* stop.load *)
    destruct (pl_stop p) eqn:Hs; injection E as <- <-; simpl in *; split; simpl; rewrite ?length_insert, ?HR', ?Hs; try done.
    all: try lia.
    intros Hl. destruct (Hleft Hl) as [|[=]]; auto.
  - (* next.fetch_add *)
    assert (Hn : pl_next p +64 1 = pl_next p + 1) by (apply Z.mod_small; lia).
    injection E as <- <-. rewrite Hn in *.
    destruct (Z.leb_spec seeds (pl_next p)) as [Hge|Hlt]; simpl in *; split; simpl; rewrite ?length_insert, ?HR', ?Hn;
      try done; try lia; try (intros Hs; specialize (H5 Hs); lia).
    + rewrite H2. f_equiv. lia.
    + change ([pl_next p] ++ R ++ pl_ran p ≡ₚ seqZ 0 ((pl_next p + 1) `min` seeds)).
      rewrite H2, !Z.min_l, seqZ_snoc by lia. apply Permutation_app_comm.
    + intros Hl. destruct (Hleft Hl) as [Hl'|[=]]. destruct (H7 Hl'); [lia|auto].
  - (* a run *)
    assert (Hmove : R ++ pl_ran p ++ [i] ≡ₚ seqZ 0 (Z.min (pl_next p) seeds)).
    { rewrite <- H2. simpl. rewrite (Permutation_app_comm (pl_ran p)). simpl. by rewrite <- Permutation_middle. }
    destruct (judge i) as [fails|] eqn:Hf; [|done]. simpl in E.
    assert (He' : Forall (fun i => is_Some (judge i)) (pl_ran p ++ [i])) by (apply Forall_app_2; [done|repeat constructor; eauto]).
    destruct fails; [destruct (stops_at_failure m) eqn:Hm|]; injection E as <- <-; simpl in *;
      split; simpl; rewrite ?length_insert, ?HR', ?filter_app, ?length_app, ?H4; try done; try lia;
      try (intros Hs; specialize (H5 Hs); simpl; lia); try (by rewrite ?filter_cons_True by done); try (by rewrite filter_cons_False, app_nil_r by congruence);
      try (intros Hl; destruct (Hleft Hl) as [|[=]]; auto).
    + split; [done|]. by destruct (filter _ _).
    + intros Hs. destruct (H8 Hs). congruence.
    + intros Hs. by rewrite <- H4; apply H8.
  - (* done.fetch_add *)
    assert (Hd : pl_stop p = false -> pl_done p +64 1 = pl_done p + 1).
    { intros Hs. specialize (H5 Hs). simpl in HC. apply Z.mod_small. lia. }
    destruct m eqn:Hm; injection E as <- <-; simpl in *;
      split; simpl; rewrite ?length_insert, ?HR'; try done; try lia;
      try (intros Hs; rewrite Hd by done; specialize (H5 Hs); lia); try (by apply Z.mod_pos_bound);
      try (intros Hl; destruct (Hleft Hl) as [|[=]]; auto).
    all: intros Hs; rewrite Hm; by apply H8.
Qed.

Lemma pool_inv_reachable p : rtc (pool_step m seeds judge) (Pool_start m jobs) p -> pool_inv p.
Proof.
  assert (H0 := pool_inv_start). revert H0. generalize (Pool_start m jobs). intros p0 H0 H.
  induction H as [|x y z Hxy _ IH]; [done|]. apply IH. by eapply pool_inv_step.
Qed.
Lemma no_one_left (l : list WorkerPhase) {B} (f : WorkerPhase -> option B) : f Left_ = None -> Forall (eq Left_) l -> omap f l = [].
Proof. intros Hf. induction 1 as [|x l <- _ IH]; [done|]. by rewrite omap_cons_app, IH, Hf. Qed.

(** When the threads have returned, whatever their interleaving, no seed was run
    twice and the failures on file are exactly those of the runs; the exit code is 0
    when and only when every seed of the range ends without a failure; and unless a
    failure stopped the workers early, every seed of the range was run and counted. *)
Record judged (p : Pool) : Prop := {
  jd_once : NoDup (pl_ran p);
  jd_range : forall i, i ∈ pl_ran p -> 0 <= i < seeds;
  jd_failures : pl_failures p = filter (fun i => judge i = Some true) (pl_ran p);
  jd_verdict : exit_code p = 0 <-> forall i, 0 <= i < seeds -> judge i = Some false;
  jd_all : stops_at_failure m = false \/ exit_code p = 0 -> pl_ran p ≡ₚ seqZ 0 seeds /\ pl_done p = seeds
}.

Lemma every_seed_is_judged (p : Pool) :
  (0 < jobs)%nat -> rtc (pool_step m seeds judge) (Pool_start m jobs) p -> scope_over p -> judged p.
Proof.
  intros Hj H Hover. apply pool_inv_reachable in H as Hinv.
  assert (Hran : pl_ran p ≡ₚ seqZ 0 (Z.min (pl_next p) seeds)).
  { rewrite <- (pi_ran p Hinv). by rewrite no_one_left. }
  assert (Hl : Left_ ∈ pl_workers p).
  { pose proof (pi_jobs p Hinv) as Hlen. unfold scope_over in Hover. destruct (pl_workers p) as [|ph ws]; [simpl in Hlen; lia|].
    apply Forall_cons in Hover as [<- _]. left. }
  assert (Hall : pl_stop p = false -> pl_ran p ≡ₚ seqZ 0 seeds /\ pl_done p = seeds).
  { intros Hs. destruct (pi_left p Hinv Hl) as [Hn|]; [|congruence].
    rewrite Z.min_r in Hran by done. split; [done|].
    pose proof (pi_done p Hinv Hs) as Hd. rewrite no_one_left in Hd by done.
    rewrite Hran, length_seqZ in Hd. simpl in Hd. lia. }
  assert (Hcode : exit_code p = 0 <-> pl_failures p = []) by (unfold exit_code; destruct (pl_failures p); split; congruence).
  assert (Hstop : stops_at_failure m = false \/ exit_code p = 0 -> pl_stop p = false).
  { destruct (pl_stop p) eqn:Hs; [|done]. destruct (pi_stop p Hinv Hs) as [Hm Hf]. rewrite Hcode. intros [|]; congruence. }
  split.
  - rewrite Hran. apply NoDup_seqZ.
  - intros i Hi. by eapply ran_in_range.
  - apply (pi_failures p Hinv).
  - split.
    + intros H0 i Hi. destruct (Hall (Hstop (or_intror H0))) as [Hp _]. apply Hcode in H0. rewrite (pi_failures p Hinv) in H0.
      assert (Hin : i ∈ pl_ran p) by (rewrite Hp; apply elem_of_seqZ; lia).
      destruct (proj1 (Forall_forall _ _) (pi_ended p Hinv) i Hin) as [[] Ef]; [|done].
      exfalso. assert (Hf : i ∈ filter (fun i => judge i = Some true) (pl_ran p)) by (by apply list_elem_of_filter).
      rewrite H0 in Hf. by apply elem_of_nil in Hf.
    + intros Hok. apply Hcode. rewrite (pi_failures p Hinv).
      destruct (filter _ (pl_ran p)) as [|i l] eqn:Ef; [done|]. exfalso.
      assert (Hin : i ∈ filter (fun i => judge i = Some true) (pl_ran p)) by (rewrite Ef; left).
      apply list_elem_of_filter in Hin as [Hf Hi]. apply ran_in_range in Hi; [|done]. rewrite Hok in Hf; [done|lia].
  - intros Hc. by apply Hall, Hstop.
Qed.

(** ** The workers return *)

(** How many operations a worker in this phase has left before it claims again. *)
Definition phase_weight (ph : WorkerPhase) : Z :=
  match ph with AtStop => 2 | AtFetch => 1 | AtRun _ => 4 | AtDone _ => 3 | Left_ => 0 end.

Definition workers_weight (ws : list WorkerPhase) : Z := foldr (fun ph n => phase_weight ph + n) 0 ws.

Lemma workers_weight_insert ws w ph ph' : ws !! w = Some ph ->
  workers_weight (<[w := ph']> ws) = workers_weight ws - phase_weight ph + phase_weight ph'.
Proof.
  revert w. induction ws as [|x ws IH]; intros [|w] H; simpl in *; try done; [injection H as ->; lia|].
  rewrite IH by done. lia.
Qed.

Lemma workers_weight_nonneg ws : 0 <= workers_weight ws.
Proof. induction ws as [|x ws IH]; simpl; [lia|]. destruct x; simpl; lia. Qed.

Definition pool_left (p : Pool) : Z := 4 * (seeds - Z.min (pl_next p) seeds) + workers_weight (pl_workers p).

Lemma pool_left_nonneg p : pool_inv p -> 0 <= pool_left p.
Proof. intros Hinv. unfold pool_left. pose proof (workers_weight_nonneg (pl_workers p)). pose proof (pi_next p Hinv). lia. Qed.

Lemma pool_left_step p q : pool_inv p -> pool_step m seeds judge p q -> pool_left q < pool_left p.
Proof.
  intros Hinv Hstep. destruct Hstep as [w ph p ph' p' Hw E]. unfold pool_left, set_worker.
  cbn [pl_next pl_workers].
  assert (Hws : pl_workers p' = pl_workers p) by (destruct ph as [| |i|i|]; simpl in E; [| |destruct (judge i) as [[]|]; simpl in E| |]; repeat case_match; simplify_eq/=; done).
  rewrite Hws, (workers_weight_insert _ _ ph) by done. pose proof (left_few p Hinv). destruct (pi_next p Hinv) as [Hn1 Hn2].
  assert (Hn : pl_next p +64 1 = pl_next p + 1) by (apply Z.mod_small; lia).
  destruct ph as [| |i|i|]; [| | | |done]; simpl in E.
  - destruct (pl_stop p); injection E as <- <-; simpl; lia.
  - injection E as <- <-. simpl. rewrite Hn. destruct (Z.leb_spec seeds (pl_next p)); simpl; lia.
  - destruct (judge i) as [[]|]; [destruct (stops_at_failure m)|..]; simplify_eq/=; lia.
  - injection E as <- <-. destruct m; simpl; lia.
Qed.

(** Who does not move: workers that have returned, and workers inside runs that
    never end. *)
Lemma who_is_stuck p ph : ph ∈ pl_workers p -> (exists q, pool_step m seeds judge p q) \/ ph = Left_ \/
  exists i, ph = AtRun i /\ judge i = None.
Proof.
  intros [w Hw]%list_elem_of_lookup. destruct (worker_step m seeds judge ph p) as [[ph' p']|] eqn:E.
  - left. eexists. by apply (step_worker _ _ _ w ph p ph' p').
  - right. destruct ph as [| |i|i|]; try done; [|by left]. simpl in E. destruct (judge i) eqn:Ej; [done|]. eauto.
Qed.

(** C26: the command ends with the right exit code, or waits for a run that never
    ends. Take any number of workers, one at least, and any range of seeds whose length
    with the workers stays below 2^64 (the shared counter does not wrap). However the
    workers interleave, they make together at most four operations a seed and two a
    worker; and at any moment some worker can go on, or all have returned, or one is
    inside the run of a seed of the range that never ends. So when every run of the
    range ends, the command does. When all have returned, no seed has been run
    twice, the failures on file are those of the seeds that were run, and the exit code
    is 0 when and only when every seed of the range ends without failing; and unless
    [--fail-fast] cut it short, every seed of the range was run and counted. *)
Theorem the_workers_return (n : nat) (p : Pool) :
  (0 < jobs)%nat -> nsteps (pool_step m seeds judge) n (Pool_start m jobs) p ->
  Z.of_nat n <= 4 * seeds + 2 * Z.of_nat jobs /\
  ((exists q, pool_step m seeds judge p q) \/ scope_over p \/
   exists i, 0 <= i < seeds /\ judge i = None /\ AtRun i ∈ pl_workers p) /\
  (scope_over p -> judged p).
Proof.
  intros Hj H. assert (Hr : rtc (pool_step m seeds judge) (Pool_start m jobs) p) by (apply rtc_nsteps; eauto).
  split_and!.
  - assert (Hmeasure : forall n a b, pool_inv a -> nsteps (pool_step m seeds judge) n a b -> Z.of_nat n <= pool_left a - pool_left b /\ pool_inv b).
    { clear -seeds_nonneg seeds_fit. intros n a b Ha H. induction H as [|n x y z Hxy _ IH]; [split; [lia|done]|].
      assert (Hy := pool_inv_step x y Ha Hxy). assert (Hd := pool_left_step x y Ha Hxy).
      destruct (IH Hy). split; [lia|done]. }
    destruct (Hmeasure n _ _ pool_inv_start H) as [Hn Hp]. pose proof (pool_left_nonneg p Hp).
    assert (Hw : forall j, workers_weight (replicate j (top_phase m)) <= 2 * Z.of_nat j).
    { induction j as [|j IH]; cbn [replicate workers_weight foldr]; [lia|]. fold (workers_weight (replicate j (top_phase m))).
      destruct m; simpl phase_weight in *; lia. }
    specialize (Hw jobs). unfold pool_left in Hn at 1. cbn [Pool_start pl_next pl_workers] in Hn. lia.
  - pose proof (pool_inv_reachable p Hr) as Hinv.
    destruct (decide (Forall (fun ph => left_on ph = Some tt) (pl_workers p))) as [Hf|Hf].
    { right. left. eapply Forall_impl; [exact Hf|]. by intros []. }
    apply not_Forall_Exists, Exists_exists in Hf as (ph & Hin & Hph); [|apply _].
    destruct (who_is_stuck p ph Hin) as [Hq|[->|(i & -> & Hi)]]; [by left|by destruct Hph|]. right. right. exists i.
    split_and!; [..|done|done].
    all: assert (Hs : i ∈ seqZ 0 (Z.min (pl_next p) seeds)) by (rewrite <- (pi_ran p Hinv); apply elem_of_app; left;
      apply list_elem_of_omap; by exists (AtRun i)); apply elem_of_seqZ in Hs; lia.
  - by apply every_seed_is_judged.
Qed.
End Coverage.

(** A schedule, one number of a worker for each operation. *)
Fixpoint run_schedule (m : Mode) (seeds : Z) (judge : Z -> option bool) (sched : list nat) (p : Pool) : option Pool :=
  match sched with
  | [] => Some p
  | w :: sched =>
      ph ← pl_workers p !! w; stepped ← worker_step m seeds judge ph p;
      run_schedule m seeds judge sched (set_worker w stepped.1 stepped.2)
  end.

Lemma run_schedule_steps m seeds judge sched : forall p q,
  run_schedule m seeds judge sched p = Some q -> nsteps (pool_step m seeds judge) (length sched) p q.
Proof.
  induction sched as [|w sched IH]; intros p q H; simpl in *; [injection H as ->; constructor|].
  destruct (pl_workers p !! w) as [ph|] eqn:Hw; [|done]. simpl in H.
  destruct (worker_step m seeds judge ph p) as [[ph' p']|] eqn:E; [|done].
  econstructor; [by apply (step_worker _ _ _ w ph p ph' p')|by apply IH].
Qed.

(** Two workers on three seeds, of which the second fails. *)
Definition demo_judge (i : Z) : option bool := Some (i =? 1).
Definition demo_sched : list nat := [0; 1; 1; 0; 1; 0; 0; 0; 0; 1; 1; 0; 0; 1; 0; 0]%nat.

Definition demo_pool : Pool :=
  default (Pool_start (SwarmSeeds false) 2) (run_schedule (SwarmSeeds false) 3 demo_judge demo_sched (Pool_start (SwarmSeeds false) 2)).

Lemma the_workers_return_witness :
  exit_code demo_pool = 1 /\ Z.of_nat (length demo_sched) <= 4 * 3 + 2 * Z.of_nat 2 /\
  ((exists q, pool_step (SwarmSeeds false) 3 demo_judge demo_pool q) \/ scope_over demo_pool \/
   exists i, 0 <= i < 3 /\ demo_judge i = None /\ AtRun i ∈ pl_workers demo_pool) /\
  (scope_over demo_pool -> judged (SwarmSeeds false) 3 demo_judge demo_pool).
Proof.
  split; [vm_compute; reflexivity|].
  apply (the_workers_return (SwarmSeeds false) 3 demo_judge 2); [lia|lia|lia|].
  apply (run_schedule_steps _ _ _ demo_sched). vm_compute. reflexivity.
Defined.

(** A run that never ends keeps the command from ending: the other worker does the
    rest and returns. *)
Example one_endless_run :
  pl_workers <$> run_schedule CheckSeeds 2 (fun i => if i =? 0 then None else Some false) [0; 1; 1; 1; 1]%nat
    (Pool_start CheckSeeds 2) = Some [AtRun 0; Left_].
Proof. reflexivity. Qed.

(** With [fail_fast] a failing run is filed but not counted as done. *)
Example a_failing_run_is_not_counted :
  run_schedule (SwarmSeeds true) 2 (fun _ => Some true) [0; 0; 0]%nat (Pool_start (SwarmSeeds true) 1) =
    Some (mkPool 1 0 true [0] [0] [Left_]).
Proof. reflexivity. Qed.

(** ** The timeline *)

Definition about (node : option NodeId) (x : TraceEntry) : Prop :=
  match node with Some n => Event_node (te_event x) = Some n | None => True end.

#[export] Instance about_dec node x : Decision (about node x).
Proof. destruct node; simpl; apply _. Defined.

Definition tells (full : bool) (x : TraceEntry) : Prop := full || is_interesting (te_event x) = true.

#[export] Instance tells_dec full x : Decision (tells full x).
Proof. unfold tells. apply _. Defined.

(** The timeline of [replay] is the beginning of the story. It prints the first
    [limit] entries, in order, of those that are about the node asked for and tell
    something (all of them with [--full]), and counts every other entry of that node
    as not shown. *)
Theorem the_timeline_is_a_prefix_of_the_story (full : bool) (node : option NodeId) (limit : nat) (trace : list TraceEntry) :
  let story := filter (tells full) (filter (about node) trace) in
  timeline full node limit trace =
    (take limit story, (length (filter (about node) trace) - length (take limit story))%nat).
Proof.
  cbv zeta. unfold timeline.
  assert (H : forall trace shown skipped, (length shown <= limit)%nat ->
    fold_left (replay_step full node limit) trace (shown, skipped) =
      let story := filter (tells full) (filter (about node) trace) in
      (shown ++ take (limit - length shown) story,
       (skipped + length (filter (about node) trace) - length (take (limit - length shown) story))%nat)).
  { clear trace. induction trace as [|x trace IH]; intros shown skipped Hl.
    - cbv zeta. rewrite !filter_nil, take_nil, app_nil_r. simpl. f_equal. lia.
    - cbn [fold_left]. rewrite (filter_cons (about node)).
      destruct (decide (about node x)) as [Ha|Ha].
      + assert (E : match node with Some n => negb (bool_decide (Event_node (te_event x) = Some n)) | None => false end = false).
        { destruct node as [n|]; [|done]. simpl in Ha. by rewrite bool_decide_true. }
        unfold replay_step at 2. rewrite E. rewrite (filter_cons (tells full)).
        destruct (decide (tells full x)) as [Ht|Ht].
        * assert (E2 : negb full && negb (is_interesting (te_event x)) = false) by (unfold tells in Ht; destruct full, (is_interesting _); done).
          rewrite E2. destruct (Nat.leb_spec limit (length shown)) as [Hge|Hlt].
          -- rewrite IH by done. replace (limit - length shown)%nat with 0%nat by lia. simpl. f_equal. lia.
          -- rewrite IH by (rewrite length_app; simpl; lia). rewrite length_app. simpl length.
             replace (limit - length shown)%nat with (S (limit - (length shown + 1)))%nat by lia. cbn [take length].
             rewrite <- app_assoc. f_equal. lia.
        * assert (E2 : negb full && negb (is_interesting (te_event x)) = true) by (unfold tells in Ht; destruct full, (is_interesting _); done).
          rewrite E2, IH by done. f_equal. cbn [length].
          pose proof (length_filter (tells full) (filter (about node) trace)).
          pose proof (firstn_le_length (limit - length shown) (filter (tells full) (filter (about node) trace))). lia.
      + assert (E : match node with Some n => negb (bool_decide (Event_node (te_event x) = Some n)) | None => false end = true).
        { destruct node as [n|]; [simpl in Ha; by rewrite bool_decide_false|by destruct Ha]. }
        unfold replay_step at 2. rewrite E. by apply IH. }
  rewrite H by (simpl; lia). simpl. by rewrite Nat.sub_0_r.
Qed.

(** An event belongs to the node that sends: [--node 2] leaves out what node 2 was
    sent, and does not count it as left out. *)
Example deliveries_are_not_shown :
  timeline true (Some 2) 400 [mkTraceEntry 5 0 (EvDeliver 1 2 7 10); mkTraceEntry 6 1 (EvPartition 1 2 false)] = ([], 0%nat).
Proof. reflexivity. Qed.

(** The artifact keeps the last three hundred entries, in order. *)
Lemma trace_tail_drops trace : trace_tail trace = drop (length trace - 300) trace.
Proof. unfold trace_tail. rewrite firstn_rev, rev_involutive. done. Qed.

(** ** The command that reproduces a failure *)

(** The flags of a line, and what they set. *)
Definition reproduce_flags (w : World) : list (string * string) :=
  [("policy", w_policy w); ("servers", dec (w_servers w)); ("clients", dec (w_clients w)); ("keys", dec (w_keys w));
   ("secs", dec (w_secs w))]%string.

Lemma reproduce_run_flags seed w :
  reproduce_run seed w = ("chronoscope replay --seed " ++ hex18 seed
    ++ fold_right (fun f s => flag f.1 f.2 ++ s) "" (reproduce_flags w))%string.
Proof. unfold reproduce_run. simpl. by rewrite append_nil_r. Qed.

Definition number (limit : Z) (s : string) : option Z := to_option (from_str_radix limit 10 s).

Definition set_flag (w : World) (f : string * string) : option World :=
  let '(mkWorld policy servers clients keys secs reads lease spares reconf) := w in
  let '(name, v) := f in
  if String.eqb name "policy" then Some (mkWorld v servers clients keys secs reads lease spares reconf)
  else if String.eqb name "servers" then
    n ← number U32 v; Some (mkWorld policy n clients keys secs reads lease spares reconf)
  else if String.eqb name "clients" then
    n ← number U32 v; Some (mkWorld policy servers n keys secs reads lease spares reconf)
  else if String.eqb name "keys" then
    n ← number U32 v; Some (mkWorld policy servers clients n secs reads lease spares reconf)
  else if String.eqb name "secs" then
    n ← number U64 v; Some (mkWorld policy servers clients keys n reads lease spares reconf)
  else if String.eqb name "reads" then
    n ← number U32 v; Some (mkWorld policy servers clients keys secs n lease spares reconf)
  else if String.eqb name "lease-reads" then Some (mkWorld policy servers clients keys secs reads true spares reconf)
  else if String.eqb name "spares" then
    n ← number U32 v; Some (mkWorld policy servers clients keys secs reads lease n reconf)
  else if String.eqb name "reconfigure-secs" then
    n ← number U64 v; Some (mkWorld policy servers clients keys secs reads lease spares n)
  else None.

Fixpoint set_flags (fs : list (string * string)) (w : World) : option World :=
  match fs with
  | [] => Some w
  | f :: fs => w ← set_flag w f; set_flags fs w
  end.

Record World_ok (w : World) : Prop := {
  wo_servers : is_u32 (w_servers w);
  wo_clients : is_u32 (w_clients w);
  wo_keys : is_u32 (w_keys w);
  wo_secs : is_u64 (w_secs w)
}.

Lemma number_u32 n : is_u32 n -> number U32 (dec n) = Some n.
Proof.
  intros Hn. assert (Hu : is_u64 n) by (unfold is_u32, is_u64 in *; lia). unfold number.
  destruct (dec_numeral n Hu) as (k & Hk & Hp & ->). unfold is_u32 in Hn. rewrite read_printed by lia.
  destruct (Z.leb_spec U32 n); [lia|done].
Qed.

Lemma number_u64 n : is_u64 n -> number U64 (dec n) = Some n.
Proof. intros Hn. unfold number. by rewrite dec_reads_back. Qed.

Lemma flags_read_back w : World_ok w ->
  set_flags (reproduce_flags w) World_default =
    Some (mkWorld (w_policy w) (w_servers w) (w_clients w) (w_keys w) (w_secs w) 40 false 0 0).
Proof.
  intros [Hs Hc Hk Hsec]. unfold reproduce_flags, World_default.
  generalize (number_u32 _ Hs), (number_u32 _ Hc), (number_u32 _ Hk), (number_u64 _ Hsec).
  generalize (dec (w_servers w)), (dec (w_clients w)), (dec (w_keys w)), (dec (w_secs w)). intros s c k t E1 E2 E3 E4.
  simpl. rewrite E1. simpl. rewrite E2. simpl. rewrite E3. simpl. rewrite E4. done.
Qed.

(** The command printed to reproduce a failure is not always the run that failed. Its
    seed and flags are read back as they were; the universe they describe is the one
    that failed when and only when that was run with the default share of reads,
    without lease reads, spare nodes or membership changes, for which the line has no flag. *)
Theorem the_printed_command_drops_flags (max_ops : nat) (seed : Z) (w : World) (mode : TraceMode) :
  is_u64 seed -> World_ok w -> is_Some (preset (w_policy w)) ->
  parse_seed (hex18 seed) = Ok seed /\
  exists w', set_flags (reproduce_flags w) World_default = Some w' /\
    (World_config max_ops w' seed mode = World_config max_ops w seed mode <->
     w_reads w = 40 /\ w_lease_reads w = false /\ w_spares w = 0 /\ w_reconfigure_secs w = 0).
Proof.
  intros Hseed Hw [policy Hp]. split.
  - by apply parse_seed_hex.
  - eexists. split; [by apply flags_read_back|]. unfold World_config. cbn [w_policy w_reads w_lease_reads w_spares w_reconfigure_secs w_servers w_clients w_keys w_secs].
    rewrite Hp. rewrite Z.eqb_refl. split.
    + intros [= H1 H2 H3 H4]. destruct (Z.eqb_spec (w_reconfigure_secs w) 0); done.
    + intros (-> & -> & -> & ->). done.
Qed.

Lemma the_printed_command_drops_flags_witness :
  let w := mkWorld "torture" 5 8 3 30 70 true 2 15 in
  parse_seed (hex18 0x8f3a2b1c) = Ok 0x8f3a2b1c /\
  exists w', set_flags (reproduce_flags w) World_default = Some w' /\
    (World_config 5 w' 0x8f3a2b1c Full = World_config 5 w 0x8f3a2b1c Full <->
     w_reads w = 40 /\ w_lease_reads w = false /\ w_spares w = 0 /\ w_reconfigure_secs w = 0).
Proof. apply the_printed_command_drops_flags; [by_decide | split; by_decide | eexists; reflexivity]. Defined.

(** ** The verdict *)

Section Verdict.
Context (max_ops bench_ops : nat) (available : option nat).
Context (run : ScenarioConfig -> option RunReport) (guard : ScenarioConfig -> option DeterminismReport).
Context (report_text : RunReport -> string) (failure_text : Failure -> string) (trace_of : RunReport -> list TraceEntry).
Context (compressed : RunReport -> Z -> string) (history_text : History.Event -> string).

(** A seed of the range [from], [from + 1], .. up to [seeds] of them, wrapping. *)
Definition in_range (seeds from seed : Z) : Prop := exists i, 0 <= i < seeds /\ seed = from +64 i.

(** The run ended, and did not fail. *)
Definition passes (run_of : option RunReport) : Prop := exists report, run_of = Some report /\ failure report = None.

(** Nothing to report: what exit code 0 says. *)
Definition clean (c : Command) : Prop :=
  match c with
  | Run seed w _ =>
      forall cfg, World_config max_ops w seed (Tail (64 * 64)) = Some cfg -> passes (run cfg)
  | Replay seed w full _ limit =>
      forall cfg, World_config max_ops w seed (replay_mode full limit) = Some cfg -> passes (run cfg)
  | Check_ seeds from w _ =>
      forall seed cfg, in_range seeds from seed -> World_config max_ops w seed HashOnly = Some cfg ->
        exists report, guard cfg = Some report /\ is_deterministic report = true
  | Swarm seeds from _ w _ =>
      forall seed cfg, in_range seeds from seed -> World_config max_ops w seed (Tail (64 * 32)) = Some cfg ->
        passes (run cfg)
  | Bench _ _ _ _ => True
  end.

Definition Command_ok (c : Command) : Prop :=
  match c with
  | Check_ seeds _ _ parallel | Swarm seeds _ parallel _ _ =>
      0 <= seeds /\ seeds + Z.of_nat (threads available parallel) + 1 < U64 /\ (0 < threads available parallel)%nat
  | _ => True
  end.

(** Whether all of a range passes, asked of the workers and of the seeds. *)
Lemma judged_clean {A} w seeds from mode (f : ScenarioConfig -> option A) (bad : A -> bool) :
  is_Some (preset (w_policy w)) \/ seeds = 0 ->
  (forall i, 0 <= i < seeds ->
    (cfg ← World_config max_ops w (seed_of from i) mode; report ← f cfg; Some (bad report)) = Some false) <->
  (forall seed cfg, in_range seeds from seed -> World_config max_ops w seed mode = Some cfg ->
    exists report, f cfg = Some report /\ bad report = false).
Proof.
  intros Hp. unfold seed_of. split.
  - intros H seed cfg (i & Hi & ->) Hc. specialize (H i Hi). rewrite Hc in H. simpl in H.
    destruct (f cfg) as [report|]; [|done]. injection H as H. eauto.
  - intros H i Hi. destruct Hp as [[policy Hp]|]; [|lia].
    assert (Hc : exists cfg, World_config max_ops w (from +64 i) mode = Some cfg) by (unfold World_config; rewrite Hp; eauto).
    destruct Hc as [cfg E]. rewrite E. simpl.
    destruct (H _ cfg (ex_intro _ i (conj Hi eq_refl)) E) as (report & -> & Hb). simpl. by rewrite Hb.
Qed.

Lemma passes_iff (f : option RunReport) :
  passes f <-> exists report, f = Some report /\ (match failure report with Some _ => true | None => false end) = false.
Proof. unfold passes. split; intros (r & E & H); exists r; (split; [done|]); by destruct (failure r). Qed.

Lemma diverges_clean w seeds from : is_Some (preset (w_policy w)) \/ seeds = 0 ->
  (forall i, 0 <= i < seeds -> diverges max_ops guard w from i = Some false) <->
  (forall seed cfg, in_range seeds from seed -> World_config max_ops w seed HashOnly = Some cfg ->
    exists report, guard cfg = Some report /\ is_deterministic report = true).
Proof.
  intros Hp. unfold diverges. rewrite (judged_clean w seeds from HashOnly guard) by done.
  split; intros H seed cfg Hr Hc; destruct (H seed cfg Hr Hc) as (r & E & Hd); exists r; (split; [done|]);
    destruct (is_deterministic r); done.
Qed.

Lemma run_fails_clean w seeds from : is_Some (preset (w_policy w)) \/ seeds = 0 ->
  (forall i, 0 <= i < seeds -> run_fails max_ops run w from i = Some false) <->
  (forall seed cfg, in_range seeds from seed -> World_config max_ops w seed (Tail (64 * 32)) = Some cfg -> passes (run cfg)).
Proof.
  intros Hp. unfold run_fails. rewrite (judged_clean w seeds from (Tail (64 * 32)) run) by done.
  split; intros H seed cfg Hr Hc; apply passes_iff; by apply (H seed cfg).
Qed.

(** The exit code is the verdict. Unless a command is refused (code 2), one that
    ends ends with 0 when and only when there was nothing to report: for [run] and
    [replay] that the run did not fail, for [check] that every seed of the range
    reproduced, for [swarm] that no seed of the range failed, on any number of
    threads, in any interleaving, with or without [--fail-fast]. *)
Theorem the_exit_code_is_the_verdict (made : bool) (c : Command) (code : Z) :
  Command_ok c ->
  main_exits max_ops bench_ops available run guard report_text failure_text trace_of compressed history_text made c code ->
  code <> 2 -> (code = 0 <-> clean c).
Proof.
  intros Hok H. destruct H as [seed w history code out E|seed w full node limit code out E|seeds from w parallel p Hp Hr Ho|seeds from parallel w ff p Hm Hp Hr Ho| | |]; try done.
  - unfold cmd_run in E. unfold clean. destruct (World_config max_ops w seed _) as [cfg|]; [|by injection E as <- <-].
    intros _. destruct (run cfg) as [report|] eqn:Er; [|done]. simpl in E.
    destruct (failure report) as [why|] eqn:Ef; injection E as <- _; (split; [intros H|intros H]); try done.
    + destruct (H cfg eq_refl) as (r & E & Hf). congruence.
    + intros cfg' [= <-]. by exists report.
  - unfold cmd_replay in E. unfold clean. destruct (World_config max_ops w seed _) as [cfg|]; [|by injection E as <- <-].
    intros _. destruct (run cfg) as [report|] eqn:Er; [|done]. simpl in E. destruct (timeline _ _ _ _) as [shown skipped].
    destruct (failure report) as [why|] eqn:Ef; injection E as <- _; (split; [intros H|intros H]); try done.
    + destruct (H cfg eq_refl) as (r & E & Hf). congruence.
    + intros cfg' [= <-]. by exists report.
  - intros _. destruct Hok as (H1 & H2 & H3). simpl. rewrite <- diverges_clean by done.
    by apply (every_seed_is_judged CheckSeeds seeds _ _ H1 H2 p H3).
  - intros _. destruct Hok as (H1 & H2 & H3). simpl. rewrite <- run_fails_clean by done.
    by apply (every_seed_is_judged (SwarmSeeds ff) seeds _ _ H1 H2 p H3).
Qed.
End Verdict.

(** A simulator under which seed 42 livelocks and every other seed passes. *)
Definition demo_report (cfg : ScenarioConfig) : option RunReport :=
  Some (mkRunReport (sc_seed cfg) (if sc_seed cfg =? 42 then Sim.Livelock 5000 else Sim.HorizonReached) 0 0 0 [] Linearizable
    Invariants.Invariants_new (Liveness.Watchdog_new Liveness.Budget_default) 0 0 0 true).

Definition demo_guard (cfg : ScenarioConfig) : option DeterminismReport :=
  first ← demo_report cfg; second ← demo_report cfg; Some (compare_runs (sc_seed cfg) first second).

Definition demo_swarm : Command := Swarm 3 41 2 World_default false.

(** Three seeds from 41 on two threads: the command ends with 1, since 42 is among them. *)
Lemma the_exit_code_is_the_verdict_witness :
  exit_code demo_pool = 1 /\ (exit_code demo_pool = 0 <-> clean 20 demo_report demo_guard demo_swarm).
Proof.
  split; [vm_compute; reflexivity|].
  apply (the_exit_code_is_the_verdict 20 30 None demo_report demo_guard (fun _ => "") (fun _ => "")
    (fun _ => []) (fun _ _ => "") (fun _ => "") true demo_swarm).
  - vm_compute. repeat split; congruence || lia.
  - apply exits_swarm; [done|left; by eexists| |].
    + apply rtc_nsteps; exists (length demo_sched); apply run_schedule_steps. vm_compute. reflexivity.
    + vm_compute. repeat constructor.
  - vm_compute. congruence.
Defined.
